(* ===== verification/_CoqProject ===== *)
-Q . S2P
Prelude.v
Arch.v
Memory.v
DwarfOp.v
DwarfCfa.v
DwarfTable.v
Instructions.v
DwarfEntry.v
Exidx.v
Text.v
Maps.v
ElfParser.v
Elf.v
Unwinder.v
Allocator.v
UniqueStack.v
Tasks.v
Coredump.v
Pipes.v
AddressIndex.v
LruCache.v
Minidump.v
MinidumpStreams.v
ThreadContext.v
CoreBuffer.v
CoreNotes.v
CoreFile.v
LiteDump.v
LiteReader.v
LiteRoundtrip.v
