(* ===== verification/Prelude.v ===== *)
(** * Faultloggerd: a verification development

    Faultloggerd is the fault logging subsystem of OpenHarmony: libraries that unwind the stacks of
    threads, and a daemon that serves requests for dumps.  This development models the parts that
    carry its own logic, from the bytes of unwind tables to the restored registers of a caller on
    one side, and the event loop, task queues and services of the daemon on the other.  Paths below
    are under src/; "unwinder" is interfaces/innerkits/unwinder.

    ** Parts, files and correspondence

    - [Prelude]: results of C++ code ([outcome]: a value, undefined behaviour of a named kind, or
      no more fuel), machine integers ([u8] to [u64], [s32], ...), byte lists, and the lemmas and
      tactics that the other files share.
    - [Arch]: the five targets as instances of the class [Arch] (interfaces/common/unwind_*_define.h)
      and the register file (unwinder/src/registers/dfx_regs.cpp, include/dfx_regs_qut.h).
    - [Memory]: [DfxMemory] (unwinder/src/memory/dfx_memory.cpp) over an arbitrary word accessor:
      the accessor (ptrace, /proc/self/mem, a file) is a function of the record.
    - [DwarfOp]: the DWARF expression machine (include/dwarf_op.h, dwarf_op.cpp).
    - [DwarfCfa]: the call frame instruction interpreter (dwarf_cfa_instructions.cpp).  [DwarfTable]:
      the rows of an unwind table as the DWARF standard defines them, and that it computes them.
    - [Instructions]: the application of register rules (src/utils/dfx_instructions.cpp); it runs
      [DwarfOp] for expression rules and takes the rules that [DwarfCfa] and [Exidx] produce.
    - [DwarfEntry]: search and parsing of .eh_frame entries (dwarf_entry_parser.cpp); its [Step]
      runs [DwarfCfa.Parse].
    - [Exidx]: ARM exception tables (exidx_entry_parser.cpp).
    - [Text]: string helpers (common/dfxutil/string_util.h, dfx_util.cpp).
    - [Maps]: the memory maps of a process (unwinder/src/maps/dfx_map.cpp, dfx_maps.cpp): parsing of
      /proc/pid/maps and lookup of addresses.
    - [ElfParser]: mapped files (unwinder/src/elf/dfx_mmap.cpp) and the parser of both classes of
      ELF files over them (dfx_elf_parser.cpp): headers, sections, symbols, notes.
    - [Elf]: [DfxElf] and its caches (dfx_elf.cpp), the factories that make its objects
      (elf_factory.cpp, elf_factory_selector.cpp), the maps that own them (dfx_map.cpp) and symbol
      names (dfx_symbols.cpp); it finds the tables that [DwarfEntry] and [Exidx] search.
    - [Unwinder]: [Unwinder::Impl] for aarch64 (unwinder/unwinder.cpp, parts of
      src/memory/dfx_accessors.cpp and src/registers/dfx_regs_arm64.cpp): the loops that walk a stack
      with [Maps], [Instructions] and an entry parser, which is any instance of the class
      [EntryParser] ([DwarfEntry] and [Exidx] are).
    - [ThreadContext]: stacks of other threads of the process (unwinder/src/unwind_local,
      src/utils/safe_reader.cpp, include/fp_unwinder.h): requester and signal handlers as labelled
      steps on shared objects.
    - [CoreBuffer], [CoreNotes], [CoreFile]: the writer of core files (tools/process_dump/coredump): the
      mapped buffer, the configuration and the regions of a process; the notes of the process and of
      its threads; headers, memory, sections and the generator from a request to the finished file.
    - [LiteDump], [LiteReader]: dumps that a process makes of itself (interfaces/innerkits/signal_handler:
      dfx_lite_dump_request.c, safe_reader.c, DumpPrviProcess of dfx_dumprequest.c) and the process that
      reads them (tools/process_dump/lite_process_dumper.cpp), which hands the maps to [Maps].  The handlers
      of the threads are interleaved steps on one mapping and one pipe.  [LiteRoundtrip]: what is written is
      what is read.
    - [Allocator]: the allocator of the crash dumper (frameworks/allocator/dfx_allocator.c) over a
      memory of words.
    - [UniqueStack]: the concurrent table of call stacks
      (interfaces/innerkits/async_stack/unique_stack_table.cpp); its insertions run against lists of
      the exchanges that other threads make between their steps.
    - [Tasks]: the event loop and the two task queues (services/epoll_manager.cpp).
    - [Coredump]: core dumps on request (services/coredump), with the crash records of
      services/temp_file_manager.cpp; its timeouts are delayed tasks of [Tasks].
    - [Pipes]: the pipes between dumped processes and clients (services/fault_logger_pipe.cpp) and
      four services of services/fault_logger_service.cpp; their clean-up tasks are delayed tasks of
      [Tasks].

    - [AddressIndex]: the indexes from addresses to numbered ranges of the minidump parser
      (tools/process_dump/minidump_parser: minidump_index.cpp, minidump_optimizer.cpp): linear scan,
      AVL interval tree, range map, bitmap filter and the index that migrates between them, all
      instances of the class [AddressIndex], against which their clients are proved.
    - [LruCache]: the cache of include/minidump_lru_cache.h.
    - [Minidump]: the reader over a mapped minidump, its strings and raw structures
      (minidump_memory_reader.cpp, include/minidump_format.h, minidump_context.cpp).
    - [MinidumpStreams]: the streams of a minidump, [MinidumpParser], the parallel pipeline and the
      memory near registers (minidump_memory.cpp, minidump_module.cpp, minidump_thread.cpp, ...,
      minidump_parser.cpp, minidump_stream_pipeline.cpp, ../minidump_dumper.cpp); it uses the three
      files before it.

    State that C++ keeps in objects is a record, passed in and out; references are returned values;
    maps are [gmap]s, deques, lists and vectors are lists; calls of the kernel, of the clock and of
    code outside the repository are arguments, with their failures.  Log output is left out.

    ** What the theorems show

    - Refinement: call frame programs give the rows of the DWARF standard ([Parse_refines]); exception
      tables implement the abstract stack machine of their instructions ([exidx_refines]);
      expressions evaluate to their denotation ([Eval_compiled]); the coredump services implement
      a specification of dump jobs ([coredump_refines]); the allocator implements a heap of
      disjoint chunks ([heap_refines]); the adaptive address index implements a scan
      ([adaptive_lookup]) and the cache a list of recent entries ([lru_refines]); the event loop
      implements an abstract loop over its listeners ([event_loop_refines]).
    - Function: rules give every register its caller's value ([Apply_restores], and on
      every branch [Apply_rules]); table searches
      find what a linear scan finds ([SearchEntry_floor]); caches are transparent
      ([ParseFde_transparent]); files give their unwind tables and symbols ([ParseAllHeaders_spec],
      [table_then_entry], [lookups_lazy_eager]); addresses are found in the maps of a process ([maps_lookup]); stacks
      are walked along their frame pointers ([UnwindByFp_walks]); interval trees
      are balanced and searched right ([interval_tree_search]); a minidump gives the memory it
      holds ([minidump_memory]), in whatever order its streams are read
      ([ParseParallel_order]); a core file holds the notes and the memory of its process
      ([core_dump_complete]); due tasks run once, in order ([OnTimer_runs_due],
      [Execute_runs_due]).
    - Round trips: LEB128 numbers ([leb128_roundtrip]); lines of a maps file ([map_line_roundtrip]);
      build ids ([GetBuildId_roundtrip]); directories and strings of minidumps ([Parse_directory],
      [ReadString_utf8]); a lite dump through its pipe ([lite_dump_roundtrip], [lite_rest_parsed]), with the
      handlers of other threads filling their slots in any order; stacks through the concurrent table
      ([stack_roundtrip], [stack_unique], [resize_keeps_stacks]).
    - Invariants and safety over whole runs: the stack table ([unique_table_invariant]),
      the descriptors of dump clients
      ([client_protocol]), the table kept for a file
      ([FindUnwindTableInfo_cache]), the stacks collected from other threads
      ([UnwindLocalWithTid_fresh], [mix_collects]), the pipes and their quotas ([pipes_invariant], [write_end_once]).
    - Totality on arbitrary input: unwinding ([Unwind_terminates]), instruction streams, exception tables and branch-free
      expressions ([Parse_total], [exidx_total], [Eval_terminates]), ELF files
      ([raw_reads_in_mapping]).
    - What the code does where it differs from the standards it implements or from its own
      comments ([offset_forms_differ], [GetCfa_negative_offset], [timeout_use_after_free],
      [adjacent_region_lost], [Parse_again], [lost_wakeup], [mix_race], [mix_stale], [far_timeout_blocks],
      [core_dump_estimate_too_small], [pipe_mixes_threads], ...).

    ** Fuel

    Loops over bytes or tasks take a [nat] of fuel and give [OutOfFuel] when it is used up.  The
    theorems that state a result give the fuel that is enough: one unit per instruction
    ([Parse_refines]), per operation ([Eval_compiled]), per byte ([Parse_total],
    [Eval_terminates]), the logarithm of the table ([SearchEntry_floor]), the number of tasks plus
    one ([OnTimer_runs_due], [Execute_runs_due]), the bytes to transfer plus the results that the system has
    in store ([lite_dump_roundtrip]), the skipped and requested frames plus two
    ([Unwind_terminates]).  [DwarfOp.Eval] can loop for ever ([Eval_skip_diverges]),
    and so can the unwinding of another process at a signal frame ([Unwind_signal_livelock]).

    ** Not modelled

    The xz library and the demanglers (arguments of [Elf]); the names and symbols of frames in
    [Unwinder], whose tables are an argument; the refactored copy of the drivers; dump catcher, daemon client and the other
    signal handlers (sockets, /proc, ptrace, clone); of lite dumps the requests for the pipe, the fork, and
    the unwinding and printing of what was read; formatters (a third-party JSON library); the services
    of fault_logger_service.cpp that only relay files and statistics; snapshot and minidump
    collection; of the core dumper the messages to the daemon and the signal that cancels it; of the
    minidump parser the reader over a [std::istream], observers, statistics
    and printing; other tools, utilities, bindings. *)
From stdpp Require Export base tactics option list gmap strings numbers.
From Stdlib Require Export ZArith Lia Bool.

#[export] Set Default Goal Selector "!".
Global Open Scope Z_scope.
Coercion Z.of_nat : nat >-> Z.

(** ** Undefined behaviour, fuel and results

    C++ code can return, run into undefined behaviour (reading an uninitialised local, an
    out-of-range shift, signed overflow, an out-of-bounds index, a null pointer), or loop.  Each is a value. *)
Inductive ub_kind :=
| UninitRead
| BadShift
| SignedOverflow
| OutOfBounds
| DivByZero
| UseAfterFree
| NullDeref.

Inductive outcome (A : Type) :=
| Ret (a : A)
| Undef (k : ub_kind)
| OutOfFuel.
Arguments Ret {A} a.
Arguments Undef {A} k.
Arguments OutOfFuel {A}.

#[export] Instance outcome_mret : MRet outcome := @Ret.
#[export] Instance outcome_mbind : MBind outcome := λ A B f c,
  match c with
  | Ret a => f a
  | Undef k => Undef k
  | OutOfFuel => OutOfFuel
  end.

#[export] Instance ub_kind_eq_dec : EqDecision ub_kind.
Proof. solve_decision. Defined.

(** A computation that returns a value: neither undefined nor out of fuel. *)
Definition returns {A} (c : outcome A) : Prop := ∃ a, c = Ret a.

Lemma bind_Ret {A B} (c : outcome A) (f : A → outcome B) b :
  (c ≫= f) = Ret b ↔ ∃ a, c = Ret a ∧ f a = Ret b.
Proof. destruct c; simpl; naive_solver. Qed.

Lemma returns_Ret {A} (a : A) : returns (Ret a).
Proof. by exists a. Qed.

Lemma returns_bind {A B} (c : outcome A) (f : A → outcome B) :
  returns (c ≫= f) ↔ ∃ a, c = Ret a ∧ returns (f a).
Proof.
  unfold returns. destruct c; simpl; split; intros; naive_solver.
Qed.

(** ** Machine integers

    An unsigned w-bit integer is a [Z] in [0, 2^w); a signed one a [Z] in [-2^(w-1), 2^(w-1)).
    [wrap] and [swrap] are the conversions of the language. *)
Definition wrap (w z : Z) : Z := z mod 2 ^ w.
Definition swrap (w z : Z) : Z := (z + 2 ^ (w - 1)) mod 2 ^ w - 2 ^ (w - 1).

Abbreviation u8 := (wrap 8).
Abbreviation u16 := (wrap 16).
Abbreviation u32 := (wrap 32).
Abbreviation u64 := (wrap 64).
Abbreviation s8 := (swrap 8).
Abbreviation s16 := (swrap 16).
Abbreviation s32 := (swrap 32).
Abbreviation s64 := (swrap 64).

(** [z] is a value of the unsigned (signed) w-bit type. *)
Definition fits (w z : Z) : Prop := 0 <= z < 2 ^ w.
Definition sfits (w z : Z) : Prop := - 2 ^ (w - 1) <= z < 2 ^ (w - 1).

Definition fitsb (w z : Z) : bool := (0 <=? z) && (z <? 2 ^ w).
Definition sfitsb (w z : Z) : bool := (- 2 ^ (w - 1) <=? z) && (z <? 2 ^ (w - 1)).

(** Signed arithmetic: a result that does not fit is undefined behaviour. *)
Definition signed_result (w z : Z) : outcome Z :=
  if sfitsb w z then Ret z else Undef SignedOverflow.

(** Shifts of a w-bit value: a count of w or more is undefined behaviour. *)
Definition shl (w a n : Z) : outcome Z :=
  if n <? w then Ret (wrap w (Z.shiftl a n)) else Undef BadShift.
Definition shr (w a n : Z) : outcome Z :=
  if n <? w then Ret (Z.shiftr a n) else Undef BadShift.

Create HintDb mach.

Lemma wrap_range w z : 0 <= w → 0 <= wrap w z < 2 ^ w.
Proof. intros. apply Z.mod_pos_bound. by apply Z.pow_pos_nonneg. Qed.

Lemma wrap_fits w z : 0 <= w → fits w (wrap w z).
Proof. apply wrap_range. Qed.

Lemma wrap_small w z : fits w z → wrap w z = z.
Proof. apply Z.mod_small. Qed.

Lemma wrap_wrap w z : 0 <= w → wrap w (wrap w z) = wrap w z.
Proof. intros. by apply wrap_small, wrap_fits. Qed.

Lemma wrap_add_l w a b : wrap w (wrap w a + b) = wrap w (a + b).
Proof. unfold wrap. apply Zplus_mod_idemp_l. Qed.

Lemma wrap_add_r w a b : wrap w (a + wrap w b) = wrap w (a + b).
Proof. unfold wrap. apply Zplus_mod_idemp_r. Qed.

Lemma swrap_range w z : 0 < w → sfits w (swrap w z).
Proof.
  intros. unfold sfits, swrap.
  assert (2 ^ w = 2 * 2 ^ (w - 1)) as E.
  { rewrite <- Z.pow_succ_r by lia. f_equal. lia. }
  pose proof (Z.mod_pos_bound (z + 2 ^ (w - 1)) (2 ^ w)) as B.
  assert (0 < 2 ^ (w - 1)) by (apply Z.pow_pos_nonneg; lia). lia.
Qed.

Lemma swrap_small w z : 0 < w → sfits w z → swrap w z = z.
Proof.
  intros ? [? ?]. unfold swrap.
  assert (2 ^ w = 2 * 2 ^ (w - 1)) as E.
  { rewrite <- Z.pow_succ_r by lia. f_equal. lia. }
  rewrite Z.mod_small by lia. lia.
Qed.

(** The two conversions agree modulo 2^w. *)
Lemma wrap_swrap w z : 0 < w → wrap w (swrap w z) = wrap w z.
Proof.
  intros. unfold wrap, swrap.
  rewrite <- Zminus_mod_idemp_l, Z.mod_mod by (apply Z.pow_nonzero; lia).
  rewrite Zminus_mod_idemp_l. f_equal. lia.
Qed.

Lemma swrap_wrap w z : swrap w (wrap w z) = swrap w z.
Proof. unfold swrap, wrap. by rewrite Zplus_mod_idemp_l. Qed.

Lemma fitsb_spec w z : fitsb w z = true ↔ fits w z.
Proof. unfold fitsb, fits. rewrite andb_true_iff, Z.leb_le, Z.ltb_lt. done. Qed.

Lemma sfitsb_spec w z : sfitsb w z = true ↔ sfits w z.
Proof. unfold sfitsb, sfits. rewrite andb_true_iff, Z.leb_le, Z.ltb_lt. done. Qed.

Lemma signed_result_Ret w z : sfits w z → signed_result w z = Ret z.
Proof. intros H%sfitsb_spec. unfold signed_result. by rewrite H. Qed.

Lemma shl_Ret w a n : n < w → shl w a n = Ret (wrap w (Z.shiftl a n)).
Proof. intros. unfold shl. by rewrite (proj2 (Z.ltb_lt _ _)). Qed.

Lemma shr_Ret w a n : n < w → shr w a n = Ret (Z.shiftr a n).
Proof. intros. unfold shr. by rewrite (proj2 (Z.ltb_lt _ _)). Qed.

#[export] Hint Resolve wrap_fits wrap_range swrap_range returns_Ret : mach.
#[export] Hint Rewrite wrap_wrap using lia : mach.
#[export] Hint Rewrite wrap_add_l wrap_add_r swrap_wrap : mach.

(** ** Tactics *)

(** Turn the boolean comparisons of the hypotheses and the goal into propositions. *)
Ltac zbool :=
  repeat match goal with
  | H : _ && _ = true |- _ => apply andb_true_iff in H as [? ?]
  | H : _ || _ = false |- _ => apply orb_false_iff in H as [? ?]
  | H : _ && _ = false |- _ => apply andb_false_iff in H
  | H : _ || _ = true |- _ => apply orb_true_iff in H
  | H : negb _ = true |- _ => apply negb_true_iff in H
  | H : negb _ = false |- _ => apply negb_false_iff in H
  | H : (_ <? _) = true |- _ => apply Z.ltb_lt in H
  | H : (_ <? _) = false |- _ => apply Z.ltb_ge in H
  | H : (_ <=? _) = true |- _ => apply Z.leb_le in H
  | H : (_ <=? _) = false |- _ => apply Z.leb_gt in H
  | H : (_ =? _) = true |- _ => apply Z.eqb_eq in H
  | H : (_ =? _) = false |- _ => apply Z.eqb_neq in H
  end.

(** Decide an integer comparison that is the scrutinee of an [if]. *)
Ltac zcase :=
  match goal with
  | |- context [if ?a <? ?b then _ else _] => destruct (Z.ltb_spec a b)
  | |- context [if ?a <=? ?b then _ else _] => destruct (Z.leb_spec a b)
  | |- context [if ?a =? ?b then _ else _] => destruct (Z.eqb_spec a b)
  end.

(** Follow a computation that is known to return. *)
Ltac run_inv :=
  repeat match goal with
  | H : Ret _ = Ret _ |- _ => injection H; clear H; intros; subst
  | H : Undef _ = Ret _ |- _ => discriminate H
  | H : OutOfFuel = Ret _ |- _ => discriminate H
  | H : mret _ = Ret _ |- _ => unfold mret, outcome_mret in H
  | H : (_ ≫= _) = Ret _ |- _ =>
      let a := fresh "r" in let E := fresh "E" in apply bind_Ret in H as (a & E & H)
  | r : (_ * _)%type |- _ => destruct r
  end.

(** Equality of results, component by component. *)
Ltac pair_eq :=
  repeat match goal with
  | |- Ret _ = Ret _ => f_equal
  | |- Some _ = Some _ => f_equal
  | |- (_, _) = (_, _) => f_equal
  end.

(** ** Little-endian bytes *)
Fixpoint le_bytes (n : nat) (z : Z) : list Z :=
  match n with
  | O => []
  | S n' => wrap 8 z :: le_bytes n' (Z.shiftr z 8)
  end.

Fixpoint of_le (bs : list Z) : Z :=
  match bs with
  | [] => 0
  | b :: bs' => b + 256 * of_le bs'
  end.

Definition is_byte (b : Z) : Prop := fits 8 b.

Lemma length_le_bytes n z : length (le_bytes n z) = n.
Proof. revert z. induction n; intros; simpl; auto. Qed.

Lemma le_bytes_is_byte n z : Forall is_byte (le_bytes n z).
Proof. revert z. induction n; intros; simpl; constructor; eauto. apply wrap_fits. lia. Qed.

Lemma of_le_le_bytes n z : of_le (le_bytes n z) = wrap (8 * n) z.
Proof.
  revert z. induction n as [|n IH]; intros z.
  - simpl. unfold wrap. by rewrite Z.mod_1_r.
  - simpl le_bytes. simpl of_le. rewrite IH. unfold wrap.
    rewrite Z.shiftr_div_pow2 by lia.
    replace (8 * S n) with (8 + 8 * n) by lia.
    rewrite Z.pow_add_r by lia. change (2 ^ 8) with 256.
    rewrite Z.rem_mul_r; lia.
Qed.

Lemma of_le_range bs : Forall is_byte bs → fits (8 * length bs) (of_le bs).
Proof.
  induction 1 as [|b bs Hb _ IH]; simpl.
  - unfold fits. simpl. lia.
  - unfold is_byte, fits in *. replace (8 * S (length bs)) with (8 + 8 * length bs) by lia.
    rewrite Z.pow_add_r by lia. change (2 ^ 8) with 256 in *. lia.
Qed.

Lemma of_le_inj bs bs' :
  Forall is_byte bs → Forall is_byte bs' → length bs = length bs' →
  of_le bs = of_le bs' → bs = bs'.
Proof.
  intros H. revert bs'. induction H as [|b bs Hb _ IH]; intros [|b' bs'] H' L E; try done.
  inversion H' as [|? ? Hb' Hbs']; subst. simpl in *.
  unfold is_byte, fits in *. change (2 ^ 8) with 256 in *.
  assert (b = b') as -> by lia. f_equal. apply IH; auto; lia.
Qed.

Lemma le_bytes_of_le bs :
  Forall is_byte bs → le_bytes (length bs) (of_le bs) = bs.
Proof.
  intros H. apply of_le_inj; auto using le_bytes_is_byte, length_le_bytes.
  rewrite of_le_le_bytes. by apply wrap_small, of_le_range.
Qed.

Lemma of_le_app bs bs' :
  of_le (bs ++ bs') = of_le bs + 2 ^ (8 * length bs) * of_le bs'.
Proof.
  induction bs as [|b bs IH]; simpl.
  - lia.
  - rewrite IH. replace (8 * S (length bs)) with (8 + 8 * length bs) by lia.
    rewrite Z.pow_add_r by lia. change (2 ^ 8) with 256. lia.
Qed.

Lemma le_bytes_take n k z : (k ≤ n)%nat → take k (le_bytes n z) = le_bytes k z.
Proof.
  revert k z. induction n as [|n IH]; intros [|k] z H; simpl; auto; try lia.
  f_equal. apply IH. lia.
Qed.

#[export] Hint Resolve le_bytes_is_byte length_le_bytes : mach.

(** Checking a boolean property of bytes by running it on all 256 of them. *)
Lemma byte_check (P : Z → bool) :
  forallb P (seqZ 0 256) = true → ∀ b, is_byte b → P b = true.
Proof.
  rewrite forallb_forall. intros H b Hb. apply H. apply list_elem_of_In, elem_of_seqZ. unfold is_byte, fits in Hb. lia.
Qed.

Definition bytesb (bs : list Z) : bool := forallb (fitsb 8) bs.

Lemma bytesb_spec bs : bytesb bs = true → Forall is_byte bs.
Proof.
  unfold bytesb. rewrite forallb_forall, Forall_forall. intros H b Hb.
  apply fitsb_spec, H, Hb.
Qed.

(** ** Bit operations keep a machine word a machine word *)
Lemma fits_bits w x : 0 <= w → 0 <= x → (∀ i, w <= i → Z.testbit x i = false) → fits w x.
Proof.
  intros Hw Hx H. split; [done|]. destruct (Z.eq_dec x 0) as [->|]; [by apply Z.pow_pos_nonneg|].
  apply Z.log2_lt_pow2; [lia|]. destruct (Z.lt_ge_cases (Z.log2 x) w) as [|Hge]; [done|].
  specialize (H _ Hge). rewrite Z.bit_log2 in H by lia. done.
Qed.

Lemma fits_testbit w x i : 0 <= w → fits w x → w <= i → Z.testbit x i = false.
Proof. intros Hw Hx Hi. rewrite <- (wrap_small w x Hx). apply Z.mod_pow2_bits_high. lia. Qed.

Lemma fits_land w x y : 0 <= w → fits w x → fits w y → fits w (Z.land x y).
Proof.
  intros Hw Hx Hy. apply fits_bits; [done|apply Z.land_nonneg; left; apply Hx|].
  intros i Hi. by rewrite Z.land_spec, (fits_testbit w x).
Qed.

Lemma fits_lor w x y : 0 <= w → fits w x → fits w y → fits w (Z.lor x y).
Proof.
  intros Hw Hx Hy. apply fits_bits; [done|apply Z.lor_nonneg; split; [apply Hx|apply Hy]|].
  intros i Hi. by rewrite Z.lor_spec, (fits_testbit w x), (fits_testbit w y).
Qed.

Lemma fits_lxor w x y : 0 <= w → fits w x → fits w y → fits w (Z.lxor x y).
Proof.
  intros Hw Hx Hy. apply fits_bits; [done|apply Z.lxor_nonneg; split; intros; [apply Hy|apply Hx]|].
  intros i Hi. by rewrite Z.lxor_spec, (fits_testbit w x), (fits_testbit w y).
Qed.

Lemma fits_shiftr w x n : 0 <= n → fits w x → fits w (Z.shiftr x n).
Proof.
  intros Hn [H0 H1]. split; [by apply Z.shiftr_nonneg|]. rewrite Z.shiftr_div_pow2 by done.
  eapply Z.le_lt_trans; [|exact H1]. apply Z.div_le_upper_bound; [by apply Z.pow_pos_nonneg|].
  pose proof (Z.pow_pos_nonneg 2 n). nia.
Qed.

Lemma fits_mod w x y : fits w x → 0 < y → fits w (x mod y).
Proof.
  intros [H0 H1] Hy. pose proof (Z.mod_pos_bound x y Hy). pose proof (Z.mod_le x y). split; lia.
Qed.

Lemma fits_mono w w' x : 0 <= w <= w' → fits w x → fits w' x.
Proof. intros Hw [H0 H1]. split; [done|]. pose proof (Z.pow_le_mono_r 2 w w'). lia. Qed.

#[export] Hint Resolve fits_land fits_lor fits_lxor fits_mod : mach.

Lemma land_le_r x y : 0 <= x → 0 <= y → Z.land x y <= y.
Proof.
  intros Hx Hy. rewrite <- (Z2N.id x), <- (Z2N.id y), <- N2Z.inj_land by done.
  apply N2Z.inj_le, N.land_le_r.
Qed.

#[export] Hint Extern 3 (_ <= _) => lia : mach.
#[export] Hint Extern 3 (_ < _) => lia : mach.

Lemma shl_fits w a n v : 0 <= w → shl w a n = Ret v → fits w v.
Proof. unfold shl. intros Hw H. case_match; simplify_eq. by apply wrap_fits. Qed.

Lemma shr_fits w a n v : 0 <= n → fits w a → shr w a n = Ret v → fits w v.
Proof. unfold shr. intros Hn Ha H. case_match; simplify_eq. by apply fits_shiftr. Qed.

(** ** Postconditions

    [spec K c Q]: the computation does not run out of fuel, its undefined behaviour, if it has
    any, is of a kind in [K], and its result, if it has one, satisfies [Q].  [post] allows every
    kind. *)
Definition spec {A} (K : ub_kind → Prop) (c : outcome A) (Q : A → Prop) : Prop :=
  match c with
  | Ret a => Q a
  | Undef k => K k
  | OutOfFuel => False
  end.
Definition post {A} (c : outcome A) (Q : A → Prop) : Prop := spec (λ _, True) c Q.

Lemma spec_bind {A B} K (c : outcome A) (f : A → outcome B) (P : A → Prop) Q :
  spec K c P → (∀ a, P a → spec K (f a) Q) → spec K (c ≫= f) Q.
Proof. destruct c; simpl; auto. Qed.

Lemma spec_weaken {A} (K K' : ub_kind → Prop) (c : outcome A) (P Q : A → Prop) :
  spec K c P → (∀ k, K k → K' k) → (∀ a, P a → Q a) → spec K' c Q.
Proof. destruct c; simpl; auto. Qed.

Lemma spec_post {A} K (c : outcome A) (Q : A → Prop) : spec K c Q → post c Q.
Proof. intros H. by eapply spec_weaken. Qed.

Lemma spec_signed (K : ub_kind → Prop) w z (Q : Z → Prop) :
  K SignedOverflow → (sfits w z → Q z) → spec K (signed_result w z) Q.
Proof.
  intros HK H. unfold signed_result. destruct (sfitsb w z) eqn:E; simpl; [|done].
  by apply H, sfitsb_spec.
Qed.

Lemma spec_intro {A} (K : ub_kind → Prop) (c : outcome A) (Q : A → Prop) :
  c ≠ OutOfFuel → (∀ k, c = Undef k → K k) → (∀ a, c = Ret a → Q a) → spec K c Q.
Proof. destruct c; simpl; auto. Qed.

Lemma post_bind {A B} (c : outcome A) (f : A → outcome B) (P : A → Prop) Q :
  post c P → (∀ a, P a → post (f a) Q) → post (c ≫= f) Q.
Proof. apply spec_bind. Qed.

Lemma post_mono {A} (c : outcome A) (P Q : A → Prop) :
  post c P → (∀ a, P a → Q a) → post c Q.
Proof. intros H HQ. by eapply spec_weaken. Qed.

Lemma post_intro {A} (c : outcome A) (Q : A → Prop) :
  c ≠ OutOfFuel → (∀ a, c = Ret a → Q a) → post c Q.
Proof. intros. by apply spec_intro. Qed.

Lemma post_fuel {A} (c : outcome A) (Q : A → Prop) : post c Q → c ≠ OutOfFuel.
Proof. by destruct c. Qed.

Lemma post_Ret_inv {A} (c : outcome A) (Q : A → Prop) a : post c Q → c = Ret a → Q a.
Proof. intros H ->. done. Qed.

Lemma post_signed w z (Q : Z → Prop) : (sfits w z → Q z) → post (signed_result w z) Q.
Proof. by apply spec_signed. Qed.

Lemma post_true {A} (c : outcome A) : c ≠ OutOfFuel → post c (λ _, True).
Proof. by destruct c. Qed.

Lemma shl_not_fuel w a n : shl w a n ≠ OutOfFuel.
Proof. unfold shl. by case_match. Qed.

Lemma shr_not_fuel w a n : shr w a n ≠ OutOfFuel.
Proof. unfold shr. by case_match. Qed.

(** Bits above [val] are added by [|]. *)
Lemma lor_disjoint val part n :
  0 <= n → 0 <= val < 2 ^ n → Z.lor val (Z.shiftl part n) = val + 2 ^ n * part.
Proof.
  intros Hn Hv. rewrite Z.shiftl_mul_pow2 by lia.
  assert (Hl : Z.land val (part * 2 ^ n) = 0).
  { apply Z.bits_inj'. intros i Hi. rewrite Z.land_spec, Z.bits_0.
    destruct (Z.lt_ge_cases i n).
    - rewrite Z.mul_pow2_bits_low by lia. apply andb_false_r.
    - rewrite <- (Z.mod_small val (2 ^ n)), Z.mod_pow2_bits_high by lia. done. }
  rewrite (Z.mul_comm _ part), Z.add_nocarry_lxor by done. by rewrite Z.lxor_lor.
Qed.

(** Rounding down to a power of two by a mask. *)
Lemma land_mask a j : fits 64 a → 0 <= j → Z.land a (u64 (Z.lnot (2 ^ j - 1))) = a / 2 ^ j * 2 ^ j.
Proof.
  intros Ha Hj. replace (2 ^ j - 1) with (Z.ones j) by (rewrite Z.ones_equiv; lia).
  rewrite <- Z.shiftr_div_pow2, <- Z.shiftl_mul_pow2, <- Z.ldiff_ones_r by lia.
  apply Z.bits_inj'. intros i Hi. rewrite Z.land_spec, Z.ldiff_spec. unfold wrap.
  destruct (Z.lt_ge_cases i 64).
  - by rewrite Z.mod_pow2_bits_low, Z.lnot_spec by lia.
  - rewrite Z.mod_pow2_bits_high by lia. destruct Ha as [Ha0 Ha1].
    destruct (Z.eq_dec a 0) as [->|Hne]; [by rewrite Z.testbit_0_l|].
    rewrite (Z.bits_above_log2 a i); [done|done|]. apply Z.log2_lt_pow2; [lia|].
    apply Z.lt_le_trans with (2 ^ 64); [done|]. apply Z.pow_le_mono_r; lia.
Qed.

(** ** Memory that may not be mapped *)

(** The bytes from an address on, up to the first that is not mapped. *)
Fixpoint readable_bytes (memory : Z → option Z) (n : nat) (a : Z) : list Z :=
  match n with
  | O => []
  | S n' => match memory a with Some b => b :: readable_bytes memory n' (a + 1) | None => [] end
  end.

Section Readable.
Context (memory : Z → option Z).

Lemma length_readable (n : nat) a : (length (readable_bytes memory n a) <= n)%nat.
Proof. revert a. induction n as [|n IH]; intros a; cbn; [done|]. destruct (memory a); cbn; [|lia]. specialize (IH (a + 1)). lia. Qed.

Lemma readable_all (n : nat) a : (∀ i, 0 <= i < n → is_Some (memory (a + i))) → length (readable_bytes memory n a) = n.
Proof.
  revert a. induction n as [|n IH]; intros a H; [done|]. cbn. destruct (H 0 ltac:(lia)) as [b Hb]. rewrite Z.add_0_r in Hb. rewrite Hb. cbn. f_equal.
  apply IH. intros i Hi. replace (a + 1 + i) with (a + (1 + i)) by lia. apply H. lia.
Qed.

Lemma readable_app (n m : nat) a : length (readable_bytes memory n a) = n → readable_bytes memory (n + m) a = readable_bytes memory n a ++ readable_bytes memory m (a + n).
Proof.
  revert a. induction n as [|n IH]; intros a H; [by rewrite Z.add_0_r|]. cbn in *. destruct (memory a); [|done]. cbn in H. injection H as H. cbn. rewrite IH by done.
  by replace (a + 1 + n) with (a + S n) by lia.
Qed.

(** What is readable of what is readable. *)
Lemma readable_prefix (n : nat) a : readable_bytes memory (length (readable_bytes memory n a)) a = readable_bytes memory n a.
Proof. revert a. induction n as [|n IH]; intros a; [done|]. cbn. destruct (memory a) as [b|] eqn:E; [|done]. cbn. rewrite E. by f_equal. Qed.

(** A part of what is readable. *)
Lemma readable_sub (off m n : nat) a b : (off + m <= n)%nat → length (readable_bytes memory n a) = n → b = a + off → take m (drop off (readable_bytes memory n a)) = readable_bytes memory m b.
Proof.
  revert n a. induction off as [|off IH]; intros n a Hn Hl ->.
  - rewrite drop_0, Z.add_0_r. clear Hl. revert n a Hn. induction m as [|m IH]; intros n a Hn; [done|]. destruct n as [|n]; [lia|]. cbn. destruct (memory a); [|done]. cbn. f_equal. apply IH. lia.
  - destruct n as [|n]; [lia|]. cbn in *. destruct (memory a); [|done]. cbn in *. apply IH; lia.
Qed.
End Readable.
