(* ===== verification/Arch.v ===== *)
(** * Architectures and register files

    The register numbering of the five supported targets
    ([interfaces/common/unwind_<arch>_define.h]) as instances of one class, the quick-unwind-table
    register subset ([DfxRegsQut], include/dfx_regs_qut.h) and the register file [DfxRegs]
    (include/dfx_regs.h, src/registers/dfx_regs.cpp). *)
From S2P Require Import Prelude.

(** What a target promises to the unwinder: its pointer size, its special registers, the number
    of registers and the registers that unwinding tracks.  [REG_LR] is absent on x86_64. *)
Class Arch := {
  psize : nat;
  REG_FP : nat;
  REG_SP : nat;
  REG_LR : option nat;
  REG_PC : nat;
  REG_EH : nat;
  REG_LAST : nat;
  QUT_REGS : list nat;
  psize_ok : psize = 4%nat ∨ psize = 8%nat;
  special_ok : (REG_FP < REG_LAST ∧ REG_SP < REG_LAST ∧ REG_PC < REG_LAST)%nat;
  reg_lr_ok : from_option (λ r, (r < REG_LAST)%nat) True REG_LR;
  reg_eh_ok : REG_EH = 0%nat;
  reg_last_ok : (0 < REG_LAST < 256)%nat;
  reg_sp_pc : REG_SP ≠ REG_PC;
  qut_ok : Forall (λ r, (r < REG_LAST)%nat) QUT_REGS
}.

Ltac solve_arch := repeat split; simpl; try lia; try (repeat constructor; lia).

#[local, refine] Instance Arm : Arch := {
  psize := 4;
  REG_FP := 11; REG_SP := 13; REG_LR := Some 14%nat; REG_PC := 15; REG_EH := 0; REG_LAST := 17;
  QUT_REGS := [7; 11; 13; 15; 14]%nat
}.
Proof. all: solve_arch. Defined.

#[local, refine] Instance Arm64 : Arch := {
  psize := 8;
  REG_FP := 29; REG_SP := 31; REG_LR := Some 30%nat; REG_PC := 32; REG_EH := 0; REG_LAST := 35;
  QUT_REGS := [0; 29; 31; 32; 30]%nat
}.
Proof. all: solve_arch. Defined.

#[local, refine] Instance X86_64 : Arch := {
  psize := 8;
  REG_FP := 6; REG_SP := 7; REG_LR := None; REG_PC := 16; REG_EH := 0; REG_LAST := 17;
  QUT_REGS := [6; 7; 16]%nat
}.
Proof. all: solve_arch. Defined.

#[local, refine] Instance Riscv64 : Arch := {
  psize := 8;
  REG_FP := 8; REG_SP := 2; REG_LR := Some 0%nat; REG_PC := 32; REG_EH := 0; REG_LAST := 33;
  QUT_REGS := [0; 31; 2; 32; 0]%nat
}.
Proof. all: solve_arch. Defined.

#[local, refine] Instance LoongArch64 : Arch := {
  psize := 8;
  REG_FP := 22; REG_SP := 3; REG_LR := Some 1%nat; REG_PC := 32; REG_EH := 0; REG_LAST := 33;
  QUT_REGS := [0; 31; 3; 32; 1]%nat
}.
Proof. all: solve_arch. Defined.

(** Error codes of [UnwindErrorCode] (interfaces/common/dfx_errors.h). *)
Definition UNW_ERROR_NONE : Z := 0.
Definition UNW_ERROR_NO_UNWIND_INFO : Z := 1.
Definition UNW_ERROR_PC_NOT_IN_UNWIND_INFO : Z := 2.
Definition UNW_ERROR_INVALID_CONTEXT : Z := 3.
Definition UNW_ERROR_INVALID_MEMORY : Z := 4.
Definition UNW_ERROR_INVALID_REGS : Z := 5.
Definition UNW_ERROR_INVALID_MAP : Z := 6.
Definition UNW_ERROR_ILLEGAL_VALUE : Z := 10.
Definition UNW_ERROR_RETURN_ADDRESS_SAME : Z := 14.
Definition UNW_ERROR_RETURN_ADDRESS_UNDEFINED : Z := 15.
Definition UNW_ERROR_INVALID_ALIGNMENT : Z := 17.
Definition UNW_ERROR_INVALID_PERSONALITY : Z := 18.
Definition UNW_ERROR_CANT_UNWIND : Z := 19.
Definition UNW_ERROR_ARM_EXIDX_SPARE : Z := 20.
Definition UNW_ERROR_ARM_EXIDX_FINISH : Z := 21.
Definition UNW_ERROR_DWARF_INVALID_CFA : Z := 22.
Definition UNW_ERROR_DWARF_INVALID_FDE : Z := 23.
Definition UNW_ERROR_DWARF_INVALID_INSTR : Z := 24.
Definition UNW_ERROR_UNSUPPORTED_VERSION : Z := 28.

Section Regs.
Context `{A : Arch}.

(** Width in bits of [uintptr_t], and the conversions to it and to [intptr_t]. *)
Definition ptr_bits : Z := 8 * psize.
Definition uptr (z : Z) : Z := wrap ptr_bits z.
Definition sptr (z : Z) : Z := swrap ptr_bits z.

Lemma ptr_bits_cases : ptr_bits = 32 ∨ ptr_bits = 64.
Proof. unfold ptr_bits. destruct psize_ok as [-> | ->]; auto. Qed.

Lemma uptr_fits z : fits ptr_bits (uptr z).
Proof. apply wrap_fits. destruct ptr_bits_cases; lia. Qed.

Lemma uptr_small z : fits ptr_bits z → uptr z = z.
Proof. apply wrap_small. Qed.

(** [DfxRegsQut]: the registers set by [SetQutRegs], or the target's default. *)
Definition GetQutRegs (qutRegs_ : list nat) : list nat :=
  match qutRegs_ with [] => QUT_REGS | _ => qutRegs_ end.

Definition GetQutRegsSize (qutRegs_ : list nat) : nat := length (GetQutRegs qutRegs_).

Fixpoint find_qut (regs : list nat) (reg : Z) (i : nat) : option nat :=
  match regs with
  | [] => None
  | r :: regs' => if Z.of_nat r =? reg then Some i else find_qut regs' reg (S i)
  end.

(** [IsQutReg]: the index of the first occurrence of [reg]. *)
Definition IsQutReg (qutRegs_ : list nat) (reg : Z) : option nat :=
  find_qut (GetQutRegs qutRegs_) reg 0.

Lemma find_qut_Some regs reg i j :
  find_qut regs reg i = Some j →
  (i <= j)%nat ∧ ∃ r, regs !! (j - i)%nat = Some r ∧ Z.of_nat r = reg.
Proof.
  revert i. induction regs as [|r regs IH]; intros i; simpl; [done|].
  destruct (Z.eqb_spec (Z.of_nat r) reg) as [E|E]; intros H.
  - simplify_eq. split; [lia|]. exists r. by rewrite Nat.sub_diag.
  - apply IH in H as (? & r' & L & ?). split; [lia|]. exists r'.
    split; [|done]. replace (j - i)%nat with (S (j - S i)) by lia. done.
Qed.

Lemma IsQutReg_Some q reg i :
  IsQutReg q reg = Some i →
  (i < GetQutRegsSize q)%nat ∧ ∃ r, GetQutRegs q !! i = Some r ∧ Z.of_nat r = reg.
Proof.
  intros (_ & r & L & ?)%find_qut_Some. rewrite Nat.sub_0_r in L.
  split; [|eauto]. by apply lookup_lt_Some in L.
Qed.

(** [DfxRegs]: [regsData_], a vector of [REG_LAST] words. *)
Abbreviation regs_data := (list Z).

Definition new_regs : regs_data := replicate REG_LAST 0.
Definition RegsSize (regs : regs_data) : nat := length regs.

(** The unchecked [operator[]]: an index past the end is undefined behaviour. *)
Definition reg_at (regs : regs_data) (idx : Z) : outcome Z :=
  if idx <? 0 then Undef OutOfBounds
  else match regs !! Z.to_nat idx with Some v => Ret v | None => Undef OutOfBounds end.

(** [GetReg] returns a null pointer past [REG_LAST]. *)
Definition GetReg (regs : regs_data) (idx : nat) : outcome (option Z) :=
  if (REG_LAST <=? idx)%nat then Ret None
  else v ← reg_at regs idx; Ret (Some v).

(** [SetReg] takes an [int]: a negative index passes its only check. *)
Definition SetReg (regs : regs_data) (idx : Z) (val : Z) : outcome regs_data :=
  if Z.of_nat REG_LAST <=? idx then Ret regs
  else _ ← reg_at regs idx; Ret (<[Z.to_nat idx := val]> regs).

Definition GetSp (regs : regs_data) : outcome Z := reg_at regs REG_SP.
Definition GetPc (regs : regs_data) : outcome Z := reg_at regs REG_PC.
Definition GetFp (regs : regs_data) : outcome Z := reg_at regs REG_FP.
Definition SetSp (regs : regs_data) (sp : Z) : regs_data := <[REG_SP := sp]> regs.
Definition SetPc (regs : regs_data) (pc : Z) : regs_data := <[REG_PC := pc]> regs.
Definition SetFp (regs : regs_data) (fp : Z) : regs_data := <[REG_FP := fp]> regs.

(** [SetRegsData(regs, size)] copies the first [min(size, RegsSize())] words. *)
Definition SetRegsData (old : regs_data) (src : list Z) : regs_data :=
  take (length old) src ++ drop (length src) old.

Definition SetSpecialRegs (regs : regs_data) (fp lr sp pc : Z) : regs_data :=
  let regs := <[REG_FP := fp]> regs in
  let regs := match REG_LR with Some i => <[i := lr]> regs | None => regs end in
  <[REG_PC := pc]> (<[REG_SP := sp]> regs).

(** The register-file invariant: [REG_LAST] registers, each a machine word. *)
Definition regs_ok (regs : regs_data) : Prop :=
  length regs = REG_LAST ∧ Forall (fits ptr_bits) regs.

Lemma regs_ok_new : regs_ok new_regs.
Proof.
  split; [apply length_replicate|]. apply Forall_replicate.
  unfold fits. destruct ptr_bits_cases as [-> | ->]; lia.
Qed.

Lemma regs_ok_insert regs i v :
  regs_ok regs → fits ptr_bits v → regs_ok (<[i := v]> regs).
Proof.
  intros [L F] Hv. split; [by rewrite length_insert|]. by apply Forall_insert.
Qed.

Lemma reg_at_ok regs idx :
  regs_ok regs → 0 <= idx < REG_LAST →
  ∃ v, reg_at regs idx = Ret v ∧ regs !! Z.to_nat idx = Some v ∧ fits ptr_bits v.
Proof.
  intros [L F] ?. unfold reg_at. rewrite (proj2 (Z.ltb_ge _ _)) by lia.
  destruct (lookup_lt_is_Some_2 regs (Z.to_nat idx)) as [v E]; [lia|].
  rewrite E. exists v. split; [done|]. split; [done|]. by eapply Forall_lookup_1.
Qed.

Lemma reg_at_oob regs idx :
  regs_ok regs → REG_LAST <= idx → reg_at regs idx = Undef OutOfBounds.
Proof.
  intros [L _] ?. unfold reg_at. rewrite (proj2 (Z.ltb_ge _ _)) by lia.
  by rewrite lookup_ge_None_2 by lia.
Qed.
End Regs.

#[export] Hint Resolve uptr_fits regs_ok_new regs_ok_insert : mach.
