(* ===== verification/Memory.v ===== *)
(** * Target memory

    [DfxMemory] (unwinder/include/dfx_memory.h, src/memory/dfx_memory.cpp): reads of arbitrary
    size built from word accesses, LEB128 numbers and DWARF-encoded pointers.  A read hands back
    the bytes it copied into the caller's buffer, in order; their number is the value the code
    returns.  Addresses are passed by reference in the code: here the new address is returned. *)
From S2P Require Import Prelude Arch.

(** [enum DwarfEncoding] (include/dwarf_define.h). *)
Definition DW_EH_PE_omit : Z := 0xff.
Definition DW_EH_PE_absptr : Z := 0x00.
Definition DW_EH_PE_uleb128 : Z := 0x01.
Definition DW_EH_PE_udata2 : Z := 0x02.
Definition DW_EH_PE_udata4 : Z := 0x03.
Definition DW_EH_PE_udata8 : Z := 0x04.
Definition DW_EH_PE_sleb128 : Z := 0x09.
Definition DW_EH_PE_sdata2 : Z := 0x0a.
Definition DW_EH_PE_sdata4 : Z := 0x0b.
Definition DW_EH_PE_sdata8 : Z := 0x0c.
Definition DW_EH_PE_pcrel : Z := 0x10.
Definition DW_EH_PE_textrel : Z := 0x20.
Definition DW_EH_PE_datarel : Z := 0x30.
Definition DW_EH_PE_funcrel : Z := 0x40.
Definition DW_EH_PE_aligned : Z := 0x50.
Definition DW_EH_PE_indirect : Z := 0x80.
Definition DW_EH_PE_udata1 : Z := 0x0d.
Definition DW_EH_PE_sdata1 : Z := 0x0e.
Definition DW_EH_PE_FORMAT_MASK : Z := 0x0f.
Definition DW_EH_PE_APPL_MASK : Z := 0x70.

Definition NAME_BUF_LEN : Z := 128.

Section Memory.
Context `{A : Arch}.

(** The fields of [DfxMemory].  [acc_] is the accessor's [AccessMem] ([None] is a null
    accessor); it gives the word at an address or fails. *)
Record DfxMemory := mkMemory {
  acc_ : option (Z → option Z);
  alignAddr_ : bool;
  alignBytes_ : Z;
  dataOffset_ : Z;
  funcOffset_ : Z
}.

Definition SetAlign (m : DfxMemory) (alignAddr : bool) (alignBytes : Z) : DfxMemory :=
  mkMemory (acc_ m) alignAddr alignBytes (dataOffset_ m) (funcOffset_ m).
Definition SetDataOffset (m : DfxMemory) (offset : Z) : DfxMemory :=
  mkMemory (acc_ m) (alignAddr_ m) (alignBytes_ m) offset (funcOffset_ m).
Definition SetFuncOffset (m : DfxMemory) (offset : Z) : DfxMemory :=
  mkMemory (acc_ m) (alignAddr_ m) (alignBytes_ m) (dataOffset_ m) offset.

Definition ReadMem (m : DfxMemory) (addr : Z) : option Z :=
  match acc_ m with Some f => f addr | None => None end.

(** [memcpy] of [n] bytes at offset [off] of the word [w]: past the word is undefined. *)
Definition word_slice (w off n : Z) : outcome (list Z) :=
  if off + n <=? psize
  then Ret (take (Z.to_nat n) (drop (Z.to_nat off) (le_bytes psize w)))
  else Undef OutOfBounds.

(** The [for] loop of [Read]: [k] whole words; the flag tells whether it ran to its end. *)
Fixpoint read_words (m : DfxMemory) (k : nat) (addr : Z) : list Z * Z * bool :=
  match k with
  | O => ([], addr, true)
  | S k' =>
      match ReadMem m addr with
      | None => ([], addr, false)
      | Some w =>
          let '(bs, a, ok) := read_words m k' (uptr (addr + psize)) in
          (le_bytes psize w ++ bs, a, ok)
      end
  end.

(** The aligned prologue of [Read]: bytes copied, new address, remaining size, whether the
    body goes on. *)
Definition read_align (m : DfxMemory) (addr size : Z) : outcome (list Z * Z * Z * bool) :=
  let ab := u64 (alignBytes_ m) in (* zero exactly when the int [alignBytes_] is *)
  if negb (alignAddr_ m && negb (ab =? 0)) then Ret ([], addr, size, true)
  else
    let alignBytes := Z.land addr (u64 (ab - 1)) in
    if alignBytes =? 0 then Ret ([], addr, size, true)
    else
      let alignedAddr := Z.land addr (uptr (Z.lnot (ab - 1))) in
      match ReadMem m alignedAddr with
      | None => Ret ([], addr, size, false)
      | Some w =>
          let copyBytes := Z.min (ab - alignBytes) size in
          bs ← word_slice w alignBytes copyBytes;
          Ret (bs, uptr (addr + copyBytes), size - copyBytes, true)
      end.

(** [DfxMemory::Read(addr, val, size, incre)]: the bytes stored into [val] and the address. *)
Definition Read (m : DfxMemory) (addr size : Z) (incre : bool) : outcome (list Z * Z) :=
  if 2 ^ 64 <=? addr + size then Ret ([], addr)
  else
    '(pre, a0, size0, go) ← read_align m addr size;
    if negb (go : bool) then Ret (pre, addr)
    else
      let '(ws, a1, ok) := read_words m (Z.to_nat (size0 / psize)) a0 in
      if negb (ok : bool) then Ret (pre ++ ws, addr)
      else
        let leftOver := Z.land size0 (psize - 1) in
        if leftOver =? 0 then Ret (pre ++ ws, if incre then a1 else addr)
        else
          match ReadMem m a1 with
          | None => Ret (pre ++ ws, addr)
          | Some w =>
              Ret (pre ++ ws ++ take (Z.to_nat leftOver) (le_bytes psize w),
                   if incre then uptr (a1 + leftOver) else addr)
          end.

(** [Read<T>] into an uninitialised local of [n] bytes: [None] when it stays indeterminate. *)
Definition ReadU (m : DfxMemory) (addr : Z) (n : nat) (incre : bool) : outcome (option Z * Z) :=
  '(bs, a) ← Read m addr n incre;
  Ret (if (length bs =? n)%nat then Some (of_le bs) else None, a).

(** Use of a local that may be uninitialised. *)
Definition use (v : option Z) : outcome Z :=
  match v with Some x => Ret x | None => Undef UninitRead end.

(** [Read<T>] into a variable that holds [old]: success, the variable, the address. *)
Definition ReadT (m : DfxMemory) (addr old : Z) (n : nat) (incre : bool)
  : outcome (bool * Z * Z) :=
  '(bs, a) ← Read m addr n incre;
  Ret ((length bs =? n)%nat, of_le (bs ++ drop (length bs) (le_bytes n old)), a).

(** [ReadValue<T>]: zero-initialised, the result of [Read] ignored. *)
Definition ReadValue (m : DfxMemory) (addr : Z) (n : nat) (incre : bool) : outcome (Z * Z) :=
  '(_, v, a) ← ReadT m addr 0 n incre;
  Ret (v, a).

(** [strnlen(buf, size)]. *)
Fixpoint strnlen (bs : list Z) : nat :=
  match bs with
  | [] => O
  | b :: bs' => if b =? 0 then O else S (strnlen bs')
  end.

(** How the [for] loop of [ReadString] ends: a string, a failed read, or [maxSize] reached. *)
Inductive str_result := StrFound (s : list Z) | StrFailed | StrEnd.

Fixpoint read_string_loop (m : DfxMemory) (fuel : nat) (addr maxSize offset : Z)
  : outcome str_result :=
  if maxSize <=? offset then Ret StrEnd
  else match fuel with
  | O => OutOfFuel
  | S fuel' =>
      let readn := Z.min NAME_BUF_LEN (maxSize - offset) in
      '(buf, _) ← Read m (uptr (addr + offset)) readn false;
      if (length buf =? 0)%nat then Ret StrFailed
      else
        let len := strnlen buf in
        if (length buf <=? len)%nat
        then read_string_loop m fuel' addr maxSize (offset + length buf)
        else if offset =? 0 then Ret (StrFound (take len buf))
        else
          let total := offset + len in
          '(bs, _) ← Read m addr total false;
          Ret (StrFound (bs ++ replicate (Z.to_nat total - length bs) 0))
  end.

(** [ReadString(addr, str, maxSize, incre)] with [*str] holding [old]: the result, [*str] and
    [addr].  Every [true] result leaves from inside the loop, before the increment. *)
Definition ReadString (m : DfxMemory) (addr : Z) (old : list Z) (maxSize : Z) (incre : bool)
  : outcome (bool * list Z * Z) :=
  r ← read_string_loop m (Z.to_nat maxSize) addr maxSize 0;
  match r with
  | StrFound s => Ret (true, s, addr)
  | StrFailed => Ret (false, old, addr)
  | StrEnd => Ret (false, old, if incre then uptr (addr + length old) else addr)
  end.

Definition ReadPrel31 (m : DfxMemory) (addr : Z) : outcome (option Z) :=
  '(v, _) ← ReadU m addr psize false;
  match v with
  | None => Ret None
  | Some offset =>
      let offset := uptr (Z.shiftr (s32 (uptr (Z.shiftl offset 1))) 1) in
      Ret (Some (uptr (addr + offset)))
  end.
(** The common loop of [ReadUleb128] and [ReadSleb128]: accumulated value, shift, last byte
    read and address.  The shift of the eleventh byte is undefined, so a fuel of eleven
    iterations is never exhausted. *)
Fixpoint leb_loop (m : DfxMemory) (fuel : nat) (addr val shift byte : Z)
  : outcome (Z * Z * Z * Z) :=
  match fuel with
  | O => OutOfFuel
  | S fuel' =>
      '(ok, byte, addr) ← ReadT m addr byte 1 true;
      if negb (ok : bool) then Ret (val, shift, byte, addr)
      else
        part ← shl 64 (Z.land byte 0x7f) shift;
        let val := Z.lor val part in
        let shift := shift + 7 in
        if Z.land byte 0x80 =? 0 then Ret (val, shift, byte, addr)
        else leb_loop m fuel' addr val shift byte
  end.

Definition leb_fuel : nat := 11.

Definition ReadUleb128 (m : DfxMemory) (addr : Z) : outcome (Z * Z) :=
  '(val, _, _, addr) ← leb_loop m leb_fuel addr 0 0 0;
  Ret (val, addr).

Definition ReadSleb128 (m : DfxMemory) (addr : Z) : outcome (Z * Z) :=
  '(val, shift, byte, addr) ← leb_loop m leb_fuel addr 0 0 0;
  if Z.land byte 0x40 =? 0 then Ret (s64 val, addr)
  else
    ext ← shl 64 (2 ^ 64 - 1) shift;
    Ret (s64 (Z.lor val ext), addr).

Definition GetEncodedSize (encoding : Z) : Z :=
  let e := Z.land encoding 0x0f in
  if e =? DW_EH_PE_absptr then psize
  else if (e =? DW_EH_PE_udata1) || (e =? DW_EH_PE_sdata1) then 1
  else if (e =? DW_EH_PE_udata2) || (e =? DW_EH_PE_sdata2) then 2
  else if (e =? DW_EH_PE_udata4) || (e =? DW_EH_PE_sdata4) then 4
  else if (e =? DW_EH_PE_udata8) || (e =? DW_EH_PE_sdata8) then 8
  else 0.

(** [ReadFormatEncodedValue]: [val] keeps its value on an unexpected format. *)
Definition ReadFormatEncodedValue (m : DfxMemory) (addr val fmt : Z) : outcome (Z * Z) :=
  let unsigned (n : nat) := '(v, a) ← ReadValue m addr n true; Ret (uptr v, a) in
  let signed (n : nat) := '(v, a) ← ReadValue m addr n true; Ret (uptr (swrap (8 * n) v), a) in
  if fmt =? DW_EH_PE_uleb128 then '(v, a) ← ReadUleb128 m addr; Ret (uptr v, a)
  else if fmt =? DW_EH_PE_sleb128 then '(v, a) ← ReadSleb128 m addr; Ret (uptr v, a)
  else if fmt =? DW_EH_PE_udata1 then unsigned 1%nat
  else if fmt =? DW_EH_PE_sdata1 then signed 1%nat
  else if fmt =? DW_EH_PE_udata2 then unsigned 2%nat
  else if fmt =? DW_EH_PE_sdata2 then signed 2%nat
  else if fmt =? DW_EH_PE_udata4 then unsigned 4%nat
  else if fmt =? DW_EH_PE_sdata4 then signed 4%nat
  else if fmt =? DW_EH_PE_udata8 then unsigned 8%nat
  else if fmt =? DW_EH_PE_sdata8 then signed 8%nat
  else Ret (val, addr).

(** The switch on [encoding & DW_EH_PE_APPL_MASK]. *)
Definition apply_encoding (m : DfxMemory) (encoding startAddr val : Z) : Z :=
  let appl := Z.land encoding DW_EH_PE_APPL_MASK in
  if appl =? DW_EH_PE_pcrel then uptr (val + startAddr)
  else if appl =? DW_EH_PE_textrel then val
  else if appl =? DW_EH_PE_datarel then uptr (val + dataOffset_ m)
  else if appl =? DW_EH_PE_funcrel then uptr (val + funcOffset_ m)
  else val.

Definition ReadEncodedValue (m : DfxMemory) (addr encoding : Z) : outcome (Z * Z) :=
  if encoding =? DW_EH_PE_omit then Ret (0, addr)
  else if encoding =? DW_EH_PE_aligned then
    let sum := addr + (psize - 1) in
    if negb (fitsb ptr_bits sum) then Ret (0, uptr sum)
    else
      '(_, v, a) ← ReadT m (Z.land sum (uptr (- psize))) 0 psize true;
      Ret (v, a)
  else
    let fmt := Z.land encoding DW_EH_PE_FORMAT_MASK in
    if fmt =? DW_EH_PE_absptr then
      '(_, v, a) ← ReadT m addr 0 psize true;
      Ret (v, a)
    else
      '(v, a) ← ReadFormatEncodedValue m addr 0 fmt;
      let v := apply_encoding m encoding addr v in
      if Z.land encoding DW_EH_PE_indirect =? 0 then Ret (v, a)
      else
        '(_, v', _) ← ReadT m v v psize true;
        Ret (v', a).
End Memory.

(** ** Reads of a region that holds known bytes *)
Section MemoryProofs.
Context `{A : Arch}.
Implicit Types m : DfxMemory.

(** [holds m addr bs]: reads are unaligned (the only configuration the program uses), every
    word access that starts inside the region succeeds, and its bytes are those of [bs] as far
    as the region goes. *)
Definition holds m (addr : Z) (bs : list Z) : Prop :=
  alignAddr_ m = false ∧ Forall is_byte bs ∧
  0 <= addr ∧ addr + length bs < 2 ^ ptr_bits ∧
  ∀ i, (i < length bs)%nat →
    ∃ w, ReadMem m (addr + i) = Some w ∧
         take (length bs - i) (le_bytes psize w) = take psize (drop i bs).

Lemma holds_bytes m addr bs : holds m addr bs → Forall is_byte bs.
Proof. intros H. apply H. Qed.

Lemma holds_drop m addr bs k :
  holds m addr bs → (k <= length bs)%nat → holds m (addr + k) (drop k bs).
Proof.
  intros (Hal & Hb & H0 & H1 & Hw) Hk. split; [done|].
  rewrite length_drop. split; [by apply Forall_drop|]. split; [lia|]. split; [lia|].
  intros i Hi. destruct (Hw (k + i)%nat) as (w & Hr & Ht); [lia|].
  exists w. rewrite drop_drop. rewrite <- Ht.
  split; [rewrite <- Hr; f_equal; lia|f_equal; lia].
Qed.

Lemma holds_app_r m addr bs bs' :
  holds m addr (bs ++ bs') → holds m (addr + length bs) bs'.
Proof.
  intros H. apply (holds_drop _ _ _ (length bs)) in H.
  - by rewrite drop_app_length in H.
  - rewrite length_app. lia.
Qed.

Lemma holds_cons m addr b bs :
  holds m addr (b :: bs) → holds m (addr + 1) bs.
Proof. intros H. by apply (holds_app_r _ _ [b]) in H. Qed.

Lemma holds_app_l m addr bs bs' :
  holds m addr (bs ++ bs') → holds m addr bs.
Proof.
  intros (Hal & Hb & H0 & H1 & Hw). rewrite length_app in *.
  apply Forall_app in Hb as [Hb _]. split; [done|]. split; [done|]. split; [lia|].
  split; [lia|]. intros i Hi. destruct (Hw i) as (w & Hr & Ht); [lia|].
  exists w. split; [done|].
  apply (f_equal (take (length bs - i))) in Ht.
  rewrite !take_take in Ht. rewrite (Nat.min_l (length bs - i)) in Ht by lia.
  rewrite Ht, drop_app_le by lia.
  rewrite Nat.min_comm, <- take_take. f_equal.
  rewrite take_app_le by (rewrite length_drop; lia).
  apply take_ge. rewrite length_drop. lia.
Qed.

(** Whole words: the loop of [Read] returns exactly the bytes of the region. *)
Lemma read_words_holds m k addr bs :
  holds m addr bs → (k * psize <= length bs)%nat →
  read_words m k addr = (take (k * psize) bs, addr + (k * psize)%nat, true).
Proof.
  revert addr bs. induction k as [|k IH]; intros addr bs H Hk; simpl.
  - rewrite take_0. f_equal. f_equal. lia.
  - assert (Hp : (0 < psize)%nat) by (destruct psize_ok; lia).
    pose proof H as (Hal & Hb & H0 & H1 & Hw).
    destruct (Hw 0%nat) as (w & Hr & Ht); [simpl in Hk; lia|].
    rewrite Z.add_0_r in Hr. rewrite Hr.
    rewrite uptr_small by (unfold fits; simpl in Hk; lia).
    rewrite (IH (addr + psize) (drop psize bs)).
    + rewrite take_ge in Ht by (rewrite length_le_bytes; simpl in Hk; lia).
      rewrite drop_0 in Ht. rewrite Ht.
      rewrite take_take_drop. by replace (addr + psize + (k * psize)%nat) with
        (addr + (psize + k * psize)%nat) by lia.
    + apply holds_drop; [done|simpl in Hk; lia].
    + rewrite length_drop. simpl in Hk. lia.
Qed.

(** The mask of [Read]'s left-over: [psize] is a power of two. *)
Lemma land_psize n : 0 <= n → Z.land n (psize - 1) = n mod psize.
Proof.
  intros. destruct psize_ok as [-> | ->].
  - change (4%nat - 1) with (Z.ones 2). rewrite Z.land_ones; [done|lia].
  - change (8%nat - 1) with (Z.ones 3). rewrite Z.land_ones; [done|lia].
Qed.

(** A read inside the region gives the region's bytes and moves past them. *)
Lemma Read_holds m addr bs bs' incre :
  holds m addr (bs ++ bs') →
  Read m addr (length bs) incre = Ret (bs, if incre then addr + length bs else addr).
Proof.
  intros H. unfold Read, read_align.
  pose proof H as (Hal & Hb & H0 & H1 & Hw). rewrite length_app in *.
  assert (Hp : 0 < psize) by (destruct psize_ok; lia).
  assert (2 ^ ptr_bits <= 2 ^ 64) by (destruct ptr_bits_cases as [-> | ->]; lia).
  rewrite (proj2 (Z.leb_gt _ _)) by (clear - H1 H2; lia). rewrite Hal. simpl.
  set (n := Z.of_nat (length bs)) in *.
  set (k := Z.to_nat (n / psize)).
  assert (Hdm : n = psize * (n / psize) + n mod psize) by (apply Z.div_mod; lia).
  assert (Hmod : 0 <= n mod psize < psize) by (apply Z.mod_pos_bound; lia).
  assert (Hk : ((k * psize)%nat : Z) = psize * (n / psize)).
  { subst k. rewrite Nat2Z.inj_mul, Z2Nat.id; [apply Z.mul_comm|]. apply Z.div_pos; lia. }
  rewrite (read_words_holds m k addr (bs ++ bs')) by (auto; rewrite length_app; lia).
  simpl. rewrite land_psize by lia.
  rewrite take_app_le by lia.
  generalize dependent (n mod psize). intros r Hdm Hmod.
  generalize dependent (psize * (n / psize)). intros q Hdm Hk. clearbody k.
  zcase.
  - rewrite take_ge by lia. by replace (addr + (k * psize)%nat) with (addr + n) by lia.
  - destruct (Hw (k * psize)%nat) as (w & Hr & Ht); [lia|].
    rewrite Hr. do 2 f_equal.
    + rewrite <- (take_drop (k * psize) bs) at 2. f_equal.
      apply (f_equal (take (Z.to_nat r))) in Ht.
      rewrite !take_take, Nat.min_l, Nat.min_l in Ht by lia. rewrite Ht.
      rewrite drop_app_le by lia. rewrite take_app_le by (rewrite length_drop; lia).
      apply take_ge. rewrite length_drop. lia.
    + destruct incre; [|done]. rewrite uptr_small; unfold fits; lia.
Qed.

Lemma Read_holds_all m addr bs incre :
  holds m addr bs →
  Read m addr (length bs) incre = Ret (bs, if incre then addr + length bs else addr).
Proof. intros H. apply (Read_holds _ _ _ []). by rewrite app_nil_r. Qed.

Lemma ReadT_holds m addr old bs bs' n incre :
  holds m addr (bs ++ bs') → length bs = n →
  ReadT m addr old n incre = Ret (true, of_le bs, if incre then addr + n else addr).
Proof.
  intros H <-. unfold ReadT. rewrite (Read_holds _ _ _ _ _ H). simpl.
  rewrite Nat.eqb_refl, drop_ge, app_nil_r by (rewrite length_le_bytes; lia). done.
Qed.

Lemma ReadU_holds m addr bs bs' n incre :
  holds m addr (bs ++ bs') → length bs = n →
  ReadU m addr n incre = Ret (Some (of_le bs), if incre then addr + n else addr).
Proof.
  intros H <-. unfold ReadU. rewrite (Read_holds _ _ _ _ _ H). simpl.
  by rewrite Nat.eqb_refl.
Qed.

Lemma ReadValue_holds m addr bs bs' n incre :
  holds m addr (bs ++ bs') → length bs = n →
  ReadValue m addr n incre = Ret (of_le bs, if incre then addr + n else addr).
Proof. intros H L. unfold ReadValue. by rewrite (ReadT_holds _ _ _ _ _ _ _ H L). Qed.
End MemoryProofs.

(** ** LEB128 *)

(** The canonical encoders of the format, as references. *)
Fixpoint uleb_enc (fuel : nat) (v : Z) : list Z :=
  match fuel with
  | O => []
  | S f => if v <? 128 then [v] else (v mod 128 + 128) :: uleb_enc f (v / 128)
  end.

Fixpoint sleb_enc (fuel : nat) (v : Z) : list Z :=
  match fuel with
  | O => []
  | S f =>
      let b := v mod 128 in
      if (-64 <=? v) && (v <? 64) then [b] else (b + 128) :: sleb_enc f (v / 128)
  end.

(** Ten groups of seven bits cover 64-bit values. *)
Definition uleb_encode (v : Z) : list Z := uleb_enc 10 v.
Definition sleb_encode (v : Z) : list Z := sleb_enc 10 v.

(** A LEB128 byte string: every byte but the last has its high bit set. *)
Inductive leb_string : list Z → Prop :=
| leb_last b : 0 <= b < 128 → leb_string [b]
| leb_more b bs : 128 <= b < 256 → leb_string bs → leb_string (b :: bs).

Fixpoint leb_value (bs : list Z) : Z :=
  match bs with
  | [] => 0
  | b :: bs' => b mod 128 + 128 * leb_value bs'
  end.

Lemma leb_string_bytes bs : leb_string bs → Forall is_byte bs.
Proof. induction 1; repeat constructor; auto; lia. Qed.

Lemma leb_value_nonneg bs : 0 <= leb_value bs.
Proof. induction bs as [|b bs IH]; simpl; [lia|]. pose proof (Z.mod_pos_bound b 128). lia. Qed.

Lemma land_7f b : is_byte b → Z.land b 0x7f = b mod 128.
Proof. intros. change 0x7f with (Z.ones 7). by rewrite Z.land_ones. Qed.

Lemma land_80 b : is_byte b → (Z.land b 0x80 =? 0) = (b <? 128).
Proof.
  intros Hb. apply eqb_prop. revert b Hb.
  apply (byte_check (λ b, Bool.eqb (Z.land b 0x80 =? 0) (b <? 128))). by vm_compute.
Qed.

Lemma land_40 b : is_byte b → (Z.land b 0x40 =? 0) = (b mod 128 <? 64).
Proof.
  intros Hb. apply eqb_prop. revert b Hb.
  apply (byte_check (λ b, Bool.eqb (Z.land b 0x40 =? 0) (b mod 128 <? 64))). by vm_compute.
Qed.

Lemma uleb_enc_S f v :
  uleb_enc (S f) v = if v <? 128 then [v] else (v mod 128 + 128) :: uleb_enc f (v / 128).
Proof. done. Qed.

Lemma sleb_enc_S f v :
  sleb_enc (S f) v =
    if (-64 <=? v) && (v <? 64) then [v mod 128] else (v mod 128 + 128) :: sleb_enc f (v / 128).
Proof. done. Qed.

(** The encoders produce LEB128 strings of their value. *)
Lemma uleb_enc_string fuel v :
  (0 < fuel)%nat → 0 <= v < 128 ^ fuel →
  leb_string (uleb_enc fuel v) ∧ leb_value (uleb_enc fuel v) = v ∧
  (0 < length (uleb_enc fuel v) <= fuel)%nat.
Proof.
  revert v. induction fuel as [|[|f] IH]; intros v Hf Hv; [lia| |]; rewrite uleb_enc_S.
  - rewrite (proj2 (Z.ltb_lt _ _)) by (change (128 ^ 1%nat) with 128 in *; lia).
    change (128 ^ 1%nat) with 128 in *. simpl. rewrite Z.mod_small by lia.
    split; [constructor; lia|]. lia.
  - zcase.
    + simpl. rewrite Z.mod_small by lia. split; [constructor; lia|]. lia.
    + pose proof (Z.div_mod v 128). pose proof (Z.mod_pos_bound v 128).
      assert (E : 128 ^ S (S f) = 128 * 128 ^ S f).
      { rewrite Nat2Z.inj_succ at 1. rewrite Z.pow_succ_r; lia. }
      destruct (IH (v / 128)) as (IH1 & IH2 & IH3); [lia| |].
      { split; [apply Z.div_pos; lia|]. apply Z.div_lt_upper_bound; lia. }
      cbn [leb_value length]. rewrite IH2.
      replace (v mod 128 + 128) with (v mod 128 + 1 * 128) by lia.
      rewrite Z.mod_add, Z.mod_mod by lia. split; [constructor; [lia|done]|]. lia.
Qed.

(** The values that [n] signed groups can hold. *)
Definition sleb_range (n : nat) (v : Z) : Prop := - 64 * 128 ^ n <= v < 64 * 128 ^ n.

Lemma sleb_range_div n v : sleb_range (S n) v ↔ sleb_range n (v / 128).
Proof.
  unfold sleb_range. rewrite Nat2Z.inj_succ, Z.pow_succ_r by lia.
  pose proof (Z.div_mod v 128). pose proof (Z.mod_pos_bound v 128). lia.
Qed.

Lemma sleb_one v :
  -64 <= v < 64 →
  leb_string [v mod 128] ∧ leb_value [v mod 128] = wrap (7 * length [v mod 128]) v ∧
  (List.last [v mod 128] 0 mod 128 <? 64) = (0 <=? v).
Proof.
  intros. pose proof (Z.div_mod v 128). pose proof (Z.mod_pos_bound v 128).
  cbn [leb_value List.last length]. change (wrap (7 * 1%nat) v) with (v mod 128).
  rewrite Z.mod_mod by lia. split; [constructor; lia|]. split; [lia|].
  destruct (Z.ltb_spec (v mod 128) 64), (Z.leb_spec 0 v); try done; lia.
Qed.

Lemma sleb_enc_string fuel v :
  sleb_range fuel v →
  let bs := sleb_enc (S fuel) v in
  leb_string bs ∧ leb_value bs = wrap (7 * length bs) v ∧
  (List.last bs 0 mod 128 <? 64) = (0 <=? v).
Proof.
  revert v. induction fuel as [|f IH]; intros v Hv; cbn zeta; rewrite sleb_enc_S;
    pose proof (Z.div_mod v 128) as Hd; pose proof (Z.mod_pos_bound v 128) as Hm.
  - unfold sleb_range in Hv. change (128 ^ 0%nat) with 1 in Hv.
    rewrite (proj2 (Z.leb_le _ _)), (proj2 (Z.ltb_lt _ _)) by lia. apply sleb_one. lia.
  - destruct ((-64 <=? v) && (v <? 64)) eqn:E; zbool.
    + apply sleb_one. lia.
    + apply sleb_range_div in Hv. specialize (IH (v / 128) Hv). cbn zeta in IH.
      set (bs := sleb_enc (S f) (v / 128)) in *. destruct IH as (IH1 & IH2 & IH3).
      split; [constructor; [lia|done]|]. split.
      * cbn [leb_value length]. rewrite IH2. unfold wrap.
        replace (v mod 128 + 128) with (v mod 128 + 1 * 128) by lia.
        rewrite Z.mod_add, Z.mod_mod by lia.
        replace (7 * S (length bs)) with (7 + 7 * length bs) by lia.
        rewrite Z.pow_add_r by lia. change (2 ^ 7) with 128. rewrite Z.rem_mul_r; lia.
      * destruct IH1; simpl List.last in *; rewrite IH3;
        destruct (Z.leb_spec 0 (v / 128)), (Z.leb_spec 0 v); try done; lia.
Qed.

Lemma sleb_enc_length fuel n v :
  (n <= fuel)%nat → sleb_range n v → (0 < length (sleb_enc (S fuel) v) <= S n)%nat.
Proof.
  revert n v. induction fuel as [|f IH]; intros n v Hn Hv; rewrite sleb_enc_S;
    destruct ((-64 <=? v) && (v <? 64)) eqn:E; simpl length; try lia.
  destruct n as [|n].
  - unfold sleb_range in Hv. change (128 ^ 0%nat) with 1 in Hv. zbool. lia.
  - apply sleb_range_div in Hv. apply (IH n) in Hv; [|lia]. simpl in Hv |- *. lia.
Qed.

Lemma sleb_range_pow n v : sleb_range n v ↔ - 2 ^ (7 * n + 6) <= v < 2 ^ (7 * n + 6).
Proof.
  unfold sleb_range. replace (2 ^ (7 * n + 6)) with (64 * 128 ^ n); [lia|].
  change 128 with (2 ^ 7). rewrite <- Z.pow_mul_r, Z.pow_add_r; lia.
Qed.

Lemma sleb_enc_fit fuel v :
  sleb_range fuel v → sleb_range (length (sleb_enc (S fuel) v) - 1) v.
Proof.
  revert v. induction fuel as [|f IH]; intros v Hv; rewrite sleb_enc_S;
    destruct ((-64 <=? v) && (v <? 64)) eqn:E; zbool.
  - done.
  - unfold sleb_range in Hv. simpl in Hv. lia.
  - unfold sleb_range. simpl. lia.
  - apply sleb_range_div in Hv.
    pose proof (sleb_enc_length f f (v / 128) ltac:(lia) Hv). specialize (IH _ Hv).
    cbn [length]. replace (S (length (sleb_enc (S f) (v / 128))) - 1)%nat
      with (S (length (sleb_enc (S f) (v / 128)) - 1)) by lia. by apply sleb_range_div.
Qed.

(** The facts about an encoding that the reader relies on. *)
Lemma sleb_encode_facts v :
  - 2 ^ 63 <= v < 2 ^ 63 →
  let bs := sleb_encode v in
  leb_string bs ∧ (0 < length bs <= 10)%nat ∧ leb_value bs < 2 ^ 70 ∧
  leb_value bs = wrap (7 * length bs) v ∧
  (List.last bs 0 mod 128 <? 64) = (0 <=? v) ∧
  - 2 ^ (7 * length bs - 1) <= v < 2 ^ (7 * length bs - 1).
Proof.
  intros Hv bs.
  assert (Hr : sleb_range 9 v) by (split; simpl; lia).
  destruct (sleb_enc_string 9 v Hr) as (Hs & He & Hsgn).
  pose proof (sleb_enc_length 9 9 v ltac:(lia) Hr) as Hl.
  pose proof (sleb_enc_fit 9 v Hr) as Hf. apply sleb_range_pow in Hf.
  change (sleb_enc 10 v) with bs in *. repeat split; auto; try lia.
  - rewrite He. pose proof (wrap_range (7 * length bs) v).
    pose proof (Z.pow_le_mono_r 2 (7 * length bs) 70). lia.
  - replace (7 * length bs - 1) with (7 * (length bs - 1)%nat + 6) by lia. lia.
  - replace (7 * length bs - 1) with (7 * (length bs - 1)%nat + 6) by lia. lia.
Qed.

(** A memory that holds exactly the bytes [bs] from [base] on (zeros complete a word that
    sticks out). *)
Definition list_mem `{A : Arch} (base : Z) (bs : list Z) : DfxMemory :=
  mkMemory (Some (λ a, if (base <=? a) && (a <? base + length bs)
                       then Some (of_le (take psize (drop (Z.to_nat (a - base)) bs ++ replicate psize 0)))
                       else None)) false 0 0 0.

Lemma holds_list_mem `{A : Arch} base bs :
  Forall is_byte bs → 0 <= base → base + length bs < 2 ^ ptr_bits → holds (list_mem base bs) base bs.
Proof.
  intros Hb H0 H1. split; [done|]. split; [done|]. split; [done|]. split; [done|].
  intros i Hi. unfold ReadMem, list_mem. simpl.
  rewrite (proj2 (Z.leb_le _ _)), (proj2 (Z.ltb_lt _ _)) by lia. simpl.
  eexists. split; [done|]. replace (Z.to_nat (base + i - base)) with i by lia.
  set (l := take psize (drop i bs ++ replicate psize 0)).
  assert (Hl : length l = psize).
  { subst l. rewrite length_take, length_app, length_replicate. lia. }
  rewrite <- Hl at 1. rewrite le_bytes_of_le.
  - subst l. rewrite take_take, Nat.min_comm, <- take_take.
    rewrite take_app_le by (rewrite length_drop; lia).
    by rewrite (take_ge (drop i bs)) by (rewrite length_drop; lia).
  - apply Forall_take, Forall_app. split; [by apply Forall_drop|].
    apply Forall_replicate. unfold is_byte, fits. lia.
Qed.

Section Leb.
Context `{A : Arch}.
Implicit Types m : DfxMemory.

(** One group of seven bits joins the value: nothing below [shift] changes, bits above 64 are
    lost. *)
Lemma leb_group val b shift :
  0 <= shift < 64 → 0 <= val < 2 ^ shift → 0 <= b →
  Z.lor val (wrap 64 (Z.shiftl b shift)) = wrap 64 (val + 2 ^ shift * b).
Proof.
  intros Hs Hv Hb.
  assert (H64 : 2 ^ 64 = 2 ^ shift * 2 ^ (64 - shift))
    by (rewrite <- Z.pow_add_r by lia; f_equal; lia).
  assert (0 < 2 ^ (64 - shift)) by (apply Z.pow_pos_nonneg; lia).
  pose proof (Z.mod_pos_bound b (2 ^ (64 - shift)) ltac:(lia)).
  assert (E : wrap 64 (Z.shiftl b shift) = Z.shiftl (b mod 2 ^ (64 - shift)) shift).
  { rewrite !Z.shiftl_mul_pow2 by lia. unfold wrap.
    rewrite H64, !(Z.mul_comm _ (2 ^ shift)), Zmult_mod_distr_l; lia. }
  rewrite E, lor_disjoint by lia. unfold wrap. apply Z.mod_unique with (b / 2 ^ (64 - shift)).
  - left. nia.
  - rewrite (Z.div_mod b (2 ^ (64 - shift))) at 1 by lia. rewrite H64. ring.
Qed.

(** The loop on a LEB128 string of at most [fuel] bytes that needs no undefined shift. *)
Lemma leb_loop_string m bs fuel addr rest val shift byte :
  leb_string bs → holds m addr (bs ++ rest) → (length bs <= fuel)%nat →
  0 <= shift → shift + 7 * (length bs - 1) < 64 → 0 <= val < 2 ^ shift →
  leb_loop m fuel addr val shift byte =
    Ret (wrap 64 (val + 2 ^ shift * leb_value bs), shift + 7 * length bs, List.last bs 0,
         addr + length bs).
Proof.
  intros Hs. revert fuel addr val shift byte.
  induction Hs as [b Hb|b bs Hb Hs IH]; intros [|fuel] addr val shift byte H Hf H0 H1 Hv;
    simpl in Hf; try lia; cbn [leb_loop].
  - rewrite (ReadT_holds _ _ _ [b] rest) by done. simpl.
    simpl in H1. rewrite Z.add_0_r, land_7f by (unfold is_byte, fits; lia).
    rewrite shl_Ret by lia. simpl. rewrite Z.mod_small by lia.
    rewrite leb_group, land_80 by (unfold is_byte, fits; lia).
    rewrite (proj2 (Z.ltb_lt _ _)) by lia. rewrite Z.add_0_r. pair_eq; lia || done.
  - rewrite (ReadT_holds _ _ _ [b] (bs ++ rest)) by done. simpl.
    assert (Hl : (1 <= length bs)%nat) by (destruct Hs; simpl; lia). simpl in H1.
    rewrite Z.add_0_r, land_7f by (unfold is_byte, fits; lia).
    assert (Hm : b mod 128 = b - 128) by (symmetry; apply Z.mod_unique with 1; lia).
    assert (Hp : 2 ^ (shift + 7) = 128 * 2 ^ shift) by (rewrite Z.pow_add_r; lia).
    assert (2 ^ (shift + 7) <= 2 ^ 63) by (apply Z.pow_le_mono_r; lia).
    rewrite shl_Ret by lia. simpl. rewrite Hm.
    rewrite leb_group, land_80 by (unfold is_byte, fits; lia).
    rewrite (wrap_small 64 (val + _)) by (unfold fits; nia).
    rewrite (proj2 (Z.ltb_ge _ _)) by lia.
    rewrite IH by (first [by apply holds_cons in H | lia | nia]).
    destruct Hs; simpl List.last; rewrite Hp; pair_eq; try (f_equal; lia); lia || done.
Qed.

Lemma ReadUleb128_string m bs addr rest :
  leb_string bs → holds m addr (bs ++ rest) → (length bs <= 10)%nat →
  ReadUleb128 m addr = Ret (wrap 64 (leb_value bs), addr + length bs).
Proof.
  intros Hs H Hl. unfold ReadUleb128, leb_fuel.
  rewrite (leb_loop_string m bs 11 addr rest) by (auto; try lia).
  cbn [mbind outcome_mbind]. by rewrite Z.pow_0_r, Z.mul_1_l, Z.add_0_l.
Qed.

Lemma ReadUleb128_enc m v addr rest :
  0 <= v < 2 ^ 64 → holds m addr (uleb_encode v ++ rest) →
  ReadUleb128 m addr = Ret (v, addr + length (uleb_encode v)).
Proof.
  intros Hv H. destruct (uleb_enc_string 10 v) as (Hs & He & Hl); [lia|simpl; lia|].
  rewrite (ReadUleb128_string m (uleb_encode v) addr rest) by (auto; unfold uleb_encode; lia).
  unfold uleb_encode. rewrite He. by rewrite wrap_small.
Qed.

(** What the sign extension of [ReadSleb128] computes. *)
Lemma sleb_extend n v :
  0 < n < 64 → - 2 ^ (n - 1) <= v < 0 →
  s64 (Z.lor (wrap n v) (wrap 64 (Z.shiftl (2 ^ 64 - 1) n))) = v.
Proof.
  intros Hn Hv.
  assert (Hp : 2 ^ n = 2 * 2 ^ (n - 1)) by (rewrite <- Z.pow_succ_r by lia; f_equal; lia).
  assert (H64 : 2 ^ 64 = 2 ^ n * 2 ^ (64 - n)) by (rewrite <- Z.pow_add_r by lia; f_equal; lia).
  assert (0 < 2 ^ (64 - n)) by (apply Z.pow_pos_nonneg; lia).
  assert (2 ^ n <= 2 ^ 63) by (apply Z.pow_le_mono_r; lia).
  assert (E1 : wrap 64 (Z.shiftl (2 ^ 64 - 1) n) = Z.shiftl (2 ^ (64 - n) - 1) n).
  { rewrite !Z.shiftl_mul_pow2 by lia. unfold wrap. symmetry.
    apply Z.mod_unique with (2 ^ n - 1); [left|]; nia. }
  assert (E2 : wrap n v = v + 2 ^ n) by (symmetry; apply Z.mod_unique with (-1); lia).
  rewrite E1, E2, lor_disjoint by lia.
  replace (v + 2 ^ n + 2 ^ n * (2 ^ (64 - n) - 1)) with (v + 1 * 2 ^ 64) by nia.
  rewrite <- (swrap_wrap 64). unfold wrap. rewrite Z.mod_add by lia.
  fold (wrap 64 v). rewrite swrap_wrap. apply swrap_small; [lia|].
  unfold sfits. change (64 - 1) with 63. lia.
Qed.

Lemma last_byte bs : Forall is_byte bs → is_byte (List.last bs 0).
Proof.
  induction 1 as [|b bs Hb Hbs IH]; simpl; [unfold is_byte, fits; lia|]. by destruct bs.
Qed.

Lemma ReadSleb128_enc m v addr rest :
  - 2 ^ 62 <= v < 2 ^ 63 → holds m addr (sleb_encode v ++ rest) →
  ReadSleb128 m addr = Ret (v, addr + length (sleb_encode v)).
Proof.
  intros Hv H. destruct (sleb_encode_facts v) as (Hs & Hl & _ & He & Hsgn & Hf); [lia|].
  pose proof (leb_string_bytes _ Hs) as Hb. set (bs := sleb_encode v) in *.
  pose proof (last_byte _ Hb) as Hlast.
  assert (Hlen : v < 0 → (length bs <= 9)%nat).
  { intros. destruct (decide (length bs <= 9)%nat); [done|].
    assert (H62 : sleb_range 8 v) by (split; simpl; lia).
    apply (sleb_enc_length 9 8) in H62; [|lia]. unfold bs, sleb_encode in *. lia. }
  assert (Hval : leb_value bs < 2 ^ 64 ∧ (0 <= v → leb_value bs = v)).
  { pose proof (wrap_range (7 * length bs) v ltac:(lia)).
    destruct (Z.lt_ge_cases v 0) as [Hn|Hn].
    - split; [|lia]. pose proof (Z.pow_le_mono_r 2 (7 * length bs) 64). lia.
    - assert (leb_value bs = v); [|lia]. rewrite He. apply wrap_small. unfold fits.
      pose proof (Z.pow_le_mono_r 2 (7 * length bs - 1) (7 * length bs)). lia. }
  unfold ReadSleb128, leb_fuel.
  rewrite (leb_loop_string m bs 11 addr rest) by (auto; lia).
  cbn [mbind outcome_mbind]. rewrite Z.pow_0_r, Z.mul_1_l, !Z.add_0_l.
  rewrite land_40, Hsgn by done.
  rewrite (wrap_small 64) by (split; [apply leb_value_nonneg|apply Hval]).
  destruct (Z.leb_spec 0 v) as [Hn|Hn].
  - rewrite (proj2 Hval Hn). pair_eq. apply swrap_small; [lia|].
    unfold sfits. change (64 - 1) with 63. lia.
  - rewrite shl_Ret by lia. cbn [mbind outcome_mbind].
    rewrite He, sleb_extend by lia. done.
Qed.

(** LEB128 round trip: reading back the unsigned encoding of any 64-bit value, or the signed
    encoding of a value from -2^62 up to 2^63 - 1, gives the value and leaves the address just
    past the encoding. *)
Theorem leb128_roundtrip m v addr rest :
  (0 <= v < 2 ^ 64 → holds m addr (uleb_encode v ++ rest) →
   ReadUleb128 m addr = Ret (v, addr + length (uleb_encode v))) ∧
  (- 2 ^ 62 <= v < 2 ^ 63 → holds m addr (sleb_encode v ++ rest) →
   ReadSleb128 m addr = Ret (v, addr + length (sleb_encode v))).
Proof. split; [apply ReadUleb128_enc|apply ReadSleb128_enc]. Qed.

(** The SLEB128 encoding of a value below -2^62 takes ten bytes, and reading it back is
    undefined: the sign extension shifts a 64-bit word by 70. *)
Theorem ReadSleb128_most_negative m v addr rest :
  - 2 ^ 63 <= v < - 2 ^ 62 → holds m addr (sleb_encode v ++ rest) →
  ReadSleb128 m addr = Undef BadShift.
Proof.
  intros Hv H. destruct (sleb_encode_facts v) as (Hs & Hl & _ & He & Hsgn & Hf); [lia|].
  pose proof (leb_string_bytes _ Hs) as Hb. set (bs := sleb_encode v) in *.
  assert (Hlen : length bs = 10%nat).
  { destruct (decide (length bs = 10)%nat); [done|].
    pose proof (Z.pow_le_mono_r 2 (7 * length bs - 1) 62). lia. }
  unfold ReadSleb128, leb_fuel.
  rewrite (leb_loop_string m bs 11 addr rest) by (auto; lia). cbn [mbind outcome_mbind].
  rewrite land_40, Hsgn by (by apply last_byte).
  rewrite (proj2 (Z.leb_gt _ _)) by lia.
  unfold shl. rewrite Hlen. done.
Qed.

Lemma ReadT_not_fuel m addr old n incre : ReadT m addr old n incre ≠ OutOfFuel.
Proof.
  unfold ReadT, Read, read_align, word_slice. intros H.
  repeat (case_match; simplify_eq/=; try done).
Qed.

Lemma leb_loop_fuel m (fuel : nat) addr val shift byte :
  71 <= 7 * fuel + shift → shift <= 70 → leb_loop m fuel addr val shift byte ≠ OutOfFuel.
Proof.
  revert addr val shift byte. induction fuel as [|f IH]; intros addr val shift byte Hf Hs; [lia|].
  cbn [leb_loop]. pose proof (ReadT_not_fuel m addr byte 1 true) as HR.
  destruct (ReadT m addr byte 1 true) as [[[ok b] a]| |]; simpl; try done.
  destruct ok; simpl; [|done]. unfold shl. zcase; simpl; [|done].
  destruct (Z.land b 128 =? 0); [done|]. apply IH; lia.
Qed.

Lemma leb_fuel_enough m addr :
  ReadUleb128 m addr ≠ OutOfFuel ∧ ReadSleb128 m addr ≠ OutOfFuel.
Proof.
  unfold ReadUleb128, ReadSleb128.
  pose proof (leb_loop_fuel m leb_fuel addr 0 0 0 ltac:(unfold leb_fuel; lia) ltac:(lia)) as H.
  destruct (leb_loop m leb_fuel addr 0 0 0) as [[[[v s] b] a]| |]; simpl; try done.
  split; [done|]. destruct (Z.land b 64 =? 0); [done|]. unfold shl. by zcase.
Qed.

End Leb.

(** Discharge [holds] for a memory given by a list of bytes. *)
Ltac solve_holds :=
  apply holds_list_mem; [apply bytesb_spec; vm_compute; reflexivity | lia | vm_compute; reflexivity].

Lemma leb128_roundtrip_witness :
  ReadUleb128 (A := Arm64) (list_mem (A := Arm64) 4096 (uleb_encode 624485 ++ [7])) 4096
    = Ret (624485, 4099) ∧
  ReadSleb128 (A := Arm64) (list_mem (A := Arm64) 4096 (sleb_encode (-123456) ++ [7])) 4096
    = Ret (-123456, 4099).
Proof.
  split.
  - apply (proj1 (leb128_roundtrip (A := Arm64) _ 624485 4096 [7])); [lia|]. solve_holds.
  - apply (proj2 (leb128_roundtrip (A := Arm64) _ (-123456) 4096 [7])); [lia|]. solve_holds.
Defined.

Lemma ReadSleb128_most_negative_witness :
  ReadSleb128 (A := Arm64) (list_mem (A := Arm64) 4096 (sleb_encode (- 2 ^ 63) ++ [])) 4096 = Undef BadShift.
Proof.
  apply (ReadSleb128_most_negative (A := Arm64) _ (- 2 ^ 63) 4096 []); [lia|]. solve_holds.
Defined.

(** ** Encoded pointers *)
Section Encoded.
Context `{A : Arch}.
Implicit Types m : DfxMemory.

(** The value of [n] little-endian bytes in the format [fmt], as a pointer. *)
Definition format_value (fmt : Z) (bs : list Z) : Z :=
  if (fmt =? DW_EH_PE_sdata1) || (fmt =? DW_EH_PE_sdata2) || (fmt =? DW_EH_PE_sdata4)
     || (fmt =? DW_EH_PE_sdata8)
  then uptr (swrap (8 * length bs) (of_le bs)) else uptr (of_le bs).

Definition fixed_format (fmt : Z) : bool :=
  existsb (Z.eqb fmt) [DW_EH_PE_udata1; DW_EH_PE_sdata1; DW_EH_PE_udata2; DW_EH_PE_sdata2;
                       DW_EH_PE_udata4; DW_EH_PE_sdata4; DW_EH_PE_udata8; DW_EH_PE_sdata8].

(** A fixed-size encoded pointer that is not indirect: [ReadEncodedValue] consumes
    exactly [GetEncodedSize] bytes, and gives the bytes' value in the format, sign-extended
    for the signed formats, with the base that the application bits select added to it. *)
Theorem ReadEncodedValue_fixed m addr enc bs rest :
  0 <= enc < 0x80 → enc ≠ DW_EH_PE_aligned →
  fixed_format (Z.land enc DW_EH_PE_FORMAT_MASK) = true →
  Z.of_nat (length bs) = GetEncodedSize enc → holds m addr (bs ++ rest) →
  ReadEncodedValue m addr enc =
    Ret (apply_encoding m enc addr (format_value (Z.land enc DW_EH_PE_FORMAT_MASK) bs),
         addr + GetEncodedSize enc).
Proof.
  intros He Ha Hf Hl H. unfold ReadEncodedValue.
  rewrite (proj2 (Z.eqb_neq _ _)) by (unfold DW_EH_PE_omit; lia).
  rewrite (proj2 (Z.eqb_neq _ DW_EH_PE_aligned)) by done.
  assert (Hi : Z.land enc DW_EH_PE_indirect = 0).
  { change DW_EH_PE_indirect with (2 ^ 7). apply Z.bits_inj'. intros i Hi.
    rewrite Z.land_spec, Z.bits_0, Z.pow2_bits_eqb by lia.
    destruct (Z.eqb_spec 7 i) as [<-|]; [|apply andb_false_r].
    rewrite <- (Z.mod_small enc (2 ^ 7)), Z.mod_pow2_bits_high; [done|lia|simpl; lia]. }
  rewrite Hi. unfold GetEncodedSize in *. change 0x0f with DW_EH_PE_FORMAT_MASK in *.
  set (fmt := Z.land enc DW_EH_PE_FORMAT_MASK) in *. clearbody fmt.
  unfold fixed_format in Hf. apply existsb_exists in Hf as (x & Hx & E%Z.eqb_eq). subst fmt.
  destruct Hx as [<-|[<-|[<-|[<-|[<-|[<-|[<-|[<-|[]]]]]]]]]; cbn in Hl;
    (match type of Hl with Z.of_nat _ = ?k =>
       assert (Hn : length bs = Z.to_nat k) by lia end); cbn in Hn;
    cbn -[ReadValue apply_encoding uptr swrap of_le Z.add format_value];
    rewrite (ReadValue_holds _ _ _ _ _ _ H Hn); unfold format_value; rewrite ?Hn; reflexivity.
Qed.
End Encoded.

(** pcrel|sdata4, the encoding of .eh_frame_hdr tables. *)
Lemma ReadEncodedValue_fixed_witness :
  ReadEncodedValue (A := Arm64) (list_mem (A := Arm64) 4096 ([0xf0; 0xff; 0xff; 0xff] ++ [0])) 4096 0x1b
    = Ret (4080, 4100).
Proof.
  apply (ReadEncodedValue_fixed (A := Arm64) _ 4096 0x1b [0xf0; 0xff; 0xff; 0xff] [0]);
    [lia|discriminate|reflexivity|reflexivity|]. solve_holds.
Defined.

(** With the absolute-pointer format, [ReadEncodedValue] returns the stored word whatever
    the application bits say, and does not follow [DW_EH_PE_indirect] either: a pc-relative or
    indirect absolute pointer comes back unrelocated. *)
Theorem ReadEncodedValue_absptr_raw `{A : Arch} (m : DfxMemory) addr enc bs rest :
  0 <= enc < 0x100 → enc ≠ DW_EH_PE_aligned → Z.land enc DW_EH_PE_FORMAT_MASK = DW_EH_PE_absptr →
  length bs = psize → holds m addr (bs ++ rest) →
  ReadEncodedValue m addr enc = Ret (of_le bs, addr + psize).
Proof.
  intros He Ha Hf Hl H. unfold ReadEncodedValue. rewrite Hf. simpl.
  destruct (Z.eqb_spec enc DW_EH_PE_omit) as [->|_]; [done|].
  rewrite (proj2 (Z.eqb_neq _ _)) by done.
  by rewrite (ReadT_holds _ _ _ _ _ _ _ H Hl).
Qed.

Lemma ReadEncodedValue_absptr_raw_witness :
  ReadEncodedValue (A := Arm64) (list_mem (A := Arm64) 4096 ([16; 0; 0; 0; 0; 0; 0; 0] ++ [])) 4096
    (DW_EH_PE_pcrel + DW_EH_PE_absptr) = Ret (16, 4104).
Proof.
  apply (ReadEncodedValue_absptr_raw (A := Arm64) _ 4096 _ [16; 0; 0; 0; 0; 0; 0; 0] []);
    [unfold DW_EH_PE_pcrel, DW_EH_PE_absptr; lia|discriminate|reflexivity|reflexivity|]. solve_holds.
Defined.

(** ** What a read can return: bytes, no more of them than asked for, at a pointer *)
Section ReadFacts.
Context `{A : Arch}.
Implicit Types m : DfxMemory.

Lemma read_words_facts m k addr bs a ok :
  fits ptr_bits addr → read_words m k addr = (bs, a, ok) →
  Forall is_byte bs ∧ (length bs <= k * psize)%nat ∧ fits ptr_bits a.
Proof.
  revert addr bs a ok. induction k as [|k IH]; intros addr bs a ok Ha H; simpl in H.
  - simplify_eq. repeat split; auto; apply Ha.
  - destruct (ReadMem m addr) as [w|]; [|simplify_eq; repeat split; simpl; try done; try lia; apply Ha].
    destruct (read_words m k (uptr (addr + psize))) as [[bs' a'] ok'] eqn:E. simplify_eq.
    apply IH in E as (H1 & H2 & H3); [|apply uptr_fits].
    rewrite length_app, length_le_bytes. split; [|split; [lia|done]].
    apply Forall_app. auto with mach.
Qed.

Lemma read_align_facts m addr size bs a size' go :
  0 <= size → fits ptr_bits addr → read_align m addr size = Ret (bs, a, size', go) →
  Forall is_byte bs ∧ (length bs + size' <= size) ∧ (0 <= size') ∧ fits ptr_bits a.
Proof.
  intros Hs Ha. unfold read_align, word_slice. intros H.
  repeat (case_match; simplify_eq/=; try (repeat split; simpl; auto; try lia; apply Ha)).
  zbool. set (ab := u64 (alignBytes_ m)) in *. set (al := Z.land addr (u64 (ab - 1))) in *.
  assert (Hal : 0 < ab - al).
  { pose proof (wrap_range 64 (alignBytes_ m) ltac:(lia)) as Hab. fold ab in Hab.
    pose proof (land_le_r addr (ab - 1) ltac:(apply Ha) ltac:(lia)).
    subst al. rewrite wrap_small by (split; lia). lia. }
  split; [by apply Forall_take, Forall_drop, le_bytes_is_byte|].
  rewrite length_take. split; [lia|]. split; [lia|apply uptr_fits].
Qed.

Lemma Read_facts m addr size incre bs a :
  0 <= size → fits ptr_bits addr → Read m addr size incre = Ret (bs, a) →
  Forall is_byte bs ∧ length bs <= size ∧ fits ptr_bits a.
Proof.
  intros Hs Ha H. unfold Read in H.
  case_match; [simplify_eq; split; [done|split; [simpl; lia|done]]|].
  apply bind_Ret in H as ([[[pre a0] size0] go] & E & H).
  apply read_align_facts in E as (Hpre & Hl & Hs0 & Ha0); [|done..].
  destruct go; simpl in H; [|by simplify_eq; split; [done|split; [lia|]]].
  destruct (read_words m (Z.to_nat (size0 / psize)) a0) as [[ws a1] ok] eqn:Ew.
  apply read_words_facts in Ew as (Hws & Hlw & Ha1); [|done].
  assert (Hp : 0 < psize) by (destruct psize_ok; lia).
  assert (Hq : (Z.to_nat (size0 / psize) * psize)%nat <= size0 - size0 mod psize).
  { rewrite Nat2Z.inj_mul, Z2Nat.id by (apply Z.div_pos; lia).
    assert (size0 = psize * (size0 / psize) + size0 mod psize) by (apply Z.div_mod; lia). lia. }
  assert (Hm : 0 <= size0 mod psize < psize) by (apply Z.mod_pos_bound; lia).
  rewrite land_psize in H by done.
  assert (Hb : Forall is_byte (pre ++ ws)) by (by apply Forall_app).
  destruct ok; simpl in H; [|simplify_eq; rewrite length_app; split; [done|split; [lia|done]]].
  case_match; [simplify_eq; rewrite length_app; split; [done|split; [lia|by destruct incre]]|].
  case_match; simplify_eq; [|rewrite length_app; split; [done|split; [lia|done]]].
  rewrite app_assoc, !length_app, length_take, length_le_bytes. split; [|split; [lia|]].
  - apply Forall_app. auto using Forall_take with mach.
  - destruct incre; auto with mach.
Qed.

Lemma ReadU_facts m addr n incre v a :
  fits ptr_bits addr → ReadU m addr n incre = Ret (v, a) →
  from_option (fits (8 * n)) True v ∧ fits ptr_bits a.
Proof.
  intros Ha H. unfold ReadU in H. apply bind_Ret in H as ([bs a'] & E & H). simplify_eq/=.
  apply Read_facts in E as (Hb & Hl & Ha'); [|lia|done]. split; [|done].
  destruct (Nat.eqb_spec (length bs) n) as [<-|]; simpl; [by apply of_le_range|done].
Qed.

Lemma ReadT_facts m addr old n incre ok v a :
  fits ptr_bits addr → ReadT m addr old n incre = Ret (ok, v, a) →
  fits (8 * n) v ∧ fits ptr_bits a.
Proof.
  intros Ha H. unfold ReadT in H. apply bind_Ret in H as ([bs a'] & E & H). simplify_eq/=.
  apply Read_facts in E as (Hb & Hl & Ha'); [|lia|done]. split; [|done].
  replace (8 * n) with (8 * length (bs ++ drop (length bs) (le_bytes n old))).
  - apply of_le_range, Forall_app. auto using Forall_drop with mach.
  - rewrite length_app, length_drop, length_le_bytes. lia.
Qed.

Lemma leb_loop_facts m fuel addr val shift byte v s b a :
  fits ptr_bits addr → fits 64 val → leb_loop m fuel addr val shift byte = Ret (v, s, b, a) →
  fits 64 v ∧ fits ptr_bits a.
Proof.
  revert addr val shift byte. induction fuel as [|f IH]; intros addr val shift byte Ha Hv H; [done|].
  simpl in H. apply bind_Ret in H as ([[ok b1] a1] & E & H).
  apply ReadT_facts in E as [_ Ha1]; [|done].
  destruct ok; simpl in H; [|by simplify_eq].
  apply bind_Ret in H as (part & E & H).
  assert (Hp : fits 64 part).
  { by eapply shl_fits in E; [|lia]. }
  case_match; [simplify_eq; auto with mach|]. eapply IH; [..|exact H]; auto with mach.
Qed.

Lemma ReadUleb128_facts m addr v a :
  fits ptr_bits addr → ReadUleb128 m addr = Ret (v, a) → fits 64 v ∧ fits ptr_bits a.
Proof.
  intros Ha H. unfold ReadUleb128 in H. apply bind_Ret in H as ([[[? ?] ?] ?] & E & H).
  simplify_eq. eapply leb_loop_facts; eauto. split; lia.
Qed.

Lemma ReadSleb128_facts m addr v a :
  fits ptr_bits addr → ReadSleb128 m addr = Ret (v, a) → sfits 64 v ∧ fits ptr_bits a.
Proof.
  intros Ha H. unfold ReadSleb128 in H. apply bind_Ret in H as ([[[? ?] ?] ?] & E & H).
  apply leb_loop_facts in E as [? ?]; [|done|split; lia].
  case_match; [simplify_eq; auto with mach|].
  apply bind_Ret in H as (ext & E & H). simplify_eq. auto with mach.
Qed.
End ReadFacts.

(** ** Reads move forward

    Unaligned reads ([alignAddr_ = false], the setting of every DWARF parser) have no undefined
    behaviour except for over-long LEB128 numbers, and never move the address back. *)
Section ReadForward.
Context `{A : Arch}.
Context (m : DfxMemory).
Hypothesis Hal : alignAddr_ m = false.

(** Far enough from the end of the address space for one operation. *)
Definition room (addr : Z) : Prop := 0 <= addr ∧ addr + 32 < 2 ^ ptr_bits.

Lemma read_words_end k addr bs a :
  0 <= addr → addr + (k * psize)%nat < 2 ^ ptr_bits → read_words m k addr = (bs, a, true) →
  a = addr + (k * psize)%nat.
Proof.
  revert addr bs a. induction k as [|k IH]; intros addr bs a H0 H1 H; simpl in H.
  - simplify_eq. simpl. lia.
  - destruct (ReadMem m addr); [|done].
    destruct (read_words m k (uptr (addr + psize))) as [[bs' a'] ok'] eqn:E. simplify_eq.
    simpl in H1. rewrite uptr_small in E by (unfold fits; lia). apply IH in E; simpl; lia.
Qed.

Lemma Read_advance addr size incre bs a :
  0 <= addr → 0 <= size → addr + size < 2 ^ ptr_bits →
  Read m addr size incre = Ret (bs, a) → addr <= a.
Proof.
  intros H0 Hs H1. unfold Read, read_align. rewrite Hal. simpl. intros H.
  case_match; [by simplify_eq|].
  destruct (read_words m (Z.to_nat (size / psize)) addr) as [[ws a1] ok] eqn:E.
  destruct ok; simpl in H; [|by simplify_eq].
  assert (Hp : 0 < psize) by (destruct psize_ok; lia).
  assert (Hq : (Z.to_nat (size / psize) * psize)%nat <= size - size mod psize).
  { rewrite Nat2Z.inj_mul, Z2Nat.id by (apply Z.div_pos; lia).
    assert (size = psize * (size / psize) + size mod psize) by (apply Z.div_mod; lia). lia. }
  assert (Hm : 0 <= size mod psize < psize) by (apply Z.mod_pos_bound; lia).
  apply read_words_end in E; [|lia..]. rewrite land_psize in H by done.
  repeat case_match; simplify_eq; try lia. rewrite uptr_small; unfold fits; lia.
Qed.

Lemma ReadU_advance addr n incre v a :
  room addr → (n <= 8)%nat → ReadU m addr n incre = Ret (v, a) → addr <= a.
Proof.
  intros [H0 H1] Hn H. unfold ReadU in H. apply bind_Ret in H as ([bs a'] & E & H). simplify_eq.
  apply Read_advance in E; lia.
Qed.

(** A one-byte read moves by at most one byte. *)
Lemma ReadT_byte addr old ok v a :
  0 <= addr → addr + 1 < 2 ^ ptr_bits → ReadT m addr old 1 true = Ret (ok, v, a) →
  addr <= a <= addr + 1.
Proof.
  intros H0 H1 H. unfold ReadT, Read, read_align in H. rewrite Hal in H. simpl in H.
  assert (Hd : 1 / psize = 0 ∧ Z.land 1 (psize - 1) = 1).
  { rewrite land_psize by lia. destruct psize_ok as [-> | ->]; done. }
  change (Z.of_nat 1) with 1 in H.
  case_match eqn:E1; simplify_eq/=; [lia|]. destruct Hd as [Hd1 Hd2]. rewrite Hd1, Hd2 in H.
  simpl in H. case_match; simplify_eq/=; [|lia]. rewrite uptr_small; unfold fits; lia.
Qed.

Lemma leb_loop_advance (fuel : nat) addr val shift byte v s b a :
  0 <= addr → addr + fuel < 2 ^ ptr_bits → leb_loop m fuel addr val shift byte = Ret (v, s, b, a) →
  addr <= a <= addr + fuel.
Proof.
  revert addr val shift byte. induction fuel as [|f IH]; intros addr val shift byte H0 H1 H; [done|].
  simpl in H. apply bind_Ret in H as ([[ok b1] a1] & E & H). apply ReadT_byte in E; [|lia..].
  destruct ok; simpl in H; [|simplify_eq; lia].
  apply bind_Ret in H as (part & _ & H). case_match; [simplify_eq; lia|]. apply IH in H; lia.
Qed.

Lemma ReadUleb128_advance addr v a :
  0 <= addr → addr + 11 < 2 ^ ptr_bits → ReadUleb128 m addr = Ret (v, a) → addr <= a <= addr + 11.
Proof.
  intros H0 H1 H. unfold ReadUleb128 in H. apply bind_Ret in H as ([[[? ?] ?] ?] & E & H).
  simplify_eq. apply leb_loop_advance in E; unfold leb_fuel in *; lia.
Qed.

Lemma ReadSleb128_advance addr v a :
  0 <= addr → addr + 11 < 2 ^ ptr_bits → ReadSleb128 m addr = Ret (v, a) → addr <= a <= addr + 11.
Proof.
  intros H0 H1 H. unfold ReadSleb128 in H. apply bind_Ret in H as ([[[? ?] ?] ?] & E & H).
  apply leb_loop_advance in E; unfold leb_fuel in *; [|lia..].
  case_match; [by simplify_eq|]. apply bind_Ret in H as (? & _ & H). by simplify_eq.
Qed.

Lemma ReadU_not_fuel addr n incre : ReadU m addr n incre ≠ OutOfFuel.
Proof.
  unfold ReadU. pose proof (ReadT_not_fuel m addr 0 n incre) as H. unfold ReadT in H.
  by destruct (Read m addr n incre) as [[? ?]| |].
Qed.

Lemma Read_no_undef addr size incre k : Read m addr size incre ≠ Undef k.
Proof.
  unfold Read, read_align. rewrite Hal. intros H. repeat (case_match; simplify_eq/=; try done).
Qed.

Lemma ReadT_forward addr old (n : nat) incre :
  0 <= addr → addr + n < 2 ^ ptr_bits →
  spec (λ _, False) (ReadT m addr old n incre) (λ r, addr <= r.2).
Proof.
  intros H0 H1. unfold ReadT. pose proof (ReadT_not_fuel m addr old n incre) as HF.
  unfold ReadT in HF. destruct (Read m addr n incre) as [[bs a]|k|] eqn:E; simpl in *; try done.
  - eapply Read_advance; [..|exact E]; lia.
  - by apply Read_no_undef in E.
Qed.

Lemma ReadU_spec addr n incre :
  room addr → (n <= 8)%nat → spec (λ _, False) (ReadU m addr n incre) (λ r, addr <= r.2).
Proof.
  intros Hr Hn. apply spec_intro; [apply ReadU_not_fuel| |intros [v a] H; by eapply ReadU_advance].
  intros k H. unfold ReadU in H. destruct (Read m addr n incre) as [[? ?]| |] eqn:E; simplify_eq/=.
  by apply Read_no_undef in E.
Qed.

Lemma ReadU_forward addr n incre :
  room addr → (n <= 8)%nat → post (ReadU m addr n incre) (λ r, addr <= r.2).
Proof. intros. by eapply spec_post, ReadU_spec. Qed.

Lemma leb_loop_undef (fuel : nat) addr val shift byte k :
  leb_loop m fuel addr val shift byte = Undef k → k = BadShift.
Proof.
  revert addr val shift byte. induction fuel as [|f IH]; intros addr val shift byte H; [done|].
  simpl in H. unfold ReadT in H. destruct (Read m addr 1%nat true) as [[bs a]| |] eqn:E;
    simplify_eq/=; [|by apply Read_no_undef in E].
  destruct (negb _); [done|]. unfold shl in H. destruct (shift <? 64); simplify_eq/=; [|done].
  case_match; [done|]. by eapply IH.
Qed.

Arguments leb_loop : simpl never.

Lemma ReadUleb128_spec addr :
  0 <= addr → addr + 11 < 2 ^ ptr_bits →
  spec (eq BadShift) (ReadUleb128 m addr) (λ r, addr <= r.2 <= addr + 11).
Proof.
  intros H0 H1. apply spec_intro; [apply leb_fuel_enough| |intros [v a] H; by eapply ReadUleb128_advance].
  intros k H. unfold ReadUleb128 in H.
  destruct (leb_loop m leb_fuel addr 0 0 0) as [[[[? ?] ?] ?]| |] eqn:E; simplify_eq/=.
  by apply leb_loop_undef in E.
Qed.

Lemma ReadSleb128_spec addr :
  0 <= addr → addr + 11 < 2 ^ ptr_bits →
  spec (eq BadShift) (ReadSleb128 m addr) (λ r, addr <= r.2 <= addr + 11).
Proof.
  intros H0 H1. apply spec_intro; [apply leb_fuel_enough| |intros [v a] H; by eapply ReadSleb128_advance].
  intros k H. unfold ReadSleb128 in H.
  destruct (leb_loop m leb_fuel addr 0 0 0) as [[[[? ?] ?] ?]| |] eqn:E; simplify_eq/=.
  - case_match; [done|]. unfold shl in H. case_match; by simplify_eq/=.
  - by apply leb_loop_undef in E.
Qed.

Lemma ReadUleb128_forward addr :
  0 <= addr → addr + 11 < 2 ^ ptr_bits → post (ReadUleb128 m addr) (λ r, addr <= r.2 <= addr + 11).
Proof. intros. by eapply spec_post, ReadUleb128_spec. Qed.

Lemma ReadSleb128_forward addr :
  0 <= addr → addr + 11 < 2 ^ ptr_bits → post (ReadSleb128 m addr) (λ r, addr <= r.2 <= addr + 11).
Proof. intros. by eapply spec_post, ReadSleb128_spec. Qed.

Lemma use_post v (Q : Z → Prop) : (∀ x, Q x) → post (use v) Q.
Proof. by destruct v; simpl. Qed.

Lemma ReadValue_spec addr n incre :
  room addr → (n <= 8)%nat → spec (λ _, False) (ReadValue m addr n incre) (λ r, addr <= r.2).
Proof.
  intros [H0 H1] Hn. unfold ReadValue. eapply spec_bind; [apply ReadT_forward; lia|].
  by intros [[ok v] a] ?.
Qed.

Lemma ReadFormat_spec addr val fmt :
  room addr → spec (eq BadShift) (ReadFormatEncodedValue m addr val fmt) (λ r, addr <= r.2).
Proof.
  intros Hr. pose proof Hr as [H0 H1]. unfold ReadFormatEncodedValue.
  repeat case_match; try (simpl; lia);
    (eapply (spec_bind _ _ _ (λ r, addr <= r.2)); [|by intros [? ?] ?]);
    first [ eapply spec_weaken; [by apply ReadValue_spec; [|lia]|done|done]
          | eapply spec_weaken; [apply ReadUleb128_spec; lia|done|simpl; lia]
          | eapply spec_weaken; [apply ReadSleb128_spec; lia|done|simpl; lia] ].
Qed.

Lemma ReadT_total addr old n incre : spec (λ _, False) (ReadT m addr old n incre) (λ _, True).
Proof.
  unfold ReadT. pose proof (ReadT_not_fuel m addr old n incre) as HF.
  unfold ReadT in HF. destruct (Read m addr n incre) as [[bs a]|k|] eqn:E; simpl in *; try done.
  by apply Read_no_undef in E.
Qed.

(** The mask of [DW_EH_PE_aligned] rounds down to a multiple of the pointer size. *)
Lemma align_mask x : fits ptr_bits x → Z.land x (uptr (- psize)) = x - x mod psize.
Proof.
  intros Hx.
  assert (E : ∃ k, 0 <= k < ptr_bits ∧ Z.of_nat psize = 2 ^ k).
  { unfold ptr_bits. destruct psize_ok as [-> | ->]; [exists 2|exists 3]; done. }
  destruct E as (k & Hk & ->). unfold uptr, wrap.
  rewrite <- (Z.mod_small x (2 ^ ptr_bits)) at 1 by apply Hx.
  rewrite <- !Z.land_ones, Z.land_assoc, <- (Z.land_assoc x), (Z.land_comm (Z.ones _) (- _)) by lia.
  rewrite Z.land_assoc, <- Z.land_assoc, Z.land_diag, Z.land_ones by lia.
  replace (- 2 ^ k) with (Z.lnot (Z.ones k)) by (rewrite Z.ones_equiv; unfold Z.lnot; lia).
  rewrite <- Z.ldiff_land, Z.ldiff_ones_r by lia.
  rewrite Z.shiftl_mul_pow2, Z.shiftr_div_pow2 by lia.
  pose proof (Z.div_mod x (2 ^ k) ltac:(apply Z.pow_nonzero; lia)).
  pose proof (Z.mod_pos_bound x (2 ^ k) ltac:(apply Z.pow_pos_nonneg; lia)).
  rewrite (Z.mul_comm (x / _)). generalize dependent (2 ^ k * (x / 2 ^ k)). intros q Hq.
  destruct Hx. pose proof (Z.mod_le x (2 ^ k)). rewrite (Z.mod_small q), ?Z.land_ones; lia.
Qed.

(** An encoded pointer is read forward too, through an indirection as well. *)
Lemma ReadEncodedValue_spec addr enc :
  room addr → spec (eq BadShift) (ReadEncodedValue m addr enc) (λ r, addr <= r.2).
Proof.
  intros Hr. pose proof Hr as [H0 H1]. unfold ReadEncodedValue.
  assert (Hp : 0 < psize <= 8) by (destruct psize_ok as [-> | ->]; lia).
  case_match; [simpl; lia|]. case_match.
  { assert (Hs : fits ptr_bits (addr + (psize - 1))) by (unfold fits; lia).
    rewrite (proj2 (fitsb_spec _ _) Hs), align_mask by done. cbn [negb].
    pose proof (Z.mod_pos_bound (addr + (psize - 1)) psize).
    set (a := addr + (psize - 1) - _) in *.
    eapply spec_bind; [apply (spec_weaken (λ _, False) _ _ (λ r, a <= r.2))|].
    - apply ReadT_forward; lia.
    - done.
    - intros r Hr'. exact Hr'.
    - intros [[ok v] a'] Ha. simpl in *. lia. }
  case_match.
  { eapply spec_bind; [eapply spec_weaken; [apply ReadT_forward; lia|done|done]|].
    by intros [[ok v] a'] Ha. }
  eapply spec_bind; [by apply ReadFormat_spec|]. intros [v a] Ha. simpl in Ha.
  case_match; [done|].
  eapply spec_bind; [eapply spec_weaken; [apply ReadT_total|done|intros r _; exact I]|].
  by intros [[ok v'] a'] _.
Qed.
End ReadForward.

#[global] Arguments Read : simpl never.
#[global] Arguments ReadT : simpl never.
#[global] Arguments ReadU : simpl never.
#[global] Arguments ReadValue : simpl never.
#[global] Arguments ReadUleb128 : simpl never.
#[global] Arguments ReadSleb128 : simpl never.
#[global] Arguments ReadEncodedValue : simpl never.
#[global] Arguments uptr : simpl never.
#[global] Arguments sptr : simpl never.
