(* ===== verification/DwarfOp.v ===== *)
(** * DWARF expressions

    [DwarfOp<uintptr_t>] (unwinder/include/dwarf_op.h, src/unwind_entry_parser/dwarf_op.cpp): the
    stack machine that evaluates the expressions of call frame information.  The deque [stack_] is
    a list with its front first; the expression pointer is threaded through; every operation is
    one definition, with the early returns of the code. *)
From S2P Require Import Prelude Arch Memory.

(** [enum DwarfOperater] (include/dwarf_define.h): the codes the interpreter names. *)
Definition DW_OP_addr : Z := 0x03.
Definition DW_OP_const1u : Z := 0x08.
Definition DW_OP_const8u : Z := 0x0e.
Definition DW_OP_const8s : Z := 0x0f.
Definition DW_OP_constu : Z := 0x10.
Definition DW_OP_consts : Z := 0x11.
Definition DW_OP_and : Z := 0x1a.
Definition DW_OP_minus : Z := 0x1c.
Definition DW_OP_mul : Z := 0x1e.
Definition DW_OP_not : Z := 0x20.
Definition DW_OP_or : Z := 0x21.
Definition DW_OP_plus : Z := 0x22.
Definition DW_OP_plus_uconst : Z := 0x23.
Definition DW_OP_xor : Z := 0x27.
Definition DW_OP_bra : Z := 0x28.
Definition DW_OP_skip : Z := 0x2f.
Definition DW_OP_lit0 : Z := 0x30.
Definition DW_OP_reg0 : Z := 0x50.
Definition DW_OP_breg0 : Z := 0x70.
Definition DW_OP_regx : Z := 0x90.

Section DwarfOp.
Context `{A : Arch}.
(** The memory, the registers chosen by [SetQutRegs] and the register file of the frame. *)
Context (m : DfxMemory) (qut : list nat) (regs : list Z).

Implicit Types st : list Z.

Definition STACK_SIZE_CHECK : nat := 2.

(** The results of an operation: the stack, or the stack and the expression pointer. *)
Abbreviation stack_res := (outcome (list Z)).
Abbreviation ptr_res := (outcome (list Z * Z)).

Definition StackReset (initialStackValue : Z) : list Z := [initialStackValue].

Definition OpPush (value : Z) st : list Z := uptr value :: st.

Definition OpDeref st : stack_res :=
  match st with
  | [] => Ret []
  | addr :: st' =>
      '(val, _) ← ReadU m addr psize false;
      val ← use val;
      Ret (val :: st')
  end.

(** The size in bytes that [OpDerefSize] reads for an operand; [None] is its default case. *)
Definition deref_size (operand : Z) : option nat :=
  if operand =? 1 then Some 1%nat
  else if operand =? 2 then Some 2%nat
  else if (operand =? 3) || (operand =? 4) then Some 4%nat
  else if (5 <=? operand) && (operand <=? 8) then Some 8%nat
  else None.

Definition OpDerefSize st (exprPtr : Z) : ptr_res :=
  match st with
  | [] => Ret ([], exprPtr)
  | addr :: st' =>
      '(operand, exprPtr) ← ReadU m exprPtr 1 true;
      operand ← use operand;
      match deref_size operand with
      | None => Ret (0 :: st', exprPtr)
      | Some n =>
          '(u, _) ← ReadU m addr n true;
          u ← use u;
          Ret (uptr u :: st', exprPtr)
      end
  end.

Definition OpDup st : list Z := match st with [] => [] | x :: _ => x :: st end.
Definition OpDrop st : list Z := match st with [] => [] | _ :: st' => st' end.
Definition OpOver st : list Z := match st with _ :: y :: _ => y :: st | _ => st end.

Definition OpPick st (exprPtr : Z) : ptr_res :=
  '(reg, exprPtr) ← ReadU m exprPtr 1 true;
  reg ← use reg;
  match st !! Z.to_nat reg with
  | None => Ret (st, exprPtr)
  | Some value => Ret (value :: st, exprPtr)
  end.

Definition OpSwap st : list Z := match st with x :: y :: st' => y :: x :: st' | _ => st end.
Definition OpRot st : list Z :=
  match st with x :: y :: z :: st' => y :: z :: x :: st' | _ => st end.

(** Operations on the top of the stack; nothing happens on an empty one. *)
Definition unary (f : Z → outcome Z) st : stack_res :=
  match st with
  | [] => Ret []
  | x :: st' => v ← f x; Ret (v :: st')
  end.

(** Operations that pop [top] and update the new front; nothing happens below two values. *)
Definition binary (f : Z → Z → outcome Z) st : stack_res :=
  match st with
  | top :: x :: st' => v ← f x top; Ret (v :: st')
  | _ => Ret st
  end.

Definition OpAbs : list Z → stack_res := unary (λ x,
  let s := sptr x in
  if s <? 0 then v ← signed_result ptr_bits (- s); Ret (uptr v) else Ret (uptr s)).
Definition OpNeg : list Z → stack_res := unary (λ x,
  v ← signed_result ptr_bits (- sptr x); Ret (uptr v)).
Definition OpNot : list Z → stack_res := unary (λ x, Ret (uptr (Z.lnot x))).

Definition OpAnd : list Z → stack_res := binary (λ x top, Ret (Z.land x top)).
Definition OpOr : list Z → stack_res := binary (λ x top, Ret (Z.lor x top)).
Definition OpXor : list Z → stack_res := binary (λ x top, Ret (Z.lxor x top)).
Definition OpPlus : list Z → stack_res := binary (λ x top, Ret (uptr (x + top))).
Definition OpMinus : list Z → stack_res := binary (λ x top, Ret (uptr (x - top))).
Definition OpMul : list Z → stack_res := binary (λ x top, Ret (uptr (x * top))).
(** Division by zero leaves the dividend. *)
Definition OpDiv : list Z → stack_res := binary (λ x top,
  if top =? 0 then Ret x
  else v ← signed_result ptr_bits (Z.quot (sptr x) (sptr top)); Ret (uptr v)).
Definition OpMod : list Z → stack_res := binary (λ x top,
  if top =? 0 then Ret x else Ret (x mod top)).
Definition OpShl : list Z → stack_res := binary (λ x top, shl ptr_bits x top).
Definition OpShr : list Z → stack_res := binary (λ x top, shr ptr_bits x top).
Definition OpShra : list Z → stack_res := binary (λ x top,
  v ← shr ptr_bits (sptr x) top; Ret (uptr v)).

(** The comparisons are those of the unsigned [AddressType]. *)
Definition OpEQ : list Z → stack_res := binary (λ x top, Ret (if x =? top then 1 else 0)).
Definition OpNE : list Z → stack_res := binary (λ x top, Ret (if x =? top then 0 else 1)).
Definition OpGE : list Z → stack_res := binary (λ x top, Ret (if top <=? x then 1 else 0)).
Definition OpGT : list Z → stack_res := binary (λ x top, Ret (if top <? x then 1 else 0)).
Definition OpLE : list Z → stack_res := binary (λ x top, Ret (if x <=? top then 1 else 0)).
Definition OpLT : list Z → stack_res := binary (λ x top, Ret (if x <? top then 1 else 0)).

(** On an empty stack the operand is not consumed. *)
Definition OpPlusULEBConst st (exprPtr : Z) : ptr_res :=
  match st with
  | [] => Ret ([], exprPtr)
  | x :: st' =>
      '(v, exprPtr) ← ReadUleb128 m exprPtr;
      Ret (uptr (x + v) :: st', exprPtr)
  end.

Definition OpSkip st (exprPtr : Z) : ptr_res :=
  '(offset, exprPtr) ← ReadU m exprPtr 2 true;
  offset ← use offset;
  Ret (st, uptr (exprPtr + s16 offset)).

(** On an empty stack the operand is not consumed. *)
Definition OpBra st (exprPtr : Z) : ptr_res :=
  match st with
  | [] => Ret ([], exprPtr)
  | top :: st' =>
      '(offset, exprPtr) ← ReadU m exprPtr 2 true;
      offset ← use offset;
      if negb (top =? 0) then Ret (st', uptr (exprPtr + s16 offset)) else Ret (st', exprPtr)
  end.

Definition OpLit (opcode : Z) st : list Z := opcode - DW_OP_lit0 :: st.

(** A register outside the tracked set is skipped; the register file is indexed unchecked. *)
Definition OpReg (opcode : Z) st : stack_res :=
  let reg := opcode - DW_OP_reg0 in
  match IsQutReg qut (u16 reg) with
  | None => Ret st
  | Some _ => v ← reg_at regs reg; Ret (v :: st)
  end.

Definition OpRegx st (exprPtr : Z) : ptr_res :=
  '(reg, exprPtr) ← ReadUleb128 m exprPtr;
  let reg := u32 reg in
  match IsQutReg qut (u16 reg) with
  | None => Ret (st, exprPtr)
  | Some _ => v ← reg_at regs reg; Ret (v :: st, exprPtr)
  end.

(** The tail that [OpBReg] and [OpBRegx] share: a register plus a signed offset. *)
Definition push_breg (reg : Z) st (exprPtr : Z) : ptr_res :=
  match IsQutReg qut (u16 reg) with
  | None => Ret (st, exprPtr)
  | Some _ =>
      '(value, exprPtr) ← ReadSleb128 m exprPtr;
      r ← reg_at regs reg;
      value ← signed_result ptr_bits (sptr value + sptr r);
      Ret (uptr value :: st, exprPtr)
  end.

Definition OpBReg (opcode : Z) st (exprPtr : Z) : ptr_res :=
  push_breg (opcode - DW_OP_breg0) st exprPtr.

Definition OpBRegx st (exprPtr : Z) : ptr_res :=
  '(reg, exprPtr) ← ReadUleb128 m exprPtr;
  push_breg (u32 reg) st exprPtr.

(** A constant operand of [n] bytes, read into an uninitialised local. *)
Definition push_const (n : nat) (signed : bool) st (addr : Z) : ptr_res :=
  '(val, addr) ← ReadU m addr n true;
  val ← use val;
  Ret (OpPush (if signed then swrap (8 * n) val else val) st, addr).

(** Combine the result of [Decode] with the flag it returns. *)
Definition continue (r : ptr_res) : outcome (bool * list Z * Z) :=
  '(st, addr) ← r; Ret (true, st, addr).
Definition pure_op (r : stack_res) (addr : Z) : outcome (bool * list Z * Z) :=
  st ← r; Ret (true, st, addr).

(** The operations that [Decode] logs and skips without their operands. *)
Definition is_nop_op (opcode : Z) : bool :=
  existsb (Z.eqb opcode) [0x91; 0x93; 0x18; 0x95; 0x96; 0x97; 0x98; 0x99; 0x9a].

(** The switch of [Decode]: whether it goes on, the stack, the pointer. *)
Definition exec (opcode : Z) st (addr : Z) : outcome (bool * list Z * Z) :=
  if (0x30 <=? opcode) && (opcode <=? 0x4f) then Ret (true, OpLit opcode st, addr)
  else if (0x50 <=? opcode) && (opcode <=? 0x6f) then pure_op (OpReg opcode st) addr
  else if (0x70 <=? opcode) && (opcode <=? 0x8f) then continue (OpBReg opcode st addr)
  else if is_nop_op opcode then Ret (true, st, addr)
  else match opcode with
  | 0x03 => continue (push_const psize false st addr)
  | 0x06 => pure_op (OpDeref st) addr
  | 0x08 => continue (push_const 1 false st addr)
  | 0x09 => continue (push_const 1 true st addr)
  | 0x0a => continue (push_const 2 false st addr)
  | 0x0b => continue (push_const 2 true st addr)
  | 0x0c => continue (push_const 4 false st addr)
  | 0x0d => continue (push_const 4 true st addr)
  | 0x0e => continue (push_const 8 false st addr)
  | 0x0f => continue (push_const 8 true st addr)
  | 0x10 => continue ('(v, addr) ← ReadUleb128 m addr; Ret (OpPush v st, addr))
  | 0x11 => continue ('(v, addr) ← ReadSleb128 m addr; Ret (OpPush v st, addr))
  | 0x12 => Ret (true, OpDup st, addr)
  | 0x13 => Ret (true, OpDrop st, addr)
  | 0x14 => Ret (true, OpOver st, addr)
  | 0x15 => continue (OpPick st addr)
  | 0x16 => Ret (true, OpSwap st, addr)
  | 0x17 => Ret (true, OpRot st, addr)
  | 0x19 => pure_op (OpAbs st) addr
  | 0x1a => pure_op (OpAnd st) addr
  | 0x1b => pure_op (OpDiv st) addr
  | 0x1c => pure_op (OpMinus st) addr
  | 0x1d => pure_op (OpMod st) addr
  | 0x1e => pure_op (OpMul st) addr
  | 0x1f => pure_op (OpNeg st) addr
  | 0x20 => pure_op (OpNot st) addr
  | 0x21 => pure_op (OpOr st) addr
  | 0x22 => pure_op (OpPlus st) addr
  | 0x23 => continue (OpPlusULEBConst st addr)
  | 0x24 => pure_op (OpShl st) addr
  | 0x25 => pure_op (OpShr st) addr
  | 0x26 => pure_op (OpShra st) addr
  | 0x27 => pure_op (OpXor st) addr
  | 0x28 => continue (OpBra st addr)
  | 0x29 => pure_op (OpEQ st) addr
  | 0x2a => pure_op (OpGE st) addr
  | 0x2b => pure_op (OpGT st) addr
  | 0x2c => pure_op (OpLE st) addr
  | 0x2d => pure_op (OpLT st) addr
  | 0x2e => pure_op (OpNE st) addr
  | 0x2f => continue (OpSkip st addr)
  | 0x90 => continue (OpRegx st addr)
  | 0x92 => continue (OpBRegx st addr)
  | 0x94 => continue (OpDerefSize st addr)
  | _ => Ret (false, st, addr)
  end.

Definition Decode st (addr : Z) : outcome (bool * list Z * Z) :=
  '(opcode, addr) ← ReadU m addr 1 true;
  opcode ← use opcode;
  exec opcode st addr.

(** The [while] of [Eval]: it has no bound of its own, so the fuel is a parameter. *)
Fixpoint eval_loop (fuel : nat) (addr endp : Z) st : outcome (list Z) :=
  if addr <? endp then
    match fuel with
    | O => OutOfFuel
    | S fuel' =>
        '(go, st, addr) ← Decode st addr;
        if (go : bool) then eval_loop fuel' addr endp st else Ret st
    end
  else Ret st.

Definition Eval (fuel : nat) (initStackValue startPtr : Z) : outcome Z :=
  '(length, addr) ← ReadUleb128 m startPtr;
  let endp := uptr (addr + uptr length) in
  st ← eval_loop fuel addr endp (StackReset initStackValue);
  match st with
  | [] => Ret 0
  | v :: _ => Ret v
  end.
End DwarfOp.

(** ** Values stay machine words *)
Section StackInvariant.
Context `{A : Arch}.
Context (m : DfxMemory) (qut : list nat) (regs : list Z).
Implicit Types st : list Z.

Definition words st : Prop := Forall (fits ptr_bits) st.

(** A result keeps the stack of words and the pointer. *)
Definition good_stack (r : outcome (list Z)) : Prop := ∀ st, r = Ret st → words st.
Definition good_ptr (r : outcome (list Z * Z)) : Prop :=
  ∀ st a, r = Ret (st, a) → words st ∧ fits ptr_bits a.
Definition good (r : outcome (bool * list Z * Z)) : Prop :=
  ∀ b st a, r = Ret (b, st, a) → words st ∧ fits ptr_bits a.

Lemma ptr_bits_nonneg : 0 <= ptr_bits.
Proof. destruct ptr_bits_cases; lia. Qed.

Lemma fits_small z : 0 <= z < 256 → fits ptr_bits z.
Proof. unfold fits. destruct ptr_bits_cases as [-> | ->]; lia. Qed.

Lemma good_Ret b st a : words st → fits ptr_bits a → good (Ret (b, st, a)).
Proof. intros Hst Ha ? ? ? H. by simplify_eq. Qed.

Lemma good_continue r : good_ptr r → good (continue r).
Proof.
  intros H b st a E. unfold continue in E. apply bind_Ret in E as ([st' a'] & E & E').
  simplify_eq. by apply H.
Qed.

Lemma good_pure_op r a : good_stack r → fits ptr_bits a → good (pure_op r a).
Proof.
  intros H Ha b st a' E. unfold pure_op in E. apply bind_Ret in E as (st' & E & E').
  simplify_eq. split; [by apply H|done].
Qed.

Lemma good_unary f st :
  words st → (∀ x v, fits ptr_bits x → f x = Ret v → fits ptr_bits v) → good_stack (unary f st).
Proof.
  intros Hst Hf st' E. destruct Hst as [|x st Hx Hst]; simpl in E; [by simplify_eq; constructor|].
  apply bind_Ret in E as (v & E & E'). simplify_eq. constructor; eauto.
Qed.

Lemma good_binary f st :
  words st →
  (∀ x y v, fits ptr_bits x → fits ptr_bits y → f x y = Ret v → fits ptr_bits v) →
  good_stack (binary f st).
Proof.
  intros Hst Hf st' E.
  destruct Hst as [|y st Hy Hst]; simpl in E; [by simplify_eq; constructor|].
  destruct Hst as [|x st Hx Hst]; simpl in E; [simplify_eq; by constructor; [|constructor]|].
  apply bind_Ret in E as (v & E & E'). simplify_eq. constructor; eauto.
Qed.

Lemma ReadU_word addr n incre v a :
  fits ptr_bits addr → ReadU m addr n incre = Ret (Some v, a) →
  fits (8 * n) v ∧ fits ptr_bits a.
Proof. intros Ha H. by apply ReadU_facts in H. Qed.

Lemma use_Ret o v : use o = Ret v → o = Some v.
Proof. destruct o; simpl; intros; by simplify_eq. Qed.

Ltac read_step H :=
  let v := fresh "v" in let a := fresh "a" in let E := fresh "E" in
  apply bind_Ret in H as ([v a] & E & H); try (apply ReadU_facts in E as [? ?]; [|done]).

Lemma good_push_const n signed st addr :
  words st → fits ptr_bits addr → good_ptr (push_const m n signed st addr).
Proof.
  intros Hst Ha st' a' H. unfold push_const in H. read_step H.
  apply bind_Ret in H as (x & _ & H). simplify_eq.
  split; [|done]. constructor; [apply uptr_fits|done].
Qed.

Lemma good_deref st : words st → good_stack (OpDeref m st).
Proof.
  intros Hst st' H. destruct Hst as [|x st Hx Hst]; simpl in H; [by simplify_eq; constructor|].
  read_step H. apply bind_Ret in H as (y & Ey & H). apply use_Ret in Ey. simplify_eq.
  by constructor.
Qed.

Lemma good_deref_size st addr :
  words st → fits ptr_bits addr → good_ptr (OpDerefSize m st addr).
Proof.
  intros Hst Ha st' a' H.
  destruct Hst as [|x st Hx Hst]; simpl in H; [by simplify_eq; split; [constructor|]|].
  read_step H. apply bind_Ret in H as (op & _ & H).
  case_match; [|by simplify_eq; split; [constructor; [apply fits_small; lia|done]|]].
  read_step H. apply bind_Ret in H as (y & _ & H). simplify_eq.
  split; [constructor; [apply uptr_fits|done]|done].
Qed.

Lemma good_breg reg st addr :
  words st → fits ptr_bits addr → good_ptr (push_breg m qut regs reg st addr).
Proof.
  intros Hst Ha st' a' H. unfold push_breg in H. case_match; [|by simplify_eq].
  apply bind_Ret in H as ([v a] & E & H). apply ReadSleb128_facts in E as [_ ?]; [|done].
  apply bind_Ret in H as (r & _ & H). apply bind_Ret in H as (x & _ & H). simplify_eq.
  split; [constructor; [apply uptr_fits|done]|done].
Qed.

Lemma good_uleb (f : Z → list Z) addr :
  (∀ v, fits 64 v → words (f v)) → fits ptr_bits addr →
  good_ptr ('(v, addr) ← ReadUleb128 m addr; Ret (f v, addr)).
Proof.
  intros Hf Ha st' a' H. apply bind_Ret in H as ([v a] & E & H). simplify_eq.
  apply ReadUleb128_facts in E as [? ?]; auto.
Qed.

Lemma good_sleb (f : Z → list Z) addr :
  (∀ v, words (f v)) → fits ptr_bits addr →
  good_ptr ('(v, addr) ← ReadSleb128 m addr; Ret (f v, addr)).
Proof.
  intros Hf Ha st' a' H. apply bind_Ret in H as ([v a] & E & H). simplify_eq.
  apply ReadSleb128_facts in E as [? ?]; auto.
Qed.

Lemma good_plus_uconst st addr :
  words st → fits ptr_bits addr → good_ptr (OpPlusULEBConst m st addr).
Proof.
  intros Hst Ha. destruct Hst as [|x st Hx Hst]; simpl; [by intros ? ? [= <- <-]; split; [constructor|]|].
  apply good_uleb; [|done]. intros v _. constructor; [apply uptr_fits|done].
Qed.

Lemma good_pick st addr : words st → fits ptr_bits addr → good_ptr (OpPick m st addr).
Proof.
  intros Hst Ha st' a' H. unfold OpPick in H. read_step H.
  apply bind_Ret in H as (r & _ & H). case_match eqn:L; simplify_eq; [|done].
  split; [|done]. constructor; [|done]. by eapply Forall_lookup_1.
Qed.

Lemma good_skip st addr : words st → fits ptr_bits addr → good_ptr (OpSkip m st addr).
Proof.
  intros Hst Ha st' a' H. unfold OpSkip in H. read_step H.
  apply bind_Ret in H as (r & _ & H). simplify_eq. split; [done|apply uptr_fits].
Qed.

Lemma good_bra st addr : words st → fits ptr_bits addr → good_ptr (OpBra m st addr).
Proof.
  intros Hst Ha st' a' H.
  destruct Hst as [|x st Hx Hst]; simpl in H; [by simplify_eq; split; [constructor|]|].
  read_step H. apply bind_Ret in H as (r & _ & H).
  case_match; simplify_eq; auto with mach.
Qed.

Lemma good_reg_at (idx : Z) v : words regs → reg_at regs idx = Ret v → fits ptr_bits v.
Proof.
  unfold reg_at. intros Hr H. repeat (case_match; simplify_eq). by eapply Forall_lookup_1.
Qed.

Lemma good_reg opcode st : words regs → words st → good_stack (OpReg qut regs opcode st).
Proof.
  intros Hr Hst st' H. unfold OpReg in H. case_match; [|by simplify_eq].
  apply bind_Ret in H as (v & E & H). simplify_eq. constructor; [by eapply good_reg_at|done].
Qed.

Lemma good_regx st addr :
  words regs → words st → fits ptr_bits addr → good_ptr (OpRegx m qut regs st addr).
Proof.
  intros Hr Hst Ha st' a' H. unfold OpRegx in H. apply bind_Ret in H as ([v a] & E & H).
  apply ReadUleb128_facts in E as [_ ?]; [|done]. case_match; [|by simplify_eq].
  apply bind_Ret in H as (x & E & H). simplify_eq. split; [|done].
  constructor; [by eapply good_reg_at|done].
Qed.

Lemma good_bregx st addr :
  words st → fits ptr_bits addr → good_ptr (OpBRegx m qut regs st addr).
Proof.
  intros Hst Ha st' a' H. unfold OpBRegx in H. apply bind_Ret in H as ([v a] & E & H).
  apply ReadUleb128_facts in E as [_ ?]; [|done]. by eapply good_breg in H.
Qed.

(** Arithmetic operations and comparisons. *)
Lemma good_arith st :
  words st →
  Forall (λ op : list Z → outcome (list Z), good_stack (op st))
    [OpAbs; OpNeg; OpNot; OpAnd; OpOr; OpXor; OpPlus; OpMinus; OpMul; OpDiv; OpMod; OpShl; OpShr;
     OpShra; OpEQ; OpNE; OpGE; OpGT; OpLE; OpLT].
Proof.
  intros Hst. pose proof ptr_bits_nonneg.
  repeat apply Forall_cons_2; try apply Forall_nil_2;
    (apply good_unary || apply good_binary); try done; intros x y; intros; cbv zeta in *.
  all: repeat match goal with
    | H : (if _ then _ else _) = Ret _ |- _ => case_match
    | H : (_ ≫= _) = Ret _ |- _ => apply bind_Ret in H as (? & ? & H)
    | H : Ret _ = Ret _ |- _ => injection H as H; subst
    end; zbool; auto using uptr_fits, fits_small with mach.
  all: try (apply fits_mod; [done|]; unfold fits in *; lia).
  all: try (by eapply shl_fits).
  all: try (eapply shr_fits; [|exact H0|eassumption]; unfold fits in *; lia).
  all: apply fits_small; case_match; lia.
Qed.

Lemma good_op op st addr :
  words st → fits ptr_bits addr →
  op ∈ [OpAbs; OpNeg; OpNot; OpAnd; OpOr; OpXor; OpPlus; OpMinus; OpMul; OpDiv; OpMod; OpShl; OpShr;
        OpShra; OpEQ; OpNE; OpGE; OpGT; OpLE; OpLT] →
  good (pure_op (op st) addr).
Proof.
  intros Hst Ha Hop. apply good_pure_op; [|done].
  apply (proj1 (Forall_forall _ _) (good_arith st Hst)). by apply list_elem_of_In.
Qed.

(** The operations that only move values. *)
Lemma words_shuffle st :
  words st →
  words (OpDup st) ∧ words (OpDrop st) ∧ words (OpOver st) ∧ words (OpSwap st) ∧ words (OpRot st).
Proof.
  unfold words, OpDup, OpDrop, OpOver, OpSwap, OpRot. intros Hst.
  destruct Hst as [|x ? Hx [|y ? Hy [|z st Hz Hst]]]; auto 10 using Forall_cons_2, Forall_nil_2.
Qed.

(** One step of the expression machine keeps every stack value and the expression pointer
    within the width of [uintptr_t], whatever the opcode and whatever memory holds. *)
Lemma exec_words opcode st addr b st' a' :
  is_byte opcode → words regs → words st → fits ptr_bits addr →
  exec m qut regs opcode st addr = Ret (b, st', a') → words st' ∧ fits ptr_bits a'.
Proof.
  intros Hop Hr Hst Ha. revert b st' a'. change (good (exec m qut regs opcode st addr)).
  unfold exec.
  destruct ((0x30 <=? opcode) && (opcode <=? 0x4f)) eqn:E1; zbool.
  { apply good_Ret; [|done]. constructor; [|done]. apply fits_small. unfold DW_OP_lit0. lia. }
  destruct ((0x50 <=? opcode) && _); [by apply good_pure_op; [apply good_reg|]|].
  destruct ((0x70 <=? opcode) && _); [by apply good_continue, good_breg|].
  destruct (is_nop_op opcode); [by apply good_Ret|]. clear Hop E1.
  repeat case_match; lazymatch goal with
  | |- good (pure_op (OpDeref _ _) _) => by apply good_pure_op; [apply good_deref|]
  | |- good (pure_op _ _) => apply good_op; [done|done|apply list_elem_of_In; simpl; tauto]
  | |- good (continue (push_const _ _ _ _ _)) => by apply good_continue, good_push_const
  | |- good (continue (OpPick _ _ _)) => by apply good_continue, good_pick
  | |- good (continue (OpPlusULEBConst _ _ _)) => by apply good_continue, good_plus_uconst
  | |- good (continue (OpBra _ _ _)) => by apply good_continue, good_bra
  | |- good (continue (OpSkip _ _ _)) => by apply good_continue, good_skip
  | |- good (continue (OpRegx _ _ _ _ _)) => by apply good_continue, good_regx
  | |- good (continue (OpBRegx _ _ _ _ _)) => by apply good_continue, good_bregx
  | |- good (continue (OpDerefSize _ _ _)) => by apply good_continue, good_deref_size
  | |- good (continue (ReadUleb128 _ _ ≫= _)) =>
      apply good_continue, good_uleb; [intros; constructor; [apply uptr_fits|done]|done]
  | |- good (continue (ReadSleb128 _ _ ≫= _)) =>
      apply good_continue, good_sleb; [intros; constructor; [apply uptr_fits|done]|done]
  | |- _ => apply good_Ret; [first [done|apply words_shuffle in Hst; tauto]|done]
  end.
Qed.

Lemma eval_loop_words fuel addr endp st st' :
  words regs → words st → fits ptr_bits addr →
  eval_loop m qut regs fuel addr endp st = Ret st' → words st'.
Proof.
  intros Hr. revert addr st. induction fuel as [|fuel IH]; intros addr st Hst Ha H; simpl in H.
  - case_match; by simplify_eq.
  - case_match; [|by simplify_eq]. unfold Decode in H.
    apply bind_Ret in H as ([[go st1] a1] & H & Hgo).
    apply bind_Ret in H as ([[op|] a] & E & H); [|done]. simpl in H.
    apply ReadU_facts in E as [Hop Ha']; [|done].
    apply exec_words in H as [Hst1 Ha1]; [|done..].
    destruct go; simplify_eq; eauto.
Qed.

(** What [Eval] returns is a machine word. *)
Lemma Eval_fits fuel init start v :
  words regs → fits ptr_bits init → fits ptr_bits start →
  Eval m qut regs fuel init start = Ret v → fits ptr_bits v.
Proof.
  intros Hr Hi Hs H. unfold Eval in H. apply bind_Ret in H as ([n a] & E & H).
  apply ReadUleb128_facts in E as [_ Ha]; [|done].
  apply bind_Ret in H as (st & E & H).
  apply eval_loop_words in E; [|done|by constructor|done].
  destruct st; simplify_eq; [apply fits_small; lia|by apply Forall_inv in E].
Qed.
End StackInvariant.

(** ** Compiled expressions evaluate to what they mean *)

(** Arithmetic over constants, registers and memory, as a compiler emits it. *)
Inductive dexpr :=
| ELit (n : Z)
| EConstU (v : Z)
| EConstS (v : Z)
| EBReg (r : nat) (off : Z)
| EPlusU (e : dexpr) (c : Z)
| EDeref (e : dexpr)
| ENot (e : dexpr)
| EPlus (a b : dexpr)
| EMinus (a b : dexpr)
| EMul (a b : dexpr)
| EAnd (a b : dexpr)
| EOr (a b : dexpr)
| EXor (a b : dexpr)
| EGe (a b : dexpr).

Fixpoint compile (e : dexpr) : list Z :=
  match e with
  | ELit n => [0x30 + n]
  | EConstU v => 0x10 :: uleb_encode v
  | EConstS v => 0x11 :: sleb_encode v
  | EBReg r off => (0x70 + r) :: sleb_encode off
  | EPlusU e c => compile e ++ 0x23 :: uleb_encode c
  | EDeref e => compile e ++ [0x06]
  | ENot e => compile e ++ [0x20]
  | EPlus a b => compile a ++ compile b ++ [0x22]
  | EMinus a b => compile a ++ compile b ++ [0x1c]
  | EMul a b => compile a ++ compile b ++ [0x1e]
  | EAnd a b => compile a ++ compile b ++ [0x1a]
  | EOr a b => compile a ++ compile b ++ [0x21]
  | EXor a b => compile a ++ compile b ++ [0x27]
  | EGe a b => compile a ++ compile b ++ [0x2a]
  end.

(** The number of operations, which is the number of iterations of [Eval]'s loop. *)
Fixpoint operations (e : dexpr) : nat :=
  match e with
  | ELit _ | EConstU _ | EConstS _ | EBReg _ _ => 1
  | EPlusU e _ | EDeref e | ENot e => operations e + 1
  | EPlus a b | EMinus a b | EMul a b | EAnd a b | EOr a b | EXor a b | EGe a b =>
      operations a + operations b + 1
  end.

Section Compiled.
Context `{A : Arch}.
Context (m : DfxMemory) (qut : list nat) (regs : list Z).

Definition reg_value (r : nat) : Z := default 0 (regs !! r).

Fixpoint denote (e : dexpr) : Z :=
  match e with
  | ELit n => n
  | EConstU v => uptr v
  | EConstS v => uptr v
  | EBReg r off => uptr (reg_value r + off)
  | EPlusU e c => uptr (denote e + c)
  | EDeref e => uptr (default 0 (ReadMem m (denote e)))
  | ENot e => uptr (Z.lnot (denote e))
  | EPlus a b => uptr (denote a + denote b)
  | EMinus a b => uptr (denote a - denote b)
  | EMul a b => uptr (denote a * denote b)
  | EAnd a b => Z.land (denote a) (denote b)
  | EOr a b => Z.lor (denote a) (denote b)
  | EXor a b => Z.lxor (denote a) (denote b)
  | EGe a b => if denote b <=? denote a then 1 else 0
  end.

(** Encodable operands, tracked registers, no signed overflow, readable memory. *)
Fixpoint well_formed (e : dexpr) : Prop :=
  match e with
  | ELit n => 0 <= n < 32
  | EConstU v => fits 64 v
  | EConstS v => - 2 ^ 62 <= v < 2 ^ 63
  | EBReg r off =>
      (r < 32)%nat ∧ is_Some (IsQutReg qut r) ∧ is_Some (regs !! r) ∧
      - 2 ^ 62 <= off < 2 ^ 63 ∧ sfits ptr_bits (sptr off + sptr (reg_value r))
  | EPlusU e c => well_formed e ∧ fits 64 c
  | EDeref e => well_formed e ∧ is_Some (ReadMem m (denote e)) ∧ denote e + psize < 2 ^ 64
  | ENot e => well_formed e
  | EPlus a b | EMinus a b | EMul a b | EAnd a b | EOr a b | EXor a b | EGe a b =>
      well_formed a ∧ well_formed b
  end.

Abbreviation run := (eval_loop m qut regs).

Lemma Decode_holds st addr b rest :
  holds m addr (b :: rest) → Decode m qut regs st addr = exec m qut regs b st (addr + 1).
Proof.
  intros H. unfold Decode. rewrite (ReadU_holds _ _ [b] rest) by done. simpl.
  by rewrite Z.add_0_r.
Qed.

(** One iteration of the loop. *)
Lemma run_step f addr endp st b rest st' a' :
  holds m addr (b :: rest) → addr < endp →
  exec m qut regs b st (addr + 1) = Ret (true, st', a') →
  run (1 + f) addr endp st = run f a' endp st'.
Proof.
  intros H Hlt E. simpl. rewrite (proj2 (Z.ltb_lt _ _)) by done.
  by rewrite (Decode_holds _ _ _ _ H), E.
Qed.

Lemma uptr_sptr z : uptr (sptr z) = uptr z.
Proof. apply wrap_swrap. destruct ptr_bits_cases; lia. Qed.

Lemma deref_word w addr st :
  alignAddr_ m = false → ReadMem m addr = Some w → addr + psize < 2 ^ 64 →
  OpDeref m (addr :: st) = Ret (uptr w :: st).
Proof.
  intros Hal Hr Hb. unfold OpDeref, ReadU, Read, read_align. rewrite Hal.
  rewrite (proj2 (Z.leb_gt _ _)) by done. simpl.
  assert (Hp : 0 < psize) by (destruct psize_ok; lia).
  rewrite Z.div_same, land_psize, Z.mod_same by lia. simpl. rewrite Hr. simpl.
  rewrite app_nil_r, length_le_bytes, Nat.eqb_refl. simpl. by rewrite of_le_le_bytes.
Qed.

(** What compiled code does: run from [addr] to its end, it pushes the value. *)
Definition pushes (n : nat) (code : list Z) (v : Z) : Prop :=
  ∀ f addr endp st rest, holds m addr (code ++ rest) → addr + length code <= endp →
    run (n + f) addr endp st = run f (addr + length code) endp (v :: st).

Lemma pushes_leaf b operand v :
  (∀ st addr rest, holds m addr (operand ++ rest) →
     exec m qut regs b st addr = Ret (true, v :: st, addr + length operand)) →
  pushes 1 (b :: operand) v.
Proof.
  intros E f addr endp st rest H Hend. simpl in Hend.
  rewrite (run_step f addr endp st b (operand ++ rest) (v :: st) (addr + length (b :: operand)));
    [done|done|lia|]. apply holds_cons in H. rewrite (E st _ rest H). pair_eq. simpl. lia.
Qed.

(** A unary operation after code that pushes its argument. *)
Lemma pushes_unary n code x b operand v :
  pushes n code x →
  (∀ st addr rest, holds m addr (operand ++ rest) →
     exec m qut regs b (x :: st) addr = Ret (true, v :: st, addr + length operand)) →
  pushes (n + 1) (code ++ b :: operand) v.
Proof.
  intros IH E f addr endp st rest H Hend.
  rewrite <- app_assoc in H. rewrite length_app in Hend |- *. cbn [length] in Hend |- *.
  replace (n + 1 + f)%nat with (n + (1 + f))%nat by lia.
  rewrite (IH _ _ _ _ (((b :: operand) ++ rest)) H) by lia.
  apply holds_app_r in H.
  rewrite (run_step f _ endp _ b (operand ++ rest) (v :: st)
             (addr + (length code + S (length operand))%nat)); [done|done|lia|].
  apply holds_cons in H. rewrite (E st _ rest H). pair_eq. lia.
Qed.

Lemma pushes_binary n k code code' x y b v :
  pushes n code x → pushes k code' y →
  (∀ st addr, exec m qut regs b (y :: x :: st) addr = Ret (true, v :: st, addr)) →
  pushes (n + k + 1) (code ++ code' ++ [b]) v.
Proof.
  intros IHa IHb E f addr endp st rest H Hend.
  rewrite <- !app_assoc in H. rewrite !length_app in Hend |- *. cbn [length] in Hend |- *.
  replace (n + k + 1 + f)%nat with (n + (k + (1 + f)))%nat by lia.
  rewrite (IHa _ _ _ _ _ H) by lia. apply holds_app_r in H.
  rewrite (IHb _ _ _ _ _ H) by lia. apply holds_app_r in H.
  rewrite (run_step f _ endp _ b rest (v :: st)
             (addr + (length code + (length code' + 1))%nat)); [done|done|lia|].
  rewrite E. pair_eq. lia.
Qed.

Lemma exec_lit n st addr : 0 <= n < 32 → exec m qut regs (0x30 + n) st addr = Ret (true, n :: st, addr).
Proof.
  intros Hn. unfold exec. rewrite (proj2 (Z.leb_le _ _)), (proj2 (Z.leb_le _ 0x4f)) by lia.
  cbn [andb]. unfold OpLit, DW_OP_lit0. by replace (0x30 + n - 0x30) with n by lia.
Qed.

Lemma exec_breg (r : nat) st addr :
  (r < 32)%nat → exec m qut regs (0x70 + r) st addr = continue (push_breg m qut regs r st addr).
Proof.
  intros Hr. unfold exec.
  rewrite (proj2 (Z.leb_gt (0x70 + r) 0x4f)), (proj2 (Z.leb_gt (0x70 + r) 0x6f)) by lia.
  rewrite !andb_false_r. rewrite (proj2 (Z.leb_le _ _)), (proj2 (Z.leb_le _ 0x8f)) by lia.
  simpl. unfold OpBReg, DW_OP_breg0. by replace (0x70 + r - 0x70) with (r : Z) by lia.
Qed.

Lemma compile_pushes e :
  alignAddr_ m = false → well_formed e → pushes (operations e) (compile e) (denote e).
Proof.
  intros Hal. induction e; simpl; intros Hw.
  all: try (destruct Hw; eapply pushes_binary; [by apply IHe1|by apply IHe2|reflexivity]).
  - apply (pushes_leaf _ []). intros st addr rest H. rewrite exec_lit by done.
    by rewrite Z.add_0_r.
  - apply pushes_leaf. intros st addr rest H. unfold exec. simpl.
    by rewrite (ReadUleb128_enc m v addr rest).
  - apply pushes_leaf. intros st addr rest H. unfold exec. simpl.
    by rewrite (ReadSleb128_enc m v addr rest).
  - destruct Hw as (Hr & [i Hq] & [x Hx] & Ho & Hf). apply pushes_leaf. intros st addr rest H.
    rewrite exec_breg by done. unfold push_breg, reg_value in *. rewrite Hx in *. simpl in *.
    rewrite wrap_small by (unfold fits; lia). rewrite Hq, (ReadSleb128_enc m off addr rest) by done.
    simpl. unfold reg_at. rewrite (proj2 (Z.ltb_ge _ _)), Nat2Z.id, Hx by lia. simpl.
    rewrite signed_result_Ret by done. simpl. pair_eq. f_equal.
    rewrite Z.add_comm. unfold uptr at 1, sptr. rewrite <- wrap_add_l, <- wrap_add_r.
    rewrite !wrap_swrap by (destruct ptr_bits_cases; lia). by rewrite wrap_add_l, wrap_add_r.
  - destruct Hw as [He Hc]. apply (pushes_unary _ _ (denote e)); [auto|].
    intros st addr rest H. unfold exec. simpl. by rewrite (ReadUleb128_enc m c addr rest).
  - destruct Hw as (He & [w Hm] & Hb). apply (pushes_unary _ _ (denote e) _ []); [auto|].
    intros st addr rest H. unfold exec. cbn -[OpDeref]. rewrite (deref_word w) by done. simpl. by rewrite Hm, Z.add_0_r.
  - apply (pushes_unary _ _ (denote e) _ []); [auto|].
    intros st addr rest H. unfold exec. simpl. by rewrite Z.add_0_r.
Qed.

(** C2. Correctness of expression evaluation: on memory that holds the encoding of a well-formed
    arithmetic expression (constants, registers with offsets, memory loads, arithmetic, logic,
    comparison), [Eval] returns the value of the expression modulo the word size, after exactly
    as many iterations as it has operations. *)
Theorem Eval_compiled e f init start rest :
  well_formed e → Z.of_nat (length (compile e)) < 2 ^ 31 →
  holds m start (uleb_encode (length (compile e)) ++ compile e ++ rest) →
  Eval m qut regs (operations e + f) init start = Ret (denote e).
Proof.
  intros Hw Hlen H. unfold Eval. 
  rewrite (ReadUleb128_enc m (length (compile e)) start (compile e ++ rest)) by (auto; lia). simpl.
  pose proof H as (Hal & _ & H0 & H1 & _). rewrite !length_app in H1.
  apply holds_app_r in H. set (a := start + length (uleb_encode (length (compile e)))) in *.
  rewrite (uptr_small (length (compile e))) by
    (unfold fits; destruct ptr_bits_cases as [-> | ->]; lia).
  rewrite uptr_small by (unfold fits; lia).
  rewrite (compile_pushes e Hal Hw f a _ _ rest H) by lia.
  destruct f; simpl; rewrite Z.ltb_irrefl; done.
Qed.
End Compiled.

(** A typical frame expression on arm64: the word saved 8 bytes above the frame pointer. *)
Definition sample_memory : DfxMemory :=
  list_mem (A := Arm64) 4096 ([3; 0x8d; 8; 6] ++ [0; 0; 0; 0; 42; 0; 0; 0; 0; 0; 0; 0]).
Definition sample_regs : list Z := <[29%nat := 4096]> (new_regs (A := Arm64)).

Lemma Eval_compiled_witness :
  Eval (A := Arm64) sample_memory [] sample_regs 2 0 4096 = Ret 42.
Proof.
  apply (Eval_compiled (A := Arm64) sample_memory [] sample_regs (EDeref (EBReg 29 8)) 0 0 4096
           [0; 0; 0; 0; 42; 0; 0; 0; 0; 0; 0; 0]).
  - repeat split; vm_compute; try lia; try discriminate; eauto.
  - vm_compute. reflexivity.
  - solve_holds.
Defined.

(** ** Termination *)
Section Termination.
Context `{A : Arch}.
Context (m : DfxMemory) (qut : list nat) (regs : list Z).
Hypothesis Hal : alignAddr_ m = false.

Lemma reg_at_post idx (Q : Z → Prop) : (∀ x, Q x) → post (reg_at regs idx) Q.
Proof. intros H. unfold reg_at. repeat case_match; simpl; auto. Qed.

(** Step through a computation that only reads forward. *)
Ltac fwd :=
  repeat first
    [ eapply post_bind; [first
        [ by apply ReadU_forward; [exact Hal| |lia]
        | by apply post_true, ReadU_not_fuel
        | apply ReadUleb128_forward; [exact Hal|lia|lia]
        | apply ReadSleb128_forward; [exact Hal|lia|lia]
        | by apply (use_post _ (λ _, True))
        | by apply (reg_at_post _ (λ _, True))
        | by apply (post_signed _ _ (λ _, True))
        | by apply post_true, shl_not_fuel
        | by apply post_true, shr_not_fuel ]|intros ? ?]
    | match goal with r : (_ * _)%type |- _ => destruct r; simpl in * end ];
  simpl; try done; try lia.

(** A stack operation that comes to an end. *)
Definition ends (r : outcome (list Z)) : Prop := post r (λ _, True).

Lemma ends_unary f st : (∀ x, f x ≠ OutOfFuel) → ends (unary f st).
Proof. intros H. destruct st; simpl; [done|]. unfold ends. eapply post_bind; [by apply post_true|done]. Qed.

Lemma ends_binary f st : (∀ x y, f x y ≠ OutOfFuel) → ends (binary f st).
Proof.
  intros H. destruct st as [|? [|? ?]]; simpl; [done..|]. unfold ends.
  eapply post_bind; [by apply post_true|done].
Qed.

Lemma ends_arith st :
  Forall (λ op : list Z → outcome (list Z), ends (op st))
    [OpAbs; OpNeg; OpNot; OpAnd; OpOr; OpXor; OpPlus; OpMinus; OpMul; OpDiv; OpMod; OpShl; OpShr;
     OpShra; OpEQ; OpNE; OpGE; OpGT; OpLE; OpLT].
Proof.
  repeat apply Forall_cons_2; try apply Forall_nil_2;
    (apply ends_unary; intros x; cbv zeta) || (apply ends_binary; intros x y);
    repeat case_match; try done; try apply shl_not_fuel; try apply shr_not_fuel;
    eapply (post_fuel _ (λ _, True)); fwd.
Qed.

Definition forward (addr : Z) (r : outcome (bool * list Z * Z)) : Prop :=
  post r (λ r, addr <= r.2).

Lemma forward_pure r addr : ends r → forward addr (pure_op r addr).
Proof. intros H. unfold forward, pure_op. eapply post_bind; [exact H|intros; simpl; lia]. Qed.

Lemma forward_op op st addr :
  op ∈ [OpAbs; OpNeg; OpNot; OpAnd; OpOr; OpXor; OpPlus; OpMinus; OpMul; OpDiv; OpMod; OpShl; OpShr;
        OpShra; OpEQ; OpNE; OpGE; OpGT; OpLE; OpLT] →
  forward addr (pure_op (op st) addr).
Proof.
  intros Hop. apply forward_pure.
  apply (proj1 (Forall_forall _ _) (ends_arith st)). by apply list_elem_of_In.
Qed.

Lemma forward_continue r addr : post r (λ r, addr <= r.2) → forward addr (continue r).
Proof. intros H. unfold forward, continue. eapply post_bind; [exact H|]. by intros [? ?] ?. Qed.

(** Every operation but the two branches moves the pointer forward. *)
Lemma exec_forward opcode st addr :
  room addr → opcode ≠ DW_OP_bra → opcode ≠ DW_OP_skip →
  forward addr (exec m qut regs opcode st addr).
Proof.
  intros Hr Hb Hk. unfold exec. pose proof Hr as [Hr0 Hr1].
  assert (Hps : (psize <= 8)%nat) by (destruct psize_ok; lia).
  destruct ((0x30 <=? opcode) && _); [simpl; lia|].
  destruct ((0x50 <=? opcode) && _).
  { apply forward_pure. unfold OpReg, ends. case_match; fwd. }
  destruct ((0x70 <=? opcode) && _).
  { apply forward_continue. unfold OpBReg, push_breg. case_match; fwd. }
  destruct (is_nop_op opcode); [simpl; lia|].
  repeat case_match; lazymatch goal with
  | |- forward _ (pure_op (OpDeref _ _) _) =>
      apply forward_pure; unfold OpDeref, ends; destruct st; fwd
  | |- forward _ (pure_op _ _) => apply forward_op, list_elem_of_In; simpl; tauto
  | |- forward _ (continue _) =>
      apply forward_continue;
      unfold push_const, OpPick, OpPlusULEBConst, OpRegx, OpBRegx, push_breg, OpDerefSize;
      try destruct st; fwd; repeat case_match; fwd
  | |- _ => simpl; lia
  end.
Qed.

(** The loop of [Eval] over code without branch bytes. *)
Lemma eval_loop_ends (n : nat) addr base code rest endp st :
  holds m base (code ++ rest) → base + length code + 64 < 2 ^ ptr_bits →
  endp = base + length code → base <= addr → endp <= addr + n →
  Forall (λ b, b ≠ DW_OP_bra ∧ b ≠ DW_OP_skip) code →
  eval_loop m qut regs n addr endp st ≠ OutOfFuel.
Proof.
  intros H Hroom -> Hb Hn Hc. revert addr st Hb Hn.
  induction n as [|n IH]; intros addr st Hb Hn; simpl; zcase; try lia; try done.
  set (i := Z.to_nat (addr - base)).
  destruct (lookup_lt_is_Some_2 code i) as [b Hi]; [lia|].
  assert (Hd : holds m addr (b :: drop (S i) (code ++ rest))).
  { replace (b :: drop (S i) (code ++ rest)) with (drop i (code ++ rest)).
    - replace addr with (base + i) by lia. apply holds_drop; [done|]. rewrite length_app. lia.
    - apply drop_S. by apply lookup_app_l_Some. }
  rewrite (Decode_holds m qut regs st addr b _ Hd).
  destruct (proj1 (Forall_lookup _ _) Hc i b Hi) as [Hb1 Hb2].
  destruct Hd as (_ & _ & Hd0 & _ & _).
  pose proof (exec_forward b st (addr + 1) ltac:(unfold room; lia) Hb1 Hb2) as Hf.
  destruct (exec m qut regs b st (addr + 1)) as [[[go st'] a']| |]; simpl in Hf |- *; try done.
  destruct go; [|done]. apply IH; lia.
Qed.
End Termination.

Section EvalEnds.
Context `{A : Arch}.
Context (m : DfxMemory) (qut : list nat) (regs : list Z).

(** Termination of [Eval]: if no byte of the expression is a branch opcode ([DW_OP_bra],
    [DW_OP_skip]), as many iterations as the expression has bytes are enough, whatever its
    operations, the registers and the rest of memory. *)
Theorem Eval_terminates code init start rest :
  Z.of_nat (length code) < 2 ^ 31 →
  start + 10 + length code + 64 < 2 ^ ptr_bits →
  holds m start (uleb_encode (length code) ++ code ++ rest) →
  Forall (λ b, b ≠ DW_OP_bra ∧ b ≠ DW_OP_skip) code →
  Eval m qut regs (length code) init start ≠ OutOfFuel.
Proof.
  intros Hlen Hroom H Hc. unfold Eval.
  rewrite (ReadUleb128_enc m (length code) start (code ++ rest)) by (auto; lia). simpl.
  destruct (uleb_enc_string 10 (length code)) as (_ & _ & Hl); [lia|simpl; lia|].
  pose proof H as (Hal & _ & H0 & _ & _). apply holds_app_r in H.
  fold (uleb_encode (length code)) in Hl.
  set (a := start + length (uleb_encode (length code))) in *.
  rewrite (uptr_small (length code)) by (unfold fits; destruct ptr_bits_cases as [-> | ->]; lia).
  rewrite uptr_small by (unfold fits; lia).
  pose proof (eval_loop_ends m qut regs Hal (length code) a a code rest (a + length code)
    (StackReset init) H ltac:(lia) eq_refl ltac:(lia) ltac:(lia) Hc) as He.
  destruct (eval_loop _ _ _ _ _ _ _) as [[|? ?]| |]; done.
Qed.

(** [Eval] has no bound on its iterations: the three-byte expression that skips back to its
    own start is evaluated forever. *)
Theorem Eval_skip_diverges init start rest fuel :
  holds m start ([3; DW_OP_skip; 0xfd; 0xff] ++ rest) →
  Eval m qut regs fuel init start = OutOfFuel.
Proof.
  intros H. unfold Eval. rewrite (ReadUleb128_enc m 3 start ([DW_OP_skip; 0xfd; 0xff] ++ rest))
    by (done || lia).
  cbn [mbind outcome_mbind]. change (length (uleb_encode 3) : Z) with 1.
  pose proof H as (_ & _ & H0 & H1 & _). cbn [length app] in H1.
  apply holds_cons in H. set (a := start + 1) in *.
  rewrite (uptr_small 3) by (apply fits_small; lia). rewrite uptr_small by (unfold fits; lia).
  enough (E : ∀ n st, eval_loop m qut regs n a (a + 3) st = OutOfFuel) by (by rewrite E).
  induction n as [|n IH]; intros st; simpl; rewrite (proj2 (Z.ltb_lt _ _)) by lia; [done|].
  rewrite (Decode_holds m qut regs st a _ _ H). unfold exec. simpl.
  apply holds_cons in H. unfold OpSkip.
  rewrite (ReadU_holds m (a + 1) [0xfd; 0xff] rest) by done. simpl.
  change (s16 _) with (-3). rewrite uptr_small by (unfold fits; lia).
  replace (a + 1 + 2%nat + -3) with a by lia. apply IH.
Qed.
End EvalEnds.

Lemma Eval_terminates_witness :
  Eval (A := Arm64) (list_mem (A := Arm64) 4096 (uleb_encode 2 ++ [0x31; 0x1b] ++ [])) []
    (new_regs (A := Arm64)) 2 7 4096 ≠ OutOfFuel.
Proof.
  apply (Eval_terminates (A := Arm64) (list_mem (A := Arm64) 4096 (uleb_encode 2 ++ [0x31; 0x1b] ++ []))
           [] (new_regs (A := Arm64)) [0x31; 0x1b] 7 4096 []); [done|done|solve_holds|].
  repeat apply Forall_cons_2; try apply Forall_nil_2; split; discriminate.
Defined.

Lemma Eval_skip_diverges_witness :
  Eval (A := Arm64) (list_mem (A := Arm64) 4096 ([3; DW_OP_skip; 0xfd; 0xff] ++ [])) []
    (new_regs (A := Arm64)) 1000 7 4096 = OutOfFuel.
Proof. apply (Eval_skip_diverges (A := Arm64) _ _ _ _ _ []). solve_holds. Defined.

(** ** Operands that escape the register checks *)
Section RegOperands.
Context `{A : Arch}.
Context (m : DfxMemory) (qut : list nat) (regs : list Z).

(** [DW_OP_regx] checks only the low 16 bits of its register number and then indexes the
    register file with all 32: a number whose low half is a tracked register but which is past
    the register file reads out of bounds. *)
Theorem OpRegx_out_of_bounds st addr reg rest :
  holds m addr (uleb_encode reg ++ rest) → fits 32 reg → is_Some (IsQutReg qut (u16 reg)) →
  REG_LAST <= reg → regs_ok regs →
  OpRegx m qut regs st addr = Undef OutOfBounds.
Proof.
  intros H Hf [i Hq] Hr Hok. unfold OpRegx.
  rewrite (ReadUleb128_enc m reg addr rest) by (done || (unfold fits in *; lia)). simpl.
  rewrite (wrap_small 32) by done. by rewrite Hq, reg_at_oob.
Qed.

(** A base-register operation on an untracked register does not consume its offset operand:
    the interpreter goes on with the offset's bytes as opcodes.  [DW_OP_breg<r> 0x30+n], which
    should push the register plus an offset, pushes the literal [n] instead. *)
Theorem breg_operand_executed (r : nat) n init start rest :
  holds m start ([2; 0x70 + r; 0x30 + n] ++ rest) →
  (r < 32)%nat → 0 <= n < 32 → IsQutReg qut r = None →
  Eval m qut regs 2 init start = Ret n.
Proof.
  intros H Hr Hn Hq. unfold Eval.
  rewrite (ReadUleb128_enc m 2 start ([0x70 + r; 0x30 + n] ++ rest)) by (done || lia).
  cbn [mbind outcome_mbind]. change (length (uleb_encode 2) : Z) with 1.
  pose proof H as (_ & _ & H0 & H1 & _). cbn [length app] in H1.
  apply holds_cons in H. set (a := start + 1) in *.
  rewrite (uptr_small 2) by (apply fits_small; lia). rewrite uptr_small by (unfold fits; lia).
  rewrite (run_step m qut regs 1 a (a + 2) _ (0x70 + r) ([0x30 + n] ++ rest) [init] (a + 1));
    [|done|lia|].
  - apply holds_cons in H.
    rewrite (run_step m qut regs 0 (a + 1) (a + 2) _ (0x30 + n) rest [n; init] (a + 2)); [|done|lia|].
    + simpl. by rewrite Z.ltb_irrefl.
    + rewrite exec_lit by done. pair_eq. lia.
  - rewrite exec_breg by done. unfold push_breg. rewrite wrap_small by (unfold fits; lia).
    by rewrite Hq.
Qed.
End RegOperands.

Lemma OpRegx_out_of_bounds_witness :
  OpRegx (A := Arm64) (list_mem (A := Arm64) 4096 (uleb_encode 0x1001d ++ [])) [] (new_regs (A := Arm64))
    [] 4096 = Undef OutOfBounds.
Proof.
  apply (OpRegx_out_of_bounds (A := Arm64) _ [] _ [] 4096 0x1001d []);
    [solve_holds|split; vm_compute; [discriminate|reflexivity]|eexists; reflexivity|simpl; lia|].
  apply regs_ok_new.
Defined.

Lemma breg_operand_executed_witness :
  Eval (A := Arm64) (list_mem (A := Arm64) 4096 ([2; 0x70 + 19%nat; 0x30 + 5] ++ [])) []
    (new_regs (A := Arm64)) 2 7 4096 = Ret 5.
Proof.
  apply (breg_operand_executed (A := Arm64) _ [] _ 19 5 7 4096 []);
    [solve_holds|lia|lia|reflexivity].
Defined.
