(* ===== verification/DwarfCfa.v ===== *)
(** * Call frame instructions

    The parsed entries of .eh_frame ([CommonInfoEntry], [FrameDescEntry], include/dwarf_define.h),
    the register rules they compute ([RegLocState], include/unwind_context.h) and the interpreter
    [DwarfCfaInstructions] (src/unwind_entry_parser/dwarf_cfa_instructions.cpp). *)
From S2P Require Import Prelude Arch Memory.

(** [enum RegLocEnum] and [struct RegLoc]. *)
Inductive RegLocEnum :=
| REG_LOC_UNUSED
| REG_LOC_UNDEFINED
| REG_LOC_VAL_OFFSET
| REG_LOC_MEM_OFFSET
| REG_LOC_REGISTER
| REG_LOC_VAL_EXPRESSION
| REG_LOC_MEM_EXPRESSION.

#[export] Instance RegLocEnum_eq_dec : EqDecision RegLocEnum.
Proof. solve_decision. Defined.

Record RegLoc := mkRegLoc { loc_type : RegLocEnum; loc_val : Z }.

Definition RegLoc_default : RegLoc := mkRegLoc REG_LOC_UNUSED 0.

(** [struct RegLocState].  [cfaRegOffset] (an [int32_t]) and [cfaExprPtr] (a [uintptr_t]) share
    storage: [cfaUnion] is that word, the offset its low four bytes. *)
Record RegLocState := mkRegLocState {
  rs_pcStart : Z;
  rs_pcEnd : Z;
  cfaReg : Z;
  cfaUnion : Z;
  returnAddressUndefined : bool;
  returnAddressSame : bool;
  rs_returnAddressRegister : Z;
  locs : list RegLoc
}.

(** [struct CommonInfoEntry] and [struct FrameDescEntry]. *)
Record CommonInfoEntry := mkCie {
  codeAlignFactor : Z;
  dataAlignFactor : Z;
  cie_returnAddressRegister : Z;
  hasAugmentationData : bool;
  isSignalFrame : bool;
  segmentSize : Z;
  cie_instructionsOff : Z;
  cie_instructionsEnd : Z;
  personality : Z;
  lsdaEncoding : Z;
  pointerEncoding : Z
}.

Record FrameDescEntry := mkFde {
  fde_pcStart : Z;
  fde_pcEnd : Z;
  fde_lsda : Z;
  fde_instructionsOff : Z;
  fde_instructionsEnd : Z;
  fde_cieAddr : Z;
  fde_cie : CommonInfoEntry
}.

Definition CommonInfoEntry_default : CommonInfoEntry :=
  mkCie 0 0 0 false false 0 0 0 0 0 0.
Definition FrameDescEntry_default : FrameDescEntry :=
  mkFde 0 0 0 0 0 0 CommonInfoEntry_default.

Section Cfa.
Context `{A : Arch}.
Context (m : DfxMemory) (qut : list nat).

(** The default constructor: one location per tracked register. *)
Definition RegLocState_default : RegLocState :=
  mkRegLocState 0 0 0 0 false false 0 (replicate (GetQutRegsSize qut) RegLoc_default).

(** Field updates and the two views of the union. *)
Definition cfaRegOffset (rs : RegLocState) : Z := s32 (cfaUnion rs).
Definition cfaExprPtr (rs : RegLocState) : Z := cfaUnion rs.

Definition set_pcStart (v : Z) (rs : RegLocState) : RegLocState :=
  mkRegLocState v (rs_pcEnd rs) (cfaReg rs) (cfaUnion rs) (returnAddressUndefined rs)
    (returnAddressSame rs) (rs_returnAddressRegister rs) (locs rs).
Definition set_pcEnd (v : Z) (rs : RegLocState) : RegLocState :=
  mkRegLocState (rs_pcStart rs) v (cfaReg rs) (cfaUnion rs) (returnAddressUndefined rs)
    (returnAddressSame rs) (rs_returnAddressRegister rs) (locs rs).
Definition set_cfaReg (v : Z) (rs : RegLocState) : RegLocState :=
  mkRegLocState (rs_pcStart rs) (rs_pcEnd rs) v (cfaUnion rs) (returnAddressUndefined rs)
    (returnAddressSame rs) (rs_returnAddressRegister rs) (locs rs).
Definition set_cfaUnion (v : Z) (rs : RegLocState) : RegLocState :=
  mkRegLocState (rs_pcStart rs) (rs_pcEnd rs) (cfaReg rs) v (returnAddressUndefined rs)
    (returnAddressSame rs) (rs_returnAddressRegister rs) (locs rs).
(** Writing the offset leaves the upper bytes of the pointer. *)
Definition set_cfaRegOffset (v : Z) (rs : RegLocState) : RegLocState :=
  set_cfaUnion (cfaUnion rs - u32 (cfaUnion rs) + u32 v) rs.
Definition set_cfaExprPtr (v : Z) (rs : RegLocState) : RegLocState := set_cfaUnion v rs.
Definition set_raUndefined (rs : RegLocState) : RegLocState :=
  mkRegLocState (rs_pcStart rs) (rs_pcEnd rs) (cfaReg rs) (cfaUnion rs) true
    (returnAddressSame rs) (rs_returnAddressRegister rs) (locs rs).
Definition set_raSame (rs : RegLocState) : RegLocState :=
  mkRegLocState (rs_pcStart rs) (rs_pcEnd rs) (cfaReg rs) (cfaUnion rs)
    (returnAddressUndefined rs) true (rs_returnAddressRegister rs) (locs rs).
Definition set_raRegister (v : Z) (rs : RegLocState) : RegLocState :=
  mkRegLocState (rs_pcStart rs) (rs_pcEnd rs) (cfaReg rs) (cfaUnion rs)
    (returnAddressUndefined rs) (returnAddressSame rs) v (locs rs).

(** The unchecked [locs[i]]. *)
Definition loc_at (rs : RegLocState) (i : nat) : outcome RegLoc :=
  match locs rs !! i with Some l => Ret l | None => Undef OutOfBounds end.
Definition set_loc (i : nat) (l : RegLoc) (rs : RegLocState) : outcome RegLocState :=
  if (i <? length (locs rs))%nat
  then Ret (mkRegLocState (rs_pcStart rs) (rs_pcEnd rs) (cfaReg rs) (cfaUnion rs)
              (returnAddressUndefined rs) (returnAddressSame rs) (rs_returnAddressRegister rs)
              (<[i := l]> (locs rs)))
  else Undef OutOfBounds.

(** What [DecodeDwCfa] changes: [pcOffset], [instPtr], [rsState] and the stack
    [saveRsStates_]. *)
Record CfaState := mkCfa {
  pcOffset : Z;
  instPtr : Z;
  rsState : RegLocState;
  saveRsStates_ : list RegLocState
}.

(** A rule for register [reg], whose number is checked through its low 16 bits; an untracked
    register is ignored. *)
Definition rule (reg : Z) (l : RegLoc → RegLoc) (rs : RegLocState) : outcome RegLocState :=
  match IsQutReg qut (u16 reg) with
  | None => Ret rs
  | Some i => old ← loc_at rs i; set_loc i (l old) rs
  end.

(** [locs[i].type = t; locs[i].val = v], and the rules that change the type only. *)
Definition rule_val (reg : Z) (t : RegLocEnum) (v : Z) : RegLocState → outcome RegLocState :=
  rule reg (λ _, mkRegLoc t (sptr v)).
Definition rule_type (reg : Z) (t : RegLocEnum) : RegLocState → outcome RegLocState :=
  rule reg (λ old, mkRegLoc t (loc_val old)).

(** [DW_CFA_restore]: the rule of [backupRsState_]. *)
Definition rule_restore (backup : RegLocState) (reg : Z) (rs : RegLocState) : outcome RegLocState :=
  match IsQutReg qut (u16 reg) with
  | None => Ret rs
  | Some i => l ← loc_at backup i; set_loc i l rs
  end.

(** The register of [DW_CFA_def_cfa] and friends, checked against [REG_LAST]. *)
Definition def_cfa (reg : Z) (offset : option Z) (rs : RegLocState) : RegLocState :=
  if REG_LAST <=? reg then rs
  else
    let rs := set_cfaReg (u32 reg) rs in
    match offset with Some o => set_cfaRegOffset o rs | None => rs end.

(** [ReadUleb128] of a block length, then [instPtr += exprLen] with its overflow check. *)
Definition skip_block (ptr : Z) : outcome (bool * Z) :=
  '(exprLen, ptr) ← ReadUleb128 m ptr;
  let sum := ptr + uptr exprLen in
  Ret (fitsb ptr_bits sum, uptr sum).

(** Continue with a new pointer and a new rule state. *)
Definition next (s : CfaState) (ptr : Z) (rs : RegLocState) : outcome (bool * CfaState) :=
  Ret (true, mkCfa (pcOffset s) ptr rs (saveRsStates_ s)).
Definition advance (s : CfaState) (ptr pc : Z) : outcome (bool * CfaState) :=
  Ret (true, mkCfa (uptr pc) ptr (rsState s) (saveRsStates_ s)).

(** [DecodeDwCfa], by opcode.  [instPtr s] is already past the opcode. *)
Definition DecodeDwCfa (backup : RegLocState) (cie : CommonInfoEntry) (opCode : Z) (s : CfaState)
  : outcome (bool * CfaState) :=
  let ptr := instPtr s in
  let rs := rsState s in
  match opCode with
  | 0x00 => next s ptr rs
  | 0x01 => (* DW_CFA_set_loc *)
      '(value, ptr) ← ReadEncodedValue m ptr (pointerEncoding cie);
      advance s ptr value
  | 0x02 => (* DW_CFA_advance_loc1 *)
      '(value, ptr) ← ReadEncodedValue m ptr DW_EH_PE_udata1;
      advance s ptr (pcOffset s + value * codeAlignFactor cie)
  | 0x03 => (* DW_CFA_advance_loc2 *)
      '(value, ptr) ← ReadEncodedValue m ptr DW_EH_PE_udata2;
      advance s ptr (pcOffset s + value * codeAlignFactor cie)
  | 0x04 => (* DW_CFA_advance_loc4 *)
      '(value, ptr) ← ReadEncodedValue m ptr DW_EH_PE_udata4;
      advance s ptr (pcOffset s + value * codeAlignFactor cie)
  | 0x05 => (* DW_CFA_offset_extended *)
      '(reg, ptr) ← ReadUleb128 m ptr;
      '(off, ptr) ← ReadUleb128 m ptr;
      let offset := s64 (u64 (off * codeAlignFactor cie)) in
      rs ← rule_val reg REG_LOC_MEM_OFFSET offset rs;
      next s ptr rs
  | 0x06 => (* DW_CFA_restore_extended *)
      '(reg, ptr) ← ReadUleb128 m ptr;
      rs ← rule_restore backup reg rs;
      next s ptr rs
  | 0x07 => (* DW_CFA_undefined *)
      '(reg, ptr) ← ReadUleb128 m ptr;
      let rs := if reg =? rs_returnAddressRegister rs then set_raUndefined rs else rs in
      rs ← rule_type reg REG_LOC_UNDEFINED rs;
      next s ptr rs
  | 0x08 => (* DW_CFA_same_value *)
      '(reg, ptr) ← ReadUleb128 m ptr;
      let rs := if reg =? rs_returnAddressRegister rs then set_raSame rs else rs in
      rs ← rule_type reg REG_LOC_UNUSED rs;
      next s ptr rs
  | 0x09 => (* DW_CFA_register *)
      '(reg, ptr) ← ReadUleb128 m ptr;
      '(reg2, ptr) ← ReadUleb128 m ptr;
      match IsQutReg qut (u16 reg2) with
      | None => next s ptr rs
      | Some _ => rs ← rule_val reg REG_LOC_REGISTER reg2 rs; next s ptr rs
      end
  | 0x0a => (* DW_CFA_remember_state *)
      Ret (true, mkCfa (pcOffset s) ptr rs (rs :: saveRsStates_ s))
  | 0x0b => (* DW_CFA_restore_state *)
      match saveRsStates_ s with
      | [] => next s ptr rs
      | top :: rest => Ret (true, mkCfa (pcOffset s) ptr top rest)
      end
  | 0x0c => (* DW_CFA_def_cfa *)
      '(reg, ptr) ← ReadUleb128 m ptr;
      '(offset, ptr) ← ReadUleb128 m ptr;
      next s ptr (def_cfa reg (Some offset) rs)
  | 0x0d => (* DW_CFA_def_cfa_register *)
      '(reg, ptr) ← ReadUleb128 m ptr;
      next s ptr (def_cfa reg None rs)
  | 0x0e => (* DW_CFA_def_cfa_offset *)
      '(offset, ptr) ← ReadUleb128 m ptr;
      next s ptr (set_cfaRegOffset offset rs)
  | 0x0f => (* DW_CFA_def_cfa_expression *)
      let rs := set_cfaExprPtr ptr (set_cfaReg 0 rs) in
      '(ok, ptr) ← skip_block ptr;
      Ret (ok, mkCfa (pcOffset s) ptr rs (saveRsStates_ s))
  | 0x10 => (* DW_CFA_expression *)
      '(reg, ptr) ← ReadUleb128 m ptr;
      rs ← rule_val reg REG_LOC_MEM_EXPRESSION ptr rs;
      '(ok, ptr) ← skip_block ptr;
      Ret (ok, mkCfa (pcOffset s) ptr rs (saveRsStates_ s))
  | 0x11 => (* DW_CFA_offset_extended_sf *)
      '(reg, ptr) ← ReadUleb128 m ptr;
      '(off, ptr) ← ReadSleb128 m ptr;
      offset ← signed_result 64 (off * dataAlignFactor cie);
      rs ← rule_val reg REG_LOC_MEM_OFFSET offset rs;
      next s ptr rs
  | 0x12 => (* DW_CFA_def_cfa_sf *)
      '(reg, ptr) ← ReadUleb128 m ptr;
      '(off, ptr) ← ReadSleb128 m ptr;
      offset ← signed_result 64 (off * dataAlignFactor cie);
      next s ptr (def_cfa reg (Some offset) rs)
  | 0x13 => (* DW_CFA_def_cfa_offset_sf *)
      '(off, ptr) ← ReadSleb128 m ptr;
      offset ← signed_result 64 (off * dataAlignFactor cie);
      next s ptr (set_cfaRegOffset offset rs)
  | 0x14 => (* DW_CFA_val_offset *)
      '(reg, ptr) ← ReadUleb128 m ptr;
      '(off, ptr) ← ReadUleb128 m ptr;
      let offset := s64 (u64 (off * codeAlignFactor cie)) in
      rs ← rule_val reg REG_LOC_VAL_OFFSET offset rs;
      next s ptr rs
  | 0x15 => (* DW_CFA_val_offset_sf *)
      '(reg, ptr) ← ReadUleb128 m ptr;
      '(off, ptr) ← ReadSleb128 m ptr;
      offset ← signed_result 64 (off * codeAlignFactor cie);
      rs ← rule_val reg REG_LOC_VAL_OFFSET offset rs;
      next s ptr rs
  | 0x16 => (* DW_CFA_val_expression *)
      '(reg, ptr) ← ReadUleb128 m ptr;
      rs ← rule_val reg REG_LOC_VAL_EXPRESSION ptr rs;
      '(ok, ptr) ← skip_block ptr;
      Ret (ok, mkCfa (pcOffset s) ptr rs (saveRsStates_ s))
  | 0x2d => next s ptr rs (* DW_CFA_AARCH64_negate_ra_state *)
  | 0x2f => (* DW_CFA_GNU_negative_offset_extended *)
      '(reg, ptr) ← ReadUleb128 m ptr;
      '(off, ptr) ← ReadUleb128 m ptr;
      offset ← signed_result 64 (- s64 off);
      rs ← rule_val reg REG_LOC_MEM_OFFSET offset rs;
      next s ptr rs
  | _ =>
      let operand := Z.land opCode 0x3f in
      match Z.land opCode 0xc0 with
      | 0x40 => (* DW_CFA_advance_loc: a 32-bit product *)
          advance s ptr (pcOffset s + u32 (operand * codeAlignFactor cie))
      | 0x80 => (* DW_CFA_offset *)
          '(off, ptr) ← ReadUleb128 m ptr;
          offset ← signed_result 64 (s64 off * dataAlignFactor cie);
          rs ← rule_val operand REG_LOC_MEM_OFFSET offset rs;
          next s ptr rs
      | 0xc0 => (* DW_CFA_restore *)
          rs ← rule_restore backup operand rs;
          next s ptr rs
      | _ => next s ptr rs
      end
  end.

(** The [while] of [Iterate].  It stops at the first location past [pc], at the end of the
    instructions, on an unreadable opcode and on a failed instruction; it never fails. *)
Fixpoint iterate_loop (fuel : nat) (pc pcEnd instEnd : Z) (backup : RegLocState)
  (cie : CommonInfoEntry) (s : CfaState) : outcome (RegLocState * list RegLocState) :=
  if pc <? pcOffset s then Ret (set_pcEnd (pcOffset s) (rsState s), saveRsStates_ s)
  else if instEnd <=? instPtr s then Ret (set_pcEnd pcEnd (rsState s), saveRsStates_ s)
  else match fuel with
  | O => OutOfFuel
  | S fuel' =>
      let rs := set_pcStart (pcOffset s) (rsState s) in
      '(opCode, ptr) ← ReadU m (instPtr s) 1 true;
      match opCode with
      | None => Ret (rs, saveRsStates_ s)
      | Some opCode =>
          '(ok, s') ← DecodeDwCfa backup cie opCode (mkCfa (pcOffset s) ptr rs (saveRsStates_ s));
          if (ok : bool) then iterate_loop fuel' pc pcEnd instEnd backup cie s'
          else Ret (rsState s', saveRsStates_ s')
      end
  end.

Definition Iterate (fuel : nat) (pc : Z) (fde : FrameDescEntry) (instStart instEnd : Z)
  (rs : RegLocState) (saved : list RegLocState) : outcome (RegLocState * list RegLocState) :=
  let rs := set_pcStart (fde_pcStart fde) rs in
  iterate_loop fuel pc (fde_pcEnd fde) instEnd rs (fde_cie fde)
    (mkCfa (fde_pcStart fde) instStart rs saved).

(** [Parse]: the CIE's instructions, then the FDE's, on a fresh interpreter. *)
Definition Parse (fuel : nat) (pc : Z) (fde : FrameDescEntry) (rs : RegLocState)
  : outcome RegLocState :=
  let cie := fde_cie fde in
  let rs := set_raRegister (u16 (cie_returnAddressRegister cie)) rs in
  '(rs, saved) ← Iterate fuel pc fde (cie_instructionsOff cie) (cie_instructionsEnd cie) rs [];
  '(rs, _) ← Iterate fuel pc fde (fde_instructionsOff fde) (fde_instructionsEnd fde) rs saved;
  Ret rs.
End Cfa.

(** ** Instructions as data *)

(** The call frame instructions without expression blocks and [DW_CFA_set_loc]. *)
Inductive cfa_instr :=
| INop
| IAdvance (d : Z)
| IAdvance1 (d : Z)
| IAdvance2 (d : Z)
| IAdvance4 (d : Z)
| IOffset (r n : Z)
| IRestore (r : Z)
| IOffsetExt (r n : Z)
| IOffsetExtSf (r n : Z)
| IRestoreExt (r : Z)
| IUndefined (r : Z)
| ISameValue (r : Z)
| IRegister (r r2 : Z)
| IRememberState
| IRestoreState
| IDefCfa (r n : Z)
| IDefCfaSf (r n : Z)
| IDefCfaRegister (r : Z)
| IDefCfaOffset (n : Z)
| IDefCfaOffsetSf (n : Z)
| IValOffset (r n : Z)
| IValOffsetSf (r n : Z).

Definition encode_instr (i : cfa_instr) : list Z :=
  match i with
  | INop => [0x00]
  | IAdvance d => [0x40 + d]
  | IAdvance1 d => 0x02 :: le_bytes 1 d
  | IAdvance2 d => 0x03 :: le_bytes 2 d
  | IAdvance4 d => 0x04 :: le_bytes 4 d
  | IOffset r n => (0x80 + r) :: uleb_encode n
  | IRestore r => [0xc0 + r]
  | IOffsetExt r n => 0x05 :: uleb_encode r ++ uleb_encode n
  | IOffsetExtSf r n => 0x11 :: uleb_encode r ++ sleb_encode n
  | IRestoreExt r => 0x06 :: uleb_encode r
  | IUndefined r => 0x07 :: uleb_encode r
  | ISameValue r => 0x08 :: uleb_encode r
  | IRegister r r2 => 0x09 :: uleb_encode r ++ uleb_encode r2
  | IRememberState => [0x0a]
  | IRestoreState => [0x0b]
  | IDefCfa r n => 0x0c :: uleb_encode r ++ uleb_encode n
  | IDefCfaSf r n => 0x12 :: uleb_encode r ++ sleb_encode n
  | IDefCfaRegister r => 0x0d :: uleb_encode r
  | IDefCfaOffset n => 0x0e :: uleb_encode n
  | IDefCfaOffsetSf n => 0x13 :: sleb_encode n
  | IValOffset r n => 0x14 :: uleb_encode r ++ uleb_encode n
  | IValOffsetSf r n => 0x15 :: uleb_encode r ++ sleb_encode n
  end.

(** Operands that their encoding can carry. *)
Definition uleb_ok (v : Z) : Prop := 0 <= v < 2 ^ 64.
Definition sleb_ok (v : Z) : Prop := - 2 ^ 62 <= v < 2 ^ 63.

Definition instr_ok (i : cfa_instr) : Prop :=
  match i with
  | INop | IRememberState | IRestoreState => True
  | IAdvance d => 0 <= d < 64
  | IAdvance1 d => fits 8 d
  | IAdvance2 d => fits 16 d
  | IAdvance4 d => fits 32 d
  | IOffset r n => 0 <= r < 64 ∧ uleb_ok n
  | IRestore r => 0 <= r < 64
  | IOffsetExt r n | IRegister r n | IDefCfa r n | IValOffset r n => uleb_ok r ∧ uleb_ok n
  | IOffsetExtSf r n | IDefCfaSf r n | IValOffsetSf r n => uleb_ok r ∧ sleb_ok n
  | IRestoreExt r | IUndefined r | ISameValue r | IDefCfaRegister r => uleb_ok r
  | IDefCfaOffset n => uleb_ok n
  | IDefCfaOffsetSf n => sleb_ok n
  end.

Section Rows.
Context `{A : Arch}.
Context (m : DfxMemory) (qut : list nat).

(** The unwind table as rows: location, rules and the stack of remembered rules. *)
Abbreviation row := (Z * RegLocState * list RegLocState)%type.

(** The effect of one instruction on the current row. *)
Definition instr_step (backup : RegLocState) (cie : CommonInfoEntry) (i : cfa_instr) (s : row)
  : outcome row :=
  let '(loc, rs, saved) := s in
  let same rs' := rs ← rs'; Ret (loc, rs, saved) in
  let data n := signed_result 64 (n * dataAlignFactor cie) in
  match i with
  | INop => Ret s
  | IAdvance d => Ret (uptr (loc + u32 (d * codeAlignFactor cie)), rs, saved)
  | IAdvance1 d | IAdvance2 d | IAdvance4 d => Ret (uptr (loc + d * codeAlignFactor cie), rs, saved)
  | IOffset r n => same (o ← data (s64 n); rule_val qut r REG_LOC_MEM_OFFSET o rs)
  | IRestore r | IRestoreExt r => same (rule_restore qut backup r rs)
  | IOffsetExt r n =>
      same (rule_val qut r REG_LOC_MEM_OFFSET (s64 (u64 (n * codeAlignFactor cie))) rs)
  | IOffsetExtSf r n => same (o ← data n; rule_val qut r REG_LOC_MEM_OFFSET o rs)
  | IUndefined r =>
      same (rule_type qut r REG_LOC_UNDEFINED
              (if r =? rs_returnAddressRegister rs then set_raUndefined rs else rs))
  | ISameValue r =>
      same (rule_type qut r REG_LOC_UNUSED
              (if r =? rs_returnAddressRegister rs then set_raSame rs else rs))
  | IRegister r r2 =>
      match IsQutReg qut (u16 r2) with
      | None => Ret s
      | Some _ => same (rule_val qut r REG_LOC_REGISTER r2 rs)
      end
  | IRememberState => Ret (loc, rs, rs :: saved)
  | IRestoreState => Ret (match saved with [] => s | top :: rest => (loc, top, rest) end)
  | IDefCfa r n => Ret (loc, def_cfa r (Some n) rs, saved)
  | IDefCfaSf r n => same (o ← data n; Ret (def_cfa r (Some o) rs))
  | IDefCfaRegister r => Ret (loc, def_cfa r None rs, saved)
  | IDefCfaOffset n => Ret (loc, set_cfaRegOffset n rs, saved)
  | IDefCfaOffsetSf n => same (o ← data n; Ret (set_cfaRegOffset o rs))
  | IValOffset r n =>
      same (rule_val qut r REG_LOC_VAL_OFFSET (s64 (u64 (n * codeAlignFactor cie))) rs)
  | IValOffsetSf r n =>
      same (o ← signed_result 64 (n * codeAlignFactor cie); rule_val qut r REG_LOC_VAL_OFFSET o rs)
  end.

(** The row in force at [pc]: run the instructions until a location is past [pc]. *)
Fixpoint row_at (backup : RegLocState) (cie : CommonInfoEntry) (pc pcEnd : Z)
  (prog : list cfa_instr) (s : row) : outcome (RegLocState * list RegLocState) :=
  let '(loc, rs, saved) := s in
  if pc <? loc then Ret (set_pcEnd loc rs, saved)
  else match prog with
  | [] => Ret (set_pcEnd pcEnd rs, saved)
  | i :: prog' =>
      s' ← instr_step backup cie i (loc, set_pcStart loc rs, saved);
      row_at backup cie pc pcEnd prog' s'
  end.

Lemma ReadEncodedValue_udata addr d rest (n : nat) enc :
  holds m addr (le_bytes n d ++ rest) → fits (8 * n) d →
  (n, enc) ∈ [(1%nat, DW_EH_PE_udata1); (2%nat, DW_EH_PE_udata2); (4%nat, DW_EH_PE_udata4)] →
  ReadEncodedValue m addr enc = Ret (d, addr + n).
Proof.
  intros H Hd Hn.
  assert (Hv : ReadValue m addr n true = Ret (d, addr + n)).
  { rewrite (ReadValue_holds _ _ _ _ _ _ H) by apply length_le_bytes.
    by rewrite of_le_le_bytes, wrap_small. }
  assert (Hu : uptr d = d).
  { apply uptr_small. apply (fits_mono (8 * n)); [|done]. apply list_elem_of_In in Hn. simpl in Hn.
    destruct ptr_bits_cases; naive_solver lia. }
  apply list_elem_of_In in Hn. simpl in Hn.
  unfold ReadEncodedValue, ReadFormatEncodedValue, apply_encoding.
  destruct Hn as [[= <- <-]|[[= <- <-]|[[= <- <-]|[]]]]; simpl; rewrite Hv; simpl; by rewrite Hu.
Qed.

(** An opcode past the table of extended opcodes is decoded by its top two bits. *)
Lemma DecodeDwCfa_primary backup cie opCode s :
  opCode < 0 ∨ 0x30 <= opCode →
  DecodeDwCfa m qut backup cie opCode s =
    let operand := Z.land opCode 0x3f in
    match Z.land opCode 0xc0 with
    | 0x40 => advance s (instPtr s) (pcOffset s + u32 (operand * codeAlignFactor cie))
    | 0x80 =>
        '(off, ptr) ← ReadUleb128 m (instPtr s);
        offset ← signed_result 64 (s64 off * dataAlignFactor cie);
        rs ← rule_val qut operand REG_LOC_MEM_OFFSET offset (rsState s);
        next s ptr rs
    | 0xc0 => rs ← rule_restore qut backup operand (rsState s); next s (instPtr s) rs
    | _ => next s (instPtr s) (rsState s)
    end.
Proof.
  intros H. destruct opCode as [|p|p]; [lia| |done].
  do 6 (destruct p as [p|p|]; try (exfalso; lia); try reflexivity).
Qed.

Lemma primary_opcode base d :
  base ∈ [0x40; 0x80; 0xc0] → 0 <= d < 64 →
  Z.land (base + d) 0x3f = d ∧ Z.land (base + d) 0xc0 = base.
Proof.
  intros Hb Hd. apply list_elem_of_In in Hb. simpl in Hb.
  assert (H : ∀ b, is_byte b →
    (Z.land b 0x3f =? b mod 64) && (Z.land b 0xc0 =? b - b mod 64) = true).
  { apply byte_check. by vm_compute. }
  assert (Hm : (base + d) mod 64 = d).
  { destruct Hb as [<-|[<-|[<-|[]]]]; symmetry.
    - by apply (Z.mod_unique_pos _ _ 1); lia.
    - by apply (Z.mod_unique_pos _ _ 2); lia.
    - by apply (Z.mod_unique_pos _ _ 3); lia. }
  specialize (H (base + d)). rewrite Hm in H. unfold is_byte, fits in H.
  destruct (andb_prop _ _ (H ltac:(naive_solver lia))). zbool. lia.
Qed.

(** Reading an operand of an encoded instruction. *)
Ltac operand :=
  match goal with
  | H : holds ?m ?a (uleb_encode ?v ++ _) |- context [ReadUleb128 ?m ?a] =>
      rewrite (ReadUleb128_enc m v a _ ltac:(assumption) H); apply holds_app_r in H
  | H : holds ?m ?a (sleb_encode ?v ++ _) |- context [ReadSleb128 ?m ?a] =>
      rewrite (ReadSleb128_enc m v a _ ltac:(assumption) H); apply holds_app_r in H
  end; cbn [mbind outcome_mbind].

Ltac apply_primary :=
  match goal with
  | H : 0 <= ?d < 64 |- context [Z.land (?b + ?d) 0xc0] =>
      destruct (primary_opcode b d) as [-> ->]; [set_solver|exact H|]
  | |- context [Z.land (?b + ?d) 0xc0] =>
      destruct (primary_opcode b d) as [-> ->]; [set_solver|lia|]
  end; cbv zeta.

(** What the interpreter's state is for a row. *)
Definition at_row (ptr : Z) (s : row) : CfaState :=
  let '(loc, rs, saved) := s in mkCfa loc ptr rs saved.

(** Decoding the bytes of an instruction performs its step and moves past the bytes. *)
Lemma DecodeDwCfa_encoded backup cie i addr rest s :
  instr_ok i → holds m addr (encode_instr i ++ rest) →
  DecodeDwCfa m qut backup cie (hd 0 (encode_instr i)) (at_row (addr + 1) s) =
    s' ← instr_step backup cie i s;
    Ret (true, at_row (addr + length (encode_instr i)) s').
Proof.
  destruct s as [[loc rs] saved]. intros Hok H.
  destruct i; cbn [instr_ok encode_instr] in *; cbn [hd];
    try match type of Hok with _ ∧ _ => destruct Hok end.
  all: try (rewrite DecodeDwCfa_primary by (right; lia); apply_primary).
  all: cbn [at_row instPtr rsState pcOffset saveRsStates_ app] in *; apply holds_cons in H.
  all: unfold DecodeDwCfa; cbn [at_row instPtr rsState pcOffset saveRsStates_ app] in *.
  all: rewrite <- ?app_assoc in H; repeat operand; unfold instr_step.
  all: try (erewrite (ReadEncodedValue_udata _ _ _ _ _ H) by (try done; set_solver);
            cbn [mbind outcome_mbind]).
  all: unfold next, advance; cbn [mbind outcome_mbind instPtr rsState pcOffset saveRsStates_].
  all: cbn [length]; rewrite ?length_app, ?length_le_bytes, ?Nat2Z.inj_succ, ?Nat2Z.inj_add.
  all: repeat (match goal with
       | |- context [signed_result ?a ?b] => destruct (signed_result a b)
       | |- context [rule_val ?a ?b ?c ?d ?e] => destruct (rule_val a b c d e)
       | |- context [rule_type ?a ?b ?c ?d] => destruct (rule_type a b c d)
       | |- context [rule_restore ?a ?b ?c ?d] => destruct (rule_restore a b c d)
       | |- context [match IsQutReg ?a ?b with _ => _ end] => destruct (IsQutReg a b)
       | |- context [match ?l with [] => _ | _ => _ end] => is_var l; destruct l
       end; cbn [mbind outcome_mbind at_row]); cbn [mbind outcome_mbind at_row].
  all: try reflexivity.
  all: match goal with
       | |- Ret (_, mkCfa _ ?p _ _) = Ret (_, mkCfa _ ?q _ _) => replace p with q by lia; reflexivity
       end.
Qed.

Definition encode_program (prog : list cfa_instr) : list Z := concat (map encode_instr prog).

Lemma encode_instr_cons i : ∃ b bs, encode_instr i = b :: bs.
Proof. destruct i; simpl; eauto. Qed.

Lemma encode_program_length prog : (length prog <= length (encode_program prog))%nat.
Proof.
  induction prog as [|i prog IH]; simpl; [lia|].
  destruct (encode_instr_cons i) as (b & bs & E). unfold encode_program in *. simpl.
  rewrite length_app, E. simpl. lia.
Qed.

Lemma iterate_loop_encoded prog fuel pc pcEnd addr rest backup cie s :
  Forall instr_ok prog → holds m addr (encode_program prog ++ rest) → (length prog <= fuel)%nat →
  iterate_loop m qut fuel pc pcEnd (addr + length (encode_program prog)) backup cie (at_row addr s) =
    row_at backup cie pc pcEnd prog s.
Proof.
  intros Hok. revert fuel addr s. induction Hok as [|i prog Hi Hok IH];
    intros fuel addr [[loc rs] saved] H Hf; destruct fuel as [|fuel]; simpl in Hf; try lia;
    cbn [row_at iterate_loop at_row pcOffset rsState saveRsStates_ instPtr];
    destruct (pc <? loc); try done.
  1,2: by rewrite (proj2 (Z.leb_le _ _)) by (simpl; lia).
  pose proof (encode_instr_cons i) as (b & bs & E). unfold encode_program in *.
  cbn [map concat] in *. rewrite <- app_assoc in H.
  rewrite (proj2 (Z.leb_gt _ _)) by (rewrite length_app, E; simpl; lia).
  pose proof (DecodeDwCfa_encoded backup cie i addr _ (loc, set_pcStart loc rs, saved) Hi H) as D.
  pose proof (holds_app_r _ _ _ _ H) as Hn.
  rewrite E in H, D. rewrite (ReadU_holds m addr [b] _ 1 true H) by done.
  apply holds_bytes, Forall_inv in H. cbn [mbind outcome_mbind of_le]. rewrite Z.mul_0_r, Z.add_0_r.
  cbn [at_row hd] in D. change (addr + 1%nat) with (addr + 1). rewrite D. rewrite <- E.
  destruct (instr_step _ _ _ _) as [[[loc' rs'] saved']| |]; cbn [mbind outcome_mbind at_row]; try done.
  rewrite length_app, Nat2Z.inj_add, Z.add_assoc.
  by apply (IH fuel (addr + length (encode_instr i)) (loc', rs', saved')); [|lia].
Qed.

(** The rules in force at [pc] by two programs, the second continuing from the first. *)
Definition rules_at (fde : FrameDescEntry) (pc : Z) (cieProg fdeProg : list cfa_instr)
  (rs : RegLocState) : outcome RegLocState :=
  let run prog rs saved :=
    let rs := set_pcStart (fde_pcStart fde) rs in
    row_at rs (fde_cie fde) pc (fde_pcEnd fde) prog (fde_pcStart fde, rs, saved) in
  let rs := set_raRegister (u16 (cie_returnAddressRegister (fde_cie fde))) rs in
  '(rs, saved) ← run cieProg rs [];
  '(rs, _) ← run fdeProg rs saved;
  Ret rs.

(** [Parse] over the bytes of call frame programs runs the steps of their instructions.  What the steps
    do to the unwind table of the standard is in DwarfTable. *)
Lemma Parse_rows cieProg fdeProg (fuel : nat) pc fde rs rest rest' :
  Forall instr_ok cieProg → Forall instr_ok fdeProg →
  (length cieProg <= fuel)%nat → (length fdeProg <= fuel)%nat →
  holds m (cie_instructionsOff (fde_cie fde)) (encode_program cieProg ++ rest) →
  holds m (fde_instructionsOff fde) (encode_program fdeProg ++ rest') →
  cie_instructionsEnd (fde_cie fde) =
    cie_instructionsOff (fde_cie fde) + length (encode_program cieProg) →
  fde_instructionsEnd fde = fde_instructionsOff fde + length (encode_program fdeProg) →
  Parse m qut fuel pc fde rs = rules_at fde pc cieProg fdeProg rs.
Proof.
  intros Hc Hf Lc Lf Mc Mf Ec Ef. unfold Parse, rules_at, Iterate. rewrite Ec, Ef.
  assert (E : ∀ loc ptr rs saved, mkCfa loc ptr rs saved = at_row ptr (loc, rs, saved)) by done.
  rewrite E, (iterate_loop_encoded cieProg fuel _ _ _ rest) by done.
  destruct (row_at _ _ _ _ cieProg _) as [[rs1 saved1]| |]; cbn [mbind outcome_mbind]; try done.
  by rewrite E, (iterate_loop_encoded fdeProg fuel _ _ _ rest').
Qed.
End Rows.

(** A prologue on arm64: push fp and lr, then set up the frame pointer. *)
Definition example_cie : CommonInfoEntry := mkCie 4 (-8) 30 true false 0 4096 4100 0 0 0x1b.
Definition example_fde : FrameDescEntry := mkFde 0x1000 0x1040 0 4100 4110 4096 example_cie.
Definition example_cie_prog : list cfa_instr := [IDefCfa 31 0; INop].
Definition example_fde_prog : list cfa_instr :=
  [IAdvance 1; IDefCfaOffset 16; IOffset 30 1; IOffset 29 2; IAdvance 1; IDefCfaRegister 29].

(** ** Safety and termination on arbitrary instruction bytes *)
Section Total.
Context `{A : Arch}.
Context (m : DfxMemory) (qut : list nat).
Hypothesis Hal : alignAddr_ m = false.

(** One location per tracked register, in the current and in every remembered state. *)
Definition rs_wf (rs : RegLocState) : Prop := length (locs rs) = GetQutRegsSize qut.
Definition cfa_wf (s : CfaState) : Prop := rs_wf (rsState s) ∧ Forall rs_wf (saveRsStates_ s).

(** The undefined behaviours that instruction bytes can provoke: an over-long LEB128 number and
    an overflowing product; an index past [locs] is not among them. *)
Definition cfa_ub (k : ub_kind) : Prop := k = BadShift ∨ k = SignedOverflow.

Lemma rs_wf_default : rs_wf (RegLocState_default qut).
Proof. apply length_replicate. Qed.

Lemma set_loc_spec i l rs : rs_wf rs → (i < GetQutRegsSize qut)%nat → spec cfa_ub (set_loc i l rs) rs_wf.
Proof.
  intros Hw Hi. unfold set_loc. rewrite (proj2 (Nat.ltb_lt _ _)) by (unfold rs_wf in *; lia).
  unfold rs_wf. simpl. by rewrite length_insert.
Qed.

Lemma loc_at_spec i rs : rs_wf rs → (i < GetQutRegsSize qut)%nat → spec cfa_ub (loc_at rs i) (λ _, True).
Proof.
  intros Hw Hi. unfold loc_at.
  destruct (lookup_lt_is_Some_2 (locs rs) i) as [l ->]; [unfold rs_wf in *; lia|done].
Qed.

Lemma rule_spec reg l rs : rs_wf rs → spec cfa_ub (rule qut reg l rs) rs_wf.
Proof.
  intros Hw. unfold rule. destruct (IsQutReg qut (u16 reg)) as [i|] eqn:E; [|done].
  apply IsQutReg_Some in E as [Hi _].
  eapply spec_bind; [by apply loc_at_spec|]. intros. by apply set_loc_spec.
Qed.

Lemma rule_restore_spec backup reg rs :
  rs_wf backup → rs_wf rs → spec cfa_ub (rule_restore qut backup reg rs) rs_wf.
Proof.
  intros Hb Hw. unfold rule_restore. destruct (IsQutReg qut (u16 reg)) as [i|] eqn:E; [|done].
  apply IsQutReg_Some in E as [Hi _].
  eapply spec_bind; [by apply loc_at_spec|]. intros. by apply set_loc_spec.
Qed.

Lemma def_cfa_wf reg o rs : rs_wf rs → rs_wf (def_cfa reg o rs).
Proof. intros H. unfold def_cfa. by repeat case_match. Qed.

(** A step that keeps the state well-formed and, if it succeeds, the pointer moving forward. *)
Definition cfa_step_ok (ptr : Z) (r : bool * CfaState) : Prop :=
  cfa_wf r.2 ∧ (r.1 = true → ptr <= instPtr r.2).

Lemma uleb_spec' ptr : 0 <= ptr → ptr + 11 < 2 ^ ptr_bits →
  spec cfa_ub (ReadUleb128 m ptr) (λ r, ptr <= r.2 <= ptr + 11).
Proof. intros. eapply spec_weaken; [by apply ReadUleb128_spec|by left|done]. Qed.

Lemma sleb_spec' ptr : 0 <= ptr → ptr + 11 < 2 ^ ptr_bits →
  spec cfa_ub (ReadSleb128 m ptr) (λ r, ptr <= r.2 <= ptr + 11).
Proof. intros. eapply spec_weaken; [by apply ReadSleb128_spec|by left|done]. Qed.

Lemma encoded_spec' ptr enc : room ptr → spec cfa_ub (ReadEncodedValue m ptr enc) (λ r, ptr <= r.2).
Proof. intros. eapply spec_weaken; [by apply ReadEncodedValue_spec|by left|done]. Qed.

Lemma skip_block_spec ptr : 0 <= ptr → ptr + 11 < 2 ^ ptr_bits →
  spec cfa_ub (skip_block m ptr) (λ r, r.1 = true → ptr <= r.2).
Proof.
  intros H0 H1. unfold skip_block. eapply spec_bind; [by apply uleb_spec'|].
  intros [n a] [Ha _]. simpl in *. intros Hs%fitsb_spec. rewrite uptr_small by done.
  pose proof (uptr_fits n) as [? _]. lia.
Qed.

Lemma ra_if_wf (b : bool) rs f : rs_wf rs → rs_wf (f rs) → rs_wf (if b then f rs else rs).
Proof. by destruct b. Qed.

(** A successful one-byte read moves by one byte. *)
Lemma ReadU_one ptr op a :
  0 <= ptr → ptr + 1 < 2 ^ ptr_bits → ReadU m ptr 1 true = Ret (Some op, a) → a = ptr + 1.
Proof.
  intros H0 H1 H. unfold ReadU, Read, read_align in H. rewrite Hal in H.
  change (Z.of_nat 1) with 1 in H. simpl in H.
  assert (Hd : 1 / psize = 0 ∧ Z.land 1 (psize - 1) = 1).
  { rewrite land_psize by lia. destruct psize_ok as [-> | ->]; done. }
  destruct Hd as [Hd1 Hd2]. rewrite Hd1, Hd2 in H. simpl in H.
  repeat case_match; simplify_eq/=. apply uptr_small. unfold fits. lia.
Qed.

(** Follow an instruction: its operands, then the rule it sets. *)
Ltac cfa_walk :=
  repeat first
    [ eapply spec_bind; [first
        [ apply uleb_spec'; simpl in *; lia
        | apply sleb_spec'; simpl in *; lia
        | apply encoded_spec'; unfold room in *; lia
        | apply skip_block_spec; simpl in *; lia
        | apply (spec_signed _ _ _ (λ _, True)); [by right|done]
        | apply rule_restore_spec; [done|]; simpl; try apply ra_if_wf; by auto using def_cfa_wf
        | apply rule_spec; simpl; try apply ra_if_wf; by auto using def_cfa_wf ]|intros ? ?]
    | match goal with r : (_ * _)%type |- _ => destruct r; simpl in * end
    | match goal with |- context [IsQutReg ?a ?b] => destruct (IsQutReg a b) end ].

Lemma DecodeDwCfa_spec backup cie opCode s :
  rs_wf backup → cfa_wf s → room (instPtr s) →
  spec cfa_ub (DecodeDwCfa m qut backup cie opCode s) (cfa_step_ok (instPtr s)).
Proof.
  intros Hb [Hw Hs] Hr. destruct s as [pc ptr rs saved]. simpl in *. pose proof Hr as [Hr0 Hr1].
  assert (Hfin : ∀ (ok : bool) pc' ptr' rs' saved', rs_wf rs' → Forall rs_wf saved' → (ok = true → ptr <= ptr') →
    cfa_step_ok ptr (ok, mkCfa pc' ptr' rs' saved')) by done.
  destruct (decide (opCode ∈ seqZ 0 0x30)) as [Ho|Ho].
  - apply list_elem_of_In in Ho. vm_compute in Ho.
    repeat destruct Ho as [<-|Ho]; try destruct Ho.
    all: cbn [DecodeDwCfa Z.land Pos.land Z.of_N Pos.Ndouble Pos.Nsucc_double].
    all: unfold next, advance, rule_val, rule_type.
    all: cbn [instPtr rsState pcOffset saveRsStates_];
      try match goal with |- context [match ?l with [] => _ | _ => _ end] => is_var l; destruct l end.
    all: cfa_walk; apply Hfin; auto using def_cfa_wf; try (simpl in *; lia).
    all: try (by inversion Hs).
    all: naive_solver lia.
  - rewrite elem_of_seqZ in Ho. rewrite DecodeDwCfa_primary by lia. cbv zeta.
    unfold next, advance, rule_val. cbn [instPtr rsState pcOffset saveRsStates_].
    repeat case_match; cfa_walk; apply Hfin; auto; simpl in *; lia.
Qed.

(** One unit of fuel per instruction byte is enough for the loop of [Iterate]. *)
Lemma iterate_loop_spec (fuel : nat) pc pcEnd instEnd backup cie s :
  instEnd + 64 < 2 ^ ptr_bits → 0 <= instPtr s → instEnd <= instPtr s + fuel →
  rs_wf backup → cfa_wf s →
  spec cfa_ub (iterate_loop m qut fuel pc pcEnd instEnd backup cie s)
    (λ r, rs_wf r.1 ∧ Forall rs_wf r.2).
Proof.
  intros He H0 Hf Hb. revert s H0 Hf. induction fuel as [|fuel IH]; intros s H0 Hf Hs;
    cbn [iterate_loop]; zcase; try apply Hs; zcase; try apply Hs; [lia|].
  assert (Hr : room (instPtr s)) by (unfold room; lia).
  pose proof (ReadU_spec m Hal (instPtr s) 1 true Hr ltac:(lia)) as HR.
  destruct (ReadU m (instPtr s) 1 true) as [[[op|] a]| |] eqn:E; simpl in HR |- *; try done.
  apply ReadU_one in E as ->; [|done|lia..].
  eapply spec_bind; [apply DecodeDwCfa_spec; [done|done|unfold room; simpl; lia]|].
  intros [ok s'] [Hs' Hp]. simpl in *. destruct ok; [|done]. specialize (Hp eq_refl).
  apply IH; [lia|lia|done].
Qed.

Lemma Iterate_spec (fuel : nat) pc fde instStart instEnd rs saved :
  instEnd + 64 < 2 ^ ptr_bits → 0 <= instStart → instEnd <= instStart + fuel →
  rs_wf rs → Forall rs_wf saved →
  spec cfa_ub (Iterate m qut fuel pc fde instStart instEnd rs saved)
    (λ r, rs_wf r.1 ∧ Forall rs_wf r.2).
Proof. intros. by apply iterate_loop_spec. Qed.
End Total.

Section ParseTotal.
Context `{A : Arch}.

(** C35. [Parse] on arbitrary instruction bytes, however malformed: with as much fuel as the longer of
    the two instruction ranges has bytes it comes to an end, never indexes a rule table out of
    its bounds and never uses an uninitialised value; the rules it returns have exactly one
    location per tracked register.  The only undefined behaviours left are the over-long LEB128
    shift and the overflow of a signed offset product. *)
Theorem Parse_total (m : DfxMemory) qut (fuel : nat) pc fde rs :
  alignAddr_ m = false →
  0 <= cie_instructionsOff (fde_cie fde) → 0 <= fde_instructionsOff fde →
  cie_instructionsEnd (fde_cie fde) + 64 < 2 ^ ptr_bits →
  fde_instructionsEnd fde + 64 < 2 ^ ptr_bits →
  cie_instructionsEnd (fde_cie fde) <= cie_instructionsOff (fde_cie fde) + fuel →
  fde_instructionsEnd fde <= fde_instructionsOff fde + fuel →
  rs_wf qut rs →
  spec cfa_ub (Parse m qut fuel pc fde rs) (rs_wf qut).
Proof.
  intros Hal Hc0 Hf0 Hc Hf Lc Lf Hw. unfold Parse.
  eapply spec_bind; [by apply Iterate_spec|]. intros [rs1 saved1] [Hw1 Hs1].
  eapply spec_bind; [by apply Iterate_spec|]. by intros [rs2 saved2] [Hw2 _].
Qed.
End ParseTotal.

(** A program of random bytes on x86_64. *)
Lemma Parse_total_witness :
  spec cfa_ub
    (Parse (A := X86_64) (list_mem (A := X86_64) 4096 [0x0c; 7; 8; 0x90; 1; 0x05; 0xff; 0x80; 0x16; 200])
       [] 6 0x1004 (mkFde 0x1000 0x1040 0 4101 4106 4096 (mkCie 1 (-8) 16 true false 0 4096 4101 0 0 0x1b))
       (RegLocState_default (A := X86_64) []))
    (rs_wf (A := X86_64) []).
Proof.
  apply (Parse_total (A := X86_64)); simpl; try lia; done.
Defined.

(** ** The two encodings of a saved register *)
Section OffsetForms.
Context `{A : Arch}.

Lemma rule_val_tracked qut reg t v rs i :
  IsQutReg qut (u16 reg) = Some i → rs_wf qut rs → sfits ptr_bits v →
  ∃ rs', rule_val qut reg t v rs = Ret rs' ∧ locs rs' !! i = Some (mkRegLoc t v).
Proof.
  intros Hi Hw Hv. unfold rule_val, rule, loc_at, set_loc. rewrite Hi.
  apply IsQutReg_Some in Hi as [Hi _]. unfold rs_wf in Hw.
  destruct (lookup_lt_is_Some_2 (locs rs) i) as [l ->]; [lia|].
  cbn [mbind outcome_mbind]. rewrite (proj2 (Nat.ltb_lt _ _)) by lia.
  eexists. split; [done|]. simpl. rewrite list_lookup_insert_eq by lia.
  unfold sptr. rewrite swrap_small; [done| |done]. destruct ptr_bits_cases; lia.
Qed.

(** The same saved-register rule gets a different scale in its two encodings: for a tracked
    register [r], [DW_CFA_offset r n] stores the offset [n] times the data alignment factor, and
    [DW_CFA_offset_extended r n] stores [n] times the code alignment factor. *)
Theorem offset_forms_differ (m : DfxMemory) qut backup cie r n addr addr' rest rest' s i :
  0 <= r < 64 → 0 <= n < 2 ^ 23 → - 128 <= dataAlignFactor cie < 128 → 0 <= codeAlignFactor cie < 128 →
  IsQutReg qut r = Some i → rs_wf qut (rsState s) →
  holds m addr (encode_instr (IOffset r n) ++ rest) →
  holds m addr' (encode_instr (IOffsetExt r n) ++ rest') →
  (∃ s1, DecodeDwCfa m qut backup cie (0x80 + r) (mkCfa (pcOffset s) (addr + 1) (rsState s) (saveRsStates_ s))
           = Ret (true, s1) ∧
         locs (rsState s1) !! i = Some (mkRegLoc REG_LOC_MEM_OFFSET (n * dataAlignFactor cie))) ∧
  (∃ s2, DecodeDwCfa m qut backup cie 0x05 (mkCfa (pcOffset s) (addr' + 1) (rsState s) (saveRsStates_ s))
           = Ret (true, s2) ∧
         locs (rsState s2) !! i = Some (mkRegLoc REG_LOC_MEM_OFFSET (n * codeAlignFactor cie))).
Proof.
  intros Hr Hn Hd Hc Hi Hw H H'.
  assert (Hu : IsQutReg qut (u16 r) = Some i) by (rewrite wrap_small; [done|unfold fits; lia]).
  assert (Hs : ∀ z, - 2 ^ 31 <= z < 2 ^ 31 → sfits ptr_bits z ∧ sfits 64 z ∧ s64 (u64 z) = z).
  { intros z Hz. unfold sfits. change (2 ^ (64 - 1)) with (2 ^ 63).
    rewrite swrap_wrap, swrap_small by (unfold sfits; lia).
    destruct ptr_bits_cases as [-> | ->]; [change (2 ^ (32 - 1)) with (2 ^ 31)|
      change (2 ^ (64 - 1)) with (2 ^ 63)]; lia. }
  destruct (Hs (n * dataAlignFactor cie)) as (Hs1 & Hs2 & _); [nia|].
  destruct (Hs (n * codeAlignFactor cie)) as (Hs3 & _ & Hs4); [nia|].
  split.
  - destruct (rule_val_tracked qut r REG_LOC_MEM_OFFSET _ (rsState s) i Hu Hw Hs1) as (rs' & E & L).
    pose proof (DecodeDwCfa_encoded m qut backup cie (IOffset r n) addr rest
      (pcOffset s, rsState s, saveRsStates_ s) ltac:(unfold instr_ok, uleb_ok; lia) H) as D.
    cbn [at_row hd encode_instr instr_step] in D. rewrite D. rewrite (swrap_small 64 n) by (unfold sfits; lia).
    rewrite signed_result_Ret by done. cbn [mbind outcome_mbind]. rewrite E.
    eexists. split; [reflexivity|exact L].
  - destruct (rule_val_tracked qut r REG_LOC_MEM_OFFSET _ (rsState s) i Hu Hw Hs3) as (rs' & E & L).
    pose proof (DecodeDwCfa_encoded m qut backup cie (IOffsetExt r n) addr' rest'
      (pcOffset s, rsState s, saveRsStates_ s) ltac:(unfold instr_ok, uleb_ok; lia) H') as D.
    cbn [at_row hd encode_instr instr_step] in D. rewrite D, Hs4, E. eexists. split; [reflexivity|exact L].
Qed.
End OffsetForms.

(** The link register saved at CFA-8 on arm64 (data alignment -8, code alignment 4). *)
Lemma offset_forms_differ_witness :
  let m bs := list_mem (A := Arm64) 4096 (bs ++ [0]) in
  ∃ s1 s2,
  DecodeDwCfa (A := Arm64) (m (encode_instr (IOffset 30 1) ++ encode_instr (IOffsetExt 30 1))) []
    (RegLocState_default (A := Arm64) []) example_cie 0x9e
    (mkCfa 0x1000 4097 (RegLocState_default (A := Arm64) []) []) = Ret (true, s1) ∧
  DecodeDwCfa (A := Arm64) (m (encode_instr (IOffset 30 1) ++ encode_instr (IOffsetExt 30 1))) []
    (RegLocState_default (A := Arm64) []) example_cie 0x05
    (mkCfa 0x1000 4099 (RegLocState_default (A := Arm64) []) []) = Ret (true, s2) ∧
  locs (rsState s1) !! 4%nat = Some (mkRegLoc REG_LOC_MEM_OFFSET (-8)) ∧
  locs (rsState s2) !! 4%nat = Some (mkRegLoc REG_LOC_MEM_OFFSET 4).
Proof.
  intros m.
  destruct (offset_forms_differ (A := Arm64)
    (m (encode_instr (IOffset 30 1) ++ encode_instr (IOffsetExt 30 1))) []
    (RegLocState_default (A := Arm64) []) example_cie 30 1 4096 4098
    (encode_instr (IOffsetExt 30 1) ++ [0]) [0]
    (mkCfa 0x1000 0 (RegLocState_default (A := Arm64) []) []) 4%nat)
    as [(s1 & E1 & L1) (s2 & E2 & L2)]; simpl; try lia; try done.
  - solve_holds.
  - apply (holds_app_r _ 4096 (encode_instr (IOffset 30 1))). solve_holds.
  - exists s1, s2. done.
Defined.
