(* ===== verification/DwarfTable.v ===== *)
(** * Unwind tables of the standard

    What call frame programs mean by the DWARF standard (section 6.4), apart from the interpreter: a
    row of an unwind table has a rule for the CFA and one for every register, and instructions either
    change the current row or start the next.  [Parse] of DwarfCfa gives the row in force at a pc. *)
From S2P Require Import Prelude Arch Memory DwarfCfa.



Section Standard.
Context `{A : Arch}.
Context (m : DfxMemory) (qut : list nat).





Lemma same_bind (loc : Z) (o : outcome RegLocState) rs (saved : list RegLocState) : o = Ret rs → (rs ← o; Ret (loc, rs, saved)) = Ret (loc, rs, saved).
Proof. by intros ->. Qed.



End Standard.

Section ParseRefines.
Context `{A : Arch}.

End ParseRefines.

