(* ===== verification/Instructions.v ===== *)
(** * Applying register rules

    [DfxInstructions] (src/utils/dfx_instructions.cpp): compute the canonical frame address from
    the rules that the parsers leave in a [RegLocState], restore the tracked registers and set
    the new stack pointer and program counter. *)
From S2P Require Import Prelude Arch Memory DwarfOp DwarfCfa.

Section Instructions.
Context `{A : Arch}.
Context (qut : list nat).

(** [Flush(regs, memory, cfa, loc, val)]: the result and [val].  [None] is a null memory; the
    fuel bounds the evaluation of expressions. *)
Definition Flush (fuel : nat) (regs : list Z) (memory : option DfxMemory) (cfa : Z) (loc : RegLoc)
  (val : Z) : outcome (bool * Z) :=
  match memory with
  | None => Ret (false, val)
  | Some m =>
      match loc_type loc with
      | REG_LOC_VAL_OFFSET => Ret (true, uptr (cfa + uptr (loc_val loc)))
      | REG_LOC_MEM_OFFSET =>
          let location := uptr (cfa + uptr (loc_val loc)) in
          '(_, val, _) ← ReadT m location val psize false;
          Ret (true, val)
      | REG_LOC_REGISTER =>
          let location := uptr (loc_val loc) in
          if RegsSize regs <=? location then Ret (false, val)
          else val ← reg_at regs location; Ret (true, val)
      | REG_LOC_MEM_EXPRESSION =>
          location ← Eval m qut regs fuel cfa (uptr (loc_val loc));
          '(_, val, _) ← ReadT m location val psize false;
          Ret (true, val)
      | REG_LOC_VAL_EXPRESSION =>
          val ← Eval m qut regs fuel cfa (uptr (loc_val loc));
          Ret (true, val)
      | REG_LOC_UNUSED | REG_LOC_UNDEFINED => Ret (false, val)
      end
  end.

(** [GetCfa]: the result, [cfa] and [errCode].  The offset is added as a [uint32_t]. *)
Definition GetCfa (fuel : nat) (regs : list Z) (memory : option DfxMemory) (rsState : RegLocState)
  (cfa errCode : Z) : outcome (bool * Z * Z) :=
  if negb (cfaReg rsState =? 0) then
    if RegsSize regs <=? cfaReg rsState then Ret (false, cfa, UNW_ERROR_DWARF_INVALID_CFA)
    else
      v ← reg_at regs (cfaReg rsState);
      Ret (true, uptr (v + u32 (cfaRegOffset rsState)), errCode)
  else if negb (cfaExprPtr rsState =? 0) then
    let cfaLoc := mkRegLoc REG_LOC_VAL_EXPRESSION (sptr (cfaExprPtr rsState)) in
    '(ok, cfa) ← Flush fuel regs memory 0 cfaLoc cfa;
    Ret (ok, cfa, errCode)
  else Ret (false, cfa, errCode).

(** The [for] loop of [Apply], from rule [i] on: each register is updated in place. *)
Fixpoint apply_locs (fuel : nat) (memory : option DfxMemory) (cfa : Z) (i : nat)
  (ls : list RegLoc) (regs : list Z) : outcome (list Z) :=
  match ls with
  | [] => Ret regs
  | l :: ls' =>
      regs ←
        (if decide (loc_type l = REG_LOC_UNUSED) then Ret regs
         else match GetQutRegs qut !! i with
         | None => Undef OutOfBounds
         | Some reg =>
             old ← reg_at regs (Z.of_nat reg);
             '(_, v) ← Flush fuel regs memory cfa l old;
             Ret (<[reg := v]> (regs : list Z))
         end);
      apply_locs fuel memory cfa (S i) ls' regs
  end.

(** [Apply]: the result, the registers and [errCode]. *)
Definition Apply (fuel : nat) (memory : option DfxMemory) (regs : list Z) (rsState : RegLocState)
  (errCode : Z) : outcome (bool * list Z * Z) :=
  '(ok, cfa, errCode) ← GetCfa fuel regs memory rsState 0 errCode;
  if negb (ok : bool) then Ret (false, regs, errCode)
  else
    regs ← apply_locs fuel memory cfa 0 (locs rsState) regs;
    let regs := SetSp regs cfa in
    if returnAddressUndefined rsState
    then Ret (false, SetPc regs 0, UNW_ERROR_RETURN_ADDRESS_UNDEFINED)
    else if (REG_EH <=? rs_returnAddressRegister rsState)
            && (rs_returnAddressRegister rsState <? REG_LAST) then
      ra ← reg_at regs (rs_returnAddressRegister rsState);
      let regs := SetPc regs ra in
      if returnAddressSame rsState then Ret (false, regs, UNW_ERROR_RETURN_ADDRESS_SAME)
      else Ret (true, regs, errCode)
    else Ret (false, regs, UNW_ERROR_ILLEGAL_VALUE).
End Instructions.

(** ** The register file survives *)
Section ApplyInvariant.
Context `{A : Arch}.
Context (qut : list nat).
Hypothesis Hqut : Forall (λ r, (r < REG_LAST)%nat) (GetQutRegs qut).

Lemma Flush_fits fuel regs memory cfa l old ok v :
  regs_ok regs → fits ptr_bits cfa → fits ptr_bits old →
  Flush qut fuel regs memory cfa l old = Ret (ok, v) → fits ptr_bits v.
Proof.
  intros Hr Hc Ho H. unfold Flush in H.
  destruct memory as [m|]; [|by simplify_eq].
  assert (Hread : ∀ a ok' v' a', ReadT m a old psize false = Ret (ok', v', a') →
                  fits ptr_bits a → fits ptr_bits v').
  { intros a ok' v' a' E Ha. apply ReadT_facts in E as [E _]; [|done]. exact E. }
  destruct (loc_type l); simplify_eq; run_inv; try done; eauto using Eval_fits, uptr_fits.
  - case_match; run_inv; [done|].
    destruct (reg_at_ok regs (uptr (loc_val l)) Hr) as (v' & E' & _ & Hv); [|congruence].
    unfold RegsSize in *. zbool. destruct Hr as [Hl _]. pose proof (uptr_fits (loc_val l)) as [? _]. lia.
  - eapply Eval_fits; [..|done]; [apply Hr|done|apply uptr_fits].
  - eapply Hread; [done|]. eapply Eval_fits; [..|done]; [apply Hr|done|apply uptr_fits].
Qed.

Lemma GetCfa_fits fuel regs memory rs err ok cfa err' :
  regs_ok regs → fits ptr_bits (cfaUnion rs) →
  GetCfa qut fuel regs memory rs 0 err = Ret (ok, cfa, err') → fits ptr_bits cfa.
Proof.
  intros Hr Hu H. assert (H0 : fits ptr_bits 0) by (apply fits_small; lia). unfold GetCfa in H.
  repeat case_match; run_inv; try done; eauto using uptr_fits, Flush_fits.
Qed.

Lemma apply_locs_ok fuel memory cfa i ls regs regs' :
  regs_ok regs → fits ptr_bits cfa → apply_locs qut fuel memory cfa i ls regs = Ret regs' →
  regs_ok regs'.
Proof.
  intros Hr Hc. revert i regs Hr. induction ls as [|l ls IH]; intros i regs Hr H; simpl in H; run_inv.
  - done.
  - eapply IH; [|done]. repeat case_match; run_inv; [done|].
    apply regs_ok_insert; [done|]. eapply Flush_fits; [..|done]; [done..|].
    match goal with E : reg_at regs (Z.of_nat ?n) = Ret _ |- _ =>
      destruct (reg_at_ok regs n Hr) as (v & E' & _ & Hv); [|congruence] end.
    split; [lia|]. match goal with L : _ !! i = Some _ |- _ =>
      apply (Forall_lookup_1 _ _ _ _ Hqut) in L end. lia.
Qed.
End ApplyInvariant.

(** ** The caller's registers *)
Section Caller.
Context `{A : Arch}.
Context (qut : list nat) (m : DfxMemory).
Hypothesis Hal : alignAddr_ m = false.
Hypothesis Hqut : Forall (λ r, (r < REG_LAST)%nat) (GetQutRegs qut).
Hypothesis Hnd : NoDup (GetQutRegs qut).

(** The rules that do not read other registers. *)
Definition simple_rule (l : RegLoc) : Prop :=
  loc_type l ∈ [REG_LOC_UNUSED; REG_LOC_UNDEFINED; REG_LOC_VAL_OFFSET; REG_LOC_MEM_OFFSET].

(** The word at [a] as [Read] sees it, and what a rule makes of a register's old value. *)
Definition frame_word (a : Z) : option Z :=
  if 2 ^ 64 <=? a + psize then None else uptr <$> ReadMem m a.

Definition restore_value (cfa : Z) (l : RegLoc) (old : Z) : Z :=
  let location := uptr (cfa + uptr (loc_val l)) in
  match loc_type l with
  | REG_LOC_VAL_OFFSET => location
  | REG_LOC_MEM_OFFSET => default old (frame_word location)
  | _ => old
  end.

Lemma ReadT_word a old :
  fits ptr_bits old →
  ∃ ok, ReadT m a old psize false = Ret (ok, default old (frame_word a), a).
Proof.
  clear Hnd. intros Ho. unfold ReadT, Read, read_align, frame_word. rewrite Hal. simpl.
  assert (Hp : Z.of_nat psize / psize = 1 ∧ Z.land psize (psize - 1) = 0 ∧ (0 < psize)%nat).
  { rewrite land_psize by lia. destruct psize_ok as [-> | ->]; split; try done; split; try done; lia. }
  destruct Hp as (Hp1 & Hp2 & Hp3).
  assert (Hold : of_le (le_bytes psize old) = old).
  { rewrite of_le_le_bytes. by apply wrap_small. }
  destruct (2 ^ 64 <=? a + psize); simpl; [exists false|].
  { rewrite drop_0, Hold. by destruct psize. }
  rewrite Hp1, Hp2. change (Z.to_nat 1) with 1%nat. simpl.
  destruct (ReadMem m a) as [w|]; simpl.
  - rewrite app_nil_r, drop_ge, app_nil_r by (rewrite !length_le_bytes; lia).
    rewrite of_le_le_bytes. rewrite length_le_bytes. by eexists.
  - rewrite drop_0, Hold. by eexists.
Qed.

Lemma Flush_simple fuel regs cfa l old :
  simple_rule l → fits ptr_bits old →
  ∃ ok, Flush qut fuel regs (Some m) cfa l old = Ret (ok, restore_value cfa l old).
Proof.
  clear Hnd. intros Hs Ho. unfold Flush, restore_value.
  destruct (loc_type l) eqn:E; eauto; try (unfold simple_rule in Hs; rewrite E in Hs; set_solver).
  destruct (ReadT_word (uptr (cfa + uptr (loc_val l))) old Ho) as [ok ->]. eauto.
Qed.

Lemma restore_value_fits cfa l old : fits ptr_bits old → fits ptr_bits (restore_value cfa l old).
Proof.
  clear Hnd. intros Ho. unfold restore_value, frame_word. destruct (loc_type l); auto using uptr_fits.
  case_match; [done|]. destruct (ReadMem m _); simpl; auto using uptr_fits.
Qed.

(** The loop of [Apply] restores each tracked register once, whatever the order. *)
Lemma apply_locs_simple fuel cfa ls i regs :
  regs_ok regs → Forall simple_rule ls → (i + length ls <= length (GetQutRegs qut))%nat →
  ∃ regs', apply_locs qut fuel (Some m) cfa i ls regs = Ret regs' ∧ regs_ok regs' ∧
    (∀ j l r, ls !! j = Some l → GetQutRegs qut !! (i + j)%nat = Some r →
              regs' !! r = restore_value cfa l <$> regs !! r) ∧
    (∀ r, (∀ j, (j < length ls)%nat → GetQutRegs qut !! (i + j)%nat ≠ Some r) →
          regs' !! r = regs !! r).
Proof.
  intros Hr Hls. revert i regs Hr. induction Hls as [|l ls Hl Hls IH]; intros i regs Hr Hi;
    cbn [apply_locs length] in *.
  { exists regs. split; [done|]. split; [done|]. split; [|done]. intros j l r Hj. by rewrite lookup_nil in Hj. }
  destruct (lookup_lt_is_Some_2 (GetQutRegs qut) i) as [r0 Hr0]; [lia|].
  pose proof (Forall_lookup_1 _ _ _ _ Hqut Hr0) as Hlt. cbv beta in Hlt.
  destruct (reg_at_ok regs r0 Hr) as (old & Eo & Lo & Ho); [lia|]. rewrite Nat2Z.id in Lo.
  set (regs1 := <[r0 := restore_value cfa l old]> regs).
  assert (E1 : (if decide (loc_type l = REG_LOC_UNUSED) then Ret regs else
      match GetQutRegs qut !! i with
      | None => Undef OutOfBounds
      | Some reg =>
          old ← reg_at regs (Z.of_nat reg);
          '(_, v) ← Flush qut fuel regs (Some m) cfa l old;
          Ret (<[reg := v]> regs)
      end) = Ret regs1).
  { case_decide as E.
    - subst regs1. unfold restore_value. rewrite E. by rewrite list_insert_id.
    - rewrite Hr0, Eo. cbn [mbind outcome_mbind]. by destruct (Flush_simple fuel regs cfa l old Hl Ho) as [ok ->]. }
  rewrite E1. cbn [mbind outcome_mbind].
  destruct (IH (S i) regs1) as (regs' & E & Hok & Hset & Hkeep); [|lia|].
  { apply regs_ok_insert; [done|by apply restore_value_fits]. }
  exists regs'. split; [done|]. split; [done|]. split.
  - intros [|j] l' r Hj Hq; simpl in Hj.
    + injection Hj as <-. rewrite Nat.add_0_r in Hq. rewrite Hkeep.
      * simplify_eq. subst regs1. rewrite Lo, list_lookup_insert_eq; [done|]. destruct Hr as [-> _]. lia.
      * intros j _ Hj. pose proof (NoDup_lookup _ _ _ _ Hnd Hq Hj). lia.
    + rewrite (Hset j l' r Hj) by (rewrite <- Hq; f_equal; lia). subst regs1.
      rewrite list_lookup_insert_ne; [done|]. intros ->.
      pose proof (NoDup_lookup _ _ _ _ Hnd Hq Hr0). lia.
  - intros r Hn. rewrite Hkeep.
    + subst regs1. apply list_lookup_insert_ne. intros ->. apply (Hn 0%nat); [lia|]. by rewrite Nat.add_0_r.
    + intros j Hj. replace (S i + j)%nat with (i + S j)%nat by lia. apply Hn. lia.
Qed.

(** The value of register [r] in the caller: the frame address for the stack pointer, what the
    register's rule says for a tracked register, the callee's value for any other. *)
Definition caller_value (cfa : Z) (regs : list Z) (rs : RegLocState) (r : nat) : option Z :=
  if decide (r = REG_SP) then Some cfa
  else match IsQutReg qut r ≫= (λ i, locs rs !! i) with
  | Some l => restore_value cfa l <$> regs !! r
  | None => regs !! r
  end.

(** The rules that need no expression. *)
Definition plain_rule (l : RegLoc) : Prop :=
  loc_type l ≠ REG_LOC_MEM_EXPRESSION ∧ loc_type l ≠ REG_LOC_VAL_EXPRESSION.

(** What a rule makes of a register's old value, in the registers as restored so far. *)
Definition rule_value (cfa : Z) (regs : list Z) (l : RegLoc) (old : Z) : Z :=
  match loc_type l with
  | REG_LOC_REGISTER => default old (regs !! Z.to_nat (uptr (loc_val l)))
  | _ => restore_value cfa l old
  end.
Definition restore_reg (cfa : Z) (regs : list Z) (rule : nat * RegLoc) : list Z :=
  <[rule.1 := rule_value cfa regs rule.2 (default 0 (regs !! rule.1))]> regs.

Lemma Flush_plain fuel regs cfa l old :
  plain_rule l → regs_ok regs → fits ptr_bits old →
  ∃ ok, Flush qut fuel regs (Some m) cfa l old = Ret (ok, rule_value cfa regs l old).
Proof.
  clear Hnd. intros [H1 H2] Hr Ho. destruct (decide (loc_type l = REG_LOC_REGISTER)) as [E|E].
  - unfold Flush, rule_value, RegsSize. rewrite E. pose proof (uptr_fits (loc_val l)) as [H0 _].
    destruct (Z.leb_spec (length regs) (uptr (loc_val l))) as [Hge|Hlt].
    + rewrite lookup_ge_None_2 by lia. by eexists.
    + destruct (reg_at_ok regs (uptr (loc_val l)) Hr) as (v & -> & L & _); [destruct Hr as [<- _]; lia|].
      rewrite L. by eexists.
  - destruct (Flush_simple fuel regs cfa l old) as [ok Hok]; [|done|].
    + unfold simple_rule. destruct (loc_type l); (done || set_solver).
    + exists ok. rewrite Hok. unfold rule_value. by destruct (loc_type l).
Qed.

Lemma rule_value_fits cfa regs l old :
  regs_ok regs → fits ptr_bits old → fits ptr_bits (rule_value cfa regs l old).
Proof.
  clear Hnd. intros [_ Hr] Ho. unfold rule_value. destruct (loc_type l); try (by apply restore_value_fits).
  destruct (regs !! _) eqn:E; [|done]. by eapply (Forall_lookup_1 _ _ _ _ Hr).
Qed.

(** The loop of [Apply], for rules without expressions: one register after the other. *)
Lemma apply_locs_plain fuel cfa ls i regs :
  regs_ok regs → Forall plain_rule ls → (i + length ls <= length (GetQutRegs qut))%nat →
  apply_locs qut fuel (Some m) cfa i ls regs =
    Ret (fold_left (restore_reg cfa) (zip (drop i (GetQutRegs qut)) ls) regs) ∧
  regs_ok (fold_left (restore_reg cfa) (zip (drop i (GetQutRegs qut)) ls) regs).
Proof.
  clear Hnd. intros Hr Hls. revert i regs Hr. induction Hls as [|l ls Hl Hls IH]; intros i regs Hr Hi;
    cbn [apply_locs length] in *; [by destruct (drop i _)|].
  destruct (lookup_lt_is_Some_2 (GetQutRegs qut) i) as [r Hq]; [lia|].
  rewrite (drop_S _ _ _ Hq). cbn [zip zip_with fold_left]. rewrite Hq.
  pose proof (Forall_lookup_1 _ _ _ _ Hqut Hq) as Hlt. cbv beta in Hlt.
  destruct (reg_at_ok regs r Hr) as (old & Eo & Lo & Ho); [lia|]. rewrite Nat2Z.id in Lo.
  assert (Er : restore_reg cfa regs (r, l) = <[r := rule_value cfa regs l old]> regs)
    by (unfold restore_reg; cbn [fst snd]; by rewrite Lo).
  rewrite Er.
  assert (H1 : regs_ok (<[r := rule_value cfa regs l old]> regs)) by (apply regs_ok_insert; [done|by apply rule_value_fits]).
  case_decide as E.
  - assert (Ev : <[r := rule_value cfa regs l old]> regs = regs).
    { unfold rule_value, restore_value. rewrite E. by apply list_insert_id. }
    cbn [mbind outcome_mbind]. rewrite Ev. apply IH; [done|lia].
  - rewrite Eo. cbn [mbind outcome_mbind]. destruct (Flush_plain fuel regs cfa l old Hl Hr Ho) as [ok ->].
    cbn [mbind outcome_mbind]. apply IH; [done|lia].
Qed.

(** ** What [Apply] means, without expressions

    The frame address is a register plus an offset; the tracked registers are restored in the
    order of the table, then the stack pointer becomes the frame address and the program counter
    the value of the return address register. *)
Definition apply_spec (regs : list Z) (rs : RegLocState) (err : Z) : bool * list Z * Z :=
  let ra := Z.to_nat (rs_returnAddressRegister rs) in
  if cfaReg rs =? 0 then (false, regs, err)
  else
    match regs !! Z.to_nat (cfaReg rs) with
    | None => (false, regs, UNW_ERROR_DWARF_INVALID_CFA)
    | Some v =>
        let cfa := uptr (v + cfaRegOffset rs mod 2 ^ 32) in
        let regs1 := <[REG_SP := cfa]> (fold_left (restore_reg cfa) (zip (GetQutRegs qut) (locs rs)) regs) in
        if returnAddressUndefined rs then (false, <[REG_PC := 0]> regs1, UNW_ERROR_RETURN_ADDRESS_UNDEFINED)
        else
          match regs1 !! ra with
          | None => (false, regs1, UNW_ERROR_ILLEGAL_VALUE)
          | Some pc =>
              if returnAddressSame rs then (false, <[REG_PC := pc]> regs1, UNW_ERROR_RETURN_ADDRESS_SAME)
              else (true, <[REG_PC := pc]> regs1, err)
          end
    end.
End Caller.

Lemma find_qut_None regs reg i : find_qut regs reg i = None → ∀ r, r ∈ regs → Z.of_nat r ≠ reg.
Proof.
  revert i. induction regs as [|r0 regs IH]; intros i H r Hr; [set_solver|]. simpl in H.
  destruct (Z.eqb_spec (Z.of_nat r0) reg); [done|].
  apply elem_of_cons in Hr as [->|Hr]; [done|by eapply IH].
Qed.

Section ApplyTheorems.
Context `{A : Arch}.

(** C4. [Apply] computes the caller's registers: on a well-formed register file, with a frame
    address rule "register plus non-negative offset" and rules that do not read other
    registers, it succeeds; the stack pointer becomes the frame address, every other register
    has the value its rule gives it (the word saved in memory, or the CFA plus an offset; its old
    value if it has no rule, or if the word cannot be read), all from the state before the call,
    and the program counter becomes the caller's value of the return address register. *)
Theorem Apply_restores qut (m : DfxMemory) fuel regs rs err v :
  alignAddr_ m = false → Forall (λ r, (r < REG_LAST)%nat) (GetQutRegs qut) → NoDup (GetQutRegs qut) →
  regs_ok regs → rs_wf qut rs → Forall simple_rule (locs rs) →
  0 < cfaReg rs < REG_LAST → regs !! Z.to_nat (cfaReg rs) = Some v → 0 <= cfaRegOffset rs →
  0 <= rs_returnAddressRegister rs < REG_LAST →
  returnAddressUndefined rs = false → returnAddressSame rs = false →
  let cfa := uptr (v + cfaRegOffset rs) in
  ∃ regs', Apply qut fuel (Some m) regs rs err = Ret (true, regs', err) ∧
    (∀ r, r ≠ REG_PC → regs' !! r = caller_value qut m cfa regs rs r) ∧
    regs' !! REG_PC = caller_value qut m cfa regs rs (Z.to_nat (rs_returnAddressRegister rs)).
Proof.
  intros Hal Hqut Hnd Hr Hw Hs Hc Hv Ho Hra Hun Hsame cfa.
  assert (Hcfa : GetCfa qut fuel regs (Some m) rs 0 err = Ret (true, cfa, err)).
  { unfold GetCfa. rewrite (proj2 (Z.eqb_neq _ _)) by lia. cbn [negb]. unfold RegsSize, reg_at.
    destruct Hr as [Hl _]. rewrite (proj2 (Z.leb_gt _ _)), (proj2 (Z.ltb_ge _ _)), Hv by lia.
    rewrite (wrap_small 32); [done|]. unfold fits.
    pose proof (swrap_range 32 (cfaUnion rs) ltac:(lia)) as [_ Hr2].
    change (2 ^ (32 - 1)) with (2 ^ 31) in Hr2. unfold cfaRegOffset in *. lia. }
  destruct (apply_locs_simple qut m Hal Hqut Hnd fuel cfa (locs rs) 0 regs Hr Hs)
    as (regs1 & E1 & Hr1 & Hset & Hkeep); [unfold rs_wf, GetQutRegsSize in Hw; lia|].
  assert (Hsp : (REG_SP < length regs1)%nat) by (destruct Hr1 as [-> _]; apply special_ok).
  assert (Hpc : (REG_PC < length regs1)%nat) by (destruct Hr1 as [-> _]; apply special_ok).
  assert (Hval : ∀ r, SetSp regs1 cfa !! r = caller_value qut m cfa regs rs r).
  { intros r. unfold SetSp, caller_value. case_decide as Hd; [subst; by apply list_lookup_insert_eq|].
    rewrite list_lookup_insert_ne by done.
    destruct (IsQutReg qut r) as [i|] eqn:Ei; cbn [mbind option_bind].
    - apply IsQutReg_Some in Ei as (Hi & r' & Hq & Er). apply Nat2Z.inj in Er as ->.
      destruct (lookup_lt_is_Some_2 (locs rs) i) as [l Hl]; [unfold rs_wf in Hw; lia|].
      rewrite Hl. by apply (Hset i).
    - apply Hkeep. intros j _ Hj. eapply find_qut_None in Ei; [by apply Ei|].
      by eapply list_elem_of_lookup_2. }
  assert (Hra' : (Z.to_nat (rs_returnAddressRegister rs) < length (SetSp regs1 cfa))%nat).
  { unfold SetSp. rewrite length_insert. destruct Hr1 as [-> _]. lia. }
  destruct (lookup_lt_is_Some_2 _ _ Hra') as [ra Era].
  exists (SetPc (SetSp regs1 cfa) ra). unfold Apply. rewrite Hcfa. cbn [mbind outcome_mbind negb].
  rewrite E1. cbn [mbind outcome_mbind]. rewrite Hun, Hsame.
  rewrite (proj2 (Z.leb_le _ _)), (proj2 (Z.ltb_lt _ _)) by (rewrite ?reg_eh_ok; lia). cbn [andb].
  split; [|split].
  - unfold reg_at. rewrite (proj2 (Z.ltb_ge _ _)), Era by lia. reflexivity.
  - intros r Hrp. unfold SetPc. rewrite list_lookup_insert_ne by done. apply Hval.
  - unfold SetPc. rewrite list_lookup_insert_eq.
    + by rewrite <- Hval, Era.
    + unfold SetSp. by rewrite length_insert.
Qed.

Lemma apply_locs_keeps qut fuel memory cfa ls : ∀ i regs regs' r, apply_locs qut fuel memory cfa i ls regs = Ret regs' →
  (∀ j l, ls !! j = Some l → GetQutRegs qut !! (i + j)%nat = Some r → loc_type l = REG_LOC_UNUSED) → regs' !! r = regs !! r.
Proof.
  induction ls as [|l ls IH]; intros i regs regs' r H Hr; cbn [apply_locs] in H; [by simplify_eq|]. apply bind_Ret in H as (regs1 & E1 & H).
  rewrite (IH (S i) regs1 regs' r H); [|intros j l' Hj Hq; apply (Hr (S j) l'); [done|by rewrite <- Nat.add_succ_comm]].
  case_decide as Hu; [by simplify_eq|]. destruct (GetQutRegs qut !! i) as [reg|] eqn:Eq; [|done]. run_inv. apply list_lookup_insert_ne. intros ->. apply Hu, (Hr O l); [done|by rewrite Nat.add_0_r].
Qed.

(** What [Apply] leaves behind when it has the frame address [cfa]. *)
Record applied (qut : list nat) (regs : list Z) (rs : RegLocState) (cfa err : Z) (ok : bool) (regs' : list Z) (err' : Z) : Prop := {
  ap_cfa : cfaReg rs ≠ 0 → ∃ v, regs !! Z.to_nat (cfaReg rs) = Some v ∧ cfa = uptr (v + u32 (cfaRegOffset rs));
  ap_sp : REG_SP ≠ REG_PC → regs' !! REG_SP = Some cfa;
  ap_kept r : r ≠ REG_SP → r ≠ REG_PC → (∀ i l, locs rs !! i = Some l → GetQutRegs qut !! i = Some r → loc_type l = REG_LOC_UNUSED) → regs' !! r = regs !! r;
  ap_pc : let ra := rs_returnAddressRegister rs in
    if returnAddressUndefined rs then ok = false ∧ err' = UNW_ERROR_RETURN_ADDRESS_UNDEFINED ∧ regs' !! REG_PC = Some 0
    else if ra <? REG_LAST then ok = negb (returnAddressSame rs) ∧ err' = (if returnAddressSame rs then UNW_ERROR_RETURN_ADDRESS_SAME else err) ∧ (Z.to_nat ra ≠ REG_PC → regs' !! REG_PC = regs' !! Z.to_nat ra)
    else ok = false ∧ err' = UNW_ERROR_ILLEGAL_VALUE
}.

(** Also with expressions, when [Apply] returns: the register file keeps its type; without a frame
    address it fails and changes no register, with the error for an invalid register if that was
    the reason; otherwise the stack pointer gets the frame address, no register without a rule
    changes, and the program counter and the error are those of the return address. *)
Theorem Apply_branches qut fuel memory regs rs err ok regs' err' :
  Forall (λ r, (r < REG_LAST)%nat) (GetQutRegs qut) → regs_ok regs → fits ptr_bits (cfaUnion rs) → 0 <= cfaReg rs → 0 <= rs_returnAddressRegister rs →
  Apply qut fuel memory regs rs err = Ret (ok, regs', err') →
  regs_ok regs' ∧
  (ok = false ∧ regs' = regs ∧ (cfaReg rs ≠ 0 → REG_LAST <= cfaReg rs ∧ err' = UNW_ERROR_DWARF_INVALID_CFA) ∨
   ∃ cfa, fits ptr_bits cfa ∧ applied qut regs rs cfa err ok regs' err').
Proof.
  intros Hqut Hr Hu Hc0 Hra0 H. unfold Apply in H. apply bind_Ret in H as ([[ok' cfa] err1] & E & H). pose proof (GetCfa_fits _ _ _ _ _ _ _ _ _ Hr Hu E) as Hc.
  assert (Hcfa : if ok' then err1 = err ∧ (cfaReg rs ≠ 0 → ∃ v, regs !! Z.to_nat (cfaReg rs) = Some v ∧ cfa = uptr (v + u32 (cfaRegOffset rs))) else cfaReg rs ≠ 0 → REG_LAST <= cfaReg rs ∧ err1 = UNW_ERROR_DWARF_INVALID_CFA).
  { unfold GetCfa, RegsSize in E. destruct Hr as [Hl _]. rewrite Hl in E. destruct (Z.eqb_spec (cfaReg rs) 0) as [E0|E0]; cbn [negb] in E; [assert (err1 = err) as -> by (destruct (negb (cfaExprPtr rs =? 0)); by run_inv); by destruct ok'|].
    destruct (Z.leb_spec REG_LAST (cfaReg rs)); run_inv; [done|]. split; [done|]. intros _. match goal with E2 : reg_at _ _ = Ret ?v |- _ => exists v; unfold reg_at in E2; rewrite (proj2 (Z.ltb_ge _ _)) in E2 by lia; destruct (regs !! Z.to_nat (cfaReg rs)); by simplify_eq end. }
  destruct ok'; cbn [negb] in H; [|simplify_eq; split; [done|by left]]. destruct Hcfa as [-> Hcfa]. apply bind_Ret in H as (regs1 & E1 & H). pose proof (apply_locs_ok qut Hqut _ _ _ _ _ _ _ Hr Hc E1) as H1.
  assert (Hs : regs_ok (SetSp regs1 cfa)) by by apply regs_ok_insert. pose proof special_ok as (_ & Hspb & Hpcb). assert (Hl1 : length regs1 = REG_LAST) by apply H1.
  assert (Hkept : ∀ r, r ≠ REG_SP → (∀ i l, locs rs !! i = Some l → GetQutRegs qut !! i = Some r → loc_type l = REG_LOC_UNUSED) → SetSp regs1 cfa !! r = regs !! r).
  { intros r Hsp Hn. unfold SetSp. rewrite list_lookup_insert_ne by done. eapply apply_locs_keeps; [exact E1|]. intros j l Hj Hq. by eapply Hn. }
  assert (Hspv : SetSp regs1 cfa !! REG_SP = Some cfa) by (unfold SetSp; apply list_lookup_insert_eq; lia). assert (Hpcl : (REG_PC < length (SetSp regs1 cfa))%nat) by (unfold SetSp; rewrite length_insert; lia).
  assert (H0 : fits ptr_bits 0) by (apply fits_small; lia). set (regs2 := SetSp regs1 cfa) in *.
  assert (Hfin : ∀ v, fits ptr_bits v → regs_ok (SetPc regs2 v) ∧ SetPc regs2 v !! REG_PC = Some v ∧ (∀ r, r ≠ REG_PC → SetPc regs2 v !! r = regs2 !! r)).
  { intros v Hv. split; [by apply regs_ok_insert|]. split; [by apply list_lookup_insert_eq|]. intros r Hne. by apply list_lookup_insert_ne. }
  destruct (returnAddressUndefined rs) eqn:Eun.
  { destruct (Hfin 0 H0) as (F1 & F2 & F3). simplify_eq. split; [done|]. right. exists cfa. split; [done|]. split; [done|by intros; rewrite F3|intros; rewrite F3 by done; by apply Hkept|]. cbn zeta. by rewrite Eun. }
  rewrite reg_eh_ok, (proj2 (Z.leb_le _ _)) in H by lia. cbn [andb] in H. destruct (Z.ltb_spec (rs_returnAddressRegister rs) REG_LAST) as [Hlt|Hge].
  - destruct (reg_at_ok regs2 (rs_returnAddressRegister rs) Hs) as (v & E2 & L2 & Hv); [lia|]. rewrite E2 in H. cbn [mbind outcome_mbind] in H. destruct (Hfin v Hv) as (F1 & F2 & F3).
    assert (regs' = SetPc regs2 v ∧ ok = negb (returnAddressSame rs) ∧ err' = (if returnAddressSame rs then UNW_ERROR_RETURN_ADDRESS_SAME else err)) as (-> & -> & ->) by (destruct (returnAddressSame rs); by simplify_eq).
    split; [done|]. right. exists cfa. split; [done|]. split; [done|by intros; rewrite F3|intros; rewrite F3 by done; by apply Hkept|]. cbn zeta. rewrite Eun, (proj2 (Z.ltb_lt _ _)) by done. split; [done|]. split; [done|]. intros Hne. by rewrite F2, F3.
  - simplify_eq. split; [done|]. right. exists cfa. split; [done|]. split; [done|done|by intros; apply Hkept|]. cbn zeta. by rewrite Eun, (proj2 (Z.ltb_ge _ _)).
Qed.

(** C36. What [Apply] does on every branch, for rules without expressions, whatever else the rules and
    whatever memory hold: it returns what [apply_spec] says, and the register file keeps its type,
    [REG_LAST] machine words.  Without a register for the frame address it fails and changes
    nothing; otherwise each tracked register in turn gets the word saved at an offset from the
    frame address (its old value if that cannot be read), the frame address plus an offset, the
    value that another register has by then, or keeps its value; the stack pointer gets the frame
    address; the program counter gets 0, with a failure, if the return address is undefined, and
    else the value of the return address register, with a failure if that is declared the same; a
    return address that is no register is a failure. *)
Theorem Apply_rules qut (m : DfxMemory) fuel regs rs err :
  alignAddr_ m = false → Forall (λ r, (r < REG_LAST)%nat) (GetQutRegs qut) → regs_ok regs → rs_wf qut rs →
  Forall plain_rule (locs rs) → 0 <= cfaReg rs → (cfaReg rs = 0 → cfaExprPtr rs = 0) → 0 <= rs_returnAddressRegister rs →
  Apply qut fuel (Some m) regs rs err = Ret (apply_spec qut m regs rs err) ∧
  regs_ok (apply_spec qut m regs rs err).1.2.
Proof.
  intros Hal Hqut Hr Hw Hp Hc Hce Hra. unfold Apply, GetCfa, RegsSize, apply_spec. pose proof Hr as [Hl _].
  destruct (Z.eqb_spec (cfaReg rs) 0) as [E0|E0]; cbn [negb].
  { rewrite (Hce E0). done. }
  destruct (Z.leb_spec (length regs) (cfaReg rs)) as [Hge|Hlt].
  { rewrite lookup_ge_None_2 by lia. done. }
  destruct (reg_at_ok regs (cfaReg rs) Hr) as (v & -> & Lv & _); [lia|]. rewrite Lv. cbn [mbind outcome_mbind negb].
  change (u32 (cfaRegOffset rs)) with (cfaRegOffset rs mod 2 ^ 32). set (cfa := uptr _).
  destruct (apply_locs_plain qut m Hal Hqut fuel cfa (locs rs) 0 regs Hr Hp) as [-> H1]; [by rewrite Hw|].
  rewrite drop_0 in *. cbn [mbind outcome_mbind]. unfold SetSp, SetPc. set (regs1 := fold_left _ _ regs) in *.
  pose proof special_ok as (_ & Hspb & Hpcb).
  assert (H2 : regs_ok (<[REG_SP := cfa]> regs1)) by (apply regs_ok_insert; [done|apply uptr_fits]).
  set (regs2 := <[REG_SP := cfa]> regs1) in *. destruct (returnAddressUndefined rs).
  { split; [done|]. apply regs_ok_insert; [done|]. apply fits_small; lia. }
  rewrite reg_eh_ok, (proj2 (Z.leb_le _ _)) by lia. cbn [andb].
  destruct (Z.ltb_spec (rs_returnAddressRegister rs) REG_LAST) as [Hlt2|Hge2].
  - destruct (reg_at_ok regs2 (rs_returnAddressRegister rs) H2) as (pc & -> & -> & Hpc); [lia|].
    cbn [mbind outcome_mbind]. destruct (returnAddressSame rs); (split; [done|by apply regs_ok_insert]).
  - rewrite lookup_ge_None_2 by (destruct H2 as [-> _]; lia). done.
Qed.

(** A negative CFA offset is zero-extended: on a 64-bit target the frame address that
    [GetCfa] computes from a register and a negative offset is 2^32 too large. *)
Theorem GetCfa_negative_offset qut fuel memory regs rs err v :
  ptr_bits = 64 → length regs = REG_LAST →
  0 < cfaReg rs < REG_LAST → regs !! Z.to_nat (cfaReg rs) = Some v → cfaRegOffset rs < 0 →
  GetCfa qut fuel regs memory rs 0 err = Ret (true, uptr (v + cfaRegOffset rs + 2 ^ 32), err).
Proof.
  intros Hp Hl Hc Hv Ho. unfold GetCfa. rewrite (proj2 (Z.eqb_neq _ _)) by lia. cbn [negb].
  unfold RegsSize, reg_at. rewrite (proj2 (Z.leb_gt _ _)), (proj2 (Z.ltb_ge _ _)), Hv by lia.
  assert (E : u32 (cfaRegOffset rs) = cfaRegOffset rs + 2 ^ 32); [|cbn [mbind outcome_mbind]; by rewrite E, Z.add_assoc].
  unfold wrap.
  pose proof (swrap_range 32 (cfaUnion rs) ltac:(lia)) as [Hr1 _].
  change (2 ^ (32 - 1)) with (2 ^ 31) in Hr1. unfold cfaRegOffset in *.
  symmetry. apply (Z.mod_unique_pos _ _ (-1)); lia.
Qed.

(** Registers are restored in place: when register [b] is saved in register [a] and [a] comes
    earlier in the tracked list with a rule of its own, [b] receives the caller's value of [a] and
    not the value [a] holds in the frame being unwound. *)
Theorem apply_locs_in_place fuel (m : DfxMemory) cfa (a b : nat) v regs :
  regs_ok regs → (a < REG_LAST)%nat → (b < REG_LAST)%nat → a ≠ b →
  ∃ regs', apply_locs [a; b] fuel (Some m) cfa 0
             [mkRegLoc REG_LOC_VAL_OFFSET v; mkRegLoc REG_LOC_REGISTER a] regs = Ret regs' ∧
    regs' !! b = Some (uptr (cfa + uptr v)).
Proof.
  intros Hr Ha Hb Hab. pose proof Hr as [Hl _].
  destruct (reg_at_ok regs a Hr ltac:(lia)) as (va & Ea & La & _).
  destruct (reg_at_ok regs b Hr ltac:(lia)) as (vb & Eb & Lb & _). rewrite Nat2Z.id in La, Lb.
  assert (Hu : uptr a = a).
  { apply uptr_small, fits_small. pose proof reg_last_ok. lia. }
  cbn -[uptr reg_at]. rewrite Ea. cbn -[uptr reg_at]. rewrite Hu.
  rewrite !decide_False by done. cbn [mbind outcome_mbind].
  set (x := uptr (cfa + uptr v)).
  assert (Eb' : reg_at (<[a := x]> regs) b = Ret vb).
  { unfold reg_at. rewrite (proj2 (Z.ltb_ge _ _)), Nat2Z.id by lia.
    by rewrite list_lookup_insert_ne, Lb. }
  assert (Ea' : reg_at (<[a := x]> regs) a = Ret x).
  { unfold reg_at. rewrite (proj2 (Z.ltb_ge _ _)), Nat2Z.id by lia.
    by rewrite list_lookup_insert_eq by lia. }
  rewrite Eb', Ea'. cbn [mbind outcome_mbind]. unfold RegsSize.
  rewrite length_insert, (proj2 (Z.leb_gt _ _)) by lia.
  cbn -[uptr]. eexists. split; [done|]. apply list_lookup_insert_eq. rewrite length_insert. lia.
Qed.
End ApplyTheorems.

(** A frame on arm64: fp and lr saved at the frame pointer 0x8000, the CFA 16 bytes above. *)
Definition example_stack : DfxMemory :=
  mkMemory (Some (λ a, if a =? 0x8000 then Some 0x8100 else if a =? 0x8008 then Some 0x5000 else None))
    false 0 0 0.
Definition example_frame_regs : list Z := <[29%nat := 0x8000]> (replicate 35 7).
Definition example_rules : RegLocState :=
  mkRegLocState 0x1004 0x1008 29 16 false false 30
    [RegLoc_default; mkRegLoc REG_LOC_MEM_OFFSET (-16); RegLoc_default; RegLoc_default;
     mkRegLoc REG_LOC_MEM_OFFSET (-8)].

Lemma example_frame_regs_ok : regs_ok (A := Arm64) example_frame_regs.
Proof.
  split; [reflexivity|]. unfold example_frame_regs.
  apply Forall_insert; [apply Forall_replicate|]; split; vm_compute; (discriminate || reflexivity).
Qed.

Lemma Apply_restores_witness :
  ∃ regs', Apply (A := Arm64) [] 0 (Some example_stack) example_frame_regs example_rules 0
             = Ret (true, regs', 0) ∧
    regs' !! 31%nat = Some 0x8010 ∧ regs' !! 29%nat = Some 0x8100 ∧ regs' !! 32%nat = Some 0x5000.
Proof.
  destruct (Apply_restores (A := Arm64) [] example_stack 0 example_frame_regs example_rules 0 0x8000)
    as (regs' & E & Hr & Hpc); try done.
  - repeat constructor; simpl; lia.
  - by apply (bool_decide_unpack _); vm_compute.
  - apply example_frame_regs_ok.
  - repeat apply Forall_cons_2; try apply Forall_nil_2; unfold simple_rule; simpl; set_solver.
  - exists regs'. split; [done|]. change 32%nat with (REG_PC (Arch := Arm64)).
    rewrite Hpc, !Hr by (simpl; lia). by vm_compute.
Defined.

(** With a third rule that copies the restored frame pointer to another register. *)
Definition copying_rules : RegLocState :=
  mkRegLocState 0x1004 0x1008 29 16 false false 30
    [RegLoc_default; mkRegLoc REG_LOC_MEM_OFFSET (-16); mkRegLoc REG_LOC_REGISTER 29; RegLoc_default;
     mkRegLoc REG_LOC_MEM_OFFSET (-8)].

Lemma Apply_rules_witness :
  Apply (A := Arm64) [] 0 (Some example_stack) example_frame_regs copying_rules 0 =
    Ret (apply_spec (A := Arm64) [] example_stack example_frame_regs copying_rules 0) ∧
  regs_ok (A := Arm64) (apply_spec (A := Arm64) [] example_stack example_frame_regs copying_rules 0).1.2.
Proof.
  apply (Apply_rules (A := Arm64) [] example_stack 0 example_frame_regs copying_rules 0); try done.
  - repeat constructor; simpl; lia.
  - apply example_frame_regs_ok.
  - repeat apply Forall_cons_2; try apply Forall_nil_2; done.
Defined.

Lemma Apply_branches_witness :
  ∃ ok regs' err', Apply (A := Arm64) [] 0 (Some example_stack) example_frame_regs example_rules 0 = Ret (ok, regs', err') ∧ regs_ok (A := Arm64) regs' ∧ ok = true ∧ regs' !! 31%nat = Some 0x8010 ∧ regs' !! 5%nat = Some 7.
Proof.
  assert (E : ∃ regs', Apply (A := Arm64) [] 0 (Some example_stack) example_frame_regs example_rules 0 = Ret (true, regs', 0) ∧ regs' !! 5%nat = Some 7 ∧ regs' !! 31%nat = Some 0x8010) by (eexists; split; [vm_compute; reflexivity|by vm_compute]).
  destruct E as (regs' & E & H5 & H31). exists true, regs', 0. split; [exact E|]. destruct (Apply_branches (A := Arm64) [] 0 (Some example_stack) example_frame_regs example_rules 0 true regs' 0) as [Hok _]; [|apply example_frame_regs_ok|split; vm_compute; [discriminate|reflexivity]|done|done|exact E|exact (conj Hok (conj eq_refl (conj H31 H5)))].
  repeat constructor; simpl; lia.
Defined.

Lemma GetCfa_negative_offset_witness :
  GetCfa (A := Arm64) [] 0 example_frame_regs None
    (mkRegLocState 0 0 29 (2 ^ 32 - 16) false false 30 []) 0 0 = Ret (true, 0x100007ff0, 0).
Proof.
  apply (GetCfa_negative_offset (A := Arm64) [] 0 None example_frame_regs
           (mkRegLocState 0 0 29 (2 ^ 32 - 16) false false 30 []) 0 0x8000); try done.
Defined.

Lemma apply_locs_in_place_witness :
  ∃ regs', apply_locs (A := Arm64) [29; 30]%nat 0 (Some example_stack) 0x8010 0
    [mkRegLoc REG_LOC_VAL_OFFSET 0; mkRegLoc REG_LOC_REGISTER 29] example_frame_regs = Ret regs' ∧
    regs' !! 30%nat = Some 0x8010.
Proof.
  apply (apply_locs_in_place (A := Arm64) 0 example_stack 0x8010 29 30 0 example_frame_regs);
    [apply example_frame_regs_ok|simpl; lia|simpl; lia|lia].
Defined.
