(* ===== verification/DwarfEntry.v ===== *)
(** * Finding and parsing .eh_frame entries

    [DwarfEntryParser] (src/unwind_entry_parser/dwarf_entry_parser.cpp): the binary search of the
    .eh_frame_hdr table, the linear scan of .eh_frame, the parsers of CIEs and FDEs with their
    caches, and [Step], which runs the call frame instructions found for a pc. *)
From S2P Require Import Prelude Arch Memory DwarfCfa.

(** [struct UnwindTableInfo] and the part of [UnwindEntryInfo] that the searches fill in. *)
Record UnwindTableInfo := mkUti {
  uti_startPc : Z;
  uti_endPc : Z;
  uti_gp : Z;
  uti_format : Z;
  isLinear : bool;
  namePtr : Z;
  segbase : Z;
  tableLen : Z;
  tableData : Z
}.

Record UnwindEntryInfo := mkUei { unwindInfo : Z; uei_format : Z }.

Definition UNW_INFO_FORMAT_REMOTE_TABLE : Z := 1.

(** The size of [DwarfTableEntry]: two 32-bit offsets. *)
Definition DWARF_TABLE_ENTRY_SIZE : Z := 8.
Definition DW_EH_VERSION : Z := 1.
Definition MAX_AUG_STR_LEN : nat := 64.

Section DwarfEntry.
Context `{A : Arch}.
Context (qut : list nat).

(** The members of [DwarfEntryParser] and its base: the memory, the last error (address and
    code) and the two caches. *)
Record DwarfEntryParser := mkParser {
  memory_ : DfxMemory;
  lastErrorData_ : Z * Z;
  fdeEntries_ : gmap Z FrameDescEntry;
  cieEntries_ : gmap Z CommonInfoEntry
}.

Definition SetAddrAndCode (addr code : Z) (d : DwarfEntryParser) : DwarfEntryParser :=
  mkParser (memory_ d) (addr, code) (fdeEntries_ d) (cieEntries_ d).
Definition set_memory (m : DfxMemory) (d : DwarfEntryParser) : DwarfEntryParser :=
  mkParser m (lastErrorData_ d) (fdeEntries_ d) (cieEntries_ d).
Definition set_fdes (f : gmap Z FrameDescEntry) (d : DwarfEntryParser) : DwarfEntryParser :=
  mkParser (memory_ d) (lastErrorData_ d) f (cieEntries_ d).
Definition set_cies (c : gmap Z CommonInfoEntry) (d : DwarfEntryParser) : DwarfEntryParser :=
  mkParser (memory_ d) (lastErrorData_ d) (fdeEntries_ d) c.

(** Field updates of the entries. *)
Definition cie_set_header (e enc : Z) (c : CommonInfoEntry) : CommonInfoEntry :=
  mkCie (codeAlignFactor c) (dataAlignFactor c) (cie_returnAddressRegister c) (hasAugmentationData c)
    (isSignalFrame c) (segmentSize c) (cie_instructionsOff c) e (personality c) (lsdaEncoding c) enc.
Definition fde_set_cie (c : CommonInfoEntry) (f : FrameDescEntry) : FrameDescEntry :=
  mkFde (fde_pcStart f) (fde_pcEnd f) (fde_lsda f) (fde_instructionsOff f) (fde_instructionsEnd f)
    (fde_cieAddr f) c.
Definition fde_set_header (e cieAddr : Z) (f : FrameDescEntry) : FrameDescEntry :=
  mkFde (fde_pcStart f) (fde_pcEnd f) (fde_lsda f) (fde_instructionsOff f) e cieAddr (fde_cie f).
Definition cie_set_lsda (v : Z) (c : CommonInfoEntry) : CommonInfoEntry :=
  mkCie (codeAlignFactor c) (dataAlignFactor c) (cie_returnAddressRegister c) (hasAugmentationData c)
    (isSignalFrame c) (segmentSize c) (cie_instructionsOff c) (cie_instructionsEnd c) (personality c)
    v (pointerEncoding c).
Definition cie_set_encoding (v : Z) (c : CommonInfoEntry) : CommonInfoEntry :=
  mkCie (codeAlignFactor c) (dataAlignFactor c) (cie_returnAddressRegister c) (hasAugmentationData c)
    (isSignalFrame c) (segmentSize c) (cie_instructionsOff c) (cie_instructionsEnd c) (personality c)
    (lsdaEncoding c) v.
Definition cie_set_personality (v : Z) (c : CommonInfoEntry) : CommonInfoEntry :=
  mkCie (codeAlignFactor c) (dataAlignFactor c) (cie_returnAddressRegister c) (hasAugmentationData c)
    (isSignalFrame c) (segmentSize c) (cie_instructionsOff c) (cie_instructionsEnd c) v
    (lsdaEncoding c) (pointerEncoding c).
Definition cie_set_signal (c : CommonInfoEntry) : CommonInfoEntry :=
  mkCie (codeAlignFactor c) (dataAlignFactor c) (cie_returnAddressRegister c) (hasAugmentationData c)
    true (segmentSize c) (cie_instructionsOff c) (cie_instructionsEnd c) (personality c)
    (lsdaEncoding c) (pointerEncoding c).
Definition cie_set_off (v : Z) (c : CommonInfoEntry) : CommonInfoEntry :=
  mkCie (codeAlignFactor c) (dataAlignFactor c) (cie_returnAddressRegister c) (hasAugmentationData c)
    (isSignalFrame c) (segmentSize c) v (cie_instructionsEnd c) (personality c)
    (lsdaEncoding c) (pointerEncoding c).
Definition cie_set_aug (c : CommonInfoEntry) : CommonInfoEntry :=
  mkCie (codeAlignFactor c) (dataAlignFactor c) (cie_returnAddressRegister c) true
    (isSignalFrame c) (segmentSize c) (cie_instructionsOff c) (cie_instructionsEnd c) (personality c)
    (lsdaEncoding c) (pointerEncoding c).
Definition cie_set_factors (seg code data ra : Z) (c : CommonInfoEntry) : CommonInfoEntry :=
  mkCie code data ra (hasAugmentationData c)
    (isSignalFrame c) seg (cie_instructionsOff c) (cie_instructionsEnd c) (personality c)
    (lsdaEncoding c) (pointerEncoding c).

(** [ParseCieOrFdeHeader]: the pointer past the header, the entry and whether it is a CIE.  With
    a 64-bit length the CIE pointer is read with an increment, and the pointer is then moved
    over it once more. *)
Definition ParseCieOrFdeHeader (m : DfxMemory) (ptr : Z) (fdeInfo : FrameDescEntry)
  : outcome (Z * FrameDescEntry * bool) :=
  '(_, value32, ptr) ← ReadT m ptr 0 4 true;
  if value32 =? 2 ^ 32 - 1 then
    '(value64, ptr) ← ReadU m ptr 8 true;
    value64 ← use value64;
    let instructionsEnd := uptr (ptr + value64) in
    '(_, value64, ptr) ← ReadT m ptr value64 8 true;
    let ciePtr := uptr value64 in
    if ciePtr =? 0
    then Ret (uptr (ptr + 8),
              fde_set_cie (cie_set_header instructionsEnd DW_EH_PE_sdata8 (fde_cie fdeInfo)) fdeInfo, true)
    else Ret (uptr (ptr + 8), fde_set_header instructionsEnd (uptr (ptr - ciePtr)) fdeInfo, false)
  else
    let instructionsEnd := uptr (ptr + value32) in
    '(_, value32, _) ← ReadT m ptr value32 4 false;
    let ciePtr := value32 in
    if ciePtr =? 0
    then Ret (uptr (ptr + 4),
              fde_set_cie (cie_set_header instructionsEnd DW_EH_PE_sdata4 (fde_cie fdeInfo)) fdeInfo, true)
    else Ret (uptr (ptr + 4), fde_set_header instructionsEnd (uptr (ptr - ciePtr)) fdeInfo, false).

(** The [for] of [ParseAugData], from the second character of the string on. *)
Fixpoint aug_chars (m : DfxMemory) (augStr : list Z) (ptr : Z) (cieInfo : CommonInfoEntry)
  : outcome (Z * CommonInfoEntry) :=
  match augStr with
  | [] => Ret (ptr, cieInfo)
  | ch :: augStr' =>
      '(ptr, cieInfo) ←
        (if ch =? 0x50 (* P *) then
           '(enc, ptr) ← ReadU m ptr 1 true;
           enc ← use enc;
           '(v, ptr) ← ReadEncodedValue m ptr enc;
           Ret (ptr, cie_set_personality (u8 v) cieInfo)
         else if ch =? 0x4c (* L *) then
           '(_, v, ptr) ← ReadT m ptr (lsdaEncoding cieInfo) 1 true;
           Ret (ptr, cie_set_lsda v cieInfo)
         else if ch =? 0x52 (* R *) then
           '(_, v, ptr) ← ReadT m ptr (pointerEncoding cieInfo) 1 true;
           Ret (ptr, cie_set_encoding v cieInfo)
         else if ch =? 0x53 (* S *) then Ret (ptr, cie_set_signal cieInfo)
         else Ret (ptr, cieInfo));
      aug_chars m augStr' ptr cieInfo
  end.

Definition ParseAugData (m : DfxMemory) (ptr : Z) (cieInfo : CommonInfoEntry) (augStr : list Z)
  : outcome (Z * CommonInfoEntry) :=
  '(augSize, ptr) ← ReadUleb128 m ptr;
  let cieInfo := cie_set_off (uptr (ptr + uptr augSize)) cieInfo in
  aug_chars m (tail augStr) ptr cieInfo.

(** The [while] that saves the augmentation string: at most [MAX_AUG_STR_LEN] characters, up to
    the end of the entry or a NUL. *)
Fixpoint read_aug_str (m : DfxMemory) (left : nat) (instructionsEnd ptr : Z) (augStr : list Z)
  : outcome (list Z * Z) :=
  match left with
  | O => Ret (augStr, ptr)
  | S left' =>
      if negb (instructionsEnd =? 0) && (ptr <? instructionsEnd) then
        '(ch, ptr) ← ReadU m ptr 1 true;
        match ch with
        | None => Ret (augStr, ptr)
        | Some ch =>
            if ch =? 0 then Ret (augStr, ptr)
            else read_aug_str m left' instructionsEnd ptr (augStr ++ [ch])
        end
      else Ret (augStr, ptr)
  end.

(** The body of [FillInCie]: the filled-in entry, or the address of an unsupported version. *)
Definition read_cie (m : DfxMemory) (ptr : Z) (cieInfo : CommonInfoEntry)
  : outcome (CommonInfoEntry + Z) :=
  '(version, ptr) ← ReadU m ptr 1 true;
  version ← use version;
  if negb ((version =? DW_EH_VERSION) || (version =? 3) || (version =? 4) || (version =? 5))
  then Ret (inr ptr)
  else
    '(augStr, ptr) ← read_aug_str m MAX_AUG_STR_LEN (cie_instructionsEnd cieInfo) ptr [];
    '(seg, ptr) ←
      (if (version =? 4) || (version =? 5) then
         '(_, v, ptr) ← ReadT m (uptr (ptr + 1)) (segmentSize cieInfo) 1 true;
         Ret (v, ptr)
       else Ret (0, ptr));
    '(code, ptr) ← ReadUleb128 m ptr;
    '(data, ptr) ← ReadSleb128 m ptr;
    '(ra, ptr) ←
      (if version =? DW_EH_VERSION then
         '(val, ptr) ← ReadU m ptr 1 true;
         val ← use val;
         Ret (val, ptr)
       else
         '(val, ptr) ← ReadUleb128 m ptr;
         Ret (uptr val, ptr));
    let cieInfo := cie_set_factors seg (u32 code) (s32 data) ra cieInfo in
    match augStr with
    | 0x7a :: _ => (* z *)
        '(_, cieInfo) ← ParseAugData m ptr (cie_set_aug cieInfo) augStr;
        Ret (inl cieInfo)
    | _ => Ret (inl (cie_set_off ptr cieInfo))
    end.

Definition FillInCie (ptr : Z) (cieInfo : CommonInfoEntry) (d : DwarfEntryParser)
  : outcome (bool * CommonInfoEntry * DwarfEntryParser) :=
  r ← read_cie (memory_ d) ptr cieInfo;
  match r with
  | inl cieInfo => Ret (true, cieInfo, d)
  | inr ptr => Ret (false, cieInfo, SetAddrAndCode ptr UNW_ERROR_UNSUPPORTED_VERSION d)
  end.

Definition ParseCie (cieAddr ciePtr : Z) (cieInfo : CommonInfoEntry) (d : DwarfEntryParser)
  : outcome (bool * CommonInfoEntry * DwarfEntryParser) :=
  match cieEntries_ d !! cieAddr with
  | Some c => Ret (true, c, d)
  | None =>
      '(isCie, ciePtr, cieInfo) ←
        (if cieAddr =? ciePtr then
           let cieInfo := cie_set_lsda DW_EH_PE_omit cieInfo in
           '(ciePtr, fdeInfo, isCieEntry) ← ParseCieOrFdeHeader (memory_ d) ciePtr FrameDescEntry_default;
           if (isCieEntry : bool) then Ret (true, ciePtr, fde_cie fdeInfo)
           else Ret (false, ciePtr, cieInfo)
         else Ret (true, ciePtr, cieInfo));
      if negb (isCie : bool) then Ret (false, cieInfo, d)
      else
        '(ok, cieInfo, d) ← FillInCie ciePtr cieInfo d;
        if (ok : bool) then Ret (true, cieInfo, set_cies (<[cieAddr := cieInfo]> (cieEntries_ d)) d)
        else Ret (false, cieInfo, set_cies (delete cieAddr (cieEntries_ d)) d)
  end.

(** The body of [FillInFde] after its CIE: the filled-in entry, or the address of an invalid
    augmentation length. *)
Definition read_fde (m : DfxMemory) (ptr : Z) (fdeInfo : FrameDescEntry) : outcome (FrameDescEntry + Z) :=
  let cie := fde_cie fdeInfo in
  let ptr := uptr (ptr + segmentSize cie) in
  '(pcStart, ptr) ← ReadEncodedValue m ptr (pointerEncoding cie);
  '(pcRange, ptr) ← ReadEncodedValue m ptr (Z.land (pointerEncoding cie) 0x0f);
  let done lsda off :=
    Ret (inl (mkFde pcStart (uptr (pcStart + pcRange)) lsda off (fde_instructionsEnd fdeInfo)
                (fde_cieAddr fdeInfo) cie)) in
  if hasAugmentationData cie then
    '(augLen, ptr) ← ReadUleb128 m ptr;
    let sum := ptr + uptr augLen in
    if negb (fitsb ptr_bits sum)
       || (negb (fde_instructionsEnd fdeInfo =? 0) && (fde_instructionsEnd fdeInfo <? uptr sum))
    then Ret (inr ptr)
    else
      lsda ←
        (if lsdaEncoding cie =? DW_EH_PE_omit then Ret 0
         else
           '(v, _) ← ReadEncodedValue m ptr (Z.land (lsdaEncoding cie) 0x0f);
           if v =? 0 then Ret 0
           else '(v, _) ← ReadEncodedValue m ptr (lsdaEncoding cie); Ret v);
      done lsda (uptr sum)
  else done 0 ptr.

Definition FillInFde (ptr : Z) (fdeInfo : FrameDescEntry) (d : DwarfEntryParser)
  : outcome (bool * FrameDescEntry * DwarfEntryParser) :=
  '(ok, cie, d) ← ParseCie (fde_cieAddr fdeInfo) (fde_cieAddr fdeInfo) (fde_cie fdeInfo) d;
  let fdeInfo := fde_set_cie cie fdeInfo in
  if negb (ok : bool) then Ret (false, fdeInfo, d)
  else
    r ← read_fde (memory_ d) ptr fdeInfo;
    match r with
    | inl fdeInfo => Ret (true, fdeInfo, d)
    | inr ptr =>
        Ret (false, mkFde (fde_pcStart fdeInfo) (fde_pcEnd fdeInfo) 0 (fde_instructionsOff fdeInfo)
                      (fde_instructionsEnd fdeInfo) (fde_cieAddr fdeInfo) cie,
             SetAddrAndCode ptr UNW_ERROR_INVALID_MEMORY d)
    end.

Definition ParseFde (fdeAddr fdePtr : Z) (fdeInfo : FrameDescEntry) (d : DwarfEntryParser)
  : outcome (bool * FrameDescEntry * DwarfEntryParser) :=
  match fdeEntries_ d !! fdeAddr with
  | Some f => Ret (true, f, d)
  | None =>
      '(isFde, fdePtr, fdeInfo) ←
        (if fdeAddr =? fdePtr then
           '(fdePtr, fdeInfo, isCieEntry) ← ParseCieOrFdeHeader (memory_ d) fdePtr fdeInfo;
           Ret (negb isCieEntry, fdePtr, fdeInfo)
         else Ret (true, fdePtr, fdeInfo));
      if negb (isFde : bool) then Ret (false, fdeInfo, d)
      else
        '(ok, fdeInfo, d) ← FillInFde fdePtr fdeInfo d;
        if (ok : bool) then Ret (true, fdeInfo, set_fdes (<[fdeAddr := fdeInfo]> (fdeEntries_ d)) d)
        else Ret (false, fdeInfo, set_fdes (delete fdeAddr (fdeEntries_ d)) d)
  end.

(** [GetCieOrFde]: the result, the address of the next entry and the entry. *)
Definition GetCieOrFde (addr : Z) (fdeInfo : FrameDescEntry) (d : DwarfEntryParser)
  : outcome (bool * Z * FrameDescEntry * DwarfEntryParser) :=
  '(ptr, fdeInfo, isCieEntry) ← ParseCieOrFdeHeader (memory_ d) addr fdeInfo;
  if (isCieEntry : bool) then
    '(ok, cie, d) ← ParseCie addr ptr (fde_cie fdeInfo) d;
    let fdeInfo := fde_set_cie cie fdeInfo in
    if (ok : bool) then Ret (true, cie_instructionsEnd cie, fdeInfo, d) else Ret (false, addr, fdeInfo, d)
  else
    '(ok, fdeInfo, d) ← ParseFde addr ptr fdeInfo d;
    if (ok : bool) then Ret (true, fde_instructionsEnd fdeInfo, fdeInfo, d)
    else Ret (false, addr, fdeInfo, d).

(** The [while] of [LinearSearchEntry]: at most [count] entries.  [fdeInfo] is one variable for
    the whole scan. *)
Fixpoint linear_loop (count : nat) (pc endPc ptr : Z) (fdeInfo : FrameDescEntry) (d : DwarfEntryParser)
  : outcome (option UnwindEntryInfo * DwarfEntryParser) :=
  match count with
  | O => Ret (None, d)
  | S count' =>
      if ptr <? endPc then
        '(ok, ptr', fdeInfo, d) ← GetCieOrFde ptr fdeInfo d;
        if (ok : bool) then
          if (fde_pcStart fdeInfo <=? pc) && (pc <? fde_pcEnd fdeInfo)
          then Ret (Some (mkUei ptr UNW_INFO_FORMAT_REMOTE_TABLE), d)
          else linear_loop count' pc endPc ptr' fdeInfo d
        else Ret (None, d)
      else Ret (None, d)
  end.

Definition LinearSearchEntry (pc : Z) (uti : UnwindTableInfo) (d : DwarfEntryParser)
  : outcome (option UnwindEntryInfo * DwarfEntryParser) :=
  linear_loop (Z.to_nat (tableLen uti)) pc (uti_endPc uti) (tableData uti) FrameDescEntry_default d.

(** How the binary search loop ends: an unreadable table, an entry whose start is [pc], or the
    index past the last entry that starts below [pc]. *)
Inductive search_result :=
| SearchFailed (ptr : Z)
| SearchDone (entry high : Z).

(** [static_cast<uintptr_t>] of a signed 32-bit table field, relative to the segment. *)
Definition table_addr (segbase v : Z) : Z := uptr (uptr (s32 v) + segbase).

Fixpoint search_loop (fuel : nat) (m : DfxMemory) (pc segbase tableData low high : Z)
  : outcome search_result :=
  if low <? high then
    match fuel with
    | O => OutOfFuel
    | S fuel' =>
        let cur := uptr (low + high) / 2 in
        let ptr := uptr (tableData + cur * DWARF_TABLE_ENTRY_SIZE) in
        '(startPc, ptr) ← ReadU m ptr 4 true;
        match startPc with
        | None => Ret (SearchFailed ptr)
        | Some v =>
            let startPc := table_addr segbase v in
            if startPc =? pc then
              '(fdeOffset, ptr) ← ReadU m ptr 4 true;
              match fdeOffset with
              | None => Ret (SearchFailed ptr)
              | Some v => Ret (SearchDone (table_addr segbase v) high)
              end
            else if pc <? startPc then search_loop fuel' m pc segbase tableData low cur
            else search_loop fuel' m pc segbase tableData (uptr (cur + 1)) high
        end
    end
  else Ret (SearchDone 0 high).

Definition SearchEntry (fuel : nat) (pc : Z) (uti : UnwindTableInfo) (d : DwarfEntryParser)
  : outcome (option UnwindEntryInfo * DwarfEntryParser) :=
  let m := memory_ d in
  r ← search_loop fuel m pc (segbase uti) (tableData uti) 0 (tableLen uti);
  match r with
  | SearchFailed ptr => Ret (None, SetAddrAndCode ptr UNW_ERROR_INVALID_MEMORY d)
  | SearchDone entry high =>
      if negb (entry =? 0) then Ret (Some (mkUei entry UNW_INFO_FORMAT_REMOTE_TABLE), d)
      else if high =? 0 then Ret (None, d)
      else
        let ptr := uptr (tableData uti + (high - 1) * DWARF_TABLE_ENTRY_SIZE + 4) in
        '(fdeOffset, ptr) ← ReadU m ptr 4 true;
        match fdeOffset with
        | None => Ret (None, SetAddrAndCode ptr UNW_ERROR_INVALID_MEMORY d)
        | Some v =>
            Ret (Some (mkUei (table_addr (segbase uti) v) UNW_INFO_FORMAT_REMOTE_TABLE), d)
        end
  end.

(** [Step]: search, parse the FDE, check its range, run its instructions.  [fuel] bounds the
    search and the interpreter. *)
Definition Step (fuel : nat) (pc : Z) (uti : UnwindTableInfo) (rs : RegLocState) (d : DwarfEntryParser)
  : outcome (bool * RegLocState * DwarfEntryParser) :=
  '(uei, d) ← (if isLinear uti then LinearSearchEntry pc uti d else SearchEntry fuel pc uti d);
  match uei with
  | None => Ret (false, rs, d)
  | Some uei =>
      let d := set_memory (SetDataOffset (memory_ d) (segbase uti)) d in
      '(ok, fdeInfo, d) ← ParseFde (unwindInfo uei) (unwindInfo uei) FrameDescEntry_default d;
      if negb (ok : bool)
      then Ret (false, rs, SetAddrAndCode (unwindInfo uei) UNW_ERROR_DWARF_INVALID_FDE d)
      else if (pc <? fde_pcStart fdeInfo) || (fde_pcEnd fdeInfo <=? pc) then Ret (false, rs, d)
      else
        rs ← Parse (memory_ d) qut fuel pc fdeInfo rs;
        Ret (true, rs, d)
  end.
End DwarfEntry.

(** ** The binary search is a linear scan of a sorted table *)
Section Search.
Context `{A : Arch}.

Definition encode_entry (e : Z * Z) : list Z := le_bytes 4 e.1 ++ le_bytes 4 e.2.
Definition encode_table (es : list (Z * Z)) : list Z := concat (map encode_entry es).

Definition start_of (segbase : Z) (e : Z * Z) : Z := table_addr segbase e.1.
Definition fde_of (segbase : Z) (e : Z * Z) : Z := table_addr segbase e.2.

(** The reference: the last entry of the initial run of entries that start at or below [pc]. *)
Fixpoint floor_entry (segbase pc : Z) (es : list (Z * Z)) (acc : option (Z * Z)) : option (Z * Z) :=
  match es with
  | [] => acc
  | e :: es' => if start_of segbase e <=? pc then floor_entry segbase pc es' (Some e) else acc
  end.

Lemma encode_table_app es es' : encode_table (es ++ es') = encode_table es ++ encode_table es'.
Proof. unfold encode_table. by rewrite map_app, concat_app. Qed.

Lemma encode_table_length es : length (encode_table es) = (8 * length es)%nat.
Proof.
  induction es as [|e es IH]; [done|]. unfold encode_table in *. cbn [map concat length].
  rewrite length_app, IH. unfold encode_entry. rewrite length_app, !length_le_bytes. lia.
Qed.

(** The two fields of entry [i]. *)
Lemma table_fields m base es rest (i : nat) s f incre :
  holds m base (encode_table es ++ rest) → es !! i = Some (s, f) → fits 32 s → fits 32 f →
  ReadU m (base + 8 * i) 4 incre = Ret (Some s, if incre then base + 8 * i + 4 else base + 8 * i) ∧
  ReadU m (base + 8 * i + 4) 4 incre = Ret (Some f, if incre then base + 8 * i + 8 else base + 8 * i + 4).
Proof.
  intros H Hi Hs Hf. pose proof (lookup_lt_Some _ _ _ Hi) as Hlt.
  rewrite <- (take_drop_middle es i (s, f) Hi), encode_table_app in H.
  rewrite <- app_assoc in H. apply holds_app_r in H.
  rewrite encode_table_length, length_take, Nat.min_l, Nat2Z.inj_mul in H by lia.
  change (Z.of_nat 8) with 8 in H. unfold encode_table in H. cbn [map concat] in H.
  unfold encode_entry in H. cbn [fst snd] in H. rewrite <- !app_assoc in H.
  rewrite (ReadU_holds _ _ _ _ _ _ H (length_le_bytes _ _)). apply holds_app_r in H.
  rewrite length_le_bytes in H. change (Z.of_nat 4) with 4 in *.
  rewrite (ReadU_holds _ _ _ _ _ _ H (length_le_bytes _ _)).
  rewrite !of_le_le_bytes. change (8 * 4%nat) with 32. rewrite !wrap_small by done.
  split; [done|]. by replace (base + 8 * i + 8) with (base + 8 * i + 4 + 4) by lia.
Qed.

Lemma floor_entry_split segbase pc es (k : nat) acc :
  (∀ i e, es !! i = Some e → (i < k)%nat → start_of segbase e <= pc) →
  (∀ e, es !! k = Some e → pc < start_of segbase e) → (k <= length es)%nat →
  floor_entry segbase pc es acc = match k with O => acc | S k' => es !! k' end.
Proof.
  revert k acc. induction es as [|e es IH]; intros k acc Hlo Hhi Hk; simpl in *.
  - by replace k with 0%nat by lia.
  - destruct k as [|k]; simpl in *.
    + specialize (Hhi e eq_refl). by rewrite (proj2 (Z.leb_gt _ _)).
    + pose proof (Hlo 0%nat e eq_refl ltac:(lia)). rewrite (proj2 (Z.leb_le _ _)) by done.
      rewrite (IH k); [by destruct k| | |lia].
      * intros i e' Hi Hlt. apply (Hlo (S i)); [done|lia].
      * done.
Qed.

Context (m : DfxMemory) (pc sb base : Z) (es : list (Z * Z)) (rest : list Z).
Hypothesis Hm : holds m base (encode_table es ++ rest).
Hypothesis Hfit : Forall (λ e, fits 32 e.1 ∧ fits 32 e.2) es.
Hypothesis Hsorted : ∀ i j e e', es !! i = Some e → es !! j = Some e' → (i < j)%nat →
  start_of sb e < start_of sb e'.
Hypothesis Hnz : ∀ e, e ∈ es → fde_of sb e ≠ 0.

Lemma table_room : 0 <= base ∧ base + 8 * length es < 2 ^ ptr_bits.
Proof.
  destruct Hm as (_ & _ & H0 & H1 & _). rewrite length_app, encode_table_length in H1. lia.
Qed.

(** The loop leaves an exact match or the boundary between starts below and above [pc]. *)
Lemma search_loop_spec (fuel : nat) (low high : nat) :
  (low <= high <= length es)%nat → high - low < 2 ^ fuel →
  (∀ i e, es !! i = Some e → (i < low)%nat → start_of sb e < pc) →
  (∀ i e, es !! i = Some e → (high <= i)%nat → pc < start_of sb e) →
  ∃ r, search_loop fuel m pc sb base low high = Ret r ∧
    ((∃ i e (h : nat), es !! i = Some e ∧ start_of sb e = pc ∧ r = SearchDone (fde_of sb e) h) ∨
     (∃ h : nat, r = SearchDone 0 h ∧ (h <= length es)%nat ∧
        (∀ i e, es !! i = Some e → (i < h)%nat → start_of sb e < pc) ∧
        (∀ i e, es !! i = Some e → (h <= i)%nat → pc < start_of sb e))).
Proof.
  pose proof table_room as [Hb0 Hb1].
  revert low high. induction fuel as [|fuel IH]; intros low high Hle Hf Hlo Hhi.
  - cbn [search_loop]. rewrite (proj2 (Z.ltb_ge _ _)) by (change (2 ^ 0%nat) with 1 in Hf; lia).
    eexists. split; [done|]. right. exists high. split; [done|]. split; [lia|]. split; [|done].
    intros i e Hi Hlt. apply (Hlo i); [done|]. change (2 ^ 0%nat) with 1 in Hf. lia.
  - cbn [search_loop]. destruct (Z.ltb_spec low high) as [Hlt|Hge].
    2: { eexists. split; [done|]. right. exists high. split; [done|]. split; [lia|]. split; [|done].
         intros i e Hi Hj. apply (Hlo i); [done|lia]. }
    rewrite (uptr_small (low + high)) by (unfold fits; lia).
    set (cur := Z.to_nat ((low + high) / 2)).
    assert (Hcur : (low + high) / 2 = cur ∧ (low <= cur < high ∧ 2 * cur <= low + high < 2 * cur + 2)%nat).
    { subst cur. pose proof (Z.div_mod (low + high) 2 ltac:(lia)).
      pose proof (Z.mod_pos_bound (low + high) 2 ltac:(lia)). lia. }
    destruct Hcur as [-> Hc]. clearbody cur.
    destruct (lookup_lt_is_Some_2 es cur) as [[s f] He]; [lia|].
    pose proof (Forall_lookup_1 _ _ _ _ Hfit He) as [Hs Hff]. cbn [fst snd] in Hs, Hff.
    unfold DWARF_TABLE_ENTRY_SIZE. rewrite (Z.mul_comm cur), (uptr_small (base + _)) by (unfold fits; lia).
    destruct (table_fields m base es rest cur s f true Hm He Hs Hff) as [-> E2].
    cbn [mbind outcome_mbind].
    assert (Hpow : 2 ^ S fuel = 2 * 2 ^ fuel) by (rewrite Nat2Z.inj_succ, Z.pow_succ_r; lia).
    change (table_addr sb s) with (start_of sb (s, f)).
    destruct (Z.eqb_spec (start_of sb (s, f)) pc) as [Eq|Ne].
    { rewrite E2. eexists. split; [done|]. left. exists cur, (s, f), high. done. }
    destruct (Z.ltb_spec pc (start_of sb (s, f))) as [Hp|Hp].
    + apply IH; [lia|lia|done|]. intros i e Hi Hj. destruct (decide (i = cur)) as [->|].
      * congruence.
      * pose proof (Hsorted cur i _ _ He Hi ltac:(lia)). lia.
    + rewrite uptr_small by (unfold fits; lia). replace (cur + 1) with (Z.of_nat (S cur)) by lia.
      apply IH; [lia|lia| |done]. intros i e Hi Hj. destruct (decide (i = cur)) as [->|].
      * simplify_eq. lia.
      * pose proof (Hsorted i cur _ _ Hi He ltac:(lia)). lia.
Qed.
End Search.

Section SearchTheorem.
Context `{A : Arch}.

Lemma search_floor (fuel : nat) pc uti (d : DwarfEntryParser) es rest :
  holds (memory_ d) (tableData uti) (encode_table es ++ rest) →
  tableLen uti = length es → Z.of_nat (length es) < 2 ^ fuel →
  Forall (λ e, fits 32 e.1 ∧ fits 32 e.2) es →
  (∀ i j e e', es !! i = Some e → es !! j = Some e' → (i < j)%nat →
     start_of (segbase uti) e < start_of (segbase uti) e') →
  (∀ e, e ∈ es → fde_of (segbase uti) e ≠ 0) →
  SearchEntry fuel pc uti d =
    Ret ((λ e, mkUei (fde_of (segbase uti) e) UNW_INFO_FORMAT_REMOTE_TABLE)
           <$> floor_entry (segbase uti) pc es None, d).
Proof.
  intros Hm Hlen Hfuel Hfit Hsorted Hnz. unfold SearchEntry. rewrite Hlen.
  set (sb := segbase uti) in *. set (base := tableData uti) in *.
  pose proof (table_room _ base es rest Hm) as [Hb0 Hb1].
  destruct (search_loop_spec (memory_ d) pc sb base es rest Hm Hfit Hsorted fuel 0 (length es))
    as (r & E & H); [lia|lia|intros; lia| |].
  { intros i e Hi Hj. apply lookup_lt_Some in Hi. lia. }
  change (Z.of_nat 0) with 0 in E. rewrite E. cbn [mbind outcome_mbind]. clear E.
  destruct H as [(i & e & h & Hi & Heq & ->)|(h & -> & Hh & Hlo & Hhi)].
  - rewrite (proj2 (Z.eqb_neq _ _)) by (by eapply Hnz, list_elem_of_lookup_2). cbn [negb].
    rewrite (floor_entry_split sb pc es (S i)), Hi; [done| | |].
    + intros j e' Hj Hlt. destruct (decide (j = i)) as [->|]; [simplify_eq; lia|].
      pose proof (Hsorted j i _ _ Hj Hi ltac:(lia)). lia.
    + intros e' Hj. pose proof (Hsorted i (S i) _ _ Hi Hj ltac:(lia)). lia.
    + apply lookup_lt_Some in Hi. lia.
  - rewrite Z.eqb_refl. cbn [negb].
    rewrite (floor_entry_split sb pc es h); [|intros; by apply Z.lt_le_incl; eauto|by eauto|done].
    destruct h as [|h]; [done|]. rewrite (proj2 (Z.eqb_neq _ _)) by lia.
    destruct (lookup_lt_is_Some_2 es h) as [[s f] He]; [lia|]. rewrite He.
    pose proof (Forall_lookup_1 _ _ _ _ Hfit He) as [Hs Hf].
    unfold DWARF_TABLE_ENTRY_SIZE.
    replace (base + (S h - 1) * 8 + 4) with (base + 8 * h + 4) by lia.
    rewrite uptr_small by (unfold fits; lia).
    destruct (table_fields _ base es rest h s f true Hm He Hs Hf) as [_ ->]. done.
Qed.

(** C12. The binary search of the .eh_frame_hdr table: over a table sorted by start address it
    returns in at most [fuel] rounds when the table has less than 2^fuel entries, and finds
    exactly the entry that a linear scan does, the last one that starts at or below [pc];
    it reports failure when [pc] is below every entry, and changes no parser state. *)
Theorem SearchEntry_floor (fuel : nat) pc uti (d : DwarfEntryParser) es rest :
  holds (memory_ d) (tableData uti) (encode_table es ++ rest) →
  tableLen uti = length es → Z.of_nat (length es) < 2 ^ fuel →
  Forall (λ e, fits 32 e.1 ∧ fits 32 e.2) es →
  (∀ i j e e', es !! i = Some e → es !! j = Some e' → (i < j)%nat →
     start_of (segbase uti) e < start_of (segbase uti) e') →
  (∀ e, e ∈ es → fde_of (segbase uti) e ≠ 0) →
  SearchEntry fuel pc uti d =
    Ret ((λ e, mkUei (fde_of (segbase uti) e) UNW_INFO_FORMAT_REMOTE_TABLE)
           <$> floor_entry (segbase uti) pc es None, d).
Proof. apply search_floor. Qed.
End SearchTheorem.

(** Three functions at 0x1000, 0x1040 and 0x1100 of a segment at 0x10000. *)
Definition example_table : list (Z * Z) := [(0x1000, 0x2000); (0x1040, 0x2020); (0x1100, 0x2040)].
Definition example_uti : UnwindTableInfo := mkUti 0 0 0 (-1) false 0 0x10000 3 4096.

Lemma SearchEntry_floor_witness :
  SearchEntry (A := Arm64) 2 0x110ff example_uti
    (mkParser (list_mem (A := Arm64) 4096 (encode_table example_table ++ [])) (0, 0) ∅ ∅)
  = Ret (Some (mkUei 0x12020 UNW_INFO_FORMAT_REMOTE_TABLE),
         mkParser (list_mem (A := Arm64) 4096 (encode_table example_table ++ [])) (0, 0) ∅ ∅).
Proof.
  rewrite (SearchEntry_floor (A := Arm64) 2 0x110ff example_uti _ example_table []).
  - by vm_compute.
  - change (tableData _) with 4096. solve_holds.
  - done.
  - done.
  - repeat apply Forall_cons_2; try apply Forall_nil_2; split; split; vm_compute; (discriminate || reflexivity).
  - intros i j e e' Hi Hj Hlt.
    destruct i as [|[|[|i]]]; [..|by apply lookup_lt_Some in Hi; simpl in Hi; lia];
    destruct j as [|[|[|j]]]; try lia; try (by apply lookup_lt_Some in Hj; simpl in Hj; lia);
    injection Hi as <-; injection Hj as <-; by vm_compute.
  - intros e He. repeat (apply elem_of_cons in He as [->|He]; [by vm_compute|]). by apply not_elem_of_nil in He.
Defined.

(** ** The 64-bit header *)
Section Header.
Context `{A : Arch}.

(** The two header formats: after a 32-bit length the pointer is left just past the CIE
    pointer and the CIE address is relative to that field; after a 64-bit length it is left eight
    bytes past the end of the CIE pointer, and the CIE address is relative to the end of the
    field. *)
Theorem header_formats (m : DfxMemory) addr addr' len len' off off' rest rest' f :
  ptr_bits = 64 →
  fits 31 len → fits 32 off → 0 < off → fits 31 len' → fits 31 off' → 0 < off' →
  holds m addr (le_bytes 4 len ++ le_bytes 4 off ++ rest) →
  holds m addr' (le_bytes 4 (2 ^ 32 - 1) ++ le_bytes 8 len' ++ le_bytes 8 off' ++ rest') →
  addr' + 2 ^ 33 < 2 ^ 64 → addr + 2 ^ 33 < 2 ^ 64 →
  ParseCieOrFdeHeader m addr f =
    Ret (addr + 8, fde_set_header (addr + 4 + len) (uptr (addr + 4 - off)) f, false) ∧
  ParseCieOrFdeHeader m addr' f =
    Ret (addr' + 28, fde_set_header (addr' + 12 + len') (uptr (addr' + 20 - off')) f, false).
Proof.
  intros Hp Hlen Hoff Hoff0 Hlen' Hoff' Hoff0' H H' Hr' Hr. unfold fits in *.
  assert (Hsm : ∀ n z, 0 <= z < 2 ^ 32 → (4 <= n)%nat → of_le (le_bytes n z) = z).
  { intros n z Hz Hn. rewrite of_le_le_bytes. apply wrap_small. split; [lia|].
    pose proof (Z.pow_le_mono_r 2 32 (8 * n)). lia. }
  pose proof H as (_ & _ & H0 & _). pose proof H' as (_ & _ & H0' & _).
  split; unfold ParseCieOrFdeHeader.
  - rewrite (ReadT_holds _ _ _ _ _ _ _ H (length_le_bytes _ _)), Hsm by lia.
    cbn [mbind outcome_mbind]. rewrite (proj2 (Z.eqb_neq _ _)) by lia.
    apply holds_app_r in H. rewrite length_le_bytes in H.
    rewrite (ReadT_holds _ _ _ _ _ _ _ H (length_le_bytes _ _)), Hsm by lia.
    cbn [mbind outcome_mbind]. rewrite (proj2 (Z.eqb_neq off 0)) by lia.
    change (Z.of_nat 4) with 4.
    rewrite (uptr_small (addr + 4 + 4)), (uptr_small (addr + 4 + len)) by (unfold fits; rewrite Hp; lia).
    do 3 f_equal. lia.
  - rewrite (ReadT_holds _ _ _ _ _ _ _ H' (length_le_bytes _ _)), Hsm by lia.
    cbn [mbind outcome_mbind]. rewrite Z.eqb_refl.
    apply holds_app_r in H'. rewrite length_le_bytes in H'.
    rewrite (ReadU_holds _ _ _ _ _ _ H' (length_le_bytes _ _)), Hsm by lia.
    cbn [mbind outcome_mbind use]. apply holds_app_r in H'. rewrite length_le_bytes in H'.
    rewrite (ReadT_holds _ _ _ _ _ _ _ H' (length_le_bytes _ _)), Hsm by lia.
    cbn [mbind outcome_mbind]. change (Z.of_nat 4) with 4 in *. change (Z.of_nat 8) with 8 in *.
    rewrite (uptr_small off') by (unfold fits; rewrite Hp; lia).
    rewrite (proj2 (Z.eqb_neq off' 0)) by lia.
    rewrite (uptr_small (addr' + 4 + 8 + 8 + 8)), (uptr_small (addr' + 4 + 8 + len'))
      by (unfold fits; rewrite Hp; lia).
    replace (addr' + 4 + 8 + 8 + 8) with (addr' + 28) by lia.
    replace (addr' + 4 + 8 + 8 - off') with (addr' + 20 - off') by lia.
    by replace (addr' + 4 + 8 + len') with (addr' + 12 + len') by lia.
Qed.
End Header.

Lemma header_formats_witness :
  let m bs := list_mem (A := Arm64) 4096 (bs ++ [0]) in
  (∃ f, ParseCieOrFdeHeader (A := Arm64)
      (m (le_bytes 4 20 ++ le_bytes 4 16 ++ le_bytes 4 (2 ^ 32 - 1) ++ le_bytes 8 20 ++ le_bytes 8 16))
      4096 FrameDescEntry_default = Ret (4104, f, false)) ∧
  (∃ f, ParseCieOrFdeHeader (A := Arm64)
      (m (le_bytes 4 20 ++ le_bytes 4 16 ++ le_bytes 4 (2 ^ 32 - 1) ++ le_bytes 8 20 ++ le_bytes 8 16))
      4104 FrameDescEntry_default = Ret (4132, f, false)).
Proof.
  intros m.
  destruct (header_formats (A := Arm64)
    (m (le_bytes 4 20 ++ le_bytes 4 16 ++ le_bytes 4 (2 ^ 32 - 1) ++ le_bytes 8 20 ++ le_bytes 8 16))
    4096 4104 20 20 16 16
    (le_bytes 4 (2 ^ 32 - 1) ++ le_bytes 8 20 ++ le_bytes 8 16 ++ [0]) [0] FrameDescEntry_default)
    as [E1 E2].
  1: reflexivity.
  1-6: unfold fits; lia.
  1: solve_holds.
  1: apply (holds_app_r _ 4096 (le_bytes 4 20 ++ le_bytes 4 16)); solve_holds.
  1-2: lia.
  - split; eexists; [exact E1|exact E2].
Defined.

(** ** The caches are transparent *)
Section Caches.
Context `{A : Arch}.

(** What a caller sees of a parse: the entry, or nothing on failure. *)
Definition parsed {X} (c : outcome (bool * X * DwarfEntryParser)) : outcome (option X) :=
  '(ok, x, _) ← c; Ret (if (ok : bool) then Some x else None).

(** The entry at an address, parsed from memory without caches. *)
Definition uncached (m : DfxMemory) : DwarfEntryParser := mkParser m (0, 0) ∅ ∅.
Definition cie_at (m : DfxMemory) (a : Z) : outcome (option CommonInfoEntry) :=
  parsed (ParseCie a a CommonInfoEntry_default (uncached m)).
Definition fde_at (m : DfxMemory) (a : Z) : outcome (option FrameDescEntry) :=
  parsed (ParseFde a a FrameDescEntry_default (uncached m)).

(** Every cached entry is what parsing its address gives. *)
Definition coherent (d : DwarfEntryParser) : Prop :=
  (∀ a c, cieEntries_ d !! a = Some c → cie_at (memory_ d) a = Ret (Some c)) ∧
  (∀ a f, fdeEntries_ d !! a = Some f → fde_at (memory_ d) a = Ret (Some f)).

Lemma parse_cie_spec a c d :
  (∀ a c, cieEntries_ d !! a = Some c → cie_at (memory_ d) a = Ret (Some c)) →
  parsed (ParseCie a a c d) = cie_at (memory_ d) a ∧
  ∀ ok c' d', ParseCie a a c d = Ret (ok, c', d') →
    memory_ d' = memory_ d ∧ fdeEntries_ d' = fdeEntries_ d ∧
    (∀ a c, cieEntries_ d' !! a = Some c → cie_at (memory_ d) a = Ret (Some c)).
Proof.
  intros Hc. destruct (cieEntries_ d !! a) as [c0|] eqn:Ea.
  - unfold ParseCie at 1 2. rewrite Ea. split; [by rewrite (Hc a c0 Ea)|].
    intros ok c' d' H. by simplify_eq.
  - assert (E : parsed (ParseCie a a c d) = cie_at (memory_ d) a).
    { unfold cie_at, ParseCie, FillInCie, parsed. cbn [memory_ uncached cieEntries_].
      rewrite Ea, lookup_empty, Z.eqb_refl.
      destruct (ParseCieOrFdeHeader (memory_ d) a FrameDescEntry_default) as [[[p f] []]| |];
        cbn [mbind outcome_mbind negb]; try done.
      destruct (read_cie (memory_ d) p (fde_cie f)) as [[?|?]| |]; done. }
    split; [exact E|]. intros ok c' d' H. rewrite H in E. cbn [parsed mbind outcome_mbind] in E.
    unfold ParseCie in H. rewrite Ea in H. apply bind_Ret in H as ([[isCie p] c1] & _ & H).
    destruct isCie; cbn [negb] in H; [|by simplify_eq].
    unfold FillInCie in H. apply bind_Ret in H as ([[ok1 c2] d1] & H1 & H).
    apply bind_Ret in H1 as ([c3|q] & _ & H1); simplify_eq; cbn [memory_ fdeEntries_ cieEntries_ set_cies SetAddrAndCode].
    + split; [done|]. split; [done|]. intros a' c''. rewrite lookup_insert_Some.
      intros [[<- <-]|[_ H]]; auto.
    + split; [done|]. split; [done|]. intros a' c'' [_ H]%lookup_delete_Some. auto.
Qed.

Lemma fill_fde_spec p f d :
  (∀ a c, cieEntries_ d !! a = Some c → cie_at (memory_ d) a = Ret (Some c)) →
  parsed (FillInFde p f d) = parsed (FillInFde p f (uncached (memory_ d))) ∧
  ∀ ok f' d', FillInFde p f d = Ret (ok, f', d') →
    memory_ d' = memory_ d ∧ fdeEntries_ d' = fdeEntries_ d ∧
    (∀ a c, cieEntries_ d' !! a = Some c → cie_at (memory_ d) a = Ret (Some c)).
Proof.
  intros Hc. unfold FillInFde.
  destruct (parse_cie_spec (fde_cieAddr f) (fde_cie f) d Hc) as [E1 F1].
  destruct (parse_cie_spec (fde_cieAddr f) (fde_cie f) (uncached (memory_ d))) as [E2 F2].
  { intros a c H. cbn [uncached cieEntries_] in H. by rewrite lookup_empty in H. }
  cbn [memory_ uncached] in E2. rewrite <- E1 in E2. clear E1. unfold parsed in E2.
  destruct (ParseCie _ _ _ d) as [[[ok c] d1]| |] eqn:H1;
    destruct (ParseCie _ _ _ (uncached (memory_ d))) as [[[ok' c'] d1']| |] eqn:H2;
    cbn [mbind outcome_mbind parsed] in *; simplify_eq; try done.
  destruct (F1 _ _ _ eq_refl) as (M1 & Fd1 & C1). destruct (F2 _ _ _ eq_refl) as (M2 & _ & _).
  cbn [memory_ uncached] in M2. rewrite M1, M2.
  destruct ok, ok'; simplify_eq; cbn [negb]; [|split; [done|intros; by simplify_eq]].
  destruct (read_fde (memory_ d) p (fde_set_cie c f)) as [[f2|q]| |]; cbn [mbind outcome_mbind];
    (split; [done|]); intros ok f' d' H; simplify_eq; done.
Qed.

Lemma uncached_coherent m : coherent (uncached m).
Proof. split; intros a x H; cbn [uncached cieEntries_ fdeEntries_] in H; by rewrite lookup_empty in H. Qed.

(** C15. Caching never changes what is parsed: from caches whose entries are what their addresses
    parse to (as from the empty caches), [ParseFde] finds exactly the entry, or fails exactly as,
    a parser without caches does, keeps the memory, and leaves the caches with that property. *)
Theorem ParseFde_transparent a d :
  coherent d →
  parsed (ParseFde a a FrameDescEntry_default d) = fde_at (memory_ d) a ∧
  ∀ ok f d', ParseFde a a FrameDescEntry_default d = Ret (ok, f, d') →
    memory_ d' = memory_ d ∧ coherent d'.
Proof.
  intros [Hc Hf]. destruct (fdeEntries_ d !! a) as [f0|] eqn:Ea.
  - unfold ParseFde at 1 2. rewrite Ea. split; [by rewrite (Hf a f0 Ea)|].
    intros ok f d' H. by simplify_eq.
  - assert (E : parsed (ParseFde a a FrameDescEntry_default d) = fde_at (memory_ d) a).
    { unfold fde_at, ParseFde. rewrite Ea. cbn [uncached fdeEntries_ memory_].
      rewrite lookup_empty, Z.eqb_refl. unfold parsed.
      destruct (ParseCieOrFdeHeader (memory_ d) a FrameDescEntry_default) as [[[p f] b]| |];
        cbn [mbind outcome_mbind]; try done. destruct b; cbn [negb]; [done|].
      destruct (fill_fde_spec p f d Hc) as [E _]. unfold parsed in E. cbn [uncached] in E.
      destruct (FillInFde p f d) as [[[ok1 f1] d1]| |]; destruct (FillInFde p f _) as [[[ok2 f2] d2]| |];
        cbn [mbind outcome_mbind] in *; try done; destruct ok1, ok2; by simplify_eq. }
    split; [exact E|]. intros ok f d' H. rewrite H in E. cbn [parsed mbind outcome_mbind] in E.
    unfold ParseFde in H. rewrite Ea in H. apply bind_Ret in H as ([[isFde p] f1] & _ & H).
    destruct isFde; cbn [negb] in H; [|by simplify_eq].
    destruct (fill_fde_spec p f1 d Hc) as [_ F].
    apply bind_Ret in H as ([[ok1 f2] d1] & H1 & H). destruct (F _ _ _ H1) as (M & Fd & C).
    destruct ok1; simplify_eq; cbn [memory_ set_fdes]; (split; [done|]); split;
      cbn [memory_ cieEntries_ fdeEntries_ set_fdes]; rewrite ?M; auto; intros a' f'; rewrite Fd.
    + rewrite lookup_insert_Some. intros [[<- <-]|[_ H]]; auto.
    + rewrite lookup_delete_Some. intros [_ H]. auto.
Qed.
End Caches.

(** A CIE with augmentation zR and one FDE, as bytes.  The FDE has no LSDA: what is parsed as its
    LSDA pointer are its instructions [0x41; 0x0e; 16]. *)
Definition example_eh_frame : list Z :=
  le_bytes 4 16 ++ le_bytes 4 0 ++ [1] ++ [0x7a; 0x52; 0] ++ [4; 0x78; 30] ++ [1; 0x1b] ++ [0x0c; 31; 0] ++
  le_bytes 4 16 ++ le_bytes 4 24 ++ le_bytes 4 (0x1000 - 12) ++ le_bytes 4 0x40 ++ [0] ++ [0x41; 0x0e; 16].
Definition example_eh_memory : DfxMemory := list_mem (A := Arm64) 4096 example_eh_frame.

Lemma ParseFde_transparent_witness :
  parsed (ParseFde (A := Arm64) 4116 4116 FrameDescEntry_default (uncached example_eh_memory)) =
  Ret (Some (mkFde 8208 8272 0x100e41 4133 4136 4096
               (mkCie 4 (-8) 30 true false 0 4113 4116 0 0 0x1b))).
Proof.
  rewrite (proj1 (ParseFde_transparent (A := Arm64) 4116 (uncached example_eh_memory)
                    (uncached_coherent (A := Arm64) _))).
  vm_compute. reflexivity.
Defined.

(** ** The linear scan *)
Section Linear.
Context `{A : Arch}.

Lemma read_aug_str_nul (m : DfxMemory) left e ptr rest :
  holds m ptr (0 :: rest) → ptr < e → read_aug_str m (S left) e ptr [] = Ret ([], ptr + 1).
Proof.
  intros H He. pose proof H as (_ & _ & H0 & _). cbn [read_aug_str].
  rewrite (proj2 (Z.eqb_neq e 0)), (proj2 (Z.ltb_lt ptr e)) by lia. cbn [negb andb].
  by rewrite (ReadU_holds m ptr [0] rest 1 true H) by done.
Qed.

(** A version 1 CIE without augmentation, after its header. *)
Lemma read_cie_plain (m : DfxMemory) ptr c data ra rest cie :
  0 <= c < 128 → -64 <= data < 64 → is_byte ra →
  holds m ptr ([1; 0] ++ uleb_encode c ++ sleb_encode data ++ [ra] ++ rest) →
  ptr + 1 < cie_instructionsEnd cie →
  read_cie m ptr cie = Ret (inl (cie_set_off (ptr + 5) (cie_set_factors 0 c data ra cie))).
Proof.
  intros Hc Hd Hra H He. pose proof H as (_ & _ & H0 & H1 & _).
  assert (Lc : uleb_encode c = [c]).
  { unfold uleb_encode. rewrite uleb_enc_S. by rewrite (proj2 (Z.ltb_lt _ _)) by lia. }
  assert (Ld : sleb_encode data = [data mod 128]).
  { unfold sleb_encode. rewrite sleb_enc_S.
    by rewrite (proj2 (Z.leb_le _ _)), (proj2 (Z.ltb_lt _ _)) by lia. }
  unfold read_cie. cbn [app] in H.
  rewrite (ReadU_holds m ptr [1] _ 1 true H) by done. apply holds_cons in H.
  change (of_le [1]) with 1. change (Z.of_nat 1) with 1. cbn [mbind outcome_mbind use].
  change (negb _) with false. cbv iota. change MAX_AUG_STR_LEN with (S 63).
  rewrite (read_aug_str_nul m 63 _ (ptr + 1) _ H) by lia. apply holds_cons in H.
  change ((1 =? 4) || (1 =? 5)) with false. change (1 =? DW_EH_VERSION) with true.
  cbn [mbind outcome_mbind].
  rewrite (ReadUleb128_enc m c _ _ ltac:(lia) H). apply holds_app_r in H.
  cbn [mbind outcome_mbind].
  rewrite (ReadSleb128_enc m data _ _ ltac:(lia) H). apply holds_app_r in H.
  cbn [mbind outcome_mbind].
  rewrite (ReadU_holds m _ [ra] rest 1 true H) by done. rewrite Lc, Ld.
  cbn [mbind outcome_mbind use of_le length]. rewrite (wrap_small 32) by (unfold fits; lia).
  rewrite (swrap_small 32) by (unfold sfits; change (2 ^ (32 - 1)) with (2 ^ 31); lia).
  change (Z.of_nat 1) with 1. do 3 f_equal; [lia|]. f_equal. lia.
Qed.

(** The bytes of such a CIE, with a 32-bit length. *)
Definition plain_cie (len c data ra : Z) : list Z :=
  le_bytes 4 len ++ le_bytes 4 0 ++ [1; 0] ++ uleb_encode c ++ sleb_encode data ++ [ra].

(** The header of a CIE with a 32-bit length. *)
Lemma header_plain (m : DfxMemory) addr len rest f :
  fits 31 len → addr + 2 ^ 31 + 8 < 2 ^ ptr_bits →
  holds m addr (le_bytes 4 len ++ le_bytes 4 0 ++ rest) →
  ParseCieOrFdeHeader m addr f =
    Ret (addr + 8, fde_set_cie (cie_set_header (addr + 4 + len) DW_EH_PE_sdata4 (fde_cie f)) f, true) ∧
  holds m (addr + 8) rest.
Proof.
  intros Hlen Hr H. pose proof H as (_ & _ & H0 & _). unfold fits in Hlen. unfold ParseCieOrFdeHeader.
  rewrite (ReadT_holds _ _ _ _ _ _ _ H (length_le_bytes _ _)), of_le_le_bytes.
  change (8 * 4%nat) with 32. rewrite wrap_small by (unfold fits; lia). cbn [mbind outcome_mbind].
  rewrite (proj2 (Z.eqb_neq _ _)) by lia. apply holds_app_r in H. rewrite length_le_bytes in H.
  rewrite (ReadT_holds _ _ _ _ _ _ _ H (length_le_bytes _ _)), of_le_le_bytes.
  change (u32 0) with 0. cbn [mbind outcome_mbind]. rewrite Z.eqb_refl.
  apply holds_app_r in H. rewrite length_le_bytes in H. change (Z.of_nat 4) with 4 in *.
  rewrite (uptr_small (addr + 4 + 4)), (uptr_small (addr + 4 + len)) by (unfold fits; lia).
  replace (addr + 4 + 4) with (addr + 8) in * by lia. done.
Qed.

(** The linear scan carries flags from one CIE to the next: it parses every CIE into the same
    variable, so a CIE without augmentation that follows one with augmentation is cached as having
    augmentation data, and the caches are no longer what parsing the addresses gives. *)
Theorem GetCieOrFde_leaks addr len c data ra rest f (d : DwarfEntryParser) :
  8 < len < 2 ^ 31 → 0 <= c < 128 → -64 <= data < 64 → is_byte ra →
  addr + 2 ^ 31 + 8 < 2 ^ ptr_bits →
  holds (memory_ d) addr (plain_cie len c data ra ++ rest) →
  cieEntries_ d !! addr = None → hasAugmentationData (fde_cie f) = true →
  ∃ next f' d', GetCieOrFde addr f d = Ret (true, next, f', d') ∧
    hasAugmentationData (fde_cie f') = true ∧ cieEntries_ d' !! addr = Some (fde_cie f') ∧
    ¬ coherent d'.
Proof.
  intros Hlen Hc Hd Hra Hr H Hn Haug. pose proof H as (_ & _ & H0 & _).
  assert (Hl : fits 31 len) by (unfold fits; lia).
  unfold plain_cie in H. rewrite <- !app_assoc in H.
  assert (Hne : (addr =? addr + 8) = false) by (apply Z.eqb_neq; lia).
  unfold GetCieOrFde. destruct (header_plain _ addr len _ f Hl Hr H) as [-> H8].
  cbn [mbind outcome_mbind]. unfold ParseCie, FillInCie. rewrite Hn, Hne. cbn [mbind outcome_mbind negb].
  rewrite (read_cie_plain _ (addr + 8) c data ra _ _ Hc Hd Hra H8) by (simpl; lia).
  cbn [mbind outcome_mbind]. do 3 eexists. split; [reflexivity|].
  cbn [fde_cie fde_set_cie cie_set_off cie_set_factors cie_set_header hasAugmentationData cieEntries_ set_cies].
  split; [exact Haug|]. split; [apply lookup_insert_eq|].
  intros [Hco _]. cbn [cieEntries_ set_cies memory_] in Hco.
  specialize (Hco addr _ (lookup_insert_eq _ _ _)). revert Hco.
  unfold cie_at, parsed, ParseCie, FillInCie. cbn [uncached cieEntries_ memory_].
  rewrite lookup_empty, Z.eqb_refl.
  destruct (header_plain _ addr len _ FrameDescEntry_default Hl Hr H) as [-> _].
  cbn [mbind outcome_mbind negb].
  rewrite (read_cie_plain _ (addr + 8) c data ra _ _ Hc Hd Hra H8) by (simpl; lia).
  cbn [mbind outcome_mbind]. intros E.
  apply (f_equal (λ r, match r with Ret (Some c) => hasAugmentationData c | _ => false end)) in E.
  cbn in E. congruence.
Qed.
End Linear.

Lemma GetCieOrFde_leaks_witness :
  ∃ next f' d', GetCieOrFde (A := Arm64) 4096
      (fde_set_cie (mkCie 4 (-8) 30 true false 0 0 0 0 0 0x1b) FrameDescEntry_default)
      (uncached (list_mem (A := Arm64) 4096 (plain_cie 12 4 (-8) 30 ++ [0; 0; 0]))) = Ret (true, next, f', d') ∧
    hasAugmentationData (fde_cie f') = true ∧ cieEntries_ d' !! 4096 = Some (fde_cie f') ∧ ¬ coherent (A := Arm64) d'.
Proof.
  apply (GetCieOrFde_leaks (A := Arm64) 4096 12 4 (-8) 30 [0; 0; 0]); try lia; try done.
  cbn [memory_ uncached]. solve_holds.
Defined.
