(* ===== verification/Exidx.v ===== *)
(** * ARM exception index tables

    [ExidxEntryParser] (src/unwind_entry_parser/exidx_entry_parser.cpp, compiled for 32-bit arm
    only): the search of .ARM.exidx, the extraction of the unwind bytes from the compact and the
    generic tables, the decoder of the unwind instructions and the register rules they produce. *)
From S2P Require Import Prelude Arch Memory DwarfCfa DwarfEntry.

#[local] Existing Instance Arm.

Definition ARM_EXIDX_CANT_UNWIND : Z := 0x00000001.
Definition ARM_EXIDX_COMPACT : Z := 0x80000000.
Definition ARM_EXTBL_OP_FINISH : Z := 0xb0.
Definition ARM_EXIDX_TABLE_SIZE : Z := 8.
Definition FOUR_BYTE_OFFSET : Z := 4.
Definition UNW_INFO_FORMAT_ARM_EXIDX : Z := 2.
Definition UNW_ERROR_RESERVED_VALUE : Z := 9.
Definition UNW_ERROR_NOT_SUPPORT : Z := 29.

(** [struct ExidxContext]: the virtual stack pointer, the popped registers and, for each tracked
    register, the distance from the top of its slot to the virtual stack pointer. *)
Record ExidxContext := mkCtx {
  vsp : Z;
  transformedBits : Z;
  ctx_regs : list Z
}.

(** The members of [ExidxEntryParser] and its base. *)
Record ExidxEntryParser := mkExidx {
  ex_rs : RegLocState;
  context_ : ExidxContext;
  ops_ : list Z;
  curOp_ : Z;
  isPcSet_ : bool;
  ex_error : Z * Z
}.

Definition set_rs (rs : RegLocState) (p : ExidxEntryParser) : ExidxEntryParser :=
  mkExidx rs (context_ p) (ops_ p) (curOp_ p) (isPcSet_ p) (ex_error p).
Definition set_context (c : ExidxContext) (p : ExidxEntryParser) : ExidxEntryParser :=
  mkExidx (ex_rs p) c (ops_ p) (curOp_ p) (isPcSet_ p) (ex_error p).
Definition set_ops (ops : list Z) (p : ExidxEntryParser) : ExidxEntryParser :=
  mkExidx (ex_rs p) (context_ p) ops (curOp_ p) (isPcSet_ p) (ex_error p).
Definition set_op (op : Z) (ops : list Z) (p : ExidxEntryParser) : ExidxEntryParser :=
  mkExidx (ex_rs p) (context_ p) ops op (isPcSet_ p) (ex_error p).
Definition set_pc_popped (p : ExidxEntryParser) : ExidxEntryParser :=
  mkExidx (ex_rs p) (context_ p) (ops_ p) (curOp_ p) true (ex_error p).
Definition SetCode (code : Z) (p : ExidxEntryParser) : ExidxEntryParser :=
  mkExidx (ex_rs p) (context_ p) (ops_ p) (curOp_ p) (isPcSet_ p) (fst (ex_error p), code).
Definition ex_SetAddrAndCode (addr code : Z) (p : ExidxEntryParser) : ExidxEntryParser :=
  mkExidx (ex_rs p) (context_ p) (ops_ p) (curOp_ p) (isPcSet_ p) (addr, code).

Section Exidx.
Context (m : DfxMemory) (qut : list nat).
Implicit Types (c : ExidxContext) (p : ExidxEntryParser).

(** [Reset(size)]. *)
Definition Reset (size : nat) c : ExidxContext :=
  mkCtx 0 0 (replicate (if (size =? 0)%nat then length (ctx_regs c) else size) 0).

(** [1 << reg] on an [int]: a count of 32 or more is undefined. *)
Definition Transform (reg : nat) c : outcome ExidxContext :=
  bit ← shl 32 1 reg;
  Ret (mkCtx (vsp c) (Z.lor (transformedBits c) bit) (ctx_regs c)).

Definition IsTransformed (reg : nat) c : outcome bool :=
  bit ← shl 32 1 reg;
  Ret (negb (Z.land (transformedBits c) bit =? 0)).

(** The loop of [AddUpVsp] over the tracked registers, from index [i] on. *)
Fixpoint add_up_regs (imm : Z) (i : nat) (tracked : list nat) c : outcome ExidxContext :=
  match tracked with
  | [] => Ret c
  | reg :: tracked' =>
      t ← IsTransformed reg c;
      c ← (if (t : bool) then
             match ctx_regs c !! i with
             | None => Undef OutOfBounds
             | Some v =>
                 v' ← signed_result 32 (v + imm);
                 Ret (mkCtx (vsp c) (transformedBits c) (<[i := v']> (ctx_regs c)))
             end
           else Ret c);
      add_up_regs imm (S i) tracked' c
  end.

Definition AddUpVsp (imm : Z) c : outcome ExidxContext :=
  v ← signed_result 32 (vsp c + imm);
  add_up_regs imm 0 (GetQutRegs qut) (mkCtx v (transformedBits c) (ctx_regs c)).

(** The loop of [FlushInstr] over the tracked registers. *)
Fixpoint flush_regs (i : nat) (tracked : list nat) c (rs : RegLocState) : outcome RegLocState :=
  match tracked with
  | [] => Ret rs
  | reg :: tracked' =>
      t ← IsTransformed reg c;
      rs ← (if (t : bool) then
              match ctx_regs c !! i with
              | None => Undef OutOfBounds
              | Some v => v' ← signed_result 32 (- v); set_loc i (mkRegLoc REG_LOC_MEM_OFFSET v') rs
              end
            else Ret rs);
      flush_regs (S i) tracked' c rs
  end.

Definition FlushInstr p : outcome ExidxEntryParser :=
  let rs := ex_rs p in
  let c := context_ p in
  let rs := if cfaReg rs =? 0 then set_cfaReg REG_SP rs else rs in
  let rs := set_cfaRegOffset 0 rs in
  let rs := if negb (vsp c =? 0) then set_cfaRegOffset (vsp c) rs else rs in
  rs ← flush_regs 0 (GetQutRegs qut) c rs;
  let rs := set_raRegister (if isPcSet_ p then REG_PC else default 0%nat REG_LR) rs in
  Ret (set_context (Reset 0 c) (set_rs rs p)).

(** How the binary search ends: an unreadable entry, or an entry and the final upper bound. *)
Fixpoint ex_search_loop (fuel : nat) (pc tableData low high : Z) : outcome search_result :=
  if low <? high then
    match fuel with
    | O => OutOfFuel
    | S fuel' =>
        let cur := uptr (low + high) / 2 in
        let ptr := uptr (tableData + cur * ARM_EXIDX_TABLE_SIZE) in
        addr ← ReadPrel31 m ptr;
        match addr with
        | None => Ret (SearchFailed ptr)
        | Some addr =>
            if pc =? addr then Ret (SearchDone ptr high)
            else if pc <? addr then ex_search_loop fuel' pc tableData low cur
            else ex_search_loop fuel' pc tableData (uptr (cur + 1)) high
        end
    end
  else Ret (SearchDone 0 high).

Definition ex_SearchEntry (fuel : nat) (pc : Z) (uti : UnwindTableInfo) p
  : outcome (option UnwindEntryInfo * ExidxEntryParser) :=
  let len := tableLen uti / ARM_EXIDX_TABLE_SIZE in
  if len =? 0 then Ret (None, SetCode UNW_ERROR_NO_UNWIND_INFO p)
  else
    r ← ex_search_loop fuel pc (tableData uti) 0 len;
    match r with
    | SearchFailed ptr => Ret (None, ex_SetAddrAndCode ptr UNW_ERROR_ILLEGAL_VALUE p)
    | SearchDone entry high =>
        if negb (entry =? 0) then Ret (Some (mkUei entry UNW_INFO_FORMAT_ARM_EXIDX), p)
        else if negb (high =? 0)
        then Ret (Some (mkUei (uptr (tableData uti + (high - 1) * ARM_EXIDX_TABLE_SIZE))
                          UNW_INFO_FORMAT_ARM_EXIDX), p)
        else Ret (None, SetCode UNW_ERROR_NO_UNWIND_INFO p)
    end.

(** The bytes of a word, from the most significant. *)
Definition byte3 (data : Z) : Z := Z.land (Z.shiftr data 24) 0xff.
Definition byte2 (data : Z) : Z := Z.land (Z.shiftr data 16) 0xff.
Definition byte1 (data : Z) : Z := Z.land (Z.shiftr data 8) 0xff.
Definition byte0 (data : Z) : Z := Z.land data 0xff.

Definition push_ops (bs : list Z) p : ExidxEntryParser := set_ops (ops_ p ++ bs) p.

(** [ExtractEntryTabByPersonality]: the result, [tabOffset], [data], [tableCount]. *)
Definition ExtractEntryTabByPersonality (tabOffset data tableCount : Z) p
  : outcome (bool * Z * Z * Z * ExidxEntryParser) :=
  if Z.land data ARM_EXIDX_COMPACT =? 0 then
    perRoutine ← ReadPrel31 m tabOffset;
    match perRoutine with
    | None => Ret (false, tabOffset, data, tableCount,
                   ex_SetAddrAndCode tabOffset UNW_ERROR_INVALID_MEMORY p)
    | Some _ =>
        let tabOffset := uptr (tabOffset + FOUR_BYTE_OFFSET) in
        '(ok, data, _) ← ReadT m tabOffset data 4 false;
        if negb (ok : bool)
        then Ret (false, tabOffset, data, tableCount,
                  ex_SetAddrAndCode tabOffset UNW_ERROR_INVALID_MEMORY p)
        else
          Ret (true, uptr (tabOffset + FOUR_BYTE_OFFSET), data, byte3 data,
               push_ops [byte2 data; byte1 data; byte0 data] p)
    end
  else if negb (Z.shiftr data 28 =? 0x8)
  then Ret (false, tabOffset, data, tableCount, SetCode UNW_ERROR_INVALID_PERSONALITY p)
  else
    let personality := Z.land (Z.shiftr data 24) 0x3 in
    if 2 <? personality
    then Ret (false, tabOffset, data, tableCount, SetCode UNW_ERROR_INVALID_PERSONALITY p)
    else if personality =? 0
    then Ret (true, tabOffset, data, tableCount, push_ops [byte2 data; byte1 data; byte0 data] p)
    else Ret (true, uptr (tabOffset + FOUR_BYTE_OFFSET), data, byte2 data,
              push_ops [byte1 data; byte0 data] p).

(** The [for] of [ExtractEntryTab]: [count] more words. *)
Fixpoint extract_words (count : nat) (tabOffset data : Z) p : outcome (bool * ExidxEntryParser) :=
  match count with
  | O => Ret (true, p)
  | S count' =>
      '(ok, data, _) ← ReadT m tabOffset data 4 false;
      if negb (ok : bool) then Ret (false, p)
      else extract_words count' (uptr (tabOffset + FOUR_BYTE_OFFSET)) data
             (push_ops [byte3 data; byte2 data; byte1 data; byte0 data] p)
  end.

Definition finish_ops p : ExidxEntryParser :=
  if negb (length (ops_ p) =? 0)%nat && negb (List.last (ops_ p) 0 =? ARM_EXTBL_OP_FINISH)
  then push_ops [ARM_EXTBL_OP_FINISH] p else p.

Definition ExtractEntryTab (tabOffset : Z) p : outcome (bool * ExidxEntryParser) :=
  '(ok, data, _) ← ReadT m tabOffset 0 4 false;
  if negb (ok : bool) then Ret (false, ex_SetAddrAndCode tabOffset UNW_ERROR_INVALID_MEMORY p)
  else
    '(ok, tabOffset, data, tableCount, p) ← ExtractEntryTabByPersonality tabOffset data 0 p;
    if negb (ok : bool) then Ret (false, p)
    else if 5 <? tableCount then Ret (false, SetCode UNW_ERROR_NOT_SUPPORT p)
    else
      '(ok, p) ← extract_words (Z.to_nat tableCount) tabOffset data p;
      if negb (ok : bool) then Ret (false, p) else Ret (true, finish_ops p).

Definition ExtractEntryData (entryOffset : Z) p : outcome (bool * ExidxEntryParser) :=
  let p := set_ops [] p in
  if negb (Z.land entryOffset 1 =? 0)
  then Ret (false, ex_SetAddrAndCode entryOffset UNW_ERROR_INVALID_ALIGNMENT p)
  else
    let entryOffset := uptr (entryOffset + FOUR_BYTE_OFFSET) in
    '(ok, data, _) ← ReadT m entryOffset 0 4 false;
    if negb (ok : bool) then Ret (false, ex_SetAddrAndCode entryOffset UNW_ERROR_ILLEGAL_VALUE p)
    else if data =? ARM_EXIDX_CANT_UNWIND
    then Ret (false, ex_SetAddrAndCode entryOffset UNW_ERROR_CANT_UNWIND p)
    else if negb (Z.land data ARM_EXIDX_COMPACT =? 0) then
      if negb (Z.land (Z.shiftr data 24) 0x7f =? 0)
      then Ret (false, SetCode UNW_ERROR_INVALID_PERSONALITY p)
      else
        let p := push_ops [byte2 data; byte1 data; byte0 data] p in
        Ret (true, if negb (byte0 data =? ARM_EXTBL_OP_FINISH) then push_ops [ARM_EXTBL_OP_FINISH] p else p)
    else
      extabAddr ← ReadPrel31 m entryOffset;
      match extabAddr with
      | None => Ret (false, ex_SetAddrAndCode entryOffset UNW_ERROR_INVALID_MEMORY p)
      | Some extabAddr => ExtractEntryTab extabAddr p
      end.

(** [GetOpCode]: the next byte, if any. *)
Definition GetOpCode p : option ExidxEntryParser :=
  match ops_ p with
  | [] => None
  | op :: ops => Some (set_op op ops p)
  end.

Definition DecodeSpare p : outcome (bool * ExidxEntryParser) :=
  Ret (false, SetCode UNW_ERROR_ARM_EXIDX_SPARE p).

(** [context_.AddUpVsp(imm); return true]. *)
Definition add_vsp (imm : Z) p : outcome (bool * ExidxEntryParser) :=
  c ← AddUpVsp imm (context_ p);
  Ret (true, set_context c p).

(** [context_.Transform(reg); context_.AddUpVsp(4)]. *)
Definition pop_reg (reg : nat) p : outcome ExidxEntryParser :=
  c ← Transform reg (context_ p);
  c ← AddUpVsp FOUR_BYTE_OFFSET c;
  Ret (set_context c p).

(** With the next byte as the current one, or a stop. *)
Definition with_op (f : ExidxEntryParser → outcome (bool * ExidxEntryParser)) p
  : outcome (bool * ExidxEntryParser) :=
  match GetOpCode p with None => Ret (false, p) | Some p => f p end.

Definition Decode00xxxxxx p : outcome (bool * ExidxEntryParser) :=
  add_vsp (Z.shiftl (Z.land (curOp_ p) 0x3f) 2 + 4) p.

Definition Decode01xxxxxx p : outcome (bool * ExidxEntryParser) :=
  add_vsp (- (Z.shiftl (Z.land (curOp_ p) 0x3f) 2 + 4)) p.

(** The loop over the register mask, for the registers of [regs]. *)
Fixpoint pop_mask (registers : Z) (regs : list nat) p : outcome ExidxEntryParser :=
  match regs with
  | [] => Ret p
  | reg :: regs' =>
      p ← (if negb (Z.land registers (Z.shiftl 1 reg) =? 0) then
             pop_reg reg (if (REG_PC =? reg)%nat then set_pc_popped p else p)
           else Ret p);
      pop_mask registers regs' p
  end.

Definition Decode1000iiiiiiiiiiii p : outcome (bool * ExidxEntryParser) :=
  let registers := Z.shiftl (Z.land (curOp_ p) 0x0f) 8 in
  with_op (λ p,
    let registers := Z.lor registers (curOp_ p) in
    if registers =? 0 then Ret (false, SetCode UNW_ERROR_CANT_UNWIND p)
    else
      p ← pop_mask (u16 (Z.shiftl registers 4)) (seq 4 13) p;
      Ret (true, p)) p.

Definition Decode1001nnnn p : outcome (bool * ExidxEntryParser) :=
  let bits := Z.land (curOp_ p) 0xf in
  if (bits =? 13) || (bits =? 15) then Ret (false, SetCode UNW_ERROR_RESERVED_VALUE p)
  else if (bits =? 7) || (bits =? 11) then
    let p := if transformedBits (context_ p) =? 0 then set_context (Reset 0 (context_ p)) p else p in
    Ret (true, set_rs (set_cfaRegOffset 0 (set_cfaReg bits (ex_rs p))) p)
  else Ret (false, p).

(** [for (reg = startReg; reg <= endReg; reg++)]. *)
Fixpoint pop_regs (regs : list nat) p : outcome ExidxEntryParser :=
  match regs with
  | [] => Ret p
  | reg :: regs' => p ← pop_reg reg p; pop_regs regs' p
  end.

Definition Decode1010nnnn p : outcome (bool * ExidxEntryParser) :=
  let op := curOp_ p in
  p ← pop_regs (seq 4 (S (Z.to_nat (Z.land op 0x7)))) p;
  if negb (Z.land op 0x8 =? 0) then p ← pop_reg (default 0%nat REG_LR) p; Ret (true, p)
  else Ret (true, p).

Definition Decode10110000 p : outcome (bool * ExidxEntryParser) :=
  Ret (true, SetCode UNW_ERROR_ARM_EXIDX_FINISH p).

(** [AddUpVsp(4)] for each of the four low bits that is set. *)
Fixpoint pop_low (registers : Z) (bits : list nat) p : outcome (bool * ExidxEntryParser) :=
  match bits with
  | [] => Ret (true, p)
  | b :: bits' =>
      '(_, p) ← (if negb (Z.land registers (Z.shiftl 1 b) =? 0) then add_vsp FOUR_BYTE_OFFSET p
                 else Ret (true, p));
      pop_low registers bits' p
  end.

Definition Decode101100010000iiii p : outcome (bool * ExidxEntryParser) :=
  with_op (λ p,
    if (curOp_ p =? 0) || negb (Z.land (curOp_ p) 0xf0 =? 0) then DecodeSpare p
    else pop_low (Z.land (curOp_ p) 0x0f) (seq 0 4) p) p.

(** The [do] loop of [Decode10110010uleb128]: the operand, or nothing when the bytes run out.
    [ops] bounds the recursion: each round takes one byte. *)
Fixpoint uleb_loop (ops : list Z) (shift uleb128 : Z) : outcome (option Z * Z * list Z) :=
  match ops with
  | [] => Ret (None, 0, [])
  | op :: ops' =>
      part ← (if shift <? 32 then
                let v := Z.shiftl (Z.land op 0x7f) shift in
                if v <? 2 ^ 32 then Ret v else Undef SignedOverflow
              else Undef BadShift);
      let uleb128 := Z.lor uleb128 part in
      if negb (Z.land op 0x80 =? 0) then uleb_loop ops' (u8 (shift + 7)) uleb128
      else Ret (Some uleb128, op, ops')
  end.

Definition Decode10110010uleb128 p : outcome (bool * ExidxEntryParser) :=
  '(v, op, ops) ← uleb_loop (ops_ p) 0 0;
  match v with
  | None => Ret (false, set_op (List.last (ops_ p) (curOp_ p)) [] p)
  | Some uleb128 =>
      let offset := u32 (0x204 + u32 (Z.shiftl uleb128 2)) in
      add_vsp (s32 offset) (set_op op ops p)
  end.

Definition Decode10110011sssscccc p : outcome (bool * ExidxEntryParser) :=
  with_op (λ p, add_vsp ((Z.land (curOp_ p) 0x0f + 1) * 8 + 4) p) p.

Definition Decode101101nn p : outcome (bool * ExidxEntryParser) := DecodeSpare p.

Definition Decode10111nnn p : outcome (bool * ExidxEntryParser) :=
  add_vsp ((Z.land (curOp_ p) 0x07 + 1) * 8 + 4) p.

Definition Decode11000nnn p : outcome (bool * ExidxEntryParser) :=
  add_vsp ((Z.land (curOp_ p) 0x0f + 1) * 8) p.

Definition Decode11000110sssscccc p : outcome (bool * ExidxEntryParser) := with_op Decode11000nnn p.

Definition Decode110001110000iiii p : outcome (bool * ExidxEntryParser) :=
  with_op (λ p,
    if negb (Z.land (curOp_ p) 0xf0 =? 0) || (curOp_ p =? 0) then DecodeSpare p
    else pop_low (curOp_ p) (seq 0 4) p) p.

Definition Decode1100100nsssscccc p : outcome (bool * ExidxEntryParser) :=
  with_op (λ p, add_vsp ((Z.land (curOp_ p) 0x0f + 1) * 8) p) p.

Definition Decode11001yyy p : outcome (bool * ExidxEntryParser) := DecodeSpare p.

Definition Decode11010nnn p : outcome (bool * ExidxEntryParser) :=
  add_vsp ((Z.land (curOp_ p) 0x0f + 1) * 8) p.

Definition Decode11xxxyyy p : outcome (bool * ExidxEntryParser) := DecodeSpare p.

(** [decodeTable]: mask, result, decoder. *)
Definition decodeTable : list (Z * Z * (ExidxEntryParser → outcome (bool * ExidxEntryParser))) :=
  [ (0xc0, 0x00, Decode00xxxxxx);
    (0xc0, 0x40, Decode01xxxxxx);
    (0xf0, 0x80, Decode1000iiiiiiiiiiii);
    (0xf0, 0x90, Decode1001nnnn);
    (0xf0, 0xa0, Decode1010nnnn);
    (0xff, 0xb0, Decode10110000);
    (0xff, 0xb1, Decode101100010000iiii);
    (0xff, 0xb2, Decode10110010uleb128);
    (0xff, 0xb3, Decode10110011sssscccc);
    (0xfc, 0xb4, Decode101101nn);
    (0xf8, 0xb8, Decode10111nnn);
    (0xff, 0xc6, Decode11000110sssscccc);
    (0xff, 0xc7, Decode110001110000iiii);
    (0xfe, 0xc8, Decode1100100nsssscccc);
    (0xc8, 0xc8, Decode11001yyy);
    (0xf8, 0xc0, Decode11000nnn);
    (0xf8, 0xd0, Decode11010nnn);
    (0xc0, 0xc0, Decode11xxxyyy) ].

(** The first row that matches the current byte. *)
Fixpoint decode_row (table : list (Z * Z * (ExidxEntryParser → outcome (bool * ExidxEntryParser)))) p
  : outcome (bool * ExidxEntryParser) :=
  match table with
  | [] => Ret (false, p)
  | (mask, result, decoder) :: table' =>
      if Z.land (curOp_ p) mask =? result then decoder p else decode_row table' p
  end.

Definition ex_Decode p : outcome (bool * ExidxEntryParser) := with_op (decode_row decodeTable) p.

(** [while (Decode(...));] *)
Fixpoint decode_loop (fuel : nat) p : outcome ExidxEntryParser :=
  match fuel with
  | O => OutOfFuel
  | S fuel' =>
      '(go, p) ← ex_Decode p;
      if (go : bool) then decode_loop fuel' p else Ret p
  end.

(** One round per byte and one more to see the end. *)
Definition ex_Eval (entryOffset : Z) p : outcome (bool * ExidxEntryParser) :=
  '(ok, p) ← ExtractEntryData entryOffset p;
  if negb (ok : bool) then Ret (false, p)
  else
    p ← decode_loop (S (length (ops_ p))) (set_context (Reset 0 (context_ p)) p);
    Ret (true, p).

Definition ex_Step (fuel : nat) (pc : Z) (uti : UnwindTableInfo) (rs : RegLocState) p
  : outcome (bool * ExidxEntryParser) :=
  let p := set_rs rs p in
  '(uei, p) ← ex_SearchEntry fuel pc uti p;
  match uei with
  | None => Ret (false, p)
  | Some uei =>
      '(ok, p) ← ex_Eval (unwindInfo uei) p;
      if negb (ok : bool) then Ret (false, p)
      else p ← FlushInstr p; Ret (true, p)
  end.

(** The constructor. *)
Definition ex_new : ExidxEntryParser :=
  mkExidx (RegLocState_default qut) (Reset (GetQutRegsSize qut) (mkCtx 0 0 [])) [] 0 false (0, 0).
End Exidx.

(** ** The instructions as an abstract stack machine *)

(** The unwind instructions that are not spare or reserved. *)
Inductive exidx_instr :=
| XAdd (n : Z)
| XSub (n : Z)
| XPopMask (regmask : Z)
| XSetVsp (r : Z)
| XPopR4 (n : Z) (lr : bool)
| XFinish
| XAddUleb (v : Z)
| XPopVfpX (sc : Z)
| XPopVfp8X (n : Z)
| XPopVfp (hi : bool) (sc : Z)
| XPopVfp8 (n : Z).

Definition encode_exidx (i : exidx_instr) : list Z :=
  match i with
  | XAdd n => [n]
  | XSub n => [0x40 + n]
  | XPopMask regmask => [0x80 + regmask / 256; regmask mod 256]
  | XSetVsp r => [0x90 + r]
  | XPopR4 n lr => [0xa0 + n + if lr then 8 else 0]
  | XFinish => [0xb0]
  | XAddUleb v => 0xb2 :: [v]
  | XPopVfpX sc => [0xb3; sc]
  | XPopVfp8X n => [0xb8 + n]
  | XPopVfp hi sc => [0xc9 - (if hi then 1 else 0); sc]
  | XPopVfp8 n => [0xd0 + n]
  end.

Definition exidx_ok (i : exidx_instr) : Prop :=
  match i with
  | XAdd n | XSub n => 0 <= n < 64
  | XPopMask regmask => 0 < regmask < 4096
  | XSetVsp r => r = 7 ∨ r = 11
  | XPopR4 n _ | XPopVfp8X n | XPopVfp8 n => 0 <= n < 8
  | XFinish => True
  | XAddUleb v => 0 <= v < 128
  | XPopVfpX sc | XPopVfp _ sc => is_byte sc
  end.

(** The abstract state: the register the virtual stack pointer is based on (0: sp), its offset
    from that register, the offset of the slot of each popped register, and whether pc was
    popped. *)
Record ehabi := mkEhabi { e_base : Z; e_vsp : Z; e_saved : gmap nat Z; e_pc : bool }.

(** Offsets far from the bounds of [int32_t]. *)
Definition near (v : Z) : bool := (- 2 ^ 30 <? v) && (v <? 2 ^ 30).

Definition e_move (d : Z) (s : ehabi) : option ehabi :=
  if near (e_vsp s + d) then Some (mkEhabi (e_base s) (e_vsp s + d) (e_saved s) (e_pc s)) else None.

(** The slot is where the virtual stack pointer points; a register popped again keeps its first
    slot. *)
Definition e_save (r : nat) (s : ehabi) : ehabi :=
  mkEhabi (e_base s) (e_vsp s)
    (match e_saved s !! r with Some _ => e_saved s | None => <[r := e_vsp s]> (e_saved s) end)
    (e_pc s || (r =? 15)%nat).
Definition e_pop (r : nat) (s : ehabi) : option ehabi := e_move 4 (e_save r s).
Fixpoint e_pops (rs : list nat) (s : ehabi) : option ehabi :=
  match rs with [] => Some s | r :: rs' => e_pop r s ≫= e_pops rs' end.

Definition ehabi_step (i : exidx_instr) (s : ehabi) : option ehabi :=
  match i with
  | XAdd n => e_move (n * 4 + 4) s
  | XSub n => e_move (- (n * 4 + 4)) s
  | XPopMask regmask => e_pops (filter (λ r : nat, Z.testbit (regmask * 16) r = true) (seq 4 13)) s
  | XSetVsp r =>
      if decide (e_saved s = ∅) then Some (mkEhabi r 0 ∅ (e_pc s)) else None
  | XPopR4 n lr => e_pops (seq 4 (S (Z.to_nat n)) ++ if lr then [14%nat] else []) s
  | XFinish => Some s
  | XAddUleb v => e_move (0x204 + v * 4) s
  | XPopVfpX sc => e_move ((sc mod 16 + 1) * 8 + 4) s
  | XPopVfp8X n => e_move ((n + 1) * 8 + 4) s
  | XPopVfp _ sc => e_move ((sc mod 16 + 1) * 8) s
  | XPopVfp8 n => e_move ((n + 1) * 8) s
  end.

Fixpoint ehabi_run (prog : list exidx_instr) (s : ehabi) : option ehabi :=
  match prog with [] => Some s | i :: prog' => ehabi_step i s ≫= ehabi_run prog' end.

Section ExidxProofs.
Context (m : DfxMemory) (qut : list nat).
Hypothesis Hqut : Forall (λ r, (r < 32)%nat) (GetQutRegs qut).
Implicit Types (c : ExidxContext) (p : ExidxEntryParser) (s : ehabi).

Definition is_saved s (r : nat) : bool := bool_decide (is_Some (e_saved s !! r)).
Definition slot_distance s (r : nat) : Z :=
  match e_saved s !! r with Some o => e_vsp s - o | None => 0 end.

(** The context represents the abstract state. *)
Record repr s c : Prop := {
  repr_vsp : vsp c = e_vsp s;
  repr_near : near (e_vsp s) = true;
  repr_fits : fits 32 (transformedBits c);
  repr_bits : ∀ r, (r < 32)%nat → Z.testbit (transformedBits c) r = is_saved s r;
  repr_len : length (ctx_regs c) = GetQutRegsSize qut;
  repr_regs : ∀ i r, GetQutRegs qut !! i = Some r → ctx_regs c !! i = Some (slot_distance s r);
  repr_slots : ∀ r o, e_saved s !! r = Some o → near o = true ∧ (r < 32)%nat
}.

Lemma near_bound v : near v = true → - 2 ^ 30 < v < 2 ^ 30.
Proof. unfold near. intros H. zbool. lia. Qed.

Lemma bit_test a (n : nat) : (n < 32)%nat → 0 <= a →
  shl 32 1 n = Ret (2 ^ n) ∧ negb (Z.land a (2 ^ n) =? 0) = Z.testbit a n.
Proof.
  intros Hn Ha. split.
  - rewrite shl_Ret by lia. rewrite Z.shiftl_mul_pow2, Z.mul_1_l by lia. rewrite wrap_small; [done|].
    split; [apply Z.pow_nonneg; lia|]. apply Z.pow_lt_mono_r; lia.
  - destruct (Z.testbit a n) eqn:E.
    + apply negb_true_iff, Z.eqb_neq. intros H. apply (f_equal (λ x, Z.testbit x n)) in H.
      rewrite Z.land_spec, E, Z.pow2_bits_true, Z.bits_0 in H by lia. done.
    + apply negb_false_iff, Z.eqb_eq, Z.bits_inj'. intros i Hi.
      rewrite Z.land_spec, Z.bits_0, Z.pow2_bits_eqb by lia.
      destruct (Z.eqb_spec n i) as [<-|]; [by rewrite E|apply andb_false_r].
Qed.

Lemma IsTransformed_repr s c r : repr s c → (r < 32)%nat → IsTransformed r c = Ret (is_saved s r).
Proof.
  intros H Hr. unfold IsTransformed.
  destruct (bit_test (transformedBits c) r Hr) as [-> E]; [apply H|].
  cbn [mbind outcome_mbind]. by rewrite E, (repr_bits _ _ H).
Qed.

(** The loop of [AddUpVsp] adds to the entries of the transformed registers. *)
Lemma add_up_regs_spec imm (t : nat → bool) bits v tracked i regs :
  (∀ regs' r, r ∈ tracked → IsTransformed r (mkCtx v bits regs') = Ret (t r)) →
  (∀ j r, tracked !! j = Some r → ∃ x, regs !! (i + j)%nat = Some x ∧ (t r = true → sfits 32 (x + imm))) →
  ∃ regs', add_up_regs imm i tracked (mkCtx v bits regs) = Ret (mkCtx v bits regs') ∧
    length regs' = length regs ∧ (∀ k, (k < i)%nat → regs' !! k = regs !! k) ∧
    (∀ j r, tracked !! j = Some r →
       regs' !! (i + j)%nat = (λ x, if t r then x + imm else x) <$> regs !! (i + j)%nat).
Proof.
  revert i regs. induction tracked as [|r0 tracked IH]; intros i regs Ht Hx; cbn [add_up_regs].
  { exists regs. split; [done|]. split; [done|]. split; [done|]. intros j r Hj. by rewrite lookup_nil in Hj. }
  destruct (Hx 0%nat r0 eq_refl) as (x & Lx & Sx). rewrite Nat.add_0_r in Lx.
  rewrite Ht by left. cbn [mbind outcome_mbind].
  set (regs1 := if t r0 then <[i := x + imm]> regs else regs).
  assert (E : (if t r0 then
      match regs !! i with
      | None => Undef OutOfBounds
      | Some v' => v'' ← signed_result 32 (v' + imm); Ret (mkCtx v bits (<[i := v'']> regs))
      end else Ret (mkCtx v bits regs)) = Ret (mkCtx v bits regs1)).
  { subst regs1. destruct (t r0); [|done]. rewrite Lx, signed_result_Ret by auto. done. }
  cbn [ctx_regs vsp transformedBits]. rewrite E. cbn [mbind outcome_mbind].
  assert (Lo : ∀ k, k ≠ i → regs1 !! k = regs !! k).
  { intros k Hk. subst regs1. destruct (t r0); [by apply list_lookup_insert_ne|done]. }
  destruct (IH (S i) regs1) as (regs' & E' & Hl & Hlow & Hhigh).
  { intros regs' r Hr. apply Ht. by right. }
  { intros j r Hj. destruct (Hx (S j) r Hj) as (y & Ly & Sy).
    replace (S i + j)%nat with (i + S j)%nat by lia. exists y. rewrite Lo by lia. done. }
  exists regs'. split; [done|]. split.
  { rewrite Hl. subst regs1. destruct (t r0); [apply length_insert|done]. }
  split.
  { intros k Hk. rewrite Hlow by lia. apply Lo. lia. }
  intros [|j] r Hj; simpl in Hj.
  - injection Hj as <-. rewrite Nat.add_0_r, Hlow, Lx by lia. subst regs1.
    destruct (t r0); [|done]. apply list_lookup_insert_eq. by apply lookup_lt_Some in Lx.
  - replace (i + S j)%nat with (S i + j)%nat by lia. rewrite (Hhigh j r Hj), Lo by lia. done.
Qed.

Lemma AddUpVsp_repr s c d s' :
  repr s c → e_move d s = Some s' → ∃ c', AddUpVsp qut d c = Ret c' ∧ repr s' c'.
Proof.
  intros H Hm. unfold e_move in Hm. destruct (near (e_vsp s + d)) eqn:En; [|done]. simplify_eq.
  pose proof (near_bound _ En) as Hb. pose proof (near_bound _ (repr_near _ _ H)) as Hb0.
  unfold AddUpVsp. rewrite (repr_vsp _ _ H), signed_result_Ret by
    (unfold sfits; change (2 ^ (32 - 1)) with (2 ^ 31); lia).
  cbn [mbind outcome_mbind].
  destruct (add_up_regs_spec d (is_saved s) (transformedBits c) (e_vsp s + d) (GetQutRegs qut) 0 (ctx_regs c))
    as (regs' & E & Hl & _ & Hr).
  { intros regs' r Hr. rewrite <- (IsTransformed_repr s c r H); [done|].
    apply list_elem_of_In in Hr. rewrite Forall_forall in Hqut. by apply Hqut. }
  { intros j r Hj. exists (slot_distance s r). split; [by apply (repr_regs _ _ H)|].
    unfold is_saved, slot_distance. rewrite bool_decide_eq_true. intros [o Ho]. rewrite Ho.
    destruct (repr_slots _ _ H r o Ho) as [Hno _]. apply near_bound in Hno.
    unfold sfits. change (2 ^ (32 - 1)) with (2 ^ 31). lia. }
  rewrite E. eexists. split; [done|].
  split; cbn [vsp transformedBits ctx_regs e_vsp e_saved]; try apply H; auto.
  - by rewrite Hl, (repr_len _ _ H).
  - intros i r Hi. pose proof (Hr i r Hi) as E'. cbn [Nat.add] in E'.
    rewrite E', (repr_regs _ _ H i r Hi). simpl. f_equal.
    unfold is_saved, slot_distance. cbn [e_saved e_vsp].
    destruct (e_saved s !! r); [|done]. rewrite bool_decide_true by eauto. lia.
Qed.

Lemma Transform_repr s c r :
  repr s c → (r < 32)%nat → ∃ c', Transform r c = Ret c' ∧ repr (e_save r s) c'.
Proof.
  intros H Hr. unfold Transform. destruct (bit_test (transformedBits c) r Hr) as [-> _]; [apply H|].
  cbn [mbind outcome_mbind]. eexists. split; [done|].
  assert (Hsv : ∀ r', e_saved (e_save r s) !! r' =
    if decide (r' = r) then Some (default (e_vsp s) (e_saved s !! r)) else e_saved s !! r').
  { intros r'. unfold e_save. cbn [e_saved]. case_decide; subst.
    - destruct (e_saved s !! r) eqn:E; [by rewrite E|by rewrite lookup_insert_eq].
    - destruct (e_saved s !! r); [done|by rewrite lookup_insert_ne]. }
  split; cbn [vsp transformedBits ctx_regs]; try apply H.
  - apply fits_lor; [lia|apply H|]. split; [apply Z.pow_nonneg; lia|apply Z.pow_lt_mono_r; lia].
  - intros r' Hr'. rewrite Z.lor_spec, (repr_bits _ _ H), Z.pow2_bits_eqb by lia.
    unfold is_saved. rewrite Hsv. case_decide; subst.
    + rewrite Z.eqb_refl, orb_true_r. by rewrite bool_decide_true by eauto.
    + rewrite (proj2 (Z.eqb_neq r r')), orb_false_r by lia. done.
  - intros i r' Hi. rewrite (repr_regs _ _ H i r' Hi). unfold slot_distance. rewrite Hsv.
    cbn [e_vsp e_save]. case_decide; subst; [|done].
    destruct (e_saved s !! r); simpl; [done|]. f_equal. lia.
  - intros r' o. rewrite Hsv. case_decide; subst; [|apply (repr_slots _ _ H)].
    intros [= <-]. split; [|done]. destruct (e_saved s !! r) eqn:E; simpl; [|apply H].
    by apply (repr_slots _ _ H r).
Qed.

(** The parser represents the abstract state; the locations of the rules are untouched. *)
Definition prepr (rs0 : RegLocState) s p : Prop :=
  repr s (context_ p) ∧ cfaReg (ex_rs p) = e_base s ∧ isPcSet_ p = e_pc s ∧
  locs (ex_rs p) = locs rs0.

Lemma pop_reg_repr rs0 s p r s' :
  prepr rs0 s p → (r < 32)%nat → r ≠ 15%nat → e_pop r s = Some s' →
  ∃ p', pop_reg qut r p = Ret p' ∧ prepr rs0 s' p' ∧ ops_ p' = ops_ p.
Proof.
  intros (H & Hb & Hp & Hl) Hr Hn He. unfold pop_reg.
  destruct (Transform_repr s _ r H Hr) as (c1 & -> & H1). cbn [mbind outcome_mbind].
  change FOUR_BYTE_OFFSET with 4. destruct (AddUpVsp_repr _ _ _ _ H1 He) as (c2 & -> & H2). cbn [mbind outcome_mbind].
  eexists. split; [done|]. split; [|done].
  unfold e_pop, e_move in He. case_match; simplify_eq.
  split; [exact H2|]. split; [exact Hb|]. split; [|exact Hl]. cbn [isPcSet_ set_context e_pc e_save].
  by rewrite (proj2 (Nat.eqb_neq _ _)), orb_false_r.
Qed.

Lemma pop_pc_repr rs0 s p s' :
  prepr rs0 s p → e_pop 15 s = Some s' →
  ∃ p', pop_reg qut 15 (set_pc_popped p) = Ret p' ∧ prepr rs0 s' p' ∧ ops_ p' = ops_ p.
Proof.
  intros (H & Hb & Hp & Hl) He. unfold pop_reg. cbn [context_ set_pc_popped].
  destruct (Transform_repr s _ 15 H ltac:(lia)) as (c1 & -> & H1). cbn [mbind outcome_mbind].
  change FOUR_BYTE_OFFSET with 4. destruct (AddUpVsp_repr _ _ _ _ H1 He) as (c2 & -> & H2). cbn [mbind outcome_mbind].
  eexists. split; [done|]. split; [|done].
  unfold e_pop, e_move in He. case_match; simplify_eq.
  split; [exact H2|]. split; [exact Hb|]. split; [|exact Hl].
  cbn [isPcSet_ set_context set_pc_popped e_pc e_save]. by rewrite Nat.eqb_refl, orb_true_r.
Qed.

Lemma pop_mask_repr rs0 registers regs s p s' :
  0 <= registers → Forall (λ r, (r < 32)%nat) regs → prepr rs0 s p →
  e_pops (filter (λ r : nat, Z.testbit registers r = true) regs) s = Some s' →
  ∃ p', pop_mask qut registers regs p = Ret p' ∧ prepr rs0 s' p' ∧ ops_ p' = ops_ p.
Proof.
  intros Hr Hf. revert s p. induction Hf as [|r regs Hr32 Hf IH]; intros s p H He; cbn [pop_mask].
  { simpl in He. simplify_eq. by exists p. }
  destruct (bit_test registers r Hr32 Hr) as [_ Eb].
  rewrite Z.shiftl_mul_pow2, Z.mul_1_l, Eb by lia.
  destruct (Z.testbit registers r) eqn:Et.
  - rewrite filter_cons_True in He by done. cbn [e_pops] in He.
    apply bind_Some in He as (s1 & Es & He). destruct (Nat.eqb_spec REG_PC r) as [<-|Hne].
    + destruct (pop_pc_repr rs0 s p s1 H Es) as (p1 & E1 & H1 & O1). change REG_PC with 15%nat.
      rewrite E1. cbn [mbind outcome_mbind]. destruct (IH _ _ H1 He) as (p2 & E2 & H2 & O2).
      exists p2. split; [done|]. split; [done|congruence].
    + destruct (pop_reg_repr rs0 s p r s1 H Hr32) as (p1 & E1 & H1 & O1); [change REG_PC with 15%nat in Hne; lia|done|].
      rewrite E1. cbn [mbind outcome_mbind]. destruct (IH _ _ H1 He) as (p2 & E2 & H2 & O2).
      exists p2. split; [done|]. split; [done|congruence].
  - rewrite filter_cons_False in He by congruence. cbn [mbind outcome_mbind]. by apply (IH s).
Qed.

Lemma pop_regs_repr rs0 regs s p s' :
  Forall (λ r, (r < 15)%nat) regs → prepr rs0 s p → e_pops regs s = Some s' →
  ∃ p', pop_regs qut regs p = Ret p' ∧ prepr rs0 s' p' ∧ ops_ p' = ops_ p.
Proof.
  intros Hf. revert s p. induction Hf as [|r regs Hr Hf IH]; intros s p H He; cbn [pop_regs e_pops] in *.
  { simplify_eq. by exists p. }
  apply bind_Some in He as (s1 & Es & He).
  destruct (pop_reg_repr rs0 s p r s1 H) as (p1 & E1 & H1 & O1); [lia|lia|done|].
  rewrite E1. cbn [mbind outcome_mbind]. destruct (IH _ _ H1 He) as (p2 & E2 & H2 & O2).
  exists p2. split; [done|]. split; [done|congruence].
Qed.

Lemma e_pops_app rs1 rs2 s : e_pops (rs1 ++ rs2) s = e_pops rs1 s ≫= e_pops rs2.
Proof.
  revert s. induction rs1 as [|r rs1 IH]; intros s; [done|]. cbn [e_pops app].
  destruct (e_pop r s); [apply IH|done].
Qed.

Lemma add_vsp_repr rs0 d s p s' :
  prepr rs0 s p → e_move d s = Some s' →
  ∃ p', add_vsp qut d p = Ret (true, p') ∧ prepr rs0 s' p' ∧ ops_ p' = ops_ p.
Proof.
  intros (H & Hb & Hp & Hl) He. unfold add_vsp.
  destruct (AddUpVsp_repr _ _ _ _ H He) as (c & -> & H1). eexists. split; [done|]. split; [|done].
  unfold e_move in He. case_match; simplify_eq. done.
Qed.

(** The row of [decodeTable] that decodes a byte. *)
Definition row_masks : list (Z * Z) :=
  [(0xc0, 0x00); (0xc0, 0x40); (0xf0, 0x80); (0xf0, 0x90); (0xf0, 0xa0); (0xff, 0xb0); (0xff, 0xb1);
   (0xff, 0xb2); (0xff, 0xb3); (0xfc, 0xb4); (0xf8, 0xb8); (0xff, 0xc6); (0xff, 0xc7); (0xfe, 0xc8);
   (0xc8, 0xc8); (0xf8, 0xc0); (0xf8, 0xd0); (0xc0, 0xc0)].

Fixpoint first_row (rows : list (Z * Z)) (op : Z) : nat :=
  match rows with
  | [] => 0
  | (mask, result) :: rows' => if Z.land op mask =? result then 0 else S (first_row rows' op)
  end.

Lemma decode_row_first table p :
  decode_row table p =
    match snd <$> table !! first_row (map fst table) (curOp_ p) with
    | Some decoder => decoder p
    | None => Ret (false, p)
    end.
Proof.
  induction table as [|[[mask result] decoder] table IH]; [done|]. cbn [decode_row map fst first_row].
  destruct (Z.land (curOp_ p) mask =? result); [done|]. apply IH.
Qed.

Lemma decode_byte (k : nat) (lo hi : Z) f p :
  forallb (λ b, (first_row row_masks b =? k)%nat) (seqZ lo (hi - lo + 1)) = true →
  lo <= curOp_ p <= hi → snd <$> decodeTable qut !! k = Some f →
  decode_row (decodeTable qut) p = f p.
Proof.
  intros Hc Hop Hk. rewrite decode_row_first. rewrite forallb_forall in Hc.
  specialize (Hc (curOp_ p)). rewrite Nat.eqb_eq in Hc.
  change (map fst (decodeTable qut)) with row_masks. rewrite Hc, Hk; [done|].
  apply list_elem_of_In, elem_of_seqZ. lia.
Qed.

Lemma land_mod x k mask : mask = Z.ones k → 0 <= k → Z.land x mask = x mod 2 ^ k.
Proof. intros -> Hk. by apply Z.land_ones. Qed.

(** A byte of the program becomes the current one. *)
Lemma ex_Decode_cons p op rest :
  ops_ p = op :: rest → ex_Decode qut p = decode_row (decodeTable qut) (set_op op rest p).
Proof. intros H. unfold ex_Decode, with_op, GetOpCode. by rewrite H. Qed.

Lemma prepr_set_op rs0 s p op ops : prepr rs0 s p → prepr rs0 s (set_op op ops p).
Proof. done. Qed.

(** A decoder that only moves the virtual stack pointer. *)
Lemma decode_move rs0 s p d s' f rest :
  (∀ q, q = p → f q = add_vsp qut d q) → prepr rs0 s p → ops_ p = rest → e_move d s = Some s' →
  ∃ p', f p = Ret (true, p') ∧ prepr rs0 s' p' ∧ ops_ p' = rest.
Proof.
  intros Hf H Ho He. rewrite (Hf p eq_refl). destruct (add_vsp_repr rs0 d s p s' H He) as (p' & E & H' & O').
  exists p'. split; [done|]. split; [done|congruence].
Qed.

Lemma repr_bits_empty s c : repr s c → e_saved s = ∅ → transformedBits c = 0.
Proof.
  intros H He. apply Z.bits_inj'. intros i Hi. rewrite Z.bits_0.
  destruct (Z.lt_ge_cases i 32) as [Hlt|Hge].
  - rewrite <- (Z2Nat.id i), (repr_bits _ _ H) by lia. unfold is_saved. by rewrite He, lookup_empty.
  - apply (fits_testbit 32); [lia|apply H|done].
Qed.

Lemma Reset_repr c b pc : length (ctx_regs c) = GetQutRegsSize qut → repr (mkEhabi b 0 ∅ pc) (Reset 0 c).
Proof.
  intros Hl. split; cbn [vsp transformedBits ctx_regs Reset e_vsp e_saved Nat.eqb].
  - done.
  - done.
  - split; lia.
  - intros r _. rewrite Z.bits_0. unfold is_saved. cbn [e_saved]. by rewrite lookup_empty.
  - by rewrite length_replicate.
  - intros i r Hi. unfold slot_distance. cbn [e_saved]. rewrite lookup_empty. apply lookup_replicate_2.
    apply lookup_lt_Some in Hi. unfold GetQutRegsSize in Hl. lia.
  - intros r o H. by rewrite lookup_empty in H.
Qed.

Lemma add_vsp_op rs0 d s p s' op rest :
  prepr rs0 s p → e_move d s = Some s' →
  ∃ p', add_vsp qut d (set_op op rest p) = Ret (true, p') ∧ prepr rs0 s' p' ∧ ops_ p' = rest.
Proof. intros H He. by apply (add_vsp_repr rs0 d s (set_op op rest p)). Qed.

Ltac row k lo hi f :=
  match goal with |- context [decode_row (decodeTable qut) ?p] =>
    rewrite (decode_byte k lo hi f p); [|vm_compute; reflexivity|lia|reflexivity] end.

(** Each instruction performs its abstract step and consumes its bytes. *)
Lemma ex_Decode_step rs0 i s p s' rest :
  exidx_ok i → prepr rs0 s p → ops_ p = encode_exidx i ++ rest → ehabi_step i s = Some s' →
  ∃ p', ex_Decode qut p = Ret (true, p') ∧ prepr rs0 s' p' ∧ ops_ p' = rest.
Proof.
  intros Hok H Ho He. destruct i; cbn [exidx_ok encode_exidx app ehabi_step] in *;
    rewrite (ex_Decode_cons p _ _ Ho);
    match goal with |- context [set_op ?op ?ops p] =>
      pose proof (prepr_set_op rs0 s p op ops H) as Hq; set (q := set_op op ops p) in *;
      assert (Hop : curOp_ q = op) by done; assert (Hops : ops_ q = ops) by done;
      clearbody q; clear H Ho p; rename q into p end.
  - (* XAdd *)
    row 0%nat 0 63 (Decode00xxxxxx qut). eapply (decode_move _ _ _ (n * 4 + 4)); [|done..].
    intros ? ->. unfold Decode00xxxxxx. rewrite Hop, (land_mod _ 6), Z.mod_small by (done || lia).
    by rewrite Z.shiftl_mul_pow2 by lia.
  - (* XSub *)
    row 1%nat 64 127 (Decode01xxxxxx qut). eapply (decode_move _ _ _ (- (n * 4 + 4))); [|done..].
    intros ? ->. unfold Decode01xxxxxx. rewrite Hop, (land_mod _ 6) by (done || lia).
    replace ((64 + n) mod 2 ^ 6) with n by (apply (Z.mod_unique_pos _ _ 1); lia).
    by rewrite Z.shiftl_mul_pow2 by lia.
  - (* XPopMask *)
    pose proof (Z.div_mod regmask 256 ltac:(lia)) as Hdm. pose proof (Z.mod_pos_bound regmask 256 ltac:(lia)) as Hm.
    assert (Hd : 0 <= regmask / 256 < 16) by lia.
    row 2%nat 0x80 0x8f (Decode1000iiiiiiiiiiii qut).
    unfold Decode1000iiiiiiiiiiii, with_op, GetOpCode. rewrite Hops. cbn [curOp_ set_op].
    rewrite Hop, (land_mod _ 4) by (done || lia).
    replace ((128 + regmask / 256) mod 2 ^ 4) with (regmask / 256) by (apply (Z.mod_unique_pos _ _ 8); lia).
    rewrite Z.lor_comm, lor_disjoint by lia. change (2 ^ 8) with 256.
    replace (regmask mod 256 + 256 * (regmask / 256)) with regmask by lia.
    rewrite (proj2 (Z.eqb_neq regmask 0)) by lia. rewrite Z.shiftl_mul_pow2 by lia. change (2 ^ 4) with 16.
    rewrite (wrap_small 16) by (unfold fits; lia).
    destruct (pop_mask_repr rs0 (regmask * 16) (seq 4 13) s (set_op (regmask mod 256) rest p) s')
      as (p' & E & H' & O'); [lia|by repeat constructor; lia|done|done|].
    rewrite E. exists p'. split; [done|]. split; [done|]. by rewrite O'.
  - (* XSetVsp *)
    case_decide as Hemp; [|done]. simplify_eq.
    assert (Hr : 0 <= r < 16) by (destruct Hok; lia).
    row 3%nat 0x90 0x9f Decode1001nnnn. unfold Decode1001nnnn.
    rewrite Hop, (land_mod _ 4) by (done || lia).
    replace ((144 + r) mod 2 ^ 4) with r by (apply (Z.mod_unique_pos _ _ 9); lia).
    destruct Hq as (Hrep & Hb & Hpc & Hl).
    rewrite (repr_bits_empty s _ Hrep Hemp), Z.eqb_refl.
    assert (Hres : prepr rs0 (mkEhabi r 0 ∅ (e_pc s))
              (set_rs (set_cfaRegOffset 0 (set_cfaReg r (ex_rs p))) (set_context (Reset 0 (context_ p)) p))).
    { split; [apply Reset_repr; apply Hrep|]. done. }
    destruct Hok as [->| ->]; (eexists; split; [reflexivity|]); done.
  - (* XPopR4 *)
    assert (Hlr : 0 <= (if lr then 8 else 0) <= 8) by (destruct lr; lia).
    row 4%nat 0xa0 0xaf (Decode1010nnnn qut). unfold Decode1010nnnn.
    rewrite Hop, (land_mod _ 3 7) by (done || lia).
    replace ((160 + n + (if lr then 8 else 0)) mod 2 ^ 3) with n
      by (apply (Z.mod_unique_pos _ _ (20 + if lr then 1 else 0)); destruct lr; lia).
    rewrite e_pops_app in He. apply bind_Some in He as (s1 & E1 & E2).
    destruct (pop_regs_repr rs0 (seq 4 (S (Z.to_nat n))) s p s1) as (p1 & Ep & H1 & O1); [|done|done|].
    { apply Forall_forall. intros x Hx. apply in_seq in Hx. lia. }
    rewrite Ep. cbn [mbind outcome_mbind].
    replace (negb (Z.land (160 + n + (if lr then 8 else 0)) 8 =? 0)) with lr.
    2: { assert (Hn : n = 0 ∨ n = 1 ∨ n = 2 ∨ n = 3 ∨ n = 4 ∨ n = 5 ∨ n = 6 ∨ n = 7) by lia.
         destruct lr; repeat destruct Hn as [->|Hn]; try subst; reflexivity. }
    destruct lr; cbn [e_pops] in E2.
    + apply bind_Some in E2 as (s2 & E2 & [= <-]).
      destruct (pop_reg_repr rs0 s1 p1 14 s2 H1) as (p2 & Ep2 & H2 & O2); [lia|lia|done|].
      change (default 0%nat REG_LR) with 14%nat. rewrite Ep2. exists p2. split; [done|].
      split; [done|congruence].
    + simplify_eq. exists p1. done.
  - (* XFinish *)
    simplify_eq. row 5%nat 0xb0 0xb0 Decode10110000. eexists. split; [reflexivity|]. done.
  - (* XAddUleb *)
    row 7%nat 0xb2 0xb2 (Decode10110010uleb128 qut). unfold Decode10110010uleb128. rewrite Hops.
    cbn [uleb_loop]. rewrite (land_mod _ 7 0x7f), Z.mod_small by (done || lia).
    rewrite Z.shiftl_0_r. cbn [Z.ltb Z.compare]. rewrite (proj2 (Z.ltb_lt v (2 ^ 32))) by lia.
    cbn [mbind outcome_mbind]. rewrite land_80 by (unfold is_byte, fits; lia).
    rewrite (proj2 (Z.ltb_lt v 128)) by lia. cbn [negb]. rewrite Z.lor_0_l.
    cbn [mbind outcome_mbind]. rewrite Z.shiftl_mul_pow2 by lia. change (2 ^ 2) with 4.
    rewrite (wrap_small 32 (v * 4)), (wrap_small 32), (swrap_small 32) by
      (unfold fits, sfits; change (2 ^ (32 - 1)) with (2 ^ 31); lia).
    by apply (add_vsp_op rs0 (516 + v * 4) s p s').
  - (* XPopVfpX *)
    row 8%nat 0xb3 0xb3 (Decode10110011sssscccc qut).
    unfold Decode10110011sssscccc, with_op, GetOpCode. rewrite Hops. cbn [curOp_ set_op].
    rewrite (land_mod _ 4) by (done || lia). change (2 ^ 4) with 16.
    by apply (add_vsp_op rs0 ((sc mod 16 + 1) * 8 + 4) s p s').
  - (* XPopVfp8X *)
    row 10%nat 0xb8 0xbf (Decode10111nnn qut). eapply (decode_move _ _ _ ((n + 1) * 8 + 4)); [|done..].
    intros ? ->. unfold Decode10111nnn. rewrite Hop, (land_mod _ 3) by (done || lia).
    by replace ((184 + n) mod 2 ^ 3) with n by (apply (Z.mod_unique_pos _ _ 23); lia).
  - (* XPopVfp *)
    assert (Hhi : 0 <= (if hi then 1 else 0) <= 1) by (destruct hi; lia).
    row 13%nat 0xc8 0xc9 (Decode1100100nsssscccc qut).
    unfold Decode1100100nsssscccc, with_op, GetOpCode. rewrite Hops. cbn [curOp_ set_op].
    rewrite (land_mod _ 4) by (done || lia). change (2 ^ 4) with 16.
    by apply (add_vsp_op rs0 ((sc mod 16 + 1) * 8) s p s').
  - (* XPopVfp8 *)
    row 16%nat 0xd0 0xd7 (Decode11010nnn qut). eapply (decode_move _ _ _ ((n + 1) * 8)); [|done..].
    intros ? ->. unfold Decode11010nnn. rewrite Hop, (land_mod _ 4) by (done || lia).
    by replace ((208 + n) mod 2 ^ 4) with n by (apply (Z.mod_unique_pos _ _ 13); lia).
Qed.

Lemma decode_loop_repr rs0 prog fuel s p s' :
  Forall exidx_ok prog → prepr rs0 s p → ops_ p = concat (map encode_exidx prog) →
  ehabi_run prog s = Some s' → (length prog < fuel)%nat →
  ∃ p', decode_loop qut fuel p = Ret p' ∧ prepr rs0 s' p'.
Proof.
  intros Hok. revert fuel s p. induction Hok as [|i prog Hi Hok IH]; intros fuel s p H Ho Hr Hf;
    destruct fuel as [|fuel]; simpl in Hf; try lia; cbn [decode_loop].
  - simpl in Ho, Hr. simplify_eq. unfold ex_Decode, with_op, GetOpCode. rewrite Ho. simpl. by exists p.
  - cbn [map concat] in Ho. cbn [ehabi_run] in Hr. apply bind_Some in Hr as (s1 & E1 & Hr).
    destruct (ex_Decode_step rs0 i s p s1 _ Hi H Ho E1) as (p1 & -> & H1 & O1).
    cbn [mbind outcome_mbind]. apply (IH fuel s1 p1); [done|done|done|lia].
Qed.

(** The loop of [FlushInstr] writes the rules of the saved registers. *)
Lemma flush_regs_spec s c tracked i rs :
  repr s c → Forall (λ r, (r < 32)%nat) tracked →
  (∀ j r, tracked !! j = Some r → GetQutRegs qut !! (i + j)%nat = Some r) →
  (i + length tracked <= length (locs rs))%nat →
  ∃ rs', flush_regs i tracked c rs = Ret rs' ∧ length (locs rs') = length (locs rs) ∧
    (∃ ls, rs' = mkRegLocState (rs_pcStart rs) (rs_pcEnd rs) (cfaReg rs) (cfaUnion rs)
             (returnAddressUndefined rs) (returnAddressSame rs) (rs_returnAddressRegister rs) ls) ∧
    (∀ k, (k < i)%nat → locs rs' !! k = locs rs !! k) ∧
    (∀ j r, tracked !! j = Some r → locs rs' !! (i + j)%nat =
       match e_saved s !! r with
       | Some o => Some (mkRegLoc REG_LOC_MEM_OFFSET (o - e_vsp s))
       | None => locs rs !! (i + j)%nat
       end).
Proof.
  intros H Hf. revert i rs. induction Hf as [|r0 tracked Hr0 Hf IH]; intros i rs Hq Hl; cbn [flush_regs].
  { exists rs. split; [done|]. split; [done|]. split; [exists (locs rs); by destruct rs|]. split; [done|].
    intros j r Hj. by rewrite lookup_nil in Hj. }
  rewrite (IsTransformed_repr s c r0 H Hr0). cbn [mbind outcome_mbind].
  pose proof (Hq 0%nat r0 eq_refl) as Hq0. rewrite Nat.add_0_r in Hq0.
  rewrite (repr_regs _ _ H i r0 Hq0). simpl in Hl.
  set (l := match e_saved s !! r0 with
            | Some o => Some (mkRegLoc REG_LOC_MEM_OFFSET (o - e_vsp s)) | None => locs rs !! i end).
  assert (E : ∃ rs1, (if is_saved s r0 then
      v' ← signed_result 32 (- slot_distance s r0); set_loc i (mkRegLoc REG_LOC_MEM_OFFSET v') rs
      else Ret rs) = Ret rs1 ∧ length (locs rs1) = length (locs rs) ∧ locs rs1 !! i = l ∧
      (∀ k, k ≠ i → locs rs1 !! k = locs rs !! k) ∧
      (∃ ls, rs1 = mkRegLocState (rs_pcStart rs) (rs_pcEnd rs) (cfaReg rs) (cfaUnion rs)
             (returnAddressUndefined rs) (returnAddressSame rs) (rs_returnAddressRegister rs) ls)).
  { subst l. unfold is_saved, slot_distance. destruct (e_saved s !! r0) as [o|] eqn:Eo.
    - rewrite bool_decide_true by eauto. destruct (repr_slots _ _ H r0 o Eo) as [Hno%near_bound _].
      pose proof (near_bound _ (repr_near _ _ H)) as Hv.
      rewrite signed_result_Ret by (unfold sfits; change (2 ^ (32 - 1)) with (2 ^ 31); lia).
      cbn [mbind outcome_mbind]. unfold set_loc. rewrite (proj2 (Nat.ltb_lt _ _)) by lia.
      eexists. split; [done|]. cbn [locs]. split; [apply length_insert|].
      split; [rewrite list_lookup_insert_eq by lia; do 2 f_equal; lia|].
      split; [intros k Hk; by apply list_lookup_insert_ne|eauto].
    - rewrite bool_decide_false by (intros [? ?]; done). exists rs. split; [done|]. split; [done|].
      split; [done|]. split; [done|]. exists (locs rs). by destruct rs. }
  destruct E as (rs1 & -> & L1 & Li & Lo & (ls1 & E1)). cbn [mbind outcome_mbind].
  destruct (IH (S i) rs1) as (rs' & E' & L' & (ls' & Es') & Hlow & Hhigh).
  { intros j r Hj. replace (S i + j)%nat with (i + S j)%nat by lia. by apply Hq. }
  { lia. }
  exists rs'. split; [done|]. split; [lia|]. split; [exists ls'; by rewrite Es', E1|].
  split; [intros k Hk; rewrite Hlow by lia; apply Lo; lia|].
  intros [|j] r Hj; simpl in Hj.
  - injection Hj as <-. rewrite Nat.add_0_r, Hlow, Li by lia. done.
  - replace (i + S j)%nat with (S i + j)%nat by lia. rewrite (Hhigh j r Hj), Lo by lia. done.
Qed.

Lemma FlushInstr_spec rs0 s p :
  prepr rs0 s p → length (locs rs0) = GetQutRegsSize qut →
  ∃ p', FlushInstr qut p = Ret p' ∧ isPcSet_ p' = e_pc s ∧
    cfaReg (ex_rs p') = (if e_base s =? 0 then 13 else e_base s) ∧
    cfaRegOffset (ex_rs p') = e_vsp s ∧
    rs_returnAddressRegister (ex_rs p') = (if e_pc s then 15 else 14) ∧
    ∀ i r, GetQutRegs qut !! i = Some r →
      locs (ex_rs p') !! i =
        match e_saved s !! r with
        | Some o => Some (mkRegLoc REG_LOC_MEM_OFFSET (o - e_vsp s))
        | None => locs rs0 !! i
        end.
Proof.
  intros (H & Hb & Hpc & Hl) Hlen. unfold FlushInstr.
  set (rs1 := if negb (vsp (context_ p) =? 0) then _ else _).
  assert (E1 : cfaReg rs1 = (if e_base s =? 0 then 13 else e_base s) ∧ locs rs1 = locs rs0 ∧
               cfaRegOffset rs1 = e_vsp s).
  { subst rs1. rewrite Hb, (repr_vsp _ _ H). pose proof (near_bound _ (repr_near _ _ H)) as Hv.
    assert (Hoff : ∀ u x, - 2 ^ 30 < x < 2 ^ 30 → s32 (u - u32 u + u32 x) = x).
    { intros u x Hx. rewrite <- (swrap_small 32 x) at 2 by
        (unfold sfits; change (2 ^ (32 - 1)) with (2 ^ 31); lia).
      rewrite <- (swrap_wrap 32 (u - u32 u + u32 x)), <- (swrap_wrap 32 x). f_equal.
      unfold wrap. rewrite Zplus_mod_idemp_r, <- Zplus_mod_idemp_l, <- Zminus_mod_idemp_r.
      rewrite Z.mod_mod, Zminus_mod_idemp_r, Z.sub_diag by lia. done. }
    destruct (Z.eqb_spec (e_vsp s) 0) as [Ev|Ev]; cbn [negb]; destruct (e_base s =? 0);
      unfold cfaRegOffset, set_cfaRegOffset, set_cfaUnion, set_cfaReg; cbn [cfaReg locs cfaUnion];
      (split; [done|]); (split; [exact Hl|]); rewrite Hoff; lia. }
  destruct E1 as (Er & Els & Eo). clearbody rs1.
  destruct (flush_regs_spec s (context_ p) (GetQutRegs qut) 0 rs1 H Hqut) as (rs' & -> & _ & (ls & Es) & _ & Hi);
    [done|unfold GetQutRegsSize in Hlen; rewrite Els; lia|].
  cbn [mbind outcome_mbind]. eexists. split; [done|].
  cbn [ex_rs set_context set_rs isPcSet_ set_raRegister cfaReg rs_returnAddressRegister locs].
  split; [done|]. split; [by rewrite Es|]. split.
  { unfold cfaRegOffset. cbn [cfaUnion]. rewrite Es. exact Eo. }
  split; [rewrite Hpc; by destruct (e_pc s)|].
  intros i r Hr. pose proof (Hi i r Hr) as Hi'. cbn [Nat.add] in Hi'. by rewrite Hi', Els.
Qed.
End ExidxProofs.

Section ExidxTheorems.
Context (m : DfxMemory) (qut : list nat).

Definition encode_exidx_program (prog : list exidx_instr) : list Z := concat (map encode_exidx prog).

Lemma encode_exidx_length prog : (length prog <= length (encode_exidx_program prog))%nat.
Proof.
  induction prog as [|i prog IH]; [done|]. unfold encode_exidx_program in *. cbn [map concat length].
  rewrite length_app. destruct i; simpl; lia.
Qed.

(** C3. The exception-table decoder implements the stack machine of the unwind instructions: when
    the entry's bytes are a program of the abstract machine that stays within its bounds,
    [Eval] and [FlushInstr] succeed, the CFA is the machine's base register plus its final virtual
    stack pointer, the rule of every popped tracked register points exactly at the slot where it
    was popped from (so that CFA + rule = base + slot), the rules of the others are kept, and the
    return address register is pc if pc was popped and lr otherwise. *)
Theorem exidx_refines prog off p p1 s' :
  Forall (λ r, (r < 32)%nat) (GetQutRegs qut) →
  ExtractEntryData m off p = Ret (true, p1) → ops_ p1 = encode_exidx_program prog →
  Forall exidx_ok prog →
  length (ctx_regs (context_ p1)) = GetQutRegsSize qut → rs_wf qut (ex_rs p1) →
  ehabi_run prog (mkEhabi (cfaReg (ex_rs p1)) 0 ∅ (isPcSet_ p1)) = Some s' →
  ∃ p2 p3, ex_Eval m qut off p = Ret (true, p2) ∧ FlushInstr qut p2 = Ret p3 ∧
    cfaReg (ex_rs p3) = (if e_base s' =? 0 then 13 else e_base s') ∧
    cfaRegOffset (ex_rs p3) = e_vsp s' ∧
    rs_returnAddressRegister (ex_rs p3) = (if e_pc s' then 15 else 14) ∧
    ∀ i r, GetQutRegs qut !! i = Some r →
      locs (ex_rs p3) !! i =
        match e_saved s' !! r with
        | Some o => Some (mkRegLoc REG_LOC_MEM_OFFSET (o - e_vsp s'))
        | None => locs (ex_rs p1) !! i
        end.
Proof.
  intros Hqut Hx Hops Hok Hlen Hwf Hrun. unfold ex_Eval. rewrite Hx. cbn [mbind outcome_mbind negb].
  set (q := set_context (Reset 0 (context_ p1)) p1).
  assert (Hq : prepr qut (ex_rs p1) (mkEhabi (cfaReg (ex_rs p1)) 0 ∅ (isPcSet_ p1)) q).
  { split; [by apply Reset_repr|done]. }
  destruct (decode_loop_repr qut Hqut (ex_rs p1) prog (S (length (ops_ p1))) _ q s' Hok Hq Hops Hrun)
    as (p2 & -> & H2); [rewrite Hops; pose proof (encode_exidx_length prog); lia|].
  cbn [mbind outcome_mbind]. destruct (FlushInstr_spec qut Hqut (ex_rs p1) s' p2 H2 Hwf)
    as (p3 & E3 & _ & H3). exists p2, p3. done.
Qed.
End ExidxTheorems.

(** ** Arbitrary tables *)
Section ExidxTotal.
Context (m : DfxMemory) (qut : list nat).
Hypothesis Hqut : Forall (λ r, (r < 32)%nat) (GetQutRegs qut).
Implicit Types (c : ExidxContext) (p : ExidxEntryParser).

(** One distance and one rule per tracked register. *)
Definition ctx_ok c : Prop := length (ctx_regs c) = GetQutRegsSize qut.
Definition ex_ok p : Prop := ctx_ok (context_ p) ∧ rs_wf qut (ex_rs p).

(** The undefined behaviours that table bytes can provoke. *)
Definition ex_ub (k : ub_kind) : Prop := k = SignedOverflow ∨ k = BadShift.

(** A step keeps the parser well formed, adds no bytes and never clears [isPcSet_]. *)
Definition ex_next p p' : Prop :=
  ex_ok p' ∧ (length (ops_ p') <= length (ops_ p))%nat ∧ (isPcSet_ p = true → isPcSet_ p' = true).

Lemma ex_next_refl p : ex_ok p → ex_next p p.
Proof. done. Qed.

Lemma ex_next_trans p1 p2 p3 : ex_next p1 p2 → ex_next p2 p3 → ex_next p1 p3.
Proof. intros (? & ? & ?) (? & ? & ?). split; [done|]. split; [lia|auto]. Qed.

Lemma shl_spec r : spec ex_ub (shl 32 1 r) (λ _, True).
Proof. unfold shl. case_match; simpl; [done|by right]. Qed.

Lemma IsTransformed_spec r c : spec ex_ub (IsTransformed r c) (λ _, True).
Proof. eapply spec_bind; [apply shl_spec|done]. Qed.

Lemma Transform_spec r c : ctx_ok c → spec ex_ub (Transform r c) ctx_ok.
Proof. intros H. eapply spec_bind; [apply shl_spec|done]. Qed.

Lemma add_up_regs_ok imm i tracked c :
  ctx_ok c → (i + length tracked <= GetQutRegsSize qut)%nat → spec ex_ub (add_up_regs imm i tracked c) ctx_ok.
Proof.
  revert i c. induction tracked as [|r tracked IH]; intros i c H Hi; cbn [add_up_regs]; [done|].
  simpl in Hi. eapply spec_bind; [apply IsTransformed_spec|]. intros t _.
  eapply (spec_bind _ _ _ ctx_ok).
  - destruct t; [|done].
    destruct (lookup_lt_is_Some_2 (ctx_regs c) i) as [v ->]; [unfold ctx_ok in H; lia|].
    eapply spec_bind; [apply (spec_signed _ _ _ (λ _, True)); [by left|done]|].
    intros v' _. unfold ctx_ok. simpl. by rewrite length_insert.
  - intros c' H'. apply IH; [done|lia].
Qed.

Lemma AddUpVsp_ok imm c : ctx_ok c → spec ex_ub (AddUpVsp qut imm c) ctx_ok.
Proof.
  intros H. eapply spec_bind; [apply (spec_signed _ _ _ (λ _, True)); [by left|done]|].
  intros v _. by apply add_up_regs_ok.
Qed.

Lemma add_vsp_ok imm p : ex_ok p → spec ex_ub (add_vsp qut imm p) (λ r, ex_next p r.2).
Proof. intros [Hc Hr]. eapply spec_bind; [by apply AddUpVsp_ok|]. by intros c H. Qed.

Lemma pop_reg_ok r p : ex_ok p → spec ex_ub (pop_reg qut r p) (ex_next p).
Proof.
  intros [Hc Hr]. eapply spec_bind; [by apply Transform_spec|]. intros c1 H1.
  eapply spec_bind; [by apply AddUpVsp_ok|]. by intros c H.
Qed.

Lemma pop_mask_ok registers regs p : ex_ok p → spec ex_ub (pop_mask qut registers regs p) (ex_next p).
Proof.
  revert p. induction regs as [|r regs IH]; intros p H; cbn [pop_mask]; [done|].
  eapply (spec_bind _ _ _ (ex_next p)).
  - case_match; [|done]. case_match; [|by apply pop_reg_ok].
    eapply spec_weaken; [by apply (pop_reg_ok r (set_pc_popped p))|done|].
    intros p' Hp'. eapply ex_next_trans; [|done]. done.
  - intros p' Hp'. eapply spec_weaken; [apply IH, Hp'|done|]. intros. by eapply ex_next_trans.
Qed.

Lemma pop_regs_ok regs p : ex_ok p → spec ex_ub (pop_regs qut regs p) (ex_next p).
Proof.
  revert p. induction regs as [|r regs IH]; intros p H; cbn [pop_regs]; [done|].
  eapply spec_bind; [by apply pop_reg_ok|].
  intros p' Hp'. eapply spec_weaken; [apply IH, Hp'|done|]. intros. by eapply ex_next_trans.
Qed.

Lemma pop_low_ok registers bits p : ex_ok p → spec ex_ub (pop_low qut registers bits p) (λ r, ex_next p r.2).
Proof.
  revert p. induction bits as [|b bits IH]; intros p H; cbn [pop_low]; [done|].
  eapply (spec_bind _ _ _ (λ r, ex_next p r.2)); [case_match; [by apply add_vsp_ok|done]|].
  intros [ok p'] Hp'. eapply spec_weaken; [apply IH, Hp'|done|]. intros. by eapply ex_next_trans.
Qed.

Lemma with_op_ok f p :
  (∀ q, ex_ok q → spec ex_ub (f q) (λ r, ex_next q r.2)) → ex_ok p →
  spec ex_ub (with_op f p) (λ r, ex_next p r.2 ∧ (r.1 = true → (length (ops_ r.2) < length (ops_ p))%nat)).
Proof.
  intros Hf Hp. unfold with_op, GetOpCode. destruct (ops_ p) as [|op ops] eqn:E; [done|].
  eapply spec_weaken; [by apply (Hf (set_op op ops p))|done|].
  intros [b p'] (Ho & Hl & Hpc). cbn [ops_ set_op snd fst isPcSet_] in *.
  split; [split; [done|split; [rewrite E; simpl; lia|done]]|]. intros _. simpl. lia.
Qed.

Lemma with_op_next f p :
  (∀ q, ex_ok q → spec ex_ub (f q) (λ r, ex_next q r.2)) → ex_ok p →
  spec ex_ub (with_op f p) (λ r, ex_next p r.2).
Proof. intros Hf Hp. eapply spec_weaken; [by apply with_op_ok|done|]. by intros r []. Qed.

Lemma uleb_loop_ok ops shift v :
  0 <= shift → spec ex_ub (uleb_loop ops shift v) (λ r, (length r.2 <= length ops)%nat).
Proof.
  revert shift v. induction ops as [|op ops IH]; intros shift v Hs; cbn [uleb_loop]; [simpl; lia|].
  eapply (spec_bind _ _ _ (λ _, True)).
  - repeat case_match; simpl; try done; [by left|by right].
  - intros part _. case_match; [|simpl; lia].
    eapply spec_weaken; [apply IH, wrap_range; lia|done|]. simpl. lia.
Qed.

(** Every decoder of the table is such a step. *)
Lemma decodeTable_ok : Forall (λ row, ∀ p, ex_ok p → spec ex_ub (row.2 p) (λ r, ex_next p r.2)) (decodeTable qut).
Proof.
  unfold decodeTable. repeat apply Forall_cons_2; try apply Forall_nil_2; intros p Hp; cbn [snd].
  1,2,11,16,17: by apply add_vsp_ok.
  - apply with_op_next; [|done]. intros q Hq. cbv beta zeta. case_match; [done|].
    eapply spec_bind; [by apply pop_mask_ok|]. by intros p' Hp'.
  - unfold Decode1001nnnn. destruct Hp as [Hc Hr]. repeat case_match; try done.
    split; [|done]. split; [|done]. unfold ctx_ok in *. simpl. by rewrite length_replicate.
  - eapply spec_bind; [by apply pop_regs_ok|]. intros p' Hp'. case_match; [|done].
    eapply spec_bind; [apply pop_reg_ok, Hp'|]. intros p'' Hp''. by eapply ex_next_trans.
  - done.
  - apply with_op_next; [|done]. intros q Hq. cbv beta zeta. case_match; [done|by apply pop_low_ok].
  - unfold Decode10110010uleb128. eapply spec_bind; [by apply uleb_loop_ok|].
    intros [[[v|] op] ops] Hl; simpl in Hl.
    + eapply spec_weaken; [by apply (add_vsp_ok _ (set_op op ops p))|done|].
      intros r (H1 & H2 & H3). split; [done|]. cbn [ops_ set_op] in H2. split; [lia|done].
    + split; [done|]. split; [simpl; lia|done].
  - apply with_op_next; [|done]. intros q Hq. by apply add_vsp_ok.
  - done.
  - apply with_op_next; [|done]. intros q Hq. by apply add_vsp_ok.
  - apply with_op_next; [|done]. intros q Hq. cbv beta zeta. case_match; [done|by apply pop_low_ok].
  - apply with_op_next; [|done]. intros q Hq. by apply add_vsp_ok.
  - done.
  - done.
Qed.

Lemma decode_row_ok table p :
  Forall (λ row, ∀ p, ex_ok p → spec ex_ub (row.2 p) (λ r, ex_next p r.2)) table → ex_ok p →
  spec ex_ub (decode_row table p) (λ r, ex_next p r.2).
Proof.
  induction 1 as [|[[msk res] f] table Hf Ht IH]; intros Hp; cbn [decode_row]; [done|].
  case_match; [by apply Hf|by apply IH].
Qed.

Lemma decode_loop_ok (fuel : nat) p :
  ex_ok p → (length (ops_ p) < fuel)%nat → spec ex_ub (decode_loop qut fuel p) (ex_next p).
Proof.
  revert p. induction fuel as [|fuel IH]; intros p Hp Hf; [lia|]. cbn [decode_loop].
  eapply spec_bind; [apply with_op_ok; [|done]; intros q Hq; by apply decode_row_ok; [apply decodeTable_ok|]|].
  intros [[] p'] [Hn Hlt]; simpl in *; [|done]. specialize (Hlt eq_refl).
  eapply spec_weaken; [apply IH; [apply Hn|lia]|done|]. intros. by eapply ex_next_trans.
Qed.

Lemma flush_regs_ok i tracked c rs :
  ctx_ok c → rs_wf qut rs → (i + length tracked <= GetQutRegsSize qut)%nat →
  spec ex_ub (flush_regs i tracked c rs) (rs_wf qut).
Proof.
  intros Hc. revert i rs. induction tracked as [|r tracked IH]; intros i rs Hr Hi; cbn [flush_regs]; [done|].
  simpl in Hi. eapply spec_bind; [apply IsTransformed_spec|]. intros t _.
  eapply (spec_bind _ _ _ (rs_wf qut)).
  - destruct t; [|done].
    destruct (lookup_lt_is_Some_2 (ctx_regs c) i) as [v ->]; [unfold ctx_ok in Hc; lia|].
    eapply spec_bind; [apply (spec_signed _ _ _ (λ _, True)); [by left|done]|]. intros v' _.
    unfold set_loc. rewrite (proj2 (Nat.ltb_lt _ _)) by (unfold rs_wf in Hr; lia).
    unfold rs_wf. simpl. by rewrite length_insert.
  - intros rs' H'. apply IH; [done|lia].
Qed.

Lemma FlushInstr_ok p :
  ex_ok p → spec ex_ub (FlushInstr qut p) (λ p', ex_next p p' ∧
    rs_returnAddressRegister (ex_rs p') = if isPcSet_ p then 15 else 14).
Proof.
  intros [Hc Hr]. unfold FlushInstr.
  eapply spec_bind; [apply flush_regs_ok; [done| |by unfold GetQutRegsSize]|].
  - repeat case_match; done.
  - intros rs H. split.
    + split; [|done]. split; [|done]. unfold ctx_ok in *. simpl. by rewrite length_replicate.
    + by destruct (isPcSet_ p).
Qed.
End ExidxTotal.

Section ExidxSafety.
Context (m : DfxMemory) (qut : list nat).
Implicit Types p : ExidxEntryParser.

Lemma ReadPrel31_total ptr : alignAddr_ m = false → spec (λ _, False) (ReadPrel31 m ptr) (λ _, True).
Proof.
  intros Hal. unfold ReadPrel31, ReadU. pose proof (ReadT_total m Hal ptr 0 psize false) as H.
  unfold ReadT in H. destruct (Read m ptr psize false) as [[bs a]| |]; simpl in *; try done.
  by case_match.
Qed.

(** What [ExtractEntryData] leaves: at most 24 bytes, the rest of the parser unchanged. *)
Definition extracted p p' : Prop :=
  context_ p' = context_ p ∧ ex_rs p' = ex_rs p ∧ isPcSet_ p' = isPcSet_ p ∧ (length (ops_ p') <= 24)%nat.

Lemma extract_words_spec (count : nat) off data p n :
  alignAddr_ m = false → (length (ops_ p) <= n)%nat →
  spec (λ _, False) (extract_words m count off data p) (λ r,
    context_ r.2 = context_ p ∧ ex_rs r.2 = ex_rs p ∧ isPcSet_ r.2 = isPcSet_ p ∧
    (length (ops_ r.2) <= n + 4 * count)%nat).
Proof.
  intros Hal. revert off data p n. induction count as [|count IH]; intros off data p n Hn; cbn [extract_words].
  { split; [done|]. split; [done|]. split; [done|]. simpl. lia. }
  eapply spec_bind; [by apply ReadT_total|]. intros [[ok v] a] _. case_match.
  { split; [done|]. split; [done|]. split; [done|]. simpl. lia. }
  eapply spec_weaken; [apply (IH _ _ _ (n + 4)%nat)|done|].
  - cbn [ops_ push_ops set_ops]. rewrite length_app. simpl. lia.
  - intros r (? & ? & ? & ?). split; [done|]. split; [done|]. split; [done|]. lia.
Qed.

Lemma personality_spec off data n p :
  alignAddr_ m = false → ops_ p = [] →
  spec (λ _, False) (ExtractEntryTabByPersonality m off data n p) (λ r, let '(ok, _, _, _, p') := r in
    context_ p' = context_ p ∧ ex_rs p' = ex_rs p ∧ isPcSet_ p' = isPcSet_ p ∧ (length (ops_ p') <= 3)%nat).
Proof.
  intros Hal Ho. unfold ExtractEntryTabByPersonality.
  assert (Hfin : ∀ q bs, (length bs <= 3)%nat → context_ q = context_ p → ex_rs q = ex_rs p →
    isPcSet_ q = isPcSet_ p → ops_ q = [] → context_ (push_ops bs q) = context_ p ∧
    ex_rs (push_ops bs q) = ex_rs p ∧ isPcSet_ (push_ops bs q) = isPcSet_ p ∧
    (length (ops_ (push_ops bs q)) <= 3)%nat).
  { intros q bs Hb Hc Hr Hp Hq. cbn [context_ ex_rs isPcSet_ ops_ push_ops set_ops]. by rewrite Hq. }
  assert (Hnil : (length (ops_ p) <= 3)%nat) by (rewrite Ho; simpl; lia).
  case_match.
  - eapply spec_bind; [by apply ReadPrel31_total|]. intros [?|] _; [|done].
    eapply spec_bind; [by apply ReadT_total|]. intros [[ok v] a] _. case_match; [done|].
    apply Hfin; simpl; (done || lia).
  - repeat case_match; try done; apply Hfin; simpl; (done || lia).
Qed.

Lemma ExtractEntryData_spec off p :
  alignAddr_ m = false → spec (λ _, False) (ExtractEntryData m off p) (λ r, extracted p r.2).
Proof.
  intros Hal. unfold ExtractEntryData, extracted.
  assert (H0 : (length (ops_ (set_ops [] p)) <= 24)%nat) by (simpl; lia).
  case_match; [done|]. eapply spec_bind; [by apply ReadT_total|]. intros [[ok data] a] _.
  case_match; [done|]. case_match; [done|]. case_match.
  { repeat case_match; simpl; repeat (split; [done|]); lia. }
  eapply spec_bind; [by apply ReadPrel31_total|]. intros [tab|] _; [|done].
  unfold ExtractEntryTab. eapply spec_bind; [by apply ReadT_total|]. intros [[ok' data'] a'] _.
  case_match; [done|]. eapply spec_bind; [by apply personality_spec|].
  intros [[[[ok2 off2] data2] n2] p2] (E1 & E2 & E3 & E4). cbn [context_ ex_rs isPcSet_ set_ops] in *.
  case_match; [simpl; repeat (split; [done|]); lia|].
  case_match; [simpl; repeat (split; [done|]); lia|]. zbool.
  eapply spec_bind; [by apply (extract_words_spec _ _ _ _ 3)|].
  intros [ok3 p3] (F1 & F2 & F3 & F4). cbn [snd] in *.
  case_match; simpl; [repeat (split; [congruence|]); lia|].
  unfold finish_ops. case_match; cbn [context_ ex_rs isPcSet_ ops_ push_ops set_ops];
    repeat (split; [congruence|]); rewrite ?length_app; simpl; lia.
Qed.

(** [Eval] followed by [FlushInstr], as [Step] runs them on the entry it has found. *)
Definition eval_flush off p : outcome (bool * ExidxEntryParser) :=
  '(ok, p) ← ex_Eval m qut off p;
  if negb (ok : bool) then Ret (false, p) else p ← FlushInstr qut p; Ret (true, p).

(** Arbitrary exception tables: whatever bytes the entry and its table hold, decoding comes to
    an end within one round per extracted byte, never indexes the per-register tables out of
    bounds and leaves them with one entry per tracked register.  [isPcSet_], once set, is never
    cleared: with it set, every later frame decoded by the same parser is given pc as its
    return address register, whether or not it popped pc. *)
Theorem exidx_total off p :
  alignAddr_ m = false → Forall (λ r, (r < 32)%nat) (GetQutRegs qut) → ex_ok qut p →
  spec ex_ub (eval_flush off p) (λ r, ex_ok qut r.2 ∧
    (isPcSet_ p = true → isPcSet_ r.2 = true ∧
       (r.1 = true → rs_returnAddressRegister (ex_rs r.2) = 15))).
Proof.
  intros Hal Hqut [Hc Hr]. unfold eval_flush, ex_Eval.
  pose proof (ExtractEntryData_spec off p Hal) as Hx.
  destruct (ExtractEntryData m off p) as [[ok p1]|k|]; simpl in Hx; try done.
  destruct Hx as (E1 & E2 & E3 & _).
  cbn [mbind outcome_mbind]. destruct ok; cbn [negb mbind outcome_mbind].
  2: { unfold ex_ok. cbn [spec fst snd]. rewrite E1, E2, E3. done. }
  set (q := set_context (Reset 0 (context_ p1)) p1).
  assert (Hq : ex_ok qut q).
  { split; unfold ctx_ok; cbn [context_ set_context ctx_regs Reset q ex_rs]; [|by rewrite E2].
    rewrite length_replicate, E1. exact Hc. }
  pose proof (decode_loop_ok qut (S (length (ops_ p1))) q Hq ltac:(simpl; lia)) as Hd.
  destruct (decode_loop qut (S (length (ops_ p1))) q) as [p2|k|]; simpl in Hd; try done.
  cbn [mbind outcome_mbind negb]. destruct Hd as (H2 & _ & Hpc2).
  pose proof (FlushInstr_ok qut p2 H2) as Hf.
  destruct (FlushInstr qut p2) as [p3|k|]; simpl in Hf; try done.
  destruct Hf as [(H3 & _ & Hpc3) Hra]. cbn [mbind outcome_mbind spec fst snd].
  split; [done|]. intros Hp. assert (Hp2 : isPcSet_ p2 = true) by (apply Hpc2; simpl; congruence).
  split; [auto|]. intros _. by rewrite Hra, Hp2.
Qed.

(** "Refuse to unwind" does not stop the unwinder: for the instruction 10000000 00000000 the
    decoder records [UNW_ERROR_CANT_UNWIND], but [Eval] still reports success and [FlushInstr]
    still produces rules. *)
Theorem exidx_refuse_succeeds off p p1 rest :
  ExtractEntryData m off p = Ret (true, p1) → ops_ p1 = [0x80; 0x00] ++ rest →
  ∃ p2, ex_Eval m qut off p = Ret (true, p2) ∧ snd (ex_error p2) = UNW_ERROR_CANT_UNWIND.
Proof.
  intros Hx Ho. unfold ex_Eval. rewrite Hx. cbn [mbind outcome_mbind negb]. rewrite Ho.
  cbn [app length decode_loop]. unfold ex_Decode, with_op, GetOpCode.
  cbn [ops_ set_context]. rewrite Ho. cbn [app].
  rewrite (decode_byte qut 2 0x80 0x8f (Decode1000iiiiiiiiiiii qut)) by
    (first [reflexivity | cbn [curOp_ set_op]; lia]).
  unfold Decode1000iiiiiiiiiiii, with_op, GetOpCode. cbn. eexists. split; [reflexivity|]. done.
Qed.
End ExidxSafety.

(** An inline entry: pop r4 to r11 and lr, then finish. *)
Definition example_exidx : DfxMemory :=
  list_mem (A := Arm) 4096 (le_bytes 4 0 ++ le_bytes 4 0x8000afb0 ++ le_bytes 4 0 ++ le_bytes 4 0x808000b0).

Lemma exidx_refines_witness :
  ∃ p2 p3, ex_Eval example_exidx [] 4096 (ex_new []) = Ret (true, p2) ∧ FlushInstr [] p2 = Ret p3 ∧
    cfaReg (ex_rs p3) = 13 ∧ cfaRegOffset (ex_rs p3) = 40 ∧
    rs_returnAddressRegister (ex_rs p3) = 14 ∧
    locs (ex_rs p3) !! 1%nat = Some (mkRegLoc REG_LOC_MEM_OFFSET (-8)) ∧
    locs (ex_rs p3) !! 4%nat = Some (mkRegLoc REG_LOC_MEM_OFFSET (-4)).
Proof.
  destruct (exidx_refines example_exidx [] [XAdd 0; XPopR4 7 true; XFinish] 4096 (ex_new [])
              (set_ops [0x00; 0xaf; 0xb0] (ex_new []))
              (mkEhabi 0 40 (list_to_map [(4%nat, 4); (5%nat, 8); (6%nat, 12); (7%nat, 16); (8%nat, 20);
                                (9%nat, 24); (10%nat, 28); (11%nat, 32); (14%nat, 36)]) false))
    as (p2 & p3 & E2 & E3 & Hr & Ho & Hra & Hl).
  - repeat constructor; lia.
  - by vm_compute.
  - reflexivity.
  - repeat constructor; simpl; lia.
  - reflexivity.
  - reflexivity.
  - vm_compute. reflexivity.
  - exists p2, p3. split; [exact E2|]. split; [exact E3|]. split; [exact Hr|]. split; [exact Ho|].
    split; [exact Hra|]. split; [rewrite (Hl 1%nat 11%nat eq_refl)|rewrite (Hl 4%nat 14%nat eq_refl)];
    by vm_compute.
Defined.

Lemma exidx_total_witness :
  spec ex_ub (eval_flush example_exidx [] 4096 (ex_new [])) (λ r, ex_ok [] r.2 ∧
    (isPcSet_ (ex_new []) = true → isPcSet_ r.2 = true ∧
       (r.1 = true → rs_returnAddressRegister (ex_rs r.2) = 15))).
Proof.
  apply (exidx_total example_exidx [] 4096 (ex_new [])); [reflexivity|repeat constructor; lia|].
  split; reflexivity.
Defined.

Lemma exidx_refuse_succeeds_witness :
  ∃ p2, ex_Eval example_exidx [] 4104 (ex_new []) = Ret (true, p2) ∧
    snd (ex_error p2) = UNW_ERROR_CANT_UNWIND.
Proof.
  apply (exidx_refuse_succeeds example_exidx [] 4104 (ex_new []) (set_ops [0x80; 0x00; 0xb0] (ex_new []))
           [0xb0]); [by vm_compute|reflexivity].
Defined.
