(* ===== verification/Text.v ===== *)
(** * Text

    The strings of the program (common/dfxutil/string_util.h, dfx_util.cpp): a buffer or a
    [std::string] is a list of characters.  Numbers in text, as the C library and the kernel print
    them, are here too. *)
From Stdlib Require Export Ascii.
From S2P Require Import Prelude.

Definition lit (s : string) : list ascii := String.list_ascii_of_string s.
Definition code (c : ascii) : Z := Z.of_N (N_of_ascii c).
Definition chr (z : Z) : ascii := ascii_of_N (Z.to_N z).
Definition NUL : ascii := chr 0.

Lemma code_chr z : fits 8 z → code (chr z) = z.
Proof.
  intros [H1 H2]. unfold code, chr. rewrite N_ascii_embedding by (change (2 ^ 8) with 256 in H2; lia). lia.
Qed.

Lemma chr_code c : chr (code c) = c.
Proof. unfold code, chr. rewrite N2Z.id. apply ascii_N_embedding. Qed.

Lemma code_fits c : fits 8 (code c).
Proof. unfold fits, code. change (2 ^ 8) with 256. pose proof (N_ascii_bounded c). lia. Qed.

Lemma code_inj c c' : code c = code c' → c = c'.
Proof. intros E. rewrite <- (chr_code c), <- (chr_code c'). by f_equal. Qed.

(** [isspace] of the C locale. *)
Definition isspace (c : ascii) : bool := ((9 <=? code c) && (code c <=? 13)) || (code c =? 32).

(** ** string_util.h *)
Definition StartsWith (s prefix : list ascii) : bool := bool_decide (take (length prefix) s = prefix).
Definition EndsWith (s suffix : list ascii) : bool :=
  (length suffix <=? length s)%nat && bool_decide (drop (length s - length suffix) s = suffix).

(** [std::string::find]: the position of the first occurrence. *)
Fixpoint find_sub (sub s : list ascii) : option nat :=
  if StartsWith s sub then Some O
  else match s with [] => None | _ :: s' => S <$> find_sub sub s' end.
Definition contains (s sub : list ascii) : bool := bool_decide (is_Some (find_sub sub s)).

(** [Trim]: blanks at both ends; a string of blanks only becomes empty. *)
Definition is_blank (c : ascii) : bool := existsb (Ascii.eqb c) [chr 12; chr 11; chr 13; chr 9; chr 10; " "%char].
Fixpoint drop_while (f : ascii → bool) (s : list ascii) : list ascii :=
  match s with c :: s' => if f c then drop_while f s' else s | [] => [] end.
Definition Trim (s : list ascii) : list ascii := reverse (drop_while is_blank (reverse (drop_while is_blank s))).

(** [strnlen] and the bytes before it. *)
Fixpoint c_str (s : list ascii) : list ascii :=
  match s with c :: s' => if Ascii.eqb c NUL then [] else c :: c_str s' | [] => [] end.

(** [TrimAndDupStr(buff, buffSize, str, maxLength)]: the result, or [None] when it fails and leaves
    [str] alone. *)
Definition TrimAndDupStr (buff : list ascii) (maxLength : nat) : option (list ascii) :=
  let rest := drop_while isspace buff in
  let valid := c_str rest in
  match valid with
  | [] => None
  | _ => Some (take maxLength (reverse (drop_while isspace (reverse valid))))
  end.

(** ** Numbers *)
Fixpoint to_digits (fuel : nat) (b n : Z) : list Z :=
  match fuel with
  | O => []
  | S fuel' => if n <? b then [n] else to_digits fuel' b (n / b) ++ [n mod b]
  end.
Definition of_digits (b : Z) (ds : list Z) : Z := fold_left (λ acc d, acc * b + d) ds 0.

Definition digit_char (d : Z) : ascii := if d <? 10 then chr (48 + d) else chr (97 + (d - 10)).

(** [%lu] and [%0<width>lx] of a 64-bit value, [std::to_string]. *)
Definition print_dec (n : Z) : list ascii := map digit_char (to_digits 20 10 n).
Definition print_hex (width : nat) (n : Z) : list ascii :=
  let ds := to_digits 16 16 n in map digit_char (replicate (width - length ds) 0 ++ ds).

Lemma of_digits_app b ds ds' : of_digits b (ds ++ ds') = fold_left (λ acc d, acc * b + d) ds' (of_digits b ds).
Proof. unfold of_digits. apply fold_left_app. Qed.

Lemma of_to_digits (fuel : nat) b n : 1 < b → 0 <= n < b ^ fuel → of_digits b (to_digits fuel b n) = n.
Proof.
  intros Hb. revert n. induction fuel as [|fuel IH]; intros n Hn.
  - change (b ^ 0%nat) with 1 in Hn. cbn. lia.
  - cbn [to_digits]. zcase; [done|]. rewrite of_digits_app, IH.
    + cbn. pose proof (Z.div_mod n b). lia.
    + split; [apply Z.div_pos; lia|]. apply Z.div_lt_upper_bound; [lia|]. rewrite Nat2Z.inj_succ, Z.pow_succ_r in Hn by lia. lia.
Qed.

Lemma to_digits_range fuel b n : 1 < b → 0 <= n → Forall (λ d, 0 <= d < b) (to_digits fuel b n).
Proof.
  intros Hb. revert n. induction fuel as [|fuel IH]; intros n Hn; [constructor|]. cbn [to_digits]. zcase.
  - by repeat constructor.
  - apply list.Forall_app. split; [apply IH, Z.div_pos; lia|]. constructor; [|constructor]. apply Z.mod_pos_bound. lia.
Qed.

Lemma to_digits_nonempty fuel b n : to_digits (S fuel) b n ≠ [].
Proof. cbn [to_digits]. zcase; [done|]. by destruct (to_digits fuel b (n / b)). Qed.

Lemma of_digits_zeros b k ds : of_digits b (replicate k 0 ++ ds) = of_digits b ds.
Proof.
  rewrite of_digits_app. unfold of_digits at 2. f_equal. induction k as [|k IH]; [done|].
  rewrite replicate_S_end. unfold of_digits. rewrite fold_left_app. fold (of_digits b (replicate k 0)). rewrite IH. cbn. lia.
Qed.

Lemma length_to_digits fuel b n : (length (to_digits fuel b n) <= fuel)%nat.
Proof.
  revert n. induction fuel as [|fuel IH]; intros n; [done|]. cbn [to_digits]. zcase; [cbn; lia|].
  rewrite length_app. specialize (IH (n / b)). cbn. lia.
Qed.

(** ** Properties of the string functions *)
Lemma StartsWith_app p s : StartsWith (p ++ s) p = true.
Proof. unfold StartsWith. by rewrite bool_decide_true; [|rewrite take_app_length]. Qed.

Lemma StartsWith_true s p : StartsWith s p = true ↔ ∃ s', s = p ++ s'.
Proof.
  split; [|intros [s' ->]; apply StartsWith_app]. unfold StartsWith. rewrite bool_decide_eq_true. intros E.
  exists (drop (length p) s). rewrite <- E at 1. by rewrite take_drop.
Qed.

Lemma EndsWith_app p s : EndsWith (s ++ p) p = true.
Proof.
  unfold EndsWith. rewrite length_app, andb_true_iff, Nat.leb_le, bool_decide_eq_true. split; [lia|].
  replace (length s + length p - length p)%nat with (length s) by lia. apply drop_app_length.
Qed.

Lemma drop_while_spec f s : ∃ s1, s = s1 ++ drop_while f s ∧ Forall (λ c, f c = true) s1.
Proof.
  induction s as [|c s (s1 & E & H)]; [by exists []|]. cbn [drop_while]. destruct (f c) eqn:Ec; [|by exists []].
  exists (c :: s1). split; [by rewrite E at 1|by constructor].
Qed.

Lemma drop_while_app f s s' : Forall (λ c, f c = true) s → drop_while f (s ++ s') = drop_while f s'.
Proof. induction 1 as [|c s Hc _ IH]; [done|]. cbn. by rewrite Hc. Qed.

Lemma drop_while_stop f s c s' : s = c :: s' → f c = false → drop_while f s = s.
Proof. intros -> H. cbn. by rewrite H. Qed.

Lemma c_str_app s s' : NUL ∉ s → c_str (s ++ NUL :: s') = s.
Proof.
  induction s as [|c s IH]; intros H; [done|]. cbn [app c_str]. apply not_elem_of_cons in H as [H1 H2].
  rewrite (proj2 (Ascii.eqb_neq c NUL)) by done. by rewrite IH.
Qed.

Lemma c_str_id s : NUL ∉ s → c_str s = s.
Proof.
  induction s as [|c s IH]; intros H; [done|]. cbn [app c_str]. apply not_elem_of_cons in H as [H1 H2].
  rewrite (proj2 (Ascii.eqb_neq c NUL)) by done. by rewrite IH.
Qed.
