(* ===== verification/Maps.v ===== *)
(** * Memory maps

    [DfxMap] and [DfxMaps] (unwinder/src/maps/dfx_map.cpp, dfx_maps.cpp): the parser of
    /proc/<pid>/maps, the selection of the mappings that are kept, and the lookup by address.

    Maps are shared ([shared_ptr]): a map refers to the one on the line before it ([prevMap]), which
    need not be among those kept, and a lookup may set [prevMap] in a map that others hold.  So the
    maps live in a store, and the vector and [prevMap] hold their addresses.  Files, the process id
    and the prefix of the arkweb package (a system parameter) are arguments.  The ELF file of a map
    ([GetElf]) is not modelled; [GetRelPc] takes what it would say as an argument. *)
From stdpp Require Import sorting.
From S2P Require Import Prelude Text.

Definition PROT_READ : Z := 1.
Definition PROT_WRITE : Z := 2.
Definition PROT_EXEC : Z := 4.
Definition MAP_SHARED : Z := 1.
Definition MAP_PRIVATE : Z := 2.
Definition PATH_LEN : nat := 512.
Definition maxDfxMapSize : nat := 4096.
Definition maxMapsNameLen : nat := 256.
Definition ADLT_PATH_NAME_START : list ascii := lit "/system/lib/libadlt".
Definition SANDBOX_FILE_PATH_PREFIX : list ascii := lit "/data/storage/".
Definition MAP_ARKWEB_CORE_PREFIX : list ascii := lit "/data/storage/el1/bundle/arkwebcore/".
Definition SANDBOX_PATH_PREFIX : list ascii := lit "/data/storage/el1/bundle/".
Definition BUNDLE_PATH_PREFIX : list ascii := lit "/data/app/el1/bundle/public/".
Definition StaticArkLibName : list ascii := lit "libarkinterpreter.so".

Record DfxMap := mkMap {
  m_begin : Z;
  m_end : Z;
  m_offset : Z;
  prots : Z;
  flag : Z;
  m_major : Z;
  m_minor : Z;
  inode : Z;
  perms : list ascii;
  m_name : list ascii;
  prevMap : option nat;
  adltLoadBase : Z
}.
Definition DfxMap_default : DfxMap := mkMap 0 0 0 0 0 0 0 0 [] [] None (2 ^ 64 - 1).

#[export] Instance DfxMap_eq_dec : EqDecision DfxMap.
Proof. solve_decision. Defined.

(** ** The scanner

    A position in the buffer is the rest of the buffer from there. *)
Definition is_ws (c : ascii) : bool := Ascii.eqb c " " || Ascii.eqb c (chr 9).

Fixpoint SkipWhiteSpace (buff : list ascii) : bool * list ascii :=
  match buff with
  | [] => (false, [])
  | c :: rest => if is_ws c then SkipWhiteSpace rest else (true, buff)
  end.

Definition hex_digit (c : ascii) : option Z :=
  let d := code c in
  if (48 <=? d) && (d <=? 57) then Some (d - 48)
  else if (97 <=? d) && (d <=? 102) then Some (d - (97 - 10))
  else if (65 <=? d) && (d <=? 70) then Some (d - (65 - 10))
  else None.
Definition dec_digit (c : ascii) : option Z :=
  let d := code c in if (48 <=? d) && (d <=? 57) then Some (d - 48) else None.

Fixpoint hex_loop (valp : Z) (buff : list ascii) : Z * list ascii :=
  match buff with
  | [] => (valp, [])
  | c :: rest =>
      match hex_digit c with
      | Some digit => hex_loop (Z.lor (u64 (Z.shiftl valp 4)) digit) rest
      | None => (valp, buff)
      end
  end.
Fixpoint dec_loop (valp : Z) (buff : list ascii) : Z * list ascii :=
  match buff with
  | [] => (valp, [])
  | c :: rest =>
      match dec_digit c with
      | Some digit => dec_loop (u64 (u64 (valp * 10) + digit)) rest
      | None => (valp, buff)
      end
  end.

(** The number and the position after it; what [ScanHex] returns is not used by its callers. *)
Definition ScanHex (valp : Z) (buff : list ascii) : Z * list ascii :=
  let '(ok, buff) := SkipWhiteSpace buff in
  if ok then hex_loop 0 buff else (valp, buff).
Definition ScanDec (valp : Z) (buff : list ascii) : Z * list ascii :=
  let '(ok, buff) := SkipWhiteSpace buff in
  if ok then dec_loop 0 buff else (valp, buff).

Definition ScanChar (valp : ascii) (buff : list ascii) : ascii * list ascii :=
  let '(ok, buff) := SkipWhiteSpace buff in
  match ok, buff with
  | true, c :: rest => (c, if Ascii.eqb c NUL then buff else rest)
  | _, _ => (valp, buff)
  end.

Fixpoint string_loop (buff : list ascii) : list ascii * list ascii :=
  match buff with
  | c :: rest =>
      if is_ws c || Ascii.eqb c NUL then ([], buff)
      else let '(s, rest) := string_loop rest in (c :: s, rest)
  | [] => ([], [])
  end.
Definition ScanString (valp : list ascii) (buff : list ascii) : list ascii * list ascii :=
  let '(ok, buff) := SkipWhiteSpace buff in
  if ok then
    let '(s, rest) := string_loop buff in
    (match s with [] => valp | _ => s end, rest)
  else (valp, buff).

(** [PermsToProtsAndFlag] ors into [prots]; a failure keeps the bits set so far. *)
Definition PermsToProtsAndFlag (permChs : list ascii) (prots flag : Z) : bool * Z * Z :=
  match permChs with
  | r :: w :: x :: p :: _ =>
      let bit (c yes : ascii) (v prots : Z) : option Z :=
        if Ascii.eqb c yes then Some (Z.lor prots v) else if Ascii.eqb c "-" then Some prots else None in
      match bit r "r"%char PROT_READ prots with
      | None => (false, prots, flag)
      | Some prots =>
          match bit w "w"%char PROT_WRITE prots with
          | None => (false, prots, flag)
          | Some prots =>
              match bit x "x"%char PROT_EXEC prots with
              | None => (false, prots, flag)
              | Some prots =>
                  if Ascii.eqb p "p" then (true, prots, MAP_PRIVATE)
                  else if Ascii.eqb p "s" then (true, prots, MAP_SHARED)
                  else (false, prots, flag)
              end
          end
      end
  | _ => (false, prots, flag)
  end.

(** ** DfxMap *)

(** [Parse]: whether it succeeds, and the object, which keeps the fields set before a failure. *)
Definition map_Parse (m : DfxMap) (buff : list ascii) : bool * DfxMap :=
  if (maxDfxMapSize <=? length buff)%nat then (false, m)
  else
    let '(b, buff) := ScanHex (m_begin m) buff in
    let m := mkMap b (m_end m) (m_offset m) (prots m) (flag m) (m_major m) (m_minor m) (inode m) (perms m) (m_name m)
               (prevMap m) (adltLoadBase m) in
    let '(dashChar, buff) := ScanChar NUL buff in
    if negb (Ascii.eqb dashChar "-") then (false, m)
    else
      let '(e, buff) := ScanHex (m_end m) buff in
      let '(ps, buff) := ScanString (perms m) buff in
      let '(ok, pr, fl) := PermsToProtsAndFlag ps (prots m) (flag m) in
      let m := mkMap (m_begin m) e (m_offset m) pr fl (m_major m) (m_minor m) (inode m) ps (m_name m)
                 (prevMap m) (adltLoadBase m) in
      if negb ok then (false, m)
      else
        let '(off, buff) := ScanHex (m_offset m) buff in
        let '(maj, buff) := ScanHex (m_major m) buff in
        let m := mkMap (m_begin m) (m_end m) off (prots m) (flag m) maj (m_minor m) (inode m) (perms m) (m_name m)
                   (prevMap m) (adltLoadBase m) in
        let '(dashChar, buff) := ScanChar dashChar buff in
        if negb (Ascii.eqb dashChar ":") then (false, m)
        else
          let '(min, buff) := ScanHex (m_minor m) buff in
          let '(ino, buff) := ScanDec 0 buff in
          let name := match buff with [] => m_name m | _ => default (m_name m) (TrimAndDupStr buff maxMapsNameLen) end in
          (true, mkMap (m_begin m) (m_end m) (m_offset m) (prots m) (flag m) (m_major m) min ino (perms m) name
                   (prevMap m) (adltLoadBase m)).

Definition map_Create (vma : list ascii) : option DfxMap :=
  match vma with
  | [] => None
  | _ => match map_Parse DfxMap_default vma with (true, m) => Some m | _ => None end
  end.

Definition set_name (name : list ascii) (m : DfxMap) : DfxMap :=
  mkMap (m_begin m) (m_end m) (m_offset m) (prots m) (flag m) (m_major m) (m_minor m) (inode m) (perms m) name
    (prevMap m) (adltLoadBase m).
Definition set_prevMap (p : option nat) (m : DfxMap) : DfxMap :=
  mkMap (m_begin m) (m_end m) (m_offset m) (prots m) (flag m) (m_major m) (m_minor m) (inode m) (perms m) (m_name m)
    p (adltLoadBase m).
Definition SetAdltLoadBase (a : Z) (m : DfxMap) : DfxMap :=
  mkMap (m_begin m) (m_end m) (m_offset m) (prots m) (flag m) (m_major m) (m_minor m) (inode m) (perms m) (m_name m)
    (prevMap m) a.

Definition IsMapExec (m : DfxMap) : bool := negb (Z.land (prots m) PROT_EXEC =? 0).
Definition is_empty (s : list ascii) : bool := match s with [] => true | _ => false end.

Definition IsArkExecutable (m : DfxMap) : bool :=
  if is_empty (m_name m) then false
  else if negb (StartsWith (m_name m) (lit "[anon:ArkTS Code")) && negb (StartsWith (m_name m) (lit "/dev/zero"))
          && negb (EndsWith (m_name m) (lit "stub.an")) then false
  else IsMapExec m.
Definition IsStaticArkExecutable (m : DfxMap) : bool := EndsWith (m_name m) StaticArkLibName.
Definition IsJsvmExecutable (m : DfxMap) : bool :=
  if is_empty (m_name m) then false
  else if StartsWith (m_name m) (lit "[anon:JSVM_JIT") then true
  else if negb (EndsWith (m_name m) (lit "libv8_shared.so")) then false
  else IsMapExec m.
Definition IsArkWebJsExecutable (m : DfxMap) : bool :=
  if is_empty (m_name m) then false
  else if negb (StartsWith (m_name m) (lit "[anon:v8")) && negb (StartsWith (m_name m) (lit "[anon:JS_V8")) then false
  else IsMapExec m.
Definition IsVdsoMap (m : DfxMap) : bool :=
  (bool_decide (m_name m = lit "[shmm]") || bool_decide (m_name m = lit "[vdso]")) && IsMapExec m.

(** [PermsToProts] looks for the letters anywhere. *)
Definition PermsToProts (perms : list ascii) (prots flag : Z) : Z * Z :=
  let has (s : string) := contains perms (lit s) in
  let prots := if has "r" then Z.lor prots PROT_READ else prots in
  let prots := if has "w" then Z.lor prots PROT_WRITE else prots in
  let prots := if has "x" then Z.lor prots PROT_EXEC else prots in
  (prots, if has "p" then MAP_PRIVATE else if has "s" then MAP_SHARED else flag).

Definition Contain (pc : Z) (m : DfxMap) : bool := (m_begin m <=? pc) && (pc <? m_end m).
Definition FileOffsetFromAddr (vaddr : Z) (m : DfxMap) : Z :=
  if vaddr <? m_begin m then 0 else u64 (vaddr - m_begin m + m_offset m).

(** [FormatMapName(pid, name)]; [self] is [getpid()]. *)
Definition FormatMapName (self pid : Z) (name : list ascii) : list ascii :=
  if (pid <=? 0) || (pid =? self) then name
  else if StartsWith name SANDBOX_FILE_PATH_PREFIX then lit "/proc/" ++ print_dec pid ++ lit "/root" ++ name
  else name.
(** [FormatMapName(bundleName, name, isArkWeb)]. *)
Definition FormatMapName_bundle (arkWebPrefix bundleName name : list ascii) (isArkWeb : bool) : list ascii * bool :=
  if is_empty name then (name, isArkWeb)
  else if StartsWith name MAP_ARKWEB_CORE_PREFIX then
    let name := arkWebPrefix ++ drop (length MAP_ARKWEB_CORE_PREFIX) name in
    (name, if isArkWeb then isArkWeb else EndsWith name (lit "libarkweb_engine.so"))
  else if StartsWith name SANDBOX_PATH_PREFIX then
    (BUNDLE_PATH_PREFIX ++ bundleName ++ lit "/" ++ drop (length SANDBOX_PATH_PREFIX) name, isArkWeb)
  else (name, isArkWeb).
Definition UnFormatMapName (name : list ascii) : list ascii :=
  if StartsWith name (lit "/proc/") then
    match find_sub SANDBOX_FILE_PATH_PREFIX name with Some p => drop p name | None => name end
  else name.

(** ** DfxMaps *)
Record DfxMaps := mkMaps {
  store : list DfxMap;
  maps_ : list (option nat);
  mapIndex_ : list Z;
  enableMapIndex_ : bool;
  onlyExec_ : bool;
  stackRange : Z * Z;
  arkRange : Z * Z;
  staticArkRange : Z * Z;
  adltMapIndex_ : Z;
  isFormatPath_ : bool
}.
Definition DfxMaps_new : DfxMaps := mkMaps [] [] [] false false (0, 0) (0, 0) (0, 0) (2 ^ 32 - 1) true.

Definition set_store (l : list DfxMap) (s : DfxMaps) : DfxMaps :=
  mkMaps l (maps_ s) (mapIndex_ s) (enableMapIndex_ s) (onlyExec_ s) (stackRange s) (arkRange s) (staticArkRange s)
    (adltMapIndex_ s) (isFormatPath_ s).
Definition set_maps (l : list (option nat)) (ix : list Z) (s : DfxMaps) : DfxMaps :=
  mkMaps (store s) l ix (enableMapIndex_ s) (onlyExec_ s) (stackRange s) (arkRange s) (staticArkRange s)
    (adltMapIndex_ s) (isFormatPath_ s).
Definition set_ranges (st ar sa : Z * Z) (s : DfxMaps) : DfxMaps :=
  mkMaps (store s) (maps_ s) (mapIndex_ s) (enableMapIndex_ s) (onlyExec_ s) st ar sa (adltMapIndex_ s) (isFormatPath_ s).
Definition set_adlt (i : Z) (s : DfxMaps) : DfxMaps :=
  mkMaps (store s) (maps_ s) (mapIndex_ s) (enableMapIndex_ s) (onlyExec_ s) (stackRange s) (arkRange s)
    (staticArkRange s) i (isFormatPath_ s).
Definition EnableMapIndex (b : bool) (s : DfxMaps) : DfxMaps :=
  mkMaps (store s) (maps_ s) (mapIndex_ s) b (onlyExec_ s) (stackRange s) (arkRange s) (staticArkRange s)
    (adltMapIndex_ s) (isFormatPath_ s).
Definition EnableOnlyExec (b : bool) (s : DfxMaps) : DfxMaps :=
  mkMaps (store s) (maps_ s) (mapIndex_ s) (enableMapIndex_ s) b (stackRange s) (arkRange s) (staticArkRange s)
    (adltMapIndex_ s) (isFormatPath_ s).
Definition set_isFormatPath (b : bool) (s : DfxMaps) : DfxMaps :=
  mkMaps (store s) (maps_ s) (mapIndex_ s) (enableMapIndex_ s) (onlyExec_ s) (stackRange s) (arkRange s)
    (staticArkRange s) (adltMapIndex_ s) b.

Definition IsArkHapMapItem (name : list ascii) : bool :=
  if is_empty name then false
  else EndsWith name (lit ".hap") || EndsWith name (lit ".hsp") || EndsWith name (lit ".hqf")
       || StartsWith name (lit "[anon:ArkTS Code:/") || EndsWith name (lit ".abc").
Definition IsArkCodeMapItem (name : list ascii) : bool :=
  if is_empty name then false
  else StartsWith name (lit "[anon:ArkTS Code") && negb (StartsWith name (lit "[anon:ArkTS Code:/")).

Definition IsLegalMapItem (name : list ascii) (withArk : bool) : bool :=
  if withArk && (IsArkHapMapItem name || IsArkCodeMapItem name) then true
  else if EndsWith name (lit "[vdso]") || EndsWith name (lit "[shmm]") then true
  else if StartsWith name (lit "[anon:JSVM_JIT") || StartsWith name (lit "[anon:ARKWEB_JIT")
          || StartsWith name (lit "[anon:JS_V8") || StartsWith name (lit "[anon:v8") then true
  else if is_empty name || contains name (lit ":") || bool_decide (head name = Some "["%char)
          || bool_decide (list.last name = Some "]"%char) || StartsWith name (lit "/dev/")
          || StartsWith name (lit "/memfd:") || StartsWith name (lit "//anon")
          || EndsWith name (lit ".ttf") || EndsWith name (lit ".ai") then false
  else true.

Definition AddMap (m : option nat) (enableMapIndex : bool) (s : DfxMaps) : DfxMaps :=
  let l := maps_ s ++ [m] in
  set_maps l (if enableMapIndex then mapIndex_ s ++ [Z.of_nat (length l) - 1] else mapIndex_ s) s.

(** The map at an address of the store; a position of [maps_]. *)
Definition deref (s : DfxMaps) (m : option nat) : option DfxMap := m ≫= (store s !!.).
Definition map_at (s : DfxMaps) (i : nat) : option DfxMap := maps_ s !! i ≫= deref s.

Definition HandleSpecialMap (m : DfxMap) (s : DfxMaps) : DfxMaps :=
  let range := (m_begin m, m_end m) in
  set_ranges
    (if bool_decide (m_name m = lit "[stack]") then range else stackRange s)
    (if IsArkExecutable m || (IsMapExec m && contains (m_name m) (lit "stub.an")) then range else arkRange s)
    (if IsMapExec m && contains (m_name m) StaticArkLibName then range else staticArkRange s) s.

(** [HandleMap] of the map [m] at the address [a]. *)
Definition HandleMap (a : nat) (m : DfxMap) (s : DfxMaps) : DfxMaps :=
  if IsArkHapMapItem (m_name m) || IsArkCodeMapItem (m_name m) then AddMap (Some a) (enableMapIndex_ s) s
  else
    let s := HandleSpecialMap m s in
    if onlyExec_ s && negb (IsMapExec m) then s
    else if negb (enableMapIndex_ s) || IsLegalMapItem (m_name m) false then AddMap (Some a) (enableMapIndex_ s) s
    else s.

(** [fgets(mapBuf, sizeof(mapBuf), fp)]: up to a newline, at most 511 characters; the rest of the
    buffer keeps what it held. *)
Fixpoint take_line (n : nat) (file : list ascii) : list ascii * list ascii :=
  match n, file with
  | S n', c :: file' =>
      if Ascii.eqb c (chr 10) then ([c], file')
      else let '(l, rest) := take_line n' file' in (c :: l, rest)
  | _, _ => ([], file)
  end.
Definition fgets (mapBuf file : list ascii) : option (list ascii * list ascii) :=
  match file with
  | [] => None
  | _ =>
      let '(line, rest) := take_line (PATH_LEN - 1) file in
      Some (line ++ NUL :: drop (S (length line)) mapBuf, rest)
  end.

(** The locals of [ParseMaps]. *)
Record parse_locals := mkLocals {
  mapBuf : list ascii;
  adltFound : bool;
  adltExecFound : bool;
  lastMap : option nat;
  adltMaps : list nat;
  adltBase : Z
}.

Section Parse.
Context (self pid : Z).

(** One iteration of [ParseMaps], on the buffer that [fgets] filled. *)
Definition parse_line (l : parse_locals) (s : DfxMaps) : parse_locals * DfxMaps :=
  match map_Parse DfxMap_default (mapBuf l) with
  | (false, _) => (l, s)
  | (true, m) =>
      let m := if isFormatPath_ s then set_name (FormatMapName self pid (m_name m)) m else m in
      let a := length (store s) in
      let isExec := IsMapExec m in
      let isAdlt := StartsWith (m_name m) ADLT_PATH_NAME_START && EndsWith (m_name m) (lit ".so") in
      let firstExec := isAdlt && isExec && negb (adltExecFound l) in
      let firstBase := isAdlt && negb (adltFound l) && (m_offset m =? 0) && negb isExec in
      let s := if firstExec then set_adlt (u32 (length (maps_ s))) s else s in
      let m := if isExec then set_prevMap (lastMap l) m else m in
      let l := mkLocals (mapBuf l) (adltFound l || firstBase) (adltExecFound l || firstExec) (Some a)
                 (if isAdlt then adltMaps l ++ [a] else adltMaps l)
                 (if firstBase then m_begin m else adltBase l) in
      (l, HandleMap a m (set_store (store s ++ [m]) s))
  end.

Definition set_mapBuf (b : list ascii) (l : parse_locals) : parse_locals :=
  mkLocals b (adltFound l) (adltExecFound l) (lastMap l) (adltMaps l) (adltBase l).

Fixpoint parse_lines (fuel : nat) (file : list ascii) (l : parse_locals) (s : DfxMaps) (fgetCount : Z)
  : outcome (parse_locals * DfxMaps * Z) :=
  match fgets (mapBuf l) file with
  | None => Ret (l, s, fgetCount)
  | Some (buf, rest) =>
      match fuel with
      | O => OutOfFuel
      | S fuel' =>
          let '(l, s) := parse_line (set_mapBuf buf l) s in
          parse_lines fuel' rest l s (fgetCount + 1)
      end
  end.

Definition set_bases (ids : list nat) (base : Z) (s : DfxMaps) : DfxMaps :=
  set_store (fold_left (λ st a, alter (SetAdltLoadBase base) a st) ids (store s)) s.

Definition locals0 : parse_locals := mkLocals (replicate PATH_LEN NUL) false false None [] (2 ^ 64 - 1).

Definition ParseMaps (file : list ascii) (s : DfxMaps) : outcome (DfxMaps * Z) :=
  '(l, s, fgetCount) ← parse_lines (length file) file locals0 s 0;
  Ret (set_bases (adltMaps l) (adltBase l) s, fgetCount).

(** [Parse(pid, path)]; [file] is the contents, or [None] when the file cannot be opened. *)
Definition maps_Parse (file : option (list ascii)) (s : DfxMaps) : outcome (bool * DfxMaps) :=
  if pid <? 0 then Ret (false, s)
  else
    match file with
    | None => Ret (false, s)
    | Some file =>
        '(s, fgetCount) ← ParseMaps file s;
        Ret (negb (fgetCount =? 0) && (0 <? length (maps_ s))%nat, s)
    end.

(** [Create(pid, crash, formatPath)]. *)
Definition maps_Create (crash formatPath : bool) (file : option (list ascii)) : outcome (option DfxMaps) :=
  if pid <? 0 then Ret None
  else
    let s := set_isFormatPath formatPath DfxMaps_new in
    let s := if crash then s else EnableOnlyExec true s in
    '(ok, s) ← maps_Parse file s;
    Ret (if (ok : bool) then Some s else None).
End Parse.

(** ** Lookup *)
Fixpoint find_loop (fuel : nat) (s : DfxMaps) (addr : Z) (first last : nat) : outcome Z :=
  if (first <? last)%nat then
    match fuel with
    | O => OutOfFuel
    | S fuel' =>
        let index := ((first + last) / 2)%nat in
        match map_at s index with
        | None => Ret (-1)
        | Some cur =>
            if Contain addr cur then
              Ret (if StartsWith (m_name cur) ADLT_PATH_NAME_START && (adltMapIndex_ s <? length (maps_ s))
                   then s32 (adltMapIndex_ s) else s32 index)
            else if addr <? m_begin cur then find_loop fuel' s addr first index
            else find_loop fuel' s addr (S index) last
        end
    end
  else Ret (-1).

Definition FindMapIndexByAddr (addr : Z) (s : DfxMaps) : outcome Z :=
  find_loop (length (maps_ s)) s addr 0 (length (maps_ s)).

(** [FindMapByAddr(addr, map)]: the result, the map and the maps, whose store it may change. *)
Definition FindMapByAddr (addr : Z) (map : option nat) (s : DfxMaps) : outcome (bool * option nat * DfxMaps) :=
  if bool_decide (maps_ s = []) || (addr =? 0) then Ret (false, map, s)
  else
    i ← FindMapIndexByAddr addr s;
    let map := if 0 <=? i then mjoin (maps_ s !! Z.to_nat i) else map in
    let s :=
      if 1 <=? i then
        match map with
        | Some a =>
            match store s !! a ≫= prevMap with
            | None => set_store (alter (set_prevMap (mjoin (maps_ s !! Z.to_nat (i - 1)))) a (store s)) s
            | Some _ => s
            end
        | None => s
        end
      else s in
    Ret (0 <=? i, map, s).

(** [FindMapByFileInfo]: the first map of the file that covers the offset. *)
Definition FindMapByFileInfo (name : list ascii) (offset : Z) (s : DfxMaps) : option nat :=
  mjoin (List.find (λ a, match deref s a with
                         | Some m => bool_decide (name = m_name m) && (m_offset m <=? offset)
                                     && (offset - m_offset m <? u64 (m_end m - m_begin m))
                         | None => false
                         end) (maps_ s)).

Definition FindMapsByName (name : list ascii) (s : DfxMaps) : list (option nat) :=
  List.filter (λ a, match deref s a with Some m => EndsWith (m_name m) name | None => false end) (maps_ s).

(** A [std::set] of maps, ordered by end. *)
Fixpoint set_emplace (m : DfxMap) (l : list DfxMap) : list DfxMap :=
  match l with
  | [] => [m]
  | m' :: l' => if m_end m <? m_end m' then m :: l else if m_end m' <? m_end m then m' :: set_emplace m l' else l
  end.

(** The loops of [FindMapGroupByAddr] over the maps above and below. *)
Fixpoint group_loop (ino : Z) (s : DfxMaps) (l : list (option nat)) (maps : list DfxMap) : list DfxMap :=
  match l with
  | [] => maps
  | a :: l' =>
      match deref s a with
      | None => group_loop ino s l' maps
      | Some m => if inode m =? ino then group_loop ino s l' (set_emplace m maps) else maps
      end
  end.

Definition FindMapGroupByAddr (addr : Z) (maps : list DfxMap) (s : DfxMaps) : outcome (bool * list DfxMap) :=
  if bool_decide (maps_ s = []) || (addr =? 0) then Ret (false, maps)
  else
    i ← FindMapIndexByAddr addr s;
    if i =? -1 then Ret (false, maps)
    else
      match map_at s (Z.to_nat i) with
      | None => Ret (false, maps)
      | Some m =>
          let maps := set_emplace m maps in
          if inode m =? 0 then Ret (true, maps)
          else
            let maps := group_loop (inode m) s (reverse (take (Z.to_nat i) (maps_ s))) maps in
            Ret (true, group_loop (inode m) s (drop (S (Z.to_nat i)) (maps_ s)) maps)
      end.

Definition GetRange (r : Z * Z) : option (Z * Z) := if (r.1 =? 0) || (r.2 =? 0) then None else Some r.
Definition GetStackRange (s : DfxMaps) : option (Z * Z) := GetRange (stackRange s).
Definition GetArkStackRange (s : DfxMaps) : option (Z * Z) := GetRange (arkRange s).
Definition GetStaticArkRange (s : DfxMaps) : option (Z * Z) := GetRange (staticArkRange s).

Definition IsArkExecutedMap (addr : Z) (s : DfxMaps) : outcome (bool * DfxMaps) :=
  '(ok, map, s) ← FindMapByAddr addr None s;
  Ret (ok && match deref s map with Some m => IsArkExecutable m | None => false end, s).

(** [Sort]: null pointers last in the ascending, first in the descending order.  [std::sort] leaves
    the order of maps with the same start open; here they keep it. *)
Definition map_less (s : DfxMaps) (a b : option nat) : bool :=
  match deref s a, deref s b with
  | None, _ => false
  | Some _, None => true
  | Some a, Some b => m_begin a <? m_begin b
  end.
Definition not_after (less : bool) (s : DfxMaps) (a b : option nat) : Prop :=
  (if less then map_less s b a else map_less s a b) = false.
#[export] Instance not_after_dec less s : RelDecision (not_after less s).
Proof. intros a b. unfold not_after. apply _. Defined.
Definition Sort (less : bool) (s : DfxMaps) : DfxMaps :=
  set_maps (merge_sort (not_after less s) (maps_ s)) (mapIndex_ s) s.

(** ** Maps from a buffer

    [ParseByBuffer(bundleName, buffer)]: the lines up to the mark; the buffer keeps what follows it.
    [isArkWebProc] is the global that remembers the arkweb engine. *)
Section ByBuffer.
Context (arkWebPrefix bundleName : list ascii).

(** [std::getline]. *)
Fixpoint getline (buffer : list ascii) : list ascii * list ascii :=
  match buffer with
  | [] => ([], [])
  | c :: rest => if Ascii.eqb c (chr 10) then ([], rest) else let '(l, rest) := getline rest in (c :: l, rest)
  end.

Fixpoint buffer_lines (fuel : nat) (buffer rest : list ascii) (isArkWebProc : bool) (s : DfxMaps) (fgetCount : Z)
  : outcome (list ascii * bool * DfxMaps * Z) :=
  match rest with
  | [] => Ret (buffer, isArkWebProc, s, fgetCount)
  | _ =>
      match fuel with
      | O => OutOfFuel
      | S fuel' =>
          let '(line, rest) := getline rest in
          if bool_decide (line = lit "Parse_Maps_Finish") then Ret (rest, isArkWebProc, s, fgetCount)
          else
            match map_Parse DfxMap_default line with
            | (false, _) => buffer_lines fuel' buffer rest isArkWebProc s (fgetCount + 1)
            | (true, m) =>
                let '(name, isArkWebSo) := FormatMapName_bundle arkWebPrefix bundleName (m_name m) false in
                let m := set_name name m in
                let a := length (store s) in
                buffer_lines fuel' buffer rest (isArkWebProc || isArkWebSo)
                  (HandleMap a m (set_store (store s ++ [m]) s)) (fgetCount + 1)
            end
      end
  end.

Definition ParseByBuffer (buffer : list ascii) (isArkWebProc : bool) (s : DfxMaps)
  : outcome (bool * list ascii * bool * DfxMaps) :=
  match buffer with
  | [] => Ret (false, buffer, isArkWebProc, s)
  | _ =>
      '(buffer, isArkWebProc, s, fgetCount) ← buffer_lines (length buffer) buffer buffer isArkWebProc s 0;
      Ret (negb (fgetCount =? 0) && (0 <? length (maps_ s))%nat, buffer, isArkWebProc, s)
  end.
End ByBuffer.

(** ** Parsing reads nothing past the end of the line

    [ParseMaps] hands the whole buffer to [Parse], with what earlier, longer lines left in it.  Two
    buffers that agree up to the terminator give the same results. *)
Definition same_line (b1 b2 : list ascii) : Prop :=
  ∃ l s1 s2, NUL ∉ l ∧ b1 = l ++ NUL :: s1 ∧ b2 = l ++ NUL :: s2.

(** Equal values, and positions that agree. *)
Definition same_scan {A} (r1 r2 : A * list ascii) : Prop := r1.1 = r2.1 ∧ same_line r1.2 r2.2.

Lemma same_line_cons c b1 b2 : c ≠ NUL → same_line b1 b2 → same_line (c :: b1) (c :: b2).
Proof. intros Hc (l & s1 & s2 & Hl & -> & ->). exists (c :: l), s1, s2. split; [|done]. apply not_elem_of_cons. done. Qed.

(** Either both stand at the terminator, or at the same character. *)
Lemma same_line_inv b1 b2 : same_line b1 b2 →
  (∃ s1 s2, b1 = NUL :: s1 ∧ b2 = NUL :: s2) ∨
  (∃ c r1 r2, c ≠ NUL ∧ b1 = c :: r1 ∧ b2 = c :: r2 ∧ same_line r1 r2).
Proof.
  intros (l & s1 & s2 & Hl & -> & ->). destruct l as [|c l]; [left; by exists s1, s2|right].
  apply not_elem_of_cons in Hl as [Hc Hl]. exists c, (l ++ NUL :: s1), (l ++ NUL :: s2). repeat (split; [done|]).
  by exists l, s1, s2.
Qed.

Lemma same_line_len b1 b2 : same_line b1 b2 → b1 ≠ [] ∧ b2 ≠ [].
Proof. intros (l & s1 & s2 & _ & -> & ->). by destruct l. Qed.

(** Induction along two buffers of the same line. *)
Lemma same_line_ind (P : list ascii → list ascii → Prop) :
  (∀ s1 s2, same_line (NUL :: s1) (NUL :: s2) → P (NUL :: s1) (NUL :: s2)) →
  (∀ c r1 r2, c ≠ NUL → same_line r1 r2 → P r1 r2 → P (c :: r1) (c :: r2)) →
  ∀ b1 b2, same_line b1 b2 → P b1 b2.
Proof.
  intros H0 HS b1 b2 (l & s1 & s2 & Hl & -> & ->). induction l as [|c l IH]; cbn [app].
  - apply H0. by exists [], s1, s2.
  - apply not_elem_of_cons in Hl as [Hc Hl]. apply HS; [done| |by apply IH]. by exists l, s1, s2.
Qed.

Lemma SkipWhiteSpace_same b1 b2 : same_line b1 b2 →
  fst (SkipWhiteSpace b1) = true ∧ fst (SkipWhiteSpace b2) = true ∧
  same_line (snd (SkipWhiteSpace b1)) (snd (SkipWhiteSpace b2)).
Proof.
  revert b1 b2. refine (same_line_ind _ _ _); [done|]. intros c r1 r2 Hc Hs IH. cbn [SkipWhiteSpace].
  destruct (is_ws c); [done|]. split; [done|]. split; [done|]. by apply same_line_cons.
Qed.

(** Every scanner skips white space first. *)
Lemma scan_same {A} (scan : list ascii → A * list ascii) (f g : list ascii → A * list ascii) b1 b2 :
  (∀ b, scan b = let '(ok, b) := SkipWhiteSpace b in if ok then f b else g b) →
  (∀ b1 b2, same_line b1 b2 → same_scan (f b1) (f b2)) →
  same_line b1 b2 → same_scan (scan b1) (scan b2).
Proof.
  intros E Hf H. rewrite !E. destruct (SkipWhiteSpace_same b1 b2 H) as (E1 & E2 & H').
  destruct (SkipWhiteSpace b1) as [ok1 r1], (SkipWhiteSpace b2) as [ok2 r2]. cbn in E1, E2, H'. subst. by apply Hf.
Qed.

Lemma hex_loop_same b1 b2 : same_line b1 b2 → ∀ v, same_scan (hex_loop v b1) (hex_loop v b2).
Proof.
  revert b1 b2. refine (same_line_ind _ _ _); [done|]. intros c r1 r2 Hc Hs IH v. cbn [hex_loop].
  destruct (hex_digit c); [apply IH|]. split; [done|]. by apply same_line_cons.
Qed.

Lemma dec_loop_same b1 b2 : same_line b1 b2 → ∀ v, same_scan (dec_loop v b1) (dec_loop v b2).
Proof.
  revert b1 b2. refine (same_line_ind _ _ _); [done|]. intros c r1 r2 Hc Hs IH v. cbn [dec_loop].
  destruct (dec_digit c); [apply IH|]. split; [done|]. by apply same_line_cons.
Qed.

Lemma string_loop_same b1 b2 : same_line b1 b2 → same_scan (string_loop b1) (string_loop b2).
Proof.
  revert b1 b2. refine (same_line_ind _ _ _); [done|]. intros c r1 r2 Hc Hs [E IH]. cbn [string_loop].
  destruct (_ || _); [by split; [|apply same_line_cons]|].
  destruct (string_loop r1), (string_loop r2). cbn in *. subst. done.
Qed.

Lemma ScanHex_same v b1 b2 : same_line b1 b2 → same_scan (ScanHex v b1) (ScanHex v b2).
Proof.
  apply (scan_same (ScanHex v) (hex_loop 0) (λ b, (v, b))); [done|]. intros. by apply hex_loop_same.
Qed.

Lemma ScanDec_same v b1 b2 : same_line b1 b2 → same_scan (ScanDec v b1) (ScanDec v b2).
Proof.
  apply (scan_same (ScanDec v) (dec_loop 0) (λ b, (v, b))); [done|]. intros. by apply dec_loop_same.
Qed.

Lemma ScanString_same v b1 b2 : same_line b1 b2 → same_scan (ScanString v b1) (ScanString v b2).
Proof.
  apply (scan_same (ScanString v) (λ b, let '(s, rest) := string_loop b in (match s with [] => v | _ => s end, rest))
    (λ b, (v, b))); [done|].
  intros c1 c2 [E H]%string_loop_same. destruct (string_loop c1), (string_loop c2). cbn in *. by subst.
Qed.

Lemma ScanChar_same v b1 b2 : same_line b1 b2 → same_scan (ScanChar v b1) (ScanChar v b2).
Proof.
  apply (scan_same (ScanChar v)
    (λ b, match b with c :: rest => (c, if Ascii.eqb c NUL then b else rest) | [] => (v, b) end) (λ b, (v, b))).
  - intros b. unfold ScanChar. destruct (SkipWhiteSpace b) as [[] []]; done.
  - intros c1 c2 H. destruct (same_line_inv _ _ H) as [(s1 & s2 & -> & ->)|(c & r1 & r2 & Hc & -> & -> & H')].
    + done.
    + rewrite (proj2 (Ascii.eqb_neq c NUL)) by done. done.
Qed.

Lemma TrimAndDupStr_same b1 b2 n : same_line b1 b2 → TrimAndDupStr b1 n = TrimAndDupStr b2 n.
Proof.
  intros H. unfold TrimAndDupStr.
  assert (E : c_str (drop_while isspace b1) = c_str (drop_while isspace b2)); [|by rewrite E].
  revert b1 b2 H. refine (same_line_ind _ _ _); [done|]. intros c r1 r2 Hc Hs IH. cbn [drop_while].
  destruct (isspace c); [done|]. destruct Hs as (l & s1 & s2 & Hl & -> & ->).
  assert (NUL ∉ c :: l) by (by apply not_elem_of_cons).
  change (c :: l ++ NUL :: s1) with ((c :: l) ++ NUL :: s1). change (c :: l ++ NUL :: s2) with ((c :: l) ++ NUL :: s2).
  by rewrite !c_str_app.
Qed.

(** Step through a scanner in both buffers. *)
Ltac scan_both L :=
  match goal with
  | H : same_line ?b1 ?b2 |- context [?f ?v ?b1] =>
      let E := fresh "E" in let Hs := fresh "Hs" in
      pose proof (L v b1 b2 H) as [E Hs];
      destruct (f v b1) as [? ?], (f v b2) as [? ?]; cbn [fst snd] in E, Hs; subst; clear H
  end.

(** Parsing a line of the maps file does not depend on what the buffer holds past the end of the
    line: the scanners stop at the terminator, for every line, well-formed or not, although
    [ParseMaps] gives [Parse] the size of the whole buffer. *)
Theorem map_Parse_ignores_stale m line s1 s2 :
  NUL ∉ line → length s1 = length s2 → map_Parse m (line ++ NUL :: s1) = map_Parse m (line ++ NUL :: s2).
Proof.
  intros Hl Hlen. assert (H : same_line (line ++ NUL :: s1) (line ++ NUL :: s2)) by by exists line, s1, s2.
  unfold map_Parse. replace (length (line ++ NUL :: s2)) with (length (line ++ NUL :: s1)) by (rewrite !length_app; cbn; lia).
  destruct (_ <=? _)%nat; [done|]. generalize dependent (line ++ NUL :: s2). generalize dependent (line ++ NUL :: s1). intros b1 b2 H.
  scan_both ScanHex_same. scan_both ScanChar_same. destruct (negb _); [done|].
  scan_both ScanHex_same. scan_both ScanString_same. destruct (PermsToProtsAndFlag _ _ _) as [[[] pr] fl]; [|done]. cbn [negb].
  scan_both ScanHex_same. scan_both ScanHex_same. scan_both ScanChar_same. destruct (negb _); [done|].
  scan_both ScanHex_same. scan_both ScanDec_same.
  match goal with H : same_line ?a ?b |- _ =>
    rewrite (TrimAndDupStr_same a b _ H); destruct (same_line_len _ _ H); destruct a, b; done end.
Qed.

(** ** The kernel's format

    A mapping as the kernel prints it in /proc/<pid>/maps: hexadecimal numbers padded to eight and
    two digits, and the name after blanks. *)
Record vma := mkVma {
  v_begin : Z; v_end : Z; v_read : bool; v_write : bool; v_exec : bool; v_shared : bool;
  v_offset : Z; v_major : Z; v_minor : Z; v_inode : Z; v_name : list ascii
}.

Definition vma_perms (v : vma) : list ascii :=
  [if v_read v then "r"%char else "-"%char; if v_write v then "w"%char else "-"%char;
   if v_exec v then "x"%char else "-"%char; if v_shared v then "s"%char else "p"%char].
Definition vma_prots (v : vma) : Z :=
  (if v_read v then PROT_READ else 0) + (if v_write v then PROT_WRITE else 0) + (if v_exec v then PROT_EXEC else 0).

Definition print_vma (pad : nat) (v : vma) : list ascii :=
  print_hex 8 (v_begin v) ++ lit "-" ++ print_hex 8 (v_end v) ++ lit " " ++ vma_perms v ++ lit " " ++
  print_hex 8 (v_offset v) ++ lit " " ++ print_hex 2 (v_major v) ++ lit ":" ++ print_hex 2 (v_minor v) ++ lit " " ++
  print_dec (v_inode v) ++ replicate (S pad) " "%char ++ v_name v.

Definition map_of (v : vma) : DfxMap :=
  mkMap (v_begin v) (v_end v) (v_offset v) (vma_prots v) (if v_shared v then MAP_SHARED else MAP_PRIVATE)
    (v_major v) (v_minor v) (v_inode v) (vma_perms v) (v_name v) None (2 ^ 64 - 1).

(** A name without blanks at its ends, of at most 256 characters. *)
Definition name_ok (n : list ascii) : Prop :=
  NUL ∉ n ∧ (length n <= maxMapsNameLen)%nat ∧
  (∀ c, head n = Some c → isspace c = false) ∧ (∀ c, list.last n = Some c → isspace c = false).
Definition vma_ok (v : vma) : Prop :=
  fits 64 (v_begin v) ∧ fits 64 (v_end v) ∧ fits 64 (v_offset v) ∧ fits 64 (v_major v) ∧ fits 64 (v_minor v) ∧
  fits 64 (v_inode v) ∧ name_ok (v_name v).

Lemma hex_digit_char d : 0 <= d < 16 → hex_digit (digit_char d) = Some d.
Proof.
  intros H. unfold hex_digit, digit_char. zcase; rewrite code_chr by (unfold fits; lia).
  - rewrite (proj2 (Z.leb_le 48 (48 + d))), (proj2 (Z.leb_le (48 + d) 57)) by lia. cbn. f_equal. lia.
  - rewrite (proj2 (Z.leb_gt (97 + (d - 10)) 57)), andb_false_r by lia.
    rewrite (proj2 (Z.leb_le 97 (97 + (d - 10)))), (proj2 (Z.leb_le (97 + (d - 10)) 102)) by lia. cbn. f_equal. lia.
Qed.

Lemma dec_digit_char d : 0 <= d < 10 → dec_digit (digit_char d) = Some d.
Proof.
  intros H. unfold dec_digit, digit_char. rewrite (proj2 (Z.ltb_lt d 10)) by lia. rewrite code_chr by (unfold fits; lia).
  rewrite (proj2 (Z.leb_le 48 (48 + d))), (proj2 (Z.leb_le (48 + d) 57)) by lia. cbn. f_equal. lia.
Qed.

Lemma fold_digits_ge b ds v : 1 < b → 0 <= v → Forall (λ d, 0 <= d < b) ds → v <= fold_left (λ acc d, acc * b + d) ds v.
Proof.
  intros Hb Hv H. revert v Hv. induction H as [|d ds Hd _ IH]; intros v Hv; cbn [fold_left]; [done|].
  specialize (IH (v * b + d)). nia.
Qed.

(** A number is read up to the first character that is not a digit. *)
Definition stops (digit : ascii → option Z) (rest : list ascii) : Prop :=
  ∀ c, head rest = Some c → digit c = None.

Lemma hex_loop_digits ds rest v :
  0 <= v → Forall (λ d, 0 <= d < 16) ds → fold_left (λ acc d, acc * 16 + d) ds v < 2 ^ 64 → stops hex_digit rest →
  hex_loop v (map digit_char ds ++ rest) = (fold_left (λ acc d, acc * 16 + d) ds v, rest).
Proof.
  intros Hv H. revert v Hv. induction H as [|d ds Hd Hds IH]; intros v Hv Hf Hs; cbn [map app fold_left hex_loop] in *.
  - destruct rest as [|c rest]; [done|]. cbn [hex_loop]. by rewrite (Hs c).
  - rewrite hex_digit_char by done. pose proof (fold_digits_ge 16 ds (v * 16 + d) ltac:(lia) ltac:(lia) Hds) as Hge.
    assert (E : Z.lor (u64 (Z.shiftl v 4)) d = v * 16 + d).
    { rewrite wrap_small by (unfold fits; rewrite Z.shiftl_mul_pow2 by lia; lia).
      rewrite Z.lor_comm, lor_disjoint by lia. lia. }
    rewrite E. apply IH; [lia|done|done].
Qed.

Lemma dec_loop_digits ds rest v :
  0 <= v → Forall (λ d, 0 <= d < 10) ds → fold_left (λ acc d, acc * 10 + d) ds v < 2 ^ 64 → stops dec_digit rest →
  dec_loop v (map digit_char ds ++ rest) = (fold_left (λ acc d, acc * 10 + d) ds v, rest).
Proof.
  intros Hv H. revert v Hv. induction H as [|d ds Hd Hds IH]; intros v Hv Hf Hs; cbn [map app fold_left dec_loop] in *.
  - destruct rest as [|c rest]; [done|]. cbn [dec_loop]. by rewrite (Hs c).
  - rewrite dec_digit_char by done. pose proof (fold_digits_ge 10 ds (v * 10 + d) ltac:(lia) ltac:(lia) Hds) as Hge.
    rewrite (wrap_small 64 (v * 10)), wrap_small by (unfold fits; lia). apply IH; [lia|done|done].
Qed.

Lemma digit_char_ws d : 0 <= d < 16 → is_ws (digit_char d) = false.
Proof.
  intros H. unfold is_ws. apply orb_false_iff. split; apply Ascii.eqb_neq; intros E; apply (f_equal code) in E;
    change (code " ") with 32 in E; change (code (chr 9)) with 9 in E; revert E; unfold digit_char; zcase;
    rewrite code_chr by (unfold fits; lia); lia.
Qed.

Lemma SkipWhiteSpace_blanks k c rest :
  is_ws c = false → SkipWhiteSpace (replicate k " "%char ++ c :: rest) = (true, c :: rest).
Proof. intros Hc. induction k as [|k IH]; cbn [replicate app SkipWhiteSpace]; [by rewrite Hc|done]. Qed.

Lemma digits_head b ds : 1 < b <= 16 → Forall (λ d, 0 <= d < b) ds → ds ≠ [] →
  ∃ c s, map digit_char ds = c :: s ∧ is_ws c = false.
Proof.
  intros Hb H Hne. destruct H as [|d ds Hd H]; [done|]. exists (digit_char d), (map digit_char ds). split; [done|].
  apply digit_char_ws. lia.
Qed.

Lemma ScanHex_print v w n k rest : fits 64 n → stops hex_digit rest →
  ScanHex v (replicate k " "%char ++ print_hex w n ++ rest) = (n, rest).
Proof.
  intros Hn Hs. unfold print_hex. set (ds := replicate _ 0 ++ _).
  assert (Hds : Forall (λ d, 0 <= d < 16) ds).
  { apply list.Forall_app. split; [|apply to_digits_range; unfold fits in Hn; lia]. apply Forall_replicate. lia. }
  assert (Hv : fold_left (λ acc d, acc * 16 + d) ds 0 = n).
  { change (of_digits 16 ds = n). unfold ds. rewrite of_digits_zeros. apply of_to_digits; [lia|]. by change (16 ^ 16%nat) with (2 ^ 64). }
  destruct (digits_head 16 ds) as (c & s & E & Hc); [lia|done| |].
  { unfold ds. pose proof (to_digits_nonempty 15 16 n). by destruct (replicate _ 0). }
  unfold ScanHex. rewrite E. cbn [app]. rewrite SkipWhiteSpace_blanks by done.
  change (c :: s ++ rest) with ((c :: s) ++ rest). rewrite <- E. rewrite hex_loop_digits; [by rewrite Hv|lia|done| |done].
  rewrite Hv. apply Hn.
Qed.

Lemma ScanDec_print v n k rest : fits 64 n → stops dec_digit rest →
  ScanDec v (replicate k " "%char ++ print_dec n ++ rest) = (n, rest).
Proof.
  intros Hn Hs. unfold print_dec. set (ds := to_digits _ _ _).
  assert (Hds : Forall (λ d, 0 <= d < 10) ds) by (apply to_digits_range; unfold fits in Hn; lia).
  assert (Hv : fold_left (λ acc d, acc * 10 + d) ds 0 = n).
  { change (of_digits 10 ds = n). apply of_to_digits; [lia|]. unfold fits in Hn. change (10 ^ 20%nat) with 100000000000000000000. lia. }
  destruct (digits_head 10 ds) as (c & s & E & Hc); [lia|done|apply to_digits_nonempty|].
  unfold ScanDec. rewrite E. cbn [app]. rewrite SkipWhiteSpace_blanks by done.
  change (c :: s ++ rest) with ((c :: s) ++ rest). rewrite <- E. rewrite dec_loop_digits; [by rewrite Hv|lia|done| |done].
  rewrite Hv. apply Hn.
Qed.

Lemma stops_char digit c rest : digit c = None → stops digit (c :: rest).
Proof. intros H c' [= <-]. done. Qed.

Lemma reverse_trimmed (n : list ascii) :
  (∀ c, list.last n = Some c → isspace c = false) → reverse (drop_while isspace (reverse n)) = n.
Proof.
  intros H. rewrite <- head_reverse in H. destruct (reverse n) as [|c s] eqn:E.
  - cbn. apply (f_equal reverse) in E. by rewrite reverse_involutive in E.
  - cbn [drop_while]. rewrite (H c) by done. rewrite <- E. apply reverse_involutive.
Qed.

Lemma TrimAndDupStr_name k n stale : name_ok n →
  TrimAndDupStr (replicate k " "%char ++ n ++ chr 10 :: NUL :: stale) maxMapsNameLen =
  match n with [] => None | _ => Some n end.
Proof.
  intros (H0 & Hl & Hh & Ht). unfold TrimAndDupStr. rewrite drop_while_app by (apply Forall_replicate; done).
  destruct n as [|c n]; [done|]. cbn [app]. rewrite (drop_while_stop _ _ c (n ++ chr 10 :: NUL :: stale)); [|done|by apply Hh].
  assert (E : c_str (c :: n ++ chr 10 :: NUL :: stale) = (c :: n) ++ [chr 10]).
  { change (c :: n ++ chr 10 :: NUL :: stale) with ((c :: n) ++ [chr 10] ++ NUL :: stale). rewrite app_assoc. apply c_str_app.
    rewrite not_elem_of_app. split; [done|]. by intros ?%list_elem_of_singleton. }
  rewrite E. cbn [app]. f_equal. rewrite app_comm_cons, reverse_snoc. cbn [drop_while]. change (isspace (chr 10)) with true.
  cbn iota. rewrite reverse_trimmed by done. by rewrite take_ge.
Qed.

Lemma ScanChar_dash v rest : ScanChar v (lit "-" ++ rest) = ("-"%char, rest).
Proof. done. Qed.

Lemma ScanChar_colon v rest : ScanChar v (lit ":" ++ rest) = (":"%char, rest).
Proof. done. Qed.

Lemma ScanHex_print0 v w n rest : fits 64 n → stops hex_digit rest → ScanHex v (print_hex w n ++ rest) = (n, rest).
Proof. apply (ScanHex_print v w n 0). Qed.

Lemma ScanHex_print1 v w n rest : fits 64 n → stops hex_digit rest → ScanHex v (lit " " ++ print_hex w n ++ rest) = (n, rest).
Proof. apply (ScanHex_print v w n 1). Qed.

Lemma PermsToProtsAndFlag_vma v :
  PermsToProtsAndFlag (vma_perms v) 0 0 = (true, vma_prots v, if v_shared v then MAP_SHARED else MAP_PRIVATE).
Proof. unfold vma_prots, vma_perms. by destruct (v_read v), (v_write v), (v_exec v), (v_shared v). Qed.

Lemma ScanString_perms p v rest : ScanString p (lit " " ++ vma_perms v ++ lit " " ++ rest) = (vma_perms v, lit " " ++ rest).
Proof. unfold vma_perms. by destruct (v_read v), (v_write v), (v_exec v), (v_shared v). Qed.

Lemma map_Parse_print v pad stale :
  vma_ok v → (length (print_vma pad v ++ chr 10 :: NUL :: stale) < maxDfxMapSize)%nat →
  map_Parse DfxMap_default (print_vma pad v ++ chr 10 :: NUL :: stale) = (true, map_of v).
Proof.
  intros (Hb & He & Ho & Hma & Hmi & Hi & Hn) Hlen. unfold map_Parse. rewrite (proj2 (Nat.leb_gt _ _)) by done. clear Hlen.
  unfold print_vma. rewrite <- !app_assoc.
  rewrite ScanHex_print0 by (done || by apply stops_char).
  rewrite ScanChar_dash. cbn [Ascii.eqb Bool.eqb negb].
  rewrite ScanHex_print0 by (done || by apply stops_char).
  rewrite ScanString_perms. cbn [DfxMap_default prots flag]. rewrite PermsToProtsAndFlag_vma. cbn [negb].
  rewrite ScanHex_print1 by (done || by apply stops_char).
  rewrite ScanHex_print1 by (done || by apply stops_char).
  rewrite ScanChar_colon. cbn [Ascii.eqb Bool.eqb negb].
  rewrite ScanHex_print0 by (done || by apply stops_char).
  rewrite (ScanDec_print _ (v_inode v) 1 _ Hi) by by apply stops_char.
  rewrite TrimAndDupStr_name by done. unfold map_of. by destruct (v_name v).
Qed.

(** C34. A mapping printed by the kernel is parsed back: whatever the numbers (up to 64 bits), the
    permissions, the blanks before the name and the bytes that follow the line in the buffer, [Parse]
    of the line gives the mapping's fields and its name. *)
Theorem map_line_roundtrip v pad stale :
  vma_ok v → (length (print_vma pad v) + 2 + length stale < maxDfxMapSize)%nat →
  map_Parse DfxMap_default (print_vma pad v ++ chr 10 :: NUL :: stale) = (true, map_of v).
Proof. intros H Hl. apply map_Parse_print; [done|]. rewrite length_app. cbn [length]. lia. Qed.

(** ** A whole file *)
Definition line : Type := nat * vma.
Definition print_file (ls : list line) : list ascii := concat (map (λ x, print_vma x.1 x.2 ++ [chr 10]) ls).

(** A line fits the buffer, and its name has no newline (the kernel prints one as \012). *)
Definition line_ok (x : line) : Prop :=
  vma_ok x.2 ∧ chr 10 ∉ v_name x.2 ∧ (length (print_vma x.1 x.2) + 1 < PATH_LEN)%nat.

Section File.
Context (self pid : Z).

(** The map of line [i], and whether it is kept. *)
Definition line_map (fmt : bool) (i : nat) (v : vma) : DfxMap :=
  let m := if fmt then set_name (FormatMapName self pid (m_name (map_of v))) (map_of v) else map_of v in
  if IsMapExec m then set_prevMap (match i with O => None | S i' => Some i' end) m else m.
Definition kept (onlyExec : bool) (m : DfxMap) : bool :=
  IsArkHapMapItem (m_name m) || IsArkCodeMapItem (m_name m) || negb (onlyExec && negb (IsMapExec m)).

Fixpoint line_maps (fmt : bool) (i : nat) (ls : list line) : list DfxMap :=
  match ls with [] => [] | x :: ls' => line_map fmt i x.2 :: line_maps fmt (S i) ls' end.
Fixpoint kept_ids (onlyExec : bool) (i : nat) (ms : list DfxMap) : list nat :=
  match ms with [] => [] | m :: ms' => if kept onlyExec m then i :: kept_ids onlyExec (S i) ms' else kept_ids onlyExec (S i) ms' end.

Lemma take_line_app n l file : chr 10 ∉ l → (length l < n)%nat → take_line n (l ++ chr 10 :: file) = (l ++ [chr 10], file).
Proof.
  revert n. induction l as [|c l IH]; intros [|n] H Hn; cbn [length] in Hn; try lia; cbn [app take_line].
  - by rewrite Ascii.eqb_refl.
  - apply not_elem_of_cons in H as [Hc H]. rewrite (proj2 (Ascii.eqb_neq c (chr 10))) by done. by rewrite IH by (done || lia).
Qed.

Lemma newline_digits b ds : 1 < b <= 16 → Forall (λ d, 0 <= d < b) ds → chr 10 ∉ map digit_char ds.
Proof.
  intros Hb H Hin. apply list_elem_of_In, in_map_iff in Hin as (d & E & Hd%list_elem_of_In).
  rewrite list.Forall_forall in H. specialize (H d Hd). apply (f_equal code) in E. change (code (chr 10)) with 10 in E.
  revert E. unfold digit_char. zcase; rewrite code_chr by (unfold fits; lia); lia.
Qed.

Lemma newline_print_hex w n : fits 64 n → chr 10 ∉ print_hex w n.
Proof.
  intros Hn. unfold print_hex. apply (newline_digits 16); [lia|]. apply list.Forall_app. unfold fits in Hn.
  split; [apply Forall_replicate; lia|apply to_digits_range; lia].
Qed.

Lemma newline_print_vma pad v : vma_ok v → chr 10 ∉ v_name v → chr 10 ∉ print_vma pad v.
Proof.
  intros (Hb & He & Ho & Hma & Hmi & Hi & Hn) Hname. unfold print_vma. rewrite !not_elem_of_app.
  assert (Hlit : ∀ s, existsb (Ascii.eqb (chr 10)) (lit s) = false → chr 10 ∉ lit s).
  { intros s Hs Hin. apply list_elem_of_In in Hin. assert (existsb (Ascii.eqb (chr 10)) (lit s) = true); [|congruence].
    apply existsb_exists. exists (chr 10). split; [done|apply Ascii.eqb_refl]. }
  repeat match goal with |- _ ∧ _ => split end; try (by apply newline_print_hex); try (by apply Hlit); try done.
  - unfold vma_perms. by destruct (v_read v), (v_write v), (v_exec v), (v_shared v); apply (Hlit (String _ (String _ (String _ (String _ EmptyString))))).
  - unfold print_dec. apply (newline_digits 10); [lia|]. apply to_digits_range; unfold fits in Hi; lia.
  - intros Hr. apply elem_of_replicate in Hr as [Hr _]. done.
Qed.

Lemma fgets_line x mapBuf file : line_ok x → length mapBuf = PATH_LEN →
  ∃ stale, fgets mapBuf (print_vma x.1 x.2 ++ chr 10 :: file) = Some (print_vma x.1 x.2 ++ chr 10 :: NUL :: stale, file) ∧
    length (print_vma x.1 x.2 ++ chr 10 :: NUL :: stale) = PATH_LEN.
Proof.
  intros (Hv & Hn & Hl) Hm. exists (drop (S (length (print_vma x.1 x.2 ++ [chr 10]))) mapBuf).
  assert (Hne : print_vma x.1 x.2 ++ chr 10 :: file ≠ []) by by destruct (print_vma x.1 x.2).
  unfold fgets. destruct (print_vma x.1 x.2 ++ chr 10 :: file) eqn:E; [done|]. rewrite <- E.
  rewrite take_line_app; [|by apply newline_print_vma|lia]. split; [by rewrite <- app_assoc|].
  rewrite length_app. cbn [length]. rewrite length_drop, length_app. cbn [length]. lia.
Qed.

Lemma HandleMap_eq a m s : enableMapIndex_ s = false →
  store (HandleMap a m s) = store s ∧ enableMapIndex_ (HandleMap a m s) = false ∧
  onlyExec_ (HandleMap a m s) = onlyExec_ s ∧ isFormatPath_ (HandleMap a m s) = isFormatPath_ s ∧
  maps_ (HandleMap a m s) = maps_ s ++ (if kept (onlyExec_ s) m then [Some a] else []).
Proof.
  intros He. unfold HandleMap, kept. destruct (IsArkHapMapItem _ || IsArkCodeMapItem _); [done|].
  change (onlyExec_ (HandleSpecialMap m s)) with (onlyExec_ s).
  change (enableMapIndex_ (HandleSpecialMap m s)) with (enableMapIndex_ s). rewrite He.
  destruct (onlyExec_ s && negb (IsMapExec m)); cbn [orb negb]; [by rewrite app_nil_r|].
  unfold AddMap. cbn [set_maps store enableMapIndex_ onlyExec_ isFormatPath_ maps_ HandleSpecialMap set_ranges]. done.
Qed.

(** What the loop keeps from one line to the next. *)
Record loop_inv (fmt onlyExec : bool) (i : nat) (l : parse_locals) (s : DfxMaps) : Prop := {
  li_buf : length (mapBuf l) = PATH_LEN;
  li_last : lastMap l = match i with O => None | S i' => Some i' end;
  li_store : length (store s) = i;
  li_index : enableMapIndex_ s = false;
  li_exec : onlyExec_ s = onlyExec;
  li_fmt : isFormatPath_ s = fmt
}.

Lemma parse_line_step fmt onlyExec i l s x stale :
  line_ok x → loop_inv fmt onlyExec i l s → length (print_vma x.1 x.2 ++ chr 10 :: NUL :: stale) = PATH_LEN →
  ∃ l' s', parse_line self pid (set_mapBuf (print_vma x.1 x.2 ++ chr 10 :: NUL :: stale) l) s = (l', s') ∧
    loop_inv fmt onlyExec (S i) l' s' ∧ store s' = store s ++ [line_map fmt i x.2] ∧
    maps_ s' = maps_ s ++ (if kept onlyExec (line_map fmt i x.2) then [Some i] else []).
Proof.
  intros (Hv & Hn & Hlen) [] Hbuf. unfold parse_line. cbn [set_mapBuf mapBuf]. rewrite map_Parse_print; [|done|].
  2:{ rewrite Hbuf. vm_compute. lia. }
  cbn [set_mapBuf adltFound adltExecFound lastMap adltMaps adltBase]. rewrite li_fmt0.
  set (m0 := if fmt then _ else _). set (s0 := if _ && _ && _ then set_adlt _ s else s).
  assert (Hs0 : store s0 = store s ∧ maps_ s0 = maps_ s ∧ enableMapIndex_ s0 = false ∧ onlyExec_ s0 = onlyExec ∧ isFormatPath_ s0 = fmt).
  { unfold s0. by destruct (_ && _ && _). }
  clearbody s0. destruct Hs0 as (E1 & E2 & E3 & E4 & E5). rewrite li_last0.
  assert (Em : (if IsMapExec m0 then set_prevMap (match i with O => None | S i' => Some i' end) m0 else m0) = line_map fmt i x.2).
  { unfold line_map, m0. done. }
  rewrite Em, E1, li_store0. set (s1 := set_store (store s ++ [line_map fmt i x.2]) s0).
  destruct (HandleMap_eq i (line_map fmt i x.2) s1) as (H1 & H2 & H3 & H4 & H5); [done|].
  eexists _, _. split; [done|]. split; [split; cbn [mapBuf lastMap]|].
  - done.
  - done.
  - rewrite H1. cbn [s1 set_store store]. rewrite length_app. cbn [length]. lia.
  - done.
  - by rewrite H3.
  - by rewrite H4.
  - split; [done|]. rewrite H5. change (maps_ s1) with (maps_ s0). change (onlyExec_ s1) with (onlyExec_ s0). by rewrite E2, E4.
Qed.

Lemma parse_lines_spec fmt onlyExec ls : ∀ i l s n (fuel : nat),
  Forall line_ok ls → loop_inv fmt onlyExec i l s → (length ls <= fuel)%nat →
  ∃ l' s', parse_lines self pid fuel (print_file ls) l s n = Ret (l', s', n + length ls) ∧
    store s' = store s ++ line_maps fmt i ls ∧
    maps_ s' = maps_ s ++ (Some <$> kept_ids onlyExec i (line_maps fmt i ls)).
Proof.
  induction ls as [|x ls IH]; intros i l s n fuel Hok Hinv Hf.
  - exists l, s. destruct fuel; cbn; rewrite Z.add_0_r, !app_nil_r; done.
  - inversion Hok as [|? ? Hx Hls]; subst. cbn [length] in Hf. destruct fuel as [|fuel]; [lia|].
    destruct (fgets_line x (mapBuf l) (print_file ls)) as (stale & Eg & Hlen); [done|apply Hinv|].
    destruct (parse_line_step fmt onlyExec i l s x stale Hx Hinv Hlen) as (l1 & s1 & E1 & Hinv1 & Hst & Hm).
    destruct (IH (S i) l1 s1 (n + 1) fuel Hls Hinv1) as (l' & s' & E & Es & Em); [lia|].
    exists l', s'. split; [|split].
    + cbn [parse_lines]. change (print_file (x :: ls)) with ((print_vma x.1 x.2 ++ [chr 10]) ++ print_file ls).
      rewrite <- app_assoc. cbn [app]. rewrite Eg, E1, E. f_equal. f_equal. cbn [length]. lia.
    + rewrite Es, Hst. cbn [line_maps]. by rewrite <- app_assoc.
    + rewrite Em, Hm. cbn [line_maps kept_ids]. rewrite <- app_assoc. by destruct (kept onlyExec _).
Qed.

(** A map up to the base that is set when the whole file has been read. *)
Definition erase (m : DfxMap) : DfxMap := SetAdltLoadBase 0 m.

Lemma erase_alter b a (st : list DfxMap) : map erase (alter (SetAdltLoadBase b) a st) = map erase st.
Proof.
  revert a. induction st as [|m st IH]; intros a; [done|]. destruct a as [|a]; [by destruct m|].
  change (erase m :: map erase (alter (SetAdltLoadBase b) a st) = erase m :: map erase st). by rewrite IH.
Qed.

Lemma set_bases_eq ids b s :
  map erase (store (set_bases ids b s)) = map erase (store s) ∧ maps_ (set_bases ids b s) = maps_ s.
Proof.
  split; [|done]. unfold set_bases. cbn [set_store store]. generalize (store s). induction ids as [|a ids IH]; intros st; [done|].
  cbn [fold_left]. rewrite IH. apply erase_alter.
Qed.

Lemma length_print_file ls : (length ls <= length (print_file ls))%nat.
Proof.
  induction ls as [|x ls IH]; [done|]. change (print_file (x :: ls)) with ((print_vma x.1 x.2 ++ [chr 10]) ++ print_file ls).
  rewrite !length_app. cbn [length]. lia.
Qed.

Lemma maps_Create_spec crash fmt ls :
  0 <= pid → Forall line_ok ls → kept_ids (negb crash) 0 (line_maps fmt 0 ls) ≠ [] →
  ∃ s, maps_Create self pid crash fmt (Some (print_file ls)) = Ret (Some s) ∧
    map erase (store s) = map erase (line_maps fmt 0 ls) ∧
    maps_ s = Some <$> kept_ids (negb crash) 0 (line_maps fmt 0 ls).
Proof.
  intros Hp Hok Hne. unfold maps_Create, maps_Parse, ParseMaps. rewrite !(proj2 (Z.ltb_ge pid 0)) by lia.
  set (s0 := if crash then _ else _).
  destruct (parse_lines_spec fmt (negb crash) ls 0 locals0 s0 0 (length (print_file ls))) as (l & s & E & Es & Em).
  { done. }
  { unfold s0. by destruct crash; split. }
  { apply length_print_file. }
  rewrite E. cbn [mbind outcome_mbind]. destruct (set_bases_eq (adltMaps l) (adltBase l) s) as [Hb1 Hb2].
  assert (E0 : store s0 = [] ∧ maps_ s0 = []) by (unfold s0; by destruct crash). destruct E0 as [E0 E0'].
  rewrite E0 in Es. rewrite E0' in Em. cbn [app] in Es, Em.
  exists (set_bases (adltMaps l) (adltBase l) s). split; [|by rewrite Hb1, Hb2, Es, Em].
  rewrite Hb2, Em. destruct (kept_ids _ _ _) eqn:Ek; [done|]. destruct ls; [done|]. cbn [length].
  by rewrite (proj2 (Z.eqb_neq (0 + S (length ls)) 0)) by lia.
Qed.
End File.

(** ** The binary search *)

(** Every position holds a map, and they are ordered and disjoint. *)
Definition maps_sorted (s : DfxMaps) : Prop :=
  (∀ i, (i < length (maps_ s))%nat → ∃ m, map_at s i = Some m ∧ m_begin m <= m_end m) ∧
  (∀ i j m m', (i < j)%nat → map_at s i = Some m → map_at s j = Some m' → m_end m <= m_begin m').

(** The position that the lookup answers for the one it finds. *)
Definition answer_at (s : DfxMaps) (j : nat) (m : DfxMap) : Z :=
  if StartsWith (m_name m) ADLT_PATH_NAME_START && (adltMapIndex_ s <? length (maps_ s)) then s32 (adltMapIndex_ s) else s32 j.

Lemma Contain_spec addr m : Contain addr m = true ↔ m_begin m <= addr < m_end m.
Proof. unfold Contain. rewrite andb_true_iff, Z.leb_le, Z.ltb_lt. done. Qed.

Lemma find_loop_spec s addr : maps_sorted s → ∀ (fuel first last : nat),
  (last <= length (maps_ s))%nat → (last - first <= fuel)%nat →
  (∀ j m, map_at s j = Some m → (j < first)%nat ∨ (last <= j)%nat → Contain addr m = false) →
  (find_loop fuel s addr first last = Ret (-1) ∧ ∀ j m, map_at s j = Some m → Contain addr m = false) ∨
  (∃ j m, map_at s j = Some m ∧ Contain addr m = true ∧ find_loop fuel s addr first last = Ret (answer_at s j m)).
Proof.
  intros [Hall Hord] fuel. induction fuel as [|fuel IH]; intros first last Hl Hf Hout; cbn [find_loop].
  - rewrite (proj2 (Nat.ltb_ge first last)) by lia. left. split; [done|]. intros j m Hj. apply (Hout j m Hj). lia.
  - destruct (Nat.ltb_spec first last) as [Hlt|Hge]; [|left; split; [done|]; intros j m Hj; apply (Hout j m Hj); lia].
    set (index := ((first + last) / 2)%nat).
    assert (Hi : (first <= index < last)%nat).
    { unfold index. pose proof (Nat.div_mod (first + last) 2). pose proof (Nat.mod_upper_bound (first + last) 2). lia. }
    destruct (Hall index) as (cur & Ec & Hbe); [lia|]. rewrite Ec.
    destruct (Contain addr cur) eqn:Hc.
    { right. exists index, cur. split; [done|]. split; [done|]. unfold answer_at. done. }
    assert (Hnc : ¬ (m_begin cur <= addr < m_end cur)) by (rewrite <- Contain_spec; congruence).
    assert (Hout' : ∀ j m, map_at s j = Some m → j = index ∨ (if addr <? m_begin cur then (index < j)%nat else (j < index)%nat) → Contain addr m = false).
    { intros j m Hj [->|Hcmp]; [congruence|]. apply not_true_iff_false. rewrite Contain_spec.
      destruct (Z.ltb_spec addr (m_begin cur)).
      - pose proof (Hord index j cur m Hcmp Ec Hj). lia.
      - pose proof (Hord j index m cur Hcmp Hj Ec). lia. }
    destruct (Z.ltb_spec addr (m_begin cur)).
    + apply IH; [lia|lia|]. intros j m Hj Hr. destruct (decide (last <= j)%nat); [apply (Hout j m Hj); lia|].
      destruct Hr as [Hr|Hr]; [apply (Hout j m Hj); lia|]. apply (Hout' j m Hj). lia.
    + apply IH; [lia|lia|]. intros j m Hj Hr. destruct (decide (j < first)%nat); [apply (Hout j m Hj); lia|].
      destruct Hr as [Hr|Hr]; [|apply (Hout j m Hj); lia]. apply (Hout' j m Hj). lia.
Qed.

Lemma FindMapIndexByAddr_spec s addr : maps_sorted s →
  (FindMapIndexByAddr addr s = Ret (-1) ∧ ∀ j m, map_at s j = Some m → Contain addr m = false) ∨
  (∃ j m, map_at s j = Some m ∧ Contain addr m = true ∧ FindMapIndexByAddr addr s = Ret (answer_at s j m)).
Proof.
  intros Hs. apply (find_loop_spec s addr Hs); [lia|lia|]. intros j m Hj [Hlt|Hge]; [lia|].
  unfold map_at in Hj. by rewrite lookup_ge_None_2 in Hj by lia.
Qed.

(** ** From the text of the file to the map of an address *)
Section Lookup.
Context (self pid : Z).

(** The order in which the kernel prints mappings. *)
Definition lines_sorted (ls : list line) : Prop :=
  (∀ i x, ls !! i = Some x → v_begin x.2 <= v_end x.2) ∧
  (∀ i j x y, (i < j)%nat → ls !! i = Some x → ls !! j = Some y → v_end x.2 <= v_begin y.2).

Lemma line_map_fields fmt i v :
  m_begin (line_map self pid fmt i v) = v_begin v ∧ m_end (line_map self pid fmt i v) = v_end v.
Proof. unfold line_map. destruct fmt; by case_match. Qed.

Lemma lookup_line_maps fmt ls : ∀ i k, line_maps self pid fmt i ls !! k = (λ x, line_map self pid fmt (i + k) x.2) <$> ls !! k.
Proof.
  induction ls as [|x ls IH]; intros i k; [done|]. destruct k as [|k]; cbn [line_maps lookup list_lookup].
  - by rewrite Nat.add_0_r.
  - rewrite IH. by replace (S i + k)%nat with (i + S k)%nat by lia.
Qed.

Lemma kept_ids_lookup onlyExec ms : ∀ i k a, kept_ids onlyExec i ms !! k = Some a →
  (i + k <= a)%nat ∧ ∃ m, ms !! (a - i)%nat = Some m ∧ kept onlyExec m = true.
Proof.
  induction ms as [|m ms IH]; intros i k a; [done|]. cbn [kept_ids]. destruct (kept onlyExec m) eqn:Ek.
  - destruct k as [|k]; cbn [lookup list_lookup].
    + intros [= <-]. split; [lia|]. exists m. by rewrite Nat.sub_diag.
    + intros (H & m' & Hm & Hk)%IH. split; [lia|]. exists m'. by replace (a - i)%nat with (S (a - S i)) by lia.
  - intros (H & m' & Hm & Hk)%IH. split; [lia|]. exists m'. by replace (a - i)%nat with (S (a - S i)) by lia.
Qed.

Lemma kept_ids_mono onlyExec ms : ∀ i k k' a a', kept_ids onlyExec i ms !! k = Some a → kept_ids onlyExec i ms !! k' = Some a' →
  (k < k')%nat → (a < a')%nat.
Proof.
  induction ms as [|m ms IH]; intros i k k' a a' H H' Hk; [done|]. cbn [kept_ids] in *. destruct (kept onlyExec m); [|by eapply IH].
  destruct k' as [|k']; [lia|]. destruct k as [|k]; cbn [lookup list_lookup] in *.
  - injection H as <-. apply kept_ids_lookup in H' as [H' _]. lia.
  - apply (IH (S i) k k' a a' H H'). lia.
Qed.

Lemma kept_ids_complete onlyExec ms : ∀ i j m, ms !! j = Some m → kept onlyExec m = true →
  ∃ k, kept_ids onlyExec i ms !! k = Some (i + j)%nat.
Proof.
  induction ms as [|m0 ms IH]; intros i j m Hj Hk; [done|]. cbn [kept_ids]. destruct j as [|j]; cbn [lookup list_lookup] in Hj.
  - injection Hj as ->. rewrite Hk. exists 0%nat. cbn. f_equal. lia.
  - destruct (IH (S i) j m Hj Hk) as (k & E). replace (i + S j)%nat with (S i + j)%nat by lia.
    destruct (kept onlyExec m0); [by exists (S k)|by exists k].
Qed.

Lemma kept_ids_length onlyExec ms : ∀ i, (length (kept_ids onlyExec i ms) <= length ms)%nat.
Proof. induction ms as [|m ms IH]; intros i; [done|]. cbn [kept_ids length]. specialize (IH (S i)). case_match; cbn [length]; lia. Qed.

Lemma length_line_maps fmt ls : ∀ i, length (line_maps self pid fmt i ls) = length ls.
Proof. induction ls as [|x ls IH]; intros i; [done|]. cbn. by rewrite IH. Qed.

Lemma line_map_prev fmt i v : v_exec v = true → (0 < i)%nat → prevMap (line_map self pid fmt i v) = Some (i - 1)%nat.
Proof.
  intros He Hi. unfold line_map. set (m := if fmt then _ else _).
  assert (Hx : IsMapExec m = true).
  { unfold m, IsMapExec. assert (E : prots (map_of v) = vma_prots v) by done.
    assert (E' : negb (Z.land (vma_prots v) PROT_EXEC =? 0) = true).
    { unfold vma_prots. rewrite He. by destruct (v_read v), (v_write v). }
    by destruct fmt; cbn [set_name prots]; rewrite E. }
  rewrite Hx. cbn [set_prevMap prevMap]. destruct i as [|i]; [lia|]. f_equal. lia.
Qed.

Section Parsed.
Context (onlyExec fmt : bool) (ls : list line) (s : DfxMaps).
Hypothesis Hstore : map erase (store s) = map erase (line_maps self pid fmt 0 ls).
Hypothesis Hmaps : maps_ s = Some <$> kept_ids onlyExec 0 (line_maps self pid fmt 0 ls).

Lemma store_at i m : store s !! i = Some m → ∃ x, ls !! i = Some x ∧ erase m = erase (line_map self pid fmt i x.2).
Proof.
  intros Hm. assert (E : map erase (store s) !! i = Some (erase m)) by (by rewrite list_lookup_fmap, Hm).
  rewrite Hstore, list_lookup_fmap, lookup_line_maps in E. cbn [Nat.add] in E.
  destruct (ls !! i) as [x|] eqn:Ex; [|done]. cbn in E. exists x. split; [done|]. congruence.
Qed.

Lemma store_has i x : ls !! i = Some x → ∃ m, store s !! i = Some m ∧ erase m = erase (line_map self pid fmt i x.2).
Proof.
  intros Hx. assert (E : map erase (store s) !! i = Some (erase (line_map self pid fmt i x.2))).
  { rewrite Hstore, list_lookup_fmap, lookup_line_maps. cbn [Nat.add]. by rewrite Hx. }
  rewrite list_lookup_fmap in E. destruct (store s !! i) as [m|] eqn:Em; [|done]. exists m. cbn in E. split; [done|congruence].
Qed.

Lemma map_at_inv j m : map_at s j = Some m →
  ∃ a x, kept_ids onlyExec 0 (line_maps self pid fmt 0 ls) !! j = Some a ∧ maps_ s !! j = Some (Some a) ∧ store s !! a = Some m ∧
    ls !! a = Some x ∧ erase m = erase (line_map self pid fmt a x.2) ∧ kept onlyExec (line_map self pid fmt a x.2) = true.
Proof.
  unfold map_at. rewrite Hmaps, list_lookup_fmap. destruct (kept_ids _ _ _ !! j) as [a|] eqn:Ea; [|done]. cbn. intros Hm.
  destruct (store_at a m Hm) as (x & Hx & Ex). exists a, x. repeat (split; [done|]).
  apply kept_ids_lookup in Ea as [_ (m' & Hm' & Hk)]. rewrite Nat.sub_0_r, lookup_line_maps, Hx in Hm'. cbn in Hm'. by injection Hm' as <-.
Qed.

Lemma erase_fields m m' : erase m = erase m' →
  m_begin m = m_begin m' ∧ m_end m = m_end m' ∧ m_name m = m_name m' ∧ prevMap m = prevMap m' ∧ prots m = prots m' ∧
  m_offset m = m_offset m'.
Proof. intros E. repeat split; [by apply (f_equal m_begin) in E|by apply (f_equal m_end) in E|by apply (f_equal m_name) in E
  |by apply (f_equal prevMap) in E|by apply (f_equal prots) in E|by apply (f_equal m_offset) in E]. Qed.

Lemma parsed_sorted : lines_sorted ls → maps_sorted s.
Proof.
  intros [Hbe Hord]. split.
  - intros i Hi. rewrite Hmaps, length_fmap in Hi. apply lookup_lt_is_Some in Hi as [a Ha].
    pose proof Ha as [_ (m' & Hm' & _)]%kept_ids_lookup. rewrite Nat.sub_0_r, lookup_line_maps in Hm'.
    destruct (ls !! a) as [x|] eqn:Ex; [|done]. destruct (store_has a x Ex) as (m & Em & Ee). exists m. split.
    + unfold map_at. rewrite Hmaps, list_lookup_fmap, Ha. done.
    + apply erase_fields in Ee as (-> & -> & _). destruct (line_map_fields fmt a x.2) as [-> ->]. by apply (Hbe a).
  - intros i j m m' Hij (a & x & Ha & _ & _ & Hx & Ee & _)%map_at_inv (a' & x' & Ha' & _ & _ & Hx' & Ee' & _)%map_at_inv.
    apply erase_fields in Ee as (_ & -> & _). apply erase_fields in Ee' as (-> & _).
    destruct (line_map_fields fmt a x.2) as [_ ->]. destruct (line_map_fields fmt a' x'.2) as [-> _].
    apply (Hord a a'); [|done|done]. by eapply kept_ids_mono.
Qed.

Lemma answer_plain j m : StartsWith (m_name m) ADLT_PATH_NAME_START = false → Z.of_nat (length (maps_ s)) < 2 ^ 31 →
  map_at s j = Some m → answer_at s j m = j.
Proof.
  intros Ha Hlen Hj. unfold answer_at. rewrite Ha. cbn [andb]. apply swrap_small; [lia|]. unfold sfits.
  assert (j < length (maps_ s))%nat; [|lia]. unfold map_at in Hj. apply lookup_lt_is_Some. destruct (maps_ s !! j); [by eexists|done].
Qed.

(** A lookup that finds position [j]: the map is the one there, only [prevMap] may be filled in. *)
Lemma FindMapByAddr_at addr j m : map_at s j = Some m → addr ≠ 0 → FindMapIndexByAddr addr s = Ret (Z.of_nat j) →
  ∃ a s' m', maps_ s !! j = Some (Some a) ∧ store s !! a = Some m ∧ FindMapByAddr addr None s = Ret (true, Some a, s') ∧ store s' !! a = Some m' ∧
    set_prevMap None m' = set_prevMap None m ∧ (∀ p, prevMap m = Some p → prevMap m' = Some p).
Proof.
  intros Hj Ha Hi. unfold map_at in Hj. destruct (maps_ s !! j) as [o|] eqn:Eo; [|done]. cbn in Hj. destruct o as [a|]; [|done]. cbn in Hj.
  unfold FindMapByAddr. rewrite Hi. assert (Hne : maps_ s ≠ []) by (intros E; by rewrite E in Eo).
  rewrite bool_decide_false by done. rewrite (proj2 (Z.eqb_neq addr 0)) by done. cbn [orb mbind outcome_mbind].
  rewrite (proj2 (Z.leb_le 0 j)), Nat2Z.id, Eo by lia. cbn [mjoin option_join]. rewrite Hj. cbn [mbind option_bind].
  destruct (1 <=? j); [|exists a, s, m; done]. destruct (prevMap m) as [p|] eqn:Ep; [by exists a, s, m; rewrite Ep|].
  eexists a, _, _. repeat (split; [done|]). cbn [set_store store]. rewrite list_lookup_alter_eq, Hj. cbn. done.
Qed.
End Parsed.

(** C33. From the text of /proc/<pid>/maps to the map of an address: for a file of mappings as the
    kernel prints them, ordered and disjoint, [Create] succeeds (if it keeps any), and a lookup of an
    address finds the kept mapping that contains it, with its range and name, and for an executable
    mapping the map on the line before as its [prevMap], kept or not; if no kept mapping contains
    the address the lookup reports so and changes nothing.  (For the merged library [libadlt] the
    lookup answers with its first executable mapping instead.) *)
Theorem maps_lookup crash fmt (ls : list line) addr :
  0 <= pid → Forall line_ok ls → lines_sorted ls → Z.of_nat (length ls) < 2 ^ 31 → addr ≠ 0 →
  kept_ids (negb crash) 0 (line_maps self pid fmt 0 ls) ≠ [] →
  ∃ s, maps_Create self pid crash fmt (Some (print_file ls)) = Ret (Some s) ∧
    (∀ i x, let m := line_map self pid fmt i x.2 in
       ls !! i = Some x → v_begin x.2 <= addr < v_end x.2 → kept (negb crash) m = true →
       StartsWith (m_name m) ADLT_PATH_NAME_START = false →
       ∃ s' m', FindMapByAddr addr None s = Ret (true, Some i, s') ∧ store s' !! i = Some m' ∧
         m_begin m' = v_begin x.2 ∧ m_end m' = v_end x.2 ∧ m_name m' = m_name m ∧
         (v_exec x.2 = true → (0 < i)%nat → prevMap m' = Some (i - 1)%nat)) ∧
    ((∀ i x, ls !! i = Some x → kept (negb crash) (line_map self pid fmt i x.2) = true →
        ¬ (v_begin x.2 <= addr < v_end x.2)) →
     FindMapByAddr addr None s = Ret (false, None, s)).
Proof.
  intros Hp Hok Hs Hlen Ha Hne. destruct (maps_Create_spec self pid crash fmt ls Hp Hok Hne) as (s & Ec & Hst & Hm).
  exists s. split; [done|]. pose proof (parsed_sorted _ fmt ls s Hst Hm Hs) as Hsorted.
  assert (Hml : Z.of_nat (length (maps_ s)) < 2 ^ 31).
  { pose proof (kept_ids_length (negb crash) (line_maps self pid fmt 0 ls) 0) as H1. rewrite length_line_maps in H1.
    rewrite Hm, length_fmap. lia. }
  split.
  - intros i x m0 Hx Hin Hk Hadlt. 
    destruct (FindMapIndexByAddr_spec s addr Hsorted) as [[_ Hno]|(j & m & Hj & Hc & Ei)].
    + exfalso. destruct (store_has fmt ls s Hst i x Hx) as (m & Em & Ee).
      destruct (kept_ids_complete (negb crash) (line_maps self pid fmt 0 ls) 0 i m0) as (k & Hk'); [|done|].
      { rewrite lookup_line_maps, Hx. done. }
      assert (Hat : map_at s k = Some m) by (unfold map_at; rewrite Hm, list_lookup_fmap, Hk'; done).
      specialize (Hno k m Hat). apply not_true_iff_false in Hno. apply Hno. rewrite Contain_spec.
      apply erase_fields in Ee as (-> & -> & _). destruct (line_map_fields fmt i x.2) as [-> ->]. done.
    + destruct (map_at_inv (negb crash) fmt ls s Hst Hm j m Hj) as (a & y & _ & Hma & Hsa & Hy & Ee & _).
      pose proof (erase_fields _ _ Ee) as (Eb & Een & En & Epr & _). apply Contain_spec in Hc.
      destruct (line_map_fields fmt a y.2) as [Lb Le]. rewrite Eb, Een, Lb, Le in Hc.
      assert (a = i) as ->.
      { destruct Hs as [_ Hord]. destruct (decide (a < i)%nat) as [H1|H1]; [pose proof (Hord a i y x H1 Hy Hx); lia|].
        destruct (decide (i < a)%nat) as [H2|H2]; [pose proof (Hord i a x y H2 Hx Hy); lia|lia]. }
      assert (y = x) as -> by congruence. rewrite (answer_plain s j m) in Ei; [|by rewrite En|done|done].
      destruct (FindMapByAddr_at s addr j m Hj Ha Ei) as (a' & s' & m' & Hma' & Hsa' & Ef & Hm' & Esame & Hprev).
      assert (a' = i) as -> by congruence. exists s', m'. split; [done|]. split; [done|].
      split; [by rewrite <- Lb, <- Eb; apply (f_equal m_begin) in Esame|].
      split; [by rewrite <- Le, <- Een; apply (f_equal m_end) in Esame|].
      split; [transitivity (m_name m); [by apply (f_equal m_name) in Esame|exact En]|].
      intros Hexec Hi. apply Hprev. rewrite Epr. apply line_map_prev; done.
  - intros Hno. destruct (FindMapIndexByAddr_spec s addr Hsorted) as [[Ei _]|(j & m & Hj & Hc & Ei)].
    + unfold FindMapByAddr. rewrite Ei. destruct (_ || _); done.
    + exfalso. destruct (map_at_inv (negb crash) fmt ls s Hst Hm j m Hj) as (a & y & _ & _ & _ & Hy & Ee & Hk).
      apply (Hno a y Hy Hk). apply Contain_spec in Hc. pose proof (erase_fields _ _ Ee) as (Eb & Een & _).
      destruct (line_map_fields fmt a y.2) as [Lb Le]. by rewrite <- Lb, <- Le, <- Eb, <- Een.
Qed.
End Lookup.

(** ** Witnesses *)
Definition sample_lines : list line :=
  [(20%nat, mkVma 0x7658d38000 0x7658d40000 true false false false 0 0xfd 0 123 (lit "/system/lib64/libc.so"));
   (20%nat, mkVma 0x7658d40000 0x7658d50000 true false true false 0x1000 0xfd 0 123 (lit "/system/lib64/libc.so"));
   (0%nat, mkVma 0x7658d60000 0x7658d70000 true true false true 0 0 0 0 [])].

(** The side conditions, as a test. *)
Definition vma_okb (v : vma) : bool :=
  forallb (fitsb 64) [v_begin v; v_end v; v_offset v; v_major v; v_minor v; v_inode v] &&
  bool_decide (NUL ∉ v_name v) && (length (v_name v) <=? maxMapsNameLen)%nat &&
  negb (from_option isspace false (head (v_name v))) && negb (from_option isspace false (list.last (v_name v))).

Lemma vma_okb_ok v : vma_okb v = true → vma_ok v.
Proof.
  unfold vma_okb. cbn [forallb]. rewrite !andb_true_iff, !negb_true_iff, bool_decide_eq_true, Nat.leb_le.
  intros [[[[(H1 & H2 & H3 & H4 & H5 & H6 & _) Hn] Hl] Hh] Ht].
  rewrite !fitsb_spec in *. repeat (split; [done|]). split.
  - intros c E. by rewrite E in Hh.
  - intros c E. by rewrite E in Ht.
Qed.

Lemma sample_lines_ok : Forall line_ok sample_lines.
Proof.
  repeat apply List.Forall_cons; [..|apply List.Forall_nil]; (split; [apply vma_okb_ok; by vm_compute|]);
    (split; [refine (bool_decide_eq_true_1 _ _); by vm_compute|]); apply Nat.ltb_lt; by vm_compute.
Qed.

Lemma map_Parse_ignores_stale_witness :
  map_Parse DfxMap_default (lit "7f-80 r-xp" ++ NUL :: lit "1:2") = map_Parse DfxMap_default (lit "7f-80 r-xp" ++ NUL :: lit "xyz").
Proof. apply map_Parse_ignores_stale; [refine (bool_decide_eq_true_1 _ _); by vm_compute|done]. Defined.

Lemma map_line_roundtrip_witness :
  map_Parse DfxMap_default (print_vma 3 (mkVma 16 32 true false true false 0 1 2 77 (lit "/bin/sh")) ++ chr 10 :: NUL :: lit "old") =
  (true, map_of (mkVma 16 32 true false true false 0 1 2 77 (lit "/bin/sh"))).
Proof.
  apply map_line_roundtrip; [apply vma_okb_ok; by vm_compute|]. apply Nat.ltb_lt. by vm_compute.
Defined.

Lemma maps_lookup_witness :
  ∃ s, maps_Create 1 5 false true (Some (print_file sample_lines)) = Ret (Some s) ∧
    ∃ s' m', FindMapByAddr 0x7658d40010 None s = Ret (true, Some 1%nat, s') ∧ store s' !! 1%nat = Some m' ∧ prevMap m' = Some 0%nat.
Proof.
  destruct (maps_lookup 1 5 false true sample_lines 0x7658d40010) as (s & Hs & Hf & _).
  - lia.
  - apply sample_lines_ok.
  - split.
    + intros i x Hx. do 3 (destruct i as [|i]; [injection Hx as <-; cbn; lia|]). done.
    + intros i j x y Hij Hx Hy. do 3 (destruct i as [|i]; [injection Hx as <-; do 3 (destruct j as [|j]; [first [injection Hy as <-; cbn; lia|lia]|]); done|]). done.
  - done.
  - lia.
  - by vm_compute.
  - exists s. split; [done|]. destruct (Hf 1%nat _ eq_refl) as (s' & m' & H1 & H2 & _ & _ & _ & H3).
    + cbn. lia.
    + by vm_compute.
    + by vm_compute.
    + exists s', m'. split; [done|]. split; [done|]. apply H3; [done|lia].
Defined.
