(* ===== verification/ElfParser.v ===== *)
(** * ELF files

    [DfxMmap] (src/elf/dfx_mmap.cpp) and [ElfParser] (src/elf/dfx_elf_parser.cpp) of the unwinder:
    the mapping of a file, the headers and sections of an ELF file of either class, its dynamic
    table, its function symbols and its build id.

    A mapping is its address and its bytes.  A read through [DfxMmap::Read] is clipped to it; a
    read through a raw pointer that leaves it is undefined.  Pointers have 64 bits.  The operations
    take the mapping as an argument: it is shared with the owner of the parser, and none of them
    changes it.  [memcpy_s] into a buffer of the size copied succeeds. *)
From S2P Require Import Prelude Text Maps.

(** ** The mapping *)
Record DfxMmap := mkMmap {
  mmap_ : option Z;
  size_ : Z;
  mm_bytes : list Z;
  needUnmap_ : bool;
  mm_dataOffset : Z;
  mm_funcOffset : Z
}.
Definition DfxMmap_new : DfxMmap := mkMmap None 0 [] true 0 0.

Definition mmap_Clear (m : DfxMmap) : DfxMmap :=
  match mmap_ m with
  | Some _ => if needUnmap_ m then mkMmap None (size_ m) [] (needUnmap_ m) (mm_dataOffset m) (mm_funcOffset m) else m
  | None => m
  end.

(** [Init(fd, size, offset)]; [mapped] is what [mmap] returns: the address and the bytes there. *)
Definition mmap_Init (fd size : Z) (mapped : option (Z * list Z)) (m : DfxMmap) : bool * DfxMmap :=
  let m := mmap_Clear m in
  if fd <? 0 then (false, m)
  else match mapped with
  | None => (false, mkMmap None 0 [] (needUnmap_ m) (mm_dataOffset m) (mm_funcOffset m))
  | Some (a, bs) => (true, mkMmap (Some a) size bs true (mm_dataOffset m) (mm_funcOffset m))
  end.

(** [Init(data)]; [a] is where the vector keeps its bytes. *)
Definition mmap_Init_data (a : Z) (data : list Z) (m : DfxMmap) : bool * DfxMmap :=
  if (length data =? 0)%nat then (false, m)
  else (true, mkMmap (Some a) (length data) data false (mm_dataOffset m) (mm_funcOffset m)).

Definition mmap_Get (m : DfxMmap) : option Z := mmap_ m.

(** [Read]: the bytes stored and the address. *)
Definition mmap_Read (m : DfxMmap) (addr size : Z) (incre : bool) : list Z * Z :=
  match mmap_ m with
  | None => ([], addr)
  | Some _ =>
      if size_ m <=? addr then ([], addr)
      else
        let actualLen := Z.min (size_ m - addr) size in
        (take (Z.to_nat actualLen) (drop (Z.to_nat addr) (mm_bytes m)),
         if incre then u64 (addr + actualLen) else addr)
  end.

(** A mapping that is there has the bytes its size announces. *)
Definition mmap_ok (m : DfxMmap) : Prop :=
  Z.of_nat (length (mm_bytes m)) = match mmap_ m with Some _ => size_ m | None => 0 end ∧
  Forall is_byte (mm_bytes m) ∧ 0 <= size_ m ∧
  match mmap_ m with Some a => 0 <= a ∧ a + size_ m < 2 ^ 64 | None => True end.

(** ** The structures of elf.h, with every field widened to the larger class *)
Definition fld (bs : list Z) (off n : nat) : Z := of_le (take n (drop off bs)).

Record Ehdr := mkEhdr {
  e_machine : Z; e_phoff : Z; e_shoff : Z; e_phentsize : Z; e_phnum : Z; e_shentsize : Z; e_shnum : Z; e_shstrndx : Z
}.
Record Phdr := mkPhdr { p_type : Z; p_flags : Z; p_offset : Z; p_vaddr : Z; p_memsz : Z; p_align : Z }.
Record Shdr := mkShdr {
  sh_name : Z; sh_type : Z; sh_flags : Z; sh_addr : Z; sh_offset : Z; sh_size : Z; sh_link : Z; sh_info : Z;
  sh_addralign : Z; sh_entsize : Z
}.
Record Sym := mkSym { st_name : Z; st_info : Z; st_other : Z; st_shndx : Z; st_value : Z; st_size : Z }.
Record Dyn := mkDyn { d_tag : Z; d_val : Z }.

(** The types a parser is instantiated with: sizes and layouts. *)
Record elf_class := mkClass {
  sizeof_Ehdr : nat; sizeof_Phdr : nat; sizeof_Shdr : nat; sizeof_Sym : nat; sizeof_Dyn : nat;
  get_Ehdr : list Z → Ehdr; get_Phdr : list Z → Phdr; get_Shdr : list Z → Shdr; get_Sym : list Z → Sym;
  get_Dyn : list Z → Dyn
}.

Definition Elf64 : elf_class := mkClass 64 56 64 24 16
  (λ b, mkEhdr (fld b 18 2) (fld b 32 8) (fld b 40 8) (fld b 54 2) (fld b 56 2) (fld b 58 2) (fld b 60 2) (fld b 62 2))
  (λ b, mkPhdr (fld b 0 4) (fld b 4 4) (fld b 8 8) (fld b 16 8) (fld b 40 8) (fld b 48 8))
  (λ b, mkShdr (fld b 0 4) (fld b 4 4) (fld b 8 8) (fld b 16 8) (fld b 24 8) (fld b 32 8) (fld b 40 4) (fld b 44 4)
               (fld b 48 8) (fld b 56 8))
  (λ b, mkSym (fld b 0 4) (fld b 4 1) (fld b 5 1) (fld b 6 2) (fld b 8 8) (fld b 16 8))
  (λ b, mkDyn (s64 (fld b 0 8)) (fld b 8 8)).

Definition Elf32 : elf_class := mkClass 52 32 40 16 8
  (λ b, mkEhdr (fld b 18 2) (fld b 28 4) (fld b 32 4) (fld b 42 2) (fld b 44 2) (fld b 46 2) (fld b 48 2) (fld b 50 2))
  (λ b, mkPhdr (fld b 0 4) (fld b 24 4) (fld b 4 4) (fld b 8 4) (fld b 20 4) (fld b 28 4))
  (λ b, mkShdr (fld b 0 4) (fld b 4 4) (fld b 8 4) (fld b 12 4) (fld b 16 4) (fld b 20 4) (fld b 24 4) (fld b 28 4)
               (fld b 32 4) (fld b 36 4))
  (λ b, mkSym (fld b 0 4) (fld b 12 1) (fld b 13 1) (fld b 14 2) (fld b 4 4) (fld b 8 4))
  (λ b, mkDyn (s32 (fld b 0 4)) (fld b 4 4)).

(** ** dfx_elf_define.h *)
Definition NOTE_GNU_BUILD_ID : list ascii := lit ".note.gnu.build-id".
Definition NOTES : list ascii := lit ".notes".
Definition GNU_DEBUGDATA : list ascii := lit ".gnu_debugdata".
Definition EH_FRAME_HDR : list ascii := lit ".eh_frame_hdr".
Definition EH_FRAME : list ascii := lit ".eh_frame".
Definition DYNSTR : list ascii := lit ".dynstr".
Definition PLT : list ascii := lit ".plt".
Definition ADLTSTRTAB : list ascii := lit ".adlt.strtab".
Definition ADLTMAP : list ascii := lit ".adlt.map".

Record ElfLoadInfo := mkLoad { l_offset : Z; tableVaddr : Z; tableSize : Z; l_align : Z; mmapLen : Z }.
Record ElfSymbol := mkElfSymbol {
  nameStr : list ascii; es_name : Z; es_info : Z; es_other : Z; es_shndx : Z; value : Z; es_size : Z
}.
Record ElfShdr := mkElfShdr {
  h_name : Z; h_type : Z; h_flags : Z; h_addr : Z; h_offset : Z; h_size : Z; h_link : Z; h_info : Z; h_addrAlign : Z;
  h_entSize : Z
}.
Record ShdrInfo := mkShdrInfo { i_addr : Z; i_entSize : Z; i_offset : Z; i_size : Z }.
Record AdltMapInfo := mkAdlt { pcBegin : Z; pcEnd : Z; psodIndex : Z; nameOffset : Z }.
Record GnuDebugDataHdr := mkDebugData { g_address : Z; g_size : Z }.

#[export] Instance ElfSymbol_eq_dec : EqDecision ElfSymbol.
Proof. solve_decision. Defined.
#[export] Instance ShdrInfo_eq_dec : EqDecision ShdrInfo.
Proof. solve_decision. Defined.

Inductive ArchType := ARCH_UNKNOWN | ARCH_ARM | ARCH_ARM64 | ARCH_X86 | ARCH_X86_64 | ARCH_RISCV64 | ARCH_LOONGARCH.

(** ** The containers of the parser *)

(** [std::string::operator<]. *)
Fixpoint str_ltb (s t : list ascii) : bool :=
  match s, t with
  | _, [] => false
  | [], _ :: _ => true
  | c :: s', d :: t' => (code c <? code d) || ((code c =? code d) && str_ltb s' t')
  end.
Definition key_ltb (k l : Z * list ascii) : bool := (k.1 <? l.1) || ((k.1 =? l.1) && str_ltb k.2 l.2).

(** [std::map::emplace] and [std::set::emplace] on the elements in order: an equivalent key that is
    there stays. *)
Fixpoint shdr_emplace (k : Z * list ascii) (v : ShdrInfo) (l : list ((Z * list ascii) * ShdrInfo))
  : list ((Z * list ascii) * ShdrInfo) :=
  match l with
  | [] => [(k, v)]
  | e :: l' => if key_ltb k e.1 then (k, v) :: l else if key_ltb e.1 k then e :: shdr_emplace k v l' else l
  end.
Fixpoint sym_emplace (s : ElfSymbol) (l : list ElfSymbol) : list ElfSymbol :=
  match l with
  | [] => [s]
  | t :: l' => if value s <? value t then s :: l else if value t <? value s then t :: sym_emplace s l' else l
  end.

(** ** The parser *)
Record ElfParser := mkElfParser {
  funcSymbols_ : list ElfSymbol;
  dynamicOffset_ : Z;
  dtPltGotAddr_ : Z;
  dtStrtabAddr_ : Z;
  dtStrtabSize_ : Z;
  dtSonameOffset_ : Z;
  soname_ : list ascii;
  gnuDebugDataHdr_ : GnuDebugDataHdr;
  archType_ : ArchType;
  elfSize_ : Z;
  loadBias_ : Z;
  startVaddr_ : Z;
  startOffset_ : Z;
  endVaddr_ : Z;
  symShdrs_ : list ElfShdr;
  shdrInfoPairs_ : list ((Z * list ascii) * ShdrInfo);
  ptLoads_ : gmap Z ElfLoadInfo;
  sectionNames_ : list ascii;
  ptAdlt : bool;
  adltStrtab_ : list ascii;
  adltMap_ : list AdltMapInfo
}.
Definition ElfParser_new : ElfParser :=
  mkElfParser [] 0 0 0 0 0 [] (mkDebugData 0 0) ARCH_UNKNOWN 0 0 (2 ^ 64 - 1) 0 0 [] [] ∅ [] false [] [].

Definition set_funcSymbols (l : list ElfSymbol) (s : ElfParser) : ElfParser :=
  mkElfParser l (dynamicOffset_ s) (dtPltGotAddr_ s) (dtStrtabAddr_ s) (dtStrtabSize_ s) (dtSonameOffset_ s)
    (soname_ s) (gnuDebugDataHdr_ s) (archType_ s) (elfSize_ s) (loadBias_ s) (startVaddr_ s)
    (startOffset_ s) (endVaddr_ s) (symShdrs_ s) (shdrInfoPairs_ s) (ptLoads_ s) (sectionNames_ s) (ptAdlt s)
    (adltStrtab_ s) (adltMap_ s).
Definition set_dynamicOffset (o : Z) (s : ElfParser) : ElfParser :=
  mkElfParser (funcSymbols_ s) o (dtPltGotAddr_ s) (dtStrtabAddr_ s) (dtStrtabSize_ s) (dtSonameOffset_ s) (soname_ s)
    (gnuDebugDataHdr_ s) (archType_ s) (elfSize_ s) (loadBias_ s) (startVaddr_ s) (startOffset_ s)
    (endVaddr_ s) (symShdrs_ s) (shdrInfoPairs_ s) (ptLoads_ s) (sectionNames_ s) (ptAdlt s) (adltStrtab_ s)
    (adltMap_ s).
Definition set_dynamic (got addr size son : Z) (s : ElfParser) : ElfParser :=
  mkElfParser (funcSymbols_ s) (dynamicOffset_ s) got addr size son (soname_ s) (gnuDebugDataHdr_ s) (archType_ s)
    (elfSize_ s) (loadBias_ s) (startVaddr_ s) (startOffset_ s) (endVaddr_ s) (symShdrs_ s)
    (shdrInfoPairs_ s) (ptLoads_ s) (sectionNames_ s) (ptAdlt s) (adltStrtab_ s) (adltMap_ s).
Definition set_soname (n : list ascii) (s : ElfParser) : ElfParser :=
  mkElfParser (funcSymbols_ s) (dynamicOffset_ s) (dtPltGotAddr_ s) (dtStrtabAddr_ s) (dtStrtabSize_ s)
    (dtSonameOffset_ s) n (gnuDebugDataHdr_ s) (archType_ s) (elfSize_ s) (loadBias_ s) (startVaddr_ s)
    (startOffset_ s) (endVaddr_ s) (symShdrs_ s) (shdrInfoPairs_ s) (ptLoads_ s) (sectionNames_ s) (ptAdlt s)
    (adltStrtab_ s) (adltMap_ s).
Definition set_debugData (g : GnuDebugDataHdr) (s : ElfParser) : ElfParser :=
  mkElfParser (funcSymbols_ s) (dynamicOffset_ s) (dtPltGotAddr_ s) (dtStrtabAddr_ s) (dtStrtabSize_ s)
    (dtSonameOffset_ s) (soname_ s) g (archType_ s) (elfSize_ s) (loadBias_ s) (startVaddr_ s)
    (startOffset_ s) (endVaddr_ s) (symShdrs_ s) (shdrInfoPairs_ s) (ptLoads_ s) (sectionNames_ s) (ptAdlt s)
    (adltStrtab_ s) (adltMap_ s).
Definition set_arch (a : ArchType) (s : ElfParser) : ElfParser :=
  mkElfParser (funcSymbols_ s) (dynamicOffset_ s) (dtPltGotAddr_ s) (dtStrtabAddr_ s) (dtStrtabSize_ s)
    (dtSonameOffset_ s) (soname_ s) (gnuDebugDataHdr_ s) a (elfSize_ s) (loadBias_ s) (startVaddr_ s)
    (startOffset_ s) (endVaddr_ s) (symShdrs_ s) (shdrInfoPairs_ s) (ptLoads_ s) (sectionNames_ s) (ptAdlt s)
    (adltStrtab_ s) (adltMap_ s).
Definition set_elfSize (z : Z) (s : ElfParser) : ElfParser :=
  mkElfParser (funcSymbols_ s) (dynamicOffset_ s) (dtPltGotAddr_ s) (dtStrtabAddr_ s) (dtStrtabSize_ s)
    (dtSonameOffset_ s) (soname_ s) (gnuDebugDataHdr_ s) (archType_ s) z (loadBias_ s) (startVaddr_ s)
    (startOffset_ s) (endVaddr_ s) (symShdrs_ s) (shdrInfoPairs_ s) (ptLoads_ s) (sectionNames_ s) (ptAdlt s)
    (adltStrtab_ s) (adltMap_ s).
Definition set_loadBias (b : Z) (s : ElfParser) : ElfParser :=
  mkElfParser (funcSymbols_ s) (dynamicOffset_ s) (dtPltGotAddr_ s) (dtStrtabAddr_ s) (dtStrtabSize_ s)
    (dtSonameOffset_ s) (soname_ s) (gnuDebugDataHdr_ s) (archType_ s) (elfSize_ s) b (startVaddr_ s)
    (startOffset_ s) (endVaddr_ s) (symShdrs_ s) (shdrInfoPairs_ s) (ptLoads_ s) (sectionNames_ s) (ptAdlt s)
    (adltStrtab_ s) (adltMap_ s).
Definition set_vaddr (st off en : Z) (s : ElfParser) : ElfParser :=
  mkElfParser (funcSymbols_ s) (dynamicOffset_ s) (dtPltGotAddr_ s) (dtStrtabAddr_ s) (dtStrtabSize_ s)
    (dtSonameOffset_ s) (soname_ s) (gnuDebugDataHdr_ s) (archType_ s) (elfSize_ s) (loadBias_ s) st off en
    (symShdrs_ s) (shdrInfoPairs_ s) (ptLoads_ s) (sectionNames_ s) (ptAdlt s) (adltStrtab_ s) (adltMap_ s).
Definition set_symShdrs (l : list ElfShdr) (s : ElfParser) : ElfParser :=
  mkElfParser (funcSymbols_ s) (dynamicOffset_ s) (dtPltGotAddr_ s) (dtStrtabAddr_ s) (dtStrtabSize_ s)
    (dtSonameOffset_ s) (soname_ s) (gnuDebugDataHdr_ s) (archType_ s) (elfSize_ s) (loadBias_ s)
    (startVaddr_ s) (startOffset_ s) (endVaddr_ s) l (shdrInfoPairs_ s) (ptLoads_ s) (sectionNames_ s)
    (ptAdlt s) (adltStrtab_ s) (adltMap_ s).
Definition set_shdrInfo (l : list ((Z * list ascii) * ShdrInfo)) (s : ElfParser) : ElfParser :=
  mkElfParser (funcSymbols_ s) (dynamicOffset_ s) (dtPltGotAddr_ s) (dtStrtabAddr_ s) (dtStrtabSize_ s)
    (dtSonameOffset_ s) (soname_ s) (gnuDebugDataHdr_ s) (archType_ s) (elfSize_ s) (loadBias_ s)
    (startVaddr_ s) (startOffset_ s) (endVaddr_ s) (symShdrs_ s) l (ptLoads_ s) (sectionNames_ s) (ptAdlt s)
    (adltStrtab_ s) (adltMap_ s).
Definition set_ptLoads (g : gmap Z ElfLoadInfo) (s : ElfParser) : ElfParser :=
  mkElfParser (funcSymbols_ s) (dynamicOffset_ s) (dtPltGotAddr_ s) (dtStrtabAddr_ s) (dtStrtabSize_ s)
    (dtSonameOffset_ s) (soname_ s) (gnuDebugDataHdr_ s) (archType_ s) (elfSize_ s) (loadBias_ s)
    (startVaddr_ s) (startOffset_ s) (endVaddr_ s) (symShdrs_ s) (shdrInfoPairs_ s) g (sectionNames_ s)
    (ptAdlt s) (adltStrtab_ s) (adltMap_ s).
Definition set_sectionNames (n : list ascii) (s : ElfParser) : ElfParser :=
  mkElfParser (funcSymbols_ s) (dynamicOffset_ s) (dtPltGotAddr_ s) (dtStrtabAddr_ s) (dtStrtabSize_ s)
    (dtSonameOffset_ s) (soname_ s) (gnuDebugDataHdr_ s) (archType_ s) (elfSize_ s) (loadBias_ s)
    (startVaddr_ s) (startOffset_ s) (endVaddr_ s) (symShdrs_ s) (shdrInfoPairs_ s) (ptLoads_ s) n (ptAdlt s)
    (adltStrtab_ s) (adltMap_ s).
Definition set_ptAdlt (b : bool) (s : ElfParser) : ElfParser :=
  mkElfParser (funcSymbols_ s) (dynamicOffset_ s) (dtPltGotAddr_ s) (dtStrtabAddr_ s) (dtStrtabSize_ s)
    (dtSonameOffset_ s) (soname_ s) (gnuDebugDataHdr_ s) (archType_ s) (elfSize_ s) (loadBias_ s)
    (startVaddr_ s) (startOffset_ s) (endVaddr_ s) (symShdrs_ s) (shdrInfoPairs_ s) (ptLoads_ s)
    (sectionNames_ s) b (adltStrtab_ s) (adltMap_ s).
Definition set_adltStrtab (n : list ascii) (s : ElfParser) : ElfParser :=
  mkElfParser (funcSymbols_ s) (dynamicOffset_ s) (dtPltGotAddr_ s) (dtStrtabAddr_ s) (dtStrtabSize_ s)
    (dtSonameOffset_ s) (soname_ s) (gnuDebugDataHdr_ s) (archType_ s) (elfSize_ s) (loadBias_ s)
    (startVaddr_ s) (startOffset_ s) (endVaddr_ s) (symShdrs_ s) (shdrInfoPairs_ s) (ptLoads_ s)
    (sectionNames_ s) (ptAdlt s) n (adltMap_ s).
Definition set_adltMap (l : list AdltMapInfo) (s : ElfParser) : ElfParser :=
  mkElfParser (funcSymbols_ s) (dynamicOffset_ s) (dtPltGotAddr_ s) (dtStrtabAddr_ s) (dtStrtabSize_ s)
    (dtSonameOffset_ s) (soname_ s) (gnuDebugDataHdr_ s) (archType_ s) (elfSize_ s) (loadBias_ s)
    (startVaddr_ s) (startOffset_ s) (endVaddr_ s) (symShdrs_ s) (shdrInfoPairs_ s) (ptLoads_ s)
    (sectionNames_ s) (ptAdlt s) (adltStrtab_ s) l.

(** ** Strings of bytes *)
Definition chars (bs : list Z) : list ascii := map chr bs.

(** [s.find('\0', pos)] for [pos] in range. *)
Definition find_nul (s : list ascii) (pos : nat) : option nat :=
  if (length (c_str (drop pos s)) =? length (drop pos s))%nat then None
  else Some (pos + length (c_str (drop pos s)))%nat.
Definition substr (s : list ascii) (pos n : nat) : list ascii := take n (drop pos s).

(** ** Reading *)
Section Parser.
Context (C : elf_class) (mm : DfxMmap).

Definition ep_Read (pos size : Z) : option (list Z) :=
  let bs := (mmap_Read mm pos size false).1 in
  if Z.of_nat (length bs) =? size then Some bs else None.
Definition MmapSize : Z := size_ mm.

(** ** Program headers *)
Definition EM_386 : Z := 3.
Definition EM_ARM : Z := 40.
Definition EM_X86_64 : Z := 62.
Definition EM_AARCH64 : Z := 183.
Definition EM_RISCV : Z := 243.
Definition EM_LOONGARCH : Z := 258.
Definition PT_LOAD : Z := 1.
Definition PT_DYNAMIC : Z := 2.
Definition PT_ADLT : Z := 0x6788FC61.
Definition PF_X : Z := 1.

Definition CalcMmapLen (tableSize tableVaddr align : Z) : Z :=
  if align =? 1 then tableSize
  else
    let len := u64 (tableSize + Z.land tableVaddr (u64 (align - 1))) in
    u64 (len - Z.land len (u64 (align - 1)) + align).

Definition ParseElfHeaders (ehdr : Ehdr) (s : ElfParser) : bool * ElfParser :=
  if e_shnum ehdr =? 0 then (false, s)
  else
    let machine := e_machine ehdr in
    let s :=
      if machine =? EM_ARM then set_arch ARCH_ARM s
      else if machine =? EM_386 then set_arch ARCH_X86 s
      else if machine =? EM_AARCH64 then set_arch ARCH_ARM64 s
      else if machine =? EM_RISCV then set_arch ARCH_RISCV64 s
      else if machine =? EM_X86_64 then set_arch ARCH_X86_64 s
      else if machine =? EM_LOONGARCH then set_arch ARCH_LOONGARCH s
      else s in
    (true, set_elfSize (u64 (e_shoff ehdr + e_shentsize ehdr * e_shnum ehdr)) s).

Definition UpdateVaddrAndOffset (phdr : Phdr) (s : ElfParser) : ElfParser :=
  let '(st, off) :=
    if p_vaddr phdr <? startVaddr_ s then (p_vaddr phdr, p_offset phdr) else (startVaddr_ s, startOffset_ s) in
  let endVaddr := u64 (p_vaddr phdr + p_memsz phdr) in
  set_vaddr st off (if endVaddr_ s <? endVaddr then endVaddr else endVaddr_ s) s.

(** The body of the loop: the state and [firstLoadHeader]. *)
Definition parse_phdr (phdr : Phdr) (first : bool) (s : ElfParser) : bool * ElfParser :=
  if p_type phdr =? PT_LOAD then
    if p_align phdr =? 0 then (first, s)
    else
      let load := mkLoad (p_offset phdr) (p_vaddr phdr) (p_memsz phdr) (p_align phdr)
                    (CalcMmapLen (p_memsz phdr) (p_vaddr phdr) (p_align phdr)) in
      let s := set_ptLoads (<[p_offset phdr := load]> (ptLoads_ s)) s in
      if Z.land (p_flags phdr) PF_X =? 0 then (first, s)
      else
        let s := if first then set_loadBias (s64 (u64 (p_vaddr phdr - p_offset phdr))) s else s in
        (false, UpdateVaddrAndOffset phdr s)
  else if p_type phdr =? PT_ADLT then (first, set_ptAdlt true s)
  else if p_type phdr =? PT_DYNAMIC then (first, set_dynamicOffset (p_offset phdr) s)
  else (first, s).

Fixpoint phdr_loop (n : nat) (entsize offset : Z) (first : bool) (s : ElfParser) : bool * ElfParser :=
  match n with
  | O => (true, s)
  | S n' =>
      match ep_Read offset (sizeof_Phdr C) with
      | None => (false, s)
      | Some bs =>
          let '(first, s) := parse_phdr (get_Phdr C bs) first s in
          phdr_loop n' entsize (u64 (offset + entsize)) first s
      end
  end.

Definition ParseProgramHeaders (ehdr : Ehdr) (s : ElfParser) : bool * ElfParser :=
  if e_phentsize ehdr <? sizeof_Phdr C then (false, s)
  else phdr_loop (Z.to_nat (e_phnum ehdr)) (e_phentsize ehdr) (e_phoff ehdr) true s.

(** ** Section headers *)
Definition SHT_SYMTAB : Z := 2.
Definition SHT_DYNSYM : Z := 11.
Definition sizeof_AdltMapInfo : nat := 16.

Definition GetAdltStrTabSectionInfo (shOffset shSize : Z) (s : ElfParser) : ElfParser :=
  if (shSize =? 0) || (MmapSize <? shSize) then s
  else match ep_Read shOffset shSize with
  | None => s
  | Some bs => set_adltStrtab (chars bs) s
  end.

Definition get_AdltMapInfo (b : list Z) : AdltMapInfo := mkAdlt (fld b 0 4) (fld b 4 4) (fld b 8 4) (fld b 12 4).
Fixpoint adlt_entries (n : nat) (bs : list Z) : list AdltMapInfo :=
  match n with
  | O => []
  | S n' => get_AdltMapInfo bs :: adlt_entries n' (drop sizeof_AdltMapInfo bs)
  end.

Definition GetAdltMapSectionInfo (shOffset shSize : Z) (s : ElfParser) : ElfParser :=
  if negb (shSize mod sizeof_AdltMapInfo =? 0) then s
  else
    let mapNum := shSize / sizeof_AdltMapInfo in
    if (mapNum =? 0) || (MmapSize <? shSize) then s
    else match ep_Read shOffset shSize with
    | None => s
    | Some bs => set_adltMap (adlt_entries (Z.to_nat mapNum) bs) s
    end.

Definition ExtractSymSectionHeadersInfo (shdr : Shdr) (s : ElfParser) : ElfParser :=
  set_symShdrs (symShdrs_ s ++ [mkElfShdr (sh_name shdr) (sh_type shdr) (sh_flags shdr) (sh_addr shdr) (sh_offset shdr)
    (sh_size shdr) (sh_link shdr) (sh_info shdr) (sh_addralign shdr) (sh_entsize shdr)]) s.

Definition GetSectionNameByIndex (name : Z) (s : ElfParser) : option (list ascii) :=
  let names := sectionNames_ s in
  if (length names =? 0)%nat || (Z.of_nat (length names) <=? name) then None
  else
    match find_nul names (Z.to_nat name) with
    | Some endIndex => Some (substr names (Z.to_nat name) (endIndex - Z.to_nat name))
    | None => None
    end.

(** [ParseStrTab]: the string, or [None] when it fails and leaves it alone. *)
Definition ParseStrTab (offset size : Z) : option (list ascii) :=
  if negb (fitsb 64 (offset + size)) || (MmapSize <? size) || (MmapSize <? offset + size) then None
  else match ep_Read offset size with
  | None => None
  | Some bs => Some (chars bs)
  end.

Definition shdr_info (shdr : Shdr) : ShdrInfo :=
  mkShdrInfo (sh_addr shdr) (sh_entsize shdr) (sh_offset shdr) (sh_size shdr).

(** The body of the loop of [ExtractSectionHeadersInfo], for the section [i] read as [shdr]. *)
Definition extract_shdr (ehdr : Ehdr) (i : Z) (shdr : Shdr) (s : ElfParser) : ElfParser :=
  match GetSectionNameByIndex (sh_name shdr) s with
  | None => s
  | Some secName =>
      let s :=
        if 0 <? sh_size shdr then
          if bool_decide (secName = ADLTSTRTAB) then GetAdltStrTabSectionInfo (sh_offset shdr) (sh_size shdr) s
          else if bool_decide (secName = ADLTMAP) then GetAdltMapSectionInfo (sh_offset shdr) (sh_size shdr) s
          else s
        else s in
      let s :=
        if negb (sh_size shdr =? 0) && bool_decide (secName = GNU_DEBUGDATA) then
          match mmap_Get mm with
          | Some base => set_debugData (mkDebugData (u64 (sh_offset shdr + base)) (sh_size shdr)) s
          | None => s
          end
        else s in
      let s := set_shdrInfo (shdr_emplace (i, secName) (shdr_info shdr) (shdrInfoPairs_ s)) s in
      if (sh_type shdr =? SHT_SYMTAB) || (sh_type shdr =? SHT_DYNSYM) then
        if e_shnum ehdr <=? sh_link shdr then s else ExtractSymSectionHeadersInfo shdr s
      else s
  end.

Fixpoint shdr_loop (n : nat) (ehdr : Ehdr) (i offset : Z) (s : ElfParser) : bool * ElfParser :=
  match n with
  | O => (true, s)
  | S n' =>
      let next := shdr_loop n' ehdr (i + 1) (u64 (offset + e_shentsize ehdr)) in
      if i =? e_shstrndx ehdr then next s
      else match ep_Read offset (sizeof_Shdr C) with
      | None => (false, s)
      | Some bs => next (extract_shdr ehdr i (get_Shdr C bs) s)
      end
  end.

Definition ExtractSectionHeadersInfo (ehdr : Ehdr) (s : ElfParser) : bool * ElfParser :=
  if e_shentsize ehdr <? sizeof_Shdr C then (false, s)
  else shdr_loop (Z.to_nat (e_shnum ehdr - 1)) ehdr 1 (u64 (e_shoff ehdr + e_shentsize ehdr)) s.

Definition ParseSectionHeaders (ehdr : Ehdr) (s : ElfParser) : bool * ElfParser :=
  if e_shstrndx ehdr <? e_shnum ehdr then
    match ep_Read (u64 (e_shoff ehdr + e_shstrndx ehdr * e_shentsize ehdr)) (sizeof_Shdr C) with
    | None => (false, s)
    | Some bs =>
        let shdr := get_Shdr C bs in
        match ParseStrTab (sh_offset shdr) (sh_size shdr) with
        | None => (false, s)
        | Some names => ExtractSectionHeadersInfo ehdr (set_sectionNames names s)
        end
    end
  else (false, s).

(** [ParseAllHeaders], the [InitHeaders] of both parsers. *)
Definition ParseAllHeaders (s : ElfParser) : bool * ElfParser :=
  match ep_Read 0 (sizeof_Ehdr C) with
  | None => (false, s)
  | Some bs =>
      let ehdr := get_Ehdr C bs in
      let '(ok, s) := ParseElfHeaders ehdr s in
      if negb ok then (false, s)
      else
        let '(ok, s) := ParseProgramHeaders ehdr s in
        if negb ok then (false, s) else ParseSectionHeaders ehdr s
  end.

(** ** Sections *)
Definition GetSectionInfo_idx (idx : Z) (s : ElfParser) : option ShdrInfo :=
  snd <$> List.find (λ e, e.1.1 =? idx) (shdrInfoPairs_ s).
Definition GetSectionInfo (secName : list ascii) (s : ElfParser) : option ShdrInfo :=
  snd <$> List.find (λ e, bool_decide (e.1.2 = secName)) (shdrInfoPairs_ s).

(** [GetSectionData(buf, size, secName)]: the bytes put into [buf] on success. *)
Definition GetSectionData (size : Z) (secName : list ascii) (s : ElfParser) : option (list Z) :=
  match GetSectionInfo secName s with
  | Some shdr => ep_Read (i_offset shdr) size
  | None => None
  end.

(** ** The dynamic table

    [rd_dyn]: the entry at the address [a], through a raw pointer. *)
Definition DT_NULL : Z := 0.
Definition DT_PLTGOT : Z := 3.
Definition DT_STRTAB : Z := 5.
Definition DT_STRSZ : Z := 10.
Definition DT_SONAME : Z := 14.

Definition rd_dyn (base a : Z) : outcome Dyn :=
  if (base <=? a) && (a + sizeof_Dyn C <=? base + size_ mm)
  then Ret (get_Dyn C (take (sizeof_Dyn C) (drop (Z.to_nat (a - base)) (mm_bytes mm))))
  else Undef OutOfBounds.

Fixpoint dyn_loop (fuel : nat) (base dyn : Z) (s : ElfParser) : outcome ElfParser :=
  if u64 (dyn + sizeof_Dyn C) <=? base + size_ mm then
    match fuel with
    | O => OutOfFuel
    | S fuel' =>
        e ← rd_dyn base dyn;
        if d_tag e =? DT_NULL then Ret s
        else
          let dyn := u64 (dyn + sizeof_Dyn C) in
          if d_tag e =? DT_PLTGOT then
            Ret (set_dynamic (d_val e) (dtStrtabAddr_ s) (dtStrtabSize_ s) (dtSonameOffset_ s) s)
          else if d_tag e =? DT_STRTAB then
            dyn_loop fuel' base dyn (set_dynamic (dtPltGotAddr_ s) (d_val e) (dtStrtabSize_ s) (dtSonameOffset_ s) s)
          else if d_tag e =? DT_STRSZ then
            dyn_loop fuel' base dyn (set_dynamic (dtPltGotAddr_ s) (dtStrtabAddr_ s) (d_val e) (dtSonameOffset_ s) s)
          else if d_tag e =? DT_SONAME then
            dyn_loop fuel' base dyn (set_dynamic (dtPltGotAddr_ s) (dtStrtabAddr_ s) (dtStrtabSize_ s) (d_val e) s)
          else dyn_loop fuel' base dyn s
    end
  else Ret s.

(** Every iteration moves on by an entry, inside the mapping. *)
Definition dyn_fuel : nat := S (Z.to_nat (size_ mm)).

Definition ParseElfDynamic (s : ElfParser) : outcome (bool * ElfParser) :=
  match mmap_Get mm with
  | None => Ret (false, s)
  | Some base =>
      if dynamicOffset_ s =? 0 then Ret (false, s)
      else
        let dyn := u64 (dynamicOffset_ s + base) in
        if dyn =? 0 then Ret (false, s)
        else s ← dyn_loop dyn_fuel base dyn s; Ret (true, s)
  end.

(** [ReadString] (src/memory/dfx_memory.cpp) with the [Read] of the mapping; [old] is the string
    before, which a failure keeps. *)
Definition STR_BUF_LEN : Z := 128.
Fixpoint mmap_string_loop (fuel : nat) (addr maxSize offset : Z) (old : list ascii) : outcome (list ascii) :=
  if maxSize <=? offset then Ret old
  else match fuel with
  | O => OutOfFuel
  | S fuel' =>
      let readn := Z.min STR_BUF_LEN (maxSize - offset) in
      let buf := (mmap_Read mm (u64 (addr + offset)) readn false).1 in
      if (length buf =? 0)%nat then Ret old
      else
        let len := length (c_str (chars buf)) in
        if (length buf <=? len)%nat then mmap_string_loop fuel' addr maxSize (offset + length buf) old
        else if offset =? 0 then Ret (take len (chars buf))
        else
          let total := offset + len in
          let bs := (mmap_Read mm addr total false).1 in
          Ret (chars bs ++ replicate (Z.to_nat total - length bs) NUL)
  end.

Definition ParseElfName (s : ElfParser) : outcome (bool * ElfParser) :=
  '(ok, s) ← ParseElfDynamic s;
  if negb (ok : bool) then Ret (false, s)
  else match GetSectionInfo DYNSTR s with
  | None => Ret (false, s)
  | Some shdrInfo =>
      let sonameOffset := i_offset shdrInfo + dtSonameOffset_ s in
      let sonameOffsetMax := i_offset shdrInfo + dtStrtabSize_ s in
      if negb (fitsb 64 sonameOffset) || negb (fitsb 64 sonameOffsetMax) || (dtStrtabSize_ s <? dtSonameOffset_ s)
         || (MmapSize <=? sonameOffset)
      then Ret (false, s)
      else
        let maxStrSize := sonameOffsetMax - sonameOffset in
        n ← mmap_string_loop (S (Z.to_nat (size_ mm))) sonameOffset maxStrSize 0 (soname_ s);
        Ret (true, set_soname n s)
  end.

Definition ep_GetElfName (s : ElfParser) : outcome (list ascii * ElfParser) :=
  if (length (soname_ s) =? 0)%nat then '(_, s) ← ParseElfName s; Ret (soname_ s, s) else Ret (soname_ s, s).
Definition ep_GetGlobalPointer (s : ElfParser) : outcome (Z * ElfParser) :=
  if dtPltGotAddr_ s =? 0 then '(_, s) ← ParseElfDynamic s; Ret (dtPltGotAddr_ s, s) else Ret (dtPltGotAddr_ s, s).

(** ** Function symbols *)
Definition SHN_UNDEF : Z := 0.
Definition STT_FUNC : Z := 2.
Definition STT_GNU_IFUNC : Z := 10.
Definition ELF32_ST_TYPE (info : Z) : Z := Z.land info 0xf.

Definition IsFunc (sym : Sym) : bool :=
  negb (st_shndx sym =? SHN_UNDEF) &&
  ((ELF32_ST_TYPE (st_info sym) =? STT_FUNC) || (ELF32_ST_TYPE (st_info sym) =? STT_GNU_IFUNC)).

Definition ReadSymType (shdr : ElfShdr) (idx : Z) : option Sym :=
  match ep_Read (u64 (h_offset shdr + u64 (idx * h_entSize shdr))) (sizeof_Sym C) with
  | None => None
  | Some bs =>
      let sym := get_Sym C bs in
      if (st_value sym =? 0) || (st_size sym =? 0) then None else Some sym
  end.

(** [std::string(base + off, strnlen(base + off, n))], through a raw pointer. *)
Definition rd_string (off n : Z) : outcome (list ascii) :=
  if (0 <=? off) && (off + n <=? length (mm_bytes mm))
  then Ret (c_str (chars (take (Z.to_nat n) (drop (Z.to_nat off) (mm_bytes mm)))))
  else Undef OutOfBounds.

Definition ParseFuncSymbolName (linkShdr : ShdrInfo) (sym : Sym) : outcome (option (list ascii)) :=
  if negb (IsFunc sym) || match mmap_Get mm with None => true | Some _ => false end then Ret None
  else
    let mmapSize := MmapSize in
    if (mmapSize <=? i_offset linkShdr) || (mmapSize - i_offset linkShdr <? i_size linkShdr) then Ret None
    else if i_size linkShdr <=? st_name sym then Ret None
    else
      let nameOffset := i_offset linkShdr + st_name sym in
      if negb (fitsb 64 nameOffset) || (mmapSize <=? nameOffset) then Ret None
      else n ← rd_string nameOffset (mmapSize - nameOffset); Ret (Some n).

Definition elf_symbol (sym : Sym) (n : list ascii) : ElfSymbol :=
  mkElfSymbol n (st_name sym) 0 0 0 (st_value sym) (st_size sym).

Fixpoint sym_loop (n : nat) (idx : Z) (shdr : ElfShdr) (linkShdr : ShdrInfo) (l : list ElfSymbol)
  : outcome (list ElfSymbol) :=
  match n with
  | O => Ret l
  | S n' =>
      match ReadSymType shdr idx with
      | None => sym_loop n' (idx + 1) shdr linkShdr l
      | Some sym =>
          name ← ParseFuncSymbolName linkShdr sym;
          match name with
          | None => sym_loop n' (idx + 1) shdr linkShdr l
          | Some nm => sym_loop n' (idx + 1) shdr linkShdr (sym_emplace (elf_symbol sym nm) l)
          end
      end
  end.

Definition maxSymbolCount : Z := 1024 * 1024.
Definition sym_count (shdr : ElfShdr) : Z := u32 (h_size shdr / h_entSize shdr).

(** [ParseFuncSymbols(shdr)]; its result is not used. *)
Definition ParseFuncSymbols_shdr (shdr : ElfShdr) (s : ElfParser) : outcome ElfParser :=
  match GetSectionInfo_idx (h_link shdr) s with
  | None => Ret s
  | Some linkShdr =>
      if (h_entSize shdr =? 0) || (MmapSize <? h_size shdr) then Ret s
      else
        let count := sym_count shdr in
        if maxSymbolCount <? count then Ret s
        else l ← sym_loop (Z.to_nat count) 0 shdr linkShdr (funcSymbols_ s); Ret (set_funcSymbols l s)
  end.

Fixpoint func_symbols_loop (shdrs : list ElfShdr) (s : ElfParser) : outcome ElfParser :=
  match shdrs with
  | [] => Ret s
  | shdr :: shdrs' => s ← ParseFuncSymbols_shdr shdr s; func_symbols_loop shdrs' s
  end.

Definition ParseFuncSymbols (s : ElfParser) : outcome (bool * ElfParser) :=
  match symShdrs_ s with
  | [] => Ret (false, s)
  | shdrs =>
      s ← func_symbols_loop shdrs (set_funcSymbols [] s);
      Ret (0 <? Z.of_nat (length (funcSymbols_ s)), s)
  end.

Definition ep_GetFuncSymbols (s : ElfParser) : outcome (list ElfSymbol * ElfParser) :=
  '(_, s) ← ParseFuncSymbols s; Ret (funcSymbols_ s, s).

(** One table of [ParseFuncSymbolByAddr]. *)
Fixpoint addr_loop (n : nat) (idx : Z) (shdr : ElfShdr) (linkShdr : ShdrInfo) (addr : Z) : outcome (option ElfSymbol) :=
  match n with
  | O => Ret None
  | S n' =>
      match ReadSymType shdr idx with
      | None => addr_loop n' (idx + 1) shdr linkShdr addr
      | Some sym =>
          if (st_value sym <=? addr) && (addr - st_value sym <? st_size sym) then
            name ← ParseFuncSymbolName linkShdr sym;
            match name with
            | Some nm => Ret (Some (elf_symbol sym nm))
            | None => addr_loop n' (idx + 1) shdr linkShdr addr
            end
          else addr_loop n' (idx + 1) shdr linkShdr addr
      end
  end.

Fixpoint by_addr_loop (shdrs : list ElfShdr) (s : ElfParser) (addr : Z) : outcome (option ElfSymbol) :=
  match shdrs with
  | [] => Ret None
  | shdr :: shdrs' =>
      match GetSectionInfo_idx (h_link shdr) s with
      | None => Ret None
      | Some linkShdr =>
          if (h_entSize shdr =? 0) || (MmapSize <? h_size shdr) then by_addr_loop shdrs' s addr
          else
            r ← addr_loop (Z.to_nat (sym_count shdr)) 0 shdr linkShdr addr;
            match r with
            | Some sym => Ret (Some sym)
            | None => by_addr_loop shdrs' s addr
            end
      end
  end.

(** [ParseFuncSymbolByAddr], the [GetFuncSymbolByAddr] of both parsers. *)
Definition ParseFuncSymbolByAddr (addr : Z) (s : ElfParser) : outcome (option ElfSymbol) :=
  by_addr_loop (symShdrs_ s) s addr.
End Parser.

(** ** The build id

    [note]: the bytes readable from [noteAddr]; a copy past them is undefined. *)
Definition sizeof_Nhdr : nat := 12.
Definition NT_GNU_BUILD_ID : Z := 3.

Definition rd_note (note : list Z) (off n : Z) : outcome (list Z) :=
  if off + n <=? length note then Ret (take (Z.to_nat n) (drop (Z.to_nat off) note)) else Undef OutOfBounds.

(** [(static_cast<uint64_t>(n) + 3) & ~3]. *)
Definition align4 (n : Z) : Z := Z.land (u64 (n + 3)) (u64 (Z.lnot 3)).

(** [ReadNoteName]: the name and the new offset, or [None] when it fails. *)
Definition ReadNoteName (note : list Z) (noteSize offset nNamesz : Z) : outcome (option (list ascii * Z)) :=
  if noteSize - offset <? nNamesz then Ret None
  else
    bs ← rd_note note offset nNamesz;
    let name := chars bs in
    let name := if bool_decide (List.last name " "%char = NUL) then List.removelast name else name in
    let alignedNamesz := align4 nNamesz in
    if noteSize - offset <? alignedNamesz then Ret None
    else Ret (Some (name, u64 (offset + alignedNamesz))).

Fixpoint note_loop (fuel : nat) (note : list Z) (noteSize offset : Z) : outcome (list ascii) :=
  if offset <? noteSize then
    match fuel with
    | O => OutOfFuel
    | S fuel' =>
        if noteSize - offset <? sizeof_Nhdr then Ret []
        else
          nhdr ← rd_note note offset sizeof_Nhdr;
          let n_namesz := fld nhdr 0 4 in
          let n_descsz := fld nhdr 4 4 in
          let n_type := fld nhdr 8 4 in
          let offset := offset + sizeof_Nhdr in
          if n_namesz =? 0 then
            if noteSize - offset <? align4 n_descsz then Ret []
            else note_loop fuel' note noteSize (offset + align4 n_descsz)
          else
            r ← ReadNoteName note noteSize offset n_namesz;
            match r with
            | None => Ret []
            | Some (name, offset) =>
                if negb (bool_decide (name = lit "GNU")) || negb (n_type =? NT_GNU_BUILD_ID) then
                  if noteSize - offset <? align4 n_descsz then note_loop fuel' note noteSize offset
                  else note_loop fuel' note noteSize (offset + align4 n_descsz)
                else if (noteSize - offset <? n_descsz) || (n_descsz =? 0) then Ret []
                else raw ← rd_note note offset n_descsz; Ret (chars raw)
            end
    end
  else Ret [].

(** Every iteration reads a header. *)
Definition ParseHexBuildId (note : list Z) (noteAddr noteSize : Z) : outcome (list ascii) :=
  if negb (fitsb 64 (noteAddr + noteSize)) then Ret []
  else note_loop (Z.to_nat noteSize) note noteSize 0.

Definition hexTable (d : Z) : ascii := nth (Z.to_nat d) (lit "0123456789abcdef") NUL.
Definition ToReadableBuildId (buildIdHex : list ascii) : list ascii :=
  if 2 ^ 63 - 1 <? Z.of_nat (length buildIdHex) then []
  else
    concat (map (λ c, let n := u32 (s8 (code c)) in [hexTable (Z.shiftr n 4 mod 16); hexTable (n mod 16)]) buildIdHex).

Definition ep_GetBuildId (mm : DfxMmap) (s : ElfParser) : outcome (list ascii) :=
  let shdr := match GetSectionInfo NOTE_GNU_BUILD_ID s with Some i => Some i | None => GetSectionInfo NOTES s end in
  match shdr, mmap_Get mm with
  | Some shdr, Some base =>
      let mmapSize := MmapSize mm in
      if (mmapSize <=? i_offset shdr) || negb (fitsb 64 (i_offset shdr + i_size shdr)) || (mmapSize <? i_offset shdr + i_size shdr)
      then Ret []
      else
        hex ← ParseHexBuildId (drop (Z.to_nat (i_offset shdr)) (mm_bytes mm)) (u64 (base + i_offset shdr)) (i_size shdr);
        Ret (if (length hex =? 0)%nat then [] else ToReadableBuildId hex)
  | _, _ => Ret []
  end.

(** ** The files merged into an ADLT file *)
Definition GetNameByNameOffset (nameOffset : Z) (s : ElfParser) : list ascii :=
  if nameOffset <? length (adltStrtab_ s) then
    match find_nul (adltStrtab_ s) (Z.to_nat nameOffset) with
    | Some endPos => substr (adltStrtab_ s) (Z.to_nat nameOffset) (endPos - Z.to_nat nameOffset)
    | None => []
    end
  else [].

(** [std::lower_bound] over a random-access range: the number of elements before the position. *)
Fixpoint lower_bound_loop (fuel : nat) (l : list AdltMapInfo) (pc : Z) (first len : nat) : outcome nat :=
  match len with
  | O => Ret first
  | _ =>
      match fuel with
      | O => OutOfFuel
      | S fuel' =>
          let half := Nat.div2 len in
          match l !! (first + half)%nat with
          | None => Undef OutOfBounds
          | Some info =>
              if pcEnd info <=? pc then lower_bound_loop fuel' l pc (first + half + 1)%nat (len - half - 1)%nat
              else lower_bound_loop fuel' l pc first half
          end
      end
  end.
Definition GetAdltOriginSoNameByRelPc (relPc : Z) (s : ElfParser) : outcome (list ascii) :=
  it ← lower_bound_loop (length (adltMap_ s)) (adltMap_ s) relPc 0 (length (adltMap_ s));
  match adltMap_ s !! it with
  | Some info =>
      Ret (if (pcBegin info <=? relPc) && (relPc <? pcEnd info) then GetNameByNameOffset (nameOffset info) s else [])
  | None => Ret []
  end.

(** ** Reading notes *)
Lemma align4_eq n : 0 <= n → n + 3 < 2 ^ 64 → align4 n = 4 * ((n + 3) / 4).
Proof.
  intros Hn Hb. assert (Hf : fits 64 (n + 3)) by (split; lia). unfold align4. rewrite (wrap_small _ _ Hf).
  transitivity (Z.ldiff (n + 3) (Z.ones 2)).
  - apply Z.bits_inj'. intros i Hi. rewrite Z.land_spec, Z.ldiff_spec.
    destruct (Z.lt_ge_cases i 64) as [Hlt|Hge].
    + unfold wrap. rewrite Z.mod_pow2_bits_low, Z.lnot_spec by lia. done.
    + by rewrite (fits_testbit 64 (n + 3) i) by (done || lia).
  - rewrite Z.ldiff_ones_r, Z.shiftl_mul_pow2, Z.shiftr_div_pow2 by lia. change (2 ^ 2) with 4. lia.
Qed.

Lemma align4_bounds n : 0 <= n → n + 3 < 2 ^ 64 → n <= align4 n <= n + 3.
Proof. intros. rewrite align4_eq by done. Z.to_euclidean_division_equations; lia. Qed.

Lemma length_take_drop {A} (l : list A) (off n : nat) : length (take n (drop off l)) = (n `min` (length l - off))%nat.
Proof. by rewrite length_take, length_drop. Qed.

Lemma fld_fits bs (off n : nat) : Forall is_byte bs → fits (8 * n) (fld bs off n).
Proof.
  intros H. unfold fld. pose proof (of_le_range (take n (drop off bs))) as R. apply fits_mono with (8 * length (take n (drop off bs))).
  - rewrite length_take_drop. lia.
  - apply R. by apply Forall_take, Forall_drop.
Qed.

Lemma rd_note_Ret note off n : off + n <= length note →
  rd_note note off n = Ret (take (Z.to_nat n) (drop (Z.to_nat off) note)).
Proof. intros. unfold rd_note. by rewrite (proj2 (Z.leb_le _ _)). Qed.

Lemma ReadNoteName_safe note noteSize offset nNamesz :
  0 <= offset <= noteSize → noteSize <= length note → noteSize < 2 ^ 63 → fits 32 nNamesz →
  spec (λ _, False) (ReadNoteName note noteSize offset nNamesz)
    (λ r, from_option (λ '(_, o), offset <= o <= noteSize) True r).
Proof.
  intros Ho Hs Hb [Hn Hn']. unfold ReadNoteName. change (2 ^ 32) with 4294967296 in Hn'. zcase; [done|].
  rewrite rd_note_Ret by lia. cbn [mbind outcome_mbind]. pose proof (align4_bounds nNamesz). zcase; [done|]. cbn.
  rewrite wrap_small; [|split; lia]. lia.
Qed.

Lemma note_loop_safe (fuel : nat) note noteSize offset :
  0 <= offset <= noteSize → noteSize <= length note → noteSize < 2 ^ 63 → Forall is_byte note →
  noteSize - offset <= fuel → spec (λ _, False) (note_loop fuel note noteSize offset) (λ _, True).
Proof.
  intros Ho Hs Hb Hby. revert offset Ho. induction fuel as [|fuel IH]; intros offset Ho Hf.
  - cbn [note_loop]. zcase; [lia|done].
  - cbn [note_loop]. zcase; [|done]. zcase; [done|]. change (Z.of_nat sizeof_Nhdr) with 12 in *. rewrite rd_note_Ret by lia.
    cbn [mbind outcome_mbind]. set (h := take _ _).
    assert (Hh : Forall is_byte h) by (by apply Forall_take, Forall_drop).
    pose proof (fld_fits h 0 4 Hh) as F0. pose proof (fld_fits h 4 4 Hh) as [F1 F1'].
    change (8 * 4%nat) with 32 in *. change (2 ^ 32) with 4294967296 in *.
    pose proof (align4_bounds (fld h 4 4)) as HA.
    destruct (Z.eqb_spec (fld h 0 4) 0).
    + zcase; [done|]. apply IH; lia.
    + pose proof (ReadNoteName_safe note noteSize (offset + 12) (fld h 0 4) ltac:(lia) Hs Hb F0) as HR.
      destruct (ReadNoteName note noteSize (offset + 12) (fld h 0 4)) as [[[name o]|]|k|]; cbn in HR |- *; try done.
      destruct (negb _ || negb _); [zcase; apply IH; lia|].
      destruct (Z.ltb_spec (noteSize - o) (fld h 4 4)); [done|]. cbn [orb]. zcase; [done|].
      rewrite rd_note_Ret by lia. done.
Qed.

(** A note, as the linker writes it: the name ends in a NUL, the name and the descriptor are padded
    to four bytes; a note without a name has a name size of zero. *)
Record note := mkNote { n_name : option (list ascii); n_kind : Z; n_desc : list Z }.

Definition note_name (n : note) : list Z := match n_name n with Some s => map code s ++ [0] | None => [] end.
Definition pad4 (bs : list Z) : list Z := bs ++ replicate (Z.to_nat (align4 (length bs) - length bs)) 0.
Definition encode_note (n : note) : list Z :=
  le_bytes 4 (length (note_name n)) ++ le_bytes 4 (length (n_desc n)) ++ le_bytes 4 (n_kind n) ++
  pad4 (note_name n) ++ pad4 (n_desc n).
Definition encode_notes (l : list note) : list Z := mjoin (map encode_note l).

Definition note_ok (n : note) : Prop :=
  Z.of_nat (length (note_name n)) < 2 ^ 32 ∧ Z.of_nat (length (n_desc n)) < 2 ^ 32 ∧ fits 32 (n_kind n) ∧ Forall is_byte (n_desc n).

(** The build id of the notes: the descriptor of the first note that has one. *)
Definition is_build_id (n : note) : bool := bool_decide (n_name n = Some (lit "GNU")) && (n_kind n =? NT_GNU_BUILD_ID).
Definition build_id (l : list note) : list ascii := from_option (chars ∘ n_desc) [] (List.find is_build_id l).

Lemma length_pad4 bs : Z.of_nat (length bs) < 2 ^ 32 → Z.of_nat (length (pad4 bs)) = align4 (length bs).
Proof.
  intros H. change (2 ^ 32) with 4294967296 in H. pose proof (align4_bounds (length bs)). unfold pad4.
  rewrite length_app, length_replicate. lia.
Qed.

Lemma rd_note_app note off bs n rest :
  0 <= off → drop (Z.to_nat off) note = bs ++ rest → Z.of_nat (length bs) = n → n ≠ 0 → rd_note note off n = Ret bs.
Proof.
  intros Ho E <- Hn. assert (length (drop (Z.to_nat off) note) = length bs + length rest)%nat as L by (by rewrite E, length_app).
  rewrite length_drop in L. rewrite rd_note_Ret by lia. by rewrite E, Nat2Z.id, take_app_length.
Qed.

Lemma drop_step {A} (note bs rest : list A) off :
  0 <= off → drop (Z.to_nat off) note = bs ++ rest → drop (Z.to_nat (off + length bs)) note = rest.
Proof.
  intros Ho E. replace (Z.to_nat (off + length bs)) with (Z.to_nat off + length bs)%nat by lia.
  by rewrite <- drop_drop, E, drop_app_length.
Qed.

Lemma fld_le_0 a rest : fits 32 a → fld (le_bytes 4 a ++ rest) 0 4 = a.
Proof. intros Ha. unfold fld. rewrite drop_0, (take_app_length' _ rest 4) by done. rewrite of_le_le_bytes. by apply wrap_small. Qed.

Lemma fld_skip (bs rest : list Z) off n : fld (bs ++ rest) (length bs + off) n = fld rest off n.
Proof. unfold fld. by rewrite <- drop_drop, drop_app_length. Qed.

Lemma nhdr_fields a b c : fits 32 a → fits 32 b → fits 32 c →
  let h := le_bytes 4 a ++ le_bytes 4 b ++ le_bytes 4 c in fld h 0 4 = a ∧ fld h 4 4 = b ∧ fld h 8 4 = c.
Proof.
  intros Ha Hb Hc. cbn zeta. split; [by apply fld_le_0|]. split.
  - change 4%nat with (length (le_bytes 4 a) + 0)%nat at 4. rewrite fld_skip. by apply fld_le_0.
  - change 8%nat with (length (le_bytes 4 a) + (length (le_bytes 4 b) + 0))%nat. rewrite !fld_skip.
    rewrite <- (app_nil_r (le_bytes 4 c)). by apply fld_le_0.
Qed.

Lemma chars_code s : chars (map code s) = s.
Proof. unfold chars. rewrite map_map. rewrite <- (map_id s) at 2. apply map_ext, chr_code. Qed.

Lemma ReadNoteName_enc note noteSize off s rest :
  let bs := map code s ++ [0] in
  0 <= off → drop (Z.to_nat off) note = pad4 bs ++ rest → Z.of_nat (length bs) < 2 ^ 32 →
  off + length (pad4 bs) <= noteSize → noteSize < 2 ^ 63 →
  ReadNoteName note noteSize off (length bs) = Ret (Some (s, off + length (pad4 bs))).
Proof.
  cbn zeta. set (bs := map code s ++ [0]). intros Ho E Hb Hs Hn.
  assert (Hbs : (0 < length bs)%nat) by (unfold bs; rewrite length_app; cbn; lia).
  pose proof (length_pad4 bs Hb) as L. change (2 ^ 32) with 4294967296 in Hb. pose proof (align4_bounds (length bs)).
  unfold ReadNoteName. zcase; [lia|]. unfold pad4 in E. rewrite <- app_assoc in E. rewrite (rd_note_app _ _ bs _ _ Ho E); [|lia|lia].
  cbn [mbind outcome_mbind]. assert (chars bs = s ++ [NUL]) as ->.
  { unfold bs, chars. rewrite map_app. fold (chars (map code s)). by rewrite chars_code. }
  rewrite last_last, bool_decide_true, removelast_last by done. cbv zeta. zcase; [lia|].
  rewrite wrap_small; [|split; lia]. by rewrite L.
Qed.

(** One iteration, over an encoded note. *)
Lemma note_loop_step n (fuel : nat) note total off rest :
  note_ok n → 0 <= off → drop (Z.to_nat off) note = encode_note n ++ rest →
  off + length (encode_note n) <= total → total < 2 ^ 63 →
  note_loop (S fuel) note total off =
    if is_build_id n then Ret (chars (n_desc n)) else note_loop fuel note total (off + length (encode_note n)).
Proof.
  intros (H1 & H2 & H3 & H4) Ho E Ht Hb. unfold encode_note, is_build_id in *.
  set (nm := note_name n) in *. set (d := n_desc n) in *.
  set (h := le_bytes 4 (length nm) ++ le_bytes 4 (length d) ++ le_bytes 4 (n_kind n)).
  assert (He : le_bytes 4 (length nm) ++ le_bytes 4 (length d) ++ le_bytes 4 (n_kind n) ++ pad4 nm ++ pad4 d = h ++ pad4 nm ++ pad4 d)
    by (unfold h; by rewrite <- !app_assoc).
  assert (Lh : length h = 12%nat) by (unfold h; by rewrite !length_app, !length_le_bytes).
  rewrite He in *. rewrite <- !app_assoc in E. rewrite !length_app, Lh in *.
  pose proof (length_pad4 nm H1) as Ln. pose proof (length_pad4 d H2) as Ld.
  destruct (nhdr_fields (length nm) (length d) (n_kind n)) as (F0 & F1 & F2); [split; lia|split; lia|done|]. fold h in F0, F1, F2.
  pose proof (drop_step note h _ off Ho E) as E1. rewrite Lh in E1.
  pose proof (drop_step note (pad4 nm) _ (off + 12%nat) ltac:(lia) E1) as E2.
  change (2 ^ 32) with 4294967296 in *. pose proof (align4_bounds (length nm)). pose proof (align4_bounds (length d)).
  cbn [note_loop]. zcase; [|lia]. zcase; [unfold sizeof_Nhdr in *; lia|].
  rewrite (rd_note_app note off h sizeof_Nhdr _ Ho E); [|by rewrite Lh|done]. cbn [mbind outcome_mbind].
  rewrite F0, F1, F2. cbv zeta. unfold sizeof_Nhdr. rewrite <- Ld.
  replace (off + (12 + (length (pad4 nm) + length (pad4 d)))%nat) with (off + 12%nat + length (pad4 nm) + length (pad4 d)) by lia.
  destruct (n_name n) as [s|] eqn:En.
  - assert (Hnm : nm = map code s ++ [0]) by (unfold nm, note_name; by rewrite En).
    destruct (Z.eqb_spec (length nm) 0) as [Hz|_]; [rewrite Hnm, length_app in Hz; cbn in Hz; lia|].
    rewrite Hnm in E1, H1 |- *. rewrite (ReadNoteName_enc note _ _ s (pad4 d ++ rest)); try done; [|lia|rewrite <- Hnm; lia].
    rewrite <- Hnm. cbn [mbind outcome_mbind].
    rewrite (bool_decide_ext (Some s = Some (lit "GNU")) (s = lit "GNU")) by (split; [by intros [= ->]|by intros ->]).
    rewrite <- negb_andb. destruct (bool_decide (s = lit "GNU") && _); cbn [negb]; [|zcase; [lia|done]].
    destruct (Z.ltb_spec (total - (off + 12%nat + length (pad4 nm))) (length d)); [lia|]. cbn [orb].
    destruct (Z.eqb_spec (length d) 0) as [Hz|Hz]; [by destruct d; cbn in Hz; [|lia]|].
    assert (Hp : pad4 d = d ++ drop (length d) (pad4 d)) by (unfold pad4; by rewrite drop_app_length).
    rewrite Hp, <- app_assoc in E2. by rewrite (rd_note_app note (off + 12%nat + length (pad4 nm)) d _ _ ltac:(lia) E2).
  - assert (nm = []) as Hnm by (unfold nm, note_name; by rewrite En). rewrite Hnm in *. cbn [length Z.of_nat Z.eqb].
    change (length (pad4 [])) with O in *. rewrite bool_decide_false by done. cbn [andb]. rewrite Z.add_0_r. zcase; [lia|done].
Qed.

Lemma note_loop_enc l : ∀ (fuel : nat) note off rest,
  Forall note_ok l → 0 <= off → drop (Z.to_nat off) note = encode_notes l ++ rest →
  off + length (encode_notes l) < 2 ^ 63 → (length l <= fuel)%nat →
  note_loop fuel note (off + length (encode_notes l)) off = Ret (build_id l).
Proof.
  induction l as [|n l IH]; intros fuel note off rest Hok Ho E Hb Hf.
  - destruct fuel; cbn [note_loop encode_notes map mjoin list_join length]; zcase; (lia || done).
  - destruct fuel as [|fuel]; [cbn in Hf; lia|]. apply Forall_cons_1 in Hok as [Hn Hok].
    change (encode_notes (n :: l)) with (encode_note n ++ encode_notes l) in *.
    rewrite length_app in Hb |- *. rewrite <- app_assoc in E.
    rewrite (note_loop_step n fuel note _ off _ Hn Ho E) by lia.
    assert (build_id (n :: l) = if is_build_id n then chars (n_desc n) else build_id l) as ->
      by (unfold build_id; cbn; by destruct (is_build_id n)).
    destruct (is_build_id n); [done|].
    pose proof (drop_step _ _ _ off Ho E) as E'. rewrite Nat2Z.inj_add, Z.add_assoc.
    apply (IH fuel note _ rest); try done; cbn in Hf; lia.
Qed.

(** Reading the text of a build id back. *)
Fixpoint hex_decode (s : list ascii) : option (list ascii) :=
  match s with
  | [] => Some []
  | c :: d :: s' =>
      match hex_digit c, hex_digit d, hex_decode s' with
      | Some x, Some y, Some t => Some (chr (16 * x + y) :: t)
      | _, _, _ => None
      end
  | _ => None
  end.

Definition hex_check (b : Z) : bool :=
  let n := u32 (s8 b) in
  bool_decide (hex_digit (hexTable (Z.shiftr n 4 mod 16)) = Some (b / 16)) &&
  bool_decide (hex_digit (hexTable (n mod 16)) = Some (b mod 16)).

Lemma hex_byte c :
  let n := u32 (s8 (code c)) in
  ∃ x y, hex_digit (hexTable (Z.shiftr n 4 mod 16)) = Some x ∧ hex_digit (hexTable (n mod 16)) = Some y ∧ chr (16 * x + y) = c.
Proof.
  cbn zeta. pose proof (byte_check hex_check ltac:(vm_compute; reflexivity) (code c) (code_fits c)) as H.
  unfold hex_check in H. apply andb_true_iff in H as [H1%bool_decide_eq_true H2%bool_decide_eq_true].
  eexists _, _. split; [exact H1|]. split; [exact H2|]. rewrite <- (chr_code c) at 3. f_equal. pose proof (Z.div_mod (code c) 16). lia.
Qed.

Lemma hex_decode_readable s : Z.of_nat (length s) < 2 ^ 63 → hex_decode (ToReadableBuildId s) = Some s.
Proof.
  intros Hl. unfold ToReadableBuildId. zcase; [lia|]. clear. induction s as [|c s IH]; [done|].
  cbn [map concat app]. destruct (hex_byte c) as (x & y & H1 & H2 & H3). cbn [hex_decode]. cbv zeta in H1, H2.
  rewrite H1, H2, IH, H3. done.
Qed.

Lemma encode_note_length n : (12 <= length (encode_note n))%nat.
Proof. unfold encode_note. rewrite !length_app, !length_le_bytes. lia. Qed.

Lemma encode_notes_count l : (length l <= length (encode_notes l))%nat.
Proof.
  induction l as [|n l IH]; [done|]. change (encode_notes (n :: l)) with (encode_note n ++ encode_notes l).
  rewrite length_app. pose proof (encode_note_length n). cbn. lia.
Qed.

Lemma ParseHexBuildId_enc l note rest noteAddr :
  Forall note_ok l → note = encode_notes l ++ rest → 0 <= noteAddr → noteAddr + length (encode_notes l) < 2 ^ 63 →
  ParseHexBuildId note noteAddr (length (encode_notes l)) = Ret (build_id l).
Proof.
  intros Hl -> Ha Hb. unfold ParseHexBuildId.
  assert (fitsb 64 (noteAddr + length (encode_notes l)) = true) as -> by (apply fitsb_spec; unfold fits; lia). cbn [negb].
  pose proof (encode_notes_count l). apply (note_loop_enc l _ _ 0 rest); try done; lia.
Qed.

Lemma build_id_length l : Forall note_ok l → Z.of_nat (length (build_id l)) < 2 ^ 32.
Proof.
  intros Hl. unfold build_id. destruct (List.find is_build_id l) as [n|] eqn:E; [|done]. cbn. unfold chars. rewrite length_map.
  apply find_some in E as [Hin _]. rewrite list.Forall_forall in Hl. apply (Hl n), list_elem_of_In, Hin.
Qed.

(** C20. The build id of a file.  When the section .note.gnu.build-id (or, without it, .notes) holds
    the notes [l] as a linker writes them, [GetBuildId] returns the descriptor of the first note
    named "GNU" of type [NT_GNU_BUILD_ID] in hexadecimal, two digits per byte, from which the
    descriptor can be read back; without such a note it returns the empty string. *)
Theorem GetBuildId_roundtrip mm s base shdr l rest :
  mmap_ok mm → mmap_ mm = Some base → base + size_ mm < 2 ^ 63 →
  GetSectionInfo NOTE_GNU_BUILD_ID s = Some shdr ∨
    (GetSectionInfo NOTE_GNU_BUILD_ID s = None ∧ GetSectionInfo NOTES s = Some shdr) →
  0 <= i_offset shdr < size_ mm → Forall note_ok l →
  drop (Z.to_nat (i_offset shdr)) (mm_bytes mm) = encode_notes l ++ rest → i_size shdr = length (encode_notes l) →
  ∃ text, ep_GetBuildId mm s = Ret text ∧ hex_decode text = Some (build_id l).
Proof.
  intros (Hlen & _ & _ & Hmap) Hb Hbb Hsec Ho Hl E Hsz. rewrite Hb in Hlen, Hmap. unfold ep_GetBuildId, mmap_Get, MmapSize.
  assert ((match GetSectionInfo NOTE_GNU_BUILD_ID s with Some i => Some i | None => GetSectionInfo NOTES s end) = Some shdr) as ->.
  { destruct Hsec as [->|[-> ->]]; done. }
  rewrite Hb. assert (Hin : i_offset shdr + i_size shdr <= size_ mm).
  { rewrite Hsz, <- Hlen. pose proof (f_equal length E) as L. rewrite length_drop, length_app in L. lia. }
  destruct (Z.leb_spec (size_ mm) (i_offset shdr)); [lia|]. cbn [orb].
  assert (fitsb 64 (i_offset shdr + i_size shdr) = true) as -> by (apply fitsb_spec; unfold fits; lia). cbn [negb orb].
  zcase; [lia|]. rewrite wrap_small by (unfold fits; lia). rewrite Hsz.
  rewrite (ParseHexBuildId_enc l _ rest) by (done || lia). cbn [mbind outcome_mbind].
  eexists. split; [done|]. destruct (build_id l) eqn:El; cbn [length Nat.eqb]; [done|]. rewrite <- El.
  apply hex_decode_readable. pose proof (build_id_length l Hl). lia.
Qed.

(** ** A small file

    A 64-bit file with a loadable segment, the sections .shstrtab, .note.gnu.build-id,
    .eh_frame_hdr, .symtab and .strtab, and the functions main and helper. *)
Definition put64_phdr (type flags offset vaddr memsz align : Z) : list Z :=
  le_bytes 4 type ++ le_bytes 4 flags ++ le_bytes 8 offset ++ le_bytes 8 vaddr ++ le_bytes 8 vaddr ++ le_bytes 8 memsz ++
  le_bytes 8 memsz ++ le_bytes 8 align.
Definition put64_shdr (name type addr offset size link entsize : Z) : list Z :=
  le_bytes 4 name ++ le_bytes 4 type ++ le_bytes 8 0 ++ le_bytes 8 addr ++ le_bytes 8 offset ++ le_bytes 8 size ++
  le_bytes 4 link ++ le_bytes 4 0 ++ le_bytes 8 1 ++ le_bytes 8 entsize.
Definition put64_sym (name info shndx value size : Z) : list Z :=
  le_bytes 4 name ++ le_bytes 1 info ++ le_bytes 1 0 ++ le_bytes 2 shndx ++ le_bytes 8 value ++ le_bytes 8 size.
Definition zstr (s : string) : list Z := map code (lit s) ++ [0].

Definition example_notes : list note := [mkNote None 1 [9; 9]; mkNote (Some (lit "GNU")) 3 [0xde; 0xad; 0xbe; 0x0f]].
Definition example_hdr : list Z :=
  [1; 0x1b; 0x03; 0x3b] ++ le_bytes 4 0x100 ++ le_bytes 4 2 ++
  le_bytes 4 0xd00 ++ le_bytes 4 0xe00 ++ le_bytes 4 0xd40 ++ le_bytes 4 0xe20.

Definition example_file (dyn_offset : Z) : list Z :=
  [0x7f; 69; 76; 70; 2; 1; 1; 0; 0; 0; 0; 0; 0; 0; 0; 0] ++ le_bytes 2 3 ++ le_bytes 2 EM_AARCH64 ++ le_bytes 4 1 ++
  le_bytes 8 0x1000 ++ le_bytes 8 64 ++ le_bytes 8 392 ++ le_bytes 4 0 ++ le_bytes 2 64 ++ le_bytes 2 56 ++ le_bytes 2 2 ++
  le_bytes 2 64 ++ le_bytes 2 6 ++ le_bytes 2 1 ++
  put64_phdr PT_LOAD 5 0 0 0x2000 4096 ++ put64_phdr PT_DYNAMIC 6 dyn_offset 0x1800 32 8 ++
  (* 176 *) [0] ++ zstr ".shstrtab" ++ zstr ".note.gnu.build-id" ++ zstr ".eh_frame_hdr" ++ zstr ".symtab" ++ zstr ".strtab" ++
  (* 236 *) [0] ++ zstr "main" ++ zstr "helper" ++ [0; 0; 0] ++
  (* 252 *) encode_notes example_notes ++
  (* 288 *) example_hdr ++ [0; 0; 0; 0] ++
  (* 320 *) put64_sym 0 0 0 0 0 ++ put64_sym 1 2 1 0x1000 0x40 ++ put64_sym 6 2 1 0x1040 0x20 ++
  (* 392 *) put64_shdr 0 0 0 0 0 0 0 ++ put64_shdr 1 3 0 176 60 0 0 ++ put64_shdr 11 7 0 252 36 0 0 ++
  put64_shdr 30 1 0x300 288 28 0 0 ++ put64_shdr 44 2 0 320 72 5 24 ++ put64_shdr 52 3 0 236 16 0 0.

Definition map_file (base : Z) (bs : list Z) : DfxMmap := mkMmap (Some base) (length bs) bs true 0 0.
Definition example_mmap : DfxMmap := map_file 0x10000000 (example_file 0).
Definition example_parser : ElfParser := (ParseAllHeaders Elf64 example_mmap ElfParser_new).2.

Lemma map_file_ok base bs : Forall is_byte bs → 0 <= base → base + length bs < 2 ^ 64 → mmap_ok (map_file base bs).
Proof. intros H1 H2 H3. unfold mmap_ok, map_file. cbn. repeat split; try done; lia. Qed.

Lemma GetBuildId_roundtrip_witness : ∃ text, ep_GetBuildId example_mmap example_parser = Ret text ∧ hex_decode text = Some (chars [0xde; 0xad; 0xbe; 0x0f]).
Proof.
  apply (GetBuildId_roundtrip example_mmap example_parser 0x10000000 (mkShdrInfo 0 0 252 36) example_notes (drop 288 (example_file 0))).
  - apply map_file_ok; [apply bytesb_spec; vm_compute; reflexivity|lia|vm_compute; reflexivity].
  - reflexivity.
  - vm_compute; reflexivity.
  - left. vm_compute; reflexivity.
  - vm_compute; split; congruence.
  - repeat constructor; vm_compute; congruence.
  - vm_compute; reflexivity.
  - vm_compute; reflexivity.
Defined.

(** ** What the readers of symbols compute *)
Definition syms_of (acc l : list ElfSymbol) : list ElfSymbol := fold_left (λ acc s, sym_emplace s acc) l acc.
Definition covers (addr : Z) (s : ElfSymbol) : bool := (value s <=? addr) && (addr - value s <? es_size s).

Lemma find_app {A} (f : A → bool) l1 l2 :
  List.find f (l1 ++ l2) = match List.find f l1 with Some x => Some x | None => List.find f l2 end.
Proof. induction l1 as [|x l1 IH]; [done|]. cbn. by destruct (f x). Qed.

Section Symbols.
Context (C : elf_class) (mm : DfxMmap).

(** The function symbols of a table, of a section and of the file, in the order of the file. *)
Fixpoint table_syms (n : nat) (idx : Z) (shdr : ElfShdr) (linkShdr : ShdrInfo) : list ElfSymbol :=
  match n with
  | O => []
  | S n' =>
      match ReadSymType C mm shdr idx with
      | Some sym =>
          match ParseFuncSymbolName mm linkShdr sym with
          | Ret (Some nm) => elf_symbol sym nm :: table_syms n' (idx + 1) shdr linkShdr
          | _ => table_syms n' (idx + 1) shdr linkShdr
          end
      | None => table_syms n' (idx + 1) shdr linkShdr
      end
  end.
Definition shdr_syms (s : ElfParser) (shdr : ElfShdr) : list ElfSymbol :=
  match GetSectionInfo_idx (h_link shdr) s with
  | None => []
  | Some linkShdr =>
      if (h_entSize shdr =? 0) || (MmapSize mm <? h_size shdr) then []
      else table_syms (Z.to_nat (sym_count shdr)) 0 shdr linkShdr
  end.
Definition func_syms (s : ElfParser) : list ElfSymbol := concat (map (shdr_syms s) (symShdrs_ s)).

(** The string table of every symbol table is a section of the file, and no table is too long. *)
Definition plain_tables (s : ElfParser) : Prop :=
  Forall (λ shdr, is_Some (GetSectionInfo_idx (h_link shdr) s) ∧ sym_count shdr <= maxSymbolCount) (symShdrs_ s).

(** The numbers of the sections are unsigned, whatever the file holds. *)
Definition sections_ok (s : ElfParser) : Prop := Forall (λ e, 0 <= i_offset e.2) (shdrInfoPairs_ s).

Lemma GetSectionInfo_idx_ok s idx i : sections_ok s → GetSectionInfo_idx idx s = Some i → 0 <= i_offset i.
Proof.
  unfold GetSectionInfo_idx, sections_ok. intros H E. destruct (List.find _ _) as [[k v]|] eqn:F; [|done].
  cbn in E. simplify_eq. apply find_some in F as [F _]. rewrite list.Forall_forall in H. apply (H (k, i)), list_elem_of_In, F.
Qed.

Context (HC : C = Elf32 ∨ C = Elf64) (Hmm : mmap_ok mm).

Lemma mm_bytes_ok : Forall is_byte (mm_bytes mm).
Proof. apply Hmm. Qed.

Lemma mmap_Read_bytes pos size incre : Forall is_byte (mmap_Read mm pos size incre).1.
Proof.
  unfold mmap_Read. destruct (mmap_ mm); [|constructor]. zcase; cbn; [constructor|]. apply Forall_take, Forall_drop, mm_bytes_ok.
Qed.

Lemma ep_Read_bytes pos size bs : ep_Read mm pos size = Some bs → Forall is_byte bs.
Proof. unfold ep_Read. intros H. case_match; simplify_eq. apply mmap_Read_bytes. Qed.

Lemma fld_nonneg bs (off n : nat) : Forall is_byte bs → 0 <= fld bs off n.
Proof. intros H. by apply (fld_fits bs off n). Qed.

Lemma ReadSymType_ok shdr idx sym : ReadSymType C mm shdr idx = Some sym → 0 <= st_name sym ∧ 0 < st_value sym ∧ 0 < st_size sym.
Proof.
  unfold ReadSymType. destruct (ep_Read _ _ _) as [bs|] eqn:E; [|done]. apply ep_Read_bytes in E. intros H.
  destruct (_ || _) eqn:Hz; [done|]. simplify_eq. zbool.
  destruct HC as [-> | ->]; cbn in *; pose proof (fld_nonneg bs) as F; repeat split; try (by apply F);
    match goal with |- 0 < fld ?b ?o ?n => pose proof (F o n E); lia end.
Qed.

(** The name is read inside the mapping. *)
Lemma ParseFuncSymbolName_Ret linkShdr sym :
  0 <= i_offset linkShdr → 0 <= st_name sym → ∃ r, ParseFuncSymbolName mm linkShdr sym = Ret r.
Proof.
  intros Ho Hn. destruct Hmm as (Hl & _ & Hs & _). unfold ParseFuncSymbolName, mmap_Get, MmapSize.
  destruct (negb (IsFunc sym)); [by eexists|]. destruct (mmap_ mm) as [a|]; [|by eexists]. cbn [orb].
  destruct (_ || _); [by eexists|]. zcase; [by eexists|]. destruct (negb _ || _) eqn:E; [by eexists|]. zbool.
  unfold rd_string. rewrite (proj2 (Z.leb_le 0 _)), (proj2 (Z.leb_le _ (length (mm_bytes mm)))) by lia. cbn. by eexists.
Qed.

Lemma sym_loop_eq n : ∀ idx shdr linkShdr l, 0 <= i_offset linkShdr →
  sym_loop C mm n idx shdr linkShdr l = Ret (syms_of l (table_syms n idx shdr linkShdr)).
Proof.
  induction n as [|n IH]; intros idx shdr linkShdr l Ho; [done|]. cbn [sym_loop table_syms].
  destruct (ReadSymType C mm shdr idx) as [sym|] eqn:E; [|by apply IH]. apply ReadSymType_ok in E as (H1 & _).
  destruct (ParseFuncSymbolName_Ret linkShdr sym Ho H1) as [[nm|] ->]; cbn; by rewrite IH.
Qed.

Lemma addr_loop_eq n : ∀ idx shdr linkShdr addr, 0 <= i_offset linkShdr →
  addr_loop C mm n idx shdr linkShdr addr = Ret (List.find (covers addr) (table_syms n idx shdr linkShdr)).
Proof.
  induction n as [|n IH]; intros idx shdr linkShdr addr Ho; [done|]. cbn [addr_loop table_syms].
  destruct (ReadSymType C mm shdr idx) as [sym|] eqn:E; [|by apply IH]. apply ReadSymType_ok in E as (H1 & _).
  destruct (ParseFuncSymbolName_Ret linkShdr sym Ho H1) as [[nm|] ->]; cbn [mbind outcome_mbind List.find].
  - change (covers addr (elf_symbol sym nm)) with ((st_value sym <=? addr) && (addr - st_value sym <? st_size sym)).
    destruct (_ && _); [done|by apply IH].
  - destruct (_ && _); by apply IH.
Qed.

Lemma syms_of_app acc l1 l2 : syms_of acc (l1 ++ l2) = syms_of (syms_of acc l1) l2.
Proof. apply fold_left_app. Qed.

Lemma func_symbols_loop_eq shdrs : ∀ s, sections_ok s → Forall (λ shdr, sym_count shdr <= maxSymbolCount) shdrs →
  func_symbols_loop C mm shdrs s = Ret (set_funcSymbols (syms_of (funcSymbols_ s) (concat (map (shdr_syms s) shdrs))) s).
Proof.
  induction shdrs as [|shdr shdrs IH]; intros s Hs Hc; [by destruct s|]. apply Forall_cons_1 in Hc as [Hc Hcs].
  cbn [func_symbols_loop map concat]. rewrite syms_of_app.
  assert (ParseFuncSymbols_shdr C mm shdr s = Ret (set_funcSymbols (syms_of (funcSymbols_ s) (shdr_syms s shdr)) s)) as ->.
  { unfold ParseFuncSymbols_shdr, shdr_syms. destruct (GetSectionInfo_idx _ s) as [i|] eqn:Ei; [|by destruct s].
    destruct (_ || _); [by destruct s|]. zcase; [lia|]. rewrite sym_loop_eq by (by eapply GetSectionInfo_idx_ok). done. }
  cbn [mbind outcome_mbind]. rewrite IH by (destruct s; done). by destruct s.
Qed.

(** The eager reader inserts the function symbols of the file one after the other. *)
Lemma GetFuncSymbols_eq s : sections_ok s → plain_tables s → symShdrs_ s ≠ [] →
  ep_GetFuncSymbols C mm s = Ret (syms_of [] (func_syms s), set_funcSymbols (syms_of [] (func_syms s)) s).
Proof.
  intros Hs Hp Hn. unfold ep_GetFuncSymbols, ParseFuncSymbols, func_syms. destruct (symShdrs_ s) as [|h t] eqn:E; [done|]. rewrite <- E in *.
  rewrite func_symbols_loop_eq; [by destruct s|by destruct s|]. eapply list.Forall_impl; [exact Hp|]. by intros x [_ ?].
Qed.

(** The lazy reader finds the first one that contains the address. *)
Lemma ParseFuncSymbolByAddr_eq s addr : sections_ok s → plain_tables s →
  ParseFuncSymbolByAddr C mm addr s = Ret (List.find (covers addr) (func_syms s)).
Proof.
  intros Hs Hp. unfold ParseFuncSymbolByAddr, func_syms, plain_tables in *. induction Hp as [|shdr shdrs [[i Hi] _] _ IH]; [done|].
  cbn [by_addr_loop map concat]. rewrite find_app. unfold shdr_syms at 1. rewrite Hi. destruct (_ || _); [done|].
  rewrite addr_loop_eq by (by eapply GetSectionInfo_idx_ok). cbn [mbind outcome_mbind]. destruct (List.find _ (table_syms _ _ _ _)); [done|exact IH].
Qed.
End Symbols.

(** ** Raw pointers stay in the mapping, except through the dynamic table *)
Section Safety.
Context (C : elf_class) (mm : DfxMmap).
Context (HC : C = Elf32 ∨ C = Elf64) (Hmm : mmap_ok mm).

Definition parser_wf (s : ElfParser) : Prop := sections_ok s ∧ fits 64 (dynamicOffset_ s).

Lemma fld_fits64 bs (off n : nat) : Forall is_byte bs → (n <= 8)%nat → fits 64 (fld bs off n).
Proof. intros H Hn. apply fits_mono with (8 * n); [lia|]. by apply fld_fits. Qed.

Lemma get_Phdr_ok bs : Forall is_byte bs → fits 64 (p_offset (get_Phdr C bs)).
Proof. intros H. destruct HC as [-> | ->]; cbn; apply fld_fits64; done || lia. Qed.
Lemma get_Shdr_ok bs : Forall is_byte bs → 0 <= sh_offset (get_Shdr C bs).
Proof. intros H. destruct HC as [-> | ->]; cbn; by apply fld_nonneg. Qed.

Lemma ParseElfHeaders_wf ehdr s : parser_wf s → parser_wf (ParseElfHeaders ehdr s).2.
Proof. intros H. unfold ParseElfHeaders. repeat zcase; cbn [snd]; exact H. Qed.

Lemma parse_phdr_wf ph first s : fits 64 (p_offset ph) → parser_wf s → parser_wf (parse_phdr ph first s).2.
Proof.
  intros Hp [H1 H2]. unfold parse_phdr, UpdateVaddrAndOffset. repeat (zcase || destruct first || case_match); simplify_eq; cbn [snd]; split; done.
Qed.

Lemma phdr_loop_wf n : ∀ entsize offset first s, parser_wf s → parser_wf (phdr_loop C mm n entsize offset first s).2.
Proof.
  induction n as [|n IH]; intros entsize offset first s H; [done|]. cbn [phdr_loop].
  destruct (ep_Read mm offset (sizeof_Phdr C)) as [bs|] eqn:E; [|done]. apply ep_Read_bytes in E; [|done].
  pose proof (parse_phdr_wf _ first s (get_Phdr_ok bs E) H) as H'. destruct (parse_phdr _ _ _). by apply IH.
Qed.

Lemma shdr_emplace_ok k v l : 0 <= i_offset v → Forall (λ e, 0 <= i_offset e.2) l → Forall (λ e, 0 <= i_offset e.2) (shdr_emplace k v l).
Proof.
  intros Hv. induction 1 as [|e l He Hl IH]; cbn [shdr_emplace]; [by repeat constructor|].
  destruct (key_ltb k e.1); [by repeat constructor|]. destruct (key_ltb e.1 k); by constructor.
Qed.

Lemma extract_shdr_wf ehdr i shdr s : 0 <= sh_offset shdr → parser_wf s → parser_wf (extract_shdr mm ehdr i shdr s).
Proof.
  intros Ho H. unfold extract_shdr. destruct (GetSectionNameByIndex _ _) as [nm|]; [|done]. cbv zeta.
  set (s1 := if 0 <? sh_size shdr then _ else s). assert (H1 : parser_wf s1).
  { unfold s1, GetAdltStrTabSectionInfo, GetAdltMapSectionInfo. repeat case_match; exact H. }
  clearbody s1. set (s2 := if _ && _ then _ else s1). assert (H2 : parser_wf s2) by (unfold s2; repeat case_match; exact H1).
  clearbody s2. destruct H2 as [H2 H2'].
  assert (H3 : parser_wf (set_shdrInfo (shdr_emplace (i, nm) (shdr_info shdr) (shdrInfoPairs_ s2)) s2)).
  { split; [|done]. by apply shdr_emplace_ok. }
  repeat case_match; exact H3.
Qed.

Lemma shdr_loop_wf n : ∀ ehdr i offset s, parser_wf s → parser_wf (shdr_loop C mm n ehdr i offset s).2.
Proof.
  induction n as [|n IH]; intros ehdr i offset s H; [done|]. cbn [shdr_loop]. cbv zeta. zcase; [by apply IH|].
  destruct (ep_Read mm offset (sizeof_Shdr C)) as [bs|] eqn:E; [|done]. apply ep_Read_bytes in E; [|done].
  apply IH, extract_shdr_wf; [by apply get_Shdr_ok|done].
Qed.

Lemma ParseAllHeaders_wf s : parser_wf s → parser_wf (ParseAllHeaders C mm s).2.
Proof.
  intros H. unfold ParseAllHeaders. destruct (ep_Read mm 0 _) as [bs|]; [|done].
  pose proof (ParseElfHeaders_wf (get_Ehdr C bs) s H) as H1. destruct (ParseElfHeaders _ s) as [[] s1]; cbn [negb]; [|done].
  assert (H2 : parser_wf (ParseProgramHeaders C mm (get_Ehdr C bs) s1).2).
  { unfold ParseProgramHeaders. zcase; [done|]. by apply phdr_loop_wf. }
  destruct (ParseProgramHeaders C mm (get_Ehdr C bs) s1) as [[] s2]; cbn [negb]; [|done].
  unfold ParseSectionHeaders, ExtractSectionHeadersInfo.
  repeat match goal with |- parser_wf (match ?x with _ => _ end).2 => destruct x end; try done. by apply shdr_loop_wf.
Qed.

Lemma GetBuildId_returns s : parser_wf s → (match mmap_ mm with Some a => a + size_ mm < 2 ^ 63 | None => True end) → returns (ep_GetBuildId mm s).
Proof.
  intros [Hs _] Hb. destruct Hmm as (Hl & Hby & Hz & Ha). unfold ep_GetBuildId, mmap_Get, MmapSize.
  destruct (match GetSectionInfo _ _ with Some _ => _ | None => _ end) as [i|] eqn:Ei; [|by eexists].
  destruct (mmap_ mm) as [base|]; [|by eexists]. destruct (_ || _ || _) eqn:E; [by eexists|]. zbool.
  assert (Hi : 0 <= i_offset i).
  { assert (∀ nm j, GetSectionInfo nm s = Some j → 0 <= i_offset j) as G.
    { unfold GetSectionInfo. intros nm j F. destruct (List.find _ _) as [[k v]|] eqn:F'; [|done]. cbn in F. simplify_eq.
      apply find_some in F' as [F' _]. unfold sections_ok in Hs. rewrite list.Forall_forall in Hs. apply (Hs (k, j)), list_elem_of_In, F'. }
    destruct (GetSectionInfo NOTE_GNU_BUILD_ID s) eqn:F; simplify_eq; by eapply G. }
  unfold ParseHexBuildId. destruct (negb _); [by eexists|].
  destruct (Z.lt_ge_cases (i_size i) 0) as [Hneg|Hpos].
  { replace (Z.to_nat (i_size i)) with O by lia. cbn [note_loop]. zcase; [lia|]. by eexists. }
  pose proof (note_loop_safe (Z.to_nat (i_size i)) (drop (Z.to_nat (i_offset i)) (mm_bytes mm)) (i_size i) 0) as S.
  rewrite length_drop in S. specialize (S ltac:(lia) ltac:(lia) ltac:(lia) (Forall_drop _ _ _ Hby) ltac:(lia)).
  destruct (note_loop _ _ _ _); cbn in S |- *; [by eexists|done|done].
Qed.

Lemma ParseFuncSymbols_shdr_Ret shdr s : sections_ok s → ∃ l, ParseFuncSymbols_shdr C mm shdr s = Ret (set_funcSymbols l s).
Proof.
  intros Hs. unfold ParseFuncSymbols_shdr. assert (Hid : s = set_funcSymbols (funcSymbols_ s) s) by (by destruct s).
  destruct (GetSectionInfo_idx _ s) as [i|] eqn:Ei; [|eexists; by f_equal]. destruct (_ || _); [eexists; by f_equal|].
  zcase; [eexists; by f_equal|]. rewrite sym_loop_eq by (done || by eapply GetSectionInfo_idx_ok). by eexists.
Qed.

Lemma GetFuncSymbols_returns s : sections_ok s → returns (ep_GetFuncSymbols C mm s).
Proof.
  intros Hs. unfold ep_GetFuncSymbols, ParseFuncSymbols. destruct (symShdrs_ s) as [|h t]; [by eexists|].
  assert (H : ∀ shdrs s', sections_ok s' → returns (func_symbols_loop C mm shdrs s')).
  { intros shdrs. induction shdrs as [|x l IH]; intros s' Hs'; [by eexists|]. cbn [func_symbols_loop].
    destruct (ParseFuncSymbols_shdr_Ret x s' Hs') as [l' ->]. by apply IH. }
  destruct (H (h :: t) (set_funcSymbols [] s) Hs) as [s' ->]. by eexists.
Qed.

Lemma ParseFuncSymbolByAddr_returns s addr : sections_ok s → returns (ParseFuncSymbolByAddr C mm addr s).
Proof.
  intros Hs. unfold ParseFuncSymbolByAddr. induction (symShdrs_ s) as [|h t IH]; [by eexists|]. cbn [by_addr_loop].
  destruct (GetSectionInfo_idx _ s) as [i|] eqn:Ei; [|by eexists]. destruct (_ || _); [done|].
  rewrite addr_loop_eq by (done || by eapply GetSectionInfo_idx_ok). cbn. destruct (List.find _ (table_syms _ _ _ _ _ _)); [by eexists|exact IH].
Qed.

(** The dynamic table: a pointer that starts inside or above the mapping only moves up to its end. *)
Lemma dyn_loop_returns (fuel : nat) base dyn s :
  mmap_ mm = Some base → 0 <= base <= dyn → dyn + sizeof_Dyn C < 2 ^ 64 → base + size_ mm - dyn < fuel →
  base + size_ mm + sizeof_Dyn C < 2 ^ 64 → returns (dyn_loop C mm fuel base dyn s).
Proof.
  intros Hb. revert dyn s. induction fuel as [|fuel IH]; intros dyn s Hd Ho Hf Hs.
  - cbn [dyn_loop]. destruct HC as [-> | ->]; cbn in *; rewrite wrap_small by (unfold fits; lia); zcase; [lia|by eexists|lia|by eexists].
  - assert (Hsz : 0 < sizeof_Dyn C) by (destruct HC as [-> | ->]; cbn; lia).
    cbn [dyn_loop]. rewrite wrap_small by (unfold fits; lia). zcase; [|by eexists].
    unfold rd_dyn. rewrite (proj2 (Z.leb_le base dyn)), (proj2 (Z.leb_le _ _)) by lia. cbn [andb mbind outcome_mbind].
    do 2 (zcase; [by eexists|]). do 3 (zcase; [apply IH; lia|]). apply IH; lia.
Qed.

Lemma ParseElfDynamic_wrap s base :
  mmap_ mm = Some base → sizeof_Dyn C <= size_ mm → 0 <= base → base + size_ mm < 2 ^ 64 → fits 64 (dynamicOffset_ s) →
  dynamicOffset_ s ≠ 0 → 2 ^ 64 - sizeof_Dyn C <= base + dynamicOffset_ s → base + dynamicOffset_ s ≠ 2 ^ 64 →
  ParseElfDynamic C mm s = Undef OutOfBounds.
Proof.
  intros Hb Hsz Hb0 Hbs [Hd Hd'] Hn Hw Hne. unfold ParseElfDynamic, mmap_Get. rewrite Hb. destruct (Z.eqb_spec (dynamicOffset_ s) 0); [done|].
  assert (Hsd : 0 < sizeof_Dyn C <= 16) by (destruct HC as [-> | ->]; cbn; lia). unfold dyn_fuel. cbn [dyn_loop]. unfold rd_dyn, wrap.
  assert (E : (dynamicOffset_ s + base) mod 2 ^ 64 = dynamicOffset_ s + base ∨ (dynamicOffset_ s + base) mod 2 ^ 64 = dynamicOffset_ s + base - 2 ^ 64).
  { Z.to_euclidean_division_equations; lia. }
  assert (E' : ((dynamicOffset_ s + base) mod 2 ^ 64 + sizeof_Dyn C) mod 2 ^ 64 <= base + size_ mm).
  { Z.to_euclidean_division_equations; lia. }
  destruct (Z.eqb_spec ((dynamicOffset_ s + base) mod 2 ^ 64) 0); [lia|]. rewrite (proj2 (Z.leb_le _ (base + size_ mm)) E').
  destruct (Z.leb_spec base ((dynamicOffset_ s + base) mod 2 ^ 64)); [|done].
  destruct (Z.leb_spec ((dynamicOffset_ s + base) mod 2 ^ 64 + sizeof_Dyn C) (base + size_ mm)); [lia|done].
Qed.

Lemma mmap_Read_length pos n incre : 0 <= pos → 0 <= n →
  Z.of_nat (length (mmap_Read mm pos n incre).1) = match mmap_ mm with Some _ => Z.max 0 (Z.min (size_ mm - pos) n) | None => 0 end.
Proof.
  intros Hp Hn. destruct Hmm as (Hl & _ & Hz & _). unfold mmap_Read. destruct (mmap_ mm); [|done].
  zcase; cbn [fst]; [cbn [length]; lia|]. rewrite length_take_drop. lia.
Qed.

Lemma mmap_string_loop_returns (fuel : nat) addr maxSize offset old :
  0 <= addr → 0 <= offset → addr + offset <= size_ mm → size_ mm < 2 ^ 64 → size_ mm - addr - offset < fuel →
  returns (mmap_string_loop mm fuel addr maxSize offset old).
Proof.
  intros Ha. revert offset. induction fuel as [|fuel IH]; intros offset Ho Hs Hb Hf; cbn [mmap_string_loop]; zcase; try (by eexists); [lia|].
  rewrite wrap_small by (unfold fits; lia). cbv zeta.
  pose proof (mmap_Read_length (addr + offset) (Z.min STR_BUF_LEN (maxSize - offset)) false ltac:(lia) ltac:(unfold STR_BUF_LEN; lia)) as L.
  set (buf := (mmap_Read mm _ _ false).1) in *. destruct (Nat.eqb_spec (length buf) 0); [by eexists|].
  destruct (Nat.leb_spec (length buf) (length (c_str (chars buf)))); [|zcase; by eexists].
  destruct (mmap_ mm); [apply IH; lia|lia].
Qed.

Lemma ParseElfDynamic_returns s base :
  mmap_ mm = Some base → fits 64 (dynamicOffset_ s) → base + size_ mm + sizeof_Dyn C < 2 ^ 64 →
  base + dynamicOffset_ s + sizeof_Dyn C < 2 ^ 64 → returns (ParseElfDynamic C mm s).
Proof.
  intros Hb [Hd _] Hs Hw. destruct Hmm as (_ & _ & Hz & Ha). rewrite Hb in Ha. unfold ParseElfDynamic, mmap_Get. rewrite Hb.
  zcase; [by eexists|]. rewrite wrap_small by (unfold fits; lia). zcase; [by eexists|]. unfold dyn_fuel.
  destruct (dyn_loop_returns (S (Z.to_nat (size_ mm))) base (dynamicOffset_ s + base) s) as [s' ->]; [done|lia|lia|lia|done|by eexists].
Qed.

Lemma GetElfName_returns s base :
  mmap_ mm = Some base → parser_wf s → base + size_ mm + sizeof_Dyn C < 2 ^ 64 →
  base + dynamicOffset_ s + sizeof_Dyn C < 2 ^ 64 → returns (ep_GetElfName C mm s).
Proof.
  intros Hb [Hs Hd] Hz Hw. unfold ep_GetElfName. destruct (_ =? _)%nat; [|by eexists]. unfold ParseElfName.
  destruct (ParseElfDynamic_returns s base Hb Hd Hz Hw) as [[[] s'] E]; rewrite E; cbn [mbind outcome_mbind negb]; [|by eexists].
  destruct (GetSectionInfo DYNSTR s') as [i|] eqn:Ei; [|by eexists]. destruct (_ || _ || _ || _) eqn:Eg; [by eexists|]. zbool.
  destruct Hmm as (_ & _ & Hsz & Hm). rewrite Hb in Hm. unfold MmapSize in *.
  match goal with H : fitsb 64 (i_offset i + dtSonameOffset_ s') = true |- _ => apply fitsb_spec in H as [? ?] end.
  destruct (mmap_string_loop_returns (S (Z.to_nat (size_ mm))) (i_offset i + dtSonameOffset_ s')
    (i_offset i + dtStrtabSize_ s' - (i_offset i + dtSonameOffset_ s')) 0 (soname_ s')) as [n ->]; try lia. by eexists.
Qed.
End Safety.

(** C18. What the headers of any file lead to.  After [InitHeaders] of a parser of either class over
    any bytes, reading the build id, the table of function symbols or the symbol of an address
    returns; every raw pointer these follow stays in the mapping.  Looking up the global pointer or
    the name of the file does too when the offset of the dynamic segment, which comes from the
    file, does not carry the address of the mapping past the end of the address space. *)
Theorem raw_reads_in_mapping C mm base addr :
  C = Elf32 ∨ C = Elf64 → mmap_ok mm → mmap_ mm = Some base → base + size_ mm < 2 ^ 63 →
  let s := (ParseAllHeaders C mm ElfParser_new).2 in
  returns (ep_GetBuildId mm s) ∧ returns (ep_GetFuncSymbols C mm s) ∧ returns (ParseFuncSymbolByAddr C mm addr s) ∧
  (base + dynamicOffset_ s + sizeof_Dyn C < 2 ^ 64 →
   returns (ep_GetGlobalPointer C mm s) ∧ returns (ep_GetElfName C mm s)).
Proof.
  intros HC Hmm Hb Hs. cbn zeta.
  assert (Hwf : parser_wf (ParseAllHeaders C mm ElfParser_new).2).
  { apply ParseAllHeaders_wf; [done|done|]. split; [constructor|unfold fits; cbn; lia]. }
  set (s := (ParseAllHeaders C mm ElfParser_new).2) in *. pose proof (proj1 Hwf) as Hsec.
  assert (Hsd : 0 < sizeof_Dyn C <= 16) by (destruct HC as [-> | ->]; cbn; lia).
  split; [apply GetBuildId_returns; [done|done|by rewrite Hb]|]. split; [by apply GetFuncSymbols_returns|].
  split; [by apply ParseFuncSymbolByAddr_returns|]. intros Hw. split; [|apply (GetElfName_returns C mm HC Hmm s base); (done || lia)].
  unfold ep_GetGlobalPointer. zcase; [|by eexists].
  destruct (ParseElfDynamic_returns C mm HC Hmm s base Hb (proj2 Hwf)) as [[b s'] ->]; [lia|done|by eexists].
Qed.

(** The offset of the dynamic segment is not checked.  When it carries the address of the
    mapping past the end of the address space, the loop of [ParseElfDynamic], which only compares
    with the end of the mapping, reads below it (or at the very end of the address space): the
    global pointer of such a file cannot be asked for. *)
Theorem ParseElfDynamic_below C mm base s :
  C = Elf32 ∨ C = Elf64 → mmap_ok mm → mmap_ mm = Some base → sizeof_Dyn C <= size_ mm → parser_wf s →
  dtPltGotAddr_ s = 0 → 2 ^ 64 - sizeof_Dyn C <= base + dynamicOffset_ s → base + dynamicOffset_ s ≠ 2 ^ 64 →
  ep_GetGlobalPointer C mm s = Undef OutOfBounds.
Proof.
  intros HC Hmm Hb Hz [_ Hd] Hg Hw Hne. pose proof Hmm as (_ & _ & Hs & Ha). rewrite Hb in Ha.
  assert (Hsd : 0 < sizeof_Dyn C <= 16) by (destruct HC as [-> | ->]; cbn; lia).
  unfold ep_GetGlobalPointer. rewrite Hg, Z.eqb_refl. rewrite (ParseElfDynamic_wrap C mm HC s base); try done; lia.
Qed.

Lemma raw_reads_in_mapping_witness :
  returns (ep_GetBuildId example_mmap example_parser) ∧ returns (ep_GetElfName Elf64 example_mmap example_parser).
Proof.
  destruct (raw_reads_in_mapping Elf64 example_mmap 0x10000000 0x1010) as (H1 & _ & _ & H4).
  - by right.
  - apply map_file_ok; [apply bytesb_spec; vm_compute; reflexivity|lia|vm_compute; reflexivity].
  - reflexivity.
  - vm_compute; reflexivity.
  - split; [exact H1|]. apply H4. vm_compute; reflexivity.
Defined.

Definition crafted_mmap : DfxMmap := map_file 0x10000000 (example_file (2 ^ 64 - 4096)).
Definition crafted_parser : ElfParser := (ParseAllHeaders Elf64 crafted_mmap ElfParser_new).2.

Lemma ParseElfDynamic_below_witness :
  (ParseAllHeaders Elf64 crafted_mmap ElfParser_new).1 = true ∧ ep_GetGlobalPointer Elf64 crafted_mmap crafted_parser = Undef OutOfBounds.
Proof.
  assert (Hok : mmap_ok crafted_mmap).
  { apply map_file_ok; [apply bytesb_spec; vm_compute; reflexivity|lia|vm_compute; reflexivity]. }
  split; [vm_compute; reflexivity|]. apply (ParseElfDynamic_below Elf64 crafted_mmap 0x10000000).
  - by right.
  - exact Hok.
  - reflexivity.
  - vm_compute; congruence.
  - apply ParseAllHeaders_wf; [by right|exact Hok|]. split; [constructor|unfold fits; cbn; lia].
  - vm_compute; reflexivity.
  - vm_compute; congruence.
  - vm_compute; congruence.
Defined.

(** ** What the header tables lead to *)
Section Tables.
Context (C : elf_class) (mm : DfxMmap).

(** The program headers of the file, when all of them can be read. *)
Definition phdr_at (ehdr : Ehdr) (i : Z) : option Phdr :=
  get_Phdr C <$> ep_Read mm (u64 (e_phoff ehdr + i * e_phentsize ehdr)) (sizeof_Phdr C).
Definition phdrs (ehdr : Ehdr) : option (list Phdr) := mapM (phdr_at ehdr) (seqZ 0 (e_phnum ehdr)).

(** The executable segments. *)
Definition is_exec (p : Phdr) : bool :=
  (p_type p =? PT_LOAD) && negb (p_align p =? 0) && negb (Z.land (p_flags p) PF_X =? 0).
Definition exec_loads (l : list Phdr) : list Phdr := List.filter is_exec l.
Definition last_dynamic (l : list Phdr) : Z :=
  fold_left (λ o p, if p_type p =? PT_DYNAMIC then p_offset p else o) l 0.

(** The state of the loop after the headers [l]. *)
Definition phdr_state (l : list Phdr) (s : ElfParser) : Prop :=
  startVaddr_ s = fold_left Z.min (map p_vaddr (exec_loads l)) (2 ^ 64 - 1) ∧
  endVaddr_ s = fold_left Z.max (map (λ p, u64 (p_vaddr p + p_memsz p)) (exec_loads l)) 0 ∧
  loadBias_ s = from_option (λ p, s64 (u64 (p_vaddr p - p_offset p))) 0 (hd_error (exec_loads l)) ∧
  dynamicOffset_ s = last_dynamic l ∧
  ptAdlt s = existsb (λ p, p_type p =? PT_ADLT) l.
Definition first_flag (l : list Phdr) : bool := match exec_loads l with [] => true | _ => false end.

Lemma parse_phdr_fields p first s :
  let s' := (parse_phdr p first s).2 in
  startVaddr_ s' = (if is_exec p then Z.min (startVaddr_ s) (p_vaddr p) else startVaddr_ s) ∧
  endVaddr_ s' = (if is_exec p then Z.max (endVaddr_ s) (u64 (p_vaddr p + p_memsz p)) else endVaddr_ s) ∧
  loadBias_ s' = (if is_exec p && first then s64 (u64 (p_vaddr p - p_offset p)) else loadBias_ s) ∧
  dynamicOffset_ s' = (if p_type p =? PT_DYNAMIC then p_offset p else dynamicOffset_ s) ∧
  ptAdlt s' = ptAdlt s || (p_type p =? PT_ADLT) ∧
  (parse_phdr p first s).1 = first && negb (is_exec p).
Proof.
  unfold parse_phdr, is_exec, UpdateVaddrAndOffset. generalize (u64 (p_vaddr p + p_memsz p)). intros e.
  destruct (Z.eqb_spec (p_type p) PT_LOAD) as [HL|HL].
  - rewrite HL. change (PT_LOAD =? PT_DYNAMIC) with false. change (PT_LOAD =? PT_ADLT) with false.
    destruct (p_align p =? 0); cbn [negb andb]; [by rewrite orb_false_r, andb_true_r|].
    destruct (Z.land (p_flags p) PF_X =? 0); cbn [negb]; [by rewrite orb_false_r, andb_true_r|].
    destruct first; cbn -[wrap swrap]; destruct (Z.ltb_spec (p_vaddr p) (startVaddr_ s)); cbn -[wrap swrap];
      rewrite orb_false_r; repeat split; try lia; zcase; lia.
  - cbn [andb negb]. rewrite andb_true_r. destruct (Z.eqb_spec (p_type p) PT_ADLT) as [HA|HA].
    + rewrite HA. change (PT_ADLT =? PT_DYNAMIC) with false. cbn. by rewrite orb_true_r.
    + rewrite orb_false_r. by destruct (Z.eqb_spec (p_type p) PT_DYNAMIC).
Qed.

Lemma parse_phdr_step l p s : phdr_state l s →
  phdr_state (l ++ [p]) (parse_phdr p (first_flag l) s).2 ∧ (parse_phdr p (first_flag l) s).1 = first_flag (l ++ [p]).
Proof.
  intros (H1 & H2 & H3 & H4 & H5). destruct (parse_phdr_fields p (first_flag l) s) as (F1 & F2 & F3 & F4 & F5 & F6).
  unfold phdr_state. rewrite F1, F2, F3, F4, F5, F6, H1, H2, H3, H4, H5. unfold first_flag, exec_loads, last_dynamic.
  rewrite filter_app, !fold_left_app, existsb_app. cbn [List.filter fold_left existsb]. rewrite orb_false_r.
  destruct (is_exec p); cbn [andb negb].
  - rewrite !map_app, !fold_left_app. cbn [map fold_left]. by destruct (List.filter is_exec l).
  - rewrite !app_nil_r, andb_true_r. done.
Qed.

Lemma seqZ_last m n : 0 <= n → seqZ m (n + 1) = seqZ m n ++ [m + n].
Proof. intros. rewrite seqZ_app by lia. done. Qed.

Lemma phdr_loop_spec ehdr k : ∀ i l s s', 0 <= i → phdr_state l s → mapM (phdr_at ehdr) (seqZ 0 i) = Some l →
  phdr_loop C mm k (e_phentsize ehdr) (u64 (e_phoff ehdr + i * e_phentsize ehdr)) (first_flag l) s = (true, s') →
  ∃ l', mapM (phdr_at ehdr) (seqZ 0 (i + k)) = Some l' ∧ phdr_state l' s'.
Proof.
  induction k as [|k IH]; intros i l s s' Hi Hst Hl H; cbn [phdr_loop] in H.
  - simplify_eq. rewrite Z.add_0_r, Hl. by eexists.
  - destruct (ep_Read mm _ _) as [bs|] eqn:E; [|done]. pose proof (parse_phdr_step l (get_Phdr C bs) s Hst) as [S1 S2].
    destruct (parse_phdr (get_Phdr C bs) (first_flag l) s) as [f s1]. cbn [fst snd] in S1, S2. subst f.
    replace (i + S k) with ((i + 1) + k) by lia. apply (IH (i + 1) (l ++ [get_Phdr C bs]) s1 s'); [lia|done| |].
    + rewrite seqZ_last by done. apply mapM_Some. apply mapM_Some in Hl. apply Forall2_app; [done|].
      repeat constructor. unfold phdr_at. by rewrite Z.add_0_l, E.
    + rewrite <- H. f_equal. rewrite wrap_add_l. f_equal. lia.
Qed.

(** The entry that the section [i] leaves in the table of sections, [names] being the bytes of the
    table of section names. *)
Definition section_entry (ehdr : Ehdr) (names : list ascii) (i : Z) : option ((Z * list ascii) * ShdrInfo) :=
  if i =? e_shstrndx ehdr then None
  else
    shdr ← get_Shdr C <$> ep_Read mm (u64 (e_shoff ehdr + i * e_shentsize ehdr)) (sizeof_Shdr C);
    name ← GetSectionNameByIndex (sh_name shdr) (set_sectionNames names ElfParser_new);
    Some ((i, name), shdr_info shdr).

Lemma shdr_emplace_last k v l : Forall (λ e, e.1.1 < k.1) l → shdr_emplace k v l = l ++ [(k, v)].
Proof.
  induction 1 as [|e l He _ IH]; [done|]. cbn [shdr_emplace app]. unfold key_ltb.
  destruct (Z.ltb_spec k.1 e.1.1); [lia|]. destruct (Z.eqb_spec k.1 e.1.1); [lia|]. destruct (Z.ltb_spec e.1.1 k.1); [|lia]. cbn. by rewrite IH.
Qed.

Lemma extract_shdr_fields ehdr i shdr s :
  sectionNames_ (extract_shdr mm ehdr i shdr s) = sectionNames_ s ∧
  shdrInfoPairs_ (extract_shdr mm ehdr i shdr s) =
    match GetSectionNameByIndex (sh_name shdr) s with
    | Some name => shdr_emplace (i, name) (shdr_info shdr) (shdrInfoPairs_ s)
    | None => shdrInfoPairs_ s
    end.
Proof.
  unfold extract_shdr. destruct (GetSectionNameByIndex _ _) as [nm|]; [|done]. cbv zeta.
  set (s1 := if 0 <? sh_size shdr then _ else s). assert (H1 : sectionNames_ s1 = sectionNames_ s ∧ shdrInfoPairs_ s1 = shdrInfoPairs_ s).
  { unfold s1, GetAdltStrTabSectionInfo, GetAdltMapSectionInfo. repeat case_match; done. }
  clearbody s1. set (s2 := if _ && _ then _ else s1).
  assert (H2 : sectionNames_ s2 = sectionNames_ s1 ∧ shdrInfoPairs_ s2 = shdrInfoPairs_ s1) by (unfold s2; repeat case_match; done).
  clearbody s2. destruct H1 as [H1 H1'], H2 as [H2 H2']. rewrite H2', H1'. repeat case_match; cbn; by rewrite H2, H1.
Qed.

Lemma shdr_loop_spec ehdr names k : ∀ i s s', 1 <= i → sectionNames_ s = names →
  shdrInfoPairs_ s = omap (section_entry ehdr names) (seqZ 1 (i - 1)) → Forall (λ e, e.1.1 < i) (shdrInfoPairs_ s) →
  shdr_loop C mm k ehdr i (u64 (e_shoff ehdr + i * e_shentsize ehdr)) s = (true, s') →
  sectionNames_ s' = names ∧ shdrInfoPairs_ s' = omap (section_entry ehdr names) (seqZ 1 (i - 1 + k)).
Proof.
  induction k as [|k IH]; intros i s s' Hi Hn Hl Hlt H; cbn [shdr_loop] in H.
  - simplify_eq. by rewrite Z.add_0_r.
  - cbv zeta in H. assert (Hoff : u64 (u64 (e_shoff ehdr + i * e_shentsize ehdr) + e_shentsize ehdr) = u64 (e_shoff ehdr + (i + 1) * e_shentsize ehdr)).
    { rewrite wrap_add_l. f_equal. lia. }
    rewrite Hoff in H. replace (i - 1 + S k) with ((i + 1) - 1 + k) by lia.
    assert (Hseq : omap (section_entry ehdr names) (seqZ 1 (i + 1 - 1)) = shdrInfoPairs_ s ++ omap (section_entry ehdr names) [i]).
    { replace (i + 1 - 1) with ((i - 1) + 1) by lia. rewrite seqZ_last, omap_app, <- Hl by lia. do 3 f_equal. lia. }
    assert (Hmono : Forall (λ e, e.1.1 < i + 1) (shdrInfoPairs_ s)).
    { eapply list.Forall_impl; [exact Hlt|]. cbn. lia. }
    cbn [omap list_omap] in Hseq. unfold section_entry in Hseq at 2.
    destruct (Z.eqb_spec i (e_shstrndx ehdr)) as [Hx|Hx]; [apply (IH (i + 1) s s'); [lia|done|by rewrite Hseq, app_nil_r|done|done]|].
    destruct (ep_Read mm _ _) as [bs|] eqn:E; [|done]. cbn [fmap option_fmap option_map mbind option_bind] in Hseq.
    change (GetSectionNameByIndex (sh_name (get_Shdr C bs)) (set_sectionNames names ElfParser_new)) with
      (GetSectionNameByIndex (sh_name (get_Shdr C bs)) (set_sectionNames names s)) in Hseq.
    destruct (extract_shdr_fields ehdr i (get_Shdr C bs) s) as [G1 G2]. rewrite <- Hn in Hseq. rewrite Hn in Hseq at 1.
    assert (set_sectionNames (sectionNames_ s) s = s) as Hid by (by destruct s). rewrite Hid in Hseq.
    apply (IH (i + 1) (extract_shdr mm ehdr i (get_Shdr C bs) s) s' ltac:(lia)); [by rewrite G1| | |exact H]; rewrite G2; (destruct (GetSectionNameByIndex _ s) as [nm|]; cbn [mbind option_bind] in Hseq).
    + by rewrite shdr_emplace_last, Hseq by done.
    + by rewrite Hseq, app_nil_r.
    + rewrite shdr_emplace_last by done. apply list.Forall_app. split; [done|]. repeat constructor. cbn. lia.
    + done.
Qed.
(** What the two passes leave alone. *)
Definition segments (s : ElfParser) := (startVaddr_ s, endVaddr_ s, loadBias_ s, dynamicOffset_ s, ptAdlt s).

Lemma phdr_state_segments l s s' : segments s' = segments s → phdr_state l s → phdr_state l s'.
Proof. unfold segments, phdr_state. intros [= -> -> -> -> ->]. done. Qed.

Lemma extract_shdr_segments ehdr i shdr s : segments (extract_shdr mm ehdr i shdr s) = segments s.
Proof. unfold extract_shdr, GetAdltStrTabSectionInfo, GetAdltMapSectionInfo. repeat case_match; done. Qed.

Lemma shdr_loop_segments ehdr k : ∀ i offset s, segments (shdr_loop C mm k ehdr i offset s).2 = segments s.
Proof.
  induction k as [|k IH]; intros i offset s; [done|]. cbn [shdr_loop]. cbv zeta. zcase; [apply IH|].
  destruct (ep_Read mm _ _); [|done]. by rewrite IH, extract_shdr_segments.
Qed.

Lemma phdr_loop_sections k : ∀ entsize offset first s, shdrInfoPairs_ (phdr_loop C mm k entsize offset first s).2 = shdrInfoPairs_ s.
Proof.
  induction k as [|k IH]; intros entsize offset first s; [done|]. cbn [phdr_loop]. destruct (ep_Read mm _ _) as [bs|]; [|done].
  assert (E : shdrInfoPairs_ (parse_phdr (get_Phdr C bs) first s).2 = shdrInfoPairs_ s).
  { unfold parse_phdr, UpdateVaddrAndOffset. repeat case_match; simplify_eq; done. }
  destruct (parse_phdr _ _ _) as [f s1]. by rewrite IH.
Qed.

Lemma ParseSectionHeaders_spec ehdr s s' : 0 < e_shnum ehdr → shdrInfoPairs_ s = [] → ParseSectionHeaders C mm ehdr s = (true, s') →
  segments s' = segments s ∧ shdrInfoPairs_ s' = omap (section_entry ehdr (sectionNames_ s')) (seqZ 1 (e_shnum ehdr - 1)).
Proof.
  intros Hn Hs H. unfold ParseSectionHeaders in H. destruct (_ <? _); [|done].
  destruct (ep_Read mm _ _) as [bs|]; [|done]. destruct (ParseStrTab _ _ _) as [names|]; [|done].
  unfold ExtractSectionHeadersInfo in H. destruct (_ <? _); [done|]. set (s1 := set_sectionNames names s) in *.
  pose proof (shdr_loop_segments ehdr (Z.to_nat (e_shnum ehdr - 1)) 1 (u64 (e_shoff ehdr + e_shentsize ehdr)) s1) as G. rewrite H in G.
  split; [exact G|]. rewrite <- (Z.mul_1_l (e_shentsize ehdr)) in H.
  destruct (shdr_loop_spec ehdr names (Z.to_nat (e_shnum ehdr - 1)) 1 s1 s') as [N1 N2]; [lia|done|by cbn|cbn; by rewrite Hs| |].
  { rewrite <- H. f_equal. }
  rewrite N1, N2. do 2 f_equal. lia.
Qed.
End Tables.

(** C19. What the headers of a file lead to.  When [InitHeaders] succeeds on a fresh parser, every
    program header of the file could be read; the address range is the least virtual address and
    the greatest end of the executable segments, the load bias is that of the first of them, the
    dynamic table is the last one announced; and the table of sections has, in order, an entry for
    every section with a name except the table of names itself, with the fields of its header. *)
Theorem ParseAllHeaders_spec C mm bs s :
  C = Elf32 ∨ C = Elf64 → mmap_ok mm →
  ep_Read mm 0 (sizeof_Ehdr C) = Some bs → ParseAllHeaders C mm ElfParser_new = (true, s) →
  let ehdr := get_Ehdr C bs in
  ∃ l, phdrs C mm ehdr = Some l ∧ phdr_state l s ∧
       shdrInfoPairs_ s = omap (section_entry C mm ehdr (sectionNames_ s)) (seqZ 1 (e_shnum ehdr - 1)).
Proof.
  cbn zeta. intros HC Hmm Hr H. unfold ParseAllHeaders in H. rewrite Hr in H. apply ep_Read_bytes in Hr; [|done].
  set (ehdr := get_Ehdr C bs) in *. assert (Hf : fits 64 (e_phoff ehdr) ∧ 0 <= e_phnum ehdr ∧ 0 <= e_shnum ehdr).
  { unfold ehdr. destruct HC as [-> | ->]; cbn; repeat split; try (by apply fld_nonneg); apply fld_fits64; (done || lia). }
  destruct Hf as (Hf & Hp & Hsn). destruct (ParseElfHeaders ehdr ElfParser_new) as [ok s1] eqn:E1. destruct ok; [|done]. cbn [negb] in H.
  assert (H1 : segments s1 = segments ElfParser_new ∧ shdrInfoPairs_ s1 = [] ∧ e_shnum ehdr ≠ 0).
  { unfold ParseElfHeaders in E1. destruct (Z.eqb_spec (e_shnum ehdr) 0); [done|]. injection E1 as <-. repeat zcase; done. }
  destruct H1 as (G1 & G2 & G3).
  destruct (ParseProgramHeaders C mm ehdr s1) as [ok s2] eqn:E2. destruct ok; [|done]. cbn [negb] in H.
  unfold ParseProgramHeaders in E2. destruct (e_phentsize ehdr <? sizeof_Phdr C); [done|].
  pose proof (phdr_loop_sections C mm (Z.to_nat (e_phnum ehdr)) (e_phentsize ehdr) (e_phoff ehdr) true s1) as G4. rewrite E2, G2 in G4.
  destruct (phdr_loop_spec C mm ehdr (Z.to_nat (e_phnum ehdr)) 0 [] s1 s2 ltac:(lia)) as (l & L1 & L2).
  { by apply (phdr_state_segments [] ElfParser_new). }
  { done. }
  { by rewrite Z.mul_0_l, Z.add_0_r, (wrap_small _ _ Hf). }
  destruct (ParseSectionHeaders_spec C mm ehdr s2 s) as [S1 S2]; [lia|exact G4|done|].
  exists l. split; [|split; [by apply (phdr_state_segments l s2)|done]].
  unfold phdrs. rewrite Z.add_0_l, Z2Nat.id in L1 by done. exact L1.
Qed.

Lemma ParseAllHeaders_spec_witness :
  ∃ l, phdrs Elf64 example_mmap (get_Ehdr Elf64 (example_file 0)) = Some l ∧ length l = 2%nat ∧ phdr_state l example_parser.
Proof.
  destruct (ParseAllHeaders_spec Elf64 example_mmap (take 64 (example_file 0)) example_parser) as (l & H1 & H2 & _).
  - by right.
  - apply map_file_ok; [apply bytesb_spec; vm_compute; reflexivity|lia|vm_compute; reflexivity].
  - vm_compute; reflexivity.
  - vm_compute; reflexivity.
  - exists l. split; [exact H1|]. split; [|exact H2].
    assert (phdrs Elf64 example_mmap (get_Ehdr Elf64 (take 64 (example_file 0))) = Some l) as E by exact H1.
    apply mapM_Some, Forall2_length in E. rewrite <- E. vm_compute; reflexivity.
Defined.
