(* ===== verification/Elf.v ===== *)
(** * ELF objects

    [DfxElf] (src/elf/dfx_elf.cpp), the object a map of the unwinder owns for its file: the parser,
    created on demand, the load address, the function symbols, read all at once or one by one, and
    the unwind table of a pc.  The factories that make one (src/elf/elf_factory.cpp,
    elf_factory_selector.cpp), [DfxMap::GetElf] and [GetRelPc] (src/maps/dfx_map.cpp), which keep
    it, and [DfxSymbols] (src/elf/dfx_symbols.cpp), which names a pc.

    The process is 64-bit.  Outside the program, and arguments here: what opening and mapping a
    file gives, the memory of the process, the xz library, the demanglers, and the loader's list of
    objects. *)
From stdpp Require Import sorting.
From S2P Require Import Prelude Arch Memory DwarfCfa DwarfEntry Exidx Text Maps ElfParser.

#[local] Existing Instance Arm64.

(** ** Encoded values through any [Read]

    [ReadEncodedValue] and what it calls (src/memory/dfx_memory.cpp) use the virtual [Read]; here
    they are over a [Read] given as an argument, for the one of [DfxMmap]. *)
Section Encoded.
Context (rd : Z → Z → bool → outcome (list Z * Z)) (dataOff funcOff : Z).

Definition rd_T (addr old : Z) (n : nat) (incre : bool) : outcome (bool * Z * Z) :=
  '(bs, a) ← rd addr n incre;
  Ret ((length bs =? n)%nat, of_le (bs ++ drop (length bs) (le_bytes n old)), a).
Definition rd_Value (addr : Z) (n : nat) (incre : bool) : outcome (Z * Z) :=
  '(_, v, a) ← rd_T addr 0 n incre;
  Ret (v, a).

Fixpoint rd_leb_loop (fuel : nat) (addr val shift byte : Z) : outcome (Z * Z * Z * Z) :=
  match fuel with
  | O => OutOfFuel
  | S fuel' =>
      '(ok, byte, addr) ← rd_T addr byte 1 true;
      if negb (ok : bool) then Ret (val, shift, byte, addr)
      else
        part ← shl 64 (Z.land byte 0x7f) shift;
        let val := Z.lor val part in
        let shift := shift + 7 in
        if Z.land byte 0x80 =? 0 then Ret (val, shift, byte, addr)
        else rd_leb_loop fuel' addr val shift byte
  end.
Definition rd_Uleb128 (addr : Z) : outcome (Z * Z) :=
  '(val, _, _, addr) ← rd_leb_loop leb_fuel addr 0 0 0;
  Ret (val, addr).
Definition rd_Sleb128 (addr : Z) : outcome (Z * Z) :=
  '(val, shift, byte, addr) ← rd_leb_loop leb_fuel addr 0 0 0;
  if Z.land byte 0x40 =? 0 then Ret (s64 val, addr)
  else
    ext ← shl 64 (2 ^ 64 - 1) shift;
    Ret (s64 (Z.lor val ext), addr).

Definition rd_Format (addr val fmt : Z) : outcome (Z * Z) :=
  let unsigned (n : nat) := '(v, a) ← rd_Value addr n true; Ret (uptr v, a) in
  let signed (n : nat) := '(v, a) ← rd_Value addr n true; Ret (uptr (swrap (8 * n) v), a) in
  if fmt =? DW_EH_PE_uleb128 then '(v, a) ← rd_Uleb128 addr; Ret (uptr v, a)
  else if fmt =? DW_EH_PE_sleb128 then '(v, a) ← rd_Sleb128 addr; Ret (uptr v, a)
  else if fmt =? DW_EH_PE_udata1 then unsigned 1%nat
  else if fmt =? DW_EH_PE_sdata1 then signed 1%nat
  else if fmt =? DW_EH_PE_udata2 then unsigned 2%nat
  else if fmt =? DW_EH_PE_sdata2 then signed 2%nat
  else if fmt =? DW_EH_PE_udata4 then unsigned 4%nat
  else if fmt =? DW_EH_PE_sdata4 then signed 4%nat
  else if fmt =? DW_EH_PE_udata8 then unsigned 8%nat
  else if fmt =? DW_EH_PE_sdata8 then signed 8%nat
  else Ret (val, addr).

Definition rd_Encoded (addr encoding : Z) : outcome (Z * Z) :=
  if encoding =? DW_EH_PE_omit then Ret (0, addr)
  else if encoding =? DW_EH_PE_aligned then
    let sum := addr + (psize - 1) in
    if negb (fitsb ptr_bits sum) then Ret (0, uptr sum)
    else
      '(_, v, a) ← rd_T (Z.land sum (uptr (- psize))) 0 psize true;
      Ret (v, a)
  else
    let fmt := Z.land encoding DW_EH_PE_FORMAT_MASK in
    if fmt =? DW_EH_PE_absptr then
      '(_, v, a) ← rd_T addr 0 psize true;
      Ret (v, a)
    else
      '(v, a) ← rd_Format addr 0 fmt;
      let v := apply_encoding (mkMemory None false 0 dataOff funcOff) encoding addr v in
      if Z.land encoding DW_EH_PE_indirect =? 0 then Ret (v, a)
      else
        '(_, v', _) ← rd_T v v psize true;
        Ret (v', a).
End Encoded.

(** The memory's own [Read] gives its own [ReadEncodedValue]. *)
Lemma rd_Encoded_Read m addr encoding :
  rd_Encoded (Read m) (dataOffset_ m) (funcOffset_ m) addr encoding = ReadEncodedValue m addr encoding.
Proof. reflexivity. Qed.

Definition mmap_ReadEncodedValue (m : DfxMmap) (addr encoding : Z) : outcome (Z * Z) :=
  rd_Encoded (λ a n incre, Ret (mmap_Read m a n incre)) (mm_dataOffset m) (mm_funcOffset m) addr encoding.
Definition mmap_SetDataOffset (o : Z) (m : DfxMmap) : DfxMmap :=
  mkMmap (mmap_ m) (size_ m) (mm_bytes m) (needUnmap_ m) o (mm_funcOffset m).

(** ** The object

    [elf_core]: the fields that reading the headers uses, which the object of the mini debug info
    has too.  [elfParse_] tells which of the two parsers it is. *)
Record elf_core := mkCore {
  valid_ : bool;
  classType_ : Z;
  e_mmap : option DfxMmap;
  elfParse_ : option (bool * ElfParser)
}.

Record DfxElf := mkElf {
  e_core : elf_core;
  e_loadBias : Z;
  loadBase_ : Z;
  startPc_ : Z;
  endPc_ : Z;
  baseOffset_ : Z;
  buildId_ : list ascii;
  uti_ : UnwindTableInfo;
  hasTableInfo_ : bool;
  e_funcSymbols : list ElfSymbol;
  miniDebugInfo_ : option elf_core
}.

Definition ELFCLASSNONE : Z := 0.
Definition ELFCLASS32 : Z := 1.
Definition ELFCLASS64 : Z := 2.
Definition EI_CLASS : Z := 4.
Definition ELFMAG : list Z := [0x7f; 69; 76; 70].
Definition NO_ADDR : Z := 2 ^ 64 - 1.

Definition uti0 : UnwindTableInfo := mkUti 0 0 0 (-1) false 0 0 0 0.
Definition core_new (m : option DfxMmap) : elf_core := mkCore false 0 m None.
(** The constructors, with [Init]. *)
Definition DfxElf_new (m : option DfxMmap) : DfxElf := mkElf (core_new m) 0 NO_ADDR NO_ADDR 0 0 [] uti0 false [] None.
(** [Clear]. *)
Definition elf_Clear (e : DfxElf) : DfxElf :=
  mkElf (mkCore (valid_ (e_core e)) (classType_ (e_core e)) None None) (e_loadBias e) (loadBase_ e) (startPc_ e) (endPc_ e)
    (baseOffset_ e) (buildId_ e) (uti_ e) (hasTableInfo_ e) (e_funcSymbols e) (miniDebugInfo_ e).

Definition set_core (c : elf_core) (e : DfxElf) : DfxElf :=
  mkElf c (e_loadBias e) (loadBase_ e) (startPc_ e) (endPc_ e) (baseOffset_ e) (buildId_ e) (uti_ e) (hasTableInfo_ e)
    (e_funcSymbols e) (miniDebugInfo_ e).
Definition set_e_loadBias (b : Z) (e : DfxElf) : DfxElf :=
  mkElf (e_core e) b (loadBase_ e) (startPc_ e) (endPc_ e) (baseOffset_ e) (buildId_ e) (uti_ e) (hasTableInfo_ e)
    (e_funcSymbols e) (miniDebugInfo_ e).
Definition SetLoadBase (base : Z) (e : DfxElf) : DfxElf :=
  mkElf (e_core e) (e_loadBias e) base (startPc_ e) (endPc_ e) (baseOffset_ e) (buildId_ e) (uti_ e) (hasTableInfo_ e)
    (e_funcSymbols e) (miniDebugInfo_ e).
Definition set_pcs (st en : Z) (e : DfxElf) : DfxElf :=
  mkElf (e_core e) (e_loadBias e) (loadBase_ e) st en (baseOffset_ e) (buildId_ e) (uti_ e) (hasTableInfo_ e)
    (e_funcSymbols e) (miniDebugInfo_ e).
Definition SetBaseOffset (o : Z) (e : DfxElf) : DfxElf :=
  mkElf (e_core e) (e_loadBias e) (loadBase_ e) (startPc_ e) (endPc_ e) o (buildId_ e) (uti_ e) (hasTableInfo_ e)
    (e_funcSymbols e) (miniDebugInfo_ e).
Definition SetBuildId (b : list ascii) (e : DfxElf) : DfxElf :=
  mkElf (e_core e) (e_loadBias e) (loadBase_ e) (startPc_ e) (endPc_ e) (baseOffset_ e) b (uti_ e) (hasTableInfo_ e)
    (e_funcSymbols e) (miniDebugInfo_ e).
Definition set_table (u : UnwindTableInfo) (h : bool) (e : DfxElf) : DfxElf :=
  mkElf (e_core e) (e_loadBias e) (loadBase_ e) (startPc_ e) (endPc_ e) (baseOffset_ e) (buildId_ e) u h
    (e_funcSymbols e) (miniDebugInfo_ e).
Definition set_symbols (l : list ElfSymbol) (e : DfxElf) : DfxElf :=
  mkElf (e_core e) (e_loadBias e) (loadBase_ e) (startPc_ e) (endPc_ e) (baseOffset_ e) (buildId_ e) (uti_ e) (hasTableInfo_ e)
    l (miniDebugInfo_ e).
Definition set_mini (m : option elf_core) (e : DfxElf) : DfxElf :=
  mkElf (e_core e) (e_loadBias e) (loadBase_ e) (startPc_ e) (endPc_ e) (baseOffset_ e) (buildId_ e) (uti_ e) (hasTableInfo_ e)
    (e_funcSymbols e) m.
Definition SetMmap (m : option DfxMmap) (e : DfxElf) : DfxElf :=
  set_core (mkCore (valid_ (e_core e)) (classType_ (e_core e)) m (elfParse_ (e_core e))) e.

Definition class_of (is64 : bool) : elf_class := if is64 then Elf64 else Elf32.

Definition elf_Read (m : option DfxMmap) (pos size : Z) : option (list Z) := m ≫= λ mm, ep_Read mm pos size.
Definition IsValidElf (ident : list Z) : bool := bool_decide (take 4 ident = ELFMAG).
Definition GetMmapPtr (m : option DfxMmap) : option Z := m ≫= mmap_Get.
Definition GetMmapSize (m : option DfxMmap) : Z := from_option size_ 0 m.

Definition InitHeaders (c : elf_core) : bool * elf_core :=
  match e_mmap c with
  | None => (false, c)
  | Some mm =>
      match elfParse_ c with
      | Some _ => (true, c)
      | None =>
          match elf_Read (e_mmap c) 0 4 with
          | None => (false, c)
          | Some ident =>
              if negb (IsValidElf ident) then (false, c)
              else match elf_Read (e_mmap c) EI_CLASS 1 with
              | None => (false, c)
              | Some b =>
                  let classType := of_le b in
                  let init (is64 : bool) :=
                    let '(ok, p) := ParseAllHeaders (class_of is64) mm ElfParser_new in
                    (ok, mkCore ok classType (e_mmap c) (Some (is64, p))) in
                  if classType =? ELFCLASS32 then init false
                  else if classType =? ELFCLASS64 then init true
                  else (false, mkCore (valid_ c) classType (e_mmap c) (elfParse_ c))
              end
          end
      end
  end.

Definition core_IsValid (c : elf_core) : bool * elf_core :=
  let c := if valid_ c then c else (InitHeaders c).2 in (valid_ c, c).
Definition elf_IsValid (e : DfxElf) : bool * DfxElf := let '(b, c) := core_IsValid (e_core e) in (b, set_core c e).

(** A use of [elfParse_] that the code does not guard. *)
Definition with_parser {A} (c : elf_core) (f : bool → ElfParser → outcome A) : outcome A :=
  match elfParse_ c with Some (is64, p) => f is64 p | None => Undef NullDeref end.
(** The same, where the object is valid. *)
Definition parser_get {A} (d : A) (f : ElfParser → A) (e : DfxElf) : outcome (A * DfxElf) :=
  let '(ok, e) := elf_IsValid e in
  if ok then with_parser (e_core e) (λ _ p, Ret (f p, e)) else Ret (d, e).
Definition set_parse (is64 : bool) (p : ElfParser) (e : DfxElf) : DfxElf :=
  set_core (mkCore (valid_ (e_core e)) (classType_ (e_core e)) (e_mmap (e_core e)) (Some (is64, p))) e.

Definition GetClassType (e : DfxElf) : Z * DfxElf :=
  let '(ok, e) := elf_IsValid e in (if ok then classType_ (e_core e) else ELFCLASSNONE, e).
Definition GetArchType (e : DfxElf) : outcome (ArchType * DfxElf) := parser_get ARCH_UNKNOWN archType_ e.
Definition GetStartVaddr (e : DfxElf) : outcome (Z * DfxElf) := parser_get 0 startVaddr_ e.
Definition GetEndVaddr (e : DfxElf) : outcome (Z * DfxElf) := parser_get 0 endVaddr_ e.
Definition GetStartOffset (e : DfxElf) : outcome (Z * DfxElf) := parser_get 0 startOffset_ e.
Definition GetElfSize (e : DfxElf) : outcome (Z * DfxElf) := parser_get 0 elfSize_ e.
Definition GetGnuDebugDataHdr (e : DfxElf) : outcome (GnuDebugDataHdr * DfxElf) :=
  parser_get (mkDebugData 0 0) gnuDebugDataHdr_ e.
Definition elf_GetSectionInfo (secName : list ascii) (e : DfxElf) : outcome (option ShdrInfo * DfxElf) :=
  parser_get None (GetSectionInfo secName) e.
Definition IsAdlt (e : DfxElf) : outcome bool := with_parser (e_core e) (λ _ p, Ret (ptAdlt p)).
Definition GetPtLoads (e : DfxElf) : outcome (gmap Z ElfLoadInfo) := with_parser (e_core e) (λ _ p, Ret (ptLoads_ p)).
Definition GetAdltMap (e : DfxElf) : outcome (list AdltMapInfo) := with_parser (e_core e) (λ _ p, Ret (adltMap_ p)).
Definition GetAdltStrtab (e : DfxElf) : outcome (list ascii) := with_parser (e_core e) (λ _ p, Ret (adltStrtab_ p)).
Definition elf_GetAdltOriginSoNameByRelPc (relPc : Z) (e : DfxElf) : outcome (list ascii) :=
  with_parser (e_core e) (λ _ p, GetAdltOriginSoNameByRelPc relPc p).

(** The operations that follow run in the mapping of the parser, which is the one of the object. *)
Definition with_mmap {A} (c : elf_core) (f : bool → DfxMmap → ElfParser → outcome A) : outcome A :=
  match e_mmap c with Some mm => with_parser c (λ is64 p, f is64 mm p) | None => Undef NullDeref end.

Definition GetElfName (e : DfxElf) : outcome (list ascii * DfxElf) :=
  let '(ok, e) := elf_IsValid e in
  if negb ok then Ret ([], e)
  else with_mmap (e_core e) (λ is64 mm p, '(n, p) ← ep_GetElfName (class_of is64) mm p; Ret (n, set_parse is64 p e)).
Definition GetGlobalPointer (e : DfxElf) : outcome (Z * DfxElf) :=
  let '(ok, e) := elf_IsValid e in
  if negb ok then Ret (0, e)
  else with_mmap (e_core e) (λ is64 mm p, '(g, p) ← ep_GetGlobalPointer (class_of is64) mm p; Ret (g, set_parse is64 p e)).
Definition GetBuildId (e : DfxElf) : outcome (list ascii * DfxElf) :=
  if negb (is_empty (buildId_ e)) then Ret (buildId_ e, e)
  else
    let '(ok, e) := elf_IsValid e in
    if negb ok then Ret ([], e)
    else with_mmap (e_core e) (λ _ mm p, b ← ep_GetBuildId mm p; Ret (b, e)).
Definition elf_GetSectionData (size : Z) (secName : list ascii) (e : DfxElf) : outcome (option (list Z) * DfxElf) :=
  let '(ok, e) := elf_IsValid e in
  if negb ok then Ret (None, e) else with_mmap (e_core e) (λ _ mm p, Ret (GetSectionData mm size secName p, e)).

Definition GetLoadBias (e : DfxElf) : outcome (Z * DfxElf) :=
  if e_loadBias e =? 0 then
    let '(ok, e) := elf_IsValid e in
    if ok then with_parser (e_core e) (λ _ p, Ret (loadBias_ p, set_e_loadBias (loadBias_ p) e)) else Ret (0, e)
  else Ret (e_loadBias e, e).

Definition GetLoadBase (mapStart mapOffset : Z) (e : DfxElf) : outcome (Z * DfxElf) :=
  if loadBase_ e =? NO_ADDR then
    let '(ok, e) := elf_IsValid e in
    if ok then
      '(loadBias, e) ← GetLoadBias e;
      if loadBias <? 0 then Ret (loadBase_ e, e)
      else let b := u64 (mapStart - mapOffset - loadBias) in Ret (b, SetLoadBase b e)
    else Ret (loadBase_ e, e)
  else Ret (loadBase_ e, e).

Definition GetStartPc (e : DfxElf) : outcome (Z * DfxElf) :=
  if startPc_ e =? NO_ADDR then
    let '(ok, e) := elf_IsValid e in
    if ok then
      with_parser (e_core e) (λ _ p,
        let e := if negb (loadBase_ e =? NO_ADDR) && negb (startVaddr_ p =? NO_ADDR)
                 then set_pcs (u64 (startVaddr_ p + loadBase_ e)) (endPc_ e) e else e in
        Ret (startPc_ e, e))
    else Ret (startPc_ e, e)
  else Ret (startPc_ e, e).
Definition GetEndPc (e : DfxElf) : outcome (Z * DfxElf) :=
  if endPc_ e =? 0 then
    let '(ok, e) := elf_IsValid e in
    if ok then
      with_parser (e_core e) (λ _ p,
        let e := if negb (loadBase_ e =? NO_ADDR) && negb (endVaddr_ p =? 0)
                 then set_pcs (startPc_ e) (u64 (endVaddr_ p + loadBase_ e)) e else e in
        Ret (endPc_ e, e))
    else Ret (endPc_ e, e)
  else Ret (endPc_ e, e).
Definition GetRelPc (pc mapStart mapOffset : Z) (e : DfxElf) : outcome (Z * DfxElf) :=
  '(b, e) ← GetLoadBase mapStart mapOffset e; Ret (u64 (pc - b), e).

(** ** Function symbols *)
Section FuncSymbols.
(** [mini_on]: the mini debug info is compiled in and enabled; [xz]: what decompressing a section
    gives; [vec]: where the vector with the result keeps its bytes. *)
Context (mini_on : bool) (xz : GnuDebugDataHdr → option (list Z)) (vec : Z).

(** [MiniDebugInfoFactory::Create]. *)
Definition MiniDebugInfo_Create (g : GnuDebugDataHdr) : option elf_core :=
  if negb mini_on then None
  else match xz g with
  | None => None
  | Some data =>
      let '(ok, mm) := mmap_Init_data vec data DfxMmap_new in
      if negb ok then None
      else let '(ok, c) := core_IsValid (core_new (Some mm)) in if negb ok then None else Some c
  end.

Definition IsMiniDebugInfoValid (e : DfxElf) : outcome (bool * DfxElf) :=
  match miniDebugInfo_ e with
  | Some _ => Ret (true, e)
  | None =>
      with_parser (e_core e) (λ _ p,
        let m := MiniDebugInfo_Create (gnuDebugDataHdr_ p) in
        Ret (match m with Some _ => true | None => false end, set_mini m e))
  end.

Definition core_GetFuncSymbols (c : elf_core) : outcome (list ElfSymbol * elf_core) :=
  with_mmap c (λ is64 mm p,
    '(l, p) ← ep_GetFuncSymbols (class_of is64) mm p; Ret (l, mkCore (valid_ c) (classType_ c) (e_mmap c) (Some (is64, p)))).
Definition core_GetFuncSymbolByAddr (addr : Z) (c : elf_core) : outcome (option ElfSymbol) :=
  with_mmap c (λ is64 mm p, ParseFuncSymbolByAddr (class_of is64) mm addr p).

Definition GetFuncSymbols (e : DfxElf) : outcome (list ElfSymbol * DfxElf) :=
  let '(ok, e) := elf_IsValid e in
  if negb ok || negb (length (e_funcSymbols e) =? 0)%nat then Ret (e_funcSymbols e, e)
  else
    '(mini, e) ← IsMiniDebugInfoValid e;
    e ← (if (mini : bool) then
           match miniDebugInfo_ e with
           | Some c => '(l, c) ← core_GetFuncSymbols c; Ret (set_symbols l (set_mini (Some c) e))
           | None => Ret e
           end
         else Ret e);
    '(l, c) ← core_GetFuncSymbols (e_core e);
    let e := set_symbols (syms_of (e_funcSymbols e) l) (set_core c e) in
    Ret (e_funcSymbols e, e).

(** [FindFuncSymbol]: [upper_bound], then one step back unless it is the first element. *)
Fixpoint take_le (addr : Z) (l : list ElfSymbol) : list ElfSymbol :=
  match l with
  | s :: l' => if addr <? value s then [] else s :: take_le addr l'
  | [] => []
  end.
Definition FindFuncSymbol (addr : Z) (symbols : list ElfSymbol) : option ElfSymbol :=
  match symbols with
  | [] => None
  | s0 :: _ =>
      let next := List.last (take_le addr symbols) s0 in
      if (value next <=? addr) && (addr - value next <? es_size next) then Some next else None
  end.

Definition GetFuncInfoLazily (addr : Z) (e : DfxElf) : outcome (option ElfSymbol * DfxElf) :=
  match elfParse_ (e_core e) with
  | None => Ret (None, e)
  | Some _ =>
      match FindFuncSymbol addr (e_funcSymbols e) with
      | Some s => Ret (Some s, e)
      | None =>
          r ← core_GetFuncSymbolByAddr addr (e_core e);
          '(r, e) ← match r with
                    | Some s => Ret (Some s, e)
                    | None =>
                        '(mini, e) ← IsMiniDebugInfoValid e;
                        match (mini : bool), miniDebugInfo_ e with
                        | true, Some c => r ← core_GetFuncSymbolByAddr addr c; Ret (r, e)
                        | _, _ => Ret (None, e)
                        end
                    end;
          match r with
          | Some s => Ret (Some s, set_symbols (sym_emplace s (e_funcSymbols e)) e)
          | None => Ret (None, e)
          end
      end
  end.

(** [GetFuncInfo]; [lazily] is [UnwinderConfig::GetEnableLoadSymbolLazily()]. *)
Definition GetFuncInfo (lazily : bool) (addr : Z) (e : DfxElf) : outcome (option ElfSymbol * DfxElf) :=
  let '(ok, e) := elf_IsValid e in
  if negb ok then Ret (None, e)
  else if lazily then GetFuncInfoLazily addr e
  else '(symbols, e) ← GetFuncSymbols e; Ret (FindFuncSymbol addr symbols, e).

(** *** DfxSymbols

    [cxa], [rust] and [cj] are the demanglers; the last two are [None] when their library cannot
    be loaded, and a demangler gives [None] for a name it does not accept. *)
Context (cxa : list ascii → option (list ascii)) (rust cj : option (list ascii → option (list ascii))).

Definition LINKER_PREFIX : list ascii := lit "__dl_".
Definition LINKER_PREFIX_NAME : list ascii := lit "[linker]".

Definition Demangle (buf : list ascii) : list ascii :=
  if (length buf <? 2)%nat || negb (bool_decide (buf !! 0%nat = Some "_"%char)) then buf
  else
    let '(bufStr, funcName) :=
      if StartsWith buf LINKER_PREFIX then (drop (length LINKER_PREFIX) buf, LINKER_PREFIX_NAME) else (buf, []) in
    let second (c : ascii) := bool_decide (buf !! 1%nat = Some c) in
    let demangled := if second "Z"%char then cxa bufStr else None in
    let demangled := if second "R"%char then match rust with Some f => f bufStr | None => demangled end else demangled in
    let demangled :=
      if second "C"%char then
        match demangled with Some d => Some d | None => match cj with Some f => f bufStr | None => demangled end end
      else demangled in
    funcName ++ match demangled with Some d => d | None => bufStr end.

Fixpoint find_by_name (funcName : list ascii) (l : list ElfSymbol) : option ElfSymbol :=
  match l with
  | [] => None
  | s :: l' => if bool_decide (Demangle (nameStr s) = funcName) then Some s else find_by_name funcName l'
  end.
Definition FindFuncSymbolByName (funcName : list ascii) (e : DfxElf) : outcome (option ElfSymbol * DfxElf) :=
  '(symbols, e) ← GetFuncSymbols e; Ret (find_by_name funcName symbols, e).

(** The fields of [DfxSymbol] that the constructors used here set. *)
Record DfxSymbol := mkSymbol { funcVaddr_ : Z; fileVaddr_ : Z; ds_size : Z; ds_name : list ascii; demangle_ : list ascii; module_ : list ascii }.

Definition ParseSymbols (symbols : list DfxSymbol) (elf : option DfxElf) (filePath : list ascii)
  : outcome (bool * list DfxSymbol * option DfxElf) :=
  match elf with
  | None => Ret (false, symbols, None)
  | Some e =>
      '(l, e) ← GetFuncSymbols e;
      '(path, e) ← (if baseOffset_ e =? 0 then Ret (filePath, e)
                    else '(n, e) ← GetElfName e; Ret (filePath ++ lit "!" ++ n, e));
      Ret (true, symbols ++ map (λ s, mkSymbol (value s) (value s) (es_size s) (nameStr s) (Demangle (nameStr s)) path) l, Some e)
  end.

Definition AddSymbolsByPlt (symbols : list DfxSymbol) (elf : option DfxElf) (filePath : list ascii)
  : outcome (bool * list DfxSymbol * option DfxElf) :=
  match elf with
  | None => Ret (false, symbols, None)
  | Some e =>
      '(i, e) ← elf_GetSectionInfo PLT e;
      match i with
      | None => Ret (false, symbols, Some e)
      | Some shdr => Ret (true, symbols ++ [mkSymbol (i_addr shdr) (i_addr shdr) (i_size shdr) PLT PLT filePath], Some e)
      end
  end.

Definition GetFuncNameAndOffsetByPc (lazily : bool) (relPc : Z) (elf : option DfxElf)
  : outcome (option (list ascii * Z) * option DfxElf) :=
  match elf with
  | None => Ret (None, None)
  | Some e =>
      '(r, e) ← GetFuncInfo lazily relPc e;
      Ret (option_map (λ s, (Demangle (nameStr s), u64 (relPc - value s))) r, Some e)
  end.
End FuncSymbols.

(** ** The unwind table *)
Definition sizeof_EhFrameHdr : Z := 12.
Definition maxFdeCount : Z := 1024 * 1024.

(** A [DwarfEhFrameHdr]: its address and its one-byte fields. *)
Record eh_hdr := mkHdr { hdr_addr : Z; hdr_version : Z; ehFramePtrEnc : Z; fdeCountEnc : Z; tableEnc : Z }.

(** A header in the mapping, at the offset [off]. *)
Definition mapped_hdr (mm : DfxMmap) (base off : Z) : outcome eh_hdr :=
  if (0 <=? off) && (off + 4 <=? length (mm_bytes mm)) then
    let b := drop (Z.to_nat off) (mm_bytes mm) in
    Ret (mkHdr (u64 (off + base)) (fld b 0 1) (fld b 1 1) (fld b 2 1) (fld b 3 1))
  else Undef OutOfBounds.
(** The header made up for a file without one, a local at the address [stack]. *)
Definition synth_hdr (stack : Z) : eh_hdr :=
  mkHdr stack DW_EH_VERSION (Z.lor DW_EH_PE_absptr DW_EH_PE_udata8) DW_EH_PE_omit DW_EH_PE_omit.

Definition set_uti_pcs (st en : Z) (u : UnwindTableInfo) : UnwindTableInfo :=
  mkUti st en (uti_gp u) (uti_format u) (isLinear u) (namePtr u) (segbase u) (tableLen u) (tableData u).
Definition set_uti_gp (g : Z) (u : UnwindTableInfo) : UnwindTableInfo :=
  mkUti (uti_startPc u) (uti_endPc u) g (uti_format u) (isLinear u) (namePtr u) (segbase u) (tableLen u) (tableData u).
Definition set_uti_name (n : Z) (u : UnwindTableInfo) : UnwindTableInfo :=
  mkUti (uti_startPc u) (uti_endPc u) (uti_gp u) (uti_format u) (isLinear u) n (segbase u) (tableLen u) (tableData u).
Definition set_uti_table (format : Z) (linear : bool) (sb len data : Z) (u : UnwindTableInfo) : UnwindTableInfo :=
  mkUti (uti_startPc u) (uti_endPc u) (uti_gp u) format linear (namePtr u) sb len data.

Definition FillUnwindTableByExidx (shdr : ShdrInfo) (loadBase : Z) (uti : UnwindTableInfo) : UnwindTableInfo :=
  set_uti_table UNW_INFO_FORMAT_ARM_EXIDX (isLinear uti) (segbase uti) (i_size shdr) (u64 (loadBase + i_addr shdr)) (set_uti_gp 0 uti).

Definition set_mmap (mm : DfxMmap) (e : DfxElf) : DfxElf :=
  set_core (mkCore (valid_ (e_core e)) (classType_ (e_core e)) (Some mm) (elfParse_ (e_core e))) e.

Definition FillUnwindTableByEhhdr (hdr : option eh_hdr) (shdrBase : Z) (uti : UnwindTableInfo) (e : DfxElf)
  : outcome (bool * UnwindTableInfo * DfxElf) :=
  match hdr, e_mmap (e_core e) with
  | Some hdr, Some _ =>
      if negb (hdr_version hdr =? DW_EH_VERSION) then Ret (false, uti, e)
      else
        let ptr := u64 (hdr_addr hdr + 4) in
        '(gp, e) ← GetGlobalPointer e;
        let uti := set_uti_gp gp uti in
        match e_mmap (e_core e), GetMmapPtr (e_mmap (e_core e)) with
        | Some mm, Some base =>
            let mm := mmap_SetDataOffset gp mm in
            let e := set_mmap mm e in
            let ptrOffset := u64 (ptr - base) in
            '(ehFrameStart, ptrOffset) ← mmap_ReadEncodedValue mm ptrOffset (ehFramePtrEnc hdr);
            '(fdeCount, ptrOffset) ← mmap_ReadEncodedValue mm ptrOffset (fdeCountEnc hdr);
            if negb (fdeCountEnc hdr =? DW_EH_PE_omit) && (maxFdeCount <? fdeCount) then Ret (false, uti, e)
            else
              let ptr := u64 (base + ptrOffset) in
              if negb (tableEnc hdr =? Z.lor DW_EH_PE_datarel DW_EH_PE_sdata4) then
                let fdeCount := if fdeCountEnc hdr =? DW_EH_PE_omit then NO_ADDR else fdeCount in
                if ehFramePtrEnc hdr =? DW_EH_PE_omit then Ret (false, uti, e)
                else
                  Ret (true, set_uti_table UNW_INFO_FORMAT_REMOTE_TABLE true shdrBase fdeCount (u64 (shdrBase + ehFrameStart)) uti, e)
              else
                Ret (true, set_uti_table UNW_INFO_FORMAT_REMOTE_TABLE false shdrBase
                             (u64 (fdeCount * DWARF_TABLE_ENTRY_SIZE) / psize) (u64 (shdrBase + ptr - hdr_addr hdr)) uti, e)
        | _, _ => Undef NullDeref
        end
  | _, _ => Ret (false, uti, e)
  end.

Definition IsValidSectionOffset (shdr : ShdrInfo) (mmapSize minSize : Z) : bool :=
  negb ((mmapSize <=? i_offset shdr) || negb (fitsb 64 (i_offset shdr + i_size shdr)) || (mmapSize <? i_offset shdr + i_size shdr)
        || (i_size shdr <? minSize)).

Definition shdr0 : ShdrInfo := mkShdrInfo 0 0 0 0.

(** [FillUnwindTableByEhFrame]; [stack] is the address of the local header. *)
Definition FillUnwindTableByEhFrame (stack loadBase : Z) (uti : UnwindTableInfo) (e : DfxElf)
  : outcome (bool * UnwindTableInfo * DfxElf) :=
  let mmapSize := GetMmapSize (e_mmap (e_core e)) in
  '(h, e) ← elf_GetSectionInfo EH_FRAME_HDR e;
  match h, e_mmap (e_core e), GetMmapPtr (e_mmap (e_core e)) with
  | Some shdr, Some mm, Some base =>
      if negb (IsValidSectionOffset shdr mmapSize sizeof_EhFrameHdr) then Ret (false, uti, e)
      else
        hdr ← mapped_hdr mm base (i_offset shdr);
        FillUnwindTableByEhhdr (Some hdr) (u64 (loadBase + i_addr shdr)) uti e
  | _, _, _ =>
      '(f, e) ← elf_GetSectionInfo EH_FRAME e;
      match f, GetMmapPtr (e_mmap (e_core e)) with
      | Some shdr, Some _ =>
          if negb (IsValidSectionOffset shdr mmapSize 0) then Ret (false, uti, e)
          else FillUnwindTableByEhhdr (Some (synth_hdr stack)) (u64 (loadBase + i_addr shdr)) uti e
      | _, _ => Ret (false, uti, e)
      end
  end.

(** [FindUnwindTableInfo]: the result, what is left in [uti], and the object. *)
Definition FindUnwindTableInfo (stack pc : Z) (map : option DfxMap) (uti : UnwindTableInfo) (e : DfxElf)
  : outcome (Z * UnwindTableInfo * DfxElf) :=
  if hasTableInfo_ e && (uti_startPc (uti_ e) <=? pc) && (pc <? uti_endPc (uti_ e)) then Ret (UNW_ERROR_NONE, uti_ e, e)
  else match map with
  | None => Ret (UNW_ERROR_INVALID_MAP, uti, e)
  | Some m =>
      '(loadBase, e) ← GetLoadBase (m_begin m) (m_offset m) e;
      '(startPc, e) ← GetStartPc e;
      '(endPc, e) ← GetEndPc e;
      let uti := set_uti_pcs startPc endPc uti in
      if (pc <? startPc) || (endPc <=? pc) then Ret (UNW_ERROR_PC_NOT_IN_UNWIND_INFO, uti, e)
      else
        '(has, uti, e) ← (if hasTableInfo_ e then Ret (true, uti, e)
                          else '(ok, uti, e) ← FillUnwindTableByEhFrame stack loadBase uti e; Ret (ok, uti, set_table (uti_ e) ok e));
        if (has : bool) then Ret (UNW_ERROR_NONE, uti, set_table uti true e)
        else Ret (UNW_ERROR_NO_UNWIND_INFO, uti, e)
  end.

(** ** The tables of the process itself

    [mem] is the memory of the process through the local accessor, [raw] through plain pointers. *)
Section Local.
Context (mem : DfxMemory) (raw : Z → nat → outcome (list Z)).

Definition raw_hdr (addr : Z) : outcome eh_hdr :=
  b ← raw addr 4%nat; Ret (mkHdr addr (fld b 0 1) (fld b 1 1) (fld b 2 1) (fld b 3 1)).

Definition FillUnwindTableByEhhdrLocal (m : DfxMemory) (hdr : option eh_hdr) (uti : UnwindTableInfo) : outcome (bool * UnwindTableInfo) :=
  match hdr with
  | None => Ret (false, uti)
  | Some hdr =>
      if negb (hdr_version hdr =? DW_EH_VERSION) then Ret (false, uti)
      else
        let ptr := u64 (hdr_addr hdr + 4) in
        let memory := SetDataOffset m (uti_gp uti) in
        '(ehFrameStart, ptr) ← ReadEncodedValue memory ptr (ehFramePtrEnc hdr);
        '(fdeCount, ptr) ← ReadEncodedValue memory ptr (fdeCountEnc hdr);
        if negb (tableEnc hdr =? Z.lor DW_EH_PE_datarel DW_EH_PE_sdata4) then
          let fdeCount := if fdeCountEnc hdr =? DW_EH_PE_omit then NO_ADDR else fdeCount in
          if ehFramePtrEnc hdr =? DW_EH_PE_omit then Ret (false, uti)
          else Ret (true, set_uti_table UNW_INFO_FORMAT_REMOTE_TABLE true (segbase uti) fdeCount ehFrameStart uti)
        else
          Ret (true, set_uti_table UNW_INFO_FORMAT_REMOTE_TABLE false (hdr_addr hdr)
                       (u64 (fdeCount * DWARF_TABLE_ENTRY_SIZE) / psize) ptr uti)
  end.

(** [struct dl_phdr_info]; [namePtr] is the address of the name. *)
Record dl_info := mkInfo { dlpi_addr : Z; dlpi_name : list ascii; dlpi_namePtr : Z; dlpi_phdr : list Phdr }.
Record hdr_sections := mkSections { sec_text : option Phdr; sec_dynamic : option Phdr; sec_ehframehdr : option Phdr }.
Definition PT_GNU_EH_FRAME : Z := 0x6474e550.

Fixpoint ParsePhdr (addr : Z) (phdrs : list Phdr) (s : hdr_sections) (pc : Z) : hdr_sections :=
  match phdrs with
  | [] => s
  | p :: phdrs' =>
      let s :=
        if p_type p =? PT_LOAD then
          let vaddr := u64 (p_vaddr p + addr) in
          if (vaddr <=? pc) && (pc <? u64 (vaddr + p_memsz p)) then mkSections (Some p) (sec_dynamic s) (sec_ehframehdr s) else s
        else if p_type p =? PT_GNU_EH_FRAME then mkSections (sec_text s) (sec_dynamic s) (Some p)
        else if p_type p =? PT_DYNAMIC then mkSections (sec_text s) (Some p) (sec_ehframehdr s)
        else s in
      ParsePhdr addr phdrs' s pc
  end.

(** The loop of [ProcessDynamic]: the value of the first [DT_PLTGOT], if any. *)
Fixpoint process_dynamic_loop (fuel : nat) (dyn : Z) : outcome (option Z) :=
  match fuel with
  | O => OutOfFuel
  | S fuel' =>
      b ← raw dyn (sizeof_Dyn Elf64);
      let d := get_Dyn Elf64 b in
      if d_tag d =? DT_NULL then Ret None
      else if d_tag d =? DT_PLTGOT then Ret (Some (d_val d))
      else process_dynamic_loop fuel' (u64 (dyn + sizeof_Dyn Elf64))
  end.
Definition ProcessDynamic (fuel : nat) (pDynamic : Phdr) (loadBase : Z) (uti : UnwindTableInfo) : outcome (bool * UnwindTableInfo) :=
  let dyn := u64 (p_vaddr pDynamic + loadBase) in
  if dyn =? 0 then Ret (false, uti)
  else
    r ← process_dynamic_loop fuel dyn;
    Ret (true, match r with Some g => set_uti_gp g uti | None => uti end).

(** What opening and mapping a file gives: [None] when it cannot be opened; inside, the size and
    what [mmap] returns. *)
Context (open_map : list ascii → option (Z * option (Z * list Z))).
Definition PROC_SELF_EXE_PATH : list ascii := lit "/proc/self/exe".

(** [RegularElfFactory::Create]. *)
Definition RegularElf_Create (filePath : list ascii) : DfxElf :=
  let regularElf := DfxElf_new None in
  if is_empty filePath then regularElf
  else if negb (IsLegalMapItem filePath true) then regularElf
  else match open_map filePath with
  | None => regularElf
  | Some (size, mapped) =>
      let '(ok, mm) := mmap_Init 0 size mapped DfxMmap_new in
      if negb ok then regularElf else SetMmap (Some mm) regularElf
  end.

Definition FindSection (info : dl_info) (secName : list ascii) : outcome (option ShdrInfo) :=
  let file := if (length (dlpi_name info) =? 0)%nat then PROC_SELF_EXE_PATH else dlpi_name info in
  '(i, _) ← elf_GetSectionInfo secName (RegularElf_Create file); Ret i.

(** The memory after the word [v] is stored at [a]; only that word is read back. *)
Definition poke (a v : Z) (m : DfxMemory) : DfxMemory :=
  mkMemory (Some (λ x, if x =? a then Some v else ReadMem m x)) (alignAddr_ m) (alignBytes_ m) (dataOffset_ m) (funcOffset_ m).

(** [InitHdr]; [stack] is the address of the local header, whose [ehFrame] it fills in. *)
Definition InitHdr (stack : Z) (info : dl_info) (pEhHdr : option Phdr) : outcome (option eh_hdr * DfxMemory) :=
  match pEhHdr with
  | Some p => h ← raw_hdr (u64 (p_vaddr p + dlpi_addr info)); Ret (Some h, mem)
  | None =>
      i ← FindSection info EH_FRAME;
      Ret (match i with
           | Some shdr => (Some (synth_hdr stack), poke (u64 (stack + 4)) (u64 (i_addr shdr + dlpi_addr info)) mem)
           | None => (None, mem)
           end)
  end.

(** [DlPhdrCb]: what the loader is told, and the table. *)
Definition DlPhdrCb (fuel : nat) (stack pc : Z) (info : dl_info) (uti : UnwindTableInfo) : outcome (Z * UnwindTableInfo) :=
  let s := ParsePhdr (dlpi_addr info) (dlpi_phdr info) (mkSections None None None) pc in
  match sec_text s with
  | None => Ret (0, uti)
  | Some text =>
      let loadBase := dlpi_addr info in
      let startPc := u64 (p_vaddr text + loadBase) in
      let uti := set_uti_name (dlpi_namePtr info) (set_uti_pcs startPc (u64 (startPc + p_memsz text)) uti) in
      '(ok, uti) ← match sec_dynamic s with
                   | Some d => ProcessDynamic fuel d loadBase uti
                   | None => Ret (true, set_uti_gp 0 uti)
                   end;
      if negb (ok : bool) then Ret (0, uti)
      else
        '(hdr, m) ← InitHdr stack info (sec_ehframehdr s);
        '(ok, uti) ← FillUnwindTableByEhhdrLocal m hdr uti;
        Ret (if (ok : bool) then 1 else 0, uti)
  end.

(** [dl_iterate_phdr] calls it for each object until it returns a value other than zero. *)
Fixpoint dl_iterate_phdr (fuel : nat) (stack pc : Z) (infos : list dl_info) (uti : UnwindTableInfo) : outcome (Z * UnwindTableInfo) :=
  match infos with
  | [] => Ret (0, uti)
  | info :: infos' =>
      '(ret, uti) ← DlPhdrCb fuel stack pc info uti;
      if ret =? 0 then dl_iterate_phdr fuel stack pc infos' uti else Ret (ret, uti)
  end.

Definition FindUnwindTableLocal (fuel : nat) (stack pc : Z) (infos : list dl_info) (uti : UnwindTableInfo)
  : outcome (Z * UnwindTableInfo) :=
  '(ret, u) ← dl_iterate_phdr fuel stack pc infos uti0;
  Ret (if (0 <? ret) && negb (uti_format u =? -1) then (UNW_ERROR_NONE, u) else (UNW_ERROR_NO_UNWIND_INFO, uti)).
End Local.

(** ** Creating the object of a map *)
Section GetElf.
(** [hap_map]: opening a .hap file and mapping [size] bytes at [offset] of it; [hap_size]: its
    size; [read_mem]: the memory of the process with a pid; [vec] as above. *)
Context (open_map : list ascii → option (Z * option (Z * list Z))).
Context (hap_open : list ascii → bool) (hap_map : list ascii → Z → Z → option (Z * list Z)) (hap_size : list ascii → Z).
Context (read_mem : Z → Z → Z → list Z) (vec : Z).

Definition maxMapSize : Z := 10 * 1024 * 1024.
Definition VdsoElf_Create (begin_ size pid : Z) : option DfxElf :=
  if maxMapSize <=? size then None
  else
    let shmmData := read_mem pid begin_ size in
    if negb (Z.of_nat (length shmmData) =? size) then None
    else
      let '(ok, mm) := mmap_Init_data vec shmmData DfxMmap_new in
      if negb ok then None
      else let '(ok, e) := elf_IsValid (DfxElf_new (Some mm)) in if negb ok then None else Some e.

Definition maxElfSize : Z := 1024 * 1024 * 1024.

(** [VerifyElf]: the size of the file inside the .hap, from the headers in the previous map. *)
Definition VerifyElf (filePath : list ascii) (prev : DfxMap) : outcome (option Z) :=
  let size := u64 (m_end prev - m_begin prev) in
  let '(ok, mm) := mmap_Init 0 size (hap_map filePath size (m_offset prev)) DfxMmap_new in
  if negb ok then Ret None
  else
    let data := mm_bytes mm in
    if (length data <? 5)%nat then Undef OutOfBounds
    else if negb (bool_decide (take 4 data = ELFMAG)) then Ret None
    else
      let classType := fld data 4 1 in
      let size_of (C : elf_class) :=
        if (length data <? sizeof_Ehdr C)%nat then Undef OutOfBounds
        else
          let h := get_Ehdr C data in
          let z := e_shoff h + e_shentsize h * e_shnum h in Ret (if fitsb 64 z then Some z else None) in
      elfSizeRaw ← (if classType =? ELFCLASS32 then size_of Elf32
                    else if classType =? ELFCLASS64 then size_of Elf64
                    else Ret (Some 0));
      match elfSizeRaw with
      | None => Ret None
      | Some elfSize =>
          if elfSize =? 0 then Ret None
          else
            let fileSize := hap_size filePath in
            if fileSize <=? 0 then Ret None
            else if negb (fitsb 64 (elfSize + m_offset prev)) || (fileSize <? elfSize + m_offset prev) then Ret None
            else Ret (Some elfSize)
      end.

Definition CompressHapElf_Create (filePath : list ascii) (prev : option DfxMap) : outcome (option DfxElf) :=
  match prev with
  | None => Ret None
  | Some prev =>
      if negb (contains filePath SANDBOX_FILE_PATH_PREFIX) || negb (EndsWith filePath (lit ".hap")) then Ret None
      else if negb (hap_open filePath) then Ret None
      else
        v ← VerifyElf filePath prev;
        match v with
        | None => Ret None
        | Some elfSize =>
            if maxElfSize <? elfSize then Ret None
            else
              let '(ok, mm) := mmap_Init 0 elfSize (hap_map filePath elfSize (m_offset prev)) DfxMmap_new in
              if negb ok then Ret None
              else
                let '(ok, e) := elf_IsValid (SetBaseOffset (m_offset prev) (DfxElf_new (Some mm))) in
                Ret (if negb ok then None else Some e)
        end
  end.

(** A map, the object it owns, and the map before it. *)
Record owned_map := mkOwned { o_map : DfxMap; o_prev : option DfxMap; o_elf : option DfxElf }.
Definition set_offset (o : Z) (m : DfxMap) : DfxMap :=
  mkMap (m_begin m) (m_end m) o (prots m) (flag m) (m_major m) (m_minor m) (inode m) (perms m) (m_name m) (prevMap m) (adltLoadBase m).

Inductive factory := HapFactory | VdsoFactory | RegularFactory.
(** [ElfFactorySelector::Select]. *)
Definition Select (o : owned_map) : outcome (factory * owned_map) :=
  let m := o_map o in
  if contains (m_name m) SANDBOX_FILE_PATH_PREFIX && EndsWith (m_name m) (lit ".hap") then
    match o_prev o with
    | None => Undef NullDeref
    | Some prev => Ret (HapFactory, mkOwned (set_offset (u64 (m_offset m - m_offset prev)) m) (o_prev o) (o_elf o))
    end
  else if IsVdsoMap m then Ret (VdsoFactory, o)
  else Ret (RegularFactory, o).

(** [DfxMap::GetElf]; the object is left in the map. *)
Definition GetElf (pid : Z) (o : owned_map) : outcome owned_map :=
  match o_elf o with
  | Some _ => Ret o
  | None =>
      if is_empty (m_name (o_map o)) then Ret o
      else
        '(f, o) ← Select o;
        let m := o_map o in
        elf ← match f with
              | HapFactory => CompressHapElf_Create (m_name m) (o_prev o)
              | VdsoFactory => Ret (VdsoElf_Create (m_begin m) (u64 (m_end m - m_begin m)) pid)
              | RegularFactory => Ret (Some (RegularElf_Create open_map (m_name m)))
              end;
        let elf := match elf with
                   | Some e => let '(ok, e) := elf_IsValid e in if ok then Some e else None
                   | None => None
                   end in
        elf ← match elf with
              | Some e => a ← IsAdlt e; Ret (Some (if (a : bool) then SetLoadBase (adltLoadBase m) e else e))
              | None => Ret None
              end;
        Ret (mkOwned m (o_prev o) elf)
  end.

Definition ReleaseElf (o : owned_map) : owned_map := mkOwned (o_map o) (o_prev o) None.

Definition map_GetRelPc (pc : Z) (o : owned_map) : outcome (Z * owned_map) :=
  o ← GetElf 0 o;
  match o_elf o with
  | Some _ =>
      o ← GetElf 0 o;
      match o_elf o with
      | Some e =>
          '(r, e) ← GetRelPc pc (m_begin (o_map o)) (m_offset (o_map o)) e;
          Ret (r, mkOwned (o_map o) (o_prev o) (Some e))
      | None => Undef NullDeref
      end
  | None =>
      match o_prev o with
      | Some prev => Ret (u64 (pc - m_begin prev), o)
      | None => Ret (u64 (pc - m_begin (o_map o) + m_offset (o_map o)), o)
      end
  end.

Definition map_GetElfName (o : owned_map) : outcome (list ascii * owned_map) :=
  if is_empty (m_name (o_map o)) then Ret (m_name (o_map o), o)
  else
    o ← GetElf 0 o;
    match o_elf o with
    | None => Ret (m_name (o_map o), o)
    | Some e =>
        if EndsWith (m_name (o_map o)) (lit ".hap") then
          '(n, e) ← GetElfName e; Ret (m_name (o_map o) ++ lit "!" ++ n, mkOwned (o_map o) (o_prev o) (Some e))
        else Ret (m_name (o_map o), o)
    end.
End GetElf.

(** ** Looking a symbol up

    Two symbols are compatible when they are the same range or ranges with no common address. *)
Definition compatible (x y : ElfSymbol) : Prop :=
  (value x = value y ∧ es_size x = es_size y) ∨ value x + es_size x <= value y ∨ value y + es_size y <= value x.
Definition all_compatible (l : list ElfSymbol) : Prop := ∀ x y, x ∈ l → y ∈ l → compatible x y.
Definition sized (l : list ElfSymbol) : Prop := ∀ x, x ∈ l → 0 < es_size x.

Definition by_value (s t : ElfSymbol) : Prop := value s < value t.
(** [x] is the first symbol of [l] with its address. *)
Definition canonical (l : list ElfSymbol) (x : ElfSymbol) : Prop := List.find (λ y, value y =? value x) l = Some x.

(** A set of symbols that answers as the list [l] does, where it answers. *)
Definition cache_of (l c : list ElfSymbol) : Prop := StronglySorted by_value c ∧ Forall (canonical l) c.

Lemma covers_spec a x : covers a x = true ↔ value x <= a < value x + es_size x.
Proof. unfold covers. rewrite andb_true_iff, Z.leb_le, Z.ltb_lt. lia. Qed.

Lemma find_elem {A} (f : A → bool) l x : List.find f l = Some x → x ∈ l ∧ f x = true.
Proof. intros H%find_some. by rewrite <- list_elem_of_In in H. Qed.

Lemma find_covers_canonical l a x : all_compatible l → sized l → List.find (covers a) l = Some x ↔ canonical l x ∧ covers a x = true.
Proof.
  intros Hc Hs. unfold canonical. induction l as [|y l IH]; [cbn; naive_solver|]. cbn [List.find].
  assert (IH' := IH ltac:(intros ? ? ? ?; apply Hc; by right) ltac:(intros ? ?; apply Hs; by right)). clear IH.
  destruct (covers a y) eqn:Ey.
  - split.
    + intros [= <-]. by rewrite Z.eqb_refl.
    + intros [H1 H2]. destruct (Z.eqb_spec (value y) (value x)); [by simplify_eq|]. apply find_elem in H1 as [Hin _].
      apply covers_spec in Ey, H2. destruct (Hc y x) as [[? ?]|[?|?]]; [by left|by right|lia..].
  - rewrite IH'. destruct (Z.eqb_spec (value y) (value x)) as [E|E]; [|done]. split; [|intros [[= <-] ?]; congruence].
    intros [H1 H2]. exfalso. apply find_elem in H1 as [Hin _]. apply covers_spec in H2. assert (covers a y = true); [|congruence].
    pose proof (Hs y ltac:(by left)). pose proof (Hs x ltac:(by right)).
    apply covers_spec. destruct (Hc y x) as [[? ?]|[?|?]]; [by left|by right|lia..].
Qed.

Lemma sym_emplace_elem s c x : x ∈ sym_emplace s c → x = s ∨ x ∈ c.
Proof.
  induction c as [|t c IH]; cbn [sym_emplace]; [rewrite list_elem_of_singleton; auto|].
  repeat zcase; rewrite ?elem_of_cons; [tauto| |tauto]. intros [->|Hx]; [tauto|]. apply IH in Hx. tauto.
Qed.

Lemma sym_emplace_sorted s c : StronglySorted by_value c → StronglySorted by_value (sym_emplace s c).
Proof.
  induction 1 as [|t c Hc IH Ht]; cbn [sym_emplace]; [by repeat constructor|]. unfold by_value in *.
  repeat zcase; constructor; try done.
  - by constructor.
  - constructor; [done|]. eapply list.Forall_impl; [exact Ht|]. cbn. lia.
  - rewrite list.Forall_forall in Ht |- *. intros x [->|Hx]%sym_emplace_elem; [done|by apply Ht].
Qed.

Lemma sym_emplace_cache l s c : canonical l s → cache_of l c → cache_of l (sym_emplace s c).
Proof.
  intros Hs [Hc Hf]. split; [by apply sym_emplace_sorted|]. rewrite list.Forall_forall in Hf |- *.
  intros x [->|H]%sym_emplace_elem; [done|by apply Hf].
Qed.

Lemma sorted_inj c x y : StronglySorted by_value c → x ∈ c → y ∈ c → value x = value y → x = y.
Proof.
  induction 1 as [|s c Hc IH Hs]; [by intros ?%elem_of_nil|]. rewrite list.Forall_forall in Hs. unfold by_value in Hs.
  intros [->|Hx]%elem_of_cons [->|Hy]%elem_of_cons E; [done| | |auto].
  - specialize (Hs y Hy). lia.
  - specialize (Hs x Hx). lia.
Qed.

Lemma last_default {A} (l : list A) s d : List.last (s :: l) d = List.last l s.
Proof. revert s d. induction l as [|t l IH]; intros s d; [done|]. change (List.last (s :: t :: l) d) with (List.last (t :: l) d). by rewrite !IH. Qed.

(** [FindFuncSymbol] on a sorted set: the last symbol not above the address, if it contains it. *)
Lemma last_take_le addr c : StronglySorted by_value c → ∀ d,
  let x := List.last (take_le addr c) d in
  (x ∈ c ∧ value x <= addr ∧ ∀ y, y ∈ c → value y <= addr → value y <= value x) ∨ (x = d ∧ ∀ y, y ∈ c → addr < value y).
Proof.
  induction 1 as [|s c Hc IH Hs]; intros d; cbn zeta; [right; split; [done|by intros y ?%elem_of_nil]|].
  cbn [take_le]. rewrite list.Forall_forall in Hs. unfold by_value in Hs. zcase.
  - right. split; [done|]. intros y [->|Hy]%elem_of_cons; [done|]. specialize (Hs y Hy). lia.
  - left. rewrite last_default.
    destruct (IH s) as [(H1 & H2 & H3)|[-> H2]].
    + split; [by right|]. split; [done|]. intros y [->|Hy]%elem_of_cons ?; [|by apply H3]. specialize (Hs _ H1). lia.
    + split; [by left|]. split; [done|]. intros y [->|Hy]%elem_of_cons ?; [done|]. specialize (H2 y Hy). lia.
Qed.

Lemma FindFuncSymbol_sorted addr c x : StronglySorted by_value c →
  FindFuncSymbol addr c = Some x ↔ x ∈ c ∧ covers addr x = true ∧ (∀ y, y ∈ c → value y <= addr → value y <= value x).
Proof.
  intros Hc. unfold FindFuncSymbol. destruct c as [|s0 c]; [split; [done|by intros [?%elem_of_nil _]]|].
  pose proof (last_take_le addr (s0 :: c) Hc s0) as H. cbn zeta in H. set (n := List.last _ s0) in *.
  change ((value n <=? addr) && (addr - value n <? es_size n)) with (covers addr n).
  destruct H as [(H1 & H2 & H3)|[H1 H2]].
  - split; [case_match; [intros [= <-]; auto|done]|]. intros (X1 & X2 & X3). apply covers_spec in X2 as X2'.
    assert (n = x) as -> by (apply (sorted_inj (s0 :: c)); [done..|]; specialize (X3 n H1 H2); specialize (H3 x X1 ltac:(lia)); lia).
    by rewrite X2.
  - split.
    + destruct (covers addr n) eqn:E; [|done]. apply covers_spec in E. specialize (H2 n). rewrite H1 in *. specialize (H2 ltac:(by left)). lia.
    + intros (X1 & X2 & _). apply covers_spec in X2. specialize (H2 x X1). lia.
Qed.

(** A hit in the cache is the answer of the file. *)
Lemma FindFuncSymbol_cache l c a x : all_compatible l → sized l → cache_of l c →
  FindFuncSymbol a c = Some x → List.find (covers a) l = Some x.
Proof.
  intros Hl Hs [Hc Hf] H. apply FindFuncSymbol_sorted in H as (H1 & H2 & _); [|done]. apply find_covers_canonical; [done|done|].
  rewrite list.Forall_forall in Hf. auto.
Qed.

Lemma sym_emplace_new s c x : StronglySorted by_value c → x ∈ sym_emplace s c → x ∈ c ∨ (x = s ∧ ∀ z, z ∈ c → value z ≠ value s).
Proof.
  induction 1 as [|t c Hc IH Ht]; cbn [sym_emplace].
  - rewrite list_elem_of_singleton. intros ->. right. split; [done|by intros z ?%elem_of_nil].
  - rewrite list.Forall_forall in Ht. unfold by_value in Ht. repeat zcase; rewrite ?elem_of_cons; [| |tauto].
    + intros [->|?]; [|auto]. right. split; [done|]. intros z [->|Hz]%elem_of_cons; [lia|]. specialize (Ht z Hz). lia.
    + intros [->|Hx]; [auto|]. destruct (IH Hx) as [?|[-> Hn]]; [auto|]. right. split; [done|]. intros z [->|Hz]%elem_of_cons; [lia|auto].
Qed.

Lemma sym_emplace_keeps s c x : x ∈ c → x ∈ sym_emplace s c.
Proof. induction c as [|t c IH]; [by intros ?%elem_of_nil|]. cbn [sym_emplace]. repeat zcase; rewrite ?elem_of_cons; naive_solver. Qed.

Lemma sym_emplace_value s c : ∃ y, y ∈ sym_emplace s c ∧ value y = value s.
Proof.
  induction c as [|t c IH]; cbn [sym_emplace]; [exists s; split; [by left|done]|]. repeat zcase.
  - exists s. split; [by left|done].
  - destruct IH as (y & ? & ?). exists y. split; [by right|done].
  - exists t. split; [by left|lia].
Qed.

(** The eager set: the first symbol of each address. *)
Lemma syms_of_cache l : cache_of l (syms_of [] l) ∧ ∀ x, x ∈ l → ∃ y, y ∈ syms_of [] l ∧ value y = value x.
Proof.
  induction l as [|s l [[IH1 IH2] IH3]] using rev_ind; [split; [by repeat constructor|by intros x ?%elem_of_nil]|].
  rewrite syms_of_app. change (syms_of (syms_of [] l) [s]) with (sym_emplace s (syms_of [] l)).
  rewrite list.Forall_forall in IH2. split.
  - split; [by apply sym_emplace_sorted|]. apply list.Forall_forall. intros x [Hx|[-> Hn]]%sym_emplace_new; [| |done].
    + specialize (IH2 x Hx). unfold canonical in *. by rewrite find_app, IH2.
    + unfold canonical. rewrite find_app. destruct (List.find _ l) as [y|] eqn:E.
      * apply find_elem in E as [Hy E]. apply Z.eqb_eq in E. destruct (IH3 y Hy) as (z & Hz & Ez). exfalso. apply (Hn z Hz). congruence.
      * cbn. by rewrite Z.eqb_refl.
  - intros x [Hx|Hx]%elem_of_app.
    + destruct (IH3 x Hx) as (y & Hy & E). exists y. split; [by apply sym_emplace_keeps|done].
    + apply list_elem_of_singleton in Hx as ->. apply sym_emplace_value.
Qed.

Lemma FindFuncSymbol_eager l a : all_compatible l → sized l → FindFuncSymbol a (syms_of [] l) = List.find (covers a) l.
Proof.
  intros Hl Hs. destruct (syms_of_cache l) as [Hc Hv]. destruct (List.find (covers a) l) as [x|] eqn:E.
  - apply FindFuncSymbol_sorted; [apply Hc|]. pose proof E as [Hx Hcx]%find_elem. apply find_covers_canonical in E as [Hcan _]; [|done|done].
    destruct (Hv x Hx) as (y & Hy & Ev). assert (y = x) as ->.
    { destruct Hc as [_ Hf]. rewrite list.Forall_forall in Hf. specialize (Hf y Hy). unfold canonical in *. rewrite Ev in Hf. congruence. }
    split; [done|]. split; [done|]. intros z Hz Hza. destruct Hc as [_ Hf]. rewrite list.Forall_forall in Hf.
    specialize (Hf z Hz). apply find_elem in Hf as [Hzl _]. apply covers_spec in Hcx. destruct (Hl x z Hx Hzl) as [[? ?]|[?|?]]; [lia..|].
    specialize (Hs z Hzl). lia.
  - destruct (FindFuncSymbol a (syms_of [] l)) as [x|] eqn:F; [|done]. apply (FindFuncSymbol_cache l) in F; [congruence|done..].
Qed.

(** Inserting a set into the empty set. *)
Lemma sym_emplace_last s c : Forall (λ t, value t < value s) c → sym_emplace s c = c ++ [s].
Proof. induction 1 as [|t c Ht _ IH]; [done|]. cbn [sym_emplace app]. repeat zcase; [lia|by rewrite IH|lia]. Qed.

Lemma syms_of_sorted acc c : StronglySorted by_value (acc ++ c) → syms_of acc c = acc ++ c.
Proof.
  revert acc. induction c as [|s c IH]; intros acc H; [by rewrite app_nil_r|].
  change (syms_of acc (s :: c)) with (syms_of (sym_emplace s acc) c). rewrite sym_emplace_last.
  - rewrite IH; by rewrite <- app_assoc.
  - rewrite list.Forall_forall. intros x Hx. apply list_elem_of_split in Hx as (a & b & ->). rewrite <- app_assoc in H.
    assert (H' : StronglySorted by_value (x :: b ++ s :: c)) by (clear -H; induction a; [done|]; cbn in H; inversion H; auto).
    inversion H' as [|? ? _ Hf]; subst. rewrite list.Forall_forall in Hf. apply Hf. apply elem_of_app. right. by left.
Qed.

Lemma syms_of_cached l : syms_of [] (syms_of [] l) = syms_of [] l.
Proof. apply syms_of_sorted. apply (syms_of_cache l). Qed.

(** ** Eager and lazy lookups *)
Section Lookups.
Context (xz : GnuDebugDataHdr → option (list Z)) (vec : Z).

(** The lookups of the addresses [addrs], one after the other. *)
Fixpoint lookups (lazily : bool) (addrs : list Z) (e : DfxElf) : outcome (list (option ElfSymbol) * DfxElf) :=
  match addrs with
  | [] => Ret ([], e)
  | a :: addrs' =>
      '(r, e) ← GetFuncInfo false xz vec lazily a e;
      '(rs, e) ← lookups lazily addrs' e;
      Ret (r :: rs, e)
  end.

(** A valid object over the mapping [mm] with the parser [p]. *)
Definition loaded (is64 : bool) (mm : DfxMmap) (p : ElfParser) (e : DfxElf) : Prop :=
  valid_ (e_core e) = true ∧ e_mmap (e_core e) = Some mm ∧ elfParse_ (e_core e) = Some (is64, p) ∧ miniDebugInfo_ e = None.

Lemma set_core_id e : set_core (e_core e) e = e.
Proof. by destruct e. Qed.
Lemma IsValid_loaded is64 mm p e : loaded is64 mm p e → elf_IsValid e = (true, e).
Proof. intros (H & _). unfold elf_IsValid, core_IsValid. rewrite H. cbn. by rewrite H, set_core_id. Qed.

Lemma class_of_cases is64 : class_of is64 = Elf32 ∨ class_of is64 = Elf64.
Proof. destruct is64; auto. Qed.

Context (is64 : bool) (mm : DfxMmap) (p : ElfParser).
Let C := class_of is64.
Let l := func_syms C mm p.
Context (Hmm : mmap_ok mm) (Hsec : sections_ok p) (Hplain : plain_tables p) (Hcomp : all_compatible l).

Lemma table_syms_sized n : ∀ idx shdr link x, x ∈ table_syms C mm n idx shdr link → 0 < es_size x.
Proof.
  induction n as [|n IH]; intros idx shdr link x; cbn [table_syms]; [by intros ?%elem_of_nil|].
  destruct (ReadSymType C mm shdr idx) as [sym|] eqn:E; [|apply IH].
  apply ReadSymType_ok in E as (_ & _ & E); [|apply class_of_cases|done].
  destruct (ParseFuncSymbolName mm link sym) as [[nm|]| |]; try apply IH. intros [->|H]%elem_of_cons; [done|by eapply IH].
Qed.

Lemma func_syms_sized : sized l.
Proof.
  intros x. unfold l, func_syms. rewrite list_elem_of_In, in_concat. intros (k & Hk & Hx). apply in_map_iff in Hk as (shdr & <- & _).
  apply list_elem_of_In in Hx. unfold shdr_syms in Hx. destruct (GetSectionInfo_idx _ p); [|by apply elem_of_nil in Hx].
  destruct (_ || _); [by apply elem_of_nil in Hx|by eapply table_syms_sized].
Qed.

Lemma IsMini_off e : loaded is64 mm p e → IsMiniDebugInfoValid false xz vec e = Ret (false, e).
Proof. intros (_ & _ & H & Hm). unfold IsMiniDebugInfoValid, with_parser. rewrite Hm, H. cbn. destruct e; cbn in *. by rewrite Hm. Qed.

Lemma GetFuncInfo_lazy_step a e : loaded is64 mm p e → cache_of l (e_funcSymbols e) →
  ∃ e', GetFuncInfo false xz vec true a e = Ret (List.find (covers a) l, e') ∧ loaded is64 mm p e' ∧ cache_of l (e_funcSymbols e').
Proof.
  intros Hl Hc. unfold GetFuncInfo. rewrite (IsValid_loaded is64 mm p e Hl). cbn [negb]. pose proof Hl as (H1 & H2 & H3 & H4).
  unfold GetFuncInfoLazily. rewrite H3. destruct (FindFuncSymbol a (e_funcSymbols e)) as [x|] eqn:F.
  { apply (FindFuncSymbol_cache l) in F; [|done|apply func_syms_sized|done]. rewrite F. by exists e. }
  unfold core_GetFuncSymbolByAddr, with_mmap, with_parser. rewrite H2, H3. fold C.
  rewrite (ParseFuncSymbolByAddr_eq C mm (class_of_cases is64) Hmm p a Hsec Hplain). cbn [mbind outcome_mbind]. fold l.
  destruct (List.find (covers a) l) as [x|] eqn:E; cbn [mbind outcome_mbind].
  - eexists. split; [done|]. split; [exact Hl|]. apply sym_emplace_cache; [|done].
    by apply find_covers_canonical in E as [? _]; [|done|apply func_syms_sized].
  - rewrite (IsMini_off e Hl). cbn [mbind outcome_mbind]. by exists e.
Qed.

(** The eager reader, before and after it has filled the set. *)
Definition eager_state (e : DfxElf) : Prop :=
  (loaded is64 mm p e ∧ e_funcSymbols e = [] ∧ funcSymbols_ p = []) ∨
  (valid_ (e_core e) = true ∧ e_funcSymbols e = syms_of [] l ∧ l ≠ []).

Lemma syms_of_nil acc k : syms_of acc k = [] → acc = [] ∧ k = [].
Proof.
  revert acc. induction k as [|s k IH]; intros acc H; [done|]. change (syms_of acc (s :: k)) with (syms_of (sym_emplace s acc) k) in H.
  apply IH in H as [H _]. destruct acc as [|t acc]; [done|]. cbn [sym_emplace] in H. repeat case_match; done.
Qed.

Lemma ep_GetFuncSymbols_fresh : funcSymbols_ p = [] →
  ep_GetFuncSymbols C mm p = Ret (syms_of [] l, set_funcSymbols (syms_of [] l) p).
Proof.
  intros Hf. destruct (symShdrs_ p) as [|h t] eqn:E; [|by apply GetFuncSymbols_eq; [apply class_of_cases|done|done|done|rewrite E]].
  unfold ep_GetFuncSymbols, ParseFuncSymbols. rewrite E. cbn [mbind outcome_mbind].
  assert (l = []) as -> by (unfold l, func_syms; by rewrite E). cbn. rewrite Hf. destruct p; cbn in *. by subst.
Qed.

Lemma GetFuncInfo_eager_step a e : eager_state e →
  ∃ e', GetFuncInfo false xz vec false a e = Ret (List.find (covers a) l, e') ∧ eager_state e'.
Proof.
  intros He. unfold GetFuncInfo, GetFuncSymbols. destruct He as [(Hl & He & Hp)|(Hv & He & Hne)].
  - rewrite (IsValid_loaded is64 mm p e Hl). cbn [negb orb]. rewrite (IsValid_loaded is64 mm p e Hl). cbn [negb orb]. rewrite He. cbn [length Nat.eqb negb].
    rewrite (IsMini_off e Hl). cbn [mbind outcome_mbind]. pose proof Hl as (H1 & H2 & H3 & H4).
    unfold core_GetFuncSymbols, with_mmap, with_parser. rewrite H2, H3. fold C. rewrite (ep_GetFuncSymbols_fresh Hp). cbn [mbind outcome_mbind].
    rewrite He. cbn [e_funcSymbols set_symbols set_core]. rewrite (syms_of_cached l). rewrite (FindFuncSymbol_eager l a Hcomp func_syms_sized).
    eexists. split; [done|]. destruct l as [|x k] eqn:El.
    + left. split; [|split; [done|done]]. repeat split; cbn; try done. do 2 f_equal. destruct p; cbn in *. by subst.
    + right. split; [done|]. by rewrite El.
  - assert (Hiv : elf_IsValid e = (true, e)) by (unfold elf_IsValid, core_IsValid; rewrite Hv; cbn; by rewrite Hv, set_core_id).
    rewrite Hiv. cbn [negb]. rewrite Hiv. cbn [negb orb].
    assert ((length (e_funcSymbols e) =? 0)%nat = false) as ->.
    { apply Nat.eqb_neq. intros E%nil_length_inv. rewrite He in E. by apply syms_of_nil in E as [_ E]. }
    cbn [negb mbind outcome_mbind]. rewrite He, (FindFuncSymbol_eager l a Hcomp func_syms_sized). eexists. split; [done|]. right. done.
Qed.

(** C17. Reading symbols all at once or one by one.  On a file whose function symbols do not overlap
    (two of them are the same range, or have no common address), whose symbol tables name string
    tables that are sections of the file and are not too long, any sequence of lookups gives the
    same answers with lazy and with eager loading: for each address the first function symbol of
    the file, in the order of its tables, that contains it. *)
Theorem lookups_lazy_eager addrs e :
  loaded is64 mm p e → e_funcSymbols e = [] → funcSymbols_ p = [] →
  ∃ e1 e2, lookups true addrs e = Ret (map (λ a, List.find (covers a) l) addrs, e1) ∧
           lookups false addrs e = Ret (map (λ a, List.find (covers a) l) addrs, e2).
Proof.
  intros Hl He Hp.
  assert (Hlazy : ∀ e, loaded is64 mm p e → cache_of l (e_funcSymbols e) →
    ∃ e1, lookups true addrs e = Ret (map (λ a, List.find (covers a) l) addrs, e1)).
  { clear e Hl He. induction addrs as [|a addrs IH]; intros e Hl Hc; [by eexists|]. cbn [lookups map].
    destruct (GetFuncInfo_lazy_step a e Hl Hc) as (e' & -> & Hl' & Hc'). cbn [mbind outcome_mbind].
    destruct (IH e' Hl' Hc') as (e1 & ->). by eexists. }
  assert (Heager : ∀ e, eager_state e → ∃ e2, lookups false addrs e = Ret (map (λ a, List.find (covers a) l) addrs, e2)).
  { clear e Hl He Hlazy. induction addrs as [|a addrs IH]; intros e He; [by eexists|]. cbn [lookups map].
    destruct (GetFuncInfo_eager_step a e He) as (e' & -> & He'). cbn [mbind outcome_mbind]. destruct (IH e' He') as (e2 & ->). by eexists. }
  destruct (Hlazy e Hl) as (e1 & H1); [rewrite He; by repeat constructor|]. destruct (Heager e) as (e2 & H2); [by left|]. eauto.
Qed.
End Lookups.

(** The small file, read. *)
Definition example_elf : DfxElf := (elf_IsValid (DfxElf_new (Some example_mmap))).2.

Definition compatibleb (x y : ElfSymbol) : bool :=
  ((value x =? value y) && (es_size x =? es_size y)) || (value x + es_size x <=? value y) || (value y + es_size y <=? value x).
Lemma compatibleb_all l : forallb (λ x, forallb (compatibleb x) l) l = true → all_compatible l.
Proof.
  rewrite forallb_forall. intros H x y Hx%list_elem_of_In Hy%list_elem_of_In. specialize (H x Hx). rewrite forallb_forall in H.
  specialize (H y Hy). unfold compatibleb, compatible in *. zbool. destruct H as [H|H]; zbool; [destruct H as [H|H]; zbool; lia|lia].
Qed.

Lemma plain_tables_check p :
  forallb (λ h, match GetSectionInfo_idx (h_link h) p with Some _ => true | None => false end && (sym_count h <=? maxSymbolCount)) (symShdrs_ p) = true →
  plain_tables p.
Proof.
  rewrite forallb_forall. intros H. apply list.Forall_forall. intros h Hh%list_elem_of_In. specialize (H h Hh). zbool. split; [|done].
  by destruct (GetSectionInfo_idx _ p).
Qed.

Lemma example_mmap_ok : mmap_ok example_mmap.
Proof. apply map_file_ok; [apply bytesb_spec; vm_compute; reflexivity|lia|vm_compute; reflexivity]. Qed.
Lemma example_sections_ok : sections_ok example_parser.
Proof.
  refine (proj1 (ParseAllHeaders_wf Elf64 example_mmap _ example_mmap_ok ElfParser_new _)); [by right|]. split; [constructor|unfold fits; cbn; lia].
Qed.

Lemma lookups_lazy_eager_witness : ∃ e1 e2 r,
  lookups (λ _, None) 0 true [0x1010; 0x1050; 0x2000] example_elf = Ret (r, e1) ∧
  lookups (λ _, None) 0 false [0x1010; 0x1050; 0x2000] example_elf = Ret (r, e2) ∧
  map (option_map nameStr) r = [Some (lit "main"); Some (lit "helper"); None].
Proof.
  destruct (lookups_lazy_eager (λ _, None) 0 true example_mmap example_parser) with (addrs := [0x1010; 0x1050; 0x2000]) (e := example_elf) as (e1 & e2 & H1 & H2).
  - exact example_mmap_ok.
  - exact example_sections_ok.
  - apply plain_tables_check. vm_compute; reflexivity.
  - apply compatibleb_all. vm_compute; reflexivity.
  - split; [|split; [|split]]; vm_compute; reflexivity.
  - vm_compute; reflexivity.
  - vm_compute; reflexivity.
  - exists e1, e2. eexists. split; [exact H1|]. split; [exact H2|]. vm_compute; reflexivity.
Defined.

(** The two ways of loading share one set.  Once a lazy lookup has cached the one symbol it
    found, every later eager lookup ([GetFuncSymbols] takes a set that is not empty for complete)
    knows that symbol only, until the object is dropped. *)
Theorem eager_after_lazy xz vec is64 mm p a b s e e' :
  loaded is64 mm p e → e_funcSymbols e = [] → GetFuncInfo false xz vec true a e = Ret (Some s, e') →
  GetFuncInfo false xz vec false b e' = Ret (if covers b s then Some s else None, e').
Proof.
  intros Hl He H. unfold GetFuncInfo in H. rewrite (IsValid_loaded is64 mm p e Hl) in H. cbn [negb] in H. pose proof Hl as (H1 & H2 & H3 & H4).
  unfold GetFuncInfoLazily in H. rewrite H3, He in H. cbn [FindFuncSymbol] in H.
  assert (E : e' = set_symbols [s] e).
  { destruct (core_GetFuncSymbolByAddr a (e_core e)) as [[s0|]| |]; cbn [mbind outcome_mbind] in H; try done.
    - rewrite He in H. by injection H as <- <-.
    - by rewrite (IsMini_off xz vec is64 mm p e Hl) in H. }
  subst e'. unfold GetFuncInfo, GetFuncSymbols.
  assert (Hiv : elf_IsValid (set_symbols [s] e) = (true, set_symbols [s] e)).
  { apply (IsValid_loaded is64 mm p). split; [done|]. split; [done|]. split; [done|]. done. }
  rewrite Hiv. cbn [negb]. rewrite Hiv. cbn [negb orb e_funcSymbols set_symbols length Nat.eqb mbind outcome_mbind FindFuncSymbol take_le].
  unfold covers. destruct (Z.ltb_spec b (value s)); cbn [List.last]; [|done]. by destruct (Z.leb_spec (value s) b); [lia|].
Qed.

Lemma eager_after_lazy_witness :
  ∃ s e', GetFuncInfo false (λ _, None) 0 true 0x1010 example_elf = Ret (Some s, e') ∧ nameStr s = lit "main" ∧
          GetFuncInfo false (λ _, None) 0 false 0x1050 e' = Ret (None, e').
Proof.
  eexists _, _. split; [vm_compute; reflexivity|]. split; [vm_compute; reflexivity|].
  rewrite (eager_after_lazy (λ _, None) 0 true example_mmap example_parser 0x1010 0x1050 (mkElfSymbol (lit "main") 1 0 0 0 0x1000 0x40) example_elf).
  - reflexivity.
  - split; [|split; [|split]]; vm_compute; reflexivity.
  - vm_compute; reflexivity.
  - vm_compute; reflexivity.
Defined.

(** ** The cached table *)
Definition pcs_of (e : DfxElf) := (startPc_ e, endPc_ e, uti_ e, hasTableInfo_ e).

Definition table_inv (e : DfxElf) : Prop :=
  fits 64 (startPc_ e) ∧ fits 64 (endPc_ e) ∧
  (hasTableInfo_ e = true → startPc_ e ≠ NO_ADDR ∧ endPc_ e ≠ 0 ∧ uti_startPc (uti_ e) = startPc_ e ∧ uti_endPc (uti_ e) = endPc_ e).

Lemma IsValid_pcs e b e' : elf_IsValid e = (b, e') → pcs_of e' = pcs_of e.
Proof. unfold elf_IsValid. destruct (core_IsValid (e_core e)). by intros [= <- <-]. Qed.

Lemma with_parser_Ret {A} c (f : bool → ElfParser → outcome A) a : with_parser c f = Ret a → ∃ b p, elfParse_ c = Some (b, p) ∧ f b p = Ret a.
Proof. unfold with_parser. destruct (elfParse_ c) as [[b p]|]; [|done]. eauto. Qed.

Lemma GetLoadBias_pcs e v e' : GetLoadBias e = Ret (v, e') → pcs_of e' = pcs_of e.
Proof.
  unfold GetLoadBias. zcase; [|by intros [= <- <-]]. destruct (elf_IsValid e) as [[] e1] eqn:E; intros H; apply IsValid_pcs in E.
  - apply with_parser_Ret in H as (b & p & _ & [= <- <-]). exact E.
  - injection H as <- <-. exact E.
Qed.

Lemma GetLoadBase_pcs st off e v e' : GetLoadBase st off e = Ret (v, e') → pcs_of e' = pcs_of e.
Proof.
  unfold GetLoadBase. zcase; [|by intros [= <- <-]]. destruct (elf_IsValid e) as [[] e1] eqn:E; intros H; apply IsValid_pcs in E.
  - run_inv. match goal with G : GetLoadBias _ = _ |- _ => apply GetLoadBias_pcs in G; rewrite <- E, <- G end.
    revert H. zcase; by intros [= <- <-].
  - injection H as <- <-. exact E.
Qed.

(** [GetStartPc] and [GetEndPc] only fill in what is missing. *)
Lemma GetStartPc_pcs e v e' : GetStartPc e = Ret (v, e') →
  v = startPc_ e' ∧ endPc_ e' = endPc_ e ∧ uti_ e' = uti_ e ∧ hasTableInfo_ e' = hasTableInfo_ e ∧
  (startPc_ e ≠ NO_ADDR → startPc_ e' = startPc_ e) ∧ (fits 64 (startPc_ e) → fits 64 (startPc_ e')).
Proof.
  unfold GetStartPc. zcase; [|intros [= <- <-]; done]. destruct (elf_IsValid e) as [[] e1] eqn:E; intros H; apply IsValid_pcs in E; injection E as E1 E2 E3 E4.
  - apply with_parser_Ret in H as (b & p & _ & H). cbv zeta in H. destruct (_ && _); injection H as <- <-; cbn -[wrap].
    + repeat split; try done; try congruence; intros; apply wrap_fits; lia.
    + repeat split; try congruence; intros; rewrite E1; apply H.
  - injection H as <- <-. repeat split; try congruence; rewrite E1; apply H.
Qed.

Lemma GetEndPc_pcs e v e' : GetEndPc e = Ret (v, e') →
  v = endPc_ e' ∧ startPc_ e' = startPc_ e ∧ uti_ e' = uti_ e ∧ hasTableInfo_ e' = hasTableInfo_ e ∧
  (endPc_ e ≠ 0 → endPc_ e' = endPc_ e) ∧ (fits 64 (endPc_ e) → fits 64 (endPc_ e')).
Proof.
  unfold GetEndPc. zcase; [|intros [= <- <-]; done]. destruct (elf_IsValid e) as [[] e1] eqn:E; intros H; apply IsValid_pcs in E; injection E as E1 E2 E3 E4.
  - apply with_parser_Ret in H as (b & p & _ & H). cbv zeta in H. destruct (_ && _); injection H as <- <-; cbn -[wrap].
    + repeat split; try done; try congruence; intros; apply wrap_fits; lia.
    + repeat split; try congruence; intros; rewrite E2; apply H.
  - injection H as <- <-. repeat split; try congruence; rewrite E2; apply H.
Qed.

Lemma with_mmap_Ret {A} c (f : bool → DfxMmap → ElfParser → outcome A) a : with_mmap c f = Ret a → ∃ b mm p, f b mm p = Ret a.
Proof. unfold with_mmap. destruct (e_mmap c); [|done]. intros (b & p & _ & H)%with_parser_Ret. eauto. Qed.

Lemma GetGlobalPointer_pcs e v e' : GetGlobalPointer e = Ret (v, e') → pcs_of e' = pcs_of e.
Proof.
  unfold GetGlobalPointer. destruct (elf_IsValid e) as [[] e1] eqn:E; apply IsValid_pcs in E; cbn [negb].
  - intros (b & mm & p & H)%with_mmap_Ret. run_inv. exact E.
  - by intros [= <- <-].
Qed.

Lemma parser_get_pcs {A} (d : A) f e v e' : parser_get d f e = Ret (v, e') → pcs_of e' = pcs_of e.
Proof.
  unfold parser_get. destruct (elf_IsValid e) as [[] e1] eqn:E; apply IsValid_pcs in E.
  - intros (b & p & _ & [= <- <-])%with_parser_Ret. exact E.
  - by intros [= <- <-].
Qed.

Definition uti_pcs (u : UnwindTableInfo) := (uti_startPc u, uti_endPc u).

Lemma FillUnwindTableByEhhdr_pcs hdr sb uti e ok u e' :
  FillUnwindTableByEhhdr hdr sb uti e = Ret (ok, u, e') → pcs_of e' = pcs_of e ∧ uti_pcs u = uti_pcs uti.
Proof.
  unfold FillUnwindTableByEhhdr. destruct hdr as [h|]; [|by intros [= <- <- <-]]. destruct (e_mmap (e_core e)) as [mm|]; [|by intros [= <- <- <-]].
  destruct (negb _); [by intros [= <- <- <-]|]. intros H. apply bind_Ret in H as ([gp e1] & E & H). apply GetGlobalPointer_pcs in E.
  destruct (e_mmap (e_core e1)) as [mm1|]; [|done]. destruct (GetMmapPtr _); [|done]. cbv zeta in H.
  apply bind_Ret in H as ([st o1] & _ & H). apply bind_Ret in H as ([ct o2] & _ & H).
  repeat match type of H with (if ?b then _ else _) = _ => destruct b end; injection H as <- <- <-; split; (exact E || done).
Qed.

Lemma FillUnwindTableByEhFrame_pcs stack lb uti e ok u e' :
  FillUnwindTableByEhFrame stack lb uti e = Ret (ok, u, e') → pcs_of e' = pcs_of e ∧ uti_pcs u = uti_pcs uti.
Proof.
  unfold FillUnwindTableByEhFrame. cbv zeta. intros H. apply bind_Ret in H as ([h e1] & E & H). apply parser_get_pcs in E. rewrite <- E. clear E.
  set (k := _ ≫= _) in H. assert (Hk : ∀ r, k = Ret r → pcs_of r.2 = pcs_of e1 ∧ uti_pcs r.1.2 = uti_pcs uti).
  { intros [[ok' u'] e2] Hr. unfold k in Hr. apply bind_Ret in Hr as ([f e3] & E & Hr). apply parser_get_pcs in E. cbn [fst snd]. rewrite <- E.
    destruct f; [|by injection Hr as <- <- <-]. destruct (GetMmapPtr (e_mmap (e_core e3))); [|by injection Hr as <- <- <-].
    match type of Hr with (if ?b then _ else _) = _ => destruct b end; [by injection Hr as <- <- <-|]. by apply FillUnwindTableByEhhdr_pcs in Hr. }
  clearbody k. destruct h as [shdr|]; [|by apply (Hk (ok, u, e'))]. destruct (e_mmap (e_core e1)); [|by apply (Hk (ok, u, e'))].
  destruct (GetMmapPtr _); [|by apply (Hk (ok, u, e'))].
  match type of H with (if ?b then _ else _) = _ => destruct b end; [by injection H as <- <- <-|].
  apply bind_Ret in H as (hd & _ & H). by apply FillUnwindTableByEhhdr_pcs in H.
Qed.

Lemma table_inv_new m : table_inv (DfxElf_new m).
Proof. unfold table_inv, fits. cbn [DfxElf_new startPc_ endPc_ hasTableInfo_]. unfold NO_ADDR. split; [lia|]. split; [lia|done]. Qed.

(** What [FindUnwindTableInfo] promises about the object and the table it hands out. *)
Definition table_found (pc : Z) (e : DfxElf) (r : Z * UnwindTableInfo * DfxElf) : Prop :=
  let '(ret, u, e') := r in
  table_inv e' ∧
  (hasTableInfo_ e = true → hasTableInfo_ e' = true ∧ uti_ e' = uti_ e) ∧
  (ret = UNW_ERROR_NONE → hasTableInfo_ e' = true ∧ uti_ e' = u ∧ uti_startPc u <= pc < uti_endPc u).

(** The unwind table of a file is found once and then served whole.  Whatever the calls before
    it, a call that succeeds returns the table the object keeps, for a pc inside its range; a table
    that is kept is never replaced; and the branch of [FindUnwindTableInfo] that would return a
    table with nothing but its range filled in (the object has a table, the pc is outside the kept
    range but inside the file's) cannot be taken. *)
Theorem FindUnwindTableInfo_cache stack pc m uti e r :
  table_inv e → FindUnwindTableInfo stack pc m uti e = Ret r → table_found pc e r.
Proof.
  intros (Hs & He & Hinv) H. unfold FindUnwindTableInfo in H.
  destruct (hasTableInfo_ e && _ && _) eqn:Ec; [injection H as <-; zbool; unfold table_found, table_inv; naive_solver|].
  destruct m as [m|]; [|injection H as <-; unfold table_found, table_inv; naive_solver].
  apply bind_Ret in H as ([lb e1] & E1 & H). apply GetLoadBase_pcs in E1. injection E1 as F1 F2 F3 F4.
  apply bind_Ret in H as ([st e2] & E2 & H). apply GetStartPc_pcs in E2 as (-> & G2 & G3 & G4 & G5 & G6).
  apply bind_Ret in H as ([en e3] & E3 & H). apply GetEndPc_pcs in E3 as (-> & K2 & K3 & K4 & K5 & K6).
  rewrite F1 in G5, G6. rewrite F2 in G2. rewrite G2 in K5, K6. rewrite G3, F3 in K3. rewrite G4, F4 in K4.
  specialize (G6 Hs). specialize (K6 He).
  assert (Hkeep : hasTableInfo_ e = true → startPc_ e3 = startPc_ e ∧ endPc_ e3 = endPc_ e).
  { intros Ht. destruct (Hinv Ht) as (X1 & X2 & _). rewrite K2. auto. }
  rewrite K4 in H. destruct (hasTableInfo_ e) eqn:Et.
  - destruct (Hinv eq_refl) as (X1 & X2 & X3 & X4). destruct (Hkeep eq_refl) as [Y1 Y2]. rewrite K2 in Y1. cbn [andb] in Ec.
    assert ((pc <? startPc_ e2) || (endPc_ e3 <=? pc) = true) as Ho.
    { rewrite X3, X4, <- Y1, <- Y2 in Ec. apply orb_true_iff. rewrite Z.ltb_lt, Z.leb_le. apply andb_false_iff in Ec as [?%Z.leb_gt|?%Z.ltb_ge]; auto. }
    rewrite Ho in H. injection H as <-. unfold table_found, table_inv. rewrite K2, Y1, Y2, K3, K4. split_and!; done.
  - destruct ((pc <? startPc_ e2) || (endPc_ e3 <=? pc)) eqn:Er.
    { injection H as <-. unfold table_found, table_inv. rewrite K2, K4, Et. split_and!; done. }
    zbool. apply bind_Ret in H as ([[has u] e4] & E4 & H). cbn [mbind outcome_mbind] in E4.
    apply bind_Ret in E4 as ([[ok u'] e5] & E5 & E4). injection E4 as <- <- <-.
    apply FillUnwindTableByEhFrame_pcs in E5 as [P1 P2]. injection P1 as P1 P1' P1'' P1'''. injection P2 as P2 P2'. cbn in P2, P2'.
    destruct ok; injection H as <-; unfold table_found, table_inv; cbn; rewrite P1, P1', K2, Et; [|split_and!; done].
    split; [|split; [done|]]; [|intros _; rewrite P2, P2'; done]. split; [done|]. split; [done|]. intros _. rewrite P2, P2'.
    destruct G6, K6. unfold NO_ADDR. lia.
Qed.

(** ** From the file to the entry of a pc *)
Lemma mmap_Read_app mm base pos (bs rest : list Z) n :
  mmap_ok mm → mmap_ mm = Some base → 0 <= pos → drop (Z.to_nat pos) (mm_bytes mm) = bs ++ rest → Z.of_nat (length bs) = n → 0 < n →
  mmap_Read mm pos n true = (bs, pos + n).
Proof.
  intros (Hl & _ & Hs & Ha) Hb Hp E <- Hn. rewrite Hb in Hl, Ha. pose proof (f_equal length E) as L. rewrite length_drop, length_app in L.
  unfold mmap_Read. rewrite Hb. zcase; [lia|]. rewrite Z.min_r by lia. rewrite E, Nat2Z.id, take_app_length. rewrite wrap_small by (unfold fits; lia). done.
Qed.

Section EncodedFile.
Context (mm : DfxMmap) (base pos : Z) (v : Z) (rest : list Z).
Context (Hmm : mmap_ok mm) (Hb : mmap_ mm = Some base) (Hp : 0 <= pos).
Context (E : drop (Z.to_nat pos) (mm_bytes mm) = le_bytes 4 v ++ rest).

Lemma rd_T_file dummy : rd_T (λ a n incre, Ret (mmap_Read mm a n incre)) pos dummy 4 true = Ret (true, of_le (le_bytes 4 v), pos + 4).
Proof.
  unfold rd_T. rewrite (mmap_Read_app mm base pos (le_bytes 4 v) rest (4%nat)) by done. cbn [mbind outcome_mbind].
  rewrite length_le_bytes. by rewrite drop_ge, app_nil_r by (by rewrite length_le_bytes).
Qed.

Lemma mmap_sdata4 : ∃ x, mmap_ReadEncodedValue mm pos 0x1b = Ret (x, pos + 4).
Proof.
  unfold mmap_ReadEncodedValue, rd_Encoded. cbn [Z.eqb]. change (Z.land 0x1b DW_EH_PE_FORMAT_MASK =? DW_EH_PE_absptr) with false.
  change (Z.land 0x1b DW_EH_PE_indirect =? 0) with true. change (0x1b =? DW_EH_PE_omit) with false. change (0x1b =? DW_EH_PE_aligned) with false. cbv iota zeta.
  unfold rd_Format. change (Z.land 0x1b DW_EH_PE_FORMAT_MASK) with DW_EH_PE_sdata4.
  cbn -[mmap_Read rd_T of_le le_bytes uptr swrap apply_encoding]. unfold rd_Value. rewrite rd_T_file. cbn [mbind outcome_mbind]. by eexists.
Qed.

Lemma mmap_udata4 : fits 32 v → mmap_ReadEncodedValue mm pos 0x03 = Ret (v, pos + 4).
Proof.
  intros Hv. unfold mmap_ReadEncodedValue, rd_Encoded. change (Z.land 0x03 DW_EH_PE_FORMAT_MASK =? DW_EH_PE_absptr) with false.
  change (Z.land 0x03 DW_EH_PE_indirect =? 0) with true. change (0x03 =? DW_EH_PE_omit) with false. change (0x03 =? DW_EH_PE_aligned) with false. cbv iota zeta.
  unfold rd_Format. change (Z.land 0x03 DW_EH_PE_FORMAT_MASK) with DW_EH_PE_udata4.
  cbn -[mmap_Read rd_T of_le le_bytes uptr swrap apply_encoding]. unfold rd_Value. rewrite rd_T_file. cbn [mbind outcome_mbind].
  rewrite of_le_le_bytes. change (8 * 4%nat) with 32. rewrite (wrap_small 32 v Hv). unfold apply_encoding. change (Z.land 0x03 DW_EH_PE_APPL_MASK) with 0. cbn -[uptr].
  rewrite uptr_small by (apply (fits_mono 32); [done|done]). done.
Qed.
End EncodedFile.

(** The section .eh_frame_hdr as linkers write it, with a binary search table. *)
Definition std_hdr (ehf : Z) (es : list (Z * Z)) : list Z :=
  [DW_EH_VERSION; 0x1b; 0x03; 0x3b] ++ le_bytes 4 ehf ++ le_bytes 4 (length es) ++ encode_table es.

Section Standard.
Context (is64 : bool) (mm : DfxMmap) (base : Z) (p p' : ElfParser) (gp : Z) (shdr : ShdrInfo) (ehf : Z) (es : list (Z * Z)) (rest : list Z).
Context (Hmm : mmap_ok mm) (Hb : mmap_ mm = Some base) (Hsec : GetSectionInfo EH_FRAME_HDR p = Some shdr).
Context (Hgp : ep_GetGlobalPointer (class_of is64) mm p = Ret (gp, p')).
Context (Ho : 0 <= i_offset shdr) (Hend : i_offset shdr + i_size shdr <= size_ mm) (Hmin : sizeof_EhFrameHdr <= i_size shdr).
Context (E : drop (Z.to_nat (i_offset shdr)) (mm_bytes mm) = std_hdr ehf es ++ rest) (Hn : Z.of_nat (length es) <= maxFdeCount).

Lemma file_room : 0 <= base ∧ base + size_ mm < 2 ^ 64 ∧ Z.of_nat (length (mm_bytes mm)) = size_ mm ∧ i_offset shdr + 12 <= size_ mm.
Proof. pose proof Hmm as (M1 & _ & _ & M4). rewrite Hb in M1, M4. unfold sizeof_EhFrameHdr in *. lia. Qed.

Lemma mapped_hdr_std : mapped_hdr mm base (i_offset shdr) = Ret (mkHdr (i_offset shdr + base) DW_EH_VERSION 0x1b 0x03 0x3b).
Proof.
  pose proof file_room as (R1 & R2 & R3 & R4). unfold mapped_hdr.
  rewrite (proj2 (Z.leb_le 0 _)), (proj2 (Z.leb_le (_ + 4) _)) by lia. cbn [andb]. rewrite E, wrap_small by (unfold fits; lia). done.
Qed.

Lemma IsValidSectionOffset_std : IsValidSectionOffset shdr (size_ mm) sizeof_EhFrameHdr = true.
Proof.
  pose proof file_room as (R1 & R2 & R3 & R4). unfold IsValidSectionOffset, sizeof_EhFrameHdr in *.
  destruct (Z.leb_spec (size_ mm) (i_offset shdr)); [lia|].
  assert (fitsb 64 (i_offset shdr + i_size shdr) = true) as -> by (apply fitsb_spec; unfold fits; lia).
  destruct (Z.ltb_spec (size_ mm) (i_offset shdr + i_size shdr)); [lia|]. destruct (Z.ltb_spec (i_size shdr) 12); [lia|done].
Qed.

(** The two fields of the header, at the offsets 4 and 8. *)
Lemma std_fields g :
  let m := mmap_SetDataOffset g mm in
  (∃ x, mmap_ReadEncodedValue m (i_offset shdr + 4) 0x1b = Ret (x, i_offset shdr + 8)) ∧
  mmap_ReadEncodedValue m (i_offset shdr + 8) 0x03 = Ret (Z.of_nat (length es), i_offset shdr + 12).
Proof.
  cbn zeta. set (m := mmap_SetDataOffset g mm). assert (Hm : mmap_ok m) by exact Hmm. assert (Hmb : mmap_ m = Some base) by exact Hb.
  assert (E4 : drop (Z.to_nat (i_offset shdr + 4)) (mm_bytes m) = le_bytes 4 ehf ++ le_bytes 4 (length es) ++ encode_table es ++ rest).
  { replace (Z.to_nat (i_offset shdr + 4)) with (Z.to_nat (i_offset shdr) + 4)%nat by lia. rewrite <- drop_drop. change (mm_bytes m) with (mm_bytes mm). rewrite E.
    unfold std_hdr. rewrite <- !app_assoc. done. }
  assert (E8 : drop (Z.to_nat (i_offset shdr + 8)) (mm_bytes m) = le_bytes 4 (length es) ++ encode_table es ++ rest).
  { replace (Z.to_nat (i_offset shdr + 8)) with (Z.to_nat (i_offset shdr + 4) + 4)%nat by lia. rewrite <- drop_drop, E4. by rewrite drop_app_length'. }
  split.
  - destruct (mmap_sdata4 m base (i_offset shdr + 4) ehf _ Hm Hmb ltac:(lia) E4) as [x ->]. exists x. do 2 f_equal. lia.
  - rewrite (mmap_udata4 m base (i_offset shdr + 8) (length es) _ Hm Hmb ltac:(lia) E8); [do 2 f_equal; lia|]. unfold maxFdeCount in Hn. unfold fits. lia.
Qed.

Lemma GetGlobalPointer_std e : loaded is64 mm p e → GetGlobalPointer e = Ret (gp, set_parse is64 p' e).
Proof.
  intros Hl. pose proof Hl as (L1 & L2 & L3 & L4). unfold GetGlobalPointer, with_mmap, with_parser. rewrite (IsValid_loaded is64 mm p e Hl). cbn [negb].
  rewrite L2, L3, Hgp. done.
Qed.

Lemma FillUnwindTableByEhFrame_std stack lb uti e :
  loaded is64 mm p e →
  let sb := u64 (lb + i_addr shdr) in
  ∃ e', FillUnwindTableByEhFrame stack lb uti e =
    Ret (true, set_uti_table UNW_INFO_FORMAT_REMOTE_TABLE false sb (length es) (u64 (sb + 12)) (set_uti_gp gp uti), e').
Proof.
  intros Hl. cbn zeta. pose proof Hl as (L1 & L2 & L3 & L4). pose proof file_room as (R1 & R2 & R3 & R4).
  unfold FillUnwindTableByEhFrame, elf_GetSectionInfo, parser_get, with_parser. rewrite (IsValid_loaded is64 mm p e Hl), L3, Hsec, L2.
  assert (HP : GetMmapPtr (Some mm) = Some base) by exact Hb. unfold GetMmapSize. cbn [mbind outcome_mbind from_option]. rewrite L2, HP. rewrite IsValidSectionOffset_std. cbn [negb].
  rewrite mapped_hdr_std. cbn [mbind outcome_mbind]. unfold FillUnwindTableByEhhdr. rewrite L2.
  cbn [hdr_version hdr_addr ehFramePtrEnc fdeCountEnc tableEnc negb]. change (DW_EH_VERSION =? DW_EH_VERSION) with true. cbn [negb].
  rewrite (GetGlobalPointer_std e Hl). cbn [mbind outcome_mbind e_core set_parse set_core e_mmap]. rewrite L2, HP. cbv zeta.
  destruct (std_fields gp) as [[x F1] F2].
  assert (u64 (u64 (i_offset shdr + base + 4) - base) = i_offset shdr + 4) as ->.
  { rewrite (wrap_small 64 (i_offset shdr + base + 4)) by (unfold fits; lia). rewrite wrap_small by (unfold fits; lia). lia. }
  rewrite F1. cbn [mbind outcome_mbind]. rewrite F2. cbn [mbind outcome_mbind].
  change (0x03 =? DW_EH_PE_omit) with false. change (0x3b =? Z.lor DW_EH_PE_datarel DW_EH_PE_sdata4) with true. cbn [negb andb].
  unfold maxFdeCount in *. destruct (Z.ltb_spec (1024 * 1024) (length es)); [lia|]. eexists. do 3 f_equal. unfold set_uti_table. f_equal.
  - unfold DWARF_TABLE_ENTRY_SIZE. rewrite wrap_small by (unfold fits; lia). change (Z.of_nat psize) with 8. by apply Z.div_mul.
  - rewrite (wrap_small 64 (base + _)) by (unfold fits; lia). f_equal. lia.
Qed.

(** An object whose headers have just been read. *)
Definition fresh_elf (e : DfxElf) : Prop :=
  loaded is64 mm p e ∧ e_loadBias e = 0 ∧ loadBase_ e = NO_ADDR ∧ startPc_ e = NO_ADDR ∧ endPc_ e = 0 ∧ hasTableInfo_ e = false.

Lemma pcs_fresh (m : DfxMap) e :
  fresh_elf e → 0 <= loadBias_ p →
  let lb := u64 (m_begin m - m_offset m - loadBias_ p) in lb ≠ NO_ADDR → startVaddr_ p ≠ NO_ADDR → endVaddr_ p ≠ 0 →
  ∃ e1 e2 e3, GetLoadBase (m_begin m) (m_offset m) e = Ret (lb, e1) ∧ GetStartPc e1 = Ret (u64 (startVaddr_ p + lb), e2) ∧
    GetEndPc e2 = Ret (u64 (endVaddr_ p + lb), e3) ∧ loaded is64 mm p e3 ∧ hasTableInfo_ e3 = false.
Proof.
  intros (Hl & F1 & F2 & F3 & F4 & F5) Hbias. cbn zeta. set (lb := u64 _). intros Hlb Hsv Hev. pose proof Hl as (L1 & L2 & L3 & L4).
  set (e1 := SetLoadBase lb (set_e_loadBias (loadBias_ p) e)). assert (Hl1 : loaded is64 mm p e1) by exact Hl.
  set (e2 := set_pcs (u64 (startVaddr_ p + lb)) (endPc_ e1) e1). assert (Hl2 : loaded is64 mm p e2) by exact Hl.
  exists e1, e2, (set_pcs (startPc_ e2) (u64 (endVaddr_ p + lb)) e2). repeat split; try done.
  - unfold GetLoadBase, GetLoadBias, with_parser. rewrite F2, Z.eqb_refl, (IsValid_loaded is64 mm p e Hl), F1, Z.eqb_refl, (IsValid_loaded is64 mm p e Hl), L3.
    cbn [mbind outcome_mbind]. zcase; [lia|]. done.
  - unfold GetStartPc, with_parser. change (startPc_ e1) with (startPc_ e). rewrite F3, Z.eqb_refl, (IsValid_loaded is64 mm p e1 Hl1). change (e_core e1) with (e_core e).
    rewrite L3. change (loadBase_ e1) with lb. rewrite (proj2 (Z.eqb_neq _ _) Hlb), (proj2 (Z.eqb_neq _ _) Hsv). done.
  - unfold GetEndPc, with_parser. change (endPc_ e2) with (endPc_ e). rewrite F4, Z.eqb_refl, (IsValid_loaded is64 mm p e2 Hl2). change (e_core e2) with (e_core e).
    rewrite L3. change (loadBase_ e2) with lb. rewrite (proj2 (Z.eqb_neq _ _) Hlb), (proj2 (Z.eqb_neq _ _) Hev). done.
Qed.

(** C16. From a mapped file to the entry of a pc.  The file has a section .eh_frame_hdr as linkers
    write it, with a sorted search table [es]; the target has the file mapped at the load base, so
    its memory holds that table behind the header.  For a pc in the executable range of the file,
    [FindUnwindTableInfo] finds the table, and [SearchEntry] of the parser of .eh_frame, given what
    it found, finds the last entry of [es] that starts at or below the pc. *)
Theorem table_then_entry (fuel : nat) stack pc m uti e (d : DwarfEntryParser) rest' :
  fresh_elf e → 0 <= loadBias_ p →
  let lb := u64 (m_begin m - m_offset m - loadBias_ p) in
  let sb := u64 (lb + i_addr shdr) in
  lb ≠ NO_ADDR → startVaddr_ p ≠ NO_ADDR → endVaddr_ p ≠ 0 →
  u64 (startVaddr_ p + lb) <= pc < u64 (endVaddr_ p + lb) →
  holds (memory_ d) (u64 (sb + 12)) (encode_table es ++ rest') → Z.of_nat (length es) < 2 ^ fuel →
  Forall (λ x, fits 32 x.1 ∧ fits 32 x.2) es →
  (∀ i j x y, es !! i = Some x → es !! j = Some y → (i < j)%nat → start_of sb x < start_of sb y) →
  (∀ x, x ∈ es → fde_of sb x ≠ 0) →
  ∃ u e', FindUnwindTableInfo stack pc (Some m) uti e = Ret (UNW_ERROR_NONE, u, e') ∧
    SearchEntry fuel pc u d = Ret ((λ x, mkUei (fde_of sb x) UNW_INFO_FORMAT_REMOTE_TABLE) <$> floor_entry sb pc es None, d).
Proof.
  intros Hf Hbias. cbn zeta. set (lb := u64 (m_begin m - _ - _)). set (sb := u64 (lb + i_addr shdr)). intros Hlb Hsv Hev Hpc Hmem Hfuel Hfit Hsort Hnz.
  destruct (pcs_fresh m e Hf Hbias Hlb Hsv Hev) as (e1 & e2 & e3 & P1 & P2 & P3 & Hl3 & Ht3). fold lb in P1, P2, P3.
  destruct (FillUnwindTableByEhFrame_std stack lb (set_uti_pcs (u64 (startVaddr_ p + lb)) (u64 (endVaddr_ p + lb)) uti) e3 Hl3) as (e4 & P4).
  fold sb in P4. set (u := set_uti_table _ _ _ _ _ _) in P4. exists u. eexists. split.
  - unfold FindUnwindTableInfo. destruct Hf as (_ & _ & _ & _ & _ & ->). cbn [andb]. rewrite P1. cbn [mbind outcome_mbind]. rewrite P2. cbn [mbind outcome_mbind].
    rewrite P3. cbn [mbind outcome_mbind]. destruct (Z.ltb_spec pc (u64 (startVaddr_ p + lb))); [lia|]. destruct (Z.leb_spec (u64 (endVaddr_ p + lb)) pc); [lia|].
    cbn [orb]. rewrite Ht3, P4. cbn [mbind outcome_mbind]. reflexivity.
  - exact (search_floor fuel pc u d es rest' Hmem eq_refl Hfuel Hfit Hsort Hnz).
Qed.
End Standard.

Definition example_entries : list (Z * Z) := [(0xd00, 0xe00); (0xd40, 0xe20)].
Definition example_map : DfxMap := mkMap 0x400000 0x402000 0 5 2 0 0 0 (lit "r-xp") (lit "/system/lib64/libexample.so") None NO_ADDR.
Definition example_target : DwarfEntryParser := mkParser (list_mem 0x40030c (encode_table example_entries ++ [])) (0, 0) ∅ ∅.

Lemma table_then_entry_witness : ∃ u e',
  FindUnwindTableInfo 0x7ff0 0x401050 (Some example_map) uti0 example_elf = Ret (UNW_ERROR_NONE, u, e') ∧
  SearchEntry 2 0x401050 u example_target = Ret (Some (mkUei 0x401120 UNW_INFO_FORMAT_REMOTE_TABLE), example_target).
Proof.
  apply (table_then_entry true example_mmap 0x10000000 example_parser example_parser 0 (mkShdrInfo 0x300 0 288 28) 0x100 example_entries
           (drop 316 (example_file 0))) with (rest' := []).
  - exact example_mmap_ok.
  - reflexivity.
  - vm_compute; reflexivity.
  - vm_compute; reflexivity.
  - vm_compute; congruence.
  - vm_compute; congruence.
  - vm_compute; congruence.
  - vm_compute; reflexivity.
  - vm_compute; congruence.
  - split; [split; [|split; [|split]]; vm_compute; reflexivity|]. vm_compute. auto.
  - vm_compute; congruence.
  - vm_compute; congruence.
  - vm_compute; congruence.
  - vm_compute; congruence.
  - vm_compute; split; congruence.
  - change (u64 _) with 0x40030c. solve_holds.
  - vm_compute; reflexivity.
  - repeat apply Forall_cons_2; try apply Forall_nil_2; split; split; vm_compute; (discriminate || reflexivity).
  - intros i j x y Hi Hj Hlt. destruct i as [|[|i]]; [| |by apply lookup_lt_Some in Hi; simpl in Hi; lia];
      (destruct j as [|[|j]]; try lia; try (by apply lookup_lt_Some in Hj; simpl in Hj; lia)); injection Hi as <-; injection Hj as <-; by vm_compute.
  - intros x Hx. repeat (apply elem_of_cons in Hx as [->|Hx]; [by vm_compute|]). by apply not_elem_of_nil in Hx.
Defined.

Lemma FindUnwindTableInfo_cache_witness : ∃ r,
  FindUnwindTableInfo 0x7ff0 0x401050 (Some example_map) uti0 example_elf = Ret r ∧ table_found 0x401050 example_elf r ∧ fst (fst r) = UNW_ERROR_NONE.
Proof.
  eexists. split; [vm_compute; reflexivity|]. split; [|vm_compute; reflexivity].
  apply (FindUnwindTableInfo_cache 0x7ff0 0x401050 (Some example_map) uti0 example_elf).
  - assert (table_inv (DfxElf_new None)) as H by apply table_inv_new. exact H.
  - vm_compute; reflexivity.
Defined.

(** ** The object of a map inside a .hap file *)
Section Hap.
Context (open_map : list ascii → option (Z * option (Z * list Z))).
Context (hap_open : list ascii → bool) (hap_map : list ascii → Z → Z → option (Z * list Z)) (hap_size : list ascii → Z).
Context (read_mem : Z → Z → Z → list Z) (vec : Z).

Definition hap_name (n : list ascii) : Prop := contains n SANDBOX_FILE_PATH_PREFIX = true ∧ EndsWith n (lit ".hap") = true.
Abbreviation Get := (GetElf open_map hap_open hap_map hap_size read_mem vec).
Abbreviation RelPc := (map_GetRelPc open_map hap_open hap_map hap_size read_mem vec).

Lemma hap_name_nonempty n : hap_name n → is_empty n = false.
Proof. intros [_ H]. by destruct n. Qed.

(** Each call without an object moves the offset of the map. *)
Lemma GetElf_hap pid o prev elf :
  hap_name (m_name (o_map o)) → o_prev o = Some prev → o_elf o = None →
  CompressHapElf_Create hap_open hap_map hap_size (m_name (o_map o)) (Some prev) = Ret elf →
  match elf with Some e => elf_IsValid e = (true, e) ∧ IsAdlt e = Ret false | None => True end →
  Get pid o = Ret (mkOwned (set_offset (u64 (m_offset (o_map o) - m_offset prev)) (o_map o)) (Some prev) elf).
Proof.
  intros Hn Hp He Hc Hv. unfold GetElf. rewrite He, (hap_name_nonempty _ Hn). unfold Select. destruct Hn as [-> ->]. cbn [andb]. rewrite Hp.
  cbn [mbind outcome_mbind o_map o_prev m_name set_offset]. rewrite Hc. cbn [mbind outcome_mbind].
  destruct elf as [e|]; [|done]. destruct Hv as [-> Hv]. rewrite Hv. done.
Qed.

(** [GetElf] [n] times. *)
Fixpoint GetElf_times (n : nat) (pid : Z) (o : owned_map) : outcome owned_map :=
  match n with O => Ret o | S n' => o ← Get pid o; GetElf_times n' pid o end.

(** A .hap map forgets where it is.  [ElfFactorySelector::Select] subtracts the offset of the
    previous map from the offset of the map every time [GetElf] has no object: when the file cannot
    be read, [n] calls leave the offset [n] times too low, modulo 2^64. *)
Theorem GetElf_drifts n pid o prev :
  hap_name (m_name (o_map o)) → o_prev o = Some prev → o_elf o = None → fits 64 (m_offset (o_map o)) →
  CompressHapElf_Create hap_open hap_map hap_size (m_name (o_map o)) (Some prev) = Ret None →
  GetElf_times n pid o = Ret (mkOwned (set_offset (u64 (m_offset (o_map o) - n * m_offset prev)) (o_map o)) (Some prev) None).
Proof.
  revert o. induction n as [|n IH]; intros o Hn Hp He Hf Hc.
  - cbn [GetElf_times]. rewrite Z.sub_0_r, wrap_small by done. destruct o as [m ? ?]; cbn in *; subst. by destruct m.
  - cbn [GetElf_times]. rewrite (GetElf_hap pid o prev None Hn Hp He Hc I). cbn [mbind outcome_mbind].
    rewrite IH; [|done|done|done|apply wrap_fits; lia|done]. cbn [o_map set_offset m_offset].
    assert (u64 (u64 (m_offset (o_map o) - m_offset prev) - n * m_offset prev) = u64 (m_offset (o_map o) - S n * m_offset prev)) as ->; [|done].
    unfold wrap. rewrite Zminus_mod_idemp_l. f_equal. lia.
Qed.

Lemma rel_pc_wrap a b c d : u64 (a - u64 (b - u64 c - d)) = u64 (a - b + c + d).
Proof.
  unfold wrap. rewrite Zminus_mod_idemp_r. replace (a - (b - c mod 2 ^ 64 - d)) with (a - b + d + c mod 2 ^ 64) by lia.
  rewrite Zplus_mod_idemp_r. f_equal. lia.
Qed.

(** Releasing the object of a .hap map changes its relative pcs.  [ReleaseElf] drops the object
    and nothing else, so the next [GetElf] subtracts the offset of the previous map once more: the
    relative pc of the same pc is lower by that offset than before. *)
Theorem RelPc_after_release o prev e is64 mm p pc r o1 r' o2 :
  hap_name (m_name (o_map o)) → o_prev o = Some prev → o_elf o = None →
  CompressHapElf_Create hap_open hap_map hap_size (m_name (o_map o)) (Some prev) = Ret (Some e) →
  loaded is64 mm p e → e_loadBias e = 0 → loadBase_ e = NO_ADDR → ptAdlt p = false → 0 <= loadBias_ p →
  RelPc pc o = Ret (r, o1) → RelPc pc (ReleaseElf o1) = Ret (r', o2) → r' = u64 (r - m_offset prev).
Proof.
  intros Hn Hp He Hc Hl Hb Hlb Ha Hbias. pose proof Hl as (L1 & L2 & L3 & L4).
  assert (Hv : elf_IsValid e = (true, e) ∧ IsAdlt e = Ret false).
  { split; [by apply (IsValid_loaded is64 mm p)|]. unfold IsAdlt, with_parser. by rewrite L3, Ha. }
  assert (HR : ∀ st off, ∃ e', GetRelPc pc st off e = Ret (u64 (pc - u64 (st - off - loadBias_ p)), e')).
  { intros st off. unfold GetRelPc, GetLoadBase, GetLoadBias, with_parser. rewrite Hlb, Z.eqb_refl, (proj1 Hv), Hb, Z.eqb_refl, (proj1 Hv), L3.
    cbn [mbind outcome_mbind]. zcase; [lia|]. by eexists. }
  assert (HM : ∀ o, hap_name (m_name (o_map o)) → o_prev o = Some prev → o_elf o = None →
    CompressHapElf_Create hap_open hap_map hap_size (m_name (o_map o)) (Some prev) = Ret (Some e) →
    ∃ e', RelPc pc o = Ret (u64 (pc - u64 (m_begin (o_map o) - u64 (m_offset (o_map o) - m_offset prev) - loadBias_ p)),
      mkOwned (set_offset (u64 (m_offset (o_map o) - m_offset prev)) (o_map o)) (Some prev) (Some e'))).
  { clear o Hn Hp He Hc. intros o Hn Hp He Hc. unfold map_GetRelPc. rewrite (GetElf_hap 0 o prev (Some e) Hn Hp He Hc Hv). cbn [mbind outcome_mbind o_elf].
    unfold GetElf. cbn [o_elf mbind outcome_mbind o_map o_prev m_begin m_offset set_offset].
    destruct (HR (m_begin (o_map o)) (u64 (m_offset (o_map o) - m_offset prev))) as [e' ->]. cbn. by eexists. }
  intros H1 H2. destruct (HM o Hn Hp He Hc) as [e1 E1]. rewrite E1 in H1. injection H1 as <- <-. destruct (HM (ReleaseElf (mkOwned (set_offset (u64 (m_offset (o_map o) - m_offset prev)) (o_map o)) (Some prev) (Some e1)))) as [e2 E2]; try done.
  rewrite E2 in H2. injection H2 as <- <-. cbn [ReleaseElf o_map m_begin m_offset set_offset].
  rewrite !rel_pc_wrap. unfold wrap. rewrite Zminus_mod_idemp_l. set (x := (m_offset (o_map o) - m_offset prev)).
  replace (pc - m_begin (o_map o) + (x mod 2 ^ 64 - m_offset prev) + loadBias_ p) with (pc - m_begin (o_map o) - m_offset prev + loadBias_ p + x mod 2 ^ 64) by lia.
  rewrite Zplus_mod_idemp_r. f_equal. lia.
Qed.
End Hap.

(** The small file inside a .hap file, at the offset 0x1000. *)
Definition hap_prev : DfxMap := mkMap 0x400000 0x400308 0x1000 1 2 0 0 0 (lit "r--p") (lit "/data/storage/el1/bundle/entry.hap") None NO_ADDR.
Definition hap_owned : owned_map :=
  mkOwned (mkMap 0x401000 0x402000 0x1800 5 2 0 0 0 (lit "r-xp") (lit "/data/storage/el1/bundle/entry.hap") None NO_ADDR) (Some hap_prev) None.
Definition hap_file (_ : list ascii) (_ _ : Z) : option (Z * list Z) := Some (0x10000000, example_file 0).

Lemma GetElf_drifts_witness :
  GetElf_times (λ _, None) (λ _, false) hap_file (λ _, 0x2000) (λ _ _ _, []) 0 3 1 hap_owned =
    Ret (mkOwned (set_offset (2 ^ 64 - 0x1800) (o_map hap_owned)) (Some hap_prev) None).
Proof.
  rewrite (GetElf_drifts (λ _, None) (λ _, false) hap_file (λ _, 0x2000) (λ _ _ _, []) 0 3 1 hap_owned hap_prev).
  - vm_compute; reflexivity.
  - split; vm_compute; reflexivity.
  - reflexivity.
  - reflexivity.
  - vm_compute; split; congruence.
  - vm_compute; reflexivity.
Defined.

Definition hap_elf : DfxElf := (elf_IsValid (SetBaseOffset 0x1000 (DfxElf_new (Some example_mmap)))).2.
Abbreviation hap_relpc := (map_GetRelPc (λ _, None) (λ _, true) hap_file (λ _, 0x2000) (λ _ _ _, []) 0).

Lemma RelPc_after_release_witness : ∃ r o1 r' o2,
  hap_relpc 0x401050 hap_owned = Ret (r, o1) ∧ hap_relpc 0x401050 (ReleaseElf o1) = Ret (r', o2) ∧ r = 0x850 ∧ r' = u64 (r - 0x1000).
Proof.
  eexists _, _, _, _. split; [vm_compute; reflexivity|]. split; [vm_compute; reflexivity|]. split; [reflexivity|].
  eapply (RelPc_after_release (λ _, None) (λ _, true) hap_file (λ _, 0x2000) (λ _ _ _, []) 0 hap_owned hap_prev hap_elf true example_mmap example_parser 0x401050).
  - split; vm_compute; reflexivity.
  - reflexivity.
  - reflexivity.
  - vm_compute; reflexivity.
  - split; [|split; [|split]]; vm_compute; reflexivity.
  - vm_compute; reflexivity.
  - vm_compute; reflexivity.
  - vm_compute; reflexivity.
  - vm_compute; congruence.
  - vm_compute; reflexivity.
  - vm_compute; reflexivity.
Defined.

(** [Select] follows the pointer to the previous map before [CompressHapElfFactory::Create] checks
    it: the first map of a process, or one found without its predecessor, cannot be in a .hap file. *)
Theorem GetElf_null_prev open_map hap_open hap_map hap_size read_mem vec pid o :
  hap_name (m_name (o_map o)) → o_prev o = None → o_elf o = None →
  GetElf open_map hap_open hap_map hap_size read_mem vec pid o = Undef NullDeref ∧
  CompressHapElf_Create hap_open hap_map hap_size (m_name (o_map o)) (o_prev o) = Ret None.
Proof.
  intros Hn Hp He. unfold GetElf. rewrite He, (hap_name_nonempty _ Hn). unfold Select. destruct Hn as [-> ->]. by rewrite Hp.
Qed.

(** The names of the linker are never demangled: the prefix is dropped from the text handed to the
    demangler, but the letter that chooses the demangler is looked for behind the first character of
    the whole name, where the prefix has an underscore. *)
Theorem Demangle_linker cxa rust cj buf :
  StartsWith buf LINKER_PREFIX = true → Demangle cxa rust cj buf = LINKER_PREFIX_NAME ++ drop 5 buf.
Proof.
  intros H. pose proof H as E%bool_decide_eq_true. change (length LINKER_PREFIX) with 5%nat in E.
  assert (Hb : buf = LINKER_PREFIX ++ drop 5 buf) by (rewrite <- E at 1; by rewrite take_drop).
  unfold Demangle. rewrite H. change (length LINKER_PREFIX) with 5%nat. set (rest := drop 5 buf) in *. clearbody rest. subst buf. reflexivity.
Qed.

(** A segment mapped below its file offset: the load base stays unknown, and the relative pc of
    every pc is the pc plus one. *)
Theorem GetRelPc_negative_bias is64 mm p e pc st off :
  loaded is64 mm p e → e_loadBias e = 0 → loadBase_ e = NO_ADDR → loadBias_ p < 0 →
  ∃ e', GetRelPc pc st off e = Ret (u64 (pc + 1), e').
Proof.
  intros Hl Hb Hlb Hneg. pose proof Hl as (L1 & L2 & L3 & L4). unfold GetRelPc, GetLoadBase, GetLoadBias, with_parser.
  rewrite Hlb, Z.eqb_refl, (IsValid_loaded is64 mm p e Hl), Hb, Z.eqb_refl, (IsValid_loaded is64 mm p e Hl), L3. cbn [mbind outcome_mbind].
  zcase; [|lia]. cbn [mbind outcome_mbind loadBase_ set_e_loadBias]. rewrite Hlb. eexists. do 2 f_equal. unfold wrap, NO_ADDR.
  replace (pc - (2 ^ 64 - 1)) with (pc + 1 + (-1) * 2 ^ 64) by lia. apply Z.mod_add. lia.
Qed.

(** A file without .eh_frame_hdr.  The header made up for it is a local variable; its [ehFrame] is
    looked for in the mapping of the file, at the distance of the two, where there is nothing: the
    value read is zero, and adding it to the address of the section gives the table all the same. *)
Lemma mmap_read_outside m off : mmap_ m = None ∨ size_ m <= off →
  mmap_ReadEncodedValue m off (Z.lor DW_EH_PE_absptr DW_EH_PE_udata8) = Ret (0, off).
Proof.
  intros H. assert (Hr : ∀ n incre, mmap_Read m off n incre = ([], off)).
  { intros n incre. unfold mmap_Read. destruct (mmap_ m); [|done]. zcase; [done|]. destruct H; [done|lia]. }
  unfold mmap_ReadEncodedValue, rd_Encoded. change (Z.lor DW_EH_PE_absptr DW_EH_PE_udata8) with 4.
  change (Z.land 4 DW_EH_PE_FORMAT_MASK =? DW_EH_PE_absptr) with false. change (Z.land 4 DW_EH_PE_indirect =? 0) with true.
  change (4 =? DW_EH_PE_omit) with false. change (4 =? DW_EH_PE_aligned) with false. cbv iota zeta. unfold rd_Format.
  change (Z.land 4 DW_EH_PE_FORMAT_MASK) with DW_EH_PE_udata8. cbn -[mmap_Read uptr apply_encoding]. unfold rd_Value, rd_T. rewrite Hr.
  cbn -[uptr apply_encoding]. done.
Qed.

Theorem FillUnwindTableByEhFrame_synth is64 mm base p p' gp shdr stack lb uti e :
  loaded is64 mm p e → mmap_ mm = Some base → GetSectionInfo EH_FRAME_HDR p = None → GetSectionInfo EH_FRAME p = Some shdr →
  ep_GetGlobalPointer (class_of is64) mm p = Ret (gp, p') → IsValidSectionOffset shdr (size_ mm) 0 = true →
  size_ mm <= u64 (u64 (stack + 4) - base) →
  let sb := u64 (lb + i_addr shdr) in
  ∃ e', FillUnwindTableByEhFrame stack lb uti e = Ret (true, set_uti_table UNW_INFO_FORMAT_REMOTE_TABLE true sb NO_ADDR sb (set_uti_gp gp uti), e').
Proof.
  intros Hl Hb Hno Hsec Hgp Hval Hfar. cbn zeta. pose proof Hl as (L1 & L2 & L3 & L4). assert (HP : GetMmapPtr (Some mm) = Some base) by exact Hb.
  unfold FillUnwindTableByEhFrame, elf_GetSectionInfo, parser_get, with_parser. rewrite (IsValid_loaded is64 mm p e Hl), L3, Hno, L2.
  cbn [mbind outcome_mbind]. rewrite (IsValid_loaded is64 mm p e Hl), L3, Hsec. cbn [mbind outcome_mbind]. rewrite L2, HP. unfold GetMmapSize. cbn [from_option]. rewrite Hval.
  cbn [negb]. unfold FillUnwindTableByEhhdr. rewrite L2. cbn [hdr_version synth_hdr hdr_addr ehFramePtrEnc fdeCountEnc tableEnc]. change (DW_EH_VERSION =? DW_EH_VERSION) with true.
  cbn [negb]. rewrite (GetGlobalPointer_std is64 mm p p' gp Hgp e Hl). cbn [mbind outcome_mbind e_core set_parse set_core e_mmap]. rewrite L2, HP. cbv zeta.
  rewrite (mmap_read_outside (mmap_SetDataOffset gp mm)) by (right; exact Hfar). cbn [mbind outcome_mbind].
  unfold mmap_ReadEncodedValue at 1. unfold rd_Encoded at 1. rewrite Z.eqb_refl. cbn [mbind outcome_mbind negb andb].
  change (DW_EH_PE_omit =? Z.lor DW_EH_PE_datarel DW_EH_PE_sdata4) with false. change (Z.lor DW_EH_PE_absptr DW_EH_PE_udata8 =? DW_EH_PE_omit) with false.
  cbn [negb]. rewrite Z.add_0_r, wrap_wrap by lia. by eexists.
Qed.
