(* ===== verification/Unwinder.v ===== *)
(** * The unwinder

    [Unwinder::Impl] (unwinder/unwinder.cpp), as compiled for aarch64 with mixed stacks: the loop
    that unwinds a thread frame by frame with the call frame information of each pc, the walk along
    the frame pointers, and their fallbacks.  The register operations that depend on the target are
    those of dfx_regs_arm64.cpp; the maps and the tables of a pc are found as in
    src/memory/dfx_accessors.cpp.

    What is outside is an argument ([unw_env]): the memory of the target (as the accessors see it,
    with or without the check of the stack range), the tables of ELF files, the instruction that
    strips pointer authentication, and the libraries of the JS engines.  The entry parser is any
    type with the interface [EntryParser]; [DwarfEntryParser] and [ExidxEntryParser] are instances. *)
From S2P Require Import Prelude Arch Memory DwarfOp DwarfCfa Instructions DwarfEntry Exidx Text Maps.

#[local] Existing Instance Arm64.

(** What the unwinder uses of an entry parser. *)
Class EntryParser (P : Type) := {
  parser_Step : nat → Z → UnwindTableInfo → RegLocState → P → outcome (bool * RegLocState * P);
  parser_error : P → Z * Z
}.

#[export] Instance Dwarf_EntryParser (A : Arch) (qut : list nat) : EntryParser DwarfEntryParser := {
  parser_Step := λ fuel pc uti rs p, Step qut fuel pc uti rs p;
  parser_error := lastErrorData_
}.
#[export] Instance Exidx_EntryParser (m : DfxMemory) (qut : list nat) : EntryParser ExidxEntryParser := {
  parser_Step := λ fuel pc uti rs p, '(ok, p) ← ex_Step m qut fuel pc uti rs p; Ret (ok, ex_rs p, p);
  parser_error := ex_error
}.

Definition UNWIND_TYPE_CUSTOMIZE_LOCAL : Z := -3.
Definition UNWIND_TYPE_LOCAL : Z := -1.
Definition UNW_ERROR_INVALID_ELF : Z := 7.
Definition UNW_ERROR_UNREADABLE_SP : Z := 12.
Definition UNW_ERROR_REPEATED_FRAME : Z := 13.
Definition UNW_ERROR_MAX_FRAMES_EXCEEDED : Z := 16.
Definition UNW_ERROR_STEP_ARK_FRAME : Z := 25.
Definition UNW_ERROR_UNKNOWN_ARK_MAP : Z := 26.
Definition UINTPTR_MAX : Z := 2 ^ 64 - 1.

Inductive FrameType := NATIVE_FRAME | JS_FRAME | STATIC_JS_FRAME | JSVM_FRAME | ARKWEB_JS_FRAME.
#[export] Instance FrameType_eq_dec : EqDecision FrameType.
Proof. solve_decision. Defined.

Record StepFrame := mkStep { f_pc : Z; f_sp : Z; f_fp : Z; f_isJs : bool; f_type : FrameType }.
Definition StepFrame_default : StepFrame := mkStep 0 0 0 false NATIVE_FRAME.

(** The fields of [DfxFrame] that unwinding sets; the map is an address in the store of the maps. *)
Record DfxFrame := mkFrame {
  d_index : nat; d_pc : Z; d_sp : Z; d_fp : Z; d_isJs : bool; d_type : FrameType; d_map : option nat
}.

(** The settings of an unwinder, and what its operations change ([ctx_map], [ctx_di], [stackCheck]:
    fields of the [UnwindContext]; [frameIndex]: the static variable of [UnwindArkFrame]). *)
Record unw_config := mkConfig {
  enableCache_ : bool;
  enableLrFallback_ : bool;
  enableFpCheckMapExec_ : bool;
  isCrash_ : bool;
  enableJsvmstack_ : bool;
  ignoreMixstack_ : bool;
  stopWhenArkFrame_ : bool;
  isJitCrash_ : bool;
  pid_ : Z;
  pacMask_ : Z;
  interruptPc_ : Z;
  bytecodePc_ : Z
}.

Record unwinder (P : Type) := mkUnw {
  isFpStep_ : bool;
  isResetFrames_ : bool;
  enableMixstack_ : bool;
  stepCache_ : gmap Z (option nat * RegLocState);
  regs_ : list Z;
  pcs_ : list Z;
  frames_ : list DfxFrame;
  u_error : Z * Z;
  u_parser : P;
  stackCheck : bool;
  ctx_map : option nat;
  ctx_di : UnwindTableInfo;
  u_maps : option DfxMaps;
  frameIndex : Z
}.
Arguments mkUnw {P}. Arguments isFpStep_ {P}. Arguments isResetFrames_ {P}. Arguments enableMixstack_ {P}.
Arguments stepCache_ {P}. Arguments regs_ {P}. Arguments pcs_ {P}. Arguments frames_ {P}. Arguments u_error {P}.
Arguments u_parser {P}. Arguments stackCheck {P}. Arguments ctx_map {P}. Arguments ctx_di {P}. Arguments u_maps {P}.
Arguments frameIndex {P}.

(** A step of a JS engine: what it returns and the values it leaves in its references. *)
Record js_step := mkJs { js_ret : Z; js_fp : Z; js_sp : Z; js_pc : Z; js_isJs : bool; js_type : FrameType }.

Record unw_env := mkEnv {
  env_memory : bool → option nat → DfxMemory;
  xpaclri : Z → Z;
  elf_table : Z → DfxMap → Z * UnwindTableInfo;
  local_table : Z → Z * UnwindTableInfo;
  ark_step : Z → Z → Z → bool → FrameType → Z → js_step;
  ark_jit_step : Z → Z → Z → bool → FrameType → Z → js_step;
  jsvm_step : Z → Z → Z → bool → js_step;
  env_ark_range : option (Z * Z)
}.

Section Setters.
Context {P : Type}.
Implicit Types u : unwinder P.
Definition set_fpStep b u := mkUnw b (isResetFrames_ u) (enableMixstack_ u) (stepCache_ u) (regs_ u) (pcs_ u) (frames_ u)
  (u_error u) (u_parser u) (stackCheck u) (ctx_map u) (ctx_di u) (u_maps u) (frameIndex u).
Definition set_reset b u := mkUnw (isFpStep_ u) b (enableMixstack_ u) (stepCache_ u) (regs_ u) (pcs_ u) (frames_ u)
  (u_error u) (u_parser u) (stackCheck u) (ctx_map u) (ctx_di u) (u_maps u) (frameIndex u).
Definition set_cache c u := mkUnw (isFpStep_ u) (isResetFrames_ u) (enableMixstack_ u) c (regs_ u) (pcs_ u) (frames_ u)
  (u_error u) (u_parser u) (stackCheck u) (ctx_map u) (ctx_di u) (u_maps u) (frameIndex u).
Definition set_regs r u := mkUnw (isFpStep_ u) (isResetFrames_ u) (enableMixstack_ u) (stepCache_ u) r (pcs_ u) (frames_ u)
  (u_error u) (u_parser u) (stackCheck u) (ctx_map u) (ctx_di u) (u_maps u) (frameIndex u).
Definition set_frames ps fs u := mkUnw (isFpStep_ u) (isResetFrames_ u) (enableMixstack_ u) (stepCache_ u) (regs_ u) ps fs
  (u_error u) (u_parser u) (stackCheck u) (ctx_map u) (ctx_di u) (u_maps u) (frameIndex u).
Definition set_error e u := mkUnw (isFpStep_ u) (isResetFrames_ u) (enableMixstack_ u) (stepCache_ u) (regs_ u) (pcs_ u)
  (frames_ u) e (u_parser u) (stackCheck u) (ctx_map u) (ctx_di u) (u_maps u) (frameIndex u).
Definition set_parser (p : P) u := mkUnw (isFpStep_ u) (isResetFrames_ u) (enableMixstack_ u) (stepCache_ u) (regs_ u) (pcs_ u)
  (frames_ u) (u_error u) p (stackCheck u) (ctx_map u) (ctx_di u) (u_maps u) (frameIndex u).
Definition set_stackCheck b u := mkUnw (isFpStep_ u) (isResetFrames_ u) (enableMixstack_ u) (stepCache_ u) (regs_ u) (pcs_ u)
  (frames_ u) (u_error u) (u_parser u) b (ctx_map u) (ctx_di u) (u_maps u) (frameIndex u).
Definition set_ctx_map m s u := mkUnw (isFpStep_ u) (isResetFrames_ u) (enableMixstack_ u) (stepCache_ u) (regs_ u) (pcs_ u)
  (frames_ u) (u_error u) (u_parser u) (stackCheck u) m (ctx_di u) s (frameIndex u).
Definition set_di d u := mkUnw (isFpStep_ u) (isResetFrames_ u) (enableMixstack_ u) (stepCache_ u) (regs_ u) (pcs_ u)
  (frames_ u) (u_error u) (u_parser u) (stackCheck u) (ctx_map u) d (u_maps u) (frameIndex u).
Definition set_frameIndex i u := mkUnw (isFpStep_ u) (isResetFrames_ u) (enableMixstack_ u) (stepCache_ u) (regs_ u) (pcs_ u)
  (frames_ u) (u_error u) (u_parser u) (stackCheck u) (ctx_map u) (ctx_di u) (u_maps u) i.
(** [Clear]. *)
Definition Clear u := mkUnw false (isResetFrames_ u) true (stepCache_ u) (regs_ u) [] []
  (0, 0) (u_parser u) (stackCheck u) (ctx_map u) (ctx_di u) (u_maps u) (frameIndex u).
Definition set_code code u := set_error (fst (u_error u), code) u.
End Setters.

Section Unwinder.
Context {P : Type} {EP : EntryParser P}.
Context (env : unw_env) (c : unw_config) (qut : list nat) (fuel : nat).
Implicit Types u : unwinder P.

Definition mem u : DfxMemory := env_memory env (stackCheck u) (ctx_map u).
Definition the_map u (m : option nat) : option DfxMap := match u_maps u with Some s => deref s m | None => None end.

(** ** Registers of aarch64 *)
Definition StripPac (inAddr pacMask : Z) : Z :=
  if inAddr =? 0 then inAddr
  else if pacMask =? 0 then xpaclri env inAddr
  else Z.ldiff inAddr pacMask.

Definition DoPcAdjust (pc : Z) : Z := if pc <=? 4 then pc else pc - 4.

Definition SetPcFromReturnAddress (regs : list Z) : outcome (bool * list Z) :=
  lr ← reg_at regs 30;
  pc ← reg_at regs REG_PC;
  if pc =? lr then Ret (false, regs) else Ret (true, SetPc regs lr).

(** A vector of words seen as bytes, and back. *)
Definition words_bytes (ws : list Z) : list Z := concat (map (le_bytes 8) ws).
Fixpoint bytes_words (n : nat) (bs : list Z) : list Z :=
  match n with O => [] | S n' => of_le (take 8 bs) :: bytes_words n' (drop 8 bs) end.

(** [StepIfSignalFrame]: the kernel's sigreturn code; the registers of the interrupted code. *)
Definition StepIfSignalFrame (m : DfxMemory) (pc : Z) (regs : list Z) : outcome (bool * list Z) :=
  '(data, _) ← ReadU m pc 8 false;
  match data with
  | None => Ret (false, regs)
  | Some data =>
      if negb (data =? 0xd4000001d2801168) then Ret (false, regs)
      else
        sp ← reg_at regs REG_SP;
        '(bs, _) ← Read m (uptr (sp + 128 + 0xb0 + 0x08)) (8 * REG_LAST) false;
        Ret (true, bytes_words (length regs) (bs ++ drop (length bs) (words_bytes regs)))
  end.

(** ** Maps and tables *)

(** [GetMapByPcAndCtx]: the map of the context if it contains the pc, or a lookup. *)
Definition GetMapByPcAndCtx (pc : Z) u : outcome (bool * option nat * unwinder P) :=
  match the_map u (ctx_map u) with
  | Some m => if Contain pc m then Ret (true, ctx_map u, u)
              else match u_maps u with
                   | None => Ret (false, None, set_ctx_map None None u)
                   | Some s =>
                       '(ok, map, s) ← FindMapByAddr pc None s;
                       if (ok : bool) && bool_decide (is_Some map) then Ret (true, map, set_ctx_map map (Some s) u)
                       else Ret (false, None, set_ctx_map None (Some s) u)
                   end
  | None => match u_maps u with
            | None => Ret (false, None, set_ctx_map None None u)
            | Some s =>
                '(ok, map, s) ← FindMapByAddr pc None s;
                if (ok : bool) && bool_decide (is_Some map) then Ret (true, map, set_ctx_map map (Some s) u)
                else Ret (false, None, set_ctx_map None (Some s) u)
            end
  end.

Definition GetMapByPc (pc : Z) u : outcome (Z * option nat * unwinder P) :=
  '(ok, map, u) ← GetMapByPcAndCtx pc u;
  Ret (if (ok : bool) then UNW_ERROR_NONE else UNW_ERROR_INVALID_MAP, map, u).

(** [FindUnwindTable] of the local and of the remote accessors. *)
Definition FindUnwindTable (pc : Z) u : Z * UnwindTableInfo * unwinder P :=
  let found (r : Z * UnwindTableInfo) :=
    if r.1 =? UNW_ERROR_NONE then (r.1, r.2, set_di r.2 u) else (r.1, r.2, u) in
  if pid_ c =? UNWIND_TYPE_LOCAL then
    match the_map u (ctx_map u) with
    | Some m => if IsVdsoMap m then found (elf_table env pc m) else found (local_table env pc)
    | None => found (local_table env pc)
    end
  else
    match the_map u (ctx_map u) with
    | None => (UNW_ERROR_INVALID_CONTEXT, ctx_di u, u)
    | Some m =>
        if (uti_startPc (ctx_di u) <=? pc) && (pc <? uti_endPc (ctx_di u)) then (UNW_ERROR_NONE, ctx_di u, u)
        else found (elf_table env pc m)
    end.

(** ** Frames *)
Definition SetLocalStackCheck (ctx check : bool) u : unwinder P :=
  if (pid_ c =? UNWIND_TYPE_LOCAL) && ctx then set_stackCheck check u else u.

Definition AddFrame (frame : StepFrame) (map : option nat) u : unwinder P :=
  if ignoreMixstack_ c && f_isJs frame then u
  else
    let arkweb := match the_map u map with Some m => IsArkWebJsExecutable m | None => false end in
    let d := mkFrame (length (frames_ u)) (f_pc frame) (f_sp frame) (f_fp frame)
               (if arkweb then true else f_isJs frame) (if arkweb then ARKWEB_JS_FRAME else f_type frame) map in
    set_frames (pcs_ u ++ [f_pc frame]) (frames_ u ++ [d]) u.

Definition FindCache (pc : Z) u : option (option nat * RegLocState) :=
  if enableCache_ c && negb (isFpStep_ u) then stepCache_ u !! pc else None.

Definition AddFrameMap (frame : StepFrame) u : outcome (bool * option nat * unwinder P) :=
  '(mapRet, map, u) ← GetMapByPc (f_pc frame) u;
  if negb (mapRet =? UNW_ERROR_NONE) && (2 <? length (frames_ u))%nat
  then Ret (false, map, set_error (f_pc frame, if f_isJs frame then UNW_ERROR_UNKNOWN_ARK_MAP else mapRet) u)
  else Ret (true, map, AddFrame frame map u).

Definition ParseUnwindTable (pc : Z) u : outcome (bool * option RegLocState * unwinder P) :=
  let '(utiRet, uti, u) := FindUnwindTable pc u in
  if negb (utiRet =? UNW_ERROR_NONE) then Ret (false, None, set_error (pc, utiRet) u)
  else
    '(ok, rs, p) ← parser_Step fuel pc uti (RegLocState_default qut) (u_parser u);
    let u := set_parser p u in
    if negb (ok : bool) then Ret (false, Some rs, set_error (parser_error p) u)
    else Ret (true, Some rs, u).

Definition UpdateCache (pc : Z) (hasRegLocState : bool) (rs : option RegLocState) (map : option nat) u : unwinder P :=
  match rs with
  | Some rs =>
      if hasRegLocState && enableCache_ c
      then match stepCache_ u !! pc with
           | Some _ => u
           | None => set_cache (<[pc := (map, rs)]> (stepCache_ u)) u
           end
      else u
  | None => u
  end.

(** ** JS frames *)
Definition StepArkJsFrame (frame : StepFrame) (index : Z) u : outcome (bool * StepFrame * unwinder P) :=
  let done (ret : Z) (frame : StepFrame) :=
    if ret <? 0 then Ret (false, frame, u)
    else
      Ret (true, frame,
           set_regs (SetFp (SetSp (SetPc (regs_ u) (StripPac (f_pc frame) (pacMask_ c))) (f_sp frame)) (f_fp frame)) u) in
  if isJitCrash_ c then
    let r := ark_jit_step env (f_fp frame) (f_sp frame) (f_pc frame) (f_isJs frame) (f_type frame) index in
    done (js_ret r) (mkStep (js_pc r) (js_sp r) (js_fp r) (js_isJs r) (js_type r))
  else
    let stepSp := if interruptPc_ c =? f_pc frame then UINTPTR_MAX else f_sp frame in
    let r := ark_step env (f_fp frame) stepSp (bytecodePc_ c) (f_isJs frame) (f_type frame) index in
    done (js_ret r)
      (mkStep (js_pc r) (if js_sp r =? stepSp then f_sp frame else js_sp r) (js_fp r) (js_isJs r) (js_type r)).

(** The result, [stopUnwind], the frame. *)
Definition StepV8Frame (frame : StepFrame) (map : option nat) u : outcome (bool * bool * StepFrame * unwinder P) :=
  match the_map u map with
  | None => Ret (false, false, frame, u)
  | Some m =>
      if negb (enableJsvmstack_ c && IsJsvmExecutable m) && negb (IsArkWebJsExecutable m) then Ret (true, false, frame, u)
      else
        let r := jsvm_step env (f_fp frame) (f_sp frame) (f_pc frame) (f_isJs frame) in
        let frame := mkStep (js_pc r) (js_sp r) (js_fp r) (js_isJs r) (f_type frame) in
        if js_ret r <? 0 then Ret (false, false, frame, u)
        else
          Ret (true, true, frame,
               set_regs (SetFp (SetSp (SetPc (regs_ u) (StripPac (f_pc frame) (pacMask_ c))) (f_sp frame)) (f_fp frame)) u)
  end.

Definition set_type (t : FrameType) (f : StepFrame) : StepFrame := mkStep (f_pc f) (f_sp f) (f_fp f) (f_isJs f) t.

Definition UnwindArkFrame (frame : StepFrame) (map : option nat) u : outcome (bool * bool * StepFrame * unwinder P) :=
  match the_map u map with
  | None => Ret (true, false, frame, u)
  | Some m =>
      if stopWhenArkFrame_ c && (IsArkExecutable m || IsStaticArkExecutable m) then Ret (false, true, frame, u)
      else if negb (enableMixstack_ u) then Ret (true, false, frame, u)
      else if IsStaticArkExecutable m || bool_decide (f_type frame = STATIC_JS_FRAME) then
        let frame := if IsStaticArkExecutable m then set_type STATIC_JS_FRAME frame else frame in
        let u := if IsStaticArkExecutable m then set_frameIndex 0 u else u in
        '(ok, frame, u) ← StepArkJsFrame frame (frameIndex u) u;
        if negb (ok : bool) then Ret (false, false, frame, u)
        else Ret (true, true, frame, set_frameIndex (u64 (frameIndex u + 1)) u)
      else if IsArkExecutable m || bool_decide (f_type frame = JS_FRAME) then
        '(ok, frame, u) ← StepArkJsFrame frame 0 u;
        if negb (ok : bool) then Ret (false, false, frame, set_error (f_pc frame, UNW_ERROR_STEP_ARK_FRAME) u)
        else Ret (true, true, frame, u)
      else Ret (true, false, frame, u)
  end.

(** ** Frame pointers *)

(** [FpStep(fp, pc)]: the result and the values left in the references. *)
Definition FpStep (fp pc : Z) u : outcome (bool * Z * Z * unwinder P) :=
  if fp =? 0 then Ret (false, fp, pc, u)
  else
    '(ok, fp', ptr) ← ReadT (mem u) fp fp psize true;
    if negb (ok : bool) then Ret (false, fp', pc, u)
    else
      '(ok, pc', _) ← ReadT (mem u) ptr pc psize false;
      if negb (ok : bool) then Ret (false, fp', pc', u)
      else if negb (fp' =? 0) && (fp' <=? fp) then Ret (false, fp', pc', set_error (pc', UNW_ERROR_ILLEGAL_VALUE) u)
      else
        regs ← SetReg (regs_ u) REG_FP fp';
        regs ← SetReg regs REG_SP fp;
        Ret (true, fp', pc', set_regs (SetPc regs (StripPac pc' (pacMask_ c))) u).

Definition StepToNextFpIfNeed u : outcome (unwinder P) :=
  fp ← GetFp (regs_ u);
  '(_, fpStepPc, _) ← ReadT (mem u) (uptr (fp + psize)) 0 psize false;
  pc ← GetPc (regs_ u);
  if pc =? fpStepPc then
    '(_, nextFp, _) ← ReadT (mem u) fp 0 psize false;
    Ret (set_regs (SetFp (regs_ u) nextFp) u)
  else Ret u.

(** ** Applying the rules of a frame *)
Definition Impl_Apply (rs : RegLocState) u : outcome (bool * unwinder P) :=
  prevPc ← GetPc (regs_ u);
  prevSp ← GetSp (regs_ u);
  '(ret, regs, errCode) ← Apply qut fuel (Some (mem u)) (regs_ u) rs 0;
  sp ← GetSp regs;
  pc ← GetPc regs;
  readable ← (if (ret : bool) then '(ok, _, _) ← ReadT (mem u) sp 0 psize false; Ret ok else Ret true);
  let '(ret, errCode) := if (ret : bool) && negb readable then (false, UNW_ERROR_UNREADABLE_SP) else (ret, errCode) in
  let '(ret, errCode) := if (StripPac pc (pacMask_ c) =? prevPc) && (sp =? prevSp)
                         then (false, UNW_ERROR_REPEATED_FRAME) else (ret, errCode) in
  let u := set_regs regs u in
  Ret (ret, if ret then u else set_code errCode u).

(** [UpdateRegsState]: the state of the registers for the next frame; [has] is [unwinderResult]. *)
Definition UpdateRegsState (ctx : bool) (frame : StepFrame) (has : bool) (rs : option RegLocState) u
  : outcome (bool * StepFrame * unwinder P) :=
  let u := SetLocalStackCheck ctx true u in
  '(has, u) ←
    (if has then
       lr ← reg_at (regs_ u) 30;
       '(ok, u) ← match rs with Some rs => Impl_Apply rs u | None => Ret (false, u) end;
       if negb ok && enableLrFallback_ c && (length (frames_ u) =? 1)%nat
       then Ret (true, set_regs (SetPc (regs_ u) lr) u)
       else Ret (ok, u)
     else if enableLrFallback_ c && (length (frames_ u) =? 1)%nat && negb (isResetFrames_ u) then
       '(ok, regs) ← SetPcFromReturnAddress (regs_ u);
       if (ok : bool) then u ← StepToNextFpIfNeed (set_regs regs u); Ret (true, u) else Ret (false, u)
     else Ret (false, u));
  pc ← GetPc (regs_ u);
  let u := set_regs (SetPc (regs_ u) (StripPac pc (pacMask_ c))) u in
  '(has, u) ←
    (if (has : bool) then Ret (true, u)
     else
       '(ok, _, _, u) ← FpStep (f_fp frame) (f_pc frame) u;
       Ret (ok, if (ok : bool) && negb (isFpStep_ u) then set_fpStep true u else u));
  pc ← GetPc (regs_ u);
  sp ← GetSp (regs_ u);
  fp ← GetFp (regs_ u);
  Ret (has, mkStep pc sp fp (f_isJs frame) (f_type frame), u).

Definition CheckFrameValid (frame : StepFrame) (map : option nat) (prevSp : Z) u : bool * unwinder P :=
  let illegal :=
    match the_map u map with
    | Some m => negb (isFpStep_ u) && negb (IsVdsoMap m) && (f_sp frame <? prevSp)
    | None => false
    end in
  if illegal then (false, set_error (f_pc frame, UNW_ERROR_ILLEGAL_VALUE) u)
  else (negb (f_pc frame =? 0), u).

Definition GetCrashLastFrame (frame : StepFrame) u : option StepFrame :=
  if isCrash_ c && negb (isFpStep_ u) then
    match list.last (frames_ u) with
    | Some d => Some (mkStep (d_pc d) (d_sp d) (d_fp d) (d_isJs d) (f_type frame))
    | None => None
    end
  else None.

(** ** One step

    The body of the [do ... while (false)] of [StepInner] leaves by a return or by a break. *)
Inductive step_exit :=
| StepReturn (res : bool) (frame : StepFrame)
| StepBreak (has : bool) (rs : option RegLocState) (map : option nat) (frame : StepFrame).

Definition step_lookup (isSigFrame : bool) (frame : StepFrame) u : outcome (step_exit * unwinder P) :=
  match FindCache (f_pc frame) u with
  | Some (map, rs) => Ret (StepBreak true (Some rs) map frame, AddFrame frame map u)
  | None =>
      '(ok, map, u) ← AddFrameMap frame u;
      if negb (ok : bool) then
        match GetCrashLastFrame frame u with
        | None => Ret (StepReturn false frame, u)
        | Some frame => Ret (StepBreak false None map frame, u)
        end
      else if isSigFrame then Ret (StepReturn true frame, u)
      else
        '(res, stopUnwind, frame, u) ← StepV8Frame frame map u;
        if (stopUnwind : bool) then Ret (StepReturn res frame, u)
        else if negb (res : bool) then Ret (StepBreak false None map frame, u)
        else
          '(res, stopUnwind, frame, u) ← UnwindArkFrame frame map u;
          if (stopUnwind : bool) then Ret (StepReturn res frame, u)
          else if negb (res : bool) then Ret (StepBreak false None map frame, u)
          else if isFpStep_ u then
            if enableFpCheckMapExec_ c && match the_map u map with Some m => negb (IsMapExec m) | None => false end
            then Ret (StepReturn false frame, u)
            else Ret (StepBreak false None map frame, u)
          else
            '(has, rs, u) ← ParseUnwindTable (f_pc frame) u;
            Ret (StepBreak has rs map frame, UpdateCache (f_pc frame) has rs map u)
  end.

Definition StepInner (ctx isSigFrame : bool) (frame : StepFrame) u : outcome (bool * StepFrame * unwinder P) :=
  if negb ctx then Ret (false, frame, u)
  else
    let u := SetLocalStackCheck ctx false u in
    '(e, u) ← step_lookup isSigFrame frame u;
    match e with
    | StepReturn res frame' => Ret (res, frame', u)
    | StepBreak has rs map frame' =>
        '(has, frame', u) ← UpdateRegsState ctx frame' has rs u;
        let '(valid, u) := CheckFrameValid frame' map (f_sp frame) u in
        Ret (valid && has, frame', u)
    end.

(** [UnwindFrame]: whether to go on, the frame, [needAdjustPc]. *)
Definition UnwindFrame (ctx : bool) (frame : StepFrame) (needAdjustPc : bool) u
  : outcome (bool * StepFrame * bool * unwinder P) :=
  pc ← GetPc (regs_ u);
  sp ← GetSp (regs_ u);
  fp ← GetFp (regs_ u);
  let frame := mkStep pc sp fp (f_isJs frame) (f_type frame) in
  '(sig, regs) ←
    (if negb (pid_ c =? UNWIND_TYPE_LOCAL) && negb (pid_ c =? UNWIND_TYPE_CUSTOMIZE_LOCAL)
     then StepIfSignalFrame (mem u) pc (regs_ u) else Ret (false, regs_ u));
  let u := set_regs regs u in
  if (sig : bool) then
    '(_, frame, u) ← StepInner ctx true frame u;
    Ret (true, frame, needAdjustPc, u)
  else
    let frame := if negb (f_isJs frame) && needAdjustPc
                 then mkStep (DoPcAdjust pc) sp fp (f_isJs frame) (f_type frame) else frame in
    '(ok, frame', u) ← StepInner ctx false frame u;
    if negb (ok : bool) then Ret (false, frame', true, u)
    else if (f_pc frame' =? f_pc frame) && (f_sp frame' =? f_sp frame) && (1 <? length (frames_ u))%nat
    then Ret (false, frame', true, set_error (f_pc frame', UNW_ERROR_REPEATED_FRAME) u)
    else Ret (true, frame', true, u).

(** The loop of [Unwind], one round per unit of [n]. *)
Fixpoint unwind_loop (n : nat) (ctx : bool) (maxFrameNum skipFrameNum : nat) (frame : StepFrame) (needAdjustPc : bool) u
  : outcome (unwinder P) :=
  let u := if negb (isResetFrames_ u) && negb (skipFrameNum =? 0)%nat && (skipFrameNum <=? length (frames_ u))%nat
           then set_frames (pcs_ u) [] (set_reset true u) else u in
  if (maxFrameNum <=? length (frames_ u))%nat then Ret (set_code UNW_ERROR_MAX_FRAMES_EXCEEDED u)
  else
    match n with
    | O => OutOfFuel
    | S n' =>
        '(go, frame, needAdjustPc, u) ← UnwindFrame ctx frame needAdjustPc u;
        if (go : bool) then unwind_loop n' ctx maxFrameNum skipFrameNum frame needAdjustPc u else Ret u
    end.

Definition Unwind (n : nat) (ctx : bool) (maxFrameNum skipFrameNum : nat) u : outcome (bool * unwinder P) :=
  if negb ctx then Ret (false, set_code UNW_ERROR_INVALID_CONTEXT u)
  else
    let u := set_reset false (Clear (SetLocalStackCheck ctx false u)) in
    u ← unwind_loop n ctx maxFrameNum skipFrameNum StepFrame_default false u;
    Ret ((0 <? length (frames_ u))%nat, u).

(** ** Unwinding by frame pointers *)
Record ArkMapRange := mkArkRange { arkMapStart : Z; arkMapEnd : Z; staticArkMapStart : Z; staticArkMapEnd : Z }.

(** The result of [UnwindArkFrameByFp]: 1 not a JS frame, 0 stepped, -1 failed. *)
Definition UnwindArkFrameByFp (frame : StepFrame) (r : ArkMapRange) (index : Z) u
  : outcome (Z * StepFrame * Z * unwinder P) :=
  let isStatic := (staticArkMapStart r <=? f_pc frame) && (f_pc frame <? staticArkMapEnd r) in
  let isArk := (arkMapStart r <=? f_pc frame) && (f_pc frame <? arkMapEnd r) in
  let isArkFrame := bool_decide (f_type frame = STATIC_JS_FRAME) || bool_decide (f_type frame = JS_FRAME) in
  if negb isStatic && negb isArk && negb isArkFrame then Ret (1, frame, index, u)
  else
    let frame := if isStatic then set_type STATIC_JS_FRAME frame else frame in
    let index := if isStatic then 0 else index in
    '(ok, frame, u) ← StepArkJsFrame frame index u;
    if negb (ok : bool) then Ret (-1, frame, index, set_error (f_pc frame, UNW_ERROR_STEP_ARK_FRAME) u)
    else Ret (0, frame, u64 (index + 1), u).

Definition ark_ranges (enableArk : bool) u : ArkMapRange :=
  if enableArk then
    let ark := match u_maps u with Some s => GetArkStackRange s | None => env_ark_range env end in
    let stat := match u_maps u with Some s => GetStaticArkRange s | None => None end in
    let a := default (0, 0) ark in
    let b := default (0, 0) stat in
    mkArkRange a.1 a.2 b.1 b.2
  else mkArkRange 0 0 0 0.

Fixpoint fp_loop (n : nat) (maxFrameNum skipFrameNum : nat) (enableArk : bool) (r : ArkMapRange) (resetFrames : bool)
  (frame : StepFrame) (needAdjustPc : bool) (index : Z) u : outcome (unwinder P) :=
  let reset := negb resetFrames && negb (skipFrameNum =? 0)%nat && (length (pcs_ u) =? skipFrameNum)%nat in
  let u := if reset then set_frames [] (frames_ u) u else u in
  let resetFrames := resetFrames || reset in
  if (maxFrameNum <=? length (pcs_ u))%nat then Ret (set_code UNW_ERROR_MAX_FRAMES_EXCEEDED u)
  else
    match n with
    | O => OutOfFuel
    | S n' =>
        pc ← GetPc (regs_ u);
        sp ← GetSp (regs_ u);
        fp ← GetFp (regs_ u);
        let pc := if negb (f_isJs frame) && needAdjustPc then DoPcAdjust pc else pc in
        let frame := mkStep pc sp fp (f_isJs frame) (f_type frame) in
        let u := set_frames (pcs_ u ++ [pc]) (frames_ u) u in
        '(ret, frame, index, u) ← (if enableArk then UnwindArkFrameByFp frame r index u else Ret (1, frame, index, u));
        if ret =? 0 then fp_loop n' maxFrameNum skipFrameNum enableArk r resetFrames frame true index u
        else if ret =? -1 then Ret u
        else
          '(ok, fp, pc, u) ← FpStep (f_fp frame) (f_pc frame) u;
          if negb (ok : bool) || (pc =? 0) then Ret u
          else fp_loop n' maxFrameNum skipFrameNum enableArk r resetFrames
                 (mkStep pc (f_sp frame) fp (f_isJs frame) (f_type frame)) true index u
    end.

Definition UnwindByFp (n : nat) (maxFrameNum skipFrameNum : nat) (enableArk : bool) u : outcome (bool * unwinder P) :=
  let u := set_frames [] (frames_ u) u in
  u ← fp_loop n maxFrameNum skipFrameNum enableArk (ark_ranges enableArk u) false StepFrame_default false 0 u;
  Ret ((0 <? length (pcs_ u))%nat, u).

(** [Step(pc, sp)], the operation for clients that walk themselves. *)
Definition Impl_Step (ctx : bool) (pc sp : Z) u : outcome (bool * Z * Z * unwinder P) :=
  if negb ctx then Ret (false, pc, sp, u)
  else
    fp ← GetFp (regs_ u);
    let frame := mkStep pc sp fp false NATIVE_FRAME in
    '(sig, regs) ← StepIfSignalFrame (mem u) pc (regs_ u);
    '(ret, frame, u) ← StepInner ctx sig frame (set_regs regs u);
    Ret (ret, f_pc frame, f_sp frame, u).
End Unwinder.

Lemma reg_at_lookup (regs : list Z) (i : nat) v : regs !! i = Some v → reg_at regs i = Ret v.
Proof. intros H. unfold reg_at. rewrite (proj2 (Z.ltb_ge i 0)) by lia. by rewrite Nat2Z.id, H. Qed.

Lemma SetReg_eq (regs : list Z) (i : nat) v : length regs = REG_LAST → (i < REG_LAST)%nat → SetReg regs i v = Ret (<[i := v]> regs).
Proof.
  intros Hl Hi. unfold SetReg. rewrite (proj2 (Z.leb_gt REG_LAST i)) by lia.
  destruct (lookup_lt_is_Some_2 regs i) as [x Hx]; [lia|]. rewrite (reg_at_lookup _ _ _ Hx). cbn [mbind outcome_mbind]. by rewrite Nat2Z.id.
Qed.

(** ** Walking the frame pointers *)
Section FramePointers.
Context {P : Type} {EP : EntryParser P}.
Context (env : unw_env) (c : unw_config).
Implicit Types u : unwinder P.

(** The frame records of a stack: at the frame pointer the caller's frame pointer and the return
    address; frame pointers rise, and the outermost is null. *)
Fixpoint fp_chain (m : DfxMemory) (fp : Z) (l : list (Z * Z)) : Prop :=
  match l with
  | [] => fp = 0
  | (next, ra) :: l' =>
      fp ≠ 0 ∧ ra ≠ 0 ∧ fits 64 next ∧ fits 64 ra ∧ holds m fp (le_bytes 8 next ++ le_bytes 8 ra) ∧
      (next = 0 ∨ fp < next) ∧ fp_chain m next l'
  end.

(** The pcs of a stack: the current one, and before each return address its call instruction. *)
Definition stack_pcs (pc : Z) (l : list (Z * Z)) : list Z :=
  pc :: map (λ x, DoPcAdjust (StripPac env x.2 (pacMask_ c))) l.

(** What a client gets of them: the skipped ones are dropped only if they are no more than the
    requested number and fewer than the frames. *)
Definition visible (skip max : nat) (pcs : list Z) : list Z :=
  if (0 <? skip)%nat && (skip <=? max)%nat && (skip <? length pcs)%nat then take max (drop skip pcs) else take max pcs.

Lemma FpStep_record fp pc next ra u :
  fp ≠ 0 → fits 64 next → fits 64 ra → holds (mem env u) fp (le_bytes 8 next ++ le_bytes 8 ra) → next = 0 ∨ fp < next →
  length (regs_ u) = REG_LAST →
  FpStep env c fp pc u =
    Ret (true, next, ra, set_regs (<[REG_PC := StripPac env ra (pacMask_ c)]> (<[REG_SP := fp]> (<[REG_FP := next]> (regs_ u)))) u).
Proof.
  intros Hfp Hn Hr Hh Hup Hlen. unfold FpStep. rewrite (proj2 (Z.eqb_neq fp 0)) by done.
  rewrite (ReadT_holds (mem env u) fp fp (le_bytes 8 next) (le_bytes 8 ra) psize true); [|done|done].
  cbn [mbind outcome_mbind negb]. rewrite of_le_le_bytes. change (8 * 8%nat) with 64. rewrite wrap_small by done.
  assert (Hh2 : holds (mem env u) (fp + 8) (le_bytes 8 ra ++ [])).
  { rewrite app_nil_r. apply holds_app_r in Hh. by rewrite length_le_bytes in Hh. }
  rewrite (ReadT_holds (mem env u) (fp + psize) pc (le_bytes 8 ra) [] psize false); [|done|done].
  cbn [mbind outcome_mbind negb]. rewrite of_le_le_bytes. change (8 * 8%nat) with 64. rewrite wrap_small by done.
  replace (negb (next =? 0) && (next <=? fp)) with false by (destruct Hup; [subst; done|]; symmetry; apply andb_false_iff; right; lia).
  rewrite SetReg_eq by (done || (cbn; lia)). cbn [mbind outcome_mbind].
  rewrite SetReg_eq by (rewrite ?length_insert; done || (cbn; lia)). done.
Qed.

(** The loop over the pcs that are still to come. *)
Fixpoint walk (max skip : nat) (reset : bool) (ps todo : list Z) : list Z :=
  let now := negb reset && negb (skip =? 0)%nat && (length ps =? skip)%nat in
  let ps := if now then [] else ps in
  if (max <=? length ps)%nat then ps
  else match todo with
       | [] => ps
       | [x] => ps ++ [x]
       | x :: todo' => walk max skip (reset || now) (ps ++ [x]) todo'
       end.

(** A pc that is not code of the two script engines. *)
Definition native_pc (r : ArkMapRange) (pc : Z) : Prop :=
  ¬ (staticArkMapStart r <= pc < staticArkMapEnd r) ∧ ¬ (arkMapStart r <= pc < arkMapEnd r).

Lemma ark_native (ark : bool) frame r idx u :
  (ark = true → native_pc r (f_pc frame)) → f_type frame = NATIVE_FRAME →
  (if ark then UnwindArkFrameByFp env c frame r idx u else Ret (1, frame, idx, u)) = Ret (1, frame, idx, u).
Proof.
  destruct ark; [|done]. intros Hn Ht. destruct (Hn eq_refl) as [H1 H2]. unfold UnwindArkFrameByFp. rewrite Ht.
  replace (_ && (f_pc frame <? staticArkMapEnd r)) with false by (symmetry; apply andb_false_iff; lia).
  by replace (_ && (f_pc frame <? arkMapEnd r)) with false by (symmetry; apply andb_false_iff; lia).
Qed.

Lemma fp_loop_walk (n max skip : nat) (ark : bool) r l : ∀ reset frame adj idx u fp pc sp,
  fp_chain (mem env u) fp l → length (regs_ u) = REG_LAST →
  regs_ u !! REG_PC = Some pc → regs_ u !! REG_SP = Some sp → regs_ u !! REG_FP = Some fp → f_isJs frame = false → f_type frame = NATIVE_FRAME →
  let pcs := (if adj : bool then DoPcAdjust pc else pc) :: map (λ x, DoPcAdjust (StripPac env x.2 (pacMask_ c))) l in
  (ark = true → Forall (native_pc r) pcs) → (length l < n)%nat →
  ∃ u', fp_loop env c n max skip ark r reset frame adj idx u = Ret u' ∧ pcs_ u' = walk max skip reset (pcs_ u) pcs.
Proof.
  revert n. induction l as [|[next ra] l IH]; intros n reset frame adj idx u fp pc sp Hc Hlen Hpc Hsp Hfp Hjs Hty pcs Hnat Hn; subst pcs;
    (destruct n as [|n]; [cbn [length] in Hn; lia|]); cbn [fp_loop walk].
  all: set (now := negb reset && _ && _); set (u1 := if now then _ else u);
    assert (E1 : pcs_ u1 = (if now then [] else pcs_ u) ∧ regs_ u1 = regs_ u ∧ mem env u1 = mem env u) by (unfold u1; by destruct now);
    clearbody u1; destruct E1 as (E1 & E2 & E3); rewrite E1.
  all: destruct (max <=? _)%nat; [eexists; split; [done|]; cbn [map]; by rewrite <- E1|].
  all: unfold GetPc, GetSp, GetFp; rewrite E2, (reg_at_lookup _ REG_PC _ Hpc), (reg_at_lookup _ REG_SP _ Hsp),
    (reg_at_lookup _ REG_FP _ Hfp); cbn [mbind outcome_mbind]; rewrite Hjs; cbn [negb andb Z.eqb];
    (rewrite ark_native; [|intros Ha; specialize (Hnat Ha); by inversion Hnat|done]);
    cbn [mbind outcome_mbind Z.eqb].
  - cbn [fp_chain] in Hc. subst fp. unfold FpStep. cbn [f_fp Z.eqb]. cbn [mbind outcome_mbind negb orb].
    eexists. split; [done|]. cbn [map]. done.
  - cbn [fp_chain] in Hc. destruct Hc as (H1 & H2 & H3 & H4 & H5 & H6 & H7). cbn [f_fp f_pc].
    set (u2 := set_frames _ _ u1).
    rewrite (FpStep_record fp _ next ra u2); [|done|done|done| |done|by rewrite <- E2 in Hlen].
    2:{ change (mem env u2) with (mem env u1). by rewrite E3. }
    cbn [mbind outcome_mbind negb orb]. rewrite (proj2 (Z.eqb_neq ra 0)) by done.
    change (regs_ u2) with (regs_ u1). rewrite E2.
    edestruct (IH n (reset || now) (mkStep ra sp next false (f_type frame)) true idx) as (u' & E & Ep); cycle -1.
    { exists u'. split; [exact E|]. rewrite Ep. cbn [map]. reflexivity. }
    all: cbn [set_regs regs_ mem].
    + change (mem env (set_regs _ u2)) with (mem env u1). by rewrite E3.
    + by rewrite !length_insert.
    + apply list_lookup_insert_eq. rewrite !length_insert, Hlen. cbn. lia.
    + rewrite list_lookup_insert_ne by (cbn; lia). apply list_lookup_insert_eq. rewrite !length_insert, Hlen. cbn. lia.
    + rewrite !list_lookup_insert_ne by (cbn; lia). apply list_lookup_insert_eq. rewrite Hlen. cbn. lia.
    + done.
    + done.
    + intros Ha. specialize (Hnat Ha). by inversion Hnat.
    + cbn [length] in Hn. lia.
Qed.

Lemma walk_reset (max skip : nat) todo : ∀ reset ps,
  reset = true ∨ skip = 0%nat → (length ps ≤ max)%nat → walk max skip reset ps todo = take max (ps ++ todo).
Proof.
  induction todo as [|x todo IH]; intros reset ps Hr Hl; cbn [walk];
    replace (negb reset && negb (skip =? 0)%nat) with false by (destruct Hr as [->| ->]; [done|by rewrite andb_false_r]); cbn [andb].
  - rewrite app_nil_r, take_ge by done. by destruct (max <=? length ps)%nat.
  - destruct (Nat.leb_spec max (length ps)) as [Hm|Hm].
    { rewrite take_app_le, take_ge by lia. done. }
    destruct todo as [|y todo].
    { rewrite take_ge; [done|]. rewrite length_app. cbn. lia. }
    rewrite orb_false_r, IH by (done || (rewrite length_app; cbn; lia)). by rewrite <- app_assoc.
Qed.

Lemma walk_visible (max skip : nat) todo : ∀ ps,
  todo ≠ [] → (length ps ≤ max)%nat → (length ps ≤ skip)%nat → walk max skip false ps todo = visible skip max (ps ++ todo).
Proof.
  destruct (Nat.eq_dec skip 0) as [->|E0].
  { intros ps _ Hm _. by rewrite walk_reset by auto. }
  induction todo as [|x todo IH]; intros ps Hne Hm Hs; [done|]. cbn [walk negb andb].
  rewrite (proj2 (Nat.eqb_neq skip 0)) by done. cbn [negb andb orb].
  destruct (Nat.eqb_spec (length ps) skip) as [El|El].
  - unfold visible. rewrite length_app; cbn [length].
    rewrite (proj2 (Nat.ltb_lt 0 skip)), (proj2 (Nat.leb_le skip max)), (proj2 (Nat.ltb_lt skip _)) by lia. cbn [andb].
    rewrite <- El, drop_app_length, (proj2 (Nat.leb_gt max 0)) by lia.
    destruct todo as [|y todo]; [by rewrite take_ge by (cbn; lia)|].
    by rewrite walk_reset by (auto || (cbn; lia)).
  - destruct (Nat.leb_spec max (length ps)) as [Hx|Hx].
    { unfold visible. rewrite (proj2 (Nat.leb_gt skip max)) by lia. rewrite andb_false_r. cbn [andb].
      by rewrite take_app_le, take_ge by lia. }
    destruct todo as [|y todo].
    { unfold visible. rewrite length_app; cbn [length]. rewrite (proj2 (Nat.ltb_ge skip _)), andb_false_r by lia.
      by rewrite take_ge by (rewrite length_app; cbn; lia). }
    rewrite IH by (done || (rewrite length_app; cbn; lia)). by rewrite <- app_assoc.
Qed.

(** C13. Unwinding a stack of frame records by frame pointers returns its pcs, innermost first: the
    current pc, and for each return address, stripped of its authentication code, the call before
    it, cut to the requested number. The first [skip] of them are dropped when they are no more
    than the requested number and fewer than the frames; otherwise none is. As many rounds as
    there are frames are enough. With [enableArk], no pc lies in the code of a script engine. *)
Theorem UnwindByFp_walks (n max skip : nat) (enableArk : bool) l u fp pc sp :
  fp_chain (mem env u) fp l → length (regs_ u) = REG_LAST →
  regs_ u !! REG_PC = Some pc → regs_ u !! REG_SP = Some sp → regs_ u !! REG_FP = Some fp → (length l < n)%nat →
  (enableArk = true → Forall (native_pc (ark_ranges env true u)) (stack_pcs pc l)) →
  ∃ u', UnwindByFp env c n max skip enableArk u = Ret ((0 <? max)%nat, u') ∧ pcs_ u' = visible skip max (stack_pcs pc l).
Proof.
  intros Hc Hl Hpc Hsp Hfp Hn Hnat. unfold UnwindByFp.
  destruct (fp_loop_walk n max skip enableArk (ark_ranges env enableArk (set_frames [] (frames_ u) u)) l false StepFrame_default false 0
              (set_frames [] (frames_ u) u) fp pc sp) as (u' & E & Ep); [done..|by intros -> ; apply Hnat|done|].
  rewrite E. cbn [mbind outcome_mbind]. cbn [pcs_ set_frames] in Ep.
  rewrite walk_visible in Ep by (done || (cbn; lia)). exists u'. split; [|done]. rewrite Ep. do 2 f_equal.
  unfold visible. change ([] ++ pc :: map _ l) with (stack_pcs pc l).
  assert (Hne : stack_pcs pc l ≠ []) by done. set (s := stack_pcs pc l) in *. clearbody s.
  destruct (Nat.ltb_spec 0 max).
  - apply Nat.ltb_lt. destruct ((0 <? skip)%nat && _ && _) eqn:Eb; rewrite length_take.
    + rewrite length_drop. apply andb_true_iff in Eb as [_ Eb%Nat.ltb_lt]. lia.
    + destruct s; [done|]. cbn. lia.
  - replace max with 0%nat by lia. rewrite !take_0. by destruct ((0 <? skip)%nat && _ && _).
Qed.
End FramePointers.

(** Two frame records at 0x8000, code addresses signed in their upper bits. *)
Definition example_records : list (Z * Z) := [(0x8010, 0x3f000000005004); (0, 0x6008)].
Definition example_record_bytes : list Z := concat (map (λ x, le_bytes 8 x.1 ++ le_bytes 8 x.2) example_records).
Definition example_env (m : DfxMemory) : unw_env :=
  mkEnv (λ _ _, m) (λ a, Z.land a (2 ^ 48 - 1)) (λ _ _, (UNW_ERROR_INVALID_ELF, mkUti 0 0 0 0 false 0 0 0 0))
    (λ _, (UNW_ERROR_INVALID_ELF, mkUti 0 0 0 0 false 0 0 0 0))
    (λ fp sp pc isJs t _, mkJs (-1) fp sp pc isJs t) (λ fp sp pc isJs t _, mkJs (-1) fp sp pc isJs t)
    (λ fp sp pc isJs, mkJs (-1) fp sp pc isJs NATIVE_FRAME) None.
Definition example_config (pid : Z) : unw_config := mkConfig true true false false false false false false pid 0 0 0.
Definition example_unwinder (m : DfxMemory) (regs : list Z) : unwinder DwarfEntryParser :=
  mkUnw false false true ∅ regs [] [] (0, 0) (mkParser m (0, 0) ∅ ∅) false None (mkUti 0 0 0 0 false 0 0 0 0)
    (Some DfxMaps_new) 0.
Definition example_regs (pc sp fp lr : Z) : list Z := SetSpecialRegs (A := Arm64) (new_regs (A := Arm64)) fp lr sp pc.

Lemma UnwindByFp_walks_witness :
  ∃ u', UnwindByFp (example_env (list_mem 0x8000 example_record_bytes)) (example_config UNWIND_TYPE_LOCAL) 3 10 1 true
          (example_unwinder (list_mem 0x8000 example_record_bytes) (example_regs 0x4000 0x7ff0 0x8000 0)) = Ret (true, u') ∧
    pcs_ u' = [0x5000; 0x6004].
Proof.
  apply (UnwindByFp_walks (example_env (list_mem 0x8000 example_record_bytes)) (example_config UNWIND_TYPE_LOCAL) 3 10 1 true
           example_records _ 0x8000 0x4000 0x7ff0); try reflexivity; [|cbn; lia|].
  2: { intros _. repeat constructor; cbn; lia. }
  assert (H : holds (list_mem 0x8000 example_record_bytes) 0x8000 example_record_bytes) by solve_holds.
  split; [done|]. split; [done|]. split; [split; vm_compute; done|]. split; [split; vm_compute; done|].
  split; [exact (holds_app_l _ _ (le_bytes 8 0x8010 ++ le_bytes 8 0x3f000000005004) (le_bytes 8 0 ++ le_bytes 8 0x6008) H)|]. split; [right; lia|].
  split; [done|]. split; [done|]. split; [split; vm_compute; done|]. split; [split; vm_compute; done|].
  split; [|split; [by left|done]].
  apply (holds_app_r _ _ (le_bytes 8 0x8010 ++ le_bytes 8 0x3f000000005004)) in H. exact H.
Defined.

(** ** What a round changes *)
Section Rounds.
Context {P : Type} {EP : EntryParser P}.
Context (env : unw_env) (c : unw_config) (qut : list nat) (fuel : nat).
Implicit Types u : unwinder P.

(** The part of the state that drives the loops. *)
Definition core u := (isFpStep_ u, isResetFrames_ u, pcs_ u, frames_ u).

Ltac branch := repeat (run_inv; match goal with
  | H : (match ?x with _ => _ end) = Ret _ |- _ => destruct x eqn:?
  end); run_inv.

Lemma SetLocalStackCheck_core ctx b u : core (SetLocalStackCheck c ctx b u) = core u.
Proof. unfold SetLocalStackCheck. by case_match. Qed.

Lemma UpdateCache_core pc has rs map u : core (UpdateCache c pc has rs map u) = core u.
Proof. unfold UpdateCache. by repeat case_match. Qed.

Lemma GetMapByPc_core pc u r map u' : GetMapByPc pc u = Ret (r, map, u') → core u' = core u.
Proof. unfold GetMapByPc, GetMapByPcAndCtx. intros H. by branch. Qed.

Lemma StepArkJsFrame_core frame i u ok frame' u' : StepArkJsFrame env c frame i u = Ret (ok, frame', u') → core u' = core u.
Proof. unfold StepArkJsFrame. intros H. by branch. Qed.

Lemma StepV8Frame_core frame map u a b frame' u' : StepV8Frame env c frame map u = Ret (a, b, frame', u') → core u' = core u.
Proof. unfold StepV8Frame. intros H. by branch. Qed.

Lemma UnwindArkFrame_core frame map u a b frame' u' :
  UnwindArkFrame env c frame map u = Ret (a, b, frame', u') → core u' = core u.
Proof.
  unfold UnwindArkFrame. intros H. branch; try done;
  match goal with E : StepArkJsFrame _ _ _ _ _ = _ |- _ => apply StepArkJsFrame_core in E end; try done.
  all: etrans; [|etrans; [exact E|by destruct (IsStaticArkExecutable d)]]; done.
Qed.

Lemma ParseUnwindTable_core pc u ok rs u' : ParseUnwindTable env c qut fuel pc u = Ret (ok, rs, u') → core u' = core u.
Proof.
  unfold ParseUnwindTable, FindUnwindTable. intros H.
  destruct (pid_ c =? UNWIND_TYPE_LOCAL), (the_map u (ctx_map u)) as [m|]; try destruct (IsVdsoMap m);
    try destruct ((_ <=? _) && _); try (destruct (fst _ =? _)); by branch.
Qed.

Lemma FpStep_core fp pc u ok a b u' : FpStep env c fp pc u = Ret (ok, a, b, u') → core u' = core u.
Proof. unfold FpStep. intros H. by branch. Qed.

Lemma StepToNextFpIfNeed_core u u' : StepToNextFpIfNeed env u = Ret u' → core u' = core u.
Proof. unfold StepToNextFpIfNeed. intros H. by branch. Qed.

Lemma Impl_Apply_core rs u ok u' : Impl_Apply env c qut fuel rs u = Ret (ok, u') → core u' = core u.
Proof. unfold Impl_Apply. intros H. branch; by repeat case_match. Qed.

Definition pushes u u' : Prop :=
  ∃ d, d_index d = length (frames_ u) ∧ core u' = (isFpStep_ u, isResetFrames_ u, pcs_ u ++ [d_pc d], frames_ u ++ [d]).
(** The core up to [isFpStep_], which only rises. *)
Definition core_le u u' : Prop :=
  (isFpStep_ u = true → isFpStep_ u' = true) ∧
  isResetFrames_ u' = isResetFrames_ u ∧ pcs_ u' = pcs_ u ∧ frames_ u' = frames_ u.

Lemma core_eq_le u u' : core u' = core u → core_le u u'.
Proof. unfold core, core_le. intros [= -> -> -> ->]. done. Qed.

Lemma AddFrame_pushes frame map u : ignoreMixstack_ c = false → pushes u (AddFrame c frame map u).
Proof. intros H. unfold AddFrame. rewrite H. cbn [andb]. set (d := mkFrame _ _ _ _ _ _ _). by exists d. Qed.

Lemma pushes_core_l u u1 u' : core u1 = core u → pushes u1 u' → pushes u u'.
Proof. unfold pushes, core. intros [= E1 E2 E3 E4] (d & Hd & H). exists d. rewrite E1, E2, E3, E4 in *. done. Qed.
Lemma pushes_core_r u u1 u' : pushes u u1 → core u' = core u1 → pushes u u'.
Proof. unfold pushes. intros (d & Hd & H) E. exists d. by rewrite E. Qed.

Lemma AddFrameMap_core frame u ok map u' :
  ignoreMixstack_ c = false → AddFrameMap c frame u = Ret (ok, map, u') →
  (if ok : bool then pushes u u' else core u' = core u ∧ (2 < length (frames_ u))%nat).
Proof.
  intros Hi H. unfold AddFrameMap in H. run_inv. pose proof (GetMapByPc_core _ _ _ _ _ E) as Ec.
  destruct (negb _ && _) eqn:Eb; run_inv.
  - split; [done|]. apply andb_true_iff in Eb as [_ Eb%Nat.ltb_lt]. injection Ec as _ _ _ Ef. by rewrite <- Ef.
  - eapply pushes_core_l; [done|]. by apply AddFrame_pushes.
Qed.

Lemma step_lookup_core isSig frame u e u' :
  ignoreMixstack_ c = false → step_lookup env c qut fuel isSig frame u = Ret (e, u') →
  pushes u u' ∨
  core u' = core u ∧ (2 < length (frames_ u))%nat ∧
    match e with StepReturn res _ => res = false | StepBreak has _ _ _ => has = false ∧ isFpStep_ u = false end.
Proof.
  intros Hi H. unfold step_lookup in H. destruct (FindCache _ _ _) as [[map rs]|]; run_inv.
  { left. by apply AddFrame_pushes. }
  pose proof (AddFrameMap_core _ _ _ _ _ Hi E) as Ea. destruct b; cbn [negb] in H.
  - left. branch; try done.
    all: repeat match goal with
      | E : StepV8Frame _ _ _ _ _ = _ |- _ => apply StepV8Frame_core in E
      | E : UnwindArkFrame _ _ _ _ _ = _ |- _ => apply UnwindArkFrame_core in E
      | E : ParseUnwindTable _ _ _ _ _ _ = _ |- _ => apply ParseUnwindTable_core in E
      end; (eapply pushes_core_r; [eassumption|]); rewrite ?UpdateCache_core; congruence.
  - right. destruct Ea as [Ec Hl]. pose proof Ec as Ef. injection Ef as Ef _ _ _.
    unfold GetCrashLastFrame in H. destruct (isCrash_ c && _) eqn:Eb; [|by run_inv].
    apply andb_true_iff in Eb as [_ Eb%negb_true_iff]. destruct (list.last _); run_inv; [|done]. by rewrite <- Ef.
Qed.

Lemma UpdateRegsState_core ctx frame (has : bool) rs u ok frame' u' :
  UpdateRegsState env c qut fuel ctx frame has rs u = Ret (ok, frame', u') →
  core_le u u' ∧ (has = false → ok = true → length (frames_ u) ≠ 1%nat → isFpStep_ u' = true).
Proof.
  unfold UpdateRegsState. intros H. apply bind_Ret in H as ([b u1] & E & H).
  assert (E1 : core u1 = core u ∧ (has = false → length (frames_ u) ≠ 1%nat → b = false)).
  { rewrite <- (SetLocalStackCheck_core ctx true u).
    pose proof (SetLocalStackCheck_core ctx true u) as Hf. injection Hf as _ _ _ Hf.
    destruct has.
    - split; [|done]. branch; try (match goal with E : Impl_Apply _ _ _ _ _ _ = _ |- _ => apply Impl_Apply_core in E end); done.
    - destruct (_ && negb _) eqn:Eb; run_inv.
      + split; [|intros _ Hl; rewrite Hf, (proj2 (Nat.eqb_neq _ _) Hl), andb_false_r in Eb; done].
        branch; try done; by apply StepToNextFpIfNeed_core in E1.
      + done. }
  destruct E1 as [E1 Hb]. run_inv. clear E. set (u2 := set_regs _ u1) in *. assert (E2' : core u2 = core u) by done.
  clearbody u2. destruct b; run_inv.
  - split; [by apply core_eq_le|]. intros Hh _ Hl. by specialize (Hb Hh Hl).
  - match goal with H : FpStep _ _ _ _ _ = _ |- _ => apply FpStep_core in H; rewrite E2' in H; rename H into Hc end.
    destruct ok; cbn [andb]; [|split; [by apply core_eq_le|done]].
    destruct (isFpStep_ u0) eqn:Ef; cbn [negb]; (split; [|done]); [by apply core_eq_le|].
    apply core_eq_le in Hc. split; [done|]. apply Hc.
Qed.

Definition grows u u' : Prop :=
  ∃ d, d_index d = length (frames_ u) ∧ (isFpStep_ u = true → isFpStep_ u' = true) ∧ isResetFrames_ u' = isResetFrames_ u ∧
    pcs_ u' = pcs_ u ++ [d_pc d] ∧ frames_ u' = frames_ u ++ [d].

(** What a step does to the frames: it adds one, or it is the crash step, which turns to the frame
    pointers for good, or it fails. *)
Definition progress (ok : bool) u u' : Prop :=
  grows u u' ∨ core_le u u' ∧ (ok = true → isFpStep_ u = false ∧ isFpStep_ u' = true).

Lemma pushes_le u u1 u' : pushes u u1 → core_le u1 u' → grows u u'.
Proof.
  unfold pushes, core_le, core. intros (d & Hd & [= E1 E2 E3 E4]) (F1 & F2 & F3 & F4). exists d.
  rewrite F2, F3, F4, E2, E3, E4. rewrite E1 in F1. done.
Qed.

Lemma CheckFrameValid_core frame map sp u ok u' : CheckFrameValid frame map sp u = (ok, u') → core u' = core u.
Proof. unfold CheckFrameValid. repeat case_match; by intros [= <- <-]. Qed.

Lemma core_le_trans u u1 u2 : core_le u u1 → core u2 = core u1 → core_le u u2.
Proof. unfold core_le, core. intros (F1 & F2 & F3 & F4) [= E1 E2 E3 E4]. rewrite E1, E2, E3, E4. done. Qed.

Lemma StepInner_progress isSig frame u ok frame' u' :
  ignoreMixstack_ c = false → StepInner env c qut fuel true isSig frame u = Ret (ok, frame', u') → progress ok u u'.
Proof.
  intros Hi H. unfold StepInner in H. cbn [negb] in H. apply bind_Ret in H as ([e u1] & E & H).
  pose proof (SetLocalStackCheck_core true false u) as E0. set (u0 := SetLocalStackCheck c true false u) in *. clearbody u0.
  apply step_lookup_core in E; [|done].
  assert (E' : pushes u u1 ∨ core u1 = core u ∧ (2 < length (frames_ u))%nat ∧
    match e with StepReturn res _ => res = false | StepBreak has _ _ _ => has = false ∧ isFpStep_ u = false end).
  { destruct E as [E|E]; [left; by eapply pushes_core_l|right]. rewrite E0 in E. unfold core in E0. injection E0 as F1 F2 F3 F4.
    by rewrite <- F4, <- F1. }
  clear E E0 u0. destruct e as [res f|has rs map f]; run_inv.
  { destruct E' as [E'|(E' & _ & ->)]; [left|right].
    - eapply pushes_le; [done|]. by apply core_eq_le.
    - split; [by apply core_eq_le|done]. }
  apply UpdateRegsState_core in E as [Hle Hfp]. destruct (CheckFrameValid _ _ _ _) as [v u2] eqn:Ev. run_inv.
  pose proof (CheckFrameValid_core _ _ _ _ _ _ Ev) as Ec.
  destruct E' as [E'|(E' & Hl & -> & Hf)]; [left|right].
  - eapply pushes_le; [done|]. by eapply core_le_trans.
  - split. { eapply core_le_trans; [|exact Ec]. unfold core_le, core in *. injection E' as F1 F2 F3 F4. by rewrite <- F1, <- F2, <- F3, <- F4. }
    intros [_ ->]%andb_true_iff. split; [done|]. injection Ec as F _ _ _. rewrite F. apply Hfp; [done|done|].
    injection E' as _ _ _ F4. rewrite F4. lia.
Qed.

(** ** The loop of [Unwind] *)

(** The target is this process. *)
Definition local_target : Prop := pid_ c = UNWIND_TYPE_LOCAL ∨ pid_ c = UNWIND_TYPE_CUSTOMIZE_LOCAL.

Lemma UnwindFrame_progress frame adj u go frame' adj' u' :
  local_target → ignoreMixstack_ c = false → UnwindFrame env c qut fuel true frame adj u = Ret (go, frame', adj', u') →
  progress go u u'.
Proof.
  intros Hloc Hi H. unfold UnwindFrame in H.
  replace (negb (pid_ c =? UNWIND_TYPE_LOCAL) && _) with false in H by (by destruct Hloc as [-> | ->]).
  run_inv. cbn [mbind outcome_mbind] in *. run_inv.
  match goal with E : StepInner _ _ _ _ _ _ _ _ = _ |- _ => apply StepInner_progress in E; [|done]; rename E into Hp end.
  change (progress b u u0) in Hp. destruct b; cbn [negb] in *; [destruct (_ && _ && _)|]; run_inv; try done.
  destruct Hp as [Hp|[Hp _]]; [by left|right]. by split.
Qed.

(** The frames are numbered from 0, and the last pcs are theirs; the pcs of skipped frames stay. *)
Definition numbered u : Prop :=
  (∀ i d, frames_ u !! i = Some d → d_index d = i) ∧
  ∃ pre, pcs_ u = pre ++ map d_pc (frames_ u) ∧ (isResetFrames_ u = false → pre = []).

Lemma grows_numbered u u' : grows u u' → numbered u → numbered u'.
Proof.
  intros (d & Hd & _ & Hr & Hp & Hf) [Hn (pre & Hpre & Hnil)]. split.
  - intros i d' Hi. rewrite Hf in Hi. apply lookup_app_Some in Hi as [Hi|[Hl Hi]]; [by apply Hn|].
    apply list_lookup_singleton_Some in Hi as [Hi <-]. lia.
  - exists pre. rewrite Hp, Hpre, Hf, Hr, map_app, <- app_assoc. done.
Qed.

Lemma core_le_numbered u u' : core_le u u' → numbered u → numbered u'.
Proof. unfold numbered. intros (_ & -> & -> & ->) H. done. Qed.

(** Rounds that are left: a frame each, and one for the turn to frame pointers. *)
Definition potential (max skip : nat) u : nat :=
  (if isResetFrames_ u || (skip =? 0)%nat then max - length (frames_ u) else skip - length (frames_ u) + max)
  + if isFpStep_ u then 0 else 1.

(** The state in which round [k] of the loop is entered, when the rounds before it all went on. *)
Fixpoint round_state (max skip k : nat) frame adj u : option (StepFrame * bool * unwinder P) :=
  let u := if negb (isResetFrames_ u) && negb (skip =? 0)%nat && (skip <=? length (frames_ u))%nat
           then set_frames (pcs_ u) [] (set_reset true u) else u in
  if (max <=? length (frames_ u))%nat then None
  else
    match k with
    | O => Some (frame, adj, u)
    | S k' =>
        match UnwindFrame env c qut fuel true frame adj u with
        | Ret (true, frame, adj, u) => round_state max skip k' frame adj u
        | _ => None
        end
    end.

(** A round that is entered within [b] rounds has no result, but the outcome [r]. *)
Definition round_without_result (max skip b : nat) frame adj u (r : outcome (bool * StepFrame * bool * unwinder P)) : Prop :=
  ∃ k f a v, (k < b)%nat ∧ round_state max skip k frame adj u = Some (f, a, v) ∧ UnwindFrame env c qut fuel true f a v = r.

Lemma unwind_loop_bound (n max skip : nat) : ∀ frame adj u,
  local_target → ignoreMixstack_ c = false → numbered u → (length (frames_ u) ≤ max)%nat → (potential max skip u < n)%nat →
  match unwind_loop env c qut fuel n true max skip frame adj u with
  | Ret u' => numbered u' ∧ (length (frames_ u') ≤ max)%nat
  | Undef w => round_without_result max skip (S (potential max skip u)) frame adj u (Undef w)
  | OutOfFuel => round_without_result max skip (S (potential max skip u)) frame adj u OutOfFuel
  end.
Proof.
  induction n as [|n IH]; intros frame adj u Hloc Hi Hn Hl Hp; [lia|]. cbn [unwind_loop].
  set (now := negb (isResetFrames_ u) && _ && _). set (u1 := if now then _ else u).
  assert (Hst : ∀ k, round_state max skip k frame adj u =
    if (max <=? length (frames_ u1))%nat then None else
    match k with
    | O => Some (frame, adj, u1)
    | S k' => match UnwindFrame env c qut fuel true frame adj u1 with
              | Ret (true, frame, adj, u) => round_state max skip k' frame adj u | _ => None end
    end) by (by intros []).
  assert (H1 : numbered u1 ∧ (length (frames_ u1) ≤ max)%nat ∧ (potential max skip u1 ≤ potential max skip u)%nat ∧
    (isResetFrames_ u1 || (skip =? 0)%nat = false → (length (frames_ u1) < skip)%nat)).
  { unfold u1, now. destruct (isResetFrames_ u) eqn:Er; cbn [negb andb]; [by rewrite Er|].
    destruct (Nat.eqb_spec skip 0) as [E0|E0]; cbn [negb andb]; [by rewrite Er|].
    destruct (Nat.leb_spec skip (length (frames_ u))) as [Hs|Hs]; [|by rewrite Er].
    split; [|split; [cbn; lia|split; [|done]]].
    - split; [done|]. exists (pcs_ u). split; [cbn; by rewrite app_nil_r|done].
    - unfold potential. cbn. rewrite Er, (proj2 (Nat.eqb_neq _ _) E0). cbn [orb]. destruct (isFpStep_ u); lia. }
  clearbody u1. clear now Hn Hl. destruct H1 as (Hn & Hl & Hp1 & Hskip).
  destruct (Nat.leb_spec max (length (frames_ u1))) as [Hm|Hm]; [done|].
  destruct (UnwindFrame env c qut fuel true frame adj u1) as [[[[go f] a] u2]|w|] eqn:E; cbn [mbind outcome_mbind].
  2, 3: exists 0%nat, frame, adj, u1; rewrite (Hst 0%nat); (split; [lia|done]).
  apply UnwindFrame_progress in E; [|done|done].
  assert (H2 : numbered u2 ∧ (length (frames_ u2) ≤ max)%nat ∧ (go = true → potential max skip u2 < potential max skip u1)%nat).
  { destruct E as [Hg|[Hc Hfp]].
    - split; [by eapply grows_numbered|]. destruct Hg as (d & _ & Hf & Hr & _ & Hfr). unfold potential.
      rewrite Hfr, Hr, length_app. cbn [length]. split; [lia|]. intros _.
      destruct (_ || _); [|specialize (Hskip eq_refl)]; destruct (isFpStep_ u1), (isFpStep_ u2); (done || lia || (by specialize (Hf eq_refl))).
    - split; [by eapply core_le_numbered|]. unfold potential. destruct Hc as (Hf & Hr & _ & Hfr). rewrite Hfr, Hr.
      split; [lia|]. intros Hgo. destruct (Hfp Hgo) as [F1 F2]. rewrite F1, F2. destruct (_ || _); lia. }
  destruct H2 as (Hn2 & Hl2 & Hp2). destruct go; [|done].
  assert (Hnext : ∀ r, round_without_result max skip (S (potential max skip u2)) f a u2 r →
    round_without_result max skip (S (potential max skip u)) frame adj u r).
  { intros r (k & f' & a' & v & Hk & Hs & Hr). exists (S k), f', a', v. rewrite (Hst (S k)). specialize (Hp2 eq_refl). split; [lia|done]. }
  specialize (IH f a u2 Hloc Hi Hn2 Hl2 ltac:(specialize (Hp2 eq_refl); lia)). destruct (unwind_loop _ _ _ _ n _ _ _ _ _ _); auto.
Qed.

(** The state [Unwind] starts its loop in. *)
Definition unwind_start u : unwinder P := set_reset false (Clear (SetLocalStackCheck c true false u)).

(** What [Unwind] owes its client: at most the requested number of frames, numbered from 0, with
    their pcs, and success if it has a frame; a run without a result is one that enters, within
    the bound, a single round without a result, and has the outcome of that round. *)
Definition unwound (max skip : nat) u (r : outcome (bool * unwinder P)) : Prop :=
  let failing := round_without_result max skip (skip + max + 2) StepFrame_default false (unwind_start u) in
  match r with
  | Ret (ok, u') => (length (frames_ u') ≤ max)%nat ∧ (ok = true ↔ frames_ u' ≠ []) ∧ numbered u'
  | Undef w => failing (Undef w)
  | OutOfFuel => failing OutOfFuel
  end.

(** C14. The loop of [Unwind] ends for a thread of this process ([ignoreMixstack_] not set):
    [skipFrameNum + maxFrameNum + 2] rounds are enough, whatever the maps, tables, caches and
    stacks hold. A run without a result enters, within that many rounds, a round that itself has
    none (it evaluates an expression that does not end, or its behaviour is undefined). A result
    has at most the requested number of frames, numbered from 0, with their pcs, and is a success
    exactly if it has a frame. *)
Theorem Unwind_terminates (n max skip : nat) u :
  local_target → ignoreMixstack_ c = false → (skip + max + 1 < n)%nat →
  unwound max skip u (Unwind env c qut fuel n true max skip u).
Proof.
  intros Hloc Hi Hn. unfold unwound, Unwind. cbn [negb]. fold (unwind_start u).
  assert (Hpot : (potential max skip (unwind_start u) ≤ skip + max + 1)%nat) by (unfold potential; cbn; destruct skip; cbn; lia).
  pose proof (unwind_loop_bound n max skip StepFrame_default false (unwind_start u) Hloc Hi) as H.
  assert (Hw : ∀ r, round_without_result max skip (S (potential max skip (unwind_start u))) StepFrame_default false (unwind_start u) r →
    round_without_result max skip (skip + max + 2) StepFrame_default false (unwind_start u) r).
  { intros r (k & f & a & v & Hk & ?). exists k, f, a, v. split; [lia|done]. }
  specialize (H ltac:(split; [done|by exists []]) ltac:(cbn; lia) ltac:(lia)).
  destruct (unwind_loop _ _ _ _ _ _ _ _ _ _ _) as [u'| |]; cbn [mbind outcome_mbind]; [|by apply Hw..].
  destruct H as [Hnum Hl]. split; [done|]. split; [|done]. rewrite Nat.ltb_lt. destruct (frames_ u'); cbn; split; (done || lia).
Qed.
End Rounds.

Definition example_unwind (pid : Z) (m : DfxMemory) (n max skip : nat) (regs : list Z) :=
  Unwind (EP := Dwarf_EntryParser Arm64 []) (example_env m) (example_config pid) [] 0 n true max skip
    (example_unwinder (mkMemory None false 0 0 0) regs).

Definition summary {P} (r : outcome (bool * unwinder P)) : list Z * list nat :=
  match r with Ret (_, u) => (map d_pc (frames_ u), map d_index (frames_ u)) | _ => ([], []) end.

Lemma Unwind_terminates_witness :
  let m := list_mem 0x8000 example_record_bytes in
  let r := example_unwind UNWIND_TYPE_LOCAL m 20 10 1 (example_regs 0x4000 0x7ff0 0x8000 0x5004) in
  unwound (EP := Dwarf_EntryParser Arm64 []) (example_env m) (example_config UNWIND_TYPE_LOCAL) [] 0 10 1
    (example_unwinder (mkMemory None false 0 0 0) (example_regs 0x4000 0x7ff0 0x8000 0x5004)) r ∧
  summary r = ([0x5000; 0x5000; 0x6004], [0; 1; 2]%nat).
Proof.
  intros m r. split; [|vm_compute; reflexivity].
  apply (Unwind_terminates (EP := Dwarf_EntryParser Arm64 []) (example_env m) (example_config UNWIND_TYPE_LOCAL) [] 0 20 10 1);
    [left; reflexivity|reflexivity|lia].
Defined.

(** ** A signal frame that is reached again

    For a target of another process the result of the step at a signal frame is not looked at: with
    the sigreturn code at the pc, the same registers in its signal frame and no map for the pc, the
    loop does not end. *)
Section Livelock.
Context {P : Type} {EP : EntryParser P}.
Context (env : unw_env) (c : unw_config) (qut : list nat) (fuel : nat).

(** The state after [k] rounds that all went on. *)
Fixpoint rounds (max k : nat) frame adj (u : unwinder P) : option (StepFrame * bool * unwinder P) :=
  match k with
  | O => Some (frame, adj, u)
  | S k' => if (max <=? length (frames_ u))%nat then None
            else match UnwindFrame env c qut fuel true frame adj u with
                 | Ret (true, frame, adj, u) => rounds max k' frame adj u
                 | _ => None
                 end
  end.

Lemma unwind_loop_stuck (max n : nat) frame adj (u : unwinder P) :
  rounds max 1 frame adj u = Some (frame, adj, u) → unwind_loop env c qut fuel n true max 0 frame adj u = OutOfFuel.
Proof.
  intros H. induction n as [|n IH]; cbn [unwind_loop rounds] in *; rewrite andb_false_r; cbn [andb];
    destruct (max <=? _)%nat; try done.
  destruct (UnwindFrame _ _ _ _ _ _ _ _) as [[[[[] f] a] u']| |]; try done. cbn [mbind outcome_mbind]. by injection H as -> -> ->.
Qed.

Lemma unwind_loop_rounds (max k : nat) f' a' (u' : unwinder P) : ∀ n frame adj (u : unwinder P),
  rounds max k frame adj u = Some (f', a', u') → (∀ n, unwind_loop env c qut fuel n true max 0 f' a' u' = OutOfFuel) →
  unwind_loop env c qut fuel n true max 0 frame adj u = OutOfFuel.
Proof.
  induction k as [|k IH]; intros n frame adj u H Hs; cbn [rounds] in H; [by injection H as -> -> ->|].
  destruct (max <=? _)%nat eqn:Em; [done|]. destruct (UnwindFrame _ _ _ _ _ _ _ _) as [[[[[] f] a] u1]| |] eqn:E; try done.
  destruct n as [|n]; cbn [unwind_loop]; rewrite andb_false_r; cbn [andb]; rewrite Em; [done|]. rewrite E. by apply IH.
Qed.
End Livelock.

Definition signal_pc : Z := 0x4000.
Definition signal_sp : Z := 0x8000.
Definition signal_regs : list Z := example_regs signal_pc signal_sp 0x9000 0x5004.
Definition signal_memory : DfxMemory :=
  mkMemory (Some (λ a, if a =? signal_pc then Some 0xd4000001d2801168
                       else signal_regs !! Z.to_nat ((a - (signal_sp + 128 + 0xb0 + 8)) / 8))) false 0 0 0.
Definition signal_rounds (k : nat) :=
  rounds (EP := Dwarf_EntryParser Arm64 []) (example_env signal_memory) (example_config 4242) [] 0 256 k StepFrame_default false
    (set_reset false (Clear (example_unwinder (mkMemory None false 0 0 0) signal_regs))).

Theorem Unwind_signal_livelock n : example_unwind 4242 signal_memory n 256 0 signal_regs = OutOfFuel.
Proof.
  assert (Hs : bool_decide (is_Some (signal_rounds 4)) = true) by (vm_compute; reflexivity).
  destruct (signal_rounds 4) as [[[f a] u]|] eqn:E; [|discriminate Hs].
  assert (H : signal_rounds 4 ≫= (λ s, rounds (EP := Dwarf_EntryParser Arm64 []) (example_env signal_memory) (example_config 4242) [] 0
    256 1 s.1.1 s.1.2 s.2) = signal_rounds 4) by (vm_compute; reflexivity).
  rewrite E in H. unfold example_unwind, Unwind. cbn [negb].
  rewrite (unwind_loop_rounds _ _ _ _ 256 4 f a u n); [done|exact E|]. intros k. by apply unwind_loop_stuck.
Qed.
