(* ===== verification/Allocator.v ===== *)
(** * The allocator of the crash dumper

    frameworks/allocator/dfx_allocator.c, an independent allocator that serves the process while its
    own heap cannot be trusted: seven pools of blocks of 16 to 1024 bytes, cut from pages that carry
    their header, and mappings of their own for larger requests.

    Memory is a finite map from the addresses of 8-byte words to their values: what is not mapped
    is not in it, and an access to it is undefined.  Headers, free lists and the data of clients
    all live in this memory.  The kernel's [mmap] is an argument; it may fail.  Proved here: the
    allocator implements an abstract heap of disjoint chunks ([heap_refines]), for every sequence of
    operations of a client that uses only chunks it owns. *)
From S2P Require Import Prelude.

Definition ALIGN_SIZE : Z := 16.
Definition DFX_PAGE_SIZE : Z := 4096.
Definition DFX_PAGE_MASK : Z := u64 (Z.lnot (DFX_PAGE_SIZE - 1)).
Definition DFX_MEMPOOL_MIN_TYPE : Z := 4.
Definition DFX_MEMPOOL_MAX_TYPE : Z := 10.
Definition DFX_MEMPOOL_MAX_BLOCK_SIZE : Z := 1024.
Definition DFX_MMAP_TYPE : Z := 111.
Definition DFX_MEMPOOLS_NUM : nat := 7.
(** The four characters 'D', 'F', 'X', 1 as a little-endian word. *)
Definition DFX_MEM_PAGE_SIGN : Z := 0x01584644.

(** The layout of [PageInfo] (48 bytes: the tag and the type share a word) and of [BlockInfo]. *)
Definition sizeof_PageInfo : Z := 48.
Definition PAGE_INFO_SIZE : Z := Z.land (sizeof_PageInfo + ALIGN_SIZE - 1) (u64 (Z.lnot (ALIGN_SIZE - 1))).
Definition o_tag : Z := 0.
Definition o_alloc_size : Z := 8.
Definition o_prev : Z := 16.
Definition o_next : Z := 24.
Definition o_freeBlockList : Z := 32.
Definition o_freeBlocksCnt : Z := 40.
Definition b_next : Z := 0.
Definition b_freeBlocksCnt : Z := 8.

Record DfxMempool := mkMempool { mp_type : Z; blockSize : Z; blocksPerPage : Z; freePagesCnt : Z; mp_pageList : Z }.

(** The allocator [g_dfxAllocator] and the memory of the process. *)
Record heap := mkHeap { h_mem : gmap Z Z; initFlag : Z; g_pageList : Z; dfxMempoolBuf : list DfxMempool }.

Definition set_mem (m : gmap Z Z) (h : heap) : heap := mkHeap m (initFlag h) (g_pageList h) (dfxMempoolBuf h).
Definition set_g_pageList (p : Z) (h : heap) : heap := mkHeap (h_mem h) (initFlag h) p (dfxMempoolBuf h).
Definition set_freePagesCnt (n : Z) (mp : DfxMempool) : DfxMempool :=
  mkMempool (mp_type mp) (blockSize mp) (blocksPerPage mp) n (mp_pageList mp).
Definition set_mp_pageList (p : Z) (mp : DfxMempool) : DfxMempool :=
  mkMempool (mp_type mp) (blockSize mp) (blocksPerPage mp) (freePagesCnt mp) p.

(** Computations on the heap. *)
Definition M (A : Type) : Type := heap → outcome (A * heap).
#[export] Instance M_ret : MRet M := λ A a h, Ret (a, h).
#[export] Instance M_bind : MBind M := λ A B f c h, '(a, h) ← c h; f a h.

Definition load (a : Z) : M Z := λ h, match h_mem h !! a with Some v => Ret (v, h) | None => Undef OutOfBounds end.
Definition store (a v : Z) : M unit := λ h,
  match h_mem h !! a with Some _ => Ret (tt, set_mem (<[a := v]> (h_mem h)) h) | None => Undef OutOfBounds end.
Definition gets {A} (f : heap → A) : M A := λ h, Ret (f h, h).
Definition mod_heap (f : heap → heap) : M unit := λ h, Ret (tt, f h).
Definition get_pool (i : nat) : M DfxMempool := λ h,
  match dfxMempoolBuf h !! i with Some mp => Ret (mp, h) | None => Undef OutOfBounds end.
Definition mod_pool (i : nat) (f : DfxMempool → DfxMempool) : M unit :=
  mod_heap (λ h, mkHeap (h_mem h) (initFlag h) (g_pageList h) (alter f i (dfxMempoolBuf h))).

(** The two halves of the first word of a page. *)
Definition tag_word (sign type : Z) : Z := sign + 2 ^ 32 * type.
Definition load_tag (page : Z) : M (Z * Z) := w ← load (page + o_tag); mret (w mod 2 ^ 32, w / 2 ^ 32).
Definition store_sign (page sign : Z) : M unit :=
  w ← load (page + o_tag); store (page + o_tag) (tag_word sign (w / 2 ^ 32)).
Definition store_type (page type : Z) : M unit :=
  w ← load (page + o_tag); store (page + o_tag) (tag_word (w mod 2 ^ 32) type).

(** [memset_s] to 0 and [memcpy_s], of [n] words. *)
Fixpoint memset0 (a : Z) (n : nat) : M unit :=
  match n with O => mret tt | S n' => store a 0;; memset0 (a + 8) n' end.
Fixpoint memcpy (dst src : Z) (n : nat) : M unit :=
  match n with O => mret tt | S n' => v ← load src; store dst v;; memcpy (dst + 8) (src + 8) n' end.

(** Fresh zeroed memory, and memory less a range. *)
Fixpoint zeros (a : Z) (n : nat) : gmap Z Z := match n with O => ∅ | S n' => <[a := 0]> (zeros (a + 8) n') end.
Definition map_range (a size : Z) (m : gmap Z Z) : gmap Z Z := zeros a (Z.to_nat (size / 8)) ∪ m.
Definition unmap_range (a size : Z) (m : gmap Z Z) : gmap Z Z := filter (λ kv, ¬ (a ≤ kv.1 < a + size)) m.

Definition PageStart (addr : Z) : Z := Z.land addr DFX_PAGE_MASK.
Definition PageEnd (addr : Z) : Z := PageStart (u64 (addr + (DFX_PAGE_SIZE - 1))).
Definition AlignRoundUp (val align : Z) : Z :=
  let size := if align =? 0 then 1 else align in
  Z.land (u64 (val + size - 1)) (u64 (Z.lnot (size - 1))).

Section Allocator.
(** [mmap] of a number of bytes in a process whose memory is as given; the addresses of the pools. *)
Context (mmap : gmap Z Z → Z → option Z) (mempool_addr : nat → Z).

Definition sys_mmap (size : Z) : M (option Z) := λ h,
  match mmap (h_mem h) size with
  | Some p => Ret (Some p, set_mem (map_range p size (h_mem h)) h)
  | None => Ret (None, h)
  end.
Definition munmap (a size : Z) : M unit := mod_heap (λ h, set_mem (unmap_range a size (h_mem h)) h).

(** ** Lists of pages: the new value of [*pageList] is returned. *)
Definition AddPage (pageList page : Z) : M Z :=
  if page =? 0 then mret pageList
  else
    store (page + o_next) pageList;;
    store (page + o_prev) 0;;
    (if negb (pageList =? 0) then store (pageList + o_prev) page else mret tt);;
    mret page.

Definition RemovePage (pageList page : Z) : M Z :=
  if page =? 0 then mret pageList
  else
    prev ← load (page + o_prev);
    (if negb (prev =? 0) then next ← load (page + o_next); store (prev + o_next) next else mret tt);;
    next ← load (page + o_next);
    (if negb (next =? 0) then prev ← load (page + o_prev); store (next + o_prev) prev else mret tt);;
    l ← (if pageList =? page then load (page + o_next) else mret pageList);
    store (page + o_prev) 0;;
    store (page + o_next) 0;;
    mret l.

Definition MempoolAddPage (i : nat) (page : Z) : M unit :=
  mp ← get_pool i;
  l ← AddPage (mp_pageList mp) page;
  mod_pool i (set_mp_pageList l).
Definition MempoolRemovePage (i : nat) (page : Z) : M unit :=
  mp ← get_pool i;
  l ← RemovePage (mp_pageList mp) page;
  mod_pool i (set_mp_pageList l).

(** ** Pools *)
Definition MempoolAllocPage (i : nat) : M unit :=
  mptr ← sys_mmap DFX_PAGE_SIZE;
  match mptr with
  | None => mret tt
  | Some page =>
      mp ← get_pool i;
      store_sign page DFX_MEM_PAGE_SIGN;;
      store_type page (mp_type mp);;
      store (page + o_alloc_size) (mempool_addr i);;
      store (page + o_freeBlocksCnt) (blocksPerPage mp);;
      let firstBlock := AlignRoundUp (page + sizeof_PageInfo) (blockSize mp) in
      store (firstBlock + b_freeBlocksCnt) (blocksPerPage mp);;
      store (page + o_freeBlockList) firstBlock;;
      MempoolAddPage i page;;
      mod_pool i (λ mp, set_freePagesCnt (u64 (freePagesCnt mp + 1)) mp)
  end.

Definition MempoolFreePage (i : nat) (page : Z) : M unit :=
  mp ← get_pool i;
  cnt ← load (page + o_freeBlocksCnt);
  if negb (cnt =? blocksPerPage mp) then mret tt
  else
    MempoolRemovePage i page;;
    munmap page DFX_PAGE_SIZE;;
    mod_pool i (λ mp, set_freePagesCnt (u64 (freePagesCnt mp - 1)) mp).

(** [MempoolAlloc] up to the choice of the page, and from there on. *)
Definition pop_block (mp : DfxMempool) (page block : Z) : M unit :=
  bcnt ← load (block + b_freeBlocksCnt);
  if 1 <? bcnt then
    let nextfree := block + blockSize mp in
    next ← load (block + b_next);
    store (nextfree + b_next) next;;
    bcnt ← load (block + b_freeBlocksCnt);
    store (nextfree + b_freeBlocksCnt) (u64 (bcnt - 1));;
    store (page + o_freeBlockList) nextfree
  else
    next ← load (block + b_next);
    store (page + o_freeBlockList) next.

Definition take_block (i : nat) (mp : DfxMempool) (page block : Z) : M unit :=
  pop_block mp page block;;
  cnt ← load (page + o_freeBlocksCnt);
  (if cnt =? blocksPerPage mp then mod_pool i (λ mp, set_freePagesCnt (u64 (freePagesCnt mp - 1)) mp) else mret tt);;
  (if 0 <? cnt then store (page + o_freeBlocksCnt) (u64 (cnt - 1)) else mret tt);;
  memset0 block (Z.to_nat (blockSize mp / 8)).

Definition alloc_from (i : nat) (mp : DfxMempool) (page : Z) : M Z :=
  block ← load (page + o_freeBlockList);
  if block =? 0 then mret 0
  else
    take_block i mp page block;;
    cnt ← load (page + o_freeBlocksCnt);
    (if cnt =? 0 then MempoolRemovePage i page else mret tt);;
    mret block.

Definition MempoolAlloc (i : nat) : M Z :=
  mp ← get_pool i;
  if blockSize mp =? 0 then mret 0
  else
    (if mp_pageList mp =? 0 then MempoolAllocPage i else mret tt);;
    mp ← get_pool i;
    let page := mp_pageList mp in
    if page =? 0 then mret 0 else alloc_from i mp page.

(** A block is put at the head of the free list of its page, whose new number of free blocks is returned. *)
Definition push_block (mp : DfxMempool) (page ptr : Z) : M Z :=
  memset0 ptr (Z.to_nat (blockSize mp / 8));;
  l ← load (page + o_freeBlockList);
  store (ptr + b_next) l;;
  store (ptr + b_freeBlocksCnt) 1;;
  store (page + o_freeBlockList) ptr;;
  cnt ← load (page + o_freeBlocksCnt);
  store (page + o_freeBlocksCnt) (u64 (cnt + 1));;
  mret (u64 (cnt + 1)).

Definition MempoolFree (i : nat) (ptr : Z) : M unit :=
  let page := PageStart ptr in
  mp ← get_pool i;
  if (ptr =? 0) || (blockSize mp =? 0) || negb (ptr mod blockSize mp =? 0) then mret tt
  else
    cnt ← push_block mp page ptr;
    if cnt =? blocksPerPage mp then
      mod_pool i (λ mp, set_freePagesCnt (u64 (freePagesCnt mp + 1)) mp);;
      mp ← get_pool i;
      if 1 <=? freePagesCnt mp then MempoolFreePage i page else mret tt
    else if cnt =? 1 then MempoolAddPage i page else mret tt.

(** The loop of [SelectMempoolType], which shifts a 64-bit number to zero. *)
Fixpoint select_loop (fuel : nat) (n res : Z) : Z :=
  match fuel with
  | O => res
  | S fuel' => if n =? 0 then res else select_loop fuel' (Z.shiftr n 1) (res + 1)
  end.
Definition SelectMempoolType (num : Z) : Z := select_loop 64 (u64 (num - 1)) 0.

Definition pool_init (i : nat) : DfxMempool :=
  let type := Z.of_nat i + DFX_MEMPOOL_MIN_TYPE in
  let bs := Z.shiftl 1 type in
  mkMempool type bs ((DFX_PAGE_SIZE - sizeof_PageInfo) / bs) 0 0.
Definition InitDfxAllocator : M unit :=
  mod_heap (λ h, mkHeap (h_mem h) 1 (g_pageList h) (map pool_init (seq 0 DFX_MEMPOOLS_NUM))).

(** ** Chunks *)
Definition GetPageUnchecked (ptr : Z) : Z := PageStart (u64 (ptr - PAGE_INFO_SIZE)).
Definition GetPage (ptr : Z) : M Z :=
  let page := GetPageUnchecked ptr in
  '(sign, _) ← load_tag page;
  mret (if negb (sign =? DFX_MEM_PAGE_SIGN) then 0 else page).

Definition AllocMmap (align size : Z) : M Z :=
  let headSize := AlignRoundUp PAGE_INFO_SIZE align in
  if (2 ^ 64 <=? headSize + size) || (PageEnd (headSize + size) <? headSize + size) then mret 0
  else
    let allocSize := PageEnd (headSize + size) in
    mptr ← sys_mmap allocSize;
    match mptr with
    | None => mret 0
    | Some mptr =>
        let result := mptr + headSize in
        let page := GetPageUnchecked result in
        store_sign page DFX_MEM_PAGE_SIGN;;
        store_type page DFX_MMAP_TYPE;;
        store (page + o_alloc_size) allocSize;;
        store (page + o_prev) 0;;
        store (page + o_next) 0;;
        store (page + o_freeBlockList) 0;;
        store (page + o_freeBlocksCnt) 0;;
        l ← gets g_pageList;
        l ← AddPage l page;
        mod_heap (set_g_pageList l);;
        mret result
    end.

Definition AllocImpl (align size : Z) : M Z :=
  flag ← gets initFlag;
  (if flag =? 0 then InitDfxAllocator else mret tt);;
  if DFX_MEMPOOL_MAX_BLOCK_SIZE <? size then AllocMmap align size
  else
    let type := SelectMempoolType size in
    let type := if type <? DFX_MEMPOOL_MIN_TYPE then DFX_MEMPOOL_MIN_TYPE else type in
    MempoolAlloc (Z.to_nat (type - DFX_MEMPOOL_MIN_TYPE)).

Definition DfxAlloc (size : Z) : M Z := AllocImpl ALIGN_SIZE (if size =? 0 then 1 else size).

Definition is_pool_type (type : Z) : bool := (DFX_MEMPOOL_MIN_TYPE <=? type) && (type <=? DFX_MEMPOOL_MAX_TYPE).

Definition GetChunkSize (ptr : Z) : M Z :=
  if ptr =? 0 then mret 0
  else
    page ← GetPage ptr;
    if page =? 0 then mret 0
    else
      '(_, type) ← load_tag page;
      if negb (type =? DFX_MMAP_TYPE) && negb (is_pool_type type) then mret 0
      else if type =? DFX_MMAP_TYPE then
        size ← load (page + o_alloc_size);
        mret (u64 (size - (ptr - page)))
      else
        mp ← get_pool (Z.to_nat (type - DFX_MEMPOOL_MIN_TYPE));
        mret (blockSize mp).

Definition DfxFree (ptr : Z) : M unit :=
  flag ← gets initFlag;
  if flag =? 0 then mret tt
  else if ptr =? 0 then mret tt
  else
    page ← GetPage ptr;
    if page =? 0 then mret tt
    else
      '(_, type) ← load_tag page;
      if type =? DFX_MMAP_TYPE then
        l ← gets g_pageList;
        l ← RemovePage l page;
        mod_heap (set_g_pageList l);;
        size ← load (page + o_alloc_size);
        munmap page size
      else if is_pool_type type then MempoolFree (Z.to_nat (type - DFX_MEMPOOL_MIN_TYPE)) ptr
      else mret tt.

Definition DfxRealloc (ptr size : Z) : M Z :=
  flag ← gets initFlag;
  (if flag =? 0 then InitDfxAllocator else mret tt);;
  if ptr =? 0 then DfxAlloc size
  else if size =? 0 then mret 0
  else
    oldsize ← GetChunkSize ptr;
    if oldsize =? 0 then mret 0
    else if oldsize <? size then
      res ← DfxAlloc size;
      if negb (res =? 0) then
        memcpy res ptr (Z.to_nat (oldsize / 8));;
        DfxFree ptr;;
        mret res
      else mret ptr
    else mret ptr.

(** The hooks that replace the functions of the C library. *)
Definition HookMalloc (size : Z) : M Z := DfxAlloc size.
Definition HookCalloc (count size : Z) : M Z := DfxAlloc (u64 (count * size)).
Definition HookRealloc (ptr size : Z) : M Z := DfxRealloc ptr size.
Definition HookFree (ptr : Z) : M unit := DfxFree ptr.
Definition IsDfxAllocatorMem (ptr : Z) : M Z :=
  if ptr =? 0 then mret 0 else page ← GetPage ptr; mret (if page =? 0 then 0 else 1).
End Allocator.

(** [g_dfxAllocator] before its first use. *)
Definition heap_new (m : gmap Z Z) : heap := mkHeap m 0 0 (replicate DFX_MEMPOOLS_NUM (mkMempool 0 0 0 0 0)).

(** ** Arithmetic *)
Lemma PageStart_eq a : fits 64 a → PageStart a = a / 4096 * 4096.
Proof. intros Ha. unfold PageStart, DFX_PAGE_MASK. by apply (land_mask a 12). Qed.

Lemma PageStart_in p d : p mod 4096 = 0 → 0 <= d < 4096 → 0 <= p → p + d < 2 ^ 64 → PageStart (p + d) = p.
Proof.
  intros Hp Hd H0 H1. rewrite PageStart_eq by (split; lia). Z.to_euclidean_division_equations. lia.
Qed.

(** The shape of a pool: the size of its blocks, their number in a page, the offset of the first. *)
Definition bsz (i : nat) : Z := 2 ^ (Z.of_nat i + 4).
Definition nblk (i : nat) : nat := Z.to_nat (4048 / bsz i).
Definition boff (i : nat) : Z := AlignRoundUp 48 (bsz i).
Definition blk (p : Z) (i b : nat) : Z := p + boff i + Z.of_nat b * bsz i.

Lemma pool_shape i : (i < 7)%nat →
  boff i + Z.of_nat (nblk i) * bsz i = 4096 ∧ 48 <= boff i ∧ 16 <= bsz i <= 1024 ∧ (3 <= nblk i <= 253)%nat ∧
  bsz i mod 16 = 0 ∧ boff i mod bsz i = 0 ∧ 4096 mod bsz i = 0.
Proof. intros Hi. do 7 (destruct i as [|i]; [vm_compute; repeat split; (done || discriminate || lia)|]). lia. Qed.

Lemma AlignRoundUp_page p i : (i < 7)%nat → p mod 4096 = 0 → 0 <= p → p + 4096 <= 2 ^ 64 →
  AlignRoundUp (p + 48) (bsz i) = p + boff i.
Proof.
  intros Hi Hp H0 H1. destruct (pool_shape i Hi) as (_ & _ & Hb & _ & _ & _ & Hm).
  assert (Hal : ∀ a, fits 64 (a + bsz i - 1) → AlignRoundUp a (bsz i) = (a + bsz i - 1) / bsz i * bsz i).
  { intros a Ha. unfold AlignRoundUp. rewrite (proj2 (Z.eqb_neq _ _)) by lia. rewrite wrap_small by done.
    unfold bsz in *. by rewrite (land_mask _ (Z.of_nat i + 4)) by (done || lia). }
  unfold boff. rewrite !Hal by (split; lia).
  pose proof (Z.div_mod p 4096 ltac:(lia)). pose proof (Z.div_mod 4096 (bsz i) ltac:(lia)).
  replace (p + 48 + bsz i - 1) with (48 + bsz i - 1 + (p / 4096 * (4096 / bsz i)) * bsz i) by nia.
  rewrite Z.div_add by lia. nia.
Qed.

Lemma pool_init_eq i : (i < 7)%nat → pool_init i = mkMempool (Z.of_nat i + 4) (bsz i) (Z.of_nat (nblk i)) 0 0.
Proof.  intros Hi. do 7 (destruct i as [|i]; [by vm_compute|]). lia. Qed.

Lemma blk_bounds p i b : (i < 7)%nat → (b < nblk i)%nat → p + 48 <= blk p i b ∧ blk p i b + bsz i <= p + 4096.
Proof. intros Hi Hb. destruct (pool_shape i Hi) as (H1 & H2 & H3 & _). unfold blk. nia. Qed.

Lemma blk_mod p i b : (i < 7)%nat → p mod 4096 = 0 → blk p i b mod bsz i = 0 ∧ blk p i b mod 16 = 0.
Proof.
  intros Hi Hp. destruct (pool_shape i Hi) as (H1 & H2 & H3 & _ & H4 & H5 & H6).
  assert (E : blk p i b mod bsz i = 0).
  { unfold blk. rewrite Z.mod_add by lia. rewrite Z.add_mod, H5, Z.add_0_r, Z.mod_mod by lia.
    rewrite (Z.div_mod p 4096), Hp by lia. rewrite Z.add_0_r, Z.mul_mod, H6, Z.mul_0_l, Z.mod_0_l; lia. }
  split; [done|]. rewrite (Z.div_mod (blk p i b) (bsz i)), E, Z.add_0_r, Z.mul_mod, H4, Z.mul_0_l, Z.mod_0_l; lia.
Qed.

Lemma blk_disjoint p i b b' : (i < 7)%nat → b ≠ b' → blk p i b + bsz i <= blk p i b' ∨ blk p i b' + bsz i <= blk p i b.
Proof. intros Hi Hb. destruct (pool_shape i Hi) as (_ & _ & H3 & _). unfold blk. nia. Qed.

(** ** Reasoning about heap computations: they return, with a result that satisfies [Q]. *)
Definition wp {A} (c : M A) (Q : A → heap → Prop) (h : heap) : Prop := ∃ a h', c h = Ret (a, h') ∧ Q a h'.

Lemma wp_ret {A} (a : A) Q h : Q a h → wp (mret a) Q h.
Proof. intros H. by exists a, h. Qed.
Lemma wp_bind {A B} (c : M A) (f : A → M B) Q h : wp c (λ a h', wp (f a) Q h') h → wp (c ≫= f) Q h.
Proof. intros (a & h' & E & b & h2 & E2 & HQ). exists b, h2. split; [|done]. unfold mbind, M_bind. by rewrite E. Qed.
Lemma wp_mono {A} (c : M A) (Q Q' : A → heap → Prop) h : wp c Q h → (∀ a h', Q a h' → Q' a h') → wp c Q' h.
Proof. intros (a & h' & E & HQ) H. exists a, h'. auto. Qed.
Lemma wp_load a v Q h : h_mem h !! a = Some v → Q v h → wp (load a) Q h.
Proof. intros E HQ. exists v, h. unfold load. by rewrite E. Qed.
Lemma wp_store a v Q h : is_Some (h_mem h !! a) → Q tt (set_mem (<[a := v]> (h_mem h)) h) → wp (store a v) Q h.
Proof. intros [w E] HQ. exists tt, (set_mem (<[a := v]> (h_mem h)) h). unfold store. by rewrite E. Qed.
Lemma wp_gets {A} (f : heap → A) Q h : Q (f h) h → wp (gets f) Q h.
Proof. intros H. by exists (f h), h. Qed.
Lemma wp_mod f Q h : Q tt (f h) → wp (mod_heap f) Q h.
Proof. intros H. by exists tt, (f h). Qed.
Lemma wp_get_pool i mp Q h : dfxMempoolBuf h !! i = Some mp → Q mp h → wp (get_pool i) Q h.
Proof. intros E HQ. exists mp, h. unfold get_pool. by rewrite E. Qed.

Lemma set_mem_twice m m' h : set_mem m (set_mem m' h) = set_mem m h.
Proof. done. Qed.

(** Stores keep memory mapped. *)
Definition mono (m m' : gmap Z Z) : Prop := ∀ a, is_Some (m !! a) → is_Some (m' !! a).
Lemma mono_refl m : mono m m. Proof. by intros a. Qed.
Lemma mono_trans m1 m2 m3 : mono m1 m2 → mono m2 m3 → mono m1 m3. Proof. unfold mono. auto. Qed.
Lemma mono_insert m a v : mono m (<[a := v]> m).
Proof. intros b Hb. destruct (decide (a = b)) as [->|]; [by rewrite lookup_insert_eq|by rewrite lookup_insert_ne]. Qed.

(** ** Doubly linked lists of pages *)
Fixpoint dseg (m : gmap Z Z) (prev : Z) (l : list Z) (nxt : Z) : Prop :=
  match l with
  | [] => True
  | p :: l' => m !! (p + o_prev) = Some prev ∧ m !! (p + o_next) = Some (hd nxt l') ∧ dseg m p l' nxt
  end.

Definition page_like (p : Z) : Prop := p mod 4096 = 0 ∧ 0 < p.
(** [a] is no link word of the pages of [l]. *)
Definition off_links (l : list Z) (a : Z) : Prop := ∀ q, q ∈ l → a ≠ q + o_prev ∧ a ≠ q + o_next.

Lemma dseg_frame m m' l : ∀ prev nxt,
  (∀ p, p ∈ l → m' !! (p + o_prev) = m !! (p + o_prev) ∧ m' !! (p + o_next) = m !! (p + o_next)) →
  dseg m prev l nxt → dseg m' prev l nxt.
Proof.
  induction l as [|p l IH]; intros prev nxt Hf; cbn [dseg]; [done|]. intros (H1 & H2 & H3).
  destruct (Hf p) as [E1 E2]; [set_solver|]. rewrite E1, E2. split; [done|]. split; [done|].
  apply IH; [|done]. intros q Hq. apply Hf. set_solver.
Qed.

Fixpoint lastd (prev : Z) (l : list Z) : Z := match l with [] => prev | p :: l' => lastd p l' end.

Lemma dseg_app m l1 l2 : ∀ prev nxt,
  dseg m prev (l1 ++ l2) nxt ↔ dseg m prev l1 (hd nxt l2) ∧ dseg m (lastd prev l1) l2 nxt.
Proof.
  induction l1 as [|p l1 IH]; intros prev nxt; cbn [dseg app]; [tauto|].
  rewrite IH. assert (E : hd nxt (l1 ++ l2) = hd (hd nxt l2) l1) by (by destruct l1). rewrite E. cbn [lastd]. tauto.
Qed.

Lemma lastd_snoc prev l q : lastd prev (l ++ [q]) = q.
Proof. revert prev. induction l as [|p l IH]; intros prev; [done|]. apply IH. Qed.

Lemma links_ne p q : page_like p → page_like q → p + o_prev ≠ q + o_next ∧ (p ≠ q → p + o_prev ≠ q + o_prev ∧ p + o_next ≠ q + o_next).
Proof. unfold page_like, o_prev, o_next. intros [Hp _] [Hq _]. Z.to_euclidean_division_equations. lia. Qed.

(** Redirecting the ends of a segment. *)
Lemma dseg_set_next m prev l q nxt n' : Forall page_like (l ++ [q]) → NoDup (l ++ [q]) →
  dseg m prev (l ++ [q]) nxt → dseg (<[q + o_next := n']> m) prev (l ++ [q]) n'.
Proof.
  intros Hp Hn. rewrite !dseg_app. cbn [dseg hd]. intros (H1 & H2 & H3 & _).
  apply Forall_app in Hp as [Hpl Hpq]. apply Forall_cons_1 in Hpq as [Hpq _]. apply list.NoDup_app in Hn as (_ & Hn & _).
  rewrite lookup_insert_eq, lookup_insert_ne by (pose proof (links_ne q q Hpq Hpq); naive_solver).
  split; [|done]. eapply dseg_frame; [|done]. intros p Hin.
  pose proof (proj1 (list.Forall_forall _ _) Hpl p Hin) as Hpp. assert (p ≠ q) by (intros ->; apply (Hn q Hin); set_solver).
  pose proof (links_ne p q Hpp Hpq) as [E1 E2]. specialize (E2 H). split; apply lookup_insert_ne; naive_solver.
Qed.

Lemma dseg_set_prev m prev l q nxt x : Forall page_like (q :: l) → NoDup (q :: l) →
  dseg m prev (q :: l) nxt → dseg (<[q + o_prev := x]> m) x (q :: l) nxt.
Proof.
  intros Hp Hn. cbn [dseg]. intros (H1 & H2 & H3). apply Forall_cons_1 in Hp as [Hpq Hpl]. apply list.NoDup_cons in Hn as [Hn _].
  rewrite lookup_insert_eq, lookup_insert_ne by (pose proof (links_ne q q Hpq Hpq); naive_solver).
  split; [done|]. split; [done|]. eapply dseg_frame; [|done]. intros p Hin.
  pose proof (proj1 (list.Forall_forall _ _) Hpl p Hin) as Hpp. assert (p ≠ q) by (by intros ->).
  pose proof (links_ne p q Hpp Hpq) as [E1 E2]. pose proof (links_ne q p Hpq Hpp) as [E3 _]. specialize (E2 H).
  split; apply lookup_insert_ne; naive_solver.
Qed.

Ltac wp_step :=
  lazymatch goal with
  | |- wp (_ ≫= _) _ _ => apply wp_bind
  | |- wp (mret _) _ _ => apply wp_ret
  | |- wp (gets _) _ _ => apply wp_gets
  | |- wp (mod_heap _) _ _ => apply wp_mod
  | |- wp (store _ _) _ _ => apply wp_store; cbn [h_mem set_mem]
  | |- wp (load _) _ _ => eapply wp_load; cbn [h_mem set_mem]
  end.

(** A link word of a page outside a list. *)
Lemma dseg_skip m prev l nxt q a v :
  a = q + o_prev ∨ a = q + o_next → page_like q → Forall page_like l → q ∉ l → dseg m prev l nxt → dseg (<[a := v]> m) prev l nxt.
Proof.
  intros Ha Hq Hl Hnin. apply dseg_frame. intros x Hx. pose proof (proj1 (list.Forall_forall _ _) Hl x Hx) as Hxx.
  assert (Hne : q ≠ x) by (by intros ->).
  destruct (links_ne q x Hq Hxx) as [F1 F2]. destruct (links_ne x q Hxx Hq) as [F3 _]. destruct (F2 Hne) as [F4 F5].
  destruct Ha as [-> | ->]; by rewrite !lookup_insert_ne by done.
Qed.

Lemma link_ne_other q x a b v (m : gmap Z Z) : page_like q → page_like x → q ≠ x →
  a = q + o_prev ∨ a = q + o_next → b = x + o_prev ∨ b = x + o_next → <[a := v]> m !! b = m !! b.
Proof.
  intros Hq Hx Hne Ha Hb. destruct (links_ne q x Hq Hx) as [F1 F2]. destruct (links_ne x q Hx Hq) as [F3 _]. destruct (F2 Hne) as [F4 F5].
  destruct Ha as [-> | ->], Hb as [-> | ->]; by apply lookup_insert_ne.
Qed.

Lemma AddPage_spec pl page l h :
  Forall page_like (page :: l) → NoDup (page :: l) → pl = hd 0 l → dseg (h_mem h) 0 l 0 →
  is_Some (h_mem h !! (page + o_prev)) → is_Some (h_mem h !! (page + o_next)) →
  wp (AddPage pl page) (λ r h', r = page ∧ ∃ m', h' = set_mem m' h ∧ dseg m' 0 (page :: l) 0 ∧ mono (h_mem h) m' ∧
    ∀ a, off_links (page :: l) a → m' !! a = h_mem h !! a) h.
Proof.
  intros Hp Hn Hpl Hd Hm1 Hm2. pose proof Hp as Hp'. apply Forall_cons_1 in Hp as [Hpp Hpl']. unfold AddPage.
  rewrite (proj2 (Z.eqb_neq page 0)) by (unfold page_like in Hpp; lia).
  pose proof (links_ne page page Hpp Hpp) as [Hpn _]. do 2 wp_step; [done|]. do 2 wp_step; [by apply mono_insert|].
  set (m1 := <[page + o_prev := 0]> (<[page + o_next := pl]> (h_mem h))).
  assert (Hfr : ∀ a, off_links (page :: l) a → m1 !! a = h_mem h !! a).
  { intros a Ha. destruct (Ha page) as [H1 H2]; [set_solver|]. unfold m1. by rewrite !lookup_insert_ne by done. }
  assert (Hmono : mono (h_mem h) m1) by (eapply mono_trans; apply mono_insert).
  assert (Hd1 : dseg m1 0 l 0).
  { apply list.NoDup_cons in Hn as [Hn _]. apply (dseg_skip _ _ _ _ page); auto. apply (dseg_skip _ _ _ _ page); auto. }
  wp_step. destruct l as [|q l]; cbn [hd] in *.
  - subst pl. rewrite Z.eqb_refl. cbn [negb]. wp_step. wp_step. split; [done|]. exists m1. split; [done|]. split; [|done].
    cbn [dseg hd]. unfold m1. rewrite lookup_insert_eq, lookup_insert_ne, lookup_insert_eq by done. done.
  - subst pl. pose proof (proj1 (list.Forall_forall _ _) Hpl' q ltac:(set_solver)) as Hqq.
    rewrite (proj2 (Z.eqb_neq q 0)) by (unfold page_like in Hqq; lia). cbn [negb].
    apply list.NoDup_cons in Hn as [Hnin Hnl].
    wp_step. { destruct Hd1 as [E _]. by rewrite E. }
    wp_step. split; [done|]. exists (<[q + o_prev := page]> m1). split; [done|].
    assert (Hne : page ≠ q) by (intros ->; apply Hnin; set_solver).
    destruct (links_ne page q Hpp Hqq) as [E1 E2]. destruct (links_ne q page Hqq Hpp) as [E3 _]. destruct (E2 Hne) as [E4 E5].
    split; [|split; [eapply mono_trans; [exact Hmono|apply mono_insert]|]].
    + cbn [dseg hd]. rewrite !lookup_insert_ne by done. unfold m1 at 1 2.
      rewrite lookup_insert_eq, lookup_insert_ne, lookup_insert_eq by done. split; [done|]. split; [done|].
      by eapply (dseg_set_prev m1 0 l q 0 page).
    + intros a Ha. destruct (Ha q) as [H1 H2]; [set_solver|]. rewrite lookup_insert_ne by done. by apply Hfr.
Qed.

(** Unlinking from the left neighbour, then from the right one. *)
Lemma unlink_left page l1 l2 h Q :
  Forall page_like (page :: l1 ++ l2) → NoDup (l1 ++ l2) → page ∉ l1 ++ l2 →
  dseg (h_mem h) 0 l1 page → dseg (h_mem h) page l2 0 →
  h_mem h !! (page + o_prev) = Some (lastd 0 l1) → h_mem h !! (page + o_next) = Some (hd 0 l2) →
  (∀ m', dseg m' 0 l1 (hd 0 l2) → dseg m' page l2 0 → m' !! (page + o_prev) = Some (lastd 0 l1) →
     m' !! (page + o_next) = Some (hd 0 l2) → mono (h_mem h) m' → (∀ a, off_links l1 a → m' !! a = h_mem h !! a) → Q tt (set_mem m' h)) →
  wp (if negb (lastd 0 l1 =? 0) then next ← load (page + o_next); store (lastd 0 l1 + o_next) next else mret tt) Q h.
Proof.
  intros Hp Hn Hnin Hd1 Hd2 Hpr Hnx HQ. pose proof (proj1 (list.Forall_forall _ _) Hp) as Hall.
  destruct l1 as [|q l1 _] using rev_ind.
  - cbn [lastd]. rewrite Z.eqb_refl. cbn [negb]. wp_step. specialize (HQ (h_mem h)). destruct h. apply HQ; done || apply mono_refl.
  - rewrite lastd_snoc in *. assert (Hq : page_like q) by (apply Hall; set_solver).
    assert (Hqp : q ≠ page) by set_solver. assert (Hpp : page_like page) by (apply Hall; set_solver).
    rewrite (proj2 (Z.eqb_neq q 0)) by (unfold page_like in Hq; lia). cbn [negb].
    do 2 wp_step; [exact Hnx|]. wp_step. { rewrite dseg_app in Hd1. cbn [dseg] in Hd1. destruct Hd1 as (_ & _ & E & _). by rewrite E. }
    apply list.NoDup_app in Hn as (N1 & N2 & _).
    apply HQ.
    + eapply dseg_set_next; [apply list.Forall_forall; set_solver|done|exact Hd1].
    + apply (dseg_skip _ _ _ _ q); auto; [apply list.Forall_forall; set_solver|set_solver].
    + by rewrite (link_ne_other q page) by auto.
    + by rewrite (link_ne_other q page) by auto.
    + apply mono_insert.
    + intros a Ha. destruct (Ha q) as [H1 H2]; [set_solver|]. by rewrite lookup_insert_ne by done.
Qed.

Lemma unlink_right page l1 l2 h Q :
  Forall page_like (page :: l1 ++ l2) → NoDup (l1 ++ l2) → page ∉ l1 ++ l2 →
  dseg (h_mem h) 0 l1 (hd 0 l2) → dseg (h_mem h) page l2 0 →
  h_mem h !! (page + o_prev) = Some (lastd 0 l1) → h_mem h !! (page + o_next) = Some (hd 0 l2) →
  (∀ m', dseg m' 0 (l1 ++ l2) 0 → m' !! (page + o_prev) = Some (lastd 0 l1) →
     m' !! (page + o_next) = Some (hd 0 l2) → mono (h_mem h) m' → (∀ a, off_links l2 a → m' !! a = h_mem h !! a) → Q tt (set_mem m' h)) →
  wp (if negb (hd 0 l2 =? 0) then prev ← load (page + o_prev); store (hd 0 l2 + o_prev) prev else mret tt) Q h.
Proof.
  intros Hp Hn Hnin Hd1 Hd2 Hpr Hnx HQ. pose proof (proj1 (list.Forall_forall _ _) Hp) as Hall.
  destruct l2 as [|q l2]; cbn [hd] in *.
  - rewrite Z.eqb_refl. cbn [negb]. wp_step. specialize (HQ (h_mem h)). destruct h.
    apply HQ; rewrite ?app_nil_r; done || apply mono_refl.
  - assert (Hq : page_like q) by (apply Hall; set_solver).
    assert (Hqp : q ≠ page) by set_solver. assert (Hpp : page_like page) by (apply Hall; set_solver).
    rewrite (proj2 (Z.eqb_neq q 0)) by (unfold page_like in Hq; lia). cbn [negb].
    do 2 wp_step; [exact Hpr|]. wp_step. { destruct Hd2 as [E _]. by rewrite E. }
    apply list.NoDup_app in Hn as (_ & N2 & N3).
    apply HQ.
    + rewrite dseg_app. split.
      * apply (dseg_skip _ _ _ _ q); auto; [apply list.Forall_forall; set_solver|set_solver].
      * eapply dseg_set_prev; [apply list.Forall_forall; set_solver|done|exact Hd2].
    + by rewrite (link_ne_other q page) by auto.
    + by rewrite (link_ne_other q page) by auto.
    + apply mono_insert.
    + intros a Ha. destruct (Ha q) as [H1 H2]; [set_solver|]. by rewrite lookup_insert_ne by done.
Qed.

(** Taking the page [page] out of the list [l1 ++ page :: l2]. *)
Lemma RemovePage_spec pl page l1 l2 h :
  let l := l1 ++ page :: l2 in
  Forall page_like l → NoDup l → pl = hd 0 l → dseg (h_mem h) 0 l 0 →
  wp (RemovePage pl page) (λ r h', r = hd 0 (l1 ++ l2) ∧ ∃ m', h' = set_mem m' h ∧ dseg m' 0 (l1 ++ l2) 0 ∧ mono (h_mem h) m' ∧
    ∀ a, off_links l a → m' !! a = h_mem h !! a) h.
Proof.
  intros l Hp Hn Hpl Hd. subst l. pose proof (proj1 (list.Forall_forall _ _) Hp) as Hall.
  assert (Hpp : page_like page) by (apply Hall; set_solver).
  assert (Hn' : NoDup (l1 ++ l2) ∧ page ∉ l1 ++ l2).
  { apply list.NoDup_app in Hn as (N1 & N2 & N3). apply list.NoDup_cons in N3 as [N3 N4].
    split; [apply list.NoDup_app; set_solver|set_solver]. }
  destruct Hn' as [Hn' Hnin].
  assert (Hp' : Forall page_like (page :: l1 ++ l2)) by (apply list.Forall_forall; set_solver).
  rewrite dseg_app in Hd. cbn [dseg hd] in Hd. destruct Hd as (Hd1 & Hpr & Hnx & Hd2).
  unfold RemovePage. rewrite (proj2 (Z.eqb_neq page 0)) by (unfold page_like in Hpp; lia).
  do 2 wp_step; [exact Hpr|]. wp_step. apply (unlink_left page l1 l2); try done.
  clear Hd1 Hd2 Hpr Hnx. intros m1 Hd1 Hd2 Hpr Hnx Hm1 Hf1.
  do 2 wp_step; [exact Hnx|]. wp_step. apply (unlink_right page l1 l2); try done.
  cbn [h_mem set_mem]. clear Hd1 Hd2 Hpr Hnx. intros m2 Hd2 Hpr Hnx Hm2 Hf2. rewrite set_mem_twice.
  wp_step. assert (Hl : ∀ Q, Q (hd 0 (l1 ++ l2)) (set_mem m2 h) → wp (if pl =? page then load (page + o_next) else mret pl) Q (set_mem m2 h)).
  { intros Q HQ. subst pl. destruct l1 as [|q l1]; cbn [hd app] in *.
    - rewrite Z.eqb_refl. by wp_step; [exact Hnx|].
    - rewrite (proj2 (Z.eqb_neq q page)) by set_solver. by wp_step. }
  apply Hl. do 2 wp_step; [by rewrite Hpr|]. do 2 wp_step; [by apply mono_insert; rewrite Hnx|]. wp_step.
  split; [done|]. eexists. split; [by rewrite !set_mem_twice|]. split; [|split].
  - apply Forall_cons_1 in Hp' as [_ Hp']. apply (dseg_skip _ _ _ _ page); auto. apply (dseg_skip _ _ _ _ page); auto.
  - eapply mono_trans; [exact Hm1|]. eapply mono_trans; [exact Hm2|]. eapply mono_trans; apply mono_insert.
  - intros a Ha. destruct (Ha page) as [H1 H2]; [set_solver|]. rewrite !lookup_insert_ne by done.
    rewrite Hf2, Hf1; [done|intros x Hx; apply Ha; set_solver..].
Qed.

(** ** The invariant

    The pages of the allocator with what is known of them: for a page of pool [i] its free list, as
    runs of blocks (first block, number), for a mapping of its own its size. *)
Inductive pkind := KPool (i : nat) (fl : list (nat * nat)) | KBig (sz : Z).
Definition ksize (k : pkind) : Z := match k with KPool _ _ => 4096 | KBig sz => sz end.
Definition cells (fl : list (nat * nat)) : list nat := concat (map (λ x, seq x.1 x.2) fl).

Definition kind_ok (k : pkind) : Prop :=
  match k with
  | KPool i fl => (i < 7)%nat ∧ NoDup (cells fl) ∧ Forall (λ b, b < nblk i)%nat (cells fl) ∧ Forall (λ x, 1 ≤ x.2)%nat fl
  | KBig sz => sz mod 4096 = 0 ∧ 4096 <= sz
  end.

(** The chunks of a page that are in use. *)
Definition chunk_of (p : Z) (k : pkind) (ptr cap : Z) : Prop :=
  match k with
  | KPool i fl => ∃ b, (b < nblk i)%nat ∧ b ∉ cells fl ∧ ptr = blk p i b ∧ cap = bsz i
  | KBig sz => ptr = p + 48 ∧ cap = sz - 48
  end.

Fixpoint chain (m : gmap Z Z) (p : Z) (i : nat) (fl : list (nat * nat)) (ptr : Z) : Prop :=
  match fl with
  | [] => ptr = 0
  | (b, c) :: fl' =>
      ptr = blk p i b ∧ m !! (ptr + b_freeBlocksCnt) = Some (Z.of_nat c) ∧
      ∃ nxt, m !! (ptr + b_next) = Some nxt ∧ chain m p i fl' nxt
  end.

Definition page_ok (m : gmap Z Z) (p : Z) (k : pkind) : Prop :=
  match k with
  | KPool i fl =>
      m !! (p + o_tag) = Some (tag_word DFX_MEM_PAGE_SIGN (Z.of_nat i + 4)) ∧
      (∃ ptr, m !! (p + o_freeBlockList) = Some ptr ∧ chain m p i fl ptr) ∧
      m !! (p + o_freeBlocksCnt) = Some (Z.of_nat (length (cells fl)))
  | KBig sz =>
      m !! (p + o_tag) = Some (tag_word DFX_MEM_PAGE_SIGN DFX_MMAP_TYPE) ∧ m !! (p + o_alloc_size) = Some sz
  end.

Definition mapped (m : gmap Z Z) (a size : Z) : Prop := ∀ x, a <= x < a + size → x mod 8 = 0 → is_Some (m !! x).
Definition page_addr (p : Z) (k : pkind) : Prop := page_like p ∧ p + ksize k <= 2 ^ 64.

Definition mem_pages (m : gmap Z Z) (gp : gmap Z pkind) : Prop :=
  ∀ p k, gp !! p = Some k → page_addr p k ∧ kind_ok k ∧ page_ok m p k ∧ mapped m p (ksize k).
Definition separate (gp : gmap Z pkind) : Prop :=
  ∀ p k q k', gp !! p = Some k → gp !! q = Some k' → p ≠ q → p + ksize k <= q ∨ q + ksize k' <= p.

(** A word of the administration of a page other than its links. *)
Definition admin (p : Z) (k : pkind) (a : Z) : Prop :=
  p <= a < p + ksize k ∧ a ≠ p + o_prev ∧ a ≠ p + o_next ∧ ∀ ptr cap, chunk_of p k ptr cap → ¬ ptr <= a < ptr + cap.

Ltac offs := unfold o_tag, o_alloc_size, o_prev, o_next, o_freeBlockList, o_freeBlocksCnt, b_next, b_freeBlocksCnt in *.

Lemma chunk_bounds p k ptr cap : kind_ok k → chunk_of p k ptr cap → p + 48 <= ptr ∧ 16 <= cap ∧ ptr + cap <= p + ksize k.
Proof.
  destruct k as [i fl|sz]; cbn [kind_ok chunk_of ksize].
  - intros (Hi & _) (b & Hb & _ & -> & ->). destruct (blk_bounds p i b Hi Hb). destruct (pool_shape i Hi) as (_ & _ & ? & _). lia.
  - intros [_ Hs] [-> ->]. lia.
Qed.

Lemma admin_head p k x : kind_ok k → 0 <= x < 48 → x ≠ 16 → x ≠ 24 → admin p k (p + x).
Proof.
  intros Hk Hx H1 H2. assert (4096 <= ksize k) by (destruct k; cbn [ksize kind_ok] in *; lia).
  split; [lia|]. offs. split; [lia|]. split; [lia|]. intros ptr cap Hc. pose proof (chunk_bounds p k ptr cap Hk Hc). lia.
Qed.

Lemma admin_cell p i fl b x : kind_ok (KPool i fl) → b ∈ cells fl → 0 <= x < bsz i → admin p (KPool i fl) (blk p i b + x).
Proof.
  intros (Hi & Hn & Hf & _) Hb Hx. assert (Hbn : (b < nblk i)%nat) by (by apply (proj1 (list.Forall_forall _ _) Hf)).
  destruct (blk_bounds p i b Hi Hbn). unfold admin. cbn [ksize]. split; [lia|]. offs. split; [lia|]. split; [lia|].
  intros ptr cap (b' & Hb' & Hnb & -> & ->). assert (b ≠ b') by (by intros ->).
  destruct (blk_disjoint p i b b' Hi H1); lia.
Qed.

Lemma chain_frame m m' p i fl : ∀ ptr, (i < 7)%nat →
  (∀ b x, b ∈ cells fl → 0 <= x < bsz i → m' !! (blk p i b + x) = m !! (blk p i b + x)) → Forall (λ x, 1 ≤ x.2)%nat fl →
  chain m p i fl ptr → chain m' p i fl ptr.
Proof.
  induction fl as [|[b c] fl IH]; intros ptr Hi Hf Hc; cbn [chain]; [done|]. apply Forall_cons_1 in Hc as [Hc Hcs]. cbn in Hc.
  intros (-> & H1 & nxt & H2 & H3). destruct (pool_shape i Hi) as (_ & _ & Hb & _).
  assert (Hin : b ∈ cells ((b, c) :: fl)) by (cbn; destruct c; [lia|set_solver]).
  split; [done|]. offs. split; [rewrite Hf by (done || lia); done|]. exists nxt. split; [rewrite Hf by (done || lia); done|].
  apply IH; try done. intros b' x Hb' Hx. apply Hf; [|done]. cbn. apply elem_of_app. by right.
Qed.

Lemma page_ok_frame m m' p k : kind_ok k → (∀ a, admin p k a → m' !! a = m !! a) → page_ok m p k → page_ok m' p k.
Proof.
  intros Hk Hf. destruct k as [i fl|sz]; cbn [page_ok].
  - intros (H1 & (ptr & H2 & H3) & H4). pose proof Hk as (Hi & Hn & Hfo & Hc). offs.
    rewrite !Hf by (apply admin_head; (done || lia)). split; [done|]. split; [|done]. exists ptr. split; [done|].
    apply (chain_frame m); [done| |done|done]. intros b x Hb Hx. apply Hf. by apply admin_cell.
  - intros [H1 H2]. offs. by rewrite !Hf by (apply admin_head; (done || lia)).
Qed.

(** The lists of pages: one per pool of its pages with free blocks, number 7 of the mappings. *)
Definition on_list (k : pkind) (j : nat) : Prop :=
  match k with KPool i fl => j = i ∧ fl ≠ [] | KBig _ => j = 7%nat end.
Definition lists_ok (gp : gmap Z pkind) (gl : nat → list Z) : Prop :=
  ∀ j, NoDup (gl j) ∧ ∀ p, p ∈ gl j ↔ ∃ k, gp !! p = Some k ∧ on_list k j.
(** What the links need of the lists: pages, each in one place. *)
Definition lists_pre (gp : gmap Z pkind) (gl : nat → list Z) : Prop :=
  ∀ j, NoDup (gl j) ∧ (∀ q, q ∈ gl j → is_Some (gp !! q)) ∧ ∀ j' q, j' ≠ j → q ∈ gl j' → q ∉ gl j.
Lemma lists_ok_pre gp gl : lists_ok gp gl → lists_pre gp gl.
Proof.
  intros H j. destruct (H j) as [Hn Hj]. split; [done|]. split.
  - intros q Hq. apply Hj in Hq as (k & Hk & _). by exists k.
  - intros j' q Hne H1 H2. apply Hj in H2 as (k & Hk & H2). apply (proj2 (H j')) in H1 as (k' & Hk' & H1).
    rewrite Hk in Hk'. injection Hk' as <-. destruct k; cbn [on_list] in *; naive_solver.
Qed.
Lemma lists_pre_insert gp gl p k : lists_pre gp gl → lists_pre (<[p := k]> gp) gl.
Proof.
  intros H j. destruct (H j) as (H1 & H2 & H3). split; [done|]. split; [|done]. intros q Hq.
  destruct (decide (p = q)) as [<-|]; [by rewrite lookup_insert_eq|]. rewrite lookup_insert_ne by done. by apply H2.
Qed.
Definition dlls (m : gmap Z Z) (gl : nat → list Z) : Prop := ∀ j, dseg m 0 (gl j) 0.
Definition set_list (j : nat) (l : list Z) (gl : nat → list Z) : nat → list Z := λ j', if decide (j' = j) then l else gl j'.

Definition heads (h : heap) (gl : nat → list Z) (cnt : nat → Z) : Prop :=
  initFlag h = 1 ∧ length (dfxMempoolBuf h) = 7%nat ∧
  (∀ i, (i < 7)%nat → dfxMempoolBuf h !! i = Some (mkMempool (Z.of_nat i + 4) (bsz i) (Z.of_nat (nblk i)) (cnt i) (hd 0 (gl i)))) ∧
  g_pageList h = hd 0 (gl 7%nat).
(** No page of a pool is entirely free. *)
Definition not_free (gp : gmap Z pkind) : Prop := ∀ p i fl, gp !! p = Some (KPool i fl) → (length (cells fl) < nblk i)%nat.

Definition chunk (gp : gmap Z pkind) (ptr cap : Z) : Prop := ∃ p k, gp !! p = Some k ∧ chunk_of p k ptr cap.

(** The abstract heap: the chunks in use with their contents, in words. *)
Definition contents (m : gmap Z Z) (gp : gmap Z pkind) (A : gmap Z (list Z)) : Prop :=
  (∀ ptr ws, A !! ptr = Some ws → chunk gp ptr (8 * length ws) ∧ ∀ (j : nat) w, ws !! j = Some w → m !! (ptr + 8 * j) = Some w) ∧
  (∀ ptr cap, chunk gp ptr cap → is_Some (A !! ptr)).

Section Frames.
Context (gp : gmap Z pkind) (Hsep : separate gp).

Lemma chunk_disjoint m ptr cap ptr' cap' : mem_pages m gp → chunk gp ptr cap → chunk gp ptr' cap' →
  (ptr = ptr' ∧ cap = cap') ∨ ptr + cap <= ptr' ∨ ptr' + cap' <= ptr.
Proof.
  intros Hm (p & k & Hp & Hc) (p' & k' & Hp' & Hc'). destruct (Hm _ _ Hp) as (_ & Hk & _), (Hm _ _ Hp') as (_ & Hk' & _).
  destruct (decide (p = p')) as [<-|Hne].
  - rewrite Hp in Hp'. injection Hp' as <-. destruct k as [i fl|sz]; cbn [chunk_of] in *; [|naive_solver].
    destruct Hc as (b & Hb & _ & -> & ->), Hc' as (b' & Hb' & _ & -> & ->).
    destruct (decide (b = b')) as [<-|Hbb]; [by left|right]. apply blk_disjoint; [apply Hk|done].
  - pose proof (chunk_bounds _ _ _ _ Hk Hc). pose proof (chunk_bounds _ _ _ _ Hk' Hc').
    destruct (Hsep _ _ _ _ Hp Hp' Hne); lia.
Qed.

(** Words that are no links of pages. *)
Lemma off_links_in m p k l a : mem_pages m gp → gp !! p = Some k → (∀ q, q ∈ l → is_Some (gp !! q)) →
  p <= a < p + ksize k → a ≠ p + o_prev → a ≠ p + o_next → off_links l a.
Proof.
  intros Hm Hp Hl Ha H1 H2 q Hq. destruct (Hl q Hq) as [k' Hq']. destruct (decide (q = p)) as [->|Hne]; [done|].
  destruct (Hm _ _ Hq') as (_ & Hk & _). assert (4096 <= ksize k') by (destruct k'; cbn [ksize kind_ok] in *; lia).
  offs. destruct (Hsep _ _ _ _ Hp Hq' ltac:(done)); lia.
Qed.

Lemma chunk_off_links m ptr cap l a : mem_pages m gp → chunk gp ptr cap → (∀ q, q ∈ l → is_Some (gp !! q)) →
  ptr <= a < ptr + cap → off_links l a.
Proof.
  intros Hm (p & k & Hp & Hc) Hl Ha. destruct (Hm _ _ Hp) as (_ & Hk & _). pose proof (chunk_bounds _ _ _ _ Hk Hc).
  eapply off_links_in; [done|exact Hp|done| |..]; offs; lia.
Qed.

Lemma mapped_mono m m' a n : mapped m a n → mono m m' → mapped m' a n.
Proof. intros H Hm x Hx H8. apply Hm. by apply H. Qed.

(** Changing links of pages. *)
Lemma links_frame m m' l : mem_pages m gp → (∀ q, q ∈ l → is_Some (gp !! q)) → mono m m' →
  (∀ a, off_links l a → m' !! a = m !! a) → mem_pages m' gp.
Proof.
  intros Hm Hl Hmono Hf p k Hp. destruct (Hm _ _ Hp) as (H1 & H2 & H3 & H4). split; [done|]. split; [done|].
  split; [|by eapply mapped_mono]. eapply page_ok_frame; [done| |exact H3]. intros a (Ha & Ha1 & Ha2 & _).
  apply Hf. by eapply off_links_in.
Qed.

Lemma links_contents m m' l A : mem_pages m gp → (∀ q, q ∈ l → is_Some (gp !! q)) →
  (∀ a, off_links l a → m' !! a = m !! a) → contents m gp A → contents m' gp A.
Proof.
  intros Hm Hl Hf [H1 H2]. split; [|done]. intros ptr ws Hp. destruct (H1 _ _ Hp) as [Hc Hw]. split; [done|].
  intros j w Hj. rewrite Hf; [by apply Hw|]. eapply chunk_off_links; [done|exact Hc|done|].
  apply lookup_lt_Some in Hj. lia.
Qed.

(** Changing only a page: its administration and what is not in use. *)
Lemma dlls_frame m m' gl : lists_pre gp gl → (∀ q, is_Some (gp !! q) → m' !! (q + o_prev) = m !! (q + o_prev) ∧ m' !! (q + o_next) = m !! (q + o_next)) →
  dlls m gl → dlls m' gl.
Proof.
  intros Hl Hf Hd j. eapply dseg_frame; [|apply Hd]. intros q Hq. apply Hf. by apply (Hl j).
Qed.

Lemma lists_like m gl j : mem_pages m gp → lists_pre gp gl → Forall page_like (gl j).
Proof.
  intros Hm Hl. apply list.Forall_forall. intros q Hq. apply (Hl j) in Hq as [k Hk].
  destruct (Hm _ _ Hk) as ([H _] & _). done.
Qed.

Lemma list_in gl j q : lists_pre gp gl → q ∈ gl j → is_Some (gp !! q).
Proof. intros Hl Hq. by apply (Hl j). Qed.

(** Changing the links of one list leaves the others. *)
Lemma dlls_set_list m m' gl j l l' : mem_pages m gp → lists_pre gp gl → (∀ q, q ∈ l' → is_Some (gp !! q)) →
  (∀ q j', j' ≠ j → q ∈ gl j' → q ∉ l') →
  (∀ a, off_links l' a → m' !! a = m !! a) → dseg m' 0 l 0 → dlls m gl → dlls m' (set_list j l gl).
Proof.
  intros Hm Hl Hin Hnot Hf Hd Hds j'. unfold set_list. case_decide as Hj; [done|].
  eapply dseg_frame; [|apply Hds]. intros q Hq.
  destruct (list_in gl j' q Hl Hq) as [k Hk]. destruct (Hm _ _ Hk) as ([Hql _] & _).
  assert (Hoff : off_links l' (q + o_prev) ∧ off_links l' (q + o_next)).
  { assert (H : ∀ x, x ∈ l' → (q + o_prev ≠ x + o_prev ∧ q + o_prev ≠ x + o_next) ∧ q + o_next ≠ x + o_prev ∧ q + o_next ≠ x + o_next).
    { intros x Hx. destruct (Hin x Hx) as [k' Hk']. destruct (Hm _ _ Hk') as ([Hxl _] & _).
      assert (Hne : q ≠ x) by (intros ->; by apply (Hnot x j')).
      destruct (links_ne q x Hql Hxl) as [F1 F2]. destruct (links_ne x q Hxl Hql) as [F3 _]. destruct (F2 Hne) as [F4 F5]. auto. }
    split; intros x Hx; apply (H x Hx). }
  destruct Hoff. by rewrite !Hf by done.
Qed.
End Frames.

(** ** Blocks of a page *)
Definition pop_fl (b c : nat) (fl : list (nat * nat)) : list (nat * nat) := if (1 <? c)%nat then (S b, c - 1)%nat :: fl else fl.

Lemma cells_pop b c fl : (1 ≤ c)%nat → cells ((b, c) :: fl) = b :: cells (pop_fl b c fl).
Proof.
  intros Hc. unfold pop_fl. destruct (Nat.ltb_spec 1 c).
  - cbn [cells map concat fst snd]. destruct c as [|c]; [lia|]. cbn [seq app]. by rewrite Nat.sub_succ, Nat.sub_0_r.
  - assert (c = 1)%nat as -> by lia. done.
Qed.

Lemma kind_ok_pop i b c fl : kind_ok (KPool i ((b, c) :: fl)) →
  kind_ok (KPool i (pop_fl b c fl)) ∧ (b < nblk i)%nat ∧ b ∉ cells (pop_fl b c fl).
Proof.
  intros (Hi & Hn & Hf & Hc). apply Forall_cons_1 in Hc as [Hc Hcs]. cbn in Hc. rewrite cells_pop in Hn, Hf by done.
  apply list.NoDup_cons in Hn as [Hn1 Hn2]. apply Forall_cons_1 in Hf as [Hf1 Hf2].
  split; [|done]. split; [done|]. split; [done|]. split; [done|]. unfold pop_fl. destruct (Nat.ltb_spec 1 c); [|done].
  apply Forall_cons_2; [cbn; lia|done].
Qed.

Lemma memset0_spec n : ∀ a h, mapped (h_mem h) a (8 * Z.of_nat n) → a mod 8 = 0 →
  wp (memset0 a n) (λ _ h', ∃ m', h' = set_mem m' h ∧ mono (h_mem h) m' ∧
    (∀ j : nat, (j < n)%nat → m' !! (a + 8 * j) = Some 0) ∧ ∀ x, ¬ a <= x < a + 8 * n → m' !! x = h_mem h !! x) h.
Proof.
  induction n as [|n IH]; intros a h Hm Ha; cbn [memset0].
  - wp_step. exists (h_mem h). split; [by destruct h|]. split; [apply mono_refl|]. split; [lia|done].
  - do 2 wp_step; [apply Hm; [lia|done]|]. eapply wp_mono; [apply IH|].
    + cbn [h_mem set_mem]. intros x Hx H8. apply mono_insert. apply Hm; [lia|done].
    + rewrite Z.add_mod, Ha by lia. done.
    + cbn [h_mem set_mem]. intros _ h' (m' & -> & Hmono & Hz & Hf). exists m'. split; [done|]. split.
      { eapply mono_trans; [apply mono_insert|exact Hmono]. }
      split.
      * intros [|j] Hj; [|replace (a + 8 * S j) with (a + 8 + 8 * j) by lia; apply Hz; lia].
        rewrite Hf by lia. replace (a + 8 * 0%nat) with a by lia. apply lookup_insert_eq.
      * intros x Hx. rewrite Hf by lia. apply lookup_insert_ne. lia.
Qed.

(** Words of a block are mapped. *)
Lemma block_mapped m p i b : (i < 7)%nat → (b < nblk i)%nat → page_like p → mapped m p 4096 →
  mapped m (blk p i b) (bsz i) ∧ blk p i b mod 8 = 0.
Proof.
  intros Hi Hb [Hp _] Hm. destruct (blk_bounds p i b Hi Hb). destruct (blk_mod p i b Hi Hp) as [_ H16].
  split; [intros x Hx H8; apply Hm; [lia|done]|]. Z.to_euclidean_division_equations. lia.
Qed.

Lemma word_mapped m p x : page_like p → mapped m p 4096 → 0 <= x < 4096 → x mod 8 = 0 → is_Some (m !! (p + x)).
Proof. intros [Hp _] Hm Hx H8. apply Hm; [lia|]. Z.to_euclidean_division_equations. lia. Qed.

Lemma run_bound i b c fl : kind_ok (KPool i ((b, c) :: fl)) → (c ≤ nblk i)%nat.
Proof.
  intros (_ & _ & Hf & _). pose proof (submseteq_length (seq b c) (seq 0 (nblk i))) as Hlen. rewrite !length_seq in Hlen.
  apply Hlen, NoDup_submseteq; [apply NoDup_seq|]. intros x Hx. apply elem_of_seq. split; [lia|].
  apply (proj1 (list.Forall_forall _ _) Hf). cbn. apply elem_of_app. by left.
Qed.

Lemma pop_block_spec mp p i b c fl h :
  blockSize mp = bsz i → kind_ok (KPool i ((b, c) :: fl)) → page_addr p (KPool i ((b, c) :: fl)) → mapped (h_mem h) p 4096 →
  (∃ ptr, chain (h_mem h) p i ((b, c) :: fl) ptr) →
  wp (pop_block mp p (blk p i b)) (λ _ h', ∃ m', h' = set_mem m' h ∧ mono (h_mem h) m' ∧
    (∃ ptr, m' !! (p + o_freeBlockList) = Some ptr ∧ chain m' p i (pop_fl b c fl) ptr) ∧
    ∀ x, x ≠ p + o_freeBlockList → (∀ b', b' ∈ cells ((b, c) :: fl) → ¬ blk p i b' <= x < blk p i b' + bsz i) → m' !! x = h_mem h !! x) h.
Proof.
  intros Hbs Hk [Hp _] Hm (ptr & -> & H1 & nxt & H2 & H3). pose proof Hk as (Hi & Hn & Hf & Hc).
  destruct (kind_ok_pop _ _ _ _ Hk) as (Hk' & Hb & Hbn). apply Forall_cons_1 in Hc as [Hc Hcs]. cbn in Hc.
  destruct (pool_shape i Hi) as (_ & Hoff & Hsz & Hnb & _). destruct (blk_bounds p i b Hi Hb) as [Hlo Hhi].
  pose proof (run_bound _ _ _ _ Hk) as Hc32.
  unfold pop_block. do 2 wp_step; [exact H1|]. rewrite Hbs, cells_pop by done. rewrite cells_pop in Hf by done.
  unfold pop_fl in *. destruct (Nat.ltb_spec 1 c) as [Hc1|Hc1].
  - rewrite (proj2 (Z.ltb_lt _ _)) by lia.
    assert (Hsb : (S b < nblk i)%nat). { apply (proj1 (list.Forall_forall _ _) Hf). cbn [cells map concat fst snd].
      apply elem_of_cons. right. apply elem_of_app. left. apply elem_of_seq. lia. }
    assert (Enx : blk p i b + bsz i = blk p i (S b)) by (unfold blk; lia). rewrite Enx.
    destruct (blk_bounds p i (S b) Hi Hsb) as [Hlo' Hhi']. destruct (block_mapped _ p i (S b) Hi Hsb Hp Hm) as [Hbm Hb8].
    assert (Hbw : is_Some (h_mem h !! (blk p i (S b) + b_next)) ∧ is_Some (h_mem h !! (blk p i (S b) + b_freeBlocksCnt))).
    { offs. split; apply Hbm; try lia; Z.to_euclidean_division_equations; lia. }
    do 2 wp_step; [exact H2|]. do 2 wp_step; [apply Hbw|]. do 2 wp_step; [rewrite lookup_insert_ne by (offs; lia); exact H1|].
    do 2 wp_step; [apply mono_insert, Hbw|]. wp_step; [do 2 apply mono_insert; apply (word_mapped _ p 32); (done || lia)|].
    rewrite !set_mem_twice. eexists. split; [done|]. split.
    { eapply mono_trans; [apply mono_insert|]. eapply mono_trans; apply mono_insert. }
    split.
    + exists (blk p i (S b)). rewrite lookup_insert_eq. split; [done|]. cbn [chain]. split; [done|].
      rewrite (lookup_insert_ne _ (p + o_freeBlockList)) by (offs; lia). rewrite lookup_insert_eq.
      split; [f_equal; rewrite wrap_small; unfold fits; lia|]. exists nxt.
      split; [rewrite lookup_insert_ne, lookup_insert_ne, lookup_insert_eq by (offs; lia); done|].
      apply (chain_frame (h_mem h)); [done| |done|done]. intros b' x Hb' Hx.
      assert (Hne : S b ≠ b'). { destruct Hk' as (_ & Hn' & _). cbn [cells map concat fst snd] in Hn'.
        apply list.NoDup_app in Hn' as (_ & Hn' & _). intros <-. apply (Hn' (S b)); [apply elem_of_seq; lia|done]. }
      assert (Hb'n : (b' < nblk i)%nat). { apply (proj1 (list.Forall_forall _ _) Hf). cbn. set_solver. }
      destruct (blk_bounds p i b' Hi Hb'n). destruct (blk_disjoint p i (S b) b' Hi Hne); rewrite !lookup_insert_ne by (offs; lia); done.
    + intros x Hx Hnot. assert (Hx2 : ¬ blk p i (S b) <= x < blk p i (S b) + bsz i).
      { apply Hnot. cbn. apply elem_of_cons. right. apply elem_of_app. left. apply elem_of_seq. lia. }
      rewrite !lookup_insert_ne by (offs; lia). done.
  - rewrite (proj2 (Z.ltb_ge _ _)) by lia. do 2 wp_step; [exact H2|].
    wp_step; [apply (word_mapped _ p 32); (done || lia)|]. eexists. split; [done|]. split; [apply mono_insert|]. split.
    + exists nxt. rewrite lookup_insert_eq. split; [done|]. apply (chain_frame (h_mem h)); [done| |done|done].
      intros b' x Hb' Hx. assert (Hb'n : (b' < nblk i)%nat) by (apply (proj1 (list.Forall_forall _ _) Hf); set_solver).
      destruct (blk_bounds p i b' Hi Hb'n). rewrite lookup_insert_ne by (offs; lia). done.
    + intros x Hx _. by rewrite lookup_insert_ne.
Qed.

(** ** Replacing what is known of one page *)
Section OnePage.
Context (m m' : gmap Z Z) (gp : gmap Z pkind) (gl : nat → list Z) (p : Z) (k k' : pkind).
Context (Hm : mem_pages m gp) (Hsep : separate gp) (Hp : gp !! p = Some k) (Hsize : ksize k' = ksize k).
Context (Hmono : mono m m') (Hout : ∀ x, ¬ p <= x < p + ksize k → m' !! x = m !! x).

Lemma one_mem_pages : kind_ok k' → page_ok m' p k' → mem_pages m' (<[p := k']> gp).
Proof.
  intros Hk' Hok q kq Hq. destruct (decide (p = q)) as [<-|Hne].
  - rewrite lookup_insert_eq in Hq. injection Hq as <-. destruct (Hm _ _ Hp) as ([H1 H2] & _ & _ & H4).
    split; [split; [done|by rewrite Hsize]|]. split; [done|]. split; [done|]. rewrite Hsize. by eapply mapped_mono.
  - rewrite lookup_insert_ne in Hq by done. destruct (Hm _ _ Hq) as (H1 & H2 & H3 & H4).
    split; [done|]. split; [done|]. split; [|by eapply mapped_mono]. eapply page_ok_frame; [done| |exact H3].
    intros a (Ha & _). apply Hout. destruct (Hsep _ _ _ _ Hp Hq Hne); lia.
Qed.

Lemma one_separate : separate (<[p := k']> gp).
Proof.
  intros q kq r kr Hq Hr Hne. destruct (decide (p = q)) as [<-|Hpq], (decide (p = r)) as [<-|Hpr]; [done|..];
    rewrite ?lookup_insert_eq, ?lookup_insert_ne in Hq by done; rewrite ?lookup_insert_eq, ?lookup_insert_ne in Hr by done;
    simplify_eq; rewrite ?Hsize; by eapply Hsep.
Qed.

Lemma one_dlls : lists_pre gp gl → m' !! (p + o_prev) = m !! (p + o_prev) → m' !! (p + o_next) = m !! (p + o_next) →
  dlls m gl → dlls m' gl.
Proof.
  intros Hl H1 H2. apply (dlls_frame gp); [done|]. intros q [kq Hq]. destruct (decide (p = q)) as [<-|Hne]; [done|].
  destruct (Hm _ _ Hq) as (_ & Hkq & _). assert (4096 <= ksize kq) by (destruct kq; cbn [ksize kind_ok] in *; lia).
  destruct (Hsep _ _ _ _ Hp Hq Hne); rewrite !Hout by (offs; lia); done.
Qed.

(** The other chunks, whether a chunk [ptr] of the page comes or goes. *)
Lemma one_contents_add A ptr ws : contents m gp A →
  (∀ q cap, chunk_of p k' q cap ↔ chunk_of p k q cap ∨ q = ptr ∧ cap = 8 * length ws) →
  (∀ (j : nat) w, ws !! j = Some w → m' !! (ptr + 8 * j) = Some w) →
  (∀ q cap x, chunk_of p k q cap → q <= x < q + cap → m' !! x = m !! x) →
  (∀ cap, ¬ chunk gp ptr cap) →
  contents m' (<[p := k']> gp) (<[ptr := ws]> A).
Proof.
  intros [H1 H2] Hch Hws Hold Hfresh. split.
  - intros q vs Hq. destruct (decide (ptr = q)) as [<-|Hne].
    + rewrite lookup_insert_eq in Hq. injection Hq as <-. split; [|done]. exists p, k'. rewrite lookup_insert_eq. split; [done|].
      apply Hch. by right.
    + rewrite lookup_insert_ne in Hq by done. destruct (H1 _ _ Hq) as [(r & kr & Hr & Hc) Hw].
      destruct (Hm _ _ Hr) as (_ & Hkr & _). pose proof (chunk_bounds _ _ _ _ Hkr Hc) as Hb.
      destruct (decide (p = r)) as [<-|Hpr].
      * assert (kr = k) as -> by congruence. split.
        { exists p, k'. rewrite lookup_insert_eq. split; [done|]. apply Hch. by left. }
        intros j w Hj. rewrite (Hold _ _ _ Hc); [by apply Hw|]. apply lookup_lt_Some in Hj. lia.
      * split; [exists r, kr; by rewrite lookup_insert_ne|]. intros j w Hj. rewrite Hout; [by apply Hw|].
        apply lookup_lt_Some in Hj. destruct (Hsep _ _ _ _ Hp Hr Hpr); lia.
  - intros q cap (r & kr & Hr & Hc). destruct (decide (ptr = q)) as [<-|Hne]; [by rewrite lookup_insert_eq|].
    rewrite lookup_insert_ne by done. apply (H2 q cap). destruct (decide (p = r)) as [<-|Hpr].
    + rewrite lookup_insert_eq in Hr. injection Hr as <-. apply Hch in Hc as [Hc|[-> _]]; [|done]. by exists p, k.
    + rewrite lookup_insert_ne in Hr by done. by exists r, kr.
Qed.

Lemma one_contents_del A ptr cap0 : contents m gp A →
  (∀ q cap, chunk_of p k' q cap ↔ chunk_of p k q cap ∧ q ≠ ptr) → chunk_of p k ptr cap0 →
  (∀ q cap x, chunk_of p k q cap → q ≠ ptr → q <= x < q + cap → m' !! x = m !! x) →
  contents m' (<[p := k']> gp) (delete ptr A).
Proof.
  intros [H1 H2] Hch Hptr Hold. split.
  - intros q vs Hq. apply lookup_delete_Some in Hq as [Hne Hq]. destruct (H1 _ _ Hq) as [(r & kr & Hr & Hc) Hw].
    destruct (Hm _ _ Hr) as (_ & Hkr & _). pose proof (chunk_bounds _ _ _ _ Hkr Hc) as Hb.
    destruct (decide (p = r)) as [<-|Hpr].
    + assert (kr = k) as -> by congruence. split.
      { exists p, k'. rewrite lookup_insert_eq. split; [done|]. by apply Hch. }
      intros j w Hj. rewrite (Hold _ _ _ Hc); [by apply Hw|done|]. apply lookup_lt_Some in Hj. lia.
    + split; [exists r, kr; by rewrite lookup_insert_ne|]. intros j w Hj. rewrite Hout; [by apply Hw|].
      apply lookup_lt_Some in Hj. destruct (Hsep _ _ _ _ Hp Hr Hpr); lia.
  - intros q cap (r & kr & Hr & Hc). assert (Hq : q ≠ ptr ∧ chunk gp q cap).
    { destruct (decide (p = r)) as [<-|Hpr].
      - rewrite lookup_insert_eq in Hr. injection Hr as <-. apply Hch in Hc as [Hc Hne]. split; [done|]. by exists p, k.
      - rewrite lookup_insert_ne in Hr by done. split; [|by exists r, kr]. intros ->.
        destruct (Hm _ _ Hr) as (_ & Hkr & _), (Hm _ _ Hp) as (_ & Hk & _).
        pose proof (chunk_bounds _ _ _ _ Hkr Hc). pose proof (chunk_bounds _ _ _ _ Hk Hptr).
        destruct (Hsep _ _ _ _ Hp Hr Hpr); lia. }
    destruct Hq as [Hne Hq]. rewrite lookup_delete_ne by done. by eapply H2.
Qed.
End OnePage.

(** ** Lists of pages in the heap *)
Lemma heads_mod h gl cnt i f gl' cnt' :
  heads h gl cnt → (i < 7)%nat →
  f (mkMempool (Z.of_nat i + 4) (bsz i) (Z.of_nat (nblk i)) (cnt i) (hd 0 (gl i))) =
    mkMempool (Z.of_nat i + 4) (bsz i) (Z.of_nat (nblk i)) (cnt' i) (hd 0 (gl' i)) →
  (∀ j, j ≠ i → cnt' j = cnt j ∧ gl' j = gl j) →
  heads (mkHeap (h_mem h) (initFlag h) (g_pageList h) (alter f i (dfxMempoolBuf h))) gl' cnt'.
Proof.
  intros (H1 & H2 & H3 & H4) Hi Hf Hj. split; [done|]. cbn [dfxMempoolBuf g_pageList]. split; [by rewrite length_alter|]. split.
  - intros j Hj7. destruct (decide (j = i)) as [->|Hne].
    + rewrite list_lookup_alter_eq, H3 by done. cbn. by rewrite Hf.
    + rewrite list_lookup_alter_ne by done. destruct (Hj j Hne) as [-> ->]. by apply H3.
  - destruct (Hj 7%nat ltac:(lia)) as [_ ->]. done.
Qed.

(** The memory of a heap, with everything about it that does not change when links change. *)
Definition relinked (gp : gmap Z pkind) (gl : nat → list Z) (m m' : gmap Z Z) : Prop :=
  mem_pages m' gp ∧ dlls m' gl ∧ mono m m' ∧ ∀ A, contents m gp A → contents m' gp A.

Lemma AddPage_heap gp gl j p h :
  mem_pages (h_mem h) gp → separate gp → lists_pre gp gl → dlls (h_mem h) gl →
  is_Some (gp !! p) → (∀ j', p ∉ gl j') →
  wp (AddPage (hd 0 (gl j)) p) (λ r h', r = p ∧ ∃ m', h' = set_mem m' h ∧ relinked gp (set_list j (p :: gl j) gl) (h_mem h) m') h.
Proof.
  intros Hm Hsep Hl Hd [k Hk] Hnin. destruct (Hm _ _ Hk) as ([Hpl _] & Hko & _ & Hmap).
  assert (4096 <= ksize k) by (destruct k; cbn [ksize kind_ok] in *; lia).
  assert (Hmap' : mapped (h_mem h) p 4096) by (intros x Hx; apply Hmap; lia).
  assert (Hin : ∀ q, q ∈ p :: gl j → is_Some (gp !! q)).
  { intros q [->|Hq]%elem_of_cons; [by exists k|by apply (Hl j)]. }
  eapply wp_mono; [apply (AddPage_spec _ p (gl j))|].
  - apply Forall_cons_2; [done|]. by eapply lists_like.
  - apply list.NoDup_cons. split; [done|apply Hl].
  - done.
  - apply Hd.
  - apply (word_mapped _ p 16); (done || lia).
  - apply (word_mapped _ p 24); (done || lia).
  - intros r h' (-> & m' & -> & Hd' & Hmono & Hf). split; [done|]. exists m'. split; [done|].
    split; [by eapply links_frame|]. split; [|split; [done|]].
    + eapply dlls_set_list; try done. intros q j' Hne Hq [->|Hq']%elem_of_cons; [by apply (Hnin j')|].
      by apply (proj2 (proj2 (Hl j)) j' q Hne).
    + intros A. by apply links_contents with (l := p :: gl j).
Qed.

Lemma RemovePage_heap gp gl j p l1 l2 h :
  mem_pages (h_mem h) gp → separate gp → lists_pre gp gl → dlls (h_mem h) gl → gl j = l1 ++ p :: l2 →
  wp (RemovePage (hd 0 (gl j)) p) (λ r h', r = hd 0 (l1 ++ l2) ∧ ∃ m', h' = set_mem m' h ∧ relinked gp (set_list j (l1 ++ l2) gl) (h_mem h) m') h.
Proof.
  intros Hm Hsep Hl Hd Hj. eapply wp_mono; [apply (RemovePage_spec _ p l1 l2)|]; rewrite <- ?Hj.
  - by eapply lists_like.
  - apply Hl.
  - done.
  - apply Hd.
  - intros r h' (-> & m' & -> & Hd' & Hmono & Hf). split; [done|]. exists m'. split; [done|].
    split; [eapply links_frame; try done; apply Hl|]. split; [|split; [done|]].
    + eapply dlls_set_list; try done; [apply Hl|]. intros q j' Hne. apply (Hl j); done.
    + intros A. apply links_contents with (l := gl j); try done. apply Hl.
Qed.

Lemma lists_pre_remove gp gl j p l1 l2 : lists_pre gp gl → gl j = l1 ++ p :: l2 → lists_pre gp (set_list j (l1 ++ l2) gl).
Proof.
  intros Hl Hj j'. unfold set_list. case_decide as E.
  - subst. destruct (Hl j) as (H1 & H2 & H3). rewrite Hj in *. split; [|split].
    + apply list.NoDup_app in H1 as (N1 & N2 & N3). apply list.NoDup_cons in N3 as [N3 N4]. apply list.NoDup_app. set_solver.
    + set_solver.
    + intros j' q Hne. case_decide; [done|]. intros Hq. specialize (H3 j' q Hne Hq). set_solver.
  - destruct (Hl j') as (H1 & H2 & H3). split; [done|]. split; [done|]. intros j2 q Hne. case_decide as E2.
    + subst. intros Hq. apply (H3 j); [done|]. rewrite Hj. set_solver.
    + by apply H3.
Qed.

(** The invariant of the allocator, for an abstract heap [A]. *)
Definition inv (h : heap) (A : gmap Z (list Z)) : Prop :=
  ∃ gp gl, heads h gl (λ _, 0) ∧ mem_pages (h_mem h) gp ∧ separate gp ∧ lists_ok gp gl ∧ dlls (h_mem h) gl ∧ not_free gp ∧
    contents (h_mem h) gp A.

Definition block_words (i : nat) : nat := Z.to_nat (bsz i / 8).
Lemma block_words_eq i : (i < 7)%nat → 8 * Z.of_nat (block_words i) = bsz i.
Proof. intros Hi. do 7 (destruct i as [|i]; [by vm_compute|]). lia. Qed.

(** A block of a page is taken: the memory afterwards. *)
Lemma take_page m m' gp A p i b c fl : 
  mem_pages m gp → separate gp → gp !! p = Some (KPool i ((b, c) :: fl)) → contents m gp A → mono m m' →
  (∃ ptr, m' !! (p + o_freeBlockList) = Some ptr ∧ chain m' p i (pop_fl b c fl) ptr) →
  m' !! (p + o_freeBlocksCnt) = Some (Z.of_nat (length (cells (pop_fl b c fl)))) →
  (∀ j : nat, (j < block_words i)%nat → m' !! (blk p i b + 8 * j) = Some 0) →
  (∀ x, x ≠ p + o_freeBlockList → x ≠ p + o_freeBlocksCnt →
        (∀ b', b' ∈ cells ((b, c) :: fl) → ¬ blk p i b' <= x < blk p i b' + bsz i) → m' !! x = m !! x) →
  let gp' := <[p := KPool i (pop_fl b c fl)]> gp in
  mem_pages m' gp' ∧ separate gp' ∧ (∀ gl, lists_pre gp gl → dlls m gl → dlls m' gl) ∧
  contents m' gp' (<[blk p i b := replicate (block_words i) 0]> A) ∧ A !! blk p i b = None.
Proof.
  intros Hm Hsep Hp HA Hmono Hch Hcnt Hz Hf gp'. destruct (Hm _ _ Hp) as ([Hpl _] & Hk & (Htag & _ & _) & Hmap).
  destruct (kind_ok_pop _ _ _ _ Hk) as (Hk' & Hb & Hbn). pose proof Hk as (Hi & Hn & Hfo & Hc).
  apply Forall_cons_1 in Hc as [Hc Hcs]. cbn in Hc. pose proof (cells_pop b c fl Hc) as Hcells. rewrite Hcells in Hf, Hfo.
  assert (Hblk : ∀ b', b' ∈ b :: cells (pop_fl b c fl) → p + 48 <= blk p i b' ∧ blk p i b' + bsz i <= p + 4096).
  { intros b' Hb'. apply blk_bounds; [done|]. by apply (proj1 (list.Forall_forall _ _) Hfo). }
  assert (Hhead : ∀ x, 0 <= x < 48 → x ≠ 32 → x ≠ 40 → m' !! (p + x) = m !! (p + x)).
  { intros x Hx H1 H2. apply Hf; [offs; lia..|]. intros b' Hb'. specialize (Hblk b' Hb'). lia. }
  assert (Hout : ∀ x, ¬ p <= x < p + 4096 → m' !! x = m !! x).
  { intros x Hx. apply Hf; [offs; lia..|]. intros b' Hb'. specialize (Hblk b' Hb'). lia. }
  assert (Hlive : ∀ q cap x, chunk_of p (KPool i ((b, c) :: fl)) q cap → q <= x < q + cap → m' !! x = m !! x).
  { intros q cap x (b' & Hb' & Hnb & -> & ->) Hx. destruct (blk_bounds p i b' Hi Hb'). apply Hf; [offs; lia..|].
    intros b2 Hb2. rewrite Hcells in Hnb. assert (Hne : b' ≠ b2) by (by intros ->). destruct (blk_disjoint p i b' b2 Hi Hne); lia. }
  assert (Hfresh : ∀ cap, ¬ chunk gp (blk p i b) cap).
  { intros cap (r & kr & Hr & Hcr). destruct (Hm _ _ Hr) as (_ & Hkr & _). pose proof (chunk_bounds _ _ _ _ Hkr Hcr) as Hbd.
    destruct (decide (p = r)) as [<-|Hpr].
    - rewrite Hp in Hr. injection Hr as <-. destruct Hcr as (b' & Hb' & Hnb & E & _). assert (Hbb : b ≠ b') by (intros <-; apply Hnb; rewrite Hcells; set_solver).
      destruct (pool_shape i Hi) as (_ & _ & ? & _). destruct (blk_disjoint p i b b' Hi Hbb); lia.
    - destruct (Hblk b ltac:(set_solver)). destruct (pool_shape i Hi) as (_ & _ & ? & _).
      destruct (Hsep _ _ _ _ Hp Hr Hpr) as [?|?]; cbn [ksize] in *; lia. }
  split; [eapply (one_mem_pages m); try done|split; [by eapply one_separate|split; [|split]]].
  - cbn [page_ok]. split; [|done]. offs. by rewrite Hhead by lia.
  - intros gl Hl. eapply one_dlls; try done; apply Hhead; offs; lia.
  - eapply (one_contents_add m m' gp p); try done.
    + intros q cap. cbn [chunk_of]. rewrite length_replicate, block_words_eq by done. setoid_rewrite Hcells. split.
      * intros (b' & Hb' & Hnb & -> & ->). destruct (decide (b' = b)) as [->|Hne]; [by right|left]. exists b'. set_solver.
      * intros [(b' & Hb' & Hnb & -> & ->)|[-> ->]]; [exists b'|exists b]; set_solver.
    + intros j w Hj. apply lookup_replicate in Hj as [-> Hj]. by apply Hz.
  - destruct (A !! blk p i b) as [ws|] eqn:E; [|done]. destruct HA as [HA _]. destruct (HA _ _ E) as [Hch' _]. by apply Hfresh in Hch'.
Qed.

Lemma heads_set_mem h m gl cnt : heads h gl cnt → heads (set_mem m h) gl cnt.
Proof. done. Qed.

(** A page of a pool that has a free block, perhaps one that was just mapped. *)
Definition ready (h : heap) (A : gmap Z (list Z)) (gp : gmap Z pkind) (gl : nat → list Z) (i : nat) (p : Z) (l : list Z)
  (fl : list (nat * nat)) : Prop :=
  heads h gl (λ j, if decide (j = i ∧ length (cells fl) = nblk i) then 1 else 0) ∧
  mem_pages (h_mem h) gp ∧ separate gp ∧ lists_ok gp gl ∧ dlls (h_mem h) gl ∧ contents (h_mem h) gp A ∧
  gp !! p = Some (KPool i fl) ∧ gl i = p :: l ∧
  (∀ q j fl', q ≠ p → gp !! q = Some (KPool j fl') → (length (cells fl') < nblk j)%nat).

Lemma lists_ok_pop gp gl i p l fl fl' :
  lists_ok gp gl → gp !! p = Some (KPool i fl) → gl i = p :: l →
  lists_ok (<[p := KPool i fl']> gp) (if decide (fl' = []) then set_list i l gl else gl).
Proof.
  intros Hl Hp Hi j. destruct (Hl j) as [Hn Hj].
  assert (Hother : ∀ q, q ≠ p → (q ∈ gl j ↔ ∃ k, <[p := KPool i fl']> gp !! q = Some k ∧ on_list k j)).
  { intros q Hq. rewrite lookup_insert_ne by done. apply Hj. }
  assert (Hpj : p ∈ gl j ↔ j = i). { rewrite Hj, Hp. split; [intros (k & [= <-] & H); apply H|intros ->]. exists (KPool i fl).
    split; [done|]. split; [done|]. intros ->. destruct (Hl i) as [_ Hli]. destruct (proj1 (Hli p)) as (k & Hk & Ho); [rewrite Hi; set_solver|].
    rewrite Hp in Hk. injection Hk as <-. by destruct Ho. }
  case_decide as E; [subst fl'|].
  - unfold set_list. case_decide as Ej.
    + subst j. rewrite Hi in *. apply list.NoDup_cons in Hn as [Hn1 Hn2]. split; [done|]. intros q. destruct (decide (q = p)) as [->|Hq].
      * rewrite lookup_insert_eq. split; [done|]. intros (k & [= <-] & [_ Hne]). done.
      * rewrite <- Hother by done. set_solver.
    + split; [done|]. intros q. destruct (decide (q = p)) as [->|Hq]; [|by apply Hother].
      rewrite lookup_insert_eq. split; [intros H; by apply Hpj in H|]. intros (k & [= <-] & [-> _]). done.
  - split; [done|]. intros q. destruct (decide (q = p)) as [->|Hq]; [|by apply Hother].
    rewrite lookup_insert_eq, Hpj. split; [intros ->; by exists (KPool i fl')|]. intros (k & [= <-] & [-> _]). done.
Qed.

Lemma MempoolRemovePage_spec gp gl cnt i p l1 l2 h :
  (i < 7)%nat → heads h gl cnt → mem_pages (h_mem h) gp → separate gp → lists_pre gp gl → dlls (h_mem h) gl → gl i = l1 ++ p :: l2 →
  wp (MempoolRemovePage i p) (λ _ h', heads h' (set_list i (l1 ++ l2) gl) cnt ∧
    relinked gp (set_list i (l1 ++ l2) gl) (h_mem h) (h_mem h')) h.
Proof.
  intros Hi Hh Hm Hsep Hl Hd Hg. unfold MempoolRemovePage. wp_step. eapply wp_get_pool; [by apply Hh|]. cbn [mp_pageList].
  wp_step. eapply wp_mono; [by apply (RemovePage_heap gp gl i p l1 l2)|]. intros r h' (-> & m' & -> & Hr).
  unfold mod_pool. wp_step. split; [|done]. eapply (heads_mod (set_mem m' h)); [exact Hh|done| |].
  - unfold set_list. rewrite decide_True by done. done.
  - intros j Hj. unfold set_list. by rewrite decide_False.
Qed.

Lemma MempoolAddPage_spec gp gl cnt i p h :
  (i < 7)%nat → heads h gl cnt → mem_pages (h_mem h) gp → separate gp → lists_pre gp gl → dlls (h_mem h) gl →
  is_Some (gp !! p) → (∀ j, p ∉ gl j) →
  wp (MempoolAddPage i p) (λ _ h', heads h' (set_list i (p :: gl i) gl) cnt ∧
    relinked gp (set_list i (p :: gl i) gl) (h_mem h) (h_mem h')) h.
Proof.
  intros Hi Hh Hm Hsep Hl Hd Hp Hn. unfold MempoolAddPage. wp_step. eapply wp_get_pool; [by apply Hh|]. cbn [mp_pageList].
  wp_step. eapply wp_mono; [by apply (AddPage_heap gp gl i p)|]. intros r h' (-> & m' & -> & Hr).
  unfold mod_pool. wp_step. split; [|done]. eapply (heads_mod (set_mem m' h)); [exact Hh|done| |].
  - unfold set_list. rewrite decide_True by done. done.
  - intros j Hj. unfold set_list. by rewrite decide_False.
Qed.

Lemma cells_bound i fl : kind_ok (KPool i fl) → (length (cells fl) ≤ nblk i)%nat.
Proof.
  intros (_ & Hn & Hf & _). pose proof (submseteq_length (cells fl) (seq 0 (nblk i))) as H. rewrite length_seq in H.
  apply H, NoDup_submseteq; [done|]. intros x Hx. apply elem_of_seq. split; [lia|]. by apply (proj1 (list.Forall_forall _ _) Hf).
Qed.

(** The pool is told that a page is not entirely free any more. *)
Lemma dec_free_pages h gl i (n : nat) Q :
  (i < 7)%nat → heads h gl (λ j, if decide (j = i ∧ n = nblk i) then 1 else 0) →
  (∀ h', heads h' gl (λ _, 0) → h_mem h' = h_mem h → Q tt h') →
  wp (if Z.of_nat n =? Z.of_nat (nblk i) then mod_pool i (λ mp, set_freePagesCnt (u64 (freePagesCnt mp - 1)) mp) else mret tt) Q h.
Proof.
  intros Hi Hh HQ. destruct (Z.eqb_spec (Z.of_nat n) (Z.of_nat (nblk i))) as [Ef|Ef].
  - unfold mod_pool. wp_step. apply HQ; [|done]. eapply (heads_mod h); [exact Hh|done| |].
    + cbv beta. rewrite decide_True by (split; [done|by apply Nat2Z.inj]). done.
    + intros j Hj. cbv beta. rewrite decide_False by tauto. done.
  - wp_step. apply HQ; [|done]. destruct Hh as (E1 & E2 & E3 & E4). split; [done|]. split; [done|]. split; [|done].
    intros j Hj. rewrite (E3 j Hj), decide_False; [done|]. intros [-> ?]. congruence.
Qed.

Lemma take_block_spec h gl mp p i b c fl :
  (i < 7)%nat → blockSize mp = bsz i → blocksPerPage mp = Z.of_nat (nblk i) →
  heads h gl (λ j, if decide (j = i ∧ length (cells ((b, c) :: fl)) = nblk i) then 1 else 0) →
  kind_ok (KPool i ((b, c) :: fl)) → page_addr p (KPool i ((b, c) :: fl)) → mapped (h_mem h) p 4096 →
  page_ok (h_mem h) p (KPool i ((b, c) :: fl)) →
  wp (take_block i mp p (blk p i b)) (λ _ h', heads h' gl (λ _, 0) ∧ mono (h_mem h) (h_mem h') ∧
    (∃ ptr, h_mem h' !! (p + o_freeBlockList) = Some ptr ∧ chain (h_mem h') p i (pop_fl b c fl) ptr) ∧
    h_mem h' !! (p + o_freeBlocksCnt) = Some (Z.of_nat (length (cells (pop_fl b c fl)))) ∧
    (∀ j : nat, (j < block_words i)%nat → h_mem h' !! (blk p i b + 8 * j) = Some 0) ∧
    (∀ x, x ≠ p + o_freeBlockList → x ≠ p + o_freeBlocksCnt →
          (∀ b', b' ∈ cells ((b, c) :: fl) → ¬ blk p i b' <= x < blk p i b' + bsz i) → h_mem h' !! x = h_mem h !! x)) h.
Proof.
  intros Hi Hbs Hbp Hh Hk [Hpl Hpa] Hmap (_ & (ptr & Hptr & Hch) & Hcnt).
  destruct (kind_ok_pop _ _ _ _ Hk) as (Hk' & Hb & Hbn). destruct (blk_bounds p i b Hi Hb) as [Hlo Hhi].
  destruct (block_mapped _ p i b Hi Hb Hpl Hmap) as [Hbm Hb8]. destruct (pool_shape i Hi) as (_ & _ & _ & Hnb & _).
  assert (Hc : (1 ≤ c)%nat) by (destruct Hk as (_ & _ & _ & Hc); by apply Forall_cons_1 in Hc as [Hc _]).
  pose proof (cells_pop b c fl Hc) as Hcells. pose proof (cells_bound _ _ Hk) as Hlen. pose proof Hk as (_ & Hnd & Hfo & _).
  assert (Hblk : ∀ b', b' ∈ cells ((b, c) :: fl) → p + 48 <= blk p i b').
  { intros b' Hb'. apply blk_bounds; [done|]. by apply (proj1 (list.Forall_forall _ _) Hfo). }
  unfold take_block. rewrite Hbp.
  wp_step. eapply wp_mono; [apply (pop_block_spec _ p i b c fl); [done|exact Hk|split; done|done|by exists ptr]|].
  intros _ h1 (m1 & -> & Hmono1 & Hch1 & Hf1).
  assert (Hcnt1 : m1 !! (p + o_freeBlocksCnt) = Some (Z.of_nat (length (cells ((b, c) :: fl))))).
  { rewrite Hf1; [done|offs; lia|]. intros b' Hb'. specialize (Hblk b' Hb'). offs. lia. }
  do 2 wp_step; [exact Hcnt1|]. wp_step. apply (dec_free_pages (set_mem m1 h) gl i); [done|exact Hh|].
  intros h2 Hh2 Em2. cbn [h_mem set_mem] in Em2. wp_step. rewrite Hcells. cbn [length].
  rewrite (proj2 (Z.ltb_lt 0 _)) by lia. wp_step; [rewrite Em2; by rewrite Hcnt1|].
  rewrite Hbs. fold (block_words i). eapply wp_mono; [apply memset0_spec|]; cbn [h_mem set_mem]; rewrite ?Em2; [|done|].
  { eapply mapped_mono; [|apply mono_insert]. eapply mapped_mono; [|exact Hmono1]. by rewrite block_words_eq. }
  intros _ h3 (m3 & -> & Hmono3 & Hz & Hf3). rewrite block_words_eq in Hf3 by done. cbn [h_mem set_mem].
  split; [done|]. split; [eapply mono_trans; [exact Hmono1|]; eapply mono_trans; [apply mono_insert|exact Hmono3]|].
  split; [|split; [|split; [done|]]].
  - destruct Hch1 as (ptr' & Hp1 & Hch1). exists ptr'. rewrite Hf3, lookup_insert_ne by (offs; lia). split; [done|].
    apply (chain_frame m1); [done| |apply Hk'|done]. intros b' x Hb' Hx. assert (Hne : b ≠ b') by (intros ->; done).
    assert (Hin : b' ∈ cells ((b, c) :: fl)) by (rewrite Hcells; set_solver). specialize (Hblk b' Hin).
    destruct (blk_disjoint p i b b' Hi Hne); rewrite Hf3, lookup_insert_ne by (offs; lia); done.
  - rewrite Hf3 by (offs; lia). rewrite lookup_insert_eq. f_equal. rewrite Hcells in Hlen. cbn in Hlen.
    rewrite wrap_small; unfold fits; lia.
  - intros x Hx1 Hx2 Hx3. rewrite <- Hcells in Hx3. rewrite Hf3, lookup_insert_ne by (done || apply Hx3; rewrite Hcells; set_solver).
    by apply Hf1.
Qed.

Lemma alloc_from_spec h A gp gl i p l fl :
  (i < 7)%nat → ready h A gp gl i p l fl →
  wp (alloc_from i (mkMempool (Z.of_nat i + 4) (bsz i) (Z.of_nat (nblk i))
        (if decide (i = i ∧ length (cells fl) = nblk i) then 1 else 0) (hd 0 (gl i))) p)
    (λ r h', inv h' (<[r := replicate (block_words i) 0]> A) ∧ A !! r = None ∧ r mod 16 = 0 ∧ 0 < r) h.
Proof.
  intros Hi (Hh & Hm & Hsep & Hl & Hd & HA & Hp & Hgl & Hnf). destruct (Hm _ _ Hp) as (Hpa & Hk & Hok & Hmap).
  assert (Hne : fl ≠ []).
  { destruct (proj1 (proj2 (Hl i) p)) as (k & Hk' & Ho); [rewrite Hgl; set_solver|]. rewrite Hp in Hk'. injection Hk' as <-. apply Ho. }
  destruct fl as [|[b c] fl]; [done|]. pose proof Hok as (_ & (ptr & Hptr & Hch) & _). destruct Hch as [-> _].
  destruct (kind_ok_pop _ _ _ _ Hk) as (Hk' & Hb & Hbn). destruct (blk_bounds p i b Hi Hb) as [Hlo Hhi]. pose proof Hpa as [[Hp1 Hp2] _].
  unfold alloc_from. do 2 wp_step; [exact Hptr|]. rewrite (proj2 (Z.eqb_neq _ 0)) by lia.
  wp_step. eapply wp_mono; [by eapply take_block_spec|]. intros _ h3 (Hh3 & Hmono & Hch3 & Hcnt3 & Hz & Hf3).
  destruct (take_page (h_mem h) (h_mem h3) gp A p i b c fl) as (Hm' & Hsep' & Hd' & HA' & Hfresh); try done.
  do 2 wp_step; [exact Hcnt3|]. pose proof (lists_pre_insert _ _ p (KPool i (pop_fl b c fl)) (lists_ok_pre _ _ Hl)) as Hlp.
  pose proof (lists_ok_pop _ _ _ _ _ _ (pop_fl b c fl) Hl Hp Hgl) as Hl'. specialize (Hd' gl (lists_ok_pre _ _ Hl) Hd).
  assert (Hnf' : not_free (<[p := KPool i (pop_fl b c fl)]> gp)).
  { intros q j fl' Hq. destruct (decide (p = q)) as [<-|Hpq].
    - rewrite lookup_insert_eq in Hq. injection Hq as <- <-. pose proof (cells_bound _ _ Hk) as Hlen.
      rewrite cells_pop in Hlen by (destruct Hk as (_ & _ & _ & Hc); by apply Forall_cons_1 in Hc as [Hc _]). cbn in Hlen. lia.
    - rewrite lookup_insert_ne in Hq by done. by eapply Hnf. }
  assert (Hend : blk p i b mod 16 = 0 ∧ 0 < blk p i b) by (split; [by apply blk_mod|lia]).
  wp_step. destruct (Z.eqb_spec (Z.of_nat (length (cells (pop_fl b c fl)))) 0) as [E0|E0].
  - assert (Efl : pop_fl b c fl = []).
    { destruct (pop_fl b c fl) as [|[b1 c1] fl1]; [done|]. destruct Hk' as (_ & _ & _ & Hc'). apply Forall_cons_1 in Hc' as [Hc' _].
      cbn in Hc'. cbn in E0. rewrite length_app, length_seq in E0. lia. }
    rewrite decide_True in Hl' by done.
    eapply wp_mono; [eapply (MempoolRemovePage_spec _ gl (λ _, 0) i p [] l); (done || exact Hlp)|].
    cbn [app]. intros _ h4 (Hh4 & Hm4 & Hd4 & _ & HA4). wp_step. split; [|done]. eexists _, _. split; [exact Hh4|].
    split; [exact Hm4|]. split; [done|]. split; [exact Hl'|]. split; [exact Hd4|]. split; [done|]. by apply HA4.
  - rewrite decide_False in Hl' by (intros Efl; by rewrite Efl in E0). do 2 wp_step. split; [|done].
    by exists (<[p := KPool i (pop_fl b c fl)]> gp), gl.
Qed.

(** ** Mapping memory *)
Lemma zeros_in n : ∀ a j, (j < n)%nat → zeros a n !! (a + 8 * Z.of_nat j) = Some 0.
Proof.
  induction n as [|n IH]; intros a j Hj; [lia|]. cbn [zeros]. destruct j as [|j].
  - replace (a + 8 * Z.of_nat 0) with a by lia. apply lookup_insert_eq.
  - rewrite lookup_insert_ne by lia. replace (a + 8 * Z.of_nat (S j)) with (a + 8 + 8 * Z.of_nat j) by lia. apply IH. lia.
Qed.
Lemma zeros_out n : ∀ a x, ¬ a <= x < a + 8 * Z.of_nat n → zeros a n !! x = None.
Proof.
  induction n as [|n IH]; intros a x Hx; cbn [zeros]; [done|]. rewrite lookup_insert_ne by lia. apply IH. lia.
Qed.

Lemma map_range_spec p size m : 0 <= size → size mod 4096 = 0 → p mod 4096 = 0 →
  (∀ x, p <= x < p + size → x mod 8 = 0 → map_range p size m !! x = Some 0) ∧
  (∀ x, ¬ p <= x < p + size → map_range p size m !! x = m !! x) ∧ mono m (map_range p size m).
Proof.
  intros Hs H4 Hp. unfold map_range. assert (E : 8 * Z.of_nat (Z.to_nat (size / 8)) = size).
  { rewrite Z2Nat.id by (apply Z.div_pos; lia). Z.to_euclidean_division_equations. lia. }
  split; [|split].
  - intros x Hx H8. apply lookup_union_Some_l. replace x with (p + 8 * Z.of_nat (Z.to_nat ((x - p) / 8))).
    + apply zeros_in. apply Z2Nat.inj_lt; [apply Z.div_pos; lia..|]. Z.to_euclidean_division_equations. lia.
    + rewrite Z2Nat.id by (apply Z.div_pos; lia). Z.to_euclidean_division_equations. lia.
  - intros x Hx. rewrite lookup_union_r; [done|]. apply zeros_out. by rewrite E.
  - intros x Hx. destruct (zeros p (Z.to_nat (size / 8)) !! x) as [v|] eqn:Ez.
    + rewrite (lookup_union_Some_l _ _ _ _ Ez). by exists v.
    + by rewrite lookup_union_r.
Qed.

(** What the kernel guarantees: pages that were not mapped. *)
Definition mmap_ok (mmap : gmap Z Z → Z → option Z) : Prop :=
  ∀ m size p, mmap m size = Some p → 0 < size →
    p mod 4096 = 0 ∧ 0 < p ∧ p + size <= 2 ^ 64 ∧ ∀ a, p <= a < p + size → m !! a = None.

(** Fresh memory meets no page of the allocator. *)
Lemma fresh_separate m gp p size q kq : mem_pages m gp → gp !! q = Some kq →
  p mod 4096 = 0 → size mod 4096 = 0 → 0 < size → (∀ a, p <= a < p + size → m !! a = None) →
  p + size <= q ∨ q + ksize kq <= p.
Proof.
  intros Hm Hq Hp Hs Hs0 Hnone. destruct (Hm _ _ Hq) as ([[Hql Hq0] _] & Hk & _ & Hmap).
  assert (Hks : 4096 <= ksize kq ∧ ksize kq mod 4096 = 0) by (destruct kq; cbn [ksize kind_ok] in *; [done|lia]).
  destruct (Z.le_gt_cases (p + size) q) as [|H1]; [by left|]. destruct (Z.le_gt_cases (q + ksize kq) p) as [|H2]; [by right|].
  exfalso. destruct (Hmap (Z.max p q)) as [v Hv].
  - lia.
  - Z.to_euclidean_division_equations. lia.
  - rewrite Hnone in Hv by lia. done.
Qed.

Section NewPage.
Context (m m' : gmap Z Z) (gp : gmap Z pkind) (gl : nat → list Z) (p : Z) (k : pkind).
Context (Hm : mem_pages m gp) (Hsep : separate gp).
Context (Hnew : ∀ q kq, gp !! q = Some kq → p + ksize k <= q ∨ q + ksize kq <= p).
Context (Hk : kind_ok k) (Hpa : page_addr p k) (Hok : page_ok m' p k) (Hmap : mapped m' p (ksize k)).
Context (Hmono : mono m m') (Hout : ∀ x, ¬ p <= x < p + ksize k → m' !! x = m !! x).

Lemma new_size : 4096 <= ksize k.
Proof. clear -Hk. destruct k; cbn [ksize kind_ok] in *; lia. Qed.

Lemma new_fresh : gp !! p = None.
Proof.
  destruct (gp !! p) as [kq|] eqn:E; [|done]. pose proof new_size. destruct (Hm _ _ E) as (_ & Hkq & _).
  assert (4096 <= ksize kq) by (destruct kq; cbn [ksize kind_ok] in *; lia). destruct (Hnew _ _ E); lia.
Qed.

Lemma new_mem_pages : mem_pages m' (<[p := k]> gp).
Proof.
  intros q kq Hq. destruct (decide (p = q)) as [<-|Hne].
  - rewrite lookup_insert_eq in Hq. injection Hq as <-. done.
  - rewrite lookup_insert_ne in Hq by done. destruct (Hm _ _ Hq) as (H1 & H2 & H3 & H4).
    split; [done|]. split; [done|]. split; [|by eapply mapped_mono]. eapply page_ok_frame; [done| |exact H3].
    intros a (Ha & _). apply Hout. destruct (Hnew _ _ Hq); lia.
Qed.

Lemma new_separate : separate (<[p := k]> gp).
Proof.
  intros q kq r kr Hq Hr Hne. destruct (decide (p = q)) as [<-|Hpq], (decide (p = r)) as [<-|Hpr]; [done|..];
    rewrite ?lookup_insert_eq, ?lookup_insert_ne in Hq by done; rewrite ?lookup_insert_eq, ?lookup_insert_ne in Hr by done; simplify_eq.
  - by apply Hnew.
  - destruct (Hnew _ _ Hq); auto.
  - by eapply Hsep.
Qed.

Lemma new_dlls : lists_pre gp gl → dlls m gl → dlls m' gl.
Proof.
  intros Hl. apply (dlls_frame gp); [done|]. intros q [kq Hq]. destruct (Hm _ _ Hq) as (_ & Hkq & _).
  assert (4096 <= ksize kq) by (destruct kq; cbn [ksize kind_ok] in *; lia).
  destruct (Hnew _ _ Hq); rewrite !Hout by (offs; lia); done.
Qed.

Lemma new_contents A : contents m gp A →
  (∀ ptr ws, A !! ptr = Some ws → chunk (<[p := k]> gp) ptr (8 * length ws) ∧ ∀ (j : nat) w, ws !! j = Some w → m' !! (ptr + 8 * j) = Some w).
Proof.
  intros [H1 _] ptr ws Hq. destruct (H1 _ _ Hq) as [(r & kr & Hr & Hc) Hw]. pose proof new_fresh as Hf.
  destruct (Hm _ _ Hr) as (_ & Hkr & _). pose proof (chunk_bounds _ _ _ _ Hkr Hc). split.
  - exists r, kr. rewrite lookup_insert_ne by congruence. done.
  - intros j w Hj. rewrite Hout; [by apply Hw|]. apply lookup_lt_Some in Hj. destruct (Hnew _ _ Hr); lia.
Qed.
End NewPage.

Lemma tag_word_split s t : fits 32 s → tag_word s t mod 2 ^ 32 = s ∧ tag_word s t / 2 ^ 32 = t.
Proof.
  intros Hs. unfold tag_word. rewrite Z.mul_comm. unfold fits in Hs. split.
  - by rewrite Z.mod_add, Z.mod_small by lia.
  - rewrite Z.div_add, Z.div_small by lia. lia.
Qed.

(** Writing the tag of a page of fresh memory. *)
Lemma wp_tag page type Q h :
  h_mem h !! (page + o_tag) = Some 0 → Q tt (set_mem (<[page + o_tag := tag_word DFX_MEM_PAGE_SIGN type]> (h_mem h)) h) →
  wp (store_sign page DFX_MEM_PAGE_SIGN;; store_type page type) Q h.
Proof.
  intros H0 HQ. unfold store_sign, store_type. do 3 wp_step; [exact H0|]. wp_step; [by rewrite H0|].
  do 2 wp_step; [apply lookup_insert_eq|]. wp_step; [by rewrite lookup_insert_eq|].
  destruct (tag_word_split DFX_MEM_PAGE_SIGN (0 / 2 ^ 32)) as [-> _]; [split; by vm_compute|].
  by rewrite set_mem_twice, insert_insert_eq.
Qed.

Lemma wp_assoc {A B C} (c : M A) (f : A → M B) (g : B → M C) Q h : wp ((c ≫= f) ≫= g) Q h → wp (c ≫= λ a, f a ≫= g) Q h.
Proof.
  intros (x & h' & E & HQ). exists x, h'. split; [|done]. unfold mbind, M_bind in *. destruct (c h) as [[a h1]| |]; done.
Qed.

Section Mmap.
Context (mmap : gmap Z Z → Z → option Z) (mempool_addr : nat → Z) (Hmmap : mmap_ok mmap).

(** A new page for pool [i]: everything is free. *)
Lemma fresh_pool_page m gp p i :
  mem_pages m gp → separate gp → (i < 7)%nat →
  p mod 4096 = 0 → 0 < p → p + 4096 <= 2 ^ 64 → (∀ a, p <= a < p + 4096 → m !! a = None) →
  let k := KPool i [(0, nblk i)%nat] in
  let m' := <[p + o_freeBlockList := blk p i 0]> (<[blk p i 0 + b_freeBlocksCnt := Z.of_nat (nblk i)]>
             (<[p + o_freeBlocksCnt := Z.of_nat (nblk i)]> (<[p + o_alloc_size := mempool_addr i]>
             (<[p + o_tag := tag_word DFX_MEM_PAGE_SIGN (Z.of_nat i + 4)]> (map_range p 4096 m))))) in
  mem_pages m' (<[p := k]> gp) ∧ separate (<[p := k]> gp) ∧ (∀ gl, lists_pre gp gl → dlls m gl → dlls m' gl) ∧
  (∀ A, contents m gp A → contents m' (<[p := k]> gp) A) ∧ gp !! p = None.
Proof.
  intros Hm Hsep Hi Hp4 Hp0 Hp64 Hnone k m'. destruct (map_range_spec p 4096 m) as (Hz & Ho & Hmono); [done..|].
  destruct (pool_shape i Hi) as (_ & Hoff & Hsz & Hnb & _). destruct (blk_bounds p i 0 Hi ltac:(lia)) as [Hb0 Hb1].
  assert (Hcells : cells [(0%nat, nblk i)] = seq 0 (nblk i)) by (cbn; by rewrite app_nil_r).
  assert (Hk : kind_ok k).
  { split; [done|]. rewrite Hcells. split; [apply NoDup_seq|]. split; [|apply Forall_cons_2; [cbn; lia|done]].
    apply list.Forall_forall. intros b Hb. apply elem_of_seq in Hb. lia. }
  assert (Hpa : page_addr p k) by (split; [split|]; done).
  assert (Hnew : ∀ q kq, gp !! q = Some kq → p + ksize k <= q ∨ q + ksize kq <= p) by (intros; by eapply fresh_separate).
  assert (Hmono' : mono m m') by (unfold m'; do 5 (eapply mono_trans; [|apply mono_insert]); done).
  assert (Hmap : mapped m' p (ksize k)).
  { intros x Hx H8. unfold m'. do 5 apply mono_insert. by rewrite Hz. }
  assert (Hout : ∀ x, ¬ p <= x < p + ksize k → m' !! x = m !! x).
  { intros x Hx. cbn [ksize k] in Hx. unfold m'. rewrite !lookup_insert_ne by (offs; lia). by apply Ho. }
  assert (Hok : page_ok m' p k).
  { cbn [page_ok k]. unfold m'. split; [|split].
    - rewrite !(lookup_insert_ne _ _ (p + o_tag)) by (offs; lia). apply lookup_insert_eq.
    - exists (blk p i 0). rewrite lookup_insert_eq. split; [done|]. cbn [chain]. split; [done|].
      rewrite lookup_insert_ne, lookup_insert_eq by (offs; lia). split; [done|]. exists 0. split; [|done].
      rewrite !lookup_insert_ne by (offs; lia). apply Hz; [offs; lia|]. destruct (blk_mod p i 0 Hi Hp4) as [_ H]. offs.
      Z.to_euclidean_division_equations. lia.
    - rewrite Hcells, length_seq. rewrite 2!(lookup_insert_ne _ _ (p + o_freeBlocksCnt)) by (offs; lia). apply lookup_insert_eq. }
  split; [by eapply new_mem_pages|]. split; [by eapply new_separate|]. split; [intros; by eapply new_dlls|].
  split; [|by eapply new_fresh]. intros A HA. split; [by eapply new_contents|].
  intros ptr cap (r & kr & Hr & Hc). destruct (decide (p = r)) as [<-|Hne].
  - rewrite lookup_insert_eq in Hr. injection Hr as <-. destruct Hc as (b & Hb & Hnin & _). exfalso. apply Hnin. rewrite Hcells.
    apply elem_of_seq. lia.
  - rewrite lookup_insert_ne in Hr by done. destruct HA as [_ HA]. apply (HA ptr cap). by exists r, kr.
Qed.

Lemma lists_ok_add gp gl j p k : lists_ok gp gl → (∀ j', p ∉ gl j') → (∀ j', on_list k j' ↔ j' = j) →
  lists_ok (<[p := k]> gp) (set_list j (p :: gl j) gl).
Proof.
  intros Hl Hnin Hk j'.
  assert (Hother : ∀ q, q ≠ p → (q ∈ gl j' ↔ ∃ k', <[p := k]> gp !! q = Some k' ∧ on_list k' j')).
  { intros q Hq. rewrite lookup_insert_ne by done. apply Hl. }
  unfold set_list. case_decide as Ej.
  - subst j'. split; [apply list.NoDup_cons; split; [done|apply Hl]|]. intros q. destruct (decide (q = p)) as [->|Hq].
    + rewrite lookup_insert_eq. split; [|intros; set_solver]. intros _. exists k. split; [done|]. by apply Hk.
    + rewrite <- Hother by done. set_solver.
  - split; [apply Hl|]. intros q. destruct (decide (q = p)) as [->|Hq]; [|by apply Hother].
    rewrite lookup_insert_eq. split; [intros H; by apply Hnin in H|]. intros (k' & [= <-] & Ho). by apply Hk in Ho.
Qed.

Lemma MempoolAllocPage_spec h A gp gl i :
  (i < 7)%nat → heads h gl (λ _, 0) → mem_pages (h_mem h) gp → separate gp → lists_ok gp gl → dlls (h_mem h) gl → not_free gp →
  contents (h_mem h) gp A →
  wp (MempoolAllocPage mmap mempool_addr i) (λ _ h',
    h' = h ∨ ∃ p, ready h' A (<[p := KPool i [(0, nblk i)%nat]]> gp) (set_list i (p :: gl i) gl) i p (gl i) [(0, nblk i)%nat]) h.
Proof.
  intros Hi Hh Hm Hsep Hl Hd Hnf HA. unfold MempoolAllocPage, sys_mmap. wp_step.
  destruct (mmap (h_mem h) DFX_PAGE_SIZE) as [p|] eqn:E; [|eexists None, h; rewrite E; split; [done|]; wp_step; by left].
  eexists (Some p), _. rewrite E. split; [done|].
  destruct (Hmmap _ _ _ E ltac:(done)) as (Hp4 & Hp0 & Hp64 & Hnone). change DFX_PAGE_SIZE with 4096 in *.
  destruct (map_range_spec p 4096 (h_mem h)) as (Hz & _ & _); [done..|].
  destruct (pool_shape i Hi) as (_ & Hoff & Hsz & Hnb & _). destruct (blk_bounds p i 0 Hi ltac:(lia)) as [Hb0 Hb1].
  destruct (blk_mod p i 0 Hi Hp4) as [_ Hb16].
  assert (Hw : ∀ x, 0 <= x < 4096 → x mod 8 = 0 → is_Some (map_range p 4096 (h_mem h) !! (p + x))).
  { intros x Hx H8. rewrite Hz; [done|lia|]. Z.to_euclidean_division_equations. lia. }
  wp_step. eapply wp_get_pool; [by apply Hh|]. cbn [mp_type blocksPerPage blockSize].
  apply wp_assoc. wp_step. apply wp_tag.
  { cbn [h_mem set_mem]. apply Hz; [offs; lia|]. offs. Z.to_euclidean_division_equations. lia. }
  do 2 wp_step; [apply mono_insert, (Hw 8); [lia|done]|]. do 2 wp_step; [do 2 apply mono_insert; apply (Hw 40); [lia|done]|].
  rewrite AlignRoundUp_page by (done || lia). replace (p + boff i) with (blk p i 0) by (unfold blk; lia).
  do 2 wp_step.
  { do 3 apply mono_insert. rewrite Hz; [done|offs; lia|]. offs. Z.to_euclidean_division_equations. lia. }
  do 2 wp_step; [do 4 apply mono_insert; apply (Hw 32); [lia|done]|]. rewrite !set_mem_twice. cbn [set_mem h_mem].
  destruct (fresh_pool_page (h_mem h) gp p i) as (Hm' & Hsep' & Hd' & HA' & Hfresh); try done.
  set (m' := <[p + o_freeBlockList := _]> _) in *. set (k := KPool i _) in *. clearbody m'.
  assert (Hnin : ∀ j, p ∉ gl j) by (intros j Hj; apply (proj2 (Hl j)) in Hj as (k' & Hk' & _); congruence).
  wp_step. eapply wp_mono; [apply (MempoolAddPage_spec (<[p := k]> gp) gl (λ _, 0))|]; try done.
  - apply lists_pre_insert. by apply lists_ok_pre.
  - apply Hd'; [by apply lists_ok_pre|done].
  - by rewrite lookup_insert_eq.
  - intros _ h' (Hh' & Hm2 & Hd2 & _ & HA2). unfold mod_pool. wp_step. right. exists p.
    assert (Hcells : length (cells [(0%nat, nblk i)]) = nblk i) by (cbn; by rewrite app_nil_r, length_seq).
    split; [|split; [exact Hm2|split; [done|split; [|split; [exact Hd2|split; [by apply HA2, HA'|]]]]]].
    + eapply (heads_mod h'); [exact Hh'|done| |].
      * cbv beta. rewrite decide_True by done. done.
      * intros j Hj. cbv beta. rewrite decide_False by tauto. done.
    + apply lists_ok_add; [done|done|]. intros j. cbn. split; [by intros [-> _]|by intros ->].
    + split; [by rewrite lookup_insert_eq|]. split; [unfold set_list; by rewrite decide_True|].
      intros q j fl' Hq. rewrite lookup_insert_ne by done. apply Hnf.
Qed.

Lemma MempoolAlloc_spec h A i : (i < 7)%nat → inv h A →
  wp (MempoolAlloc mmap mempool_addr i) (λ r h', r = 0 ∧ inv h' A ∨
    inv h' (<[r := replicate (block_words i) 0]> A) ∧ A !! r = None ∧ r mod 16 = 0 ∧ 0 < r) h.
Proof.
  intros Hi (gp & gl & Hh & Hm & Hsep & Hl & Hd & Hnf & HA). destruct (pool_shape i Hi) as (_ & _ & Hsz & _).
  unfold MempoolAlloc. wp_step. eapply wp_get_pool; [by apply Hh|]. cbn [blockSize mp_pageList].
  rewrite (proj2 (Z.eqb_neq _ _)) by lia. wp_step.
  assert (Hgo : ∀ gp gl p l fl h, ready h A gp gl i p l fl →
    wp (mp ← get_pool i; if mp_pageList mp =? 0 then mret 0 else alloc_from i mp (mp_pageList mp)) (λ r h', r = 0 ∧ inv h' A ∨
      inv h' (<[r := replicate (block_words i) 0]> A) ∧ A !! r = None ∧ r mod 16 = 0 ∧ 0 < r) h).
  { clear. intros gp gl p l fl h Hr. pose proof Hr as (Hh & Hm & _ & _ & _ & _ & Hp & Hgl & _).
    destruct (Hm _ _ Hp) as ([[_ Hp0] _] & (Hi & _) & _). wp_step. eapply wp_get_pool; [by apply Hh|]. cbn [mp_pageList].
    rewrite Hgl. cbn [hd]. rewrite (proj2 (Z.eqb_neq p 0)) by lia. eapply wp_mono; [|intros r h' H; right; exact H].
    pose proof (alloc_from_spec h A gp gl i p l fl Hi Hr) as H. rewrite Hgl in H. exact H. }
  destruct (gl i) as [|p l] eqn:Eg; cbn [hd].
  - rewrite Z.eqb_refl. eapply wp_mono; [by eapply MempoolAllocPage_spec|]. intros _ h' [->|(p & Hr)]; [|by eapply Hgo].
    wp_step. eapply wp_get_pool; [by apply Hh|]. cbn [mp_pageList]. rewrite Eg. cbn [hd]. rewrite Z.eqb_refl. wp_step. left.
    split; [done|]. by exists gp, gl.
  - destruct (proj1 (proj2 (Hl i) p)) as (k & Hk & Ho); [rewrite Eg; set_solver|]. destruct (Hm _ _ Hk) as ([[_ Hp0] _] & _).
    rewrite (proj2 (Z.eqb_neq p 0)) by lia. wp_step. destruct k as [i' fl|]; [|cbn in Ho; lia]. destruct Ho as [<- Hne].
    eapply (Hgo gp gl p l fl). split; [|by repeat (split; [done|]); eauto]. destruct Hh as (E1 & E2 & E3 & E4). split; [done|]. split; [done|]. split; [|done].
    intros j Hj. rewrite (E3 j Hj), decide_False; [done|]. intros [-> H]. specialize (Hnf _ _ _ Hk). lia.
Qed.

(** ** Freeing *)
Lemma cells_push b fl : cells ((b, 1%nat) :: fl) = b :: cells fl.
Proof. done. Qed.

Lemma kind_ok_push i b fl : kind_ok (KPool i fl) → (b < nblk i)%nat → b ∉ cells fl → kind_ok (KPool i ((b, 1%nat) :: fl)).
Proof.
  intros (Hi & Hn & Hf & Hc) Hb Hnb. split; [done|]. rewrite cells_push. split; [by apply list.NoDup_cons|].
  split; [by apply Forall_cons_2|]. apply Forall_cons_2; [cbn; lia|done].
Qed.

(** A block of a page is given back: the memory afterwards. *)
Lemma release_page m m' gp A p i b fl ptr0 :
  mem_pages m gp → separate gp → gp !! p = Some (KPool i fl) → contents m gp A → (b < nblk i)%nat → b ∉ cells fl → mono m m' →
  m !! (p + o_freeBlockList) = Some ptr0 →
  m' !! (p + o_freeBlockList) = Some (blk p i b) → m' !! (p + o_freeBlocksCnt) = Some (Z.of_nat (S (length (cells fl)))) →
  m' !! (blk p i b + b_next) = Some ptr0 → m' !! (blk p i b + b_freeBlocksCnt) = Some 1 →
  (∀ x, x ≠ p + o_freeBlockList → x ≠ p + o_freeBlocksCnt → ¬ blk p i b <= x < blk p i b + bsz i → m' !! x = m !! x) →
  let gp' := <[p := KPool i ((b, 1%nat) :: fl)]> gp in
  mem_pages m' gp' ∧ separate gp' ∧ (∀ gl, lists_pre gp gl → dlls m gl → dlls m' gl) ∧ contents m' gp' (delete (blk p i b) A).
Proof.
  intros Hm Hsep Hp HA Hb Hnb Hmono Hptr Hl Hcnt Hnx Hone Hf gp'. destruct (Hm _ _ Hp) as ([Hpl _] & Hk & (Htag & (ptr & Hptr' & Hch) & _) & Hmap).
  rewrite Hptr in Hptr'. injection Hptr' as <-. pose proof Hk as (Hi & Hn & Hfo & Hc). destruct (blk_bounds p i b Hi Hb) as [Hb0 Hb1].
  destruct (pool_shape i Hi) as (_ & _ & Hsz & _).
  assert (Hhead : ∀ x, 0 <= x < 48 → x ≠ 32 → x ≠ 40 → m' !! (p + x) = m !! (p + x)) by (intros x Hx H1 H2; apply Hf; offs; lia).
  assert (Hout : ∀ x, ¬ p <= x < p + 4096 → m' !! x = m !! x) by (intros x Hx; apply Hf; offs; lia).
  assert (Hblk : ∀ b' x, (b' < nblk i)%nat → b' ≠ b → blk p i b' <= x < blk p i b' + bsz i → m' !! x = m !! x).
  { intros b' x Hb' Hne Hx. destruct (blk_bounds p i b' Hi Hb'). destruct (blk_disjoint p i b' b Hi Hne); apply Hf; offs; lia. }
  split; [eapply (one_mem_pages m); try done|split; [by eapply one_separate|split]].
  - by apply kind_ok_push.
  - cbn [page_ok]. offs. rewrite Hhead by lia. split; [done|]. split; [|by rewrite cells_push]. exists (blk p i b). split; [done|].
    cbn [chain]. offs. split; [done|]. split; [done|]. exists ptr0. split; [done|]. apply (chain_frame m); [done| |done|done].
    intros b' x Hb' Hx. apply (Hblk b'); [by apply (proj1 (list.Forall_forall _ _) Hfo)|by intros ->|lia].
  - intros gl Hgl. eapply one_dlls; try done; apply Hhead; offs; lia.
  - eapply (one_contents_del m m' gp p); try done.
    + intros q cap. cbn [chunk_of]. rewrite cells_push. split.
      * intros (b' & Hb' & Hnb' & -> & ->). assert (Hne : b' ≠ b) by set_solver. split; [exists b'; set_solver|].
        destruct (blk_disjoint p i b' b Hi Hne); lia.
      * intros [(b' & Hb' & Hnb' & -> & ->) Hne]. exists b'. split; [done|]. split; [|done]. assert (b' ≠ b) by (by intros ->). set_solver.
    + by exists b.
    + intros q cap x (b' & Hb' & Hnb' & -> & ->) Hne Hx. apply (Hblk b'); [done|by intros ->|done].
Qed.

Lemma unmap_range_in a size m x : a <= x < a + size → unmap_range a size m !! x = None.
Proof. intros Hx. apply map_lookup_filter_None. right. cbn. intros v _ H. by apply H. Qed.
Lemma unmap_range_out a size m x : ¬ a <= x < a + size → unmap_range a size m !! x = m !! x.
Proof.
  intros Hx. destruct (m !! x) as [v|] eqn:E.
  - apply map_lookup_filter_Some. by split.
  - apply map_lookup_filter_None. by left.
Qed.

(** A page is unmapped. *)
Lemma drop_page m gp p k :
  mem_pages m gp → separate gp → gp !! p = Some k →
  let m' := unmap_range p (ksize k) m in
  mem_pages m' (delete p gp) ∧ separate (delete p gp) ∧ (∀ gl, lists_pre gp gl → (∀ j, p ∉ gl j) → dlls m gl → dlls m' gl) ∧
  (∀ A, contents m gp A → (∀ ptr cap, ¬ chunk_of p k ptr cap) → contents m' (delete p gp) A) ∧
  (∀ A ptr, contents m gp A → (∀ q cap, chunk_of p k q cap → q = ptr) → (∃ cap, chunk_of p k ptr cap) → contents m' (delete p gp) (delete ptr A)).
Proof.
  intros Hm Hsep Hp m'. assert (Hout : ∀ q kq x, gp !! q = Some kq → q ≠ p → q <= x < q + ksize kq → m' !! x = m !! x).
  { intros q kq x Hq Hne Hx. apply unmap_range_out. destruct (Hsep _ _ _ _ Hp Hq ltac:(done)); lia. }
  assert (Hchunk : ∀ A ptr ws, contents m gp A → A !! ptr = Some ws → (∀ cap, ¬ chunk_of p k ptr cap) →
    chunk (delete p gp) ptr (8 * length ws) ∧ ∀ (j : nat) w, ws !! j = Some w → m' !! (ptr + 8 * j) = Some w).
  { intros A ptr ws [HA _] Hq Hnot. destruct (HA _ _ Hq) as [(r & kr & Hr & Hc) Hw]. destruct (decide (r = p)) as [->|Hne].
    { rewrite Hp in Hr. injection Hr as <-. by apply Hnot in Hc. }
    destruct (Hm _ _ Hr) as (_ & Hkr & _). pose proof (chunk_bounds _ _ _ _ Hkr Hc). split.
    - exists r, kr. by rewrite lookup_delete_ne.
    - intros j w Hj. rewrite (Hout r kr); [by apply Hw|done|done|]. apply lookup_lt_Some in Hj. lia. }
  assert (Hback : ∀ ptr cap, chunk (delete p gp) ptr cap → chunk gp ptr cap ∧ ∀ cap', ¬ chunk_of p k ptr cap').
  { intros ptr cap (r & kr & Hr & Hc). apply lookup_delete_Some in Hr as [Hne Hr]. split; [by exists r, kr|]. intros cap' Hc'.
    destruct (Hm _ _ Hr) as (_ & Hkr & _), (Hm _ _ Hp) as (_ & Hk & _).
    pose proof (chunk_bounds _ _ _ _ Hkr Hc). pose proof (chunk_bounds _ _ _ _ Hk Hc'). destruct (Hsep _ _ _ _ Hp Hr ltac:(done)); lia. }
  split; [|split; [|split; [|split]]].
  - intros q kq Hq. apply lookup_delete_Some in Hq as [Hne Hq]. destruct (Hm _ _ Hq) as (H1 & H2 & H3 & H4).
    split; [done|]. split; [done|]. split.
    + eapply page_ok_frame; [done| |exact H3]. intros a (Ha & _). by eapply Hout.
    + intros x Hx H8. rewrite (Hout q kq) by done. by apply H4.
  - intros q kq r kr Hq Hr Hne. apply lookup_delete_Some in Hq as [_ Hq], Hr as [_ Hr]. by eapply Hsep.
  - intros gl Hl Hn Hd j. eapply dseg_frame; [|apply Hd]. intros q Hq. destruct (proj1 (proj2 (Hl j)) q Hq) as [kq Hkq].
    assert (q ≠ p) by (intros ->; by apply (Hn j)). destruct (Hm _ _ Hkq) as (_ & Hko & _).
    assert (4096 <= ksize kq) by (destruct kq; cbn [ksize kind_ok] in *; lia). rewrite !(Hout q kq) by (done || (offs; lia)). done.
  - intros A HA Hnone. split; [intros ptr ws Hq; eapply Hchunk; try done; intros cap; apply Hnone|].
    intros ptr cap Hc. apply Hback in Hc as [Hc _]. by apply (proj2 HA ptr cap).
  - intros A ptr HA Honly [cap0 Hptr]. split.
    + intros q ws Hq. apply lookup_delete_Some in Hq as [Hne Hq]. eapply Hchunk; try done. intros cap Hc. apply Honly in Hc. done.
    + intros q cap Hc. apply Hback in Hc as [Hc Hnot]. rewrite lookup_delete_ne; [by apply (proj2 HA q cap)|]. intros <-. by apply (Hnot cap0).
Qed.

Lemma lists_ok_drop gp gl j p l1 l2 : lists_ok gp gl → gl j = l1 ++ p :: l2 → lists_ok (delete p gp) (set_list j (l1 ++ l2) gl).
Proof.
  intros Hl Hj j'. destruct (lists_ok_pre _ _ Hl j) as (Hn & Hin & Hdis). rewrite Hj in *.
  apply list.NoDup_app in Hn as (N1 & N2 & N3). apply list.NoDup_cons in N3 as [N3 N4].
  assert (Hother : ∀ q, q ≠ p → (q ∈ gl j' ↔ ∃ k', delete p gp !! q = Some k' ∧ on_list k' j')).
  { intros q Hq. rewrite lookup_delete_ne by done. apply Hl. }
  unfold set_list. case_decide as E.
  - subst j'. split; [apply list.NoDup_app; set_solver|]. intros q. destruct (decide (q = p)) as [->|Hq].
    + rewrite lookup_delete_eq. split; [|naive_solver]. set_solver.
    + rewrite <- Hother, Hj by done. set_solver.
  - split; [apply Hl|]. intros q. destruct (decide (q = p)) as [->|Hq]; [|by apply Hother].
    rewrite lookup_delete_eq. split; [|naive_solver]. intros H. exfalso. apply (Hdis j' p); set_solver.
Qed.

Lemma removed_nowhere gp gl i p l1 l2 : lists_pre gp gl → gl i = l1 ++ p :: l2 → ∀ j, p ∉ set_list i (l1 ++ l2) gl j.
Proof.
  intros Hl Hg j. destruct (Hl i) as (N & _ & Hdis). rewrite Hg in *. unfold set_list. case_decide as E.
  - apply list.NoDup_app in N as (_ & N & N2). apply list.NoDup_cons in N2 as [N2 _]. set_solver.
  - intros Hj. apply (Hdis j p); set_solver.
Qed.

Lemma GetPageUnchecked_chunk m gp p k ptr cap : mem_pages m gp → gp !! p = Some k → chunk_of p k ptr cap → GetPageUnchecked ptr = p.
Proof.
  intros Hm Hp Hc. destruct (Hm _ _ Hp) as ([[Hp4 Hp0] Hp64] & Hk & _). pose proof (chunk_bounds _ _ _ _ Hk Hc) as (Hb1 & Hb2 & Hb3).
  unfold GetPageUnchecked. change PAGE_INFO_SIZE with 48. rewrite wrap_small by (unfold fits; lia).
  replace (ptr - 48) with (p + (ptr - 48 - p)) by lia. apply PageStart_in; try lia.
  destruct k as [i fl|sz]; cbn [chunk_of ksize] in *; lia.
Qed.

(** The page of a chunk: its tag tells its kind. *)
Definition ktype (k : pkind) : Z := match k with KPool i _ => Z.of_nat i + 4 | KBig _ => DFX_MMAP_TYPE end.
Lemma page_tag m p k : page_ok m p k → m !! (p + o_tag) = Some (tag_word DFX_MEM_PAGE_SIGN (ktype k)).
Proof. destruct k; intros H; apply H. Qed.

Lemma wp_load_tag p k Q h : page_ok (h_mem h) p k → Q (DFX_MEM_PAGE_SIGN, ktype k) h → wp (load_tag p) Q h.
Proof.
  intros Hk HQ. unfold load_tag. do 2 wp_step; [by apply page_tag|]. wp_step.
  destruct (tag_word_split DFX_MEM_PAGE_SIGN (ktype k)) as [-> ->]; [split; by vm_compute|done].
Qed.

Lemma wp_GetPage gp p k ptr cap Q h : mem_pages (h_mem h) gp → gp !! p = Some k → chunk_of p k ptr cap → Q p h → wp (GetPage ptr) Q h.
Proof.
  intros Hm Hp Hc HQ. unfold GetPage. rewrite (GetPageUnchecked_chunk _ _ _ _ _ _ Hm Hp Hc). wp_step.
  apply (wp_load_tag p k); [by apply (Hm _ _ Hp)|]. wp_step. by rewrite Z.eqb_refl.
Qed.

Lemma push_block_spec h gp A mp p i b fl :
  blockSize mp = bsz i → mem_pages (h_mem h) gp → separate gp → gp !! p = Some (KPool i fl) → contents (h_mem h) gp A →
  (b < nblk i)%nat → b ∉ cells fl →
  let gp' := <[p := KPool i ((b, 1%nat) :: fl)]> gp in
  wp (push_block mp p (blk p i b)) (λ r h', r = Z.of_nat (S (length (cells fl))) ∧ ∃ m', h' = set_mem m' h ∧
    mem_pages m' gp' ∧ separate gp' ∧ (∀ gl, lists_pre gp gl → dlls (h_mem h) gl → dlls m' gl) ∧
    contents m' gp' (delete (blk p i b) A)) h.
Proof.
  intros Hbs Hm Hsep Hp HA Hb Hnb gp'. destruct (Hm _ _ Hp) as ([Hpl _] & Hk & (_ & (ptr & Hptr & Hch) & Hcnt) & Hmap).
  pose proof Hk as (Hi & _). destruct (blk_bounds p i b Hi Hb) as [Hb0 Hb1]. destruct (block_mapped _ p i b Hi Hb Hpl Hmap) as [Hbm Hb8].
  destruct (pool_shape i Hi) as (_ & _ & Hsz & Hnn & _). pose proof (cells_bound _ _ Hk) as Hlen.
  unfold push_block. rewrite Hbs. fold (block_words i). wp_step. eapply wp_mono; [apply memset0_spec; [by rewrite block_words_eq|done]|].
  rewrite block_words_eq by done. intros _ h1 (m1 & -> & Hmono & Hz & Hf).
  assert (Hw : ∀ x, 0 <= x < bsz i → x mod 8 = 0 → is_Some (m1 !! (blk p i b + x))).
  { intros x Hx Hx8. apply Hmono. apply Hbm; [lia|]. Z.to_euclidean_division_equations. lia. }
  do 2 wp_step; [rewrite Hf by (offs; lia); exact Hptr|]. do 2 wp_step; [apply (Hw 0); [lia|done]|].
  do 2 wp_step; [apply mono_insert, (Hw 8); [lia|done]|]. do 2 wp_step; [do 2 apply mono_insert; rewrite Hf by (offs; lia); by rewrite Hptr|].
  do 2 wp_step; [rewrite !lookup_insert_ne, Hf by (offs; lia); exact Hcnt|].
  do 2 wp_step; [do 3 apply mono_insert; rewrite Hf by (offs; lia); by rewrite Hcnt|]. wp_step. rewrite !set_mem_twice.
  rewrite wrap_small by (unfold fits; lia). replace (Z.of_nat (length (cells fl)) + 1) with (Z.of_nat (S (length (cells fl)))) by lia.
  split; [done|]. eexists. split; [done|]. eapply (release_page (h_mem h)); try done.
  - eapply mono_trans; [exact Hmono|]. do 3 (eapply mono_trans; [apply mono_insert|]). apply mono_insert.
  - rewrite lookup_insert_ne by (offs; lia). apply lookup_insert_eq.
  - apply lookup_insert_eq.
  - rewrite 3!lookup_insert_ne by (offs; lia). apply lookup_insert_eq.
  - rewrite 2!lookup_insert_ne by (offs; lia). apply lookup_insert_eq.
  - intros x Hx1 Hx2 Hx3. rewrite !lookup_insert_ne by (offs; lia). by apply Hf.
Qed.

Lemma cells_full i fl b : kind_ok (KPool i fl) → length (cells fl) = nblk i → (b < nblk i)%nat → b ∈ cells fl.
Proof.
  intros (_ & Hn & Hf & _) Hl Hb. assert (Hp : cells fl ≡ₚ seq 0 (nblk i)).
  { apply submseteq_length_Permutation; [|by rewrite length_seq, Hl]. apply NoDup_submseteq; [done|].
    intros x Hx. apply elem_of_seq. split; [lia|]. by apply (proj1 (list.Forall_forall _ _) Hf). }
  rewrite Hp. apply elem_of_seq. lia.
Qed.

Lemma MempoolFreePage_spec h A gp gl p i fl l1 l2 :
  (i < 7)%nat → heads h gl (λ j, if decide (j = i) then 1 else 0) → mem_pages (h_mem h) gp → separate gp → lists_pre gp gl → dlls (h_mem h) gl →
  contents (h_mem h) gp A → gp !! p = Some (KPool i fl) → length (cells fl) = nblk i → gl i = l1 ++ p :: l2 →
  wp (MempoolFreePage i p) (λ _ h', heads h' (set_list i (l1 ++ l2) gl) (λ _, 0) ∧ mem_pages (h_mem h') (delete p gp) ∧
    separate (delete p gp) ∧ dlls (h_mem h') (set_list i (l1 ++ l2) gl) ∧ contents (h_mem h') (delete p gp) A) h.
Proof.
  intros Hi Hh Hm Hsep Hl Hd HA Hp Hfull Hg. destruct (Hm _ _ Hp) as (_ & Hk & (_ & _ & Hcnt) & _).
  unfold MempoolFreePage. wp_step. eapply wp_get_pool; [by apply Hh|]. cbn [blocksPerPage]. do 2 wp_step; [exact Hcnt|].
  rewrite Hfull, Z.eqb_refl. cbn [negb]. wp_step. eapply wp_mono; [by eapply MempoolRemovePage_spec|].
  intros _ h1 (Hh1 & Hm1 & Hd1 & _ & HA1). pose proof (lists_pre_remove _ _ _ _ _ _ Hl Hg) as Hl1.
  pose proof (removed_nowhere _ _ _ _ _ _ Hl Hg) as Hn.
  destruct (drop_page (h_mem h1) gp p (KPool i fl) Hm1 Hsep Hp) as (Hm2 & Hsep2 & Hd2 & HA2 & _).
  unfold munmap, mod_pool. do 2 wp_step. wp_step. split.
  { eapply (heads_mod (set_mem _ h1)); [exact Hh1|done| |].
    - cbv beta. rewrite decide_True by done. done.
    - intros j Hj. cbv beta. by rewrite decide_False. }
  cbn [h_mem set_mem]. split; [exact Hm2|]. split; [done|]. split; [by apply Hd2|]. apply HA2; [by apply HA1|].
  intros ptr cap (b & Hb & Hnb & _). apply Hnb. by eapply cells_full.
Qed.

Lemma lists_ok_same gp gl p i fl fl' : lists_ok gp gl → gp !! p = Some (KPool i fl) → fl ≠ [] → fl' ≠ [] →
  lists_ok (<[p := KPool i fl']> gp) gl.
Proof.
  intros Hl Hp Hne Hne' j. split; [apply Hl|]. intros q. rewrite (proj2 (Hl j)). destruct (decide (p = q)) as [<-|Hq].
  - rewrite lookup_insert_eq, Hp. split; intros (k & [= <-] & Ho); eexists; (split; [done|]); cbn in *; tauto.
  - by rewrite lookup_insert_ne.
Qed.

Lemma MempoolFree_spec h A gp gl p i fl b :
  heads h gl (λ _, 0) → mem_pages (h_mem h) gp → separate gp → lists_ok gp gl → dlls (h_mem h) gl → not_free gp →
  contents (h_mem h) gp A → gp !! p = Some (KPool i fl) → (b < nblk i)%nat → b ∉ cells fl →
  wp (MempoolFree i (blk p i b)) (λ _ h', inv h' (delete (blk p i b) A)) h.
Proof.
  intros Hh Hm Hsep Hl Hd Hnf HA Hp Hb Hnb. destruct (Hm _ _ Hp) as ([[Hp4 Hp0] Hp64] & Hk & _). pose proof Hk as (Hi & _). cbn [ksize] in Hp64.
  destruct (blk_bounds p i b Hi Hb) as [Hb0 Hb1]. destruct (blk_mod p i b Hi Hp4) as [Hbm _]. destruct (pool_shape i Hi) as (_ & _ & Hsz & Hnn & _).
  assert (Eps : PageStart (blk p i b) = p).
  { replace (blk p i b) with (p + (blk p i b - p)) by lia. apply PageStart_in; lia. }
  unfold MempoolFree. rewrite Eps. wp_step. eapply wp_get_pool; [by apply Hh|]. cbn [blockSize blocksPerPage].
  rewrite Hbm, (proj2 (Z.eqb_neq (blk p i b) 0)), (proj2 (Z.eqb_neq (bsz i) 0)), Z.eqb_refl by lia. cbn [negb orb].
  wp_step. eapply wp_mono; [by apply (push_block_spec h gp A _ p i b fl)|]. intros r h1 (-> & m1 & -> & Hm1 & Hsep1 & Hd1 & HA1).
  specialize (Hd1 gl (lists_ok_pre _ _ Hl) Hd). set (k1 := KPool i ((b, 1%nat) :: fl)) in *.
  pose proof (lists_pre_insert _ _ p k1 (lists_ok_pre _ _ Hl)) as Hlp. specialize (Hnf p i fl Hp) as Hlt.
  assert (Hnf1 : S (length (cells fl)) ≠ nblk i → not_free (<[p := k1]> gp)).
  { intros Hne q j fl' Hq. destruct (decide (p = q)) as [<-|Hpq].
    - rewrite lookup_insert_eq in Hq. injection Hq as <- <-. rewrite cells_push. cbn. lia.
    - rewrite lookup_insert_ne in Hq by done. by eapply Hnf. }
  assert (Hnil : fl = [] ↔ length (cells fl) = 0%nat).
  { split; [by intros ->|]. destruct fl as [|[b1 c1] fl]; [done|]. destruct Hk as (_ & _ & _ & Hc). apply Forall_cons_1 in Hc as [Hc _].
    cbn in Hc |- *. rewrite length_app, length_seq. lia. }
  destruct (Z.eqb_spec (Z.of_nat (S (length (cells fl)))) (Z.of_nat (nblk i))) as [Ef|Ef].
  - assert (Hin : p ∈ gl i). { apply (proj2 (Hl i)). exists (KPool i fl). split; [done|]. split; [done|]. rewrite Hnil. lia. }
    apply list_elem_of_split in Hin as (l1 & l2 & Hg).
    wp_step. unfold mod_pool. wp_step. set (h2 := mkHeap _ _ _ _).
    assert (Hh2 : heads h2 gl (λ j, if decide (j = i) then 1 else 0)).
    { eapply (heads_mod (set_mem m1 h)); [exact Hh|done| |].
      - cbv beta. rewrite decide_True by done. done.
      - intros j Hj. cbv beta. by rewrite decide_False. }
    wp_step. eapply wp_get_pool; [by apply Hh2|]. cbn [freePagesCnt]. rewrite decide_True by done. cbn [Z.leb Z.compare].
    eapply wp_mono; [eapply (MempoolFreePage_spec h2 _ (<[p := k1]> gp) gl p i _ l1 l2); try done; [by rewrite lookup_insert_eq|]|].
    { rewrite cells_push. cbn. lia. }
    rewrite delete_insert_eq. intros _ h3 (Hh3 & Hm3 & Hsep3 & Hd3 & HA3). eexists _, _. split; [exact Hh3|]. split; [exact Hm3|].
    split; [done|]. split; [by eapply lists_ok_drop|]. split; [exact Hd3|]. split; [|done].
    intros q j fl' Hq. apply lookup_delete_Some in Hq as [_ Hq]. by eapply Hnf.
  - destruct (Z.eqb_spec (Z.of_nat (S (length (cells fl)))) 1) as [E1|E1].
    + assert (fl = []) as -> by (apply Hnil; lia).
      assert (Hnin : ∀ j, p ∉ gl j).
      { intros j Hj. apply (proj2 (Hl j)) in Hj as (k' & Hk' & Ho). rewrite Hp in Hk'. injection Hk' as <-. by destruct Ho. }
      eapply wp_mono; [apply (MempoolAddPage_spec (<[p := k1]> gp) gl (λ _, 0)); try done; by rewrite lookup_insert_eq|].
      intros _ h2 (Hh2 & Hm2 & Hd2 & _ & HA2). eexists _, _. split; [exact Hh2|]. split; [exact Hm2|]. split; [done|]. split.
      { apply lists_ok_add; [done|done|]. intros j. cbn. split; [by intros [-> _]|by intros ->]. }
      split; [exact Hd2|]. split; [apply Hnf1; lia|]. by apply HA2.
    + wp_step. exists (<[p := k1]> gp), gl. split; [done|]. split; [done|]. split; [done|]. split.
      { eapply lists_ok_same; try done. rewrite Hnil. lia. }
      split; [done|]. split; [apply Hnf1; lia|done].
Qed.

(** ** Mappings of their own *)
Lemma PageEnd_spec t : 0 < t < 2 ^ 64 → t <= PageEnd t → PageEnd t mod 4096 = 0 ∧ t <= PageEnd t < t + 4096 ∧ PageEnd t < 2 ^ 64.
Proof.
  intros Ht. unfold PageEnd. change (DFX_PAGE_SIZE - 1) with 4095. rewrite PageStart_eq by (by apply wrap_fits).
  destruct (Z.lt_ge_cases (t + 4095) (2 ^ 64)) as [Hw|Hw].
  - rewrite wrap_small by (unfold fits; lia). Z.to_euclidean_division_equations. lia.
  - intros Hle. exfalso. assert (E : u64 (t + 4095) = t + 4095 - 2 ^ 64).
    { unfold wrap. rewrite <- (Z.mod_small (t + 4095 - 2 ^ 64) (2 ^ 64)) by lia.
      replace (t + 4095) with (t + 4095 - 2 ^ 64 + 1 * 2 ^ 64) at 1 by lia. by rewrite Z.mod_add. }
    rewrite E in Hle. Z.to_euclidean_division_equations. lia.
Qed.

Definition big_words (sz : Z) : nat := Z.to_nat ((sz - 48) / 8).
Lemma big_words_eq sz : sz mod 4096 = 0 → 4096 <= sz → 8 * Z.of_nat (big_words sz) = sz - 48.
Proof. intros H1 H2. unfold big_words. rewrite Z2Nat.id by (apply Z.div_pos; lia). Z.to_euclidean_division_equations. lia. Qed.

Lemma fresh_big_page m gp A p sz :
  mem_pages m gp → separate gp → contents m gp A → sz mod 4096 = 0 → 4096 <= sz →
  p mod 4096 = 0 → 0 < p → p + sz <= 2 ^ 64 → (∀ a, p <= a < p + sz → m !! a = None) →
  let k := KBig sz in
  let m' := <[p + o_freeBlocksCnt := 0]> (<[p + o_freeBlockList := 0]> (<[p + o_next := 0]> (<[p + o_prev := 0]>
             (<[p + o_alloc_size := sz]> (<[p + o_tag := tag_word DFX_MEM_PAGE_SIGN DFX_MMAP_TYPE]> (map_range p sz m)))))) in
  mem_pages m' (<[p := k]> gp) ∧ separate (<[p := k]> gp) ∧ (∀ gl, lists_pre gp gl → dlls m gl → dlls m' gl) ∧
  contents m' (<[p := k]> gp) (<[p + 48 := replicate (big_words sz) 0]> A) ∧ gp !! p = None ∧ A !! (p + 48) = None.
Proof.
  intros Hm Hsep HA Hs4 Hs Hp4 Hp0 Hp64 Hnone k m'. destruct (map_range_spec p sz m) as (Hz & Ho & Hmono); [lia|done..|].
  assert (Hk : kind_ok k) by done. assert (Hpa : page_addr p k) by (split; [split|]; done).
  assert (Hnew : ∀ q kq, gp !! q = Some kq → p + ksize k <= q ∨ q + ksize kq <= p) by (intros; eapply fresh_separate; try done; cbn [ksize k]; lia).
  assert (Hmono' : mono m m') by (unfold m'; do 6 (eapply mono_trans; [|apply mono_insert]); done).
  assert (Hmap : mapped m' p (ksize k)).
  { intros x Hx H8. unfold m'. do 6 apply mono_insert. by rewrite Hz. }
  assert (Hout : ∀ x, ¬ p <= x < p + ksize k → m' !! x = m !! x).
  { intros x Hx. cbn [ksize k] in Hx. unfold m'. rewrite !lookup_insert_ne by (offs; lia). by apply Ho. }
  assert (Hok : page_ok m' p k).
  { cbn [page_ok k]. unfold m'. split.
    - rewrite !(lookup_insert_ne _ _ (p + o_tag)) by (offs; lia). apply lookup_insert_eq.
    - rewrite 4!(lookup_insert_ne _ _ (p + o_alloc_size)) by (offs; lia). apply lookup_insert_eq. }
  assert (Hfr : gp !! p = None) by (by eapply new_fresh).
  assert (HAn : A !! (p + 48) = None).
  { destruct (A !! (p + 48)) as [ws|] eqn:E; [|done]. destruct HA as [HA _]. destruct (HA _ _ E) as [(r & kr & Hr & Hc) _].
    destruct (Hm _ _ Hr) as (_ & Hkr & _). pose proof (chunk_bounds _ _ _ _ Hkr Hc). destruct (Hnew _ _ Hr); cbn [ksize k] in *; lia. }
  split; [by eapply new_mem_pages|]. split; [by eapply new_separate|]. split; [intros; by eapply new_dlls|]. split; [|done]. split.
  - intros ptr ws Hq. destruct (decide (p + 48 = ptr)) as [<-|Hne].
    + rewrite lookup_insert_eq in Hq. injection Hq as <-. rewrite length_replicate, big_words_eq by done. split.
      * exists p, k. rewrite lookup_insert_eq. done.
      * intros j w Hj. apply lookup_replicate in Hj as [-> Hj]. pose proof (big_words_eq sz Hs4 Hs). unfold m'.
        rewrite !lookup_insert_ne by (offs; lia). apply Hz; [lia|]. Z.to_euclidean_division_equations. lia.
    + rewrite lookup_insert_ne in Hq by done. by eapply (new_contents m m').
  - intros ptr cap (r & kr & Hr & Hc). destruct (decide (p = r)) as [<-|Hne].
    + rewrite lookup_insert_eq in Hr. injection Hr as <-. destruct Hc as [-> _]. by rewrite lookup_insert_eq.
    + rewrite lookup_insert_ne in Hr by done. destruct HA as [_ HA]. destruct (decide (p + 48 = ptr)) as [<-|]; [by rewrite lookup_insert_eq|].
      rewrite lookup_insert_ne by done. apply (HA ptr cap). by exists r, kr.
Qed.

Lemma heads_set_g h gl cnt j l : heads h gl cnt → j = 7%nat → heads (set_g_pageList (hd 0 l) h) (set_list j l gl) cnt.
Proof.
  intros (H1 & H2 & H3 & H4) ->. split; [done|]. split; [done|]. split; [|unfold set_list; by rewrite decide_True].
  intros i Hi. unfold set_list. rewrite decide_False by lia. by apply H3.
Qed.

Lemma AllocMmap_spec h A size : 0 < size < 2 ^ 64 → inv h A →
  wp (AllocMmap mmap ALIGN_SIZE size) (λ r h', r = 0 ∧ inv h' A ∨
    ∃ n : nat, inv h' (<[r := replicate n 0]> A) ∧ A !! r = None ∧ r mod 16 = 0 ∧ 0 < r ∧ size <= 8 * n) h.
Proof.
  intros Hsize Hinv. unfold AllocMmap. change (AlignRoundUp PAGE_INFO_SIZE ALIGN_SIZE) with 48.
  destruct (Z.leb_spec (2 ^ 64) (48 + size)) as [Ho|Ho]; [cbn [orb]; wp_step; by left|].
  destruct (Z.ltb_spec (PageEnd (48 + size)) (48 + size)) as [Ho2|Ho2]; [cbn [orb]; wp_step; by left|]. cbn [orb].
  destruct (PageEnd_spec (48 + size)) as (Hs4 & Hs1 & Hs64); [lia|done|]. set (sz := PageEnd (48 + size)) in *. clearbody sz.
  assert (Hs : 4096 <= sz) by (Z.to_euclidean_division_equations; lia).
  unfold sys_mmap. wp_step. destruct (mmap (h_mem h) sz) as [p|] eqn:E; [|eexists None, h; rewrite E; split; [done|]; wp_step; by left].
  eexists (Some p), _. rewrite E. split; [done|]. destruct (Hmmap _ _ _ E ltac:(lia)) as (Hp4 & Hp0 & Hp64 & Hnone).
  destruct Hinv as (gp & gl & Hh & Hm & Hsep & Hl & Hd & Hnf & HA).
  destruct (map_range_spec p sz (h_mem h)) as (Hz & _ & _); [lia|done..|].
  assert (Eg : GetPageUnchecked (p + 48) = p).
  { unfold GetPageUnchecked. change PAGE_INFO_SIZE with 48. rewrite wrap_small by (unfold fits; lia).
    replace (p + 48 - 48) with (p + 0) by lia. apply PageStart_in; lia. }
  rewrite Eg. assert (Hw : ∀ x, 0 <= x < 4096 → x mod 8 = 0 → map_range p sz (h_mem h) !! (p + x) = Some 0).
  { intros x Hx H8. apply Hz; [lia|]. Z.to_euclidean_division_equations. lia. }
  assert (Hws : ∀ x, 0 <= x < 4096 → x mod 8 = 0 → is_Some (map_range p sz (h_mem h) !! (p + x))) by (intros; by rewrite Hw).
  apply wp_assoc. wp_step. apply wp_tag; [apply (Hw 0); [lia|done]|].
  do 2 wp_step; [apply mono_insert; apply (Hws 8); [lia|done]|]. do 2 wp_step; [do 2 apply mono_insert; apply (Hws 16); [lia|done]|].
  do 2 wp_step; [do 3 apply mono_insert; apply (Hws 24); [lia|done]|]. do 2 wp_step; [do 4 apply mono_insert; apply (Hws 32); [lia|done]|].
  do 2 wp_step; [do 5 apply mono_insert; apply (Hws 40); [lia|done]|]. rewrite !set_mem_twice. cbn [h_mem set_mem].
  destruct (fresh_big_page (h_mem h) gp A p sz) as (Hm' & Hsep' & Hd' & HA' & Hfresh & HAn); try done.
  set (m' := <[p + o_freeBlocksCnt := 0]> _) in *. clearbody m'.
  assert (Hnin : ∀ j, p ∉ gl j) by (intros j Hj; apply (proj2 (Hl j)) in Hj as (k' & Hk' & _); congruence).
  do 2 wp_step. cbn [g_pageList set_mem]. rewrite (proj2 (proj2 (proj2 Hh))). wp_step.
  eapply wp_mono; [apply (AddPage_heap (<[p := KBig sz]> gp) gl 7 p)|]; try done.
  { apply lists_pre_insert. by apply lists_ok_pre. }
  { apply Hd'; [by apply lists_ok_pre|done]. }
  { by rewrite lookup_insert_eq. }
  intros r h1 (-> & m2 & -> & Hm2 & Hd2 & _ & HA2). do 2 wp_step. wp_step. right. exists (big_words sz).
  rewrite big_words_eq by done. split; [|split; [done|split; [Z.to_euclidean_division_equations; lia|lia]]].
  exists (<[p := KBig sz]> gp), (set_list 7 (p :: gl 7%nat) gl). split; [apply (heads_set_g _ _ _ 7 (p :: gl 7%nat)); done|].
  split; [exact Hm2|]. split; [done|]. split; [apply lists_ok_add; [done|done|]; intros j; done|]. split; [exact Hd2|]. split; [|by apply HA2].
  intros q j fl Hq. destruct (decide (p = q)) as [<-|Hne]; [by rewrite lookup_insert_eq in Hq|]. rewrite lookup_insert_ne in Hq by done. by eapply Hnf.
Qed.

(** ** The operations *)
Definition pool_of (size : Z) : nat :=
  let type := SelectMempoolType size in
  Z.to_nat ((if type <? DFX_MEMPOOL_MIN_TYPE then DFX_MEMPOOL_MIN_TYPE else type) - DFX_MEMPOOL_MIN_TYPE).

(** The chosen pool has the smallest blocks that are large enough. *)
Lemma pool_of_spec size : 1 <= size <= 1024 → (pool_of size < 7)%nat ∧ size <= bsz (pool_of size) ∧ (bsz (pool_of size) = 16 ∨ bsz (pool_of size) < 2 * size).
Proof.
  intros Hs. assert (Hall : forallb (λ n, let s := Z.of_nat n + 1 in (pool_of s <? 7)%nat && (s <=? bsz (pool_of s)) &&
    ((bsz (pool_of s) =? 16) || (bsz (pool_of s) <? 2 * s))) (seq 0 1024) = true) by (by vm_compute).
  rewrite forallb_forall in Hall. specialize (Hall (Z.to_nat (size - 1))). rewrite Z2Nat.id in Hall by lia.
  replace (size - 1 + 1) with size in Hall by lia. cbv zeta in Hall. specialize (Hall ltac:(apply in_seq; lia)).
  apply andb_true_iff in Hall as [[H1%Nat.ltb_lt H2%Z.leb_le]%andb_true_iff H3%orb_true_iff].
  split; [done|]. split; [done|]. destruct H3 as [H3%Z.eqb_eq|H3%Z.ltb_lt]; auto.
Qed.

(** The allocator before its first use, or with the invariant. *)
Definition hinv (h : heap) (A : gmap Z (list Z)) : Prop := inv h A ∨ initFlag h = 0 ∧ g_pageList h = 0 ∧ A = ∅.

Lemma init_inv h : g_pageList h = 0 → inv (mkHeap (h_mem h) 1 (g_pageList h) (map pool_init (seq 0 DFX_MEMPOOLS_NUM))) ∅.
Proof.
  intros Hg. exists ∅, (λ _, []). split; [|split; [|split; [|split; [|split; [|split]]]]].
  - split; [done|]. split; [done|]. split; [|done]. intros i Hi. cbn [dfxMempoolBuf]. rewrite list_lookup_fmap, lookup_seq_lt by done.
    cbn. by rewrite pool_init_eq.
  - intros p k Hp. by rewrite lookup_empty in Hp.
  - intros p k q k' Hp. by rewrite lookup_empty in Hp.
  - intros j. split; [constructor|]. intros p. split; [by intros H%elem_of_nil|]. intros (k & Hk & _). by rewrite lookup_empty in Hk.
  - intros j. done.
  - intros p i fl Hp. by rewrite lookup_empty in Hp.
  - split; [intros ptr ws H; by rewrite lookup_empty in H|]. intros ptr cap (p & k & Hp & _). by rewrite lookup_empty in Hp.
Qed.

Lemma wp_init h A (Q : unit → heap → Prop) : hinv h A → (∀ h', inv h' A → Q tt h') →
  wp (if initFlag h =? 0 then InitDfxAllocator else mret tt) Q h.
Proof.
  intros [Hi|(H0 & Hg & ->)] HQ.
  - assert (initFlag h = 1) as -> by (destruct Hi as (gp & gl & [H _] & _); done). cbn [Z.eqb]. wp_step. by apply HQ.
  - rewrite H0. cbn [Z.eqb]. unfold InitDfxAllocator. wp_step. apply HQ. by apply init_inv.
Qed.

(** What an allocation gives: nothing, or a zeroed chunk of its own. *)
Definition allocated (A : gmap Z (list Z)) (size r : Z) (h' : heap) : Prop :=
  r = 0 ∧ inv h' A ∨
  ∃ n : nat, inv h' (<[r := replicate n 0]> A) ∧ A !! r = None ∧ r mod 16 = 0 ∧ 0 < r ∧ size <= 8 * n.

Lemma DfxAlloc_spec h A size : 0 <= size < 2 ^ 64 → hinv h A → wp (DfxAlloc mmap mempool_addr size) (allocated A size) h.
Proof.
  intros Hs Hh. unfold DfxAlloc, AllocImpl. set (s := if size =? 0 then 1 else size).
  assert (Hs' : 1 <= s < 2 ^ 64 ∧ size <= s) by (unfold s; destruct (Z.eqb_spec size 0); lia). clearbody s.
  do 2 wp_step. wp_step. eapply wp_init; [exact Hh|]. clear h Hh. intros h Hi.
  change DFX_MEMPOOL_MAX_BLOCK_SIZE with 1024. destruct (Z.ltb_spec 1024 s) as [Hb|Hb].
  - eapply wp_mono; [apply AllocMmap_spec; [lia|done]|]. intros r h' [H|(n & H1 & H2 & H3 & H4 & H5)]; [by left|right].
    exists n. split; [done|]. split; [done|]. split; [done|]. split; [done|lia].
  - destruct (pool_of_spec s) as (Hp1 & Hp2 & _); [lia|]. cbv zeta. fold (pool_of s).
    eapply wp_mono; [by apply MempoolAlloc_spec|]. intros r h' [H|(H1 & H2 & H3 & H4)]; [by left|right].
    exists (block_words (pool_of s)). rewrite block_words_eq by done. split; [done|]. split; [done|]. split; [done|]. split; [done|lia].
Qed.

Lemma DfxFree_spec h A ptr ws : inv h A → A !! ptr = Some ws → wp (DfxFree ptr) (λ _ h', inv h' (delete ptr A)) h.
Proof.
  intros (gp & gl & Hh & Hm & Hsep & Hl & Hd & Hnf & HA) Hptr. pose proof HA as [HA1 HA2]. destruct (HA1 _ _ Hptr) as [(p & k & Hp & Hc) _].
  destruct (Hm _ _ Hp) as ([[Hp4 Hp0] Hp64] & Hk & Hok & _). pose proof (chunk_bounds _ _ _ _ Hk Hc) as (Hb1 & Hb2 & Hb3).
  unfold DfxFree. do 2 wp_step. rewrite (proj1 Hh). cbn [Z.eqb]. rewrite (proj2 (Z.eqb_neq ptr 0)) by lia.
  wp_step. apply (wp_GetPage gp p k ptr (8 * length ws)); try done. rewrite (proj2 (Z.eqb_neq p 0)) by lia.
  wp_step. apply (wp_load_tag p k); [done|]. destruct k as [i fl|sz]; cbn [ktype].
  - destruct Hk as (Hi & _). change DFX_MMAP_TYPE with 111. rewrite (proj2 (Z.eqb_neq _ 111)) by lia.
    unfold is_pool_type. change DFX_MEMPOOL_MIN_TYPE with 4. change DFX_MEMPOOL_MAX_TYPE with 10.
    rewrite !(proj2 (Z.leb_le _ _)) by lia. cbn [andb]. replace (Z.to_nat (Z.of_nat i + 4 - 4)) with i by lia.
    destruct Hc as (b & Hb & Hnb & -> & _). by eapply MempoolFree_spec.
  - rewrite Z.eqb_refl. destruct Hok as [_ Hsz]. destruct Hc as [-> _]. do 2 wp_step. rewrite (proj2 (proj2 (proj2 Hh))).
    assert (Hin : p ∈ gl 7%nat) by (apply (proj2 (Hl 7%nat)); by exists (KBig sz)). apply list_elem_of_split in Hin as (l1 & l2 & Hg).
    pose proof (lists_ok_pre _ _ Hl) as Hlp. wp_step. eapply wp_mono; [by apply (RemovePage_heap gp gl 7 p l1 l2)|].
    intros r h1 (-> & m1 & -> & Hm1 & Hd1 & _ & HA1'). do 2 wp_step. destruct (Hm1 _ _ Hp) as (_ & _ & [_ Hsz1] & _).
    do 2 wp_step; [exact Hsz1|]. unfold munmap. wp_step. cbn [h_mem set_mem set_g_pageList].
    destruct (drop_page m1 gp p (KBig sz) Hm1 Hsep Hp) as (Hm2 & Hsep2 & Hd2 & _ & HA3).
    exists (delete p gp), (set_list 7 (l1 ++ l2) gl). split; [by apply (heads_set_g h gl (λ _, 0) 7 (l1 ++ l2))|].
    split; [exact Hm2|]. split; [done|]. split; [by eapply lists_ok_drop|]. split; [|split].
    + apply Hd2; [by eapply lists_pre_remove|by eapply removed_nowhere|done].
    + intros q j fl Hq. apply lookup_delete_Some in Hq as [_ Hq]. by eapply Hnf.
    + apply HA3; [by apply HA1'|by intros q cap [-> _]|by exists (sz - 48)].
Qed.

Lemma inv_pos h A ptr ws : inv h A → A !! ptr = Some ws → 0 < ptr ∧ (2 ≤ length ws)%nat.
Proof.
  intros (gp & gl & _ & Hm & _ & _ & _ & _ & [HA _]) Hptr. destruct (HA _ _ Hptr) as [(p & k & Hp & Hc) _].
  destruct (Hm _ _ Hp) as ([[_ Hp0] _] & Hk & _). pose proof (chunk_bounds _ _ _ _ Hk Hc). lia.
Qed.

Lemma GetChunkSize_spec h A ptr ws Q : inv h A → A !! ptr = Some ws → Q (8 * Z.of_nat (length ws)) h → wp (GetChunkSize ptr) Q h.
Proof.
  intros (gp & gl & Hh & Hm & Hsep & Hl & Hd & Hnf & HA) Hptr HQ. pose proof HA as [HA1 _]. destruct (HA1 _ _ Hptr) as [(p & k & Hp & Hc) _].
  destruct (Hm _ _ Hp) as ([[Hp4 Hp0] Hp64] & Hk & Hok & _). pose proof (chunk_bounds _ _ _ _ Hk Hc) as (Hb1 & Hb2 & Hb3).
  unfold GetChunkSize. rewrite (proj2 (Z.eqb_neq ptr 0)) by lia. wp_step. apply (wp_GetPage gp p k ptr (8 * length ws)); try done.
  rewrite (proj2 (Z.eqb_neq p 0)) by lia. wp_step. apply (wp_load_tag p k); [done|].
  unfold is_pool_type. change DFX_MEMPOOL_MIN_TYPE with 4. change DFX_MEMPOOL_MAX_TYPE with 10. change DFX_MMAP_TYPE with 111.
  destruct k as [i fl|sz]; cbn [ktype chunk_of ksize] in *.
  - destruct Hk as (Hi & _). rewrite (proj2 (Z.eqb_neq _ 111)), !(proj2 (Z.leb_le _ _)) by lia. cbn [andb negb].
    replace (Z.to_nat (Z.of_nat i + 4 - 4)) with i by lia. wp_step. eapply wp_get_pool; [by apply Hh|]. wp_step. cbn [blockSize].
    destruct Hc as (b & _ & _ & _ & <-). done.
  - change DFX_MMAP_TYPE with 111. rewrite Z.eqb_refl. cbn [negb andb]. destruct Hok as [_ Hsz]. do 2 wp_step; [exact Hsz|]. wp_step.
    destruct Hc as [-> Hc]. rewrite wrap_small by (unfold fits; lia). replace (sz - (p + 48 - p)) with (8 * Z.of_nat (length ws)) by lia. done.
Qed.

(** A client writes to a word of a chunk it owns. *)
Lemma client_write h A ptr ws (j : nat) v : inv h A → A !! ptr = Some ws → (j < length ws)%nat →
  is_Some (h_mem h !! (ptr + 8 * j)) ∧ inv (set_mem (<[ptr + 8 * Z.of_nat j := v]> (h_mem h)) h) (<[ptr := <[j := v]> ws]> A).
Proof.
  intros (gp & gl & Hh & Hm & Hsep & Hl & Hd & Hnf & HA) Hptr Hj. pose proof HA as [HA1 HA2]. destruct (HA1 _ _ Hptr) as [Hch Hws].
  destruct (lookup_lt_is_Some_2 ws j Hj) as [w Hw]. split; [rewrite (Hws j w Hw); done|].
  set (a := ptr + 8 * Z.of_nat j). set (m' := <[a := v]> (h_mem h)).
  pose proof Hch as (p & k & Hp & Hc). destruct (Hm _ _ Hp) as (_ & Hk & _). pose proof (chunk_bounds _ _ _ _ Hk Hc) as (Hb1 & Hb2 & Hb3).
  exists gp, gl. split; [done|]. split; [|split; [done|split; [done|split; [|split; [done|split]]]]].
  - intros q kq Hq. destruct (Hm _ _ Hq) as (H1 & H2 & H3 & H4). split; [done|]. split; [done|].
    split; [|eapply mapped_mono; [exact H4|apply mono_insert]]. eapply page_ok_frame; [done| |exact H3]. intros x (Hx & _ & _ & Hnot).
    apply lookup_insert_ne. intros <-. destruct (decide (p = q)) as [<-|Hne].
    + rewrite Hp in Hq. injection Hq as <-. apply (Hnot _ _ Hc). lia.
    + destruct (Hsep _ _ _ _ Hp Hq Hne); lia.
  - eapply dlls_frame; [by apply lists_ok_pre| |exact Hd]. intros q [kq Hq].
    assert (Ho : off_links [q] a). { eapply chunk_off_links; try done; [|lia]. intros x Hx. apply list_elem_of_singleton in Hx as ->. by exists kq. }
    destruct (Ho q ltac:(set_solver)). cbn [h_mem set_mem]. unfold m'. by rewrite !lookup_insert_ne.
  - intros q vs Hq. destruct (decide (ptr = q)) as [<-|Hne].
    + rewrite lookup_insert_eq in Hq. injection Hq as <-. rewrite length_insert. split; [done|]. intros j' w' Hj'. cbn [h_mem set_mem]. unfold m'.
      destruct (decide (j = j')) as [<-|Hjj].
      * rewrite list_lookup_insert_eq in Hj' by done. injection Hj' as <-. apply lookup_insert_eq.
      * rewrite list_lookup_insert_ne in Hj' by done. rewrite lookup_insert_ne by (unfold a; lia). by apply Hws.
    + rewrite lookup_insert_ne in Hq by done. destruct (HA1 _ _ Hq) as [Hcq Hwq]. split; [done|]. intros j' w' Hj'. cbn [h_mem set_mem]. unfold m'.
      rewrite lookup_insert_ne; [by apply Hwq|]. apply lookup_lt_Some in Hj'. unfold a.
      destruct (chunk_disjoint gp Hsep _ _ _ _ _ Hm Hch Hcq) as [[? _]|]; [done|lia].
  - intros q cap Hq. destruct (decide (ptr = q)) as [<-|]; [by rewrite lookup_insert_eq|]. rewrite lookup_insert_ne by done. by eapply HA2.
Qed.

Lemma client_read h A ptr ws (j : nat) w : inv h A → A !! ptr = Some ws → ws !! j = Some w → h_mem h !! (ptr + 8 * Z.of_nat j) = Some w.
Proof. intros (gp & gl & _ & _ & _ & _ & _ & _ & [HA1 _]) Hptr Hw. destruct (HA1 _ _ Hptr) as [_ H]. by apply H. Qed.

(** [memcpy] from one chunk to another, from word [s] on. *)
Lemma memcpy_spec n : ∀ s h A dst src ds ss, inv h A → dst ≠ src → A !! dst = Some ds → A !! src = Some ss →
  (s + n ≤ length ss)%nat → (s + n ≤ length ds)%nat →
  wp (memcpy (dst + 8 * Z.of_nat s) (src + 8 * Z.of_nat s) n)
     (λ _ h', inv h' (<[dst := take s ds ++ take n (drop s ss) ++ drop (s + n) ds]> A)) h.
Proof.
  induction n as [|n IH]; intros s h A dst src ds ss Hi Hne Hd Hs Hls Hld; cbn [memcpy].
  - wp_step. rewrite take_0, Nat.add_0_r, app_nil_l, take_drop, insert_id by done. done.
  - destruct (lookup_lt_is_Some_2 ss s) as [w Hw]; [lia|]. do 2 wp_step; [by eapply client_read|].
    destruct (client_write h A dst ds s w Hi Hd) as [Hm Hi']; [lia|]. do 2 wp_step; [done|].
    replace (dst + 8 * Z.of_nat s + 8) with (dst + 8 * Z.of_nat (S s)) by lia.
    replace (src + 8 * Z.of_nat s + 8) with (src + 8 * Z.of_nat (S s)) by lia.
    eapply wp_mono; [eapply (IH (S s) _ _ dst src (<[s := w]> ds) ss Hi' Hne)|].
    + apply lookup_insert_eq.
    + by rewrite lookup_insert_ne.
    + lia.
    + rewrite length_insert. lia.
    + intros ? h'. cbv beta. rewrite insert_insert_eq. replace (S s + n)%nat with (s + S n)%nat by lia.
      replace (take (S s) (<[s := w]> ds) ++ take n (drop (S s) ss) ++ drop (s + S n) (<[s := w]> ds))
        with (take s ds ++ take (S n) (drop s ss) ++ drop (s + S n) ds); [done|].
      rewrite (drop_S ss w s Hw), drop_insert_lt by lia. cbn [take].
      rewrite (take_S_r _ s w) by (apply list_lookup_insert_eq; lia). by rewrite take_insert_ge, <- app_assoc by lia.
Qed.

(** Chunks do not meet. *)
Lemma inv_apart h A r ws q vs : inv h (<[r := ws]> A) → A !! r = None → A !! q = Some vs →
  q + 8 * Z.of_nat (length vs) <= r ∨ r + 8 * Z.of_nat (length ws) <= q.
Proof.
  intros (gp & gl & _ & Hm & Hsep & _ & _ & _ & [HA _]) Hr Hq. assert (Hne : r ≠ q) by (intros ->; congruence).
  destruct (HA r ws (lookup_insert_eq _ _ _)) as [Hc _]. destruct (HA q vs) as [Hc' _]; [by rewrite lookup_insert_ne|].
  destruct (chunk_disjoint gp Hsep _ _ _ _ _ Hm Hc' Hc) as [[? _]|]; [congruence|lia].
Qed.

(** Growing a chunk: the old contents, then zeros. *)
Lemma DfxRealloc_spec h A ptr ws size : 0 < size < 2 ^ 64 → inv h A → A !! ptr = Some ws →
  wp (DfxRealloc mmap mempool_addr ptr size) (λ r h', r = ptr ∧ inv h' A ∨
    8 * Z.of_nat (length ws) < size ∧ ∃ n : nat, inv h' (delete ptr (<[r := ws ++ replicate (n - length ws) 0]> A)) ∧ A !! r = None ∧
      r mod 16 = 0 ∧ 0 < r ∧ size <= 8 * n ∧
      ∀ q vs, A !! q = Some vs → q + 8 * Z.of_nat (length vs) <= r ∨ r + 8 * Z.of_nat n <= q) h.
Proof.
  intros Hs Hi Hptr. pose proof (inv_pos _ _ _ _ Hi Hptr) as Hcap.
  unfold DfxRealloc. do 2 wp_step. wp_step. eapply wp_init; [left; exact Hi|]. clear h Hi. intros h Hi.
  rewrite (proj2 (Z.eqb_neq ptr 0)), (proj2 (Z.eqb_neq size 0)) by lia. wp_step. eapply GetChunkSize_spec; [done..|].
  rewrite (proj2 (Z.eqb_neq _ 0)) by lia. destruct (Z.ltb_spec (8 * Z.of_nat (length ws)) size) as [Hlt|Hge]; [|wp_step; by left].
  wp_step. eapply wp_mono; [apply DfxAlloc_spec; [lia|by left]|]. intros r h1 [[-> Hi1]|(n & Hi1 & Hn & H16 & Hr0 & Hn8)].
  { cbn [negb Z.eqb]. wp_step. by left. }
  rewrite (proj2 (Z.eqb_neq r 0)) by lia. cbn [negb].
  replace (8 * Z.of_nat (length ws) / 8) with (Z.of_nat (length ws)) by (rewrite Z.mul_comm, Z.div_mul; lia). rewrite Nat2Z.id.
  assert (Hne : r ≠ ptr) by (intros ->; congruence). wp_step.
  pose proof (memcpy_spec (length ws) 0 h1 (<[r := replicate n 0]> A) r ptr (replicate n 0) ws Hi1 Hne) as Hcp.
  replace (r + 8 * Z.of_nat 0) with r in Hcp by lia. replace (ptr + 8 * Z.of_nat 0) with ptr in Hcp by lia.
  eapply wp_mono; [apply Hcp|].
  { apply lookup_insert_eq. }
  { by rewrite lookup_insert_ne. }
  { lia. }
  { rewrite length_replicate. lia. }
  intros ? h2. cbv beta. rewrite insert_insert_eq, take_0, app_nil_l, drop_0, take_ge, drop_replicate by lia. cbn [Nat.add]. intros Hi2.
  wp_step. eapply wp_mono; [eapply (DfxFree_spec _ _ ptr ws Hi2); by rewrite lookup_insert_ne|]. intros ? h3 Hi3. wp_step. right. split; [done|].
  exists n. split; [done|]. split; [done|]. split; [done|]. split; [done|]. split; [done|]. intros q vs Hq.
  pose proof (inv_apart _ _ _ _ _ _ Hi1 Hn Hq) as H. by rewrite length_replicate in H.
Qed.

(** ** Refinement of an abstract heap *)
Inductive op :=
| OMalloc (size : Z) | OCalloc (count size : Z) | ORealloc (ptr size : Z) | OFree (ptr : Z)
| OWrite (ptr : Z) (j : nat) (v : Z) | ORead (ptr : Z) (j : nat).

Definition run_op (o : op) : M Z :=
  match o with
  | OMalloc size => HookMalloc mmap mempool_addr size
  | OCalloc count size => HookCalloc mmap mempool_addr count size
  | ORealloc ptr size => HookRealloc mmap mempool_addr ptr size
  | OFree ptr => HookFree ptr;; mret 0
  | OWrite ptr j v => store (ptr + 8 * Z.of_nat j) v;; mret 0
  | ORead ptr j => load (ptr + 8 * Z.of_nat j)
  end.

(** A chunk of its own for [size] bytes, with the contents [ws]. *)
Definition fresh_chunk (A : gmap Z (list Z)) (r size : Z) (ws : list Z) : Prop :=
  0 < r ∧ r mod 16 = 0 ∧ size <= 8 * Z.of_nat (length ws) ∧
  ∀ q vs, A !! q = Some vs → q + 8 * Z.of_nat (length vs) <= r ∨ r + 8 * Z.of_nat (length ws) <= q.
Definition amalloc (A : gmap Z (list Z)) (size r : Z) (A' : gmap Z (list Z)) : Prop :=
  r = 0 ∧ A' = A ∨ ∃ n : nat, fresh_chunk A r size (replicate n 0) ∧ A' = <[r := replicate n 0]> A.

(** The operations of the abstract heap; a reallocation that cannot grow gives back its argument. *)
Definition astep (A : gmap Z (list Z)) (o : op) (r : Z) (A' : gmap Z (list Z)) : Prop :=
  match o with
  | OMalloc size => amalloc A size r A'
  | OCalloc count size => amalloc A (u64 (count * size)) r A'
  | ORealloc ptr size =>
      if ptr =? 0 then amalloc A size r A'
      else if size =? 0 then r = 0 ∧ A' = A
      else r = ptr ∧ A' = A ∨
        ∃ ws (n : nat), A !! ptr = Some ws ∧ 8 * Z.of_nat (length ws) < size ∧
          fresh_chunk A r size (ws ++ replicate n 0) ∧ A' = delete ptr (<[r := ws ++ replicate n 0]> A)
  | OFree ptr => r = 0 ∧ A' = delete ptr A
  | OWrite ptr j v => r = 0 ∧ ∃ ws, A !! ptr = Some ws ∧ A' = <[ptr := <[j := v]> ws]> A
  | ORead ptr j => A' = A ∧ ∃ ws, A !! ptr = Some ws ∧ ws !! j = Some r
  end.

(** What a client may do: free and reallocate its chunks (or nothing), use words inside of them. *)
Definition allowed (A : gmap Z (list Z)) (o : op) : Prop :=
  match o with
  | OMalloc size => 0 <= size < 2 ^ 64
  | OCalloc count size => True
  | ORealloc ptr size => 0 <= size < 2 ^ 64 ∧ (ptr = 0 ∨ is_Some (A !! ptr))
  | OFree ptr => ptr = 0 ∨ is_Some (A !! ptr)
  | OWrite ptr j _ | ORead ptr j => ∃ ws, A !! ptr = Some ws ∧ (j < length ws)%nat
  end.

Lemma allocated_amalloc A size r h' : allocated A size r h' → ∃ A', amalloc A size r A' ∧ inv h' A'.
Proof.
  intros [[-> Hi]|(n & Hi & Hn & H16 & Hr & Hs)]; [exists A; split; [by left|done]|].
  exists (<[r := replicate n 0]> A). split; [right|done]. exists n. split; [|done]. rewrite <- (length_replicate n 0) in Hs.
  split; [done|]. split; [done|]. split; [done|]. intros q vs Hq. by eapply inv_apart.
Qed.

Lemma run_op_spec h A o : hinv h A → allowed A o → wp (run_op o) (λ r h', ∃ A', astep A o r A' ∧ hinv h' A') h.
Proof.
  intros Hh Ho. assert (Hinv : ∀ ptr, is_Some (A !! ptr) → inv h A).
  { intros ptr Hp. destruct Hh as [Hi|(_ & _ & ->)]; [done|]. rewrite lookup_empty in Hp. by destruct Hp. }
  assert (Hmalloc : ∀ size, 0 <= size < 2 ^ 64 → wp (DfxAlloc mmap mempool_addr size) (λ r h', ∃ A', amalloc A size r A' ∧ hinv h' A') h).
  { intros size Hs. eapply wp_mono; [by apply DfxAlloc_spec|]. intros r h' H. apply allocated_amalloc in H as (A' & H1 & H2).
    exists A'. split; [done|by left]. }
  destruct o as [size|count size|ptr size|ptr|ptr j v|ptr j]; cbn [run_op astep allowed] in *.
  - by apply Hmalloc.
  - apply Hmalloc. by apply wrap_fits.
  - unfold HookRealloc. destruct Ho as [Hs [->|Hp]].
    + cbn [Z.eqb]. unfold DfxRealloc. do 2 wp_step. wp_step. eapply wp_init; [exact Hh|]. intros h1 Hi1. cbn [Z.eqb].
      eapply wp_mono; [apply (DfxAlloc_spec h1 A size); [done|by left]|]. intros r h' H. apply allocated_amalloc in H as (A' & H1 & H2).
      exists A'. split; [done|by left].
    + pose proof (Hinv _ Hp) as Hi. destruct Hp as [ws Hp]. destruct (Z.eqb_spec ptr 0) as [->|Hp0].
      { destruct (inv_pos _ _ _ _ Hi Hp). lia. }
      destruct (Z.eqb_spec size 0) as [->|Hs0].
      { unfold DfxRealloc. do 2 wp_step. wp_step. eapply wp_init; [exact Hh|]. intros h1 Hi1. rewrite (proj2 (Z.eqb_neq _ _) Hp0). cbn [Z.eqb].
        wp_step. exists A. split; [done|by left]. }
      eapply wp_mono; [apply (DfxRealloc_spec h A ptr ws size); [lia|done|done]|].
      intros r h' [[-> Hi']|(Hlt & n & Hi' & Hn & H16 & Hr & Hn8 & Hap)]; [exists A; split; [by left|by left]|].
      exists (delete ptr (<[r := ws ++ replicate (n - length ws) 0]> A)). split; [right|by left]. exists ws, (n - length ws)%nat.
      assert (Hlen : length (ws ++ replicate (n - length ws) 0) = n) by (rewrite length_app, length_replicate; lia).
      split; [done|]. split; [done|]. split; [|done]. unfold fresh_chunk. rewrite Hlen. done.
  - wp_step. destruct Ho as [->|Hp].
    + unfold HookFree, DfxFree. do 2 wp_step. cbn [Z.eqb]. replace (if initFlag h =? 0 then mret tt else mret tt : M unit) with (mret tt : M unit) by (by destruct (_ =? 0)).
      do 2 wp_step. exists A. split; [|done]. split; [done|]. rewrite delete_id; [done|]. destruct (A !! 0) as [ws|] eqn:E; [|done].
      destruct (inv_pos _ _ _ _ (Hinv 0 ltac:(by rewrite E)) E). lia.
    + pose proof (Hinv _ Hp) as Hi. destruct Hp as [ws Hp]. eapply wp_mono; [by eapply DfxFree_spec|]. intros ? h' Hi'. wp_step.
      exists (delete ptr A). split; [done|by left].
  - destruct Ho as (ws & Hp & Hj). pose proof (Hinv ptr ltac:(by rewrite Hp)) as Hi. destruct (client_write h A ptr ws j v Hi Hp Hj) as [Hm Hi'].
    do 2 wp_step; [done|]. wp_step. exists (<[ptr := <[j := v]> ws]> A). split; [|by left]. split; [done|]. by exists ws.
  - destruct Ho as (ws & Hp & Hj). pose proof (Hinv ptr ltac:(by rewrite Hp)) as Hi. destruct (lookup_lt_is_Some_2 ws j Hj) as [w Hw].
    wp_step; [by eapply client_read|]. exists A. split; [|by left]. split; [done|]. by exists ws.
Qed.

(** A client chooses its next operation from the results so far. *)
Fixpoint run (client : list Z → op) (n : nat) (rs : list Z) : M (list Z) :=
  match n with O => mret rs | S n' => r ← run_op (client rs); run client n' (rs ++ [r]) end.

Inductive aruns (client : list Z → op) : list Z → gmap Z (list Z) → Prop :=
| aruns_nil : aruns client [] ∅
| aruns_step rs A r A' : aruns client rs A → astep A (client rs) r A' → aruns client (rs ++ [r]) A'.

Definition well_behaved (client : list Z → op) : Prop := ∀ rs A, aruns client rs A → allowed A (client rs).

(** C5. The allocator implements the abstract heap: whatever [mmap] does within its contract, every run
    of a client that stays within its chunks is a run of the abstract heap; nothing is undefined, and
    the allocator's invariant holds. *)
Theorem heap_refines client : well_behaved client → ∀ n m, ∃ rs h A,
  run client n [] (heap_new m) = Ret (rs, h) ∧ aruns client rs A ∧ hinv h A ∧ length rs = n.
Proof.
  intros Hc n m. assert (H : ∀ rs h A, aruns client rs A → hinv h A →
    wp (run client n rs) (λ rs' h', ∃ A', aruns client rs' A' ∧ hinv h' A' ∧ length rs' = length rs + n)%nat h).
  { induction n as [|n IH]; intros rs h A Hr Hh; cbn [run].
    - wp_step. exists A. split; [done|]. split; [done|lia].
    - wp_step. eapply wp_mono; [apply run_op_spec; [exact Hh|by apply Hc]|]. intros r h' (A' & Hs & Hh').
      eapply wp_mono; [eapply (IH (rs ++ [r])); [by eapply aruns_step|done]|]. intros rs' h2 (A2 & H1 & H2 & H3).
      exists A2. split; [done|]. split; [done|]. rewrite length_app in H3. cbn in H3. lia. }
  destruct (H [] (heap_new m) ∅) as (rs & h & E & A & H1 & H2 & H3); [constructor|by right|]. by exists rs, h, A.
Qed.
End Mmap.

(** When there is no memory for the larger chunk, [realloc] returns the old one, as if it had grown. *)
Theorem Realloc_hides_failure mmap mempool_addr h A ptr ws size :
  (∀ m n, mmap m n = None) → inv h A → A !! ptr = Some ws → 1024 < size < 2 ^ 64 → 8 * Z.of_nat (length ws) < size →
  HookRealloc mmap mempool_addr ptr size h = Ret (ptr, h).
Proof.
  intros Hno Hi Hptr Hs Hlt. destruct (inv_pos _ _ _ _ Hi Hptr) as [Hp Hw].
  assert (Hf : initFlag h = 1) by (destruct Hi as (gp & gl & [H _] & _); done).
  assert (H : wp (HookRealloc mmap mempool_addr ptr size) (λ r h', r = ptr ∧ h' = h) h);
    [|destruct H as (r & h' & -> & -> & ->); done].
  unfold HookRealloc, DfxRealloc. do 2 wp_step. rewrite Hf. cbn [Z.eqb]. do 2 wp_step.
  rewrite (proj2 (Z.eqb_neq ptr 0)), (proj2 (Z.eqb_neq size 0)) by lia. wp_step. eapply GetChunkSize_spec; [done..|].
  rewrite (proj2 (Z.eqb_neq _ 0)), (proj2 (Z.ltb_lt _ size)) by lia. unfold DfxAlloc, AllocImpl. do 3 wp_step. rewrite Hf. cbn [Z.eqb].
  do 2 wp_step. rewrite (proj2 (Z.eqb_neq size 0)), (proj2 (Z.ltb_lt _ size)) by (unfold DFX_MEMPOOL_MAX_BLOCK_SIZE; lia).
  unfold AllocMmap, sys_mmap. destruct (_ || _); [wp_step; cbn; by wp_step|]. wp_step. eexists None, h. rewrite Hno. split; [done|].
  wp_step. cbn. by wp_step.
Qed.

(** A kernel that maps pages above everything mapped so far. *)
Definition bump_mmap (m : gmap Z Z) (size : Z) : option Z :=
  let p := (map_fold (λ k _ acc, Z.max k acc) 0 m / 4096 + 1) * 4096 in
  if p + size <=? 2 ^ 64 then Some p else None.

Lemma bump_mmap_ok : mmap_ok bump_mmap.
Proof.
  intros m size p E Hs. unfold bump_mmap in E. set (top := map_fold _ 0 m) in *.
  assert (Htop : 0 <= top ∧ ∀ k v, m !! k = Some v → k <= top).
  { unfold top. apply (map_fold_weak_ind (λ r m, 0 <= r ∧ ∀ k v, m !! k = Some v → k <= r)).
    - split; [lia|]. intros k v H. by rewrite lookup_empty in H.
    - intros i x m' r Hi [H0 Hr]. split; [lia|]. intros k v [[<- _]|[_ H]]%lookup_insert_Some; [lia|]. specialize (Hr k v H). lia. }
  destruct (Z.leb_spec ((top / 4096 + 1) * 4096 + size) (2 ^ 64)); [|done]. injection E as <-.
  destruct Htop as [H0 Hk]. split; [by rewrite Z.mod_mul|]. split; [pose proof (Z.div_pos top 4096); lia|]. split; [done|].
  intros a Ha. destruct (m !! a) as [v|] eqn:Ev; [|done]. specialize (Hk a v Ev). Z.to_euclidean_division_equations. lia.
Qed.

(** A client that takes 100 bytes, uses them and frees them. *)
Definition example_client (rs : list Z) : op :=
  match rs with
  | [] => OMalloc 100
  | [p] => if p =? 0 then OMalloc 1 else OWrite p 12 7
  | [p; _] => if p =? 0 then OMalloc 1 else ORead p 12
  | [p; _; _] => if p =? 0 then OMalloc 1 else OFree p
  | _ => OMalloc 2000
  end.

Lemma example_client_ok : well_behaved example_client.
Proof.
  assert (H : ∀ rs A, aruns example_client rs A →
    match rs with
    | [] => True
    | [p] | [p; _] | [p; _; _] => p = 0 ∨ ∃ ws, A !! p = Some ws ∧ (12 < length ws)%nat
    | _ => True
    end).
  { intros rs A Hr. induction Hr as [|rs A r A' Hr IH Hs]; [done|].
    destruct rs as [|a [|b [|c [|d rs]]]]; cbn [app example_client] in *; try done.
    - destruct Hs as [[-> _]|(n & (_ & _ & Hn & _) & ->)]; [by left|right]. exists (replicate n 0). rewrite lookup_insert_eq. split; [done|].
      rewrite length_replicate in *. lia.
    - destruct (Z.eqb_spec a 0) as [->|Ha]; [by left|right]. destruct IH as [->|(ws & Hw & Hl)]; [done|].
      destruct Hs as (_ & ws' & Hw' & ->). rewrite Hw in Hw'. injection Hw' as <-. exists (<[12%nat := 7]> ws). rewrite lookup_insert_eq.
      by rewrite length_insert.
    - destruct (Z.eqb_spec a 0) as [->|Ha]; [by left|right]. destruct IH as [->|(ws & Hw & Hl)]; [done|]. destruct Hs as [-> _]. by exists ws.
    }
  intros rs A Hr. specialize (H rs A Hr). destruct rs as [|a [|b [|c [|d rs]]]]; cbn [example_client].
  - done.
  - destruct (Z.eqb_spec a 0); [done|]. destruct H as [?|H]; [done|exact H].
  - destruct (Z.eqb_spec a 0); [done|]. destruct H as [?|H]; [done|exact H].
  - destruct (Z.eqb_spec a 0); [done|]. destruct H as [?|(ws & Hw & _)]; [done|]. right. by exists ws.
  - done.
Qed.

Lemma heap_refines_witness : ∃ rs h A,
  run bump_mmap (λ _, 0) example_client 5 [] (heap_new ∅) = Ret (rs, h) ∧ aruns example_client rs A ∧ hinv h A ∧ length rs = 5%nat.
Proof. apply (heap_refines bump_mmap (λ _, 0) bump_mmap_ok example_client example_client_ok 5 ∅). Defined.

(** A heap with one block of 16 bytes. *)
Definition example_heap : heap := mkHeap ∅ 1 0 (map pool_init (seq 0 DFX_MEMPOOLS_NUM)).
Lemma one_block : ∃ r h, inv h (<[r := [0; 0]]> ∅).
Proof.
  assert (H0 : match MempoolAlloc bump_mmap (λ _, 0) 0 example_heap with Ret (r, _) => r =? 0 | _ => true end = false)
    by (vm_compute; reflexivity).
  destruct (MempoolAlloc_spec bump_mmap (λ _, 0) bump_mmap_ok example_heap ∅ 0 ltac:(lia) (init_inv (heap_new ∅) eq_refl)) as (r & h & E & H).
  rewrite E in H0. exists r, h. clear E. destruct H as [[-> _]|[H _]]; [discriminate H0|exact H].
Qed.

Lemma Realloc_hides_failure_witness : ∃ r h, HookRealloc (λ _ _, None) (λ _, 0) r 5000 h = Ret (r, h).
Proof.
  destruct one_block as (r & h & Hi). exists r, h.
  apply (Realloc_hides_failure (λ _ _, None) (λ _, 0) h (<[r := [0; 0]]> ∅) r [0; 0] 5000);
    [reflexivity|exact Hi|apply lookup_insert_eq|lia|cbn; lia].
Defined.
