(* ===== verification/UniqueStack.v ===== *)
(** * The unique stack table

    [UniqueStackTable] (interfaces/innerkits/async_stack/unique_stack_table.cpp): a lock-free hash
    table that stores call stacks as chains of nodes (pc, index of the caller's node) and names a
    stack by the index of its top node.  Insertions run concurrently; a slot changes only by a
    compare-and-exchange from empty. *)
From S2P Require Import Prelude.

Definition ADDR_BIT_LENGTH : Z := 39.
Definition IDX_BIT_LENGTH : Z := 25.
Definition DECONFLICT_INCREASE_STEP : Z := 3.
Definition RESIZE_MULTIPLE : Z := 2.
Definition INITIAL_TABLE_SIZE : Z := 1024 * 1024.
Definition MAX_NODES_CNT : Z := 2 ^ 25.
Definition HEAD_NODE_INDEX : Z := 0.
Definition INIT_DECONFLICT_ALLOWED : Z := 22.
Definition NODE_SIZE : Z := 8.

(** [union Node]: a 39-bit pc below a 25-bit index, and the fields of a value. *)
Definition Node (pc prevIdx : Z) : Z := pc mod 2 ^ 39 + 2 ^ 39 * (prevIdx mod 2 ^ 25).
Definition node_pc (value : Z) : Z := value mod 2 ^ 39.
Definition node_prev (value : Z) : Z := value / 2 ^ 39.

(** [union StackId]: the section view. *)
Record StackId := mkStackId { sid_id : Z; sid_nr : Z }.

(** [struct StackTable].  The buffer is its nodes; [None] is the null pointer. *)
Record StackTable := mkTable {
  tableBufMMap : option (list Z);
  st_tableSize : Z;
  usedSlots : list Z;
  totalNodes : Z;
  availableNodes : Z;
  hashModulus : Z;
  availableIndex : Z;
  hashStep : Z;
  releaseBuffer : bool
}.

Definition StackTable_default : StackTable := mkTable None INITIAL_TABLE_SIZE [] 0 0 0 1 0 true.

Record UniqueStackTable := mkUnique {
  pid_ : Z;
  deconflictTimes_ : Z;
  stackTable_ : StackTable;
  snapshot_ : option StackTable;
  profilerInit_ : bool
}.

Definition set_table (t : StackTable) (u : UniqueStackTable) : UniqueStackTable :=
  mkUnique (pid_ u) (deconflictTimes_ u) t (snapshot_ u) (profilerInit_ u).
Definition set_nodes (ns : list Z) (t : StackTable) : StackTable :=
  mkTable (Some ns) (st_tableSize t) (usedSlots t) (totalNodes t) (availableNodes t) (hashModulus t)
    (availableIndex t) (hashStep t) (releaseBuffer t).

Definition IsTableValid (t : StackTable) : bool :=
  match tableBufMMap t with Some _ => true | None => false end.

(** [((size / sizeof(Node)) >> 1) << 1]. *)
Definition even_nodes (size : Z) : Z := Z.shiftl (Z.shiftr (size / NODE_SIZE) 1) 1.

(** The first constructor of the header, and the one over a buffer. *)
Definition UniqueStackTable_new (pid : Z) : UniqueStackTable :=
  mkUnique pid INIT_DECONFLICT_ALLOWED StackTable_default None false.

(** [Init].  [mmap_ok] tells whether [mmap] succeeds; its memory is zeroed. *)
Definition Init (mmap_ok : bool) (u : UniqueStackTable) : bool * UniqueStackTable :=
  let t := stackTable_ u in
  if IsTableValid t then (true, u)
  else
    let total := u32 (even_nodes (st_tableSize t)) in
    let t1 := mkTable (tableBufMMap t) (st_tableSize t) (usedSlots t) total (availableNodes t)
                (hashModulus t) 1 (hashStep t) (releaseBuffer t) in
    if MAX_NODES_CNT <? total then (false, set_table t1 u)
    else
      let t2 := mkTable (tableBufMMap t) (st_tableSize t) (usedSlots t) total total
                  (hashModulus t) 1 (hashStep t) (releaseBuffer t) in
      if total =? 0 then (false, set_table t2 u)
      else
        let step := total / (deconflictTimes_ u * 2 + 1) in
        let nodes := replicate (Z.to_nat (st_tableSize t / NODE_SIZE)) 0 in
        (mmap_ok,
         set_table (mkTable (if mmap_ok then Some nodes else None) (st_tableSize t) (usedSlots t) total total
                      (u32 (total - 1)) 1 step (releaseBuffer t)) u).

(** [static_cast<int>(log2(size / mb) * 3 + 22)]: the floor of the real value. *)
Definition deconflict_for (size : Z) : Z :=
  let mb := 1024 * 1024 in
  if size <=? mb then INIT_DECONFLICT_ALLOWED
  else u16 (Z.log2 ((size / mb) ^ 3) + INIT_DECONFLICT_ALLOWED).

(** [InitWithExternalBuffer(buffer, size)]: the old table moves to the snapshot; a failure then
    drops the snapshot. *)
Definition InitWithExternalBuffer (buffer : list Z) (size : Z) (u : UniqueStackTable)
  : bool * UniqueStackTable :=
  match snapshot_ u with
  | Some _ => (false, u)
  | None =>
      let total := u32 (even_nodes size) in
      let d := StackTable_default in
      let t1 := mkTable (tableBufMMap d) (st_tableSize d) (usedSlots d) total (availableNodes d)
                  (hashModulus d) 1 (hashStep d) (releaseBuffer d) in
      if MAX_NODES_CNT <? total
      then (false, mkUnique (pid_ u) (deconflictTimes_ u) t1 None (profilerInit_ u))
      else
        let t2 := mkTable (tableBufMMap d) (st_tableSize d) (usedSlots d) total total
                    (hashModulus d) 1 (hashStep d) (releaseBuffer d) in
        if total =? 0 then (false, mkUnique (pid_ u) (deconflictTimes_ u) t2 None (profilerInit_ u))
        else
          let times := deconflict_for size in
          (true, mkUnique (pid_ u) times
                   (mkTable (Some buffer) (u32 size) (usedSlots d) total total (u32 (total - 1)) 1
                      (total / (times * 2 + 1)) (releaseBuffer d))
                   (Some (stackTable_ u)) true)
  end.

(** [SwitchExternalBuffer]: a null buffer restores the snapshot. *)
Definition SwitchExternalBuffer (buffer : option (list Z)) (size : Z) (u : UniqueStackTable)
  : bool * UniqueStackTable :=
  match buffer with
  | Some b => InitWithExternalBuffer b size u
  | None =>
      match snapshot_ u with
      | Some t => (true, mkUnique (pid_ u) INIT_DECONFLICT_ALLOWED t None false)
      | None => (false, u)
      end
  end.

(** [Resize]: a buffer four times as large, the old nodes copied to its start ([memcpy_s] fails
    when the destination is the smaller one); insertions move to the new part. *)
Definition Resize (mmap_ok : bool) (u : UniqueStackTable) : bool * UniqueStackTable :=
  let t := stackTable_ u in
  match tableBufMMap t with
  | None => (false, u)
  | Some nodes =>
      if MAX_NODES_CNT <? u32 (Z.shiftl (totalNodes t) RESIZE_MULTIPLE) then (false, u)
      else
        let newtableSize := u32 (Z.shiftl (st_tableSize t) RESIZE_MULTIPLE) in
        if negb mmap_ok then (false, u)
        else if newtableSize <? st_tableSize t then (false, u)
        else
          let newTotal := u32 (even_nodes newtableSize) in
          let newAvail := u32 (newTotal - totalNodes t) in
          if newAvail =? 0 then (false, u)
          else
            let times := u16 (deconflictTimes_ u + DECONFLICT_INCREASE_STEP) in
            let cells := Z.to_nat (newtableSize / NODE_SIZE) in
            (true, mkUnique (pid_ u) times
                     (mkTable (Some (take cells (nodes ++ replicate (cells - length nodes) 0)))
                        newtableSize (usedSlots t) newTotal newAvail (u32 (newAvail - 1))
                        (u32 (availableIndex t + availableNodes t)) (newAvail / (times * 2 + 1))
                        (releaseBuffer t))
                     (snapshot_ u) (profilerInit_ u))
  end.

(** The index of the next probe after [k] more are left. *)
Definition next_probe (t : StackTable) (k : nat) (idx : Z) : Z :=
  let idx := u64 (idx + k * hashStep t + 1) in
  if totalNodes t <=? idx then u64 (idx - u32 (availableNodes t - 1)) else idx.

(** [Node::CompareExchangeStrong] on a slot: whether the exchange took place, what [expected]
    holds afterwards, and the table; [None] for a slot outside the buffer. *)
Definition CompareExchangeStrong (nodes : list Z) (idx : nat) (desired expected : Z)
  : option (bool * Z * list Z) :=
  old ← nodes !! idx;
  Some (if old =? expected then (true, expected, <[idx := desired]> nodes) else (false, old, nodes)).

(** What the other threads that hold the shared lock do to the table between two steps of this
    one: their own exchanges of an empty slot for a node. *)
Definition interference : Type := list (nat * Z).
Definition others (acts : interference) (nodes : list Z) : list Z :=
  foldl (λ ns '(i, v), from_option snd ns (CompareExchangeStrong ns i v 0)) nodes acts.

(** The [while] of [PutPcInSlot]: the compare-and-exchange fills an empty slot; a slot that
    already holds the node is reused; any other slot is probed past. [env] lists what other
    threads do before each exchange; past its end they do nothing. *)
Fixpoint put_loop (t : StackTable) (value : Z) (times : nat) (idx : Z) (nodes : list Z)
  (env : list interference) : outcome (Z * list Z * list interference) :=
  match times with
  | O => Ret (0, nodes, env)
  | S k =>
      let nodes := others (default [] (head env)) nodes in
      let env := tail env in
      match CompareExchangeStrong nodes (Z.to_nat idx) value 0 with
      | None => Undef OutOfBounds
      | Some (true, _, nodes) => Ret (idx, nodes, env)
      | Some (false, expected, nodes) =>
          if expected =? value then Ret (idx, nodes, env)
          else if availableNodes t =? 0 then Ret (0, nodes, env)
          else put_loop t value k (next_probe t k idx) nodes env
      end
  end.

Definition first_probe (t : StackTable) (thisPc prevIdx : Z) : Z :=
  u64 (Z.lxor (Z.shiftr thisPc 2) (u64 (Z.shiftl prevIdx 4)) mod hashModulus t + availableIndex t).

Definition PutPcInSlot (times : Z) (t : StackTable) (thisPc prevIdx : Z) (nodes : list Z)
  (env : list interference) : outcome (Z * list Z * list interference) :=
  if hashModulus t =? 0 then Ret (0, nodes, env)
  else put_loop t (Node thisPc prevIdx) (Z.to_nat (u8 times)) (first_probe t thisPc prevIdx) nodes env.

(** The loop of [PutPcsInTable], from the last pc to the first; [None] is its early return. *)
Fixpoint put_pcs (times : Z) (t : StackTable) (rev_pcs : list Z) (prev : Z) (nodes : list Z)
  (env : list interference) : outcome (option Z * list Z) :=
  match rev_pcs with
  | [] => Ret (Some prev, nodes)
  | pc :: pcs' =>
      if pc =? 0 then put_pcs times t pcs' prev nodes env
      else
        '(idx, nodes, env) ← PutPcInSlot times t pc prev nodes env;
        if idx =? 0 then Ret (None, nodes) else put_pcs times t pcs' idx nodes env
  end.

(** [PutPcsInTable(stackId, pcs, nr)]: the result, what is stored in [*stackId] (if anything) and
    the table. *)
Definition PutPcsInTable (pcs : list Z) (env : list interference) (u : UniqueStackTable)
  : outcome (Z * option StackId * UniqueStackTable) :=
  let t := stackTable_ u in
  match tableBufMMap t with
  | None => Ret (0, None, u)
  | Some nodes =>
      '(r, nodes) ← put_pcs (deconflictTimes_ u) t (reverse pcs) 0 nodes env;
      let u := set_table (set_nodes nodes t) u in
      match r with
      | None => Ret (0, None, u)
      | Some prev => Ret (prev, Some (mkStackId (prev mod 2 ^ 25) (length pcs mod 2 ^ 39)), u)
      end
  end.

(** The table after other threads' exchanges. *)
Definition interfere (acts : interference) (u : UniqueStackTable) : UniqueStackTable :=
  match tableBufMMap (stackTable_ u) with
  | None => u
  | Some nodes => set_table (set_nodes (others acts nodes) (stackTable_ u)) u
  end.

(** [GetFrame]: the node at an index below [totalNodes]. *)
Definition GetFrame (t : StackTable) (nodes : list Z) (idx : Z) : outcome (option Z) :=
  if totalNodes t <=? idx then Ret None
  else match nodes !! Z.to_nat idx with Some v => Ret (Some v) | None => Undef OutOfBounds end.

(** [while (nr-- && node != nullptr)]. *)
Fixpoint get_loop (t : StackTable) (nodes : list Z) (nr : nat) (node : option Z) (pcs : list Z)
  : outcome (list Z) :=
  match nr, node with
  | S nr', Some v =>
      let pcs := pcs ++ [node_pc v] in
      if node_prev v =? HEAD_NODE_INDEX then Ret pcs
      else node ← GetFrame t nodes (node_prev v); get_loop t nodes nr' node pcs
  | _, _ => Ret pcs
  end.

Definition read_stack (u : UniqueStackTable) (stackId : StackId) (pcs : list Z) : outcome (bool * list Z) :=
  let t := stackTable_ u in
  match tableBufMMap t with
  | None => Ret (false, pcs)
  | Some nodes =>
      node ← GetFrame t nodes (sid_id stackId);
      pcs ← get_loop t nodes (Z.to_nat (sid_nr stackId)) node pcs;
      Ret (true, pcs)
  end.

(** [GetPcsByStackId(stackId, pcs)] and its profiler overload. *)
Definition GetPcsByStackId (u : UniqueStackTable) (stackId : StackId) (pcs : list Z)
  : outcome (bool * list Z) :=
  if profilerInit_ u then Ret (false, pcs)
  else if negb (IsTableValid (stackTable_ u)) then Ret (false, pcs)
  else if 256 <? sid_nr stackId then Ret (false, pcs)
  else read_stack u stackId pcs.

Definition GetPcsByStackId_profiler (u : UniqueStackTable) (stackId : StackId) (pcs : list Z)
  (isProfiler : bool) : outcome (bool * list Z) :=
  if negb isProfiler then Ret (false, pcs) else read_stack u stackId pcs.

(** [GetWriteSize]. *)
Definition GetWriteSize (u : UniqueStackTable) : Z :=
  if negb (IsTableValid (stackTable_ u)) then 0
  else
    let usedNodes := u32 (length (usedSlots (stackTable_ u))) in
    4 + 4 + 4 + usedNodes * 4 + usedNodes * 8.

(** [ImportNode]: the index is compared with the size in bytes. *)
Definition ImportNode (index value : Z) (u : UniqueStackTable) : outcome (bool * UniqueStackTable) :=
  let t := stackTable_ u in
  match tableBufMMap t with
  | None => Ret (false, u)
  | Some nodes =>
      if st_tableSize t <=? index then Ret (false, u)
      else if (Z.to_nat index <? length nodes)%nat
      then Ret (true, set_table (set_nodes (<[Z.to_nat index := value]> nodes) t) u)
      else Undef OutOfBounds
  end.

(** ** Well-formed tables *)

(** The geometry of the region that insertions use: [availableNodes] slots from
    [availableIndex] on, at least two, all inside the buffer; the longest jump of a probe is
    shorter than the region. *)
Record table_wf (times : Z) (t : StackTable) (nodes : list Z) : Prop := {
  wf_buf : tableBufMMap t = Some nodes;
  wf_total : 0 < totalNodes t <= length nodes;
  wf_max : totalNodes t <= MAX_NODES_CNT;
  wf_avail : 2 <= availableNodes t;
  wf_modulus : hashModulus t = availableNodes t - 1;
  wf_index : 1 <= availableIndex t;
  wf_region : availableIndex t + availableNodes t = totalNodes t + 1;
  wf_step : 0 <= hashStep t;
  wf_times : 1 <= times < 2 ^ 16;
  wf_jump : (times - 1) * hashStep t + 2 <= availableNodes t
}.

(** Slots are only ever filled. *)
Definition table_le (ns ns' : list Z) : Prop :=
  length ns' = length ns ∧ ∀ i v, v ≠ 0 → ns !! i = Some v → ns' !! i = Some v.

#[export] Instance table_le_preorder : PreOrder table_le.
Proof.
  split; [by intros ns|]. intros n1 n2 n3 [L1 H1] [L2 H2]. split; [congruence|auto].
Qed.

Definition in_region (t : StackTable) (idx : Z) : Prop := availableIndex t <= idx < totalNodes t.

Section Table.
Context (times : Z) (t : StackTable).

Lemma first_probe_region nodes pc prev : table_wf times t nodes → in_region t (first_probe t pc prev).
Proof.
  intros H. unfold first_probe, in_region.
  pose proof (wf_avail _ _ _ H). pose proof (wf_modulus _ _ _ H) as Hm. pose proof (wf_region _ _ _ H).
  pose proof (wf_index _ _ _ H). pose proof (wf_max _ _ _ H) as Hx. unfold MAX_NODES_CNT in Hx.
  rewrite Hm. set (h := Z.lxor _ _).
  pose proof (Z.mod_pos_bound h (availableNodes t - 1) ltac:(lia)).
  rewrite wrap_small by (unfold fits; lia). lia.
Qed.

Lemma next_probe_region nodes (k : nat) idx :
  table_wf times t nodes → in_region t idx → k < times → in_region t (next_probe t k idx).
Proof.
  intros H [Hl Hh] Hk. unfold next_probe, in_region.
  pose proof (wf_avail _ _ _ H). pose proof (wf_region _ _ _ H). pose proof (wf_index _ _ _ H).
  pose proof (wf_jump _ _ _ H). pose proof (wf_step _ _ _ H).
  pose proof (wf_max _ _ _ H) as Hx. unfold MAX_NODES_CNT in Hx.
  assert (Hj : 0 <= k * hashStep t <= (times - 1) * hashStep t) by nia.
  rewrite (wrap_small 64) by (unfold fits; lia). rewrite (wrap_small 32) by (unfold fits; lia).
  zcase; [|lia]. rewrite wrap_small by (unfold fits; lia). lia.
Qed.

(** ** Insertions interleaved with other threads *)

(** An exchange of an empty slot only fills it. *)
Lemma exchange_le ns i v ok e ns' :
  CompareExchangeStrong ns i v 0 = Some (ok, e, ns') →
  table_le ns ns' ∧ if ok then ns' !! i = Some v else ns' = ns ∧ e ≠ 0 ∧ ns !! i = Some e.
Proof.
  unfold CompareExchangeStrong. destruct (ns !! i) as [old|] eqn:E; cbn [mbind option_bind]; [|done].
  destruct (Z.eqb_spec old 0) as [->|Hne]; intros [= <- <- <-]; [|by split; [reflexivity|]].
  split; [|apply list_lookup_insert_eq; by apply lookup_lt_Some in E].
  split; [apply length_insert|]. intros j w Hw Hj. rewrite list_lookup_insert_ne; [done|].
  intros <-. congruence.
Qed.

Lemma others_le acts ns : table_le ns (others acts ns).
Proof.
  unfold others. revert ns. induction acts as [|[i v] acts IH]; intros ns; cbn [foldl]; [reflexivity|].
  etrans; [|apply IH]. destruct (CompareExchangeStrong ns i v 0) as [[[ok e] ns']|] eqn:E; cbn; [|reflexivity].
  by eapply exchange_le.
Qed.

(** One insertion returns without leaving the buffer; it only fills slots, and the slot it
    returns holds the node. Repeated on any later table, it finds the same slot. *)
Lemma put_loop_spec value (k : nat) idx nodes ns env :
  table_wf times t nodes → length ns = length nodes → in_region t idx → k <= times →
  ∃ r ns' env', put_loop t value k idx ns env = Ret (r, ns', env') ∧ table_le ns ns' ∧
    (r = 0 ∨ in_region t r ∧ ns' !! Z.to_nat r = Some value ∧
       ∀ ns2, value ≠ 0 → table_le ns' ns2 → put_loop t value k idx ns2 [] = Ret (r, ns2, [])).
Proof.
  intros H. revert idx ns env. induction k as [|k IH]; intros idx ns env Hl Hi Hk; cbn [put_loop].
  { exists 0, ns, env. split; [done|]. split; [reflexivity|by left]. }
  pose proof (wf_total _ _ _ H). pose proof (wf_index _ _ _ H). pose proof (wf_avail _ _ _ H).
  set (ns0 := others _ ns). assert (Hle0 : table_le ns ns0) by apply others_le.
  assert (Hl0 : length ns0 = length nodes) by (destruct Hle0; congruence).
  destruct (CompareExchangeStrong ns0 (Z.to_nat idx) value 0) as [[[ok e] ns1]|] eqn:E.
  2: { destruct (lookup_lt_is_Some_2 ns0 (Z.to_nat idx)) as [old Eo]; [unfold in_region in Hi; lia|].
       unfold CompareExchangeStrong in E. by rewrite Eo in E. }
  destruct (exchange_le _ _ _ _ _ _ E) as [Hle1 Hx].
  assert (Hsame : ns1 !! Z.to_nat idx = Some value → ∀ ns2, value ≠ 0 → table_le ns1 ns2 →
    CompareExchangeStrong ns2 (Z.to_nat idx) value 0 = Some (false, value, ns2)).
  { intros Hv ns2 Hnz [_ Hle2]. unfold CompareExchangeStrong. rewrite (Hle2 _ _ Hnz Hv). cbn.
    by rewrite (proj2 (Z.eqb_neq value 0)). }
  destruct ok.
  { eexists _, _, _. split; [done|]. split; [by etrans|]. right. split; [done|]. split; [done|].
    intros ns2 Hnz Hle2. cbn. by rewrite Hsame, Z.eqb_refl. }
  destruct Hx as (-> & He & Hlk). destruct (Z.eqb_spec e value) as [->|Hv].
  { eexists _, _, _. split; [done|]. split; [done|]. right. split; [done|]. split; [done|].
    intros ns2 Hnz Hle2. cbn. by rewrite Hsame, Z.eqb_refl. }
  rewrite (proj2 (Z.eqb_neq (availableNodes t) 0)) by lia.
  destruct (IH (next_probe t k idx) ns0 (tail env) Hl0) as (r & ns' & env' & -> & Hle' & Hr);
    [by eapply next_probe_region; [| |lia]|lia|].
  exists r, ns', env'. split; [done|]. split; [by etrans|]. destruct Hr as [->|(Hreg & Hlk' & Hag)]; [by left|].
  right. split; [done|]. split; [done|]. intros ns2 Hnz Hle2. cbn.
  unfold CompareExchangeStrong at 1. rewrite (proj2 Hle2 _ e He (proj2 Hle' _ _ He Hlk)). cbn.
  rewrite (proj2 (Z.eqb_neq e 0)), (proj2 (Z.eqb_neq e value)) by done. by apply Hag.
Qed.

Lemma times_u8 nodes : table_wf times t nodes → Z.to_nat (u8 times) <= times.
Proof.
  intros H. pose proof (wf_times _ _ _ H) as Ht. pose proof (wrap_range 8 times ltac:(lia)).
  unfold wrap in *. pose proof (Z.mod_le times (2 ^ 8)). lia.
Qed.

Lemma PutPcInSlot_spec pc prev nodes ns env :
  table_wf times t nodes → length ns = length nodes →
  ∃ r ns' env', PutPcInSlot times t pc prev ns env = Ret (r, ns', env') ∧ table_le ns ns' ∧
    (r = 0 ∨ in_region t r ∧ ns' !! Z.to_nat r = Some (Node pc prev) ∧
       ∀ ns2, Node pc prev ≠ 0 → table_le ns' ns2 → PutPcInSlot times t pc prev ns2 [] = Ret (r, ns2, [])).
Proof.
  intros H Hl. unfold PutPcInSlot. pose proof (wf_modulus _ _ _ H). pose proof (wf_avail _ _ _ H).
  rewrite (proj2 (Z.eqb_neq (hashModulus t) 0)) by lia.
  apply (put_loop_spec _ _ _ nodes); [done|done|by eapply first_probe_region|by eapply times_u8].
Qed.

(** A stored stack: a chain of nodes from its top to the head index. *)
Fixpoint chain (ns : list Z) (pcs : list Z) (id : Z) : Prop :=
  match pcs with
  | [] => id = 0
  | pc :: pcs' =>
      1 <= id < totalNodes t ∧ ∃ prev, 0 <= prev < MAX_NODES_CNT ∧ Node pc prev ≠ 0 ∧
        ns !! Z.to_nat id = Some (Node pc prev) ∧ chain ns pcs' prev
  end.

Lemma chain_le ns ns' pcs id : table_le ns ns' → chain ns pcs id → chain ns' pcs id.
Proof.
  intros Hle. revert id. induction pcs as [|pc pcs IH]; intros id; [done|].
  intros (Hi & prev & Hp & Hn & Hl & Hc). split; [done|]. exists prev. split; [done|]. split; [done|].
  split; [by apply Hle|by apply IH].
Qed.

Lemma chain_id nodes ns pcs id : table_wf times t nodes → chain ns pcs id → 0 <= id < MAX_NODES_CNT.
Proof.
  intros H. pose proof (wf_index _ _ _ H). pose proof (wf_max _ _ _ H). unfold MAX_NODES_CNT in *.
  destruct pcs as [|pc pcs]; simpl; [lia|]. intros [? _]. lia.
Qed.

(** Storable pcs: the address bits of a non-zero pc are not all zero. *)
Definition storable (pc : Z) : Prop := pc = 0 ∨ pc mod 2 ^ 39 ≠ 0.
Definition nonzero (pcs : list Z) : list Z := filter (λ pc, pc ≠ 0) pcs.

Lemma Node_nonzero pc prev : pc mod 2 ^ 39 ≠ 0 → Node pc prev ≠ 0.
Proof.
  intros H. unfold Node. pose proof (Z.mod_pos_bound pc (2 ^ 39)). pose proof (Z.mod_pos_bound prev (2 ^ 25)). lia.
Qed.

(** A whole stack: the insertion returns; when it succeeds the table holds the chain of its
    non-zero pcs, and repeating it on any later table returns the same index and writes nothing. *)
Lemma put_pcs_spec nodes rev_pcs acc prev ns env :
  table_wf times t nodes → length ns = length nodes → Forall storable rev_pcs → chain ns acc prev →
  ∃ r ns', put_pcs times t rev_pcs prev ns env = Ret (r, ns') ∧ table_le ns ns' ∧
    ∀ id, r = Some id → chain ns' (reverse (nonzero rev_pcs) ++ acc) id ∧
      ∀ ns2, table_le ns' ns2 → put_pcs times t rev_pcs prev ns2 [] = Ret (Some id, ns2).
Proof.
  intros H. revert acc prev ns env.
  induction rev_pcs as [|pc pcs IH]; intros acc prev ns env Hl Hst Hc; cbn [put_pcs].
  { exists (Some prev), ns. split; [done|]. split; [reflexivity|]. by intros id [= <-]. }
  inversion Hst as [|? ? Hpc' Hst']; subst. unfold nonzero. destruct (Z.eqb_spec pc 0) as [->|Hpc].
  { rewrite filter_cons_False by auto. by apply IH. }
  rewrite filter_cons_True by done.
  destruct (PutPcInSlot_spec pc prev nodes ns env H Hl) as (idx & ns1 & env1 & -> & Hle & Hidx).
  cbn [mbind outcome_mbind]. destruct (Z.eqb_spec idx 0) as [->|Hi]; [by exists None, ns1|].
  destruct Hidx as [?|(Hreg & Hnode & Hag)]; [done|].
  assert (Hn : Node pc prev ≠ 0) by (apply Node_nonzero; by destruct Hpc').
  assert (Hc1 : chain ns1 (pc :: acc) idx).
  { pose proof (wf_index _ _ _ H). split; [unfold in_region in Hreg; lia|].
    exists prev. split; [by eapply chain_id|]. split; [done|]. split; [done|by eapply chain_le]. }
  destruct (IH (pc :: acc) idx ns1 env1) as (r & ns' & -> & Hle' & Hr);
    [destruct Hle; congruence|done|done|].
  exists r, ns'. split; [done|]. split; [by etrans|]. intros id Hid. destruct (Hr id Hid) as [Hch Hag'].
  split; [by rewrite reverse_cons, <- app_assoc|]. intros ns2 Hle2.
  rewrite Hag by (done || by etrans). cbn [mbind outcome_mbind].
  rewrite (proj2 (Z.eqb_neq idx 0)) by done. by apply Hag'.
Qed.

(** Without the conditions on the pcs, an insertion still returns and only fills slots. *)
Lemma put_pcs_total nodes rev_pcs prev ns env :
  table_wf times t nodes → length ns = length nodes →
  ∃ r ns', put_pcs times t rev_pcs prev ns env = Ret (r, ns') ∧ table_le ns ns'.
Proof.
  intros H. revert prev ns env. induction rev_pcs as [|pc pcs IH]; intros prev ns env Hl; cbn [put_pcs].
  { by exists (Some prev), ns. }
  destruct (Z.eqb_spec pc 0) as [->|Hpc]; [by apply IH|].
  destruct (PutPcInSlot_spec pc prev nodes ns env H Hl) as (idx & ns1 & env1 & -> & Hle & _).
  cbn [mbind outcome_mbind]. destruct (Z.eqb_spec idx 0) as [->|Hi]; [by exists None, ns1|].
  destruct (IH idx ns1 env1) as (r & ns' & -> & Hle'); [destruct Hle; congruence|].
  exists r, ns'. split; [done|by etrans].
Qed.

Lemma node_fields pc prev : 0 <= prev < MAX_NODES_CNT → node_pc (Node pc prev) = pc mod 2 ^ 39 ∧ node_prev (Node pc prev) = prev.
Proof.
  unfold MAX_NODES_CNT, node_pc, node_prev, Node. intros Hp. rewrite (Z.mod_small prev) by lia.
  pose proof (Z.mod_pos_bound pc (2 ^ 39) ltac:(lia)). rewrite (Z.mul_comm (2 ^ 39)). split.
  - rewrite Z.mod_add by lia. apply Z.mod_small. lia.
  - rewrite Z.div_add, Z.div_small by lia. lia.
Qed.

(** Reading a chain back gives its pcs, top first. *)
Lemma get_loop_chain nodes ns pc pcs id (nr : nat) acc :
  table_wf times t nodes → length ns = length nodes → chain ns (pc :: pcs) id → (length pcs < nr)%nat →
  ∃ v, GetFrame t ns id = Ret (Some v) ∧
    get_loop t ns nr (Some v) acc = Ret (acc ++ map (λ pc, pc mod 2 ^ 39) (pc :: pcs)).
Proof.
  intros H Hl. revert pc id nr acc. induction pcs as [|pc' pcs IH]; intros pc id nr acc Hc Hnr.
  all: destruct Hc as (Hi & prev & Hp & Hn & Hv & Hc).
  all: destruct nr as [|nr]; simpl in Hnr; [lia|].
  all: exists (Node pc prev); unfold GetFrame; rewrite (proj2 (Z.leb_gt _ _)), Hv by lia; split; [done|].
  all: cbn [get_loop]; destruct (node_fields pc prev Hp) as [-> ->].
  - simpl in Hc. subst prev. done.
  - pose proof (chain_id _ _ _ _ H Hc). destruct Hc as (Hi' & Hc').
    rewrite (proj2 (Z.eqb_neq _ _)) by (unfold HEAD_NODE_INDEX; lia).
    destruct (IH pc' prev nr (acc ++ [pc mod 2 ^ 39])) as (v & E & G); [by split|lia|].
    rewrite E. cbn [mbind outcome_mbind]. rewrite G. by rewrite <- app_assoc.
Qed.

End Table.

(** ** The invariant of the whole object *)

Lemma jump_bound a times : 2 <= a → 1 <= times → (times - 1) * (a / (times * 2 + 1)) + 2 <= a.
Proof.
  intros Ha Ht. pose proof (Z.mul_div_le a (times * 2 + 1) ltac:(lia)).
  pose proof (Z.div_pos a (times * 2 + 1) ltac:(lia) ltac:(lia)).
  destruct (Z.eq_dec (a / (times * 2 + 1)) 0) as [->|]; nia.
Qed.

Lemma even_nodes_spec size : 0 <= size → even_nodes size = 2 * (size / 16).
Proof.
  intros H. unfold even_nodes, NODE_SIZE. rewrite Z.shiftr_div_pow2, Z.shiftl_mul_pow2 by lia.
  rewrite Z.div_div by lia. change (8 * 2 ^ 1) with 16. change (2 ^ 1) with 2. lia.
Qed.

(** A table in use: its geometry and its size in bytes, a multiple of two nodes. *)
Definition sized_wf (times : Z) (t : StackTable) : Prop :=
  ∃ nodes, table_wf times t nodes ∧ 0 <= st_tableSize t < 2 ^ 29 ∧ st_tableSize t mod 16 = 0 ∧
    totalNodes t = even_nodes (st_tableSize t) ∧ Z.of_nat (length nodes) = st_tableSize t / NODE_SIZE.

Definition slot_ok (times : Z) (t : StackTable) : Prop :=
  match tableBufMMap t with
  | None => 0 <= st_tableSize t < 2 ^ 32 ∧ st_tableSize t mod 16 = 0
  | Some _ => sized_wf times t
  end.

(** The object: its table and the table it has set aside. *)
Definition unique_inv (u : UniqueStackTable) : Prop :=
  22 <= deconflictTimes_ u < 2 ^ 15 ∧ slot_ok (deconflictTimes_ u) (stackTable_ u) ∧
  match snapshot_ u with None => True | Some t => slot_ok INIT_DECONFLICT_ALLOWED t end.

Lemma slot_ok_times times times' t :
  1 <= times' <= times → slot_ok times t → slot_ok times' t.
Proof.
  intros Ht. unfold slot_ok. destruct (tableBufMMap t); [|done].
  intros (nodes & H & Hs). exists nodes. split; [|done].
  pose proof (wf_step _ _ _ H). pose proof (wf_jump _ _ _ H). pose proof (wf_times _ _ _ H).
  split; try apply H; [lia|nia].
Qed.

Lemma fresh_wf times (nodes : list Z) size used rel :
  22 <= times < 2 ^ 15 → 0 <= size < 2 ^ 32 → size mod 16 = 0 → Z.of_nat (length nodes) = size / NODE_SIZE →
  0 < even_nodes size <= MAX_NODES_CNT →
  sized_wf times (mkTable (Some nodes) size used (even_nodes size) (even_nodes size)
                    (u32 (even_nodes size - 1)) 1 (even_nodes size / (times * 2 + 1)) rel).
Proof.
  intros Ht Hs H16 Hl He. pose proof (even_nodes_spec size ltac:(lia)) as E. unfold MAX_NODES_CNT, NODE_SIZE in *.
  pose proof (Z.div_mod size 16 ltac:(lia)). pose proof (Z.mod_pos_bound size 16 ltac:(lia)).
  pose proof (Z.div_mod size 8 ltac:(lia)). pose proof (Z.mod_pos_bound size 8 ltac:(lia)).
  assert (2 <= even_nodes size) by lia.
  exists nodes. split; [|cbn [st_tableSize totalNodes]; split; [lia|done]].
  split; cbn [tableBufMMap totalNodes availableNodes hashModulus availableIndex hashStep];
    unfold MAX_NODES_CNT; try lia; try done.
  - apply wrap_small. unfold fits. lia.
  - apply Z.div_pos; lia.
  - by apply jump_bound; [|lia].
Qed.

Lemma Init_inv mmap_ok u : unique_inv u → unique_inv (snd (Init mmap_ok u)).
Proof.
  intros (Ht & Hs & Hsn). unfold Init. destruct (IsTableValid (stackTable_ u)) eqn:Ev; [done|].
  unfold IsTableValid in Ev. unfold slot_ok in Hs. destruct (tableBufMMap (stackTable_ u)); [done|].
  destruct Hs as [Hs H16].
  pose proof (even_nodes_spec (st_tableSize (stackTable_ u)) ltac:(lia)) as E.
  assert (Hu : u32 (even_nodes (st_tableSize (stackTable_ u))) = even_nodes (st_tableSize (stackTable_ u))).
  { apply wrap_small. unfold fits. rewrite E.
    pose proof (Z.div_mod (st_tableSize (stackTable_ u)) 16 ltac:(lia)).
    pose proof (Z.mod_pos_bound (st_tableSize (stackTable_ u)) 16 ltac:(lia)). lia. }
  rewrite Hu. zcase; [by split; [exact Ht|split]|]. zcase; [by split; [exact Ht|split]|].
  split; [exact Ht|]. split; [|exact Hsn]. cbn [deconflictTimes_ stackTable_ set_table slot_ok tableBufMMap snd].
  destruct mmap_ok; [|done]. apply fresh_wf; [done|done|done| |].
  - rewrite length_replicate, Z2Nat.id; [done|]. apply Z.div_pos; unfold NODE_SIZE; lia.
  - split; [|lia]. pose proof (Z.div_pos (st_tableSize (stackTable_ u)) 16). lia.
Qed.

Lemma deconflict_bounds size : 0 <= size < 2 ^ 32 → 22 <= deconflict_for size <= 60.
Proof.
  intros H. unfold deconflict_for, INIT_DECONFLICT_ALLOWED. zcase; [lia|].
  pose proof (Z.div_mod size (1024 * 1024) ltac:(lia)). pose proof (Z.mod_pos_bound size (1024 * 1024) ltac:(lia)).
  assert (Hd : 1 <= size / (1024 * 1024) < 2 ^ 12) by lia.
  assert (Hp : 1 <= (size / (1024 * 1024)) ^ 3 < 2 ^ 36).
  { split; [apply (Z.pow_le_mono_l 1 _ 3); lia|].
    change (2 ^ 36) with ((2 ^ 12) ^ 3). apply Z.pow_lt_mono_l; lia. }
  pose proof (Z.log2_nonneg ((size / (1024 * 1024)) ^ 3)).
  assert (Z.log2 ((size / (1024 * 1024)) ^ 3) < 36) by (apply Z.log2_lt_pow2; lia).
  rewrite wrap_small by (unfold fits; lia). lia.
Qed.

Lemma Switch_inv buffer size u :
  0 <= size < 2 ^ 32 → size mod 16 = 0 → (∀ b, buffer = Some b → Z.of_nat (length b) = size / NODE_SIZE) →
  unique_inv u → unique_inv (snd (SwitchExternalBuffer buffer size u)).
Proof.
  intros Hsz H16 Hb Hinv. pose proof Hinv as (Ht & Hs & Hsn). unfold SwitchExternalBuffer. destruct buffer as [b|].
  2: { destruct (snapshot_ u) as [t|] eqn:E; [|exact Hinv].
       split; [unfold INIT_DECONFLICT_ALLOWED; simpl; lia|]. done. }
  specialize (Hb b eq_refl). unfold InitWithExternalBuffer.
  destruct (snapshot_ u) eqn:E; [exact Hinv|].
  pose proof (even_nodes_spec size ltac:(lia)) as Ee.
  pose proof (Z.div_mod size 16 ltac:(lia)). pose proof (Z.mod_pos_bound size 16 ltac:(lia)).
  assert (Hu : u32 (even_nodes size) = even_nodes size) by (apply wrap_small; unfold fits; lia).
  rewrite Hu. assert (Hd : slot_ok (deconflictTimes_ u) StackTable_default) by (by simpl).
  zcase; [by split|]. zcase; [by split|].
  pose proof (deconflict_bounds size Hsz).
  split; [simpl; lia|]. split.
  - cbn [deconflictTimes_ stackTable_ slot_ok tableBufMMap snd]. rewrite (wrap_small 32 size) by done.
    apply fresh_wf; [lia|done|done|done|]. lia.
  - cbn [snapshot_ snd]. eapply slot_ok_times; [|exact Hs]. unfold INIT_DECONFLICT_ALLOWED. lia.
Qed.

Lemma Resize_inv mmap_ok u :
  unique_inv u → deconflictTimes_ u < 2 ^ 14 → unique_inv (snd (Resize mmap_ok u)).
Proof.
  intros (Ht & Hs & Hsn) Hd. unfold Resize. destruct (tableBufMMap (stackTable_ u)) as [nodes|] eqn:Eb; [|by split].
  assert (Hs' := Hs). unfold slot_ok in Hs'. rewrite Eb in Hs'. destruct Hs' as (nodes' & H & Hsz & H16 & Htot & Hlen).
  rewrite (wf_buf _ _ _ H) in Eb. simplify_eq.
  pose proof (wf_max _ _ _ H) as Hmax. pose proof (wf_total _ _ _ H) as Htl. pose proof (wf_avail _ _ _ H).
  pose proof (wf_region _ _ _ H). pose proof (wf_index _ _ _ H). unfold MAX_NODES_CNT in *.
  set (t := stackTable_ u) in *. set (size := st_tableSize t) in *.
  rewrite !Z.shiftl_mul_pow2 by (unfold RESIZE_MULTIPLE; lia). change (2 ^ RESIZE_MULTIPLE) with 4.
  rewrite (wrap_small 32 (totalNodes t * 4)) by (unfold fits; lia).
  destruct (Z.ltb_spec (2 ^ 25) (totalNodes t * 4)) as [|Hle]; [by split|].
  rewrite (wrap_small 32 (size * 4)) by (unfold fits; lia).
  destruct mmap_ok; [|by split]. cbn [negb]. rewrite (proj2 (Z.ltb_ge (size * 4) size)) by lia.
  pose proof (even_nodes_spec size ltac:(lia)) as Ee. pose proof (even_nodes_spec (size * 4) ltac:(lia)) as Ee4.
  pose proof (Z.div_mod size 16 ltac:(lia)). pose proof (Z.mod_pos_bound size 16 ltac:(lia)).
  pose proof (Z.div_mod (size * 4) 16 ltac:(lia)). pose proof (Z.mod_pos_bound (size * 4) 16 ltac:(lia)).
  assert (Hfour : even_nodes (size * 4) = 4 * totalNodes t) by lia.
  rewrite (wrap_small 32 (even_nodes (size * 4))) by (unfold fits; lia).
  rewrite (wrap_small 32 (even_nodes (size * 4) - totalNodes t)) by (unfold fits; lia).
  rewrite (proj2 (Z.eqb_neq _ 0)) by lia.
  rewrite (wrap_small 32 (even_nodes (size * 4) - totalNodes t - 1)) by (unfold fits; lia).
  rewrite (wrap_small 16) by (unfold fits, DECONFLICT_INCREASE_STEP; lia).
  rewrite (wrap_small 32 (availableIndex t + availableNodes t)) by (unfold fits; lia).
  split; [simpl; unfold DECONFLICT_INCREASE_STEP; lia|]. split; [|done].
  cbn [deconflictTimes_ stackTable_ slot_ok tableBufMMap snd].
  assert (Hn8 : Z.of_nat (length nodes) <= size * 4 / NODE_SIZE).
  { rewrite Hlen. unfold NODE_SIZE. apply Z.div_le_mono; lia. }
  eexists. split; [|cbn [st_tableSize totalNodes]; split; [|split; [|split; [done|]]]].
  - split; cbn [tableBufMMap totalNodes availableNodes hashModulus availableIndex hashStep];
      unfold MAX_NODES_CNT, DECONFLICT_INCREASE_STEP; try lia; try done.
    + rewrite length_take, length_app, length_replicate. split; [lia|].
      pose proof (Z.div_mod (size * 4) 8 ltac:(lia)). pose proof (Z.mod_pos_bound (size * 4) 8 ltac:(lia)).
      unfold NODE_SIZE in *. lia.
    + apply Z.div_pos; lia.
    + apply jump_bound; lia.
  - lia.
  - lia.
  - rewrite length_take, length_app, length_replicate. unfold NODE_SIZE in *. lia.
Qed.

(** The operations of the object; an insertion runs against those of other threads. *)
Inductive table_op :=
| OpInit (mmap_ok : bool)
| OpPut (pcs : list Z) (env : list interference)
| OpResize (mmap_ok : bool)
| OpSwitch (buffer : option (list Z)) (size : Z).

Definition run_op (o : table_op) (u : UniqueStackTable) : outcome UniqueStackTable :=
  match o with
  | OpInit ok => Ret (snd (Init ok u))
  | OpPut pcs env => '(_, _, u) ← PutPcsInTable pcs env u; Ret u
  | OpResize ok => Ret (snd (Resize ok u))
  | OpSwitch b size => Ret (snd (SwitchExternalBuffer b size u))
  end.

Fixpoint run_ops (os : list table_op) (u : UniqueStackTable) : outcome UniqueStackTable :=
  match os with [] => Ret u | o :: os' => u ← run_op o u; run_ops os' u end.

(** An external buffer has the size it is given with, a multiple of two nodes. *)
Definition op_ok (o : table_op) : Prop :=
  match o with
  | OpSwitch b size => 0 <= size < 2 ^ 32 ∧ size mod 16 = 0 ∧
      from_option (λ b, Z.of_nat (length b) = size / NODE_SIZE) True b
  | _ => True
  end.

Definition is_resize (o : table_op) : bool := match o with OpResize _ => true | _ => false end.
Definition resizes (os : list table_op) : nat := length (List.filter is_resize os).

Lemma set_nodes_wf times t nodes ns :
  table_wf times t nodes → length ns = length nodes → table_wf times (set_nodes ns t) ns.
Proof. intros H Hl. split; cbn; try apply H; [done|]. rewrite Hl. apply H. Qed.

Lemma Put_inv pcs env u :
  unique_inv u → ∃ r sid u', PutPcsInTable pcs env u = Ret (r, sid, u') ∧ unique_inv u' ∧
    deconflictTimes_ u' = deconflictTimes_ u.
Proof.
  intros Hinv. pose proof Hinv as (Ht & Hs & Hsn). unfold slot_ok in Hs. unfold PutPcsInTable.
  destruct (tableBufMMap (stackTable_ u)) as [nodes|] eqn:Eb; [|by exists 0, None, u].
  destruct Hs as (nodes' & H & Hsz & H16 & Htot & Hlen). rewrite (wf_buf _ _ _ H) in Eb. injection Eb as <-.
  destruct (put_pcs_total _ _ nodes' (reverse pcs) 0 nodes' env H eq_refl) as (r & ns & -> & Hle).
  cbn [mbind outcome_mbind].
  assert (Hu : unique_inv (set_table (set_nodes ns (stackTable_ u)) u)).
  { destruct Hle as [Hl _]. split; [done|]. split; [|done].
    cbn [stackTable_ set_table deconflictTimes_ slot_ok set_nodes tableBufMMap].
    exists ns. split; [by eapply set_nodes_wf|]. cbn [st_tableSize totalNodes set_nodes]. by rewrite Hl. }
  by destruct r; eexists _, _, _.
Qed.

(** Probing and reading depend on the geometry of a table only. *)
Lemma put_pcs_nodes times t ns0 pcs prev ns env :
  put_pcs times (set_nodes ns0 t) pcs prev ns env = put_pcs times t pcs prev ns env.
Proof.
  assert (Hl : ∀ value k idx ns env, put_loop (set_nodes ns0 t) value k idx ns env = put_loop t value k idx ns env).
  { induction k as [|k IH]; intros idx ns1 env1; cbn [put_loop set_nodes availableNodes]; [done|].
    fold (set_nodes ns0 t). repeat case_match; try done; apply IH. }
  revert prev ns env. induction pcs as [|pc pcs IH]; intros prev ns env; cbn [put_pcs]; [done|].
  case_match; [apply IH|]. unfold PutPcInSlot. cbn [hashModulus set_nodes].
  case_match; cbn [mbind outcome_mbind]; [done|]. rewrite Hl.
  change (first_probe (set_nodes ns0 t) pc prev) with (first_probe t pc prev).
  destruct (put_loop _ _ _ _ _ _) as [[[idx ns1] env1]| |]; cbn [mbind outcome_mbind]; try done.
  case_match; [done|apply IH].
Qed.

Lemma get_loop_nodes t ns0 ns nr o l : get_loop (set_nodes ns0 t) ns nr o l = get_loop t ns nr o l.
Proof.
  revert o l. induction nr as [|nr IH]; intros [w|] l; cbn [get_loop]; try done. case_match; [done|].
  change (GetFrame (set_nodes ns0 t) ns (node_prev w)) with (GetFrame t ns (node_prev w)).
  destruct (GetFrame t ns (node_prev w)); cbn [mbind outcome_mbind]; [apply IH|done|done].
Qed.

(** The probe limit grows by three with each resize. *)
Lemma op_deconflict o u u' :
  run_op o u = Ret u' → op_ok o → unique_inv u →
  deconflictTimes_ u' <= Z.max 60 (deconflictTimes_ u) + (if is_resize o then 3 else 0).
Proof.
  intros E Hok Hinv. destruct o as [ok|pcs env|ok|b size]; cbn [run_op is_resize] in *; simplify_eq.
  - unfold Init. repeat case_match; simpl; lia.
  - destruct (Put_inv pcs env u Hinv) as (r & sid & u1 & E1 & _ & D). rewrite E1 in E. simplify_eq/=. lia.
  - destruct Hinv as (Ht & _ & _). unfold Resize, DECONFLICT_INCREASE_STEP. repeat case_match; simpl; try lia.
    rewrite wrap_small by (unfold fits; lia). lia.
  - destruct Hok as (Hsz & _ & _). pose proof (deconflict_bounds size Hsz).
    unfold SwitchExternalBuffer, InitWithExternalBuffer, INIT_DECONFLICT_ALLOWED.
    repeat case_match; simpl; lia.
Qed.

(** C30. The geometry of the stack table survives every sequence of operations: starting from a new
    object, any mix of initialisations, insertions (with those of other threads between their
    steps), resizes (fewer than 5000) and switches of the external buffer (of a size below
    [2 ^ 32] that is a multiple of 16) returns without an access outside the buffer, and leaves a table whose
    insertion region lies in the buffer, with a hash modulus and probe jumps that stay inside it. *)
Theorem unique_table_invariant os pid :
  Forall op_ok os → (resizes os < 5000)%nat →
  ∃ u, run_ops os (UniqueStackTable_new pid) = Ret u ∧ unique_inv u.
Proof.
  intros Hos Hn.
  assert (G : ∀ u, unique_inv u → deconflictTimes_ u <= 60 + 3 * (5000 - resizes os) →
    ∃ u', run_ops os u = Ret u' ∧ unique_inv u').
  { clear pid. revert Hn. induction Hos as [|o os Ho Hos IH]; intros Hn u Hinv Hd; [by exists u|].
    cbn [run_ops].
    assert (E : ∃ u1, run_op o u = Ret u1 ∧ unique_inv u1).
    { destruct o as [ok|pcs env|ok|b size]; cbn [run_op].
      - eexists. split; [done|by apply Init_inv].
      - destruct (Put_inv pcs env u Hinv) as (r & sid & u1 & -> & H1 & _). by exists u1.
      - eexists. split; [done|apply Resize_inv; [done|lia]].
      - eexists. split; [done|]. destruct Ho as (Hsz & H16 & Hb). apply Switch_inv; [done|done| |done].
        intros b' ->. exact Hb. }
    destruct E as (u1 & E & H1). rewrite E. cbn [mbind outcome_mbind].
    pose proof (op_deconflict _ _ _ E Ho Hinv) as D. pose proof Hinv as ((? & _) & _).
    assert (Hr : resizes (o :: os) = ((if is_resize o then 1 else 0) + resizes os)%nat).
    { unfold resizes. cbn [List.filter]. by destruct (is_resize o). }
    apply IH; [rewrite Hr in Hn; lia|done|]. rewrite Hr in Hd, Hn. destruct (is_resize o); lia. }
  apply G; [|simpl; unfold INIT_DECONFLICT_ALLOWED; lia].
  split; [done|]. split; [|done]. by split.
Qed.

(** C9. Stacks are read back as they were put, while other threads insert: on a well-formed table
    [PutPcsInTable], run for at most 256 pcs against any compare-and-exchange operations of other
    threads before each of its own, returns. Either it reports 0 and stores no stack identifier,
    or it reports a non-zero index below [2 ^ 25] and stores an identifier with which
    [GetPcsByStackId], after any further operations of other threads, returns exactly the non-zero
    pcs cut to 39 bits, in order. At least one pc is non-zero, the low 39 bits of a non-zero pc
    are not all zero, and no profiler buffer is in use. *)
Theorem stack_roundtrip u nodes pcs env :
  table_wf (deconflictTimes_ u) (stackTable_ u) nodes → profilerInit_ u = false →
  Forall storable pcs → nonzero pcs ≠ [] → (length pcs <= 256)%nat →
  ∃ id sid u', PutPcsInTable pcs env u = Ret (id, sid, u') ∧
    match sid with
    | None => id = 0
    | Some sid => 0 < id < 2 ^ 25 ∧ sid_id sid = id ∧
        ∀ later, GetPcsByStackId (interfere later u') sid [] =
          Ret (true, map (λ pc, pc mod 2 ^ 39) (nonzero pcs))
    end.
Proof.
  intros H Hp Hst Hne Hlen. set (t := stackTable_ u) in *. set (times := deconflictTimes_ u) in *.
  destruct (put_pcs_spec times t nodes (reverse pcs) [] 0 nodes env H eq_refl) as (r & ns1 & E & Hle1 & Hr);
    [by apply Forall_reverse|done|].
  unfold PutPcsInTable. fold t times. rewrite (wf_buf _ _ _ H), E. cbn [mbind outcome_mbind].
  destruct r as [id|]; [|by eexists _, None, _]. destruct (Hr id eq_refl) as [Hc _]. clear Hr.
  rewrite app_nil_r in Hc. unfold nonzero in *. rewrite filter_reverse, reverse_involutive in Hc.
  pose proof (chain_id times t _ _ _ _ H Hc) as Hid. unfold MAX_NODES_CNT in Hid.
  eexists _, (Some _), _. split; [done|]. cbn [sid_id]. rewrite (Z.mod_small id) by lia.
  destruct (filter (λ pc, pc ≠ 0) pcs) as [|pc rest] eqn:Ef; [done|].
  split; [destruct Hc; lia|]. split; [done|]. intros later. unfold interfere.
  cbn [stackTable_ set_table set_nodes tableBufMMap]. pose proof (others_le later ns1) as Hle.
  set (ns2 := others later ns1) in *. apply (chain_le _ _ _ _ _ Hle) in Hc.
  destruct Hle1 as [L1 _]. destruct Hle as [L2 _].
  unfold GetPcsByStackId, read_stack. cbn [profilerInit_ set_table stackTable_ set_nodes IsTableValid tableBufMMap sid_nr sid_id].
  rewrite Hp. cbn [negb]. rewrite (Z.mod_small (length pcs)) by lia.
  rewrite (proj2 (Z.ltb_ge _ _)) by lia. rewrite Nat2Z.id.
  assert (Hcnt : (length (pc :: rest) <= length pcs)%nat) by (rewrite <- Ef; apply length_filter).
  destruct (get_loop_chain times t nodes ns2 pc rest id (length pcs) [] H) as (v & Ev & G);
    [congruence|done|simpl in Hcnt; lia|].
  fold (set_nodes ns1 t). fold (set_nodes ns2 (set_nodes ns1 t)).
  change (GetFrame (set_nodes ns2 (set_nodes ns1 t)) ns2 id) with (GetFrame t ns2 id). rewrite Ev.
  cbn [mbind outcome_mbind]. by rewrite !get_loop_nodes, G.
Qed.

(** Equal stacks share one name: putting a stack again, after other threads have inserted
    anything, returns the same index and changes nothing. *)
Theorem stack_unique u nodes pcs env id sid u' later :
  table_wf (deconflictTimes_ u) (stackTable_ u) nodes → Forall storable pcs →
  PutPcsInTable pcs env u = Ret (id, Some sid, u') →
  PutPcsInTable pcs [] (interfere later u') = Ret (id, Some sid, interfere later u').
Proof.
  intros H Hst Hput.
  destruct (put_pcs_spec _ _ nodes (reverse pcs) [] 0 nodes env H eq_refl) as (r & ns1 & E & Hle1 & Hr);
    [by apply Forall_reverse|done|].
  unfold PutPcsInTable in Hput. rewrite (wf_buf _ _ _ H), E in Hput. cbn [mbind outcome_mbind] in Hput.
  destruct r as [id'|]; [|done]. injection Hput as -> <- <-. destruct (Hr id eq_refl) as [_ Hag].
  unfold interfere, PutPcsInTable. cbn [stackTable_ set_table set_nodes tableBufMMap deconflictTimes_].
  fold (set_nodes ns1 (stackTable_ u)). fold (set_nodes (others later ns1) (set_nodes ns1 (stackTable_ u))).
  rewrite !put_pcs_nodes, Hag by apply others_le. done.
Qed.

(** A resized table holds the same stacks. *)
Lemma chain_grow t t' ns ns' pcs id :
  totalNodes t <= totalNodes t' → (∀ i v, ns !! i = Some v → ns' !! i = Some v) →
  chain t ns pcs id → chain t' ns' pcs id.
Proof.
  intros Ht Hns. revert id. induction pcs as [|pc pcs IH]; intros id; [done|].
  intros (Hi & prev & Hp & Hn & Hv & Hc). split; [lia|]. exists prev. split; [done|]. split; [done|].
  split; [by apply Hns|by apply IH].
Qed.

(** Names survive a resize: a stack stored before [Resize] is read back unchanged through the
    larger table. *)
Theorem resize_keeps_stacks mmap_ok u u' nodes pc pcs id :
  unique_inv u → deconflictTimes_ u < 2 ^ 14 → profilerInit_ u = false →
  tableBufMMap (stackTable_ u) = Some nodes → Resize mmap_ok u = (true, u') →
  chain (stackTable_ u) nodes (pc :: pcs) id → (length pcs < 256)%nat →
  GetPcsByStackId u' (mkStackId id (S (length pcs))) [] =
    Ret (true, map (λ pc, pc mod 2 ^ 39) (pc :: pcs)).
Proof.
  intros Hinv Hd Hp Hb Hr Hc Hlen. pose proof (Resize_inv mmap_ok u Hinv Hd) as Hinv'. rewrite Hr in Hinv'.
  cbn [snd] in Hinv'. destruct Hinv' as (_ & Hs' & _).
  assert (Hg : ∃ nodes', tableBufMMap (stackTable_ u') = Some nodes' ∧ profilerInit_ u' = false ∧
    totalNodes (stackTable_ u) <= totalNodes (stackTable_ u') ∧
    (∀ i v, nodes !! i = Some v → nodes' !! i = Some v)).
  { destruct Hinv as (Ht & Hs & _). unfold slot_ok in Hs. rewrite Hb in Hs.
    destruct Hs as (nodes1 & H & Hsz & H16 & Htot & Hl). rewrite (wf_buf _ _ _ H) in Hb. simplify_eq.
    pose proof (wf_total _ _ _ H). pose proof (wf_max _ _ _ H). unfold MAX_NODES_CNT in *.
    unfold Resize in Hr. rewrite (wf_buf _ _ _ H) in Hr.
    rewrite !Z.shiftl_mul_pow2 in Hr by (unfold RESIZE_MULTIPLE; lia). change (2 ^ RESIZE_MULTIPLE) with 4 in Hr.
    rewrite (wrap_small 32 (totalNodes _ * 4)), (wrap_small 32 (st_tableSize _ * 4)) in Hr by (unfold fits; lia).
    unfold MAX_NODES_CNT in Hr. destruct (Z.ltb_spec (2 ^ 25) (totalNodes (stackTable_ u) * 4)); [done|].
    destruct mmap_ok; [|done]. cbn [negb] in Hr. destruct (_ <? _) in Hr; [done|]. destruct (_ =? 0); [done|]. injection Hr as <-.
    cbn [stackTable_ tableBufMMap profilerInit_ totalNodes]. eexists. split; [done|]. split; [done|].
    pose proof (even_nodes_spec (st_tableSize (stackTable_ u)) ltac:(lia)).
    pose proof (even_nodes_spec (st_tableSize (stackTable_ u) * 4) ltac:(lia)).
    assert (He : 2 * (st_tableSize (stackTable_ u) / 16) <= even_nodes (st_tableSize (stackTable_ u) * 4) < 2 ^ 32).
    { pose proof (Z.div_mod (st_tableSize (stackTable_ u)) 16 ltac:(lia)).
      pose proof (Z.mod_pos_bound (st_tableSize (stackTable_ u)) 16 ltac:(lia)).
      pose proof (Z.div_mod (st_tableSize (stackTable_ u) * 4) 16 ltac:(lia)).
      pose proof (Z.mod_pos_bound (st_tableSize (stackTable_ u) * 4) 16 ltac:(lia)). lia. }
    split; [rewrite (wrap_small 32 (even_nodes _)); [lia|unfold fits; lia]|].
    intros i v Hi. apply lookup_lt_Some in Hi as Hlt.
    pose proof (Z.div_le_mono (st_tableSize (stackTable_ u)) (st_tableSize (stackTable_ u) * 4) 8 ltac:(lia) ltac:(lia)).
    rewrite lookup_take_lt by (unfold NODE_SIZE in *; lia). by apply lookup_app_l_Some. }
  destruct Hg as (nodes' & Hb' & Hp' & Htot & Hns). unfold slot_ok in Hs'. rewrite Hb' in Hs'.
  destruct Hs' as (nodes1 & H & _). rewrite (wf_buf _ _ _ H) in Hb'. simplify_eq.
  apply (chain_grow _ (stackTable_ u') _ nodes' _ _ Htot Hns) in Hc.
  destruct (get_loop_chain _ _ nodes' nodes' pc pcs id (S (length pcs)) [] H eq_refl Hc ltac:(lia)) as (v & E & G).
  unfold GetPcsByStackId, read_stack, IsTableValid. rewrite Hp', (wf_buf _ _ _ H). cbn [negb sid_nr sid_id].
  rewrite (proj2 (Z.ltb_ge _ _)) by lia. rewrite E. cbn [mbind outcome_mbind]. rewrite Nat2Z.id, G. done.
Qed.

(** A failed switch to an external buffer destroys the table: with a buffer of less than two
    nodes the call reports failure, and the table in use before, whatever it held, is no longer
    there, neither in use nor set aside. *)
Theorem failed_switch_loses_table u buffer size :
  snapshot_ u = None → 0 <= size < 16 →
  ∃ u', SwitchExternalBuffer (Some buffer) size u = (false, u') ∧
    IsTableValid (stackTable_ u') = false ∧ snapshot_ u' = None.
Proof.
  intros Hs Hsz. unfold SwitchExternalBuffer, InitWithExternalBuffer. rewrite Hs.
  rewrite even_nodes_spec, Z.div_small by lia. eexists. done.
Qed.

(** [ImportNode] writes past the buffer: it compares the index with the size in bytes, so for a
    well-formed table it accepts the index of the first node past the end. *)
Theorem ImportNode_out_of_bounds times u nodes value :
  sized_wf times (stackTable_ u) → tableBufMMap (stackTable_ u) = Some nodes →
  ImportNode (length nodes) value u = Undef OutOfBounds.
Proof.
  intros (nodes' & H & Hsz & H16 & Htot & Hl) Hb. rewrite (wf_buf _ _ _ H) in Hb. simplify_eq.
  unfold ImportNode. rewrite (wf_buf _ _ _ H). pose proof (wf_total _ _ _ H). unfold NODE_SIZE in Hl.
  assert (0 < st_tableSize (stackTable_ u)).
  { destruct (Z.eq_dec (st_tableSize (stackTable_ u)) 0) as [E|E]; [|lia].
    rewrite E in Hl. change (0 / 8) with 0 in Hl. lia. }
  pose proof (Z.div_lt (st_tableSize (stackTable_ u)) 8 ltac:(lia) ltac:(lia)).
  rewrite (proj2 (Z.leb_gt _ _)) by lia. by rewrite Nat2Z.id, Nat.ltb_irrefl.
Qed.

(** ** Examples *)

(** A table of 64 nodes. *)
Definition small_unique : UniqueStackTable :=
  snd (Init true (mkUnique 1 22 (mkTable None 512 [] 0 0 0 1 0 true) None false)).
Definition small_nodes : list Z := replicate 64 0.

(** Another thread puts a node where the first probe of [[4096; 8192]] lands, before that probe. *)
Definition raced_env : list interference := [[(33%nat, Node 77 0)]].

Lemma small_inv : unique_inv small_unique.
Proof. apply Init_inv. by vm_compute. Qed.

Lemma small_wf : table_wf (deconflictTimes_ small_unique) (stackTable_ small_unique) small_nodes.
Proof. destruct small_inv as (_ & (ns & H & _) & _). pose proof (wf_buf _ _ _ H) as E. by simplify_eq/=. Qed.

Definition raced_put : Z * option StackId * UniqueStackTable :=
  match PutPcsInTable [4096; 8192] raced_env small_unique with
  | Ret x => x | _ => (0, None, small_unique) end.

(** Alone, the first probe is taken; raced, the insertion goes on to another slot. *)
Example raced_probes :
  put_pcs 22 (stackTable_ small_unique) [8192] 0 small_nodes [] =
    Ret (Some 33, <[33%nat := Node 8192 0]> small_nodes) ∧
  put_pcs 22 (stackTable_ small_unique) [8192] 0 small_nodes raced_env =
    Ret (Some 55, <[55%nat := Node 8192 0]> (<[33%nat := Node 77 0]> small_nodes)).
Proof. by vm_compute. Qed.

Lemma unique_table_invariant_witness :
  ∃ u, run_ops [OpSwitch (Some small_nodes) 512; OpPut [4096; 8192] raced_env; OpResize true] (UniqueStackTable_new 1)
    = Ret u ∧ unique_inv u.
Proof.
  apply unique_table_invariant; [|apply Nat.ltb_lt; by vm_compute].
  constructor; [by vm_compute|]. constructor; [done|]. by constructor.
Defined.

Lemma stack_roundtrip_witness :
  ∃ id sid u', PutPcsInTable [4096; 8192] raced_env small_unique = Ret (id, sid, u') ∧
    match sid with
    | None => id = 0
    | Some sid => 0 < id < 2 ^ 25 ∧ sid_id sid = id ∧
        ∀ later, GetPcsByStackId (interfere later u') sid [] =
          Ret (true, map (λ pc, pc mod 2 ^ 39) (nonzero [4096; 8192]))
    end.
Proof.
  apply (stack_roundtrip small_unique small_nodes); [exact small_wf|done| |done|simpl; lia].
  repeat (constructor; [right; by vm_compute|]); constructor.
Defined.

Definition raced_id : Z := Eval vm_compute in fst (fst raced_put).
Definition raced_sid : StackId := mkStackId raced_id 2.

Example raced_put_stored :
  raced_put.1 = (raced_id, Some raced_sid) ∧ GetPcsByStackId raced_put.2 raced_sid [] = Ret (true, [4096; 8192]).
Proof. split; vm_compute; reflexivity. Qed.

Lemma stack_unique_witness :
  PutPcsInTable [4096; 8192] [] (interfere [(7%nat, Node 5 0)] raced_put.2) =
    Ret (raced_id, Some raced_sid, interfere [(7%nat, Node 5 0)] raced_put.2).
Proof.
  apply (stack_unique small_unique small_nodes [4096; 8192] raced_env _ _ _ _ small_wf);
    [|vm_compute; reflexivity].
  repeat (constructor; [right; by vm_compute|]); constructor.
Defined.

Definition stored_unique : UniqueStackTable :=
  set_table (set_nodes (<[3%nat := Node 4096 0]> small_nodes) (stackTable_ small_unique)) small_unique.

Lemma resize_keeps_stacks_witness :
  GetPcsByStackId (snd (Resize true stored_unique)) (mkStackId 3 1) [] = Ret (true, [4096]).
Proof.
  apply (resize_keeps_stacks true stored_unique (snd (Resize true stored_unique))
           (<[3%nat := Node 4096 0]> small_nodes) 4096 [] 3).
  - destruct small_inv as (Ht & (ns & H & Hs) & Hn). split; [done|]. split; [|done].
    pose proof (wf_buf _ _ _ H) as E. simplify_eq/=. eexists. split; [by eapply set_nodes_wf|exact Hs].
  - by vm_compute.
  - done.
  - done.
  - by vm_compute.
  - split; [by vm_compute|]. exists 0. split; [by vm_compute|]. by vm_compute.
  - simpl; lia.
Defined.

Lemma failed_switch_loses_table_witness :
  ∃ u', SwitchExternalBuffer (Some [0]) 8 small_unique = (false, u') ∧
    IsTableValid (stackTable_ u') = false ∧ snapshot_ u' = None.
Proof. apply (failed_switch_loses_table small_unique [0] 8); [done|lia]. Defined.

Lemma ImportNode_out_of_bounds_witness : ImportNode 64 7 small_unique = Undef OutOfBounds.
Proof.
  apply (ImportNode_out_of_bounds 22 small_unique small_nodes 7); [|done].
  destruct small_inv as (_ & Hs & _). exact Hs.
Defined.
