(* ===== verification/Tasks.v ===== *)
(** * Timed tasks of the daemon

    [EpollManager], [DelayTaskQueue] and [PeriodicTaskQueue] (services/epoll_manager.cpp): the
    listeners of the event loop, ordered by their timeout, and the two task queues of the service
    thread, ordered by execution time.

    The clock is a function from the number of readings made so far to the value of a reading, so
    that every reading can differ; the kernel calls that can fail are booleans of an environment. *)
From Stdlib Require Sorting.Sorted.
From S2P Require Import Prelude.

Definition NS_PER_S : Z := 1000000000.
Definition NS_PER_US : Z := 1000.
Definition US_PER_MS : Z := 1000.
Definition US_PER_S : Z := 1000000.
Definition TIMESTAMP_BITS : Z := 60.
Definition TIMESTAMP_MASK : Z := 2 ^ 60 - 1.
Definition SEQUENCE_START_BIT : Z := 60.
Definition INT64_MAX : Z := 2 ^ 63 - 1.

(** Which kernel calls succeed. *)
Record kernel := mkKernel { timerfd_create_ok : bool; settime_ok : bool; epoll_add_ok : bool }.

(** ** Inserting in a list ordered by a key

    [find_if] of the first element with a later key, then [insert] before it. *)
Section Ordered.
Context {A : Type} (key : A → Z).

Fixpoint insert_after (t : Z) (a : A) (l : list A) : list A :=
  match l with
  | [] => [a]
  | b :: l' => if t <? key b then a :: l else b :: insert_after t a l'
  end.

(** Whether the insertion point is the beginning. *)
Definition at_front (t : Z) (l : list A) : bool :=
  match l with [] => true | b :: _ => t <? key b end.

(** Erasing the first element that satisfies a test. *)
Fixpoint erase_first (f : A → bool) (l : list A) : option (list A) :=
  match l with
  | [] => None
  | b :: l' => if f b then Some l' else (b ::.) <$> erase_first f l'
  end.

Definition ordered (l : list A) : Prop := Sorted.StronglySorted (λ a b, key a <= key b) l.

Lemma insert_after_perm t a l : insert_after t a l ≡ₚ a :: l.
Proof.
  induction l as [|b l IH]; simpl; [done|]. case_match; [done|]. rewrite IH. by constructor.
Qed.

Lemma insert_after_ordered a l : ordered l → ordered (insert_after (key a) a l).
Proof.
  induction 1 as [|b l Hs IH Hall]; simpl; [repeat constructor|].
  destruct (Z.ltb_spec (key a) (key b)) as [Hlt|Hge].
  - constructor; [by constructor|]. constructor; [lia|]. eapply Forall_impl; [|exact Hall]. simpl. lia.
  - constructor; [done|]. rewrite insert_after_perm. by constructor.
Qed.

(** The new element comes after every element with the same key. *)
Lemma insert_after_split a l : ordered l →
  ∃ l1 l2, l = l1 ++ l2 ∧ insert_after (key a) a l = l1 ++ a :: l2 ∧
    Forall (λ b, key b <= key a) l1 ∧ Forall (λ b, key a < key b) l2.
Proof.
  induction 1 as [|b l Hs IH Hall]; simpl; [by exists [], []|].
  destruct (Z.ltb_spec (key a) (key b)) as [Hlt|Hge].
  - exists [], (b :: l). split; [done|]. split; [done|]. split; [constructor|].
    constructor; [done|]. eapply Forall_impl; [|exact Hall]. simpl. lia.
  - destruct IH as (l1 & l2 & -> & E & H1 & H2). exists (b :: l1), l2. rewrite E.
    split; [done|]. split; [done|]. split; [by constructor|done].
Qed.

(** An ordered list, cut at a key. *)
Lemma ordered_split (T : Z) l : ordered l →
  ∃ l1 l2, l = l1 ++ l2 ∧ Forall (λ b, key b < T) l1 ∧ Forall (λ b, T <= key b) l2.
Proof.
  induction 1 as [|b l Hs (l1 & l2 & -> & H1 & H2) Hall]; [by exists [], []|].
  destruct (Z.lt_ge_cases (key b) T) as [Hlt|Hge].
  - exists (b :: l1), l2. split; [done|]. split; [by constructor|done].
  - exists [], (b :: l1 ++ l2). split; [done|]. split; [constructor|]. constructor; [done|].
    eapply Forall_impl; [|exact Hall]. simpl. lia.
Qed.

Lemma erase_first_split f l l' : erase_first f l = Some l' →
  ∃ l1 b l2, l = l1 ++ b :: l2 ∧ l' = l1 ++ l2 ∧ f b = true ∧ Forall (λ x, f x = false) l1.
Proof.
  revert l'. induction l as [|b l IH]; intros l'; simpl; [done|]. destruct (f b) eqn:E.
  - intros [= <-]. exists [], b, l. done.
  - rewrite fmap_Some. intros (l3 & H & ->). destruct (IH l3 H) as (l1 & c & l2 & -> & -> & Hc & Hf).
    exists (b :: l1), c, l2. split; [done|]. split; [done|]. split; [done|by constructor].
Qed.

Lemma erase_first_None f l : erase_first f l = None ↔ Forall (λ x, f x = false) l.
Proof.
  induction l as [|b l IH]; simpl; [done|]. destruct (f b) eqn:E.
  - split; [done|]. inversion 1. congruence.
  - rewrite fmap_None, IH. split; [by constructor|by inversion 1].
Qed.

Lemma ordered_app_inv l1 l2 : ordered (l1 ++ l2) → ordered l1 ∧ ordered l2.
Proof. induction l1 as [|b l1 IH]; simpl; [by split; [constructor|]|]. inversion 1 as [|? ? H1 H2]; subst.
  apply IH in H1 as [H1 H3]. apply Forall_app in H2 as [H2 _]. split; [by constructor|done].
Qed.

Lemma erase_first_ordered f l l' : ordered l → erase_first f l = Some l' → ordered l'.
Proof.
  intros Hs (l1 & b & l2 & -> & -> & _ & _)%erase_first_split. clear f.
  induction l1 as [|c l1 IH]; simpl in *; [by inversion Hs|].
  inversion Hs as [|? ? H1 H2]; subst. constructor; [by apply IH|].
  apply Forall_app in H2 as [H2 H3]. apply Forall_app. split; [done|by inversion H3].
Qed.
End Ordered.
Arguments ordered {A} key l.

(** ** EpollManager *)
Record EpollListener := mkListener { l_fd : Z; timeoutTime_ : Z }.
#[export] Instance EpollListener_eq_dec : EqDecision EpollListener.
Proof. solve_decision. Defined.

(** The constructor: [now] is the time since boot in microseconds; a negative timeout is none. *)
Definition EpollListener_new (fd timeoutInMs now : Z) : outcome EpollListener :=
  if 0 <=? timeoutInMs
  then
    us ← signed_result 64 (timeoutInMs * US_PER_MS);
    t ← signed_result 64 (s64 now + us);
    Ret (mkListener fd t)
  else Ret (mkListener fd INT64_MAX).

(** The manager: whether its epoll descriptor is open, the descriptors registered in the kernel
    and the listeners. *)
Record EpollManager := mkEpoll { eventFd_ : bool; registered : gset Z; listeners_ : list EpollListener }.

(** [epoll_ctl] refuses to add a registered descriptor and to delete one that is not;
    [accepts] is false when an addition fails for another reason. *)
Definition AddEpollEvent (accepts : bool) (fd : Z) (e : EpollManager) : bool * EpollManager :=
  if negb (eventFd_ e) then (false, e)
  else if negb accepts || bool_decide (fd ∈ registered e) then (false, e)
  else (true, mkEpoll (eventFd_ e) ({[ fd ]} ∪ registered e) (listeners_ e)).

Definition DelEpollEvent (fd : Z) (e : EpollManager) : bool * EpollManager :=
  if negb (eventFd_ e) then (false, e)
  else if bool_decide (fd ∈ registered e)
  then (true, mkEpoll (eventFd_ e) (registered e ∖ {[ fd ]}) (listeners_ e))
  else (false, e).

Definition AddListener (accepts : bool) (l : EpollListener) (e : EpollManager) : bool * EpollManager :=
  if l_fd l <? 0 then (false, e)
  else
    let '(ok, e1) := AddEpollEvent accepts (l_fd l) e in
    if negb ok then (false, e1)
    else (true, mkEpoll (eventFd_ e1) (registered e1) (insert_after timeoutTime_ (timeoutTime_ l) l (listeners_ e1))).

Definition RemoveListener (fd : Z) (e : EpollManager) : bool * EpollManager :=
  if fd <? 0 then (false, e)
  else
    let '(ok, e1) := DelEpollEvent fd e in
    if negb ok then (false, e1)
    else (true, mkEpoll (eventFd_ e1) (registered e1) (filter (λ l, l_fd l ≠ fd) (listeners_ e1))).

Definition GetTargetListener (fd : Z) (e : EpollManager) : option EpollListener :=
  List.find (λ l, l_fd l =? fd) (listeners_ e).

(** The milliseconds to wait, at most 30 s; -1 is for ever. *)
Definition GetNextWaitTime (now : Z) (e : EpollManager) : outcome Z :=
  match listeners_ e with
  | [] => Ret (-1)
  | l :: _ =>
      if timeoutTime_ l =? INT64_MAX then Ret (-1)
      else
        nextWaitTime ← signed_result 64 (timeoutTime_ l - s64 now);
        Ret (if nextWaitTime <? 0 then 0
             else Z.min (s32 (u64 nextWaitTime / US_PER_MS)) (30 * 1000))
  end.

(** The loop runs the handlers of the listeners, virtual functions that may change the manager and
    the rest [E] of the daemon. *)
Section Loop.
Context {E : Type}.
Context (OnEventPoll : EpollListener → EpollManager * E → bool * (EpollManager * E)).
Context (OnTimeOut : EpollListener → EpollManager * E → EpollManager * E).
Implicit Types s : EpollManager * E.

(** [HandleTimeOut]: the descriptor of the first listener is read after its handler has run, which
    is past the life of a listener that the handler has removed. *)
Definition HandleTimeOut (now : Z) s : outcome (EpollManager * E) :=
  match listeners_ s.1 with
  | [] => Ret s
  | l :: _ =>
      if u64 (timeoutTime_ l) <=? now
      then
        let s1 := OnTimeOut l s in
        if bool_decide (l ∈ listeners_ s1.1)
        then Ret (snd (RemoveListener (l_fd l) s1.1), s1.2)
        else Undef UseAfterFree
      else Ret s
  end.

(** One event of the loop of [StartEpoll]: its descriptor and whether [EPOLLIN] is set. The handler
    tells whether to remove the listener. *)
Definition poll_event (fd : Z) (epollin : bool) s : EpollManager * E :=
  if negb epollin then (snd (RemoveListener fd s.1), s.2)
  else
    match GetTargetListener fd s.1 with
    | None => (snd (DelEpollEvent fd s.1), s.2)
    | Some l =>
        let '(remove, s1) := OnEventPoll l s in
        if remove then (snd (RemoveListener fd s1.1), s1.2) else s1
    end.

(** One turn of the loop of [StartEpoll], for the events the kernel returned. *)
Definition poll_turn (now : Z) (events : list (Z * bool)) s : outcome (EpollManager * E) :=
  match events with
  | [] => HandleTimeOut now s
  | _ => Ret (fold_left (λ s '(fd, epollin), poll_event fd epollin s) events s)
  end.

(** [StartEpoll], for what each [epoll_wait] returns: [None] for a failure, else the time read
    afterwards and the events. *)
Fixpoint StartEpoll (turns : list (option (Z * list (Z * bool)))) s : outcome (EpollManager * E) :=
  match turns with
  | [] => Ret s
  | t :: turns' =>
      if negb (eventFd_ s.1) then Ret s
      else
        match t with
        | None => StartEpoll turns' s
        | Some (now, events) => s ← poll_turn now events s; StartEpoll turns' s
        end
  end.
End Loop.

Definition StopEpoll (e : EpollManager) : EpollManager :=
  if eventFd_ e
  then
    let e1 := fold_left (λ e l, snd (DelEpollEvent (l_fd l) e)) (listeners_ e) e in
    mkEpoll false (registered e1) (listeners_ e1)
  else e.

(** ** DelayTaskQueue *)

(** [executor_]: whether there is one, and the time and the interval its timer was last armed
    with, in nanoseconds; [delaySequence]: the static counter of [CalculateDelayTaskId];
    [readings]: how often the clock has been read. *)
Record DelayTaskQueue (W : Type) := mkQueue {
  executor_ : option (Z * Z);
  delayTasks_ : list (Z * W);
  delaySequence : Z;
  readings : nat
}.
Arguments mkQueue {W}.
Arguments executor_ {W}.
Arguments delayTasks_ {W}.
Arguments delaySequence {W}.
Arguments readings {W}.

Definition task_time {W} (t : Z * W) : Z := Z.land t.1 TIMESTAMP_MASK.

Section Queue.
Context {W : Type} (clock : nat → Z) (k : kernel).
Implicit Types q : DelayTaskQueue W.

Definition set_executor (x : option (Z * Z)) q : DelayTaskQueue W :=
  mkQueue x (delayTasks_ q) (delaySequence q) (readings q).
Definition set_tasks (l : list (Z * W)) q : DelayTaskQueue W :=
  mkQueue (executor_ q) l (delaySequence q) (readings q).

Definition GetMicroSecondsSinceBoot q : Z * DelayTaskQueue W :=
  (clock (readings q), mkQueue (executor_ q) (delayTasks_ q) (delaySequence q) (S (readings q))).

(** [SetTimeOptionForTimeFd] on the executor's descriptor. *)
Definition SetTimeOptionForTimeFd (delayTimeInNs intervalTimeInNs : Z) q : DelayTaskQueue W :=
  match executor_ q with
  | Some _ => if settime_ok k then set_executor (Some (u64 delayTimeInNs, intervalTimeInNs)) q else q
  | None => q
  end.

(** Bits 60 to 63 of an id are a sequence number, the others the time in microseconds. *)
Definition CalculateDelayTaskId (executeTime : Z) q : Z * DelayTaskQueue W :=
  (Z.lor (u64 (Z.shiftl (delaySequence q) SEQUENCE_START_BIT)) executeTime,
   mkQueue (executor_ q) (delayTasks_ q) (u8 (delaySequence q + 1)) (readings q)).

(** A failure after the executor is made destroys it, which clears [executor_]. *)
Definition InitExecutor (delayTimeInS : Z) q : bool * DelayTaskQueue W :=
  if timerfd_create_ok k && settime_ok k && epoll_add_ok k
  then (true, set_executor (Some (u64 (delayTimeInS * NS_PER_S), NS_PER_S)) q)
  else (false, q).

Definition AddDelayTask (workFunc : W) (delayTimeInS : Z) q : Z * DelayTaskQueue W :=
  if delayTimeInS =? 0 then (0, q)
  else
    let '(ok, q) := match executor_ q with None => InitExecutor delayTimeInS q | Some _ => (true, q) end in
    if negb ok then (0, q)
    else
      let delayTimeInMicroSeconds := u64 (delayTimeInS * US_PER_S) in
      let '(now, q) := GetMicroSecondsSinceBoot q in
      if now =? 0 then (0, q)
      else
        let '(now, q) := GetMicroSecondsSinceBoot q in
        let executeTime := u64 (now + delayTimeInMicroSeconds) in
        let q := if at_front task_time executeTime (delayTasks_ q)
                 then SetTimeOptionForTimeFd (delayTimeInMicroSeconds * NS_PER_US) NS_PER_S q else q in
        let '(delayTaskId, q) := CalculateDelayTaskId executeTime q in
        (delayTaskId, set_tasks (insert_after task_time executeTime (delayTaskId, workFunc) (delayTasks_ q)) q).

Definition RemoveDelayTask (delayTaskId : Z) q : bool * DelayTaskQueue W :=
  match erase_first (λ t, t.1 =? delayTaskId) (delayTasks_ q) with
  | None => (false, q)
  | Some l =>
      let isBegin := match delayTasks_ q with t :: _ => t.1 =? delayTaskId | [] => false end in
      let q := set_tasks l q in
      (true, if isBegin && bool_decide (l = []) then SetTimeOptionForTimeFd 1 NS_PER_S q else q)
  end.

(** [Executor::OnTimer], in a daemon whose state is the queue and something else; a task gets its
    id, and may change both. *)
Fixpoint OnTimer {E} (run : Z → W → DelayTaskQueue W * E → outcome (DelayTaskQueue W * E))
  (fuel : nat) (s : DelayTaskQueue W * E) : outcome (bool * (DelayTaskQueue W * E)) :=
  match fuel with
  | O => OutOfFuel
  | S fuel' =>
      match delayTasks_ s.1 with
      | [] => Ret (false, s)
      | (delayTaskId, work) :: _ =>
          let '(now, q) := GetMicroSecondsSinceBoot s.1 in
          let firstTaskExecuteTime := Z.land delayTaskId TIMESTAMP_MASK in
          if now <? firstTaskExecuteTime
          then Ret (true, (SetTimeOptionForTimeFd ((firstTaskExecuteTime - now) * NS_PER_US) NS_PER_S q, s.2))
          else
            '(q, e) ← run delayTaskId work (q, s.2);
            OnTimer run fuel' (snd (RemoveDelayTask delayTaskId q), e)
      end
  end.
End Queue.

(** ** PeriodicTaskQueue *)

(** The tasks of the delay queue: the executions of the periodic queue, and the others. *)
Inductive work (X : Type) :=
| PeriodicExecute
| OneShot (x : X).
Arguments PeriodicExecute {X}.
Arguments OneShot {X} x.

(** A periodic task: its next time in microseconds, its id, its interval in seconds. *)
Record periodic (T : Type) := mkPeriodic { p_next : Z; p_id : Z; p_interval : Z; p_task : T }.
Arguments mkPeriodic {T}.
Arguments p_next {T}.
Arguments p_id {T}.
Arguments p_interval {T}.
Arguments p_task {T}.

Record PeriodicTaskQueue (T : Type) := mkPeriodicQueue {
  periodicTasks_ : list (periodic T);
  currentDelayTaskId_ : Z;
  periodicSequence : Z
}.
Arguments mkPeriodicQueue {T}.
Arguments periodicTasks_ {T}.
Arguments currentDelayTaskId_ {T}.
Arguments periodicSequence {T}.

Section Periodic.
Context {X T E : Type} (clock : nat → Z) (k : kernel).
(** What a periodic task does to the rest of the daemon, and whether it is to run again. *)
Context (poll : T → E → bool * E).
Implicit Types q : DelayTaskQueue (work X).
Implicit Types p : PeriodicTaskQueue T.

Definition ScheduleNextTask (currentTime : Z) q p : DelayTaskQueue (work X) * PeriodicTaskQueue T :=
  match periodicTasks_ p with
  | [] => (q, p)
  | t :: _ =>
      let delayTime := if currentTime <? p_next t
                       then u64 (p_next t - currentTime + US_PER_S - 1) / US_PER_S else 0 in
      let delayTime := if delayTime =? 0 then 1 else delayTime in
      let '(taskId, q) := AddDelayTask clock k PeriodicExecute (u32 delayTime) q in
      (q, mkPeriodicQueue (periodicTasks_ p) taskId (periodicSequence p))
  end.

(** The loop of [Execute], for one reading of the clock. *)
Fixpoint execute_loop (fuel : nat) (currentTime : Z) (l : list (periodic T)) (e : E)
  : outcome (list (periodic T) * E) :=
  match fuel with
  | O => OutOfFuel
  | S fuel' =>
      match l with
      | [] => Ret ([], e)
      | t :: l' =>
          if currentTime <? p_next t then Ret (l, e)
          else
            let '(again, e) := poll (p_task t) e in
            if again
            then
              let nextTime := u64 (currentTime + p_interval t * US_PER_S) in
              execute_loop fuel' currentTime
                (insert_after p_next nextTime (mkPeriodic nextTime (p_id t) (p_interval t) (p_task t)) l') e
            else execute_loop fuel' currentTime l' e
      end
  end.

Definition Execute (fuel : nat) q p (e : E)
  : outcome (DelayTaskQueue (work X) * PeriodicTaskQueue T * E) :=
  let '(currentTime, q) := GetMicroSecondsSinceBoot clock q in
  '(l, e) ← execute_loop fuel currentTime (periodicTasks_ p) e;
  let '(q, p) := ScheduleNextTask currentTime q (mkPeriodicQueue l (currentDelayTaskId_ p) (periodicSequence p)) in
  Ret (q, p, e).

Definition AddPeriodicTask (workFunc : T) (intervalTimeInS : Z) q p
  : Z * DelayTaskQueue (work X) * PeriodicTaskQueue T :=
  if intervalTimeInS =? 0 then (0, q, p)
  else
    let taskId := periodicSequence p in
    let '(currentTime, q) := GetMicroSecondsSinceBoot clock q in
    let nextTime := u64 (currentTime + intervalTimeInS * US_PER_S) in
    let isBegin := at_front p_next nextTime (periodicTasks_ p) in
    let p := mkPeriodicQueue
               (insert_after p_next nextTime (mkPeriodic nextTime taskId intervalTimeInS workFunc) (periodicTasks_ p))
               (currentDelayTaskId_ p) (u64 (taskId + 1)) in
    let '(q, p) := if isBegin then ScheduleNextTask currentTime q p else (q, p) in
    (taskId, q, p).

Definition RemovePeriodicTask (taskId : Z) q p : bool * DelayTaskQueue (work X) * PeriodicTaskQueue T :=
  match erase_first (λ t, p_id t =? taskId) (periodicTasks_ p) with
  | None => (false, q, p)
  | Some l =>
      let isBegin := match periodicTasks_ p with t :: _ => p_id t =? taskId | [] => false end in
      let p := mkPeriodicQueue l (currentDelayTaskId_ p) (periodicSequence p) in
      if isBegin
      then let '(currentTime, q) := GetMicroSecondsSinceBoot clock q in
           let '(q, p) := ScheduleNextTask currentTime q p in (true, q, p)
      else (true, q, p)
  end.
End Periodic.

(** ** The event loop *)

Lemma ordered_filter {A} (key : A → Z) (P : A → Prop) `{∀ x, Decision (P x)} l :
  ordered key l → ordered key (filter P l).
Proof.
  induction 1 as [|b l Hs IH Hall]; [constructor|]. rewrite filter_cons. case_decide; [|done].
  constructor; [done|]. apply list.Forall_forall. intros x [_ Hx]%list_elem_of_filter.
  rewrite list.Forall_forall in Hall. by apply Hall.
Qed.

(** ** What the event loop promises

    The abstract manager is the list of its listeners in the order they were added. *)
Definition spec_add (accepts : bool) (l : EpollListener) (a : list EpollListener) : bool * list EpollListener :=
  if (0 <=? l_fd l) && accepts && negb (bool_decide (l_fd l ∈ map l_fd a)) then (true, a ++ [l]) else (false, a).

Definition spec_remove (fd : Z) (a : list EpollListener) : bool * list EpollListener :=
  (bool_decide (fd ∈ map l_fd a), filter (λ l, l_fd l ≠ fd) a).

(** The listener with the earliest timeout, of equal ones the first that was added. *)
Fixpoint earliest (a : list EpollListener) : option EpollListener :=
  match a with
  | [] => None
  | l :: a' =>
      match earliest a' with
      | Some m => if timeoutTime_ m <? timeoutTime_ l then Some m else Some l
      | None => Some l
      end
  end.

(** Handlers are programs over the manager: each call may depend on the results of those before. *)
Inductive mcall := CallAdd (accepts : bool) (l : EpollListener) | CallRemove (fd : Z).
Inductive prog := Done (remove : bool) | Call (c : mcall) (next : bool → prog).

Definition call_ok (c : mcall) : Prop :=
  match c with CallAdd _ l => 0 <= timeoutTime_ l <= INT64_MAX | CallRemove _ => True end.
Fixpoint prog_ok (p : prog) : Prop :=
  match p with Done _ => True | Call c next => call_ok c ∧ ∀ b, prog_ok (next b) end.

(** What is observed: the handlers that run, and the results of their calls. *)
Inductive loop_event := Polled (l : EpollListener) | TimedOut (l : EpollListener) | Called (c : mcall) (ok : bool).

(** Running a program on a manager with the two operations given. *)
Section Programs.
Context {M : Type} (add : bool → EpollListener → M → bool * M) (remove : Z → M → bool * M).

Fixpoint run_prog (p : prog) (s : M * list loop_event) : bool * (M * list loop_event) :=
  match p with
  | Done b => (b, s)
  | Call c next =>
      let '(ok, m) := match c with CallAdd accepts l => add accepts l s.1 | CallRemove fd => remove fd s.1 end in
      run_prog (next ok) (m, s.2 ++ [Called c ok])
  end.
End Programs.

Section LoopSpec.
Context (handler timeouts : list loop_event → EpollListener → prog).
Implicit Types s : list EpollListener * list loop_event.

(** An event reaches the listener of its descriptor, if there is one; without [EPOLLIN], or when
    the handler asks for it, the listener is removed. *)
Definition spec_event (fd : Z) (epollin : bool) s : list EpollListener * list loop_event :=
  if negb epollin then (snd (spec_remove fd s.1), s.2)
  else
    match List.find (λ l, l_fd l =? fd) s.1 with
    | None => s
    | Some l =>
        let '(remove, s1) := run_prog spec_add spec_remove (handler s.2 l) (s.1, s.2 ++ [Polled l]) in
        if remove then (snd (spec_remove fd s1.1), s1.2) else s1
    end.

(** A wait without events times out the earliest listener whose time has come, which is then gone;
    a timeout handler that removes its own listener has it used after its end. *)
Definition spec_timeout (now : Z) s : outcome (list EpollListener * list loop_event) :=
  match earliest s.1 with
  | Some l =>
      if timeoutTime_ l <=? now
      then
        let s1 := snd (run_prog spec_add spec_remove (timeouts s.2 l) (s.1, s.2 ++ [TimedOut l])) in
        if bool_decide (l ∈ s1.1) then Ret (snd (spec_remove (l_fd l) s1.1), s1.2) else Undef UseAfterFree
      else Ret s
  | None => Ret s
  end.

Fixpoint spec_loop (turns : list (option (Z * list (Z * bool)))) s : outcome (list EpollListener * list loop_event) :=
  match turns with
  | [] => Ret s
  | None :: turns' => spec_loop turns' s
  | Some (now, []) :: turns' => s ← spec_timeout now s; spec_loop turns' s
  | Some (now, events) :: turns' =>
      spec_loop turns' (fold_left (λ s '(fd, epollin), spec_event fd epollin s) events s)
  end.
End LoopSpec.

(** ** The manager implements it *)

(** The listeners are kept sorted by timeout, equal ones in the order they came. *)
Definition sorted (a : list EpollListener) : list EpollListener :=
  fold_left (λ s l, insert_after timeoutTime_ (timeoutTime_ l) l s) a [].

Record epoll_rel (e : EpollManager) (a : list EpollListener) : Prop := {
  er_open : eventFd_ e = true;
  er_listeners : listeners_ e = sorted a;
  er_registered : ∀ fd, fd ∈ registered e ↔ fd ∈ map l_fd a;
  er_nodup : NoDup (map l_fd a);
  er_valid : Forall (λ l, 0 <= l_fd l ∧ 0 <= timeoutTime_ l <= INT64_MAX) a
}.

Lemma sorted_snoc a l : sorted (a ++ [l]) = insert_after timeoutTime_ (timeoutTime_ l) l (sorted a).
Proof. unfold sorted. by rewrite fold_left_app. Qed.

Lemma sorted_ordered a : ordered timeoutTime_ (sorted a).
Proof.
  induction a as [|l a IH] using rev_ind; [constructor|]. rewrite sorted_snoc. by apply insert_after_ordered.
Qed.

Lemma sorted_perm a : sorted a ≡ₚ a.
Proof.
  induction a as [|l a IH] using rev_ind; [done|]. rewrite sorted_snoc, insert_after_perm, IH.
  by rewrite Permutation_app_comm.
Qed.

Lemma insert_after_front {A} (key : A → Z) t a l : Forall (λ b, t < key b) l → insert_after key t a l = a :: l.
Proof. intros [|b l' Hb]; simpl; [done|]. by rewrite (proj2 (Z.ltb_lt _ _)). Qed.

Lemma insert_after_filter {A} (key : A → Z) (P : A → Prop) `{∀ x, Decision (P x)} a l :
  ordered key l →
  filter P (insert_after key (key a) a l) =
    if decide (P a) then insert_after key (key a) a (filter P l) else filter P l.
Proof.
  induction 1 as [|b l Hs IH Hall]; simpl.
  { rewrite filter_cons. by case_decide. }
  destruct (Z.ltb_spec (key a) (key b)) as [Hlt|Hge].
  - rewrite (filter_cons P a). case_decide; [|done]. rewrite insert_after_front; [done|].
    apply list.Forall_forall. intros x [_ Hx]%list_elem_of_filter. rewrite list.Forall_forall in Hall.
    apply elem_of_cons in Hx as [->|Hx]; [done|]. specialize (Hall x Hx). simpl in Hall. lia.
  - rewrite !(filter_cons P b), IH. repeat case_decide; try done. cbn [insert_after].
    by rewrite (proj2 (Z.ltb_ge _ _)).
Qed.

Lemma sorted_filter (P : EpollListener → Prop) `{∀ x, Decision (P x)} a : filter P (sorted a) = sorted (filter P a).
Proof.
  induction a as [|l a IH] using rev_ind; [done|].
  rewrite sorted_snoc, insert_after_filter, IH, list.filter_app by apply sorted_ordered.
  rewrite filter_cons, filter_nil.
  case_decide; [by rewrite sorted_snoc|by rewrite app_nil_r].
Qed.

Lemma earliest_snoc a l :
  earliest (a ++ [l]) =
    match earliest a with
    | Some m => if timeoutTime_ l <? timeoutTime_ m then Some l else Some m
    | None => Some l
    end.
Proof.
  induction a as [|b a IH]; simpl; [done|]. rewrite IH.
  destruct (earliest a) as [m|]; repeat zcase; try done; lia.
Qed.

Lemma head_sorted a : head (sorted a) = earliest a.
Proof.
  induction a as [|l a IH] using rev_ind; [done|]. rewrite sorted_snoc, earliest_snoc, <- IH.
  destruct (sorted a) as [|b s]; simpl; [done|]. by zcase.
Qed.

(** With distinct descriptors, a search by descriptor does not depend on the order. *)
Lemma find_fd_perm fd (a b : list EpollListener) :
  a ≡ₚ b → NoDup (map l_fd a) → List.find (λ l, l_fd l =? fd) a = List.find (λ l, l_fd l =? fd) b.
Proof.
  induction 1 as [|x a b Hp IH|x y a|a b c Hp1 IH1 Hp2 IH2]; simpl; intros Hn; [done|..].
  - inversion Hn; subst. by rewrite IH.
  - inversion Hn as [|? ? Hx]; subst. repeat zcase; try done. exfalso. apply Hx. rewrite elem_of_cons. left. congruence.
  - rewrite IH1, IH2; [done| |done]. by rewrite <- Hp1.
Qed.

Lemma filter_fds fd l :
  map l_fd (filter (λ l, l_fd l ≠ fd) l) = filter (λ x, x ≠ fd) (map l_fd l).
Proof.
  induction l as [|b l IH]; [done|]. rewrite filter_cons. cbn [map]. rewrite filter_cons.
  repeat case_decide; simpl; congruence.
Qed.

Lemma AddListener_rel accepts l e a :
  epoll_rel e a → 0 <= timeoutTime_ l <= INT64_MAX →
  fst (AddListener accepts l e) = fst (spec_add accepts l a) ∧
  epoll_rel (snd (AddListener accepts l e)) (snd (spec_add accepts l a)).
Proof.
  intros H Ht. pose proof H as [Ho Hl Hr Hn Hv]. unfold AddListener, AddEpollEvent, spec_add. rewrite Ho. cbn [negb].
  destruct (Z.ltb_spec (l_fd l) 0) as [Hneg|Hfd].
  { rewrite (proj2 (Z.leb_gt _ _)) by lia. done. }
  rewrite (proj2 (Z.leb_le _ _)) by lia. destruct accepts; cbn [negb orb andb]; [|done].
  rewrite (bool_decide_ext (l_fd l ∈ map l_fd a) _ (iff_sym (Hr (l_fd l)))).
  case_bool_decide as Hin; cbn; [done|]. split; [done|]. rewrite Hr in Hin. split; cbn.
  - done.
  - by rewrite sorted_snoc, Hl.
  - intros fd. rewrite map_app, elem_of_app, elem_of_union, elem_of_singleton, Hr. simpl.
    rewrite list_elem_of_singleton. tauto.
  - rewrite map_app. apply list.NoDup_app. split; [done|]. split; [|apply NoDup_singleton].
    intros x Hx [= ->]%list_elem_of_singleton. done.
  - apply list.Forall_app. split; [done|]. by constructor; [|constructor].
Qed.

Lemma RemoveListener_rel fd e a :
  epoll_rel e a →
  fst (RemoveListener fd e) = fst (spec_remove fd a) ∧
  epoll_rel (snd (RemoveListener fd e)) (snd (spec_remove fd a)).
Proof.
  intros H. pose proof H as [Ho Hl Hr Hn Hv]. unfold RemoveListener, DelEpollEvent, spec_remove. rewrite Ho.
  cbn [negb fst snd].
  assert (Habs : fd ∉ map l_fd a → filter (λ l, l_fd l ≠ fd) a = a).
  { clear. induction a as [|l a IH]; intros Hin; [done|]. cbn [map] in Hin. rewrite elem_of_cons in Hin.
    rewrite filter_cons_True by naive_solver. f_equal. naive_solver. }
  destruct (Z.ltb_spec fd 0) as [Hneg|Hfd].
  { assert (Hin : fd ∉ map l_fd a).
    { rewrite list_elem_of_In, in_map_iff. intros (x & <- & Hx). rewrite list.Forall_forall in Hv.
      destruct (Hv x); [by apply list_elem_of_In|lia]. }
    by rewrite bool_decide_false, Habs. }
  rewrite (bool_decide_ext (fd ∈ map l_fd a) _ (iff_sym (Hr fd))).
  case_bool_decide as Hin; cbn.
  2: { rewrite Hr in Hin. by rewrite Habs. }
  split; [done|]. split; cbn.
  - done.
  - by rewrite Hl, sorted_filter.
  - intros x. rewrite filter_fds, list_elem_of_filter, elem_of_difference, elem_of_singleton, Hr. tauto.
  - rewrite filter_fds. by apply list.NoDup_filter.
  - apply list.Forall_forall. intros x [_ Hx]%list_elem_of_filter. rewrite list.Forall_forall in Hv. by apply Hv.
Qed.

Section LoopRefines.
Context (handler timeouts : list loop_event → EpollListener → prog).

(** The handlers of the manager run the programs. *)
Definition on_poll (l : EpollListener) (s : EpollManager * list loop_event) : bool * (EpollManager * list loop_event) :=
  run_prog AddListener RemoveListener (handler s.2 l) (s.1, s.2 ++ [Polled l]).
Definition on_timeout (l : EpollListener) (s : EpollManager * list loop_event) : EpollManager * list loop_event :=
  snd (run_prog AddListener RemoveListener (timeouts s.2 l) (s.1, s.2 ++ [TimedOut l])).

Definition loop_rel (s : EpollManager * list loop_event) (s' : list EpollListener * list loop_event) : Prop :=
  epoll_rel s.1 s'.1 ∧ s.2 = s'.2.

Lemma run_prog_rel p s s' :
  prog_ok p → loop_rel s s' →
  fst (run_prog AddListener RemoveListener p s) = fst (run_prog spec_add spec_remove p s') ∧
  loop_rel (snd (run_prog AddListener RemoveListener p s)) (snd (run_prog spec_add spec_remove p s')).
Proof.
  revert s s'. induction p as [b|c next IH]; intros [e log] [a log'] Hp [He Hlog]; simpl in He, Hlog; subst log'.
  { by split; [|split]. }
  destruct Hp as [Hc Hp]. cbn [run_prog fst snd]. destruct c as [accepts l|fd].
  - destruct (AddListener_rel accepts l e a He Hc) as [E1 E2].
    destruct (AddListener accepts l e) as [ok e1], (spec_add accepts l a) as [ok' a1].
    simpl in E1, E2. subst ok'. by apply IH; [|split].
  - destruct (RemoveListener_rel fd e a He) as [E1 E2].
    destruct (RemoveListener fd e) as [ok e1], (spec_remove fd a) as [ok' a1].
    simpl in E1, E2. subst ok'. by apply IH; [|split].
Qed.

Context (Hhandler : ∀ log l, prog_ok (handler log l)) (Htimeouts : ∀ log l, prog_ok (timeouts log l)).

Lemma poll_event_rel fd epollin s s' :
  loop_rel s s' → loop_rel (poll_event on_poll fd epollin s) (spec_event handler fd epollin s').
Proof.
  destruct s as [e log], s' as [a log']. intros [He Hlog]; simpl in He, Hlog; subst log'.
  unfold poll_event, spec_event, GetTargetListener. cbn [fst snd].
  destruct epollin; cbn [negb]; [|by split; [apply RemoveListener_rel|]].
  assert (Ef : List.find (λ l, l_fd l =? fd) (listeners_ e) = List.find (λ l, l_fd l =? fd) a).
  { rewrite (er_listeners _ _ He). symmetry. apply find_fd_perm; [by rewrite sorted_perm|by apply He]. }
  rewrite Ef. destruct (List.find _ a) as [l|] eqn:El.
  - unfold on_poll. cbn [fst snd].
    destruct (run_prog_rel (handler log l) (e, log ++ [Polled l]) (a, log ++ [Polled l]) (Hhandler _ _)) as [E1 E2];
      [by split|].
    destruct (run_prog AddListener _ _ _) as [b s1], (run_prog spec_add _ _ _) as [b' s2]. simpl in E1, E2. subst b'.
    destruct b; [|done]. destruct E2 as [E2 E3]. split; [by apply RemoveListener_rel|done].
  - split; [|done]. cbn [fst]. unfold DelEpollEvent. rewrite (er_open _ _ He). cbn [negb].
    rewrite bool_decide_false; [done|]. rewrite (er_registered _ _ He), list_elem_of_In, in_map_iff.
    intros (l & <- & Hl). apply (List.find_none _ _ El l) in Hl. lia.
Qed.

Lemma HandleTimeOut_rel now s s' :
  loop_rel s s' →
  match spec_timeout timeouts now s' with
  | Ret s1' => ∃ s1, HandleTimeOut on_timeout now s = Ret s1 ∧ loop_rel s1 s1'
  | r => ∃ w, r = Undef w ∧ HandleTimeOut on_timeout now s = Undef w
  end.
Proof.
  destruct s as [e log], s' as [a log']. intros [He Hlog]; simpl in He, Hlog; subst log'.
  unfold HandleTimeOut, spec_timeout. cbn [fst snd]. rewrite <- head_sorted, (er_listeners _ _ He).
  destruct (sorted a) as [|l rest] eqn:Es; cbn [head]; [by eexists|].
  assert (Hl : 0 <= timeoutTime_ l <= INT64_MAX).
  { pose proof (er_valid _ _ He) as Hv. rewrite <- sorted_perm, Es in Hv. by inversion Hv as [|? ? [_ ?]]. }
  rewrite wrap_small by (unfold fits, INT64_MAX in *; lia). destruct (timeoutTime_ l <=? now); [|by eexists].
  unfold on_timeout. cbn [fst snd].
  destruct (run_prog_rel (timeouts log l) (e, log ++ [TimedOut l]) (a, log ++ [TimedOut l]) (Htimeouts _ _)) as [_ E2];
    [by split|].
  destruct (snd (run_prog AddListener _ _ _)) as [e1 log1], (snd (run_prog spec_add _ _ _)) as [a1 log2].
  destruct E2 as [E2 E3]. simpl in E2, E3. subst log2. cbn [fst snd].
  assert (Hin : l ∈ listeners_ e1 ↔ l ∈ a1) by (by rewrite (er_listeners _ _ E2), sorted_perm).
  rewrite (bool_decide_ext _ _ Hin). case_bool_decide; [|by eexists].
  eexists. split; [done|]. by split; [apply RemoveListener_rel|].
Qed.

Lemma StartEpoll_rel turns s s' :
  loop_rel s s' →
  match spec_loop handler timeouts turns s' with
  | Ret s1' => ∃ s1, StartEpoll on_poll on_timeout turns s = Ret s1 ∧ loop_rel s1 s1'
  | r => ∃ w, r = Undef w ∧ StartEpoll on_poll on_timeout turns s = Undef w
  end.
Proof.
  revert s s'. induction turns as [|t turns IH]; intros s s' Hs; cbn [StartEpoll spec_loop]; [by exists s|].
  rewrite (er_open _ _ (proj1 Hs)). cbn [negb]. destruct t as [[now events]|]; [|by apply IH].
  destruct events as [|ev events].
  - cbn [poll_turn]. pose proof (HandleTimeOut_rel now s s' Hs) as Hh.
    destruct (spec_timeout timeouts now s') as [s1'|w|]; cbn [mbind outcome_mbind].
    + destruct Hh as (s1 & -> & Hs1). by apply IH.
    + destruct Hh as (w' & [= <-] & ->). by exists w.
    + by destruct Hh as (? & ? & _).
  - cbn [poll_turn mbind outcome_mbind]. apply IH. revert s s' Hs.
    induction (ev :: events) as [|[fd epollin] evs IHe]; intros s s' Hs; [done|].
    cbn [fold_left]. by apply IHe, poll_event_rel.
Qed.
End LoopRefines.

(** C38. The event loop does what its abstract description says. The description keeps the listeners
    in the order they were added; an event runs the handler of the listener of its descriptor, and
    an event without [EPOLLIN], or a handler that asks for it, removes the listener; a wait without
    events times out the listener with the earliest timeout (of equal ones the first added), if
    that has come, and removes it. For any programs of calls to [AddListener] and [RemoveListener]
    as handlers, any setup and any events, the handlers run, the results of their calls and the
    behaviour of [StartEpoll] are those of the description, and the listeners left are its
    listeners sorted by timeout, with exactly their descriptors registered. *)
Theorem event_loop_refines handler timeouts setup turns :
  (∀ log l, prog_ok (handler log l)) → (∀ log l, prog_ok (timeouts log l)) → prog_ok setup →
  match spec_loop handler timeouts turns (snd (run_prog spec_add spec_remove setup ([], []))) with
  | Ret (a, log) =>
      ∃ e, StartEpoll (on_poll handler) (on_timeout timeouts) turns
             (snd (run_prog AddListener RemoveListener setup (mkEpoll true ∅ [], []))) = Ret (e, log) ∧
        epoll_rel e a
  | r => ∃ w, r = Undef w ∧
      StartEpoll (on_poll handler) (on_timeout timeouts) turns
        (snd (run_prog AddListener RemoveListener setup (mkEpoll true ∅ [], []))) = Undef w
  end.
Proof.
  intros Hh Ht Hs.
  destruct (run_prog_rel setup (mkEpoll true ∅ [], []) ([], []) Hs) as [_ Hr].
  { split; [|done]. split; simpl; [done|done|set_solver|constructor|constructor]. }
  pose proof (StartEpoll_rel handler timeouts Hh Ht turns _ _ Hr) as H.
  destruct (spec_loop _ _ _ _) as [[a log]|w|]; [|done..].
  destruct H as ([e log'] & -> & He & Hlog). simpl in Hlog. subst log'. by exists e.
Qed.

(** The conversion of a number of milliseconds to 32 bits. *)
Lemma s32_of_ms (ms : Z) : 0 <= ms → s32 ms <= ms ∧ (s32 ms < 0 ↔ Z.testbit ms 31 = true).
Proof.
  intros H. unfold swrap. rewrite Z.testbit_true by lia.
  change (2 ^ (32 - 1)) with (2 ^ 31). change (2 ^ 32) with (2 ^ 31 * 2).
  pose proof (Z.rem_mul_r ms (2 ^ 31) 2 ltac:(lia) ltac:(lia)) as E.
  pose proof (Z.mod_pos_bound ms (2 ^ 31) ltac:(lia)). pose proof (Z.mod_pos_bound (ms / 2 ^ 31) 2 ltac:(lia)).
  pose proof (Z.mod_le ms (2 ^ 31 * 2) H ltac:(lia)). pose proof (Z.div_mod ms (2 ^ 31 * 2) ltac:(lia)).
  set (q := ms / (2 ^ 31 * 2)) in *. set (b := (ms / 2 ^ 31) mod 2) in *. set (r := ms mod 2 ^ 31) in *.
  assert (b = 0 ∨ b = 1) as [Hb|Hb] by lia.
  - rewrite <- (Z.mod_unique (ms + 2 ^ 31) (2 ^ 31 * 2) q (r + 2 ^ 31)) by lia. lia.
  - rewrite <- (Z.mod_unique (ms + 2 ^ 31) (2 ^ 31 * 2) (q + 1) r) by lia. lia.
Qed.

(** C39. What the loop waits for: with listeners ordered by timeout, [GetNextWaitTime] returns at
    most 30 s; a wait that is not negative ends no later than the earliest timeout of all
    listeners; the wait is negative, which [epoll_wait] takes as unbounded, exactly when no
    listener has a timeout, or when the earliest timeout is so far away that bit 31 of the
    milliseconds to it is set, which the conversion to 32 bits before the limit takes for a sign. *)
Theorem GetNextWaitTime_bound now e :
  ordered timeoutTime_ (listeners_ e) → 0 <= now <= INT64_MAX →
  Forall (λ l, 0 <= timeoutTime_ l <= INT64_MAX) (listeners_ e) →
  ∃ w, GetNextWaitTime now e = Ret w ∧ w <= 30000 ∧
    (0 <= w → Forall (λ l, w * 1000 <= Z.max 0 (timeoutTime_ l - now)) (listeners_ e)) ∧
    (w < 0 ↔ Forall (λ l, timeoutTime_ l = INT64_MAX) (listeners_ e) ∨
             ∃ l, head (listeners_ e) = Some l ∧ now <= timeoutTime_ l < INT64_MAX ∧
                  Z.testbit ((timeoutTime_ l - now) / 1000) 31 = true).
Proof.
  intros Ho Hnow Ht. unfold GetNextWaitTime.
  destruct (listeners_ e) as [|l ls] eqn:El.
  { exists (-1). split; [done|]. split; [lia|]. split; [lia|]. split; [by left|lia]. }
  inversion Ho as [|? ? _ Hall]; subst. inversion Ht as [|? ? Hl Hls]; subst. cbn [head].
  destruct (Z.eqb_spec (timeoutTime_ l) INT64_MAX) as [Em|Hm].
  { exists (-1). split; [done|]. split; [lia|]. split; [lia|]. split; [|lia]. intros _. left. constructor; [done|].
    rewrite list.Forall_forall in *. intros x Hx. specialize (Hall x Hx). specialize (Hls x Hx). simpl in *. lia. }
  unfold INT64_MAX in Hnow, Hl. rewrite (swrap_small 64 now) by (unfold sfits; lia).
  unfold signed_result. rewrite (proj2 (sfitsb_spec 64 _)) by (unfold sfits; lia).
  cbn [mbind outcome_mbind]. eexists. split; [done|].
  assert (Hmin : ∀ w, w * 1000 <= Z.max 0 (timeoutTime_ l - now) →
    Forall (λ l, w * 1000 <= Z.max 0 (timeoutTime_ l - now)) (l :: ls)).
  { intros w Hle. constructor; [done|]. eapply Forall_impl; [|exact Hall]. simpl. lia. }
  assert (Hinf : ¬ Forall (λ l, timeoutTime_ l = INT64_MAX) (l :: ls)) by (by inversion 1).
  set (d := timeoutTime_ l - now) in *. destruct (Z.ltb_spec d 0) as [Hneg|Hpos].
  { split; [lia|]. split; [intros _; apply Hmin; lia|]. split; [lia|].
    intros [?|(l' & [= <-] & Hd & _)]; [done|]. subst d. lia. }
  rewrite (wrap_small 64) by (unfold fits; lia). unfold US_PER_MS.
  destruct (s32_of_ms (d / 1000)) as [Hle Hsign]; [apply Z.div_pos; lia|].
  pose proof (Z.mul_div_le d 1000 ltac:(lia)).
  split; [lia|]. split; [intros _; apply Hmin; lia|]. rewrite Z.min_lt_iff, Hsign. split.
  - intros [Hb|?]; [|lia]. right. exists l. split; [done|]. unfold INT64_MAX in *. split; [lia|done].
  - intros [?|(l' & [= <-] & _ & Hb)]; [done|by left].
Qed.

(** A listener that times out in 2^31 ms (about 25 days) makes the loop wait without a limit. *)
Lemma far_timeout_blocks fd now reg :
  0 <= now < 2 ^ 62 →
  GetNextWaitTime now (mkEpoll true reg [mkListener fd (now + 2 ^ 31 * 1000)]) = Ret (- 2 ^ 31).
Proof.
  intros Hnow. unfold GetNextWaitTime. cbn [listeners_ timeoutTime_].
  rewrite (proj2 (Z.eqb_neq _ _)) by (unfold INT64_MAX; lia). rewrite (swrap_small 64 now) by (unfold sfits; lia).
  replace (now + 2 ^ 31 * 1000 - now) with (2 ^ 31 * 1000) by lia. by vm_compute.
Qed.

Definition example_setup : prog :=
  Call (CallAdd true (mkListener 3 9000)) (λ _, Call (CallAdd true (mkListener 4 7000)) (λ _,
  Call (CallAdd true (mkListener 5 7000)) (λ _, Call (CallAdd true (mkListener 4 1)) (λ _, Done false)))).
(** The handler of descriptor 3 adds a listener, and asks to be removed when that is refused. *)
Definition example_handler (_ : list loop_event) (l : EpollListener) : prog :=
  Call (CallAdd true (mkListener 6 8000)) (λ ok, Done (negb ok)).
Definition example_turns : list (option (Z * list (Z * bool))) :=
  [Some (100, [(3, true); (9, true)]); None; Some (7500, []); Some (7500, []); Some (7500, []);
   Some (7600, [(3, true); (8, false)])].

Lemma event_loop_refines_witness :
  (snd <$> match spec_loop example_handler (λ _ _, Done false) example_turns
                   (snd (run_prog spec_add spec_remove example_setup ([], []))) with
           | Ret s => Some s | _ => None end) ≠ None ∧
  match spec_loop example_handler (λ _ _, Done false) example_turns
          (snd (run_prog spec_add spec_remove example_setup ([], []))) with
  | Ret (a, log) =>
      ∃ e, StartEpoll (on_poll example_handler) (on_timeout (λ _ _, Done false)) example_turns
             (snd (run_prog AddListener RemoveListener example_setup (mkEpoll true ∅ [], []))) = Ret (e, log) ∧
        epoll_rel e a
  | r => ∃ w, r = Undef w ∧
      StartEpoll (on_poll example_handler) (on_timeout (λ _ _, Done false)) example_turns
        (snd (run_prog AddListener RemoveListener example_setup (mkEpoll true ∅ [], []))) = Undef w
  end.
Proof.
  split; [by vm_compute|]. apply event_loop_refines.
  - intros log l. split; [by vm_compute|done].
  - done.
  - repeat (split; [by vm_compute|intros _]). done.
Defined.

(** The run of the example: the two timeouts at 7000 are handled in the order they were added. *)
Example example_run :
  match spec_loop example_handler (λ _ _, Done false) example_turns
          (snd (run_prog spec_add spec_remove example_setup ([], []))) with
  | Ret (a, log) => map l_fd a = [6] ∧
      List.filter (λ ev, match ev with TimedOut _ => true | _ => false end) log =
        [TimedOut (mkListener 4 7000); TimedOut (mkListener 5 7000)]
  | _ => False
  end.
Proof. by vm_compute. Qed.

Lemma GetNextWaitTime_bound_witness :
  ∃ w, GetNextWaitTime 5000 (mkEpoll true {[ 3 ]} [mkListener 3 9000]) = Ret w ∧ w <= 30000 ∧
    (0 <= w → Forall (λ l, w * 1000 <= Z.max 0 (timeoutTime_ l - 5000)) [mkListener 3 9000]) ∧
    (w < 0 ↔ Forall (λ l, timeoutTime_ l = INT64_MAX) [mkListener 3 9000] ∨
             ∃ l, head [mkListener 3 9000] = Some l ∧ 5000 <= timeoutTime_ l < INT64_MAX ∧
                  Z.testbit ((timeoutTime_ l - 5000) / 1000) 31 = true).
Proof.
  apply (GetNextWaitTime_bound 5000 (mkEpoll true {[ 3 ]} [mkListener 3 9000])).
  - repeat constructor.
  - by vm_compute.
  - constructor; [by vm_compute|constructor].
Defined.

(** ** Delayed tasks *)

(** The two fields of an id. *)
Lemma delay_id_fields (seq t : Z) :
  0 <= seq → 0 <= t < 2 ^ 60 →
  let id := Z.lor (u64 (Z.shiftl seq SEQUENCE_START_BIT)) t in
  id = seq mod 16 * 2 ^ 60 + t ∧ Z.land id TIMESTAMP_MASK = t ∧ Z.land (Z.shiftr id 60) 0xf = seq mod 16.
Proof.
  intros Hs Ht id.
  assert (E : id = seq mod 16 * 2 ^ 60 + t).
  { unfold id, SEQUENCE_START_BIT, wrap. rewrite Z.shiftl_mul_pow2 by lia.
    change (2 ^ 64) with (16 * 2 ^ 60). rewrite Zmult_mod_distr_r.
    rewrite <- Z.shiftl_mul_pow2, Z.lor_comm, lor_disjoint, Z.shiftl_mul_pow2 by lia. lia. }
  split; [done|]. rewrite E. change TIMESTAMP_MASK with (Z.ones 60). rewrite Z.land_ones by lia.
  split; [rewrite Z.add_comm, Z_mod_plus_full; by apply Z.mod_small|].
  rewrite Z.shiftr_div_pow2, Z.div_add_l, (Z.div_small t) by lia.
  change 0xf with (Z.ones 4). rewrite Z.land_ones by lia. change (2 ^ 4) with 16.
  rewrite Z.add_0_r, Zmod_mod. done.
Qed.

Section QueueProofs.
Context {W : Type} (clock : nat → Z) (k : kernel).
Implicit Types q : DelayTaskQueue W.

(** What the queue needs to accept a task of [d] seconds. *)
Definition accepts_task (d : Z) q : Prop :=
  0 < d < 2 ^ 32 ∧ (is_Some (executor_ q) ∨ k = mkKernel true true true) ∧ 0 <= delaySequence q ∧
  clock (readings q) ≠ 0 ∧ 0 <= clock (S (readings q)) < 2 ^ 59.

Definition execute_time (d : Z) q : Z := clock (S (readings q)) + d * US_PER_S.

Lemma AddDelayTask_eq w d q :
  accepts_task d q →
  let t := execute_time d q in
  let id := Z.lor (u64 (Z.shiftl (delaySequence q) SEQUENCE_START_BIT)) t in
  ∃ x, AddDelayTask clock k w d q =
    (id, mkQueue (Some x) (insert_after task_time t (id, w) (delayTasks_ q)) (u8 (delaySequence q + 1))
           (S (S (readings q)))) ∧
    (at_front task_time t (delayTasks_ q) = true → settime_ok k = true → x = (d * NS_PER_S, NS_PER_S)) ∧
    (at_front task_time t (delayTasks_ q) = false → is_Some (executor_ q) → executor_ q = Some x).
Proof.
  intros (Hd & Hx & Hs & Hc & Hc2) t id. unfold AddDelayTask.
  rewrite (proj2 (Z.eqb_neq d 0)) by lia. unfold execute_time in t.
  assert (Et : u64 (clock (S (readings q)) + u64 (d * US_PER_S)) = t).
  { unfold US_PER_S in *. rewrite (wrap_small 64 (d * _)) by (unfold fits; lia).
    apply wrap_small. unfold fits. lia. }
  assert (Ed : u64 (u64 (d * US_PER_S) * NS_PER_US) = d * NS_PER_S).
  { unfold US_PER_S, NS_PER_US, NS_PER_S. rewrite (wrap_small 64 (d * _)) by (unfold fits; lia).
    rewrite wrap_small; [lia|unfold fits; lia]. }
  assert (Hex : ∃ x0, match executor_ q with None => InitExecutor k d q | Some _ => (true, q) end =
    (true, set_executor (Some x0) q) ∧ (is_Some (executor_ q) → executor_ q = Some x0)).
  { destruct (executor_ q) as [x0|] eqn:Ex.
    - exists x0. split; [|done]. unfold set_executor. rewrite <- Ex. by destruct q.
    - destruct Hx as [Hx|Hx]; [by destruct Hx|subst k]. eexists. split; [done|]. by intros [? ?]. }
  destruct Hex as (x0 & -> & Hx0). cbn [negb GetMicroSecondsSinceBoot set_executor readings].
  rewrite (proj2 (Z.eqb_neq (clock (readings q)) 0)) by done. rewrite Et.
  unfold SetTimeOptionForTimeFd, CalculateDelayTaskId, set_tasks, set_executor.
  cbn [executor_ delayTasks_ delaySequence readings].
  destruct (at_front task_time t (delayTasks_ q)) eqn:Ef; rewrite ?Ef;
    cbn [executor_ delayTasks_ delaySequence readings].
  - destruct (settime_ok k) eqn:Ek; cbn [executor_ delayTasks_ delaySequence readings]; eexists;
      (split; [reflexivity|]); split; try done. intros _ _. by rewrite Ed.
  - eexists. split; [done|]. split; [done|]. by intros _ ?%Hx0.
Qed.

Lemma task_time_id (seq t : Z) (w : W) :
  0 <= seq → 0 <= t < 2 ^ 60 → task_time (Z.lor (u64 (Z.shiftl seq SEQUENCE_START_BIT)) t, w) = t.
Proof. intros. by apply delay_id_fields. Qed.

Lemma execute_time_range d q : accepts_task d q → 0 < execute_time d q < 2 ^ 60.
Proof. intros (? & _ & _ & _ & ?). unfold execute_time, US_PER_S. lia. Qed.

(** Adding a delayed task: it gets a non-zero id from which its time of execution and the low
    four bits of the sequence number can be read back, goes behind every task due at the same time
    or earlier and before every later one, keeps the queue ordered, and re-arms the timer when it
    comes first. *)
Theorem AddDelayTask_inserts w d q :
  accepts_task d q → ordered task_time (delayTasks_ q) →
  ∃ id q' l1 l2, AddDelayTask clock k w d q = (id, q') ∧
    id ≠ 0 ∧ Z.land id TIMESTAMP_MASK = execute_time d q ∧
    Z.land (Z.shiftr id 60) 0xf = delaySequence q mod 16 ∧
    delayTasks_ q = l1 ++ l2 ∧ delayTasks_ q' = l1 ++ (id, w) :: l2 ∧
    Forall (λ x, task_time x <= execute_time d q) l1 ∧ Forall (λ x, execute_time d q < task_time x) l2 ∧
    ordered task_time (delayTasks_ q') ∧ is_Some (executor_ q') ∧
    (l1 = [] → settime_ok k = true → executor_ q' = Some (d * NS_PER_S, NS_PER_S)).
Proof.
  intros Ha Ho. pose proof (execute_time_range d q Ha) as Ht.
  destruct (AddDelayTask_eq w d q Ha) as (x & E & Hf & _).
  assert (Hs : 0 <= delaySequence q) by (by destruct Ha as (_ & _ & ? & _)).
  destruct (delay_id_fields (delaySequence q) (execute_time d q) Hs ltac:(lia)) as (Eid & Em & Eseq).
  set (id := Z.lor _ _) in *. set (t := execute_time d q) in *.
  assert (Ek : task_time (id, w) = t) by exact Em.
  destruct (insert_after_split task_time (id, w) (delayTasks_ q) Ho) as (l1 & l2 & El & Ei & H1 & H2).
  rewrite Ek in Ei, H1, H2.
  eexists id, _, l1, l2. split; [exact E|]. cbn [delayTasks_ executor_].
  pose proof (Z.mod_pos_bound (delaySequence q) 16 ltac:(lia)).
  split; [lia|]. split; [done|]. split; [done|]. split; [done|]. split; [done|]. split; [done|]. split; [done|].
  split; [rewrite <- Ek; by apply insert_after_ordered|]. split; [done|].
  intros -> Hset. f_equal. apply Hf; [|done]. rewrite El. simpl. destruct l2 as [|b l2]; [done|].
  simpl. inversion H2; subst. lia.
Qed.

Lemma RemoveDelayTask_front id w l q :
  delayTasks_ q = (id, w) :: l → delayTasks_ (snd (RemoveDelayTask k id q)) = l ∧
  readings (snd (RemoveDelayTask k id q)) = readings q ∧
  delaySequence (snd (RemoveDelayTask k id q)) = delaySequence q ∧
  (l ≠ [] → executor_ (snd (RemoveDelayTask k id q)) = executor_ q) ∧
  (is_Some (executor_ q) → is_Some (executor_ (snd (RemoveDelayTask k id q)))).
Proof.
  intros E. unfold RemoveDelayTask. rewrite E. simpl. rewrite Z.eqb_refl. cbn [andb snd].
  case_bool_decide as Hl; [|done]. unfold SetTimeOptionForTimeFd. cbn [executor_ set_tasks].
  repeat case_match; done.
Qed.
End QueueProofs.

(** ** Running the due tasks

    A task may add further tasks; it gets its id, and what it adds may depend on the state [E] of
    the rest of the daemon. *)
Section Timer.
Context {W E : Type} (clock : nat → Z) (k : kernel).
Context (news : W → E → list (W * Z)) (act : W → E → E).
Implicit Types q : DelayTaskQueue W.

Definition add_tasks (l : list (W * Z)) q : DelayTaskQueue W :=
  fold_left (λ q '(w, d), snd (AddDelayTask clock k w d q)) l q.

Definition run_task (_ : Z) (w : W) (s : DelayTaskQueue W * E) : outcome (DelayTaskQueue W * E) :=
  Ret (add_tasks (news w s.2) s.1, act w s.2).

(** The tasks that running a list of tasks adds. *)
Fixpoint spawned (due : list (Z * W)) (e : E) : list (W * Z) :=
  match due with [] => [] | t :: due' => news t.2 e ++ spawned due' (act t.2 e) end.

(** A task added for [d] seconds later, not before [c]. *)
Definition added_for (c : Z) (t : Z * W) (wd : W * Z) : Prop :=
  t.2 = wd.1 ∧ c + wd.2 * US_PER_S <= task_time t.

Section Clock.
(** The readings from [r0] to [r1]: the clock does not go back, and gains less than a second. *)
Context (r0 r1 : nat).
Context (Hmono : ∀ i j, (i <= j)%nat → clock i <= clock j) (Hpos : 0 < clock r0)
  (Hspan : clock r1 < clock r0 + US_PER_S) (Hmax : clock r1 < 2 ^ 59).

(** Tasks added during the call go behind all tasks that are near. *)
Lemma add_tasks_spec l near far q :
  delayTasks_ q = near ++ far → near ≠ [] → Forall (λ t, task_time t < clock r0 + US_PER_S) near →
  Forall (λ t, clock r0 + US_PER_S <= task_time t) far →
  ordered task_time (delayTasks_ q) → is_Some (executor_ q) → 0 <= delaySequence q →
  Forall (λ wd, 0 < wd.2 < 2 ^ 32) l → (r0 <= readings q)%nat → (readings q + 2 * length l <= r1)%nat →
  ∃ added far', delayTasks_ (add_tasks l q) = near ++ far' ∧ far' ≡ₚ far ++ added ∧
    Forall2 (added_for (clock r0)) added l ∧ Forall (λ t, clock r0 + US_PER_S <= task_time t) far' ∧
    ordered task_time (delayTasks_ (add_tasks l q)) ∧ executor_ (add_tasks l q) = executor_ q ∧
    0 <= delaySequence (add_tasks l q) ∧ readings (add_tasks l q) = (readings q + 2 * length l)%nat.
Proof.
  intros Hq Hne Hnear Hfar Ho Hx Hs Hl. revert q far Hq Hfar Ho Hx Hs.
  induction Hl as [|[w d] l Hd Hl IH]; intros q far Hq Hfar Ho Hx Hs Hr Hr1.
  { exists [], far. split; [done|]. rewrite app_nil_r. repeat (split; [done|]). simpl. lia. }
  cbn [add_tasks fold_left length snd] in *.
  assert (Ha : accepts_task clock k d q).
  { pose proof (Hmono r0 (readings q) ltac:(lia)). pose proof (Hmono r0 (S (readings q)) ltac:(lia)).
    pose proof (Hmono (S (readings q)) r1 ltac:(lia)). split; [done|]. split; [by left|]. split; [done|]. lia. }
  pose proof (execute_time_range clock k d q Ha) as Ht.
  destruct (AddDelayTask_eq clock k w d q Ha) as (x & E1 & _ & Hx1).
  assert (Hlate : clock r0 + d * US_PER_S <= execute_time clock d q).
  { unfold execute_time. pose proof (Hmono r0 (S (readings q)) ltac:(lia)). lia. }
  pose proof (task_time_id (delaySequence q) (execute_time clock d q) w Hs ltac:(lia)) as Et.
  set (t := execute_time clock d q) in *. set (id := Z.lor _ _) in *. rewrite E1. cbn [snd].
  assert (Hback : ∀ l, insert_after task_time t (id, w) (near ++ l) = near ++ insert_after task_time t (id, w) l).
  { clear -Hnear Hlate Hd. intros l. induction Hnear as [|b near Hb _ IHn]; [done|]. simpl in *.
    rewrite (proj2 (Z.ltb_ge _ _)) by (unfold US_PER_S in *; lia). by rewrite IHn. }
  assert (Hnf : at_front task_time t (delayTasks_ q) = false).
  { rewrite Hq. destruct near as [|b near]; [done|]. simpl. inversion Hnear; subst. unfold US_PER_S in *. lia. }
  pose proof (Hx1 Hnf Hx) as Hx2.
  set (q1 := mkQueue _ _ _ _). fold (add_tasks l q1).
  destruct (IH q1 (insert_after task_time t (id, w) far)) as (added & far' & E2 & Hp & Ha2 & Hf2 & Ho2 & Hx3 & Hs2 & Hr2).
  - cbn. by rewrite Hq, Hback.
  - rewrite insert_after_perm. constructor; [rewrite Et; unfold US_PER_S in *; lia|done].
  - cbn. rewrite <- Et. by apply insert_after_ordered.
  - by eexists.
  - cbn. apply wrap_range. lia.
  - cbn. lia.
  - cbn. lia.
  - exists ((id, w) :: added), far'. split; [done|]. split.
    { rewrite Hp, insert_after_perm. simpl. by rewrite Permutation_middle. }
    split; [constructor; [by split; [|rewrite Et]|done]|]. split; [done|]. split; [done|].
    split; [by rewrite Hx3, Hx2|]. split; [done|]. rewrite Hr2. cbn. lia.
Qed.

Context (m : nat).
Context (Hnews : ∀ w e, (length (news w e) <= m)%nat ∧ Forall (λ wd, 0 < wd.2 < 2 ^ 32) (news w e)).
Context (Hk : settime_ok k = true).

(** The loop, for a queue of near and of far tasks. *)
Lemma OnTimer_loop (fuel : nat) near far q e :
  delayTasks_ q = near ++ far → Forall (λ t, task_time t < clock r0 + US_PER_S) near →
  Forall (λ t, clock r0 + US_PER_S <= task_time t) far →
  ordered task_time (delayTasks_ q) → is_Some (executor_ q) → 0 <= delaySequence q → (length near < fuel)%nat →
  (r0 <= readings q)%nat → (readings q + length near * (1 + 2 * m) < r1)%nat →
  ∃ due rest far' added q', near = due ++ rest ∧
    OnTimer clock k run_task fuel (q, e) =
      Ret (negb (bool_decide (delayTasks_ q' = [])), (q', fold_left (λ e t, act t.2 e) due e)) ∧
    delayTasks_ q' = rest ++ far' ∧ far' ≡ₚ far ++ added ∧
    Forall2 (added_for (clock r0)) added (spawned due e) ∧
    Forall (λ t, task_time t <= clock (pred (readings q'))) due ∧
    Forall (λ t, clock (pred (readings q')) < task_time t) (delayTasks_ q') ∧
    ordered task_time (delayTasks_ q') ∧ (readings q <= readings q')%nat ∧
    (∀ t, head (delayTasks_ q') = Some t →
      executor_ q' = Some (u64 ((task_time t - clock (pred (readings q'))) * NS_PER_US), NS_PER_S)).
Proof.
  revert near far q e. induction fuel as [|fuel IH]; intros near far q e Hq Hnear Hfar Ho Hx Hs Hf Hr Hr1; [lia|].
  cbn [OnTimer fst snd]. destruct (delayTasks_ q) as [|[id w] l] eqn:El.
  { symmetry in Hq. apply app_nil in Hq as [-> ->]. exists [], [], [], [], q. rewrite El. repeat (split; [done|]). done. }
  cbn [GetMicroSecondsSinceBoot]. change (Z.land id TIMESTAMP_MASK) with (task_time (id, w)).
  destruct (Z.ltb_spec (clock (readings q)) (task_time (id, w))) as [Hlt|Hge].
  { exists [], near, far, []. unfold SetTimeOptionForTimeFd. cbn [executor_]. destruct Hx as [x Ex].
    rewrite Ex, Hk. exists (mkQueue (Some (u64 ((task_time (id, w) - clock (readings q)) * NS_PER_US), NS_PER_S))
      (delayTasks_ q) (delaySequence q) (S (readings q))).
    split; [done|]. cbn [delayTasks_ readings set_executor executor_ pred]. rewrite El. split; [done|]. split; [done|]. split; [by rewrite app_nil_r|]. split; [constructor|]. split; [constructor|].
    split. { inversion Ho as [|? ? _ Hall]; subst. constructor; [done|]. eapply Forall_impl; [|exact Hall]. simpl. lia. }
    split; [done|]. split; [lia|]. by intros t [= <-]. }
  destruct near as [|t near].
  { exfalso. simpl in Hq. rewrite <- Hq in Hfar. inversion Hfar as [|? ? Hle]; subst. simpl in Hle.
    pose proof (Hmono (readings q) r1 ltac:(simpl in Hr1; lia)). lia. }
  injection Hq as <- ->. cbn [length] in *. destruct (Hnews w e) as [Hlen Hd].
  assert (Hmul : (2 * length (news w e) <= 2 * m)%nat) by lia.
  unfold run_task at 1. cbn [mbind outcome_mbind fst snd].
  set (q1 := mkQueue (executor_ q) (delayTasks_ q) (delaySequence q) (S (readings q))).
  destruct (add_tasks_spec (news w e) ((id, w) :: near) far q1) as (added & far1 & E1 & Hp1 & Ha1 & Hf1 & Ho1 & Hx1 & Hs1 & Hn1);
    [done|done|done|done|by subst q1; cbn; rewrite El|done|done|done|cbn; lia|cbn; lia|].
  set (q2 := add_tasks (news w e) q1) in *.
  destruct (RemoveDelayTask_front k id w (near ++ far1) q2 E1) as (Hl & Hr2 & Hs2 & _ & Hx2).
  rewrite E1 in Ho1. inversion Ho1 as [|? ? Ho2 _]; subst. inversion Hnear as [|? ? _ Hnear']; subst.
  set (q3 := snd (RemoveDelayTask k id q2)) in *. cbn [readings q1] in Hn1.
  destruct (IH near far1 q3 (act w e)) as (due & rest & far2 & added2 & q' & En & E2 & E3 & Hp2 & Ha2 & Hdue & Hrest & Ho3 & Hrd & Htm);
    [done|done|done|by rewrite Hl|apply Hx2; by rewrite Hx1|by rewrite Hs2|lia|lia|nia|].
  exists ((id, w) :: due), rest, far2, (added ++ added2), q'.
  split; [by rewrite En|]. split; [done|]. split; [done|]. split; [by rewrite Hp2, Hp1, app_assoc|].
  split; [by apply Forall2_app|]. split; [|split; [done|split; [done|split; [lia|done]]]].
  constructor; [|done]. etrans; [exact Hge|]. apply Hmono. lia.
Qed.
End Clock.

(** C37. The executor runs exactly the due tasks, also when these add further tasks: each task may
    add up to [m] tasks of at least a second, as the tasks of the periodic queue do; the clock
    does not go back, and gains less than a second over the readings of the call. Then [OnTimer]
    ends; it runs every task of the queue that is due, once and in order of time, and none early;
    what is left is the other tasks and those added, each not before its delay, in order of time;
    it asks to be kept exactly when something is left, and the timer is then armed for the first. *)
Theorem OnTimer_runs_due (m fuel : nat) q (e : E) :
  let r1 := (readings q + S (length (delayTasks_ q) * (1 + 2 * m)))%nat in
  (∀ i j, (i <= j)%nat → clock i <= clock j) → 0 < clock (readings q) →
  clock r1 < clock (readings q) + US_PER_S → clock r1 < 2 ^ 59 →
  (∀ w e, (length (news w e) <= m)%nat ∧ Forall (λ wd, 0 < wd.2 < 2 ^ 32) (news w e)) →
  ordered task_time (delayTasks_ q) → (length (delayTasks_ q) < fuel)%nat →
  settime_ok k = true → is_Some (executor_ q) → 0 <= delaySequence q →
  ∃ due rest added q', delayTasks_ q = due ++ rest ∧
    OnTimer clock k run_task fuel (q, e) =
      Ret (negb (bool_decide (delayTasks_ q' = [])), (q', fold_left (λ e t, act t.2 e) due e)) ∧
    delayTasks_ q' ≡ₚ rest ++ added ∧ ordered task_time (delayTasks_ q') ∧
    Forall2 (added_for (clock (readings q))) added (spawned due e) ∧
    Forall (λ t, task_time t <= clock (pred (readings q'))) due ∧
    Forall (λ t, clock (pred (readings q')) < task_time t) (delayTasks_ q') ∧
    (∀ t, head (delayTasks_ q') = Some t →
      executor_ q' = Some (u64 ((task_time t - clock (pred (readings q'))) * NS_PER_US), NS_PER_S)).
Proof.
  intros r1 Hmono Hpos Hspan Hmax Hnews Ho Hf Hk Hx Hs.
  destruct (ordered_split task_time (clock (readings q) + US_PER_S) _ Ho) as (near & far & Eq & Hn & Hfar).
  assert (Hlen : (length near <= length (delayTasks_ q))%nat) by (rewrite Eq, length_app; lia).
  destruct (OnTimer_loop (readings q) r1 Hmono Hpos Hspan Hmax m Hnews Hk fuel near far q e)
    as (due & rest & far' & added & q' & En & E1 & E2 & Hp & Ha & Hd & Hr & Ho' & _ & Ht);
    [done..|lia|lia|subst r1; nia|].
  exists due, (rest ++ far), added, q'. split; [by rewrite Eq, En, app_assoc|]. split; [done|].
  split; [by rewrite E2, Hp, app_assoc|]. repeat (split; [done|]). done.
Qed.
End Timer.

(** ** Periodic tasks *)
Section PeriodicProofs.
Context {X T E : Type} (clock : nat → Z) (k : kernel) (poll : T → E → bool * E).
Implicit Types q : DelayTaskQueue (work X).
Implicit Types p : PeriodicTaskQueue T.

(** A task after it has run. *)
Definition reschedule (now : Z) (t : periodic T) : periodic T :=
  mkPeriodic (now + p_interval t * US_PER_S) (p_id t) (p_interval t) (p_task t).

(** Polling tasks in turn: those to run again, with their new times. *)
Fixpoint poll_all (now : Z) (l : list (periodic T)) (e : E) : list (periodic T) * E :=
  match l with
  | [] => ([], e)
  | t :: l' =>
      let '(again, e1) := poll (p_task t) e in
      let '(kept, e2) := poll_all now l' e1 in
      (if again then reschedule now t :: kept else kept, e2)
  end.

Definition interval_ok (t : periodic T) : Prop := 0 < p_interval t < 2 ^ 31.

Lemma insert_after_app {A} (key : A → Z) t a l1 l2 :
  Forall (λ b, key b <= t) l1 → insert_after key t a (l1 ++ l2) = l1 ++ insert_after key t a l2.
Proof.
  induction 1 as [|b l1 Hb _ IH]; simpl; [done|]. rewrite (proj2 (Z.ltb_ge _ _)) by done. by rewrite IH.
Qed.

Lemma execute_loop_runs (fuel : nat) now due rest e :
  0 <= now < 2 ^ 59 → Forall interval_ok due → (length due < fuel)%nat →
  Forall (λ t, p_next t <= now) due → Forall (λ t, now < p_next t) rest → ordered p_next rest →
  ∃ l, execute_loop poll fuel now (due ++ rest) e = Ret (l, snd (poll_all now due e)) ∧
    l ≡ₚ fst (poll_all now due e) ++ rest ∧ ordered p_next l ∧ Forall (λ t, now < p_next t) l.
Proof.
  intros Hn Hi Hf Hd. revert fuel rest e Hi Hf. induction Hd as [|t due Ht Hd IH]; intros fuel rest e Hi Hf Hr Ho.
  - destruct fuel as [|fuel]; [simpl in Hf; lia|]. exists rest. split; [|done]. cbn [execute_loop app poll_all snd].
    destruct rest as [|t rest]; [done|]. inversion Hr; subst. by rewrite (proj2 (Z.ltb_lt _ _)).
  - destruct fuel as [|fuel]; [simpl in Hf; lia|]. simpl in Hf. inversion Hi as [|? ? Hit Hi']; subst.
    cbn [execute_loop app poll_all]. rewrite (proj2 (Z.ltb_ge _ _)) by done.
    destruct (poll (p_task t) e) as [again e1]. destruct again.
    + unfold interval_ok, US_PER_S in *.
      assert (En : u64 (now + p_interval t * 1000000) = now + p_interval t * 1000000)
        by (apply wrap_small; unfold fits; lia).
      rewrite En. rewrite insert_after_app by (eapply Forall_impl; [|exact Hd]; simpl; lia).
      set (t' := mkPeriodic _ _ _ _). change (now + p_interval t * 1000000) with (p_next t').
      destruct (IH fuel (insert_after p_next (p_next t') t' rest) e1 Hi' ltac:(lia)) as (l & El & Hp & Hl & Hl').
      { rewrite insert_after_perm. constructor; [simpl; lia|done]. }
      { by apply insert_after_ordered. }
      destruct (poll_all now due e1) as [kept e2]. exists l. split; [done|]. split; [|done].
      cbn [fst] in *. rewrite Hp, insert_after_perm. change t' with (reschedule now t).
      rewrite <- Permutation_middle. done.
    + destruct (IH fuel rest e1 Hi' ltac:(lia) Hr Ho) as (l & El & Hp & Hl).
      destruct (poll_all now due e1) as [kept e2]. by exists l.
Qed.

Lemma ordered_due (now : Z) (l : list (periodic T)) : ordered p_next l →
  ∃ due rest, l = due ++ rest ∧ Forall (λ t, p_next t <= now) due ∧ Forall (λ t, now < p_next t) rest ∧
    ordered p_next rest.
Proof.
  induction 1 as [|t l Hs IH Hall]; [exists [], []; split; [done|]; repeat split; constructor|].
  destruct (Z.le_gt_cases (p_next t) now) as [Hle|Hgt].
  - destruct IH as (due & rest & -> & H1 & H2 & H3). exists (t :: due), rest.
    split; [done|]. split; [by constructor|done].
  - exists [], (t :: l). split; [done|]. split; [constructor|]. split; [|by constructor].
    constructor; [done|]. eapply Forall_impl; [|exact Hall]. simpl. lia.
Qed.

(** Scheduling adds one task to the delay queue, when there is something to schedule. *)
Definition chains q : nat := length (List.filter (λ t, match t.2 with PeriodicExecute => true | _ => false end) (delayTasks_ q)).

Definition schedulable q : Prop :=
  (is_Some (executor_ q) ∨ k = mkKernel true true true) ∧ 0 <= delaySequence q ∧
  clock (readings q) ≠ 0 ∧ 0 <= clock (S (readings q)) < 2 ^ 59.

Lemma delay_secs_range (now next : Z) : 0 <= now → next < now + 2 ^ 32 * US_PER_S - US_PER_S →
  let d := if now <? next then u64 (next - now + US_PER_S - 1) / US_PER_S else 0 in
  0 < (if d =? 0 then 1 else d) < 2 ^ 32.
Proof.
  intros Hn Hx d. unfold US_PER_S in *.
  assert (Hd : 0 <= d < 2 ^ 32).
  { unfold d. zcase; [|lia]. rewrite wrap_small by (unfold fits; lia).
    split; [apply Z.div_pos; lia|]. apply Z.div_lt_upper_bound; lia. }
  zcase; lia.
Qed.

Lemma chains_insert t id (w : work X) l :
  length (List.filter (λ t : Z * work X, match t.2 with PeriodicExecute => true | _ => false end) (insert_after task_time t (id, w) l)) =
  ((match w with PeriodicExecute => 1 | _ => 0 end) + length (List.filter (λ t : Z * work X, match t.2 with PeriodicExecute => true | _ => false end) l))%nat.
Proof.
  induction l as [|b l IH]; cbn [insert_after List.filter snd]; [by destruct w|].
  zcase; cbn [List.filter snd]; [by destruct w|].
  destruct b as [i [|x]]; cbn [snd length]; rewrite IH; [|done]. destruct w; simpl; lia.
Qed.

Lemma ScheduleNextTask_chains now q p :
  schedulable q → 0 <= now → Forall (λ t, p_next t < now + 2 ^ 32 * US_PER_S - US_PER_S) (periodicTasks_ p) →
  let '(q', p') := ScheduleNextTask clock k now q p in
  chains q' = ((if bool_decide (periodicTasks_ p = []) then 0 else 1) + chains q)%nat ∧
  periodicTasks_ p' = periodicTasks_ p.
Proof.
  intros (Hx & Hs & Hc & Hc2) Hn Ht. unfold ScheduleNextTask. destruct (periodicTasks_ p) as [|t l] eqn:El; [done|].
  inversion Ht as [|? ? Ht' _]; subst. pose proof (delay_secs_range now (p_next t) Hn Ht') as Hd.
  cbn zeta in Hd. set (d := if _ =? 0 then 1 else _) in *. rewrite (wrap_small 32 d) by (unfold fits; lia).
  destruct (AddDelayTask_eq clock k PeriodicExecute d q) as (x & Ea & _); [done|]. rewrite Ea.
  split; [|done]. unfold chains. cbn [delayTasks_]. by rewrite chains_insert.
Qed.

Definition near_times (now : Z) (l : list (periodic T)) : Prop :=
  Forall (λ t, p_next t < now + 2 ^ 32 * US_PER_S - US_PER_S) l.

Lemma poll_all_near now l e : Forall interval_ok l → near_times now (fst (poll_all now l e)).
Proof.
  intros H. revert e. induction H as [|t l Ht _ IH]; intros e; cbn [poll_all fst]; [constructor|].
  destruct (poll (p_task t) e) as [again e1]. specialize (IH e1). destruct (poll_all now l e1) as [kept e2].
  destruct again; [|done]. constructor; [|done]. unfold interval_ok, US_PER_S in *. simpl. unfold US_PER_S. lia.
Qed.

(** An execution of the periodic queue polls every due task exactly once, in order of time, and
    ends; the tasks that ask for it are due again one interval later, the others are dropped, the
    queue stays ordered, and one more execution is put in the delay queue when tasks remain. *)
Theorem Execute_runs_due (fuel : nat) q p (e : E) :
  let now := clock (readings q) in
  ordered p_next (periodicTasks_ p) → Forall interval_ok (periodicTasks_ p) → near_times now (periodicTasks_ p) →
  (length (periodicTasks_ p) < fuel)%nat → 0 <= now < 2 ^ 58 →
  schedulable (snd (GetMicroSecondsSinceBoot clock q)) →
  ∃ due rest q' p', periodicTasks_ p = due ++ rest ∧
    Forall (λ t, p_next t <= now) due ∧ Forall (λ t, now < p_next t) rest ∧
    Execute clock k poll fuel q p e = Ret (q', p', snd (poll_all now due e)) ∧
    periodicTasks_ p' ≡ₚ fst (poll_all now due e) ++ rest ∧ ordered p_next (periodicTasks_ p') ∧
    chains q' = ((if bool_decide (periodicTasks_ p' = []) then 0 else 1) + chains q)%nat.
Proof.
  intros now Ho Hi Hnear Hf Hn Hs. destruct (ordered_due now _ Ho) as (due & rest & El & Hd & Hr & Hro).
  rewrite El in Hi, Hnear, Hf. apply list.Forall_app in Hi as [Hi _]. apply list.Forall_app in Hnear as [_ Hnear].
  rewrite length_app in Hf.
  destruct (execute_loop_runs fuel now due rest e ltac:(lia) Hi ltac:(lia) Hd Hr Hro) as (l & E1 & Hp & Hl & Hl').
  unfold Execute. cbn [GetMicroSecondsSinceBoot snd] in *. fold now. rewrite El, E1. cbn [mbind outcome_mbind].
  set (q1 := mkQueue (executor_ q) _ _ _) in *. set (p1 := mkPeriodicQueue l _ _).
  pose proof (ScheduleNextTask_chains now q1 p1 Hs ltac:(lia)) as Hc.
  destruct (ScheduleNextTask clock k now q1 p1) as [q' p'].
  destruct Hc as [Hc Hp']. { cbn [periodicTasks_ p1]. rewrite Hp. apply list.Forall_app. split; [by apply poll_all_near|done]. }
  exists due, rest, q', p'. rewrite Hp'. cbn [periodicTasks_ p1] in *. done.
Qed.

(** Executions pile up: removing the first periodic task while others remain schedules one more
    execution of the queue and cancels none, so the delay queue then holds one execution more (each
    of which, by the previous theorem, renews itself as long as tasks remain). *)
Theorem RemovePeriodicTask_adds_chain t1 t2 l q p :
  let now := clock (readings q) in
  periodicTasks_ p = t1 :: t2 :: l → near_times now (t2 :: l) → 0 <= now →
  schedulable (snd (GetMicroSecondsSinceBoot clock q)) →
  ∃ q' p', RemovePeriodicTask clock k (p_id t1) q p = (true, q', p') ∧ periodicTasks_ p' = t2 :: l ∧
    chains q' = S (chains q).
Proof.
  intros now El Hnear Hn Hs. unfold RemovePeriodicTask. rewrite El. cbn [erase_first].
  rewrite Z.eqb_refl. cbn [GetMicroSecondsSinceBoot snd] in *. fold now.
  set (q1 := mkQueue (executor_ q) _ _ _) in *. set (p1 := mkPeriodicQueue (t2 :: l) _ _).
  pose proof (ScheduleNextTask_chains now q1 p1 Hs Hn Hnear) as Hc.
  destruct (ScheduleNextTask clock k now q1 p1) as [q' p']. destruct Hc as [Hc Hp']. by exists q', p'.
Qed.
End PeriodicProofs.

(** ** Examples *)
Definition all_ok : kernel := mkKernel true true true.
Definition ticks (n : nat) : Z := 1000000 * (1 + n).
Definition empty_queue (W : Type) : DelayTaskQueue W := mkQueue None [] 0 0.
Definition two_tasks : DelayTaskQueue (work Z) :=
  snd (AddDelayTask ticks all_ok (OneShot 8) 1 (snd (AddDelayTask ticks all_ok (OneShot 7) 100 (empty_queue _)))).

Lemma two_tasks_ordered : ordered task_time (delayTasks_ two_tasks).
Proof.
  let l := eval vm_compute in (delayTasks_ two_tasks) in
  replace (delayTasks_ two_tasks) with l by (vm_compute; reflexivity).
  repeat constructor; by vm_compute.
Qed.

Lemma AddDelayTask_inserts_witness :
  ∃ id q' l1 l2, AddDelayTask ticks all_ok (OneShot 9) 2 two_tasks = (id, q') ∧
    id ≠ 0 ∧ Z.land id TIMESTAMP_MASK = execute_time ticks 2 two_tasks ∧
    Z.land (Z.shiftr id 60) 0xf = 2 mod 16 ∧
    delayTasks_ two_tasks = l1 ++ l2 ∧ delayTasks_ q' = l1 ++ (id, OneShot 9) :: l2 ∧
    Forall (λ x, task_time x <= execute_time ticks 2 two_tasks) l1 ∧
    Forall (λ x, execute_time ticks 2 two_tasks < task_time x) l2 ∧
    ordered task_time (delayTasks_ q') ∧ is_Some (executor_ q') ∧
    (l1 = [] → settime_ok all_ok = true → executor_ q' = Some (2 * NS_PER_S, NS_PER_S)).
Proof.
  apply (AddDelayTask_inserts ticks all_ok (OneShot 9) 2 two_tasks).
  - unfold accepts_task. split; [lia|]. split; [left; by eexists|]. by vm_compute.
  - exact two_tasks_ordered.
Defined.

(** The second task adds a third. *)
Definition example_news (w : work Z) (_ : list (work Z)) : list (work Z * Z) :=
  match w with OneShot 8 => [(OneShot 9, 5)] | _ => [] end.
(** A clock of a millisecond for each reading. *)
Definition slow_ticks (n : nat) : Z := 5500000 + 1000 * n.

Lemma OnTimer_runs_due_witness :
  ∃ due rest added q', delayTasks_ two_tasks = due ++ rest ∧
    OnTimer slow_ticks all_ok (run_task slow_ticks all_ok example_news (λ w e, w :: e)) 3 (two_tasks, []) =
      Ret (negb (bool_decide (delayTasks_ q' = [])), (q', fold_left (λ e t, t.2 :: e) due [])) ∧
    delayTasks_ q' ≡ₚ rest ++ added ∧ ordered task_time (delayTasks_ q') ∧
    Forall2 (added_for (slow_ticks (readings two_tasks))) added (spawned example_news (λ w e, w :: e) due []) ∧
    Forall (λ t, task_time t <= slow_ticks (pred (readings q'))) due ∧
    Forall (λ t, slow_ticks (pred (readings q')) < task_time t) (delayTasks_ q') ∧
    (∀ t, head (delayTasks_ q') = Some t →
      executor_ q' = Some (u64 ((task_time t - slow_ticks (pred (readings q'))) * NS_PER_US), NS_PER_S)).
Proof.
  apply (OnTimer_runs_due slow_ticks all_ok example_news (λ w e, w :: e) 1 3 two_tasks []).
  - unfold slow_ticks. lia.
  - by vm_compute.
  - by vm_compute.
  - by vm_compute.
  - intros w e. unfold example_news. repeat case_match; (split; [simpl; lia|repeat constructor]).
  - exact two_tasks_ordered.
  - vm_compute. lia.
  - done.
  - by eexists.
  - by vm_compute.
Defined.

(** In the example the first task is due; it is run, and the third comes before the one left. *)
Example example_timer :
  match OnTimer slow_ticks all_ok (run_task slow_ticks all_ok example_news (λ w e, w :: e)) 3 (two_tasks, []) with
  | Ret (keep, (q', ran)) => keep = true ∧ ran = [OneShot 8] ∧ map snd (delayTasks_ q') = [OneShot 9; OneShot 7]
  | _ => False
  end.
Proof. by vm_compute. Qed.

Definition two_periodic : PeriodicTaskQueue Z :=
  mkPeriodicQueue [mkPeriodic 500000 1 10 3; mkPeriodic 9000000 2 10 4] 0 3.

Lemma Execute_runs_due_witness :
  ∃ due rest q' p', periodicTasks_ two_periodic = due ++ rest ∧
    Forall (λ t, p_next t <= 1000000) due ∧ Forall (λ t, 1000000 < p_next t) rest ∧
    Execute ticks all_ok (λ t e, (true, t :: e)) 3 (empty_queue (work Z)) two_periodic [] =
      Ret (q', p', snd (poll_all (λ t e, (true, t :: e)) 1000000 due [])) ∧
    periodicTasks_ p' ≡ₚ fst (poll_all (λ t e, (true, t :: e)) 1000000 due []) ++ rest ∧
    ordered p_next (periodicTasks_ p') ∧
    chains q' = ((if bool_decide (periodicTasks_ p' = []) then 0 else 1) + 0)%nat.
Proof.
  apply (Execute_runs_due ticks all_ok (λ t e, (true, t :: e)) 3 (empty_queue (work Z)) two_periodic []).
  - repeat constructor; by vm_compute.
  - repeat constructor; by vm_compute.
  - repeat constructor; by vm_compute.
  - simpl. lia.
  - unfold ticks. simpl. lia.
  - split; [by right|]. by vm_compute.
Defined.

Lemma RemovePeriodicTask_adds_chain_witness :
  ∃ q' p', RemovePeriodicTask ticks all_ok 1 (empty_queue (work Z)) two_periodic = (true, q', p') ∧
    periodicTasks_ p' = [mkPeriodic 9000000 2 10 4] ∧ chains q' = 1%nat.
Proof.
  apply (RemovePeriodicTask_adds_chain ticks all_ok (mkPeriodic 500000 1 10 3) (mkPeriodic 9000000 2 10 4) []
           (empty_queue (work Z)) two_periodic).
  - done.
  - repeat constructor; by vm_compute.
  - unfold ticks. simpl. lia.
  - split; [by right|]. by vm_compute.
Defined.
