(* ===== verification/Coredump.v ===== *)
(** * Core dumps on request

    services/coredump: the daemon keeps one session per process that is being dumped.  A client
    asks for a dump or cancels it ([CoredumpManagerService]); the dumping process reports its
    start and its result ([CoredumpCallbackService]); a state machine ([SessionState]) decides what
    a session does; a delayed task removes a session that takes too long.  The records of recent
    crashes ([TempFileManager], services/temp_file_manager.cpp), which a dump request consults,
    are here too. *)
From S2P Require Import Prelude Tasks.

Inductive CoredumpStatus :=
| PENDING | RUNNING | SUCCESS | FAILED | CANCEL_PENDING | CANCELED | CANCEL_TIMEOUT | INVALID_STATUS.

Inductive CoredumpEvent :=
| UPDATE_DUMPER | CANCEL | REPORT_SUCCESS | REPORT_FAIL | TIMEOUT | INVALID_EVENT.

#[export] Instance CoredumpStatus_eq_dec : EqDecision CoredumpStatus.
Proof. solve_decision. Defined.

(** [ResponseCode]. *)
Definition DEFAULT_ERROR_CODE : Z := -1.
Definition REQUEST_SUCCESS : Z := 0.
Definition REQUEST_REJECT : Z := 3.
Definition ABNORMAL_SERVICE : Z := 4.
Definition CORE_DUMP_REPEAT : Z := 8.
Definition CORE_PROCESS_CRASHED : Z := 9.

(** [CoreDumpAction], [CoreDumpStatus]. *)
Definition DO_CORE_DUMP : Z := 0.
Definition CANCEL_CORE_DUMP : Z := 1.
Definition CORE_DUMP_START : Z := 1.

Definition SERVER_SOCKET_NAME : string := "faultloggerd.server".
Definition SERVER_CRASH_SOCKET_NAME : string := "faultloggerd.crash.server".
Definition CPP_CRASH : Z := 2.

(** [CoreDumpResult::fileName] and [CoreDumpStatusData::fileName]. *)
Definition FILE_NAME_SIZE : nat := 256.

Record CreateCoredumpRequest := mkCreate { targetPid : Z; rq_clientFd : Z; rq_endTime : Z }.
Record CoredumpCallbackReport := mkReport { rp_status : CoredumpStatus; rp_filePath : list Z; rp_errorCode : Z }.

Record CoredumpSession := mkSession {
  sessionId : Z;
  workerPid : Z;
  cancelRequest : bool;
  status : CoredumpStatus;
  filePath : list Z;
  errorCode : Z;
  clientFd : Z;
  startTime : Z;
  endTime : Z;
  delayTaskId : Z
}.

Definition set_status (st : CoredumpStatus) (s : CoredumpSession) : CoredumpSession :=
  mkSession (sessionId s) (workerPid s) (cancelRequest s) st (filePath s) (errorCode s) (clientFd s)
    (startTime s) (endTime s) (delayTaskId s).
Definition set_cancel (s : CoredumpSession) : CoredumpSession :=
  mkSession (sessionId s) (workerPid s) true (status s) (filePath s) (errorCode s) (clientFd s)
    (startTime s) (endTime s) (delayTaskId s).
Definition set_worker (w : Z) (s : CoredumpSession) : CoredumpSession :=
  mkSession (sessionId s) w (cancelRequest s) (status s) (filePath s) (errorCode s) (clientFd s)
    (startTime s) (endTime s) (delayTaskId s).
Definition set_report (path : list Z) (code : Z) (s : CoredumpSession) : CoredumpSession :=
  mkSession (sessionId s) (workerPid s) (cancelRequest s) (status s) path code (clientFd s)
    (startTime s) (endTime s) (delayTaskId s).
Definition set_task (id : Z) (s : CoredumpSession) : CoredumpSession :=
  mkSession (sessionId s) (workerPid s) (cancelRequest s) (status s) (filePath s) (errorCode s) (clientFd s)
    (startTime s) (endTime s) id.

(** What the daemon does to the outside. *)
Inductive output :=
| DupFd (fd : Z)                                  (* a duplicate of the client's connection *)
| CloseFd (fd : Z)
| SendCode (connectionFd : Z) (res : Z)           (* the answer to a request *)
| SendResult (fd : Z) (fileName : list Z) (retCode : Z)   (* a [CoreDumpResult] *)
| StartSignal (pid : Z)
| CancelSignal (pid : Z)
| Statistics (pid worker result : Z).

(** The sessions, the crash records and what has been done so far. *)
Record core := mkCore {
  sessions_ : gmap Z CoredumpSession;
  crashFileRecords_ : list (Z * Z);
  outputs : list output
}.

(** The daemon: the delayed tasks of the thread (each the session id its closure has captured)
    and the rest. *)
Abbreviation daemon := (DelayTaskQueue Z * core)%type.

Definition emit (o : output) (d : daemon) : daemon :=
  (d.1, mkCore (sessions_ d.2) (crashFileRecords_ d.2) (outputs d.2 ++ [o])).
Definition with_sessions (m : gmap Z CoredumpSession) (d : daemon) : daemon :=
  (d.1, mkCore m (crashFileRecords_ d.2) (outputs d.2)).
Definition with_queue (q : DelayTaskQueue Z) (d : daemon) : daemon := (q, d.2).

(** What a request finds outside: the credentials (uid and pid) of the peer, the result of [dup],
    and the clocks (monotonic and real time in milliseconds, real time in seconds). *)
Record env := mkEnv {
  peer : option (Z * Z);
  dup_result : Z;
  abs_ms : Z;
  real_ms : Z;
  real_s : Z
}.

Section Coredump.
Context (clock : nat → Z) (k : kernel).
Implicit Types d : daemon.

(** ** CoredumpSessionManager and CoredumpTaskScheduler *)
Definition GetSession (sid : Z) d : option CoredumpSession := sessions_ d.2 !! sid.

(** An update through the pointer [GetSession] returns. *)
Definition update (sid : Z) (f : CoredumpSession → CoredumpSession) d : daemon :=
  with_sessions (alter f sid (sessions_ d.2)) d.

(** The destructor of a [SmartFd]. *)
Definition close_fd (fd : Z) d : daemon := if fd <? 0 then d else emit (CloseFd fd) d.

(** [emplace] keeps a session that is already there; the new one is then destroyed. *)
Definition CreateSession (now_ms : Z) (request : CreateCoredumpRequest) d : daemon :=
  let session := mkSession (targetPid request) 0 false PENDING [] 0 (rq_clientFd request) now_ms
                   (rq_endTime request) 0 in
  match GetSession (targetPid request) d with
  | None => with_sessions (<[targetPid request := session]> (sessions_ d.2)) d
  | Some _ => close_fd (rq_clientFd request) d
  end.

Definition CancelTimeout (sid : Z) d : daemon :=
  match GetSession sid d with
  | None => d
  | Some s => with_queue (snd (RemoveDelayTask k (delayTaskId s) d.1)) d
  end.

Definition RemoveSession (sid : Z) d : daemon :=
  match GetSession sid d with
  | None => d
  | Some s =>
      let d := CancelTimeout sid d in
      close_fd (clientFd s) (with_sessions (delete sid (sessions_ d.2)) d)
  end.

(** The closure of [ScheduleCancelTime], run by the executor: after [RemoveSession] it logs the
    session id it has captured, which is gone if its task has been erased from the queue. *)
Definition remove_task (taskId sid : Z) d : outcome daemon :=
  let d := RemoveSession sid d in
  if existsb (λ t, t.1 =? taskId) (delayTasks_ d.1) then Ret d else Undef UseAfterFree.

(** [static_cast<int32_t>] of the whole seconds left, at most [timeoutMs / 1000]. *)
Definition delay_seconds (endT curTime timeoutMs : Z) : Z :=
  Z.min (if curTime <? endT then s32 ((endT - curTime) / 1000) else 0) (timeoutMs / 1000).

Definition ScheduleCancelTime (abs : Z) (sid timeoutMs : Z) d : daemon :=
  match GetSession sid d with
  | None => d
  | Some s =>
      let '(taskId, q) := AddDelayTask clock k sid (u32 (delay_seconds (endTime s) abs timeoutMs)) d.1 in
      let d := with_queue q d in
      if taskId =? 0 then RemoveSession sid d else update sid (set_task taskId) d
  end.

(** ** CoredumpSessionService *)
Definition CancelSession (sid : Z) d : bool * daemon :=
  match GetSession sid d with None => (false, d) | Some _ => (true, update sid set_cancel d) end.

Definition service_UpdateWorkerPid (sid worker : Z) d : bool * daemon :=
  match GetSession sid d with None => (false, d) | Some _ => (true, update sid (set_worker worker) d) end.

Definition UpdateReport (sid : Z) (rpt : CoredumpCallbackReport) d : daemon :=
  match GetSession sid d with
  | None => d
  | Some _ => update sid (set_report (rp_filePath rpt) (rp_errorCode rpt)) d
  end.

Definition ReportCoredumpStatistics (sid : Z) d : daemon :=
  match GetSession sid d with
  | None => d
  | Some s => emit (Statistics (sessionId s) (workerPid s) (errorCode s)) d
  end.

Definition send_result (sid : Z) (fileName : list Z) (retCode : Z) d : bool * daemon :=
  match GetSession sid d with
  | None => (false, d)
  | Some s =>
      let d := emit (SendResult (clientFd s) fileName retCode) d in
      let d := ReportCoredumpStatistics sid d in
      (true, RemoveSession sid d)
  end.

(** [strncpy_s] refuses a path that does not fit with its terminator. *)
Definition WriteResult (sid : Z) d : bool * daemon :=
  match GetSession sid d with
  | None => (false, d)
  | Some s =>
      if (FILE_NAME_SIZE <=? length (filePath s))%nat then (false, d)
      else send_result sid (filePath s) (errorCode s) d
  end.

Definition WriteTimeout (sid : Z) d : bool * daemon := send_result sid [] (-1) d.

(** ** SessionState

    A handler gets the session that [HandleEvent] has looked up. *)
Definition PendingState_OnEvent (event : CoredumpEvent) (session : CoredumpSession) d : daemon :=
  let sid := sessionId session in
  match event with
  | UPDATE_DUMPER => update sid (set_status RUNNING) d
  | CANCEL => update sid (set_status CANCEL_PENDING ∘ set_cancel) d
  | TIMEOUT => snd (WriteTimeout sid (update sid (set_status CANCEL_TIMEOUT) d))
  | _ => d
  end.

Definition RunningState_OnEvent (event : CoredumpEvent) (session : CoredumpSession) d : daemon :=
  let sid := sessionId session in
  match event with
  | REPORT_SUCCESS => snd (WriteResult sid (update sid (set_status SUCCESS) d))
  | REPORT_FAIL => snd (WriteResult sid (update sid (set_status FAILED) d))
  | CANCEL =>
      let d := emit (CancelSignal (workerPid session)) d in
      snd (WriteResult sid (update sid (set_status CANCELED) d))
  | _ => d
  end.

Definition CancelPendingState_OnEvent (event : CoredumpEvent) (session : CoredumpSession) d : daemon :=
  let sid := sessionId session in
  match event with
  | UPDATE_DUMPER =>
      let d := emit (CancelSignal (workerPid session)) d in
      snd (WriteResult sid (update sid (set_status CANCELED) d))
  | TIMEOUT => snd (WriteTimeout sid (update sid (set_status CANCEL_TIMEOUT) d))
  | _ => d
  end.

Definition CreateState (st : CoredumpStatus) : option (CoredumpEvent → CoredumpSession → daemon → daemon) :=
  match st with
  | PENDING => Some PendingState_OnEvent
  | RUNNING => Some RunningState_OnEvent
  | CANCEL_PENDING => Some CancelPendingState_OnEvent
  | _ => None
  end.

Definition HandleEvent (session : CoredumpSession) (event : CoredumpEvent) d : daemon :=
  match CreateState (status session) with
  | None => d
  | Some handler => handler event session d
  end.

(** ** CoredumpFacade *)
Definition CreateCoredump (e : env) (req : CreateCoredumpRequest) d : bool * daemon :=
  let d := CreateSession (real_ms e) req d in
  let d := emit (StartSignal (targetPid req)) d in
  (true, ScheduleCancelTime (abs_ms e) (targetPid req) (30 * 1000) d).

Definition CancelCoredump (sid : Z) d : daemon :=
  let d := snd (CancelSession sid d) in
  match GetSession sid d with None => d | Some s => HandleEvent s CANCEL d end.

Definition UpdateWorkerPid (sid worker : Z) d : bool * daemon :=
  let d := snd (service_UpdateWorkerPid sid worker d) in
  match GetSession sid d with None => (false, d) | Some s => (true, HandleEvent s UPDATE_DUMPER d) end.

Definition ReportResult (sid : Z) (rpt : CoredumpCallbackReport) d : daemon :=
  let d := UpdateReport sid rpt d in
  match GetSession sid d with
  | None => d
  | Some s => HandleEvent s (if decide (rp_status rpt = SUCCESS) then REPORT_SUCCESS else REPORT_FAIL) d
  end.

Definition OnTimeout (sid : Z) d : daemon :=
  match GetSession sid d with None => d | Some s => HandleEvent s TIMEOUT d end.

(** ** The crash records of TempFileManager *)
Definition validTime : Z := 8.

Definition ClearTimeOutRecords (now : Z) (rs : list (Z * Z)) : list (Z * Z) :=
  filter (λ r, now < r.2 + validTime) rs.

Definition CheckCrashFileRecord (now pid : Z) d : bool * daemon :=
  let rs := ClearTimeOutRecords now (crashFileRecords_ d.2) in
  (existsb (λ r, r.1 =? pid) rs, (d.1, mkCore (sessions_ d.2) rs (outputs d.2))).

(** The first record of the pid gets the new time. *)
Fixpoint touch_record (now pid : Z) (rs : list (Z * Z)) : list (Z * Z) :=
  match rs with
  | [] => [(pid, now)]
  | r :: rs' => if r.1 =? pid then (pid, now) :: rs' else r :: touch_record now pid rs'
  end.

(** The readings of the clock in one call are taken equal. *)
Definition RecordFileCreation (now : Z) (type pid : Z) d : daemon :=
  let rs := ClearTimeOutRecords now (crashFileRecords_ d.2) in
  let rs := if type =? CPP_CRASH then touch_record now pid rs else rs in
  (d.1, mkCore (sessions_ d.2) rs (outputs d.2)).

(** ** CoredumpManagerService *)
Definition CheckCoredumpUID (callerUid : Z) : bool := existsb (Z.eqb callerUid) [0; 1202; 7005].

Definition IsAuthorizedUid (e : env) : bool :=
  match peer e with None => false | Some (uid, _) => CheckCoredumpUID uid end.

Definition ValidateRequest (e : env) (socketName : string) (pid : Z) d : Z * daemon :=
  if negb (0 <? pid) then (REQUEST_REJECT, d)
  else if negb (String.eqb socketName SERVER_SOCKET_NAME) then (REQUEST_REJECT, d)
  else if negb (IsAuthorizedUid e) then (REQUEST_REJECT, d)
  else
    let '(crashed, d) := CheckCrashFileRecord (real_s e) pid d in
    (if crashed then CORE_PROCESS_CRASHED else REQUEST_SUCCESS, d).

Definition HandleCreateEvent (e : env) (pid endT : Z) d : Z * daemon :=
  match GetSession pid d with
  | Some _ => (CORE_DUMP_REPEAT, d)
  | None =>
      if dup_result e =? -1 then (DEFAULT_ERROR_CODE, d)
      else
        let d := emit (DupFd (dup_result e)) d in
        let '(ok, d) := CreateCoredump e (mkCreate pid (dup_result e) endT) d in
        (if ok then REQUEST_SUCCESS else DEFAULT_ERROR_CODE, d)
  end.

Definition HandleCancelEvent (pid : Z) d : Z * daemon :=
  match GetSession pid d with
  | None => (DEFAULT_ERROR_CODE, d)
  | Some _ => (REQUEST_SUCCESS, CancelCoredump pid d)
  end.

Definition manager_OnRequest (e : env) (socketName : string) (connectionFd pid endT action : Z) d : Z * daemon :=
  let '(res, d) := ValidateRequest e socketName pid d in
  if negb (res =? REQUEST_SUCCESS) then (res, emit (SendCode connectionFd res) d)
  else
    let '(res, d) :=
      if action =? DO_CORE_DUMP then HandleCreateEvent e pid endT d
      else if action =? CANCEL_CORE_DUMP then HandleCancelEvent pid d
      else (REQUEST_REJECT, d) in
    (res, emit (SendCode connectionFd res) d).

(** ** CoredumpCallbackService *)
Definition IsReporterWorker (e : env) (worker : Z) : bool :=
  match peer e with None => false | Some (_, pid) => pid =? worker end.

Definition callback_ValidateRequest (e : env) (socketName : string) (pid processDumpPid coredumpStatus : Z) : Z :=
  if negb (0 <? pid) then REQUEST_REJECT
  else if negb (String.eqb socketName SERVER_CRASH_SOCKET_NAME) then REQUEST_REJECT
  else if (coredumpStatus =? CORE_DUMP_START) && negb (IsReporterWorker e processDumpPid) then REQUEST_REJECT
  else 0.

Definition HandleUpdateWorkerPid (pid processDumpPid : Z) d : Z * daemon :=
  if processDumpPid <=? 0 then (ABNORMAL_SERVICE, d)
  else
    let '(ret, d) := UpdateWorkerPid pid processDumpPid d in
    (if ret then REQUEST_SUCCESS else ABNORMAL_SERVICE, d).

(** [strnlen] over the array. *)
Fixpoint c_string (bs : list Z) : list Z :=
  match bs with [] => [] | b :: bs' => if b =? 0 then [] else b :: c_string bs' end.

(** [req.errorCode] keeps its initial value. *)
Definition HandleReport (pid : Z) (fileName : list Z) (retCode : Z) d : Z * daemon :=
  let req := mkReport (if retCode =? 0 then SUCCESS else FAILED) (c_string (take FILE_NAME_SIZE fileName)) 0 in
  (REQUEST_SUCCESS, ReportResult pid req d).

Definition callback_OnRequest (e : env) (socketName : string)
  (connectionFd pid processDumpPid coredumpStatus : Z) (fileName : list Z) (retCode : Z) d : Z * daemon :=
  let res := callback_ValidateRequest e socketName pid processDumpPid coredumpStatus in
  if negb (res =? 0) then (res, emit (SendCode connectionFd res) d)
  else
    let '(res, d) :=
      if coredumpStatus =? CORE_DUMP_START then HandleUpdateWorkerPid pid processDumpPid d
      else HandleReport pid fileName retCode d in
    (res, emit (SendCode connectionFd res) d).

(** ** The daemon *)
Inductive request :=
| DumpRequest (socketName : string) (connectionFd pid endT action : Z)
| StatusReport (socketName : string) (connectionFd pid processDumpPid coredumpStatus : Z)
    (fileName : list Z) (retCode : Z)
| FileCreated (type pid : Z).

Definition serve (e : env) (r : request) d : daemon :=
  match r with
  | DumpRequest sock fd pid endT action => snd (manager_OnRequest e sock fd pid endT action d)
  | StatusReport sock fd pid worker st name code => snd (callback_OnRequest e sock fd pid worker st name code d)
  | FileCreated type pid => RecordFileCreation (real_s e) type pid d
  end.

Definition serve_all (rs : list (env * request)) d : daemon := fold_left (λ d '(e, r), serve e r d) rs d.

(** The executor of the thread's timer. *)
Definition timer (fuel : nat) d : outcome (bool * daemon) := OnTimer clock k remove_task fuel d.
End Coredump.

Definition daemon_new : DelayTaskQueue Z * core := (mkQueue None [] 0 0, mkCore ∅ [] []).

(** ** The protocol of the client's descriptor

    Reading the outputs from the start: a descriptor is opened by [dup], answered at most once
    while open, and closed once.  [None] is a violation. *)
Fixpoint fd_run (opened answered : gset Z) (os : list output) : option (gset Z * gset Z) :=
  match os with
  | [] => Some (opened, answered)
  | o :: os' =>
      match o with
      | DupFd fd => if bool_decide (fd ∈ opened) then None else fd_run ({[ fd ]} ∪ opened) answered os'
      | SendResult fd _ _ =>
          if bool_decide (fd ∈ opened ∧ fd ∉ answered) then fd_run opened ({[ fd ]} ∪ answered) os' else None
      | CloseFd fd =>
          if bool_decide (fd ∈ opened) then fd_run (opened ∖ {[ fd ]}) (answered ∖ {[ fd ]}) os' else None
      | _ => fd_run opened answered os'
      end
  end.

Lemma fd_run_app os1 os2 O A :
  fd_run O A (os1 ++ os2) = '(O', A') ← fd_run O A os1; fd_run O' A' os2.
Proof.
  revert O A. induction os1 as [|o os1 IH]; intros O A; [done|]. cbn [app fd_run].
  destruct o; try apply IH; case_bool_decide; by rewrite ?IH.
Qed.

Definition client_fds (m : gmap Z CoredumpSession) : gset Z := map_img (clientFd <$> m).

Lemma elem_of_client_fds m fd : fd ∈ client_fds m ↔ ∃ sid s, m !! sid = Some s ∧ clientFd s = fd.
Proof.
  unfold client_fds. rewrite elem_of_map_img. split.
  - intros (sid & H). rewrite lookup_fmap, fmap_Some in H. destruct H as (s & H & ->). eauto.
  - intros (sid & s & H & <-). exists sid. by rewrite lookup_fmap, H.
Qed.

(** The sessions are stored under their ids and hold different descriptors, the ones open. *)
Record fds_ok (d : DelayTaskQueue Z * core) : Prop := {
  fo_id : ∀ sid s, sessions_ d.2 !! sid = Some s → sessionId s = sid ∧ 0 <= clientFd s;
  fo_inj : ∀ i j s t, sessions_ d.2 !! i = Some s → sessions_ d.2 !! j = Some t → clientFd s = clientFd t → i = j;
  fo_run : fd_run ∅ ∅ (outputs d.2) = Some (client_fds (sessions_ d.2), ∅)
}.

Definition silent (o : output) : Prop :=
  match o with DupFd _ | CloseFd _ | SendResult _ _ _ => False | _ => True end.

Definition keeps_fd (f : CoredumpSession → CoredumpSession) : Prop :=
  ∀ s, clientFd (f s) = clientFd s ∧ sessionId (f s) = sessionId s.

Section FdProtocol.
Context (clock : nat → Z) (k : kernel).
Implicit Types d : DelayTaskQueue Z * core.

Lemma emit_silent o d : silent o → fds_ok d → fds_ok (emit o d).
Proof.
  intros Ho [H1 H2 H3]. split; [done|done|]. cbn [emit snd outputs sessions_]. rewrite fd_run_app, H3. by destruct o.
Qed.

Lemma with_queue_fds q d : fds_ok d → fds_ok (with_queue q d).
Proof. intros [H1 H2 H3]. by split. Qed.

Lemma client_fds_alter f sid m : keeps_fd f → client_fds (alter f sid m) = client_fds m.
Proof.
  intros Hf. unfold client_fds. f_equal. apply map_eq. intros i. rewrite !lookup_fmap.
  destruct (decide (i = sid)) as [->|Hne].
  - rewrite lookup_alter_eq. destruct (m !! sid) as [s|]; simpl; [|done]. by rewrite (proj1 (Hf s)).
  - by rewrite lookup_alter_ne.
Qed.

Lemma update_fds sid f d : keeps_fd f → fds_ok d → fds_ok (update sid f d).
Proof.
  intros Hf [H1 H2 H3]. unfold update, with_sessions.
  assert (Hl : ∀ i s, alter f sid (sessions_ d.2) !! i = Some s → ∃ s0, sessions_ d.2 !! i = Some s0 ∧
    clientFd s = clientFd s0 ∧ sessionId s = sessionId s0).
  { intros i s. destruct (decide (i = sid)) as [->|Hne].
    - rewrite lookup_alter_eq, fmap_Some. intros (s0 & H & ->). exists s0. split; [done|apply Hf].
    - rewrite lookup_alter_ne by done. by eauto. }
  split; cbn [snd sessions_ outputs].
  - intros i s (s0 & H & -> & ->)%Hl. by apply H1.
  - intros i j s t (s0 & Hs & -> & _)%Hl (t0 & Ht & -> & _)%Hl. by apply H2.
  - by rewrite client_fds_alter.
Qed.

Lemma RemoveSession_eq sid s d :
  GetSession sid d = Some s → 0 <= clientFd s →
  RemoveSession k sid d = (snd (RemoveDelayTask k (delayTaskId s) d.1),
    mkCore (delete sid (sessions_ d.2)) (crashFileRecords_ d.2) (outputs d.2 ++ [CloseFd (clientFd s)])).
Proof.
  intros Hs Hfd. unfold RemoveSession, CancelTimeout, close_fd. rewrite !Hs.
  rewrite (proj2 (Z.ltb_ge _ _)) by done. done.
Qed.

Lemma client_fds_delete sid s m :
  (∀ i j s t, m !! i = Some s → m !! j = Some t → clientFd s = clientFd t → i = j) →
  m !! sid = Some s → client_fds (delete sid m) = client_fds m ∖ {[ clientFd s ]}.
Proof.
  intros Hinj Hs. apply set_eq. intros fd. rewrite elem_of_difference, elem_of_singleton, !elem_of_client_fds. split.
  - intros (i & t & Ht & <-). apply lookup_delete_Some in Ht as [Hne Ht]. split; [by eauto|].
    intros E. apply Hne. symmetry. by eapply Hinj.
  - intros ((i & t & Ht & <-) & Hne). exists i, t. split; [|done]. apply lookup_delete_Some. split; [|done].
    intros <-. apply Hne. congruence.
Qed.

(** Erasing a session, its result sent or not. *)
Lemma erase_fds (answer : list output) sid s q d :
  GetSession sid d = Some s → fds_ok d →
  (∀ O, clientFd s ∈ O → fd_run O ∅ answer = Some (O, ∅) ∨ fd_run O ∅ answer = Some (O, {[ clientFd s ]})) →
  fds_ok (q, mkCore (delete sid (sessions_ d.2)) (crashFileRecords_ d.2) (outputs d.2 ++ answer ++ [CloseFd (clientFd s)])).
Proof.
  intros Hs [H1 H2 H3] Ha. split; cbn [snd sessions_ outputs].
  - intros i t [_ Ht]%lookup_delete_Some. by apply H1.
  - intros i j t u [_ Ht]%lookup_delete_Some [_ Hu]%lookup_delete_Some. by apply H2.
  - rewrite fd_run_app, H3. cbn [mbind option_bind]. rewrite fd_run_app.
    assert (Hin : clientFd s ∈ client_fds (sessions_ d.2)) by (apply elem_of_client_fds; eauto).
    rewrite (client_fds_delete sid s) by done.
    destruct (Ha _ Hin) as [-> | ->]; cbn [mbind option_bind fd_run]; rewrite bool_decide_true by done;
      do 2 f_equal; set_solver.
Qed.

Lemma RemoveSession_fds sid d : fds_ok d → fds_ok (RemoveSession k sid d).
Proof.
  intros H. destruct (GetSession sid d) as [s|] eqn:Es; [|unfold RemoveSession; by rewrite Es].
  rewrite (RemoveSession_eq sid s d Es) by (by apply (fo_id _ H sid)).
  apply (erase_fds [] sid s _ d Es H). by left.
Qed.

Lemma send_result_eq sid s name code d :
  GetSession sid d = Some s → 0 <= clientFd s →
  send_result k sid name code d = (true, (snd (RemoveDelayTask k (delayTaskId s) d.1),
    mkCore (delete sid (sessions_ d.2)) (crashFileRecords_ d.2)
      (outputs d.2 ++ [SendResult (clientFd s) name code; Statistics (sessionId s) (workerPid s) (errorCode s)] ++
       [CloseFd (clientFd s)]))).
Proof.
  intros Hs Hfd. unfold send_result, ReportCoredumpStatistics. rewrite Hs.
  change (GetSession sid (emit (SendResult (clientFd s) name code) d)) with (GetSession sid d). rewrite Hs.
  rewrite (RemoveSession_eq sid s) by done. unfold emit. cbn [fst snd sessions_ crashFileRecords_ outputs].
  by rewrite <- !app_assoc.
Qed.

Lemma send_result_fds sid name code d : fds_ok d → fds_ok (snd (send_result k sid name code d)).
Proof.
  intros H. destruct (GetSession sid d) as [s|] eqn:Es; [|unfold send_result; by rewrite Es].
  rewrite (send_result_eq sid s name code d Es) by (by apply (fo_id _ H sid)). cbn [snd].
  apply (erase_fds _ sid s _ d Es H). intros O HO. right. cbn [fd_run].
  rewrite bool_decide_true by set_solver. do 2 f_equal. set_solver.
Qed.

Lemma WriteResult_fds sid d : fds_ok d → fds_ok (snd (WriteResult k sid d)).
Proof. intros H. unfold WriteResult. repeat case_match; try done. by apply send_result_fds. Qed.

Lemma keeps_status st : keeps_fd (set_status st).
Proof. done. Qed.

Hint Resolve update_fds emit_silent WriteResult_fds send_result_fds RemoveSession_fds with_queue_fds : fds.
Hint Extern 0 (silent _) => exact I : fds.
Hint Extern 0 (keeps_fd _) => intros ?; done : fds.

Lemma HandleEvent_fds s ev d : fds_ok d → fds_ok (HandleEvent k s ev d).
Proof.
  intros H. unfold HandleEvent, CreateState, PendingState_OnEvent, RunningState_OnEvent, CancelPendingState_OnEvent, WriteTimeout.
  destruct (status s); try done; destruct ev; auto 6 with fds.
Qed.

Lemma ScheduleCancelTime_fds abs sid ms d : fds_ok d → fds_ok (ScheduleCancelTime clock k abs sid ms d).
Proof.
  intros H. unfold ScheduleCancelTime. destruct (GetSession sid d); [|done].
  destruct (AddDelayTask _ _ _ _ _) as [id q]. case_match; auto with fds.
Qed.

Lemma CreateSession_fds now pid fd endT d :
  fds_ok d → GetSession pid d = None → 0 <= fd → fd ∉ client_fds (sessions_ d.2) →
  fds_ok (CreateSession now (mkCreate pid fd endT) (emit (DupFd fd) d)).
Proof.
  intros [H1 H2 H3] Hp Hfd Hin. unfold CreateSession. cbn [targetPid rq_clientFd rq_endTime].
  change (GetSession pid (emit (DupFd fd) d)) with (GetSession pid d). rewrite Hp.
  unfold GetSession in Hp. set (s := mkSession _ _ _ _ _ _ _ _ _ _).
  split; cbn [snd sessions_ outputs with_sessions emit].
  - intros i t. rewrite lookup_insert_Some. intros [[<- <-]|[_ Ht]]; [done|by apply H1].
  - assert (Hne : ∀ i t, sessions_ d.2 !! i = Some t → clientFd t ≠ fd).
    { intros i t Ht E. apply Hin, elem_of_client_fds. eauto. }
    intros i j t u. rewrite !lookup_insert_Some. intros [[<- <-]|[_ Ht]] [[<- <-]|[_ Hu]] E; [done| | |by eapply H2].
    + by destruct (Hne _ _ Hu).
    + by destruct (Hne _ _ Ht).
  - rewrite fd_run_app, H3. cbn [mbind option_bind fd_run]. rewrite bool_decide_false by done. do 2 f_equal.
    apply set_eq. intros x. rewrite elem_of_union, elem_of_singleton, !elem_of_client_fds. split.
    + intros [->|(i & t & Ht & <-)].
      * exists pid, s. split; [apply lookup_insert_eq|done].
      * exists i, t. split; [|done]. rewrite lookup_insert_ne; [done|]. intros ->. congruence.
    + intros (i & t & Ht & <-). rewrite lookup_insert_Some in Ht. destruct Ht as [[<- <-]|[_ Ht]]; [by left|right; eauto].
Qed.

(** The kernel gives [dup] a descriptor that is not open. *)
Definition env_ok (e : env) d : Prop :=
  dup_result e = -1 ∨ (0 <= dup_result e ∧ dup_result e ∉ client_fds (sessions_ d.2)).

Lemma serve_fds e r d : env_ok e d → fds_ok d → fds_ok (serve clock k e r d).
Proof.
  intros He H. destruct r as [sock cfd pid endT action|sock cfd pid worker st name code|type pid]; cbn [serve].
  - unfold manager_OnRequest, ValidateRequest, CheckCrashFileRecord.
    assert (Hr : ∀ rs, fds_ok (d.1, mkCore (sessions_ d.2) rs (outputs d.2))) by (intros; by destruct H).
    destruct (0 <? pid); cbn [negb]; [|by apply emit_silent].
    destruct (String.eqb sock _); cbn [negb]; [|by apply emit_silent].
    destruct (IsAuthorizedUid e); cbn [negb]; [|by apply emit_silent].
    set (rs := ClearTimeOutRecords _ _). destruct (existsb _ rs); [by apply emit_silent|]. cbn [Z.eqb negb].
    set (d1 := (d.1, _)). specialize (Hr rs : fds_ok d1). assert (He1 : env_ok e d1) by done. clearbody d1.
    destruct (action =? DO_CORE_DUMP); [|destruct (action =? CANCEL_CORE_DUMP); [|by apply emit_silent]].
    + unfold HandleCreateEvent. destruct (GetSession pid d1) eqn:Ep; [by apply emit_silent|].
      destruct (Z.eqb_spec (dup_result e) (-1)) as [|Hd]; [by apply emit_silent|].
      destruct He1 as [?|[Hd0 Hd1]]; [done|]. cbn [CreateCoredump snd fst targetPid].
      apply emit_silent; [done|]. apply ScheduleCancelTime_fds, emit_silent; [done|]. by apply CreateSession_fds.
    + unfold HandleCancelEvent, CancelCoredump, CancelSession. destruct (GetSession pid d1) eqn:Ep; [|by apply emit_silent].
      cbn [snd]. apply emit_silent; [done|]. assert (Hu : fds_ok (update pid set_cancel d1)) by auto with fds.
      destruct (GetSession pid (update pid set_cancel d1)); [by apply HandleEvent_fds|done].
  - unfold callback_OnRequest. destruct (negb _); [by apply emit_silent|].
    destruct (st =? CORE_DUMP_START).
    + unfold HandleUpdateWorkerPid, UpdateWorkerPid, service_UpdateWorkerPid.
      destruct (worker <=? 0); [by apply emit_silent|].
      destruct (GetSession pid d) eqn:Ep; cbn [snd].
      * assert (Hu : fds_ok (update pid (set_worker worker) d)) by auto with fds.
        destruct (GetSession pid (update pid (set_worker worker) d)); apply emit_silent; try done. by apply HandleEvent_fds.
      * rewrite Ep. by apply emit_silent.
    + unfold HandleReport, ReportResult, UpdateReport. cbn [snd]. apply emit_silent; [done|].
      destruct (GetSession pid d) eqn:Ep; [|by rewrite Ep].
      set (f := set_report _ _). assert (Hu : fds_ok (update pid f d)) by auto with fds.
      destruct (GetSession pid (update pid f d)); [by apply HandleEvent_fds|done].
  - unfold RecordFileCreation. by destruct H.
Qed.

(** The states the daemon reaches by serving requests. *)
Inductive reachable : DelayTaskQueue Z * core → Prop :=
| reach_new : reachable daemon_new
| reach_serve e r d : reachable d → env_ok e d → reachable (serve clock k e r d).

(** C11. No client descriptor is leaked, closed twice or answered twice: whatever requests and
    reports arrive, in whatever order and from whomever (the timeout task, whose behaviour is
    undefined, apart), reading the daemon's outputs from the
    start, every descriptor that [dup] returned is answered at most once, only while open, and
    closed at most once, and the descriptors still open are exactly those of the live sessions,
    none of which has been answered. *)
Theorem client_protocol d :
  reachable d → fd_run ∅ ∅ (outputs d.2) = Some (client_fds (sessions_ d.2), ∅).
Proof.
  intros H. assert (Hok : fds_ok d); [|by destruct Hok].
  induction H as [|e r d _ IH He]; [|by apply serve_fds].
  split; cbn [snd sessions_ outputs daemon_new]; [by intros ? ? ?%lookup_empty_Some|by intros ? ? ? ? ?%lookup_empty_Some|].
  done.
Qed.
End FdProtocol.

(** ** Abstract specification: one job per process

    A job waits for its dumper, dumps, or has been cancelled before its dumper came. *)
Inductive phase := Waiting | Dumping | Cancelling.
Record job := mkJob { j_phase : phase; j_fd : Z; j_worker : Z; j_path : list Z }.

(** The outputs that end a job. *)
Definition finish (pid : Z) (j : job) : list output :=
  [SendResult (j_fd j) (j_path j) 0; Statistics pid (j_worker j) 0; CloseFd (j_fd j)].

Definition spec_cancel (pid : Z) (j : job) : option job * list output :=
  match j_phase j with
  | Dumping => (None, CancelSignal (j_worker j) :: finish pid j)
  | _ => (Some (mkJob Cancelling (j_fd j) (j_worker j) (j_path j)), [])
  end.

Definition spec_start (pid worker : Z) (j : job) : option job * list output :=
  let j := mkJob (j_phase j) (j_fd j) worker (j_path j) in
  match j_phase j with
  | Cancelling => (None, CancelSignal worker :: finish pid j)
  | _ => (Some (mkJob Dumping (j_fd j) worker (j_path j)), [])
  end.

Definition spec_report (pid : Z) (path : list Z) (j : job) : option job * list output :=
  let j := mkJob (j_phase j) (j_fd j) (j_worker j) path in
  match j_phase j with
  | Dumping => (None, finish pid j)
  | _ => (Some j, [])
  end.

(** A step of the job of a process, and the answer to the request. *)
Definition on_job (pid : Z) (f : job → option job * list output) (absent present : Z) (jobs : gmap Z job)
  : gmap Z job * list output * Z :=
  match jobs !! pid with
  | None => (jobs, [], absent)
  | Some j => (partial_alter (λ _, fst (f j)) pid jobs, snd (f j), present)
  end.

Definition trusted (e : env) (sock : string) (pid : Z) : bool :=
  (0 <? pid) && String.eqb sock SERVER_SOCKET_NAME && IsAuthorizedUid e.
Definition reporter (e : env) (sock : string) (pid worker st : Z) : bool :=
  (0 <? pid) && String.eqb sock SERVER_CRASH_SOCKET_NAME &&
  (negb (st =? CORE_DUMP_START) || IsReporterWorker e worker).

Definition spec_dump (e : env) (pid action : Z) (jobs : gmap Z job) : gmap Z job * list output * Z :=
  if action =? DO_CORE_DUMP then
    match jobs !! pid with
    | Some _ => (jobs, [], CORE_DUMP_REPEAT)
    | None =>
        if dup_result e =? -1 then (jobs, [], DEFAULT_ERROR_CODE)
        else (<[pid := mkJob Waiting (dup_result e) 0 []]> jobs, [DupFd (dup_result e); StartSignal pid], REQUEST_SUCCESS)
    end
  else if action =? CANCEL_CORE_DUMP then on_job pid (spec_cancel pid) DEFAULT_ERROR_CODE REQUEST_SUCCESS jobs
  else (jobs, [], REQUEST_REJECT).

Definition spec_status (pid worker st : Z) (name : list Z) (jobs : gmap Z job) : gmap Z job * list output * Z :=
  if st =? CORE_DUMP_START then
    if worker <=? 0 then (jobs, [], ABNORMAL_SERVICE)
    else on_job pid (spec_start pid worker) ABNORMAL_SERVICE REQUEST_SUCCESS jobs
  else on_job pid (spec_report pid (c_string (take FILE_NAME_SIZE name))) REQUEST_SUCCESS REQUEST_SUCCESS jobs.

(** [crashed]: whether the process has a recent crash record. *)
Definition spec_serve (e : env) (crashed : Z → bool) (r : request) (jobs : gmap Z job) : gmap Z job * list output :=
  let answer fd (x : gmap Z job * list output * Z) := (x.1.1, x.1.2 ++ [SendCode fd x.2]) in
  match r with
  | DumpRequest sock fd pid _ action =>
      answer fd (if negb (trusted e sock pid) then (jobs, [], REQUEST_REJECT)
                 else if crashed pid then (jobs, [], CORE_PROCESS_CRASHED)
                 else spec_dump e pid action jobs)
  | StatusReport sock fd pid worker st name _ =>
      answer fd (if negb (reporter e sock pid worker st) then (jobs, [], REQUEST_REJECT)
                 else spec_status pid worker st name jobs)
  | FileCreated _ _ => (jobs, [])
  end.

(** The job a session stands for. *)
Definition phase_of (st : CoredumpStatus) : phase :=
  match st with PENDING => Waiting | RUNNING => Dumping | _ => Cancelling end.
Definition job_of (s : CoredumpSession) : job := mkJob (phase_of (status s)) (clientFd s) (workerPid s) (filePath s).
Definition jobs_of (d : DelayTaskQueue Z * core) : gmap Z job := job_of <$> sessions_ d.2.
Definition recently_crashed (e : env) (d : DelayTaskQueue Z * core) (pid : Z) : bool :=
  existsb (λ r, r.1 =? pid) (ClearTimeOutRecords (real_s e) (crashFileRecords_ d.2)).

Definition active (st : CoredumpStatus) : Prop := st = PENDING ∨ st = RUNNING ∨ st = CANCEL_PENDING.

Definition session_ok (sid : Z) (s : CoredumpSession) : Prop :=
  sessionId s = sid ∧ 0 <= clientFd s ∧ active (status s) ∧ errorCode s = 0 ∧ (length (filePath s) < FILE_NAME_SIZE)%nat.
Definition sessions_ok (d : DelayTaskQueue Z * core) : Prop := map_Forall session_ok (sessions_ d.2).

Section Refinement.
Context (clock : nat → Z) (k : kernel).
Implicit Types d : DelayTaskQueue Z * core.

(** [d'] stands for the jobs, and has done [os] since [d]. *)
Definition simulates d d' (jobs : gmap Z job) (os : list output) : Prop :=
  sessions_ok d' ∧ jobs_of d' = jobs ∧ outputs d'.2 = outputs d.2 ++ os.

Lemma update_sessions sid f d : sessions_ (update sid f d).2 = alter f sid (sessions_ d.2).
Proof. done. Qed.

Lemma GetSession_update sid f d s : GetSession sid d = Some s → GetSession sid (update sid f d) = Some (f s).
Proof. unfold GetSession. rewrite update_sessions, lookup_alter_eq. by intros ->. Qed.

(** A session changed in place. *)
Lemma simulates_alter sid s f d :
  GetSession sid d = Some s → sessions_ok d → session_ok sid (f s) →
  simulates d (update sid f d) (<[sid := job_of (f s)]> (jobs_of d)) [].
Proof.
  intros Hs Hok Hf. unfold GetSession in Hs. split; [|split; [|by rewrite app_nil_r]].
  - unfold sessions_ok. rewrite update_sessions. intros i t. rewrite lookup_alter_Some.
    intros [(-> & s0 & ? & ->)|[_ Ht]]; [by simplify_eq|by apply Hok].
  - unfold jobs_of. rewrite update_sessions. apply map_eq. intros i. destruct (decide (i = sid)) as [->|Hne].
    + by rewrite lookup_insert_eq, lookup_fmap, lookup_alter_eq, Hs.
    + by rewrite lookup_insert_ne, !lookup_fmap, lookup_alter_ne.
Qed.

Lemma update_update sid f g d : update sid f (update sid g d) = update sid (f ∘ g) d.
Proof. unfold update, with_sessions. cbn. by rewrite alter_alter_eq. Qed.

(** A session whose result is written after changes in place and other outputs. *)
Lemma simulates_finish sid s f os d :
  GetSession sid d = Some s → sessions_ok d → session_ok sid (set_status PENDING (f s)) →
  simulates d (snd (WriteResult k sid (foldr emit (update sid f d) (rev os)))) (delete sid (jobs_of d))
    (os ++ finish sid (job_of (f s))).
Proof.
  intros Hs Hok (Hid & Hfd & _ & He & Hl). cbn [set_status sessionId clientFd errorCode filePath] in *.
  assert (Hem : ∀ l d, GetSession sid (foldr emit d l) = GetSession sid d ∧
    sessions_ (foldr emit d l).2 = sessions_ d.2 ∧ outputs (foldr emit d l).2 = outputs d.2 ++ rev l).
  { induction l as [|o l IH]; intros d0; cbn [foldr rev]; [by rewrite app_nil_r|].
    destruct (IH d0) as (H1 & H2 & H3). split; [done|]. split; [done|].
    unfold emit at 1. cbn [snd outputs]. by rewrite H3, app_assoc. }
  destruct (Hem (rev os) (update sid f d)) as (Hg & Hss & Ho). set (d1 := foldr emit _ _) in *.
  rewrite rev_involutive in Ho. rewrite (GetSession_update _ _ _ _ Hs) in Hg.
  unfold WriteResult. rewrite Hg. destruct (Nat.leb_spec FILE_NAME_SIZE (length (filePath (f s)))) as [|_]; [lia|].
  rewrite (send_result_eq k sid (f s)) by done. cbn [snd]. split; [|split]; cbn [snd sessions_ outputs].
  - unfold sessions_ok. cbn [snd sessions_]. rewrite Hss, update_sessions.
    intros i t [Hne Ht]%lookup_delete_Some. rewrite lookup_alter_ne in Ht by done. by apply Hok.
  - unfold jobs_of. cbn [snd sessions_]. rewrite Hss, update_sessions, <- fmap_delete. f_equal.
    apply delete_alter_eq.
  - rewrite Ho. unfold finish, job_of. cbn [j_fd j_path j_worker]. rewrite Hid, He.
    by rewrite <- !app_assoc.
Qed.

Lemma on_job_session pid f a b d s :
  GetSession pid d = Some s →
  on_job pid f a b (jobs_of d) = (partial_alter (λ _, fst (f (job_of s))) pid (jobs_of d), snd (f (job_of s)), b).
Proof. intros H. unfold on_job, jobs_of. rewrite lookup_fmap. unfold GetSession in H. by rewrite H. Qed.

Lemma on_job_none pid f a b d :
  GetSession pid d = None → on_job pid f a b (jobs_of d) = (jobs_of d, [], a).
Proof. intros H. unfold on_job, jobs_of. rewrite lookup_fmap. unfold GetSession in H. by rewrite H. Qed.

Lemma partial_alter_Some {A} (x : A) i (m : gmap Z A) : partial_alter (λ _, Some x) i m = <[i := x]> m.
Proof. done. Qed.

Lemma partial_alter_None {A} i (m : gmap Z A) : partial_alter (λ _, None) i m = delete i m.
Proof. done. Qed.

Lemma Cancel_simulates pid s d :
  GetSession pid d = Some s → sessions_ok d →
  let x := spec_cancel pid (job_of s) in
  simulates d (CancelCoredump k pid d) (partial_alter (λ _, fst x) pid (jobs_of d)) (snd x).
Proof.
  intros Hs Hok x. pose proof (Hok pid s Hs) as (Hid & Hfd & Ha & He & Hl).
  unfold CancelCoredump, CancelSession. rewrite Hs. cbn [snd]. rewrite (GetSession_update _ _ _ _ Hs).
  unfold x, spec_cancel, job_of. cbn [j_phase j_fd j_worker j_path].
  unfold HandleEvent. cbn [set_cancel status].
  destruct Ha as [Es|[Es|Es]]; rewrite Es; cbn [CreateState phase_of fst snd].
  - unfold PendingState_OnEvent. rewrite (Hid : sessionId (set_cancel s) = pid), update_update, partial_alter_Some.
    apply (simulates_alter pid s (set_status CANCEL_PENDING ∘ set_cancel ∘ set_cancel) d Hs Hok).
    unfold session_ok, active. cbn. naive_solver.
  - unfold RunningState_OnEvent. rewrite (Hid : sessionId (set_cancel s) = pid), partial_alter_None.
    change (workerPid (set_cancel s)) with (workerPid s).
    change (update pid (set_status CANCELED) (emit (CancelSignal (workerPid s)) (update pid set_cancel d)))
      with (emit (CancelSignal (workerPid s)) (update pid (set_status CANCELED) (update pid set_cancel d))).
    rewrite update_update.
    apply (simulates_finish pid s (set_status CANCELED ∘ set_cancel) [CancelSignal (workerPid s)] d Hs Hok).
    unfold session_ok, active. cbn. naive_solver.
  - unfold CancelPendingState_OnEvent. rewrite partial_alter_Some.
    replace (mkJob Cancelling _ _ _) with (job_of (set_cancel s)) by (unfold job_of; cbn; by rewrite Es).
    apply (simulates_alter pid s set_cancel d Hs Hok). unfold session_ok, active. cbn. naive_solver.
Qed.

Lemma Start_simulates pid worker s d :
  GetSession pid d = Some s → sessions_ok d →
  let x := spec_start pid worker (job_of s) in
  fst (UpdateWorkerPid k pid worker d) = true ∧
  simulates d (snd (UpdateWorkerPid k pid worker d)) (partial_alter (λ _, fst x) pid (jobs_of d)) (snd x).
Proof.
  intros Hs Hok x. pose proof (Hok pid s Hs) as (Hid & Hfd & Ha & He & Hl).
  unfold UpdateWorkerPid, service_UpdateWorkerPid. rewrite Hs. cbn [snd]. rewrite (GetSession_update _ _ _ _ Hs).
  split; [done|]. cbn [snd]. unfold x, spec_start, job_of. cbn [j_phase j_fd j_worker j_path].
  unfold HandleEvent. cbn [set_worker status].
  destruct Ha as [Es|[Es|Es]]; rewrite Es; cbn [CreateState phase_of fst snd].
  - unfold PendingState_OnEvent. rewrite (Hid : sessionId (set_worker worker s) = pid), update_update, partial_alter_Some.
    apply (simulates_alter pid s (set_status RUNNING ∘ set_worker worker) d Hs Hok).
    unfold session_ok, active. cbn. naive_solver.
  - unfold RunningState_OnEvent. rewrite partial_alter_Some.
    replace (mkJob Dumping _ _ _) with (job_of (set_worker worker s)) by (unfold job_of; cbn; by rewrite Es).
    apply (simulates_alter pid s (set_worker worker) d Hs Hok). unfold session_ok, active. cbn. naive_solver.
  - unfold CancelPendingState_OnEvent. rewrite (Hid : sessionId (set_worker worker s) = pid), partial_alter_None.
    change (workerPid (set_worker worker s)) with worker.
    change (update pid (set_status CANCELED) (emit (CancelSignal worker) (update pid (set_worker worker) d)))
      with (emit (CancelSignal worker) (update pid (set_status CANCELED) (update pid (set_worker worker) d))).
    rewrite update_update.
    apply (simulates_finish pid s (set_status CANCELED ∘ set_worker worker) [CancelSignal worker] d Hs Hok).
    unfold session_ok, active. cbn. naive_solver.
Qed.

Lemma Report_simulates pid st path s d :
  GetSession pid d = Some s → sessions_ok d → (length path < FILE_NAME_SIZE)%nat →
  let x := spec_report pid path (job_of s) in
  simulates d (ReportResult k pid (mkReport st path 0) d) (partial_alter (λ _, fst x) pid (jobs_of d)) (snd x).
Proof.
  intros Hs Hok Hlen x. pose proof (Hok pid s Hs) as (Hid & Hfd & Ha & He & Hl).
  unfold ReportResult, UpdateReport. rewrite Hs. cbn [rp_filePath rp_errorCode rp_status].
  rewrite (GetSession_update _ _ _ _ Hs).
  unfold x, spec_report, job_of. cbn [j_phase j_fd j_worker j_path]. unfold HandleEvent. cbn [set_report status].
  destruct Ha as [Es|[Es|Es]]; rewrite Es; cbn [CreateState phase_of fst snd].
  - replace (PendingState_OnEvent _ _ _ _) with (update pid (set_report path 0) d) by (by case_decide).
    rewrite partial_alter_Some.
    replace (mkJob Waiting _ _ _) with (job_of (set_report path 0 s)) by (unfold job_of; cbn; by rewrite Es).
    apply (simulates_alter pid s (set_report path 0) d Hs Hok). unfold session_ok, active. cbn. naive_solver.
  - rewrite partial_alter_None. set (st' := if decide (st = SUCCESS) then SUCCESS else FAILED).
    replace (RunningState_OnEvent _ _ _ _) with
      (snd (WriteResult k pid (update pid (set_status st') (update pid (set_report path 0) d))))
      by (unfold st'; case_decide; cbn; by rewrite Hid).
    rewrite update_update.
    apply (simulates_finish pid s (set_status st' ∘ set_report path 0) [] d Hs Hok).
    unfold session_ok, active. cbn. naive_solver.
  - replace (CancelPendingState_OnEvent _ _ _ _) with (update pid (set_report path 0) d) by (by case_decide).
    rewrite partial_alter_Some.
    replace (mkJob Cancelling _ _ _) with (job_of (set_report path 0 s)) by (unfold job_of; cbn; by rewrite Es).
    apply (simulates_alter pid s (set_report path 0) d Hs Hok). unfold session_ok, active. cbn. naive_solver.
Qed.

Lemma simulates_emit o d d' jobs os : simulates d d' jobs os → simulates d (emit o d') jobs (os ++ [o]).
Proof. intros (H1 & H2 & H3). split; [done|]. split; [done|]. cbn. by rewrite H3, <- app_assoc. Qed.

Lemma simulates_refl d : sessions_ok d → simulates d d (jobs_of d) [].
Proof. intros H. split; [done|]. split; [done|]. by rewrite app_nil_r. Qed.

Lemma AddDelayTask_nonzero (w t : Z) q : accepts_task clock k t q → fst (AddDelayTask clock k w t q) ≠ 0.
Proof.
  intros H. pose proof (execute_time_range clock k t q H).
  destruct (AddDelayTask_eq clock k w t q H) as (x & -> & _). cbn [fst]. destruct H as (_ & _ & Hs & _).
  destruct (delay_id_fields (delaySequence q) (execute_time clock t q)) as (-> & _); [done|lia|].
  pose proof (Z.mod_pos_bound (delaySequence q) 16 ltac:(lia)). lia.
Qed.

Lemma Create_simulates e pid endT d :
  GetSession pid d = None → sessions_ok d → 0 <= dup_result e →
  accepts_task clock k (delay_seconds endT (abs_ms e) 30000) d.1 →
  simulates d (snd (CreateCoredump clock k e (mkCreate pid (dup_result e) endT) (emit (DupFd (dup_result e)) d)))
    (<[pid := mkJob Waiting (dup_result e) 0 []]> (jobs_of d)) [DupFd (dup_result e); StartSignal pid].
Proof.
  intros Hp Hok Hfd Ht. pose proof Ht as (Hr & _).
  unfold CreateCoredump, CreateSession. cbn [targetPid rq_clientFd rq_endTime snd].
  change (GetSession pid (emit (DupFd (dup_result e)) d)) with (GetSession pid d). rewrite Hp.
  unfold GetSession in Hp. set (s := mkSession _ _ _ _ _ _ _ _ _ _). set (d1 := emit (StartSignal pid) _).
  assert (Hs : GetSession pid d1 = Some s) by apply lookup_insert_eq.
  assert (H1 : simulates d d1 (<[pid := job_of s]> (jobs_of d)) [DupFd (dup_result e); StartSignal pid]).
  { split; [|split; [|cbn; by rewrite <- app_assoc]].
    - unfold sessions_ok. cbn. intros i t. rewrite lookup_insert_Some. intros [[<- <-]|[_ Hi]]; [|by apply Hok].
      unfold session_ok, active, FILE_NAME_SIZE. cbn. split; [done|]. split; [done|]. split; [by left|]. split; [done|lia].
    - unfold jobs_of. cbn. by rewrite fmap_insert. }
  unfold ScheduleCancelTime. rewrite Hs. cbn [endTime s]. change (30 * 1000) with 30000.
  rewrite (wrap_small 32) by (unfold fits; lia).
  pose proof (AddDelayTask_nonzero pid _ d.1 Ht) as Hz. change (d1.1) with (d.1).
  destruct (AddDelayTask clock k pid _ d.1) as [id q]. cbn [fst] in Hz. rewrite (proj2 (Z.eqb_neq id 0)) by done.
  destruct H1 as (Ho1 & Hj1 & Hout).
  destruct (simulates_alter pid s (set_task id) d1 Hs Ho1 (Ho1 pid s Hs)) as (A & B & C).
  split; [exact A|]. split; [|exact Hout].
  transitivity (jobs_of (update pid (set_task id) d1)); [done|]. rewrite B, Hj1. apply insert_insert_eq.
Qed.

(** What a request must satisfy: [dup] fails or returns a descriptor, and the deadline of a dump
    leaves the delay queue a task to accept; the reported path fits its buffer with its
    terminator. *)
Definition request_ok (e : env) (r : request) d : Prop :=
  match r with
  | DumpRequest _ _ _ endT _ =>
      dup_result e = -1 ∨ (0 <= dup_result e ∧ accepts_task clock k (delay_seconds endT (abs_ms e) 30000) d.1)
  | StatusReport _ _ _ _ _ name _ => (length (c_string (take FILE_NAME_SIZE name)) < FILE_NAME_SIZE)%nat
  | FileCreated _ _ => True
  end.

Lemma dump_simulates e fd pid endT action d :
  sessions_ok d → request_ok e (DumpRequest "" fd pid endT action) d →
  let x := spec_dump e pid action (jobs_of d) in
  let y := if action =? DO_CORE_DUMP then HandleCreateEvent clock k e pid endT d
           else if action =? CANCEL_CORE_DUMP then HandleCancelEvent k pid d else (REQUEST_REJECT, d) in
  fst y = x.2 ∧ simulates d (snd y) x.1.1 x.1.2.
Proof.
  intros Hok Hr x y. unfold x, y, spec_dump, HandleCreateEvent, HandleCancelEvent.
  pose proof (simulates_refl d Hok) as Hd.
  destruct (action =? DO_CORE_DUMP).
  - assert (Hj : jobs_of d !! pid = job_of <$> GetSession pid d) by apply lookup_fmap. rewrite Hj.
    destruct (GetSession pid d) as [s|] eqn:Es; cbn [fmap option_fmap option_map]; [done|].
    destruct Hr as [Hr|[Hfd Ht]]; [by rewrite Hr|]. destruct (Z.eqb_spec (dup_result e) (-1)); [done|].
    split; [done|]. by apply Create_simulates.
  - destruct (action =? CANCEL_CORE_DUMP); [|done]. destruct (GetSession pid d) as [s|] eqn:Es.
    + rewrite (on_job_session _ _ _ _ _ s Es). split; [done|]. by apply Cancel_simulates.
    + by rewrite on_job_none.
Qed.

Lemma status_simulates pid worker st name code d :
  sessions_ok d → (length (c_string (take FILE_NAME_SIZE name)) < FILE_NAME_SIZE)%nat →
  let x := spec_status pid worker st name (jobs_of d) in
  let y := if st =? CORE_DUMP_START then HandleUpdateWorkerPid k pid worker d
           else HandleReport k pid name code d in
  fst y = x.2 ∧ simulates d (snd y) x.1.1 x.1.2.
Proof.
  intros Hok Hl x y. unfold x, y, spec_status, HandleUpdateWorkerPid, HandleReport.
  pose proof (simulates_refl d Hok) as Hd. destruct (st =? CORE_DUMP_START).
  - destruct (worker <=? 0); [done|]. destruct (GetSession pid d) as [s|] eqn:Es.
    + rewrite (on_job_session _ _ _ _ _ s Es). destruct (Start_simulates pid worker s d Es Hok) as [H1 H2].
      destruct (UpdateWorkerPid k pid worker d) as [ret d']. cbn [fst snd] in *. by subst ret.
    + rewrite on_job_none by done. unfold UpdateWorkerPid, service_UpdateWorkerPid. rewrite Es. cbn [snd]. by rewrite Es.
  - cbn [fst snd]. destruct (GetSession pid d) as [s|] eqn:Es.
    + rewrite (on_job_session _ _ _ _ _ s Es). split; [done|]. by apply Report_simulates.
    + rewrite on_job_none by done. unfold ReportResult, UpdateReport. rewrite Es. by rewrite Es.
Qed.

(** C10. The services implement the job specification: in a state whose sessions are well formed
    (live, without an error, with paths that fit), after a request the table of sessions is well
    formed again and stands for the jobs of the specification, and what the daemon sends, signals
    and closes is what the specification says, in that order.  The request is any file
    creation, any report with a path of fewer than 256 bytes, or any dump request with a deadline
    that leaves the delay queue a task of at least a second to accept (or no descriptor). *)
Theorem coredump_refines e r d :
  sessions_ok d → request_ok e r d →
  let x := spec_serve e (recently_crashed e d) r (jobs_of d) in
  simulates d (serve clock k e r d) (fst x) (snd x).
Proof.
  intros Hok Hr x. unfold x. destruct r as [sock fd pid endT action|sock fd pid worker st name code|type pid]; cbn [serve spec_serve fst snd].
  - unfold manager_OnRequest, ValidateRequest, trusted.
    destruct (0 <? pid); cbn [negb andb]; [|by apply simulates_emit, simulates_refl].
    destruct (String.eqb sock _); cbn [negb andb]; [|by apply simulates_emit, simulates_refl].
    destruct (IsAuthorizedUid e); cbn [negb]; [|by apply simulates_emit, simulates_refl].
    unfold CheckCrashFileRecord, recently_crashed. set (rs := ClearTimeOutRecords _ _).
    set (d1 := (d.1, mkCore (sessions_ d.2) rs (outputs d.2)) : DelayTaskQueue Z * core).
    destruct (existsb _ rs); [by apply (simulates_emit _ d d1), (simulates_refl d1)|].
    cbn [Z.eqb negb]. destruct (dump_simulates e fd pid endT action d1 Hok Hr) as [H1 H2].
    change (jobs_of d1) with (jobs_of d) in *.
    destruct (if action =? DO_CORE_DUMP then _ else _) as [res d2]. cbn [fst snd] in *. subst res.
    by apply (simulates_emit _ d d2).
  - unfold callback_OnRequest, callback_ValidateRequest, reporter.
    destruct (0 <? pid); cbn [negb andb]; [|by apply simulates_emit, simulates_refl].
    destruct (String.eqb sock _); cbn [negb andb]; [|by apply simulates_emit, simulates_refl].
    assert (Hb : negb (negb (st =? CORE_DUMP_START) || IsReporterWorker e worker) =
      (st =? CORE_DUMP_START) && negb (IsReporterWorker e worker)) by (by destruct (st =? _), (IsReporterWorker e worker)).
    rewrite Hb. destruct (_ && _); [by apply simulates_emit, simulates_refl|]. cbn [Z.eqb negb].
    destruct (status_simulates pid worker st name code d Hok Hr) as [H1 H2].
    destruct (if st =? CORE_DUMP_START then _ else _) as [res d2]. cbn [fst snd] in *. subst res.
    by apply (simulates_emit _ d d2).
  - unfold RecordFileCreation. by apply (simulates_refl d).
Qed.
End Refinement.

(** ** Particular behaviours *)
Section Behaviours.
Context (clock : nat → Z) (k : kernel).
Implicit Types d : DelayTaskQueue Z * core.

(** What an accepted dump request or report does. *)
Lemma serve_dump e sock fd pid endT action d :
  trusted e sock pid = true → recently_crashed e d pid = false →
  let d1 := (d.1, mkCore (sessions_ d.2) (ClearTimeOutRecords (real_s e) (crashFileRecords_ d.2)) (outputs d.2)) in
  let y := if action =? DO_CORE_DUMP then HandleCreateEvent clock k e pid endT d1
           else if action =? CANCEL_CORE_DUMP then HandleCancelEvent k pid d1 else (REQUEST_REJECT, d1) in
  serve clock k e (DumpRequest sock fd pid endT action) d = emit (SendCode fd (fst y)) (snd y).
Proof.
  intros [[H1 H2]%andb_true_iff H3]%andb_true_iff Hc d1 y. cbn [serve].
  unfold manager_OnRequest, ValidateRequest, CheckCrashFileRecord.
  rewrite H1, H2, H3. cbn [negb]. unfold recently_crashed in Hc. rewrite Hc. cbn [Z.eqb negb].
  fold d1. fold y. by destruct y.
Qed.


Lemma WriteResult_outputs sid d :
  outputs (snd (WriteResult k sid d)).2 = outputs d.2 ++
    match GetSession sid d with
    | None => []
    | Some s =>
        if (FILE_NAME_SIZE <=? length (filePath s))%nat then []
        else [SendResult (clientFd s) (filePath s) (errorCode s); Statistics (sessionId s) (workerPid s) (errorCode s)] ++
             (if clientFd s <? 0 then [] else [CloseFd (clientFd s)])
    end.
Proof.
  unfold WriteResult. destruct (GetSession sid d) as [s|] eqn:Es; [|by rewrite app_nil_r].
  destruct (FILE_NAME_SIZE <=? _)%nat; [by rewrite app_nil_r|].
  unfold send_result, ReportCoredumpStatistics, RemoveSession, CancelTimeout. rewrite Es.
  set (d1 := emit (SendResult _ _ _) d). change (GetSession sid d1) with (GetSession sid d). rewrite Es.
  set (d2 := emit (Statistics _ _ _) d1). change (GetSession sid d2) with (GetSession sid d). rewrite Es.
  unfold close_fd. destruct (clientFd s <? 0); cbn; by rewrite <- !app_assoc.
Qed.

(** A failed dump is announced like a successful one: the result code of a report has no
    influence on anything the daemon sends. *)
Theorem report_code_lost e sock fd pid worker st name code1 code2 d :
  outputs (serve clock k e (StatusReport sock fd pid worker st name code1) d).2 =
  outputs (serve clock k e (StatusReport sock fd pid worker st name code2) d).2.
Proof.
  cbn [serve]. unfold callback_OnRequest. destruct (negb _); [done|].
  destruct (st =? CORE_DUMP_START); [done|]. unfold HandleReport, ReportResult. cbn [snd emit outputs].
  f_equal. unfold UpdateReport. cbn [rp_filePath rp_errorCode rp_status].
  destruct (GetSession pid d) as [s|] eqn:Es; [|by rewrite Es].
  set (path := c_string _). rewrite (GetSession_update _ _ _ _ Es). set (d1 := update _ _ d).
  set (s1 := set_report path 0 s).
  assert (Hw : ∀ st1 st2, outputs (snd (WriteResult k (sessionId s1) (update (sessionId s1) (set_status st1) d1))).2 =
    outputs (snd (WriteResult k (sessionId s1) (update (sessionId s1) (set_status st2) d1))).2).
  { intros st1 st2. rewrite !WriteResult_outputs. unfold GetSession. rewrite !update_sessions, !lookup_alter_eq.
    by destruct (sessions_ d1.2 !! sessionId s1). }
  unfold HandleEvent. destruct (status s1); cbn [CreateState]; try done;
    destruct (code1 =? 0), (code2 =? 0); cbn; try done; apply Hw.
Qed.

(** The timeout task uses itself after it is destroyed: when the task that removes a session
    comes to run, [RemoveSession] erases that very task from the queue, and the closure then reads
    the session id it had captured. *)
Theorem timeout_use_after_free fuel id sid s l d :
  delayTasks_ d.1 = (id, sid) :: l → Forall (λ t, t.1 ≠ id) l →
  GetSession sid d = Some s → delayTaskId s = id → task_time (id, sid) <= clock (readings d.1) →
  timer clock k (S fuel) d = Undef UseAfterFree.
Proof.
  intros Hq Hl Hs Hid Hdue. unfold timer. cbn [OnTimer]. rewrite Hq. cbn [GetMicroSecondsSinceBoot].
  change (Z.land id TIMESTAMP_MASK) with (task_time (id, sid)). rewrite (proj2 (Z.ltb_ge _ _)) by done.
  unfold remove_task, RemoveSession, CancelTimeout.
  set (d1 := (_, d.2)). change (GetSession sid d1) with (GetSession sid d). rewrite Hs.
  assert (Hc : ∀ fd d2, delayTasks_ (close_fd fd d2).1 = delayTasks_ d2.1) by (intros; unfold close_fd; by case_match).
  rewrite Hc. cbn [with_sessions with_queue fst]. rewrite Hid.
  destruct (RemoveDelayTask_front k id sid l (fst d1)) as (E & _); [done|]. cbn [fst d1] in E |- *. rewrite E.
  replace (existsb _ l) with false; [done|]. symmetry. apply not_true_iff_false.
  intros (t & Ht & Et)%existsb_exists. rewrite list.Forall_forall in Hl.
  apply (Hl t); [by apply list_elem_of_In|]. by apply Z.eqb_eq.
Qed.

(** The deadline of a dump: the delay is the whole seconds left, at most 30; but from 2^31
    seconds on the 32-bit conversion turns negative, and the limit of 30 seconds is lost. *)
Theorem deadline_seconds endT cur :
  cur < endT < cur + 2 ^ 32 * 1000 →
  let n := (endT - cur) / 1000 in
  u32 (delay_seconds endT cur 30000) = if n <? 2 ^ 31 then Z.min n 30 else n.
Proof.
  intros H n. unfold delay_seconds. rewrite (proj2 (Z.ltb_lt _ _)) by lia. change (30000 / 1000) with 30. fold n.
  assert (Hn : 0 <= n < 2 ^ 32).
  { unfold n. split; [apply Z.div_pos; lia|apply Z.div_lt_upper_bound; lia]. }
  destruct (Z.ltb_spec n (2 ^ 31)).
  - rewrite swrap_small by (unfold sfits; lia). apply wrap_small. unfold fits. lia.
  - assert (E : s32 n = n - 2 ^ 32).
    { unfold swrap. rewrite <- (Z_mod_plus_full _ (-1)). rewrite Z.mod_small by lia. lia. }
    rewrite E, Z.min_l by lia. unfold wrap. rewrite <- (Z_mod_plus_full _ 1). rewrite Z.mod_small by lia. lia.
Qed.

(** A dump with less than a second left is accepted and dropped: the target is signalled and
    the client told of success, but the session is gone and the client's descriptor closed without
    a result. *)
Theorem short_deadline_dropped e sock fd pid endT d :
  trusted e sock pid = true → recently_crashed e d pid = false → GetSession pid d = None →
  0 <= dup_result e → endT < abs_ms e + 1000 →
  let d' := serve clock k e (DumpRequest sock fd pid endT DO_CORE_DUMP) d in
  GetSession pid d' = None ∧
  outputs d'.2 = outputs d.2 ++
    [DupFd (dup_result e); StartSignal pid; CloseFd (dup_result e); SendCode fd REQUEST_SUCCESS].
Proof.
  intros Ht Hc Hp Hd He d'. unfold d'. rewrite serve_dump by done. cbn [Z.eqb DO_CORE_DUMP].
  unfold HandleCreateEvent, CreateCoredump, CreateSession, ScheduleCancelTime.
  set (d1 := (d.1, _)). change (GetSession pid d1) with (GetSession pid d). rewrite Hp.
  destruct (Z.eqb_spec (dup_result e) (-1)); [lia|]. cbn [targetPid rq_clientFd rq_endTime snd fst].
  change (GetSession pid (emit (DupFd (dup_result e)) d1)) with (GetSession pid d). rewrite Hp.
  set (s := mkSession _ _ _ _ _ _ _ _ _ _). set (d2 := emit (StartSignal pid) _).
  assert (Hs : GetSession pid d2 = Some s) by apply lookup_insert_eq. rewrite Hs. cbn [endTime s].
  assert (E0 : delay_seconds endT (abs_ms e) (30 * 1000) = 0).
  { unfold delay_seconds. destruct (Z.ltb_spec (abs_ms e) endT); [|done]. rewrite Z.div_small by lia. done. }
  rewrite E0. change (u32 0) with 0. unfold AddDelayTask. cbn [Z.eqb with_queue].
  rewrite (RemoveSession_eq k pid s) by done. split; [apply lookup_delete_eq|]. cbn. by rewrite <- !app_assoc.
Qed.




End Behaviours.

(** ** Examples *)

(** A client (uid 1202) asks for a dump of process 77 with ten seconds left; process 900, the
    dumper, reports its start. *)
Definition client_env : env := mkEnv (Some (1202, 50)) 12 5000 100000 100.
Definition dumper_env : env := mkEnv (Some (0, 900)) (-1) 6000 101000 101.
Definition ask : request := DumpRequest SERVER_SOCKET_NAME 5 77 15000 DO_CORE_DUMP.
Definition start : request := StatusReport SERVER_CRASH_SOCKET_NAME 6 77 900 CORE_DUMP_START [] 0.
Definition asked : DelayTaskQueue Z * core := serve ticks all_ok client_env ask daemon_new.
Definition running : DelayTaskQueue Z * core := serve ticks all_ok dumper_env start asked.

Lemma client_protocol_witness :
  fd_run ∅ ∅ (outputs running.2) = Some (client_fds (sessions_ running.2), ∅).
Proof.
  apply (client_protocol ticks all_ok). apply reach_serve; [|by left].
  apply reach_serve; [constructor|]. right. split; [by vm_compute|].
  rewrite elem_of_client_fds. intros (sid & s & H & _). by rewrite (lookup_empty sid : sessions_ daemon_new.2 !! sid = None) in H.
Defined.

Definition running_session : CoredumpSession :=
  Eval vm_compute in default (mkSession 0 0 false PENDING [] 0 0 0 0 0) (GetSession 77 running).

Lemma running_lookup : sessions_ running.2 = {[ 77 := running_session ]}.
Proof. by vm_compute. Qed.

Lemma coredump_refines_witness :
  let r := StatusReport SERVER_CRASH_SOCKET_NAME 6 77 900 2 [47; 120; 0] 3 in
  let x := spec_serve dumper_env (recently_crashed dumper_env running) r (jobs_of running) in
  simulates running (serve ticks all_ok dumper_env r running) (fst x) (snd x).
Proof.
  intros r x. apply (coredump_refines ticks all_ok dumper_env r running).
  - unfold sessions_ok. rewrite running_lookup. apply map_Forall_singleton.
    unfold session_ok, active. split; [done|]. split; [by vm_compute|]. split; [by right; left|]. split; [done|].
    apply Nat.ltb_lt. by vm_compute.
  - apply Nat.ltb_lt. by vm_compute.
Defined.

Lemma timeout_use_after_free_witness :
  timer (λ n, ticks (n + 20)) all_ok 1 asked = Undef UseAfterFree.
Proof.
  apply (timeout_use_after_free (λ n, ticks (n + 20)) all_ok 0 12000000 77
    (default (mkSession 0 0 false PENDING [] 0 0 0 0 0) (GetSession 77 asked)) []).
  - by vm_compute.
  - constructor.
  - by vm_compute.
  - by vm_compute.
  - by vm_compute.
Defined.

Lemma deadline_seconds_witness :
  u32 (delay_seconds 9000 5000 30000) = 4 ∧
  u32 (delay_seconds (2 ^ 31 * 1000 + 5000) 5000 30000) = 2 ^ 31.
Proof.
  split; [apply (deadline_seconds 9000 5000); lia|apply (deadline_seconds (2 ^ 31 * 1000 + 5000) 5000); lia].
Defined.

Lemma short_deadline_dropped_witness :
  let d' := serve ticks all_ok client_env (DumpRequest SERVER_SOCKET_NAME 5 77 5999 DO_CORE_DUMP) daemon_new in
  GetSession 77 d' = None ∧
  outputs d'.2 = [DupFd 12; StartSignal 77; CloseFd 12; SendCode 5 REQUEST_SUCCESS].
Proof.
  apply (short_deadline_dropped ticks all_ok client_env SERVER_SOCKET_NAME 5 77 5999 daemon_new);
    [by vm_compute|by vm_compute|done|by vm_compute|by vm_compute].
Defined.

