(* ===== verification/Pipes.v ===== *)
(** * Pipes handed to dumpers and their clients

    services/fault_logger_pipe.cpp and the services over it (services/fault_logger_service.cpp:
    [SdkDumpService], [PipeService], [LitePerfPipeService], [LiteProcDumperPipeService]).  The
    daemon makes the pipes between a process that is dumped and the client that asked for it, keeps
    them in three lists, and hands the write end of each out once. *)
From S2P Require Import Prelude Tasks Coredump.

Definition RESOURCE_LIMIT : Z := 13.
Definition SDK_DUMP_REPEAT : Z := 5.
Definition SDK_PROCESS_CRASHED : Z := 7.
Definition SERVER_SDKDUMP_SOCKET_NAME : string := "faultloggerd.sdkdump.server".
Definition MAX_LITE_PERF_PIPE_SIZE : nat := 100.
Definition LITE_DUMP_LIMIT_ONE_DAY : Z := 60.
Definition ONE_DAY_SEC : Z := 24 * 60 * 60.
Definition PIPE_FD_READ : Z := 0.
Definition PIPE_FD_WRITE : Z := 1.
Definition PIPE_FD_DELETE : Z := 2.

(** ** FaultLoggerPipe *)
Record FaultLoggerPipe := mkPipe { write_ : bool; readFd_ : Z; writeFd_ : Z }.

(** The constructor: [pipe2] gives two descriptors or fails. *)
Definition FaultLoggerPipe_new (fds : option (Z * Z)) : FaultLoggerPipe :=
  match fds with Some (r, w) => mkPipe false r w | None => mkPipe false (-1) (-1) end.

Definition GetReadFd (p : FaultLoggerPipe) : Z := readFd_ p.
Definition GetWriteFd (p : FaultLoggerPipe) : Z * FaultLoggerPipe :=
  if write_ p then (-1, p) else (writeFd_ p, mkPipe true (readFd_ p) (writeFd_ p)).

(** ** The pairs

    [FaultLoggerPipePair] (key: pid, time: of the request, ms), [LitePerfPipePair] (key: uid,
    time: of the timeout, us) and, with one pipe, [LimitedPipePair] (key: pid). *)
Record PipePair := mkPair { p_key : Z; p_time : Z; pipeBuf : FaultLoggerPipe; pipeRes : FaultLoggerPipe }.
Record LimitedPipePair := mkLimited { lp_pid : Z; lp_pipe : FaultLoggerPipe }.

(** [GetPipeFd] of both pipes, buffer first: the descriptors and the pair. *)
Definition GetPipeFds (pipeType : Z) (p : PipePair) : Z * Z * PipePair :=
  if pipeType =? PIPE_FD_READ then (GetReadFd (pipeBuf p), GetReadFd (pipeRes p), p)
  else if pipeType =? PIPE_FD_WRITE then
    let '(b, buf) := GetWriteFd (pipeBuf p) in
    let '(r, res) := GetWriteFd (pipeRes p) in
    (b, r, mkPair (p_key p) (p_time p) buf res)
  else (-1, -1, p).

Definition limited_GetPipeFd (pipeType : Z) (p : LimitedPipePair) : Z * LimitedPipePair :=
  if pipeType =? PIPE_FD_READ then (GetReadFd (lp_pipe p), p)
  else if pipeType =? PIPE_FD_WRITE then
    let '(w, q) := GetWriteFd (lp_pipe p) in (w, mkLimited (lp_pid p) q)
  else (-1, p).

Definition IsValid (checkTime : Z) (p : PipePair) : bool := checkTime <=? u64 (p_time p + 10000).

(** The first pair of a key ([find_if]), an update through its address, and [remove_if]. *)
Definition find_pair (key : Z) (l : list PipePair) : option PipePair := List.find (λ p, p_key p =? key) l.
Fixpoint update_pair (key : Z) (f : PipePair → PipePair) (l : list PipePair) : list PipePair :=
  match l with [] => [] | p :: l' => if p_key p =? key then f p :: l' else p :: update_pair key f l' end.
Definition find_limited (pid : Z) (l : list LimitedPipePair) : option LimitedPipePair :=
  List.find (λ p, lp_pid p =? pid) l.
Fixpoint update_limited (pid : Z) (f : LimitedPipePair → LimitedPipePair) (l : list LimitedPipePair)
  : list LimitedPipePair :=
  match l with [] => [] | p :: l' => if lp_pid p =? pid then f p :: l' else p :: update_limited pid f l' end.

(** The signal that asks a process to dump itself: the fields of [siginfo_t] that the daemon sets. *)
Record siginfo := mkSiginfo { si_code : Z; si_value : Z; si_pid : Z; si_uid : Z }.

Record SdkDumpRequestData := mkSdkDump {
  sd_pid : Z; sd_tid : Z; sd_callerTid : Z; sd_sigCode : Z; sd_time : Z; sd_endTime : Z
}.

(** [si_value] holds the thread to dump or, for a whole process on a 64-bit platform ([ptr64]), the
    end of the dump with the top bit set. *)
Definition sdk_siginfo (ptr64 : bool) (r : SdkDumpRequestData) (peerPid : Z) : siginfo :=
  mkSiginfo (sd_sigCode r)
    (if (sd_tid r =? 0) && ptr64 then Z.lor (u64 (sd_endTime r)) (2 ^ 63) else u32 (sd_tid r))
    peerPid (u32 (sd_callerTid r)).

(** What happens to pipes, in order. *)
Inductive pipe_event :=
| Opened (r w : Z)
| Closed (r w : Z)
| Sent (fds : list Z)
| Signalled (pid : Z) (si : siginfo).

(** The delayed tasks of these services. *)
Inductive pipe_task :=
| ClearTimeOutPairsTask
| DelPipePairTask (pid : Z)
| ClearLaunchMapTask.

Record pipes := mkPipes {
  sdkDumpPipes_ : list PipePair;
  litePipes_ : list PipePair;
  limitedPipes_ : list LimitedPipePair;
  perfCountsMap_ : gmap Z Z;
  devicePerfCount : Z;
  launchLiteDumpPipeMap_ : gmap Z Z;
  p_events : list pipe_event
}.

Definition set_sdk (l : list PipePair) (s : pipes) : pipes :=
  mkPipes l (litePipes_ s) (limitedPipes_ s) (perfCountsMap_ s) (devicePerfCount s) (launchLiteDumpPipeMap_ s) (p_events s).
Definition set_lite (l : list PipePair) (s : pipes) : pipes :=
  mkPipes (sdkDumpPipes_ s) l (limitedPipes_ s) (perfCountsMap_ s) (devicePerfCount s) (launchLiteDumpPipeMap_ s) (p_events s).
Definition set_limited (l : list LimitedPipePair) (s : pipes) : pipes :=
  mkPipes (sdkDumpPipes_ s) (litePipes_ s) l (perfCountsMap_ s) (devicePerfCount s) (launchLiteDumpPipeMap_ s) (p_events s).
Definition set_counts (m : gmap Z Z) (n : Z) (s : pipes) : pipes :=
  mkPipes (sdkDumpPipes_ s) (litePipes_ s) (limitedPipes_ s) m n (launchLiteDumpPipeMap_ s) (p_events s).
Definition set_launch (m : gmap Z Z) (s : pipes) : pipes :=
  mkPipes (sdkDumpPipes_ s) (litePipes_ s) (limitedPipes_ s) (perfCountsMap_ s) (devicePerfCount s) m (p_events s).
Definition note (es : list pipe_event) (s : pipes) : pipes :=
  mkPipes (sdkDumpPipes_ s) (litePipes_ s) (limitedPipes_ s) (perfCountsMap_ s) (devicePerfCount s)
    (launchLiteDumpPipeMap_ s) (p_events s ++ es).

(** Construction and destruction, as events. *)
Definition opened (p : FaultLoggerPipe) : list pipe_event :=
  if readFd_ p <? 0 then [] else [Opened (readFd_ p) (writeFd_ p)].
Definition closed (p : FaultLoggerPipe) : list pipe_event :=
  if readFd_ p <? 0 then [] else [Closed (readFd_ p) (writeFd_ p)].
Definition opened_pair (p : PipePair) : list pipe_event := opened (pipeBuf p) ++ opened (pipeRes p).
Definition closed_pair (p : PipePair) : list pipe_event := closed (pipeRes p) ++ closed (pipeBuf p).

(** The pipes a request may make: the results of the [pipe2] calls, buffer first. *)
Record pipe2s := mkPipe2s { pipe2_buf : option (Z * Z); pipe2_res : option (Z * Z) }.

(** ** FaultLoggerPipePair *)
Definition CreateSdkDumpPipePair (e : pipe2s) (pid requestTime : Z) (s : pipes) : pipes :=
  match find_pair pid (sdkDumpPipes_ s) with
  | Some _ => s
  | None =>
      let p := mkPair pid requestTime (FaultLoggerPipe_new (pipe2_buf e)) (FaultLoggerPipe_new (pipe2_res e)) in
      note (opened_pair p) (set_sdk (sdkDumpPipes_ s ++ [p]) s)
  end.

Definition CheckSdkDumpRecord (pid checkTime : Z) (s : pipes) : bool * pipes :=
  match find_pair pid (sdkDumpPipes_ s) with
  | None => (false, s)
  | Some p =>
      if IsValid checkTime p then (true, s)
      else (false, note (closed_pair p)
                     (set_sdk (default [] (erase_first (λ p, p_key p =? pid) (sdkDumpPipes_ s))) s))
  end.

Definition DelSdkDumpPipePair (pid : Z) (s : pipes) : pipes :=
  note (concat (map closed_pair (filter (λ p, p_key p = pid) (sdkDumpPipes_ s))))
    (set_sdk (filter (λ p, p_key p ≠ pid) (sdkDumpPipes_ s)) s).

(** ** LitePerfPipePair *)
Definition lite_CreatePipePair (e : pipe2s) (uid timeOutTime : Z) (s : pipes) : pipes :=
  match find_pair uid (litePipes_ s) with
  | Some _ => s
  | None =>
      let p := mkPair uid timeOutTime (FaultLoggerPipe_new (pipe2_buf e)) (FaultLoggerPipe_new (pipe2_res e)) in
      note (opened_pair p) (set_lite (litePipes_ s ++ [p]) s)
  end.

Definition CheckDumpMax (s : pipes) : bool := (MAX_LITE_PERF_PIPE_SIZE <? length (litePipes_ s))%nat.
Definition CheckDumpRecord (uid : Z) (s : pipes) : bool := bool_decide (is_Some (find_pair uid (litePipes_ s))).

Definition lite_DelPipePair (uid : Z) (s : pipes) : pipes :=
  note (concat (map closed_pair (filter (λ p, p_key p = uid) (litePipes_ s))))
    (set_lite (filter (λ p, p_key p ≠ uid) (litePipes_ s)) s).

Definition ClearTimeOutPairs (now : Z) (s : pipes) : pipes :=
  note (concat (map closed_pair (filter (λ p, p_time p <= now) (litePipes_ s))))
    (set_lite (filter (λ p, now < p_time p) (litePipes_ s)) s).

(** ** LimitedPipePair *)
Definition limited_CreatePipePair (e : pipe2s) (pid : Z) (s : pipes) : pipes :=
  match find_limited pid (limitedPipes_ s) with
  | Some _ => s
  | None =>
      let p := mkLimited pid (FaultLoggerPipe_new (pipe2_buf e)) in
      note (opened (lp_pipe p)) (set_limited (limitedPipes_ s ++ [p]) s)
  end.

Definition limited_DelPipePair (pid : Z) (s : pipes) : pipes :=
  note (concat (map (closed ∘ lp_pipe) (filter (λ p, lp_pid p = pid) (limitedPipes_ s))))
    (set_limited (filter (λ p, lp_pid p ≠ pid) (limitedPipes_ s)) s).

(** ** The services

    Arguments of the handlers: [peer], the peer's credentials (uid, pid) when the socket gives
    them, the pipes that are made, and the outcome of what the services ask of others. *)
Definition CheckCallerUID (callerUid : Z) : bool :=
  existsb (Z.eqb callerUid) [0; 1000; 1201; 1202; 1212; 5523; 7400].

Abbreviation service := (DelayTaskQueue pipe_task * pipes)%type.
Abbreviation response := (Z * (DelayTaskQueue pipe_task * pipes))%type.

Definition on_pipes (f : pipes → pipes) (d : service) : service := (d.1, f d.2).

(** [SdkDumpService::Filter] and [OnRequest]; [crashed] is the crash record of the process,
    [signalled] the result of [SendSignalToProcess]. *)
Definition sdk_Filter (crashed : bool) (socketName : string) (pid time uid : Z) (s : pipes) : Z * pipes :=
  if (pid <=? 0) || negb (String.eqb socketName SERVER_SDKDUMP_SOCKET_NAME) || negb (CheckCallerUID uid)
  then (REQUEST_REJECT, s)
  else if crashed then (SDK_PROCESS_CRASHED, s)
  else
    let '(dumping, s) := CheckSdkDumpRecord pid time s in
    (if dumping then SDK_DUMP_REPEAT else REQUEST_SUCCESS, s).

Definition sdk_OnRequest (peer : option (Z * Z)) (crashed ptr64 : bool) (signalled : Z) (e : pipe2s)
  (socketName : string) (r : SdkDumpRequestData) (d : service) : response :=
  let pid := sd_pid r in
  let time := sd_time r in
  match peer with
  | None => (REQUEST_REJECT, d)
  | Some (uid, peerPid) =>
      let '(code, s) := sdk_Filter crashed socketName pid time uid d.2 in
      if negb (code =? REQUEST_SUCCESS) then (code, (d.1, s))
      else
        let s := note [Signalled pid (sdk_siginfo ptr64 r peerPid)] (CreateSdkDumpPipePair e pid time s) in
        if negb (signalled =? REQUEST_SUCCESS) then (signalled, (d.1, DelSdkDumpPipePair pid s))
        else
          match find_pair pid (sdkDumpPipes_ s) with
          | None => (ABNORMAL_SERVICE, (d.1, s))
          | Some p =>
              let '(bufFd, resFd, _) := GetPipeFds PIPE_FD_READ p in
              if (bufFd <? 0) || (resFd <? 0) then (ABNORMAL_SERVICE, (d.1, DelSdkDumpPipePair pid s))
              else (REQUEST_SUCCESS, (d.1, note [Sent [bufFd; resFd]] s))
          end
  end.

(** [PipeService]: every request that is not a deletion gets the write ends. *)
Definition pipe_Filter (socketName : string) (uid pipeType : Z) : bool :=
  if (PIPE_FD_DELETE <? pipeType) || (pipeType <? PIPE_FD_READ) then false
  else if String.eqb socketName SERVER_CRASH_SOCKET_NAME then true
  else CheckCallerUID uid.

Definition pipe_OnRequest (peer : option (Z * Z)) (socketName : string) (pid pipeType : Z) (d : service) : response :=
  match peer with
  | None => (REQUEST_REJECT, d)
  | Some (uid, _) =>
      if negb (pipe_Filter socketName uid pipeType) then (REQUEST_REJECT, d)
      else if pipeType =? PIPE_FD_DELETE then (REQUEST_SUCCESS, on_pipes (DelSdkDumpPipePair pid) d)
      else
        match find_pair pid (sdkDumpPipes_ d.2) with
        | None => (ABNORMAL_SERVICE, d)
        | Some p =>
            let '(b, r, p') := GetPipeFds PIPE_FD_WRITE p in
            let s := set_sdk (update_pair pid (λ _, p') (sdkDumpPipes_ d.2)) d.2 in
            if (b <? 0) || (r <? 0) then (ABNORMAL_SERVICE, (d.1, s))
            else (REQUEST_SUCCESS, (d.1, note [Sent [b; r]] s))
        end
  end.

(** [PerfResourceLimiter::CheckPerfLimit]: [perfCountsMap_[uid]] makes an entry. *)
Definition limiter_CheckPerfLimit (uid : Z) (s : pipes) : Z * pipes :=
  if 50 <=? devicePerfCount s then (RESOURCE_LIMIT, s)
  else
    let perfCount := default 0 (perfCountsMap_ s !! uid) in
    if 20 <=? perfCount
    then (RESOURCE_LIMIT, set_counts (<[uid := perfCount]> (perfCountsMap_ s)) (devicePerfCount s) s)
    else (REQUEST_SUCCESS, set_counts (<[uid := perfCount + 1]> (perfCountsMap_ s)) (devicePerfCount s + 1) s).

Definition CheckPerfLimit (uid : Z) (checkLimit : bool) (s : pipes) : Z * pipes :=
  if CheckDumpMax s then (RESOURCE_LIMIT, s)
  else if CheckDumpRecord uid s then (SDK_DUMP_REPEAT, s)
  else if negb checkLimit then (REQUEST_SUCCESS, s)
  else limiter_CheckPerfLimit uid s.

Definition lite_Filter (peer : option (Z * Z)) (uid pipeType : Z) : bool :=
  if (PIPE_FD_DELETE <? pipeType) || (pipeType <? PIPE_FD_READ) then false
  else match peer with None => false | Some (puid, _) => puid =? uid end.

(** The daily timer of the [PerfResourceLimiter] constructor. *)
Definition perf_reset (s : pipes) : pipes := set_counts ∅ 0 s.

Definition maxPerfTimeout : Z := (10000 + 5000) / 1000.

Section Services.
Context (clock : nat → Z) (k : kernel).

Definition lite_OnRequest (peer : option (Z * Z)) (e : pipe2s) (uid pipeType timeout : Z) (checkLimit : bool)
  (d : service) : response :=
  let answer (b r : Z) (d : service) : response :=
    if (b <? 0) || (r <? 0) then (ABNORMAL_SERVICE, d) else (REQUEST_SUCCESS, on_pipes (note [Sent [b; r]]) d) in
  if negb (lite_Filter peer uid pipeType) then (REQUEST_REJECT, d)
  else if pipeType =? PIPE_FD_DELETE then (REQUEST_SUCCESS, on_pipes (lite_DelPipePair uid) d)
  else if pipeType =? PIPE_FD_READ then
    let '(code, s) := CheckPerfLimit uid checkLimit d.2 in
    if negb (code =? REQUEST_SUCCESS) then (code, (d.1, s))
    else
      let '(currentTime, q) := GetMicroSecondsSinceBoot clock d.1 in
      if timeout <? 0 then (ABNORMAL_SERVICE, (q, s))
      else
        let delayTime := Z.min timeout maxPerfTimeout in
        let timeOutTime := u64 (currentTime + delayTime * US_PER_S) in
        let s := lite_CreatePipePair e uid timeOutTime s in
        match find_pair uid (litePipes_ s) with
        | None => (ABNORMAL_SERVICE, (q, s))
        | Some p =>
            let '(b, r, _) := GetPipeFds PIPE_FD_READ p in
            answer b r (snd (AddDelayTask clock k ClearTimeOutPairsTask delayTime q), s)
        end
  else
    match find_pair uid (litePipes_ d.2) with
    | None => (ABNORMAL_SERVICE, d)
    | Some p =>
        let '(b, r, p') := GetPipeFds PIPE_FD_WRITE p in
        answer b r (on_pipes (set_lite (update_pair uid (λ _, p') (litePipes_ d.2))) d)
    end.

(** [LiteProcDumperPipeService]; [name_ok] is the result of [CheckProcessName]. *)
Definition GetRealUid (uid : Z) : Z :=
  if (1000001 <=? uid) && (uid <=? 1099999) then 1000001 else uid.

Definition limited_Filter (peer : option (Z * Z)) (name_ok : bool) (pid pipeType : Z) (s : pipes) : bool * pipes :=
  match peer with
  | None => (false, s)
  | Some (puid, ppid) =>
      if negb (ppid =? pid) && negb (CheckCallerUID puid) then (false, s)
      else
        let uid := GetRealUid puid in
        let count := default 0 (launchLiteDumpPipeMap_ s !! uid) in
        let s := set_launch (<[uid := count + 1]> (launchLiteDumpPipeMap_ s)) s in
        if LITE_DUMP_LIMIT_ONE_DAY * 3 <=? count then (false, s)
        else if (pipeType =? PIPE_FD_DELETE) || (pipeType =? PIPE_FD_READ) then (true, s)
        else if negb (pipeType =? PIPE_FD_WRITE) then (false, s)
        else (name_ok, s)
  end.

Definition limited_OnRequest (peer : option (Z * Z)) (e : pipe2s) (name_ok : bool) (pid pipeType : Z)
  (d : service) : response :=
  let q := if bool_decide (launchLiteDumpPipeMap_ d.2 = ∅)
           then snd (AddDelayTask clock k ClearLaunchMapTask ONE_DAY_SEC d.1) else d.1 in
  let '(ok, s) := limited_Filter peer name_ok pid pipeType d.2 in
  let answer (fd : Z) (s : pipes) : response :=
    if fd <? 0 then (ABNORMAL_SERVICE, (q, limited_DelPipePair pid s))
    else (REQUEST_SUCCESS, (snd (AddDelayTask clock k (DelPipePairTask pid) 10 q), note [Sent [fd]] s)) in
  if negb ok then (REQUEST_REJECT, (q, s))
  else if pipeType =? PIPE_FD_DELETE then (REQUEST_SUCCESS, (q, limited_DelPipePair pid s))
  else if pipeType =? PIPE_FD_WRITE then
    match find_limited pid (limitedPipes_ s) with
    | Some _ => (SDK_DUMP_REPEAT, (q, s))
    | None =>
        let s := limited_CreatePipePair e pid s in
        match find_limited pid (limitedPipes_ s) with
        | None => (ABNORMAL_SERVICE, (q, s))
        | Some p =>
            let '(fd, p') := limited_GetPipeFd PIPE_FD_WRITE p in
            answer fd (set_limited (update_limited pid (λ _, p') (limitedPipes_ s)) s)
        end
    end
  else
    match find_limited pid (limitedPipes_ s) with
    | None => (REQUEST_REJECT, (q, s))
    | Some p => answer (fst (limited_GetPipeFd PIPE_FD_READ p)) s
    end.

(** The delayed tasks: they get the time of their own reading of the clock. *)
Definition run_task (id : Z) (t : pipe_task) (d : service) : outcome service :=
  match t with
  | ClearTimeOutPairsTask =>
      let '(now, q) := GetMicroSecondsSinceBoot clock d.1 in Ret (q, ClearTimeOutPairs now d.2)
  | DelPipePairTask pid => Ret (on_pipes (limited_DelPipePair pid) d)
  | ClearLaunchMapTask => Ret (on_pipes (set_launch ∅) d)
  end.
End Services.

(** ** The requests and the timer *)
Inductive pipe_request :=
| SdkDump (peer : option (Z * Z)) (crashed ptr64 : bool) (signalled : Z) (e : pipe2s) (sock : string)
    (r : SdkDumpRequestData)
| GetPipe (peer : option (Z * Z)) (sock : string) (pid pipeType : Z)
| LitePerf (peer : option (Z * Z)) (e : pipe2s) (uid pipeType timeout : Z) (checkLimit : bool)
| LiteDump (peer : option (Z * Z)) (e : pipe2s) (name_ok : bool) (pid pipeType : Z)
| TaskRuns (t : pipe_task)
| ResetTimer.

Section Invariant.
Context (clock : nat → Z) (k : kernel).
Implicit Types d : DelayTaskQueue pipe_task * pipes.

Definition pipe_serve (r : pipe_request) d : DelayTaskQueue pipe_task * pipes :=
  match r with
  | SdkDump peer crashed ptr64 signalled e sock r => snd (sdk_OnRequest peer crashed ptr64 signalled e sock r d)
  | GetPipe peer sock pid type => snd (pipe_OnRequest peer sock pid type d)
  | LitePerf peer e uid type timeout check => snd (lite_OnRequest clock k peer e uid type timeout check d)
  | LiteDump peer e ok pid type => snd (limited_OnRequest clock k peer e ok pid type d)
  | TaskRuns t => match run_task clock 0 t d with Ret d => d | _ => d end
  | ResetTimer => on_pipes perf_reset d
  end.

(** The sum of the counters. *)
Definition total (m : gmap Z Z) : Z := map_fold (λ _ v acc, v + acc) 0 m.

Lemma total_insert i x (m : gmap Z Z) : total (<[i := x]> m) = x + total (delete i m).
Proof.
  rewrite <- insert_delete_eq. unfold total.
  apply (map_fold_insert_L (λ _ v acc, v + acc) 0 i x (delete i m)); [lia|apply lookup_delete_eq].
Qed.

Lemma total_delete i (m : gmap Z Z) : total m = default 0 (m !! i) + total (delete i m).
Proof.
  destruct (m !! i) as [x|] eqn:E; simpl; [|by rewrite delete_id].
  rewrite <- (insert_id m i x) at 1 by done. apply total_insert.
Qed.

(** One pair per process or user, and the quotas of a day: 20 per user, 50 in all, the total being
    the sum. *)
Record pipes_ok (s : pipes) : Prop := {
  po_sdk : NoDup (map p_key (sdkDumpPipes_ s));
  po_lite : NoDup (map p_key (litePipes_ s));
  po_limited : NoDup (map lp_pid (limitedPipes_ s));
  po_max : (length (litePipes_ s) <= MAX_LITE_PERF_PIPE_SIZE + 1)%nat;
  po_uid : map_Forall (λ _ c, 0 <= c <= 20) (perfCountsMap_ s);
  po_total : devicePerfCount s = total (perfCountsMap_ s);
  po_device : devicePerfCount s <= 50
}.

Lemma NoDup_keys_filter {A} (key : A → Z) (P : A → Prop) `{∀ x, Decision (P x)} (l : list A) :
  NoDup (map key l) → NoDup (map key (filter P l)).
Proof.
  induction l as [|a l IH]; [done|]. cbn [map]. rewrite list.NoDup_cons. intros [Ha Hl]. rewrite filter_cons.
  case_decide; [|by apply IH]. cbn [map]. constructor; [|by apply IH].
  rewrite list_elem_of_In, in_map_iff in *. intros (b & Eb & Hb). apply Ha. exists b. split; [done|].
  apply list_elem_of_In. apply list_elem_of_In in Hb. by apply list_elem_of_filter in Hb as [_ Hb].
Qed.

Lemma NoDup_keys_snoc {A} (key : A → Z) (a : A) (l : list A) :
  NoDup (map key l) → List.find (λ x, key x =? key a) l = None → NoDup (map key (l ++ [a])).
Proof.
  intros Hl Hf. rewrite map_app. apply list.NoDup_app. split; [done|]. split; [|apply NoDup_singleton].
  intros x Hx Hs. apply list_elem_of_singleton in Hs as ->. rewrite list_elem_of_In, in_map_iff in Hx.
  destruct Hx as (b & Eb & Hb). apply (List.find_none _ _ Hf b) in Hb. lia.
Qed.

Lemma update_pair_keys key p' l : p_key p' = key → map p_key (update_pair key (λ _, p') l) = map p_key l.
Proof.
  intros Hk. induction l as [|p l IH]; [done|]. cbn [update_pair]. destruct (Z.eqb_spec (p_key p) key) as [E|]; cbn [map].
  - by rewrite Hk, E.
  - by rewrite IH.
Qed.

Lemma update_limited_keys pid p' l : lp_pid p' = pid → map lp_pid (update_limited pid (λ _, p') l) = map lp_pid l.
Proof.
  intros Hk. induction l as [|p l IH]; [done|]. cbn [update_limited]. destruct (Z.eqb_spec (lp_pid p) pid) as [E|]; cbn [map].
  - by rewrite Hk, E.
  - by rewrite IH.
Qed.

Lemma NoDup_keys_erase {A} (key : A → Z) f (l l' : list A) :
  NoDup (map key l) → erase_first f l = Some l' → NoDup (map key l').
Proof.
  intros H (l1 & b & l2 & -> & -> & _)%erase_first_split. rewrite map_app in *. cbn [map] in H.
  apply list.NoDup_app in H as (H1 & H2 & [_ H3]%list.NoDup_cons). apply list.NoDup_app. split; [done|]. split; [|done].
  intros x Hx Hx2. apply (H2 x Hx). by constructor.
Qed.

Lemma GetPipeFds_key t p : p_key (snd (GetPipeFds t p)) = p_key p.
Proof. unfold GetPipeFds. repeat case_match; done. Qed.

Lemma find_pair_key key l p : find_pair key l = Some p → p_key p = key.
Proof. intros [_ H]%List.find_some. lia. Qed.

Lemma note_ok es s : pipes_ok s → pipes_ok (note es s).
Proof. by intros []. Qed.

Lemma set_sdk_ok l s : NoDup (map p_key l) → pipes_ok s → pipes_ok (set_sdk l s).
Proof. by intros ? []. Qed.

Lemma set_lite_ok l s :
  NoDup (map p_key l) → (length l <= MAX_LITE_PERF_PIPE_SIZE + 1)%nat → pipes_ok s → pipes_ok (set_lite l s).
Proof. by intros ? ? []. Qed.

Lemma set_limited_ok l s : NoDup (map lp_pid l) → pipes_ok s → pipes_ok (set_limited l s).
Proof. by intros ? []. Qed.

Lemma set_launch_ok m s : pipes_ok s → pipes_ok (set_launch m s).
Proof. by intros []. Qed.

Lemma Sdk_ops_ok pid s : pipes_ok s →
  pipes_ok (DelSdkDumpPipePair pid s) ∧ (∀ e t, pipes_ok (CreateSdkDumpPipePair e pid t s)) ∧
  (∀ t, pipes_ok (snd (CheckSdkDumpRecord pid t s))).
Proof.
  intros H. pose proof (po_sdk _ H). split; [|split].
  - by apply note_ok, set_sdk_ok, H; apply NoDup_keys_filter.
  - intros e t. unfold CreateSdkDumpPipePair. destruct (find_pair pid _) eqn:E; [done|].
    by apply note_ok, set_sdk_ok, H; apply NoDup_keys_snoc.
  - intros t. unfold CheckSdkDumpRecord. destruct (find_pair pid _) eqn:E; [|done]. case_match; [done|].
    apply note_ok, set_sdk_ok, H. destruct (erase_first _ _) eqn:Ee; simpl; [by eapply NoDup_keys_erase|constructor].
Qed.

Lemma Lite_ops_ok uid s : pipes_ok s →
  pipes_ok (lite_DelPipePair uid s) ∧ (∀ now, pipes_ok (ClearTimeOutPairs now s)) ∧
  (CheckDumpMax s = false → ∀ e t, pipes_ok (lite_CreatePipePair e uid t s)).
Proof.
  intros H. pose proof (po_lite _ H). pose proof (po_max _ H). split; [|split].
  - apply note_ok, set_lite_ok, H; [by apply NoDup_keys_filter|]. etrans; [apply length_filter|done].
  - intros now. apply note_ok, set_lite_ok, H; [by apply NoDup_keys_filter|]. etrans; [apply length_filter|done].
  - intros Hm e t. unfold lite_CreatePipePair. destruct (find_pair uid _) eqn:E; [done|].
    apply note_ok, set_lite_ok, H; [by apply NoDup_keys_snoc|]. rewrite length_app. cbn [length].
    unfold CheckDumpMax in Hm. apply Nat.ltb_ge in Hm. lia.
Qed.

Lemma Limited_ops_ok pid s : pipes_ok s →
  pipes_ok (limited_DelPipePair pid s) ∧ (∀ e, pipes_ok (limited_CreatePipePair e pid s)).
Proof.
  intros H. pose proof (po_limited _ H). split.
  - by apply note_ok, set_limited_ok, H; apply NoDup_keys_filter.
  - intros e. unfold limited_CreatePipePair. destruct (find_limited pid _) eqn:E; [done|].
    by apply note_ok, set_limited_ok, H; apply NoDup_keys_snoc.
Qed.

Lemma CheckPerfLimit_ok uid check s :
  pipes_ok s → pipes_ok (snd (CheckPerfLimit uid check s)) ∧
  (fst (CheckPerfLimit uid check s) = REQUEST_SUCCESS → CheckDumpMax (snd (CheckPerfLimit uid check s)) = false).
Proof.
  intros H. unfold CheckPerfLimit. destruct (CheckDumpMax s) eqn:Em; [done|]. destruct (CheckDumpRecord uid s); [done|].
  destruct check; [|done]. cbn [negb]. unfold limiter_CheckPerfLimit.
  destruct (Z.leb_spec 50 (devicePerfCount s)); [done|]. pose proof (po_total _ H) as Ht.
  assert (Hc : 0 <= default 0 (perfCountsMap_ s !! uid) <= 20).
  { destruct (perfCountsMap_ s !! uid) eqn:E; simpl; [by apply (po_uid _ H uid)|lia]. }
  pose proof (total_delete uid (perfCountsMap_ s)) as Hd. set (c := default 0 _) in *.
  assert (Hset : ∀ c' n, 0 <= c' <= 20 → n = total (<[uid := c']> (perfCountsMap_ s)) → n <= 50 →
    pipes_ok (set_counts (<[uid := c']> (perfCountsMap_ s)) n s)).
  { intros c' n Hc' Hn Hle. destruct H. split; try done. cbn. by apply map_Forall_insert_2. }
  destruct (Z.leb_spec 20 c); (split; [|done]); cbn [snd]; apply Hset; rewrite ?total_insert; lia.
Qed.

Lemma update_pair_ok key t p s :
  find_pair key (sdkDumpPipes_ s) = Some p → pipes_ok s →
  pipes_ok (set_sdk (update_pair key (λ _, snd (GetPipeFds t p)) (sdkDumpPipes_ s)) s).
Proof.
  intros Hf H. apply set_sdk_ok, H. rewrite update_pair_keys; [apply H|]. rewrite GetPipeFds_key. by eapply find_pair_key.
Qed.

Lemma length_update_pair key f l : length (update_pair key f l) = length l.
Proof. induction l as [|p l IH]; [done|]. cbn [update_pair]. case_match; cbn [length]; by rewrite ?IH. Qed.

Lemma sdk_OnRequest_ok peer crashed ptr64 signalled e sock r d :
  pipes_ok d.2 → pipes_ok (sdk_OnRequest peer crashed ptr64 signalled e sock r d).2.2.
Proof.
  intros H. unfold sdk_OnRequest. set (pid := sd_pid r). set (time := sd_time r). destruct peer as [[uid ppid]|]; [|done].
  destruct (sdk_Filter _ _ _ _ _ _) as [code s] eqn:Ef.
  assert (Hs : pipes_ok s).
  { revert Ef. unfold sdk_Filter. case_match; [by intros [= <- <-]|]. case_match; [by intros [= <- <-]|].
    destruct (CheckSdkDumpRecord _ _ _) eqn:Ec. intros [= <- <-]. pose proof (Sdk_ops_ok pid _ H) as (_ & _ & Hc).
    specialize (Hc time). by rewrite Ec in Hc. }
  pose proof (Sdk_ops_ok pid _ Hs) as (_ & Hc & _). specialize (Hc e time).
  set (s1 := note _ _). assert (H1 : pipes_ok s1) by by apply note_ok.
  pose proof (Sdk_ops_ok pid _ H1) as (Hd & _ & _). clearbody s1. destruct (negb _); [done|]. destruct (negb _); [done|].
  destruct (find_pair pid _); [|done]. destruct (GetPipeFds _ _) as [[b r'] p']. destruct (_ || _); [done|]. by apply note_ok.
Qed.

Lemma pipe_OnRequest_ok peer sock pid type d : pipes_ok d.2 → pipes_ok (pipe_OnRequest peer sock pid type d).2.2.
Proof.
  intros H. unfold pipe_OnRequest. destruct peer as [[uid ppid]|]; [|done]. case_match; [done|].
  case_match; [by apply Sdk_ops_ok|]. destruct (find_pair pid _) as [p|] eqn:Ef; [|done].
  pose proof (update_pair_ok pid PIPE_FD_WRITE p d.2 Ef H) as Hu. destruct (GetPipeFds PIPE_FD_WRITE p) as [[b r] p'].
  case_match; [done|]. by apply note_ok.
Qed.

Lemma lite_OnRequest_ok peer e uid type timeout check d :
  pipes_ok d.2 → pipes_ok (lite_OnRequest clock k peer e uid type timeout check d).2.2.
Proof.
  intros H. unfold lite_OnRequest. case_match; [done|]. case_match; [by apply Lite_ops_ok|]. case_match.
  - pose proof (CheckPerfLimit_ok uid check _ H) as [Hc Hm]. destruct (CheckPerfLimit uid check d.2) as [code s].
    cbn [fst snd] in *. destruct (Z.eqb_spec code REQUEST_SUCCESS) as [->|]; cbn [negb]; [|done].
    pose proof (Lite_ops_ok uid _ Hc) as (_ & _ & Hn). specialize (Hn (Hm eq_refl) e).
    destruct (GetMicroSecondsSinceBoot _ _) as [t q]. case_match; [done|]. case_match; [|apply Hn].
    destruct (GetPipeFds _ _) as [[b r] p']. case_match; [apply Hn|]. apply note_ok, Hn.
  - destruct (find_pair uid _) as [p|] eqn:Ef; [|done].
    assert (Hu : pipes_ok (set_lite (update_pair uid (λ _, snd (GetPipeFds PIPE_FD_WRITE p)) (litePipes_ d.2)) d.2)).
    { apply set_lite_ok, H; [|rewrite length_update_pair; apply H]. rewrite update_pair_keys; [apply H|].
      rewrite GetPipeFds_key. by eapply find_pair_key. }
    destruct (GetPipeFds PIPE_FD_WRITE p) as [[b r] p']. case_match; [done|]. by apply note_ok.
Qed.

Lemma limited_OnRequest_ok peer e ok pid type d :
  pipes_ok d.2 → pipes_ok (limited_OnRequest clock k peer e ok pid type d).2.2.
Proof.
  intros H. unfold limited_OnRequest. destruct (limited_Filter _ _ _ _ _) as [pass s] eqn:Ef.
  assert (Hs : pipes_ok s).
  { revert Ef. unfold limited_Filter. repeat case_match; intros [= <- <-]; try done; by apply set_launch_ok. }
  pose proof (Limited_ops_ok pid _ Hs) as [Hdel Hnew]. specialize (Hnew e).
  destruct pass; cbn [negb]; [|done]. case_match; [done|]. case_match.
  - destruct (find_limited pid (limitedPipes_ s)) eqn:E0; [done|].
    destruct (find_limited pid (limitedPipes_ (limited_CreatePipePair e pid s))) as [p|] eqn:E1; [|done].
    assert (Hk : lp_pid (snd (limited_GetPipeFd PIPE_FD_WRITE p)) = pid).
    { apply List.find_some in E1 as [_ E1]. unfold limited_GetPipeFd. repeat case_match; cbn [snd lp_pid]; lia. }
    destruct (limited_GetPipeFd PIPE_FD_WRITE p) as [fd p']. cbn [snd] in Hk.
    assert (Hu : pipes_ok (set_limited (update_limited pid (λ _, p') (limitedPipes_ (limited_CreatePipePair e pid s)))
      (limited_CreatePipePair e pid s))).
    { apply set_limited_ok, Hnew. rewrite update_limited_keys by done. apply Hnew. }
    case_match; [by apply Limited_ops_ok|]. by apply note_ok.
  - destruct (find_limited pid _) as [p|]; [|done]. case_match; [done|]. by apply note_ok.
Qed.

(** C31. The state of the pipe services keeps its shape whatever requests arrive, whatever they are
    answered and whenever the delayed tasks and the daily timer run: at most one pair of pipes per
    process or user in each of the three lists, at most 101 pairs of the performance service, and
    the quotas of a day (20 collections per user, 50 in all) are never exceeded, the device's count
    being the sum of the users'. *)
Theorem pipes_invariant (rs : list pipe_request) d :
  pipes_ok d.2 → pipes_ok (fold_left (λ d r, pipe_serve r d) rs d).2.
Proof.
  revert d. induction rs as [|r rs IH]; intros d H; [done|]. cbn [fold_left]. apply IH. destruct r; cbn [pipe_serve].
  - by apply sdk_OnRequest_ok.
  - by apply pipe_OnRequest_ok.
  - by apply lite_OnRequest_ok.
  - by apply limited_OnRequest_ok.
  - unfold run_task. destruct t; cbn.
    + apply (Lite_ops_ok 0); done.
    + by apply Limited_ops_ok.
    + by apply set_launch_ok.
  - destruct H. split; try done; cbn; lia.
Qed.
End Invariant.

(** ** The write ends are handed out once *)
Section WriteOnce.
Context (clock : nat → Z) (k : kernel).
Implicit Types d : DelayTaskQueue pipe_task * pipes.

(** The pair of a process is the one whose write ends were handed out. *)
Definition handed (pid : Z) (s : pipes) : Prop :=
  ∃ p, find_pair pid (sdkDumpPipes_ s) = Some p ∧ write_ (pipeBuf p) = true.

(** A request that neither deletes the pair of the process nor starts another dump of it. *)
Definition spares (pid : Z) (r : pipe_request) : Prop :=
  match r with
  | SdkDump _ _ _ _ _ _ r => sd_pid r ≠ pid
  | GetPipe _ _ pid' type => pid' = pid → type ≠ PIPE_FD_DELETE
  | _ => True
  end.

Lemma find_pair_filter_ne pid pid' l :
  pid' ≠ pid → find_pair pid (filter (λ p, p_key p ≠ pid') l) = find_pair pid l.
Proof.
  intros Hne. induction l as [|p l IH]; [done|]. rewrite filter_cons. cbn [find_pair List.find].
  case_decide as Hd; cbn [find_pair List.find]; destruct (Z.eqb_spec (p_key p) pid); try done.
  lia.
Qed.

Lemma find_pair_snoc_ne pid p l : p_key p ≠ pid → find_pair pid (l ++ [p]) = find_pair pid l.
Proof.
  intros Hne. induction l as [|a l IH]; cbn [app find_pair List.find].
  - by rewrite (proj2 (Z.eqb_neq _ _) Hne).
  - by destruct (p_key a =? pid).
Qed.

Lemma find_pair_erase_ne pid pid' l :
  pid' ≠ pid → find_pair pid (default [] (erase_first (λ p, p_key p =? pid') l)) = find_pair pid l ∨
  erase_first (λ p, p_key p =? pid') l = None.
Proof.
  intros Hne. destruct (erase_first _ l) as [l'|] eqn:E; [left|by right]. simpl.
  apply erase_first_split in E as (l1 & b & l2 & -> & -> & Hb & _). induction l1 as [|a l1 IH]; cbn [app find_pair List.find].
  - rewrite (proj2 (Z.eqb_neq (p_key b) pid)); [done|]. lia.
  - destruct (p_key a =? pid); [done|apply IH].
Qed.

Lemma find_pair_update pid key p' l :
  p_key p' = key → find_pair pid (update_pair key (λ _, p') l) =
  if pid =? key then match find_pair key l with Some _ => Some p' | None => None end else find_pair pid l.
Proof.
  intros Hk. induction l as [|a l IH]; cbn [update_pair find_pair List.find].
  - by destruct (pid =? key).
  - destruct (Z.eqb_spec (p_key a) key) as [Ea|Ea]; cbn [find_pair List.find].
    + rewrite Hk, Ea. destruct (Z.eqb_spec pid key) as [->|]; [by rewrite Z.eqb_refl|].
      by rewrite (proj2 (Z.eqb_neq key pid)) by lia.
    + fold (find_pair pid (update_pair key (λ _, p') l)) (find_pair pid l) (find_pair key l). rewrite IH.
      destruct (Z.eqb_spec pid key) as [->|]; [|done]. by rewrite (proj2 (Z.eqb_neq _ _) Ea).
Qed.

Lemma sdk_Filter_find crashed sock pid time uid s pid' :
  pid ≠ pid' →
  find_pair pid' (sdkDumpPipes_ (snd (sdk_Filter crashed sock pid time uid s))) = find_pair pid' (sdkDumpPipes_ s).
Proof.
  intros Hne. unfold sdk_Filter. case_match; [done|]. case_match; [done|]. unfold CheckSdkDumpRecord.
  destruct (find_pair pid _) as [p|] eqn:E; [|done]. destruct (IsValid time p); [done|].
  cbn [snd note set_sdk sdkDumpPipes_]. destruct (find_pair_erase_ne pid' pid (sdkDumpPipes_ s) Hne) as [Hd|Hd]; [done|].
  apply List.find_some in E as [Hi Hk]. apply erase_first_None in Hd. rewrite List.Forall_forall in Hd. by rewrite Hd in Hk.
Qed.

Lemma sdk_OnRequest_find peer crashed ptr64 signalled e sock r d pid' :
  sd_pid r ≠ pid' →
  find_pair pid' (sdkDumpPipes_ (sdk_OnRequest peer crashed ptr64 signalled e sock r d).2.2) =
  find_pair pid' (sdkDumpPipes_ d.2).
Proof.
  intros Hne. unfold sdk_OnRequest. set (pid := sd_pid r) in *. set (time := sd_time r). destruct peer as [[uid ppid]|]; [|done].
  pose proof (sdk_Filter_find crashed sock pid time uid d.2 pid' Hne) as Hf.
  destruct (sdk_Filter _ _ _ _ _ _) as [code s]. cbn [snd] in Hf. rewrite <- Hf.
  assert (Hc : find_pair pid' (sdkDumpPipes_ (CreateSdkDumpPipePair e pid time s)) = find_pair pid' (sdkDumpPipes_ s)).
  { unfold CreateSdkDumpPipePair. destruct (find_pair pid (sdkDumpPipes_ s)); [done|]. by apply find_pair_snoc_ne. }
  set (s1 := note [Signalled _ _] _).
  change (find_pair pid' (sdkDumpPipes_ s1) = find_pair pid' (sdkDumpPipes_ s)) in Hc. clearbody s1.
  assert (Hd : find_pair pid' (sdkDumpPipes_ (DelSdkDumpPipePair pid s1)) = find_pair pid' (sdkDumpPipes_ s1))
    by by apply find_pair_filter_ne.
  destruct (negb (code =? _)); [done|]. rewrite <- Hc. destruct (negb (signalled =? _)); [done|].
  destruct (find_pair pid (sdkDumpPipes_ s1)); [|done]. destruct (GetPipeFds _ _) as [[b r'] p']. by destruct (_ || _).
Qed.

Lemma GetPipeFds_write p :
  GetPipeFds PIPE_FD_WRITE p =
  (fst (GetWriteFd (pipeBuf p)), fst (GetWriteFd (pipeRes p)),
   mkPair (p_key p) (p_time p) (snd (GetWriteFd (pipeBuf p))) (snd (GetWriteFd (pipeRes p)))).
Proof. unfold GetPipeFds. cbn. by destruct (GetWriteFd (pipeBuf p)), (GetWriteFd (pipeRes p)). Qed.

Lemma handed_step pid r d : spares pid r → handed pid d.2 → handed pid (pipe_serve clock k r d).2.
Proof.
  intros Hr (p & Hf & Hw). destruct r; cbn [pipe_serve spares] in *.
  - exists p. by rewrite sdk_OnRequest_find.
  - unfold pipe_OnRequest. destruct peer as [[uid ppid]|]; [|by exists p]. case_match; [by exists p|].
    destruct (Z.eqb_spec pipeType PIPE_FD_DELETE) as [->|Hd].
    { exists p. split; [|done]. rewrite <- Hf. apply find_pair_filter_ne. intros ->. by apply Hr. }
    destruct (find_pair pid0 _) as [p0|] eqn:E0; [|by exists p].
    assert (Hk : p_key (snd (GetPipeFds PIPE_FD_WRITE p0)) = pid0) by (rewrite GetPipeFds_key; by eapply find_pair_key).
    assert (Hb : write_ (pipeBuf (snd (GetPipeFds PIPE_FD_WRITE p0))) = true).
    { rewrite GetPipeFds_write. unfold GetWriteFd. cbn. by destruct (write_ (pipeBuf p0)) eqn:Eb. }
    assert (Hu : handed pid (set_sdk (update_pair pid0 (λ _, snd (GetPipeFds PIPE_FD_WRITE p0)) (sdkDumpPipes_ d.2)) d.2)).
    { unfold handed. cbn [set_sdk sdkDumpPipes_]. rewrite find_pair_update by done. rewrite E0.
      destruct (Z.eqb_spec pid pid0) as [->|]; [|by exists p]. eexists. split; done. }
    destruct (GetPipeFds PIPE_FD_WRITE p0) as [[b r] p']. by case_match.
  - exists p. unfold lite_OnRequest, CheckPerfLimit, limiter_CheckPerfLimit, lite_CreatePipePair. repeat case_match; simplify_eq; done.
  - exists p. unfold limited_OnRequest, limited_Filter, limited_CreatePipePair. repeat case_match; simplify_eq; done.
  - exists p. by destruct t.
  - by exists p.
Qed.

Lemma handed_run pid rs d :
  Forall (spares pid) rs → handed pid d.2 → handed pid (fold_left (λ d r, pipe_serve clock k r d) rs d).2.
Proof.
  intros Hrs. revert d. induction Hrs as [|r rs Hr Hrs IH]; intros d H; [done|]. cbn [fold_left]. by apply IH, handed_step.
Qed.

Lemma pipe_success_hands peer sock pid type d d1 :
  type ≠ PIPE_FD_DELETE → pipe_OnRequest peer sock pid type d = (REQUEST_SUCCESS, d1) → handed pid d1.2.
Proof.
  intros Ht. unfold pipe_OnRequest. destruct peer as [[uid ppid]|]; [|done]. case_match; [done|].
  rewrite (proj2 (Z.eqb_neq _ _) Ht). destruct (find_pair pid _) as [p|] eqn:E; [|done].
  rewrite GetPipeFds_write. unfold GetWriteFd.
  destruct (write_ (pipeBuf p)) eqn:Ew; [done|]. destruct (write_ (pipeRes p)).
  - cbn [fst]. by rewrite orb_true_r.
  - case_match; [done|]. intros [= <-]. exists (mkPair (p_key p) (p_time p) (mkPipe true (readFd_ (pipeBuf p)) (writeFd_ (pipeBuf p)))
      (mkPipe true (readFd_ (pipeRes p)) (writeFd_ (pipeRes p)))). cbn [note set_sdk sdkDumpPipes_ snd]. split; [|done].
    rewrite find_pair_update, Z.eqb_refl, E; [done|]. cbn [p_key]. by eapply find_pair_key.
Qed.

(** C32. The write ends of the pipes of a dump are handed out once: after a request of a process got
    them, and whatever is asked of any of the pipe services in between (short of deleting that
    pair or starting another dump of the process) and whatever delayed tasks run, each further
    request for them is refused and sends no descriptor. *)
Theorem write_end_once peer sock pid type d d1 (rs : list pipe_request) peer' sock' type' :
  type ≠ PIPE_FD_DELETE → pipe_OnRequest peer sock pid type d = (REQUEST_SUCCESS, d1) → Forall (spares pid) rs →
  type' ≠ PIPE_FD_DELETE →
  let d2 := fold_left (λ d r, pipe_serve clock k r d) rs d1 in
  fst (pipe_OnRequest peer' sock' pid type' d2) ≠ REQUEST_SUCCESS ∧
  p_events (pipe_OnRequest peer' sock' pid type' d2).2.2 = p_events d2.2.
Proof.
  intros Ht H Hrs Ht' d2. apply pipe_success_hands in H; [|done]. apply (handed_run pid rs _ Hrs) in H. fold d2 in H.
  destruct H as (p & Hf & Hw). unfold pipe_OnRequest. destruct peer' as [[uid ppid]|]; [|done]. case_match; [done|].
  rewrite (proj2 (Z.eqb_neq _ _) Ht'), Hf. rewrite GetPipeFds_write. unfold GetWriteFd.
  rewrite Hw. destruct (write_ (pipeRes p)); done.
Qed.
End WriteOnce.

(** ** Witnesses *)
Definition sample_kernel : kernel := mkKernel true true true.
Definition sample_pipes : pipes := mkPipes [] [] [] ∅ 0 ∅ [].
Definition sample_service : DelayTaskQueue pipe_task * pipes := (mkQueue None [] 0 0%nat, sample_pipes).
Definition sample_clock (n : nat) : Z := 1000 + Z.of_nat n.
Definition sample_fds : pipe2s := mkPipe2s (Some (10, 11)) (Some (12, 13)).
Definition sample_dump : pipe_request :=
  SdkDump (Some (1000, 50)) false true REQUEST_SUCCESS sample_fds SERVER_SDKDUMP_SOCKET_NAME (mkSdkDump 77 0 50 0 5 9).

Lemma pipes_invariant_witness :
  pipes_ok (fold_left (λ d r, pipe_serve sample_clock sample_kernel r d)
    [sample_dump; LitePerf (Some (20, 5)) sample_fds 20 PIPE_FD_READ 3 true; GetPipe (Some (0, 9)) "x" 77 PIPE_FD_WRITE]
    sample_service).2.
Proof. apply (pipes_invariant sample_clock sample_kernel). split; try constructor; vm_compute; try lia; done. Defined.

Lemma write_end_once_witness :
  fst (pipe_OnRequest (Some (0, 9)) "x" 77 PIPE_FD_WRITE
    (fold_left (λ d r, pipe_serve sample_clock sample_kernel r d) [TaskRuns ClearTimeOutPairsTask]
      (pipe_OnRequest (Some (0, 9)) "x" 77 PIPE_FD_WRITE (pipe_serve sample_clock sample_kernel sample_dump sample_service)).2))
  ≠ REQUEST_SUCCESS.
Proof.
  apply (write_end_once sample_clock sample_kernel (Some (0, 9)) "x" 77 PIPE_FD_WRITE
    (pipe_serve sample_clock sample_kernel sample_dump sample_service) _ [TaskRuns ClearTimeOutPairsTask]
    (Some (0, 9)) "x" PIPE_FD_WRITE); [done|by vm_compute|by constructor|done].
Defined.
