(* ===== verification/AddressIndex.v ===== *)
(** * Address indexes

    The structures that find the entry of a minidump that contains an address
    (tools/process_dump/minidump_parser): [RangeMap], [IntervalTree] and [BitmapIndex] of
    minidump_optimizer.cpp and the indexes over them of minidump_index.cpp.  [IAddressIndex] is the
    abstract class of the code; [AddressIndex] is what its clients may rely on, as a class of laws,
    and [LinearScanIndex], [IntervalTreeIndex], [RangeMapIndex], [BitmapFilterIndex] over any
    lawful index and [AdaptiveAddressIndex] are its instances. *)
From stdpp Require Import sorting.
From S2P Require Import Prelude.

(** ** Entries *)
Record Entry := mkEntry { en_start : Z; en_end : Z; en_value : Z }.

#[export] Instance Entry_eq_dec : EqDecision Entry.
Proof. solve_decision. Defined.

Definition holds_addr (a : Z) (e : Entry) : bool := (en_start e <=? a) && (a <=? en_end e).
Definition overlapping (low high : Z) (e : Entry) : bool := (low <=? en_end e) && (en_start e <=? high).

(** ** The interface *)
Class IAddressIndex (I : Type) := {
  ai_Insert : Z → Z → Z → I → outcome (bool * I);
  ai_Lookup : Z → I → outcome (option Z);
  ai_IsInRange : Z → I → outcome bool;
  ai_Clear : I → I;
  ai_Size : I → Z
}.

(** ** LinearScanIndex *)
Record LinearScanIndex := mkLinear { entries_ : list Entry }.
Definition LinearScanIndex_new : LinearScanIndex := mkLinear [].

Definition linear_Insert (start end_ value : Z) (s : LinearScanIndex) : bool * LinearScanIndex :=
  if end_ <? start then (false, s)
  else if existsb (overlapping start end_) (entries_ s) then (false, s)
  else (true, mkLinear (entries_ s ++ [mkEntry start end_ value])).
Definition linear_Lookup (address : Z) (s : LinearScanIndex) : option Z :=
  en_value <$> List.find (holds_addr address) (entries_ s).
Definition linear_IsInRange (address : Z) (s : LinearScanIndex) : bool := existsb (holds_addr address) (entries_ s).
Definition linear_Clear (s : LinearScanIndex) : LinearScanIndex := mkLinear [].
Definition linear_Size (s : LinearScanIndex) : Z := length (entries_ s).

#[export] Instance linear_index : IAddressIndex LinearScanIndex := {
  ai_Insert st en v s := Ret (linear_Insert st en v s);
  ai_Lookup a s := Ret (linear_Lookup a s);
  ai_IsInRange a s := Ret (linear_IsInRange a s);
  ai_Clear := linear_Clear;
  ai_Size := linear_Size
}.

(** ** NodeArena

    Nodes are carved out of chunks of [CHUNK_BYTES]; an address is a chunk and an offset in it. *)
Record NodeArena := mkArena { chunks_ : nat; chunkUsed_ : Z }.
Definition NodeArena_new : NodeArena := mkArena 0 0.
Definition CHUNK_BYTES : Z := 8192.

(** [sizeof(IntervalNode<uint64_t, uint32_t>)]: five words, and two 32-bit fields that are padded. *)
Definition sizeof_IntervalNode : Z := 56.

Definition Allocate (s : NodeArena) : (nat * Z) * NodeArena :=
  let s := if (chunks_ s =? 0)%nat || (CHUNK_BYTES <? chunkUsed_ s + sizeof_IntervalNode) then mkArena (S (chunks_ s)) 0 else s in
  ((pred (chunks_ s), chunkUsed_ s), mkArena (chunks_ s) (chunkUsed_ s + sizeof_IntervalNode)).
Definition arena_Clear (s : NodeArena) : NodeArena := mkArena 0 0.

(** ** IntervalTree

    A pointer to a node is the tree below it; a null pointer is [Null].
    The fields [left] and [right] are [lc] and [rc]. *)
Inductive IntervalNode :=
| Null
| Node (low high max value : Z) (lc rc : IntervalNode) (height : Z).

Definition GetHeight (node : IntervalNode) : Z := match node with Null => 0 | Node _ _ _ _ _ _ h => h end.

(** [GetMax] of a node with these fields. *)
Definition GetMax (high : Z) (lc rc : IntervalNode) : Z :=
  let max := high in
  let max := match lc with Null => max | Node _ _ m _ _ _ _ => Z.max max m end in
  match rc with Null => max | Node _ _ m _ _ _ _ => Z.max max m end.
Definition GetBalance (lc rc : IntervalNode) : Z := GetHeight lc - GetHeight rc.

(** A node with its height and its maximum brought up to date. *)
Definition refresh (low high value : Z) (lc rc : IntervalNode) : IntervalNode :=
  Node low high (GetMax high lc rc) value lc rc (Z.max (GetHeight lc) (GetHeight rc) + 1).

Definition RotateRight (y : IntervalNode) : outcome IntervalNode :=
  match y with
  | Node yl yh _ yv (Node xl xh _ xv T1 T2 _) T3 _ => Ret (refresh xl xh xv T1 (refresh yl yh yv T2 T3))
  | _ => Undef NullDeref
  end.
Definition RotateLeft (x : IntervalNode) : outcome IntervalNode :=
  match x with
  | Node xl xh _ xv T1 (Node yl yh _ yv T2 T3 _) _ => Ret (refresh yl yh yv (refresh xl xh xv T1 T2) T3)
  | _ => Undef NullDeref
  end.
Definition node_low (node : IntervalNode) : outcome Z :=
  match node with Null => Undef NullDeref | Node l _ _ _ _ _ _ => Ret l end.

(** The part of [InsertNode] after a child has been inserted into. *)
Definition Rebalance (low nl nh nv : Z) (lc rc : IntervalNode) : outcome IntervalNode :=
  let node := refresh nl nh nv lc rc in
  let balance := GetBalance lc rc in
  if 1 <? balance then
    ll ← node_low lc;
    if low <? ll then RotateRight node
    else if ll <? low then
      lc' ← RotateLeft lc;
      RotateRight (Node nl nh (GetMax nh lc rc) nv lc' rc (GetHeight node))
    else Ret node
  else if balance <? -1 then
    rl ← node_low rc;
    if rl <? low then RotateLeft node
    else if low <? rl then
      rc' ← RotateRight rc;
      RotateLeft (Node nl nh (GetMax nh lc rc) nv lc rc' (GetHeight node))
    else Ret node
  else Ret node.

Fixpoint InsertNode (node : IntervalNode) (low high value : Z) (size : Z) (arena : NodeArena)
  : outcome (IntervalNode * Z * NodeArena) :=
  match node with
  | Null => Ret (Node low high high value Null Null 1, size + 1, (Allocate arena).2)
  | Node nl nh _ nv lc rc _ =>
      if low <? nl then
        '(lc, size, arena) ← InsertNode lc low high value size arena;
        node ← Rebalance low nl nh nv lc rc; Ret (node, size, arena)
      else if nl <? low then
        '(rc, size, arena) ← InsertNode rc low high value size arena;
        node ← Rebalance low nl nh nv lc rc; Ret (node, size, arena)
      else Ret (node, size, arena)
  end.

Record IntervalTree := mkTree { root_ : IntervalNode; size_ : Z; arena_ : NodeArena }.
Definition IntervalTree_new : IntervalTree := mkTree Null 0 NodeArena_new.

Definition tree_Insert (low high value : Z) (t : IntervalTree) : outcome (bool * IntervalTree) :=
  if high <? low then Ret (false, t)
  else
    '(root, size, arena) ← InsertNode (root_ t) low high value (size_ t) (arena_ t);
    Ret (size_ t <? size, mkTree root size arena).

Fixpoint SearchNode (node : IntervalNode) (address : Z) : option Z :=
  match node with
  | Null => None
  | Node low high _ value lc rc _ =>
      if (low <=? address) && (address <=? high) then Some value
      else match lc with
           | Node _ _ lmax _ _ _ _ => if address <=? lmax then SearchNode lc address else SearchNode rc address
           | Null => SearchNode rc address
           end
  end.
Definition tree_Search (address : Z) (t : IntervalTree) : option Z := SearchNode (root_ t) address.

Fixpoint SearchRangeNode (node : IntervalNode) (low high : Z) : list Z :=
  match node with
  | Null => []
  | Node nl nh _ value lc rc _ =>
      (if (low <=? nh) && (nl <=? high) then [value] else [])
      ++ (match lc with
          | Node _ _ lmax _ _ _ _ => if low <=? lmax then SearchRangeNode lc low high else []
          | Null => []
          end)
      ++ (match rc with
          | Node _ _ _ _ _ _ _ => if nl <=? high then SearchRangeNode rc low high else []
          | Null => []
          end)
  end.
Definition SearchRange (low high : Z) (t : IntervalTree) : list Z := SearchRangeNode (root_ t) low high.

Definition tree_Clear (t : IntervalTree) : IntervalTree := mkTree Null 0 (arena_Clear (arena_ t)).
Definition tree_Empty (t : IntervalTree) : bool := size_ t =? 0.
Definition GetMaxAddress (t : IntervalTree) : Z := match root_ t with Null => 0 | Node _ _ m _ _ _ _ => m end.

#[export] Instance tree_index : IAddressIndex IntervalTree := {
  ai_Insert := tree_Insert;
  ai_Lookup a t := Ret (tree_Search a t);
  ai_IsInRange a t := Ret (match tree_Search a t with Some _ => true | None => false end);
  ai_Clear := tree_Clear;
  ai_Size := size_
}.

(** ** RangeMap

    [std::map] from the base of a range to its entry: a list in the order of the bases. *)
Record RangeMap := mkRangeMap { map_ : list Entry; high_ : Z }.
Definition RangeMap_new : RangeMap := mkRangeMap [] 0.

(** The entries before and from [lower_bound(base)], and before and from [upper_bound(address)]. *)
Fixpoint split_at (before : Entry → bool) (l : list Entry) : list Entry * list Entry :=
  match l with
  | e :: l' => if before e then let '(l1, l2) := split_at before l' in (e :: l1, l2) else ([], l)
  | [] => ([], [])
  end.
Definition lower_bound (base : Z) : list Entry → list Entry * list Entry := split_at (λ e, en_start e <? base).
Definition upper_bound (address : Z) : list Entry → list Entry * list Entry := split_at (λ e, en_start e <=? address).

Definition StoreRange (base size value : Z) (s : RangeMap) : bool * RangeMap :=
  if size =? 0 then (false, s)
  else if negb (fitsb 64 (base + size)) then (false, s)
  else
    let high := base + size - 1 in
    let '(before, from) := lower_bound base (map_ s) in
    if match from with e :: _ => en_start e <=? high | [] => false end then (false, s)
    else if match list.last before with Some e => base <=? en_end e | None => false end then (false, s)
    else (true, mkRangeMap (before ++ mkEntry base high value :: from) (if high_ s <? high then high else high_ s)).

Definition RetrieveRange (address : Z) (s : RangeMap) : option Z :=
  match list.last (upper_bound address (map_ s)).1 with
  | Some e => if holds_addr address e then Some (en_value e) else None
  | None => None
  end.
Definition HasRange (address : Z) (s : RangeMap) : bool := match RetrieveRange address s with Some _ => true | None => false end.
Definition rangemap_Clear (s : RangeMap) : RangeMap := mkRangeMap [] 0.
Definition GetHighestAddress (s : RangeMap) : Z := high_ s.
Definition GetRangeSize (s : RangeMap) : Z := length (map_ s).
Definition rangemap_IsEmpty (s : RangeMap) : bool := (length (map_ s) =? 0)%nat.

Definition rangemap_Insert (start end_ value : Z) (s : RangeMap) : bool * RangeMap :=
  if end_ <? start then (false, s) else StoreRange start (u64 (end_ - start + 1)) value s.

#[export] Instance rangemap_index : IAddressIndex RangeMap := {
  ai_Insert st en v s := Ret (rangemap_Insert st en v s);
  ai_Lookup a s := Ret (RetrieveRange a s);
  ai_IsInRange a s := Ret (HasRange a s);
  ai_Clear := rangemap_Clear;
  ai_Size := GetRangeSize
}.

(** ** BitmapIndex

    One bit per [granularity_] bytes of the address space; words of 64 bits. *)
Record BitmapIndex := mkBitmap { granularity_ : Z; bitmap_ : list Z; bitCount_ : Z }.
Definition BITS_PER_WORD : Z := 64.
Definition maxBitMapSize : Z := 2 ^ 20 + 1.
Definition ALL_BITS : Z := 2 ^ 64 - 1.

Definition BitmapIndex_new (addressRange granularity : Z) : BitmapIndex :=
  if granularity =? 0 then mkBitmap 0 [] 0
  else
    let bitmapSize64 := u64 (addressRange / granularity + 1) in
    if maxBitMapSize <? bitmapSize64 then mkBitmap 0 [] 0
    else mkBitmap granularity (replicate (Z.to_nat ((bitmapSize64 + 63) / BITS_PER_WORD)) 0) bitmapSize64.

(** [bitmap_[i]] read and written; past the end is undefined. *)
Definition word_at (i : Z) (ws : list Z) : outcome Z :=
  match ws !! Z.to_nat i with Some w => Ret w | None => Undef OutOfBounds end.
Definition set_word (i w : Z) (ws : list Z) : outcome (list Z) :=
  match ws !! Z.to_nat i with Some _ => Ret (<[Z.to_nat i := w]> ws) | None => Undef OutOfBounds end.
Definition or_word (i mask : Z) (ws : list Z) : outcome (list Z) := w ← word_at i ws; set_word i (Z.lor w mask) ws.

(** The loop over the bits of one word, [n] of them from [i]; the loop over whole words. *)
Fixpoint mask_loop (n : nat) (i mask : Z) : Z :=
  match n with O => mask | S n' => mask_loop n' (i + 1) (Z.lor mask (u64 (Z.shiftl 1 (i mod BITS_PER_WORD)))) end.
Fixpoint fill_loop (n : nat) (w : Z) (ws : list Z) : outcome (list Z) :=
  match n with O => Ret ws | S n' => ws ← set_word w ALL_BITS ws; fill_loop n' (w + 1) ws end.

Definition MarkRange (start end_ : Z) (b : BitmapIndex) : outcome BitmapIndex :=
  if (granularity_ b =? 0) || (bitCount_ b =? 0) then Ret b
  else
    let startIdx := start / granularity_ b in
    let endIdx := end_ / granularity_ b in
    if bitCount_ b <=? startIdx then Ret b
    else
      let endIdx := if bitCount_ b <=? endIdx then bitCount_ b - 1 else endIdx in
      let startWord := startIdx / BITS_PER_WORD in
      let endWord := endIdx / BITS_PER_WORD in
      ws ← (if startWord =? endWord then
              or_word startWord (mask_loop (Z.to_nat (endIdx + 1 - startIdx)) startIdx 0) (bitmap_ b)
            else
              let startBit := startIdx mod BITS_PER_WORD in
              let endBit := endIdx mod BITS_PER_WORD in
              ws ← or_word startWord (u64 (Z.lnot (Z.shiftl 1 startBit - 1))) (bitmap_ b);
              ws ← fill_loop (Z.to_nat (endWord - (startWord + 1))) (startWord + 1) ws;
              if endBit =? BITS_PER_WORD - 1 then set_word endWord ALL_BITS ws
              else or_word endWord (Z.shiftl 1 (endBit + 1) - 1) ws);
      Ret (mkBitmap (granularity_ b) ws (bitCount_ b)).

Definition bitmap_IsInRange (address : Z) (b : BitmapIndex) : outcome bool :=
  if (granularity_ b =? 0) || (bitCount_ b =? 0) then Ret false
  else
    let idx := address / granularity_ b in
    if bitCount_ b <=? idx then Ret false
    else
      w ← word_at (idx / BITS_PER_WORD) (bitmap_ b);
      Ret (negb (Z.land w (Z.shiftl 1 (idx mod BITS_PER_WORD)) =? 0)).

(** [__builtin_ctzll] of a word that is not zero, [__builtin_popcountll]. *)
Fixpoint ctz_loop (fuel : nat) (v : Z) : Z :=
  match fuel with O => 0 | S fuel' => if Z.testbit v 0 then 0 else 1 + ctz_loop fuel' (Z.shiftr v 1) end.
Definition ctzll (v : Z) : Z := ctz_loop 64 v.
Definition popcountll (v : Z) : Z := length (List.filter (Z.testbit v) (seqZ 0 64)).

Fixpoint next_word (ws : list Z) (w granularity : Z) : Z :=
  match ws with
  | [] => ALL_BITS
  | v :: ws' => if negb (v =? 0) then u64 ((w * BITS_PER_WORD + ctzll v) * granularity) else next_word ws' (w + 1) granularity
  end.
Definition FindNextInRange (start : Z) (b : BitmapIndex) : outcome Z :=
  if (granularity_ b =? 0) || (bitCount_ b =? 0) then Ret ALL_BITS
  else
    let idx := start / granularity_ b in
    if bitCount_ b <=? idx then Ret ALL_BITS
    else
      let word := idx / BITS_PER_WORD in
      let bit := idx mod BITS_PER_WORD in
      v ← word_at word (bitmap_ b);
      let val := Z.shiftr v bit in
      if negb (val =? 0) then Ret (u64 ((word * BITS_PER_WORD + bit + ctzll val) * granularity_ b))
      else Ret (next_word (drop (Z.to_nat (word + 1)) (bitmap_ b)) (word + 1) (granularity_ b)).

Definition bitmap_Clear (b : BitmapIndex) : BitmapIndex :=
  mkBitmap (granularity_ b) (replicate (length (bitmap_ b)) 0) (bitCount_ b).
Definition bitmap_Size (b : BitmapIndex) : Z := bitCount_ b.
Definition MarkedCount (b : BitmapIndex) : Z := foldr (λ w n, popcountll w + n) 0 (bitmap_ b).

(** ** BitmapFilterIndex over a precise index *)
Record BitmapFilterIndex (I : Type) := mkFilter { bf_bitmap : BitmapIndex; preciseIndex_ : option I }.
Arguments mkFilter {I}.
Arguments bf_bitmap {I}.
Arguments preciseIndex_ {I}.

Section Filter.
Context {I : Type} `{IAddressIndex I}.

Definition filter_Insert (start end_ value : Z) (s : BitmapFilterIndex I) : outcome (bool * BitmapFilterIndex I) :=
  b ← MarkRange start end_ (bf_bitmap s);
  match preciseIndex_ s with
  | Some i => '(r, i) ← ai_Insert start end_ value i; Ret (r, mkFilter b (Some i))
  | None => Ret (true, mkFilter b None)
  end.

(** Whether the bitmap rules the address out. *)
Definition filtered (address : Z) (b : BitmapIndex) : outcome bool :=
  if negb (bitmap_Size b =? 0) then r ← bitmap_IsInRange address b; Ret (negb r) else Ret false.

Definition filter_Lookup (address : Z) (s : BitmapFilterIndex I) : outcome (option Z) :=
  out ← filtered address (bf_bitmap s);
  if (out : bool) then Ret None
  else match preciseIndex_ s with Some i => ai_Lookup address i | None => Ret None end.
Definition filter_IsInRange (address : Z) (s : BitmapFilterIndex I) : outcome bool :=
  out ← filtered address (bf_bitmap s);
  if (out : bool) then Ret false
  else match preciseIndex_ s with Some i => ai_IsInRange address i | None => Ret false end.
Definition filter_Clear (s : BitmapFilterIndex I) : BitmapFilterIndex I :=
  mkFilter (bitmap_Clear (bf_bitmap s)) (ai_Clear <$> preciseIndex_ s).
Definition filter_Size (s : BitmapFilterIndex I) : Z := match preciseIndex_ s with Some i => ai_Size i | None => 0 end.
Definition SetGranularity (granularity : Z) (s : BitmapFilterIndex I) : BitmapFilterIndex I :=
  mkFilter (BitmapIndex_new 0x800000000000 granularity) (preciseIndex_ s).
End Filter.

#[export] Instance filter_index {I} `{IAddressIndex I} : IAddressIndex (BitmapFilterIndex I) := {
  ai_Insert := filter_Insert;
  ai_Lookup := filter_Lookup;
  ai_IsInRange := filter_IsInRange;
  ai_Clear := filter_Clear;
  ai_Size := filter_Size
}.

(** ** AdaptiveAddressIndex

    [current_] is one of the three indexes.  The bitmap index shares its precise index with
    [treeIndex_] when there is one at its creation: [bitmapIndex_] is then the bitmap alone
    ([SharedTree]), and otherwise has a tree of its own. *)
Inductive strategy := UseLinear | UseTree | UseBitmap.
Inductive precise_ref := SharedTree | OwnTree (t : IntervalTree).
Record AdaptiveAddressIndex := mkAdaptive {
  addressRange_ : Z;
  ad_granularity_ : Z;
  migrationCount_ : Z;
  masterList_ : list Entry;
  current_ : strategy;
  linearIndex_ : LinearScanIndex;
  treeIndex_ : option IntervalTree;
  bitmapIndex_ : option (BitmapIndex * precise_ref)
}.
Definition DEFAULT_ADDRESS_RANGE : Z := 0x800000000000.
Definition DEFAULT_BITMAP_GRANULARITY : Z := 134217728.
Definition LINEAR_THRESHOLD : Z := 64.
Definition BITMAP_THRESHOLD : Z := 256.

Definition AdaptiveAddressIndex_new (addressRange granularity : Z) : AdaptiveAddressIndex :=
  mkAdaptive addressRange granularity 0 [] UseLinear LinearScanIndex_new None None.

#[export] Instance strategy_eq_dec : EqDecision strategy.
Proof. solve_decision. Defined.

(** The objects behind [current_]: put together, and written back. *)
Inductive any_index := AnyLinear (i : LinearScanIndex) | AnyTree (i : IntervalTree) | AnyFilter (i : BitmapFilterIndex IntervalTree).

Definition current_index (s : AdaptiveAddressIndex) : outcome any_index :=
  match current_ s with
  | UseLinear => Ret (AnyLinear (linearIndex_ s))
  | UseTree => match treeIndex_ s with Some t => Ret (AnyTree t) | None => Undef NullDeref end
  | UseBitmap =>
      match bitmapIndex_ s with
      | Some (b, OwnTree t) => Ret (AnyFilter (mkFilter b (Some t)))
      | Some (b, SharedTree) => match treeIndex_ s with Some t => Ret (AnyFilter (mkFilter b (Some t))) | None => Undef NullDeref end
      | None => Undef NullDeref
      end
  end.
Definition set_indexes (l : LinearScanIndex) (t : option IntervalTree) (b : option (BitmapIndex * precise_ref))
  (s : AdaptiveAddressIndex) : AdaptiveAddressIndex :=
  mkAdaptive (addressRange_ s) (ad_granularity_ s) (migrationCount_ s) (masterList_ s) (current_ s) l t b.
Definition put_index (i : any_index) (s : AdaptiveAddressIndex) : AdaptiveAddressIndex :=
  match i with
  | AnyLinear l => set_indexes l (treeIndex_ s) (bitmapIndex_ s) s
  | AnyTree t => set_indexes (linearIndex_ s) (Some t) (bitmapIndex_ s) s
  | AnyFilter f =>
      match bitmapIndex_ s with
      | Some (_, OwnTree t) => set_indexes (linearIndex_ s) (treeIndex_ s) (Some (bf_bitmap f, OwnTree (default t (preciseIndex_ f)))) s
      | _ => set_indexes (linearIndex_ s) (preciseIndex_ f) (Some (bf_bitmap f, SharedTree)) s
      end
  end.

#[export] Instance any_is_index : IAddressIndex any_index := {
  ai_Insert st en v i :=
    match i with
    | AnyLinear i => '(r, i) ← ai_Insert st en v i; Ret (r, AnyLinear i)
    | AnyTree i => '(r, i) ← ai_Insert st en v i; Ret (r, AnyTree i)
    | AnyFilter i => '(r, i) ← ai_Insert st en v i; Ret (r, AnyFilter i)
    end;
  ai_Lookup a i := match i with AnyLinear i => ai_Lookup a i | AnyTree i => ai_Lookup a i | AnyFilter i => ai_Lookup a i end;
  ai_IsInRange a i := match i with AnyLinear i => ai_IsInRange a i | AnyTree i => ai_IsInRange a i | AnyFilter i => ai_IsInRange a i end;
  ai_Clear i := match i with AnyLinear i => AnyLinear (ai_Clear i) | AnyTree i => AnyTree (ai_Clear i) | AnyFilter i => AnyFilter (ai_Clear i) end;
  ai_Size i := match i with AnyLinear i => ai_Size i | AnyTree i => ai_Size i | AnyFilter i => ai_Size i end
}.

(** Inserting a list of entries, the results ignored. *)
Fixpoint insert_all {I} `{IAddressIndex I} (es : list Entry) (i : I) : outcome I :=
  match es with
  | [] => Ret i
  | e :: es' => '(_, i) ← ai_Insert (en_start e) (en_end e) (en_value e) i; insert_all es' i
  end.

Definition RebuildCurrentIndex (s : AdaptiveAddressIndex) : outcome AdaptiveAddressIndex :=
  i ← current_index s;
  i ← insert_all (masterList_ s) (ai_Clear i);
  Ret (put_index i s).

Definition set_current (c : strategy) (s : AdaptiveAddressIndex) : AdaptiveAddressIndex :=
  mkAdaptive (addressRange_ s) (ad_granularity_ s) (migrationCount_ s) (masterList_ s) c (linearIndex_ s) (treeIndex_ s) (bitmapIndex_ s).
Definition count_migration (s : AdaptiveAddressIndex) : AdaptiveAddressIndex :=
  mkAdaptive (addressRange_ s) (ad_granularity_ s) (migrationCount_ s + 1) (masterList_ s) (current_ s) (linearIndex_ s) (treeIndex_ s) (bitmapIndex_ s).

(** The target of [EnsureStrategy], created when it is not there yet. *)
Definition with_tree (s : AdaptiveAddressIndex) : AdaptiveAddressIndex :=
  set_indexes (linearIndex_ s) (Some (default IntervalTree_new (treeIndex_ s))) (bitmapIndex_ s) s.
Definition with_bitmap (s : AdaptiveAddressIndex) : AdaptiveAddressIndex :=
  match bitmapIndex_ s with
  | Some _ => s
  | None =>
      let tree := match treeIndex_ s with Some _ => SharedTree | None => OwnTree IntervalTree_new end in
      set_indexes (linearIndex_ s) (treeIndex_ s) (Some (BitmapIndex_new (addressRange_ s) (ad_granularity_ s), tree)) s
  end.

Definition EnsureStrategy (s : AdaptiveAddressIndex) : outcome AdaptiveAddressIndex :=
  let entryCount := length (masterList_ s) in
  let '(target, s) :=
    if entryCount <=? LINEAR_THRESHOLD then (UseLinear, s)
    else if entryCount <=? BITMAP_THRESHOLD then (UseTree, with_tree s)
    else (UseBitmap, with_bitmap s) in
  if bool_decide (target = current_ s) then Ret s
  else s ← RebuildCurrentIndex (set_current target s); Ret (count_migration s).

Definition adaptive_Insert (start end_ value : Z) (s : AdaptiveAddressIndex) : outcome (bool * AdaptiveAddressIndex) :=
  if end_ <? start then Ret (false, s)
  else
    let s := mkAdaptive (addressRange_ s) (ad_granularity_ s) (migrationCount_ s) (masterList_ s ++ [mkEntry start end_ value])
               (current_ s) (linearIndex_ s) (treeIndex_ s) (bitmapIndex_ s) in
    i ← current_index s;
    '(inserted, i) ← ai_Insert start end_ value i;
    s ← EnsureStrategy (put_index i s);
    Ret (inserted, s).
Definition adaptive_Lookup (address : Z) (s : AdaptiveAddressIndex) : outcome (option Z) :=
  i ← current_index s; ai_Lookup address i.
Definition adaptive_IsInRange (address : Z) (s : AdaptiveAddressIndex) : outcome bool :=
  i ← current_index s; ai_IsInRange address i.
Definition adaptive_Clear (s : AdaptiveAddressIndex) : AdaptiveAddressIndex :=
  let tree := tree_Clear <$> treeIndex_ s in
  let bitmap := match bitmapIndex_ s with
                | Some (b, SharedTree) => Some (bitmap_Clear b, SharedTree)
                | Some (b, OwnTree t) => Some (bitmap_Clear b, OwnTree (tree_Clear t))
                | None => None
                end in
  mkAdaptive (addressRange_ s) (ad_granularity_ s) 0 [] UseLinear (linear_Clear (linearIndex_ s)) tree bitmap.
Definition adaptive_Size (s : AdaptiveAddressIndex) : Z := length (masterList_ s).

#[export] Instance adaptive_index : IAddressIndex AdaptiveAddressIndex := {
  ai_Insert := adaptive_Insert;
  ai_Lookup := adaptive_Lookup;
  ai_IsInRange := adaptive_IsInRange;
  ai_Clear := adaptive_Clear;
  ai_Size := adaptive_Size
}.

(** ** The laws

    What a client may rely on, as long as the entries it inserts do not overlap. *)
Definition entry_ok (e : Entry) : Prop := 0 <= en_start e <= en_end e ∧ en_end e < 2 ^ 64.
Definition apart (e f : Entry) : Prop := overlapping (en_start e) (en_end e) f = false.
Definition spread (l : list Entry) : Prop :=
  NoDup l ∧ Forall entry_ok l ∧ ∀ e f, e ∈ l → f ∈ l → e ≠ f → apart e f.

Class AddressIndex (I : Type) `{IAddressIndex I} := {
  (** the index holds exactly these entries *)
  ix_holds : list Entry → I → Prop;
  (** the entries it can hold, the addresses it can find *)
  ix_accepts : Entry → Prop;
  ix_sees : I → Z → bool;
  ix_spread l s : ix_holds l s → spread l;
  ix_perm l l' s : l ≡ₚ l' → ix_holds l s → ix_holds l' s;
  ix_insert e l s : ix_holds l s → entry_ok e → ix_accepts e → Forall (apart e) l →
    ∃ s', ai_Insert (en_start e) (en_end e) (en_value e) s = Ret (true, s') ∧ ix_holds (e :: l) s';
  ix_lookup a l s : ix_holds l s → fits 64 a →
    ai_Lookup a s = Ret (if ix_sees s a then en_value <$> List.find (holds_addr a) l else None);
  ix_is_in_range a l s : ix_holds l s → fits 64 a →
    ai_IsInRange a s = Ret (ix_sees s a && existsb (holds_addr a) l);
  ix_clear l s : ix_holds l s → ix_holds [] (ai_Clear s);
  ix_size l s : ix_holds l s → ai_Size s = length l
}.

Lemma apart_sym e f : apart e f → apart f e.
Proof. unfold apart, overlapping. intros H. zbool. apply andb_false_iff. rewrite !Z.leb_gt in *. lia. Qed.

Lemma apart_addr a e f : apart e f → holds_addr a e = true → holds_addr a f = false.
Proof.
  unfold apart, overlapping, holds_addr. intros H1 H2. zbool. apply andb_false_iff. rewrite !Z.leb_gt in *. lia.
Qed.

Lemma apart_start e f : entry_ok e → entry_ok f → apart e f → en_start e ≠ en_start f.
Proof. unfold entry_ok, apart, overlapping. intros He Hf H. zbool. rewrite !Z.leb_gt in H. lia. Qed.

Lemma apart_irrefl e : entry_ok e → ¬ apart e e.
Proof. intros He H. by apply (apart_start e e). Qed.

Lemma spread_nil : spread [].
Proof. split; [constructor|]. split; [constructor|]. intros e f He. by apply elem_of_nil in He. Qed.

Lemma spread_cons e l : spread l → entry_ok e → Forall (apart e) l → spread (e :: l).
Proof.
  intros (H1 & H2 & H3) He Ha. rewrite list.Forall_forall in Ha. split; [|split].
  - constructor; [|done]. intros Hin. by apply (apart_irrefl e), Ha.
  - by constructor.
  - intros x y Hx Hy Hne. apply elem_of_cons in Hx as [->|Hx], Hy as [->|Hy]; [done|by apply Ha|by apply apart_sym, Ha|by apply H3].
Qed.

Lemma spread_perm l l' : l ≡ₚ l' → spread l → spread l'.
Proof.
  intros Hp (H1 & H2 & H3). split; [by rewrite <- Hp|]. split; [by rewrite <- Hp|]. intros e f He Hf. rewrite <- Hp in He, Hf. by apply H3.
Qed.

Lemma spread_head e l : spread (e :: l) → spread l ∧ entry_ok e ∧ Forall (apart e) l.
Proof.
  intros (H1 & H2 & H3). apply list.NoDup_cons in H1 as [H1 H1']. apply list.Forall_cons in H2 as [H2 H2']. split; [|split; [done|]].
  - split; [done|]. split; [done|]. intros x y Hx Hy. apply H3; by apply elem_of_cons; right.
  - apply list.Forall_forall. intros x Hx. apply H3; [by apply elem_of_cons; left|by apply elem_of_cons; right|]. by intros ->.
Qed.

(** In a list without overlaps the entry of an address does not depend on the order. *)
Lemma find_unique a l e : spread l → e ∈ l → holds_addr a e = true → List.find (holds_addr a) l = Some e.
Proof.
  intros (_ & _ & H3) He Ha. destruct (List.find (holds_addr a) l) as [f|] eqn:E.
  - apply find_some in E as [Hf Hfa]. apply list_elem_of_In in Hf. destruct (decide (f = e)) as [->|Hne]; [done|].
    pose proof (apart_addr a f e (H3 f e Hf He Hne) Hfa). congruence.
  - apply list_elem_of_In in He. pose proof (find_none _ _ E e He). congruence.
Qed.

Lemma find_no_addr a l : (∀ e, e ∈ l → holds_addr a e = false) → List.find (holds_addr a) l = None.
Proof.
  intros H. destruct (List.find (holds_addr a) l) as [e|] eqn:E; [|done]. apply find_some in E as [He Ha].
  apply list_elem_of_In in He. rewrite (H e He) in Ha. done.
Qed.

Lemma find_perm a l l' : spread l → l ≡ₚ l' → List.find (holds_addr a) l = List.find (holds_addr a) l'.
Proof.
  intros Hs Hp. destruct (List.find (holds_addr a) l) as [e|] eqn:E.
  - apply find_some in E as [He Ha]. apply list_elem_of_In in He. rewrite Hp in He. symmetry. by apply find_unique; [apply (spread_perm l)|..].
  - symmetry. apply find_no_addr. intros e He. rewrite <- Hp in He. apply list_elem_of_In in He. by apply (find_none _ _ E).
Qed.

Lemma existsb_find {A} (f : A → bool) l : existsb f l = match List.find f l with Some _ => true | None => false end.
Proof. induction l as [|x l IH]; [done|]. cbn. by destruct (f x). Qed.

(** An answer that is right and is there when there is one is the answer. *)
Lemma lookup_exact a l r : spread l →
  (∀ v, r = Some v → ∃ e, e ∈ l ∧ holds_addr a e = true ∧ en_value e = v) →
  (∀ e, e ∈ l → holds_addr a e = true → r ≠ None) → r = en_value <$> List.find (holds_addr a) l.
Proof.
  intros Hs H1 H2. destruct r as [v|].
  - destruct (H1 v eq_refl) as (e & He & Ha & Hv). rewrite (find_unique a l e) by done. cbn. congruence.
  - rewrite find_no_addr; [done|]. intros e He. destruct (holds_addr a e) eqn:Ea; [|done]. by destruct (H2 e He Ea).
Qed.

(** *** The linear scan *)
#[export] Instance linear_lawful : AddressIndex LinearScanIndex.
Proof.
  refine {| ix_holds l s := l ≡ₚ entries_ s ∧ spread l; ix_accepts _ := True; ix_sees _ _ := true |}.
  - by intros l s [_ H].
  - intros l l' s E [Hp Hs]. split; [by rewrite <- E|by apply (spread_perm l)].
  - intros e l s [Hp Hs] He _ Ha. cbn. unfold linear_Insert. pose proof He as [He1 He2]. zcase; [lia|].
    assert (existsb (overlapping (en_start e) (en_end e)) (entries_ s) = false) as ->.
    + apply not_true_iff_false. intros (f & Hf & Ho)%existsb_exists. apply list_elem_of_In in Hf. rewrite <- Hp in Hf. rewrite list.Forall_forall in Ha.
      specialize (Ha f Hf). unfold apart in Ha. congruence.
    + eexists. split; [done|]. split; [|by apply spread_cons]. cbn. rewrite Permutation_app_comm. cbn. rewrite Hp. by destruct e.
  - intros a l s [Hp Hs] _. cbn. unfold linear_Lookup. by rewrite (find_perm a l (entries_ s)).
  - intros a l s [Hp Hs] _. cbn. unfold linear_IsInRange. by rewrite !existsb_find, (find_perm a l (entries_ s)).
  - intros l s _. split; [done|apply spread_nil].
  - intros l s [Hp _]. cbn. unfold linear_Size. by rewrite Hp.
Defined.

(** *** The interval tree *)

(** The entries in order; the entries as the search meets them. *)
Fixpoint elements (node : IntervalNode) : list Entry :=
  match node with Null => [] | Node l h _ v lc rc _ => elements lc ++ mkEntry l h v :: elements rc end.
Fixpoint preorder (node : IntervalNode) : list Entry :=
  match node with Null => [] | Node l h _ v lc rc _ => mkEntry l h v :: preorder lc ++ preorder rc end.

(** Stored heights and maxima are right, and siblings differ in height by one at most. *)
Fixpoint avl (node : IntervalNode) : Prop :=
  match node with
  | Null => True
  | Node _ h m _ lc rc ht =>
      avl lc ∧ avl rc ∧ m = GetMax h lc rc ∧ ht = Z.max (GetHeight lc) (GetHeight rc) + 1 ∧ -1 <= GetBalance lc rc <= 1
  end.

(** In the order of the starts, which are all different. *)
Definition ordered : list Entry → Prop := StronglySorted (λ e f, en_start e < en_start f).

(** The reference: insertion into an ordered list, unless the start is taken. *)
Fixpoint insert_entry (e : Entry) (l : list Entry) : list Entry :=
  match l with
  | [] => [e]
  | f :: l' => if en_start e <? en_start f then e :: l else if en_start f <? en_start e then f :: insert_entry e l' else l
  end.

Lemma height_nonneg node : avl node → 0 <= GetHeight node.
Proof. induction node; cbn; [lia|]. intros (H1 & H2 & _ & -> & _). apply IHnode1 in H1. lia. Qed.

Lemma height_pos node : avl node → node ≠ Null → 1 <= GetHeight node.
Proof. destruct node; [done|]. cbn. intros (H1 & _ & _ & -> & _) _. apply height_nonneg in H1. lia. Qed.

Lemma avl_refresh l h v lc rc : avl lc → avl rc → -1 <= GetBalance lc rc <= 1 → avl (refresh l h v lc rc).
Proof. done. Qed.

(** Inserting left of an element changes what is left of it only, and likewise on the right. *)
Lemma insert_entry_left e l1 f l2 : en_start e < en_start f → insert_entry e (l1 ++ f :: l2) = insert_entry e l1 ++ f :: l2.
Proof.
  intros H. induction l1 as [|g l1 IH]; cbn [app insert_entry]; [zcase; [done|lia]|]. rewrite IH. repeat zcase; done.
Qed.

Lemma insert_entry_right e l1 f l2 : Forall (λ g, en_start g < en_start f) l1 → en_start f < en_start e →
  insert_entry e (l1 ++ f :: l2) = l1 ++ f :: insert_entry e l2.
Proof.
  intros H1 H. induction H1 as [|g l1 Hg _ IH]; cbn [app insert_entry]; [repeat zcase; (done || lia)|]. rewrite IH. repeat zcase; (done || lia).
Qed.

Lemma insert_entry_at e l1 f l2 : Forall (λ g, en_start g < en_start f) l1 → en_start f = en_start e →
  insert_entry e (l1 ++ f :: l2) = l1 ++ f :: l2.
Proof.
  intros H1 H. induction H1 as [|g l1 Hg _ IH]; cbn [app insert_entry]; [repeat zcase; (done || lia)|]. rewrite IH. repeat zcase; (done || lia).
Qed.

Lemma ordered_app l1 f l2 : ordered (l1 ++ f :: l2) ↔
  ordered l1 ∧ ordered l2 ∧ Forall (λ g, en_start g < en_start f) l1 ∧ Forall (λ g, en_start f < en_start g) l2 .
Proof.
  unfold ordered. induction l1 as [|g l1 IH]; cbn [app].
  - split; [intros H%StronglySorted_inv; repeat split; [constructor|..]; naive_solver|]. intros (_ & H2 & _ & H4). by constructor.
  - split.
    + intros [H1 H2]%StronglySorted_inv. apply IH in H1 as (A & B & C & D). apply list.Forall_app in H2 as [E F]. apply list.Forall_cons in F as [F _].
      repeat split; [by constructor|done|by constructor|done].
    + intros (H1 & H2 & H3 & H4). apply StronglySorted_inv in H1 as [H1 E]. inversion H3; subst. constructor; [by apply IH|].
      apply list.Forall_app. split; [done|]. constructor; [done|]. eapply list.Forall_impl; [exact H4|]. cbn. intros; lia.
Qed.

Lemma insert_entry_elem e l x : x ∈ insert_entry e l → x = e ∨ x ∈ l.
Proof.
  induction l as [|f l IH]; cbn; [intros H; left; by apply list_elem_of_singleton|]. repeat zcase; rewrite ?elem_of_cons; naive_solver.
Qed.

Lemma insert_entry_ordered e l : ordered l → ordered (insert_entry e l).
Proof.
  unfold ordered. induction 1 as [|f l Hl IH Hf]; cbn [insert_entry]; [by repeat constructor|]. repeat zcase.
  - constructor; [by constructor|]. constructor; [done|]. eapply list.Forall_impl; [exact Hf|]. cbn. intros; lia.
  - constructor; [done|]. apply list.Forall_forall. intros x [->|Hx]%insert_entry_elem; [done|]. rewrite list.Forall_forall in Hf. by apply Hf.
  - by constructor.
Qed.

(** The height is kept or, if it grows, the node leans to the side of the new start. *)
Definition leans (low : Z) (node : IntervalNode) : Prop :=
  match node with
  | Null => False
  | Node l _ _ _ lc rc _ => (low < l ∧ GetHeight lc = GetHeight rc + 1) ∨ (l < low ∧ GetHeight rc = GetHeight lc + 1)
  end.
Definition grown (low : Z) (old new : IntervalNode) : Prop :=
  GetHeight new = GetHeight old ∨ (GetHeight new = GetHeight old + 1 ∧ (old ≠ Null → leans low new)).

Ltac heights :=
  repeat match goal with H : avl ?n |- _ => lazymatch goal with _ : 0 <= GetHeight n |- _ => fail | _ => pose proof (height_nonneg n H) end end.

Ltac list_eq := repeat (progress (cbn [app]; rewrite <- ?app_assoc)); reflexivity.
Ltac solve_avl :=
  unfold refresh; cbn [avl GetHeight]; unfold GetBalance; cbn [GetHeight]; repeat split; first [exact I | assumption | reflexivity | lia].

Lemma Rebalance_left low nl nh nv lc lc' rc :
  avl lc → avl rc → avl lc' → -1 <= GetBalance lc rc <= 1 → grown low lc lc' → low < nl →
  ∃ n', Rebalance low nl nh nv lc' rc = Ret n' ∧ avl n' ∧ elements n' = elements lc' ++ mkEntry nl nh nv :: elements rc ∧
        ∀ m, grown low (Node nl nh m nv lc rc (Z.max (GetHeight lc) (GetHeight rc) + 1)) n'.
Proof.
  intros Hl Hr Hl' Hb Hg Hlow. heights. unfold Rebalance, GetBalance in *. zcase.
  - destruct Hg as [Hg|[Hg Hlean]]; [lia|]. assert (Hne : lc ≠ Null) by (intros ->; cbn in *; lia). specialize (Hlean Hne).
    destruct lc' as [|ll lh lm lv a b lt]; [done|]. cbn [leans node_low mbind outcome_mbind] in *. cbn [avl GetHeight] in *. unfold GetBalance in *.
    destruct Hl' as (Ha & Hb' & -> & Eh & Hbal). heights. destruct Hlean as [[L1 L2]|[L1 L2]].
    + zcase; [|lia]. cbn [RotateRight refresh]. eexists. split; [done|]. split; [|split].
      * solve_avl.
      * cbn [elements refresh]. list_eq.
      * intros m. left. cbn [GetHeight refresh]. lia.
    + zcase; [lia|]. zcase; [|lia]. destruct b as [|bl bh bm bv T2 T3 bt]; [cbn in *; lia|]. cbn [avl GetHeight] in *. unfold GetBalance in *.
      destruct Hb' as (HT2 & HT3 & -> & Eb & Hbb). heights. cbn [RotateLeft RotateRight refresh mbind outcome_mbind]. eexists. split; [done|]. split; [|split].
      * solve_avl.
      * cbn [elements refresh]. list_eq.
      * intros m. left. cbn [GetHeight refresh]. lia.
  - assert (GetHeight lc <= GetHeight lc') by (destruct Hg as [Hg|[Hg _]]; lia). zcase; [lia|]. eexists. split; [done|]. split; [|split; [done|]].
    + apply avl_refresh; [done|done|unfold GetBalance; lia].
    + intros m. unfold grown. cbn [GetHeight refresh leans]. destruct Hg as [Hg|[Hg _]]; [left; lia|].
      destruct (Z.le_gt_cases (GetHeight lc') (GetHeight rc)); [left; lia|]. destruct (Z.eq_dec (GetHeight lc) (GetHeight rc)); [right|left; lia].
      split; [lia|]. intros _. left. lia.
Qed.

Lemma Rebalance_right low nl nh nv lc rc rc' :
  avl lc → avl rc → avl rc' → -1 <= GetBalance lc rc <= 1 → grown low rc rc' → nl < low →
  ∃ n', Rebalance low nl nh nv lc rc' = Ret n' ∧ avl n' ∧ elements n' = elements lc ++ mkEntry nl nh nv :: elements rc' ∧
        ∀ m, grown low (Node nl nh m nv lc rc (Z.max (GetHeight lc) (GetHeight rc) + 1)) n'.
Proof.
  intros Hl Hr Hr' Hb Hg Hlow. heights. unfold Rebalance, GetBalance in *.
  assert (GetHeight rc <= GetHeight rc') by (destruct Hg as [Hg|[Hg _]]; lia). zcase; [lia|]. zcase.
  - destruct Hg as [Hg|[Hg Hlean]]; [lia|]. assert (Hne : rc ≠ Null) by (intros ->; cbn in *; lia). specialize (Hlean Hne).
    destruct rc' as [|ll lh lm lv a b lt]; [done|]. cbn [leans node_low mbind outcome_mbind] in *. cbn [avl GetHeight] in *. unfold GetBalance in *.
    destruct Hr' as (Ha & Hb' & -> & Eh & Hbal). heights. destruct Hlean as [[L1 L2]|[L1 L2]].
    + zcase; [lia|]. zcase; [|lia]. destruct a as [|bl bh bm bv T2 T3 bt]; [cbn in *; lia|]. cbn [avl GetHeight] in *. unfold GetBalance in *.
      destruct Ha as (HT2 & HT3 & -> & Eb & Hbb). heights. cbn [RotateLeft RotateRight refresh mbind outcome_mbind]. eexists. split; [done|]. split; [|split].
      * solve_avl.
      * cbn [elements refresh]. list_eq.
      * intros m. left. cbn [GetHeight refresh]. lia.
    + zcase; [|lia]. cbn [RotateLeft refresh]. eexists. split; [done|]. split; [|split].
      * solve_avl.
      * cbn [elements refresh]. list_eq.
      * intros m. left. cbn [GetHeight refresh]. lia.
  - eexists. split; [done|]. split; [|split; [done|]].
    + apply avl_refresh; [done|done|unfold GetBalance; lia].
    + intros m. unfold grown. cbn [GetHeight refresh leans]. destruct Hg as [Hg|[Hg _]]; [left; lia|].
      destruct (Z.le_gt_cases (GetHeight rc') (GetHeight lc)); [left; lia|]. destruct (Z.eq_dec (GetHeight lc) (GetHeight rc)); [right|left; lia].
      split; [lia|]. intros _. right. lia.
Qed.

(** [InsertNode] never follows a null pointer, keeps the tree balanced and does to the entries in
    order what the reference does. *)
Lemma InsertNode_spec node low high value size arena :
  avl node → ordered (elements node) →
  ∃ n' arena', InsertNode node low high value size arena =
      Ret (n', size + (length (elements n') - length (elements node)), arena') ∧
    avl n' ∧ grown low node n' ∧ elements n' = insert_entry (mkEntry low high value) (elements node).
Proof.
  induction node as [|nl nh m nv lc IHl rc IHr ht]; intros Ha Ho; cbn [InsertNode].
  - exists (Node low high high value Null Null 1), (Allocate arena).2. split; [cbn [elements app length]; pair_eq; lia|]. split; [solve_avl|]. split; [right; cbn; split; [lia|done]|done].
  - cbn [avl elements] in Ha, Ho. destruct Ha as (Hl & Hr & Hm & Ht & Hb). pose proof Ho as (Ol & Or & Fl & Fr)%ordered_app. zcase; [|zcase].
    + destruct (IHl Hl Ol) as (l' & ar & -> & Al & Gl & El). cbn [mbind outcome_mbind].
      destruct (Rebalance_left low nl nh nv lc l' rc) as (n' & -> & An & En & Gn); try done. cbn [mbind outcome_mbind]. subst ht.
      eexists _, _. split; [|split; [done|split; [apply Gn|]]].
      * rewrite En. cbn [elements]. rewrite !length_app. pair_eq. lia.
      * rewrite En, El. cbn [elements]. symmetry. by apply insert_entry_left.
    + destruct (IHr Hr Or) as (r' & ar & -> & Ar & Gr & Er). cbn [mbind outcome_mbind].
      destruct (Rebalance_right low nl nh nv lc rc r') as (n' & -> & An & En & Gn); try done. cbn [mbind outcome_mbind]. subst ht.
      eexists _, _. split; [|split; [done|split; [apply Gn|]]].
      * rewrite En. cbn [elements]. rewrite !length_app. cbn [length]. pair_eq. lia.
      * rewrite En, Er. cbn [elements]. symmetry. by apply insert_entry_right.
    + exists (Node nl nh m nv lc rc ht), arena. split; [pair_eq; lia|]. split; [done|]. split; [by left|]. cbn [elements]. symmetry. apply insert_entry_at; [done|cbn; lia].
Qed.

(** The maximum of a subtree is the greatest end in it. *)
Lemma node_max node : avl node →
  match node with
  | Null => True
  | Node _ _ m _ _ _ _ => (∀ e, e ∈ elements node → en_end e <= m) ∧ ∃ e, e ∈ elements node ∧ en_end e = m
  end.
Proof.
  induction node as [|l h m v lc IHl rc IHr ht]; [done|]. cbn [avl elements]. intros (Hl & Hr & -> & _ & _). specialize (IHl Hl). specialize (IHr Hr).
  assert (HL : ∀ f : IntervalNode → Prop, (lc = Null → f lc) → (lc ≠ Null → f lc) → f lc) by (intros f; destruct lc; naive_solver).
  unfold GetMax. split.
  - intros e [He|[->|He]%elem_of_cons]%elem_of_app; cbn.
    + destruct lc; [by apply elem_of_nil in He|]. destruct IHl as [I1 _]. specialize (I1 e He). destruct rc; lia.
    + destruct lc, rc; lia.
    + destruct rc; [by apply elem_of_nil in He|]. destruct IHr as [I1 _]. specialize (I1 e He). destruct lc; lia.
  - assert (Hn : ∃ e, e ∈ elements lc ++ mkEntry l h v :: elements rc ∧ en_end e = h).
    { exists (mkEntry l h v). split; [|done]. apply elem_of_app. right. apply elem_of_cons. by left. }
    assert (Hm : match lc with Null => True | Node _ _ m _ _ _ _ => ∃ e, e ∈ elements lc ++ mkEntry l h v :: elements rc ∧ en_end e = m end).
    { destruct lc; [done|]. destruct IHl as [_ (e & He & <-)]. exists e. split; [|done]. apply elem_of_app. by left. }
    assert (Hm' : match rc with Null => True | Node _ _ m _ _ _ _ => ∃ e, e ∈ elements lc ++ mkEntry l h v :: elements rc ∧ en_end e = m end).
    { destruct rc; [done|]. destruct IHr as [_ (e & He & <-)]. exists e. split; [|done]. apply elem_of_app. right. apply elem_of_cons. by right. }
    clear HL IHl IHr. destruct lc, rc; try done;
      repeat match goal with |- context [Z.max ?a ?b] => destruct (Z.max_spec a b) as [[_ ->]|[_ ->]] end; done.
Qed.

Lemma SearchNode_sound node a v : SearchNode node a = Some v →
  ∃ e, e ∈ elements node ∧ holds_addr a e = true ∧ en_value e = v.
Proof.
  induction node as [|l h m w lc IHl rc IHr ht]; [done|]. cbn [SearchNode elements]. intros H.
  destruct ((l <=? a) && (a <=? h)) eqn:E.
  - injection H as <-. exists (mkEntry l h w). split; [|done]. apply elem_of_app. right. apply elem_of_cons. by left.
  - assert (HR : SearchNode rc a = Some v → ∃ e, e ∈ elements lc ++ mkEntry l h w :: elements rc ∧ holds_addr a e = true ∧ en_value e = v).
    { intros (e & He & Ha)%IHr. exists e. split; [|done]. apply elem_of_app. right. apply elem_of_cons. by right. }
    destruct lc as [|ll lh lm lv a1 a2 lt]; [by apply HR|]. destruct (a <=? lm); [|by apply HR].
    destruct (IHl H) as (e & He & Ha). exists e. split; [|done]. apply elem_of_app. by left.
Qed.

(** The search finds an entry whenever there is one, also when entries overlap. *)
Lemma SearchNode_complete node a e : avl node → ordered (elements node) → e ∈ elements node → holds_addr a e = true →
  SearchNode node a ≠ None.
Proof.
  revert e. induction node as [|l h m w lc IHl rc IHr ht]; intros e Ha Ho He Hc; [by apply elem_of_nil in He|].
  cbn [SearchNode elements avl] in *. destruct ((l <=? a) && (a <=? h)) eqn:E; [done|].
  apply ordered_app in Ho as (Ol & Or & Fl & Fr). destruct Ha as (Al & Ar & _). rewrite !list.Forall_forall in *. cbn [en_start] in *.
  apply elem_of_app in He as [He|[->|He]%elem_of_cons].
  - pose proof (node_max lc Al) as Hm. destruct lc as [|ll lh lm lv a1 a2 lt]; [by apply elem_of_nil in He|]. destruct Hm as [Hm _].
    specialize (Hm e He). unfold holds_addr in Hc. zbool. zcase; [|lia]. apply (IHl e); try done. unfold holds_addr. lia.
  - unfold holds_addr in Hc. cbn in Hc. congruence.
  - pose proof (node_max lc Al) as Hm. destruct lc as [|ll lh lm lv a1 a2 lt]; [by apply (IHr e)|]. zcase; [|by apply (IHr e)].
    destruct Hm as [_ (f & Hf & Em)]. apply (IHl f); try done. specialize (Fl f Hf). specialize (Fr e He). unfold holds_addr in *. zbool. lia.
Qed.

Lemma preorder_perm node : preorder node ≡ₚ elements node.
Proof.
  induction node as [|l h m v lc IHl rc IHr ht]; [done|]. cbn. rewrite IHl, IHr. by rewrite Permutation_middle.
Qed.

Lemma filter_none {A} (f : A → bool) l : (∀ x, x ∈ l → f x = false) → List.filter f l = [].
Proof.
  induction l as [|x l IH]; intros H; [done|]. cbn. rewrite H by (apply elem_of_cons; by left). apply IH. intros y Hy. apply H. apply elem_of_cons. by right.
Qed.

Lemma SearchRangeNode_spec node low high : avl node → ordered (elements node) →
  SearchRangeNode node low high = map en_value (List.filter (overlapping low high) (preorder node)).
Proof.
  induction node as [|l h m v lc IHl rc IHr ht]; [done|]. cbn [SearchRangeNode preorder avl elements List.filter]. intros (Al & Ar & _) Ho.
  apply ordered_app in Ho as (Ol & Or & Fl & Fr). rewrite List.filter_app.
  assert (EL : (match lc with Null => [] | Node _ _ lmax _ _ _ _ => if low <=? lmax then SearchRangeNode lc low high else [] end)
    = map en_value (List.filter (overlapping low high) (preorder lc))).
  { pose proof (node_max lc Al) as Hm. rewrite <- (IHl Al Ol). destruct lc as [|ll lh lm lv a1 a2 lt]; [done|]. zcase; [done|].
    rewrite (IHl Al Ol), filter_none; [done|]. intros e He. rewrite preorder_perm in He. destruct Hm as [Hm _]. specialize (Hm e He). unfold overlapping. apply andb_false_iff. rewrite !Z.leb_gt. lia. }
  assert (ER : (match rc with Null => [] | Node _ _ _ _ _ _ _ => if l <=? high then SearchRangeNode rc low high else [] end)
    = map en_value (List.filter (overlapping low high) (preorder rc))).
  { rewrite <- (IHr Ar Or). destruct rc as [|ll lh lm lv a1 a2 lt]; [done|]. zcase; [done|].
    rewrite (IHr Ar Or), filter_none; [done|]. intros e He. rewrite preorder_perm in He. rewrite list.Forall_forall in Fr. specialize (Fr e He). cbn in Fr.
    unfold overlapping. apply andb_false_iff. rewrite !Z.leb_gt. lia. }
  rewrite EL, ER, <- map_app. change (overlapping low high (mkEntry l h v)) with ((low <=? h) && (l <=? high)). by destruct ((low <=? h) && (l <=? high)).
Qed.

(** A balanced tree of height [h] has at least 2^(h/2) - 1 entries. *)
Lemma avl_size node : avl node → 2 ^ (GetHeight node / 2) <= length (elements node) + 1.
Proof.
  induction node as [|l h m v lc IHl rc IHr ht]; [done|]. cbn [avl elements GetHeight]. intros (Al & Ar & _ & -> & Hb). unfold GetBalance in Hb.
  specialize (IHl Al). specialize (IHr Ar). rewrite length_app. cbn [length]. pose proof (height_nonneg lc Al). pose proof (height_nonneg rc Ar).
  set (hh := Z.max (GetHeight lc) (GetHeight rc) + 1) in *. destruct (Z.le_gt_cases hh 1) as [H1|H1].
  - assert (hh / 2 <= 0) by (Z.to_euclidean_division_equations; lia). destruct (Z.eq_dec (hh / 2) 0) as [->|]; [change (2 ^ 0) with 1; lia|].
    rewrite Z.pow_neg_r by lia. lia.
  - replace (hh / 2) with (Z.succ ((hh - 2) / 2)) by (Z.to_euclidean_division_equations; lia). rewrite Z.pow_succ_r by (apply Z.div_pos; lia).
    assert (2 ^ ((hh - 2) / 2) <= 2 ^ (GetHeight lc / 2)) by (apply Z.pow_le_mono_r; [lia|apply Z.div_le_mono; lia]).
    assert (2 ^ ((hh - 2) / 2) <= 2 ^ (GetHeight rc / 2)) by (apply Z.pow_le_mono_r; [lia|apply Z.div_le_mono; lia]). lia.
Qed.

Lemma avl_height node : avl node → GetHeight node <= 2 * Z.log2 (length (elements node) + 1) + 1.
Proof.
  intros H. pose proof (avl_size node H) as Hs. pose proof (height_nonneg node H).
  apply Z.log2_le_pow2 in Hs; [|lia]. Z.to_euclidean_division_equations; lia.
Qed.

Lemma insert_entry_fresh e l : Forall (λ f, en_start f ≠ en_start e) l → insert_entry e l ≡ₚ e :: l.
Proof.
  induction 1 as [|f l Hf _ IH]; [done|]. cbn [insert_entry]. repeat zcase; [done| |lia]. rewrite IH. apply Permutation_swap.
Qed.

#[export] Instance tree_lawful : AddressIndex IntervalTree.
Proof.
  refine {| ix_holds l t := (avl (root_ t) ∧ ordered (elements (root_ t)) ∧ size_ t = length (elements (root_ t))) ∧ elements (root_ t) ≡ₚ l ∧ spread l;
            ix_accepts _ := True; ix_sees _ _ := true |}.
  - by intros l t (_ & _ & H).
  - intros l l' t E (Ht & Hp & Hs). split; [done|]. split; [by rewrite Hp|by apply (spread_perm l)].
  - intros e l t ((Ha & Ho & Hz) & Hp & Hs) He _ Hap. cbn. unfold tree_Insert. pose proof He as [He1 _]. zcase; [lia|].
    destruct (InsertNode_spec (root_ t) (en_start e) (en_end e) (en_value e) (size_ t) (arena_ t)) as (n' & ar & -> & An & _ & En); [done|done|].
    replace (mkEntry (en_start e) (en_end e) (en_value e)) with e in En by (by destruct e).
    assert (Hin : elements n' ≡ₚ e :: elements (root_ t)).
    { rewrite En. apply insert_entry_fresh. rewrite Hp. apply list.Forall_forall. intros f Hf. rewrite list.Forall_forall in Hap. apply not_eq_sym, apart_start; [done| |by apply Hap].
      destruct Hs as (_ & Hs & _). rewrite list.Forall_forall in Hs. by apply Hs. }
    pose proof (Permutation_length Hin) as L. cbn [length] in L. cbn [mbind outcome_mbind]. eexists. split; [|split; [split; [|split]|split]].
    + pair_eq. apply Z.ltb_lt. lia.
    + done.
    + cbn. rewrite En. by apply insert_entry_ordered.
    + cbn. rewrite Hz. lia.
    + cbn. by rewrite Hin, Hp.
    + by apply spread_cons.
  - intros a l t ((Ha & Ho & _) & Hp & Hs) _. cbn. do 2 f_equal. rewrite <- (find_perm a (elements (root_ t))) by (done || by apply (spread_perm l)).
    apply lookup_exact; [by apply (spread_perm l)| |].
    + intros v. apply SearchNode_sound.
    + intros e. by apply SearchNode_complete.
  - intros a l t ((Ha & Ho & _) & Hp & Hs) _. cbn. do 2 f_equal. rewrite existsb_find, <- (find_perm a (elements (root_ t))) by (done || by apply (spread_perm l)).
    replace (tree_Search a t) with (en_value <$> List.find (holds_addr a) (elements (root_ t))); [by destruct (List.find _ _)|].
    symmetry. apply lookup_exact; [by apply (spread_perm l)| |].
    + intros v. apply SearchNode_sound.
    + intros e. by apply SearchNode_complete.
  - intros l t _. split; [split; [done|split; [constructor|done]]|]. split; [done|apply spread_nil].
  - intros l t ((_ & _ & Hz) & Hp & _). cbn. by rewrite Hz, Hp.
Defined.

(** What is in a tree after insertions of arbitrary intervals: the ones with a start below their
    end, the first for each start. *)
Definition kept (es : list Entry) : list Entry :=
  fold_left (λ l e, if en_end e <? en_start e then l else insert_entry e l) es [].

Definition tree_ok (l : list Entry) (t : IntervalTree) : Prop :=
  avl (root_ t) ∧ ordered l ∧ elements (root_ t) = l ∧ size_ t = length l.

Lemma insert_all_tree es t l : tree_ok l t →
  ∃ t', insert_all es t = Ret t' ∧ tree_ok (fold_left (λ l e, if en_end e <? en_start e then l else insert_entry e l) es l) t'.
Proof.
  revert t l. induction es as [|e es IH]; intros t l Ht; [by exists t|]. cbn [insert_all fold_left ai_Insert tree_index]. unfold tree_Insert.
  zcase; [cbn [mbind outcome_mbind]; by apply IH|]. destruct Ht as (Ha & Ho & El & Hz). rewrite <- El in Ho.
  destruct (InsertNode_spec (root_ t) (en_start e) (en_end e) (en_value e) (size_ t) (arena_ t)) as (n' & ar & -> & An & _ & En); [done|done|].
  replace (mkEntry (en_start e) (en_end e) (en_value e)) with e in En by (by destruct e). rewrite El in En. cbn [mbind outcome_mbind]. apply IH.
  split; [done|]. split; [rewrite <- El; by apply insert_entry_ordered|]. split; [done|]. cbn. rewrite Hz, En, El. lia.
Qed.

#[local] Instance bool_filter_perm {A} (f : A → bool) : Proper (Permutation ==> Permutation) (List.filter f).
Proof.
  intros l l' H. induction H as [|x l l' _ IH|x y l|l1 l2 l3 _ IH1 _ IH2]; cbn; [done|by destruct (f x); rewrite IH| |by rewrite IH1].
  destruct (f x), (f y); try done. apply Permutation_swap.
Qed.

(** C25. Interval trees on any input.  Insertions of arbitrary intervals into an empty tree, overlapping
    or not, follow no null pointer and leave a tree that holds, in order, the first interval
    inserted for each start; it is no higher than twice the logarithm of its size, plus one.
    [Search] finds an interval that contains the address whenever there is one; [SearchRange]
    returns the values of the intervals that overlap the range. *)
Theorem interval_tree_search es : ∃ t, insert_all es IntervalTree_new = Ret t ∧
  elements (root_ t) = kept es ∧ size_ t = length (kept es) ∧ GetHeight (root_ t) <= 2 * Z.log2 (length (kept es) + 1) + 1 ∧
  (∀ a v, tree_Search a t = Some v → ∃ e, e ∈ kept es ∧ holds_addr a e = true ∧ en_value e = v) ∧
  (∀ a e, e ∈ kept es → holds_addr a e = true → tree_Search a t ≠ None) ∧
  (∀ low high, SearchRange low high t ≡ₚ map en_value (List.filter (overlapping low high) (kept es))).
Proof.
  destruct (insert_all_tree es IntervalTree_new []) as (t & Et & Ha & Ho & El & Hz).
  { split; [done|]. split; [constructor|]. done. }
  fold (kept es) in Ho, El, Hz. exists t. rewrite <- El in *. split; [done|]. split; [done|]. split; [done|]. split; [by apply avl_height|]. split; [|split].
  - intros a v. apply SearchNode_sound.
  - intros a e. by apply SearchNode_complete.
  - intros low high. unfold SearchRange. rewrite (SearchRangeNode_spec _ _ _ Ha Ho). apply Permutation_map. by rewrite preorder_perm.
Qed.

(** *** The arena: the [n]-th node of an arena is in the (n / 146)-th chunk, behind the others. *)
Fixpoint allocate_times (n : nat) (s : NodeArena) : list (nat * Z) :=
  match n with O => [] | S n' => let '(p, s) := Allocate s in p :: allocate_times n' s end.

Lemma allocate_nth n i c : (i < n)%nat → 0 <= c →
  allocate_times n (mkArena (Z.to_nat ((c + 145) / 146)) (if c =? 0 then 0 else ((c - 1) mod 146 + 1) * 56)) !! i =
  Some (Z.to_nat ((c + i) / 146), (c + i) mod 146 * 56).
Proof.
  revert i c. induction n as [|n IH]; intros i c Hi Hc; [lia|]. cbn [allocate_times].
  set (s := mkArena _ _).
  assert (E : Allocate s = ((Z.to_nat (c / 146), c mod 146 * 56), mkArena (Z.to_nat ((c + 1 + 145) / 146)) (((c + 1 - 1) mod 146 + 1) * 56))).
  { unfold Allocate, s, CHUNK_BYTES, sizeof_IntervalNode. cbn [chunks_ chunkUsed_]. destruct (Z.eqb_spec c 0) as [->|Hn]; [done|].
    assert (Z.to_nat ((c + 145) / 146) ≠ 0)%nat by (Z.to_euclidean_division_equations; lia). rewrite (proj2 (Nat.eqb_neq _ _)) by done. cbn [orb].
    zcase; cbn [chunks_ chunkUsed_]; pair_eq; first [apply (f_equal2 mkArena)|idtac]; Z.to_euclidean_division_equations; lia. }
  rewrite E. destruct i as [|i]; [cbn [lookup list_lookup]; by rewrite Z.add_0_r|].
  assert (Hz : (c + 1 =? 0) = false) by lia.
  specialize (IH i (c + 1) ltac:(lia) ltac:(lia)). rewrite Hz in IH. replace (c + S i) with (c + 1 + i) by lia. exact IH.
Qed.

(** Nodes lie within their chunks and do not overlap. *)
Lemma allocate_disjoint n i j p q : allocate_times n NodeArena_new !! i = Some p → allocate_times n NodeArena_new !! j = Some q →
  0 <= p.2 ∧ p.2 + sizeof_IntervalNode <= CHUNK_BYTES ∧ (i ≠ j → p.1 ≠ q.1 ∨ p.2 + sizeof_IntervalNode <= q.2 ∨ q.2 + sizeof_IntervalNode <= p.2).
Proof.
  intros Hi Hj. assert (Hn : ∀ i p, allocate_times n NodeArena_new !! i = Some p → (i < n)%nat ∧ p = (Z.to_nat (i / 146), i mod 146 * 56)).
  { clear. intros i p Hi. assert (Hlen : length (allocate_times n NodeArena_new) = n).
    { generalize NodeArena_new. clear. induction n as [|n IH]; intros s; [done|]. cbn. by rewrite IH. }
    pose proof (lookup_lt_Some _ _ _ Hi) as L. rewrite Hlen in L. split; [done|]. pose proof (allocate_nth n i 0 L ltac:(lia)) as E.
    change (mkArena _ _) with NodeArena_new in E. rewrite E in Hi. by injection Hi as <-. }
  apply Hn in Hi as [_ ->], Hj as [_ ->]. cbn [fst snd]. unfold sizeof_IntervalNode, CHUNK_BYTES.
  split; [|split]; [Z.to_euclidean_division_equations; lia..|]. intros Hne. destruct (Z.eq_dec (i / 146) (j / 146)) as [E|E].
  - right. Z.to_euclidean_division_equations; lia.
  - left. pose proof (Z.div_pos i 146). pose proof (Z.div_pos j 146). lia.
Qed.

(** *** The range map *)
Lemma split_at_spec before l l1 l2 : ordered l → split_at before l = (l1, l2) →
  (∀ e f, en_start e < en_start f → before f = true → before e = true) →
  l = l1 ++ l2 ∧ Forall (λ e, before e = true) l1 ∧ Forall (λ e, before e = false) l2.
Proof.
  intros Ho E Hmono. revert l1 l2 E. induction Ho as [|e l Ho IH He]; intros l1 l2 E; cbn in E; [injection E as <- <-; by repeat constructor|].
  destruct (before e) eqn:Eb.
  - destruct (split_at before l) as [a b]. injection E as <- <-. destruct (IH _ _ eq_refl) as (-> & H1 & H2). split; [done|]. split; [by constructor|done].
  - injection E as <- <-. split; [done|]. split; [constructor|]. constructor; [done|]. eapply list.Forall_impl; [exact He|]. intros f Hf. cbn in Hf.
    destruct (before f) eqn:Ef; [|done]. by rewrite (Hmono e f Hf Ef) in Eb.
Qed.

(** In an ordered list without overlaps the last entry ends last. *)
Lemma last_ends_last l e : ordered l → spread l → list.last l = Some e → ∀ f, f ∈ l → en_end f <= en_end e.
Proof.
  intros Ho (_ & Hok & Hap) (l' & ->)%last_Some f [Hf| ->%list_elem_of_singleton]%elem_of_app; [|lia].
  apply ordered_app in Ho as (_ & _ & Hlt & _). rewrite !list.Forall_forall in *. specialize (Hlt f Hf).
  assert (Hin : f ∈ l' ++ [e]) by (apply elem_of_app; by left). assert (Hie : e ∈ l' ++ [e]) by (apply elem_of_app; right; by apply list_elem_of_singleton).
  destruct (Hok e Hie). specialize (Hap f e Hin Hie ltac:(intros ->; lia)). unfold apart, overlapping in Hap. zbool. rewrite !Z.leb_gt in Hap. lia.
Qed.

Lemma spread_app l1 l2 : spread (l1 ++ l2) → spread l1 ∧ spread l2.
Proof.
  intros (H1 & H2 & H3). apply list.NoDup_app in H1 as (N1 & _ & N2). apply list.Forall_app in H2 as [F1 F2].
  split; (split; [done|]; split; [done|]); intros e f He Hf; apply H3; apply elem_of_app; auto.
Qed.

Lemma insert_entry_split e l1 l2 : Forall (λ f, en_start f < en_start e) l1 → Forall (λ f, en_start e < en_start f) l2 →
  insert_entry e (l1 ++ l2) = l1 ++ e :: l2.
Proof.
  intros H1 H2. induction H1 as [|g l1 Hg _ IH]; cbn [app insert_entry]; [|rewrite IH; repeat zcase; (done || lia)].
  destruct H2 as [|f l2 Hf]; [done|]. cbn [insert_entry]. zcase; [done|lia].
Qed.

(** [StoreRange] refuses what overlaps a stored range, as a scan of all of them would. *)
Lemma StoreRange_spec base size v s : ordered (map_ s) → spread (map_ s) → 0 <= base → 0 < size → base + size < 2 ^ 64 →
  let high := base + size - 1 in
  StoreRange base size v s =
    if existsb (overlapping base high) (map_ s) then (false, s)
    else (true, mkRangeMap (insert_entry (mkEntry base high v) (map_ s)) (Z.max (high_ s) high)).
Proof.
  intros Ho Hs Hb Hz Hf. cbn zeta. set (high := base + size - 1). unfold StoreRange. destruct (Z.eqb_spec size 0); [lia|].
  rewrite (proj2 (fitsb_spec 64 (base + size))) by (unfold fits; lia). cbn [negb]. fold high.
  destruct (lower_bound base (map_ s)) as [l1 l2] eqn:E. apply split_at_spec in E as (E & F1 & F2); [|done|cbn; intros; lia].
  rewrite E, existsb_app. rewrite E in Ho, Hs. destruct (spread_app _ _ Hs) as [S1 S2].
  assert (Hok : ∀ e, e ∈ l1 ++ l2 → entry_ok e) by (destruct Hs as (_ & Hs & _); rewrite list.Forall_forall in Hs; exact Hs).
  assert (E2 : existsb (overlapping base high) l2 = match l2 with e :: _ => en_start e <=? high | [] => false end).
  { destruct l2 as [|e l2]; [done|]. apply ordered_app in Ho as (_ & _ & _ & Hgt). destruct (Hok e) as [? _]; [apply elem_of_app; right; apply elem_of_cons; by left|].
    cbn [existsb]. apply Forall_cons_1 in F2 as [F2 _]. unfold overlapping at 1. destruct (Z.leb_spec base (en_end e)); [|lia]. cbn [andb].
    destruct (Z.leb_spec (en_start e) high); [done|]. cbn [orb]. apply not_true_iff_false. intros (f & Hf' & Hov)%existsb_exists.
    rewrite list.Forall_forall in Hgt. apply list_elem_of_In in Hf'. specialize (Hgt f Hf'). unfold overlapping in Hov. zbool. lia. }
  assert (O1 : ordered l1).
  { destruct l2 as [|e l2]; [by rewrite app_nil_r in Ho|by apply ordered_app in Ho as (Ho & _)]. }
  assert (E1 : existsb (overlapping base high) l1 = match list.last l1 with Some e => base <=? en_end e | None => false end).
  { destruct (list.last l1) as [e|] eqn:El; [|by apply last_None in El as ->].
    pose proof (last_ends_last l1 e O1 S1 El) as Hmax. assert (He : e ∈ l1) by (apply last_Some in El as [l' ->]; apply elem_of_app; right; by apply list_elem_of_singleton).
    rewrite list.Forall_forall in F1. pose proof (F1 e He). zbool. destruct (Z.leb_spec base (en_end e)).
    - apply existsb_exists. exists e. split; [by apply list_elem_of_In|]. unfold overlapping. lia.
    - apply not_true_iff_false. intros (f & Hf' & Hov)%existsb_exists. apply list_elem_of_In in Hf'. specialize (Hmax f Hf'). unfold overlapping in Hov. zbool. lia. }
  rewrite E1, E2. destruct (match l2 with [] => false | e :: _ => en_start e <=? high end) eqn:D2; [by rewrite orb_true_r|]. rewrite orb_false_r.
  destruct (match list.last l1 with Some e => base <=? en_end e | None => false end); [done|].
  rewrite insert_entry_split; [|eapply list.Forall_impl; [exact F1|cbn; lia]|].
  - do 2 f_equal. zcase; lia.
  - apply list.Forall_forall. intros f Hf'. cbn. rewrite list.Forall_forall in F2. specialize (F2 f Hf'). zbool. destruct l2 as [|e l2]; [by apply elem_of_nil in Hf'|]. zbool.
    apply ordered_app in Ho as (_ & _ & _ & Hgt). rewrite list.Forall_forall in Hgt. apply elem_of_cons in Hf' as [->|Hf']; [lia|]. specialize (Hgt f Hf'). lia.
Qed.

Lemma RetrieveRange_spec a s : ordered (map_ s) → spread (map_ s) → RetrieveRange a s = en_value <$> List.find (holds_addr a) (map_ s).
Proof.
  intros Ho Hs. unfold RetrieveRange. destruct (upper_bound a (map_ s)) as [l1 l2] eqn:E. apply split_at_spec in E as (E & F1 & F2); [|done|cbn; intros; lia].
  rewrite E in *. cbn [fst]. rewrite !list.Forall_forall in *. destruct (spread_app _ _ Hs) as [S1 S2].
  assert (O1 : ordered l1).
  { destruct l2 as [|e l2]; [by rewrite app_nil_r in Ho|by apply ordered_app in Ho as (Ho & _)]. }
  assert (H2 : ∀ e, e ∈ l2 → holds_addr a e = false) by (intros e He; specialize (F2 e He); unfold holds_addr; zbool; lia).
  destruct (list.last l1) as [e|] eqn:El.
  - pose proof (last_ends_last l1 e O1 S1 El) as Hmax. assert (He : e ∈ l1) by (apply last_Some in El as [l' ->]; apply elem_of_app; right; by apply list_elem_of_singleton).
    destruct (holds_addr a e) eqn:Ea; [by rewrite (find_unique a (l1 ++ l2) e) by (done || (apply elem_of_app; by left))|].
    rewrite find_no_addr; [done|]. intros f [Hf|Hf]%elem_of_app; [|by apply H2]. specialize (Hmax f Hf). pose proof (F1 e He). unfold holds_addr in *. zbool. destruct Ea as [Ea|Ea]; zbool; lia.
  - apply last_None in El as ->. rewrite find_no_addr; [done|]. exact H2.
Qed.

#[export] Instance rangemap_lawful : AddressIndex RangeMap.
Proof.
  refine {| ix_holds l s := map_ s ≡ₚ l ∧ ordered (map_ s) ∧ spread l; ix_accepts e := en_end e < 2 ^ 64 - 1; ix_sees _ _ := true |}.
  - by intros l s (_ & _ & H).
  - intros l l' s E (Hp & Ho & Hs). split; [by rewrite Hp|]. split; [done|by apply (spread_perm l)].
  - intros e l s (Hp & Ho & Hs) He Hacc Hap. assert (Hs' : spread (map_ s)) by by apply (spread_perm l).
    cbn. unfold rangemap_Insert. pose proof He as [He1 He2]. zcase; [lia|]. rewrite wrap_small by (unfold fits; lia).
    rewrite StoreRange_spec by (done || lia). replace (en_start e + (en_end e - en_start e + 1) - 1) with (en_end e) by lia.
    replace (mkEntry (en_start e) (en_end e) (en_value e)) with e by (by destruct e). rewrite <- Hp in Hap.
    assert (existsb (overlapping (en_start e) (en_end e)) (map_ s) = false) as ->.
    { apply not_true_iff_false. intros (f & Hf & Ho')%existsb_exists. apply list_elem_of_In in Hf. rewrite list.Forall_forall in Hap. specialize (Hap f Hf). unfold apart in Hap. congruence. }
    eexists. split; [done|]. cbn [map_]. split; [|split; [by apply insert_entry_ordered|rewrite Hp in Hap; by apply spread_cons]].
    rewrite <- Hp. apply insert_entry_fresh. apply list.Forall_forall. intros f Hf. rewrite list.Forall_forall in Hap. apply not_eq_sym, apart_start; [done| |by apply Hap].
    destruct Hs' as (_ & Hs' & _). rewrite list.Forall_forall in Hs'. by apply Hs'.
  - intros a l s (Hp & Ho & Hs) _. cbn. do 2 f_equal. assert (Hs' : spread (map_ s)) by by apply (spread_perm l). rewrite <- (find_perm a (map_ s)) by done. by apply RetrieveRange_spec.
  - intros a l s (Hp & Ho & Hs) _. cbn. do 2 f_equal. assert (Hs' : spread (map_ s)) by by apply (spread_perm l). unfold HasRange.
    rewrite existsb_find, <- (find_perm a (map_ s)), RetrieveRange_spec by done. by destruct (List.find _ _).
  - intros l s _. split; [done|]. split; [constructor|apply spread_nil].
  - intros l s (Hp & _ & _). cbn. unfold GetRangeSize. by rewrite Hp.
Defined.

(** *** The bitmap *)

Ltac bool_lia :=
  repeat match goal with
  | |- context [?a <=? ?b] => destruct (Z.leb_spec a b)
  | |- context [?a <? ?b] => destruct (Z.ltb_spec a b)
  | |- context [?a =? ?b] => destruct (Z.eqb_spec a b)
  end; cbn [andb orb negb]; rewrite ?andb_false_r, ?orb_false_r, ?andb_true_r, ?orb_true_r; first [done|lia].

(** Bit [j] of word [k], and the mark of a cell of the address space. *)
Definition bit_at (ws : list Z) (k j : Z) : bool := match ws !! Z.to_nat k with Some w => Z.testbit w j | None => false end.
Definition marked (b : BitmapIndex) (i : Z) : bool := bit_at (bitmap_ b) (i / BITS_PER_WORD) (i mod BITS_PER_WORD).

Record bitmap_ok (b : BitmapIndex) : Prop := {
  bo_gran : fits 32 (granularity_ b);
  bo_count : 0 <= bitCount_ b <= maxBitMapSize;
  bo_off : granularity_ b = 0 → bitCount_ b = 0;
  bo_words : length (bitmap_ b) = Z.to_nat ((bitCount_ b + 63) / 64);
  bo_fits : Forall (fits 64) (bitmap_ b);
  bo_clear i : bitCount_ b <= i → marked b i = false
}.

Lemma bit_at_replicate n k j : bit_at (replicate n 0) k j = false.
Proof.
  unfold bit_at. destruct (replicate n 0 !! Z.to_nat k) as [w|] eqn:E; [|done]. apply lookup_replicate in E as [-> _]. apply Z.bits_0.
Qed.

Lemma BitmapIndex_new_ok range gran : 0 <= range → fits 32 gran → bitmap_ok (BitmapIndex_new range gran).
Proof.
  intros Hr Hg. unfold BitmapIndex_new. destruct (Z.eqb_spec gran 0); [|zcase].
  - split; cbn; [unfold fits; lia|unfold maxBitMapSize; lia|done|done|constructor|done].
  - split; cbn; [unfold fits; lia|unfold maxBitMapSize; lia|done|done|constructor|done].
  - pose proof (wrap_range 64 (range / gran + 1) ltac:(lia)). split; cbn [granularity_ bitCount_ bitmap_]; [done|lia|done|by rewrite length_replicate| |].
    + apply list.Forall_forall. intros w [-> _]%elem_of_replicate. unfold fits. lia.
    + intros i _. apply bit_at_replicate.
Qed.

Lemma set_word_spec i w ws : 0 <= i < length ws →
  ∃ ws', set_word i w ws = Ret ws' ∧ length ws' = length ws ∧ (Forall (fits 64) ws → fits 64 w → Forall (fits 64) ws') ∧
         ∀ k j, 0 <= k → bit_at ws' k j = if k =? i then Z.testbit w j else bit_at ws k j.
Proof.
  intros Hi. unfold set_word. destruct (lookup_lt_is_Some_2 ws (Z.to_nat i)) as [x Ex]; [lia|]. rewrite Ex. eexists. split; [done|].
  split; [apply length_insert|]. split; [intros; by apply Forall_insert|]. intros k j Hk. unfold bit_at. destruct (Z.eqb_spec k i) as [->|Hne].
  - by rewrite list_lookup_insert_eq by lia.
  - by rewrite list_lookup_insert_ne by lia.
Qed.

Lemma or_word_spec i m ws : 0 <= i < length ws →
  ∃ ws', or_word i m ws = Ret ws' ∧ length ws' = length ws ∧ (Forall (fits 64) ws → fits 64 m → Forall (fits 64) ws') ∧
         ∀ k j, 0 <= k → bit_at ws' k j = bit_at ws k j || ((k =? i) && Z.testbit m j).
Proof.
  intros Hi. unfold or_word, word_at. destruct (lookup_lt_is_Some_2 ws (Z.to_nat i)) as [x Ex]; [lia|]. rewrite Ex. cbn [mbind outcome_mbind].
  destruct (set_word_spec i (Z.lor x m) ws Hi) as (ws' & E & L & F & B). exists ws'. split; [done|]. split; [done|]. split.
  - intros Fw Fm. apply F; [done|]. apply fits_lor; [lia| |done]. by apply (Forall_lookup_1 _ _ _ _ Fw Ex).
  - intros k j Hk. rewrite (B k j Hk). destruct (Z.eqb_spec k i) as [->|Hne]; [|by rewrite orb_false_r]. unfold bit_at. rewrite Ex. apply Z.lor_spec.
Qed.

Lemma shiftl_1_bit n j : 0 <= n < 64 → 0 <= j → Z.testbit (u64 (Z.shiftl 1 n)) j = (j =? n).
Proof.
  intros Hn Hj. rewrite wrap_small; [|rewrite Z.shiftl_1_l; split; [lia|apply Z.pow_lt_mono_r; lia]].
  rewrite Z.shiftl_1_l. destruct (Z.eqb_spec j n) as [->|]; [by apply Z.pow2_bits_true|]. apply Z.pow2_bits_false. lia.
Qed.

Lemma shiftl_1_fits n : fits 64 (u64 (Z.shiftl 1 n)).
Proof. apply wrap_fits. lia. Qed.

Lemma mask_loop_bits (n : nat) i mask j : 0 <= i → i mod 64 + n <= 64 → 0 <= j →
  Z.testbit (mask_loop n i mask) j = Z.testbit mask j || ((i mod 64 <=? j) && (j <? i mod 64 + n)).
Proof.
  revert i mask. induction n as [|n IH]; intros i mask Hi Hn Hj; cbn [mask_loop].
  - destruct (Z.testbit mask j); [done|]. cbn [orb]. bool_lia.
  - pose proof (Z.mod_pos_bound i 64 ltac:(lia)). destruct n as [|n'].
    + cbn [mask_loop]. rewrite Z.lor_spec. unfold BITS_PER_WORD. rewrite shiftl_1_bit by lia. destruct (Z.testbit mask j); [done|]. cbn [orb]. bool_lia.
    + assert (E : (i + 1) mod 64 = i mod 64 + 1) by (Z.to_euclidean_division_equations; lia).
      rewrite IH by lia. rewrite E, Z.lor_spec. unfold BITS_PER_WORD. rewrite shiftl_1_bit by lia. destruct (Z.testbit mask j); [done|]. cbn [orb]. bool_lia.
Qed.

Lemma mask_loop_fits (n : nat) i mask : fits 64 mask → fits 64 (mask_loop n i mask).
Proof.
  revert i mask. induction n as [|n IH]; intros i mask Hm; [done|]. cbn [mask_loop]. apply IH. apply fits_lor; [lia|done|apply shiftl_1_fits].
Qed.

Lemma ALL_BITS_bit j : 0 <= j < 64 → Z.testbit ALL_BITS j = true.
Proof. intros Hj. change ALL_BITS with (Z.ones 64). apply Z.ones_spec_low. lia. Qed.

Lemma ALL_BITS_fits : fits 64 ALL_BITS.
Proof. split; vm_compute; congruence. Qed.

Lemma fill_loop_spec (n : nat) w ws : 0 <= w → w + n <= length ws →
  ∃ ws', fill_loop n w ws = Ret ws' ∧ length ws' = length ws ∧ (Forall (fits 64) ws → Forall (fits 64) ws') ∧
         ∀ k j, 0 <= k → 0 <= j < 64 → bit_at ws' k j = bit_at ws k j || ((w <=? k) && (k <? w + n)).
Proof.
  revert w ws. induction n as [|n IH]; intros w ws Hw Hn; cbn [fill_loop].
  - exists ws. repeat split; [done|]. intros k j Hk Hj. destruct (bit_at ws k j); [done|]. cbn [orb]. bool_lia.
  - destruct (set_word_spec w ALL_BITS ws) as (ws1 & -> & L1 & F1 & B1); [lia|]. cbn [mbind outcome_mbind].
    destruct (IH (w + 1) ws1) as (ws2 & E & L2 & F2 & B2); [lia|lia|]. exists ws2. split; [done|]. split; [lia|]. split; [intros; by apply F2, F1, ALL_BITS_fits|].
    intros k j Hk Hj. rewrite B2, B1 by done. destruct (Z.eqb_spec k w) as [->|]; [rewrite ALL_BITS_bit by done; cbn [orb]|]; [|destruct (bit_at ws k j); [done|]; cbn [orb]; bool_lia].
    destruct (bit_at ws w j); cbn [orb]; [done|]. bool_lia.
Qed.

Lemma low_bits n j : 0 <= n → 0 <= j → Z.testbit (Z.shiftl 1 n - 1) j = (j <? n).
Proof.
  intros Hn Hj. replace (Z.shiftl 1 n - 1) with (Z.ones n) by (unfold Z.ones; lia). destruct (Z.ltb_spec j n); [by apply Z.ones_spec_low|apply Z.ones_spec_high; lia].
Qed.

Lemma high_bits n j : 0 <= n < 64 → 0 <= j < 64 → Z.testbit (u64 (Z.lnot (Z.shiftl 1 n - 1))) j = (n <=? j).
Proof.
  intros Hn Hj. unfold wrap. rewrite Z.mod_pow2_bits_low by lia. rewrite Z.lnot_spec, low_bits by lia. bool_lia.
Qed.

(** The cells a range covers. *)
Definition enabled (b : BitmapIndex) : bool := negb (bitCount_ b =? 0).
Definition covers_cell (start end_ : Z) (b : BitmapIndex) (i : Z) : bool :=
  enabled b && (start / granularity_ b <=? i) && (i <=? end_ / granularity_ b) && (i <? bitCount_ b).

(** The words after the three steps of a range of several words. *)
Lemma mark_words s e ws :
  0 <= s → s / 64 < e / 64 → e / 64 < length ws → Forall (fits 64) ws →
  ∃ ws', (ws ← or_word (s / 64) (u64 (Z.lnot (Z.shiftl 1 (s mod 64) - 1))) ws;
          ws ← fill_loop (Z.to_nat (e / 64 - (s / 64 + 1))) (s / 64 + 1) ws;
          if e mod 64 =? 64 - 1 then set_word (e / 64) ALL_BITS ws else or_word (e / 64) (Z.shiftl 1 (e mod 64 + 1) - 1) ws) = Ret ws' ∧
    length ws' = length ws ∧ Forall (fits 64) ws' ∧
    ∀ i, 0 <= i → bit_at ws' (i / 64) (i mod 64) = bit_at ws (i / 64) (i mod 64) || ((s <=? i) && (i <=? e)).
Proof.
  intros Hs Hlt Hlen Hf. pose proof (Z.mod_pos_bound s 64 ltac:(lia)). pose proof (Z.mod_pos_bound e 64 ltac:(lia)). pose proof (Z.div_pos s 64 Hs ltac:(lia)).
  destruct (or_word_spec (s / 64) (u64 (Z.lnot (Z.shiftl 1 (s mod 64) - 1))) ws) as (w1 & -> & L1 & F1 & B1); [lia|]. cbn [mbind outcome_mbind].
  destruct (fill_loop_spec (Z.to_nat (e / 64 - (s / 64 + 1))) (s / 64 + 1) w1) as (w2 & -> & L2 & F2 & B2); [lia|lia|]. cbn [mbind outcome_mbind].
  specialize (F1 Hf ltac:(apply wrap_fits; lia)). specialize (F2 F1).
  assert (H3 : ∃ w3, (if e mod 64 =? 64 - 1 then set_word (e / 64) ALL_BITS w2 else or_word (e / 64) (Z.shiftl 1 (e mod 64 + 1) - 1) w2) = Ret w3 ∧
    length w3 = length w2 ∧ Forall (fits 64) w3 ∧
    ∀ k j, 0 <= k → 0 <= j < 64 → bit_at w3 k j = bit_at w2 k j || ((k =? e / 64) && (j <=? e mod 64))).
  { destruct (Z.eqb_spec (e mod 64) (64 - 1)) as [E|E].
    - destruct (set_word_spec (e / 64) ALL_BITS w2) as (w3 & -> & L3 & F3 & B3); [lia|]. exists w3. split; [done|]. split; [done|]. split; [by apply F3, ALL_BITS_fits|].
      intros k j Hk Hj. rewrite B3 by done. destruct (Z.eqb_spec k (e / 64)); [|by rewrite orb_false_r]. rewrite ALL_BITS_bit by done. destruct (bit_at w2 k j); [done|]. bool_lia.
    - destruct (or_word_spec (e / 64) (Z.shiftl 1 (e mod 64 + 1) - 1) w2) as (w3 & -> & L3 & F3 & B3); [lia|]. exists w3. split; [done|]. split; [done|]. split.
      + apply F3; [done|]. rewrite Z.shiftl_1_l. pose proof (Z.pow_le_mono_r 2 (e mod 64 + 1) 64). pose proof (Z.pow_pos_nonneg 2 (e mod 64 + 1)). unfold fits. lia.
      + intros k j Hk Hj. rewrite B3, low_bits by lia. destruct (bit_at w2 k j); [done|]. bool_lia. }
  destruct H3 as (w3 & E3 & L3 & F3 & B3). exists w3. split; [done|]. split; [lia|]. split; [done|]. intros i Hi.
  pose proof (Z.mod_pos_bound i 64 ltac:(lia)). pose proof (Z.div_pos i 64 Hi ltac:(lia)). rewrite B3, B2, B1, high_bits by lia.
  destruct (bit_at ws (i / 64) (i mod 64)); [by cbn|]. rewrite Z2Nat.id by lia. cbn [orb]. clear - Hs Hlt Hi.
  apply eq_iff_eq_true. rewrite ?orb_true_iff, ?andb_true_iff, ?Z.leb_le, ?Z.ltb_lt, ?Z.eqb_eq. Z.to_euclidean_division_equations; lia.
Qed.

Lemma MarkRange_spec start end_ b : bitmap_ok b → 0 <= start <= end_ →
  ∃ b', MarkRange start end_ b = Ret b' ∧ bitmap_ok b' ∧ granularity_ b' = granularity_ b ∧ bitCount_ b' = bitCount_ b ∧
        ∀ i, 0 <= i → marked b' i = marked b i || covers_cell start end_ b i.
Proof.
  intros Hok Hse. pose proof Hok as [[Hg _] Hc Hoff Hw Hf Hclr]. unfold MarkRange, covers_cell, enabled, marked, BITS_PER_WORD.
  destruct (Z.eqb_spec (granularity_ b) 0) as [E|Hg0].
  { exists b. do 4 (split; [done|]). intros i Hi. rewrite (Hoff E), Z.eqb_refl. by rewrite orb_false_r. }
  destruct (Z.eqb_spec (bitCount_ b) 0) as [E|Hc0]; cbn [orb negb andb].
  { exists b. do 4 (split; [done|]). intros i Hi. by rewrite orb_false_r. }
  set (s := start / granularity_ b). set (e0 := end_ / granularity_ b). assert (Hs0 : 0 <= s) by (apply Z.div_pos; lia).
  assert (Hle : s <= e0) by (apply Z.div_le_mono; lia). destruct (Z.leb_spec (bitCount_ b) s).
  { exists b. do 4 (split; [done|]). intros i Hi. destruct (bit_at (bitmap_ b) (i / 64) (i mod 64)); [done|]. bool_lia. }
  set (e := if bitCount_ b <=? e0 then bitCount_ b - 1 else e0). assert (He : s <= e < bitCount_ b) by (unfold e; zcase; lia).
  assert (Hcov : ∀ i, (s <=? i) && (i <=? e0) && (i <? bitCount_ b) = (s <=? i) && (i <=? e)) by (intros i; unfold e; destruct (Z.leb_spec (bitCount_ b) e0); bool_lia).
  assert (Hlen : e / 64 < length (bitmap_ b)) by (rewrite Hw; Z.to_euclidean_division_equations; lia).
  assert (HW : ∃ ws, (if s / 64 =? e / 64 then or_word (s / 64) (mask_loop (Z.to_nat (e + 1 - s)) s 0) (bitmap_ b)
      else ws ← or_word (s / 64) (u64 (Z.lnot (Z.shiftl 1 (s mod 64) - 1))) (bitmap_ b);
          ws ← fill_loop (Z.to_nat (e / 64 - (s / 64 + 1))) (s / 64 + 1) ws;
          if e mod 64 =? 64 - 1 then set_word (e / 64) ALL_BITS ws else or_word (e / 64) (Z.shiftl 1 (e mod 64 + 1) - 1) ws) = Ret ws ∧
    length ws = length (bitmap_ b) ∧ Forall (fits 64) ws ∧
    ∀ i, 0 <= i → bit_at ws (i / 64) (i mod 64) = bit_at (bitmap_ b) (i / 64) (i mod 64) || ((s <=? i) && (i <=? e))).
  { destruct (Z.eqb_spec (s / 64) (e / 64)) as [E|E].
    - destruct (or_word_spec (s / 64) (mask_loop (Z.to_nat (e + 1 - s)) s 0) (bitmap_ b)) as (ws & -> & L & F & B); [pose proof (Z.div_pos s 64); lia|].
      exists ws. split; [done|]. split; [done|]. split; [apply F; [done|apply mask_loop_fits; unfold fits; lia]|]. intros i Hi.
      rewrite B by (apply Z.div_pos; lia). rewrite mask_loop_bits; [|done|Z.to_euclidean_division_equations; lia|apply Z.mod_pos_bound; lia].
      destruct (bit_at (bitmap_ b) (i / 64) (i mod 64)); [done|]. cbn [orb]. rewrite Z.bits_0, Z2Nat.id by lia. cbn [orb]. apply eq_iff_eq_true.
      rewrite ?andb_true_iff, ?Z.leb_le, ?Z.ltb_lt, ?Z.eqb_eq. clear - E Hi He Hs0. Z.to_euclidean_division_equations; lia.
    - apply mark_words; [done| |done|done]. pose proof (Z.div_le_mono s e 64 ltac:(lia) ltac:(lia)). lia. }
  destruct HW as (ws & -> & L & F & B). cbn [mbind outcome_mbind]. eexists. split; [done|]. cbn [granularity_ bitCount_ bitmap_]. split; [|split; [done|split; [done|]]].
  - split; cbn [granularity_ bitCount_ bitmap_]; [exact (bo_gran b Hok)|done|done|congruence|done|]. intros i Hi. unfold marked, BITS_PER_WORD. cbn [bitmap_]. rewrite B by lia.
    unfold marked, BITS_PER_WORD in Hclr. rewrite Hclr by done. bool_lia.
  - intros i Hi. by rewrite B, Hcov.
Qed.

(** [IsInRange] is the mark of the cell of the address. *)
Lemma bitmap_IsInRange_spec a b : bitmap_ok b → 0 <= a → bitmap_IsInRange a b = Ret (enabled b && marked b (a / granularity_ b)).
Proof.
  intros [[Hg _] Hc Hoff Hw _ Hclr] Ha. unfold bitmap_IsInRange, enabled. destruct (Z.eqb_spec (granularity_ b) 0) as [E|Hg0]; [by rewrite (Hoff E)|].
  destruct (Z.eqb_spec (bitCount_ b) 0) as [E|Hc0]; [done|]. cbn [orb negb andb]. set (i := a / granularity_ b). assert (0 <= i) by (apply Z.div_pos; lia).
  destruct (Z.leb_spec (bitCount_ b) i); [by rewrite Hclr|]. unfold word_at, marked, bit_at, BITS_PER_WORD.
  destruct (lookup_lt_is_Some_2 (bitmap_ b) (Z.to_nat (i / 64))) as [w Ew]; [rewrite Hw; Z.to_euclidean_division_equations; lia|]. rewrite Ew.
  cbn [mbind outcome_mbind]. f_equal. pose proof (Z.mod_pos_bound i 64 ltac:(lia)). rewrite Z.shiftl_1_l. destruct (Z.testbit w (i mod 64)) eqn:Et.
  - apply negb_true_iff, Z.eqb_neq. intros E. apply (f_equal (λ z, Z.testbit z (i mod 64))) in E. rewrite Z.land_spec, Et, Z.pow2_bits_true, Z.bits_0 in E by lia. done.
  - apply negb_false_iff, Z.eqb_eq. apply Z.bits_inj'. intros j Hj. rewrite Z.land_spec, Z.bits_0. destruct (Z.eq_dec j (i mod 64)) as [->|]; [by rewrite Et|].
    rewrite Z.pow2_bits_false by lia. apply andb_false_r.
Qed.

Lemma bitmap_Clear_ok b : bitmap_ok b → bitmap_ok (bitmap_Clear b) ∧ ∀ i, marked (bitmap_Clear b) i = false.
Proof.
  intros [Hg Hc Hoff Hw Hf Hclr]. assert (H : ∀ i, marked (bitmap_Clear b) i = false) by (intros i; apply bit_at_replicate). split; [|done].
  split; cbn [granularity_ bitCount_ bitmap_ bitmap_Clear]; [done|done|done|by rewrite length_replicate| |by intros].
  apply list.Forall_forall. intros w [-> _]%elem_of_replicate. unfold fits. lia.
Qed.

(** *** The filter: any lawful index behind a bitmap, for the addresses that have a bit. *)
Definition has_cell (b : BitmapIndex) (a : Z) : bool := negb (enabled b) || (a / granularity_ b <? bitCount_ b).

Section FilterLaws.
Context {I : Type} `{AddressIndex I}.

(** The bitmap marks at least the cells of the entries. *)
Definition filter_holds (l : list Entry) (s : BitmapFilterIndex I) : Prop :=
  ∃ i, preciseIndex_ s = Some i ∧ ix_holds l i ∧ bitmap_ok (bf_bitmap s) ∧
       ∀ e c, e ∈ l → covers_cell (en_start e) (en_end e) (bf_bitmap s) c = true → marked (bf_bitmap s) c = true.
Definition filter_sees (s : BitmapFilterIndex I) (a : Z) : bool :=
  has_cell (bf_bitmap s) a && match preciseIndex_ s with Some i => ix_sees i a | None => false end.

Lemma filtered_spec a b : bitmap_ok b → 0 <= a → filtered a b = Ret (enabled b && negb (marked b (a / granularity_ b))).
Proof.
  intros Hb Ha. unfold filtered, bitmap_Size. fold (enabled b). destruct (enabled b) eqn:E; [|done]. rewrite (bitmap_IsInRange_spec a b Hb Ha), E. done.
Qed.

(** An address that the bitmap rules out has no entry, or no bit. *)
Lemma filtered_out a l s : filter_holds l s → fits 64 a → enabled (bf_bitmap s) && negb (marked (bf_bitmap s) (a / granularity_ (bf_bitmap s))) = true →
  has_cell (bf_bitmap s) a = false ∨ ∀ e, e ∈ l → holds_addr a e = false.
Proof.
  intros (i & _ & Hl & Hb & Hm) Ha Hf. zbool. destruct (has_cell (bf_bitmap s) a) eqn:Ec; [right|by left]. intros e He. apply not_true_iff_false. intros Hh.
  unfold has_cell in Ec. rewrite H1 in Ec. cbn [negb orb] in Ec. unfold holds_addr in Hh. zbool.
  assert (Hg : 0 < granularity_ (bf_bitmap s)).
  { destruct Hb as [[Hg _] _ Hoff _ _ _]. destruct (Z.eq_dec (granularity_ (bf_bitmap s)) 0) as [E|]; [|lia]. unfold enabled in H1. rewrite (Hoff E) in H1. done. }
  rewrite (Hm e (a / granularity_ (bf_bitmap s)) He) in H2; [done|]. unfold covers_cell. rewrite H1. cbn [andb].
  pose proof (Z.div_le_mono (en_start e) a _ Hg ltac:(lia)). pose proof (Z.div_le_mono a (en_end e) _ Hg ltac:(lia)). bool_lia.
Qed.

#[export] Instance filter_lawful : AddressIndex (BitmapFilterIndex I).
Proof.
  refine {| ix_holds := filter_holds; ix_accepts := ix_accepts (I := I); ix_sees := filter_sees |}.
  - intros l s (i & _ & Hl & _). by apply (ix_spread l i).
  - intros l l' s E (i & Ei & Hl & Hb & Hm). exists i. split; [done|]. split; [by apply (ix_perm l)|]. split; [done|]. intros e c He. rewrite <- E in He. by apply Hm.
  - intros e l s (i & Ei & Hl & Hb & Hm) He Hacc Hap. cbn. unfold filter_Insert. rewrite Ei. pose proof He as [He1 _].
    destruct (MarkRange_spec (en_start e) (en_end e) (bf_bitmap s) Hb He1) as (b' & -> & Hb' & Eg & Ec & B). cbn [mbind outcome_mbind].
    destruct (ix_insert e l i Hl He Hacc Hap) as (i' & -> & Hl'). cbn [mbind outcome_mbind]. eexists. split; [done|]. exists i'. split; [done|]. split; [done|]. split; [done|].
    intros f c Hf Hc. cbn [bf_bitmap] in *. assert (Hcov : covers_cell (en_start f) (en_end f) (bf_bitmap s) c = true).
    { unfold covers_cell, enabled in *. by rewrite Eg, Ec in Hc. }
    assert (Hc0 : 0 <= c).
    { assert (entry_ok f) as [[Hf0 _] _]. { destruct (ix_spread _ _ Hl') as (_ & Hs & _). rewrite list.Forall_forall in Hs. by apply Hs. }
      unfold covers_cell in Hcov. zbool. pose proof (Z.div_pos (en_start f) (granularity_ (bf_bitmap s)) Hf0). destruct Hb as [[Hg _] _ Hoff _ _ _].
      destruct (Z.eq_dec (granularity_ (bf_bitmap s)) 0) as [E|]; [|lia]. unfold enabled in *. rewrite (Hoff E) in *. done. }
    rewrite (B c Hc0). apply elem_of_cons in Hf as [->|Hf]; [by rewrite Hcov, orb_true_r|]. by rewrite (Hm f c Hf Hcov).
  - intros a l s Hh Ha. pose proof Hh as (i & Ei & Hl & Hb & Hm). cbn. unfold filter_Lookup, filter_sees. rewrite (filtered_spec a _ Hb (proj1 Ha)), Ei. cbn [mbind outcome_mbind].
    destruct (enabled _ && negb _) eqn:Ef.
    + destruct (filtered_out a l s Hh Ha Ef) as [->|Hno]; [done|]. rewrite (find_no_addr a l Hno). by case_match.
    + rewrite (ix_lookup a l i Hl Ha). destruct (has_cell (bf_bitmap s) a) eqn:Ec; [done|]. exfalso. unfold has_cell in Ec. zbool.
      destruct Hb as [_ _ _ _ _ Hclr]. rewrite Hclr in Ef by done. rewrite H1 in Ef. cbn in Ef. naive_solver.
  - intros a l s Hh Ha. pose proof Hh as (i & Ei & Hl & Hb & Hm). cbn. unfold filter_IsInRange, filter_sees. rewrite (filtered_spec a _ Hb (proj1 Ha)), Ei. cbn [mbind outcome_mbind].
    destruct (enabled _ && negb _) eqn:Ef.
    + destruct (filtered_out a l s Hh Ha Ef) as [->|Hno]; [done|]. rewrite existsb_find, (find_no_addr a l Hno). by rewrite andb_false_r.
    + rewrite (ix_is_in_range a l i Hl Ha). destruct (has_cell (bf_bitmap s) a) eqn:Ec; [done|]. exfalso. unfold has_cell in Ec. zbool.
      destruct Hb as [_ _ _ _ _ Hclr]. rewrite Hclr in Ef by done. rewrite H1 in Ef. cbn in Ef. naive_solver.
  - intros l s (i & Ei & Hl & Hb & Hm). cbn. exists (ai_Clear i). unfold filter_Clear. rewrite Ei. split; [done|]. split; [by apply (ix_clear l)|].
    split; [by apply bitmap_Clear_ok|]. intros e c He. by apply elem_of_nil in He.
  - intros l s (i & Ei & Hl & _). cbn. unfold filter_Size. rewrite Ei. by apply ix_size.
Defined.
End FilterLaws.

(** *** The adaptive index *)

(** Inserting entries that do not overlap each other or what is there. *)
Lemma insert_all_holds {I} `{AddressIndex I} es l (i : I) : ix_holds l i → spread (es ++ l) → Forall (ix_accepts (I := I)) es →
  ∃ i', insert_all es i = Ret i' ∧ ix_holds (es ++ l) i'.
Proof.
  revert l i. induction es as [|e es IH]; intros l i Hl Hs Ha; [by exists i|]. cbn [insert_all app] in *.
  apply Forall_cons_1 in Ha as [Ha1 Ha]. destruct (spread_head e (es ++ l) Hs) as (Hs' & He & Hap). apply list.Forall_app in Hap as [_ Hap].
  destruct (ix_insert e l i Hl He Ha1 Hap) as (i1 & -> & H1). cbn [mbind outcome_mbind].
  destruct (IH (e :: l) i1 H1) as (i' & E & H'); [|done|].
  - apply (spread_perm (e :: es ++ l)); [apply Permutation_middle|done].
  - exists i'. split; [done|]. apply (ix_perm (es ++ e :: l)); [symmetry; apply Permutation_middle|done].
Qed.

#[export] Instance any_lawful : AddressIndex any_index.
Proof.
  refine {| ix_holds l i := match i with AnyLinear i => ix_holds l i | AnyTree i => ix_holds l i | AnyFilter i => ix_holds l i end;
            ix_accepts _ := True;
            ix_sees i a := match i with AnyLinear i => ix_sees i a | AnyTree i => ix_sees i a | AnyFilter i => ix_sees i a end |}.
  - intros l [i|i|i]; apply ix_spread.
  - intros l l' [i|i|i]; apply ix_perm.
  - intros e l [i|i|i] Hl He _ Hap.
    + destruct (ix_insert e l i Hl He) as (i' & E & H); [done|done|]. exists (AnyLinear i'). split; [|done]. cbn [ai_Insert any_is_index]. by rewrite E.
    + destruct (ix_insert e l i Hl He) as (i' & E & H); [done|done|]. exists (AnyTree i'). split; [|done]. cbn [ai_Insert any_is_index]. by rewrite E.
    + destruct (ix_insert e l i Hl He) as (i' & E & H); [done|done|]. exists (AnyFilter i'). split; [|done]. cbn [ai_Insert any_is_index]. by rewrite E.
  - intros a l [i|i|i] Hl Ha; exact (ix_lookup a l i Hl Ha).
  - intros a l [i|i|i] Hl Ha; exact (ix_is_in_range a l i Hl Ha).
  - intros l [i|i|i] Hl; exact (ix_clear l i Hl).
  - intros l [i|i|i] Hl; exact (ix_size l i Hl).
Defined.

Definition kind_of (i : any_index) : strategy :=
  match i with AnyLinear _ => UseLinear | AnyTree _ => UseTree | AnyFilter _ => UseBitmap end.

Lemma insert_kind st en v (i : any_index) b i' : ai_Insert st en v i = Ret (b, i') → kind_of i' = kind_of i.
Proof. by destruct i as [i|i|i]; cbn [ai_Insert any_is_index]; intros ([c j] & _ & [= _ <-])%bind_Ret. Qed.

Lemma insert_all_kind es (i i' : any_index) : insert_all es i = Ret i' → kind_of i' = kind_of i.
Proof.
  revert i. induction es as [|e es IH]; intros i H; cbn in H; [by injection H as ->|]. apply bind_Ret in H as ([b i1] & E & H).
  apply insert_kind in E. apply IH in H. congruence.
Qed.

(** The strategy for a number of entries. *)
Definition strategy_for (n : Z) : strategy :=
  if n <=? LINEAR_THRESHOLD then UseLinear else if n <=? BITMAP_THRESHOLD then UseTree else UseBitmap.

(** The objects of an adaptive index, in use or not. *)
Record objects_ok (s : AdaptiveAddressIndex) : Prop := {
  ob_range : 0 <= addressRange_ s ∧ fits 32 (ad_granularity_ s);
  ob_tree t : treeIndex_ s = Some t → ∃ l, ix_holds l t;
  ob_bitmap b r : bitmapIndex_ s = Some (b, r) →
    bitmap_ok b ∧ (let b0 := BitmapIndex_new (addressRange_ s) (ad_granularity_ s) in granularity_ b = granularity_ b0 ∧ bitCount_ b = bitCount_ b0) ∧
    match r with OwnTree t => ∃ l, ix_holds l t | SharedTree => is_Some (treeIndex_ s) end
}.

Record adaptive_ok (l : list Entry) (s : AdaptiveAddressIndex) : Prop := {
  ao_objects : objects_ok s;
  ao_list : masterList_ s ≡ₚ l;
  ao_strategy : current_ s = strategy_for (length (masterList_ s));
  ao_current : ∃ i, current_index s = Ret i ∧ ix_holds l i
}.

(** The addresses that can be found: all of them up to [BITMAP_THRESHOLD] entries, those with a bit
    in the bitmap beyond. *)
Definition adaptive_sees (s : AdaptiveAddressIndex) (a : Z) : bool :=
  (length (masterList_ s) <=? BITMAP_THRESHOLD) || has_cell (BitmapIndex_new (addressRange_ s) (ad_granularity_ s)) a.

Lemma adaptive_new_ok range gran : 0 <= range → fits 32 gran → adaptive_ok [] (AdaptiveAddressIndex_new range gran).
Proof.
  intros Hr Hg. split; [by split|done|done|]. eexists. split; [done|]. split; [done|apply spread_nil].
Qed.

Lemma current_kind s i : current_index s = Ret i → kind_of i = current_ s.
Proof.
  unfold current_index. destruct (current_ s); [by intros [= <-]| |]; [destruct (treeIndex_ s); [by intros [= <-]|done]|].
  destruct (bitmapIndex_ s) as [[b [|t]]|]; [|by intros [= <-]|done]. destruct (treeIndex_ s); [by intros [= <-]|done].
Qed.

(** Writing an index back and reading it again. *)
Lemma put_current s i i' l : current_index s = Ret i → kind_of i' = kind_of i → ix_holds l i' → current_index (put_index i' s) = Ret i'.
Proof.
  intros E Hk Hl. pose proof (current_kind s i E) as Ek. unfold current_index in *. destruct (current_ s) eqn:Ec, i'; cbn in Hk; try congruence; cbn [put_index].
  - unfold set_indexes. cbn. by rewrite Ec.
  - unfold set_indexes. cbn. by rewrite Ec.
  - destruct Hl as (t & Et & _). destruct i0 as [b p]. cbn in Et. subst p. destruct (bitmapIndex_ s) as [[b0 [|t0]]|]; [| |done];
      unfold set_indexes; cbn; by rewrite Ec.
Qed.

(** A cleared filter holds nothing, whatever its bitmap and its tree held. *)
Lemma filter_Clear_holds {I} `{AddressIndex I} b (i : I) l : bitmap_ok b → ix_holds l i → ix_holds [] (ai_Clear (mkFilter b (Some i))).
Proof.
  intros Hb Hl. exists (ai_Clear i). split; [done|]. split; [by apply (ix_clear l)|]. split; [by apply bitmap_Clear_ok|].
  intros e c He. by apply elem_of_nil in He.
Qed.

(** What [put_index] leaves of the other objects. *)
Lemma put_index_fields i s :
  addressRange_ (put_index i s) = addressRange_ s ∧ ad_granularity_ (put_index i s) = ad_granularity_ s ∧
  masterList_ (put_index i s) = masterList_ s ∧ current_ (put_index i s) = current_ s.
Proof. destruct i as [i|i|i]; cbn; [done|done|]. by destruct (bitmapIndex_ s) as [[b [|t]]|]. Qed.

Definition shape (b : BitmapIndex) : Z * Z := (granularity_ b, bitCount_ b).
Definition shape_of (i : any_index) : option (Z * Z) := match i with AnyFilter f => Some (shape (bf_bitmap f)) | _ => None end.

Lemma MarkRange_shape st en b b' : MarkRange st en b = Ret b' → shape b' = shape b.
Proof. unfold MarkRange. intros H. repeat case_match; run_inv; done. Qed.

Lemma insert_shape st en v (i : any_index) r i' : ai_Insert st en v i = Ret (r, i') → shape_of i' = shape_of i.
Proof.
  destruct i as [i|i|i]; cbn [ai_Insert any_is_index]; intros ([c j] & E & [= _ <-])%bind_Ret; [done|done|]. cbn [ai_Insert filter_index] in E. unfold filter_Insert in E.
  apply bind_Ret in E as (b & Eb & E). apply MarkRange_shape in Eb. cbn [shape_of]. f_equal. rewrite <- Eb.
  destruct (preciseIndex_ i) as [t|]; [apply bind_Ret in E as ([? ?] & _ & [= _ <-])|injection E as _ <-]; done.
Qed.

Lemma insert_all_shape es (i i' : any_index) : insert_all es i = Ret i' → shape_of i' = shape_of i.
Proof.
  revert i. induction es as [|e es IH]; intros i H; cbn in H; [by injection H as ->|]. apply bind_Ret in H as ([b i1] & E & H).
  apply insert_shape in E. apply IH in H. congruence.
Qed.

(** The bitmap of the current index is that of the parameters. *)
Lemma current_shape s i : objects_ok s → current_index s = Ret i →
  shape_of i = match current_ s with UseBitmap => Some (shape (BitmapIndex_new (addressRange_ s) (ad_granularity_ s))) | _ => None end.
Proof.
  intros [_ _ Hb] E. unfold current_index in E. destruct (current_ s); [by injection E as <-|by destruct (treeIndex_ s); [injection E as <-|]|].
  destruct (bitmapIndex_ s) as [[b r]|] eqn:Eb; [|done]. destruct (Hb b r eq_refl) as (_ & [E1 E2] & _).
  assert (Hi : ∃ t, i = AnyFilter (mkFilter b (Some t))) by (destruct r; [destruct (treeIndex_ s); [|done]|]; injection E as <-; eauto).
  destruct Hi as [t ->]. cbn. unfold shape. by rewrite E1, E2.
Qed.

Lemma objects_put s i i' l : objects_ok s → current_index s = Ret i → kind_of i' = kind_of i → shape_of i' = shape_of i → ix_holds l i' →
  objects_ok (put_index i' s).
Proof.
  intros Ho E Hk Hsh Hl. pose proof (current_kind s i E) as Ek. pose proof (current_shape s i Ho E) as Es. destruct Ho as [Hr Ht Hb].
  destruct i' as [j|j|j]; cbn in Hk; rewrite <- Hk in Ek; rewrite <- Ek in Es; cbn [put_index].
  - by split.
  - split; [done|intros t [= <-]; by exists l|]. intros b r Er. destruct (Hb b r Er) as (H1 & H2 & H3). split; [done|]. split; [done|]. destruct r; [by eexists|done].
  - destruct Hl as (t & Et & Hl & Hbm & _). rewrite Es in Hsh. injection Hsh as E1 E2. unfold current_index in E. rewrite <- Ek in E.
    destruct (bitmapIndex_ s) as [[b [|t0]]|] eqn:Eb; [| |done]; (split; [done| |]).
    + cbn. rewrite Et. intros t' [= <-]. by exists l.
    + cbn. intros b' r [= <- <-]. split; [done|]. split; [done|]. by rewrite Et.
    + done.
    + cbn. intros b' r [= <- <-]. split; [done|]. split; [done|]. rewrite Et. by exists l.
Qed.

Lemma accepts_any es : Forall (ix_accepts (I := any_index)) es.
Proof. apply list.Forall_forall. done. Qed.

(** Rebuilding leaves the current index with the entries of the master list. *)
Lemma Rebuild_spec s i : objects_ok s → current_index s = Ret i → ix_holds [] (ai_Clear i) → spread (masterList_ s) →
  ∃ s' i', RebuildCurrentIndex s = Ret s' ∧ objects_ok s' ∧ current_index s' = Ret i' ∧ ix_holds (masterList_ s) i' ∧
    addressRange_ s' = addressRange_ s ∧ ad_granularity_ s' = ad_granularity_ s ∧ masterList_ s' = masterList_ s ∧ current_ s' = current_ s.
Proof.
  intros Ho E Hc Hs. unfold RebuildCurrentIndex. rewrite E. cbn [mbind outcome_mbind].
  destruct (insert_all_holds (masterList_ s) [] (ai_Clear i)) as (i' & E' & Hl); [done|by rewrite app_nil_r|apply accepts_any|].
  rewrite E'. cbn [mbind outcome_mbind]. rewrite app_nil_r in Hl.
  assert (Hk : kind_of i' = kind_of i) by (rewrite (insert_all_kind _ _ _ E'); by destruct i).
  assert (Hsh : shape_of i' = shape_of i) by (rewrite (insert_all_shape _ _ _ E'); by destruct i).
  eexists _, i'. split; [done|]. split; [by eapply objects_put|]. split; [by eapply put_current|]. split; [done|]. apply put_index_fields.
Qed.

Lemma new_tree_holds : ix_holds [] IntervalTree_new.
Proof. split; [split; [done|split; [constructor|done]]|]. split; [done|apply spread_nil]. Qed.

(** A target is there, can be cleared, and does not disturb the current index. *)
Definition target_ready (c : strategy) (s s1 : AdaptiveAddressIndex) : Prop :=
  objects_ok s1 ∧ current_index s1 = current_index s ∧
  (addressRange_ s1, ad_granularity_ s1, masterList_ s1, current_ s1) = (addressRange_ s, ad_granularity_ s, masterList_ s, current_ s) ∧
  ∃ j, current_index (set_current c s1) = Ret j ∧ ix_holds [] (ai_Clear j).

Lemma with_tree_ready s i : objects_ok s → current_index s = Ret i → target_ready UseTree s (with_tree s).
Proof.
  intros [Hr Ht Hb] Ei. split; [|split; [|split; [done|]]].
  - split; [done| |].
    + cbn. intros t [= <-]. destruct (treeIndex_ s) as [t|]; cbn; [by apply Ht|exists []; exact new_tree_holds].
    + cbn. intros b r Er. destruct (Hb b r Er) as (B1 & B2 & B3). split; [done|]. split; [done|]. destruct r; [by eexists|done].
  - unfold current_index in *. cbn. destruct (current_ s); [done| |]; [by destruct (treeIndex_ s)|].
    destruct (bitmapIndex_ s) as [[b [|t]]|]; [|done|done]. by destruct (treeIndex_ s).
  - cbn. eexists. split; [done|]. exact new_tree_holds.
Qed.

Lemma with_bitmap_ready s i : objects_ok s → current_index s = Ret i → target_ready UseBitmap s (with_bitmap s).
Proof.
  intros [Hr Ht Hb] Ei. unfold with_bitmap. destruct (bitmapIndex_ s) as [[b r]|] eqn:Eb.
  - split; [split; [done|done|by rewrite Eb]|]. do 2 (split; [done|]). cbn. rewrite Eb. destruct (Hb b r eq_refl) as (B1 & B2 & B3). destruct r as [|t].
    + destruct B3 as [t Et]. destruct (Ht t Et) as [lt Hlt]. rewrite Et. eexists. split; [done|]. exact (filter_Clear_holds b t lt B1 Hlt).
    + destruct B3 as [lt Hlt]. eexists. split; [done|]. exact (filter_Clear_holds b t lt B1 Hlt).
  - pose proof (BitmapIndex_new_ok _ _ (proj1 Hr) (proj2 Hr)) as Hnew. split; [|split; [|split; [done|]]].
    + split; [done|done|]. cbn. intros b r [= <- <-]. split; [done|]. split; [done|]. destruct (treeIndex_ s); [by eexists|exists []; exact new_tree_holds].
    + unfold current_index in *. cbn. destruct (current_ s); [done|done|]. by rewrite Eb in Ei.
    + cbn. destruct (treeIndex_ s) as [t|].
      * destruct (Ht t eq_refl) as [lt Hlt]. eexists. split; [done|]. exact (filter_Clear_holds _ t lt Hnew Hlt).
      * eexists. split; [done|]. exact (filter_Clear_holds _ _ [] Hnew new_tree_holds).
Qed.

(** Choosing the strategy after an entry was added. *)
Lemma EnsureStrategy_spec l s i : objects_ok s → masterList_ s ≡ₚ l → spread l → l ≠ [] → current_ s = strategy_for (length l - 1) →
  current_index s = Ret i → ix_holds l i → ∃ s', EnsureStrategy s = Ret s' ∧ adaptive_ok l s' ∧
    addressRange_ s' = addressRange_ s ∧ ad_granularity_ s' = ad_granularity_ s ∧ masterList_ s' = masterList_ s.
Proof.
  intros Ho Hm Hs Hne Hc Ei Hl. assert (Hsm : spread (masterList_ s)) by (by apply (spread_perm l)).
  assert (Hlm : length (masterList_ s) = length l) by (by apply Permutation_length). unfold EnsureStrategy. rewrite Hlm.
  set (tgt := (if length l <=? LINEAR_THRESHOLD then (UseLinear, s) else _)).
  assert (HT : ∃ s1, tgt = (strategy_for (length l), s1) ∧ (strategy_for (length l) = current_ s ∧ s1 = s ∨ target_ready (strategy_for (length l)) s s1)).
  { subst tgt. unfold strategy_for. destruct (Z.leb_spec (length l) LINEAR_THRESHOLD) as [H1|H1]; [|destruct (Z.leb_spec (length l) BITMAP_THRESHOLD) as [H2|H2]].
    - exists s. split; [done|]. left. split; [|done]. rewrite Hc. unfold strategy_for. by zcase; [|lia].
    - exists (with_tree s). split; [done|]. right. by apply (with_tree_ready s i).
    - exists (with_bitmap s). split; [done|]. right. by apply (with_bitmap_ready s i). }
  destruct HT as (s1 & -> & HT). destruct HT as [[Hd ->]|(Ho1 & Ei1 & [= Hr1 Hg1 Hm1 Hc1] & j & Ej & Hcl)].
  { rewrite bool_decide_true by done. exists s. split; [done|]. split; [|done]. split; [done|done|by rewrite <- Hd, Hlm|by exists i]. }
  rewrite Hc1. case_bool_decide as Hd.
  - exists s1. split; [done|]. split; [|done]. split; [done|by rewrite Hm1|by rewrite Hc1, <- Hd, Hm1, Hlm|exists i; by rewrite Ei1].
  - destruct (Rebuild_spec (set_current (strategy_for (length l)) s1) j) as (s2 & i2 & -> & Ho2 & E2 & H2 & F1 & F2 & F3 & F4);
      [destruct Ho1 as [A B C]; by split|done|done|by cbn; rewrite Hm1|].
    cbn in F1, F2, F3, F4. cbn [mbind outcome_mbind]. eexists. split; [done|]. cbn [addressRange_ ad_granularity_ masterList_ count_migration]. rewrite F1, F2, F3. split; [|done].
    split; [by destruct Ho2; split|cbn; by rewrite F3, Hm1|cbn; by rewrite F4, F3, Hm1, Hlm|]. exists i2. split; [done|]. apply (ix_perm (masterList_ s)); [done|].
    change (masterList_ (set_current _ _)) with (masterList_ s1) in H2. by rewrite Hm1 in H2.
Qed.

Lemma has_cell_shape b b' a : shape b = shape b' → has_cell b a = has_cell b' a.
Proof. unfold has_cell, enabled, shape. by intros [= -> ->]. Qed.

Lemma current_sees l s i a : adaptive_ok l s → current_index s = Ret i → ix_holds l i → ix_sees i a = adaptive_sees s a.
Proof.
  intros [Ho _ Hst _] Ei Hl. pose proof (current_kind s i Ei) as Ek. pose proof (current_shape s i Ho Ei) as Es. rewrite Hst in Ek, Es.
  unfold adaptive_sees, strategy_for, LINEAR_THRESHOLD, BITMAP_THRESHOLD in *.
  destruct (Z.leb_spec (length (masterList_ s)) 64); [|destruct (Z.leb_spec (length (masterList_ s)) 256)]; destruct i as [j|j|j]; try done.
  - destruct (Z.leb_spec (length (masterList_ s)) 256); [done|lia].
  - destruct Hl as (t & Et & _). change (filter_sees j a = has_cell (BitmapIndex_new (addressRange_ s) (ad_granularity_ s)) a). unfold filter_sees. rewrite Et. rewrite andb_true_r.
    apply has_cell_shape. unfold shape_of in Es. congruence.
Qed.

Lemma adaptive_insert e l s : adaptive_ok l s → entry_ok e → Forall (apart e) l →
  ∃ s', adaptive_Insert (en_start e) (en_end e) (en_value e) s = Ret (true, s') ∧ adaptive_ok (e :: l) s' ∧
    addressRange_ s' = addressRange_ s ∧ ad_granularity_ s' = ad_granularity_ s ∧ masterList_ s' = masterList_ s ++ [e].
Proof.
  intros [Ho Hm Hst (i & Ei & Hl)] He Hap. pose proof (spread_cons e l (ix_spread l i Hl) He Hap) as Hs. unfold adaptive_Insert. pose proof He as [He1 _].
  zcase; [lia|]. replace (mkEntry (en_start e) (en_end e) (en_value e)) with e by (by destruct e). set (s1 := mkAdaptive _ _ _ _ _ _ _ _).
  assert (Ho1 : objects_ok s1) by (destruct Ho as [A B C]; by split). assert (Ei1 : current_index s1 = Ret i) by exact Ei.
  assert (Hm1 : masterList_ s1 ≡ₚ e :: l) by (cbn; by rewrite Hm, Permutation_app_comm). rewrite Ei1. cbn [mbind outcome_mbind].
  destruct (ix_insert e l i Hl He I Hap) as (i' & Ei' & Hl'). rewrite Ei'. cbn [mbind outcome_mbind].
  pose proof (insert_kind _ _ _ _ _ _ Ei') as Hk. pose proof (insert_shape _ _ _ _ _ _ Ei') as Hsh. destruct (put_index_fields i' s1) as (P1 & P2 & P3 & P4).
  destruct (EnsureStrategy_spec (e :: l) (put_index i' s1) i') as (s' & -> & Hok & F1 & F2 & F3).
  - by eapply objects_put.
  - by rewrite P3.
  - done.
  - done.
  - rewrite P4. change (current_ s1) with (current_ s). rewrite Hst, Hm. f_equal. cbn [length]. lia.
  - by eapply put_current.
  - done.
  - cbn [mbind outcome_mbind]. eexists. split; [done|]. split; [done|]. rewrite F1, F2, F3, P1, P2, P3. done.
Qed.

Lemma adaptive_clear l s : adaptive_ok l s → adaptive_ok [] (adaptive_Clear s).
Proof.
  intros [[Hr Ht Hb] _ _ _]. split; [|done|done|].
  - split; [done| |].
    + cbn [adaptive_Clear treeIndex_]. intros t Et. apply fmap_Some in Et as (t0 & E0 & ->). destruct (Ht t0 E0) as [l0 H0]. exists []. exact (ix_clear l0 t0 H0).
    + cbn [adaptive_Clear bitmapIndex_ treeIndex_ addressRange_ ad_granularity_]. intros b r Er. destruct (bitmapIndex_ s) as [[b0 r0]|] eqn:Eb; [|done].
      destruct (Hb b0 r0 eq_refl) as (B1 & B2 & B3). destruct r0 as [|t0]; injection Er as <- <-; (split; [by apply bitmap_Clear_ok|]; split; [done|]).
      * destruct B3 as [t ->]. by eexists.
      * destruct B3 as [l0 H0]. exists []. exact (ix_clear l0 t0 H0).
  - eexists. split; [done|]. split; [done|apply spread_nil].
Qed.

#[export] Instance adaptive_lawful : AddressIndex AdaptiveAddressIndex.
Proof.
  refine {| ix_holds := adaptive_ok; ix_accepts _ := True; ix_sees := adaptive_sees |}.
  - intros l s [_ _ _ (i & _ & Hl)]. by apply (ix_spread l i).
  - intros l l' s E [Ho Hm Hst (i & Ei & Hl)]. split; [done|by rewrite Hm|done|]. exists i. split; [done|by apply (ix_perm l)].
  - intros e l s Hok He _ Hap. destruct (adaptive_insert e l s Hok He Hap) as (s' & E & H & _). by exists s'.
  - intros a l s Hok Ha. pose proof Hok as [_ _ _ (i & Ei & Hl)]. cbn. unfold adaptive_Lookup. rewrite Ei. cbn [mbind outcome_mbind].
    rewrite (ix_lookup a l i Hl Ha), (current_sees l s i a Hok Ei Hl). done.
  - intros a l s Hok Ha. pose proof Hok as [_ _ _ (i & Ei & Hl)]. cbn. unfold adaptive_IsInRange. rewrite Ei. cbn [mbind outcome_mbind].
    rewrite (ix_is_in_range a l i Hl Ha), (current_sees l s i a Hok Ei Hl). done.
  - intros l s. apply adaptive_clear.
  - intros l s [_ Hm _ _]. cbn. unfold adaptive_Size. by rewrite Hm.
Defined.

(** The addresses a default adaptive index can find: 2^47 and one cell of 2^27 bytes more. *)
Definition visible_limit : Z := 0x800000000000 + 0x8000000.

Lemma default_has_cell a : has_cell (BitmapIndex_new DEFAULT_ADDRESS_RANGE DEFAULT_BITMAP_GRANULARITY) a = (a <? visible_limit).
Proof.
  unfold has_cell, enabled, visible_limit. change (bitCount_ (BitmapIndex_new DEFAULT_ADDRESS_RANGE DEFAULT_BITMAP_GRANULARITY)) with 1048577.
  change (granularity_ (BitmapIndex_new DEFAULT_ADDRESS_RANGE DEFAULT_BITMAP_GRANULARITY)) with 134217728.
  change (negb (negb (1048577 =? 0))) with false. cbn [orb]. apply eq_iff_eq_true. rewrite !Z.ltb_lt. Z.to_euclidean_division_equations; lia.
Qed.

Lemma adaptive_insert_all es l s : adaptive_ok l s → spread (es ++ l) →
  ∃ s', insert_all es s = Ret s' ∧ adaptive_ok (es ++ l) s' ∧ addressRange_ s' = addressRange_ s ∧ ad_granularity_ s' = ad_granularity_ s.
Proof.
  revert l s. induction es as [|e es IH]; intros l s Hok Hs; [by exists s|]. cbn [insert_all app ai_Insert adaptive_index] in *.
  destruct (spread_head e (es ++ l) Hs) as (Hs' & He & Hap). apply list.Forall_app in Hap as [_ Hap].
  destruct (adaptive_insert e l s Hok He Hap) as (s1 & -> & Hok1 & R1 & G1 & _). cbn [mbind outcome_mbind].
  destruct (IH (e :: l) s1) as (s' & E & Hok' & Hr' & Hg'); [done| |].
  - apply (spread_perm (e :: es ++ l)); [apply Permutation_middle|done].
  - exists s'. split; [done|]. split; [|split; congruence]. by apply (ix_perm (AddressIndex := adaptive_lawful) _ _ _ (symmetry (Permutation_middle es l e))).
Qed.

(** C24. The adaptive index, whatever it migrates to.  Entries that do not overlap are all accepted, and
    an address is found as a scan of them finds it; with more than 256 entries only addresses
    below [visible_limit] are, since those beyond have no bit in the bitmap. *)
Theorem adaptive_lookup es : spread es →
  ∃ s, insert_all es (AdaptiveAddressIndex_new DEFAULT_ADDRESS_RANGE DEFAULT_BITMAP_GRANULARITY) = Ret s ∧
    adaptive_Size s = length es ∧
    ∀ a, fits 64 a → adaptive_Lookup a s =
      Ret (if (length es <=? BITMAP_THRESHOLD) || (a <? visible_limit) then en_value <$> List.find (holds_addr a) es else None).
Proof.
  intros Hs. set (s0 := AdaptiveAddressIndex_new _ _).
  destruct (adaptive_insert_all es [] s0) as (s & E & Hok & Hr & Hg); [apply adaptive_new_ok; [done|by split]|by rewrite app_nil_r|]. rewrite app_nil_r in Hok.
  exists s. split; [done|]. split; [exact (ix_size es s Hok)|]. intros a Ha.
  change (adaptive_Lookup a s) with (ai_Lookup a s). rewrite (ix_lookup (AddressIndex := adaptive_lawful) a es s Hok Ha).
  change (ix_sees s a) with (adaptive_sees s a). unfold adaptive_sees.
  rewrite Hr, Hg. change (addressRange_ s0) with DEFAULT_ADDRESS_RANGE. change (ad_granularity_ s0) with DEFAULT_BITMAP_GRANULARITY.
  rewrite default_has_cell. destruct Hok as [_ Hm _ _]. by rewrite Hm.
Qed.

(** Checking that entries do not overlap. *)
Fixpoint spreadb (l : list Entry) : bool :=
  match l with
  | [] => true
  | e :: l' => (0 <=? en_start e) && (en_start e <=? en_end e) && (en_end e <? 2 ^ 64)
               && forallb (λ f, negb (overlapping (en_start e) (en_end e) f)) l' && spreadb l'
  end.
Lemma spreadb_ok l : spreadb l = true → spread l.
Proof.
  induction l as [|e l IH]; [intros _; apply spread_nil|]. cbn [spreadb]. intros H. zbool. apply spread_cons; [by apply IH|by repeat split|].
  apply list.Forall_forall. intros f Hf. apply list_elem_of_In in Hf. rewrite forallb_forall in *. unfold apart. by apply negb_true_iff, (H1 f).
Qed.

(** 257 pages at the bottom of the upper half of a 48-bit address space. *)
Definition high_pages : list Entry := map (λ i, mkEntry (0xfffff0000000 + i * 4096) (0xfffff0000000 + i * 4096 + 4095) i) (seqZ 0 257).

Lemma adaptive_lookup_witness : ∃ s,
  insert_all high_pages (AdaptiveAddressIndex_new DEFAULT_ADDRESS_RANGE DEFAULT_BITMAP_GRANULARITY) = Ret s ∧
  List.find (holds_addr 0xfffff0000010) high_pages = Some (mkEntry 0xfffff0000000 0xfffff0000fff 0) ∧ adaptive_Lookup 0xfffff0000010 s = Ret None.
Proof.
  destruct (adaptive_lookup high_pages) as (s & E & _ & H).
  - apply spreadb_ok. vm_compute; reflexivity.
  - exists s. split; [exact E|]. split; [vm_compute; reflexivity|]. rewrite H; [vm_compute; reflexivity|]. split; vm_compute; congruence.
Defined.

(** *** The next marked cell *)
Lemma ctz_loop_spec (n : nat) v : 0 < v < 2 ^ n → 0 <= ctz_loop n v < n ∧ Z.testbit v (ctz_loop n v) = true ∧ ∀ j, 0 <= j < ctz_loop n v → Z.testbit v j = false.
Proof.
  revert v. induction n as [|n IH]; intros v Hv; [cbn in Hv; lia|]. cbn [ctz_loop]. destruct (Z.testbit v 0) eqn:E0; [split; [lia|split; [done|lia]]|].
  assert (Hs : 0 < Z.shiftr v 1 < 2 ^ n).
  { rewrite Z.shiftr_div_pow2 by lia. rewrite Z.bit0_odd in E0. rewrite <- Z.negb_even in E0. apply negb_false_iff, Z.even_spec in E0 as [k ->].
    rewrite Nat2Z.inj_succ, Z.pow_succ_r in Hv by lia. change (2 ^ 1) with 2. rewrite Z.mul_comm, Z.div_mul by lia. lia. }
  destruct (IH _ Hs) as (H1 & H2 & H3). split; [lia|]. rewrite Z.shiftr_spec in H2 by lia. rewrite Z.add_comm. split; [done|]. intros j Hj.
  destruct (Z.eq_dec j 0) as [->|]; [done|]. specialize (H3 (j - 1) ltac:(lia)). rewrite Z.shiftr_spec in H3 by lia. by replace (j - 1 + 1) with j in H3 by lia.
Qed.

(** The first marked cell at or after [i], or none. *)
Definition next_marked (b : BitmapIndex) (i : Z) (r : option Z) : Prop :=
  match r with
  | Some k => i <= k ∧ marked b k = true ∧ ∀ j, i <= j < k → marked b j = false
  | None => ∀ j, i <= j → marked b j = false
  end.

Lemma next_word_spec b ws k : Forall (fits 64) ws → drop (Z.to_nat k) (bitmap_ b) = ws → 0 <= k →
  ∃ r, next_marked b (k * 64) r ∧ next_word ws k (granularity_ b) = match r with Some c => u64 (c * granularity_ b) | None => ALL_BITS end.
Proof.
  intros Hf. revert k. induction Hf as [|v ws Hv Hf IH]; intros k Hd Hk; cbn [next_word].
  - exists None. split; [|done]. intros j Hj. unfold marked, bit_at, BITS_PER_WORD. apply drop_nil_inv in Hd.
    rewrite lookup_ge_None_2; [done|]. pose proof (Z.div_le_mono (k * 64) j 64 ltac:(lia) Hj). rewrite Z.div_mul in * by lia. lia.
  - assert (Hw : bitmap_ b !! Z.to_nat k = Some v) by (rewrite <- (Nat.add_0_r (Z.to_nat k)), <- lookup_drop, Hd; done).
    assert (Hb : ∀ j, 0 <= j < 64 → marked b (k * 64 + j) = Z.testbit v j).
    { intros j Hj. unfold marked, bit_at, BITS_PER_WORD. replace ((k * 64 + j) / 64) with k by (Z.to_euclidean_division_equations; lia).
      replace ((k * 64 + j) mod 64) with j by (Z.to_euclidean_division_equations; lia). by rewrite Hw. }
    destruct (Z.eqb_spec v 0) as [->|Hne]; cbn [negb].
    + destruct (IH (k + 1)) as (r & Hr & E); [|lia|].
      { replace (Z.to_nat (k + 1)) with (Z.to_nat k + 1)%nat by lia. rewrite <- drop_drop, Hd. done. }
      exists r. split; [|done]. assert (Hz : ∀ j, k * 64 <= j < (k + 1) * 64 → marked b j = false).
      { intros j Hj. replace j with (k * 64 + (j - k * 64)) by lia. rewrite Hb by lia. apply Z.bits_0. }
      destruct r as [c|]; cbn in *.
      * destruct Hr as (R1 & R2 & R3). split; [lia|]. split; [done|]. intros j Hj. destruct (Z.lt_ge_cases j ((k + 1) * 64)); [apply Hz; lia|apply R3; lia].
      * intros j Hj. destruct (Z.lt_ge_cases j ((k + 1) * 64)); [apply Hz; lia|by apply Hr].
    + destruct (ctz_loop_spec 64 v) as (H1 & H2 & H3); [unfold fits in Hv; change (2 ^ 64%nat) with (2 ^ 64); lia|]. fold (ctzll v) in *.
      exists (Some (k * 64 + ctzll v)). split; [|done]. unfold next_marked. change (Z.of_nat 64) with 64 in H1. split; [lia|]. split; [rewrite Hb by lia; done|]. intros j Hj.
      replace j with (k * 64 + (j - k * 64)) by lia. rewrite Hb by lia. apply H3. lia.
Qed.

(** [FindNextInRange] gives the address of the first marked cell from that of [start] on, or
    [UINT64_MAX]. *)
Theorem FindNextInRange_spec start b : bitmap_ok b → 0 <= start →
  ∃ r, next_marked b (start / granularity_ b) r ∧
       FindNextInRange start b = Ret (match r with Some c => c * granularity_ b | None => ALL_BITS end).
Proof.
  intros Hok Hst. pose proof Hok as [Hg Hc Hoff Hw Hf Hclr]. unfold FindNextInRange, BITS_PER_WORD.
  assert (Hnone : bitCount_ b <= start / granularity_ b → next_marked b (start / granularity_ b) None) by (intros Hle j Hj; apply Hclr; lia).
  destruct (Z.eqb_spec (granularity_ b) 0) as [E|Hg0].
  { exists None. split; [|done]. apply Hnone. rewrite (Hoff E), E, Zdiv_0_r. lia. }
  set (i := start / granularity_ b) in *. assert (Hi : 0 <= i) by (apply Z.div_pos; unfold fits in Hg; lia).
  destruct (Z.eqb_spec (bitCount_ b) 0) as [E|Hc0]; [exists None; split; [apply Hnone; lia|done]|]. cbn [orb]. zcase; [exists None; split; [by apply Hnone|done]|].
  assert (Hu : ∀ c, marked b c = true → 0 <= c → u64 (c * granularity_ b) = c * granularity_ b).
  { intros c Hm Hc'. apply wrap_small. destruct (Z.lt_ge_cases c (bitCount_ b)); [|by rewrite Hclr in Hm]. unfold fits, maxBitMapSize in *. nia. }
  unfold word_at. destruct (lookup_lt_is_Some_2 (bitmap_ b) (Z.to_nat (i / 64))) as [v Ev]; [rewrite Hw; Z.to_euclidean_division_equations; lia|]. rewrite Ev. cbn [mbind outcome_mbind].
  pose proof (Forall_lookup_1 _ _ _ _ Hf Ev) as Hv. pose proof (Z.mod_pos_bound i 64 ltac:(lia)) as Hmod.
  assert (Hbit : ∀ j, 0 <= j < 64 - i mod 64 → marked b (i + j) = Z.testbit (Z.shiftr v (i mod 64)) j).
  { intros j Hj. rewrite Z.shiftr_spec by lia. unfold marked, bit_at, BITS_PER_WORD. replace ((i + j) / 64) with (i / 64) by (Z.to_euclidean_division_equations; lia).
    replace ((i + j) mod 64) with (j + i mod 64) by (Z.to_euclidean_division_equations; lia). by rewrite Ev. }
  destruct (Z.eqb_spec (Z.shiftr v (i mod 64)) 0) as [Ez|Hne]; cbn [negb].
  - destruct (next_word_spec b (drop (Z.to_nat (i / 64 + 1)) (bitmap_ b)) (i / 64 + 1)) as (r & Hr & ->); [by apply Forall_drop|done|pose proof (Z.div_pos i 64); lia|].
    exists r. assert (Hz : ∀ j, i <= j < (i / 64 + 1) * 64 → marked b j = false).
    { intros j Hj. replace j with (i + (j - i)) by lia. rewrite Hbit by (Z.to_euclidean_division_equations; lia). rewrite Ez. apply Z.bits_0. }
    assert (i <= (i / 64 + 1) * 64) by (Z.to_euclidean_division_equations; lia). destruct r as [c|]; cbn in Hr |- *.
    + destruct Hr as (R1 & R2 & R3). split; [|by rewrite Hu by (done || lia)]. split; [lia|]. split; [done|]. intros j Hj.
      destruct (Z.lt_ge_cases j ((i / 64 + 1) * 64)); [apply Hz; lia|apply R3; lia].
    + split; [|done]. intros j Hj. destruct (Z.lt_ge_cases j ((i / 64 + 1) * 64)); [apply Hz; lia|by apply Hr].
  - assert (Hsh : 0 < Z.shiftr v (i mod 64) < 2 ^ (64 - i mod 64)).
    { destruct Hv as [V0 V1]. pose proof (proj2 (Z.shiftr_nonneg v (i mod 64)) V0). split; [lia|]. rewrite Z.shiftr_div_pow2 by lia. apply Z.div_lt_upper_bound; [by apply Z.pow_pos_nonneg; lia|].
      rewrite <- Z.pow_add_r by lia. by replace (i mod 64 + (64 - i mod 64)) with 64 by lia. }
    destruct (ctz_loop_spec 64 (Z.shiftr v (i mod 64))) as (H1 & H2 & H3).
    { split; [lia|]. eapply Z.lt_le_trans; [apply Hsh|]. apply Z.pow_le_mono_r; lia. }
    fold (ctzll (Z.shiftr v (i mod 64))) in *. set (k := ctzll _) in *.
    assert (Hk : k < 64 - i mod 64).
    { destruct (Z.lt_ge_cases k (64 - i mod 64)) as [|Hge]; [done|]. rewrite (fits_testbit (64 - i mod 64) _ k) in H2; [done|lia|unfold fits; lia|done]. }
    assert (Hm : marked b (i + k) = true) by (rewrite Hbit by lia; done).
    exists (Some (i + k)). replace (i / 64 * 64 + i mod 64 + k) with (i + k) by (Z.to_euclidean_division_equations; lia).
    rewrite Hu by (done || lia). split; [|done]. split; [lia|]. split; [done|]. intros j Hj. replace j with (i + (j - i)) by lia. rewrite Hbit by lia. apply H3. lia.
Qed.
