(* ===== verification/LruCache.v ===== *)
(** * The cache of recent lookups

    [LruCache] (tools/process_dump/minidump_parser/include/minidump_lru_cache.h): a [std::list] of
    items in the order of their last use and a map from keys to iterators into it.  Iterators are
    names of nodes, which stay valid when nodes are moved ([splice]) and dangle when the node is
    removed.  The theorem is that it implements the plain list of the most recently used items. *)
From S2P Require Import Prelude.

Section Lru.
Context {K V : Type} `{Countable K}.

Record LruCache := mkLru {
  capacity_ : Z;
  items_ : list (nat * (K * V));   (** nodes: their names and contents, the most recent first *)
  index_ : gmap K nat;
  next_node : nat                  (** the name of the next node *)
}.

Definition LruCache_new (capacity : Z) : LruCache := mkLru capacity [] ∅ 0.

(** [items_.splice(items_.begin(), items_, it)]. *)
Definition MoveToFront (it : nat) (c : LruCache) : outcome LruCache :=
  match List.find (λ n, Nat.eqb n.1 it) (items_ c) with
  | Some n => Ret (mkLru (capacity_ c) (n :: List.filter (λ n, negb (Nat.eqb n.1 it)) (items_ c)) (index_ c) (next_node c))
  | None => Undef UseAfterFree
  end.

(** Writing and reading through an iterator. *)
Definition set_node (it : nat) (v : V) (c : LruCache) : outcome LruCache :=
  match List.find (λ n, Nat.eqb n.1 it) (items_ c) with
  | Some _ => Ret (mkLru (capacity_ c) (map (λ n, if Nat.eqb n.1 it then (n.1, (n.2.1, v)) else n) (items_ c)) (index_ c) (next_node c))
  | None => Undef UseAfterFree
  end.
Definition node_value (it : nat) (c : LruCache) : outcome V :=
  match List.find (λ n, Nat.eqb n.1 it) (items_ c) with Some n => Ret n.2.2 | None => Undef UseAfterFree end.

(** [index_.erase(items_.back().first); items_.pop_back()]; [back] of an empty list is undefined. *)
Definition evict (c : LruCache) : outcome LruCache :=
  match list.last (items_ c) with
  | Some n => Ret (mkLru (capacity_ c) (removelast (items_ c)) (delete n.2.1 (index_ c)) (next_node c))
  | None => Undef OutOfBounds
  end.

Definition Put (key : K) (value : V) (c : LruCache) : outcome LruCache :=
  match index_ c !! key with
  | Some it => c ← set_node it value c; MoveToFront it c
  | None =>
      c ← (if capacity_ c <=? length (items_ c) then evict c else Ret c);
      Ret (mkLru (capacity_ c) ((next_node c, (key, value)) :: items_ c) (<[key := next_node c]> (index_ c)) (S (next_node c)))
  end.

Definition Get (key : K) (c : LruCache) : outcome (option V * LruCache) :=
  match index_ c !! key with
  | None => Ret (None, c)
  | Some it => c ← MoveToFront it c; v ← node_value it c; Ret (Some v, c)
  end.

Definition Contains (key : K) (c : LruCache) : bool := bool_decide (is_Some (index_ c !! key)).
Definition lru_Clear (c : LruCache) : LruCache := mkLru (capacity_ c) [] ∅ (next_node c).

Fixpoint shrink_loop (fuel : nat) (c : LruCache) : outcome LruCache :=
  match fuel with
  | O => OutOfFuel
  | S fuel' => if capacity_ c <? length (items_ c) then c ← evict c; shrink_loop fuel' c else Ret c
  end.
Definition SetCapacity (capacity : Z) (c : LruCache) : outcome LruCache :=
  shrink_loop (S (length (items_ c))) (mkLru capacity (items_ c) (index_ c) (next_node c)).

(** ** The specification: the most recently used items, the latest first *)
Record recent := mkRecent { r_capacity : nat; r_items : list (K * V) }.

Definition assoc (key : K) (l : list (K * V)) : option V := snd <$> List.find (λ i, bool_decide (i.1 = key)) l.
Definition others (key : K) (l : list (K * V)) : list (K * V) := List.filter (λ i, negb (bool_decide (i.1 = key))) l.

(** An item is put in front; the last one goes when there are more than the capacity.  Without any
    capacity nothing can be put. *)
Definition spec_Put (key : K) (value : V) (r : recent) : outcome recent :=
  match r_capacity r with
  | O => Undef OutOfBounds
  | n => Ret (mkRecent n (take n ((key, value) :: others key (r_items r))))
  end.
Definition spec_Get (key : K) (r : recent) : option V * recent :=
  match assoc key (r_items r) with
  | Some v => (Some v, mkRecent (r_capacity r) ((key, v) :: others key (r_items r)))
  | None => (None, r)
  end.
Definition spec_SetCapacity (n : nat) (r : recent) : recent := mkRecent n (take n (r_items r)).

Inductive lru_op := OpPut (k : K) (v : V) | OpGet (k : K) | OpContains (k : K) | OpClear | OpSetCapacity (n : nat).
Inductive lru_ret := RetUnit | RetValue (v : option V) | RetBool (b : bool).

Definition lru_step (o : lru_op) (c : LruCache) : outcome (lru_ret * LruCache) :=
  match o with
  | OpPut k v => c ← Put k v c; Ret (RetUnit, c)
  | OpGet k => '(v, c) ← Get k c; Ret (RetValue v, c)
  | OpContains k => Ret (RetBool (Contains k c), c)
  | OpClear => Ret (RetUnit, lru_Clear c)
  | OpSetCapacity n => c ← SetCapacity n c; Ret (RetUnit, c)
  end.
Definition spec_step (o : lru_op) (r : recent) : outcome (lru_ret * recent) :=
  match o with
  | OpPut k v => r ← spec_Put k v r; Ret (RetUnit, r)
  | OpGet k => let '(v, r) := spec_Get k r in Ret (RetValue v, r)
  | OpContains k => Ret (RetBool (bool_decide (is_Some (assoc k (r_items r)))), r)
  | OpClear => Ret (RetUnit, mkRecent (r_capacity r) [])
  | OpSetCapacity n => Ret (RetUnit, spec_SetCapacity n r)
  end.
Fixpoint run {S} (step : lru_op → S → outcome (lru_ret * S)) (os : list lru_op) (s : S) : outcome (list lru_ret) :=
  match os with [] => Ret [] | o :: os' => '(x, s) ← step o s; xs ← run step os' s; Ret (x :: xs) end.

(** ** The refinement *)
Record lru_rel (c : LruCache) (r : recent) : Prop := {
  lr_capacity : capacity_ c = r_capacity r;
  lr_items : map snd (items_ c) = r_items r;
  lr_nodes : NoDup (map fst (items_ c));
  lr_keys : NoDup (map fst (r_items r));
  lr_bound : (length (r_items r) <= r_capacity r)%nat;
  lr_fresh : Forall (λ n, n.1 < next_node c)%nat (items_ c);
  lr_index k it : index_ c !! k = Some it ↔ ∃ v, (it, (k, v)) ∈ items_ c
}.

Lemma node_found l it kv : NoDup (map fst l) → (it, kv) ∈ l → List.find (λ n : nat * (K * V), Nat.eqb n.1 it) l = Some (it, kv).
Proof.
  induction l as [|[j w] l IH]; intros Hn Hin; [by apply elem_of_nil in Hin|]. cbn in Hn. apply list.NoDup_cons in Hn as [H1 H2]. cbn [List.find fst].
  apply elem_of_cons in Hin as [[= <- <-]|Hin]; [by rewrite Nat.eqb_refl|]. destruct (Nat.eqb_spec j it) as [->|]; [|by apply IH].
  destruct H1. apply list_elem_of_fmap. by exists (it, kv).
Qed.

Lemma key_found l k v : NoDup (map fst l) → (k, v) ∈ l → List.find (λ i : K * V, bool_decide (i.1 = k)) l = Some (k, v).
Proof.
  induction l as [|[j w] l IH]; intros Hn Hin; [by apply elem_of_nil in Hin|]. cbn in Hn. apply list.NoDup_cons in Hn as [H1 H2]. cbn [List.find fst].
  apply elem_of_cons in Hin as [[= <- <-]|Hin]; [by rewrite bool_decide_true|]. case_bool_decide as E; [|by apply IH]. subst j.
  destruct H1. apply list_elem_of_fmap. by exists (k, v).
Qed.

Lemma assoc_found l k v : NoDup (map fst l) → (k, v) ∈ l → assoc k l = Some v.
Proof. intros Hn Hin. unfold assoc. by rewrite (key_found l k v). Qed.

Lemma assoc_none l k : (∀ v, (k, v) ∉ l) → assoc k l = None.
Proof.
  intros Hn. unfold assoc. destruct (List.find _ l) as [[k' v]|] eqn:E; [|done]. apply find_some in E as [Hin Hk]. apply bool_decide_eq_true in Hk. cbn in Hk. subst k'.
  apply list_elem_of_In in Hin. by destruct (Hn v).
Qed.

Lemma filter_all {A} (f : A → bool) l : (∀ x, x ∈ l → f x = true) → List.filter f l = l.
Proof.
  induction l as [|x l IH]; intros Hl; [done|]. cbn. rewrite (Hl x) by (apply elem_of_cons; by left). f_equal. apply IH. intros y Hy. apply Hl. apply elem_of_cons. by right.
Qed.

Lemma others_absent l k : (∀ v, (k, v) ∉ l) → others k l = l.
Proof.
  intros Hn. apply filter_all. intros [k' v] Hin. cbn. apply negb_true_iff, bool_decide_eq_false. intros ->. by destruct (Hn v).
Qed.

(** Dropping the node of a key is dropping the items with the key. *)
Lemma filter_node l it k v : NoDup (map fst l) → NoDup (map fst (map snd l)) → (it, (k, v)) ∈ l →
  map snd (List.filter (λ n : nat * (K * V), negb (Nat.eqb n.1 it)) l) = others k (map snd l).
Proof.
  induction l as [|[j [k' w]] l IH]; intros Hn Hk Hin; [by apply elem_of_nil in Hin|]. cbn [map fst snd] in Hn, Hk. apply list.NoDup_cons in Hn as [N1 N2]. apply list.NoDup_cons in Hk as [K1 K2].
  unfold others in *. cbn [map List.filter fst snd]. apply elem_of_cons in Hin as [[= <- <- <-]|Hin].
  - rewrite Nat.eqb_refl, bool_decide_true by done. cbn [negb]. rewrite !filter_all; [done| |].
    + intros [k' w] Hx. cbn. apply negb_true_iff, bool_decide_eq_false. intros ->. apply K1. apply list_elem_of_fmap. by exists (k, w).
    + intros [j' w] Hx. cbn. apply negb_true_iff, Nat.eqb_neq. intros ->. apply N1. apply list_elem_of_fmap. by exists (it, w).
  - assert (j ≠ it) as Hj. { intros ->. apply N1. apply list_elem_of_fmap. by exists (it, (k, v)). }
    assert (k' ≠ k) as Hk'. { intros ->. apply K1. apply list_elem_of_fmap. exists (k, v). split; [done|]. apply list_elem_of_fmap. by exists (it, (k, v)). }
    rewrite (proj2 (Nat.eqb_neq _ _) Hj), bool_decide_false by done. cbn [negb map snd]. f_equal. by apply IH.
Qed.

Lemma NoDup_filter_map {A B} (f : A → bool) (g : A → B) l : NoDup (map g l) → NoDup (map g (List.filter f l)).
Proof.
  induction l as [|x l IH]; [done|]. cbn [map List.filter]. intros [H1 H2]%list.NoDup_cons. destruct (f x); [|by apply IH]. cbn [map]. constructor; [|by apply IH].
  intros Hin. apply H1. apply list_elem_of_fmap in Hin as (y & -> & Hy). apply list_elem_of_fmap. exists y. split; [done|]. apply list_elem_of_In in Hy. apply filter_In in Hy as [Hy _]. by apply list_elem_of_In.
Qed.

Lemma elem_filter {A} (f : A → bool) l x : x ∈ List.filter f l ↔ x ∈ l ∧ f x = true.
Proof. rewrite !list_elem_of_In. apply filter_In. Qed.

(** The state after a node was written and moved to the front. *)
Lemma moved_rel c r it k v w : lru_rel c r → (it, (k, v)) ∈ items_ c →
  lru_rel (mkLru (capacity_ c) ((it, (k, w)) :: List.filter (λ n, negb (Nat.eqb n.1 it)) (items_ c)) (index_ c) (next_node c))
          (mkRecent (r_capacity r) ((k, w) :: others k (r_items r))).
Proof.
  intros [Hc Hi Hn Hk Hb Hf Hx] Hin. rewrite <- Hi in Hk. pose proof (filter_node _ it k v Hn Hk Hin) as Ef. rewrite Hi in Ef. rewrite Hi in Hk.
  assert (Hkin : (k, v) ∈ r_items r) by (rewrite <- Hi; apply list_elem_of_fmap; by exists (it, (k, v))).
  split; cbn [capacity_ items_ index_ next_node r_capacity r_items map fst snd].
  - done.
  - by rewrite Ef.
  - constructor; [|by apply NoDup_filter_map]. intros (n & E & Hn')%list_elem_of_fmap. apply elem_filter in Hn' as [_ Hne]. by rewrite <- E, Nat.eqb_refl in Hne.
  - constructor; [|by apply NoDup_filter_map]. intros (n & E & Hn')%list_elem_of_fmap. apply elem_filter in Hn' as [_ Hne]. rewrite bool_decide_true in Hne by done. done.
  - cbn. assert (length (others k (r_items r)) < length (r_items r))%nat; [|lia]. clear - Hkin. unfold others. induction (r_items r) as [|[k' w'] l IH]; [by apply elem_of_nil in Hkin|].
    cbn. apply elem_of_cons in Hkin as [[= <- <-]|Hkin].
    + rewrite bool_decide_true by done. cbn. pose proof (List.filter_length_le (λ i : K * V, negb (bool_decide (i.1 = k))) l). lia.
    + specialize (IH Hkin). destruct (negb _); cbn; lia.
  - constructor; [|apply list.Forall_forall; intros n [Hn' _]%elem_filter; rewrite list.Forall_forall in Hf; by apply Hf]. rewrite list.Forall_forall in Hf. exact (Hf _ Hin).
  - intros k' it'. rewrite Hx. split.
    + intros [v' Hv']. destruct (decide (it' = it)) as [->|Hne].
      * pose proof (node_found _ _ _ Hn Hin) as E1. rewrite (node_found _ _ _ Hn Hv') in E1. injection E1 as -> ->. exists w. apply elem_of_cons. by left.
      * exists v'. apply elem_of_cons. right. apply elem_filter. split; [done|]. cbn. by apply negb_true_iff, Nat.eqb_neq.
    + intros [v' [[= -> -> ->]|Hv']%elem_of_cons]; [by exists v|]. apply elem_filter in Hv' as [Hv' _]. by exists v'.
Qed.

Lemma last_removelast {A} (l : list A) x : list.last l = Some x → l = removelast l ++ [x].
Proof. intros (l' & ->)%last_Some. by rewrite removelast_last. Qed.

(** The last node goes, and its key from the index. *)
Lemma evict_rel c r n : lru_rel c r → list.last (items_ c) = Some n →
  ∃ c', evict c = Ret c' ∧ lru_rel c' (mkRecent (r_capacity r) (removelast (r_items r))) ∧
        capacity_ c' = capacity_ c ∧ items_ c' = removelast (items_ c) ∧ next_node c' = next_node c.
Proof.
  intros [Hc Hi Hn Hk Hb Hf Hx] Hl. unfold evict. rewrite Hl. eexists. split; [done|]. split; [|done]. apply last_removelast in Hl. set (l := removelast (items_ c)) in *.
  destruct n as [it [k v]]. assert (Er : r_items r = map snd l ++ [(k, v)]) by (rewrite <- Hi, Hl; by rewrite map_app). rewrite Er in *. rewrite Hl in *. clear Hl Hi.
  rewrite removelast_last. rewrite map_app in Hn, Hk. cbn in Hn, Hk. apply list.NoDup_app in Hn as (N1 & N2 & _). apply list.NoDup_app in Hk as (K1 & K2 & _).
  apply list.Forall_app in Hf as [Hf _]. rewrite length_app in Hb. split; cbn [capacity_ items_ index_ next_node r_capacity r_items snd fst]; [done|done|done|done|lia|done|].
  intros k' it'. rewrite lookup_delete_Some, Hx. split.
  - intros [Hne [v' [Hv'|E%list_elem_of_singleton]%elem_of_app]]; [by exists v'|]. congruence.
  - intros [v' Hv']. split; [|exists v'; apply elem_of_app; by left]. intros <-. apply (K2 k); [|by apply list_elem_of_singleton].
    apply list_elem_of_fmap. exists (k, v'). split; [done|]. apply list_elem_of_fmap. by exists (it', (k, v')).
Qed.

Lemma push_rel c r k v : lru_rel c r → (∀ w, (k, w) ∉ r_items r) → (length (r_items r) < r_capacity r)%nat →
  lru_rel (mkLru (capacity_ c) ((next_node c, (k, v)) :: items_ c) (<[k := next_node c]> (index_ c)) (S (next_node c)))
          (mkRecent (r_capacity r) ((k, v) :: r_items r)).
Proof.
  intros [Hc Hi Hn Hk Hb Hf Hx] Habs Hlt. split; cbn [capacity_ items_ index_ next_node r_capacity r_items map fst snd length].
  - done.
  - by rewrite Hi.
  - constructor; [|done]. intros (n & E & Hin)%list_elem_of_fmap. rewrite list.Forall_forall in Hf. specialize (Hf n Hin). lia.
  - constructor; [|done]. intros ([k' w] & E & Hin)%list_elem_of_fmap. cbn in E. subst k'. by destruct (Habs w).
  - lia.
  - constructor; [cbn; lia|]. eapply list.Forall_impl; [exact Hf|]. cbn. intros; lia.
  - intros k' it'. destruct (decide (k' = k)) as [->|Hne].
    + rewrite lookup_insert_eq. split; [intros [= <-]; exists v; apply elem_of_cons; by left|]. intros [w [[= -> ->]|Hw]%elem_of_cons]; [done|].
      destruct (Habs w). rewrite <- Hi. apply list_elem_of_fmap. by exists (it', (k, w)).
    + rewrite lookup_insert_ne by done. rewrite Hx. split; [intros [w Hw]; exists w; apply elem_of_cons; by right|].
      intros [w [[= -> -> ->]|Hw]%elem_of_cons]; [done|by exists w].
Qed.

(** An index entry is a key that is there. *)
Lemma rel_absent c r k : lru_rel c r → index_ c !! k = None → ∀ w, (k, w) ∉ r_items r.
Proof.
  intros [Hc Hi _ _ _ _ Hx] Hk w Hin. rewrite <- Hi in Hin. apply list_elem_of_fmap in Hin as ([it kv] & E & Hin). cbn in E. subst kv.
  assert (index_ c !! k = Some it) by (apply Hx; by exists w). congruence.
Qed.

Lemma Put_rel c r k v : lru_rel c r →
  match spec_Put k v r with Ret r' => ∃ c', Put k v c = Ret c' ∧ lru_rel c' r' | Undef u => Put k v c = Undef u | OutOfFuel => False end.
Proof.
  intros Hrel. pose proof Hrel as [Hc Hi Hn Hk Hb Hf Hx]. unfold Put. assert (Hlen : length (items_ c) = length (r_items r)) by (rewrite <- Hi; by rewrite length_map).
  destruct (index_ c !! k) as [it|] eqn:Ek.
  - apply Hx in Ek as [v0 Hin]. unfold set_node. rewrite (node_found _ _ _ Hn Hin). cbn [mbind outcome_mbind]. unfold MoveToFront. cbn [items_ capacity_ index_ next_node].
    set (up := λ n : nat * (K * V), if Nat.eqb n.1 it then (n.1, (n.2.1, v)) else n).
    assert (E1 : List.find (λ n, Nat.eqb n.1 it) (map up (items_ c)) = Some (it, (k, v))).
    { apply node_found; [|apply list_elem_of_fmap; exists (it, (k, v0)); split; [unfold up; cbn; by rewrite Nat.eqb_refl|done]].
      rewrite map_map. rewrite (map_ext _ fst); [done|]. intros n. unfold up. by destruct (Nat.eqb n.1 it). }
    assert (E2 : List.filter (λ n, negb (Nat.eqb n.1 it)) (map up (items_ c)) = List.filter (λ n, negb (Nat.eqb n.1 it)) (items_ c)).
    { clear. induction (items_ c) as [|n l IH]; [done|]. cbn [map List.filter]. rewrite IH. unfold up at 1 2. destruct (Nat.eqb n.1 it) eqn:E; cbn; by rewrite E. }
    rewrite E1, E2. unfold spec_Put. pose proof (moved_rel c r it k v0 v Hrel Hin) as Hm. pose proof (lr_bound _ _ Hm) as Hb'. cbn in Hb'.
    destruct (r_capacity r) as [|n] eqn:En; [lia|]. eexists. split; [done|]. rewrite take_ge by (cbn; lia). done.
  - pose proof (rel_absent c r k Hrel Ek) as Habs. unfold spec_Put. rewrite (others_absent _ _ Habs). rewrite Hc, Hlen. destruct (r_capacity r) as [|n] eqn:En.
    + zcase; [|lia]. unfold evict. assert (items_ c = []) as -> by (apply nil_length_inv; lia). done.
    + rewrite <- En in *. zcase.
      * assert (Hlast : is_Some (list.last (items_ c))) by (apply last_is_Some; intros E; rewrite E in Hlen; cbn in Hlen; lia). destruct Hlast as [x Hlast].
        destruct (evict_rel c r x Hrel Hlast) as (c1 & -> & Hrel1 & C1 & I1 & X1). cbn [mbind outcome_mbind]. eexists. split; [done|].
        assert (Hr : r_items r ≠ []) by (intros E; rewrite E in *; cbn in *; lia). pose proof (app_removelast_last (k, v) Hr) as Ea.
        assert (Hl1 : length (r_items r) = S (length (removelast (r_items r)))) by (rewrite Ea at 1; rewrite length_app; cbn; lia).
        rewrite En. rewrite firstn_cons. replace (take n (r_items r)) with (removelast (r_items r)).
        { rewrite <- En. apply (push_rel c1 (mkRecent (r_capacity r) (removelast (r_items r))) k v Hrel1); cbn; [|lia]. intros w Hin. apply (Habs w). rewrite Ea. apply elem_of_app. by left. }
        rewrite Ea at 2. rewrite take_app_length'; [done|lia].
      * cbn [mbind outcome_mbind]. eexists. split; [done|]. rewrite En, firstn_cons, take_ge by lia. rewrite <- En. apply push_rel; [done|done|lia].
Qed.

Lemma Get_rel c r k : lru_rel c r → ∃ c', Get k c = Ret ((spec_Get k r).1, c') ∧ lru_rel c' (spec_Get k r).2.
Proof.
  intros Hrel. pose proof Hrel as [Hc Hi Hn Hk Hb Hf Hx]. unfold Get, spec_Get. destruct (index_ c !! k) as [it|] eqn:Ek.
  - apply Hx in Ek as [v Hin]. rewrite (assoc_found _ k v Hk) by (rewrite <- Hi; apply list_elem_of_fmap; by exists (it, (k, v))).
    unfold MoveToFront. rewrite (node_found _ _ _ Hn Hin). cbn [mbind outcome_mbind]. unfold node_value. cbn [items_ List.find fst]. rewrite Nat.eqb_refl.
    cbn [mbind outcome_mbind fst snd]. eexists. split; [done|]. by apply (moved_rel c r it k v v).
  - rewrite (assoc_none _ k (rel_absent c r k Hrel Ek)). by exists c.
Qed.

Lemma Contains_rel c r k : lru_rel c r → Contains k c = bool_decide (is_Some (assoc k (r_items r))).
Proof.
  intros Hrel. pose proof Hrel as [Hc Hi Hn Hk Hb Hf Hx]. unfold Contains. apply bool_decide_ext. destruct (index_ c !! k) as [it|] eqn:Ek.
  - apply Hx in Ek as [v Hin]. rewrite (assoc_found _ k v Hk) by (rewrite <- Hi; apply list_elem_of_fmap; by exists (it, (k, v))). split; intros _; by eexists.
  - by rewrite (assoc_none _ k (rel_absent c r k Hrel Ek)).
Qed.

(** Shrinking, when the list may be longer than the new capacity. *)
Lemma shrink_rel (fuel : nat) c l cap : lru_rel c (mkRecent cap l) → (length l < fuel)%nat → ∀ n : nat,
  ∃ c', shrink_loop fuel (mkLru n (items_ c) (index_ c) (next_node c)) = Ret c' ∧ lru_rel c' (mkRecent n (take n l)).
Proof.
  revert c l cap. induction fuel as [|fuel IH]; intros c l cap Hrel Hlt n; [lia|]. pose proof Hrel as [Hc Hi Hn Hk Hb Hf Hx]. cbn [r_items r_capacity] in *.
  assert (Hlen : length (items_ c) = length l) by (rewrite <- Hi; by rewrite length_map). cbn [shrink_loop capacity_ items_]. rewrite Hlen. zcase.
  - assert (Hlast : is_Some (list.last (items_ c))) by (apply last_is_Some; intros E; rewrite E in Hlen; cbn in Hlen; lia). destruct Hlast as [x Hlast].
    destruct (evict_rel c _ x Hrel Hlast) as (c1 & E1 & Hrel1 & C1 & I1 & X1). unfold evict in *. cbn [items_ index_ next_node capacity_]. rewrite Hlast in *. injection E1 as <-.
    cbn [mbind outcome_mbind]. cbn in Hrel1. assert (Hr : l ≠ []) by (intros ->; cbn in *; lia). pose proof (app_removelast_last x.2 Hr) as Ea.
    assert (Hl1 : length l = S (length (removelast l))) by (rewrite Ea at 1; rewrite length_app; cbn; lia).
    destruct (IH _ _ _ Hrel1 ltac:(lia) n) as (c' & E' & R'). exists c'. split; [exact E'|]. rewrite Ea, take_app_le by lia. done.
  - eexists. split; [done|]. rewrite take_ge by lia. split; cbn; (done || lia).
Qed.

Lemma SetCapacity_rel c r n : lru_rel c r → ∃ c', SetCapacity (Z.of_nat n) c = Ret c' ∧ lru_rel c' (spec_SetCapacity n r).
Proof.
  intros Hrel. unfold SetCapacity, spec_SetCapacity. destruct r as [cap l]. apply (shrink_rel _ c l cap Hrel). destruct Hrel as [_ Hi _ _ _ _ _]. cbn in Hi. rewrite <- Hi, length_map. lia.
Qed.

Lemma lru_new_rel (capacity : nat) : lru_rel (LruCache_new (Z.of_nat capacity)) (mkRecent capacity []).
Proof.
  split; cbn; [done|done|constructor|constructor|lia|constructor|]. intros k it. rewrite lookup_empty. split; [done|]. intros [v Hv]. by apply elem_of_nil in Hv.
Qed.

(** C26. The cache refines the list of the most recently used items: any sequence of calls returns the
    same values, and is undefined only where the specification is, when an item is put into a
    cache of capacity zero (whose list has no last element to remove). *)
Theorem lru_refines capacity os : run lru_step os (LruCache_new (Z.of_nat capacity)) = run spec_step os (mkRecent capacity []).
Proof.
  pose proof (lru_new_rel capacity) as HR.
  revert HR. generalize (LruCache_new (Z.of_nat capacity)), (mkRecent capacity []). induction os as [|o os IH]; intros c r HR; [done|]. cbn [run].
  destruct o as [k v|k|k| |n]; cbn [lru_step spec_step].
  - pose proof (Put_rel c r k v HR) as HP. destruct (spec_Put k v r) as [r'|u|]; [|by rewrite HP|done]. destruct HP as (c' & -> & HR'). cbn [mbind outcome_mbind]. by rewrite (IH c' r' HR').
  - destruct (Get_rel c r k HR) as (c' & -> & HR'). destruct (spec_Get k r) as [v r']. cbn [mbind outcome_mbind fst snd] in *. by rewrite (IH c' r' HR').
  - rewrite (Contains_rel c r k HR). cbn [mbind outcome_mbind]. by rewrite (IH c r HR).
  - cbn [mbind outcome_mbind]. rewrite (IH (lru_Clear c) (mkRecent (r_capacity r) [])); [done|]. destruct HR as [Hc _ _ _ _ _ _].
    split; cbn; [done|done|constructor|constructor|lia|constructor|]. intros k it. rewrite lookup_empty. split; [done|]. intros [v Hv]. by apply elem_of_nil in Hv.
  - destruct (SetCapacity_rel c r n HR) as (c' & -> & HR'). cbn [mbind outcome_mbind]. by rewrite (IH c' _ HR').
Qed.
End Lru.
Arguments LruCache K V {_ _}.
