(* ===== verification/Minidump.v ===== *)
(** * Minidumps: the reader

    The parser of minidump files (tools/process_dump/minidump_parser): the reader over a mapped file
    (minidump_memory_reader.cpp), the structures of the format (include/minidump_format.h), and the
    objects read from the streams of a file (minidump_thread.cpp, minidump_module.cpp, ...).  The
    reader is shared by the parser and its objects: it is passed along.  The reader that falls back
    to a [std::istream] is not modelled; of an error the kind is kept, not its message and line. *)
From S2P Require Import Prelude Text AddressIndex LruCache.

(** ** Errors and configuration *)
Inductive MinidumpError :=
| ME_SUCCESS | ERROR_FILE_READ | ERROR_FILE_SEEK | ERROR_SIGNATURE | ERROR_VERSION | ERROR_ENDIANNESS | ERROR_STREAM_COUNT
| ERROR_STREAM_READ | ERROR_MEMORY_ALLOC | ERROR_MEMORY_SIZE | ERROR_THREAD_COUNT | ERROR_THREAD_READ | ERROR_MODULE_COUNT
| ERROR_MODULE_READ | ERROR_CONTEXT_READ | ERROR_STRING_LENGTH | ERROR_STRING_READ | ERROR_RANGE_OVERLAP | ERROR_ALREADY_EXISTS
| ERROR_NOT_FOUND | ERROR_CORRUPTED_DATA.

Record MinidumpConfig := mkConfig {
  maxStreams : Z; maxStringLength : Z; maxThreads : Z; maxModules : Z; maxMemoryRegions : Z; maxMemoryBytes : Z;
  enableChecksumValidation : bool; enablePerformanceStats : bool;
  enableRangeMap : bool; enableIntervalTree : bool; enableBitmapIndex : bool; bitmapGranularity : Z;
  enableParallelParsing : bool; lruCacheCapacity : Z
}.
Definition MinidumpConfig_default : MinidumpConfig :=
  mkConfig 128 1024 400 2048 4096 (64 * 1024 * 1024) true true false true true 134217728 true 32.

(** The setters of [MinidumpConfigManager]. *)
Definition SetMaxStreams (value : Z) (c : MinidumpConfig) : MinidumpConfig :=
  mkConfig value (maxStringLength c) (maxThreads c) (maxModules c) (maxMemoryRegions c) (maxMemoryBytes c)
    (enableChecksumValidation c) (enablePerformanceStats c) (enableRangeMap c) (enableIntervalTree c)
    (enableBitmapIndex c) (bitmapGranularity c) (enableParallelParsing c) (lruCacheCapacity c).
Definition SetMaxThreads (value : Z) (c : MinidumpConfig) : MinidumpConfig :=
  mkConfig (maxStreams c) (maxStringLength c) value (maxModules c) (maxMemoryRegions c) (maxMemoryBytes c)
    (enableChecksumValidation c) (enablePerformanceStats c) (enableRangeMap c) (enableIntervalTree c)
    (enableBitmapIndex c) (bitmapGranularity c) (enableParallelParsing c) (lruCacheCapacity c).
Definition SetMaxModules (value : Z) (c : MinidumpConfig) : MinidumpConfig :=
  mkConfig (maxStreams c) (maxStringLength c) (maxThreads c) value (maxMemoryRegions c) (maxMemoryBytes c)
    (enableChecksumValidation c) (enablePerformanceStats c) (enableRangeMap c) (enableIntervalTree c)
    (enableBitmapIndex c) (bitmapGranularity c) (enableParallelParsing c) (lruCacheCapacity c).
Definition SetMaxMemoryBytes (value : Z) (c : MinidumpConfig) : MinidumpConfig :=
  mkConfig (maxStreams c) (maxStringLength c) (maxThreads c) (maxModules c) (maxMemoryRegions c) value
    (enableChecksumValidation c) (enablePerformanceStats c) (enableRangeMap c) (enableIntervalTree c)
    (enableBitmapIndex c) (bitmapGranularity c) (enableParallelParsing c) (lruCacheCapacity c).
Definition SetEnableChecksumValidation (enable : bool) (c : MinidumpConfig) : MinidumpConfig :=
  mkConfig (maxStreams c) (maxStringLength c) (maxThreads c) (maxModules c) (maxMemoryRegions c) (maxMemoryBytes c)
    enable (enablePerformanceStats c) (enableRangeMap c) (enableIntervalTree c) (enableBitmapIndex c)
    (bitmapGranularity c) (enableParallelParsing c) (lruCacheCapacity c).
Definition SetPerformanceConfig (rangeMap intervalTree bitmapIndex : bool) (granularity : Z) (c : MinidumpConfig) : MinidumpConfig :=
  mkConfig (maxStreams c) (maxStringLength c) (maxThreads c) (maxModules c) (maxMemoryRegions c) (maxMemoryBytes c)
    (enableChecksumValidation c) (enablePerformanceStats c) rangeMap intervalTree bitmapIndex granularity
    (enableParallelParsing c) (lruCacheCapacity c).
Definition SetParallelParsing (enable : bool) (c : MinidumpConfig) : MinidumpConfig :=
  mkConfig (maxStreams c) (maxStringLength c) (maxThreads c) (maxModules c) (maxMemoryRegions c) (maxMemoryBytes c)
    (enableChecksumValidation c) (enablePerformanceStats c) (enableRangeMap c) (enableIntervalTree c)
    (enableBitmapIndex c) (bitmapGranularity c) enable (lruCacheCapacity c).

(** ** MinidumpMemoryReader *)
Record Reader := mkReader { rd_bytes : list Z; mmapPos_ : Z; rd_lastError : MinidumpError }.
Definition set_pos (p : Z) (r : Reader) : Reader := mkReader (rd_bytes r) p (rd_lastError r).
Definition rd_fail (e : MinidumpError) (r : Reader) : Reader := mkReader (rd_bytes r) (mmapPos_ r) e.
Definition file_size (r : Reader) : Z := length (rd_bytes r).

(** [InitMmap] of a file with these contents; an empty file is not mapped. *)
Definition InitMmap (file : list Z) : option Reader :=
  if (length file =? 0)%nat then None else Some (mkReader file 0 ME_SUCCESS).

Definition ReadFromMmap (count : Z) (r : Reader) : option (list Z) * Reader :=
  if (mmapPos_ r <? 0) || (file_size r <? u64 (mmapPos_ r + count)) then (None, rd_fail ERROR_FILE_READ r)
  else (Some (take (Z.to_nat count) (drop (Z.to_nat (mmapPos_ r)) (rd_bytes r))), set_pos (mmapPos_ r + count) r).
Definition ReadBytes (count : Z) (r : Reader) : option (list Z) * Reader :=
  if count =? 0 then (Some [], r) else ReadFromMmap count r.

Definition ValidateStreamExtent (rva dataSize : Z) (r : Reader) : bool * Reader :=
  if file_size r =? 0 then (true, r)
  else if rva + dataSize <=? file_size r then (true, r) else (false, rd_fail ERROR_FILE_SEEK r).
Definition SeekSet (offset : Z) (r : Reader) : bool * Reader :=
  if offset <? 0 then (false, rd_fail ERROR_FILE_SEEK r)
  else if file_size r <? offset then (false, rd_fail ERROR_FILE_SEEK r)
  else (true, set_pos offset r).
Definition Tell (r : Reader) : Z := mmapPos_ r.

(** The UTF-8 bytes of a code point; [None] above the last one. *)
Definition utf8_bytes (cp : Z) : option (list Z) :=
  if cp <? 0x80 then Some [u8 cp]
  else if cp <? 0x800 then Some [u8 (Z.lor 0xC0 (Z.shiftr cp 6)); u8 (Z.lor 0x80 (Z.land cp 0x3F))]
  else if cp <? 0x10000 then
    Some [u8 (Z.lor 0xE0 (Z.shiftr cp 12)); u8 (Z.lor 0x80 (Z.land (Z.shiftr cp 6) 0x3F)); u8 (Z.lor 0x80 (Z.land cp 0x3F))]
  else if cp <? 0x110000 then
    Some [u8 (Z.lor 0xF0 (Z.shiftr cp 18)); u8 (Z.lor 0x80 (Z.land (Z.shiftr cp 12) 0x3F));
          u8 (Z.lor 0x80 (Z.land (Z.shiftr cp 6) 0x3F)); u8 (Z.lor 0x80 (Z.land cp 0x3F))]
  else None.

(** The loop of [ConvertUTF16ToUTF8]: [None] where it returns an empty string. *)
Fixpoint utf16_loop (l : list Z) : option (list Z) :=
  match l with
  | [] => Some []
  | x :: l1 =>
      if x =? 0 then Some []
      else if (0xD800 <=? x) && (x <=? 0xDBFF) then
        match l1 with
        | low :: l2 =>
            if (0xDC00 <=? low) && (low <=? 0xDFFF) then
              match utf8_bytes (u32 (Z.shiftl x 10 + low - 0x35FDC00)) with
              | Some bs => app bs <$> utf16_loop l2
              | None => None
              end
            else None
        | [] => None
        end
      else if (0xDC00 <=? x) && (x <=? 0xDFFF) then None
      else match utf8_bytes x with Some bs => app bs <$> utf16_loop l1 | None => None end
  end.
Definition ConvertUTF16ToUTF8 (l : list Z) : list Z := default [] (utf16_loop l).

(** Little-endian fields of a structure, and an array of 16-bit units. *)
Definition md_field (bs : list Z) (off n : nat) : Z := of_le (take n (drop off bs)).
Fixpoint units16 (bs : list Z) : list Z :=
  match bs with a :: b :: bs' => (a + 256 * b) :: units16 bs' | _ => [] end.

Definition md_ReadString (cfg : MinidumpConfig) (offset : Z) (r : Reader) : option (list Z) * Reader :=
  let '(ok, r) := SeekSet offset r in
  if negb ok then (None, rd_fail ERROR_FILE_SEEK r)
  else
    let '(bs, r) := ReadBytes 4 r in
    match bs with
    | None => (None, rd_fail ERROR_STRING_READ r)
    | Some bs =>
        let len := md_field bs 0 4 in
        if (len =? 0) || negb (len mod 2 =? 0) then (None, rd_fail ERROR_STRING_LENGTH r)
        else
          let utf16Length := len / 2 in
          if (utf16Length =? 0) || (maxStringLength cfg <? utf16Length) then (None, rd_fail ERROR_STRING_LENGTH r)
          else
            let '(data, r) := ReadBytes len r in
            match data with
            | None => (None, rd_fail ERROR_STRING_READ r)
            | Some data => (Some (ConvertUTF16ToUTF8 (units16 data)), rd_fail ME_SUCCESS r)
            end
    end.
Definition ReadUTF8String (cfg : MinidumpConfig) (offset : Z) (r : Reader) : option (list Z) * Reader := md_ReadString cfg offset r.

(** ** The structures of the format *)
Record MDRawHeader := mkHeader {
  h_signature : Z; h_version : Z; numberOfStreams : Z; streamDirectoryRva : Z; h_checksum : Z; h_timeStamp : Z; h_flags : Z }.
Record MDLocationDescriptor := mkLocation { dataSize : Z; rva : Z }.
Record MDMemoryDescriptor := mkMemDesc { startOfMemoryRange : Z; md_memory : MDLocationDescriptor }.
Record MDRawDirectory := mkDirectory { streamType : Z; location : MDLocationDescriptor }.
Record MDRawThread := mkRawThread {
  t_threadId : Z; suspendCount : Z; priorityClass : Z; priority : Z; teb : Z; t_stack : MDMemoryDescriptor; t_threadContext : MDLocationDescriptor }.
Record MDRawThreadName := mkRawThreadName { n_threadId : Z; rvaOfThreadName : Z }.
Record MDRawModule := mkRawModule {
  baseOfImage : Z; sizeOfImage : Z; m_checksum : Z; timeDataStamp : Z; moduleNameRva : Z }.
Record MDExceptionStream := mkRawException {
  e_threadId : Z; exceptionCode : Z; exceptionFlags : Z; exceptionRecord : Z; exceptionAddress : Z; numberParameters : Z;
  exceptionInformation : list Z; e_threadContext : MDLocationDescriptor }.
Record MDRawContextARM64 := mkContextARM64 { c_contextFlags : Z; cpsr : Z; iregs : list Z; fpcr : Z; fpsr : Z }.
Record MDRawSystemInfo := mkRawSystem { processorArchitecture : Z; processorLevel : Z; processorRevision : Z; numberOfProcessors : Z; platformId : Z }.
Record MDRawMiscInfo := mkRawMisc { sizeOfInfo : Z; flags1 : Z; processId : Z; processCreateTime : Z; processUserTime : Z; processKernelTime : Z }.
Record MDRawEsrRegsInfo := mkRawEsr { validity : Z; dumpThreadId : Z; esrRegs : Z }.

Definition sizeof_MDRawHeader : Z := 32.
Definition sizeof_MDRawDirectory : Z := 12.
Definition sizeof_MDMemoryDescriptor : Z := 16.
Definition sizeof_MDRawThread : Z := 48.
Definition sizeof_MDRawThreadName : Z := 12.
Definition sizeof_MDRawModule : Z := 108.
Definition sizeof_MDExceptionStream : Z := 168.
Definition sizeof_MDRawContextARM64 : Z := 952.
Definition sizeof_MDRawSystemInfo : Z := 40.
Definition sizeof_MDRawMiscInfo : Z := 56.
Definition sizeof_MDRawEsrRegsInfo : Z := 16.

Definition get_header (bs : list Z) : MDRawHeader :=
  mkHeader (md_field bs 0 4) (md_field bs 4 4) (md_field bs 8 4) (md_field bs 12 4) (md_field bs 16 4) (md_field bs 20 4) (md_field bs 24 8).
Definition get_location (bs : list Z) : MDLocationDescriptor := mkLocation (md_field bs 0 4) (md_field bs 4 4).
Definition get_memdesc (bs : list Z) : MDMemoryDescriptor := mkMemDesc (md_field bs 0 8) (get_location (drop 8 bs)).
Definition get_directory (bs : list Z) : MDRawDirectory := mkDirectory (md_field bs 0 4) (get_location (drop 4 bs)).
Definition get_thread (bs : list Z) : MDRawThread :=
  mkRawThread (md_field bs 0 4) (md_field bs 4 4) (md_field bs 8 4) (md_field bs 12 4) (md_field bs 16 8) (get_memdesc (drop 24 bs)) (get_location (drop 40 bs)).
Definition get_threadname (bs : list Z) : MDRawThreadName := mkRawThreadName (md_field bs 0 4) (md_field bs 4 8).
Definition get_module (bs : list Z) : MDRawModule := mkRawModule (md_field bs 0 8) (md_field bs 8 4) (md_field bs 12 4) (md_field bs 16 4) (md_field bs 20 4).
Definition get_exception (bs : list Z) : MDExceptionStream :=
  mkRawException (md_field bs 0 4) (md_field bs 8 4) (md_field bs 12 4) (md_field bs 16 8) (md_field bs 24 8) (md_field bs 32 4)
    (map (λ i, md_field bs (40 + 8 * i) 8) (seq 0 15)) (get_location (drop 160 bs)).
Definition get_context (bs : list Z) : MDRawContextARM64 :=
  mkContextARM64 (md_field bs 0 4) (md_field bs 4 4) (map (λ i, md_field bs (8 + 8 * i) 8) (seq 0 33)) (md_field bs 784 4) (md_field bs 788 4).
Definition get_system (bs : list Z) : MDRawSystemInfo := mkRawSystem (md_field bs 0 2) (md_field bs 2 2) (md_field bs 4 2) (md_field bs 6 1) (md_field bs 20 4).
Definition get_misc (bs : list Z) : MDRawMiscInfo := mkRawMisc (md_field bs 0 4) (md_field bs 4 4) (md_field bs 8 4) (md_field bs 12 4) (md_field bs 16 4) (md_field bs 20 4).
Definition get_esr (bs : list Z) : MDRawEsrRegsInfo := mkRawEsr (md_field bs 0 4) (md_field bs 4 4) (md_field bs 8 8).

(** An array of structures of [size] bytes. *)
Fixpoint chunks (n size : nat) (bs : list Z) : list (list Z) :=
  match n with O => [] | S n' => take size bs :: chunks n' size (drop size bs) end.

(** ** Registers of a thread *)
Record MinidumpContext := mkContext { arm64Context_ : option MDRawContextARM64; contextFlags_ : Z; cx_isValid : bool; cx_lastError : MinidumpError }.
Definition MinidumpContext_new : MinidumpContext := mkContext None 0 false ME_SUCCESS.
Definition MD_CONTEXT_CPU_MASK : Z := 0xffffff00.
Definition MD_CONTEXT_ARM64 : Z := 0x00400000.

Definition GetContextCPU (c : MinidumpContext) : Z := if cx_isValid c then Z.land (contextFlags_ c) MD_CONTEXT_CPU_MASK else 0.
Definition GetContextARM64 (c : MinidumpContext) : option MDRawContextARM64 :=
  if GetContextCPU c =? MD_CONTEXT_ARM64 then arm64Context_ c else None.
Definition GetProgramCounter (c : MinidumpContext) : option Z :=
  if negb (cx_isValid c) then None
  else match GetContextARM64 c with Some x => iregs x !! 32%nat | None => None end.
Definition GetStackPointer (c : MinidumpContext) : option Z :=
  if negb (cx_isValid c) then None
  else match GetContextARM64 c with Some x => iregs x !! 31%nat | None => None end.

(** [Read]: what lies beyond [expectedSize] stays zero. *)
Definition context_Read (expectedSize : Z) (c : MinidumpContext) (r : Reader) : bool * MinidumpContext * Reader :=
  let fail := (false, mkContext None (contextFlags_ c) false ERROR_CONTEXT_READ) in
  if expectedSize <? 4 then (fail, r)
  else
    let '(fl, r) := ReadBytes 4 r in
    match fl with
    | None => (fail, r)
    | Some fl =>
        let bytesToRead := Z.min (expectedSize - 4) (sizeof_MDRawContextARM64 - 4) in
        let '(bs, r) := ReadBytes bytesToRead r in
        match bs with
        | None => (fail, r)
        | Some bs =>
            let x := get_context (fl ++ bs ++ replicate (Z.to_nat (sizeof_MDRawContextARM64 - 4 - bytesToRead)) 0) in
            (true, mkContext (Some x) (md_field fl 0 4) true ME_SUCCESS, r)
        end
    end.

(** ** Reading what was written *)
Definition placed (file : list Z) (off : Z) (bs : list Z) : Prop :=
  0 <= off ∧ take (length bs) (drop (Z.to_nat off) file) = bs.

Lemma placed_length file off bs : placed file off bs → bs ≠ [] → off + length bs <= length file.
Proof.
  intros [H0 E] Hne. assert (length (take (length bs) (drop (Z.to_nat off) file)) = length bs) by (by rewrite E).
  rewrite length_take, length_drop in *. assert (length bs ≠ 0)%nat by (by destruct bs). lia.
Qed.

Lemma placed_app file off a b : placed file off (a ++ b) → placed file off a ∧ placed file (off + length a) b.
Proof.
  intros [H0 E]. assert (H1 : length (take (length a + length b) (drop (Z.to_nat off) file)) = (length a + length b)%nat) by (rewrite <- length_app, E; done).
  rewrite length_take in H1. rewrite length_app, <- take_take_drop in E. apply app_inj_1 in E as [E1 E2]; [|rewrite length_take; lia].
  split; (split; [lia|]); [done|]. rewrite drop_drop in E2. by replace (Z.to_nat (off + length a)) with (Z.to_nat off + length a)%nat by lia.
Qed.

(** A file small enough that positions do not wrap. *)
Definition file_ok (file : list Z) : Prop := Z.of_nat (length file) < 2 ^ 63 ∧ Forall is_byte file.

Lemma ReadBytes_placed r bs : file_ok (rd_bytes r) → placed (rd_bytes r) (mmapPos_ r) bs →
  ReadBytes (length bs) r = (Some bs, set_pos (mmapPos_ r + length bs) r).
Proof.
  intros [Hf _] Hp. unfold ReadBytes. destruct (Z.eqb_spec (length bs) 0) as [E|Hne].
  - assert (bs = []) as -> by (destruct bs; [done|cbn in E; lia]). cbn. f_equal. destruct r as [b q e]. unfold set_pos. cbn. by rewrite Z.add_0_r.
  - assert (Hb : bs ≠ []) by (intros ->; done). pose proof (placed_length _ _ _ Hp Hb) as Hl. destruct Hp as [H0 E]. unfold ReadFromMmap, file_size.
    rewrite wrap_small by (unfold fits; lia). destruct (Z.ltb_spec (mmapPos_ r) 0); [lia|]. destruct (Z.ltb_spec (length (rd_bytes r)) (mmapPos_ r + length bs)); [lia|].
    cbn [orb]. by rewrite Nat2Z.id, E.
Qed.

Lemma SeekSet_ok off r : 0 <= off <= file_size r → SeekSet off r = (true, set_pos off r).
Proof. intros H. unfold SeekSet. repeat zcase; (done || lia). Qed.

Lemma md_field_here n z rest : md_field (le_bytes n z ++ rest) 0 n = wrap (8 * n) z.
Proof. unfold md_field. rewrite drop_0, take_app_length' by (by rewrite length_le_bytes). apply of_le_le_bytes. Qed.

Lemma md_field_skip k n z off m rest : (k <= off)%nat → k = n → md_field (le_bytes n z ++ rest) off m = md_field rest (off - k) m.
Proof.
  intros Hle ->. unfold md_field. f_equal. f_equal. rewrite drop_app_ge by (by rewrite length_le_bytes). by rewrite length_le_bytes.
Qed.

(** ** Strings *)

(** A Unicode scalar value that does not end a string. *)
Definition scalar (cp : Z) : bool := (0 <? cp) && (cp <? 0x110000) && negb ((0xD800 <=? cp) && (cp <=? 0xDFFF)).
Definition utf16 (cp : Z) : list Z :=
  if cp <? 0x10000 then [cp] else [0xD800 + (cp - 0x10000) / 1024; 0xDC00 + (cp - 0x10000) mod 1024].

(** A decoder of UTF-8. *)
Definition continues (b : Z) : bool := (0x80 <=? b) && (b <? 0xC0).
Fixpoint utf8_decode (bs : list Z) : option (list Z) :=
  match bs with
  | [] => Some []
  | b :: r =>
      if b <? 0x80 then cons b <$> utf8_decode r
      else match r with
      | c1 :: r1 =>
          if negb (continues c1) || (b <? 0xC0) then None
          else if b <? 0xE0 then cons ((b - 0xC0) * 64 + (c1 - 0x80)) <$> utf8_decode r1
          else match r1 with
          | c2 :: r2 =>
              if negb (continues c2) then None
              else if b <? 0xF0 then cons (((b - 0xE0) * 64 + (c1 - 0x80)) * 64 + (c2 - 0x80)) <$> utf8_decode r2
              else match r2 with
              | c3 :: r3 => if negb (continues c3) || (0xF8 <=? b) then None
                            else cons ((((b - 0xF0) * 64 + (c1 - 0x80)) * 64 + (c2 - 0x80)) * 64 + (c3 - 0x80)) <$> utf8_decode r3
              | [] => None
              end
          | [] => None
          end
      | [] => None
      end
  end.

Lemma mark_bits mark x n : 0 <= n → 0 <= x < 2 ^ n → 0 <= mark → mark mod 2 ^ n = 0 → mark + x < 256 → u8 (Z.lor mark x) = mark + x.
Proof.
  intros Hn Hx H0 Hm H1. rewrite Z.lor_comm. replace mark with (Z.shiftl (mark / 2 ^ n) n) at 1.
  - rewrite lor_disjoint by lia. rewrite wrap_small; pose proof (Z.div_mod mark (2 ^ n) ltac:(lia)); unfold fits; lia.
  - rewrite Z.shiftl_mul_pow2 by lia. pose proof (Z.div_mod mark (2 ^ n) ltac:(lia)). lia.
Qed.

Lemma land_63 x : Z.land x 63 = x mod 64.
Proof. apply (Z.land_ones x 6). lia. Qed.

Lemma continues_mark y : 0 <= y < 64 → continues (128 + y) = true.
Proof. intros H. unfold continues. apply andb_true_iff. rewrite Z.leb_le, Z.ltb_lt. lia. Qed.

Lemma decode_2 x y rest : 0 <= x < 32 → 0 <= y < 64 → utf8_decode (192 + x :: 128 + y :: rest) = cons (x * 64 + y) <$> utf8_decode rest.
Proof.
  intros Hx Hy. cbn [utf8_decode]. rewrite continues_mark by done. cbn [negb orb]. repeat (zcase; try lia). f_equal. f_equal. lia.
Qed.
Lemma decode_3 x y z rest : 0 <= x < 16 → 0 <= y < 64 → 0 <= z < 64 → utf8_decode (224 + x :: 128 + y :: 128 + z :: rest) = cons ((x * 64 + y) * 64 + z) <$> utf8_decode rest.
Proof.
  intros Hx Hy Hz. cbn [utf8_decode]. rewrite !continues_mark by done. cbn [negb orb]. repeat (zcase; try lia). f_equal. f_equal. lia.
Qed.
Lemma decode_4 x y z w rest : 0 <= x < 8 → 0 <= y < 64 → 0 <= z < 64 → 0 <= w < 64 →
  utf8_decode (240 + x :: 128 + y :: 128 + z :: 128 + w :: rest) = cons (((x * 64 + y) * 64 + z) * 64 + w) <$> utf8_decode rest.
Proof.
  intros Hx Hy Hz Hw. cbn [utf8_decode]. rewrite !continues_mark by done. cbn [negb orb]. repeat (zcase; try lia). f_equal. f_equal. lia.
Qed.

(** The bytes of a code point are decoded to it. *)
Lemma utf8_bytes_decode cp : 0 <= cp < 0x110000 → ∃ bs, utf8_bytes cp = Some bs ∧ ∀ rest, utf8_decode (bs ++ rest) = cons cp <$> utf8_decode rest.
Proof.
  intros Hcp. unfold utf8_bytes. rewrite !land_63, !Z.shiftr_div_pow2 by lia. change (2 ^ 6) with 64. change (2 ^ 12) with 4096. change (2 ^ 18) with 262144.
  assert (Hc : ∀ x, u8 (Z.lor 128 (x mod 64)) = 128 + x mod 64 ∧ 0 <= x mod 64 < 64) by (intros x; pose proof (Z.mod_pos_bound x 64); split; [apply (mark_bits _ _ 6); try done|]; lia).
  destruct (Hc cp) as [E1 B1], (Hc (cp / 64)) as [E2 B2], (Hc (cp / 4096)) as [E3 B3]. rewrite E1, E2, E3. clear Hc E1 E2 E3.
  destruct (Z.ltb_spec cp 0x80); [|destruct (Z.ltb_spec cp 0x800); [|destruct (Z.ltb_spec cp 0x10000); [|destruct (Z.ltb_spec cp 0x110000); [|lia]]]].
  - eexists. split; [done|]. intros rest. rewrite wrap_small by (unfold fits; lia). cbn. destruct (Z.ltb_spec cp 0x80); [done|lia].
  - rewrite (mark_bits _ _ 5) by (done || Z.to_euclidean_division_equations; lia). eexists. split; [done|]. intros rest. cbn [app].
    rewrite decode_2 by (done || Z.to_euclidean_division_equations; lia). do 2 f_equal. Z.to_euclidean_division_equations; lia.
  - rewrite (mark_bits _ _ 4) by (done || Z.to_euclidean_division_equations; lia). eexists. split; [done|]. intros rest. cbn [app].
    rewrite decode_3 by (done || Z.to_euclidean_division_equations; lia). do 2 f_equal. Z.to_euclidean_division_equations; lia.
  - rewrite (mark_bits _ _ 3) by (done || Z.to_euclidean_division_equations; lia). eexists. split; [done|]. intros rest. cbn [app].
    rewrite decode_4 by (done || Z.to_euclidean_division_equations; lia). do 2 f_equal. Z.to_euclidean_division_equations; lia.
Qed.

(** A pair of surrogates is put together. *)
Lemma surrogates_join cp : 0x10000 <= cp < 0x110000 →
  u32 (Z.shiftl (0xD800 + (cp - 0x10000) / 1024) 10 + (0xDC00 + (cp - 0x10000) mod 1024) - 0x35FDC00) = cp.
Proof.
  intros H. rewrite Z.shiftl_mul_pow2 by lia. change (2 ^ 10) with 1024. pose proof (Z.div_mod (cp - 0x10000) 1024 ltac:(lia)). rewrite wrap_small; unfold fits; lia.
Qed.

Lemma utf16_loop_decode cps : forallb scalar cps = true → ∃ bs, utf16_loop (flat_map utf16 cps) = Some bs ∧ utf8_decode bs = Some cps.
Proof.
  induction cps as [|cp cps IH]; [by exists []|]. cbn [forallb flat_map]. intros [Hcp H]%andb_true_iff. destruct (IH H) as (bs & E & D). unfold scalar in Hcp. zbool.
  destruct (utf8_bytes_decode cp ltac:(lia)) as (cs & Ec & Dc). exists (cs ++ bs). rewrite Dc, D. split; [|done]. set (us := flat_map utf16 cps) in *. unfold utf16. destruct (Z.ltb_spec cp 0x10000); cbn [app utf16_loop].
  - destruct (Z.eqb_spec cp 0); [lia|]. assert ((0xD800 <=? cp) && (cp <=? 0xDBFF) = false ∧ (0xDC00 <=? cp) && (cp <=? 0xDFFF) = false) as [-> ->]; [|by rewrite Ec, E].
    rewrite !andb_false_iff, !Z.leb_gt. lia.
  - assert (Hh : 0xD800 <= 0xD800 + (cp - 0x10000) / 1024 <= 0xDBFF) by (Z.to_euclidean_division_equations; lia). assert (Hl : 0xDC00 <= 0xDC00 + (cp - 0x10000) mod 1024 <= 0xDFFF) by (Z.to_euclidean_division_equations; lia).
    rewrite surrogates_join by lia. rewrite Ec, E. destruct (Z.eqb_spec (0xD800 + (cp - 0x10000) / 1024) 0); [lia|].
    assert (∀ a x b, a <= x <= b → (a <=? x) && (x <=? b) = true) as HR by (intros a x b HH; apply andb_true_iff; rewrite !Z.leb_le; lia). by rewrite (HR 0xD800), (HR 0xDC00).
Qed.

Lemma units16_le us : Forall (fits 16) us → units16 (flat_map (le_bytes 2) us) = us.
Proof.
  induction 1 as [|u us Hu Hus IH]; [done|]. cbn [flat_map]. set (r := flat_map (le_bytes 2) us) in *. cbn [le_bytes app units16]. rewrite IH. f_equal. unfold fits in Hu. rewrite Z.shiftr_div_pow2 by lia. unfold wrap. Z.to_euclidean_division_equations; lia.
Qed.

(** A string as it is stored: its length in bytes, then its units. *)
Definition enc_string (us : list Z) : list Z := le_bytes 4 (2 * length us) ++ flat_map (le_bytes 2) us.

Lemma utf16_fits cps : forallb scalar cps = true → Forall (fits 16) (flat_map utf16 cps).
Proof.
  induction cps as [|cp cps IH]; [constructor|]. cbn [forallb flat_map]. intros [Hcp H]%andb_true_iff. apply list.Forall_app. split; [|by apply IH]. unfold scalar in Hcp. zbool.
  unfold utf16, fits. zcase; repeat constructor; Z.to_euclidean_division_equations; lia.
Qed.

(** C29. A name stored as UTF-16 is read as UTF-8.  Reading the string at its offset gives bytes that
    decode to its characters, surrogate pairs put together, from any position of the reader. *)
Theorem ReadString_utf8 cfg r off cps : file_ok (rd_bytes r) → placed (rd_bytes r) off (enc_string (flat_map utf16 cps)) →
  forallb scalar cps = true → cps ≠ [] → Z.of_nat (length (flat_map utf16 cps)) <= maxStringLength cfg < 2 ^ 31 →
  ∃ bs r', md_ReadString cfg off r = (Some bs, r') ∧ utf8_decode bs = Some cps.
Proof.
  intros Hf Hp Hs Hne Hlen. pose proof (utf16_loop_decode cps Hs) as (bs & Eb & Db). pose proof (utf16_fits cps Hs) as H16.
  assert (Hn : (0 < length (flat_map utf16 cps))%nat) by (destruct cps as [|cp cps]; [done|]; cbn; unfold utf16; zcase; cbn; lia). set (us := flat_map utf16 cps) in *. clearbody us.
  unfold enc_string in Hp. pose proof (placed_length _ _ _ Hp ltac:(cbn; done)) as HL. pose proof Hp as [H0 _]. apply placed_app in Hp as [P1 P2]. rewrite length_le_bytes in P2. rewrite length_app, length_le_bytes in HL.
  assert (L2 : length (flat_map (le_bytes 2) us) = (2 * length us)%nat) by (clear; induction us as [|u us IH]; cbn [flat_map length]; [done|]; rewrite length_app, length_le_bytes, IH; lia).
  unfold md_ReadString. rewrite SeekSet_ok by (unfold file_size; lia). cbn [negb]. set (r1 := set_pos off r).
  replace (ReadBytes 4 r1) with (ReadBytes (length (le_bytes 4 (2 * length us))) r1) by (by rewrite length_le_bytes). rewrite ReadBytes_placed by done.
  rewrite <- (app_nil_r (le_bytes 4 (2 * length us))), md_field_here, app_nil_r, length_le_bytes. rewrite wrap_small by (unfold fits; lia).
  destruct (Z.eqb_spec (2 * length us) 0); [lia|]. replace (2 * length us) with (length us * 2) by lia. rewrite Z.mod_mul, Z.div_mul by lia. cbn [negb orb Z.eqb].
  destruct (Z.eqb_spec (length us) 0); [lia|]. cbn [orb]. destruct (Z.ltb_spec (maxStringLength cfg) (length us)); [lia|].
  replace (length us * 2) with (Z.of_nat (length (flat_map (le_bytes 2) us))) by lia. rewrite ReadBytes_placed by done. rewrite units16_le by done. unfold ConvertUTF16ToUTF8. rewrite Eb. cbn [default]. by eexists _, _.
Qed.

Lemma ReadString_utf8_witness : ∃ bs r', md_ReadString MinidumpConfig_default 3 (mkReader ([1; 2; 3] ++ enc_string (flat_map utf16 [0x61; 0xE9; 0x20AC; 0x1F600]) ++ [7]) 0 ME_SUCCESS) = (Some bs, r') ∧
  utf8_decode bs = Some [0x61; 0xE9; 0x20AC; 0x1F600] ∧ bs = [0x61; 0xC3; 0xA9; 0xE2; 0x82; 0xAC; 0xF0; 0x9F; 0x98; 0x80].
Proof.
  destruct (ReadString_utf8 MinidumpConfig_default (mkReader ([1; 2; 3] ++ enc_string (flat_map utf16 [0x61; 0xE9; 0x20AC; 0x1F600]) ++ [7]) 0 ME_SUCCESS) 3 [0x61; 0xE9; 0x20AC; 0x1F600])
    as (bs & r' & E & D).
  - split; [done|]. apply (bool_decide_unpack (Forall (λ b, 0 <= b < 256) _)). vm_compute. exact I.
  - split; [done|vm_compute; reflexivity].
  - reflexivity.
  - done.
  - vm_compute. split; congruence.
  - exists bs, r'. split; [exact E|]. split; [exact D|]. vm_compute in E. injection E as <- _. reflexivity.
Defined.
