(* ===== verification/MinidumpStreams.v ===== *)
(** * Minidumps: streams and parser

    The lists of threads, names, modules and memory regions of a minidump, its other streams, and
    [MinidumpParser], which finds them through the directory of the file
    (tools/process_dump/minidump_parser: minidump_thread.cpp, minidump_thread_name.cpp,
    minidump_module.cpp, minidump_memory.cpp, minidump_exception.cpp, minidump_parser.cpp, ...).
    Lookup of addresses goes through any index of the class [AddressIndex]. *)
From S2P Require Import Prelude Text AddressIndex LruCache Minidump.

(** ** PerformanceOptimizer: the indexes shared by all dumps of a process *)
Record PerformanceOptimizer := mkOptimizer {
  intervalTreeModule_ : IntervalTree; intervalTreeMemory_ : IntervalTree; op_bitmapIndex : BitmapIndex;
  rangeMapModule_ : RangeMap; rangeMapMemory_ : RangeMap;
  adaptiveMemoryIndex_ : AdaptiveAddressIndex; adaptiveModuleIndex_ : AdaptiveAddressIndex
}.
Definition PerformanceOptimizer_new (cfg : MinidumpConfig) : PerformanceOptimizer :=
  mkOptimizer IntervalTree_new IntervalTree_new (BitmapIndex_new 0x800000000000 (bitmapGranularity cfg)) RangeMap_new RangeMap_new
    (AdaptiveAddressIndex_new DEFAULT_ADDRESS_RANGE DEFAULT_BITMAP_GRANULARITY)
    (AdaptiveAddressIndex_new DEFAULT_ADDRESS_RANGE DEFAULT_BITMAP_GRANULARITY).
Definition optimizer_Reset (cfg : MinidumpConfig) (o : PerformanceOptimizer) : PerformanceOptimizer :=
  mkOptimizer (tree_Clear (intervalTreeModule_ o)) (tree_Clear (intervalTreeMemory_ o))
    (BitmapIndex_new 0x800000000000 (bitmapGranularity cfg)) (rangeMapModule_ o) (rangeMapMemory_ o)
    (adaptive_Clear (adaptiveMemoryIndex_ o)) (adaptive_Clear (adaptiveModuleIndex_ o)).
Record optimizer_stats := mkStats {
  intervalTreeModuleSize : Z; intervalTreeMemorySize : Z; bitmapMarkedCount : Z; rangeMapModuleSize : Z; rangeMapMemorySize : Z }.
Definition GetStatistics (o : PerformanceOptimizer) : optimizer_stats :=
  mkStats (size_ (intervalTreeModule_ o)) (size_ (intervalTreeMemory_ o)) (MarkedCount (op_bitmapIndex o))
    (GetRangeSize (rangeMapModule_ o)) (GetRangeSize (rangeMapMemory_ o)).

(** ** Memory regions *)
Record MinidumpMemoryRegion := mkRegion { descriptor_ : MDMemoryDescriptor; rg_memory : option (list Z); rg_isValid : bool; rg_lastError : MinidumpError }.
Definition SetDescriptor (d : MDMemoryDescriptor) (g : MinidumpMemoryRegion) : MinidumpMemoryRegion :=
  mkRegion d (rg_memory g) (dataSize (md_memory d) <=? 2 ^ 64 - 1 - startOfMemoryRange d) (rg_lastError g).
Definition MinidumpMemoryRegion_new : MinidumpMemoryRegion := mkRegion (mkMemDesc 0 (mkLocation 0 0)) None false ME_SUCCESS.
Definition region_fail (e : MinidumpError) (g : MinidumpMemoryRegion) : MinidumpMemoryRegion := mkRegion (descriptor_ g) (rg_memory g) (rg_isValid g) e.

Definition GetMemory (cfg : MinidumpConfig) (g : MinidumpMemoryRegion) (r : Reader) : option (list Z) * MinidumpMemoryRegion * Reader :=
  if negb (rg_isValid g) then (None, g, r)
  else match rg_memory g with
  | Some m => (Some m, g, r)
  | None =>
      let loc := md_memory (descriptor_ g) in
      if maxMemoryBytes cfg <? dataSize loc then (None, region_fail ERROR_MEMORY_SIZE g, r)
      else
        let position := Tell r in
        let '(ok, r) := SeekSet (rva loc) r in
        if negb ok then (None, region_fail ERROR_FILE_SEEK g, r)
        else
          let '(bs, r) := ReadBytes (dataSize loc) r in
          match bs with
          | None => (None, region_fail ERROR_MEMORY_ALLOC g, (SeekSet position r).2)
          | Some bs => (Some bs, mkRegion (descriptor_ g) (Some bs) (rg_isValid g) ME_SUCCESS, (SeekSet position r).2)
          end
  end.

Definition GetBase (g : MinidumpMemoryRegion) : Z := if rg_isValid g then startOfMemoryRange (descriptor_ g) else 2 ^ 64 - 1.
Definition GetSize (g : MinidumpMemoryRegion) : Z := if rg_isValid g then dataSize (md_memory (descriptor_ g)) else 0.
Definition FreeMemory (g : MinidumpMemoryRegion) : MinidumpMemoryRegion := mkRegion (descriptor_ g) None (rg_isValid g) (rg_lastError g).

(** [GetMemoryAtAddressInternal] for a type of [size] bytes. *)
Definition GetMemoryAtAddress (size : nat) (address : Z) (g : MinidumpMemoryRegion) : option Z :=
  match rg_memory g with
  | None => None
  | Some m =>
      let base := GetBase g in
      if address <? base then None
      else
        let offset := address - base in
        if (length m <? size)%nat || (length m - size <? offset) then None
        else Some (md_field m (Z.to_nat offset) size)
  end.

(** ** The list of memory regions *)
Record MinidumpMemoryList := mkMemoryList {
  descriptors_ : list MDMemoryDescriptor; regions_ : list MinidumpMemoryRegion; regionCount_ : Z;
  addressCache_ : LruCache Z Z; ml_isValid : bool; ml_lastError : MinidumpError
}.
Definition MinidumpMemoryList_new (cfg : MinidumpConfig) : MinidumpMemoryList :=
  mkMemoryList [] [] 0 (LruCache_new (lruCacheCapacity cfg)) false ME_SUCCESS.
Definition memlist_fail (e : MinidumpError) (count : Z) (l : MinidumpMemoryList) : MinidumpMemoryList :=
  mkMemoryList (descriptors_ l) (regions_ l) count (addressCache_ l) (ml_isValid l) e.

Definition ReadRegionCountAndDescriptors (cfg : MinidumpConfig) (l : MinidumpMemoryList) (r : Reader)
  : option (list MDMemoryDescriptor) * MinidumpMemoryList * Reader :=
  let '(bs, r) := ReadBytes 4 r in
  match bs with
  | None => (None, memlist_fail ERROR_MEMORY_ALLOC 0 l, r)
  | Some bs =>
      let regionCount := md_field bs 0 4 in
      if maxMemoryRegions cfg <? regionCount then (None, memlist_fail ERROR_MEMORY_SIZE regionCount l, r)
      else if regionCount =? 0 then (None, memlist_fail ERROR_MEMORY_SIZE regionCount l, r)
      else
        let '(ds, r) := ReadBytes (sizeof_MDMemoryDescriptor * regionCount) r in
        match ds with
        | None => (None, memlist_fail ERROR_MEMORY_ALLOC regionCount l, r)
        | Some ds => (Some (map get_memdesc (chunks (Z.to_nat regionCount) 16 ds)), memlist_fail (ml_lastError l) regionCount l, r)
        end
  end.

Section MemoryList.
Context {I : Type} `{IAddressIndex I} (cfg : MinidumpConfig).

(** [addressIndex_] is the index given, if any; without it the structures of the optimizer serve. *)
Definition RegisterMemoryRange (start end_ size index : Z) (ix : option I) (o : PerformanceOptimizer) (e : MinidumpError)
  : outcome (option I * PerformanceOptimizer * MinidumpError) :=
  match ix with
  | Some i => '(_, i) ← ai_Insert start end_ index i; Ret (Some i, o, e)
  | None =>
      let maps := if enableRangeMap cfg then (StoreRange start size index (rangeMapMemory_ o)).2 else rangeMapMemory_ o in
      '(tree, e) ← (if enableIntervalTree cfg then
                      '(ok, t) ← tree_Insert start end_ index (intervalTreeMemory_ o);
                      Ret (t, if (ok : bool) then e else ERROR_RANGE_OVERLAP)
                    else Ret (intervalTreeMemory_ o, e));
      bitmap ← (if enableBitmapIndex cfg then MarkRange start end_ (op_bitmapIndex o) else Ret (op_bitmapIndex o));
      Ret (None, mkOptimizer (intervalTreeModule_ o) tree bitmap (rangeMapModule_ o) maps (adaptiveMemoryIndex_ o) (adaptiveModuleIndex_ o), e)
  end.

Fixpoint build_loop (ds : list MDMemoryDescriptor) (i : Z) (ix : option I) (o : PerformanceOptimizer) (e : MinidumpError)
  (regions : list MinidumpMemoryRegion) : outcome (option I * PerformanceOptimizer * MinidumpError * list MinidumpMemoryRegion) :=
  match ds with
  | [] => Ret (ix, o, e, regions)
  | d :: ds' =>
      let start := startOfMemoryRange d in
      let size := dataSize (md_memory d) in
      '(ix, o, e) ← (if size <=? 2 ^ 64 - 1 - start then RegisterMemoryRange start (start + size) size i ix o e else Ret (ix, o, e));
      build_loop ds' (i + 1) ix o e (regions ++ [SetDescriptor d MinidumpMemoryRegion_new])
  end.
Definition BuildMemoryRegions (ds : list MDMemoryDescriptor) (l : MinidumpMemoryList) (ix : option I) (o : PerformanceOptimizer)
  : outcome (MinidumpMemoryList * option I * PerformanceOptimizer) :=
  '(ix, o, e, regions) ← build_loop ds 0 ix o (ml_lastError l) (regions_ l);
  Ret (mkMemoryList ds regions (regionCount_ l) (addressCache_ l) (ml_isValid l) e, ix, o).

Definition memlist_Read (expectedSize : Z) (l : MinidumpMemoryList) (ix : option I) (o : PerformanceOptimizer) (r : Reader)
  : outcome (bool * MinidumpMemoryList * option I * PerformanceOptimizer * Reader) :=
  let '(ds, l, r) := ReadRegionCountAndDescriptors cfg l r in
  match ds with
  | None => Ret (false, l, ix, o, r)
  | Some ds =>
      if expectedSize <? 4 + sizeof_MDMemoryDescriptor * regionCount_ l then Ret (false, memlist_fail ERROR_STREAM_READ (regionCount_ l) l, ix, o, r)
      else
        '(l, ix, o) ← BuildMemoryRegions ds l ix o;
        Ret (true, mkMemoryList (descriptors_ l) (regions_ l) (regionCount_ l) (addressCache_ l) true ME_SUCCESS, ix, o, r)
  end.

(** The objects are in [regions_]: the functions return their positions. *)
Definition GetMemoryRegionAtIndex (index : Z) (l : MinidumpMemoryList) : outcome (option Z) :=
  if negb (ml_isValid l) || (regionCount_ l <=? index) then Ret None
  else if index <? length (regions_ l) then Ret (Some index) else Undef OutOfBounds.

(** The search behind the cache. *)
Definition find_region (address : Z) (ix : option I) (o : PerformanceOptimizer) : outcome (option Z) :=
  match ix with
  | Some i => ai_Lookup address i
  | None =>
      let found := if enableRangeMap cfg then RetrieveRange address (rangeMapMemory_ o) else None in
      out ← (if enableBitmapIndex cfg then
               inside ← bitmap_IsInRange address (op_bitmapIndex o);
               Ret (negb inside && negb (bitmap_Size (op_bitmapIndex o) =? 0))
             else Ret false);
      if (out : bool) then Ret None
      else match found with
           | Some v => Ret (Some v)
           | None => if enableIntervalTree cfg then Ret (tree_Search address (intervalTreeMemory_ o)) else Ret None
           end
  end.

Definition set_address_cache (c : LruCache Z Z) (l : MinidumpMemoryList) : MinidumpMemoryList :=
  mkMemoryList (descriptors_ l) (regions_ l) (regionCount_ l) c (ml_isValid l) (ml_lastError l).
Definition GetMemoryRegionForAddress (address : Z) (ix : option I) (o : PerformanceOptimizer) (l : MinidumpMemoryList)
  : outcome (option Z * MinidumpMemoryList) :=
  if negb (ml_isValid l) then Ret (None, l)
  else
    '(cached, c) ← Get address (addressCache_ l);
    let l := set_address_cache c l in
    match match cached with Some idx => if idx <? regionCount_ l then Some idx else None | None => None end with
    | Some idx => if idx <? length (regions_ l) then Ret (Some idx, l) else Undef OutOfBounds
    | None =>
        found ← find_region address ix o;
        match found with
        | None => Ret (None, l)
        | Some regionIndex =>
            c ← Put address regionIndex (addressCache_ l);
            let l := set_address_cache c l in
            res ← GetMemoryRegionAtIndex regionIndex l; Ret (res, l)
        end
    end.
End MemoryList.

(** ** Modules *)
Record MinidumpModule := mkModule { moduleValid_ : bool; module_ : MDRawModule; mo_name : option (list Z); mo_isValid : bool; mo_lastError : MinidumpError }.
Definition MinidumpModule_new : MinidumpModule := mkModule false (mkRawModule 0 0 0 0 0) None false ME_SUCCESS.
Definition module_Read (m : MinidumpModule) (r : Reader) : bool * MinidumpModule * Reader :=
  let '(bs, r) := ReadBytes sizeof_MDRawModule r in
  match bs with
  | None => (false, mkModule false (module_ m) (mo_name m) false ERROR_MODULE_READ, r)
  | Some bs => (true, mkModule true (get_module bs) (mo_name m) false (mo_lastError m), r)
  end.
Definition module_ReadAuxiliaryData (cfg : MinidumpConfig) (m : MinidumpModule) (r : Reader) : bool * MinidumpModule * Reader :=
  if negb (moduleValid_ m) then (false, m, r)
  else
    let '(name, r) := if 0 <? moduleNameRva (module_ m) then md_ReadString cfg (moduleNameRva (module_ m)) r else (None, r) in
    match name with
    | None => (false, mkModule (moduleValid_ m) (module_ m) None (mo_isValid m) ERROR_STRING_READ, r)
    | Some _ => (true, mkModule (moduleValid_ m) (module_ m) name true ME_SUCCESS, r)
    end.
Definition BaseAddress (m : MinidumpModule) : Z := if mo_isValid m then baseOfImage (module_ m) else 2 ^ 64 - 1.
Definition module_Size (m : MinidumpModule) : Z := if mo_isValid m then sizeOfImage (module_ m) else 0.
Definition CodeFile (m : MinidumpModule) : list Z := default [] (mo_name m).
Definition CodeIdentifier (m : MinidumpModule) : list ascii :=
  if negb (mo_isValid m) then [] else print_hex 8 (timeDataStamp (module_ m)) ++ print_hex 0 (sizeOfImage (module_ m)).
Definition DebugIdentifier (m : MinidumpModule) : list ascii :=
  if negb (mo_isValid m) then [] else print_hex 8 (timeDataStamp (module_ m)) ++ print_hex 8 (m_checksum (module_ m)).

Record MinidumpModuleList := mkModuleList { modules_ : list MinidumpModule; moduleCount_ : Z; mo_listValid : bool; mo_listError : MinidumpError }.
Definition MinidumpModuleList_new : MinidumpModuleList := mkModuleList [] 0 false ME_SUCCESS.
Definition modlist_fail (e : MinidumpError) (l : MinidumpModuleList) : MinidumpModuleList := mkModuleList (modules_ l) (moduleCount_ l) (mo_listValid l) e.

Fixpoint ReadModuleRawData (n : nat) (l : MinidumpModuleList) (r : Reader) : bool * MinidumpModuleList * Reader :=
  match n with
  | O => (true, l, r)
  | S n' =>
      let '(ok, m, r) := module_Read MinidumpModule_new r in
      if negb ok then (false, modlist_fail (mo_lastError m) l, r)
      else ReadModuleRawData n' (mkModuleList (modules_ l ++ [m]) (moduleCount_ l) (mo_listValid l) (mo_listError l)) r
  end.

Section ModuleList.
Context {I : Type} `{IAddressIndex I} (cfg : MinidumpConfig).

Definition RegisterModuleRange (baseAddress moduleSize index : Z) (ix : option I) (o : PerformanceOptimizer) (e : MinidumpError)
  : outcome (option I * PerformanceOptimizer * MinidumpError) :=
  if negb (fitsb 64 (baseAddress + moduleSize)) then Ret (ix, o, ERROR_CORRUPTED_DATA)
  else
    let endAddress := baseAddress + moduleSize in
    match ix with
    | Some i => '(ok, i) ← ai_Insert baseAddress endAddress index i; Ret (Some i, o, if (ok : bool) then e else ERROR_RANGE_OVERLAP)
    | None =>
        let '(maps, e) := if enableRangeMap cfg then
                            let '(ok, m) := StoreRange baseAddress moduleSize index (rangeMapModule_ o) in
                            (m, if ok then e else ERROR_RANGE_OVERLAP)
                          else (rangeMapModule_ o, e) in
        '(tree, e) ← (if enableIntervalTree cfg then
                        '(ok, t) ← tree_Insert baseAddress endAddress index (intervalTreeModule_ o);
                        Ret (t, if (ok : bool) then e else ERROR_RANGE_OVERLAP)
                      else Ret (intervalTreeModule_ o, e));
        bitmap ← (if enableBitmapIndex cfg then MarkRange baseAddress endAddress (op_bitmapIndex o) else Ret (op_bitmapIndex o));
        Ret (None, mkOptimizer tree (intervalTreeMemory_ o) bitmap maps (rangeMapMemory_ o) (adaptiveMemoryIndex_ o) (adaptiveModuleIndex_ o), e)
    end.

Fixpoint aux_loop (n : nat) (i : nat) (l : MinidumpModuleList) (ix : option I) (o : PerformanceOptimizer) (r : Reader)
  : outcome (bool * MinidumpModuleList * option I * PerformanceOptimizer * Reader) :=
  match n with
  | O => Ret (true, l, ix, o, r)
  | S n' =>
      match modules_ l !! i with
      | None => Undef OutOfBounds
      | Some m =>
          let '(ok, m, r) := module_ReadAuxiliaryData cfg m r in
          let l := mkModuleList (<[i := m]> (modules_ l)) (moduleCount_ l) (mo_listValid l) (mo_listError l) in
          if negb ok && negb (mo_isValid m) then Ret (false, modlist_fail (mo_lastError m) l, ix, o, r)
          else if BaseAddress m =? 2 ^ 64 - 1 then Ret (false, modlist_fail ERROR_CORRUPTED_DATA l, ix, o, r)
          else
            '(ix, o, e) ← RegisterModuleRange (BaseAddress m) (module_Size m) i ix o (mo_listError l);
            aux_loop n' (S i) (modlist_fail e l) ix o r
      end
  end.
Definition ReadModuleAuxiliaryDataAndIndex (moduleCount : Z) := aux_loop (Z.to_nat moduleCount) 0.

Definition modlist_Read (expectedSize : Z) (l : MinidumpModuleList) (ix : option I) (o : PerformanceOptimizer) (r : Reader)
  : outcome (bool * MinidumpModuleList * option I * PerformanceOptimizer * Reader) :=
  let l := mkModuleList [] 0 false (mo_listError l) in
  let '(bs, r) := ReadBytes 4 r in
  match bs with
  | None => Ret (false, modlist_fail ERROR_MODULE_READ l, ix, o, r)
  | Some bs =>
      let moduleCount := md_field bs 0 4 in
      if (moduleCount =? 0) || (maxModules cfg <? moduleCount) then Ret (false, modlist_fail ERROR_MODULE_COUNT l, ix, o, r)
      else
        let '(ok, l, r) := ReadModuleRawData (Z.to_nat moduleCount) l r in
        if negb ok then Ret (false, l, ix, o, r)
        else
          '(ok, l, ix, o, r) ← ReadModuleAuxiliaryDataAndIndex moduleCount l ix o r;
          if negb (ok : bool) then Ret (false, l, ix, o, r)
          else Ret (true, mkModuleList (modules_ l) moduleCount true ME_SUCCESS, ix, o, r)
  end.

Definition GetModuleAtIndex (index : Z) (l : MinidumpModuleList) : outcome (option MinidumpModule) :=
  if negb (mo_listValid l) || (moduleCount_ l <=? index) then Ret None
  else match modules_ l !! Z.to_nat index with Some m => Ret (Some m) | None => Undef OutOfBounds end.
Definition GetMainModule (l : MinidumpModuleList) : outcome (option MinidumpModule) :=
  if negb (mo_listValid l) || (moduleCount_ l =? 0) then Ret None else GetModuleAtIndex 0 l.

Definition GetModuleForAddress (address : Z) (ix : option I) (o : PerformanceOptimizer) (l : MinidumpModuleList) : outcome (option MinidumpModule) :=
  if negb (mo_listValid l) then Ret None
  else
    found ← match ix with
            | Some i => ai_Lookup address i
            | None =>
                out ← (if enableBitmapIndex cfg then
                         inside ← bitmap_IsInRange address (op_bitmapIndex o);
                         Ret (negb inside && negb (bitmap_Size (op_bitmapIndex o) =? 0))
                       else Ret false);
                if (out : bool) then Ret None
                else match (if enableRangeMap cfg then RetrieveRange address (rangeMapModule_ o) else None) with
                     | Some v => Ret (Some v)
                     | None => if enableIntervalTree cfg then Ret (tree_Search address (intervalTreeModule_ o)) else Ret None
                     end
            end;
    match found with Some v => GetModuleAtIndex v l | None => Ret None end.
End ModuleList.

(** ** Threads *)
Record MinidumpThread := mkThread {
  thread_ : MDRawThread; th_memory : option MinidumpMemoryRegion; th_context : option MinidumpContext; th_isValid : bool; th_lastError : MinidumpError }.
Definition MinidumpThread_new : MinidumpThread :=
  mkThread (mkRawThread 0 0 0 0 0 (mkMemDesc 0 (mkLocation 0 0)) (mkLocation 0 0)) None None false ME_SUCCESS.
Definition thread_Read (t : MinidumpThread) (r : Reader) : bool * MinidumpThread * Reader :=
  let '(bs, r) := ReadBytes sizeof_MDRawThread r in
  match bs with
  | None => (false, mkThread (thread_ t) None None false ERROR_THREAD_READ, r)
  | Some bs =>
      let th := get_thread bs in
      let st := t_stack th in
      let bad := (rva (md_memory st) =? 0) || (dataSize (md_memory st) =? 0) || (2 ^ 64 - 1 - startOfMemoryRange st <? dataSize (md_memory st)) in
      (true, mkThread th (if bad then None else Some (SetDescriptor st MinidumpMemoryRegion_new)) None true ME_SUCCESS, r)
  end.
Definition thread_GetMemory (t : MinidumpThread) : option MinidumpMemoryRegion := if th_isValid t then th_memory t else None.
Definition thread_GetThreadID (t : MinidumpThread) : option Z := if th_isValid t then Some (t_threadId (thread_ t)) else None.
Definition GetStartOfStackMemoryRange (t : MinidumpThread) : Z := if th_isValid t then startOfMemoryRange (t_stack (thread_ t)) else 0.

(** Reading a context elsewhere in the file and returning to the position. *)
Definition read_context (loc : MDLocationDescriptor) (limit : option Z) (r : Reader) : (MinidumpError + MinidumpContext) * Reader :=
  let position := Tell r in
  if position <? 0 then (inl ERROR_FILE_SEEK, r)
  else
    let '(ok, r) := SeekSet (rva loc) r in
    if negb ok then (inl ERROR_FILE_SEEK, r)
    else if match limit with Some n => n <? dataSize loc | None => false end then (inl ERROR_CORRUPTED_DATA, r)
    else
      let '(ok, c, r) := context_Read (dataSize loc) MinidumpContext_new r in
      if negb ok then (inl (cx_lastError c), r) else (inr c, (SeekSet position r).2).

Definition thread_GetContext (t : MinidumpThread) (r : Reader) : option MinidumpContext * MinidumpThread * Reader :=
  if negb (th_isValid t) then (None, t, r)
  else match th_context t with
  | Some c => (Some c, mkThread (thread_ t) (th_memory t) (Some c) true ME_SUCCESS, r)
  | None =>
      match read_context (t_threadContext (thread_ t)) None r with
      | (inl e, r) => (None, mkThread (thread_ t) (th_memory t) None true e, r)
      | (inr c, r) => (Some c, mkThread (thread_ t) (th_memory t) (Some c) true ME_SUCCESS, r)
      end
  end.

Record MinidumpThreadList := mkThreadList {
  idToThreadMap_ : gmap Z nat; threads_ : option (list MinidumpThread); threadCount_ : Z; tl_isValid : bool; tl_lastError : MinidumpError }.
Definition MinidumpThreadList_new : MinidumpThreadList := mkThreadList ∅ None 0 false ME_SUCCESS.

Definition ReadThreadCount (cfg : MinidumpConfig) (expectedSize : Z) (l : MinidumpThreadList) (r : Reader) : option Z * MinidumpThreadList * Reader :=
  let l := mkThreadList ∅ None 0 false (tl_lastError l) in
  let fail e := mkThreadList ∅ None 0 false e in
  if expectedSize <? 4 then (None, fail ERROR_CORRUPTED_DATA, r)
  else
    let '(bs, r) := ReadBytes 4 r in
    match bs with
    | None => (None, fail ERROR_THREAD_READ, r)
    | Some bs =>
        let threadCount := md_field bs 0 4 in
        if maxThreads cfg <? threadCount then (None, fail ERROR_THREAD_COUNT, r)
        else if threadCount =? 0 then (None, fail ERROR_THREAD_COUNT, r)
        else (Some threadCount, l, r)
    end.

(** The loop of [ReadThreadData]: the threads read, or the error. *)
Fixpoint thread_loop (n i : nat) (ids : gmap Z nat) (acc : list MinidumpThread) (r : Reader)
  : (MinidumpError + list MinidumpThread) * gmap Z nat * Reader :=
  match n with
  | O => (inr acc, ids, r)
  | S n' =>
      let '(ok, t, r) := thread_Read MinidumpThread_new r in
      if negb ok then (inl (th_lastError t), ids, r)
      else match thread_GetThreadID t with
           | None => (inl ERROR_THREAD_READ, ids, r)
           | Some id =>
               match ids !! id with
               | Some _ => (inl ERROR_ALREADY_EXISTS, ids, r)
               | None => thread_loop n' (S i) (<[id := i]> ids) (acc ++ [t]) r
               end
           end
  end.
Definition threadlist_Read (cfg : MinidumpConfig) (expectedSize : Z) (l : MinidumpThreadList) (r : Reader) : bool * MinidumpThreadList * Reader :=
  let '(n, l, r) := ReadThreadCount cfg expectedSize l r in
  match n with
  | None => (false, l, r)
  | Some threadCount =>
      match thread_loop (Z.to_nat threadCount) 0 (idToThreadMap_ l) [] r with
      | (inl e, ids, r) => (false, mkThreadList ids (threads_ l) threadCount (tl_isValid l) e, r)
      | (inr ts, ids, r) => (true, mkThreadList ids (Some ts) threadCount true ME_SUCCESS, r)
      end
  end.
Definition GetThreadAtIndex (index : Z) (l : MinidumpThreadList) : outcome (option MinidumpThread) :=
  if negb (tl_isValid l) || (threadCount_ l <=? index) then Ret None
  else match threads_ l with
       | None => Undef NullDeref
       | Some ts => match ts !! Z.to_nat index with Some t => Ret (Some t) | None => Undef OutOfBounds end
       end.
Definition GetThreadByID (threadId : Z) (l : MinidumpThreadList) : option MinidumpThread :=
  if negb (tl_isValid l) then None
  else i ← idToThreadMap_ l !! threadId; ts ← threads_ l; ts !! i.

(** ** Names of threads *)
Record MinidumpThreadName := mkThreadName { threadNameValid_ : bool; threadName_ : MDRawThreadName; tn_name : option (list Z); tn_isValid : bool; tn_lastError : MinidumpError }.
Definition MinidumpThreadName_new : MinidumpThreadName := mkThreadName false (mkRawThreadName 0 0) None false ME_SUCCESS.
Definition threadname_Read (t : MinidumpThreadName) (r : Reader) : bool * MinidumpThreadName * Reader :=
  let '(bs, r) := ReadBytes sizeof_MDRawThreadName r in
  match bs with
  | None => (false, mkThreadName false (threadName_ t) (tn_name t) false ERROR_STREAM_READ, r)
  | Some bs => (true, mkThreadName true (get_threadname bs) (tn_name t) false (tn_lastError t), r)
  end.
(** The 64-bit [rvaOfThreadName] is converted to a signed offset. *)
Definition threadname_ReadAuxiliaryData (cfg : MinidumpConfig) (t : MinidumpThreadName) (r : Reader) : bool * MinidumpThreadName * Reader :=
  if negb (threadNameValid_ t) then (false, t, r)
  else
    let '(name, r) := if negb (rvaOfThreadName (threadName_ t) =? 0) then md_ReadString cfg (s64 (rvaOfThreadName (threadName_ t))) r else (None, r) in
    match name with
    | None => (false, mkThreadName true (threadName_ t) None (tn_isValid t) ERROR_STRING_READ, r)
    | Some _ => (true, mkThreadName true (threadName_ t) name true ME_SUCCESS, r)
    end.
Definition threadname_GetThreadID (t : MinidumpThreadName) : option Z := if tn_isValid t then Some (n_threadId (threadName_ t)) else None.
Definition GetThreadName (t : MinidumpThreadName) : list Z := default [] (tn_name t).

Record MinidumpThreadNameList := mkThreadNameList {
  threadIdToNameMap_ : gmap Z (list Z); threadNames_ : list MinidumpThreadName; threadNameCount_ : Z; nl_isValid : bool; nl_lastError : MinidumpError }.
Definition MinidumpThreadNameList_new : MinidumpThreadNameList := mkThreadNameList ∅ [] 0 false ME_SUCCESS.

Fixpoint ReadThreadNameRawData (n : nat) (acc : list MinidumpThreadName) (r : Reader) : option MinidumpError * list MinidumpThreadName * Reader :=
  match n with
  | O => (None, acc, r)
  | S n' =>
      let '(ok, t, r) := threadname_Read MinidumpThreadName_new r in
      if negb ok then (Some (tn_lastError t), acc, r) else ReadThreadNameRawData n' (acc ++ [t]) r
  end.
(** Over the names read, in order; a name that cannot be read ends it.  [insert] keeps the first
    name of an id. *)
Fixpoint ReadThreadNameAuxiliaryData (cfg : MinidumpConfig) (todo done : list MinidumpThreadName) (m : gmap Z (list Z)) (r : Reader)
  : option MinidumpError * list MinidumpThreadName * gmap Z (list Z) * Reader :=
  match todo with
  | [] => (None, done, m, r)
  | t :: todo' =>
      let '(ok, t, r) := threadname_ReadAuxiliaryData cfg t r in
      if negb ok then (Some (tn_lastError t), done ++ t :: todo', m, r)
      else
        let m := match threadname_GetThreadID t with
                 | Some id => match m !! id with Some _ => m | None => <[id := GetThreadName t]> m end
                 | None => m
                 end in
        ReadThreadNameAuxiliaryData cfg todo' (done ++ [t]) m r
  end.
Definition namelist_Read (cfg : MinidumpConfig) (expectedSize : Z) (l : MinidumpThreadNameList) (r : Reader) : bool * MinidumpThreadNameList * Reader :=
  let fail e := mkThreadNameList ∅ [] 0 false e in
  let '(bs, r) := ReadBytes 4 r in
  match bs with
  | None => (false, fail ERROR_STREAM_READ, r)
  | Some bs =>
      let threadNameCount := md_field bs 0 4 in
      if (threadNameCount =? 0) || (maxThreads cfg <? threadNameCount) then (false, fail ERROR_THREAD_COUNT, r)
      else if expectedSize <? 4 + sizeof_MDRawThreadName * threadNameCount then (false, fail ERROR_STREAM_READ, r)
      else
        match ReadThreadNameRawData (Z.to_nat threadNameCount) [] r with
        | (Some e, ts, r) => (false, mkThreadNameList ∅ ts 0 false e, r)
        | (None, ts, r) =>
            match ReadThreadNameAuxiliaryData cfg ts [] ∅ r with
            | (Some e, ts, m, r) => (false, mkThreadNameList m ts 0 false e, r)
            | (None, ts, m, r) => (true, mkThreadNameList m ts threadNameCount true ME_SUCCESS, r)
            end
        end
  end.
Definition GetThreadNameAtIndex (index : Z) (l : MinidumpThreadNameList) : outcome (option MinidumpThreadName) :=
  if negb (nl_isValid l) || (threadNameCount_ l <=? index) then Ret None
  else match threadNames_ l !! Z.to_nat index with Some t => Ret (Some t) | None => Undef OutOfBounds end.
Definition GetThreadNameById (threadId : Z) (l : MinidumpThreadNameList) : list Z :=
  if negb (nl_isValid l) then [] else default [] (threadIdToNameMap_ l !! threadId).

(** ** The other streams *)
Record MinidumpException := mkException { exception_ : MDExceptionStream; ex_context : option MinidumpContext; ex_isValid : bool; ex_lastError : MinidumpError }.
Definition MinidumpException_new : MinidumpException := mkException (mkRawException 0 0 0 0 0 0 (replicate 15 0) (mkLocation 0 0)) None false ME_SUCCESS.
Definition exception_Read (expectedSize : Z) (x : MinidumpException) (r : Reader) : bool * MinidumpException * Reader :=
  let fail := (false, mkException (exception_ x) None false ERROR_STREAM_READ) in
  if expectedSize <? sizeof_MDExceptionStream then (fail, r)
  else
    let '(bs, r) := ReadBytes sizeof_MDExceptionStream r in
    match bs with
    | None => (fail, r)
    | Some bs => (true, mkException (get_exception bs) None true ME_SUCCESS, r)
    end.
Definition exception_GetThreadID (x : MinidumpException) : option Z := if ex_isValid x then Some (e_threadId (exception_ x)) else None.
Definition maxContextDataSize : Z := 4096.
Definition exception_GetContext (x : MinidumpException) (r : Reader) : option MinidumpContext * MinidumpException * Reader :=
  if negb (ex_isValid x) then (None, x, r)
  else match ex_context x with
  | Some c => (Some c, mkException (exception_ x) (Some c) true ME_SUCCESS, r)
  | None =>
      match read_context (e_threadContext (exception_ x)) (Some maxContextDataSize) r with
      | (inl e, r) => (None, mkException (exception_ x) None true e, r)
      | (inr c, r) => (Some c, mkException (exception_ x) (Some c) true ME_SUCCESS, r)
      end
  end.

Record MinidumpSystemInfo := mkSystemInfo { systemInfo_ : MDRawSystemInfo; si_isValid : bool; si_lastError : MinidumpError }.
Definition MinidumpSystemInfo_new : MinidumpSystemInfo := mkSystemInfo (mkRawSystem 0 0 0 0 0) false ME_SUCCESS.
Definition system_Read (s : MinidumpSystemInfo) (r : Reader) : bool * MinidumpSystemInfo * Reader :=
  let '(bs, r) := ReadBytes sizeof_MDRawSystemInfo r in
  match bs with
  | None => (false, mkSystemInfo (systemInfo_ s) false ERROR_STREAM_READ, r)
  | Some bs => (true, mkSystemInfo (get_system bs) true ME_SUCCESS, r)
  end.
Definition GetOS (s : MinidumpSystemInfo) : list ascii :=
  if negb (si_isValid s) then []
  else if platformId (systemInfo_ s) =? 0x8201 then lit "linux"
  else if platformId (systemInfo_ s) =? 0x8209 then lit "hongmeng" else lit "unknown".
Definition GetCPU (s : MinidumpSystemInfo) : list ascii :=
  if negb (si_isValid s) then [] else if processorArchitecture (systemInfo_ s) =? 12 then lit "arm64" else lit "unknown".

Record MinidumpMiscInfo := mkMiscInfo { miscInfo_ : MDRawMiscInfo; mi_isValid : bool; mi_lastError : MinidumpError }.
Definition MinidumpMiscInfo_new : MinidumpMiscInfo := mkMiscInfo (mkRawMisc 0 0 0 0 0 0) false ME_SUCCESS.
Definition misc_Read (m : MinidumpMiscInfo) (r : Reader) : bool * MinidumpMiscInfo * Reader :=
  let '(bs, r) := ReadBytes 4 r in
  match bs with
  | None => (false, mkMiscInfo (miscInfo_ m) false ERROR_STREAM_READ, r)
  | Some bs =>
      let '(ok, r) := SeekSet (Tell r - 4) r in
      if negb ok then (false, mkMiscInfo (miscInfo_ m) false (mi_lastError m), r)
      else
        let readSize := Z.min (md_field bs 0 4) sizeof_MDRawMiscInfo in
        let '(data, r) := ReadBytes readSize r in
        match data with
        | None => (false, mkMiscInfo (mkRawMisc 0 0 0 0 0 0) false ERROR_STREAM_READ, r)
        | Some data => (true, mkMiscInfo (get_misc (data ++ replicate (Z.to_nat (sizeof_MDRawMiscInfo - readSize)) 0)) true ME_SUCCESS, r)
        end
  end.
Definition ProcessId (m : MinidumpMiscInfo) : option Z :=
  if negb (mi_isValid m) then None else if Z.land (flags1 (miscInfo_ m)) 1 =? 0 then None else Some (processId (miscInfo_ m)).
Definition ProcessTimes (m : MinidumpMiscInfo) : option (Z * Z * Z) :=
  if negb (mi_isValid m) then None
  else if Z.land (flags1 (miscInfo_ m)) 2 =? 0 then None
  else Some (processCreateTime (miscInfo_ m), processUserTime (miscInfo_ m), processKernelTime (miscInfo_ m)).

Record MinidumpMapList := mkMapList { contents_ : list Z; mapsLength_ : Z; mp_isValid : bool }.
Definition MinidumpMapList_new : MinidumpMapList := mkMapList [] 0 false.
(** The loop that drops padding from the end. *)
Definition is_padding (c : Z) : bool := (c =? 0) || (c =? 0xFF) || (c =? 0xFE).
Fixpoint drop_padding (rev : list Z) (n : Z) : list Z * Z :=
  match rev with c :: rev' => if is_padding c then drop_padding rev' (n - 1) else (rev, n) | [] => ([], n) end.
Definition maps_Read (cfg : MinidumpConfig) (expectedSize : Z) (r : Reader) : bool * MinidumpMapList * Reader :=
  if (expectedSize =? 0) || (maxMemoryBytes cfg <? expectedSize) then (false, MinidumpMapList_new, r)
  else
    let '(bs, r) := ReadBytes expectedSize r in
    match bs with
    | None => (false, mkMapList (replicate (Z.to_nat expectedSize) 0) 0 false, r)
    | Some bs =>
        let '(rev, n) := drop_padding (reverse bs) expectedSize in
        (true, mkMapList (reverse rev ++ [0]) (n + 1) true, r)
    end.
Definition GetContents (m : MinidumpMapList) : list Z := if mp_isValid m then contents_ m else [].
Definition GetMapsLength (m : MinidumpMapList) : Z := if mp_isValid m then mapsLength_ m else 0.

Record MinidumpEsrInfo := mkEsrInfo { esrRegsInfo_ : MDRawEsrRegsInfo; es_isValid : bool; es_lastError : MinidumpError }.
Definition MinidumpEsrInfo_new : MinidumpEsrInfo := mkEsrInfo (mkRawEsr 0 0 0) false ME_SUCCESS.
Definition esr_Read (expectedSize : Z) (x : MinidumpEsrInfo) (r : Reader) : bool * MinidumpEsrInfo * Reader :=
  if expectedSize <? sizeof_MDRawEsrRegsInfo then (false, mkEsrInfo (esrRegsInfo_ x) false (es_lastError x), r)
  else
    let '(bs, r) := ReadBytes sizeof_MDRawEsrRegsInfo r in
    match bs with
    | None => (false, mkEsrInfo (mkRawEsr 0 0 0) false (es_lastError x), r)
    | Some bs => (true, mkEsrInfo (get_esr bs) true (es_lastError x), r)
    end.

(** ** MinidumpParser *)
Definition MINIDUMP_HEADER_SIGNATURE : Z := 0x504d444d.
Definition MINIDUMP_HEADER_SIGNATURE_SWAP : Z := 0x4d444d50.
Definition MINIDUMP_HEADER_VERSION : Z := 42899.
Definition MD_STREAM_THREAD_LIST : Z := 3.
Definition MD_STREAM_MODULE_LIST : Z := 4.
Definition MD_STREAM_MEMORY_LIST : Z := 5.
Definition MD_STREAM_EXCEPTION : Z := 6.
Definition MD_STREAM_SYSTEM_INFO : Z := 7.
Definition MD_STREAM_MISC_INFO : Z := 15.
Definition MD_STREAM_THREAD_NAME_LIST : Z := 24.
Definition MD_STREAM_ESR_INFO : Z := 0x47670001.
Definition MD_STREAM_LINUX_MAPS : Z := 0x47670009.

Inductive MinidumpStream :=
| StThreadList (l : MinidumpThreadList) | StThreadNameList (l : MinidumpThreadNameList) | StModuleList (l : MinidumpModuleList)
| StMemoryList (l : MinidumpMemoryList) | StException (x : MinidumpException) | StSystemInfo (s : MinidumpSystemInfo)
| StMiscInfo (m : MinidumpMiscInfo) | StMapList (m : MinidumpMapList) | StEsrInfo (x : MinidumpEsrInfo).

(** [MinidumpStreamFactory::CreateStream] with the default creators. *)
Definition CreateStream (cfg : MinidumpConfig) (t : Z) : option MinidumpStream :=
  if t =? MD_STREAM_EXCEPTION then Some (StException MinidumpException_new)
  else if t =? MD_STREAM_ESR_INFO then Some (StEsrInfo MinidumpEsrInfo_new)
  else if t =? MD_STREAM_LINUX_MAPS then Some (StMapList MinidumpMapList_new)
  else if t =? MD_STREAM_MEMORY_LIST then Some (StMemoryList (MinidumpMemoryList_new cfg))
  else if t =? MD_STREAM_MISC_INFO then Some (StMiscInfo MinidumpMiscInfo_new)
  else if t =? MD_STREAM_MODULE_LIST then Some (StModuleList MinidumpModuleList_new)
  else if t =? MD_STREAM_SYSTEM_INFO then Some (StSystemInfo MinidumpSystemInfo_new)
  else if t =? MD_STREAM_THREAD_NAME_LIST then Some (StThreadNameList MinidumpThreadNameList_new)
  else if t =? MD_STREAM_THREAD_LIST then Some (StThreadList MinidumpThreadList_new)
  else None.

Definition set_memory_index (i : AdaptiveAddressIndex) (o : PerformanceOptimizer) : PerformanceOptimizer :=
  mkOptimizer (intervalTreeModule_ o) (intervalTreeMemory_ o) (op_bitmapIndex o) (rangeMapModule_ o) (rangeMapMemory_ o) i (adaptiveModuleIndex_ o).
Definition set_module_index (i : AdaptiveAddressIndex) (o : PerformanceOptimizer) : PerformanceOptimizer :=
  mkOptimizer (intervalTreeModule_ o) (intervalTreeMemory_ o) (op_bitmapIndex o) (rangeMapModule_ o) (rangeMapMemory_ o) (adaptiveMemoryIndex_ o) i.

(** [Read] of a stream, with the address indexes of the optimizer. *)
Definition stream_Read (cfg : MinidumpConfig) (size : Z) (s : MinidumpStream) (o : PerformanceOptimizer) (r : Reader)
  : outcome (bool * MinidumpStream * PerformanceOptimizer * Reader) :=
  match s with
  | StThreadList l => let '(ok, l, r) := threadlist_Read cfg size l r in Ret (ok, StThreadList l, o, r)
  | StThreadNameList l => let '(ok, l, r) := namelist_Read cfg size l r in Ret (ok, StThreadNameList l, o, r)
  | StModuleList l =>
      '(ok, l, ix, o, r) ← modlist_Read cfg size l (Some (adaptiveModuleIndex_ o)) o r;
      Ret (ok, StModuleList l, match ix with Some i => set_module_index i o | None => o end, r)
  | StMemoryList l =>
      '(ok, l, ix, o, r) ← memlist_Read cfg size l (Some (adaptiveMemoryIndex_ o)) o r;
      Ret (ok, StMemoryList l, match ix with Some i => set_memory_index i o | None => o end, r)
  | StException x => let '(ok, x, r) := exception_Read size x r in Ret (ok, StException x, o, r)
  | StSystemInfo x => let '(ok, x, r) := system_Read x r in Ret (ok, StSystemInfo x, o, r)
  | StMiscInfo x => let '(ok, x, r) := misc_Read x r in Ret (ok, StMiscInfo x, o, r)
  | StMapList _ => let '(ok, m, r) := maps_Read cfg size r in Ret (ok, StMapList m, o, r)
  | StEsrInfo x => let '(ok, x, r) := esr_Read size x r in Ret (ok, StEsrInfo x, o, r)
  end.
Definition stream_error (s : MinidumpStream) : MinidumpError :=
  match s with
  | StThreadList l => tl_lastError l | StThreadNameList l => nl_lastError l | StModuleList l => mo_listError l | StMemoryList l => ml_lastError l
  | StException x => ex_lastError x | StSystemInfo x => si_lastError x | StMiscInfo x => mi_lastError x | StMapList _ => ME_SUCCESS | StEsrInfo x => es_lastError x
  end.

Record MinidumpStreamInfo := mkStreamInfo { streamIndex_ : Z; stream_ : option MinidumpStream }.
Record MinidumpParser := mkMdParser {
  header_ : MDRawHeader; directory_ : option (list MDRawDirectory); streamMap_ : gmap Z MinidumpStreamInfo;
  memoryReader_ : option Reader; ps_isValid : bool; ps_lastError : MinidumpError }.
Definition MinidumpParser_new : MinidumpParser := mkMdParser (mkHeader 0 0 0 0 0 0 0) None ∅ None false ME_SUCCESS.
Definition parser_fail (e : MinidumpError) (p : MinidumpParser) : MinidumpParser :=
  mkMdParser (header_ p) (directory_ p) (streamMap_ p) (memoryReader_ p) (ps_isValid p) e.
Definition set_reader (r : Reader) (p : MinidumpParser) : MinidumpParser :=
  mkMdParser (header_ p) (directory_ p) (streamMap_ p) (Some r) (ps_isValid p) (ps_lastError p).

Definition ValidateFileHeader (cfg : MinidumpConfig) (h : MDRawHeader) : option MinidumpError :=
  if negb (h_signature h =? MINIDUMP_HEADER_SIGNATURE) then
    Some (if h_signature h =? MINIDUMP_HEADER_SIGNATURE_SWAP then ERROR_ENDIANNESS else ERROR_SIGNATURE)
  else if negb (Z.land (h_version h) 0x0000ffff =? MINIDUMP_HEADER_VERSION) then Some ERROR_VERSION
  else if (numberOfStreams h =? 0) || (maxStreams cfg <? numberOfStreams h) then Some ERROR_STREAM_COUNT
  else None.

(** [ReadMinidumpHeader] of a file with the contents [file]. *)
Definition ReadMinidumpHeader (cfg : MinidumpConfig) (file : list Z) (p : MinidumpParser) : bool * MinidumpParser :=
  match InitMmap file with
  | None => (false, mkMdParser (header_ p) (directory_ p) (streamMap_ p) None (ps_isValid p) ERROR_FILE_READ)
  | Some r =>
      let '(bs, r) := ReadBytes sizeof_MDRawHeader r in
      let p := set_reader r p in
      match bs with
      | None => (false, parser_fail ERROR_FILE_READ p)
      | Some bs =>
          let h := get_header bs in
          let p := mkMdParser h (directory_ p) (streamMap_ p) (memoryReader_ p) (ps_isValid p) (ps_lastError p) in
          if 0xFFFFFFFD <? numberOfStreams h then (false, parser_fail ERROR_CORRUPTED_DATA p)
          else match ValidateFileHeader cfg h with Some e => (false, parser_fail e p) | None => (true, p) end
      end
  end.

Definition single_types : list Z :=
  [MD_STREAM_THREAD_LIST; MD_STREAM_THREAD_NAME_LIST; MD_STREAM_MODULE_LIST; MD_STREAM_MEMORY_LIST; MD_STREAM_EXCEPTION;
   MD_STREAM_SYSTEM_INFO; MD_STREAM_MISC_INFO; MD_STREAM_LINUX_MAPS].
(** [RegisterStreamDirectoryEntry]: [None] for a second stream of a type that may occur once. *)
Definition RegisterStreamDirectoryEntry (e : MDRawDirectory) (index : Z) (m : gmap Z MinidumpStreamInfo) : option (gmap Z MinidumpStreamInfo) :=
  match m !! streamType e with
  | Some i => if existsb (Z.eqb (streamType e)) single_types then None else Some (<[streamType e := mkStreamInfo index (stream_ i)]> m)
  | None => Some (<[streamType e := mkStreamInfo index None]> m)
  end.
Fixpoint register_loop (es : list MDRawDirectory) (i : Z) (m : gmap Z MinidumpStreamInfo) : bool * gmap Z MinidumpStreamInfo :=
  match es with
  | [] => (true, m)
  | e :: es' => match RegisterStreamDirectoryEntry e i m with Some m' => register_loop es' (i + 1) m' | None => (false, m) end
  end.

Definition ReadStreamDirectory (p : MinidumpParser) : bool * MinidumpParser :=
  if streamDirectoryRva (header_ p) <? sizeof_MDRawHeader then (false, parser_fail ERROR_CORRUPTED_DATA p)
  else match memoryReader_ p with
  | None => (false, parser_fail ERROR_FILE_SEEK p)
  | Some r =>
      let '(ok, r) := SeekSet (streamDirectoryRva (header_ p)) r in
      let p := set_reader r p in
      if negb ok then (false, parser_fail ERROR_FILE_SEEK p)
      else
        let n := numberOfStreams (header_ p) in
        let '(bs, r) := ReadBytes (sizeof_MDRawDirectory * n) r in
        let p := set_reader r p in
        match bs with
        | None => (false, parser_fail ERROR_STREAM_READ p)
        | Some bs =>
            let directory := map get_directory (chunks (Z.to_nat n) 12 bs) in
            let '(ok, m) := register_loop directory 0 (streamMap_ p) in
            if negb ok then (false, mkMdParser (header_ p) (directory_ p) m (memoryReader_ p) (ps_isValid p) ERROR_ALREADY_EXISTS)
            else (true, mkMdParser (header_ p) (Some directory) m (memoryReader_ p) (ps_isValid p) (ps_lastError p))
        end
  end.

Definition set_valid (v : bool) (e : MinidumpError) (p : MinidumpParser) : MinidumpParser :=
  mkMdParser (header_ p) (directory_ p) (streamMap_ p) (memoryReader_ p) v e.
Definition Minidump_Parse (cfg : MinidumpConfig) (file : list Z) (p : MinidumpParser) : bool * MinidumpParser :=
  let p := set_valid false (ps_lastError p) p in
  let '(ok, p) := ReadMinidumpHeader cfg file p in
  if negb ok then (false, p)
  else
    let '(ok, p) := ReadStreamDirectory p in
    if negb ok then (false, p) else (true, set_valid true ME_SUCCESS p).

Definition GetDirectoryEntryAtIndex (index : Z) (p : MinidumpParser) : outcome (option MDRawDirectory) :=
  if negb (ps_isValid p) || (numberOfStreams (header_ p) <=? index) then Ret None
  else match directory_ p with
       | None => Undef NullDeref
       | Some ds => match ds !! Z.to_nat index with Some d => Ret (Some d) | None => Undef OutOfBounds end
       end.
Definition GetDirectoryEntryAtType (t : Z) (p : MinidumpParser) : outcome (option MDRawDirectory) :=
  if negb (ps_isValid p) then Ret None
  else match streamMap_ p !! t with None => Ret None | Some i => GetDirectoryEntryAtIndex (streamIndex_ i) p end.

Definition SeekToStreamType (t : Z) (p : MinidumpParser) : outcome (option Z * MinidumpParser) :=
  if negb (ps_isValid p) then Ret (None, p)
  else
    d ← GetDirectoryEntryAtType t p;
    match d with
    | None => Ret (None, parser_fail ERROR_NOT_FOUND p)
    | Some d =>
        match memoryReader_ p with
        | None => Ret (None, parser_fail ERROR_FILE_SEEK p)
        | Some r =>
            let '(ok, r) := ValidateStreamExtent (rva (location d)) (dataSize (location d)) r in
            let p := set_reader r p in
            if negb ok then Ret (None, parser_fail (rd_lastError r) p)
            else
              let '(ok, r) := SeekSet (rva (location d)) r in
              let p := set_reader r p in
              if negb ok then Ret (None, parser_fail ERROR_FILE_SEEK p)
              else Ret (Some (dataSize (location d)), parser_fail ME_SUCCESS p)
        end
    end.

Definition put_stream (t : Z) (s : MinidumpStream) (p : MinidumpParser) : MinidumpParser :=
  mkMdParser (header_ p) (directory_ p) (alter (λ i, mkStreamInfo (streamIndex_ i) (Some s)) t (streamMap_ p)) (memoryReader_ p) (ps_isValid p) (ps_lastError p).

(** [GetStream<T>] for the type [t]. *)
Definition GetStream (cfg : MinidumpConfig) (t : Z) (p : MinidumpParser) (o : PerformanceOptimizer)
  : outcome (option MinidumpStream * MinidumpParser * PerformanceOptimizer) :=
  if negb (ps_isValid p) then Ret (None, p, o)
  else match streamMap_ p !! t with
  | None => Ret (None, p, o)
  | Some i =>
      match stream_ i with
      | Some s => Ret (Some s, parser_fail ME_SUCCESS p, o)
      | None =>
          '(len, p) ← SeekToStreamType t p;
          match len, memoryReader_ p with
          | Some streamLength, Some r =>
              match CreateStream cfg t with
              | None => Ret (None, p, o)
              | Some s =>
                  '(ok, s, o, r) ← stream_Read cfg streamLength s o r;
                  let p := set_reader r p in
                  if negb (ok : bool) then Ret (None, parser_fail (stream_error s) p, o)
                  else Ret (Some s, parser_fail ME_SUCCESS (put_stream t s p), o)
              end
          | _, _ => Ret (None, p, o)
          end
      end
  end.

Definition InjectStream (t : Z) (s : MinidumpStream) (p : MinidumpParser) : MinidumpParser :=
  if negb (ps_isValid p) then p
  else match streamMap_ p !! t with
       | Some i => match stream_ i with Some _ => p | None => put_stream t s p end
       | None => p
       end.

(** ** StreamPipeline

    Every stream is read by a task of its own with a reader of its own; the tasks share only the
    address indexes, of which each kind of list has one.  The tasks run in some order, given by the
    positions of their types; their results are injected in the order of the types. *)
Definition ParseStream (cfg : MinidumpConfig) (file : list Z) (t : Z) (p : MinidumpParser) (o : PerformanceOptimizer)
  : outcome (option MinidumpStream * PerformanceOptimizer) :=
  d ← GetDirectoryEntryAtType t p;
  match d, InitMmap file with
  | Some d, Some r =>
      let '(ok, r) := ValidateStreamExtent (rva (location d)) (dataSize (location d)) r in
      if negb ok then Ret (None, o)
      else
        let '(ok, r) := SeekSet (rva (location d)) r in
        if negb ok then Ret (None, o)
        else match CreateStream cfg t with
        | None => Ret (None, o)
        | Some s => '(ok, s, o, _) ← stream_Read cfg (dataSize (location d)) s o r; Ret (if (ok : bool) then Some s else None, o)
        end
  | _, _ => Ret (None, o)
  end.
Fixpoint run_tasks (cfg : MinidumpConfig) (file : list Z) (ts : list Z) (p : MinidumpParser) (order : list nat) (o : PerformanceOptimizer)
  : outcome (gmap nat MinidumpStream * PerformanceOptimizer) :=
  match order with
  | [] => Ret (∅, o)
  | i :: order' =>
      match ts !! i with
      | None => Undef OutOfBounds
      | Some t =>
          '(s, o) ← ParseStream cfg file t p o;
          '(futures, o) ← run_tasks cfg file ts p order' o;
          Ret (partial_alter (λ _, s) i futures, o)
      end
  end.
Fixpoint inject_results (ts : list Z) (i : nat) (futures : gmap nat MinidumpStream) (p : MinidumpParser) : MinidumpParser :=
  match ts with
  | [] => p
  | t :: ts' => inject_results ts' (S i) futures (match futures !! i with Some s => InjectStream t s p | None => p end)
  end.
Definition ParseParallel (cfg : MinidumpConfig) (file : list Z) (ts : list Z) (order : list nat) (p : MinidumpParser) (o : PerformanceOptimizer)
  : outcome (MinidumpParser * PerformanceOptimizer) :=
  if negb (enableParallelParsing cfg) then Ret (p, o)
  else '(futures, o) ← run_tasks cfg file ts p order o; Ret (inject_results ts 0 futures p, o).

(** ** Memory near the registers ([MinidumpDumper::ParseMemoryListStream], minidump_dumper.cpp)

    Words that are not in the dump read as all ones. *)
Definition COMMON_REG_MEM_FORWARD_SIZE : Z := 2.
Definition COMMON_REG_MEM_SIZE : Z := 32.
Definition near_addresses (value : Z) : list Z :=
  let memOffset := COMMON_REG_MEM_FORWARD_SIZE * 8 in
  let startAddr := if memOffset <=? value then value - memOffset else 0 in
  if startAddr <? u64 (startAddr + COMMON_REG_MEM_SIZE * 8) then map (λ i, startAddr + 8 * i) (seqZ 0 COMMON_REG_MEM_SIZE) else [].

Definition set_region (i : nat) (g : MinidumpMemoryRegion) (l : MinidumpMemoryList) : MinidumpMemoryList :=
  mkMemoryList (descriptors_ l) (<[i := g]> (regions_ l)) (regionCount_ l) (addressCache_ l) (ml_isValid l) (ml_lastError l).

Section Near.
Context {I : Type} `{IAddressIndex I} (cfg : MinidumpConfig).

Definition near_word (address : Z) (ix : option I) (o : PerformanceOptimizer) (l : MinidumpMemoryList) (r : Reader)
  : outcome (Z * MinidumpMemoryList * Reader) :=
  '(found, l) ← GetMemoryRegionForAddress cfg address ix o l;
  match found with
  | None => Ret (2 ^ 64 - 1, l, r)
  | Some i =>
      match regions_ l !! Z.to_nat i with
      | None => Undef OutOfBounds
      | Some g =>
          let '(m, g, r) := GetMemory cfg g r in
          let l := set_region (Z.to_nat i) g l in
          match m with
          | None => Ret (2 ^ 64 - 1, l, r)
          | Some _ => Ret (default (2 ^ 64 - 1) (GetMemoryAtAddress 8 address g), l, r)
          end
      end
  end.
Fixpoint near_words (addresses : list Z) (ix : option I) (o : PerformanceOptimizer) (l : MinidumpMemoryList) (r : Reader)
  : outcome (list Z * MinidumpMemoryList * Reader) :=
  match addresses with
  | [] => Ret ([], l, r)
  | a :: as_ =>
      '(w, l, r) ← near_word a ix o l r;
      '(ws, l, r) ← near_words as_ ix o l r; Ret (w :: ws, l, r)
  end.
(** The blocks of all registers. *)
Fixpoint ParseMemoryListStream (regs : list Z) (ix : option I) (o : PerformanceOptimizer) (l : MinidumpMemoryList) (r : Reader)
  : outcome (list (list Z) * MinidumpMemoryList * Reader) :=
  match regs with
  | [] => Ret ([], l, r)
  | v :: regs' =>
      '(ws, l, r) ← near_words (near_addresses v) ix o l r;
      '(bs, l, r) ← ParseMemoryListStream regs' ix o l r; Ret (ws :: bs, l, r)
  end.
End Near.

(** ** Structures written to a file *)
Definition enc_location (l : MDLocationDescriptor) : list Z := le_bytes 4 (dataSize l) ++ le_bytes 4 (rva l).
Definition enc_memdesc (d : MDMemoryDescriptor) : list Z := le_bytes 8 (startOfMemoryRange d) ++ enc_location (md_memory d).
Definition enc_directory (d : MDRawDirectory) : list Z := le_bytes 4 (streamType d) ++ enc_location (location d).
Definition enc_header (h : MDRawHeader) : list Z :=
  le_bytes 4 (h_signature h) ++ le_bytes 4 (h_version h) ++ le_bytes 4 (numberOfStreams h) ++ le_bytes 4 (streamDirectoryRva h)
  ++ le_bytes 4 (h_checksum h) ++ le_bytes 4 (h_timeStamp h) ++ le_bytes 8 (h_flags h).

Definition location_ok (l : MDLocationDescriptor) : Prop := fits 32 (dataSize l) ∧ fits 32 (rva l).
Definition memdesc_ok (d : MDMemoryDescriptor) : Prop := fits 64 (startOfMemoryRange d) ∧ location_ok (md_memory d).
Definition directory_ok (d : MDRawDirectory) : Prop := fits 32 (streamType d) ∧ location_ok (location d).
Definition header_ok (h : MDRawHeader) : Prop :=
  fits 32 (h_signature h) ∧ fits 32 (h_version h) ∧ fits 32 (numberOfStreams h) ∧ fits 32 (streamDirectoryRva h) ∧
  fits 32 (h_checksum h) ∧ fits 32 (h_timeStamp h) ∧ fits 64 (h_flags h).

Lemma get_enc_location l rest : location_ok l → get_location (enc_location l ++ rest) = l.
Proof.
  intros [H1 H2]. unfold get_location, enc_location. rewrite <- app_assoc. rewrite md_field_here. rewrite (md_field_skip 4 4) by lia. change (4 - 4)%nat with 0%nat. rewrite md_field_here.
  change (8 * 4%nat) with 32. rewrite !wrap_small by done. by destruct l.
Qed.

Lemma get_enc_memdesc d rest : memdesc_ok d → get_memdesc (enc_memdesc d ++ rest) = d.
Proof.
  intros [H1 H2]. unfold get_memdesc, enc_memdesc. rewrite <- app_assoc. rewrite md_field_here. change (8 * 8%nat) with 64. rewrite wrap_small by done.
  rewrite drop_app_length' by (by rewrite length_le_bytes). rewrite get_enc_location by done. by destruct d.
Qed.

Lemma get_enc_directory d rest : directory_ok d → get_directory (enc_directory d ++ rest) = d.
Proof.
  intros [H1 H2]. unfold get_directory, enc_directory. rewrite <- app_assoc. rewrite md_field_here. change (8 * 4%nat) with 32. rewrite wrap_small by done.
  rewrite drop_app_length' by (by rewrite length_le_bytes). rewrite get_enc_location by done. by destruct d.
Qed.

Lemma get_enc_header h : header_ok h → get_header (enc_header h) = h.
Proof.
  intros (H1 & H2 & H3 & H4 & H5 & H6 & H7). unfold get_header, enc_header. rewrite <- (app_nil_r (le_bytes 8 (h_flags h))).
  repeat (rewrite ?md_field_here; rewrite ?(md_field_skip 4 4) by lia; cbn [Nat.sub]).
  change (8 * 4%nat) with 32. change (8 * 8%nat) with 64. rewrite !wrap_small by done. by destruct h.
Qed.

(** An array of encoded structures is cut back into them. *)
Lemma chunks_enc {A} (enc : A → list Z) (get : list Z → A) (ok : A → Prop) (size : nat) l rest :
  (∀ x, length (enc x) = size) → (∀ x rest, ok x → get (enc x ++ rest) = x) → Forall ok l →
  map get (chunks (length l) size (flat_map enc l ++ rest)) = l.
Proof.
  intros Hs Hg. induction 1 as [|x l Hx Hl IH]; [done|]. cbn [length chunks map flat_map]. rewrite <- app_assoc.
  rewrite take_app_length', drop_app_length' by done. rewrite <- (app_nil_r (enc x)), Hg by done. f_equal. exact IH.
Qed.

Lemma length_flat {A} (enc : A → list Z) (size : nat) l : (∀ x, length (enc x) = size) → length (flat_map enc l) = (size * length l)%nat.
Proof. intros Hs. induction l as [|x l IH]; cbn; [lia|]. rewrite length_app, IH, Hs. lia. Qed.

(** ** The directory *)
Definition single (t : Z) : bool := existsb (Z.eqb t) single_types.

(** The position of the last entry of a type. *)
Fixpoint last_of (t : Z) (ds : list MDRawDirectory) (i : Z) : option Z :=
  match ds with
  | [] => None
  | d :: ds' => match last_of t ds' (i + 1) with Some k => Some k | None => if streamType d =? t then Some i else None end
  end.

Lemma last_of_none t ds i : t ∉ map streamType ds → last_of t ds i = None.
Proof.
  revert i. induction ds as [|d ds IH]; intros i Hn; [done|]. cbn in Hn. apply not_elem_of_cons in Hn as [H1 H2]. cbn. rewrite IH by done.
  destruct (Z.eqb_spec (streamType d) t); [congruence|done].
Qed.

Lemma last_of_bound t ds i k : last_of t ds i = Some k → i <= k < i + length ds ∧ ∃ d, ds !! Z.to_nat (k - i) = Some d ∧ streamType d = t.
Proof.
  revert i k. induction ds as [|d ds IH]; intros i k E; [done|]. cbn in E. destruct (last_of t ds (i + 1)) as [j|] eqn:Ej.
  - injection E as <-. destruct (IH _ _ Ej) as (H1 & d' & H2 & H3). cbn [length]. split; [lia|]. exists d'. split; [|done].
    replace (Z.to_nat (j - i)) with (S (Z.to_nat (j - (i + 1)))) by lia. done.
  - destruct (Z.eqb_spec (streamType d) t) as [<-|]; [|done]. injection E as <-. cbn [length]. split; [lia|]. exists d. by rewrite Z.sub_diag.
Qed.

(** Types that may occur once do, and are new. *)
Fixpoint singles_ok (ds : list MDRawDirectory) (m : gmap Z MinidumpStreamInfo) : Prop :=
  match ds with
  | [] => True
  | d :: ds' => (single (streamType d) = true → m !! streamType d = None ∧ streamType d ∉ map streamType ds') ∧ singles_ok ds' m
  end.

Lemma register_loop_spec ds i m : singles_ok ds m →
  ∃ m', register_loop ds i m = (true, m') ∧
    ∀ t, m' !! t = match last_of t ds i with Some k => Some (mkStreamInfo k (m !! t ≫= stream_)) | None => m !! t end.
Proof.
  revert i m. induction ds as [|d ds IH]; intros i m Hs; [by exists m|]. destruct Hs as [Hd Hs]. cbn [register_loop last_of].
  assert (HR : RegisterStreamDirectoryEntry d i m = Some (<[streamType d := mkStreamInfo i (m !! streamType d ≫= stream_)]> m)).
  { unfold RegisterStreamDirectoryEntry. fold (single (streamType d)). destruct (m !! streamType d) as [x|] eqn:E; [|done].
    destruct (single (streamType d)); [by destruct (Hd eq_refl)|done]. }
  rewrite HR. destruct (IH (i + 1) (<[streamType d := mkStreamInfo i (m !! streamType d ≫= stream_)]> m)) as (m' & E & Hm).
  { clear - Hs Hd. induction ds as [|e ds IH]; [done|]. destruct Hs as [He Hs]. split; [|apply IH; [|done]].
    - intros H1. destruct (He H1) as [H2 H3]. split; [|done]. destruct (decide (streamType e = streamType d)) as [E|E]; [|by rewrite lookup_insert_ne].
      rewrite E in H1. destruct (Hd H1) as [_ Hn]. destruct Hn. cbn. rewrite E. apply elem_of_cons. by left.
    - intros H1. destruct (Hd H1) as [H2 H3]. split; [done|]. cbn in H3. by apply not_elem_of_cons in H3 as [_ H3]. }
  exists m'. split; [done|]. intros t. rewrite Hm. destruct (last_of t ds (i + 1)) as [k|].
  - f_equal. f_equal. destruct (decide (t = streamType d)) as [->|Hne]; [by rewrite lookup_insert_eq|by rewrite lookup_insert_ne].
  - destruct (Z.eqb_spec (streamType d) t) as [<-|Hne]; [by rewrite lookup_insert_eq|by rewrite lookup_insert_ne].
Qed.

Lemma register_loop_dup ds i m d : d ∈ ds → single (streamType d) = true → is_Some (m !! streamType d) → (register_loop ds i m).1 = false.
Proof.
  revert i m. induction ds as [|e ds IH]; intros i m Hin Hs Hm; [by apply elem_of_nil in Hin|]. cbn [register_loop]. unfold RegisterStreamDirectoryEntry. fold (single (streamType e)).
  apply elem_of_cons in Hin as [<-|Hin].
  - destruct Hm as [x ->]. by rewrite Hs.
  - destruct (m !! streamType e) as [x|] eqn:E; [destruct (single (streamType e)); [done|]|]; apply IH; try done;
      (destruct (decide (streamType d = streamType e)) as [->|]; [by rewrite lookup_insert_eq|by rewrite lookup_insert_ne]).
Qed.

(** The registration succeeds only then. *)
Lemma singles_ok_weaken ds m m' : (∀ t, m' !! t = None → m !! t = None) → singles_ok ds m' → singles_ok ds m.
Proof.
  intros Hm. induction ds as [|d ds IH]; [done|]. intros [Hd Hs]. split; [|by apply IH].
  intros H1. destruct (Hd H1) as [H2 H3]. split; [by apply Hm|done].
Qed.

Lemma register_loop_singles ds i m : (register_loop ds i m).1 = true → singles_ok ds m.
Proof.
  revert i m. induction ds as [|d ds IH]; intros i m H; [done|]. cbn [register_loop] in H.
  destruct (RegisterStreamDirectoryEntry d i m) as [m'|] eqn:E; [|done]. unfold RegisterStreamDirectoryEntry in E. fold (single (streamType d)) in E.
  assert (Hm : is_Some (m' !! streamType d) ∧ (∀ t, m' !! t = None → m !! t = None) ∧ (single (streamType d) = true → m !! streamType d = None)).
  { assert (Hx : ∀ x, is_Some (<[streamType d := x]> m !! streamType d) ∧ ∀ t, <[streamType d := x]> m !! t = None → m !! t = None)
      by (intros x; split; [by rewrite lookup_insert_eq|by intros t [? _]%lookup_insert_None]).
    destruct (m !! streamType d) as [j|] eqn:Ej; [destruct (single (streamType d)); [done|]|]; injection E as <-;
      (split; [apply Hx|]; split; [apply Hx|done]). }
  destruct Hm as (H1 & H2 & H3). split; [|eapply singles_ok_weaken; [exact H2|by eapply IH]].
  intros Hs. split; [by apply H3|]. rewrite list_elem_of_In, in_map_iff. intros (e & Ee & He%list_elem_of_In).
  rewrite (register_loop_dup ds (i + 1) m' e He) in H; [done|by rewrite Ee|by rewrite Ee].
Qed.

(** A file with a header that passes the checks and a directory. *)
Record minidump_file (cfg : MinidumpConfig) (file : list Z) (h : MDRawHeader) (ds : list MDRawDirectory) : Prop := {
  mf_file : file_ok file;
  mf_header : header_ok h ∧ ValidateFileHeader cfg h = None ∧ numberOfStreams h <= 0xFFFFFFFD ∧ sizeof_MDRawHeader <= streamDirectoryRva h;
  mf_directory : Forall directory_ok ds ∧ Z.of_nat (length ds) = numberOfStreams h;
  mf_at : placed file 0 (enc_header h) ∧ placed file (streamDirectoryRva h) (flat_map enc_directory ds)
}.

Lemma valid_streams cfg h : ValidateFileHeader cfg h = None → numberOfStreams h ≠ 0.
Proof. unfold ValidateFileHeader. intros H E. rewrite E in H. by repeat case_match. Qed.

(** What [Parse] does up to the registration of the directory. *)
Lemma Parse_reads cfg file h ds p : minidump_file cfg file h ds →
  Minidump_Parse cfg file p =
    let '(ok, m) := register_loop ds 0 (streamMap_ p) in
    let r := mkReader file (streamDirectoryRva h + 12 * length ds) ME_SUCCESS in
    if ok then (true, mkMdParser h (Some ds) m (Some r) true ME_SUCCESS)
    else (false, mkMdParser h (directory_ p) m (Some r) false ERROR_ALREADY_EXISTS).
Proof.
  intros [Hf (Hh & Hv & Hn & Hr) [Hd Hlen] [P1 P2]]. unfold Minidump_Parse, ReadMinidumpHeader, InitMmap.
  assert (L1 : length (enc_header h) = 32%nat) by (unfold enc_header; rewrite !length_app, !length_le_bytes; done).
  assert (L2 : length (flat_map enc_directory ds) = (12 * length ds)%nat).
  { apply length_flat. intros d. unfold enc_directory, enc_location. rewrite !length_app, !length_le_bytes. done. }
  pose proof (placed_length _ _ _ P1 ltac:(intros E; by rewrite E in L1)) as S1. pose proof (valid_streams cfg h Hv) as Hn0.
  assert (S2 : streamDirectoryRva h + 12 * length ds <= length file).
  { pose proof (placed_length _ _ _ P2 ltac:(intros E; rewrite E in L2; cbn in L2; lia)) as S2. lia. }
  destruct (Nat.eqb_spec (length file) 0) as [E0|_]; [lia|].
  change sizeof_MDRawHeader with (Z.of_nat 32) at 1. rewrite <- L1. rewrite (ReadBytes_placed (mkReader file 0 ME_SUCCESS) (enc_header h) Hf P1). rewrite (get_enc_header h Hh).
  cbn [set_valid set_reader header_ directory_ streamMap_ memoryReader_ ps_isValid ps_lastError]. destruct (Z.ltb_spec 0xFFFFFFFD (numberOfStreams h)); [lia|]. rewrite Hv. cbn [negb].
  unfold ReadStreamDirectory. cbn [header_ memoryReader_]. destruct (Z.ltb_spec (streamDirectoryRva h) sizeof_MDRawHeader); [lia|].
  rewrite SeekSet_ok by (unfold file_size; cbn [rd_bytes set_pos]; unfold sizeof_MDRawHeader in *; lia). cbn [negb set_pos rd_bytes rd_lastError].
  unfold set_pos, set_reader, parser_fail, set_valid. cbn [rd_bytes rd_lastError header_ directory_ streamMap_ memoryReader_ ps_isValid ps_lastError].
  replace (sizeof_MDRawDirectory * numberOfStreams h) with (Z.of_nat (length (flat_map enc_directory ds))) by (rewrite L2; unfold sizeof_MDRawDirectory; lia).
  rewrite (ReadBytes_placed (mkReader file (streamDirectoryRva h) ME_SUCCESS) (flat_map enc_directory ds) Hf P2).
  unfold set_pos. cbn [rd_bytes rd_lastError mmapPos_].
  replace (Z.to_nat (numberOfStreams h)) with (length ds) by lia. rewrite <- (app_nil_r (flat_map enc_directory ds)).
  rewrite (chunks_enc enc_directory get_directory directory_ok 12 ds []); [|intros x; unfold enc_directory, enc_location; rewrite !length_app, !length_le_bytes; done|apply get_enc_directory|done].
  rewrite app_nil_r, L2. replace (Z.of_nat (12 * length ds)) with (12 * length ds) by lia. by destruct (register_loop ds 0 (streamMap_ p)) as [[] m].
Qed.

(** C28. The directory of a file is read back.  [Parse] of a file with a valid header and a directory
    succeeds exactly if no type that may occur once has a second entry; it then finds every
    stream, for each type the last entry of the type.  Otherwise it fails, and reports that a
    stream already exists. *)
Theorem Parse_directory cfg file h ds : minidump_file cfg file h ds →
  ∃ ok p, Minidump_Parse cfg file MinidumpParser_new = (ok, p) ∧ (ok = true ↔ singles_ok ds ∅) ∧
    if ok then ∀ t, GetDirectoryEntryAtType t p = Ret (match last_of t ds 0 with Some k => ds !! Z.to_nat k | None => None end)
    else ps_lastError p = ERROR_ALREADY_EXISTS.
Proof.
  intros Hf. rewrite (Parse_reads cfg file h ds _ Hf). cbn [streamMap_ MinidumpParser_new].
  pose proof (register_loop_singles ds 0 ∅) as Hs. pose proof (register_loop_spec ds 0 ∅) as Hr.
  destruct (register_loop ds 0 ∅) as [[] m]; cbn [fst] in Hs; eexists _, _; (split; [done|]).
  2: { split; [|done]. split; [done|]. intros H. by destruct (Hr H) as (? & ? & _). }
  split; [by split; [intros _; apply Hs|]|]. destruct (Hr (Hs eq_refl)) as (m' & [= <-] & Hm).
  intros t. unfold GetDirectoryEntryAtType. cbn [ps_isValid negb streamMap_]. rewrite Hm. destruct (last_of t ds 0) as [k|] eqn:Ek; [|by rewrite lookup_empty].
  cbn [streamIndex_]. destruct (last_of_bound t ds 0 k Ek) as (H1 & d & H2 & _). rewrite Z.sub_0_r in H2. unfold GetDirectoryEntryAtIndex. cbn [ps_isValid negb orb header_ directory_].
  destruct Hf as [_ _ [_ Hlen] _]. zcase; [lia|]. by rewrite H2.
Qed.

(** [Parse] does not clear the map of streams: parsing the same file again finds every stream that
    may occur once a second time, and fails. *)
Theorem Parse_again cfg file h ds d : minidump_file cfg file h ds → singles_ok ds ∅ → d ∈ ds → single (streamType d) = true →
  (Minidump_Parse cfg file (Minidump_Parse cfg file MinidumpParser_new).2).1 = false.
Proof.
  intros Hf Hs Hd Hsing. rewrite (Parse_reads cfg file h ds MinidumpParser_new Hf). cbn [streamMap_ MinidumpParser_new]. destruct (register_loop_spec ds 0 ∅ Hs) as (m & -> & Hm).
  cbn [snd]. rewrite (Parse_reads cfg file h ds _ Hf). cbn [streamMap_]. destruct (register_loop ds 0 m) as [ok m'] eqn:E. pose proof (register_loop_dup ds 0 m d Hd Hsing) as H1.
  rewrite E in H1. cbn in H1. rewrite H1; [done|]. rewrite Hm. destruct (last_of (streamType d) ds 0) as [k|] eqn:Ek; [by eexists|]. exfalso.
  revert Ek. generalize 0. clear - Hd. induction ds as [|e ds IH]; [by apply elem_of_nil in Hd|]. intros i. cbn [last_of]. destruct (last_of (streamType d) ds (i + 1)) eqn:El; [done|].
  apply elem_of_cons in Hd as [->|Hd]; [by rewrite Z.eqb_refl|]. by destruct (IH Hd _ El).
Qed.

(** ** Regions and addresses *)

(** The entry of a region: its end, the byte after its last, is taken in. *)
Definition region_entry (i : Z) (d : MDMemoryDescriptor) : Entry :=
  mkEntry (startOfMemoryRange d) (startOfMemoryRange d + dataSize (md_memory d)) i.
Fixpoint region_entries (i : Z) (ds : list MDMemoryDescriptor) : list Entry :=
  match ds with [] => [] | d :: ds' => region_entry i d :: region_entries (i + 1) ds' end.
Definition fresh_region (d : MDMemoryDescriptor) : MinidumpMemoryRegion := SetDescriptor d MinidumpMemoryRegion_new.

Lemma region_entries_values i ds e : e ∈ region_entries i ds → i <= en_value e < i + length ds ∧
  ∃ d, ds !! Z.to_nat (en_value e - i) = Some d ∧ e = region_entry (en_value e) d.
Proof.
  revert i. induction ds as [|d ds IH]; intros i He; [by apply elem_of_nil in He|]. cbn [region_entries length] in *. apply elem_of_cons in He as [->|He].
  - cbn. split; [lia|]. exists d. rewrite Z.sub_diag. done.
  - destruct (IH _ He) as (H1 & d' & H2 & H3). split; [lia|]. exists d'. split; [|done]. replace (Z.to_nat (en_value e - i)) with (S (Z.to_nat (en_value e - (i + 1)))) by lia. done.
Qed.

Lemma length_region_entries i ds : length (region_entries i ds) = length ds.
Proof. revert i. induction ds as [|d ds IH]; intros i; [done|]. cbn. by rewrite IH. Qed.

Section Lookup.
Context {I : Type} `{AddressIndex I} (cfg : MinidumpConfig).

(** Registering regions inserts their entries in order. *)
Lemma build_loop_insert ds k i i' o e gs : Forall (λ d, startOfMemoryRange d + dataSize (md_memory d) < 2 ^ 64) ds →
  insert_all (region_entries k ds) i = Ret i' → build_loop cfg ds k (Some i) o e gs = Ret (Some i', o, e, gs ++ map fresh_region ds).
Proof.
  intros Hs. revert k i gs. induction Hs as [|d ds Hd Hs IH]; intros k i gs E; cbn [region_entries insert_all build_loop map] in *; [injection E as ->; by rewrite app_nil_r|].
  destruct (Z.leb_spec (dataSize (md_memory d)) (2 ^ 64 - 1 - startOfMemoryRange d)); [|lia]. unfold RegisterMemoryRange. cbn [region_entry en_start en_end en_value] in E.
  destruct (ai_Insert _ _ _ i) as [[ok i1]| |] eqn:Ei; [|done..]. cbn [mbind outcome_mbind] in *. rewrite (IH _ _ _ E). by rewrite <- app_assoc.
Qed.

Context (ds : list MDMemoryDescriptor) (es : list Entry) (i : I).
Hypothesis (Hholds : ix_holds es i) (Hes : es ≡ₚ region_entries 0 ds).

(** The region of an address, as a scan of the list finds it. *)
Definition region_of (a : Z) : option Z := if ix_sees i a then en_value <$> List.find (holds_addr a) (region_entries 0 ds) else None.

Lemma region_of_bound a k : region_of a = Some k → 0 <= k < length ds.
Proof.
  unfold region_of. destruct (ix_sees i a); [|done]. destruct (List.find _ _) as [e|] eqn:E; [|done]. intros [= <-]. apply find_some in E as [E _].
  apply list_elem_of_In in E. apply region_entries_values in E as [E _]. lia.
Qed.

Lemma find_region_spec a o : fits 64 a → find_region cfg a (Some i) o = Ret (region_of a).
Proof.
  intros Ha. cbn [find_region]. rewrite (ix_lookup a es i Hholds Ha). unfold region_of. by rewrite (find_perm a es (region_entries 0 ds) (ix_spread es i Hholds) Hes).
Qed.

(** The cache has nothing but answers. *)
Definition cache_ok (c : LruCache Z Z) : Prop :=
  ∃ r, lru_rel c r ∧ r_capacity r ≠ O ∧ ∀ a k, (a, k) ∈ r_items r → region_of a = Some k.

Lemma cache_Get a c : cache_ok c → ∃ res c', Get a c = Ret (res, c') ∧ cache_ok c' ∧ (∀ k, res = Some k → region_of a = Some k).
Proof.
  intros (r & Hr & Hc & Hv). destruct (Get_rel c r a Hr) as (c' & E & Hr'). unfold spec_Get in *. destruct (assoc a (r_items r)) as [k|] eqn:Ea; cbn [fst snd] in *.
  - assert (Hk : region_of a = Some k).
    { unfold assoc in Ea. destruct (List.find _ (r_items r)) as [[a' k']|] eqn:Ef; [|done]. cbn in Ea. injection Ea as ->. apply find_some in Ef as [Hin Ha].
      apply bool_decide_eq_true in Ha. cbn in Ha. subst a'. apply Hv. by apply list_elem_of_In. }
    exists (Some k), c'. split; [done|]. split; [|naive_solver]. eexists. split; [done|]. split; [done|]. cbn. intros a' k' [[= -> ->]|Hin]%elem_of_cons; [done|].
    apply list_elem_of_In, filter_In in Hin as [Hin _]. apply Hv. by apply list_elem_of_In.
  - exists None, c'. split; [done|]. split; [by exists r|done].
Qed.

Lemma cache_Put a k c : cache_ok c → region_of a = Some k → ∃ c', Put a k c = Ret c' ∧ cache_ok c'.
Proof.
  intros (r & Hr & Hc & Hv) Hk. pose proof (Put_rel c r a k Hr) as HP. unfold spec_Put in HP. destruct (r_capacity r) as [|n] eqn:En; [done|]. destruct HP as (c' & E & Hr').
  exists c'. split; [done|]. eexists. split; [done|]. split; [done|]. cbn [r_items]. intros a' k' Hin. apply elem_of_take in Hin as (j & Hj & _). apply list_elem_of_lookup_2 in Hj. apply elem_of_cons in Hj as [[= -> ->]|Hin']; [done|].
  apply list_elem_of_In, filter_In in Hin' as [Hin' _]. apply Hv. by apply list_elem_of_In.
Qed.

(** The state of a list that was read. *)
Record memlist_ok (l : MinidumpMemoryList) : Prop := {
  mo_valid : ml_isValid l = true;
  mo_count : regionCount_ l = length ds;
  mo_regions : length (regions_ l) = length ds;
  mo_cache : cache_ok (addressCache_ l)
}.

(** A lookup gives the region a scan finds, whatever was looked up before. *)
Lemma GetMemoryRegionForAddress_spec a o l : fits 64 a → memlist_ok l →
  ∃ l', GetMemoryRegionForAddress cfg a (Some i) o l = Ret (region_of a, l') ∧ memlist_ok l' ∧ regions_ l' = regions_ l.
Proof.
  intros Ha [Hv Hc Hg Hk]. unfold GetMemoryRegionForAddress. rewrite Hv. cbn [negb]. destruct (cache_Get a _ Hk) as (res & c & -> & Hc' & Hres). cbn [mbind outcome_mbind].
  cbn [set_address_cache regionCount_ regions_ addressCache_]. rewrite Hc, Hg.
  assert (Hok : ∀ c, cache_ok c → memlist_ok (set_address_cache c l)) by (intros; by split).
  destruct res as [k|].
  - specialize (Hres k eq_refl). pose proof (region_of_bound a k Hres). zcase; [|lia]. zcase; [|lia]. eexists. split; [by rewrite Hres|]. by split; [apply Hok|].
  - rewrite (find_region_spec a o Ha). cbn [mbind outcome_mbind]. destruct (region_of a) as [k|] eqn:Ek; [|eexists; split; [done|]; by split; [apply Hok|]].
    pose proof (region_of_bound a k Ek). destruct (cache_Put a k c Hc' Ek) as (c2 & -> & Hc2). cbn [mbind outcome_mbind]. unfold GetMemoryRegionAtIndex.
    cbn [set_address_cache ml_isValid regionCount_ regions_]. rewrite Hv, Hc, Hg. cbn [negb orb]. zcase; [|lia]. zcase; [lia|]. cbn [mbind outcome_mbind]. eexists. split; [done|].
    split; [|done]. change (memlist_ok (set_address_cache c2 l)). by apply Hok.
Qed.
End Lookup.

(** ** Words of a dump *)
Section Words.
Context {I : Type} `{AddressIndex I} (cfg : MinidumpConfig) (file : list Z) (ds : list MDMemoryDescriptor) (es : list Entry) (i : I).

Definition desc_start (d : MDMemoryDescriptor) : Z := startOfMemoryRange d.
Definition desc_size (d : MDMemoryDescriptor) : Z := dataSize (md_memory d).
Definition desc_bytes (d : MDMemoryDescriptor) : list Z := take (Z.to_nat (desc_size d)) (drop (Z.to_nat (rva (md_memory d))) file).

(** The word at an address is in the file where a region has all of it. *)
Definition has_word (a : Z) (d : MDMemoryDescriptor) : bool := (desc_start d <=? a) && (a + 8 <=? desc_start d + desc_size d).
Definition dumped_word (a : Z) : Z :=
  match List.find (has_word a) ds with
  | Some d => of_le (take 8 (drop (Z.to_nat (rva (md_memory d) + (a - desc_start d))) file))
  | None => 2 ^ 64 - 1
  end.

(** Regions of the dump are in the file and within the limits; the index finds their addresses. *)
Record desc_ok (d : MDMemoryDescriptor) : Prop := {
  do_fits : memdesc_ok d; do_end : desc_start d + desc_size d < 2 ^ 64;
  do_file : rva (md_memory d) + desc_size d <= length file; do_size : desc_size d <= maxMemoryBytes cfg
}.
Hypothesis (Hfile : file_ok file) (Hds : Forall desc_ok ds)
  (Hseen : ∀ d a, d ∈ ds → desc_start d <= a <= desc_start d + desc_size d → ix_sees i a = true)
  (Hholds : ix_holds es i) (Hes : es ≡ₚ region_entries 0 ds).

(** A region object, before or after its bytes are read. *)
Definition region_ok (d : MDMemoryDescriptor) (g : MinidumpMemoryRegion) : Prop :=
  descriptor_ g = d ∧ rg_isValid g = true ∧ (rg_memory g = None ∨ rg_memory g = Some (desc_bytes d)).
Definition reader_ok (r : Reader) : Prop := rd_bytes r = file ∧ 0 <= mmapPos_ r <= length file.

Lemma length_desc_bytes d : desc_ok d → Z.of_nat (length (desc_bytes d)) = desc_size d.
Proof.
  intros [[_ [H1 H2]] _ H3 _]. unfold desc_bytes, desc_size, fits in *. rewrite length_take, length_drop. lia.
Qed.

Lemma GetMemory_spec d g r : desc_ok d → region_ok d g → reader_ok r →
  ∃ g' r', GetMemory cfg g r = (Some (desc_bytes d), g', r') ∧ region_ok d g' ∧ rg_memory g' = Some (desc_bytes d) ∧ reader_ok r'.
Proof.
  intros Hd (<- & Hv & Hm) [Hr Hp]. set (d := descriptor_ g) in *. pose proof (length_desc_bytes d Hd) as Hl. destruct Hd as [[_ [H1 H2]] _ H3 H4]. unfold GetMemory. rewrite Hv. cbn [negb].
  destruct Hm as [Hm|Hm]; rewrite Hm; [|exists g, r; by repeat (split; auto)]. fold d. unfold desc_size in *.
  destruct (Z.ltb_spec (maxMemoryBytes cfg) (dataSize (md_memory d))); [lia|]. unfold fits in *. rewrite SeekSet_ok by (unfold file_size; rewrite Hr; lia). cbn [negb].
  rewrite <- Hl, ReadBytes_placed.
  - rewrite SeekSet_ok by (unfold file_size, Tell; cbn [set_pos rd_bytes]; rewrite Hr; lia). cbn [snd]. eexists _, _. split; [done|]. split; [by repeat (split; auto)|]. by split.
  - cbn [set_pos rd_bytes]. by rewrite Hr.
  - cbn [set_pos rd_bytes mmapPos_]. rewrite Hr. split; [lia|]. replace (length (desc_bytes d)) with (Z.to_nat (dataSize (md_memory d))) by lia. done.
Qed.

Lemma GetMemoryAtAddress_spec d g a : desc_ok d → region_ok d g → rg_memory g = Some (desc_bytes d) → desc_start d <= a →
  GetMemoryAtAddress 8 a g = if has_word a d then Some (of_le (take 8 (drop (Z.to_nat (rva (md_memory d) + (a - desc_start d))) file))) else None.
Proof.
  intros Hd (Hg & Hv & _) Hm Ha. unfold GetMemoryAtAddress, GetBase, has_word. rewrite Hm, Hv, Hg. change (startOfMemoryRange d) with (desc_start d).
  pose proof (length_desc_bytes d Hd) as Hl. destruct Hd as [[_ [H1 H2]] _ H3 _]. unfold fits in *. destruct (Z.ltb_spec a (desc_start d)); [lia|].
  destruct (Z.leb_spec (desc_start d) a); [|lia]. cbn [andb]. destruct (Nat.ltb_spec (length (desc_bytes d)) 8), (Z.leb_spec (a + 8) (desc_start d + desc_size d)); cbn [orb]; try lia; [done| |].
  - destruct (Z.ltb_spec (length (desc_bytes d) - 8%nat) (a - desc_start d)); [lia|]. f_equal. unfold md_field, desc_bytes. f_equal.
    rewrite skipn_firstn_comm, take_take, drop_drop. f_equal; [lia|]. f_equal. lia.
  - destruct (Z.ltb_spec (length (desc_bytes d) - 8%nat) (a - desc_start d)); [done|lia].
Qed.

Lemma region_entries_lookup k (j : nat) d : ds !! j = Some d → region_entry (k + j) d ∈ region_entries k ds.
Proof.
  clear. revert k j. induction ds as [|d' ds' IH]; intros k [|j] E; [done..| |]; cbn in E; cbn [region_entries]; apply elem_of_cons; [left; injection E as ->; by rewrite Z.add_0_r|right].
  replace (k + S j) with (k + 1 + j) by lia. by apply IH.
Qed.

(** The region of an address has the word, if any region does. *)
Lemma region_of_word a : fits 64 a →
  match region_of ds i a with
  | Some k => ∃ d, ds !! Z.to_nat k = Some d ∧ desc_start d <= a ∧
      dumped_word a = default (2 ^ 64 - 1) (if has_word a d then Some (of_le (take 8 (drop (Z.to_nat (rva (md_memory d) + (a - desc_start d))) file))) else None)
  | None => dumped_word a = 2 ^ 64 - 1
  end.
Proof.
  intros Ha. assert (Hs : spread (region_entries 0 ds)) by (by apply (spread_perm es), (ix_spread es i Hholds)).
  assert (Hw : ∀ d, List.find (has_word a) ds = Some d → ∃ j : nat, ds !! j = Some d ∧ region_of ds i a = Some (Z.of_nat j)).
  { intros d [Hin Hd]%find_some. apply list_elem_of_In, list_elem_of_lookup in Hin as [j Hj]. exists j. split; [done|]. unfold has_word in Hd. zbool.
    unfold region_of. rewrite (Hseen d a) by (try lia; by apply list_elem_of_lookup_2 in Hj). pose proof (region_entries_lookup 0 j d Hj) as He. rewrite Z.add_0_l in He.
    rewrite (find_unique a _ _ Hs He); [done|]. unfold holds_addr. cbn. apply andb_true_iff. unfold desc_start, desc_size in *. rewrite !Z.leb_le. lia. }
  unfold dumped_word. destruct (List.find (has_word a) ds) as [d|] eqn:Ef.
  - destruct (Hw d eq_refl) as (j & Hj & ->). rewrite Nat2Z.id. exists d. split; [done|]. apply find_some in Ef as [_ Hd]. rewrite Hd. unfold has_word in Hd. zbool. by split.
  - destruct (region_of ds i a) as [k|] eqn:Ek; [|done]. unfold region_of in Ek. destruct (ix_sees i a); [|done]. destruct (List.find (holds_addr a) _) as [e|] eqn:Ee; [|done].
    injection Ek as <-. apply find_some in Ee as [Hin He]. apply list_elem_of_In, region_entries_values in Hin as (_ & d & Hd & E). rewrite Z.sub_0_r in Hd. exists d. split; [done|].
    rewrite E in He. unfold holds_addr in He. cbn in He. zbool. split; [unfold desc_start; lia|].
    apply list_elem_of_lookup_2, list_elem_of_In in Hd. by rewrite (find_none _ _ Ef d Hd).
Qed.

Definition words_ok (l : MinidumpMemoryList) (r : Reader) : Prop := memlist_ok ds i l ∧ Forall2 region_ok ds (regions_ l) ∧ reader_ok r.

Lemma near_word_spec a o l r : fits 64 a → words_ok l r → ∃ l' r', near_word cfg a (Some i) o l r = Ret (dumped_word a, l', r') ∧ words_ok l' r'.
Proof.
  intros Ha (Hl & Hg & Hr). unfold near_word. destruct (GetMemoryRegionForAddress_spec cfg ds es i Hholds Hes a o l Ha Hl) as (l1 & -> & Hl1 & Hg1). cbn [mbind outcome_mbind].
  rewrite <- Hg1 in Hg. pose proof (region_of_word a Ha) as HW. destruct (region_of ds i a) as [k|]; [|rewrite HW; by exists l1, r].
  destruct HW as (d & Hd & Hle & ->). destruct (Forall2_lookup_l _ _ _ _ _ Hg Hd) as (g & -> & Hgd). rewrite Forall_lookup in Hds. specialize (Hds _ _ Hd).
  destruct (GetMemory_spec d g r Hds Hgd Hr) as (g' & r' & -> & Hgd' & Hm & Hr'). rewrite (GetMemoryAtAddress_spec d g' a Hds Hgd' Hm Hle).
  eexists _, r'. split; [done|]. split; [|split; [|done]]; cbn [set_region regions_].
  - destruct Hl1 as [V C L K]. split; [done..| |done]. cbn. by rewrite length_insert.
  - rewrite <- (list_insert_id ds _ _ Hd). by apply Forall2_insert.
Qed.

Lemma near_words_spec as_ o l r : Forall (fits 64) as_ → words_ok l r → ∃ l' r', near_words cfg as_ (Some i) o l r = Ret (map dumped_word as_, l', r') ∧ words_ok l' r'.
Proof.
  intros Ha. revert l r. induction Ha as [|a as_ Ha Has IH]; intros l r Hok; [by exists l, r|]. cbn [near_words map].
  destruct (near_word_spec a o l r Ha Hok) as (l1 & r1 & -> & H1). cbn [mbind outcome_mbind]. destruct (IH l1 r1 H1) as (l2 & r2 & -> & H2). by exists l2, r2.
Qed.

Lemma near_addresses_fit v : fits 64 v → Forall (fits 64) (near_addresses v).
Proof.
  intros Hv. unfold near_addresses, COMMON_REG_MEM_FORWARD_SIZE, COMMON_REG_MEM_SIZE. set (s := if _ <=? _ then _ else _). assert (Hs : 0 <= s < 2 ^ 64) by (unfold s, fits in *; zcase; lia).
  destruct (Z.ltb_spec s (u64 (s + 32 * 8))) as [H1|]; [|constructor]. assert (s + 256 < 2 ^ 64).
  { destruct (Z.lt_ge_cases (s + 256) (2 ^ 64)); [done|]. exfalso. replace (u64 (s + 32 * 8)) with (s + 256 - 2 ^ 64) in H1; [lia|]. unfold wrap. rewrite <- (Z.mod_small (s + 256 - 2 ^ 64) (2 ^ 64)) by lia. rewrite <- (Z_mod_plus_full (s + 256 - 2 ^ 64) 1). f_equal. lia. }
  apply list.Forall_forall. intros a [k [-> Hk]]%list_elem_of_fmap. apply elem_of_seqZ in Hk. unfold fits. lia.
Qed.

Lemma ParseMemoryListStream_spec regs o l r : Forall (fits 64) regs → words_ok l r →
  ∃ l' r', ParseMemoryListStream cfg regs (Some i) o l r = Ret (map (λ v, map dumped_word (near_addresses v)) regs, l', r') ∧ words_ok l' r'.
Proof.
  intros Ha. revert l r. induction Ha as [|v regs Hv Has IH]; intros l r Hok; [by exists l, r|]. cbn [ParseMemoryListStream map].
  destruct (near_words_spec (near_addresses v) o l r (near_addresses_fit v Hv) Hok) as (l1 & r1 & -> & H1). cbn [mbind outcome_mbind]. destruct (IH l1 r1 H1) as (l2 & r2 & -> & H2). by exists l2, r2.
Qed.
End Words.

(** ** The memory of a dump *)
Definition enc_memory_list (ds : list MDMemoryDescriptor) : list Z := le_bytes 4 (length ds) ++ flat_map enc_memdesc ds.

(** The directory has a memory list, of the regions [ds], within the limits. *)
Record memory_stream (cfg : MinidumpConfig) (file : list Z) (dir : list MDRawDirectory) (e : MDRawDirectory) (ds : list MDMemoryDescriptor) : Prop := {
  ms_entry : ∃ k, last_of MD_STREAM_MEMORY_LIST dir 0 = Some k ∧ dir !! Z.to_nat k = Some e;
  ms_extent : location_ok (location e) ∧ rva (location e) + dataSize (location e) <= length file ∧ 4 + 16 * length ds <= dataSize (location e);
  ms_at : placed file (rva (location e)) (enc_memory_list ds);
  ms_count : 0 < Z.of_nat (length ds) <= maxMemoryRegions cfg ∧ Z.of_nat (length ds) < 2 ^ 32;
  ms_regions : Forall (desc_ok cfg file) ds
}.

Lemma length_enc_memdesc d : length (enc_memdesc d) = 16%nat.
Proof. unfold enc_memdesc, enc_location. by rewrite !length_app, !length_le_bytes. Qed.

Lemma memlist_Read_spec {I} `{IAddressIndex I} cfg file dir e ds (i i' : I) o r : file_ok file → memory_stream cfg file dir e ds → 
  rd_bytes r = file → mmapPos_ r = rva (location e) → insert_all (region_entries 0 ds) i = Ret i' →
  ∃ r', memlist_Read cfg (dataSize (location e)) (MinidumpMemoryList_new cfg) (Some i) o r =
    Ret (true, mkMemoryList ds (map fresh_region ds) (length ds) (LruCache_new (lruCacheCapacity cfg)) true ME_SUCCESS, Some i', o, r') ∧ reader_ok file r'.
Proof.
  intros Hf [_ (Hloc & Hx & Hsz) Hat [Hc Hc32] Hds] Hr Hp Hi. unfold enc_memory_list in Hat. apply placed_app in Hat as [P1 P2]. rewrite length_le_bytes in P2.
  unfold memlist_Read, ReadRegionCountAndDescriptors. replace (ReadBytes 4 r) with (ReadBytes (length (le_bytes 4 (length ds))) r) by (by rewrite length_le_bytes). rewrite ReadBytes_placed; [|by rewrite Hr|by rewrite Hr, Hp].
  rewrite <- (app_nil_r (le_bytes 4 (length ds))), md_field_here, wrap_small by (unfold fits; lia). rewrite app_nil_r, length_le_bytes.
  destruct (Z.ltb_spec (maxMemoryRegions cfg) (length ds)); [lia|]. destruct (Z.eqb_spec (length ds) 0); [lia|].
  assert (HL : sizeof_MDMemoryDescriptor * length ds = length (flat_map enc_memdesc ds)) by (rewrite (length_flat _ 16) by apply length_enc_memdesc; unfold sizeof_MDMemoryDescriptor; lia).
  rewrite HL, ReadBytes_placed; [|cbn [set_pos rd_bytes]; by rewrite Hr|cbn [set_pos rd_bytes mmapPos_]; by rewrite Hr, Hp]. cbn [memlist_fail regionCount_]. rewrite <- HL.
  rewrite Nat2Z.id, <- (app_nil_r (flat_map enc_memdesc ds)).
  rewrite (chunks_enc enc_memdesc get_memdesc memdesc_ok 16); [|apply length_enc_memdesc|apply get_enc_memdesc|eapply list.Forall_impl; [exact Hds|by intros d []]].
  unfold sizeof_MDMemoryDescriptor. destruct (Z.ltb_spec (dataSize (location e)) (4 + 16 * length ds)); [lia|]. unfold BuildMemoryRegions. cbn [ml_lastError regions_ memlist_fail MinidumpMemoryList_new].
  rewrite (build_loop_insert cfg ds 0 i i' o ME_SUCCESS []); [|eapply list.Forall_impl; [exact Hds|by intros d []]|done]. cbn [mbind outcome_mbind app]. eexists. split; [done|].
  split; cbn [set_pos rd_bytes mmapPos_]; [done|]. rewrite Hp. destruct Hloc as [_ Hv]. unfold fits in *. lia.
Qed.

(** The default index finds the addresses of regions below its limit. *)
Lemma adaptive_regions ds : spread (region_entries 0 ds) →
  Z.of_nat (length ds) <= BITMAP_THRESHOLD ∨ Forall (λ d, desc_start d + desc_size d < visible_limit) ds →
  ∃ i, insert_all (region_entries 0 ds) (AdaptiveAddressIndex_new DEFAULT_ADDRESS_RANGE DEFAULT_BITMAP_GRANULARITY) = Ret i ∧
    adaptive_ok (region_entries 0 ds) i ∧ ∀ d a, d ∈ ds → desc_start d <= a <= desc_start d + desc_size d → adaptive_sees i a = true.
Proof.
  intros Hs Hv. destruct (adaptive_insert_all (region_entries 0 ds) [] (AdaptiveAddressIndex_new DEFAULT_ADDRESS_RANGE DEFAULT_BITMAP_GRANULARITY)) as (i & E & Hok & Hr & Hg);
    [apply adaptive_new_ok; [done|by split]|by rewrite app_nil_r|]. rewrite app_nil_r in Hok.
  exists i. split; [done|]. split; [done|]. intros d a Hd Ha. unfold adaptive_sees. rewrite Hr, Hg. cbn [AdaptiveAddressIndex_new addressRange_ ad_granularity_]. rewrite default_has_cell.
  destruct Hok as [_ Hm _ _]. rewrite Hm, length_region_entries. apply orb_true_iff. rewrite Z.leb_le, Z.ltb_lt. destruct Hv as [Hv|Hv]; [by left|right].
  rewrite list.Forall_forall in Hv. specialize (Hv d Hd). cbn in Hv. lia.
Qed.

Lemma fresh_regions_ok cfg file ds : Forall (desc_ok cfg file) ds → Forall2 (region_ok file) ds (map fresh_region ds).
Proof.
  induction 1 as [|d ds Hd Hds IH]; cbn; constructor; [|done]. split; [done|]. split; [|by left]. cbn. destruct Hd as [_ H1 _ _]. unfold desc_start, desc_size in *. apply Z.leb_le. lia.
Qed.

(** Seeking to a stream of the directory that is in the file. *)
Lemma SeekToStreamType_spec file p t k d e : ps_isValid p = true → streamMap_ p !! t = Some (mkStreamInfo k d) →
  GetDirectoryEntryAtIndex k p = Ret (Some e) → (∃ q err, memoryReader_ p = Some (mkReader file q err)) → location_ok (location e) → rva (location e) + dataSize (location e) <= length file →
  ∃ r p', SeekToStreamType t p = Ret (Some (dataSize (location e)), p') ∧ memoryReader_ p' = Some r ∧ rd_bytes r = file ∧ mmapPos_ r = rva (location e).
Proof.
  intros Hv Hm Hd (q & err & Hr) [Hl1 Hl2] Hx. unfold fits in *. unfold SeekToStreamType, GetDirectoryEntryAtType. rewrite Hv, Hm. cbn [negb streamIndex_]. rewrite Hd. cbn [mbind outcome_mbind]. rewrite Hr.
  assert (Hval : ∃ r, ValidateStreamExtent (rva (location e)) (dataSize (location e)) (mkReader file q err) = (true, r) ∧ rd_bytes r = file).
  { unfold ValidateStreamExtent, file_size. cbn [rd_bytes]. zcase; [|lia]. zcase; by eexists. }
  destruct Hval as (r & -> & Hr1). cbn [negb]. rewrite SeekSet_ok by (unfold file_size; rewrite Hr1; lia). cbn [negb]. eexists _, _. split; [done|]. by split.
Qed.

(** C23. The memory near the registers.  From a file whose memory list names regions that are in the
    file and have a byte or more between them, at most 256 or all below the range of the bitmap,
    and whose directory has no second entry of a type that may occur once, parsing, reading the stream and asking for the words around any register values,
    in any order and through the caches, gives the words of the file where a region has them whole
    and all ones elsewhere. *)
Theorem minidump_memory cfg file h dir e ds regs :
  minidump_file cfg file h dir → singles_ok dir ∅ → memory_stream cfg file dir e ds → 0 < lruCacheCapacity cfg →
  spread (region_entries 0 ds) → (Z.of_nat (length ds) <= BITMAP_THRESHOLD ∨ Forall (λ d, desc_start d + desc_size d < visible_limit) ds) →
  Forall (fits 64) regs →
  ∃ p p' o l r, Minidump_Parse cfg file MinidumpParser_new = (true, p) ∧
    GetStream cfg MD_STREAM_MEMORY_LIST p (PerformanceOptimizer_new cfg) = Ret (Some (StMemoryList l), p', o) ∧ memoryReader_ p' = Some r ∧
    ∃ l' r', ParseMemoryListStream cfg regs (Some (adaptiveMemoryIndex_ o)) o l r = Ret (map (λ v, map (dumped_word file ds) (near_addresses v)) regs, l', r').
Proof.
  intros Hf Hs Hm Hcap Hsp Hv Hregs. rewrite (Parse_reads cfg file h dir _ Hf). cbn [streamMap_ MinidumpParser_new]. destruct (register_loop_spec dir 0 ∅ Hs) as (m & -> & Hmap).
  set (p := mkMdParser h (Some dir) m _ true ME_SUCCESS). exists p. destruct (adaptive_regions ds Hsp Hv) as (i & Ei & Hok & Hsee). destruct (ms_entry _ _ _ _ _ Hm) as (k & Hk & He).
  specialize (Hmap MD_STREAM_MEMORY_LIST). rewrite Hk, lookup_empty in Hmap. cbn in Hmap. pose proof (mf_file _ _ _ _ Hf) as Hfile. destruct (mf_directory _ _ _ _ Hf) as [_ Hlen].
  assert (Hd : GetDirectoryEntryAtIndex k p = Ret (Some e)).
  { destruct (last_of_bound _ _ _ _ Hk) as (Hkb & _). unfold GetDirectoryEntryAtIndex. cbn [p ps_isValid negb orb header_ directory_]. zcase; [lia|]. by rewrite He. }
  destruct (ms_extent _ _ _ _ _ Hm) as (Hloc & Hx & _). destruct (SeekToStreamType_spec file p MD_STREAM_MEMORY_LIST k None e) as (r0 & p1 & E1 & E2 & Hr1 & Hr2); [done|done|done|by eexists _, _|done|done|].
  unfold GetStream. cbn [p ps_isValid negb streamMap_]. rewrite Hmap. cbn [stream_]. fold p. rewrite E1. cbn [mbind outcome_mbind]. rewrite E2.
  change (CreateStream cfg MD_STREAM_MEMORY_LIST) with (Some (StMemoryList (MinidumpMemoryList_new cfg))). cbn [stream_Read PerformanceOptimizer_new adaptiveMemoryIndex_].
  edestruct (memlist_Read_spec cfg file dir e ds) as (r' & -> & Hr'); [done|done|exact Hr1|exact Hr2|exact Ei|]. cbn [mbind outcome_mbind negb].
  eexists _, _, _, r'. split; [done|]. split; [done|]. split; [done|]. cbn [set_memory_index adaptiveMemoryIndex_].
  edestruct (ParseMemoryListStream_spec (H0 := adaptive_lawful) cfg file ds (region_entries 0 ds) i) as (l' & r'' & E & _); [exact Hfile|exact (ms_regions _ _ _ _ _ Hm)|exact Hsee|exact Hok|done|exact Hregs| |by exists l', r''].
  split; [|split; [by apply (fresh_regions_ok cfg), (ms_regions _ _ _ _ _ Hm)|done]]. split; cbn; [done|done|by rewrite length_map|].
  exists (mkRecent (Z.to_nat (lruCacheCapacity cfg)) []). split; [rewrite <- (Z2Nat.id (lruCacheCapacity cfg)) at 1 by lia; apply lru_new_rel|]. split; [cbn; lia|]. intros a j Hin. by apply elem_of_nil in Hin.
Qed.

(** A dump of two regions, of 16 and 8 bytes. *)
Definition sample_header : MDRawHeader := mkHeader MINIDUMP_HEADER_SIGNATURE MINIDUMP_HEADER_VERSION 1 32 0 0 0.
Definition sample_directory : list MDRawDirectory := [mkDirectory MD_STREAM_MEMORY_LIST (mkLocation 36 44)].
Definition sample_regions : list MDMemoryDescriptor := [mkMemDesc 0x1000 (mkLocation 16 80); mkMemDesc 0x1020 (mkLocation 8 96)].
Definition sample_file : list Z :=
  enc_header sample_header ++ flat_map enc_directory sample_directory ++ enc_memory_list sample_regions ++ le_bytes 8 0x1122334455667788 ++ le_bytes 8 42 ++ le_bytes 8 43.

Lemma sample_minidump : minidump_file MinidumpConfig_default sample_file sample_header sample_directory.
Proof.
  split.
  - split; [done|]. apply (bool_decide_unpack (Forall (λ b, 0 <= b < 256) sample_file)). vm_compute. exact I.
  - split; [|split; [done|split; done]]. unfold header_ok, fits. repeat split; vm_compute; congruence.
  - split; [|done]. repeat constructor; done.
  - split; (split; [done|vm_compute; reflexivity]).
Qed.

Lemma minidump_memory_witness : ∃ p p' o l r l' r', Minidump_Parse MinidumpConfig_default sample_file MinidumpParser_new = (true, p) ∧
  GetStream MinidumpConfig_default MD_STREAM_MEMORY_LIST p (PerformanceOptimizer_new MinidumpConfig_default) = Ret (Some (StMemoryList l), p', o) ∧ memoryReader_ p' = Some r ∧
  ParseMemoryListStream MinidumpConfig_default [0x1010] (Some (adaptiveMemoryIndex_ o)) o l r =
    Ret ([[0x1122334455667788; 42; 2 ^ 64 - 1; 2 ^ 64 - 1; 43] ++ replicate 27 (2 ^ 64 - 1)], l', r').
Proof.
  destruct (minidump_memory MinidumpConfig_default sample_file sample_header sample_directory (mkDirectory MD_STREAM_MEMORY_LIST (mkLocation 36 44)) sample_regions [0x1010])
    as (p & p' & o & l & r & E1 & E2 & E3 & l' & r' & E4).
  - exact sample_minidump.
  - split; [|done]. intros _. split; [done|]. intros H. by apply elem_of_nil in H.
  - split; [by exists 0|split; [by repeat split|split; [done|vm_compute; congruence]]|split; [done|vm_compute; reflexivity]|split; [split|]; done|].
    repeat constructor; cbn; try done; vm_compute; congruence.
  - done.
  - apply spreadb_ok. vm_compute. reflexivity.
  - left. vm_compute. congruence.
  - by repeat constructor.
  - exists p, p', o, l, r, l', r'. split; [exact E1|]. split; [exact E2|]. split; [exact E3|]. rewrite E4. vm_compute. reflexivity.
Defined.

Lemma Parse_directory_witness : ∃ p, Minidump_Parse MinidumpConfig_default sample_file MinidumpParser_new = (true, p) ∧
  GetDirectoryEntryAtType MD_STREAM_MEMORY_LIST p = Ret (Some (mkDirectory MD_STREAM_MEMORY_LIST (mkLocation 36 44))) ∧ GetDirectoryEntryAtType MD_STREAM_EXCEPTION p = Ret None.
Proof.
  destruct (Parse_directory MinidumpConfig_default sample_file sample_header sample_directory sample_minidump) as (ok & p & E & Hok & H).
  assert (Hs : ok = true).
  { apply Hok. split; [|done]. intros _. split; [done|]. intros H0. by apply elem_of_nil in H0. }
  rewrite Hs in H, E. exists p. split; [exact E|]. rewrite !H. split; vm_compute; reflexivity.
Defined.

Lemma Parse_again_witness : (Minidump_Parse MinidumpConfig_default sample_file (Minidump_Parse MinidumpConfig_default sample_file MinidumpParser_new).2).1 = false.
Proof.
  apply (Parse_again MinidumpConfig_default sample_file sample_header sample_directory (mkDirectory MD_STREAM_MEMORY_LIST (mkLocation 36 44))).
  - exact sample_minidump.
  - split; [|done]. intros _. split; [done|]. intros H. by apply elem_of_nil in H.
  - apply elem_of_cons. by left.
  - vm_compute; reflexivity.
Defined.

(** Insertion while few entries were seen. *)
Lemma adaptive_Insert_linear st en v s : current_ s = UseLinear → st <= en → Z.of_nat (length (masterList_ s)) < LINEAR_THRESHOLD →
  adaptive_Insert st en v s =
    Ret ((linear_Insert st en v (linearIndex_ s)).1,
         mkAdaptive (addressRange_ s) (ad_granularity_ s) (migrationCount_ s) (masterList_ s ++ [mkEntry st en v]) UseLinear (linear_Insert st en v (linearIndex_ s)).2 (treeIndex_ s) (bitmapIndex_ s)).
Proof.
  intros Hc Hle Hn. unfold adaptive_Insert. destruct (Z.ltb_spec en st); [lia|]. unfold current_index. cbn [current_ linearIndex_]. rewrite Hc. cbn [mbind outcome_mbind ai_Insert any_is_index linear_index linearIndex_].
  destruct (linear_Insert st en v (linearIndex_ s)) as [ok l]. cbn [mbind outcome_mbind put_index fst snd]. unfold EnsureStrategy, set_indexes. cbn [masterList_ current_ addressRange_ ad_granularity_ migrationCount_ treeIndex_ bitmapIndex_].
  rewrite length_app. cbn [length]. destruct (Z.leb_spec (length (masterList_ s) + 1)%nat LINEAR_THRESHOLD); [|lia]. by rewrite bool_decide_eq_true_2 by done.
Qed.

(** Adjacent regions.  A region is registered with the byte after its last as its end, which the
    indexes take in: a region that starts there counts as overlapping, is refused, and the refusal
    is not looked at.  The addresses of the second of two adjacent regions are not found. *)
Theorem adjacent_region_lost cfg d1 d2 o e : memdesc_ok d1 → memdesc_ok d2 → desc_start d2 = desc_start d1 + desc_size d1 → desc_start d2 + desc_size d2 < 2 ^ 64 →
  ∃ i gs, build_loop cfg [d1; d2] 0 (Some (AdaptiveAddressIndex_new DEFAULT_ADDRESS_RANGE DEFAULT_BITMAP_GRANULARITY)) o e [] = Ret (Some i, o, e, gs) ∧
    length gs = 2%nat ∧ ∀ a, desc_start d2 < a → adaptive_Lookup a i = Ret None.
Proof.
  intros [[H1 _] [[H2 _] _]] [[H3 _] [[H4 _] _]] H5 H6. unfold desc_start, desc_size in *.
  set (s0 := AdaptiveAddressIndex_new _ _). set (e1 := region_entry 0 d1). set (e2 := region_entry 1 d2).
  set (s2 := mkAdaptive (addressRange_ s0) (ad_granularity_ s0) 0 [e1; e2] UseLinear (mkLinear [e1]) (treeIndex_ s0) (bitmapIndex_ s0)).
  assert (Hov : overlapping (en_start e2) (en_end e2) e1 = true) by (unfold overlapping; cbn; apply andb_true_iff; rewrite !Z.leb_le; lia).
  assert (E : insert_all (region_entries 0 [d1; d2]) s0 = Ret s2).
  { change (region_entries 0 [d1; d2]) with [e1; e2]. cbn [insert_all ai_Insert adaptive_index].
    rewrite adaptive_Insert_linear; [|done|cbn; lia|done]. cbn [mbind outcome_mbind]. rewrite adaptive_Insert_linear; [|done|cbn; lia|done]. cbn [mbind outcome_mbind linearIndex_].
    assert (HL : linear_Insert (en_start e1) (en_end e1) (en_value e1) (linearIndex_ s0) = (true, mkLinear [e1])) by (unfold linear_Insert; cbn [e1 region_entry en_start en_end en_value]; zcase; [lia|done]).
    rewrite HL. cbn [snd]. unfold linear_Insert. cbn [entries_ existsb]. rewrite Hov. destruct (Z.ltb_spec (en_end e2) (en_start e2)) as [Hc|]; [cbn in Hc; lia|]. done. }
  exists s2. eexists. split; [apply build_loop_insert; [|exact E]; repeat constructor; lia|]. split; [done|].
  intros a Ha. unfold adaptive_Lookup, current_index. cbn. unfold linear_Lookup. cbn. unfold holds_addr. cbn. destruct (Z.leb_spec a (startOfMemoryRange d1 + dataSize (md_memory d1))); [lia|]. by rewrite andb_false_r.
Qed.

Lemma adjacent_region_lost_witness : ∃ i gs,
  build_loop MinidumpConfig_default [mkMemDesc 0x1000 (mkLocation 4096 80); mkMemDesc 0x2000 (mkLocation 4096 4176)] 0
    (Some (AdaptiveAddressIndex_new DEFAULT_ADDRESS_RANGE DEFAULT_BITMAP_GRANULARITY)) (PerformanceOptimizer_new MinidumpConfig_default) ME_SUCCESS [] =
    Ret (Some i, PerformanceOptimizer_new MinidumpConfig_default, ME_SUCCESS, gs) ∧ adaptive_Lookup 0x2008 i = Ret None.
Proof.
  destruct (adjacent_region_lost MinidumpConfig_default (mkMemDesc 0x1000 (mkLocation 4096 80)) (mkMemDesc 0x2000 (mkLocation 4096 4176)) (PerformanceOptimizer_new MinidumpConfig_default) ME_SUCCESS) as (i & gs & E & _ & H);
    [by repeat split..|done|done|]. exists i, gs. split; [exact E|]. apply H. done.
Defined.

(** ** Streams read in parallel *)

(** With an index of its own, a list leaves the optimizer as it is and does not look at it. *)
Lemma build_loop_frame cfg ds k (i : AdaptiveAddressIndex) o o' e gs :
  build_loop cfg ds k (Some i) o e gs = ('(ix, _, e, gs) ← build_loop cfg ds k (Some i) o' e gs; Ret (ix, o, e, gs)).
Proof.
  revert k i e gs. induction ds as [|d ds IH]; intros k i e gs; [done|]. cbn [build_loop]. zcase; [|apply IH]. unfold RegisterMemoryRange.
  destruct (ai_Insert _ _ _ i) as [[ok i1]| |]; [|done..]. cbn [mbind outcome_mbind]. apply IH.
Qed.

Lemma memlist_Read_frame cfg size l (i : AdaptiveAddressIndex) o o' r :
  memlist_Read cfg size l (Some i) o r = ('(ok, l, ix, _, r) ← memlist_Read cfg size l (Some i) o' r; Ret (ok, l, ix, o, r)).
Proof.
  unfold memlist_Read. destruct (ReadRegionCountAndDescriptors cfg l r) as [[[ds|] l1] r1]; [|done]. zcase; [done|]. unfold BuildMemoryRegions. rewrite (build_loop_frame _ _ _ _ o o').
  by destruct (build_loop _ _ _ _ o' _ _) as [[[[ix o1] e] gs]| |].
Qed.

Lemma aux_loop_frame cfg n k l (i : AdaptiveAddressIndex) o o' r :
  aux_loop cfg n k l (Some i) o r = ('(ok, l, ix, _, r) ← aux_loop cfg n k l (Some i) o' r; Ret (ok, l, ix, o, r)).
Proof.
  revert k l i r. induction n as [|n IH]; intros k l i r; [done|]. cbn [aux_loop]. destruct (modules_ l !! k) as [m|]; [|done]. destruct (module_ReadAuxiliaryData cfg m r) as [[ok m1] r1].
  case_match; [done|]. zcase; [done|]. unfold RegisterModuleRange. case_match; [apply IH|]. destruct (ai_Insert _ _ _ i) as [[ok' i1]| |]; [|done..]. cbn [mbind outcome_mbind]. apply IH.
Qed.

Lemma modlist_Read_frame cfg size l (i : AdaptiveAddressIndex) o o' r :
  modlist_Read cfg size l (Some i) o r = ('(ok, l, ix, _, r) ← modlist_Read cfg size l (Some i) o' r; Ret (ok, l, ix, o, r)).
Proof.
  unfold modlist_Read. destruct (ReadBytes 4 r) as [[bs|] r1]; [|done]. case_match; [done|]. destruct (ReadModuleRawData _ _ r1) as [[ok l1] r2]. case_match; [done|].
  unfold ReadModuleAuxiliaryDataAndIndex. rewrite (aux_loop_frame _ _ _ _ _ o o'). destruct (aux_loop _ _ _ _ _ o' _) as [[[[[ok' l2] ix] o1] r3]| |]; [|done..]. cbn [mbind outcome_mbind]. by case_match.
Qed.

(** The index a task works on. *)
Definition slot (t : Z) (o : PerformanceOptimizer) : option AdaptiveAddressIndex :=
  if t =? MD_STREAM_MEMORY_LIST then Some (adaptiveMemoryIndex_ o) else if t =? MD_STREAM_MODULE_LIST then Some (adaptiveModuleIndex_ o) else None.
Definition put_slot (t : Z) (i : option AdaptiveAddressIndex) (o : PerformanceOptimizer) : PerformanceOptimizer :=
  match i with
  | Some i => if t =? MD_STREAM_MEMORY_LIST then set_memory_index i o else if t =? MD_STREAM_MODULE_LIST then set_module_index i o else o
  | None => o
  end.

Lemma slot_put_ne t1 t2 i o : t1 ≠ t2 → slot t2 (put_slot t1 i o) = slot t2 o.
Proof. intros Hne. unfold slot, put_slot. destruct i; [|done]. repeat (zcase; try done); congruence. Qed.

Lemma put_slot_comm t1 t2 i1 i2 o : t1 ≠ t2 → put_slot t1 i1 (put_slot t2 i2 o) = put_slot t2 i2 (put_slot t1 i1 o).
Proof. intros Hne. unfold put_slot. destruct i1, i2; try done. repeat (zcase; try done); congruence. Qed.

(** Reading a stream uses and changes the index of its type only. *)
Definition read_slot (cfg : MinidumpConfig) (size : Z) (t : Z) (s : MinidumpStream) (r : Reader) (i : option AdaptiveAddressIndex)
  : outcome (bool * MinidumpStream * option AdaptiveAddressIndex * Reader) :=
  '(ok, s, o, r) ← stream_Read cfg size s (put_slot t i (PerformanceOptimizer_new cfg)) r; Ret (ok, s, slot t o, r).

Lemma set_index_same o : set_memory_index (adaptiveMemoryIndex_ o) o = o ∧ set_module_index (adaptiveModuleIndex_ o) o = o.
Proof. by destruct o. Qed.

Lemma stream_Read_frame cfg size t s o r : CreateStream cfg t = Some s →
  stream_Read cfg size s o r = ('(ok, s, i, r) ← read_slot cfg size t s r (slot t o); Ret (ok, s, put_slot t i o, r)).
Proof.
  intros H. unfold read_slot, slot, put_slot. destruct (Z.eqb_spec t MD_STREAM_MEMORY_LIST) as [->|H1]; [|destruct (Z.eqb_spec t MD_STREAM_MODULE_LIST) as [->|H2]].
  - injection H as <-. cbn [stream_Read]. set (o' := set_memory_index _ (PerformanceOptimizer_new cfg)). change (adaptiveMemoryIndex_ o') with (adaptiveMemoryIndex_ o).
    rewrite (memlist_Read_frame _ _ _ _ o o'). pose proof (memlist_Read_frame cfg size (MinidumpMemoryList_new cfg) (adaptiveMemoryIndex_ o) o' o' r) as E.
    destruct (memlist_Read _ _ _ _ o' _) as [[[[[ok l] ix] o1] r1]| |]; [|done..]. cbn [mbind outcome_mbind] in *. injection E as ->. destruct ix; [done|]. cbn. by rewrite (proj1 (set_index_same o)).
  - injection H as <-. cbn [stream_Read]. set (o' := set_module_index _ (PerformanceOptimizer_new cfg)). change (adaptiveModuleIndex_ o') with (adaptiveModuleIndex_ o).
    rewrite (modlist_Read_frame _ _ _ _ o o'). pose proof (modlist_Read_frame cfg size MinidumpModuleList_new (adaptiveModuleIndex_ o) o' o' r) as E.
    destruct (modlist_Read _ _ _ _ o' _) as [[[[[ok l] ix] o1] r1]| |]; [|done..]. cbn [mbind outcome_mbind] in *. injection E as ->. destruct ix; [done|]. cbn. by rewrite (proj2 (set_index_same o)).
  - unfold CreateStream in H. destruct (Z.eqb_spec t MD_STREAM_MEMORY_LIST), (Z.eqb_spec t MD_STREAM_MODULE_LIST); try done.
    destruct s; try (by repeat case_match); cbn [stream_Read]; by repeat case_match.
Qed.

(** A task, as a function of the index it works on. *)
Lemma ParseStream_frame cfg file t p : ∃ f : option AdaptiveAddressIndex → outcome (option MinidumpStream * option AdaptiveAddressIndex),
  ∀ o, ParseStream cfg file t p o = ('(s, i) ← f (slot t o); Ret (s, put_slot t i o)).
Proof.
  assert (Hid : ∀ o, put_slot t (slot t o) o = o) by (intros o; unfold slot, put_slot; repeat zcase; by destruct o).
  unfold ParseStream. destruct (GetDirectoryEntryAtType t p) as [[d|]|u|]; cbn [mbind outcome_mbind];
    [|by exists (λ i, Ret (None, i)); intros o; cbn; rewrite Hid|by exists (λ _, Undef u)|by exists (λ _, OutOfFuel)].
  destruct (InitMmap file) as [r|]; [|by exists (λ i, Ret (None, i)); intros o; cbn; rewrite Hid].
  destruct (ValidateStreamExtent _ _ r) as [[] r1]; cbn [negb]; [|by exists (λ i, Ret (None, i)); intros o; cbn; rewrite Hid].
  destruct (SeekSet _ r1) as [[] r2]; cbn [negb]; [|by exists (λ i, Ret (None, i)); intros o; cbn; rewrite Hid].
  destruct (CreateStream cfg t) as [s|] eqn:Es; [|by exists (λ i, Ret (None, i)); intros o; cbn; rewrite Hid].
  exists (λ i, '(ok, s, i, _) ← read_slot cfg (dataSize (location d)) t s r2 i; Ret (if (ok : bool) then Some s else None, i)). intros o. rewrite (stream_Read_frame _ _ t) by done.
  by destruct (read_slot _ _ _ _ _ _) as [[[[ok s1] i] r3]| |].
Qed.

Lemma ParseStream_comm cfg file p t1 t2 o o1 o2 s1 s2 : t1 ≠ t2 → ParseStream cfg file t1 p o = Ret (s1, o1) → ParseStream cfg file t2 p o1 = Ret (s2, o2) →
  ∃ o3, ParseStream cfg file t2 p o = Ret (s2, o3) ∧ ParseStream cfg file t1 p o3 = Ret (s1, o2).
Proof.
  intros Hne. destruct (ParseStream_frame cfg file t1 p) as [f1 F1], (ParseStream_frame cfg file t2 p) as [f2 F2]. rewrite !F1, !F2.
  destruct (f1 (slot t1 o)) as [[x1 i1]| |] eqn:E1; [|done..]. cbn [mbind outcome_mbind]. intros [= -> <-]. rewrite slot_put_ne by done.
  destruct (f2 (slot t2 o)) as [[x2 i2]| |] eqn:E2; [|done..]. cbn [mbind outcome_mbind]. intros [= -> <-]. eexists. split; [done|].
  rewrite F1, slot_put_ne by done. rewrite E1. cbn. by rewrite put_slot_comm.
Qed.

(** Tasks of different types, run in another order. *)
Lemma run_tasks_perm cfg file ts p order order' o m o' : NoDup ts → order ≡ₚ order' → NoDup order → run_tasks cfg file ts p order o = Ret (m, o') →
  run_tasks cfg file ts p order' o = Ret (m, o').
Proof.
  intros Hts Hp. revert o m o'. induction Hp as [|i a b Hp IH|i j a|a b c Hp1 IH1 Hp2 IH2]; intros o m o' Hn E.
  - done.
  - cbn [run_tasks] in *. apply list.NoDup_cons in Hn as [_ Hn]. destruct (ts !! i) as [t|]; [|done]. destruct (ParseStream _ _ _ _ _) as [[s o1]| |]; [|done..]. cbn [mbind outcome_mbind] in *.
    destruct (run_tasks cfg file ts p a o1) as [[m1 o2]| |] eqn:Ea; [|done..]. by rewrite (IH _ _ _ Hn Ea).
  - cbn [run_tasks] in *. destruct (ts !! j) as [tj|] eqn:Ej; [|done]. destruct (ParseStream cfg file tj p o) as [[sj o1]| |] eqn:E1; [|done..]. cbn [mbind outcome_mbind] in *.
    destruct (ts !! i) as [ti|] eqn:Ei; [|done]. destruct (ParseStream cfg file ti p o1) as [[si o2]| |] eqn:E2; [|done..]. cbn [mbind outcome_mbind] in *.
    assert (Hij : i ≠ j) by (apply list.NoDup_cons in Hn as [Hn _]; intros ->; apply Hn; apply elem_of_cons; by left).
    destruct (ParseStream_comm cfg file p tj ti o o1 o2 sj si) as (o3 & -> & E3); [|done|done|]; [intros ->; by destruct Hij; apply (NoDup_lookup ts i j ti)|]. cbn [mbind outcome_mbind]. rewrite E3. cbn [mbind outcome_mbind].
    destruct (run_tasks cfg file ts p a o2) as [[m1 o4]| |]; [|done..]. cbn [mbind outcome_mbind] in *. injection E as <- <-. by rewrite partial_alter_partial_alter_ne.
  - apply IH2; [by rewrite <- Hp1|]. by apply IH1.
Qed.

(** C27. The order of the tasks does not matter.  Reading streams of different types in parallel gives,
    in whatever order the tasks run, the parser and the indexes of running them one after another. *)
Theorem ParseParallel_order cfg file ts order p o p' o' : NoDup ts → order ≡ₚ seq 0 (length ts) →
  ParseParallel cfg file ts (seq 0 (length ts)) p o = Ret (p', o') → ParseParallel cfg file ts order p o = Ret (p', o').
Proof.
  intros Hts Hp. unfold ParseParallel. destruct (negb (enableParallelParsing cfg)); [done|]. destruct (run_tasks cfg file ts p (seq 0 (length ts)) o) as [[m o1]| |] eqn:E; [|done..].
  rewrite (run_tasks_perm cfg file ts p (seq 0 (length ts)) order o m o1); [done|done|by symmetry|apply NoDup_seq|done].
Qed.

Lemma ParseParallel_order_witness : ∃ p' o' l, ParseParallel MinidumpConfig_default sample_file [MD_STREAM_MEMORY_LIST; MD_STREAM_EXCEPTION] [1; 0]%nat
    (Minidump_Parse MinidumpConfig_default sample_file MinidumpParser_new).2 (PerformanceOptimizer_new MinidumpConfig_default) = Ret (p', o') ∧
  streamMap_ p' !! MD_STREAM_MEMORY_LIST = Some (mkStreamInfo 0 (Some (StMemoryList l))) ∧ regionCount_ l = 2.
Proof.
  eexists _, _, _. split.
  - apply ParseParallel_order; [by repeat constructor; set_solver|apply Permutation_swap|vm_compute; reflexivity].
  - split; vm_compute; reflexivity.
Defined.
