(* ===== verification/ThreadContext.v ===== *)
(** * Stacks of other threads of the process

    A thread that wants the stack of another thread of its process sends it a signal; the handler
    of the signal, running in the interrupted thread, walks or copies the stack, and the requester
    waits for it (unwinder/src/unwind_local/thread_context.cpp, include/thread_context.h, with
    src/utils/safe_reader.cpp and include/fp_unwinder.h).  The two run concurrently: they are
    modelled as labelled steps, a step being what is done under one lock or between two reads of
    shared data.  Memory of the process is a function from addresses to bytes, undefined where
    nothing is mapped; registers are those of aarch64. *)
From S2P Require Import Prelude.

(** ** SafeReader: copying memory that may not be mapped *)
Section SafeReader.
Context (pageSize : Z) (memory : Z → option Z).

(** [IsReadableAddr] writes the byte to a pipe; [pipe] says whether the pipe could be made.  At
    most two bytes are written per page, far fewer than a pipe holds. *)
Definition IsReadableAddr (pipe : bool) (addr : Z) : bool := pipe && bool_decide (is_Some (memory addr)).
Definition GetCurrentPageEndAddr (addr : Z) : Z := Z.land (u64 (addr + pageSize)) (u64 (Z.lnot (u64 (pageSize - 1)))).

(** The inner loop: [n] bytes from [currentPtr] to [dest] at [destIndex]. *)
Fixpoint copy_bytes (n : nat) (dest : list Z) (destIndex : nat) (currentPtr : Z) : outcome (list Z) :=
  match n with
  | O => Ret dest
  | S n' =>
      match memory currentPtr with
      | None => Undef OutOfBounds
      | Some b => if (destIndex <? length dest)%nat then copy_bytes n' (<[destIndex := b]> dest) (S destIndex) (currentPtr + 1) else Undef OutOfBounds
      end
  end.

Fixpoint copy_pages (fuel : nat) (pipe : bool) (dest : list Z) (destIndex : nat) (currentPtr srcEndPtr : Z) : outcome (list Z * nat) :=
  match fuel with
  | O => OutOfFuel
  | S fuel' =>
      if currentPtr <? srcEndPtr then
        let pageEndPtr := Z.min (GetCurrentPageEndAddr currentPtr) srcEndPtr in
        if negb (IsReadableAddr pipe currentPtr) || negb (IsReadableAddr pipe (u64 (pageEndPtr - 1))) then Ret (dest, destIndex)
        else
          let n := Z.to_nat (pageEndPtr - currentPtr) in
          dest ← copy_bytes n dest destIndex currentPtr;
          copy_pages fuel' pipe dest (destIndex + n) (currentPtr + n) srcEndPtr
      else Ret (dest, destIndex)
  end.
Definition CopyReadableBufSafe (fuel : nat) (pipe : bool) (dest : list Z) (srcPtr srcLen : Z) : outcome (list Z * nat) :=
  let copeSize := Z.min (length dest) srcLen in
  copy_pages fuel pipe dest 0 srcPtr (u64 (srcPtr + copeSize)).
End SafeReader.

(** ** FpUnwinder: walking frame records in a signal handler *)
Section FpUnwinder.
Context (memory : Z → option Z).

Definition word_at_addr (addr : Z) : option (list Z) :=
  let bs := readable_bytes memory 8 addr in if (length bs =? 8)%nat then Some bs else None.
(** The write to the pipe fails when the first byte is not mapped; a word that is not mapped
    entirely is read all the same. *)
Definition ReadUptrSafe (addr : Z) : outcome (option Z) :=
  match memory addr with
  | None => Ret None
  | Some _ => match word_at_addr addr with Some bs => Ret (Some (of_le bs)) | None => Undef OutOfBounds end
  end.
Definition ReadUptr (stackBottom stackTop addr : Z) : outcome (option Z) :=
  if (addr <? stackBottom) || (stackTop <=? u64 (addr + 8)) then Ret None
  else match word_at_addr addr with Some bs => Ret (Some (of_le bs)) | None => Undef OutOfBounds end.

(** [pcs[index - skipFrameNum] = pc] for the frames that are not skipped. *)
Definition put_pc (pcs : list Z) (index skipFrameNum : nat) (pc : Z) : outcome (list Z) :=
  if (skipFrameNum <=? index)%nat then
    if (index - skipFrameNum <? length pcs)%nat then Ret (<[(index - skipFrameNum)%nat := pc]> pcs) else Undef OutOfBounds
  else Ret pcs.

(** The two loops, over the frames still allowed: both return the array and [index]. *)
Fixpoint unwind_safe_loop (n index skipFrameNum : nat) (pc fp : Z) (pcs : list Z) : outcome (list Z * nat) :=
  match n with
  | O => Ret (pcs, index)
  | S n' =>
      pcs ← put_pc pcs index skipFrameNum pc;
      next ← ReadUptrSafe fp;
      match next with
      | None => Ret (pcs, S index)
      | Some next =>
          ra ← ReadUptrSafe (u64 (fp + 8));
          match ra with
          | None => Ret (pcs, S index)
          | Some ra =>
              let pc := if 4 <? ra then ra - 4 else ra in
              if (next <=? fp) || (next =? 0) then Ret (pcs, S index) else unwind_safe_loop n' (S index) skipFrameNum pc next pcs
          end
      end
  end.
Definition UnwindSafe (pipe : bool) (pc fp : Z) (pcs : list Z) (maxSize skipFrameNum : nat) : outcome (list Z * Z) :=
  if negb pipe then Ret (pcs, 0)
  else '(pcs, index) ← unwind_safe_loop maxSize 0 skipFrameNum pc fp pcs; Ret (pcs, u64 (Z.of_nat index - Z.of_nat skipFrameNum)).

Definition maxUnwindAddrRange : Z := 16 * 1024.
Fixpoint fp_unwind_loop (n index skipFrameNum : nat) (stackBottom stackTop firstFp pc fp : Z) (pcs : list Z) : outcome (list Z * nat) :=
  match n with
  | O => Ret (pcs, index)
  | S n' =>
      if maxUnwindAddrRange <=? u64 (fp - firstFp) then Ret (pcs, index)
      else
        pcs ← put_pc pcs index skipFrameNum pc;
        next ← ReadUptr stackBottom stackTop fp;
        match next with
        | None => Ret (pcs, S index)
        | Some next =>
            ra ← ReadUptr stackBottom stackTop (u64 (fp + 8));
            match ra with
            | None => Ret (pcs, S index)
            | Some ra =>
                if (next <=? fp) || (next =? 0) then Ret (pcs, S index)
                else fp_unwind_loop n' (S index) skipFrameNum stackBottom stackTop firstFp ra next pcs
            end
        end
  end.
(** [range] is what [GetMainStackRange] or [GetSelfStackRange] gives for the calling thread. *)
Definition fp_Unwind (range : option (Z * Z)) (pc fp : Z) (pcs : list Z) (maxSize skipFrameNum : nat) : outcome (list Z * Z) :=
  match range with
  | None => Ret (pcs, 0)
  | Some (stackBottom, stackTop) =>
      '(pcs, index) ← fp_unwind_loop maxSize 0 skipFrameNum stackBottom stackTop fp pc fp pcs; Ret (pcs, u64 (Z.of_nat index - Z.of_nat skipFrameNum))
  end.
End FpUnwinder.

(** ** LocalThreadContext: the stack walked by the handler

    [g_contextMap] has one object per thread id.  Objects are never freed: a handler may write to
    its object long after the requester has given up.  The state of a thread counts the signals
    that it has not taken yet and says where its handler is; [SIGLOCAL_DUMP] is blocked while the
    handler runs. *)
Definition CONTEXT_UNUSED : Z := -1.
Definition DEFAULT_MAX_LOCAL_FRAME_NUM : nat := 32.
Record ThreadContext := mkContext { ctx_tid : Z; ctx_pcs : list Z; frameSz : Z; firstFrameSp : Z }.
Definition ThreadContext_new : ThreadContext := mkContext CONTEXT_UNUSED (replicate DEFAULT_MAX_LOCAL_FRAME_NUM 0) 0 0.

(** What a signal finds: the registers of the thread, the memory, whether a pipe can be made. *)
Record interrupt := mkInterrupt { i_pc : Z; i_sp : Z; i_fp : Z; i_lr : Z; i_x20 : Z; i_memory : Z → option Z; i_pipe : bool; i_range : option (Z * Z) }.

(** Where [CopyContextAndWaitTimeout] is: before it walks, before it notifies, before it releases
    the object. *)
Inductive handler := HWalk (c : interrupt) | HNotify | HRelease.
Record thread := mkThread { t_pending : nat; t_handler : option handler }.
Definition thread_new : thread := mkThread 0 None.

(** The requester, in [CollectThreadContext] for a thread: about to signal, about to wait, waiting,
    woken; then what [CollectThreadContext] returned, the id of the object. *)
Inductive requester := RIdle | RSignal (tid : Z) | RWait (tid : Z) | RWaiting (tid : Z) | RReturned (tid : Z) (ok : bool).

Record local_state := mkLocal { g_contextMap : gmap Z ThreadContext; l_threads : gmap Z thread; l_requester : requester }.
Definition local_init : local_state := mkLocal ∅ ∅ RIdle.
Definition thread_of (t : Z) (s : local_state) : thread := default thread_new (l_threads s !! t).
Definition set_thread (t : Z) (h : thread) (s : local_state) : local_state := mkLocal (g_contextMap s) (<[t := h]> (l_threads s)) (l_requester s).
Definition put_context (t : Z) (c : ThreadContext) (s : local_state) : local_state := mkLocal (<[t := c]> (g_contextMap s)) (l_threads s) (l_requester s).
Definition set_requester (r : requester) (s : local_state) : local_state := mkLocal (g_contextMap s) (l_threads s) r.

(** [GetContextLocked]: the object of the thread, made or taken when it is not in use. *)
Definition GetContextLocked (tid : Z) (s : local_state) : option local_state :=
  match g_contextMap s !! tid with
  | None => Some (put_context tid (mkContext tid (ctx_pcs ThreadContext_new) 0 0) s)
  | Some c => if ctx_tid c =? CONTEXT_UNUSED then Some (put_context tid (mkContext tid (ctx_pcs c) 0 (firstFrameSp c)) s) else None
  end.
Definition unuse (t : Z) (s : local_state) : local_state :=
  match g_contextMap s !! t with
  | Some c => put_context t (mkContext CONTEXT_UNUSED (ctx_pcs c) (frameSz c) (firstFrameSp c)) s
  | None => s
  end.

Inductive local_label :=
| LCollect (tid : Z)            (* UnwindLocalWithTid, CollectThreadContext up to the signal *)
| LSignal (sent : bool)         (* SignalRequestThread, and what the system call returns *)
| LWait                         (* entering wait_for *)
| LWake                         (* a wake-up that nobody asked for *)
| LTimeout
| LTake                         (* UnwindLocalWithTid has read the result *)
| LInterrupt (t : Z) (c : interrupt)
| LWalk (t : Z) | LNotify (t : Z) | LRelease (t : Z)
| LExit (t : Z).                (* the thread ends, with the signals it has not taken *)

(** [UnwindSafe] in the handler, into the object of the thread. *)
Definition walk_context (c : interrupt) (x : ThreadContext) : outcome ThreadContext :=
  '(pcs, n) ← UnwindSafe (i_memory c) (i_pipe c) (i_pc c) (i_fp c) (ctx_pcs x) DEFAULT_MAX_LOCAL_FRAME_NUM 0;
  Ret (mkContext (ctx_tid x) pcs n (i_sp c)).

Definition local_step (l : local_label) (s : local_state) : option (outcome local_state) :=
  match l, l_requester s with
  | LCollect tid, RIdle =>
      Some (Ret (if tid <? 0 then set_requester (RReturned tid false) s
                 else match GetContextLocked tid s with Some s' => set_requester (RSignal tid) s' | None => set_requester (RReturned tid false) s end))
  | LSignal true, RSignal tid =>
      let h := thread_of tid s in Some (Ret (set_requester (RWait tid) (set_thread tid (mkThread (S (t_pending h)) (t_handler h)) s)))
  | LSignal false, RSignal tid => Some (Ret (set_requester (RReturned tid false) (unuse tid s)))
  | LWait, RWait tid => Some (Ret (set_requester (RWaiting tid) s))
  | LWake, RWaiting tid => Some (Ret (set_requester (RReturned tid true) s))
  | LTimeout, RWaiting tid => Some (Ret (set_requester (RReturned tid false) s))
  | LTake, RReturned _ _ => Some (Ret (set_requester RIdle s))
  | LInterrupt t c, _ =>
      match thread_of t s with
      | mkThread (S n) None => Some (Ret (set_thread t (mkThread n (Some (HWalk c))) s))
      | _ => None
      end
  | LWalk t, _ =>
      match thread_of t s with
      | mkThread n (Some (HWalk c)) =>
          match g_contextMap s !! t with
          | Some x => Some (x ← walk_context c x; Ret (set_thread t (mkThread n (Some HNotify)) (put_context t x s)))
          | None => None
          end
      | _ => None
      end
  | LNotify t, r =>
      match thread_of t s with
      | mkThread n (Some HNotify) =>
          let s := set_thread t (mkThread n (Some HRelease)) s in
          Some (Ret (match r with RWaiting tid => if tid =? t then set_requester (RReturned tid true) s else s | _ => s end))
      | _ => None
      end
  | LRelease t, _ =>
      match thread_of t s with
      | mkThread n (Some HRelease) => Some (Ret (set_thread t (mkThread n None) (unuse t s)))
      | _ => None
      end
  | LExit t, _ =>
      match thread_of t s with
      | mkThread n None => Some (Ret (set_thread t thread_new s))
      | _ => None
      end
  | _, _ => None
  end.

(** [UnwindLocalWithTid] on what was collected: the pcs it gives its caller. *)
Definition UnwindLocalWithTid (maxFrameNum skipFrameNum : Z) (s : local_state) : option (list Z) :=
  match l_requester s with
  | RReturned tid true =>
      match g_contextMap s !! tid with
      | Some c =>
          if 0 <? frameSz c then
            let frameSize := Z.min (frameSz c) (u64 (skipFrameNum + maxFrameNum)) in
            Some (take (Z.to_nat frameSize - Z.to_nat skipFrameNum) (drop (Z.to_nat skipFrameNum) (ctx_pcs c)))
          else None
      | None => None
      end
  | _ => None
  end.

(** ** LocalThreadContextMix: the stack copied by the handler

    One object for all requests.  The requester, which is not the thread it asks for, runs [Unwinder::UnwindLocalByOtherTid]; [pid] is the
    id of the main thread, [pageSize] what [getpagesize] gives.  [maps_] is there or not: what it
    gives is the word that the file mapped at an address has there ([DfxMap::GetElf],
    [DfxElf::Read]), an argument of [AccessMem]. *)
Inductive SyncStatus := INIT | WAIT_CTX | COPY_START | COPY_SUCCESS | COPY_FAILED.
#[export] Instance SyncStatus_eq_dec : EqDecision SyncStatus.
Proof. solve_decision. Defined.
Definition STACK_BUFFER_SIZE : nat := (64 * 1024)%nat.
#[global] Opaque STACK_BUFFER_SIZE.

Record LocalThreadContextMix := mkMix {
  x_pc : Z; x_sp : Z; x_fp : Z; x_lr : Z; bytecodePc_ : Z; stackBottom_ : Z; stackTop_ : Z;
  stackBuf_ : list Z; stackCopiedLen_ : nat; x_tid : Z; x_status : SyncStatus; x_maps : bool; stackForward_ : Z
}.
Definition LocalThreadContextMix_new : LocalThreadContextMix := mkMix 0 0 0 0 0 0 0 [] 0 (-1) INIT false 0.

(** [stackBuf_.resize(STACK_BUFFER_SIZE, 0)]. *)
Definition resize_buf (buf : list Z) : list Z := take STACK_BUFFER_SIZE buf ++ replicate (STACK_BUFFER_SIZE - length buf) 0.
Definition StartCollectThreadContext (tid : Z) (maps_ok : bool) (x : LocalThreadContextMix) : LocalThreadContextMix :=
  mkMix (x_pc x) (x_sp x) (x_fp x) (x_lr x) (bytecodePc_ x) (stackBottom_ x) (stackTop_ x) (resize_buf (stackBuf_ x)) (stackCopiedLen_ x) tid WAIT_CTX maps_ok (stackForward_ x).
Definition ReleaseCollectThreadContext (x : LocalThreadContextMix) : LocalThreadContextMix := mkMix 0 0 0 0 0 0 0 [] 0 (-1) INIT false (stackForward_ x).
Definition CheckStatusValidate (status : SyncStatus) (tid : Z) (x : LocalThreadContextMix) : bool := bool_decide (x_status x = status) && (x_tid x =? tid).
Definition SetStackRang (stackTop stackBottom : Z) (x : LocalThreadContextMix) : LocalThreadContextMix :=
  mkMix (x_pc x) (x_sp x) (x_fp x) (x_lr x) (bytecodePc_ x) stackBottom stackTop (stackBuf_ x) (stackCopiedLen_ x) (x_tid x) (x_status x) (x_maps x) (stackForward_ x).
Definition CopyRegister (c : interrupt) (x : LocalThreadContextMix) : LocalThreadContextMix :=
  mkMix (i_pc c) (i_sp c) (i_fp c) (i_lr c) (i_x20 c) (stackBottom_ x) (stackTop_ x) (stackBuf_ x) (stackCopiedLen_ x) (x_tid x) (x_status x) (x_maps x) (stackForward_ x).
Definition mix_SetSp (sp : Z) (x : LocalThreadContextMix) : LocalThreadContextMix :=
  mkMix (x_pc x) sp (x_fp x) (x_lr x) (bytecodePc_ x) (stackBottom_ x) (stackTop_ x) (stackBuf_ x) (stackCopiedLen_ x) (x_tid x) (x_status x) (x_maps x) (stackForward_ x).
Definition SetStackBuf (buf : list Z) (x : LocalThreadContextMix) : LocalThreadContextMix :=
  mkMix (x_pc x) (x_sp x) (x_fp x) (x_lr x) (bytecodePc_ x) (stackBottom_ x) (stackTop_ x) buf (length buf) (x_tid x) (x_status x) (x_maps x) (stackForward_ x).
Definition SetStackForward (forward : Z) (x : LocalThreadContextMix) : LocalThreadContextMix :=
  mkMix (x_pc x) (x_sp x) (x_fp x) (x_lr x) (bytecodePc_ x) (stackBottom_ x) (stackTop_ x) (stackBuf_ x) (stackCopiedLen_ x) (x_tid x) (x_status x) (x_maps x) forward.

(** The registers that [SetRegister] sets: sp, pc, fp, lr and x20. *)
Definition SetRegister (x : LocalThreadContextMix) : Z * Z * Z * Z * Z := (x_sp x, x_pc x, x_fp x, x_lr x, bytecodePc_ x).

Definition AccessMem (file_word : Z → option Z) (addr : Z) (x : LocalThreadContextMix) : outcome (option Z) :=
  if negb (fitsb 64 (addr + 8)) then Ret None
  else if negb (x_maps x) then Ret None
  else if (addr <? u64 (x_sp x - stackForward_ x)) || (u64 (x_sp x + stackCopiedLen_ x) <? addr + 8) then Ret (file_word addr)
  else
    let stackOffset := u64 (addr - u64 (x_sp x - stackForward_ x)) in
    if (length (stackBuf_ x) <? 8)%nat || (length (stackBuf_ x) - 8 <? stackOffset) || (u64 (stackCopiedLen_ x + stackForward_ x) <? u64 (stackOffset + 8)) then Ret None
    else if stackOffset + 8 <=? length (stackBuf_ x) then Ret (Some (of_le (take 8 (drop (Z.to_nat stackOffset) (stackBuf_ x))))) else Undef OutOfBounds.

(** Where [CopyContextAndWaitTimeoutMix] is: before the check, before the range of the stack is
    asked for, before the registers are copied, before the range is looked at, before the copy. *)
Inductive mix_handler := MCheck (c : interrupt) | MRange (c : interrupt) | MRegs (c : interrupt) | MTest (c : interrupt) | MCopy (c : interrupt) (cpySz : Z).
Record mix_thread := mkMixThread { mt_pending : nat; mt_handler : option mix_handler }.
Inductive mix_requester := QIdle | QSignal (tid : Z) | QWait (tid : Z) | QWaiting (tid : Z) | QCheck (tid : Z) | QReturned (tid : Z) (ok : bool).
Record mix_state := mkMixState { mix : LocalThreadContextMix; m_threads : gmap Z mix_thread; m_requester : mix_requester }.
Definition mix_init : mix_state := mkMixState LocalThreadContextMix_new ∅ QIdle.
Definition mix_thread_of (t : Z) (s : mix_state) : mix_thread := default (mkMixThread 0 None) (m_threads s !! t).
Definition set_mix (x : LocalThreadContextMix) (s : mix_state) : mix_state := mkMixState x (m_threads s) (m_requester s).
Definition set_mix_thread (t : Z) (h : mix_thread) (s : mix_state) : mix_state := mkMixState (mix s) (<[t := h]> (m_threads s)) (m_requester s).
Definition set_mix_requester (r : mix_requester) (s : mix_state) : mix_state := mkMixState (mix s) (m_threads s) r.

Section MixSteps.
Context (pid pageSize : Z).

(** [CopyStackBuf] under the lock. *)
Definition copy_stack (c : interrupt) (cpySz : Z) (x : LocalThreadContextMix) : outcome LocalThreadContextMix :=
  '(buf, copied) ← CopyReadableBufSafe pageSize (i_memory c) (S STACK_BUFFER_SIZE) (i_pipe c) (stackBuf_ x) (x_sp x) cpySz;
  Ret (mkMix (x_pc x) (x_sp x) (x_fp x) (x_lr x) (bytecodePc_ x) (stackBottom_ x) (stackTop_ x) buf copied (x_tid x)
         (if (0 <? copied)%nat then COPY_SUCCESS else COPY_FAILED) (x_maps x) (stackForward_ x)).

(** A step of the handler of thread [t], which is at [h]: the object, where the handler is then,
    and whether it notifies. *)
Definition handler_step (t : Z) (h : mix_handler) (x : LocalThreadContextMix) : outcome (LocalThreadContextMix * option mix_handler * bool) :=
  match h with
  | MCheck c => Ret (x, if CheckStatusValidate WAIT_CTX t x then Some (if t =? pid then MRegs c else MRange c) else None, false)
  | MRange c =>
      match i_range c with
      | Some (bottom, top) => Ret (SetStackRang top bottom x, Some (MRegs c), false)
      | None => Ret (x, None, false)
      end
  | MRegs c => Ret (CopyRegister c x, Some (MTest c), false)
  | MTest c => Ret (x, if stackTop_ x <=? x_sp x then None else Some (MCopy c (Z.min (stackTop_ x - x_sp x) STACK_BUFFER_SIZE)), false)
  | MCopy c cpySz => x ← copy_stack c cpySz x; Ret (x, None, true)
  end.

Inductive mix_label :=
| QStart (tid : Z) (main : option (Z * Z) * bool)   (* the range of the main stack, for the main thread; whether [DfxMaps::Create] gives maps *)
| QSend (sent : bool) | QEnter | QWake | QTimeout | QResult | QRelease
| MInterrupt (t : Z) (c : interrupt) | MStep (t : Z).

Definition mix_step (l : mix_label) (s : mix_state) : option (outcome mix_state) :=
  match l, m_requester s with
  | QStart tid main, QIdle =>
      if tid <? 0 then Some (Ret s)
      else if tid =? pid then
        match fst main with
        | None => Some (Ret s)
        | Some (bottom, top) => Some (Ret (mkMixState (StartCollectThreadContext tid (snd main) (SetStackRang top bottom (mix s))) (m_threads s) (QSignal tid)))
        end
      else Some (Ret (mkMixState (StartCollectThreadContext tid (snd main) (mix s)) (m_threads s) (QSignal tid)))
  | QSend true, QSignal tid =>
      let h := mix_thread_of tid s in Some (Ret (set_mix_requester (QWait tid) (set_mix_thread tid (mkMixThread (S (mt_pending h)) (mt_handler h)) s)))
  | QSend false, QSignal tid => Some (Ret (set_mix_requester (QReturned tid false) s))
  | QEnter, QWait tid => Some (Ret (set_mix_requester (QWaiting tid) s))
  | QWake, QWaiting tid => Some (Ret (set_mix_requester (QCheck tid) s))
  | QTimeout, QWaiting tid => Some (Ret (set_mix_requester (QReturned tid false) s))
  | QResult, QCheck tid => Some (Ret (set_mix_requester (QReturned tid (CheckStatusValidate COPY_SUCCESS tid (mix s))) s))
  | QRelease, QReturned _ _ => Some (Ret (mkMixState (ReleaseCollectThreadContext (mix s)) (m_threads s) QIdle))
  | MInterrupt t c, _ =>
      match mix_thread_of t s with
      | mkMixThread (S n) None => Some (Ret (set_mix_thread t (mkMixThread n (Some (MCheck c))) s))
      | _ => None
      end
  | MStep t, r =>
      match mix_thread_of t s with
      | mkMixThread n (Some h) =>
          Some ('(x, h, notify) ← handler_step t h (mix s);
                Ret (mkMixState x (<[t := mkMixThread n h]> (m_threads s)) (match r with QWaiting tid => if (notify : bool) then QCheck tid else r | _ => r end)))
      | _ => None
      end
  | _, _ => None
  end.
End MixSteps.

(** A run: the state after the labels, if every one of them was possible. *)
Fixpoint run_labels {L S} (step : L → S → option (outcome S)) (ls : list L) (s : S) : option (outcome S) :=
  match ls with
  | [] => Some (Ret s)
  | l :: ls' => match step l s with Some (Ret s') => run_labels step ls' s' | r => r end
  end.

(** ** Copying stops at the first page that is not mapped *)
Lemma copy_bytes_spec memory (n idx : nat) dest a : (idx + n <= length dest)%nat → length (readable_bytes memory n a) = n →
  copy_bytes memory n dest idx a = Ret (take idx dest ++ readable_bytes memory n a ++ drop (idx + n) dest).
Proof.
  revert idx dest a. induction n as [|n IH]; intros idx dest a Hl Hr; [by rewrite Nat.add_0_r, app_nil_l, take_drop|]. cbn [copy_bytes readable_bytes] in *. destruct (memory a) as [b|]; [|done]. cbn in Hr. injection Hr as Hr.
  destruct (Nat.ltb_spec idx (length dest)); [|lia]. rewrite IH by (rewrite ?length_insert; lia || done). f_equal.
  rewrite (take_S_r (<[idx := b]> dest) idx b) by (apply list_lookup_insert_eq; lia). rewrite take_insert_ge, drop_insert_lt by lia. rewrite <- app_assoc. cbn.
  by replace (S (idx + n)) with (idx + S n)%nat by lia.
Qed.

Section Copying.
Context (k : Z) (memory : Z → option Z).
Let pageSize : Z := 2 ^ k.

(** Memory is mapped in whole pages. *)
Definition page_uniform : Prop := ∀ a b, a / pageSize = b / pageSize → is_Some (memory a) → is_Some (memory b).

Context (Hk : 0 <= k < 64).

Lemma page_pos : 0 < pageSize.
Proof. unfold pageSize. apply Z.pow_pos_nonneg; lia. Qed.

Lemma page_end a : 0 <= a → a + pageSize < 2 ^ 64 → GetCurrentPageEndAddr pageSize a = (a / pageSize + 1) * pageSize.
Proof.
  intros Ha Hs. pose proof page_pos as Hp. assert (Hp64 : pageSize <= 2 ^ 63) by (unfold pageSize; apply Z.pow_le_mono_r; lia). unfold GetCurrentPageEndAddr.
  rewrite (wrap_small 64 (a + pageSize)), (wrap_small 64 (pageSize - 1)) by (unfold fits; lia). unfold pageSize at 2. rewrite land_mask by (unfold fits; lia). fold pageSize.
  rewrite <- (Z.mul_1_l pageSize) at 1. rewrite Z.div_add by lia. done.
Qed.

Lemma copy_pages_spec fuel dest (idx : nat) cur end_ : page_uniform → 0 <= cur <= end_ → end_ + pageSize < 2 ^ 64 → (Z.to_nat (end_ - cur) < fuel)%nat → (idx + Z.to_nat (end_ - cur) <= length dest)%nat →
  let bs := readable_bytes memory (Z.to_nat (end_ - cur)) cur in
  copy_pages pageSize memory fuel true dest idx cur end_ = Ret (take idx dest ++ bs ++ drop (idx + length bs) dest, (idx + length bs)%nat).
Proof.
  intros Hu. pose proof page_pos as Hp. revert dest idx cur. induction fuel as [|fuel IH]; intros dest idx cur Hc He Hf Hd; [lia|]. cbn [copy_pages].
  destruct (Z.ltb_spec cur end_) as [Hlt|]; [|replace (Z.to_nat (end_ - cur)) with 0%nat by lia; cbn; by rewrite Nat.add_0_r, take_drop].
  rewrite page_end by lia. set (stop := Z.min _ end_). assert (Hpage : cur < (cur / pageSize + 1) * pageSize) by (pose proof (Z.mod_pos_bound cur pageSize Hp); pose proof (Z.div_mod cur pageSize ltac:(lia)); lia).
  assert (Hs : cur < stop <= end_) by (unfold stop; lia).
  assert (Hin : ∀ i, 0 <= i < stop - cur → (cur + i) / pageSize = cur / pageSize).
  { intros i Hi. symmetry. apply (Z.div_unique _ _ _ (cur + i - pageSize * (cur / pageSize))); [left|lia]. pose proof (Z.mul_div_le cur pageSize Hp). unfold stop in Hi. lia. }
  unfold IsReadableAddr. cbn [andb]. rewrite (wrap_small 64 (stop - 1)) by (unfold fits; lia). destruct (memory cur) as [b0|] eqn:E0; cycle 1.
  { rewrite bool_decide_eq_false_2 by (intros [? ?]; done). cbn [negb orb]. destruct (Z.to_nat (end_ - cur)) as [|n] eqn:En; [lia|]. cbn. rewrite E0. cbn. by rewrite Nat.add_0_r, take_drop. }
  assert (Hall : ∀ i, 0 <= i < stop - cur → is_Some (memory (cur + i))) by (intros i Hi; apply (Hu cur); [by rewrite Hin|by rewrite E0]).
  rewrite !bool_decide_eq_true_2; [|replace (stop - 1) with (cur + (stop - 1 - cur)) by lia; apply Hall; lia|done]. cbn [negb orb].
  set (n := Z.to_nat (stop - cur)). assert (Hn : length (readable_bytes memory n cur) = n) by (apply readable_all; intros i Hi; apply Hall; lia).
  rewrite copy_bytes_spec by (lia || done). cbn [mbind outcome_mbind]. replace (cur + n) with stop by lia.
  replace (Z.to_nat (end_ - cur)) with (n + Z.to_nat (end_ - stop))%nat by lia. rewrite readable_app by done. replace (cur + n) with stop by lia.
  rewrite IH; [|lia|lia|lia|rewrite !length_app, length_take, length_drop, Hn; lia]. f_equal. set (r := readable_bytes memory (Z.to_nat (end_ - stop)) stop). rewrite length_app, Hn. f_equal; [|lia].
  rewrite (app_assoc (take idx dest)), take_app_length' by (rewrite length_app, length_take; lia). rewrite <- !app_assoc. f_equal. f_equal. f_equal.
  rewrite !drop_app_ge by (rewrite ?length_take; lia). rewrite drop_drop. f_equal. rewrite length_take, Hn. lia.
Qed.

(** Copying gives the mapped bytes from the source on, at most as many as asked for and fit. *)
Theorem CopyReadableBufSafe_spec fuel dest src len : page_uniform → 0 <= src → 0 <= len → src + Z.min (length dest) len + pageSize < 2 ^ 64 → (length dest < fuel)%nat →
  let bs := readable_bytes memory (Z.to_nat (Z.min (length dest) len)) src in
  CopyReadableBufSafe pageSize memory fuel true dest src len = Ret (bs ++ drop (length bs) dest, length bs).
Proof.
  intros Hu Hs Hl He Hf bs. pose proof page_pos as Hp. unfold CopyReadableBufSafe. rewrite wrap_small by (unfold fits; lia).
  rewrite copy_pages_spec; [|done|lia|lia|lia|lia]. by replace (src + Z.min (length dest) len - src) with (Z.min (length dest) len) by lia.
Qed.
End Copying.

(** ** Walking the frame records *)
Section Walking.
Context (memory : Z → option Z).

Definition has_word_at (a w : Z) : Prop := is_Some (memory a) ∧ ∃ bs, word_at_addr memory a = Some bs ∧ of_le bs = w.
Lemma ReadUptrSafe_word a w : has_word_at a w → ReadUptrSafe memory a = Ret (Some w).
Proof. intros ([b Hb] & bs & E & <-). unfold ReadUptrSafe. by rewrite Hb, E. Qed.

(** Records of a stack: at each the caller's frame pointer and the return address.  The walk ends
    at memory that is not mapped, or at a record whose frame pointer does not rise. *)
Fixpoint fp_records (fp : Z) (l : list (Z * Z)) : Prop :=
  match l with
  | [] => memory fp = None ∨ ∃ next ra, has_word_at fp next ∧ has_word_at (fp + 8) ra ∧ (next <= fp ∨ next = 0)
  | (next, ra) :: l' => has_word_at fp next ∧ has_word_at (fp + 8) ra ∧ fp < next < 2 ^ 64 - 8 ∧ fp_records next l'
  end.
Definition call_pc (ra : Z) : Z := if 4 <? ra then ra - 4 else ra.
Definition record_pcs (pc : Z) (l : list (Z * Z)) : list Z := pc :: map (λ r, call_pc r.2) l.

(** Writing [fr] from position [index], the first [skip] positions left out. *)
Definition put_frames (index skip : nat) (fr pcs : list Z) : list Z :=
  take (index - skip) pcs ++ drop (skip - index) fr ++ drop (index + length fr - skip) pcs.

Lemma put_pc_spec index skip pc pcs : (index < skip + length pcs)%nat → put_pc pcs index skip pc = Ret (put_frames index skip [pc] pcs).
Proof.
  intros Hl. unfold put_pc, put_frames. destruct (Nat.leb_spec skip index) as [H|H].
  - destruct (Nat.ltb_spec (index - skip) (length pcs)); [|lia]. f_equal. rewrite insert_take_drop by lia. replace (skip - index)%nat with 0%nat by lia. cbn [drop length app].
    by replace (index + 1 - skip)%nat with (S (index - skip)) by lia.
  - replace (index - skip)%nat with 0%nat by lia. replace (index + length [pc] - skip)%nat with 0%nat by (cbn; lia). destruct (skip - index)%nat eqn:E; [lia|]. cbn. by rewrite drop_nil.
Qed.

Lemma put_frames_cons (index skip : nat) pc fr pcs : (index + length fr < skip + length pcs)%nat →
  put_frames (S index) skip fr (put_frames index skip [pc] pcs) = put_frames index skip (pc :: fr) pcs.
Proof.
  intros Hl. unfold put_frames. destruct (Nat.le_gt_cases skip index) as [H|H].
  - replace (skip - S index)%nat with 0%nat by lia. replace (skip - index)%nat with 0%nat by lia. cbn [drop length]. replace (S index - skip)%nat with (S (index - skip)) by lia.
    rewrite !(app_assoc (take (index - skip) pcs) [pc]). assert (HA : length (take (index - skip) pcs ++ [pc]) = S (index - skip)) by (rewrite length_app, length_take; cbn; lia).
    rewrite take_app_length' by done. rewrite <- app_assoc. f_equal. cbn [app]. f_equal. f_equal. rewrite drop_app_ge by lia. rewrite drop_drop, HA. f_equal. lia.
  - replace (S index - skip)%nat with 0%nat by lia. replace (index - skip)%nat with 0%nat by lia. cbn [take app length]. replace (index + 1 - skip)%nat with 0%nat by lia.
    replace (skip - index)%nat with (S (skip - S index)) by lia. cbn [drop]. rewrite drop_nil. cbn [app drop]. replace (S index + length fr - skip)%nat with (index + S (length fr) - skip)%nat by lia. done.
Qed.

Lemma put_frames_nil (index skip : nat) pcs : put_frames index skip [] pcs = pcs.
Proof. unfold put_frames. rewrite drop_nil. cbn [app length]. rewrite Nat.add_0_r. by rewrite take_drop. Qed.

Lemma unwind_safe_loop_spec (n index skip : nat) pc fp l pcs : fp_records fp l → 0 <= fp < 2 ^ 64 - 8 → (index + n <= skip + length pcs)%nat →
  let fr := take n (record_pcs pc l) in
  unwind_safe_loop memory n index skip pc fp pcs = Ret (put_frames index skip fr pcs, (index + length fr)%nat).
Proof.
  revert index pc fp l pcs. induction n as [|n IH]; intros index pc fp l pcs Hr Hfp Hl; [cbn; by rewrite put_frames_nil, Nat.add_0_r|]. cbn [unwind_safe_loop].
  rewrite put_pc_spec by lia. cbn [mbind outcome_mbind]. destruct l as [|[next ra] l]; cbn [fp_records] in Hr.
  - replace (take (S n) (record_pcs pc [])) with [pc] by (cbn; by rewrite take_nil). cbn [length]. replace (index + 1)%nat with (S index) by lia. destruct Hr as [Hr|(next & ra & H1 & H2 & H3)].
    + unfold ReadUptrSafe. by rewrite Hr.
    + rewrite (ReadUptrSafe_word _ _ H1). cbn [mbind outcome_mbind]. rewrite wrap_small by (unfold fits; lia). rewrite (ReadUptrSafe_word _ _ H2). cbn [mbind outcome_mbind].
      assert ((next <=? fp) || (next =? 0) = true) as -> by (apply orb_true_iff; rewrite Z.leb_le, Z.eqb_eq; lia). done.
  - destruct Hr as (H1 & H2 & H3 & Hr). rewrite (ReadUptrSafe_word _ _ H1). cbn [mbind outcome_mbind]. rewrite wrap_small by (unfold fits; lia). rewrite (ReadUptrSafe_word _ _ H2). cbn [mbind outcome_mbind].
    assert ((next <=? fp) || (next =? 0) = false) as -> by (apply orb_false_iff; rewrite Z.leb_gt, Z.eqb_neq; lia). change (if 4 <? ra then ra - 4 else ra) with (call_pc ra).
    assert (Hlen : length (put_frames index skip [pc] pcs) = length pcs) by (unfold put_frames; rewrite !length_app, length_take, !length_drop; cbn; lia).
    rewrite (IH (S index) _ _ l) by (done || lia). change (take (S n) (record_pcs pc ((next, ra) :: l))) with (pc :: take n (record_pcs (call_pc ra) l)).
    set (fr := take n _). assert (length fr <= n)%nat by (unfold fr; rewrite length_take; lia). rewrite put_frames_cons by lia. cbn [length]. do 2 f_equal. lia.
Qed.

(** The handler's walk.  It gives the pc of the thread and before each return address its call
    instruction, less the skipped ones, at most as many as asked for; the number returned is
    taken modulo 2^64, so a stack shorter than the skipped frames gives a huge one. *)
Lemma UnwindSafe_walks pc fp l pcs (max skip : nat) : fp_records fp l → 0 <= fp < 2 ^ 64 - 8 → (max <= skip + length pcs)%nat →
  let fr := take max (record_pcs pc l) in
  UnwindSafe memory true pc fp pcs max skip = Ret (drop skip fr ++ drop (length fr - skip) pcs, u64 (length fr - skip)).
Proof.
  intros Hr Hfp Hl fr. unfold UnwindSafe. cbn [negb]. rewrite (unwind_safe_loop_spec _ _ _ _ _ l) by (done || lia). cbn [mbind outcome_mbind]. unfold put_frames. cbn [take app Nat.sub]. by rewrite Nat.sub_0_r.
Qed.
End Walking.

(** ** What a request for a walked stack returns *)
Lemma run_labels_snoc {L S} (step : L → S → option (outcome S)) ls l s s' : run_labels step (ls ++ [l]) s = Some (Ret s') →
  ∃ s1, run_labels step ls s = Some (Ret s1) ∧ step l s1 = Some (Ret s').
Proof.
  revert s. induction ls as [|k ls IH]; intros s E; cbn in *.
  - destruct (step l s) as [[s1|u|]|] eqn:E1; [|done..]. injection E as ->. by exists s.
  - destruct (step k s) as [[s1|u|]|]; [|done..]. by apply IH.
Qed.

(** An interrupt of the thread since the last request for it. *)
Definition fresh (t : Z) (i : interrupt) (ls : list local_label) : Prop := ∃ ls1 ls2, ls = ls1 ++ LInterrupt t i :: ls2 ∧ LCollect t ∉ ls2.
Lemma fresh_snoc t i ls l : fresh t i ls → l ≠ LCollect t → fresh t i (ls ++ [l]).
Proof.
  intros (ls1 & ls2 & -> & Hn) Hl. exists ls1, (ls2 ++ [l]). split; [by rewrite <- app_assoc|]. intros [H|H]%elem_of_app; [done|]. apply list_elem_of_singleton in H. by subst.
Qed.

Definition outstanding (h : thread) : nat := (t_pending h + match t_handler h with Some _ => 1 | None => 0 end)%nat.
Definition busy_with (t : Z) (r : requester) : Prop :=
  match r with RSignal t' | RWait t' | RWaiting t' | RReturned t' true => t' = t | _ => False end.
(** The object has what the walk of an interrupt wrote. *)
Definition walked (i : interrupt) (c : ThreadContext) : Prop :=
  ∃ x tid, length (ctx_pcs x) = DEFAULT_MAX_LOCAL_FRAME_NUM ∧ walk_context i x = Ret (mkContext tid (ctx_pcs c) (frameSz c) (firstFrameSp c)).

(** The object of a thread, its handler and the requester. *)
Record context_ok (ls : list local_label) (t : Z) (r : requester) (h : thread) (c : ThreadContext) : Prop := {
  co_length : length (ctx_pcs c) = DEFAULT_MAX_LOCAL_FRAME_NUM;
  co_tid : 0 <= t ∧ (ctx_tid c = CONTEXT_UNUSED ∨ ctx_tid c = t);
  co_one : (outstanding h <= 1)%nat;
  co_used : outstanding h ≠ O → ctx_tid c = t;
  co_signal : r = RSignal t → outstanding h = O ∧ ctx_tid c = t;
  co_fresh i : busy_with t r → t_handler h = Some (HWalk i) → fresh t i ls;
  co_frames : busy_with t r → 0 < frameSz c → ∃ i, fresh t i ls ∧ walked i c
}.
Definition local_inv (ls : list local_label) (s : local_state) : Prop := ∀ t,
  match g_contextMap s !! t with
  | Some c => context_ok ls t (l_requester s) (thread_of t s) c
  | None => thread_of t s = thread_new ∧ ¬ busy_with t (l_requester s)
  end.

Lemma thread_of_set t t' h s : thread_of t (set_thread t' h s) = if decide (t = t') then h else thread_of t s.
Proof. unfold thread_of, set_thread. cbn. case_decide as E; [subst; by rewrite lookup_insert_eq|by rewrite lookup_insert_ne]. Qed.

(** A label that is not a request keeps what it does not touch. *)
Lemma context_ok_keep ls l t r r' h c : context_ok ls t r h c → l ≠ LCollect t → (busy_with t r' → busy_with t r) → (r' = RSignal t → r = RSignal t) → context_ok (ls ++ [l]) t r' h c.
Proof.
  intros [H1 H2 H3 H4 H5 H6 H7] Hl Hb Hs. split; [done..|by intros ?%Hs%H5| |].
  - intros i Hb' Hi. apply fresh_snoc; [|done]. by apply H6; [apply Hb|].
  - intros Hb' Hf. destruct (H7 (Hb Hb') Hf) as (i & Hi & Hw). exists i. split; [by apply fresh_snoc|done].
Qed.

Lemma context_ok_idle ls l t r r' h c : context_ok ls t r h c → ¬ busy_with t r' → context_ok (ls ++ [l]) t r' h c.
Proof. intros [H1 H2 H3 H4 H5 H6 H7] Hn. split; [done..| | |]; try done. intros ->. by destruct Hn. Qed.

(** What holds when only the requester moves on. *)
Lemma local_inv_requester ls l s r' : local_inv ls s → (∀ t, l ≠ LCollect t) → (∀ t, busy_with t r' → busy_with t (l_requester s)) → (∀ t, r' = RSignal t → l_requester s = RSignal t) →
  local_inv (ls ++ [l]) (set_requester r' s).
Proof.
  intros Hi Hl Hb Hs t. specialize (Hi t). change (thread_of t (set_requester r' s)) with (thread_of t s). cbn [set_requester g_contextMap l_requester].
  destruct (g_contextMap s !! t) as [c|]; [by eapply context_ok_keep; [exact Hi|..]; auto|]. destruct Hi as [H1 H2]. split; [done|]. by intros ?%Hb.
Qed.

(** What holds when the handler of one thread moves on. *)
Lemma local_inv_thread ls l s t h c : local_inv ls s → (∀ t, l ≠ LCollect t) → g_contextMap s !! t = Some c → context_ok (ls ++ [l]) t (l_requester s) h c →
  local_inv (ls ++ [l]) (set_thread t h s).
Proof.
  intros Hi Hl Hc Hok t'. rewrite thread_of_set. cbn [set_thread g_contextMap l_requester]. destruct (decide (t' = t)) as [->|Hne]; [by rewrite Hc|]. specialize (Hi t').
  destruct (g_contextMap s !! t') as [c'|]; [by eapply context_ok_keep; [exact Hi|..]; auto|done].
Qed.

Lemma local_inv_set ls s t c : local_inv ls s → context_ok ls t (l_requester s) (thread_of t s) c → local_inv ls (put_context t c s).
Proof.
  intros Hi Hok t'. change (thread_of t' (put_context t c s)) with (thread_of t' s). cbn [put_context g_contextMap l_requester].
  destruct (decide (t' = t)) as [->|Hne]; [by rewrite lookup_insert_eq|]. rewrite lookup_insert_ne by done. apply Hi.
Qed.

Lemma local_inv_get ls s t c : local_inv ls s → g_contextMap s !! t = Some c → context_ok ls t (l_requester s) (thread_of t s) c.
Proof. intros Hi Hc. specialize (Hi t). by rewrite Hc in Hi. Qed.

(** Handlers run only for threads that have an object. *)
Lemma local_inv_object ls s t : local_inv ls s → thread_of t s ≠ thread_new → ∃ c, g_contextMap s !! t = Some c.
Proof. intros Hi Hne. specialize (Hi t). destruct (g_contextMap s !! t) as [c|]; [by exists c|]. by destruct Hi. Qed.

Lemma collect_inv ls s tid s' : local_inv ls s → l_requester s = RIdle → local_step (LCollect tid) s = Some (Ret s') → local_inv (ls ++ [LCollect tid]) s'.
Proof.
  intros Hi Hr E. assert (Hidle : ∀ r', (∀ t, ¬ busy_with t r') → local_inv (ls ++ [LCollect tid]) (set_requester r' s)).
  { intros r' Hn t. specialize (Hi t). change (thread_of t (set_requester r' s)) with (thread_of t s). cbn [set_requester g_contextMap l_requester].
    destruct (g_contextMap s !! t) as [c|]; [by eapply context_ok_idle|]. destruct Hi. by split. }
  cbn in E. rewrite Hr in E. injection E as <-. destruct (Z.ltb_spec tid 0); [apply Hidle; by intros t ?|]. unfold GetContextLocked. specialize (Hi tid) as Ht.
  assert (Hnew : ∀ c', length (ctx_pcs c') = DEFAULT_MAX_LOCAL_FRAME_NUM → ctx_tid c' = tid → frameSz c' = 0 → outstanding (thread_of tid s) = O →
    local_inv (ls ++ [LCollect tid]) (set_requester (RSignal tid) (put_context tid c' s))).
  { intros c' Hl Ht' Hf Ho t. cbn [set_requester put_context g_contextMap l_requester]. change (thread_of t (set_requester _ _)) with (thread_of t s).
    destruct (decide (t = tid)) as [->|Hne].
    - rewrite lookup_insert_eq. split; [done|by split; [lia|right]|lia|done|done| |lia]. intros i _ Hh. unfold outstanding in Ho. rewrite Hh in Ho. lia.
    - rewrite lookup_insert_ne by done. specialize (Hi t). destruct (g_contextMap s !! t) as [c|]; [eapply context_ok_idle; [exact Hi|]|destruct Hi as [Hi _]; split; [done|]]; cbn; congruence. }
  destruct (g_contextMap s !! tid) as [c|] eqn:Ec.
  - destruct (Z.eqb_spec (ctx_tid c) CONTEXT_UNUSED) as [Hu|]; [|apply Hidle; by intros t ?]. apply Hnew; [apply Ht|done|done|]. destruct Ht as [_ _ _ Hused _ _ _].
    destruct (outstanding (thread_of tid s)) eqn:Eo; [done|]. rewrite Hused in Hu by done. unfold CONTEXT_UNUSED in Hu. lia.
  - destruct Ht as [Ht _]. apply Hnew; [done|done|done|]. by rewrite Ht.
Qed.

Lemma walk_length i x x' : length (ctx_pcs x) = DEFAULT_MAX_LOCAL_FRAME_NUM → walk_context i x = Ret x' → length (ctx_pcs x') = DEFAULT_MAX_LOCAL_FRAME_NUM ∧ ctx_tid x' = ctx_tid x.
Proof.
  intros Hl. unfold walk_context, UnwindSafe. destruct (i_pipe i); cbn [negb]; [|by intros [= <-]].
  assert (Hloop : ∀ n index skip pc fp pcs pcs' k, unwind_safe_loop (i_memory i) n index skip pc fp pcs = Ret (pcs', k) → length pcs' = length pcs).
  { induction n as [|n IH]; intros index skip pc fp pcs pcs' k E; cbn [unwind_safe_loop] in E; [by injection E as <-|].
    apply bind_Ret in E as (pcs1 & E1 & E). assert (length pcs1 = length pcs) as <- by (unfold put_pc in E1; repeat case_match; try done; injection E1 as <-; by rewrite ?length_insert).
    apply bind_Ret in E as ([next|] & _ & E); [|by injection E as <-]. apply bind_Ret in E as ([ra|] & _ & E); [|by injection E as <-]. case_match; [by injection E as <-|]. by eapply IH. }
  intros E. apply bind_Ret in E as ([pcs n] & E & [= <-]). apply bind_Ret in E as ([pcs1 k] & E & [= <- <-]). apply Hloop in E. cbn. split; [congruence|done].
Qed.

Lemma handler_inv ls l s n o t h c : local_inv ls s → (∀ t, l ≠ LCollect t) → g_contextMap s !! t = Some c → thread_of t s = mkThread n o →
  (outstanding h <= outstanding (mkThread n o))%nat → (∀ i, t_handler h = Some (HWalk i) → l = LInterrupt t i ∨ o = Some (HWalk i)) → local_inv (ls ++ [l]) (set_thread t h s).
Proof.
  intros Hi Hl Hc Ht Ho Hw. apply (local_inv_thread _ _ _ _ _ c); [done..|]. pose proof (local_inv_get _ _ _ _ Hi Hc) as Hok. rewrite Ht in Hok. destruct Hok as [H1 H2 H3 H4 H5 H6 H7]. split; [done|done|lia|..].
  - intros Hne. apply H4. lia.
  - intros Hr. destruct (H5 Hr) as [H H']. split; [lia|done].
  - intros i Hb [->|He]%Hw; [|apply fresh_snoc; [by apply H6|done]]. exists ls, []. split; [done|]. intros H. by apply elem_of_nil in H.
  - intros Hb Hf. destruct (H7 Hb Hf) as (i & Hfr & Hwk). exists i. split; [by apply fresh_snoc|done].
Qed.

(** The object released by the handler or after a signal that was not sent. *)
Lemma unuse_inv ls s t : local_inv ls s → outstanding (thread_of t s) = O → l_requester s ≠ RSignal t → local_inv ls (unuse t s).
Proof.
  intros Hi Ho Hr. unfold unuse. destruct (g_contextMap s !! t) as [c|] eqn:Ec; [|done]. apply local_inv_set; [done|]. destruct (local_inv_get _ _ _ _ Hi Ec) as [H1 H2 H3 H4 H5 H6 H7].
  split; cbn [ctx_pcs ctx_tid frameSz firstFrameSp]; [done|split; [lia|by left]|lia|lia|done|done|].
  intros Hb Hf. destruct (H7 Hb Hf) as (i & Hfr & x & tid & Hx & Hw). exists i. split; [done|]. by exists x, tid.
Qed.

Lemma walk_inv ls s t n i x x' : local_inv ls s → g_contextMap s !! t = Some x → thread_of t s = mkThread n (Some (HWalk i)) → walk_context i x = Ret x' →
  local_inv (ls ++ [LWalk t]) (set_thread t (mkThread n (Some HNotify)) (put_context t x' s)).
Proof.
  intros Hi Hx Ht Hw. pose proof (local_inv_get _ _ _ _ Hi Hx) as Hok. destruct (walk_length i x x' (co_length _ _ _ _ _ Hok) Hw) as [Hl Htid].
  assert (Hi' : local_inv ls (put_context t x' s)).
  { apply local_inv_set; [done|]. destruct Hok as [H1 H2 H3 H4 H5 H6 H7]. rewrite Ht in *. split; [done|by rewrite Htid|done|rewrite Htid; apply H4|rewrite Htid; apply H5|done|].
    intros Hb _. exists i. split; [by apply H6|]. exists x, (ctx_tid x'). split; [done|]. rewrite Hw. by destruct x'. }
  apply (handler_inv ls _ _ n (Some (HWalk i)) _ _ x'); [done|done|by apply lookup_insert_eq|done|done|]. intros j Hj. done.
Qed.

Lemma local_inv_step ls l s s' : local_inv ls s → local_step l s = Some (Ret s') → local_inv (ls ++ [l]) s'.
Proof.
  intros Hi E. destruct l as [tid|sent| | | | |t i|t|t|t|t]; cbn [local_step] in E.
  - destruct (l_requester s) eqn:Hr; try done. apply (collect_inv ls s tid s' Hi Hr). cbn. by rewrite Hr.
  - destruct sent, (l_requester s) as [|tid|tid|tid|tid ok] eqn:Hr; try done; injection E as <-; pose proof (Hi tid) as Ht.
    + destruct (g_contextMap s !! tid) as [c|] eqn:Ec; [|destruct Ht as [_ Hn]; rewrite Hr in Hn; by destruct Hn]. destruct Ht as [H1 H2 H3 H4 H5 H6 H7]. destruct (H5 Hr) as [H0 Htid].
      intros t. cbn [set_requester set_thread g_contextMap l_requester]. change (thread_of t (set_requester _ ?x)) with (thread_of t x). rewrite thread_of_set. specialize (Hi t).
      destruct (decide (t = tid)) as [->|Hne].
      * rewrite Ec. unfold outstanding in H0. destruct (t_handler (thread_of tid s)) eqn:Eh; [lia|]. split; [done..| | |done|done|]; unfold outstanding; cbn; [lia|done|].
        rewrite Hr in H7. intros Hb Hf. destruct (H7 eq_refl Hf) as (i & Hfr & Hw). exists i. split; [by apply fresh_snoc|done].
      * destruct (g_contextMap s !! t) as [c'|]; [by eapply context_ok_idle; [exact Hi|cbn; congruence]|]. destruct Hi as [Hi _]. split; [done|cbn; congruence].
    + destruct (g_contextMap s !! tid) as [c|] eqn:Ec; [|destruct Ht as [_ Hn]; rewrite Hr in Hn; by destruct Hn]. destruct (co_signal _ _ _ _ _ Ht Hr) as [H0 _].
      unfold set_requester. assert (Hu : local_inv ls (set_requester RIdle s)).
      { intros t. specialize (Hi t). change (thread_of t (set_requester RIdle s)) with (thread_of t s). cbn [set_requester g_contextMap l_requester].
        destruct (g_contextMap s !! t) as [c'|]; [|destruct Hi as [Hi _]; split; [done|by intros ?]]. destruct Hi as [A1 A2 A3 A4 A5 A6 A7]. split; try done; by intros ?. }
      assert (Hu2 : local_inv ls (unuse tid (set_requester RIdle s))) by by apply unuse_inv.
      pose proof (local_inv_requester ls (LSignal false) _ (RReturned tid false) Hu2) as HF. unfold unuse in *. cbn [set_requester g_contextMap] in *. rewrite Ec in *. apply HF; [done|by intros t ?|done].
  - destruct (l_requester s) eqn:Hr; try done. injection E as <-. apply local_inv_requester; [done|done| |done]. rewrite Hr. by intros t.
  - destruct (l_requester s) eqn:Hr; try done. injection E as <-. apply local_inv_requester; [done|done| |done]. rewrite Hr. by intros t.
  - destruct (l_requester s) eqn:Hr; try done. injection E as <-. apply local_inv_requester; [done|done| |done]. by intros t ?.
  - destruct (l_requester s) eqn:Hr; try done. injection E as <-. apply local_inv_requester; [done|done| |done]. by intros t ?.
  - destruct (thread_of t s) as [[|n] [h|]] eqn:Ht; try done. injection E as <-. destruct (local_inv_object ls s t Hi) as [c Hc]; [by rewrite Ht|].
    apply (handler_inv ls _ s (S n) None _ _ c); [done|done|done|done|cbn; lia|]. intros j [= ->]. by left.
  - destruct (thread_of t s) as [n [[i| |]|]] eqn:Ht; try done. destruct (g_contextMap s !! t) as [x|] eqn:Hx; [|done]. injection E as E. apply bind_Ret in E as (x' & Hw & [= <-]). by apply (walk_inv ls s t n i x x').
  - destruct (thread_of t s) as [n [[i| |]|]] eqn:Ht; try done. injection E as <-. destruct (local_inv_object ls s t Hi) as [c Hc]; [by rewrite Ht|].
    assert (Hn : local_inv (ls ++ [LNotify t]) (set_thread t (mkThread n (Some HRelease)) s)) by (apply (handler_inv ls _ s n (Some HNotify) _ _ c); done).
    destruct (l_requester s) as [|tid|tid|tid|tid ok] eqn:Hr; try done. destruct (Z.eqb_spec tid t) as [->|]; [|done]. intros t'. specialize (Hn t'). cbn [set_requester g_contextMap l_requester set_thread] in *.
    change (thread_of t' (set_requester _ ?y)) with (thread_of t' y). rewrite Hr in Hn. destruct (g_contextMap s !! t') as [c'|]; [|done]. destruct Hn as [A1 A2 A3 A4 A5 A6 A7]. by split.
  - destruct (thread_of t s) as [n [[i| |]|]] eqn:Ht; try done. injection E as <-. destruct (local_inv_object ls s t Hi) as [c Hc]; [by rewrite Ht|].
    pose proof (local_inv_get _ _ _ _ Hi Hc) as Hok. rewrite Ht in Hok. pose proof (co_one _ _ _ _ _ Hok) as H1. unfold outstanding in H1. cbn in H1. assert (n = O) as -> by lia.
    replace (set_thread t (mkThread 0 None) (unuse t s)) with (unuse t (set_thread t (mkThread 0 None) s)) by (unfold unuse; cbn [set_thread g_contextMap]; by destruct (g_contextMap s !! t)).
    apply unuse_inv; [by apply (handler_inv ls _ s O (Some HRelease) _ _ c); [..|cbn; lia|]|by rewrite thread_of_set, decide_True|]. intros Hr. by destruct (co_signal _ _ _ _ _ Hok Hr).
  - destruct (thread_of t s) as [n [h|]] eqn:Ht; try done. injection E as <-. destruct (g_contextMap s !! t) as [c|] eqn:Hc.
    + apply (handler_inv ls _ s n None _ _ c); [done|done|done|done|cbn; lia|done].
    + intros t'. rewrite thread_of_set. specialize (Hi t'). cbn [set_thread g_contextMap l_requester]. case_decide as Hd; [subst t'; rewrite Hc in *; destruct Hi; by split|].
      destruct (g_contextMap s !! t') as [c'|]; [by eapply context_ok_keep; [exact Hi|..]; auto|done].
Qed.

Lemma local_inv_run ls s : run_labels local_step ls local_init = Some (Ret s) → local_inv ls s.
Proof.
  revert s. induction ls as [|l ls IH] using rev_ind; intros s E.
  - injection E as <-. intros t. cbn. rewrite lookup_empty. split; [done|by intros ?].
  - apply run_labels_snoc in E as (s1 & E1 & E2). apply (local_inv_step ls l s1 s (IH s1 E1) E2).
Qed.

(** C22. The frames of a request for a walked stack.  When [UnwindLocalWithTid] succeeds, whatever
    threads were asked before and whichever handlers are late, the pcs it gives are those of the
    thread asked for, at a signal taken since the request was made. *)
Theorem UnwindLocalWithTid_fresh ls s max skip pcs : run_labels local_step ls local_init = Some (Ret s) → UnwindLocalWithTid (Z.of_nat max) (Z.of_nat skip) s = Some pcs → max + skip < 2 ^ 63 →
  ∃ tid i, l_requester s = RReturned tid true ∧ fresh tid i ls ∧
    ∀ l, i_pipe i = true → fp_records (i_memory i) (i_fp i) l → 0 <= i_fp i < 2 ^ 64 - 8 →
      pcs = take max (drop skip (take DEFAULT_MAX_LOCAL_FRAME_NUM (record_pcs (i_pc i) l))).
Proof.
  intros Hrun E Hm. pose proof (local_inv_run ls s Hrun) as Hi. unfold UnwindLocalWithTid in E. destruct (l_requester s) as [| | | |tid []] eqn:Hr; try done. specialize (Hi tid).
  destruct (g_contextMap s !! tid) as [c|]; [|done]. destruct (Z.ltb_spec 0 (frameSz c)) as [Hf|]; [|done]. rewrite Hr in Hi. destruct (co_frames _ _ _ _ _ Hi eq_refl Hf) as (i & Hfr & x & tid' & Hx & Hw).
  exists tid, i. split; [done|]. split; [done|]. intros l Hp Hl Hfp. unfold walk_context in Hw. rewrite Hp in Hw. rewrite (UnwindSafe_walks _ _ _ l) in Hw; [|done|done|by rewrite Hx].
  set (fr := take DEFAULT_MAX_LOCAL_FRAME_NUM (record_pcs (i_pc i) l)) in *. assert (Hlen : (length fr <= 32)%nat) by (unfold fr; rewrite length_take; unfold DEFAULT_MAX_LOCAL_FRAME_NUM; lia).
  clearbody fr. cbn [drop mbind outcome_mbind] in Hw. injection Hw as _ Hpcs Hsz _. rewrite wrap_small in Hsz by (unfold fits; lia). injection E as <-. rewrite <- Hpcs, <- Hsz.
  rewrite (wrap_small 64 (Z.of_nat skip + Z.of_nat max)) by (unfold fits; lia). rewrite !Nat2Z.id.
  destruct (Nat.le_gt_cases (length fr) skip) as [Hs|Hs].
  - rewrite (drop_ge fr skip) by lia. rewrite take_nil. by replace (_ - skip)%nat with 0%nat by lia.
  - rewrite drop_0, drop_app_le by lia. rewrite take_app_le by (rewrite length_drop; lia). apply list_eq. intros j. rewrite !lookup_take. repeat case_decide; try done; try lia.
    symmetry. apply lookup_ge_None_2. rewrite length_drop. lia.
Qed.

(** A thread with two frame records above 0x1000. *)
Definition sample_records : list Z := le_bytes 8 0x1010 ++ le_bytes 8 0x2004 ++ le_bytes 8 0 ++ le_bytes 8 0x3004.
Definition frame_memory (a : Z) : option Z := if a <? 0x1000 then None else sample_records !! Z.to_nat (a - 0x1000).
Definition sample_interrupt : interrupt := mkInterrupt 0x5000 0xff0 0x1000 0 0 frame_memory true None.

Lemma UnwindLocalWithTid_fresh_witness : ∃ s, run_labels local_step [LCollect 7; LSignal true; LWait; LInterrupt 7 sample_interrupt; LWalk 7; LNotify 7] local_init = Some (Ret s) ∧
  UnwindLocalWithTid (Z.of_nat 8) (Z.of_nat 1) s = Some [0x2000] ∧ ∃ i, fresh 7 i [LCollect 7; LSignal true; LWait; LInterrupt 7 sample_interrupt; LWalk 7; LNotify 7].
Proof.
  eexists. split; [vm_compute; reflexivity|]. split; [vm_compute; reflexivity|].
  destruct (UnwindLocalWithTid_fresh [LCollect 7; LSignal true; LWait; LInterrupt 7 sample_interrupt; LWalk 7; LNotify 7] _ 8 1 [0x2000] ltac:(vm_compute; reflexivity) ltac:(vm_compute; reflexivity)
    ltac:(vm_compute; reflexivity)) as (tid & i & Hr & Hfr & _). vm_compute in Hr. injection Hr as <-. by exists i.
Defined.

(** Forward over a run. *)
Lemma run_labels_inv {L S} (step : L → S → option (outcome S)) (P : L → Prop) (I : S → Prop) ls s s' :
  (∀ l s s', P l → I s → step l s = Some (Ret s') → I s') → Forall P ls → I s → run_labels step ls s = Some (Ret s') → I s'.
Proof.
  intros Hstep Hls. revert s. induction Hls as [|l ls Hl Hls IH]; intros s Hi E; cbn in E; [by injection E as <-|].
  destruct (step l s) as [[s1|u|]|] eqn:E1; [|done..]. by apply (IH s1), E; apply (Hstep l s).
Qed.

(** A wake-up that is lost.  If the handler is done before the requester starts to wait, which
    nothing prevents, nobody wakes the requester: unless it wakes up for no reason, the request
    ends with the timeout although the frames are there. *)
Theorem lost_wakeup ls s s' t : l_requester s = RWait t → thread_of t s = thread_new → Forall (λ l, l ≠ LWake ∧ l ≠ LTake) ls → run_labels local_step ls s = Some (Ret s') →
  l_requester s' ≠ RReturned t true.
Proof.
  intros Hr Ht Hls E. set (I := λ s, (l_requester s = RWait t ∨ l_requester s = RWaiting t ∨ l_requester s = RReturned t false) ∧ thread_of t s = thread_new).
  assert (H : I s'); [|destruct H as [[H|[H|H]] _]; by rewrite H]. apply (run_labels_inv local_step (λ l, l ≠ LWake ∧ l ≠ LTake) I ls s s'); [|done|split; auto|done]. clear. unfold I. intros l s s' [Hw Hk] [Hr Ht] E. destruct l as [tid|sent| | | | |t' i|t'|t'|t'|t']; cbn [local_step] in E.
  - by destruct Hr as [Hr|[Hr|Hr]]; rewrite Hr in E.
  - by destruct sent, Hr as [Hr|[Hr|Hr]]; rewrite Hr in E.
  - destruct Hr as [Hr|[Hr|Hr]]; rewrite Hr in E; try done. injection E as <-. by split; [right; left|].
  - done.
  - destruct Hr as [Hr|[Hr|Hr]]; rewrite Hr in E; try done. injection E as <-. by split; [right; right|].
  - done.
  - destruct (thread_of t' s) as [[|n] [h|]] eqn:E1; try done. injection E as <-. assert (t ≠ t') by (intros ->; by rewrite Ht in E1). by rewrite thread_of_set, decide_False.
  - destruct (thread_of t' s) as [n [[i| |]|]] eqn:E1; try done. destruct (g_contextMap s !! t') as [x|]; [|done]. injection E as E. apply bind_Ret in E as (x' & _ & [= <-]). assert (t ≠ t') by (intros ->; by rewrite Ht in E1).
    by rewrite thread_of_set, decide_False.
  - destruct (thread_of t' s) as [n [[i| |]|]] eqn:E1; try done. injection E as <-. assert (t ≠ t') by (intros ->; by rewrite Ht in E1).
    destruct Hr as [Hr|[Hr|Hr]]; rewrite Hr; try (rewrite thread_of_set, decide_False by done; cbn; by auto).
    destruct (Z.eqb_spec t t'); [done|]. rewrite thread_of_set, decide_False by done. cbn. by auto.
  - destruct (thread_of t' s) as [n [[i| |]|]] eqn:E1; try done. injection E as <-. rewrite thread_of_set. assert (t ≠ t') by (intros ->; by rewrite Ht in E1). rewrite decide_False by done.
    unfold unuse. by destruct (g_contextMap s !! t').
  - destruct (thread_of t' s) as [n [h|]] eqn:E1; try done. injection E as <-. rewrite thread_of_set. by case_decide.
Qed.

(** The state after a run from the beginning. *)
Definition after (ls : list local_label) : local_state := match run_labels local_step ls local_init with Some (Ret s) => s | _ => local_init end.
Definition done_early : list local_label := [LCollect 7; LSignal true; LInterrupt 7 sample_interrupt; LWalk 7; LNotify 7; LRelease 7].

Lemma lost_wakeup_witness : run_labels local_step done_early local_init = Some (Ret (after done_early)) ∧ (frameSz <$> g_contextMap (after done_early) !! 7) = Some 2 ∧
  run_labels local_step [LWait; LTimeout] (after done_early) = Some (Ret (after (done_early ++ [LWait; LTimeout]))) ∧ l_requester (after (done_early ++ [LWait; LTimeout])) ≠ RReturned 7 true.
Proof.
  split; [vm_compute; reflexivity|]. split; [vm_compute; reflexivity|]. split; [vm_compute; reflexivity|].
  apply (lost_wakeup [LWait; LTimeout] (after done_early)); [vm_compute; reflexivity|vm_compute; reflexivity|by repeat constructor|vm_compute; reflexivity].
Defined.

(** A thread that ends with a signal it has not taken leaves its object in use for ever: every
    later request for a thread with its id is refused. *)
Theorem exited_thread_stuck ls s s' t c : 0 <= t → g_contextMap s !! t = Some c → ctx_tid c = t → thread_of t s = thread_new → l_requester s ≠ RSignal t →
  run_labels local_step ls s = Some (Ret s') → l_requester s' = RIdle → local_step (LCollect t) s' = Some (Ret (set_requester (RReturned t false) s')).
Proof.
  intros H0 Hc Htid Ht Hr E Hidle. set (I := λ s, (∃ c, g_contextMap s !! t = Some c ∧ ctx_tid c = t) ∧ thread_of t s = thread_new ∧ l_requester s ≠ RSignal t).
  assert (H : I s').
  { apply (run_labels_inv local_step (λ _, True) I ls s s'); [|by apply list.Forall_true|by unfold I; eauto|done]. clear - H0. unfold I. intros l s s' _ ((c & Hc & Htid) & Ht & Hr) E.
    destruct l as [tid|sent| | | | |t' i|t'|t'|t'|t']; cbn [local_step] in E.
    - destruct (l_requester s) eqn:Er; try done. injection E as <-. destruct (Z.ltb_spec tid 0); [by cbn; eauto|]. unfold GetContextLocked. destruct (decide (tid = t)) as [->|Hne].
      + rewrite Hc. destruct (Z.eqb_spec (ctx_tid c) CONTEXT_UNUSED) as [Hu|]; [unfold CONTEXT_UNUSED in Hu; lia|by cbn; eauto].
      + destruct (g_contextMap s !! tid) as [c'|]; [destruct (_ =? _)|]; cbn; rewrite ?lookup_insert_ne by done; split_and!; eauto; congruence.
    - destruct sent, (l_requester s) as [|tid|tid|tid|tid ok] eqn:Er; try done; injection E as <-; assert (tid ≠ t) by congruence.
      + split; [by cbn; eauto|]. split; [|done]. change (thread_of t (set_requester _ ?x)) with (thread_of t x). by rewrite thread_of_set, decide_False.
      + unfold unuse. destruct (g_contextMap s !! tid) as [c'|]; cbn; rewrite ?lookup_insert_ne by done; by eauto.
    - destruct (l_requester s); try done. injection E as <-. by cbn; eauto.
    - destruct (l_requester s); try done. injection E as <-. by cbn; eauto.
    - destruct (l_requester s); try done. injection E as <-. by cbn; eauto.
    - destruct (l_requester s); try done. injection E as <-. by cbn; eauto.
    - destruct (thread_of t' s) as [[|n] [h|]] eqn:E1; try done. injection E as <-. assert (t ≠ t') by (intros ->; by rewrite Ht in E1). rewrite thread_of_set, decide_False by done. by cbn; eauto.
    - destruct (thread_of t' s) as [n [[i| |]|]] eqn:E1; try done. destruct (g_contextMap s !! t') as [x|]; [|done]. injection E as E. apply bind_Ret in E as (x' & _ & [= <-]). assert (t ≠ t') by (intros ->; by rewrite Ht in E1).
      rewrite thread_of_set, decide_False by done. cbn. rewrite lookup_insert_ne by done. by eauto.
    - destruct (thread_of t' s) as [n [[i| |]|]] eqn:E1; try done. injection E as <-. assert (t ≠ t') by (intros ->; by rewrite Ht in E1).
      destruct (l_requester s) eqn:Er; try destruct (_ =? _); cbn; (change (thread_of t (set_requester _ ?x)) with (thread_of t x) || idtac); rewrite thread_of_set, decide_False by done; rewrite ?Er; by eauto.
    - destruct (thread_of t' s) as [n [[i| |]|]] eqn:E1; try done. injection E as <-. assert (t ≠ t') by (intros ->; by rewrite Ht in E1). rewrite thread_of_set, decide_False by done.
      unfold unuse. destruct (g_contextMap s !! t') as [c'|]; cbn; rewrite ?lookup_insert_ne by done; by eauto.
    - destruct (thread_of t' s) as [n [h|]] eqn:E1; try done. injection E as <-. rewrite thread_of_set. case_decide; by cbn; eauto. }
  destruct H as ((c' & Hc' & Htid') & _). cbn [local_step]. rewrite Hidle. unfold GetContextLocked. rewrite Hc'. destruct (Z.ltb_spec t 0); [done|].
  destruct (Z.eqb_spec (ctx_tid c') CONTEXT_UNUSED) as [Hu|]; [unfold CONTEXT_UNUSED in Hu; lia|done].
Qed.

Lemma exited_thread_stuck_witness : run_labels local_step [LCollect 7; LSignal true; LExit 7; LWait; LTimeout; LTake] local_init = Some (Ret (after [LCollect 7; LSignal true; LExit 7; LWait; LTimeout; LTake])) ∧
  ∀ ls s', run_labels local_step ls (after [LCollect 7; LSignal true; LExit 7; LWait; LTimeout; LTake]) = Some (Ret s') → l_requester s' = RIdle →
    local_step (LCollect 7) s' = Some (Ret (set_requester (RReturned 7 false) s')).
Proof.
  split; [vm_compute; reflexivity|]. intros ls s' E Hr.
  apply (exited_thread_stuck ls (after [LCollect 7; LSignal true; LExit 7; LWait; LTimeout; LTake]) s' 7 (mkContext 7 (replicate 32 0) 0 0));
    [done|vm_compute; reflexivity|reflexivity|vm_compute; reflexivity|vm_compute; congruence|exact E|exact Hr].
Defined.

(** ** What a request for a copied stack returns *)

(** Reading the copied stack never leaves the buffer, whatever the object holds. *)
Lemma AccessMem_in_buffer file_word addr x : returns (AccessMem file_word addr x).
Proof.
  unfold AccessMem. repeat (case_match; try by eexists). exfalso. zbool. repeat match goal with H : _ || _ = false |- _ => apply orb_false_iff in H as [? ?] end. zbool. rewrite Nat.ltb_ge in *. lia.
Qed.


Section Mix.
Context (pid k : Z) (Hk : 0 <= k < 63).
Let pageSize : Z := 2 ^ k.

(** The memory of an interrupted thread is mapped in pages; the copy does not reach the end of the
    address space. *)
Record interrupt_ok (c : interrupt) : Prop := {
  io_pages : page_uniform k (i_memory c);
  io_sp : 0 <= i_sp c ∧ i_sp c + STACK_BUFFER_SIZE + pageSize < 2 ^ 64
}.
Definition handler_interrupt (h : mix_handler) : interrupt := match h with MCheck c | MRange c | MRegs c | MTest c | MCopy c _ => c end.
(** The handler has passed the check of the request. *)
Definition past_check (h : mix_handler) : Prop := match h with MCheck _ => False | _ => True end.
Definition quiet (s : mix_state) : Prop := ∀ t h, mt_handler (mix_thread_of t s) = Some h → ¬ past_check h.

(** Runs in which no handler is past its check when a request starts. *)
Inductive mix_reach : list mix_label → mix_state → Prop :=
| mix_reach_init : mix_reach [] mix_init
| mix_reach_step ls l s s' : mix_reach ls s → mix_step pid pageSize l s = Some (Ret s') → (∀ tid main, l = QStart tid main → quiet s) →
    (∀ t c, l = MInterrupt t c → interrupt_ok c) → mix_reach (ls ++ [l]) s'.

Definition active_thread (r : mix_requester) : option Z :=
  match r with QIdle => None | QSignal t | QWait t | QWaiting t | QCheck t | QReturned t _ => Some t end.
Definition registers_of (c : interrupt) : Z * Z * Z * Z * Z := (i_sp c, i_pc c, i_fp c, i_lr c, i_x20 c).

(** The copy was made in this request by the handler of the thread, interrupted with [c]. *)
Definition collected (t : Z) (c : interrupt) (ls : list mix_label) : Prop := ∃ ls1 s1 cpySz ls2, ls = ls1 ++ MStep t :: ls2 ∧
  mix_reach ls1 s1 ∧ mt_handler (mix_thread_of t s1) = Some (MCopy c cpySz) ∧ ∀ tid main, QStart tid main ∉ ls2.
Lemma collected_snoc t c ls l : collected t c ls → (∀ tid main, l ≠ QStart tid main) → collected t c (ls ++ [l]).
Proof.
  intros (ls1 & s1 & z & ls2 & -> & H1 & H2 & H3) Hl. exists ls1, s1, z, (ls2 ++ [l]). split; [by rewrite <- app_assoc|]. split; [done|]. split; [done|].
  intros tid main [H|H]%elem_of_app; [by apply (H3 tid main)|]. apply list_elem_of_singleton in H. by apply (Hl tid main).
Qed.

(** The object has the stack of an interrupted thread. *)
Record has_stack (c : interrupt) (x : LocalThreadContextMix) : Prop := {
  hs_regs : SetRegister x = registers_of c;
  hs_some : (0 < stackCopiedLen_ x <= STACK_BUFFER_SIZE)%nat;
  hs_bytes : take (stackCopiedLen_ x) (stackBuf_ x) = readable_bytes (i_memory c) (stackCopiedLen_ x) (i_sp c);
  hs_all : length (readable_bytes (i_memory c) (stackCopiedLen_ x) (i_sp c)) = stackCopiedLen_ x;
  hs_ok : interrupt_ok c
}.

Record busy_ok (ls : list mix_label) (tid : Z) (s : mix_state) : Prop := {
  bo_tid : x_tid (mix s) = tid ∧ length (stackBuf_ (mix s)) = STACK_BUFFER_SIZE;
  bo_other t h : mt_handler (mix_thread_of t s) = Some h → past_check h → t = tid ∧ x_status (mix s) = WAIT_CTX;
  bo_regs h : mt_handler (mix_thread_of tid s) = Some h → match h with MTest c => SetRegister (mix s) = registers_of c | MCopy c z => SetRegister (mix s) = registers_of c ∧ 0 <= z <= STACK_BUFFER_SIZE | _ => True end;
  bo_success : x_status (mix s) = COPY_SUCCESS → ∃ c, collected tid c ls ∧ has_stack c (mix s);
  bo_result : m_requester s = QReturned tid true → x_status (mix s) = COPY_SUCCESS
}.
Record mix_inv (ls : list mix_label) (s : mix_state) : Prop := {
  mi_forward : stackForward_ (mix s) = 0;
  mi_ok t h : mt_handler (mix_thread_of t s) = Some h → interrupt_ok (handler_interrupt h);
  mi_busy tid : active_thread (m_requester s) = Some tid → busy_ok ls tid s
}.

Lemma mix_thread_of_set t t' h x r s : mix_thread_of t (mkMixState x (<[t' := h]> (m_threads s)) r) = if decide (t = t') then h else mix_thread_of t s.
Proof. unfold mix_thread_of. cbn. case_decide as E; [subst; by rewrite lookup_insert_eq|by rewrite lookup_insert_ne]. Qed.

(** The requester moves on for the same thread. *)
Lemma mix_inv_requester ls l s r' : mix_inv ls s → (∀ tid main, l ≠ QStart tid main) → active_thread r' = active_thread (m_requester s) →
  (∀ tid, r' = QReturned tid true → x_status (mix s) = COPY_SUCCESS) → mix_inv (ls ++ [l]) (set_mix_requester r' s).
Proof.
  intros [H1 H2 H3] Hl Ha Hr. split; [done|done|]. cbn. intros tid Ht. rewrite Ha in Ht. destruct (H3 tid Ht) as [B1 B2 B3 B4 B5]. split; [done..| |by apply Hr].
  intros Hs. destruct (B4 Hs) as (c & Hc & Hst). exists c. split; [by apply collected_snoc|done].
Qed.

Lemma copy_stack_spec c z x x' : interrupt_ok c → length (stackBuf_ x) = STACK_BUFFER_SIZE → SetRegister x = registers_of c → 0 <= z <= STACK_BUFFER_SIZE → copy_stack pageSize c z x = Ret x' →
  (x_tid x' = x_tid x ∧ x_maps x' = x_maps x ∧ stackForward_ x' = stackForward_ x ∧ length (stackBuf_ x') = STACK_BUFFER_SIZE) ∧ (x_status x' = COPY_SUCCESS → has_stack c x').
Proof.
  intros Hok Hl Hr Hz E. pose proof Hr as Hr'. unfold SetRegister, registers_of in Hr'. injection Hr' as Hsp _ _ _ _. unfold copy_stack in E. apply bind_Ret in E as ([buf n] & E & [= <-]). cbn [x_tid x_maps stackForward_ stackBuf_ x_status].
  assert (HP : length buf = STACK_BUFFER_SIZE ∧ ((0 < n)%nat → has_stack c (mkMix (x_pc x) (x_sp x) (x_fp x) (x_lr x) (bytecodePc_ x) (stackBottom_ x) (stackTop_ x) buf n (x_tid x) COPY_SUCCESS (x_maps x) (stackForward_ x)))).
  { destruct (i_pipe c).
    - destruct Hok as [Hpages [Hs0 Hs1]]. rewrite (CopyReadableBufSafe_spec k (i_memory c) ltac:(lia)) in E; [|done|lia|lia|rewrite Hl, Hsp; fold pageSize; lia|rewrite Hl; lia].
      set (bs := readable_bytes _ _ _) in E. injection E as <- <-. assert (Hb : (length bs <= STACK_BUFFER_SIZE)%nat) by (unfold bs; pose proof (length_readable (i_memory c) (Z.to_nat (Z.min (length (stackBuf_ x)) z)) (x_sp x)); lia).
      split; [rewrite length_app, length_drop; lia|]. intros Hn. split; cbn; [done|lia| | |done].
      + rewrite take_app_length. unfold bs. rewrite Hsp. symmetry. apply readable_prefix.
      + rewrite <- Hsp. unfold bs. by rewrite readable_prefix.
    - assert (buf = stackBuf_ x ∧ n = O) as [-> ->]; [|split; [done|lia]]. unfold CopyReadableBufSafe in E. cbn [copy_pages] in E. destruct (_ <? _); cbn in E; by injection E as <- <-. }
  destruct HP as [HL HS]. split; [done|]. destruct (Nat.ltb_spec 0 n); [by intros _; apply HS|done].
Qed.

(** A step of a handler, seen from the request that runs. *)
Lemma handler_step_busy ls t n h s x' h' nt tid r' : mix_inv ls s → mix_reach ls s → active_thread (m_requester s) = Some tid → mix_thread_of t s = mkMixThread n (Some h) → handler_step pid pageSize t h (mix s) = Ret (x', h', nt) →
  active_thread r' = Some tid → (r' = QReturned tid true → m_requester s = QReturned tid true) → busy_ok (ls ++ [MStep t]) tid (mkMixState x' (<[t := mkMixThread n h']> (m_threads s)) r').
Proof.
  intros [HF HO HB] Hreach Ha Ht E Ha' Hr'. destruct (HB tid Ha) as [B1 B2 B3 B4 B5]. assert (Hh : mt_handler (mix_thread_of t s) = Some h) by by rewrite Ht.
  assert (Hsnoc : x_status (mix s) = COPY_SUCCESS → ∃ c, collected tid c (ls ++ [MStep t]) ∧ has_stack c (mix s)).
  { intros Hs. destruct (B4 Hs) as (c & Hc & Hst). exists c. split; [by apply collected_snoc|done]. }
  (* a step that changes neither the status nor, with a copied stack, anything else *)
  assert (Hplain : ∀ x1 h1, x_tid x1 = x_tid (mix s) → stackBuf_ x1 = stackBuf_ (mix s) → x_status x1 = x_status (mix s) →
    (x_status (mix s) = COPY_SUCCESS → x1 = mix s) → (∀ h, h1 = Some h → past_check h → t = tid ∧ x_status (mix s) = WAIT_CTX) →
    (t = tid → match h1 with Some (MTest c) => SetRegister x1 = registers_of c | Some (MCopy c z) => SetRegister x1 = registers_of c ∧ 0 <= z <= STACK_BUFFER_SIZE | _ => True end) →
    (t ≠ tid → SetRegister x1 = SetRegister (mix s)) → busy_ok (ls ++ [MStep t]) tid (mkMixState x1 (<[t := mkMixThread n h1]> (m_threads s)) r')).
  { intros x1 h1 E1 E3 E4 E5 E6 E7 E8. split; cbn [mix m_requester].
    - by rewrite E1, E3.
    - intros t' h0. rewrite mix_thread_of_set, E4. case_decide as Hd; [subst t'; cbn; intros -> Hp; by apply (E6 h0)|apply B2].
    - intros h0. rewrite mix_thread_of_set. case_decide as Hd; [subst t; cbn; intros ->; by apply E7|]. intros H0. specialize (B3 h0 H0). rewrite (E8 (not_eq_sym Hd)). exact B3.
    - rewrite E4. intros Hs. rewrite (E5 Hs). by apply Hsnoc.
    - intros Hq. rewrite E4. by apply B5, Hr'. }
  assert (Hpast : past_check h → t = tid ∧ x_status (mix s) = WAIT_CTX) by by apply B2.
  destruct h as [c|c|c|c|c z]; cbn [handler_step] in E.
  - injection E as <- <- <-. destruct (CheckStatusValidate WAIT_CTX t (mix s)) eqn:Ec; [|apply Hplain; done]. unfold CheckStatusValidate in Ec. apply andb_true_iff in Ec as [Ec1 Ec2]. apply bool_decide_eq_true in Ec1. apply Z.eqb_eq in Ec2.
    destruct B1 as [B1 _]. apply Hplain; try done; [intros h0 _ _; split; [congruence|done]|by destruct (t =? pid)].
  - destruct (Hpast I) as [-> Hs]. destruct (i_range c) as [[b top]|]; injection E as <- <- <-; apply Hplain; try done; congruence.
  - destruct (Hpast I) as [-> Hs]. injection E as <- <- <-. apply Hplain; try done; congruence.
  - destruct (Hpast I) as [-> Hs]. injection E as <- <- <-. apply Hplain; try done; intros _.
    + specialize (B3 _ Hh). cbn in B3. destruct (Z.leb_spec (stackTop_ (mix s)) (x_sp (mix s))); [done|]. split; [done|lia].
  - destruct (Hpast I) as [-> Hs]. apply bind_Ret in E as (x1 & E & [= <- <- <-]). destruct B1 as (B1 & Hl). destruct (B3 _ Hh) as [Hregs Hz].
    destruct (copy_stack_spec c z (mix s) x1 (HO _ _ Hh) Hl Hregs Hz E) as ((T1 & T2 & T3 & T4) & HS). split; cbn [mix m_requester].
    + by rewrite T1.
    + intros t' h0. rewrite mix_thread_of_set. case_decide as Hd; [done|]. intros H0 Hp. by destruct (B2 t' h0 H0 Hp) as [-> _].
    + intros h0. by rewrite mix_thread_of_set, decide_True.
    + intros Hc. exists c. split; [|by apply HS]. exists ls, s, z, []. split; [done|]. split; [done|]. split; [done|]. intros ? ? H0. by apply elem_of_nil in H0.
    + intros Hq. apply Hr', B5 in Hq. congruence.
Qed.

Lemma handler_step_ok t h x x' h' nt : handler_step pid pageSize t h x = Ret (x', Some h', nt) → handler_interrupt h' = handler_interrupt h.
Proof.
  destruct h as [c|c|c|c|c z]; cbn [handler_step]; intros E; repeat case_match; try done; try (by injection E as <- <- <-). by apply bind_Ret in E as (x1 & _ & E).
Qed.
Lemma handler_step_forward t h x x' h' nt : handler_step pid pageSize t h x = Ret (x', h', nt) → stackForward_ x' = stackForward_ x.
Proof.
  destruct h as [c|c|c|c|c z]; cbn [handler_step]; intros E; repeat case_match; try (by injection E as <- <- <-). apply bind_Ret in E as (x1 & E1 & [= <- <- <-]).
  unfold copy_stack in E1. by apply bind_Ret in E1 as ([buf n] & _ & [= <-]).
Qed.

Lemma mix_inv_step ls l s s' : mix_inv ls s → mix_reach ls s → mix_step pid pageSize l s = Some (Ret s') → (∀ tid main, l = QStart tid main → quiet s) → (∀ t c, l = MInterrupt t c → interrupt_ok c) →
  mix_inv (ls ++ [l]) s'.
Proof.
  intros Hi Hreach E Hq Hio. destruct l as [tid main|sent| | | | | |t c|t]; cbn [mix_step] in E.
  - destruct (m_requester s) eqn:Hr; try done. specialize (Hq tid main eq_refl). destruct Hi as [HF HO _].
    assert (Hstart : ∀ x, stackForward_ x = 0 → mix_inv (ls ++ [QStart tid main]) (mkMixState (StartCollectThreadContext tid (snd main) x) (m_threads s) (QSignal tid))).
    { intros x Hx. split; [done|done|]. intros tid' [= <-]. split; [|by intros t h Ht Hp; destruct (Hq t h)| |done|done]; cbn.
      - split; [done|]. unfold resize_buf. rewrite length_app, length_take, length_replicate. lia.
      - intros h Hh. specialize (Hq tid h Hh). by destruct h; try (by destruct Hq). }
    destruct (tid <? 0); [injection E as <-; by split; [..|rewrite Hr]|].
    destruct (Z.eqb_spec tid pid) as [->|]; [|injection E as <-; by apply Hstart]. destruct (fst main) as [[b top]|]; injection E as <-; [by apply Hstart|].
    split; [done|done|]. rewrite Hr. done.
  - destruct sent, (m_requester s) as [|tid|tid|tid|tid|tid ok] eqn:Hr; try done; injection E as <-; [|apply mix_inv_requester; [done|done|by rewrite Hr|done]].
    destruct Hi as [HF HO HB]. destruct (mix_thread_of tid s) as [n o] eqn:Ht.
    assert (Hsame : ∀ t, mt_handler (mix_thread_of t (set_mix_requester (QWait tid) (set_mix_thread tid (mkMixThread (S n) o) s))) = mt_handler (mix_thread_of t s)).
    { intros t. unfold set_mix_requester, set_mix_thread. cbn [mix m_threads m_requester]. rewrite mix_thread_of_set. case_decide as Hd; [subst t; by rewrite Ht|done]. }
    split; [done|intros t h; rewrite Hsame; apply HO|]. intros tid' [= <-]. destruct (HB tid) as [B1 B2 B3 B4 B5]; [by rewrite Hr|].
    split; [done|intros t h; rewrite Hsame; apply B2|intros h; rewrite Hsame; apply B3| |done]. intros Hs. destruct (B4 Hs) as (c & Hc & Hst). exists c. split; [by apply collected_snoc|done].
  - destruct (m_requester s) eqn:Hr; try done. injection E as <-. apply mix_inv_requester; [done|done|by rewrite Hr|done].
  - destruct (m_requester s) eqn:Hr; try done. injection E as <-. apply mix_inv_requester; [done|done|by rewrite Hr|done].
  - destruct (m_requester s) eqn:Hr; try done. injection E as <-. apply mix_inv_requester; [done|done|by rewrite Hr|done].
  - destruct (m_requester s) eqn:Hr; try done. injection E as <-. apply mix_inv_requester; [done|done|by rewrite Hr|]. intros tid' [= _ Hc]. unfold CheckStatusValidate in Hc.
    apply andb_true_iff in Hc as [Hc _]. by apply bool_decide_eq_true in Hc.
  - destruct (m_requester s) eqn:Hr; try done. injection E as <-. destruct Hi as [HF HO _]. by split.
  - destruct (mix_thread_of t s) as [[|n] [h|]] eqn:Ht; try done. injection E as <-. destruct Hi as [HF HO HB]. specialize (Hio t c eq_refl). unfold set_mix_thread.
    split; [done| |].
    + intros t' h. rewrite mix_thread_of_set. case_decide as Hd; [by intros [= <-]|apply HO].
    + intros tid Ha. destruct (HB tid Ha) as [B1 B2 B3 B4 B5]. split; cbn [mix m_requester]; [done| | | |done].
      * intros t' h. rewrite mix_thread_of_set. case_decide as Hd; [by intros [= <-]|apply B2].
      * intros h. rewrite mix_thread_of_set. case_decide as Hd; [by intros [= <-]|apply B3].
      * intros Hs. destruct (B4 Hs) as (c' & Hc' & Hst). exists c'. split; [by apply collected_snoc|done].
  - destruct (mix_thread_of t s) as [n [h|]] eqn:Ht; try done. injection E as E. apply bind_Ret in E as ([[x h'] nt] & E & [= <-]). pose proof Hi as [HF HO HB]. split.
    + cbn. by rewrite (handler_step_forward _ _ _ _ _ _ E).
    + intros t' h0. rewrite mix_thread_of_set. case_decide as Hd; [|apply HO]. cbn. intros ->. rewrite (handler_step_ok _ _ _ _ _ _ E). apply (HO t). by rewrite Ht.
    + intros tid Ha. cbn [m_requester] in Ha. assert (Ha0 : active_thread (m_requester s) = Some tid) by (destruct (m_requester s); try done; by destruct nt).
      apply (handler_step_busy ls t n h s x h' nt tid); [done|done|done|done|done|done|]. by destruct (m_requester s), nt.
Qed.

Lemma mix_inv_reach ls s : mix_reach ls s → mix_inv ls s.
Proof.
  induction 1 as [|ls l s s' Hr IH E Hq Hio]; [|by apply (mix_inv_step ls l s s')]. split; [done| |done]. intros t h. unfold mix_thread_of. cbn. rewrite lookup_empty. done.
Qed.

(** The word of the copied stack. *)
Lemma AccessMem_stack file_word c x addr : has_stack c x → x_maps x = true → stackForward_ x = 0 → length (stackBuf_ x) = STACK_BUFFER_SIZE → i_sp c <= addr → addr + 8 <= i_sp c + stackCopiedLen_ x →
  AccessMem file_word addr x = Ret (Some (of_le (readable_bytes (i_memory c) 8 addr))).
Proof.
  intros [Hr Hn Hb Hall [_ [Hs0 Hs1]]] Hm Hf Hl H1 H2. unfold SetRegister, registers_of in Hr. injection Hr as Hsp _ _ _ _. pose proof (page_pos k ltac:(lia)) as Hp. fold pageSize in Hp.
  unfold AccessMem. rewrite Hm, Hf, Hsp, Hl. unfold fitsb. rewrite Z.sub_0_r, Z.add_0_r. rewrite (wrap_small 64 (i_sp c)), (wrap_small 64 (i_sp c + stackCopiedLen_ x)), (wrap_small 64 (addr - i_sp c)), (wrap_small 64 (stackCopiedLen_ x)), (wrap_small 64 (addr - i_sp c + 8)) by (unfold fits; lia).
  destruct (Z.leb_spec 0 (addr + 8)); [|lia]. destruct (Z.ltb_spec (addr + 8) (2 ^ 64)); [|lia]. destruct (Z.ltb_spec addr (i_sp c)); [lia|]. destruct (Z.ltb_spec (i_sp c + stackCopiedLen_ x) (addr + 8)); [lia|].
  destruct (Nat.ltb_spec STACK_BUFFER_SIZE 8); [lia|]. destruct (Z.ltb_spec (STACK_BUFFER_SIZE - 8) (addr - i_sp c)); [lia|]. destruct (Z.ltb_spec (stackCopiedLen_ x) (addr - i_sp c + 8)); [lia|].
  destruct (Z.leb_spec (addr - i_sp c + 8) STACK_BUFFER_SIZE); [|lia]. cbn [negb orb andb]. do 3 f_equal.
  rewrite <- (readable_sub (i_memory c) (Z.to_nat (addr - i_sp c)) 8 (stackCopiedLen_ x) (i_sp c)) by (done || lia).
  rewrite <- Hb, !take_drop_commute, take_take. do 2 f_equal. lia.
Qed.

(** Where the interruption of a handler comes from: a signal taken since the last request started,
    or one taken before it, whose handler had not made its check when that request started. *)
Definition no_start (ls : list mix_label) : Prop := ∀ tid main, QStart tid main ∉ ls.
Definition taken (t : Z) (c : interrupt) (ls : list mix_label) : Prop :=
  ∃ ls1 ls2, ls = ls1 ++ MInterrupt t c :: ls2 ∧ no_start ls2.
Definition left_over (t : Z) (c : interrupt) (ls : list mix_label) : Prop :=
  ∃ ls1 s1 tid main ls2, ls = ls1 ++ QStart tid main :: ls2 ∧ no_start ls2 ∧ mix_reach ls1 s1 ∧
    mt_handler (mix_thread_of t s1) = Some (MCheck c).
Definition origin (t : Z) (c : interrupt) (ls : list mix_label) : Prop := taken t c ls ∨ left_over t c ls.

Lemma origin_app t c ls ls' : no_start ls' → origin t c ls → origin t c (ls ++ ls').
Proof.
  intros Hn [(l1 & l2 & -> & H2)|(l1 & s1 & tid & main & l2 & -> & H2 & Hr & Hh)]; [left|right].
  - exists l1, (l2 ++ ls'). rewrite <- app_assoc. split; [done|]. intros ? ?. rewrite elem_of_app. intros [?|?]; [by eapply H2|by eapply Hn].
  - exists l1, s1, tid, main, (l2 ++ ls'). rewrite <- app_assoc. split; [done|]. split; [|done].
    intros ? ?. rewrite elem_of_app. intros [?|?]; [by eapply H2|by eapply Hn].
Qed.

Lemma not_start l : (∀ tid main, l ≠ QStart tid main) → no_start [l].
Proof. intros H tid main E%list_elem_of_singleton. by apply (H tid main). Qed.

(** The handlers of a step are those before it, but for a signal that is taken. *)
Lemma mix_step_handler l s s' t h' :
  mix_step pid pageSize l s = Some (Ret s') → mt_handler (mix_thread_of t s') = Some h' →
  l = MInterrupt t (handler_interrupt h') ∨
  (∀ c, l ≠ MInterrupt t c) ∧ ∃ h, mt_handler (mix_thread_of t s) = Some h ∧ handler_interrupt h = handler_interrupt h'.
Proof.
  intros E Hh. destruct l as [tid main|sent| | | | | |t' c|t']; cbn [mix_step] in E.
  1-7: right; split; [discriminate|]; exists h'; split; [|done].
  - destruct (m_requester s); try done. repeat case_match; by simplify_eq.
  - destruct sent, (m_requester s); try done; simplify_eq; [|done].
    unfold set_mix_requester, set_mix_thread in Hh. cbn [mix m_threads m_requester] in Hh. rewrite mix_thread_of_set in Hh.
    case_decide; [by subst|done].
  - by destruct (m_requester s); simplify_eq.
  - by destruct (m_requester s); simplify_eq.
  - by destruct (m_requester s); simplify_eq.
  - by destruct (m_requester s); simplify_eq.
  - by destruct (m_requester s); simplify_eq.
  - destruct (mix_thread_of t' s) as [[|n] [h|]] eqn:Ht; try done. injection E as <-. unfold set_mix_thread in Hh.
    rewrite mix_thread_of_set in Hh. case_decide as Hd; [subst; injection Hh as <-; by left|].
    right. split; [intros c' [= <- _]; done|]. by exists h'.
  - destruct (mix_thread_of t' s) as [n [h|]] eqn:Ht; try done. injection E as E.
    apply bind_Ret in E as ([[x h1] nt] & E & [= <-]). right. split; [discriminate|].
    rewrite mix_thread_of_set in Hh. case_decide as Hd; [subst t'|by exists h']. cbn in Hh. subst h1.
    exists h. rewrite Ht. split; [done|]. symmetry. by eapply handler_step_ok.
Qed.

Lemma handler_origin ls s t h : mix_reach ls s → mt_handler (mix_thread_of t s) = Some h → origin t (handler_interrupt h) ls.
Proof.
  intros Hr. revert t h. induction Hr as [|ls l s s' Hr IH E Hq _]; intros t h' Hh.
  { unfold mix_thread_of in Hh. cbn in Hh. by rewrite lookup_empty in Hh. }
  destruct (mix_step_handler l s s' t h' E Hh) as [->|(Hl & h & Ht & Hi)].
  { left. exists ls, []. split; [done|]. by intros ? ? ?%elem_of_nil. }
  assert (Hs : (∃ tid main, l = QStart tid main) ∨ ∀ tid main, l ≠ QStart tid main)
    by (destruct l; try (by right); left; eauto).
  destruct Hs as [(tid & main & ->)|Hs]; [|rewrite <- Hi; apply origin_app; [by apply not_start|by apply IH]].
  right. exists ls, s, tid, main, []. split; [done|]. split; [by intros ? ? ?%elem_of_nil|]. split; [done|].
  specialize (Hq tid main eq_refl t h Ht). destruct h; try (by destruct Hq). by rewrite Ht, <- Hi.
Qed.

(** C21. The stack of a request that succeeds.  If no handler is past its check when a request starts,
    then what a request for a thread gives, when it says that it succeeded, is the stack of that
    thread at one interruption, copied by its handler in this request: the registers are those of
    the interruption, some bytes were copied, and a word that [AccessMem] reads within the copy is
    the one that the memory had at the interruption, whatever the files mapped there say (without
    maps, [AccessMem] reads nothing).  The signal was taken in this request, or earlier by a handler of the thread that had not made its
    check when this request started. *)
Theorem mix_collects ls s tid : mix_reach ls s → m_requester s = QReturned tid true →
  ∃ c, collected tid c ls ∧ origin tid c ls ∧ SetRegister (mix s) = registers_of c ∧ (0 < stackCopiedLen_ (mix s))%nat ∧
    ∀ file_word addr, i_sp c <= addr → addr + 8 <= i_sp c + stackCopiedLen_ (mix s) →
      AccessMem file_word addr (mix s) = Ret (if x_maps (mix s) then Some (of_le (readable_bytes (i_memory c) 8 addr)) else None).
Proof.
  intros Hr Hq. destruct (mix_inv_reach ls s Hr) as [HF _ HB]. destruct (HB tid) as [(_ & B2) _ _ B4 B5]; [by rewrite Hq|]. destruct (B4 (B5 Hq)) as (c & Hc & Hs). exists c. split; [done|].
  split.
  { destruct Hc as (l1 & s1 & z & l2 & -> & Hr1 & Hh & Hn). apply origin_app; [|exact (handler_origin l1 s1 tid _ Hr1 Hh)].
    intros t' m'. rewrite elem_of_cons. intros [?|?]; [done|by eapply Hn]. }
  split; [by apply hs_regs|]. split; [by apply (hs_some c)|]. intros fw addr H1 H2. destruct (x_maps (mix s)) eqn:Hm; [by apply AccessMem_stack|].
  unfold AccessMem. rewrite Hm. by destruct (fitsb 64 _).
Qed.
End Mix.

(** A thread whose stack is the page at 0x7000, interrupted with sp at 0x7ff0. *)
Definition stack_page (a : Z) : option Z := if a / 2 ^ 12 =? 7 then Some (a mod 256) else None.
Definition stack_interrupt : interrupt := mkInterrupt 0x5000 0x7ff0 0x7ff0 0x5100 0 stack_page true (Some (0x7000, 0x8000)).
Definition mix_run (ls : list mix_label) : mix_state := match run_labels (mix_step 1 (2 ^ 12)) ls mix_init with Some (Ret s) => s | _ => mix_init end.
Definition copy_run : list mix_label := [QStart 7 (None, true); QSend true; QEnter; MInterrupt 7 stack_interrupt; MStep 7; MStep 7; MStep 7; MStep 7; MStep 7; QResult].

Lemma stack_interrupt_ok : interrupt_ok 12 stack_interrupt.
Proof.
  split; [|vm_compute; split; congruence]. intros a b E. cbn [i_memory stack_interrupt]. unfold stack_page. rewrite E. intros [v Hv]. destruct (_ =? 7); [by eexists|done].
Qed.
Lemma mix_run_Ret ls : match run_labels (mix_step 1 (2 ^ 12)) ls mix_init with Some (Ret _) => true | _ => false end = true → run_labels (mix_step 1 (2 ^ 12)) ls mix_init = Some (Ret (mix_run ls)).
Proof. unfold mix_run. by destruct (run_labels _ ls mix_init) as [[s| |]|]. Qed.

(** Within one request nothing restricts the run. *)
Lemma mix_reach_app pid k ls ls' s s' : mix_reach pid k ls s → Forall (λ l, (∀ tid main, l ≠ QStart tid main) ∧ ∀ t c, l = MInterrupt t c → interrupt_ok k c) ls' →
  run_labels (mix_step pid (2 ^ k)) ls' s = Some (Ret s') → mix_reach pid k (ls ++ ls') s'.
Proof.
  intros Hr Hf. revert ls s Hr. induction Hf as [|l ls' [Hl Hi] Hf IH]; intros ls s Hr E; cbn in E; [injection E as <-; by rewrite app_nil_r|].
  destruct (mix_step pid (2 ^ k) l s) as [[s1|u|]|] eqn:E1; [|done..]. replace (ls ++ l :: ls') with ((ls ++ [l]) ++ ls') by by rewrite <- app_assoc. apply (IH _ s1), E.
  apply (mix_reach_step pid k ls l s s1); [done|done| |done]. intros tid main ->. by destruct (Hl tid main).
Qed.

Lemma mix_collects_witness : m_requester (mix_run copy_run) = QReturned 7 true ∧ stackCopiedLen_ (mix (mix_run copy_run)) = 16%nat ∧
  ∃ c, collected 1 12 7 c copy_run ∧ origin 1 12 7 c copy_run ∧ SetRegister (mix (mix_run copy_run)) = registers_of c.
Proof.
  split; [vm_compute; reflexivity|]. split; [vm_compute; reflexivity|].
  assert (Hreach : mix_reach 1 12 copy_run (mix_run copy_run)).
  { apply (mix_reach_app 1 12 [QStart 7 (None, true)] (skipn 1 copy_run) (mix_run [QStart 7 (None, true)])).
    - apply (mix_reach_step 1 12 [] (QStart 7 (None, true)) mix_init); [constructor|reflexivity| |discriminate]. intros tid main _ t h. unfold mix_thread_of. cbn. by rewrite lookup_empty.
    - repeat (apply Forall_cons_2; [split; [discriminate|first [discriminate|intros t c [= _ <-]; apply stack_interrupt_ok]]|]). constructor.
    - exact (mix_run_Ret copy_run ltac:(vm_compute; reflexivity)). }
  destruct (mix_collects 1 12 ltac:(lia) copy_run (mix_run copy_run) 7 Hreach ltac:(vm_compute; reflexivity)) as (c & Hc & Ho & Hr & _). exists c. split; [exact Hc|]. split; [exact Ho|exact Hr].
Defined.

(** A handler that makes its check late.  A request that times out leaves a handler of the thread
    before its check; the next request for the same thread succeeds with the registers of that
    interruption, although the thread takes no signal in it. *)
Definition stale_run : list mix_label :=
  [QStart 7 (None, true); QSend true; QEnter; MInterrupt 7 stack_interrupt; QTimeout; QRelease;
   QStart 7 (None, true); QSend true; QEnter; MStep 7; MStep 7; MStep 7; MStep 7; MStep 7; QResult].
Theorem mix_stale : run_labels (mix_step 1 (2 ^ 12)) stale_run mix_init = Some (Ret (mix_run stale_run)) ∧
  m_requester (mix_run stale_run) = QReturned 7 true ∧ SetRegister (mix (mix_run stale_run)) = registers_of stack_interrupt ∧
  ∀ t c, MInterrupt t c ∉ drop 6 stale_run.
Proof.
  split; [exact (mix_run_Ret stale_run ltac:(vm_compute; reflexivity))|]. split; [vm_compute; reflexivity|]. split; [vm_compute; reflexivity|].
  intros t c. rewrite list_elem_of_In. cbn. intuition discriminate.
Qed.

(** A handler that is late.  The check of the handler and its writes are separate: the handler of a
    thread that passed its check writes to the object of the next request, which then succeeds with
    the stack of the thread that was asked before, and no signal taken by its own. *)
Definition late_run : list mix_label :=
  [QStart 7 (None, true); QSend true; QEnter; MInterrupt 7 stack_interrupt; MStep 7; QTimeout; QRelease;
   QStart 8 (None, true); QSend true; QEnter; MStep 7; MStep 7; MStep 7; MStep 7; QResult].
Theorem mix_race : run_labels (mix_step 1 (2 ^ 12)) late_run mix_init = Some (Ret (mix_run late_run)) ∧ m_requester (mix_run late_run) = QReturned 8 true ∧
  SetRegister (mix (mix_run late_run)) = registers_of stack_interrupt ∧ ∀ c, MInterrupt 8 c ∉ late_run.
Proof.
  split; [exact (mix_run_Ret late_run ltac:(vm_compute; reflexivity))|]. split; [vm_compute; reflexivity|]. split; [vm_compute; reflexivity|].
  intros c. rewrite list_elem_of_In. cbn. intuition discriminate.
Qed.
