(* ===== verification/CoreBuffer.v ===== *)
(** * Core files: the buffer and the regions

    The writer of core files (tools/process_dump/coredump) puts an ELF file into a mapping of a
    size that it estimates first.  This file has the writer of the buffer
    (coredump_buffer_writer.cpp), the regions of /proc/<pid>/maps with the estimate
    (coredump_mapping_manager.cpp), and the configuration and the decisions before a dump
    (coredump_config_manager.cpp, coredump_controller.cpp, coredump_generator_factory.cpp).

    The mapping is a list of bytes whose length is the capacity; pointers into it are offsets.
    [Write], [WriteAt] and [Advance] check the capacity; a write through a raw pointer that leaves
    the mapping is undefined. *)
From S2P Require Import Prelude Text.

(** ** Raw memory *)
Definition patch (off : nat) (bs buf : list Z) : list Z := take off buf ++ bs ++ drop (off + length bs) buf.
Definition poke_bytes (off : nat) (bs buf : list Z) : outcome (list Z) :=
  if (off + length bs <=? length buf)%nat then Ret (patch off bs buf) else Undef OutOfBounds.
Definition slice (off n : nat) (buf : list Z) : list Z := take n (drop off buf).
Definition peek (off n : nat) (buf : list Z) : outcome (list Z) :=
  if (off + n <=? length buf)%nat then Ret (slice off n buf) else Undef OutOfBounds.

(** [memcpy_s] of the bounds checking library: a copy that does not fit clears the destination. *)
Definition memcpy_s (off destMax : nat) (src buf : list Z) : outcome (bool * list Z) :=
  if (destMax =? 0)%nat then Ret (false, buf)
  else if (destMax <? length src)%nat then buf ← poke_bytes off (replicate destMax 0) buf; Ret (false, buf)
  else buf ← poke_bytes off src buf; Ret (true, buf).

(** ** CoredumpBufferWriter *)
Definition MAX_COPY_CAP : nat := (1024 * 1024)%nat.
#[global] Opaque MAX_COPY_CAP.
Record CoredumpBufferWriter := mkWriter { bw_buf : list Z; bw_current : nat }.
Definition CoredumpBufferWriter_new (mapped : list Z) : CoredumpBufferWriter := mkWriter mapped 0.
Definition GetCapacity (b : CoredumpBufferWriter) : nat := length (bw_buf b).
Definition GetRemaining (b : CoredumpBufferWriter) : nat := (GetCapacity b - bw_current b)%nat.
Definition GetOffset (b : CoredumpBufferWriter) : Z := bw_current b.
Definition buf_Reset (b : CoredumpBufferWriter) : CoredumpBufferWriter := mkWriter (bw_buf b) 0.

Definition buf_Write (data : list Z) (b : CoredumpBufferWriter) : outcome (bool * CoredumpBufferWriter) :=
  if (GetRemaining b <? length data)%nat then Ret (false, b)
  else
    '(ok, buf) ← memcpy_s (bw_current b) (MAX_COPY_CAP `min` GetRemaining b) data (bw_buf b);
    Ret (ok, mkWriter buf (if (ok : bool) then (bw_current b + length data)%nat else bw_current b)).
Definition Advance (size : nat) (b : CoredumpBufferWriter) : bool * CoredumpBufferWriter :=
  if (GetCapacity b <? bw_current b + size)%nat then (false, b) else (true, mkWriter (bw_buf b) (bw_current b + size)).
Definition WriteAt (data : list Z) (offset : Z) (b : CoredumpBufferWriter) : outcome (bool * CoredumpBufferWriter) :=
  if negb (fitsb 64 (offset + length data)) then Ret (false, b)
  else if GetCapacity b <? offset + length data then Ret (false, b)
  else
    '(ok, buf) ← memcpy_s (Z.to_nat offset) (MAX_COPY_CAP `min` (GetCapacity b - Z.to_nat offset)) data (bw_buf b);
    Ret (ok, mkWriter buf (bw_current b)).
Definition SetCurrent (current : nat) (b : CoredumpBufferWriter) : bool * CoredumpBufferWriter :=
  if (GetCapacity b <? current)%nat then (false, b) else (true, mkWriter (bw_buf b) current).

(** A write through a pointer into the mapping. *)
Definition buf_poke (off : nat) (bs : list Z) (b : CoredumpBufferWriter) : outcome CoredumpBufferWriter :=
  buf ← poke_bytes off bs (bw_buf b); Ret (mkWriter buf (bw_current b)).

(** ** Scanning text as [sscanf_s], [strtol] and [strtoul] do *)
Definition base_digit (base : Z) (c : ascii) : option Z :=
  let d := code c in
  let v := if (48 <=? d) && (d <=? 57) then d - 48 else if (97 <=? d) && (d <=? 122) then d - 87 else if (65 <=? d) && (d <=? 90) then d - 55 else base in
  if v <? base then Some v else None.
Fixpoint digits_loop (base acc : Z) (s : list ascii) : Z * list ascii :=
  match s with
  | c :: s' => match base_digit base c with Some d => digits_loop base (acc * base + d) s' | None => (acc, s) end
  | [] => (acc, [])
  end.
(** A sign, the prefix of a hexadecimal number, digits; the number as an integer. *)
Definition scan_number (base : Z) (s : list ascii) : option (Z * list ascii) :=
  let s := drop_while isspace s in
  let '(neg, s) := match s with c :: s' => if Ascii.eqb c "-"%char then (true, s') else if Ascii.eqb c "+"%char then (false, s') else (false, s) | [] => (false, s) end in
  let s := match s with
           | z :: x :: c :: s' => if (base =? 16) && Ascii.eqb z "0"%char && (Ascii.eqb x "x"%char || Ascii.eqb x "X"%char) && bool_decide (is_Some (base_digit 16 c)) then c :: s' else s
           | _ => s
           end in
  match s with
  | c :: _ => match base_digit base c with
              | Some _ => let '(v, rest) := digits_loop base 0 s in Some (if (neg : bool) then - v else v, rest)
              | None => None
              end
  | [] => None
  end.
Definition clamp (lo hi z : Z) : Z := Z.max lo (Z.min hi z).
(** [strtoul(s, nullptr, 16)]. *)
Definition strtoul16 (s : list ascii) : Z :=
  match scan_number 16 s with Some (v, _) => if Z.abs v <? 2 ^ 64 then u64 v else 2 ^ 64 - 1 | None => 0 end.

(** A conversion into an array of characters: the text, no text, or text that does not fit, for which
    [sscanf_s] clears the array and gives up. *)
Inductive scanned := Scanned (v rest : list ascii) | NoMatch | TooLong.
Fixpoint take_while (f : ascii → bool) (s : list ascii) : list ascii :=
  match s with c :: s' => if f c then c :: take_while f s' else [] | [] => [] end.
Definition scan_set (f : ascii → bool) (size : nat) (s : list ascii) : scanned :=
  let v := take_while f s in
  match v with
  | [] => NoMatch
  | _ => if (size <=? length v)%nat then TooLong else Scanned v (drop (length v) s)
  end.
Definition scan_word (size : nat) (s : list ascii) : scanned := scan_set (λ c, negb (isspace c)) size (drop_while isspace s).

(** ** Regions *)
Definition ADDR_STR_LEN : nat := 17.
Definition PERM_STR_LEN : nat := 5.
Definition OFFSET_STR_LEN : nat := 9.
Definition DEV_STR_LEN : nat := 16.
Definition PATH_MAX_LEN : nat := 256.
Record DumpMemoryRegions := mkRegion {
  startHex : Z; endHex : Z; offsetHex : Z; memorySizeHex : Z;
  r_start : list ascii; r_end : list ascii; priority : list ascii; r_offset : list ascii; r_dev : list ascii;
  r_inode : Z; pathName : list ascii
}.
Definition DumpMemoryRegions_new : DumpMemoryRegions := mkRegion 0 0 0 0 [] [] [] [] [] 0 [].

(** The conversions of [ObtainDumpRegion]: the fields that were assigned replace those of the line
    before; [true] when all seven were. *)
Definition scan_region (line : list ascii) (r : DumpMemoryRegions) : bool * DumpMemoryRegions :=
  let put_start v := mkRegion (startHex r) (endHex r) (offsetHex r) (memorySizeHex r) v (r_end r) (priority r) (r_offset r) (r_dev r) (r_inode r) (pathName r) in
  match scan_set (λ c, negb (Ascii.eqb c "-"%char || Ascii.eqb c (chr 10))) ADDR_STR_LEN (c_str line) with
  | NoMatch => (false, r)
  | TooLong => (false, put_start [])
  | Scanned v s =>
      let r := put_start v in
      let put_end v := mkRegion (startHex r) (endHex r) (offsetHex r) (memorySizeHex r) (r_start r) v (priority r) (r_offset r) (r_dev r) (r_inode r) (pathName r) in
      match s with
      | d :: s =>
          if negb (Ascii.eqb d "-"%char) then (false, r)
          else match scan_set (λ c, negb (Ascii.eqb c " "%char)) ADDR_STR_LEN s with
          | NoMatch => (false, r)
          | TooLong => (false, put_end [])
          | Scanned v s =>
              let r := put_end v in
              let put_perm v := mkRegion (startHex r) (endHex r) (offsetHex r) (memorySizeHex r) (r_start r) (r_end r) v (r_offset r) (r_dev r) (r_inode r) (pathName r) in
              match scan_word PERM_STR_LEN s with
              | NoMatch => (false, r)
              | TooLong => (false, put_perm [])
              | Scanned v s =>
                  let r := put_perm v in
                  let put_offset v := mkRegion (startHex r) (endHex r) (offsetHex r) (memorySizeHex r) (r_start r) (r_end r) (priority r) v (r_dev r) (r_inode r) (pathName r) in
                  match scan_word OFFSET_STR_LEN s with
                  | NoMatch => (false, r)
                  | TooLong => (false, put_offset [])
                  | Scanned v s =>
                      let r := put_offset v in
                      let put_dev v := mkRegion (startHex r) (endHex r) (offsetHex r) (memorySizeHex r) (r_start r) (r_end r) (priority r) (r_offset r) v (r_inode r) (pathName r) in
                      match scan_word DEV_STR_LEN s with
                      | NoMatch => (false, r)
                      | TooLong => (false, put_dev [])
                      | Scanned v s =>
                          let r := put_dev v in
                          match scan_number 10 s with
                          | None => (false, r)
                          | Some (n, s) =>
                              let r := mkRegion (startHex r) (endHex r) (offsetHex r) (memorySizeHex r) (r_start r) (r_end r) (priority r) (r_offset r) (r_dev r) (u32 n) (pathName r) in
                              let put_path v := mkRegion (startHex r) (endHex r) (offsetHex r) (memorySizeHex r) (r_start r) (r_end r) (priority r) (r_offset r) (r_dev r) (r_inode r) v in
                              match scan_set (λ c, negb (Ascii.eqb c (chr 10))) PATH_MAX_LEN (drop_while isspace s) with
                              | NoMatch => (false, r)
                              | TooLong => (false, put_path [])
                              | Scanned v _ => (true, put_path v)
                              end
                          end
                      end
                  end
              end
          end
      | [] => (false, r)
      end
  end.
Definition ObtainDumpRegion (line : list ascii) (region : DumpMemoryRegions) : DumpMemoryRegions :=
  let '(all, r) := scan_region line region in
  let st := strtoul16 (r_start r) in
  let en := strtoul16 (r_end r) in
  mkRegion st en (strtoul16 (r_offset r)) (u64 (en - st)) (r_start r) (r_end r) (priority r) (r_offset r) (r_dev r) (r_inode r)
    (if (all : bool) then pathName r else []).

Fixpoint regions_loop (lines : list (list ascii)) (region : DumpMemoryRegions) : list DumpMemoryRegions :=
  match lines with
  | [] => []
  | line :: lines' => let region := ObtainDumpRegion line region in region :: regions_loop lines' region
  end.
(** [Parse]: [lines] are those of /proc/<pid>/maps, if it can be opened.  [maps_] grows. *)
Definition mapping_Parse (pid : Z) (lines : option (list (list ascii))) (maps_ : list DumpMemoryRegions) : list DumpMemoryRegions :=
  if pid <=? 0 then maps_
  else match lines with Some ls => maps_ ++ regions_loop ls DumpMemoryRegions_new | None => maps_ end.

Definition LARGE_ANON_THRESHOLD : Z := 64 * 1024 * 1024.
Definition MAX_COREDUMP_SIZE : Z := 10 * 1024 * 1024 * 1024.
Definition HasValidPermissions (r : DumpMemoryRegions) : bool := existsb (Ascii.eqb "p"%char) (priority r) && existsb (Ascii.eqb "r"%char) (priority r).
Definition IsLargeAnonymousReservation (r : DumpMemoryRegions) : bool :=
  match pathName r with [] => LARGE_ANON_THRESHOLD <=? memorySizeHex r | _ => false end.
Definition IsDevFile (r : DumpMemoryRegions) : bool := bool_decide (pathName r = lit "[io]") || StartsWith (pathName r) (lit "/dev/").
Definition ShouldIncludeRegion (r : DumpMemoryRegions) : bool :=
  if negb (HasValidPermissions r) then false else if IsLargeAnonymousReservation r then false else if IsDevFile r then false else true.
Definition IsHwAsanProcess (maps_ : list DumpMemoryRegions) : bool := existsb (λ r, contains (pathName r) (lit "libclang_rt.hwasan.so")) maps_.

Definition sizeof_Elf64_Ehdr : nat := 64.
Definition sizeof_Elf64_Phdr : nat := 56.
Definition sizeof_Elf64_Shdr : nat := 64.
Definition sizeof_Elf64_Nhdr : nat := 12.
Definition reserveSpace : Z := 1000.
Definition EstimateFileSize (maps_ : list DumpMemoryRegions) : Z :=
  let noteCount := Z.of_nat (length maps_) in
  let headerSize := sizeof_Elf64_Ehdr + (noteCount + 1) * sizeof_Elf64_Phdr + (noteCount + 2) * sizeof_Elf64_Shdr in
  let notesSize := noteCount * (sizeof_Elf64_Nhdr + 100) in
  let totalMem := fold_left (λ sum r, if ShouldIncludeRegion r then u64 (sum + memorySizeHex r) else sum) maps_ 0 in
  let estimatedSize := u64 (headerSize + notesSize + totalMem + reserveSpace) in
  if estimatedSize <? MAX_COREDUMP_SIZE then estimatedSize else MAX_COREDUMP_SIZE.

(** ** The configuration

    cJSON is outside of the repository: a document is the tree that [cJSON_Parse] gives, or nothing.
    [cJSON_GetObjectItem] finds the first item whose name is the key up to case. *)
Inductive cJSON := JNull | JBool (b : bool) | JNumber (valueint : Z) | JString (valuestring : list ascii) | JArray (l : list cJSON) | JObject (l : list (list ascii * cJSON)).
Definition tolower (c : ascii) : ascii := if (65 <=? code c) && (code c <=? 90) then chr (code c + 32) else c.
Definition cJSON_GetObjectItem (obj : cJSON) (key : list ascii) : option cJSON :=
  match obj with
  | JObject l => snd <$> List.find (λ it, bool_decide (map tolower it.1 = map tolower key)) l
  | _ => None
  end.
Definition cJSON_IsObject (j : option cJSON) : bool := match j with Some (JObject _) => true | _ => false end.

Definition GetIntSafe (obj : cJSON) (key : list ascii) (defVal : Z) : Z := match cJSON_GetObjectItem obj key with Some (JNumber n) => n | _ => defVal end.
Definition GetBoolSafe (obj : cJSON) (key : list ascii) (defVal : bool) : bool := match cJSON_GetObjectItem obj key with Some (JBool b) => b | _ => defVal end.
Definition GetStrSafe (obj : cJSON) (key defVal : list ascii) : list ascii := match cJSON_GetObjectItem obj key with Some (JString s) => s | _ => defVal end.

Record NoteDumpProcessConfig := mkProcessConfig { prpsinfo : bool; multiThread : bool; auxv : bool; dumpMappings : bool }.
Record NoteDumpThreadConfig := mkThreadConfig { prstatus : bool; fpregset : bool; siginfo : bool; dumpAll : bool; armPacMask : bool; armTaggedAddrCtrl : bool }.
Record LoadSegmentDumpConfig := mkLoadConfig { coredumpFilter : Z; excludePaths : list ascii; requiredPriority : list ascii }.
Record CoredumpConfig := mkConfig {
  coredumpSwitch : bool; maxCoredumpSize : Z; dumperThreadCount : Z; outputPath : list ascii;
  cfg_process : NoteDumpProcessConfig; cfg_threads : NoteDumpThreadConfig; loadCfg : LoadSegmentDumpConfig
}.
Definition CoredumpConfig_new : CoredumpConfig :=
  mkConfig false 0 1 (lit "/data/storage/el2/base/files") (mkProcessConfig true true true true) (mkThreadConfig true true true true true true) (mkLoadConfig 0 [] (lit "r")).

Definition as_bool (n : Z) : bool := negb (n =? 0).
Definition ParseProcessConfig (obj : cJSON) (c : CoredumpConfig) : CoredumpConfig :=
  match cJSON_GetObjectItem obj (lit "process") with
  | Some (JObject l) =>
      let procCfg := JObject l in
      mkConfig (coredumpSwitch c) (maxCoredumpSize c) (dumperThreadCount c) (outputPath c)
        (mkProcessConfig (as_bool (GetIntSafe procCfg (lit "prpsinfo") 0)) (GetBoolSafe procCfg (lit "multiThread") false)
           (as_bool (GetIntSafe procCfg (lit "auxv") 0)) (GetBoolSafe procCfg (lit "dumpMappings") false))
        (cfg_threads c) (loadCfg c)
  | _ => c
  end.
Definition ParseThreadConfig (obj : cJSON) (c : CoredumpConfig) : CoredumpConfig :=
  match cJSON_GetObjectItem obj (lit "threads") with
  | Some (JObject l) =>
      let threadCfg := JObject l in
      let int key := as_bool (GetIntSafe threadCfg key 0) in
      mkConfig (coredumpSwitch c) (maxCoredumpSize c) (dumperThreadCount c) (outputPath c) (cfg_process c)
        (mkThreadConfig (int (lit "prstatus")) (int (lit "fpregset")) (int (lit "siginfo")) (GetBoolSafe threadCfg (lit "dumpAll") false)
           (int (lit "armPacMask")) (int (lit "armTaggedAddrCtrl")))
        (loadCfg c)
  | _ => c
  end.
Definition ParseGeneralFields (obj : cJSON) (c : CoredumpConfig) : CoredumpConfig :=
  mkConfig (GetBoolSafe obj (lit "coredumpSwitch") false) (maxCoredumpSize c) (GetIntSafe obj (lit "dumperThreadCount") 1) (outputPath c) (cfg_process c) (cfg_threads c) (loadCfg c).
Definition ParseLoadConfig (obj : cJSON) (c : CoredumpConfig) : CoredumpConfig :=
  match cJSON_GetObjectItem obj (lit "loadCfg") with
  | Some (JObject l) =>
      mkConfig (coredumpSwitch c) (maxCoredumpSize c) (dumperThreadCount c) (outputPath c) (cfg_process c) (cfg_threads c)
        (mkLoadConfig (coredumpFilter (loadCfg c)) (GetStrSafe (JObject l) (lit "excludePaths") []) (GetStrSafe (JObject l) (lit "requiredPriority") []))
  | _ => c
  end.
Definition FillConfigFromObject (obj : cJSON) (c : CoredumpConfig) : CoredumpConfig :=
  if negb (cJSON_IsObject (Some obj)) then c
  else ParseLoadConfig obj (ParseGeneralFields obj (ParseThreadConfig obj (ParseProcessConfig obj c))).
Definition LoadProfileFromJson (root : option cJSON) (profileName : list ascii) (c : CoredumpConfig) : bool * CoredumpConfig :=
  match root with
  | None => (false, c)
  | Some root =>
      match cJSON_GetObjectItem root (lit "coredumpProfiles") with
      | None => (false, c)
      | Some profiles =>
          match cJSON_GetObjectItem profiles profileName with
          | None => (false, c)
          | Some profile => (true, FillConfigFromObject profile c)
          end
      end
  end.
(** [LoadProfileFromFile]: [parse] is [cJSON_Parse]. *)
Definition LoadProfileFromFile (parse : list ascii → option cJSON) (content profileName : list ascii) (c : CoredumpConfig) : bool * CoredumpConfig :=
  match content with [] => (false, c) | _ => LoadProfileFromJson (parse content) profileName c end.

(** ** Whether and how a core is dumped

    The two parameters of the system are read once: they are arguments. *)
Definition SIGLEAK_STACK : Z := 42.
Definition SIGLEAK_STACK_COREDUMP : Z := 3.
Definition SIGABRT : Z := 6.
Record core_request := mkCoreRequest { rq_signo : Z; rq_code : Z; rq_pid : Z; rq_tid : Z; rq_uid : Z }.
Definition IsCoredumpSignal (rq : core_request) : bool := (rq_signo rq =? SIGLEAK_STACK) && (Z.abs (rq_code rq) =? SIGLEAK_STACK_COREDUMP).
Definition VerifyProcess (hwasanEnabled : bool) (maps_ : list DumpMemoryRegions) (c : CoredumpConfig) : bool :=
  if negb hwasanEnabled && IsHwAsanProcess maps_ then false else coredumpSwitch c.
Definition IsCoredumpAllowed (mdmDisabled hwasanEnabled : bool) (rq : core_request) : bool :=
  if mdmDisabled then false else IsCoredumpSignal rq || ((rq_signo rq =? SIGABRT) && hwasanEnabled).
Inductive DumpFormat := FULL | HWASAN | INVALID.
Definition GetDumpType (hwasanEnabled : bool) (rq : core_request) : DumpFormat :=
  if IsCoredumpSignal rq then FULL else if hwasanEnabled then HWASAN else INVALID.
(** The profile that the generator of a format loads; no generator for the last. *)
Definition LoadConfig_profile (f : DumpFormat) : option (list ascii) := match f with FULL => Some (lit "FULL") | HWASAN => Some (lit "HWASAN") | INVALID => None end.

(** ** Writing at the end of what is written

    A mapping with the bytes [p] written and [n] more, all zero, to come. *)
Definition writer_at (p : list Z) (n : nat) : CoredumpBufferWriter := mkWriter (p ++ replicate n 0) (length p).

Lemma patch_app a b b' c : length b = length b' → patch (length a) b' (a ++ b ++ c) = a ++ b' ++ c.
Proof.
  intros E. unfold patch. rewrite take_app_length, <- E, drop_app_add. f_equal. f_equal. by rewrite drop_app_length.
Qed.
Lemma patch_app_eq off a b b' c l : l = a ++ b ++ c → off = length a → length b = length b' → patch off b' l = a ++ b' ++ c.
Proof. intros -> -> E. by apply patch_app. Qed.
Lemma length_patch off bs buf : (off + length bs <= length buf)%nat → length (patch off bs buf) = length buf.
Proof. intros H. unfold patch. rewrite !length_app, length_take, length_drop. lia. Qed.
Lemma patch_app_l off bs a c : (off + length bs <= length a)%nat → patch off bs (a ++ c) = patch off bs a ++ c.
Proof. intros H. unfold patch. rewrite take_app_le by lia. rewrite drop_app_le by lia. by rewrite !app_assoc. Qed.
Lemma patch_app_r off bs a c : (length a <= off)%nat → patch off bs (a ++ c) = a ++ patch (off - length a) bs c.
Proof.
  intros H. unfold patch. rewrite take_app_ge by lia. rewrite drop_app_ge by lia. rewrite <- app_assoc. do 3 f_equal. f_equal. lia.
Qed.

Lemma slice_app off n a c : (off + n <= length a)%nat → slice off n (a ++ c) = slice off n a.
Proof. intros H. unfold slice. rewrite drop_app_le by lia. rewrite take_app_le; [done|]. rewrite length_drop. lia. Qed.
Lemma slice_mid a b c : slice (length a) (length b) (a ++ b ++ c) = b.
Proof. unfold slice. by rewrite drop_app_length, take_app_length. Qed.
Lemma slice_mid_eq off n a b c l : l = a ++ b ++ c → off = length a → n = length b → slice off n l = b.
Proof. intros -> -> ->. apply slice_mid. Qed.
Lemma slice_patch_ne off n o bs l : (o + length bs <= length l)%nat → (off + n <= o ∨ o + length bs <= off)%nat → slice off n (patch o bs l) = slice off n l.
Proof.
  intros Hl [H|H]; unfold slice, patch.
  - rewrite drop_app_le by (rewrite length_take; lia). rewrite take_app_le by (rewrite length_drop, length_take; lia).
    rewrite <- (take_drop o l) at 2. rewrite drop_app_le by (rewrite length_take; lia). rewrite take_app_le; [done|]. rewrite length_drop, length_take; lia.
  - rewrite app_assoc. rewrite drop_app_ge by (rewrite length_app, length_take; lia). rewrite drop_drop. do 2 f_equal. rewrite length_app, length_take. lia.
Qed.
Lemma slice_patch o bs l : (o + length bs <= length l)%nat → slice o (length bs) (patch o bs l) = bs.
Proof. intros H. unfold patch. apply (slice_mid_eq _ _ (take o l) bs (drop (o + length bs) l)); [done|rewrite length_take; lia|done]. Qed.

Lemma poke_bytes_Ret off bs buf : (off + length bs <= length buf)%nat → poke_bytes off bs buf = Ret (patch off bs buf).
Proof. intros H. unfold poke_bytes. by rewrite (proj2 (Nat.leb_le _ _)). Qed.
Lemma peek_Ret off n buf : (off + n <= length buf)%nat → peek off n buf = Ret (slice off n buf).
Proof. intros H. unfold peek. by rewrite (proj2 (Nat.leb_le _ _)). Qed.

Lemma zeros_split (k n : nat) : (k <= n)%nat → replicate n 0 = replicate k 0 ++ replicate (n - k) 0.
Proof. intros H. rewrite <- replicate_add. f_equal. lia. Qed.

Lemma buf_poke_in off bs p n : (off + length bs <= length p)%nat → buf_poke off bs (writer_at p n) = Ret (writer_at (patch off bs p) n).
Proof.
  intros H. unfold buf_poke, writer_at. cbn [bw_buf bw_current]. rewrite poke_bytes_Ret by (rewrite length_app; lia). cbn. by rewrite patch_app_l, length_patch by lia.
Qed.
Lemma peek_in off k p n : (off + k <= length p)%nat → peek off k (bw_buf (writer_at p n)) = Ret (slice off k p).
Proof. intros H. cbn. rewrite peek_Ret by (rewrite length_app; lia). by rewrite slice_app. Qed.

Lemma Advance_at k p n : (k <= n)%nat → Advance k (writer_at p n) = (true, writer_at (p ++ replicate k 0) (n - k)).
Proof.
  intros H. unfold Advance, GetCapacity, writer_at. cbn [bw_buf bw_current]. rewrite length_app, length_replicate.
  rewrite (proj2 (Nat.ltb_ge _ _)) by lia. rewrite <- app_assoc, <- zeros_split by done. by rewrite length_app, length_replicate.
Qed.

(** Bytes put at the end through a pointer, over which the pointer is then moved, with the zeros after
    them. *)
Lemma poke_end bs p n : (length bs <= n)%nat → buf_poke (length p) bs (writer_at p n) = Ret (mkWriter (p ++ bs ++ replicate (n - length bs) 0) (length p)).
Proof.
  intros H. unfold buf_poke, writer_at. cbn [bw_buf bw_current]. rewrite poke_bytes_Ret by (rewrite length_app, length_replicate; lia). cbn.
  rewrite (zeros_split (length bs) n) at 1 by done. by rewrite patch_app by by rewrite length_replicate.
Qed.
Lemma Advance_over k bs p n : (length bs <= k)%nat → (k <= n)%nat →
  Advance k (mkWriter (p ++ bs ++ replicate (n - length bs) 0) (length p)) = (true, writer_at (p ++ bs ++ replicate (k - length bs) 0) (n - k)).
Proof.
  intros H Hk. unfold Advance, GetCapacity, writer_at. cbn [bw_buf bw_current]. rewrite !length_app, !length_replicate. rewrite (proj2 (Nat.ltb_ge _ _)) by lia. f_equal. f_equal; [|lia].
  rewrite <- !app_assoc. do 2 f_equal. rewrite <- replicate_add. f_equal. lia.
Qed.

(** A single write is never larger than this. *)
Definition small (d : list Z) : Prop := (0 < length d <= MAX_COPY_CAP)%nat.
Lemma buf_Write_at d p n : small d → (length d <= n)%nat → buf_Write d (writer_at p n) = Ret (true, writer_at (p ++ d) (n - length d)).
Proof.
  intros [Hd Hc] Hn. unfold buf_Write, GetRemaining, GetCapacity, memcpy_s. cbn [bw_buf bw_current writer_at]. rewrite length_app, length_replicate.
  rewrite (proj2 (Nat.ltb_ge _ _)) by lia. rewrite (proj2 (Nat.eqb_neq _ _)) by lia. rewrite (proj2 (Nat.ltb_ge _ _)) by lia.
  rewrite poke_bytes_Ret by (rewrite length_app, length_replicate; lia). cbn. unfold writer_at. rewrite length_app, (zeros_split (length d) n) at 1 by lia.
  rewrite patch_app by by rewrite length_replicate. by rewrite app_assoc.
Qed.
Lemma WriteAt_in d off p n : small d → 0 <= off → off + length d <= length p → Z.of_nat (length p) < 2 ^ 63 → WriteAt d off (writer_at p n) = Ret (true, writer_at (patch (Z.to_nat off) d p) n).
Proof.
  intros [Hd Hc] H0 Hn Hp. unfold WriteAt, GetCapacity, memcpy_s. cbn [bw_buf bw_current writer_at]. rewrite length_app, length_replicate.
  rewrite (proj2 (fitsb_spec _ _)) by (unfold fits; lia). cbn [negb]. destruct (Z.ltb_spec (length p + n)%nat (off + length d)); [lia|].
  rewrite (proj2 (Nat.eqb_neq _ _)) by lia. rewrite (proj2 (Nat.ltb_ge _ _)) by lia. rewrite poke_bytes_Ret by (rewrite length_app, length_replicate; lia). cbn.
  unfold writer_at. rewrite patch_app_l, length_patch by lia. done.
Qed.
Lemma small_le d : (0 < length d <= 4096)%nat → small d.
Proof.
  intros H. assert ((4096 <=? MAX_COPY_CAP)%nat = true) as Hc%Nat.leb_le by (vm_compute; reflexivity). unfold small. lia.
Qed.
