(* ===== verification/CoreNotes.v ===== *)
(** * Core files: the notes

    The PT_NOTE segment of a core file (tools/process_dump/coredump/coredump_note_segment_writer.cpp):
    what is known of the process, of each of its threads, its auxiliary vector and the files it
    maps.  The structures are those of sys/procfs.h and elf.h for aarch64, as bytes.  What the
    kernel says of the process is an argument ([proc_env]): files of /proc, ptrace, resource usage. *)
From S2P Require Import Prelude Text CoreBuffer.

Definition text_bytes (s : list ascii) : list Z := map code s.
Definition field (off n : nat) (bs : list Z) : Z := of_le (slice off n bs).
(** [bs] in an array of [n] bytes that was cleared. *)
Definition fill (n : nat) (bs : list Z) : list Z := take n bs ++ replicate (n - length bs) 0.

(** ** What the kernel says *)
Record thread_env := mkThreadEnv {
  te_siginfo : option (list Z);              (* PTRACE_GETSIGINFO *)
  te_regs : option (list Z);                 (* PTRACE_GETREGSET, NT_PRSTATUS *)
  te_fpregs : option (list Z);               (* NT_FPREGSET *)
  te_pacmask : option (list Z);              (* NT_ARM_PAC_MASK *)
  te_status : option (list (list ascii))     (* the lines of /proc/<tid>/status *)
}.
Record proc_env := mkProcEnv {
  pe_tasks : option (list (list ascii));     (* the entries of /proc/<pid>/task *)
  pe_thread : Z → thread_env;
  pe_stat : list ascii;
  pe_status : option (list (list ascii));
  pe_comm : list ascii;
  pe_cmdline : list ascii;
  pe_auxv : option (list Z);
  pe_nice : Z; pe_pgrp : Z; pe_sid : Z → Z;
  pe_self_utime : list Z; pe_self_stime : list Z; pe_children_utime : list Z; pe_children_stime : list Z
}.

Definition sizeof_siginfo_t : nat := 128.
Definition sizeof_elf_siginfo : nat := 12.
Definition sizeof_prstatus_t : nat := 392.
Definition sizeof_pr_reg : nat := 272.
Definition sizeof_user_fpsimd_struct : nat := 528.
Definition sizeof_UserPacMask : nat := 16.
Definition sizeof_prpsinfo_t : nat := 136.
Definition sizeof_timeval : nat := 16.
Definition sizeof_long : nat := 8.
Definition NT_PRSTATUS : Z := 1.
Definition NT_FPREGSET : Z := 2.
Definition NT_PRPSINFO : Z := 3.
Definition NT_AUXV : Z := 6.
Definition NT_ARM_PAC_MASK : Z := 0x406.
Definition NT_ARM_TAGGED_ADDR_CTRL : Z := 0x409.
Definition NT_FILE : Z := 0x46494c45.
Definition NT_SIGINFO : Z := 0x53494749.
Definition NOTE_NAME_CORE : list ascii := lit "CORE".
Definition NOTE_NAME_LINUX : list ascii := lit "LINUX".
Definition NOTE_NAME_SIZE : nat := 8.
Definition UID : list ascii := lit "Uid:".
Definition GID : list ascii := lit "Gid:".
Definition PPID : list ascii := lit "PPid:".
Definition SIGPND : list ascii := lit "SigPnd:".
Definition SIGBLK : list ascii := lit "SigBlk:".

(** ** Reading a thread *)

(** [GetRegset]: the object is cleared first, and stays so when ptrace fails. *)
Definition GetRegset (size : nat) (r : option (list Z)) : bool * list Z :=
  match r with Some bs => (true, fill size bs) | None => (false, replicate size 0) end.
(** [GetSiginfoCommon] on an object of [size] bytes at [off]: it clears the object, then ptrace stores
    a whole [siginfo_t] there. *)
Definition GetSiginfoCommon (off size : nat) (r : option (list Z)) (mem : list Z) : bool * list Z :=
  let mem := patch off (replicate size 0) mem in
  match r with Some bs => (true, patch off (fill sizeof_siginfo_t bs) mem) | None => (false, mem) end.

Definition CoredumpGetPackMask (t : thread_env) : list Z := (GetRegset sizeof_UserPacMask (te_pacmask t)).2.
Definition CoredumpGetFpRegset (t : thread_env) : Z * list Z := let '(ok, bs) := GetRegset sizeof_user_fpsimd_struct (te_fpregs t) in (if ok then 1 else 0, bs).
Definition CoredumpGetSiginfo (t : thread_env) : list Z := (GetSiginfoCommon 0 sizeof_siginfo_t (te_siginfo t) (replicate sizeof_siginfo_t 0)).2.
Definition CoredumpGetPrstatus (t : thread_env) (ntPrstatus : list Z) : Z * list Z :=
  let '(ok, bs) := GetSiginfoCommon 0 sizeof_elf_siginfo (te_siginfo t) ntPrstatus in (if ok then 1 else 0, bs).

Record CoredumpThread := mkCoredumpThread {
  ntUserPacMask : list Z; ntFpregset : list Z; fpRegValid : Z; ntSiginfo : list Z; ntPrstatus : list Z; prStatusValid : Z;
  keyRegs_ : option (list Z)   (* the words of the registers, if they could be made *)
}.
Definition CoredumpThread_Init (t : thread_env) (regs : option (list Z)) : CoredumpThread :=
  let '(fpValid, fp) := CoredumpGetFpRegset t in
  let '(prValid, pr) := CoredumpGetPrstatus t (replicate sizeof_prstatus_t 0) in
  mkCoredumpThread (CoredumpGetPackMask t) fp fpValid (CoredumpGetSiginfo t) pr prValid regs.

(** ** prstatus_t *)
Definition off_pr_cursig : nat := 12.
Definition off_pr_sigpend : nat := 16.
Definition off_pr_sighold : nat := 24.
Definition off_pr_pid : nat := 32.
Definition off_pr_ppid : nat := 36.
Definition off_pr_pgrp : nat := 40.
Definition off_pr_sid : nat := 44.
Definition off_pr_utime : nat := 48.
Definition off_pr_stime : nat := 64.
Definition off_pr_cutime : nat := 80.
Definition off_pr_cstime : nat := 96.
Definition off_pr_reg : nat := 112.
Definition off_pr_fpvalid : nat := 384.

(** [%d], [%u] and [%lx] of a text, into a field. *)
Definition scan_int (s : list ascii) : option Z := (λ r, clamp (- 2 ^ 31) (2 ^ 31 - 1) r.1) <$> scan_number 10 s.
Definition scan_uint (s : list ascii) : option Z := (λ r, u32 r.1) <$> scan_number 10 s.
Definition scan_ulong16 (s : list ascii) : option Z := (λ r, u64 r.1) <$> scan_number 16 s.
(** [line.c_str() + n]: past the terminator there is nothing to read. *)
Definition c_str_from (n : nat) (line : list ascii) : outcome (list ascii) :=
  if (n <=? length line)%nat then Ret (c_str (drop n line)) else Undef OutOfBounds.

(** A line of the status file in [GetPrStatus]; the first test is for lines that do not start with
    "PPid:". *)
Definition prstatus_line (line : list ascii) (st : list Z) : outcome (list Z) :=
  if negb (StartsWith line PPID) then
    s ← c_str_from (length PPID) line;
    Ret (match scan_int s with Some v => patch off_pr_ppid (le_bytes 4 v) st | None => st end)
  else if StartsWith line SIGPND then
    s ← c_str_from (length SIGPND) line;
    Ret (match scan_ulong16 s with Some v => patch off_pr_sigpend (le_bytes 8 v) st | None => st end)
  else if StartsWith line SIGBLK then
    s ← c_str_from (length SIGBLK) line;
    Ret (match scan_ulong16 s with Some v => patch off_pr_sighold (le_bytes 8 v) st | None => st end)
  else Ret st.
Fixpoint prstatus_lines (lines : list (list ascii)) (st : list Z) : outcome (list Z) :=
  match lines with
  | [] => Ret st
  | line :: lines' => st ← prstatus_line line st; prstatus_lines lines' st
  end.

Definition GetRusage (e : proc_env) (st : list Z) : list Z :=
  let st := patch off_pr_utime (fill sizeof_timeval (pe_self_utime e)) st in
  let st := patch off_pr_stime (fill sizeof_timeval (pe_self_stime e)) st in
  let st := patch off_pr_cutime (fill sizeof_timeval (pe_children_utime e)) st in
  patch off_pr_cstime (fill sizeof_timeval (pe_children_stime e)) st.

Definition GetPrStatus (e : proc_env) (targetTid tid : Z) (key : CoredumpThread) (st : list Z) : outcome (list Z) :=
  let t := pe_thread e tid in
  let st :=
    if (tid =? targetTid) && negb (prStatusValid key =? 0) then patch off_pr_cursig (le_bytes 2 (field 0 4 (ntPrstatus key))) st
    else
      let '(ok, st) := GetSiginfoCommon 0 sizeof_elf_siginfo (te_siginfo t) st in
      if (ok : bool) then patch off_pr_cursig (le_bytes 2 (field 0 4 st)) st else st in
  match te_status t with
  | None => Ret st
  | Some lines =>
      st ← prstatus_lines lines st;
      let st := patch off_pr_pid (le_bytes 4 tid) st in
      let st := patch off_pr_pgrp (le_bytes 4 (pe_pgrp e)) st in
      let st := patch off_pr_sid (le_bytes 4 (pe_sid e tid)) st in
      Ret (GetRusage e st)
  end.

(** [GetPrReg]; the registers that the key thread had when it crashed are words. *)
Definition GetPrReg (e : proc_env) (targetTid tid : Z) (key : CoredumpThread) (st : list Z) : outcome (list Z) :=
  let t := pe_thread e tid in
  if tid =? targetTid then
    match keyRegs_ key with
    | None => Ret st
    | Some regs =>
        let raw := concat (map (le_bytes 8) regs) in
        if (length raw <? sizeof_pr_reg)%nat then Undef OutOfBounds
        else Ret (patch off_pr_fpvalid (le_bytes 4 (fpRegValid key)) (patch off_pr_reg (take sizeof_pr_reg raw) st))
    end
  else
    match te_regs t with
    | None => Ret st
    | Some bs =>
        Ret (patch off_pr_fpvalid (le_bytes 4 (if (GetRegset sizeof_user_fpsimd_struct (te_fpregs t)).1 then 1 else 0)) (patch off_pr_reg (take sizeof_pr_reg bs) st))
    end.

(** ** prpsinfo_t *)
Definition off_pr_state : nat := 0.
Definition off_pr_sname : nat := 1.
Definition off_pr_zomb : nat := 2.
Definition off_pr_nice : nat := 3.
Definition off_pr_flag : nat := 8.
Definition off_pr_uid : nat := 16.
Definition off_pr_gid : nat := 20.
Definition off_ps_pid : nat := 24.
Definition off_ps_ppid : nat := 28.
Definition off_ps_pgrp : nat := 32.
Definition off_ps_sid : nat := 36.
Definition off_pr_fname : nat := 40.
Definition sizeof_pr_fname : nat := 16.
Definition off_pr_psargs : nat := 56.
Definition sizeof_pr_psargs : nat := 80.

Fixpoint rfind_from (c : ascii) (i : nat) (s : list ascii) (found : option nat) : option nat :=
  match s with [] => found | d :: s' => rfind_from c (S i) s' (if Ascii.eqb c d then Some i else found) end.
(** [iss >> x] for an [int] and an [unsigned long]: the value and the rest, or the stream has failed. *)
Definition stream_int (s : list ascii) : option (list ascii) :=
  match scan_number 10 s with Some (v, rest) => if sfitsb 32 v then Some rest else None | None => None end.
Fixpoint skip_ints (n : nat) (s : list ascii) : option (list ascii) :=
  match n with O => Some s | S n' => match stream_int s with Some s => skip_ints n' s | None => None end end.
Definition stream_ulong (s : list ascii) : Z :=
  match scan_number 10 s with Some (v, _) => if Z.abs v <? 2 ^ 64 then u64 v else 2 ^ 64 - 1 | None => 0 end.

Definition is_nil (s : list ascii) : bool := match s with [] => true | _ => false end.

Definition ReadProcessStat (e : proc_env) (ps : list Z) : outcome (list Z) :=
  let line := pe_stat e in
  match line with
  | [] => Ret ps
  | _ =>
      match rfind_from ")"%char 0 line None with
      | None => Ret ps
      | Some closeParen =>
          s ← c_str_from (closeParen + 2) line;
          match drop_while isspace s with
          | [] => Undef UninitRead
          | state :: s =>
              match skip_ints 5 s with
              | None => Undef UninitRead
              | Some s =>
                  if is_nil (drop_while isspace s) then Undef UninitRead
                  else
                  let prFlag := stream_ulong s in
                  let ps := patch off_pr_state [code state] ps in
                  let ps := patch off_pr_sname [code state] ps in
                  let ps := patch off_pr_zomb [if Ascii.eqb state "Z"%char then 1 else 0] ps in
                  Ret (patch off_pr_flag (le_bytes 8 prFlag) ps)
              end
          end
      end
  end.

(** The lines of the status file in [ReadProcessStatus]: uid, gid and ppid. *)
Definition status_line (line : list ascii) (v : Z * Z * Z) : Z * Z * Z :=
  let '(uid, gid, ppid) := v in
  if StartsWith line UID then (match scan_uint (c_str (drop (length UID) line)) with Some u => u | None => uid end, gid, ppid)
  else if StartsWith line GID then (uid, match scan_uint (c_str (drop (length GID) line)) with Some g => g | None => gid end, ppid)
  else if StartsWith line PPID then (uid, gid, match scan_int (c_str (drop (length PPID) line)) with Some p => p | None => ppid end)
  else v.
Definition ReadProcessStatus (e : proc_env) (pid : Z) (ps : list Z) : list Z :=
  let ps := patch off_pr_nice (le_bytes 1 (pe_nice e)) ps in
  match pe_status e with
  | None => ps
  | Some lines =>
      let '(uid, gid, ppid) := fold_left (λ v line, status_line line v) lines (0, 0, 0) in
      let ps := patch off_pr_uid (le_bytes 4 uid) ps in
      let ps := patch off_pr_gid (le_bytes 4 gid) ps in
      let ps := patch off_ps_pid (le_bytes 4 pid) ps in
      let ps := patch off_ps_ppid (le_bytes 4 ppid) ps in
      let ps := patch off_ps_pgrp (le_bytes 4 (pe_pgrp e)) ps in
      patch off_ps_sid (le_bytes 4 (pe_sid e pid)) ps
  end.
(** [strncpy_s] of at most [size - 1] characters into an array of [size], then its last byte. *)
Definition copy_text (off size : nat) (s : list ascii) (ps : list Z) : list Z :=
  patch (off + size - 1) [0] (patch off (text_bytes (take (size - 1) (c_str s)) ++ [0]) ps).
Definition ReadProcessComm (e : proc_env) (ps : list Z) : list Z := match pe_comm e with [] => ps | s => copy_text off_pr_fname sizeof_pr_fname s ps end.
Definition ReadProcessCmdline (e : proc_env) (ps : list Z) : list Z := match pe_cmdline e with [] => ps | s => copy_text off_pr_psargs sizeof_pr_psargs s ps end.
Definition FillPrpsinfo (e : proc_env) (pid : Z) : outcome (list Z) :=
  ps ← ReadProcessStat e (replicate sizeof_prpsinfo_t 0);
  Ret (ReadProcessCmdline e (ReadProcessComm e (ReadProcessStatus e pid ps))).

(** ** Writing notes *)
Definition nhdr_bytes (namesz descsz type : Z) : list Z := le_bytes 4 namesz ++ le_bytes 4 descsz ++ le_bytes 4 type.
(** [NoteWrite]: the header through [Write], the name through a pointer. *)
Definition NoteWrite (noteType : Z) (descSize : nat) (noteName : list ascii) (b : CoredumpBufferWriter) : outcome (bool * CoredumpBufferWriter) :=
  let namesz := S (length noteName) in
  '(ok, b) ← buf_Write (nhdr_bytes namesz descSize noteType) b;
  if negb ok then Ret (false, b)
  else
    '(ok, buf) ← memcpy_s (bw_current b) 8 (text_bytes noteName ++ [0]) (bw_buf b);
    let b := mkWriter buf (bw_current b) in
    if negb ok then Ret (false, b) else Ret (true, (Advance 8 b).2).

Section Process.
Context (e : proc_env) (pid targetTid : Z) (key : CoredumpThread).

Definition PrstatusWrite (tid : Z) (b : CoredumpBufferWriter) : outcome (bool * CoredumpBufferWriter) :=
  '(ok, b) ← NoteWrite NT_PRSTATUS sizeof_prstatus_t NOTE_NAME_CORE b;
  if negb ok then Ret (false, b)
  else
    st ← GetPrStatus e targetTid tid key (replicate sizeof_prstatus_t 0);
    st ← GetPrReg e targetTid tid key st;
    buf_Write st b.
Definition thread_pacmask (tid : Z) : list Z := if tid =? targetTid then ntUserPacMask key else CoredumpGetPackMask (pe_thread e tid).
Definition ArmPacMaskWrite (tid : Z) (b : CoredumpBufferWriter) : outcome (bool * CoredumpBufferWriter) :=
  '(ok, b) ← NoteWrite NT_ARM_PAC_MASK sizeof_UserPacMask NOTE_NAME_LINUX b;
  if negb ok then Ret (false, b) else buf_Write (thread_pacmask tid) b.
Definition thread_fpregs (tid : Z) : list Z := if tid =? targetTid then ntFpregset key else (CoredumpGetFpRegset (pe_thread e tid)).2.
Definition FpregsetWrite (tid : Z) (b : CoredumpBufferWriter) : outcome (bool * CoredumpBufferWriter) :=
  '(ok, b) ← NoteWrite NT_FPREGSET sizeof_user_fpsimd_struct NOTE_NAME_CORE b;
  if negb ok then Ret (false, b) else buf_Write (thread_fpregs tid) b.
Definition thread_siginfo (tid : Z) : list Z := if tid =? targetTid then ntSiginfo key else CoredumpGetSiginfo (pe_thread e tid).
Definition SiginfoWrite (tid : Z) (b : CoredumpBufferWriter) : outcome (bool * CoredumpBufferWriter) :=
  '(ok, b) ← NoteWrite NT_SIGINFO sizeof_siginfo_t NOTE_NAME_CORE b;
  if negb ok then Ret (false, b) else buf_Write (thread_siginfo tid) b.
Definition ArmTaggedAddrCtrlWrite (b : CoredumpBufferWriter) : outcome (bool * CoredumpBufferWriter) :=
  '(ok, b) ← NoteWrite NT_ARM_TAGGED_ADDR_CTRL sizeof_long NOTE_NAME_LINUX b;
  if negb ok then Ret (false, b)
  else if (GetRemaining b <? sizeof_long)%nat then Ret (false, b)
  else b ← buf_poke (bw_current b) (replicate sizeof_long 0) b; Ret (true, (Advance sizeof_long b).2).

(** Writers in a row: what they return is not looked at. *)
Fixpoint run_writers (ws : list (CoredumpBufferWriter → outcome (bool * CoredumpBufferWriter))) (b : CoredumpBufferWriter) : outcome CoredumpBufferWriter :=
  match ws with
  | [] => Ret b
  | w :: ws' => '(_, b) ← w b; run_writers ws' b
  end.
Definition registered {A} (enable : bool) (w : A) : list A := if enable then [w] else [].
(** [ThreadNoteWriter::Write]; [cfg_] is a configuration of its own with the default values. *)
Definition thread_writers (cfg : NoteDumpThreadConfig) (tid : Z) : list (CoredumpBufferWriter → outcome (bool * CoredumpBufferWriter)) :=
  registered (prstatus cfg) (PrstatusWrite tid) ++ registered (armPacMask cfg) (ArmPacMaskWrite tid) ++ registered (fpregset cfg) (FpregsetWrite tid)
  ++ registered (siginfo cfg) (SiginfoWrite tid) ++ registered (armTaggedAddrCtrl cfg) ArmTaggedAddrCtrlWrite.
Definition ThreadNoteWriter_Write (tid : Z) (b : CoredumpBufferWriter) : outcome (bool * CoredumpBufferWriter) :=
  b ← run_writers (thread_writers (cfg_threads CoredumpConfig_new) tid) b; Ret (true, b).

(** The threads: entries of the directory that start with a digit. *)
Definition task_tid (entry : list ascii) : option Z :=
  match entry with
  | c :: _ => if (48 <=? code c) && (code c <=? 57) then (λ r, s32 (clamp (- 2 ^ 63) (2 ^ 63 - 1) r.1)) <$> scan_number 10 entry else None
  | [] => None
  end.
Definition MultiThreadNoteWriter_Write (b : CoredumpBufferWriter) : outcome (bool * CoredumpBufferWriter) :=
  match pe_tasks e with
  | None => Ret (false, b)
  | Some entries => b ← run_writers (map ThreadNoteWriter_Write (omap task_tid entries)) b; Ret (true, b)
  end.

Definition PrpsinfoWriter_Write (b : CoredumpBufferWriter) : outcome (bool * CoredumpBufferWriter) :=
  '(ok, b) ← NoteWrite NT_PRPSINFO sizeof_prpsinfo_t NOTE_NAME_CORE b;
  if negb ok then Ret (false, b) else ps ← FillPrpsinfo e pid; buf_Write ps b.

(** ** The auxiliary vector *)
Definition sizeof_Elf64_auxv_t : nat := 16.
Fixpoint auxv_loop (fuel : nat) (file : list Z) (note : nat) (b : CoredumpBufferWriter) : outcome (bool * CoredumpBufferWriter) :=
  match fuel with
  | O => OutOfFuel
  | S fuel' =>
      if (length file <? sizeof_Elf64_auxv_t)%nat then Ret (true, b)
      else
        let ntAuxv := take sizeof_Elf64_auxv_t file in
        descsz ← peek (note + 4) 4 (bw_buf b);
        b ← buf_poke (note + 4) (le_bytes 4 (of_le descsz + sizeof_Elf64_auxv_t)) b;
        '(ok, b) ← buf_Write ntAuxv b;
        if negb ok then Ret (false, b)
        else if field 0 8 ntAuxv =? 0 then Ret (true, b)
        else auxv_loop fuel' (drop sizeof_Elf64_auxv_t file) note b
  end.
Definition ReadProcessAuxv (note : nat) (b : CoredumpBufferWriter) : outcome (bool * CoredumpBufferWriter) :=
  b ← buf_poke (note + 4) (le_bytes 4 0) b;
  match pe_auxv e with
  | None => Ret (false, b)
  | Some file => auxv_loop (S (length file)) file note b
  end.
(** The header and the name of a note whose size is not known yet. *)
Definition open_note (type : Z) (b : CoredumpBufferWriter) : outcome (bool * CoredumpBufferWriter) :=
  let note := bw_current b in
  b ← buf_poke note (le_bytes 4 5) b;
  b ← buf_poke (note + 8) (le_bytes 4 type) b;
  let b := (Advance sizeof_Elf64_Nhdr b).2 in
  buf_Write (text_bytes NOTE_NAME_CORE ++ replicate (NOTE_NAME_SIZE - length NOTE_NAME_CORE) 0) b.
Definition AuxvWriter_Write (b : CoredumpBufferWriter) : outcome (bool * CoredumpBufferWriter) :=
  let note := bw_current b in
  '(ok, b) ← open_note NT_AUXV b;
  if negb ok then Ret (false, b) else '(_, b) ← ReadProcessAuxv note b; Ret (true, b).

(** ** The mapped files *)
Definition file_region (r : DumpMemoryRegions) : bool :=
  match pathName r, priority r with c :: _, d :: _ => Ascii.eqb c "/"%char && Ascii.eqb d "r"%char | _, _ => false end.
Fixpoint WriteAddrRelated (maps_ : list DumpMemoryRegions) (b : CoredumpBufferWriter) : outcome (bool * CoredumpBufferWriter) :=
  match maps_ with
  | [] => Ret (true, b)
  | r :: maps' =>
      if negb (file_region r) then WriteAddrRelated maps' b
      else
        '(ok, b) ← buf_Write (le_bytes 8 (startHex r) ++ le_bytes 8 (endHex r) ++ le_bytes 8 (offsetHex r)) b;
        if negb ok then Ret (false, b) else WriteAddrRelated maps' b
  end.
Fixpoint WriteFilePath (maps_ : list DumpMemoryRegions) (lineNumber : Z) (b : CoredumpBufferWriter) : outcome (bool * Z * CoredumpBufferWriter) :=
  match maps_ with
  | [] => Ret (true, lineNumber, b)
  | r :: maps' =>
      if negb (file_region r) then WriteFilePath maps' lineNumber b
      else
        '(ok, b) ← buf_Write (text_bytes (pathName r)) b;
        if negb ok then Ret (false, lineNumber, b)
        else
          b ← buf_poke (bw_current b) [0] b;
          WriteFilePath maps' (u16 (lineNumber + 1)) (Advance 1 b).2
  end.
Fixpoint pad_loop (n : nat) (b : CoredumpBufferWriter) : outcome CoredumpBufferWriter :=
  match n with
  | O => Ret b
  | S n' => b ← buf_poke (bw_current b) [0] b; pad_loop n' (Advance 1 b).2
  end.
Definition fileNoteAlignment : Z := 4.
Definition FileRegionWriter_Write (maps_ : list DumpMemoryRegions) (b : CoredumpBufferWriter) : outcome (bool * CoredumpBufferWriter) :=
  let note := bw_current b in
  '(ok, b) ← open_note NT_FILE b;
  if negb ok then Ret (false, b)
  else
    let startPointer := bw_current b in
    b ← buf_poke (startPointer + 8) (le_bytes 8 1) b;
    let b := (Advance 16 b).2 in
    '(ok, b) ← WriteAddrRelated maps_ b;
    if negb ok then Ret (false, b)
    else
      '(ok, lineNumber, b) ← WriteFilePath maps_ 1 b;
      if negb (ok : bool) then Ret (false, b)
      else
        let descsz := Z.of_nat (bw_current b) - startPointer in
        b ← buf_poke (note + 4) (le_bytes 4 descsz) b;
        b ← buf_poke startPointer (le_bytes 8 (lineNumber - 1)) b;
        let remain := u32 descsz mod fileNoteAlignment in
        b ← pad_loop (if remain =? 0 then 0 else Z.to_nat (fileNoteAlignment - remain)) b;
        Ret (true, b).

(** [NoteSegmentWriter::Write]: the notes, then size and place of the segment into its header, the
    first of the program headers. *)
Definition note_writers (cfg : NoteDumpProcessConfig) (maps_ : list DumpMemoryRegions) : list (CoredumpBufferWriter → outcome (bool * CoredumpBufferWriter)) :=
  registered (prpsinfo cfg) PrpsinfoWriter_Write ++ registered (multiThread cfg) MultiThreadNoteWriter_Write ++ registered (auxv cfg) AuxvWriter_Write
  ++ registered (dumpMappings cfg) (FileRegionWriter_Write maps_).
Definition NoteSegmentWriter_Write (maps_ : list DumpMemoryRegions) (b : CoredumpBufferWriter) : outcome CoredumpBufferWriter :=
  let noteStart := bw_current b in
  b ← run_writers (note_writers (cfg_process CoredumpConfig_new) maps_) b;
  b ← buf_poke (sizeof_Elf64_Ehdr + 32) (le_bytes 8 (Z.of_nat (bw_current b) - noteStart)) b;
  buf_poke (sizeof_Elf64_Ehdr + 8) (le_bytes 8 noteStart) b.
End Process.

(** ** The notes that are written *)
Record note := mkNote { n_type : Z; n_name : list ascii; n_desc : list Z }.
Definition note_head (type : Z) (descsz : nat) (name : list ascii) : list Z := nhdr_bytes (S (length name)) descsz type ++ text_bytes name ++ replicate (8 - length name) 0.
Definition pad4 (n : nat) : nat := Z.to_nat ((- Z.of_nat n) mod 4).
Definition note_bytes (x : note) : list Z := note_head (n_type x) (length (n_desc x)) (n_name x) ++ n_desc x ++ replicate (pad4 (length (n_desc x))) 0.

Lemma length_text s : length (text_bytes s) = length s.
Proof. apply length_map. Qed.
Lemma length_note_head t d name : (length name <= 8)%nat → length (note_head t d name) = 20%nat.
Proof. intros H. unfold note_head, nhdr_bytes. rewrite !length_app, !length_le_bytes, length_text, length_replicate. lia. Qed.

Lemma NoteWrite_at type descSize name p n : (length name < 8)%nat → (20 <= n)%nat →
  NoteWrite type descSize name (writer_at p n) = Ret (true, writer_at (p ++ note_head type descSize name) (n - 20)).
Proof.
  intros Hl Hn. unfold NoteWrite. set (h := nhdr_bytes _ _ _). assert (Hh : length h = 12%nat) by (unfold h, nhdr_bytes; by rewrite !length_app, !length_le_bytes).
  rewrite buf_Write_at by (try apply small_le; rewrite Hh; lia). cbn [mbind outcome_mbind negb]. unfold memcpy_s. cbn [Nat.eqb].
  rewrite length_app, length_text. cbn [length]. rewrite (proj2 (Nat.ltb_ge _ _)) by lia. rewrite Hh. cbn [bw_buf bw_current writer_at].
  set (q := p ++ h). set (nm := text_bytes name ++ [0]). assert (Hnm : length nm = S (length name)) by (unfold nm; rewrite length_app, length_text; cbn; lia).
  pose proof (poke_end nm q (n - 12)) as HP. unfold buf_poke in HP. cbn [bw_buf bw_current writer_at] in HP. destruct (poke_bytes (length q) nm _) as [buf| |] eqn:Ep; [|by specialize (HP ltac:(lia))..].
  cbn in HP |- *. specialize (HP ltac:(lia)). injection HP as ->. rewrite Advance_over by lia. cbn [snd]. do 2 f_equal. replace (n - 12 - 8)%nat with (n - 20)%nat by lia. f_equal.
  unfold q, note_head. fold h. rewrite <- !app_assoc. do 2 f_equal. unfold nm. rewrite <- app_assoc. f_equal. rewrite length_app, length_text. cbn [app length].
  by replace (8 - length name)%nat with (S (8 - (length name + 1))) by lia.
Qed.

Lemma pad4_0 n : Z.of_nat n mod 4 = 0 → pad4 n = O.
Proof. intros H. unfold pad4. rewrite Z_mod_zero_opp_full by done. done. Qed.

(** A note with its description. *)
Lemma write_note_at type desc size name p n : (length name < 8)%nat → size = length desc → small desc → Z.of_nat (length desc) mod 4 = 0 → (20 + length desc <= n)%nat →
  ('(ok, b) ← NoteWrite type size name (writer_at p n); if negb ok then Ret (false, b) else buf_Write desc b) =
  Ret (true, writer_at (p ++ note_bytes (mkNote type name desc)) (n - length (note_bytes (mkNote type name desc)))).
Proof.
  intros Hl -> Hs H4 Hn. rewrite NoteWrite_at by lia. cbn [mbind outcome_mbind negb]. rewrite buf_Write_at by (done || lia). unfold note_bytes. cbn [n_type n_name n_desc].
  rewrite pad4_0 by done. cbn [replicate]. rewrite app_nil_r, length_app, length_note_head by lia. do 2 f_equal. rewrite <- app_assoc. f_equal. lia.
Qed.

(** ** Sizes of the structures *)
Lemma length_fill n bs : length (fill n bs) = n.
Proof. unfold fill. rewrite length_app, length_take, length_replicate. lia. Qed.
Lemma length_GetRegset n r : length (GetRegset n r).2 = n.
Proof. destruct r; cbn; [apply length_fill|apply length_replicate]. Qed.
Lemma length_GetSiginfoCommon off size r mem : (off + size <= length mem)%nat → (off + sizeof_siginfo_t <= length mem)%nat → length (GetSiginfoCommon off size r mem).2 = length mem.
Proof.
  intros H1 H2. unfold GetSiginfoCommon. assert (H : length (patch off (replicate size 0) mem) = length mem) by (apply length_patch; by rewrite length_replicate).
  destruct r; cbn [snd]; [|done]. rewrite length_patch; [done|]. by rewrite length_fill, H.
Qed.

(** The thread that the request names: its structures, and at least the registers of [pr_reg]. *)
Record key_ok (key : CoredumpThread) : Prop := {
  ko_pac : length (ntUserPacMask key) = sizeof_UserPacMask;
  ko_fp : length (ntFpregset key) = sizeof_user_fpsimd_struct;
  ko_sig : length (ntSiginfo key) = sizeof_siginfo_t;
  ko_regs regs : keyRegs_ key = Some regs → (34 <= length regs)%nat
}.
Lemma CoredumpThread_Init_ok t regs : (∀ r, regs = Some r → (34 <= length r)%nat) → key_ok (CoredumpThread_Init t regs).
Proof.
  intros Hr. unfold CoredumpThread_Init, CoredumpGetFpRegset, CoredumpGetPrstatus. pose proof (length_GetRegset sizeof_user_fpsimd_struct (te_fpregs t)) as Hf.
  destruct (GetRegset _ _) as [ok fp]. destruct (GetSiginfoCommon _ _ _ _) as [ok' pr]. split; cbn [ntUserPacMask ntFpregset ntSiginfo keyRegs_].
  - apply length_GetRegset.
  - exact Hf.
  - unfold CoredumpGetSiginfo. rewrite length_GetSiginfoCommon; rewrite length_replicate; done.
  - exact Hr.
Qed.

(** The lines of status files are long enough for [GetPrStatus]. *)
Definition status_ok (e : proc_env) : Prop := ∀ tid lines, te_status (pe_thread e tid) = Some lines → Forall (λ l, (length PPID <= length l)%nat) lines.

Lemma prstatus_line_ok line st : (length PPID <= length line)%nat → length st = sizeof_prstatus_t → ∃ st', prstatus_line line st = Ret st' ∧ length st' = sizeof_prstatus_t.
Proof.
  intros Hl Hs. assert (Hp : ∀ (o : option Z) off k, (off + k <= sizeof_prstatus_t)%nat → length (match o with Some v => patch off (le_bytes k v) st | None => st end) = sizeof_prstatus_t).
  { intros [v|] off k H; [|done]. rewrite length_patch; [done|]. rewrite length_le_bytes. lia. }
  unfold prstatus_line, c_str_from. destruct (StartsWith line PPID) eqn:E; cbn [negb].
  - apply StartsWith_true in E as [s ->]. cbn. by exists st.
  - rewrite (proj2 (Nat.leb_le _ _)) by done. cbn [mbind outcome_mbind]. eexists. split; [done|]. apply Hp. vm_compute. lia.
Qed.
Lemma prstatus_lines_ok lines st : Forall (λ l, (length PPID <= length l)%nat) lines → length st = sizeof_prstatus_t → ∃ st', prstatus_lines lines st = Ret st' ∧ length st' = sizeof_prstatus_t.
Proof.
  intros H. revert st. induction H as [|l lines Hl H IH]; intros st Hs; [by exists st|]. cbn [prstatus_lines]. destruct (prstatus_line_ok l st Hl Hs) as (st' & -> & Hs'). by apply IH.
Qed.

Lemma patch_len off bs mem n : length mem = n → (off + length bs <= n)%nat → length (patch off bs mem) = n.
Proof. intros <-. apply length_patch. Qed.
Ltac patch_len := repeat (apply patch_len; [|rewrite ?length_le_bytes, ?length_fill; vm_compute; lia]); try done.

Section ProcessNotes.
Context (e : proc_env) (pid targetTid : Z) (key : CoredumpThread) (maps_ : list DumpMemoryRegions).
Context (Hst : status_ok e) (Hkey : key_ok key).

Definition prstatus_of (tid : Z) : outcome (list Z) := st ← GetPrStatus e targetTid tid key (replicate sizeof_prstatus_t 0); GetPrReg e targetTid tid key st.

Lemma GetPrStatus_ok tid : ∃ st, GetPrStatus e targetTid tid key (replicate sizeof_prstatus_t 0) = Ret st ∧ length st = sizeof_prstatus_t.
Proof.
  unfold GetPrStatus. set (z := replicate sizeof_prstatus_t 0). assert (Hz : length z = sizeof_prstatus_t) by apply length_replicate.
  set (st := if (tid =? targetTid) && _ then _ else _). assert (Hs : length st = sizeof_prstatus_t).
  { unfold st. destruct (_ && _).
    - patch_len.
    - pose proof (length_GetSiginfoCommon 0 sizeof_elf_siginfo (te_siginfo (pe_thread e tid)) z ltac:(rewrite Hz; vm_compute; lia) ltac:(rewrite Hz; vm_compute; lia)) as H. rewrite Hz in H.
      destruct (GetSiginfoCommon _ _ _ _) as [ok m]. cbn [snd] in H. destruct ok; [patch_len|done]. }
  destruct (te_status (pe_thread e tid)) as [lines|] eqn:E; [|by exists st]. destruct (prstatus_lines_ok lines st (Hst _ _ E) Hs) as (st' & -> & Hs').
  cbn [mbind outcome_mbind]. eexists. split; [done|]. unfold GetRusage.
patch_len.
Qed.

Lemma prstatus_ok tid : ∃ st, prstatus_of tid = Ret st ∧ length st = sizeof_prstatus_t.
Proof.
  unfold prstatus_of. destruct (GetPrStatus_ok tid) as (st & -> & Hs). cbn [mbind outcome_mbind]. unfold GetPrReg. destruct (tid =? targetTid).
  - destruct (keyRegs_ key) as [regs|] eqn:E; [|by exists st]. pose proof (ko_regs key Hkey regs E) as H34.
    assert (Hl : length (concat (map (le_bytes 8) regs)) = (8 * length regs)%nat). { clear. induction regs as [|r regs IH]; [done|]. cbn [map concat]. rewrite length_app, length_le_bytes, IH. cbn. lia. }
    rewrite (proj2 (Nat.ltb_ge _ _)) by (rewrite Hl; unfold sizeof_pr_reg; lia). eexists. split; [done|]. apply patch_len; [|rewrite length_le_bytes; vm_compute; lia].
    apply patch_len; [done|]. rewrite length_take. unfold off_pr_reg, sizeof_pr_reg, sizeof_prstatus_t. lia.
  - destruct (te_regs (pe_thread e tid)) as [bs|]; [|by exists st]. eexists. split; [done|]. apply patch_len; [|rewrite length_le_bytes; vm_compute; lia].
    apply patch_len; [done|]. rewrite length_take. unfold off_pr_reg, sizeof_pr_reg, sizeof_prstatus_t. lia.
Qed.

Definition ret_or_nil (o : outcome (list Z)) : list Z := match o with Ret d => d | _ => [] end.
(** The notes of a thread. *)
Definition thread_notes (tid : Z) : list note :=
  [mkNote NT_PRSTATUS NOTE_NAME_CORE (ret_or_nil (prstatus_of tid)); mkNote NT_ARM_PAC_MASK NOTE_NAME_LINUX (thread_pacmask e targetTid key tid);
   mkNote NT_FPREGSET NOTE_NAME_CORE (thread_fpregs e targetTid key tid); mkNote NT_SIGINFO NOTE_NAME_CORE (thread_siginfo e targetTid key tid);
   mkNote NT_ARM_TAGGED_ADDR_CTRL NOTE_NAME_LINUX (replicate sizeof_long 0)].

(** A writer that appends these bytes, if they fit. *)
Definition writes (w : CoredumpBufferWriter → outcome (bool * CoredumpBufferWriter)) (bs : list Z) : Prop :=
  ∀ p n, (length bs <= n)%nat → ∃ ok, w (writer_at p n) = Ret (ok, writer_at (p ++ bs) (n - length bs)).
Lemma run_writers_at ws bss p n : Forall2 writes ws bss → (length (concat bss) <= n)%nat → run_writers ws (writer_at p n) = Ret (writer_at (p ++ concat bss) (n - length (concat bss))).
Proof.
  intros H. revert p n. induction H as [|w bs ws bss Hw H IH]; intros p n Hn; cbn [run_writers concat] in *; [by rewrite app_nil_r, Nat.sub_0_r|].
  rewrite length_app in Hn. destruct (Hw p n ltac:(lia)) as [ok ->]. cbn [mbind outcome_mbind]. rewrite IH by lia. rewrite <- app_assoc, length_app. do 2 f_equal. lia.
Qed.
Lemma run_writers_writes ws bss : Forall2 writes ws bss → writes (λ b, b ← run_writers ws b; Ret (true, b)) (concat bss).
Proof. intros H p n Hn. exists true. by rewrite (run_writers_at ws bss). Qed.

Lemma length_note_bytes x : (length (n_name x) <= 8)%nat → Z.of_nat (length (n_desc x)) mod 4 = 0 → length (note_bytes x) = (20 + length (n_desc x))%nat.
Proof. intros H1 H2. unfold note_bytes. rewrite !length_app, length_note_head, pad4_0 by done. cbn. lia. Qed.

Lemma thread_writes tid : writes (ThreadNoteWriter_Write e targetTid key tid) (concat (map note_bytes (thread_notes tid))).
Proof.
  destruct Hkey as [K1 K2 K3 _]. destruct (prstatus_ok tid) as (st & Hs & Hl).
  assert (Hw : ∀ t d size name, (length name < 8)%nat → size = length d → (0 < length d <= 4096)%nat → Z.of_nat (length d) mod 4 = 0 →
    writes (λ b, '(ok, b) ← NoteWrite t size name b; if negb ok then Ret (false, b) else buf_Write d b) (note_bytes (mkNote t name d))).
  { intros t d size name H1 H2 H3 H4 p n Hn. rewrite length_note_bytes in Hn by (cbn; lia || done). cbn in Hn. exists true. by apply write_note_at; [..|lia]; try apply small_le. }
  apply run_writers_writes. cbn [cfg_threads CoredumpConfig_new thread_writers registered prstatus armPacMask fpregset siginfo armTaggedAddrCtrl app map thread_notes].
  repeat apply Forall2_cons_2; [..|constructor].
  - intros p n Hn. rewrite Hs in *. cbn [ret_or_nil] in *. destruct (Hw NT_PRSTATUS st sizeof_prstatus_t NOTE_NAME_CORE ltac:(cbn; lia) ltac:(done) ltac:(rewrite Hl; unfold sizeof_prstatus_t; lia) ltac:(rewrite Hl; done) p n Hn) as [ok E].
    exists ok. rewrite <- E. unfold PrstatusWrite. destruct (NoteWrite _ _ _ _) as [[o b]| |]; [|done..]. cbn [mbind outcome_mbind]. destruct o; [|done]. cbn [negb]. unfold prstatus_of in Hs.
    destruct (GetPrStatus _ _ _ _ _) as [s1| |]; [|done..]. cbn [mbind outcome_mbind] in Hs |- *. by rewrite Hs.
  - assert (length (thread_pacmask e targetTid key tid) = sizeof_UserPacMask) as H. { unfold thread_pacmask. destruct (_ =? _); [done|]. apply length_GetRegset. }
    apply Hw; rewrite ?H; [cbn; lia|done|unfold sizeof_UserPacMask; lia|done].
  - assert (length (thread_fpregs e targetTid key tid) = sizeof_user_fpsimd_struct) as H.
    { unfold thread_fpregs. destruct (_ =? _); [done|]. unfold CoredumpGetFpRegset. pose proof (length_GetRegset sizeof_user_fpsimd_struct (te_fpregs (pe_thread e tid))). by destruct (GetRegset _ _). }
    apply Hw; rewrite ?H; [cbn; lia|done|unfold sizeof_user_fpsimd_struct, sizeof_siginfo_t; lia|done].
  - assert (length (thread_siginfo e targetTid key tid) = sizeof_siginfo_t) as H.
    { unfold thread_siginfo. destruct (_ =? _); [done|]. unfold CoredumpGetSiginfo. rewrite length_GetSiginfoCommon; rewrite length_replicate; done. }
    apply Hw; rewrite ?H; [cbn; lia|done|unfold sizeof_user_fpsimd_struct, sizeof_siginfo_t; lia|done].
  - intros p n Hn. exists true. cbn in Hn. unfold ArmTaggedAddrCtrlWrite. rewrite NoteWrite_at by (cbn; lia). cbn [mbind outcome_mbind negb].
    unfold GetRemaining, GetCapacity. cbn [bw_buf bw_current writer_at]. rewrite (proj2 (Nat.ltb_ge _ _)) by (rewrite !length_app, length_replicate; unfold sizeof_long; lia).
    change (mkWriter (?a ++ replicate ?k 0) (length ?a)) with (writer_at a k). rewrite poke_end by (rewrite ?length_replicate; unfold sizeof_long; lia). cbn [mbind outcome_mbind].
    rewrite Advance_over by (rewrite ?length_replicate; unfold sizeof_long; lia). cbn [snd]. do 2 f_equal. f_equal; [by rewrite <- app_assoc|]. change (length (note_bytes _)) with 28%nat. unfold sizeof_long. lia.
Qed.

Definition task_tids : list Z := match pe_tasks e with Some entries => omap task_tid entries | None => [] end.
Lemma concat_flat {A B} (f : A → list B) (g : B → list Z) l : concat (map (λ x, concat (map g (f x))) l) = concat (map g (flat_map f l)).
Proof. induction l as [|x l IH]; [done|]. cbn. by rewrite IH, map_app, concat_app. Qed.
Lemma threads_write : writes (MultiThreadNoteWriter_Write e targetTid key) (concat (map note_bytes (flat_map thread_notes task_tids))).
Proof.
  unfold task_tids. intros p n Hn. unfold MultiThreadNoteWriter_Write. destruct (pe_tasks e) as [entries|]; [|exists false; cbn; by rewrite app_nil_r, Nat.sub_0_r].
  rewrite <- (concat_flat thread_notes note_bytes) in *. apply run_writers_writes; [|done]. apply Forall2_fmap_l, Forall2_fmap_r. apply Forall_Forall2_diag, list.Forall_forall. intros tid _. apply thread_writes.
Qed.

(** ** The process *)
Lemma FillPrpsinfo_length ps : FillPrpsinfo e pid = Ret ps → length ps = sizeof_prpsinfo_t.
Proof.
  unfold FillPrpsinfo. intros E. apply bind_Ret in E as (ps1 & E1 & [= <-]).
  assert (H1 : length ps1 = sizeof_prpsinfo_t).
  { unfold ReadProcessStat in E1. assert (Hz : length (replicate sizeof_prpsinfo_t 0) = sizeof_prpsinfo_t) by apply length_replicate. destruct (pe_stat e) as [|c l]; [by injection E1 as <-|].
    destruct (rfind_from _ _ _ _) as [cp|]; [|by injection E1 as <-]. apply bind_Ret in E1 as (s & _ & E1). destruct (drop_while isspace s) as [|st s']; [done|]. destruct (skip_ints 5 s') as [s2|]; [|done].
    destruct (is_nil _); [done|]. injection E1 as <-. patch_len. }
  assert (Ht : ∀ off size s m, length m = sizeof_prpsinfo_t → (0 < size)%nat → (off + size <= sizeof_prpsinfo_t)%nat → length (copy_text off size s m) = sizeof_prpsinfo_t).
  { intros off size s m Hm H0 Hs. unfold copy_text. apply patch_len; [|cbn; lia]. apply patch_len; [done|]. rewrite length_app, length_text, length_take. cbn. lia. }
  assert (H2 : length (ReadProcessStatus e pid ps1) = sizeof_prpsinfo_t).
  { unfold ReadProcessStatus. destruct (pe_status e) as [lines|]; [|patch_len]. destruct (fold_left _ lines _) as [[u g] pp]. patch_len. }
  assert (H3 : length (ReadProcessComm e (ReadProcessStatus e pid ps1)) = sizeof_prpsinfo_t).
  { unfold ReadProcessComm. destruct (pe_comm e); [done|]. apply Ht; [done|vm_compute; lia..]. }
  unfold ReadProcessCmdline. destruct (pe_cmdline e); [done|]. apply Ht; [done|vm_compute; lia..].
Qed.
Lemma prpsinfo_writes ps : FillPrpsinfo e pid = Ret ps → writes (PrpsinfoWriter_Write e pid) (note_bytes (mkNote NT_PRPSINFO NOTE_NAME_CORE ps)).
Proof.
  intros E p n Hn. pose proof (FillPrpsinfo_length ps E) as Hl. rewrite length_note_bytes in Hn by (cbn; rewrite ?Hl; vm_compute; lia || done). cbn in Hn. exists true.
  unfold PrpsinfoWriter_Write. rewrite E. cbn [mbind outcome_mbind]. apply write_note_at; [vm_compute; lia|done|apply small_le; rewrite Hl; unfold sizeof_prpsinfo_t; lia|by rewrite Hl|lia].
Qed.

(** ** The auxiliary vector *)
Lemma patch_descsz p t d v nm r : patch (length p + 4) (le_bytes 4 (Z.of_nat v)) (p ++ note_head t d nm ++ r) = p ++ note_head t v nm ++ r.
Proof.
  unfold note_head, nhdr_bytes. set (a := le_bytes 4 (S (length nm))). set (c := le_bytes 4 t). rewrite <- !app_assoc.
  rewrite (patch_app_eq _ (p ++ a) (le_bytes 4 d) (le_bytes 4 v) (c ++ text_bytes nm ++ replicate (8 - length nm) 0 ++ r)).
  - by rewrite <- !app_assoc.
  - by rewrite <- !app_assoc.
  - rewrite length_app. unfold a. by rewrite length_le_bytes.
  - by rewrite !length_le_bytes.
Qed.
Lemma open_note_at type p n : (20 <= n)%nat → open_note type (writer_at p n) = Ret (true, writer_at (p ++ note_head type 0 NOTE_NAME_CORE) (n - 20)).
Proof.
  intros Hn. unfold open_note. cbn [bw_current writer_at]. rewrite poke_end by (rewrite length_le_bytes; lia). cbn [mbind outcome_mbind]. unfold buf_poke. cbn [bw_buf bw_current].
  rewrite length_le_bytes. set (five := le_bytes 4 5). set (ty := le_bytes 4 type).
  replace (p ++ five ++ replicate (n - 4) 0) with ((p ++ five ++ replicate 4 0) ++ replicate 4 0 ++ replicate (n - 12) 0).
  2: { rewrite <- !app_assoc. do 2 f_equal. rewrite <- !replicate_add. f_equal. lia. }
  rewrite poke_bytes_Ret by (rewrite !length_app, !length_replicate; unfold ty, five; rewrite !length_le_bytes; lia). cbn [mbind outcome_mbind].
  rewrite (patch_app_eq _ (p ++ five ++ replicate 4 0) (replicate 4 0) ty (replicate (n - 12) 0)); [|done|rewrite !length_app, length_replicate; unfold five; rewrite length_le_bytes; lia|done].
  set (h := five ++ replicate 4 0 ++ ty). assert (Hh : length h = 12%nat) by done.
  replace ((p ++ five ++ replicate 4 0) ++ ty ++ replicate (n - 12) 0) with (p ++ h ++ replicate (n - length h) 0) by (rewrite Hh; unfold h; by rewrite <- !app_assoc).
  rewrite Advance_over by (rewrite ?Hh; unfold sizeof_Elf64_Nhdr; lia). cbn [snd]. rewrite Hh. unfold sizeof_Elf64_Nhdr. cbn [Nat.sub replicate]. rewrite app_nil_r.
  rewrite buf_Write_at by (try apply small_le; cbn; lia). rewrite <- app_assoc. do 2 f_equal. replace (n - 12 - _)%nat with (n - 20)%nat by (cbn; lia). done.
Qed.

(** The entries of the file up to the one that ends them. *)
Fixpoint auxv_desc (fuel : nat) (file : list Z) : list Z :=
  match fuel with
  | O => []
  | S fuel' =>
      if (length file <? sizeof_Elf64_auxv_t)%nat then []
      else take sizeof_Elf64_auxv_t file ++ (if field 0 8 (take sizeof_Elf64_auxv_t file) =? 0 then [] else auxv_desc fuel' (drop sizeof_Elf64_auxv_t file))
  end.
Lemma length_auxv_desc fuel file : (length (auxv_desc fuel file) <= length file)%nat ∧ Z.of_nat (length (auxv_desc fuel file)) mod 4 = 0.
Proof.
  revert file. induction fuel as [|fuel IH]; intros file; [split; [cbn; lia|done]|]. cbn [auxv_desc]. destruct (Nat.ltb_spec (length file) sizeof_Elf64_auxv_t) as [|H]; [cbn; split; [lia|done]|].
  destruct (IH (drop sizeof_Elf64_auxv_t file)) as [H1 H2]. rewrite length_drop in H1. unfold sizeof_Elf64_auxv_t in *. destruct (_ =? 0); rewrite length_app, length_take; replace (16 `min` length file)%nat with 16%nat by lia; cbn [length]; (split; [lia|]); [done|]. rewrite Nat2Z.inj_add, <- Z.add_mod_idemp_r, H2 by lia. done.
Qed.

Lemma auxv_loop_at p fuel : ∀ file acc n, (length file < fuel)%nat → (length acc + length file)%nat < 2 ^ 32 → (length (auxv_desc fuel file) <= n)%nat →
  auxv_loop fuel file (length p) (writer_at (p ++ note_head NT_AUXV (length acc) NOTE_NAME_CORE ++ acc) n) =
  Ret (true, writer_at (p ++ note_head NT_AUXV (length acc + length (auxv_desc fuel file)) NOTE_NAME_CORE ++ acc ++ auxv_desc fuel file) (n - length (auxv_desc fuel file))).
Proof.
  induction fuel as [|fuel IH]; intros file acc n Hf Ha Hn; [lia|]. cbn [auxv_loop auxv_desc] in *.
  destruct (Nat.ltb_spec (length file) sizeof_Elf64_auxv_t) as [Hs|Hs]; [cbn [length]; by rewrite Nat.add_0_r, app_nil_r, Nat.sub_0_r|].
  set (chunk := take sizeof_Elf64_auxv_t file) in *. assert (Hc : length chunk = 16%nat) by (unfold chunk; rewrite length_take; unfold sizeof_Elf64_auxv_t in *; lia).
  set (h := note_head NT_AUXV (length acc) NOTE_NAME_CORE). assert (Hh : length h = 20%nat) by done.
  rewrite peek_in by (rewrite !length_app, Hh; lia). cbn [mbind outcome_mbind].
  rewrite (slice_mid_eq _ 4 (p ++ le_bytes 4 5) (le_bytes 4 (length acc)) (le_bytes 4 NT_AUXV ++ text_bytes NOTE_NAME_CORE ++ replicate 4 0 ++ acc)); [|unfold h, note_head, nhdr_bytes; by rewrite <- !app_assoc|by rewrite length_app, length_le_bytes|done].
  rewrite of_le_le_bytes, wrap_small by (unfold fits; change (8 * 4%nat) with 32; lia). replace (length acc + sizeof_Elf64_auxv_t) with (Z.of_nat (length acc + 16)) by (unfold sizeof_Elf64_auxv_t; lia).
  rewrite buf_poke_in by (rewrite !length_app, Hh, length_le_bytes; lia). unfold h. rewrite patch_descsz. cbn [mbind outcome_mbind].
  assert (Hn16 : (16 <= n)%nat) by (rewrite length_app, Hc in Hn; lia). rewrite buf_Write_at by (try apply small_le; rewrite Hc; lia). rewrite Hc. cbn [mbind outcome_mbind negb].
  assert (Hacc : (p ++ note_head NT_AUXV (length acc + 16) NOTE_NAME_CORE ++ acc) ++ chunk = p ++ note_head NT_AUXV (length (acc ++ chunk)) NOTE_NAME_CORE ++ acc ++ chunk) by (rewrite length_app, Hc; by rewrite <- !app_assoc).
  rewrite Hacc. destruct (field 0 8 chunk =? 0).
  - rewrite app_nil_r, Hc, length_app, Hc. done.
  - rewrite length_app, Hc in Hn. rewrite IH by (rewrite ?length_app, ?length_drop, ?Hc; unfold sizeof_Elf64_auxv_t in *; lia).
    set (D := auxv_desc fuel (drop sizeof_Elf64_auxv_t file)) in *. rewrite !length_app, Hc, <- !app_assoc. rewrite Nat.add_assoc. do 2 f_equal. f_equal. lia.
Qed.

Definition auxv_bytes : list Z := match pe_auxv e with Some file => auxv_desc (S (length file)) file | None => [] end.
Definition auxv_note : note := mkNote NT_AUXV NOTE_NAME_CORE auxv_bytes.
Lemma auxv_writes : (∀ file, pe_auxv e = Some file → length file < 2 ^ 32) → writes (AuxvWriter_Write e) (note_bytes auxv_note).
Proof.
  intros Hf p n Hn. exists true. unfold auxv_note, auxv_bytes in *. set (D := match pe_auxv e with Some _ => _ | None => _ end) in *.
  assert (H4 : Z.of_nat (length D) mod 4 = 0) by (unfold D; destruct (pe_auxv e) as [file|]; [apply (length_auxv_desc _ file)|done]). rewrite length_note_bytes in Hn |- * by (cbn; lia || done). cbn [n_desc] in Hn.
  unfold AuxvWriter_Write. rewrite open_note_at by lia. cbn [mbind outcome_mbind negb]. unfold ReadProcessAuxv. cbn [bw_current writer_at].
  rewrite buf_poke_in by (rewrite !length_app; cbn; lia). rewrite <- (app_nil_r (note_head _ _ _)) at 1. rewrite (patch_descsz p NT_AUXV 0 0). cbn [mbind outcome_mbind].
  unfold note_bytes. cbn [n_type n_name n_desc]. rewrite pad4_0 by done. cbn [replicate]. rewrite app_nil_r. destruct (pe_auxv e) as [file|] eqn:Ef.
  - pose proof (auxv_loop_at p (S (length file)) file [] (n - 20) ltac:(lia) ltac:(cbn [length]; specialize (Hf file eq_refl); lia) ltac:(fold D; lia)) as HL. fold D in HL. cbn [length app Nat.add] in HL. rewrite !app_nil_r in HL.
    rewrite !app_nil_r, HL. cbn [mbind outcome_mbind]. do 2 f_equal. f_equal. lia.
  - unfold D. cbn [mbind outcome_mbind length]. rewrite !app_nil_r. do 2 f_equal.
Qed.

(** ** The mapped files *)
Definition file_maps : list DumpMemoryRegions := List.filter file_region maps_.
Definition addr_bytes (r : DumpMemoryRegions) : list Z := le_bytes 8 (startHex r) ++ le_bytes 8 (endHex r) ++ le_bytes 8 (offsetHex r).
Definition path_bytes (r : DumpMemoryRegions) : list Z := text_bytes (pathName r) ++ [0].
Definition file_desc : list Z := le_bytes 8 (length file_maps) ++ le_bytes 8 1 ++ concat (map addr_bytes file_maps) ++ concat (map path_bytes file_maps).
Definition file_note : note := mkNote NT_FILE NOTE_NAME_CORE file_desc.
Definition region_ok (r : DumpMemoryRegions) : Prop := (length (pathName r) < PATH_MAX_LEN)%nat.

Lemma put_zero_at p n : (1 <= n)%nat → buf_poke (length p) [0] (writer_at p n) = Ret (writer_at p n).
Proof. intros H. rewrite poke_end by (cbn; lia). cbn [length]. unfold writer_at. do 2 f_equal. f_equal. destruct n; [lia|]. cbn. by rewrite Nat.sub_0_r. Qed.
Lemma poke_past k bs p n : (k + length bs <= n)%nat →
  buf_poke (length p + k) bs (writer_at p n) = Ret (mkWriter (p ++ (replicate k 0 ++ bs) ++ replicate (n - length (replicate k 0 ++ bs)) 0) (length p)).
Proof.
  intros H. unfold buf_poke. cbn [bw_buf bw_current writer_at]. rewrite poke_bytes_Ret by (rewrite length_app, length_replicate; lia). cbn [mbind outcome_mbind]. do 2 f_equal.
  rewrite (patch_app_eq _ (p ++ replicate k 0) (replicate (length bs) 0) bs (replicate (n - length (replicate k 0 ++ bs)) 0)).
  - by rewrite <- !app_assoc.
  - rewrite <- app_assoc. f_equal. rewrite <- !replicate_add. f_equal. rewrite length_app, length_replicate. lia.
  - rewrite length_app, length_replicate. lia.
  - by rewrite length_replicate.
Qed.
Lemma pad_loop_at k p n : (k <= n)%nat → pad_loop k (writer_at p n) = Ret (writer_at (p ++ replicate k 0) (n - k)).
Proof.
  revert p n. induction k as [|k IH]; intros p n H; cbn [pad_loop replicate]; [by rewrite app_nil_r, Nat.sub_0_r|]. cbn [bw_current writer_at]. change (mkWriter (p ++ replicate n 0) (length p)) with (writer_at p n).
  rewrite put_zero_at by lia. cbn [mbind outcome_mbind]. rewrite Advance_at by lia. cbn [snd replicate]. rewrite IH by lia. rewrite <- app_assoc. do 2 f_equal. lia.
Qed.

Lemma WriteAddrRelated_at ms p n : (length (concat (map addr_bytes (List.filter file_region ms))) <= n)%nat →
  WriteAddrRelated ms (writer_at p n) = Ret (true, writer_at (p ++ concat (map addr_bytes (List.filter file_region ms))) (n - length (concat (map addr_bytes (List.filter file_region ms))))).
Proof.
  revert p n. induction ms as [|r ms IH]; intros p n Hn; cbn [WriteAddrRelated List.filter map concat] in *; [by rewrite app_nil_r, Nat.sub_0_r|].
  destruct (file_region r); cbn [negb map concat] in *; [|by apply IH]. assert (Ha : length (addr_bytes r) = 24%nat) by (unfold addr_bytes; by rewrite !length_app, !length_le_bytes).
  rewrite length_app, Ha in Hn. fold (addr_bytes r). rewrite buf_Write_at by (try apply small_le; rewrite Ha; lia). cbn [mbind outcome_mbind negb]. rewrite IH by lia.
  rewrite <- app_assoc, length_app. do 2 f_equal. f_equal. lia.
Qed.
Lemma WriteFilePath_at ms line p n : Forall region_ok ms → (length (concat (map path_bytes (List.filter file_region ms))) <= n)%nat → line + length (List.filter file_region ms) < 2 ^ 16 → 0 <= line →
  WriteFilePath ms line (writer_at p n) =
  Ret (true, line + length (List.filter file_region ms), writer_at (p ++ concat (map path_bytes (List.filter file_region ms))) (n - length (concat (map path_bytes (List.filter file_region ms))))).
Proof.
  intros H. revert line p n. induction H as [|r ms Hr H IH]; intros line p n Hn Hl H0; cbn [WriteFilePath List.filter map concat] in *; [by rewrite Z.add_0_r, app_nil_r, Nat.sub_0_r|].
  destruct (file_region r) eqn:Ef; cbn [negb map concat length] in *; [|by apply IH].
  assert (Hp : (0 < length (pathName r))%nat) by (unfold file_region in Ef; destruct (pathName r); [done|cbn; lia]). unfold region_ok, PATH_MAX_LEN in Hr.
  rewrite length_app in Hn. unfold path_bytes at 1 in Hn. rewrite length_app, length_text in Hn. cbn [length] in Hn.
  rewrite buf_Write_at by (try apply small_le; rewrite length_text; lia). cbn [mbind outcome_mbind negb]. cbn [bw_current writer_at]. change (mkWriter (?a ++ replicate ?k 0) (length ?a)) with (writer_at a k).
  rewrite length_text. rewrite put_zero_at by lia. cbn [mbind outcome_mbind]. rewrite Advance_at by lia. cbn [snd replicate]. rewrite wrap_small by (unfold fits; lia). rewrite IH by lia.
  assert (E : ((p ++ text_bytes (pathName r)) ++ [0]) = p ++ path_bytes r) by (unfold path_bytes; by rewrite <- app_assoc). rewrite E, <- app_assoc, length_app.
  assert (length (path_bytes r) = S (length (pathName r))) as -> by (unfold path_bytes; rewrite length_app, length_text; cbn; lia). do 2 f_equal; [f_equal; lia|]. f_equal. lia.
Qed.

Lemma length_addrs l : length (concat (map addr_bytes l)) = (24 * length l)%nat.
Proof. induction l as [|r l IH]; [done|]. cbn [map concat]. rewrite length_app, IH. unfold addr_bytes. rewrite !length_app, !length_le_bytes. cbn [length]. lia. Qed.

Lemma file_writes : Forall region_ok maps_ → length file_maps < 2 ^ 16 - 1 → length file_desc < 2 ^ 32 → writes (FileRegionWriter_Write maps_) (note_bytes file_note).
Proof.
  intros Hr Hc H32 p n Hn. exists true. unfold file_note, note_bytes in Hn |- *. cbn [n_type n_name n_desc] in *. rewrite !length_app, length_replicate, length_note_head in Hn |- * by (cbn; lia).
  set (A := concat (map addr_bytes file_maps)) in *. set (P := concat (map path_bytes file_maps)) in *.
  assert (HD : length file_desc = (16 + length A + length P)%nat) by (unfold file_desc; rewrite !length_app, !length_le_bytes; fold A P; lia). set (q := p ++ note_head NT_FILE 0 NOTE_NAME_CORE).
  unfold FileRegionWriter_Write. rewrite open_note_at by lia. cbn [mbind outcome_mbind negb]. fold q. cbn [bw_current writer_at].
  rewrite poke_past by (rewrite length_le_bytes; lia). cbn [mbind outcome_mbind]. set (h := replicate 8 0 ++ le_bytes 8 1). assert (Hh : length h = 16%nat) by done.
  rewrite Advance_over by (rewrite ?Hh; lia). cbn [snd]. rewrite Hh. cbn [Nat.sub replicate]. rewrite app_nil_r.
  rewrite WriteAddrRelated_at by (fold file_maps A; lia). fold file_maps A. cbn [mbind outcome_mbind negb]. rewrite WriteFilePath_at by (done || (fold file_maps P; lia)). fold file_maps P. cbn [mbind outcome_mbind negb bw_current writer_at].
  set (body := ((q ++ h) ++ A) ++ P). assert (Hb : body = p ++ note_head NT_FILE 0 NOTE_NAME_CORE ++ h ++ A ++ P) by (unfold body, q; by rewrite <- !app_assoc).
  assert (Hlb : length body = (length p + 20 + length file_desc)%nat) by (rewrite Hb, !length_app, Hh, HD; cbn; lia). assert (Hlq : length q = (length p + 20)%nat) by (unfold q; rewrite length_app; done).
  change (mkWriter (?a ++ replicate ?k 0) (length ?a)) with (writer_at a k). replace (Z.of_nat (length body) - length q) with (Z.of_nat (length file_desc)) by lia.
  rewrite buf_poke_in by (rewrite Hlb, length_le_bytes; lia). rewrite Hb, patch_descsz. cbn [mbind outcome_mbind].
  rewrite buf_poke_in by (rewrite !length_app, length_le_bytes, Hh, length_note_head, Hlq by (cbn; lia); lia).
  rewrite (patch_app_eq _ (p ++ note_head NT_FILE (length file_desc) NOTE_NAME_CORE) (replicate 8 0) (le_bytes 8 (1 + length file_maps - 1)) (le_bytes 8 1 ++ A ++ P));
    [|unfold h; by rewrite <- !app_assoc|by rewrite length_app, length_note_head, Hlq by (cbn; lia)|done].
  cbn [mbind outcome_mbind]. replace (1 + Z.of_nat (length file_maps) - 1) with (Z.of_nat (length file_maps)) by lia.
  replace ((p ++ note_head _ _ _) ++ _) with (p ++ note_head NT_FILE (length file_desc) NOTE_NAME_CORE ++ file_desc) by (unfold file_desc; fold A P; by rewrite <- !app_assoc).
  rewrite wrap_small by (unfold fits; lia). assert (Hpad : (if Z.of_nat (length file_desc) mod fileNoteAlignment =? 0 then 0%nat else Z.to_nat (fileNoteAlignment - Z.of_nat (length file_desc) mod fileNoteAlignment)) = pad4 (length file_desc)).
  { unfold fileNoteAlignment, pad4. destruct (Z.eqb_spec (Z.of_nat (length file_desc) mod 4) 0) as [E|E]; [by rewrite Z_mod_zero_opp_full|by rewrite Z_mod_nz_opp_full]. }
  rewrite Hpad, pad_loop_at by lia. cbn [mbind outcome_mbind]. rewrite <- !app_assoc. do 2 f_equal. f_equal. lia.
Qed.

(** ** The segment *)

(** The process can be described: its files have the form the kernel gives them. *)
Record process_ok (ps : list Z) : Prop := {
  po_prpsinfo : FillPrpsinfo e pid = Ret ps;
  po_auxv file : pe_auxv e = Some file → length file < 2 ^ 32;
  po_regions : Forall region_ok maps_;
  po_files : length file_maps < 2 ^ 16 - 1;
  po_desc : length file_desc < 2 ^ 32
}.
Definition process_notes (ps : list Z) : list note := mkNote NT_PRPSINFO NOTE_NAME_CORE ps :: flat_map thread_notes task_tids ++ [auxv_note; file_note].
Definition notes_bytes (ps : list Z) : list Z := concat (map note_bytes (process_notes ps)).

Lemma NoteSegmentWriter_at ps p n : process_ok ps → (120 <= length p)%nat → (length (notes_bytes ps) <= n)%nat →
  NoteSegmentWriter_Write e pid targetTid key maps_ (writer_at p n) =
  Ret (writer_at (patch 72 (le_bytes 8 (length p)) (patch 96 (le_bytes 8 (length (notes_bytes ps))) p) ++ notes_bytes ps) (n - length (notes_bytes ps))).
Proof.
  intros [H1 H2 H3 H4 H5] Hp Hn. unfold NoteSegmentWriter_Write. cbn [note_writers cfg_process CoredumpConfig_new registered prpsinfo multiThread auxv dumpMappings app].
  assert (Hc : notes_bytes ps = concat [note_bytes (mkNote NT_PRPSINFO NOTE_NAME_CORE ps); concat (map note_bytes (flat_map thread_notes task_tids)); note_bytes auxv_note; note_bytes file_note]).
  { unfold notes_bytes, process_notes. cbn [map concat]. by rewrite map_app, concat_app. }
  erewrite run_writers_at; [|repeat apply Forall2_cons_2; [by apply prpsinfo_writes|by apply threads_write|by apply auxv_writes|by apply file_writes|constructor]|by rewrite <- Hc].
  rewrite <- Hc. cbn [mbind outcome_mbind bw_current writer_at]. change (mkWriter (?a ++ replicate ?k 0) (length ?a)) with (writer_at a k). unfold sizeof_Elf64_Ehdr. cbn [Nat.add].
  replace (Z.of_nat (length (p ++ notes_bytes ps)) - length p) with (Z.of_nat (length (notes_bytes ps))) by (rewrite length_app; lia).
  rewrite buf_poke_in by (rewrite length_app, length_le_bytes; lia). cbn [mbind outcome_mbind]. rewrite patch_app_l by (rewrite length_le_bytes; lia).
  rewrite buf_poke_in by (rewrite length_app, length_patch, length_le_bytes by (rewrite length_le_bytes; lia); lia). rewrite patch_app_l; [done|]. rewrite length_patch, length_le_bytes by (rewrite length_le_bytes; lia). lia.
Qed.
End ProcessNotes.

(** A reader of note segments: header, name and description, both aligned to four bytes. *)
Fixpoint parse_notes (fuel : nat) (bs : list Z) : option (list note) :=
  match fuel, bs with
  | _, [] => Some []
  | O, _ => None
  | S fuel', _ =>
      let namesz := Z.to_nat (field 0 4 bs) in
      let descsz := Z.to_nat (field 4 4 bs) in
      let desc := (12 + namesz + pad4 namesz)%nat in
      if (length bs <? desc + descsz)%nat then None
      else (λ l, mkNote (field 8 4 bs) (map chr (slice 12 (namesz - 1) bs)) (slice desc descsz bs) :: l) <$> parse_notes fuel' (drop (desc + descsz + pad4 descsz) bs)
  end.
Record note_ok (x : note) : Prop := {
  no_type : fits 32 (n_type x);
  no_name : (4 <= length (n_name x) < 8)%nat;
  no_desc : length (n_desc x) < 2 ^ 32
}.
Lemma parse_notes_bytes ns : Forall note_ok ns → parse_notes (length ns) (concat (map note_bytes ns)) = Some ns.
Proof.
  induction 1 as [|x ns [Ht Hn Hd] H IH]; [done|]. cbn [length map concat]. destruct x as [t nm d]. cbn [n_type n_name n_desc] in *. unfold note_bytes at 1. cbn [n_type n_name n_desc].
  set (rest := concat (map note_bytes ns)) in *. set (pad := replicate (pad4 (length d)) 0). set (h := note_head t (length d) nm). assert (Hh : length h = 20%nat) by (apply length_note_head; lia).
  assert (Hbs : (h ++ d ++ pad) ++ rest = le_bytes 4 (S (length nm)) ++ le_bytes 4 (length d) ++ le_bytes 4 t ++ text_bytes nm ++ replicate (8 - length nm) 0 ++ d ++ pad ++ rest) by (unfold h, note_head, nhdr_bytes; by rewrite <- !app_assoc).
  set (bs := (h ++ d ++ pad) ++ rest) in *. assert (Hne : bs ≠ []) by (rewrite Hbs; done). cbn [parse_notes]. destruct bs as [|b bs'] eqn:Eb; [done|]. rewrite <- Eb in *. clear Eb b bs' Hne.
  assert (H0 : field 0 4 bs = S (length nm)). { unfold field. rewrite (slice_mid_eq 0 4 [] _ _ bs Hbs) by done. rewrite of_le_le_bytes, wrap_small; [done|]. unfold fits. change (8 * 4%nat) with 32. lia. }
  assert (H4 : field 4 4 bs = length d). { unfold field. rewrite (slice_mid_eq 4 4 (le_bytes 4 (S (length nm))) _ _ bs Hbs) by done. rewrite of_le_le_bytes, wrap_small; [done|]. unfold fits. change (8 * 4%nat) with 32. lia. }
  assert (H8 : field 8 4 bs = t). { unfold field. rewrite (slice_mid_eq 8 4 (le_bytes 4 (S (length nm)) ++ le_bytes 4 (length d)) (le_bytes 4 t) (text_bytes nm ++ replicate (8 - length nm) 0 ++ d ++ pad ++ rest) bs); [|by rewrite <- app_assoc|done|done]. by rewrite of_le_le_bytes, wrap_small. }
  rewrite H0, H4, H8, !Nat2Z.id. assert (Hp : (12 + S (length nm) + pad4 (S (length nm)))%nat = 20%nat).
  { unfold pad4. destruct nm as [|? [|? [|? [|? [|? [|? [|? [|? ?]]]]]]]]; cbn in Hn; try lia; done. }
  rewrite Hp. rewrite (proj2 (Nat.ltb_ge _ _)) by (rewrite Hbs, !length_app, !length_le_bytes, length_text, length_replicate; lia).
  rewrite (slice_mid_eq 12 _ (le_bytes 4 (S (length nm)) ++ le_bytes 4 (length d) ++ le_bytes 4 t) (text_bytes nm) (replicate (8 - length nm) 0 ++ d ++ pad ++ rest) bs); [|by rewrite <- !app_assoc|done|rewrite length_text; lia].
  assert (Hd2 : bs = h ++ d ++ pad ++ rest) by (unfold h, note_head, nhdr_bytes; by rewrite <- !app_assoc). rewrite (slice_mid_eq 20 (length d) h d (pad ++ rest) bs) by done.
  replace (drop _ bs) with rest. 2: { rewrite Hd2, !app_assoc. rewrite drop_app_length'; [done|]. rewrite !length_app, Hh. unfold pad. by rewrite length_replicate. }
  rewrite IH. cbn. do 3 f_equal. unfold text_bytes. rewrite map_map. rewrite <- (map_id nm) at 2. apply map_ext. intros c. apply chr_code.
Qed.

Lemma process_notes_ok e pid targetTid key maps_ ps : status_ok e → key_ok key → process_ok e pid maps_ ps → Forall note_ok (process_notes e targetTid key maps_ ps).
Proof.
  intros Hst Hkey [H1 H2 H3 H4 H5]. assert (Hn : ∀ t nm d, fits 32 t → nm = NOTE_NAME_CORE ∨ nm = NOTE_NAME_LINUX → length d < 2 ^ 32 → note_ok (mkNote t nm d)) by (intros t nm d ? [-> | ->] ?; split; cbn; lia || done).
  apply Forall_cons_2; [|apply list.Forall_app; split].
  - apply Hn; [done|by left|]. by rewrite (FillPrpsinfo_length e pid).
  - apply list.Forall_forall. intros x Hx. apply list_elem_of_In, in_flat_map in Hx as (tid & _ & Hx). destruct (prstatus_ok e targetTid key Hst Hkey tid) as (st & Hs & Hl). destruct Hkey as [K1 K2 K3 _].
    cbn [thread_notes In] in Hx. rewrite Hs in Hx. cbn [ret_or_nil] in Hx. destruct Hx as [<-|[<-|[<-|[<-|[<-|[]]]]]].
    + apply Hn; [done|by left|by rewrite Hl].
    + apply Hn; [done|by right|]. unfold thread_pacmask, CoredumpGetPackMask. destruct (_ =? _); [by rewrite K1|by rewrite length_GetRegset].
    + apply Hn; [done|by left|]. unfold thread_fpregs, CoredumpGetFpRegset. destruct (_ =? _); [by rewrite K2|]. pose proof (length_GetRegset sizeof_user_fpsimd_struct (te_fpregs (pe_thread e tid))) as H. destruct (GetRegset _ _). cbn in *. by rewrite H.
    + apply Hn; [done|by left|]. unfold thread_siginfo, CoredumpGetSiginfo. destruct (_ =? _); [by rewrite K3|]. by rewrite length_GetSiginfoCommon by by rewrite length_replicate.
    + apply Hn; [done|by right|done].
  - apply Forall_cons_2; [|apply Forall_cons_2; [by apply Hn; [|left|]|constructor]]. apply Hn; [done|by left|]. unfold auxv_bytes. destruct (pe_auxv e) as [file|] eqn:Ef; [|done].
    pose proof (proj1 (length_auxv_desc (S (length file)) file)). specialize (H2 file eq_refl). lia.
Qed.

(** The test of the parent's line is inverted: the parent is taken from whatever other line has a
    number at the sixth character, here the group, and the pending signals are never read. *)
Lemma prstatus_parent_inverted : ∃ st, prstatus_lines [lit "Tgid:	100"; lit "PPid:	7"; lit "Gid:	20010"; lit "SigPnd:	0000000000000004"] (replicate sizeof_prstatus_t 0) = Ret st ∧
  field off_pr_ppid 4 st = 20010 ∧ field off_pr_sigpend 8 st = 0.
Proof. eexists. split; [vm_compute; reflexivity|]. split; vm_compute; reflexivity. Qed.
