(* ===== verification/CoreFile.v ===== *)
(** * Core files: the file

    Headers, memory and sections of a core file (tools/process_dump/coredump:
    coredump_header_writer.cpp, coredump_load_segment_writer.cpp) and the generator that writes all
    of it (coredump_dump_generator.cpp, coredump_file_manager.cpp, coredump_manager.cpp), and what
    the finished file has in it.

    The threads that copy memory run concurrently: a task is the list of its writes, and a schedule
    says in which order the writes of all of them happen.  [process_vm_readv] is an argument: the
    bytes it transfers from an address, at most as many as asked for. *)
From S2P Require Import Prelude Text CoreBuffer CoreNotes.

(** ** Headers *)
Definition PT_LOAD_ : Z := 1.
Definition PT_NOTE : Z := 4.
Definition PF_X_ : Z := 1.
Definition PF_W : Z := 2.
Definition PF_R : Z := 4.
Record Elf64_Phdr := mkPh { ph_type : Z; ph_flags : Z; ph_offset : Z; ph_vaddr : Z; ph_paddr : Z; ph_filesz : Z; ph_memsz : Z; ph_align : Z }.
Definition phdr_bytes (p : Elf64_Phdr) : list Z :=
  le_bytes 4 (ph_type p) ++ le_bytes 4 (ph_flags p) ++ le_bytes 8 (ph_offset p) ++ le_bytes 8 (ph_vaddr p) ++ le_bytes 8 (ph_paddr p)
  ++ le_bytes 8 (ph_filesz p) ++ le_bytes 8 (ph_memsz p) ++ le_bytes 8 (ph_align p).
Definition phdr_of (bs : list Z) : Elf64_Phdr :=
  mkPh (field 0 4 bs) (field 4 4 bs) (field 8 8 bs) (field 16 8 bs) (field 24 8 bs) (field 32 8 bs) (field 40 8 bs) (field 48 8 bs).

Definition ProgramSegmentHeaderFill (pType pFlags : Z) (r : DumpMemoryRegions) : Elf64_Phdr :=
  mkPh pType pFlags sizeof_Elf64_Ehdr (startHex r) 0 (memorySizeHex r) (memorySizeHex r) 1.
Definition PtNoteHeaderFill : Elf64_Phdr := ProgramSegmentHeaderFill PT_NOTE PF_R DumpMemoryRegions_new.
(** [priority] is an array: past the text there is its terminator. *)
Definition perm_at (i : nat) (r : DumpMemoryRegions) : ascii := default NUL (priority r !! i).
Definition PtLoadHeaderFill (r : DumpMemoryRegions) : Elf64_Phdr :=
  let pFlags := 0 in
  let pFlags := if Ascii.eqb (perm_at 0 r) "r" || Ascii.eqb (perm_at 0 r) "-" then Z.lor pFlags PF_R else pFlags in
  let pFlags := if Ascii.eqb (perm_at 1 r) "w" then Z.lor pFlags PF_W else pFlags in
  let pFlags := if Ascii.eqb (perm_at 2 r) "x" then Z.lor pFlags PF_X_ else pFlags in
  ProgramSegmentHeaderFill PT_LOAD_ pFlags r.

Fixpoint phdrs_loop (maps_ : list DumpMemoryRegions) (lineNumber : Z) (b : CoredumpBufferWriter) : outcome (bool * Z * CoredumpBufferWriter) :=
  match maps_ with
  | [] => Ret (true, lineNumber, b)
  | r :: maps' =>
      if negb (ShouldIncludeRegion r) then phdrs_loop maps' lineNumber b
      else
        '(ok, b) ← buf_Write (phdr_bytes (PtLoadHeaderFill r)) b;
        if negb ok then Ret (false, lineNumber, b) else phdrs_loop maps' (u16 (lineNumber + 1)) b
  end.
(** The loop that gives every further PT_LOAD the place after the one before it: the addresses of the
    fields, and the last place given. *)
Fixpoint offsets_loop (n : nat) (pOffsetAddr pFileszAddrLast : nat) (pOffsetValueLast : Z) (b : CoredumpBufferWriter) : outcome (nat * Z * CoredumpBufferWriter) :=
  match n with
  | O => Ret (pFileszAddrLast, pOffsetValueLast, b)
  | S n' =>
      let pOffsetAddr := (pOffsetAddr + sizeof_Elf64_Phdr)%nat in
      last ← peek pFileszAddrLast 8 (bw_buf b);
      let v := u64 (pOffsetValueLast + of_le last) in
      b ← buf_poke pOffsetAddr (le_bytes 8 v) b;
      offsets_loop n' pOffsetAddr (pFileszAddrLast + sizeof_Elf64_Phdr) v b
  end.
(** [ProgramSegmentHeaderWriter::Write]: with [ePhnum_] when it succeeds. *)
Definition ProgramSegmentHeaderWriter_Write (maps_ : list DumpMemoryRegions) (b : CoredumpBufferWriter) : outcome (option Z * CoredumpBufferWriter) :=
  '(ok, b) ← buf_Write (phdr_bytes PtNoteHeaderFill) b;
  if negb ok then Ret (None, b)
  else
    '(ok, lineNumber, b) ← phdrs_loop maps_ 1 b;
    if negb (ok : bool) then Ret (None, b)
    else
      let ptNoteAddr := sizeof_Elf64_Ehdr in
      let ptLoadAddr := (ptNoteAddr + sizeof_Elf64_Phdr)%nat in
      let first := sizeof_Elf64_Ehdr + lineNumber * sizeof_Elf64_Phdr in
      b ← buf_poke (ptLoadAddr + 8) (le_bytes 8 first) b;
      '(lastAddr, lastValue, b) ← offsets_loop (Z.to_nat (lineNumber - 2)) (ptLoadAddr + 8) (ptLoadAddr + 32) first b;
      last ← peek lastAddr 8 (bw_buf b);
      b ← buf_poke (ptNoteAddr + 8) (le_bytes 8 (lastValue + of_le last)) b;
      Ret (Some lineNumber, b).

(** [InitElfHeader]. *)
Definition ehdr_bytes (ePhnum : Z) : list Z :=
  [0x7f; 69; 76; 70; 2; 1; 1; 0; 0; 0; 0; 0; 0; 0; 0; 0] ++ le_bytes 2 4 ++ le_bytes 2 183 ++ le_bytes 4 1 ++ le_bytes 8 0
  ++ le_bytes 8 sizeof_Elf64_Ehdr ++ le_bytes 8 sizeof_Elf64_Shdr ++ le_bytes 4 0 ++ le_bytes 2 sizeof_Elf64_Ehdr ++ le_bytes 2 sizeof_Elf64_Phdr
  ++ le_bytes 2 ePhnum ++ le_bytes 2 sizeof_Elf64_Shdr ++ le_bytes 2 (ePhnum + 3) ++ le_bytes 2 (ePhnum + 1).
Definition CoredumpElfHeaderWriter_Write (ePhnum : Z) (b : CoredumpBufferWriter) : outcome (bool * CoredumpBufferWriter) := WriteAt (ehdr_bytes ePhnum) 0 b.

(** ** Memory *)
Record MergedSegment := mkMerged { ms_phdr : Elf64_Phdr; originalIdxStart : nat; originalIdxEnd : nat }.
(** The inner loop: [merged] absorbs the segments that continue it. *)
Fixpoint absorb (merged : Elf64_Phdr) (segs : list Elf64_Phdr) : Elf64_Phdr * nat :=
  match segs with
  | s :: segs' =>
      if (u64 (ph_vaddr merged + ph_memsz merged) =? ph_vaddr s) && (ph_flags merged =? ph_flags s) then
        let '(m, n) := absorb (mkPh (ph_type merged) (ph_flags merged) (ph_offset merged) (ph_vaddr merged) (ph_paddr merged)
                                 (u64 (ph_filesz merged + ph_filesz s)) (u64 (ph_memsz merged + ph_memsz s)) (ph_align merged)) segs' in
        (m, S n)
      else (merged, O)
  | [] => (merged, O)
  end.
Fixpoint merge_loop (fuel : nat) (segs_ : list Elf64_Phdr) (i idxEnd : nat) : outcome (list MergedSegment) :=
  match fuel with
  | O => OutOfFuel
  | S fuel' =>
      if (i <? idxEnd)%nat then
        match segs_ !! i with
        | None => Undef OutOfBounds
        | Some s =>
            let '(m, n) := absorb s (take (idxEnd - S i) (drop (S i) segs_)) in
            rest ← merge_loop fuel' segs_ (S i + n) idxEnd; Ret (mkMerged m i (S i + n) :: rest)
        end
      else Ret []
  end.
Definition MergeLoadSeg (segs_ : list Elf64_Phdr) (idxBegin idxEnd : nat) : outcome (list MergedSegment) := merge_loop (S idxEnd) segs_ idxBegin idxEnd.

Definition write : Type := nat * list Z.
Definition phdr_addr (i : nat) : nat := (sizeof_Elf64_Ehdr + sizeof_Elf64_Phdr * i)%nat.
(** The two loops of [WriteMergedSeg]: the places of the segments into their headers; then their
    memory, as long as it fits.  [start] is an offset into the mapping. *)
Fixpoint place_writes (segs : list Elf64_Phdr) (idx : nat) (start : Z) : list write :=
  match segs with
  | [] => []
  | s :: segs' => ((phdr_addr (S idx) + 8)%nat, le_bytes 8 start) :: place_writes segs' (S idx) (start + ph_memsz s)
  end.
Fixpoint copy_writes (readv : Z → Z → list Z) (capacity : nat) (merged : list MergedSegment) (start : Z) (totalSize : Z) : list write * Z :=
  match merged with
  | [] => ([], totalSize)
  | m :: merged' =>
      let p := ms_phdr m in
      if capacity <? start + ph_memsz p then ([], totalSize)
      else
        let '(ws, total) := copy_writes readv capacity merged' (start + ph_memsz p) (u64 (totalSize + ph_memsz p)) in
        ((Z.to_nat start, take (Z.to_nat (ph_memsz p)) (readv (ph_vaddr p) (ph_memsz p))) :: ws, total)
  end.
Definition WriteMergedSeg (readv : Z → Z → list Z) (capacity : nat) (segs_ : list Elf64_Phdr) (idxBegin idxEnd : nat) (start : Z) : outcome (list write * Z) :=
  merged ← MergeLoadSeg segs_ idxBegin idxEnd;
  let '(ws, total) := copy_writes readv capacity merged start 0 in
  Ret (place_writes (take (idxEnd - idxBegin) (drop idxBegin segs_)) idxBegin start ++ ws, total).

Definition GetTotalSize (segs_ : list Elf64_Phdr) : Z := fold_left (λ t s, u64 (t + ph_memsz s)) segs_ 0.
Definition maxThreadCount : Z := 8.
Definition GetDumpThreadCount (c : CoredumpConfig) : Z :=
  let n := dumperThreadCount c in let n := if n <=? 0 then 1 else n in if maxThreadCount <? n then maxThreadCount else n.

Record WriteTask := mkTask { t_from : nat; t_to : nat; t_dst : Z }.
(** The inner loop: how far a task goes from [segs] on, and the size of its segments. *)
Fixpoint task_end (last : bool) (targetSize accSize : Z) (segs : list Elf64_Phdr) : nat * Z :=
  match segs with
  | s :: segs' =>
      if last || (u64 (accSize + ph_memsz s) <=? targetSize) then let '(n, acc) := task_end last targetSize (u64 (accSize + ph_memsz s)) segs' in (S n, acc)
      else (O, accSize)
  | [] => (O, accSize)
  end.
Fixpoint tasks_loop (n : nat) (segs_ : list Elf64_Phdr) (base targetSize : Z) (begin : nat) (offset : Z) : list WriteTask :=
  match n with
  | O => []
  | S n' =>
      let '(m, acc) := task_end (n' =? 0)%nat targetSize 0 (drop begin segs_) in
      mkTask begin (begin + m) (base + offset) :: tasks_loop n' segs_ base targetSize (begin + m) (u64 (offset + acc))
  end.
Definition GenerateWriteTasks (threadCount : Z) (segs_ : list Elf64_Phdr) (base : Z) : list WriteTask :=
  tasks_loop (Z.to_nat threadCount) segs_ base (GetTotalSize segs_ / threadCount) 0 0.

(** [RunWriteTasks]: the writes of the tasks in the order of a schedule, each entry of which lets one
    task do its next write; tasks that the schedule leaves unfinished end in order. *)
Fixpoint run_schedule (sched : list nat) (tasks : list (list write)) (buf : list Z) : outcome (list Z) :=
  match sched with
  | [] => foldr (λ w k buf, buf ← poke_bytes w.1 w.2 buf; k buf) Ret (concat tasks) buf
  | i :: sched' =>
      match tasks !! i with
      | Some (w :: ws) => buf ← poke_bytes w.1 w.2 buf; run_schedule sched' (<[i := ws]> tasks) buf
      | _ => run_schedule sched' tasks buf
      end
  end.
Fixpoint tasks_writes (readv : Z → Z → list Z) (capacity : nat) (segs_ : list Elf64_Phdr) (tasks : list WriteTask) : outcome (list (list write) * list Z) :=
  match tasks with
  | [] => Ret ([], [])
  | t :: tasks' =>
      '(ws, total) ← WriteMergedSeg readv capacity segs_ (t_from t) (t_to t) (t_dst t);
      '(wss, totals) ← tasks_writes readv capacity segs_ tasks'; Ret (ws :: wss, total :: totals)
  end.
Definition RunWriteTasks (readv : Z → Z → list Z) (sched : list nat) (segs_ : list Elf64_Phdr) (tasks : list WriteTask) (b : CoredumpBufferWriter) : outcome CoredumpBufferWriter :=
  '(wss, totals) ← tasks_writes readv (GetCapacity b) segs_ tasks;
  buf ← run_schedule sched wss (bw_buf b);
  Ret (fold_left (λ b total, (Advance (Z.to_nat total) b).2) totals (mkWriter buf (bw_current b))).
Fixpoint read_segs (n i : nat) (b : CoredumpBufferWriter) : outcome (list Elf64_Phdr) :=
  match n with
  | O => Ret []
  | S n' => bs ← peek (phdr_addr (S i)) sizeof_Elf64_Phdr (bw_buf b); rest ← read_segs n' (S i) b; Ret (phdr_of bs :: rest)
  end.
Definition LoadSegmentWriter_Write (readv : Z → Z → list Z) (threadCount : Z) (sched : list nat) (ePhnum : Z) (b : CoredumpBufferWriter) : outcome CoredumpBufferWriter :=
  segs_ ← read_segs (Z.to_nat (ePhnum - 1)) 0 b;
  RunWriteTasks readv sched segs_ (GenerateWriteTasks threadCount segs_ (bw_current b)) b.

(** ** Sections *)
Definition SHT_PROGBITS : Z := 1.
Definition SHT_STRTAB : Z := 3.
Definition SHT_NOTE : Z := 7.
Definition SHF_WRITE : Z := 1.
Definition SHF_ALLOC : Z := 2.
Definition SHF_EXECINSTR : Z := 4.
Definition SHDR_ALIGN_SIZE : Z := 8.
Definition strTable : list Z :=
  text_bytes (NUL :: lit ".note" ++ NUL :: lit ".shstrtab" ++ NUL :: lit ".load" ++ NUL :: lit ".note.dfx.system.version" ++ [NUL; NUL]).
Definition SetShFlag (p : Elf64_Phdr) : Z :=
  if ph_flags p =? PF_R then SHF_ALLOC
  else if ph_flags p =? Z.lor PF_R PF_W then Z.lor SHF_WRITE SHF_ALLOC
  else if ph_flags p =? Z.lor PF_R PF_X_ then Z.lor SHF_ALLOC SHF_EXECINSTR
  else 0.
(** The first six fields of a section header, which [WriteSystemVersion] writes, and all of them. *)
Definition shdr_head (name type flags addr offset size : Z) : list Z :=
  le_bytes 4 name ++ le_bytes 4 type ++ le_bytes 8 flags ++ le_bytes 8 addr ++ le_bytes 8 offset ++ le_bytes 8 size.
Definition shdr_bytes (name type flags addr offset size : Z) : list Z :=
  shdr_head name type flags addr offset size ++ le_bytes 4 0 ++ le_bytes 4 0 ++ le_bytes 8 1 ++ le_bytes 8 0.
(** [SectionHeaderFill], with the name set before it. *)
Definition SectionHeaderFill (name shType shFlag : Z) (p : Elf64_Phdr) : list Z := shdr_bytes name shType shFlag (ph_vaddr p) (ph_offset p) (ph_filesz p).

Definition AdjustOffset (remain : Z) (b : CoredumpBufferWriter) : outcome CoredumpBufferWriter :=
  pad_loop (if remain =? 0 then 0 else Z.to_nat (SHDR_ALIGN_SIZE - remain)) b.
Fixpoint load_sections (n i sectionHeader : nat) (b : CoredumpBufferWriter) : outcome (nat * CoredumpBufferWriter) :=
  match n with
  | O => Ret (sectionHeader, b)
  | S n' =>
      bs ← peek (phdr_addr i) sizeof_Elf64_Phdr (bw_buf b);
      let p := phdr_of bs in
      b ← buf_poke sectionHeader (SectionHeaderFill 0x11 SHT_PROGBITS (SetShFlag p) p) b;
      load_sections n' (S i) (sectionHeader + sizeof_Elf64_Shdr) b
  end.
(** The headers of the segments, of the names and of the version ([WriteSystemVersion]). *)
Definition section_table (versionStartAddr strTableAddr verLen : nat) (b : CoredumpBufferWriter) : outcome (bool * CoredumpBufferWriter) :=
  let sectionHeader := bw_current b in
  note ← peek (phdr_addr 0) sizeof_Elf64_Phdr (bw_buf b);
  b ← buf_poke sectionHeader (SectionHeaderFill 0x01 SHT_NOTE 0 (phdr_of note)) b;
  shnum ← peek 60 2 (bw_buf b);
  let loads := Z.to_nat (of_le shnum - 4) in
  '(sectionHeader, b) ← load_sections loads 1 (sectionHeader + sizeof_Elf64_Shdr) b;
  _ ← peek (phdr_addr (S loads)) sizeof_Elf64_Phdr (bw_buf b);
  b ← buf_poke sectionHeader (shdr_bytes 0x07 SHT_STRTAB SHF_ALLOC 0 strTableAddr (length strTable)) b;
  let sectionHeader := (sectionHeader + sizeof_Elf64_Shdr)%nat in
  b ← buf_poke sectionHeader (shdr_head 0x17 SHT_NOTE 0 0 versionStartAddr (verLen + 1)%nat) b;
  Ret (true, (SetCurrent (sectionHeader + sizeof_Elf64_Shdr) b).2).
(** [SectionHeaderTableWriter::Write]; [info] is the version of the system. *)
Definition SectionHeaderTableWriter_Write (info : list ascii) (b : CoredumpBufferWriter) : outcome (bool * CoredumpBufferWriter) :=
  let versionStartAddr := bw_current b in
  let buildInfo := lit "Build info:" ++ info in
  '(_, b) ← buf_Write (text_bytes (buildInfo ++ [NUL])) b;
  let strTableAddr := bw_current b in
  '(ok, b) ← buf_Write strTable b;
  if negb ok then Ret (false, b)
  else
    b ← AdjustOffset (GetOffset b mod SHDR_ALIGN_SIZE) b;
    b ← buf_poke 40 (le_bytes 8 (GetOffset b)) b;
    b ← buf_poke (bw_current b) (replicate sizeof_Elf64_Shdr 0) b;
    section_table versionStartAddr strTableAddr (length buildInfo) (Advance sizeof_Elf64_Shdr b).2.

(** ** The generator *)

(** What the system answers: the descriptor the daemon lends, the name of the bundle, opening the
    file, what the file has in it already (it is opened without O_TRUNC), truncating it to a size,
    mapping it, and how much of a written buffer reaches the file. *)
Record core_env := mkCoreEnv {
  ce_hwasanEnabled : bool; ce_liteFd : Z; ce_bundleName : list ascii; ce_openFd : Z; ce_oldFile : list Z; ce_ftruncate : Z → bool; ce_mmap : bool; ce_written : nat
}.
Record CoredumpFileManager := mkFileManager { fm_fd : Z; coreFileSize_ : Z; bundleName_ : list ascii; isWriteNativeCoredump_ : bool; isNativeProcess_ : bool }.
Definition CoredumpFileManager_new : CoredumpFileManager := mkFileManager (-1) 0 [] false false.
Definition minUid : Z := 10000.

Definition GetCoredumpFileName (f : CoredumpFileManager) : list ascii := match bundleName_ f with [] => [] | n => n ++ lit ".dmp" end.
Definition GetCoredumpFilePath (c : CoredumpConfig) (f : CoredumpFileManager) : list ascii :=
  match bundleName_ f with [] => [] | _ => outputPath c ++ lit "/" ++ GetCoredumpFileName f end.
Definition CreateFileForCoreDump (ce : core_env) (uid : Z) (maps_ : list DumpMemoryRegions) (c : CoredumpConfig) (f : CoredumpFileManager) : bool * CoredumpFileManager :=
  if uid <? minUid then
    let f := if coredumpSwitch c then mkFileManager (ce_liteFd ce) (coreFileSize_ f) (lit "native") (isWriteNativeCoredump_ f) true else f in
    (0 <=? fm_fd f, f)
  else
    match ce_bundleName ce with
    | [] => (false, f)
    | name =>
        let f := mkFileManager (fm_fd f) (coreFileSize_ f) name (isWriteNativeCoredump_ f) (isNativeProcess_ f) in
        if negb (VerifyProcess (ce_hwasanEnabled ce) maps_ c) then (false, f)
        else (0 <=? ce_openFd ce, mkFileManager (ce_openFd ce) (coreFileSize_ f) name (isWriteNativeCoredump_ f) (isNativeProcess_ f))
    end.
Definition CreateFile (ce : core_env) (rq : core_request) (maps_ : list DumpMemoryRegions) (c : CoredumpConfig) (f : CoredumpFileManager) : bool * CoredumpFileManager :=
  if rq_pid rq <=? 0 then (false, f)
  else
    let size := EstimateFileSize maps_ in
    let f := mkFileManager (fm_fd f) size (bundleName_ f) (isWriteNativeCoredump_ f) (isNativeProcess_ f) in
    if size =? 0 then (false, f) else CreateFileForCoreDump ce (rq_uid rq) maps_ c f.
Definition AdjustFileSize (ce : core_env) (fileSize : Z) (f : CoredumpFileManager) : bool :=
  if negb (0 <=? fm_fd f) then false else if fileSize =? 0 then false else ce_ftruncate ce fileSize.
(** [MmapForFd]: an anonymous mapping for a native process, all zeros; the file itself otherwise, cut
    or extended with zeros. *)
Definition MmapForFd (ce : core_env) (f : CoredumpFileManager) : option (list Z) * CoredumpFileManager :=
  if fm_fd f <=? 0 then (None, f)
  else if coreFileSize_ f =? 0 then (None, f)
  else if negb (AdjustFileSize ce (coreFileSize_ f) f) then (None, f)
  else
    let f := if isNativeProcess_ f then mkFileManager (fm_fd f) (coreFileSize_ f) (bundleName_ f) true true else f in
    let n := Z.to_nat (coreFileSize_ f) in
    (if ce_mmap ce then Some (if isNativeProcess_ f then replicate n 0 else fill n (ce_oldFile ce)) else None, f).

Record CoredumpGenerator := mkGenerator {
  ePhnum_ : Z; g_bw : option CoredumpBufferWriter; fileMgr_ : CoredumpFileManager; g_config : CoredumpConfig; g_maps : list DumpMemoryRegions
}.
Definition CoredumpGenerator_new (c : CoredumpConfig) (maps_ : list DumpMemoryRegions) : CoredumpGenerator := mkGenerator 0 None CoredumpFileManager_new c maps_.

Definition WriteSegmentHeader (maps_ : list DumpMemoryRegions) (b : CoredumpBufferWriter) : outcome (option Z * CoredumpBufferWriter) :=
  ProgramSegmentHeaderWriter_Write maps_ (Advance sizeof_Elf64_Ehdr b).2.
(** [WriteNoteSegment]: [key] is the thread that the request names. *)
Definition WriteNoteSegment (e : proc_env) (rq : core_request) (key : CoredumpThread) (maps_ : list DumpMemoryRegions) (b : CoredumpBufferWriter) : outcome CoredumpBufferWriter :=
  if (0 <? rq_pid rq) && (0 <? rq_tid rq) then NoteSegmentWriter_Write e (rq_pid rq) (rq_tid rq) key maps_ b else Ret b.
(** The writes of [TriggerCoredump] into the mapping; [ePhnum_] stays when the headers do not fit. *)
Definition trigger_writes (e : proc_env) (rq : core_request) (key : CoredumpThread) (maps_ : list DumpMemoryRegions) (b : CoredumpBufferWriter) : outcome (Z * CoredumpBufferWriter) :=
  '(phnum, b) ← WriteSegmentHeader maps_ b;
  let ePhnum := default 0 phnum in
  '(_, b) ← CoredumpElfHeaderWriter_Write ePhnum b;
  b ← WriteNoteSegment e rq key maps_ b;
  Ret (ePhnum, b).
(** [TriggerCoredump]; [json] is the parsed configuration file, [lines] are the lines of the maps file,
    [regs] the registers of the request. *)
Definition TriggerCoredump (ce : core_env) (e : proc_env) (parse : list ascii → option cJSON) (config : list ascii) (profile : list ascii) (lines : option (list (list ascii)))
  (regs : option (list Z)) (rq : core_request) (g : CoredumpGenerator) : outcome (bool * CoredumpGenerator) :=
  let c := (LoadProfileFromFile parse config profile (g_config g)).2 in
  let maps_ := if rq_pid rq <=? 0 then g_maps g else mapping_Parse (rq_pid rq) lines (g_maps g) in
  let '(ok, f) := CreateFile ce rq maps_ c (fileMgr_ g) in
  if negb ok then Ret (false, mkGenerator (ePhnum_ g) None f c maps_)
  else match MmapForFd ce f with
  | (None, f) => Ret (false, mkGenerator (ePhnum_ g) None f c maps_)
  | (Some mapped, f) =>
      '(ePhnum, b) ← trigger_writes e rq (CoredumpThread_Init (pe_thread e (rq_tid rq)) regs) maps_ (CoredumpBufferWriter_new mapped);
      Ret (true, mkGenerator ePhnum (Some b) f c maps_)
  end.

(** The writes of [DumpMemoryForPid]. *)
Definition dump_writes (readv : Z → Z → list Z) (threadCount : Z) (sched : list nat) (info : list ascii) (vmPid ePhnum : Z) (b : CoredumpBufferWriter) : outcome CoredumpBufferWriter :=
  b ← (if vmPid =? 0 then Ret b else LoadSegmentWriter_Write readv threadCount sched ePhnum b);
  '(_, b) ← SectionHeaderTableWriter_Write info b;
  Ret b.
(** What is left of a dump: the bytes of the file, unless it was removed, and what is reported, the
    name of the file and success. *)
Record core_result := mkCoreResult { cr_file : option (list Z); cr_name : list ascii; cr_ok : bool }.
Definition DumpMemoryForPid (ce : core_env) (readv : Z → Z → list Z) (sched : list nat) (info : list ascii) (vmPid : Z) (g : CoredumpGenerator) : outcome (option core_result) :=
  match g_bw g with
  | None => Ret None
  | Some b =>
      b ← dump_writes readv (GetDumpThreadCount (g_config g)) sched info vmPid (ePhnum_ g) b;
      let f := fileMgr_ g in
      let content := if isWriteNativeCoredump_ f then fill (length (bw_buf b)) (take (ce_written ce) (bw_buf b)) else bw_buf b in
      if AdjustFileSize ce (GetOffset b) f then Ret (Some (mkCoreResult (Some (take (bw_current b) content)) (GetCoredumpFileName f) true))
      else Ret (Some (mkCoreResult (if isNativeProcess_ f then Some content else None) [] false))
  end.
(** [CoredumpManager]. *)
Definition manager_DumpMemoryForPid (ce : core_env) (readv : Z → Z → list Z) (sched : list nat) (info : list ascii) (pid : Z) (g : option CoredumpGenerator) : outcome (option core_result) :=
  if pid <=? 0 then Ret None else match g with Some g => DumpMemoryForPid ce readv sched info pid g | None => Ret None end.

(** ** The table of program headers *)
Definition ptable (ps : list Elf64_Phdr) : list Z := concat (map phdr_bytes ps).
Definition set_offset (o : Z) (p : Elf64_Phdr) : Elf64_Phdr := mkPh (ph_type p) (ph_flags p) o (ph_vaddr p) (ph_paddr p) (ph_filesz p) (ph_memsz p) (ph_align p).
Definition set_filesz (z : Z) (p : Elf64_Phdr) : Elf64_Phdr := mkPh (ph_type p) (ph_flags p) (ph_offset p) (ph_vaddr p) (ph_paddr p) z (ph_memsz p) (ph_align p).

Lemma length_phdr_bytes p : length (phdr_bytes p) = 56%nat.
Proof. unfold phdr_bytes. by rewrite !length_app, !length_le_bytes. Qed.
Lemma length_ptable ps : length (ptable ps) = (56 * length ps)%nat.
Proof. unfold ptable. induction ps as [|p ps IH]; [done|]. cbn [map concat]. rewrite length_app, length_phdr_bytes, IH. cbn [length]. lia. Qed.
Lemma ptable_app ps qs : ptable (ps ++ qs) = ptable ps ++ ptable qs.
Proof. unfold ptable. by rewrite map_app, concat_app. Qed.
Lemma ptable_cons p ps : ptable (p :: ps) = phdr_bytes p ++ ptable ps.
Proof. done. Qed.
Lemma ptable_split ps i p : ps !! i = Some p → ptable ps = ptable (take i ps) ++ phdr_bytes p ++ ptable (drop (S i) ps).
Proof. intros E. rewrite <- (take_drop_middle ps i p E) at 1. by rewrite ptable_app, ptable_cons. Qed.

(** The place of a header, and of two of its fields. *)
Lemma patch_offset h ps r i v : length h = 64%nat → (i < length ps)%nat → patch (phdr_addr i + 8) (le_bytes 8 v) (h ++ ptable ps ++ r) = h ++ ptable (alter (set_offset v) i ps) ++ r.
Proof.
  intros Hh Hi. destruct (lookup_lt_is_Some_2 ps i Hi) as [p Hp]. rewrite (ptable_split (alter (set_offset v) i ps) i (set_offset v p)) by by rewrite list_lookup_alter_eq, Hp.
  rewrite take_alter_ge, drop_alter_lt by lia. rewrite (ptable_split ps i p Hp). unfold phdr_bytes, set_offset. cbn [ph_type ph_flags ph_offset ph_vaddr ph_paddr ph_filesz ph_memsz ph_align]. rewrite <- !app_assoc.
  rewrite (patch_app_eq _ (h ++ ptable (take i ps) ++ le_bytes 4 (ph_type p) ++ le_bytes 4 (ph_flags p)) (le_bytes 8 (ph_offset p)) (le_bytes 8 v)
    (le_bytes 8 (ph_vaddr p) ++ le_bytes 8 (ph_paddr p) ++ le_bytes 8 (ph_filesz p) ++ le_bytes 8 (ph_memsz p) ++ le_bytes 8 (ph_align p) ++ ptable (drop (S i) ps) ++ r)).
  - by rewrite <- !app_assoc.
  - by rewrite <- !app_assoc.
  - rewrite !length_app, !length_le_bytes, length_ptable, length_take. unfold phdr_addr, sizeof_Elf64_Ehdr, sizeof_Elf64_Phdr. lia.
  - by rewrite !length_le_bytes.
Qed.
Lemma patch_filesz h ps r i v : length h = 64%nat → (i < length ps)%nat → patch (phdr_addr i + 32) (le_bytes 8 v) (h ++ ptable ps ++ r) = h ++ ptable (alter (set_filesz v) i ps) ++ r.
Proof.
  intros Hh Hi. destruct (lookup_lt_is_Some_2 ps i Hi) as [p Hp]. rewrite (ptable_split (alter (set_filesz v) i ps) i (set_filesz v p)) by by rewrite list_lookup_alter_eq, Hp.
  rewrite take_alter_ge, drop_alter_lt by lia. rewrite (ptable_split ps i p Hp). unfold phdr_bytes, set_filesz. cbn [ph_type ph_flags ph_offset ph_vaddr ph_paddr ph_filesz ph_memsz ph_align]. rewrite <- !app_assoc.
  rewrite (patch_app_eq _ (h ++ ptable (take i ps) ++ le_bytes 4 (ph_type p) ++ le_bytes 4 (ph_flags p) ++ le_bytes 8 (ph_offset p) ++ le_bytes 8 (ph_vaddr p) ++ le_bytes 8 (ph_paddr p)) (le_bytes 8 (ph_filesz p)) (le_bytes 8 v)
    (le_bytes 8 (ph_memsz p) ++ le_bytes 8 (ph_align p) ++ ptable (drop (S i) ps) ++ r)).
  - by rewrite <- !app_assoc.
  - by rewrite <- !app_assoc.
  - rewrite !length_app, !length_le_bytes, length_ptable, length_take. unfold phdr_addr, sizeof_Elf64_Ehdr, sizeof_Elf64_Phdr. lia.
  - by rewrite !length_le_bytes.
Qed.
Lemma slice_phdr h ps r i p : length h = 64%nat → ps !! i = Some p → slice (phdr_addr i) 56 (h ++ ptable ps ++ r) = phdr_bytes p.
Proof.
  intros Hh Hp. pose proof (lookup_lt_Some _ _ _ Hp). apply (slice_mid_eq _ _ (h ++ ptable (take i ps)) (phdr_bytes p) (ptable (drop (S i) ps) ++ r)); [|rewrite length_app, length_ptable, length_take; unfold phdr_addr, sizeof_Elf64_Ehdr, sizeof_Elf64_Phdr; lia|by rewrite length_phdr_bytes].
  rewrite (ptable_split ps i p Hp). by rewrite <- !app_assoc.
Qed.

(** The fields of a region are 64-bit numbers. *)
Definition phdr_fits (p : Elf64_Phdr) : Prop := fits 32 (ph_type p) ∧ fits 32 (ph_flags p) ∧ fits 64 (ph_vaddr p) ∧ fits 64 (ph_paddr p) ∧ fits 64 (ph_filesz p) ∧ fits 64 (ph_memsz p) ∧ fits 64 (ph_align p).
Lemma phdr_of_bytes p : phdr_fits p → phdr_of (phdr_bytes p) = set_offset (u64 (ph_offset p)) p.
Proof.
  intros (H1 & H2 & H4 & H5 & H6 & H7 & H8). unfold phdr_of, set_offset, phdr_bytes, field. set (a := le_bytes 4 (ph_type p)). set (b := le_bytes 4 (ph_flags p)). set (c := le_bytes 8 (ph_offset p)).
  set (d := le_bytes 8 (ph_vaddr p)). set (e := le_bytes 8 (ph_paddr p)). set (f := le_bytes 8 (ph_filesz p)). set (g := le_bytes 8 (ph_memsz p)). set (h := le_bytes 8 (ph_align p)).
  rewrite (slice_mid_eq 0 4 [] a (b ++ c ++ d ++ e ++ f ++ g ++ h)) by done. rewrite (slice_mid_eq 4 4 a b (c ++ d ++ e ++ f ++ g ++ h)) by done.
  rewrite (slice_mid_eq 8 8 (a ++ b) c (d ++ e ++ f ++ g ++ h)) by (done || by rewrite <- !app_assoc). rewrite (slice_mid_eq 16 8 (a ++ b ++ c) d (e ++ f ++ g ++ h)) by (done || by rewrite <- !app_assoc).
  rewrite (slice_mid_eq 24 8 (a ++ b ++ c ++ d) e (f ++ g ++ h)) by (done || by rewrite <- !app_assoc). rewrite (slice_mid_eq 32 8 (a ++ b ++ c ++ d ++ e) f (g ++ h)) by (done || by rewrite <- !app_assoc).
  rewrite (slice_mid_eq 40 8 (a ++ b ++ c ++ d ++ e ++ f) g h) by (done || by rewrite <- !app_assoc). rewrite (slice_mid_eq 48 8 (a ++ b ++ c ++ d ++ e ++ f ++ g) h []) by (done || by rewrite app_nil_r, <- !app_assoc).
  unfold a, b, c, d, e, f, g, h. rewrite !of_le_le_bytes. by rewrite (wrap_small _ (ph_type p)), (wrap_small _ (ph_flags p)), (wrap_small _ (ph_vaddr p)), (wrap_small _ (ph_paddr p)), (wrap_small _ (ph_filesz p)), (wrap_small _ (ph_memsz p)), (wrap_small _ (ph_align p)).
Qed.

(** ** The headers *)
Definition included (maps_ : list DumpMemoryRegions) : list DumpMemoryRegions := List.filter ShouldIncludeRegion maps_.
Lemma phdrs_loop_at ms line p n : (56 * length (included ms) <= n)%nat → 0 <= line → line + length (included ms) < 2 ^ 16 →
  phdrs_loop ms line (writer_at p n) = Ret (true, line + length (included ms), writer_at (p ++ ptable (map PtLoadHeaderFill (included ms))) (n - 56 * length (included ms))).
Proof.
  revert line p n. induction ms as [|r ms IH]; intros line p n Hn H0 Hl; cbn [phdrs_loop included List.filter] in *; [by rewrite Z.add_0_r, app_nil_r, Nat.mul_0_r, Nat.sub_0_r|]. fold (included ms) in *.
  destruct (ShouldIncludeRegion r); cbn [negb length map] in *; [|by apply IH]. rewrite buf_Write_at by (try apply small_le; rewrite length_phdr_bytes; lia). cbn [mbind outcome_mbind negb]. rewrite length_phdr_bytes.
  rewrite wrap_small by (unfold fits; lia). rewrite IH by lia. rewrite <- app_assoc, ptable_cons. do 2 f_equal; [f_equal; lia|]. f_equal. lia.
Qed.

(** Offsets apart, the headers stay. *)
Lemma alter_offset_same v i ps : map (set_offset 0) (alter (set_offset v) i ps) = map (set_offset 0) ps.
Proof.
  revert i. induction ps as [|p ps IH]; intros i; [done|]. destruct i as [|i]; cbn; [done|]. f_equal. apply IH.
Qed.
Lemma offsets_loop_at h r n k : length h = 64%nat → ∀ ps i v, (i + k < length ps)%nat →
  ∃ ps' v', offsets_loop k (phdr_addr i + 8) (phdr_addr i + 32) v (writer_at (h ++ ptable ps ++ r) n) = Ret ((phdr_addr (i + k) + 32)%nat, v', writer_at (h ++ ptable ps' ++ r) n) ∧ map (set_offset 0) ps' = map (set_offset 0) ps.
Proof.
  intros Hh. induction k as [|k IH]; intros ps i v Hi; cbn [offsets_loop]; [exists ps, v; by rewrite Nat.add_0_r|].
  assert (Hlen : length (h ++ ptable ps ++ r) = (64 + 56 * length ps + length r)%nat) by (rewrite !length_app, Hh, length_ptable; lia).
  assert (Ha : phdr_addr (S i) = (phdr_addr i + 56)%nat) by (unfold phdr_addr, sizeof_Elf64_Phdr; lia). assert (Hi' : phdr_addr i = (64 + 56 * i)%nat) by done.
  rewrite peek_in by lia. cbn [mbind outcome_mbind]. set (w := u64 _). replace (phdr_addr i + 8 + sizeof_Elf64_Phdr)%nat with (phdr_addr (S i) + 8)%nat by (unfold sizeof_Elf64_Phdr; lia).
  rewrite buf_poke_in by (rewrite length_le_bytes; lia). rewrite patch_offset by (done || lia). cbn [mbind outcome_mbind].
  replace (phdr_addr i + 32 + sizeof_Elf64_Phdr)%nat with (phdr_addr (S i) + 32)%nat by (unfold sizeof_Elf64_Phdr; lia).
  destruct (IH (alter (set_offset w) (S i) ps) (S i) w) as (ps' & v' & E & Hs); [rewrite length_alter; lia|]. exists ps', v'. rewrite E, Hs, alter_offset_same. by replace (S i + k)%nat with (i + S k)%nat by lia.
Qed.

Lemma segment_header_at maps_ N : included maps_ ≠ [] → 1 + length (included maps_) < 2 ^ 16 → (64 + 56 * S (length (included maps_)) <= N)%nat →
  ∃ ps, WriteSegmentHeader maps_ (writer_at [] N) = Ret (Some (1 + length (included maps_)), writer_at (replicate 64 0 ++ ptable ps) (N - (64 + 56 * S (length (included maps_))))) ∧
    map (set_offset 0) ps = map (set_offset 0) (PtNoteHeaderFill :: map PtLoadHeaderFill (included maps_)).
Proof.
  intros Hne Hn HN. unfold WriteSegmentHeader. rewrite Advance_at by (unfold sizeof_Elf64_Ehdr; lia). cbn [snd app]. unfold sizeof_Elf64_Ehdr at 1 2. unfold ProgramSegmentHeaderWriter_Write.
  rewrite buf_Write_at by (try apply small_le; rewrite length_phdr_bytes; lia). cbn [mbind outcome_mbind negb]. rewrite phdrs_loop_at by (rewrite ?length_phdr_bytes; lia). cbn [mbind outcome_mbind negb]. rewrite length_phdr_bytes.
  set (n := length (included maps_)) in *. assert (Hn1 : (1 <= n)%nat) by (unfold n; destruct (included maps_); [done|cbn; lia]).
  rewrite <- app_assoc, <- ptable_cons. set (ps0 := PtNoteHeaderFill :: map PtLoadHeaderFill (included maps_)). assert (Hl0 : length ps0 = S n) by (unfold ps0; cbn; by rewrite length_map).
  set (h := replicate 64 0). assert (Hh : length h = 64%nat) by done. rewrite <- (app_nil_r (ptable ps0)).
  assert (Hlen : ∀ ps, length ps = S n → length (h ++ ptable ps ++ []) = (64 + 56 * S n)%nat) by (intros ps Hps; rewrite !length_app, Hh, length_ptable, Hps; cbn; lia).
  change (sizeof_Elf64_Ehdr + sizeof_Elf64_Phdr)%nat with (phdr_addr 1). assert (H1 : phdr_addr 1 = 120%nat) by done.
  rewrite buf_poke_in by (rewrite Hlen, length_le_bytes by done; lia). set (first := Z.of_nat sizeof_Elf64_Ehdr + _). rewrite patch_offset by (done || lia). cbn [mbind outcome_mbind].
  destruct (offsets_loop_at h [] (N - 64 - 56 - 56 * n) (Z.to_nat (1 + n - 2)) Hh (alter (set_offset first) 1%nat ps0) 1%nat first) as (ps1 & v1 & E1 & Hs1); [rewrite length_alter; lia|].
  rewrite E1. cbn [mbind outcome_mbind]. assert (Hl1 : length ps1 = S n) by (apply (f_equal length) in Hs1; rewrite !length_map, length_alter in Hs1; lia).
  replace (1 + Z.to_nat (1 + n - 2))%nat with n by lia. rewrite peek_in by (rewrite Hlen by done; unfold phdr_addr, sizeof_Elf64_Ehdr, sizeof_Elf64_Phdr; lia). cbn [mbind outcome_mbind].
  change (sizeof_Elf64_Ehdr + 8)%nat with (phdr_addr 0 + 8)%nat. rewrite buf_poke_in by (rewrite Hlen, length_le_bytes by done; unfold phdr_addr, sizeof_Elf64_Ehdr, sizeof_Elf64_Phdr; lia).
  rewrite patch_offset by (done || lia). cbn [mbind outcome_mbind]. rewrite app_nil_r. eexists. split; [do 3 f_equal; lia|]. by rewrite alter_offset_same, Hs1, alter_offset_same.
Qed.

Lemma length_ehdr_bytes n : length (ehdr_bytes n) = 64%nat.
Proof. done. Qed.

(** The headers and the notes, before the memory. *)
Lemma trigger_writes_at e rq key maps_ ps N : status_ok e → key_ok key → process_ok e (rq_pid rq) maps_ ps → 0 < rq_pid rq → 0 < rq_tid rq → included maps_ ≠ [] → 1 + length (included maps_) < 2 ^ 16 →
  let notes := notes_bytes e (rq_tid rq) key maps_ ps in let n := length (included maps_) in let place := (64 + 56 * S n)%nat in (place + length notes <= N)%nat → Z.of_nat N < 2 ^ 63 →
  ∃ loads, trigger_writes e rq key maps_ (writer_at [] N) =
      Ret (1 + n, writer_at (ehdr_bytes (1 + n) ++ ptable (set_filesz (length notes) (set_offset place PtNoteHeaderFill) :: loads) ++ notes) (N - (place + length notes))) ∧
    map (set_offset 0) loads = map (set_offset 0) (map PtLoadHeaderFill (included maps_)).
Proof.
  intros Hst Hkey Hps Hpid Htid Hne Hn. cbn zeta. set (notes := notes_bytes _ _ _ _ _). set (n := length (included maps_)) in *. intros HN H63. unfold trigger_writes.
  destruct (segment_header_at maps_ N Hne Hn ltac:(fold n; lia)) as (ps1 & -> & Hs1). fold n in Hs1 |- *. cbn [mbind outcome_mbind default]. unfold CoredumpElfHeaderWriter_Write.
  destruct ps1 as [|note loads]; [done|]. pose proof (f_equal tail Hs1) as Hloads. pose proof (f_equal head Hs1) as Hnote. cbn [map tail head] in Hloads, Hnote. apply (inj Some) in Hnote. assert (Hl : length loads = n) by (apply (f_equal length) in Hloads; rewrite !length_map in Hloads; done).
  assert (Hlt : length (ptable (note :: loads)) = (56 * S n)%nat) by (rewrite length_ptable; cbn; lia).
  rewrite WriteAt_in; [|apply small_le; rewrite length_ehdr_bytes; lia|done|rewrite length_ehdr_bytes, length_app, length_replicate, Hlt; lia|rewrite length_app, length_replicate, Hlt; lia].
  cbn [mbind outcome_mbind]. change (Z.to_nat 0) with O. rewrite (patch_app_eq 0 [] (replicate 64 0) (ehdr_bytes (1 + n)) (ptable (note :: loads))) by done. cbn [app].
  unfold WriteNoteSegment. rewrite (proj2 (Z.ltb_lt _ _) Hpid), (proj2 (Z.ltb_lt _ _) Htid). cbn [andb].
  assert (Hlp : length (ehdr_bytes (1 + n) ++ ptable (note :: loads)) = (64 + 56 * S n)%nat) by (rewrite length_app, length_ehdr_bytes, Hlt; done).
  rewrite (NoteSegmentWriter_at e (rq_pid rq) (rq_tid rq) key maps_ Hst Hkey ps) by (done || (fold notes; lia)). fold notes. rewrite Hlp. cbn [mbind outcome_mbind]. rewrite <- (app_nil_r (ptable (note :: loads))).
  change 96%nat with (phdr_addr 0 + 32)%nat. rewrite patch_filesz by (done || (cbn; lia)). change 72%nat with (phdr_addr 0 + 8)%nat. rewrite patch_offset by (done || (cbn; lia)). cbn [alter list_alter].
  exists loads. split; [|done]. set (a := Z.of_nat (64 + 56 * S n)). set (z := Z.of_nat (length notes)).
  assert (set_offset a (set_filesz z note) = set_filesz z (set_offset a PtNoteHeaderFill)) as ->. { change (set_filesz z (set_offset a (set_offset 0 note)) = set_filesz z (set_offset a (set_offset 0 PtNoteHeaderFill))). by rewrite Hnote. }
  rewrite app_nil_r, <- app_assoc. do 3 f_equal. lia.
Qed.

(** ** Concurrent writes

    Writes that all agree with a target, and cover the places where the memory differs from it, give
    the target in whatever order they are done. *)
Definition agrees (T : list Z) (w : write) : Prop := (w.1 + length w.2 <= length T)%nat ∧ slice w.1 (length w.2) T = w.2.
Definition covers (ws : list write) (k : nat) : Prop := ∃ w, w ∈ ws ∧ (w.1 <= k < w.1 + length w.2)%nat.
Record towards (T : list Z) (ws : list write) (buf : list Z) : Prop := {
  tw_length : length buf = length T;
  tw_agree : Forall (agrees T) ws;
  tw_cover k : (k < length T)%nat → buf !! k = T !! k ∨ covers ws k
}.

Lemma patch_lookup off bs buf k : (off + length bs <= length buf)%nat → patch off bs buf !! k = if decide (off <= k < off + length bs)%nat then bs !! (k - off)%nat else buf !! k.
Proof.
  intros H. unfold patch. case_decide as Hd.
  - rewrite lookup_app_r by (rewrite length_take; lia). rewrite lookup_app_l by (rewrite length_take; lia). f_equal. rewrite length_take. lia.
  - destruct (Nat.lt_ge_cases k off).
    + rewrite lookup_app_l by (rewrite length_take; lia). rewrite lookup_take. by rewrite decide_True by lia.
    + rewrite lookup_app_r by (rewrite length_take; lia). rewrite lookup_app_r by (rewrite length_take; lia). rewrite lookup_drop. f_equal. rewrite length_take. lia.
Qed.
Lemma slice_lookup off n l k : (k < n)%nat → slice off n l !! k = l !! (off + k)%nat.
Proof. intros H. unfold slice. rewrite lookup_take, decide_True by done. by rewrite lookup_drop. Qed.

Lemma towards_step T w ws ws' buf : towards T ws buf → w ∈ ws → (∀ x, x ∈ ws → x = w ∨ x ∈ ws') → (∀ x, x ∈ ws' → x ∈ ws) →
  poke_bytes w.1 w.2 buf = Ret (patch w.1 w.2 buf) ∧ towards T ws' (patch w.1 w.2 buf).
Proof.
  intros [H1 H2 H3] Hw Hback Hsub. pose proof (proj1 (list.Forall_forall _ _) H2 w Hw) as [Ha1 Ha2]. split; [apply poke_bytes_Ret; lia|]. split.
  - rewrite length_patch by lia. done.
  - apply list.Forall_forall. intros x Hx. apply (proj1 (list.Forall_forall _ _) H2). by apply Hsub.
  - intros k Hk. rewrite patch_lookup by lia. case_decide as Hd.
    + left. rewrite <- Ha2, slice_lookup by lia. f_equal. lia.
    + destruct (H3 k Hk) as [E|(x & Hx & Hr)]; [by left|]. destruct (Hback x Hx) as [-> |]; [lia|]. right. by exists x.
Qed.
Lemma towards_done T buf : towards T [] buf → buf = T.
Proof.
  intros [H1 _ H3]. apply list_eq. intros k. destruct (Nat.lt_ge_cases k (length T)) as [Hk|Hk].
  - destruct (H3 k Hk) as [E|(x & Hx & _)]; [done|]. by apply elem_of_nil in Hx.
  - rewrite !lookup_ge_None_2 by lia. done.
Qed.
Lemma run_writes_target T ws buf : towards T ws buf → foldr (λ w k buf, buf ← poke_bytes w.1 w.2 buf; k buf) Ret ws buf = Ret T.
Proof.
  revert buf. induction ws as [|w ws IH]; intros buf H; cbn; [by rewrite (towards_done T buf H)|].
  destruct (towards_step T w (w :: ws) ws buf H) as [-> H']; [by left|by intros x [->|]%elem_of_cons; auto|by intros x; right|]. by apply IH.
Qed.
Lemma run_schedule_target T sched tasks buf : towards T (concat tasks) buf → run_schedule sched tasks buf = Ret T.
Proof.
  revert tasks buf. induction sched as [|i sched IH]; intros tasks buf H; cbn [run_schedule]; [by apply run_writes_target|].
  destruct (tasks !! i) as [[|w ws]|] eqn:E; [by apply IH| |by apply IH].
  assert (Hmem : ∀ x l, x ∈ concat (<[i := l]> tasks) ↔ x ∈ concat (take i tasks) ∨ x ∈ l ∨ x ∈ concat (drop (S i) tasks)).
  { intros x l. rewrite insert_take_drop by by apply lookup_lt_is_Some_1. rewrite concat_app, elem_of_app. cbn. by rewrite elem_of_app. }
  assert (Hmem0 : ∀ x, x ∈ concat tasks ↔ x ∈ concat (take i tasks) ∨ x ∈ w :: ws ∨ x ∈ concat (drop (S i) tasks)) by (intros x; by rewrite <- Hmem, list_insert_id).
  destruct (towards_step T w (concat tasks) (concat (<[i := ws]> tasks)) buf H) as [-> H'].
  - rewrite Hmem0. right. left. by left.
  - intros x. rewrite Hmem, Hmem0, elem_of_cons. tauto.
  - intros x. rewrite Hmem, Hmem0, elem_of_cons. tauto.
  - cbn. by apply IH.
Qed.

(** ** The memory *)
Section Memory.
Context (memory : Z → option Z) (readv : Z → Z → list Z).
(** [process_vm_readv] transfers all that was asked for when all of it is mapped. *)
Definition readv_ok : Prop := ∀ v n, 0 <= n → length (readable_bytes memory (Z.to_nat n) v) = Z.to_nat n → readv v n = readable_bytes memory (Z.to_nat n) v.
Context (Hreadv : readv_ok).

Definition seg_mem (s : Elf64_Phdr) : list Z := readable_bytes memory (Z.to_nat (ph_memsz s)) (ph_vaddr s).
Definition mems (l : list Elf64_Phdr) : list Z := concat (map seg_mem l).
Record seg_ok (s : Elf64_Phdr) : Prop := {
  sg_vaddr : 0 <= ph_vaddr s; sg_memsz : 0 <= ph_memsz s; sg_end : ph_vaddr s + ph_memsz s < 2 ^ 64;
  sg_mapped : length (seg_mem s) = Z.to_nat (ph_memsz s)
}.
Lemma mems_app l l' : mems (l ++ l') = mems l ++ mems l'.
Proof. unfold mems. by rewrite map_app, concat_app. Qed.
Lemma mems_cons s l : mems (s :: l) = seg_mem s ++ mems l.
Proof. done. Qed.

Lemma absorb_spec segs : ∀ m, seg_ok m → Forall seg_ok segs → ∀ m' k, absorb m segs = (m', k) → (k <= length segs)%nat ∧ seg_ok m' ∧ seg_mem m' = seg_mem m ++ mems (take k segs).
Proof.
  induction segs as [|s segs IH]; intros m Hm Hs m' k E; cbn [absorb] in E; [injection E as <- <-; by rewrite app_nil_r|]. apply list.Forall_cons in Hs as [Hs Hss]. destruct Hm as [M1 M2 M3 M4]. destruct Hs as [S1 S2 S3 S4].
  rewrite (wrap_small 64 (ph_vaddr m + ph_memsz m)) in E by (unfold fits; lia). destruct (Z.eqb_spec (ph_vaddr m + ph_memsz m) (ph_vaddr s)) as [Ev|]; [|injection E as <- <-; cbn; split; [lia|]; split; [by split|by rewrite app_nil_r]].
  destruct (ph_flags m =? ph_flags s); [|injection E as <- <-; cbn; split; [lia|]; split; [by split|by rewrite app_nil_r]]. cbn [andb] in E.
  set (m2 := mkPh _ _ _ _ _ _ _ _) in E. destruct (absorb m2 segs) as [m3 k3] eqn:E3. injection E as <- <-.
  assert (Hsz : ph_memsz m2 = ph_memsz m + ph_memsz s) by (unfold m2; cbn; rewrite wrap_small by (unfold fits; lia); done).
  assert (Hmem : seg_mem m2 = seg_mem m ++ seg_mem s).
  { unfold seg_mem. rewrite Hsz. unfold m2. cbn [ph_vaddr]. rewrite Z2Nat.inj_add by done. rewrite readable_app by exact M4. rewrite Z2Nat.id by done. by rewrite Ev. }
  destruct (IH m2) with (m' := m3) (k := k3) as (H1 & H2 & H3); [|done|done|].
  - split; [done|lia|rewrite Hsz; unfold m2; cbn; lia|]. rewrite Hmem, length_app, M4, S4, Hsz. lia.
  - cbn [length take]. split; [lia|]. split; [done|]. by rewrite H3, Hmem, mems_cons, app_assoc.
Qed.

Lemma merge_loop_spec segs_ e fuel : Forall seg_ok segs_ → (e <= length segs_)%nat → ∀ i, (i <= e)%nat → (e - i < fuel)%nat →
  ∃ ms, merge_loop fuel segs_ i e = Ret ms ∧ Forall (λ m, seg_ok (ms_phdr m)) ms ∧ concat (map (λ m, seg_mem (ms_phdr m)) ms) = mems (take (e - i) (drop i segs_)).
Proof.
  intros Hs He. induction fuel as [|fuel IH]; intros i Hi Hf; [lia|]. cbn [merge_loop]. destruct (Nat.ltb_spec i e) as [Hlt|]; [|exists []; replace (e - i)%nat with 0%nat by lia; done].
  destruct (lookup_lt_is_Some_2 segs_ i ltac:(lia)) as [s Es]. rewrite Es. destruct (absorb s _) as [m k] eqn:Ea.
  assert (Hss : Forall seg_ok (take (e - S i) (drop (S i) segs_))) by by apply Forall_take, Forall_drop.
  destruct (absorb_spec _ s (Forall_lookup_1 _ _ _ _ Hs Es) Hss m k Ea) as (Hk & Hm & Hmem). rewrite length_take, length_drop in Hk.
  destruct (IH (S i + k)%nat ltac:(lia) ltac:(lia)) as (ms & -> & H1 & H2). cbn [mbind outcome_mbind]. eexists. split; [done|]. split; [by apply Forall_cons_2|]. cbn [map concat ms_phdr]. rewrite Hmem, H2, <- app_assoc.
  rewrite (drop_S segs_ s i Es). replace (e - i)%nat with (S (e - S i)) by lia. cbn [take]. rewrite mems_cons. f_equal. rewrite <- mems_app. f_equal.
  rewrite take_take, Nat.min_l by lia. rewrite <- drop_drop, take_take_drop. f_equal. lia.
Qed.

Lemma copy_writes_spec cap ms : Forall (λ m, seg_ok (ms_phdr m)) ms → ∀ (start : nat) t, let M := concat (map (λ m, seg_mem (ms_phdr m)) ms) in (start + length M <= cap)%nat → 0 <= t → t + length M < 2 ^ 64 →
  ∃ ws, copy_writes readv cap ms start t = (ws, t + length M) ∧
    ∀ T pre suf, T = pre ++ M ++ suf → length pre = start → Forall (agrees T) ws ∧ ∀ k, (start <= k < start + length M)%nat → covers ws k.
Proof.
  induction 1 as [|m ms Hm Hms IH]; cbn zeta; intros start t Hc H0 Ht; cbn [copy_writes map concat] in *.
  - exists []. rewrite Z.add_0_r. split; [done|]. intros T pre suf -> Hp. split; [constructor|]. cbn. lia.
  - set (M := concat (map (λ m, seg_mem (ms_phdr m)) ms)) in *. destruct Hm as [V1 V2 V3 V4]. set (p := ms_phdr m) in *. rewrite length_app in *. destruct (Z.ltb_spec cap (start + ph_memsz p)); [lia|].
    rewrite (wrap_small 64 (t + ph_memsz p)) by (unfold fits; lia). replace (Z.of_nat start + ph_memsz p) with (Z.of_nat (start + length (seg_mem p))) by lia.
    destruct (IH (start + length (seg_mem p))%nat (t + ph_memsz p)) as (ws & -> & Hws); [lia..|]. eexists. split; [f_equal; lia|]. rewrite Nat2Z.id. rewrite (Hreadv (ph_vaddr p) (ph_memsz p) V2 V4). fold (seg_mem p). rewrite take_ge by lia.
    intros T pre suf HT Hp. destruct (Hws T (pre ++ seg_mem p) suf) as [A C]; [rewrite HT; by rewrite <- !app_assoc|rewrite length_app; lia|]. split.
    + apply Forall_cons_2; [|done]. split; cbn [fst snd]; [rewrite HT, !length_app; lia|]. apply (slice_mid_eq _ _ pre (seg_mem p) (M ++ suf)); [by rewrite HT, <- !app_assoc|done|done].
    + intros k Hk. destruct (Nat.lt_ge_cases k (start + length (seg_mem p))) as [Hlt|Hge].
      * exists (start, seg_mem p). split; [by left|cbn; lia].
      * destruct (C k ltac:(lia)) as (w & Hw & Hr). exists w. split; [by right|done].
Qed.

Fixpoint place_all (segs : list Elf64_Phdr) (start : Z) : list Elf64_Phdr :=
  match segs with [] => [] | s :: segs' => set_offset start s :: place_all segs' (start + ph_memsz s) end.
Lemma length_place_all segs start : length (place_all segs start) = length segs.
Proof. revert start. induction segs; intros; cbn; auto. Qed.
Lemma place_all_same segs segs' start : map (set_offset 0) segs = map (set_offset 0) segs' → place_all segs start = place_all segs' start.
Proof.
  revert segs' start. induction segs as [|s segs IH]; intros [|s' segs'] start E; try done. pose proof (f_equal tail E) as Et. pose proof (f_equal head E) as Eh. cbn [map tail head] in Et, Eh. apply (inj Some) in Eh. cbn [place_all].
  rewrite (IH segs') by done. change (set_offset start s) with (set_offset start (set_offset 0 s)). change (ph_memsz s) with (ph_memsz (set_offset 0 s)). by rewrite Eh.
Qed.
Lemma place_all_lookup segs start j s : Forall seg_ok segs → segs !! j = Some s → place_all segs start !! j = Some (set_offset (start + length (mems (take j segs))) s).
Proof.
  intros H. revert start j. induction H as [|x segs Hx H IH]; intros start [|j] E; cbn [place_all take] in *; try done.
  - injection E as ->. cbn. by rewrite Z.add_0_r.
  - cbn [lookup list_lookup] in *. rewrite (IH _ _ E). rewrite mems_cons, length_app. destruct Hx as [_ H0 _ Hm]. do 2 f_equal. lia.
Qed.
Definition place_write (idx : nat) (v : Z) : write := ((phdr_addr (S idx) + 8)%nat, le_bytes 8 v).
Lemma place_writes_elem segs idx start w : Forall seg_ok segs → w ∈ place_writes segs idx start ↔ ∃ j, (j < length segs)%nat ∧ w = place_write (idx + j) (start + length (mems (take j segs))).
Proof.
  intros H. revert idx start. induction H as [|x segs Hx H IH]; intros idx start; cbn [place_writes].
  - split; [by intros ?%elem_of_nil|]. intros (j & Hj & _). cbn in Hj. lia.
  - rewrite elem_of_cons, IH. destruct Hx as [_ H0 _ Hm]. split.
    + intros [->|(j & Hj & ->)]; [exists O|exists (S j)]; cbn [length take]; (split; [lia|]); [change (length (mems [])) with O; by rewrite Nat.add_0_r, Z.add_0_r|]. rewrite mems_cons, length_app. f_equal; lia.
    + intros ([|j] & Hj & ->); [left; cbn [take]; change (length (mems [])) with O; by rewrite Nat.add_0_r, Z.add_0_r|right]. exists j. cbn [length take] in *. split; [lia|]. rewrite mems_cons, length_app. f_equal; lia.
Qed.

Context (h notes : list Z) (note : Elf64_Phdr) (segs_ : list Elf64_Phdr) (n : nat).
Context (Hh : length h = 64%nat) (Hsegs : Forall seg_ok segs_).
Let B : nat := (64 + 56 * S (length segs_) + length notes)%nat.
Let M : list Z := mems segs_.
Context (Hn : (length M <= n)%nat) (Hsmall : Z.of_nat (B + n) < 2 ^ 63).
Let T : list Z := h ++ ptable (note :: place_all segs_ B) ++ notes ++ M ++ replicate (n - length M) 0.

Lemma length_T : length T = (B + n)%nat.
Proof. unfold T, B. rewrite !length_app, Hh, length_ptable, length_replicate. cbn [length]. rewrite length_place_all. lia. Qed.
Lemma place_agrees j s : segs_ !! j = Some s → agrees T (place_write j (B + length (mems (take j segs_)))).
Proof.
  intros Hj. pose proof (lookup_lt_Some _ _ _ Hj) as Hlt. set (v := Z.of_nat B + _). unfold agrees, place_write. cbn [fst snd]. rewrite length_le_bytes, length_T.
  assert (Hlen : (phdr_addr (S j) + 8 + 8 <= B + n)%nat) by (unfold phdr_addr, sizeof_Elf64_Ehdr, sizeof_Elf64_Phdr, B; lia). split; [done|].
  assert (E : patch (phdr_addr (S j) + 8) (le_bytes 8 v) T = T).
  { unfold T. rewrite patch_offset by (done || (cbn [length]; rewrite length_place_all; lia)). do 3 f_equal. cbn [alter list_alter]. f_equal. apply list_eq. intros k. destruct (decide (k = j)) as [->|Hk].
    - rewrite list_lookup_alter_eq, (place_all_lookup segs_ B j s Hsegs Hj). done.
    - by rewrite list_lookup_alter_ne. }
  pose proof (slice_patch (phdr_addr (S j) + 8) (le_bytes 8 v) T ltac:(by rewrite length_le_bytes, length_T)) as HS. by rewrite length_le_bytes, E in HS.
Qed.

Lemma take_drop_mems i e : (i <= e)%nat → (e <= length segs_)%nat → (length (mems (take i segs_)) + length (mems (take (e - i) (drop i segs_))) = length (mems (take e segs_)))%nat.
Proof. intros H1 H2. rewrite <- length_app, <- mems_app, take_take_drop. do 3 f_equal. lia. Qed.
Lemma mems_le e : (length (mems (take e segs_)) <= length M)%nat.
Proof. unfold M. rewrite <- (take_drop e segs_) at 2. rewrite mems_app, length_app. lia. Qed.

Lemma WriteMergedSeg_spec i e : (i <= e)%nat → (e <= length segs_)%nat → let D := mems (take (e - i) (drop i segs_)) in let start := (B + length (mems (take i segs_)))%nat in
  ∃ ws, WriteMergedSeg readv (B + n) segs_ i e start = Ret (ws, Z.of_nat (length D)) ∧ Forall (agrees T) ws ∧
    (∀ j, (i <= j < e)%nat → place_write j (B + length (mems (take j segs_))) ∈ ws) ∧ ∀ k, (start <= k < start + length D)%nat → covers ws k.
Proof.
  intros Hi He. cbn zeta. set (D := mems (take (e - i) (drop i segs_))). set (start := (B + length (mems (take i segs_)))%nat). unfold WriteMergedSeg, MergeLoadSeg. destruct (merge_loop_spec segs_ e (S e) Hsegs He i Hi ltac:(lia)) as (ms & -> & Hms & HD). fold D in HD. cbn [mbind outcome_mbind].
  pose proof (take_drop_mems i e Hi He) as Hsum. fold D in Hsum. pose proof (mems_le e). pose proof (copy_writes_spec (B + n) ms Hms start 0) as HC. cbn zeta in HC. rewrite HD in HC.
  destruct HC as (ws & Ec & Hc); [unfold start; lia|done|lia|]. rewrite Ec, Z.add_0_l. eexists. split; [done|].
  destruct (Hc T (h ++ ptable (note :: place_all segs_ B) ++ notes ++ mems (take i segs_)) (mems (drop e segs_) ++ replicate (n - length M) 0)) as [A C].
  { unfold T, M. rewrite <- !app_assoc. do 3 f_equal. rewrite <- (take_drop i segs_) at 1. rewrite mems_app, <- app_assoc. f_equal. rewrite <- (take_drop (e - i) (drop i segs_)) at 1. rewrite mems_app, drop_drop, <- app_assoc. unfold D. do 3 f_equal. f_equal. lia. }
  { rewrite !length_app, Hh, length_ptable. cbn [length]. rewrite length_place_all. unfold start, B. lia. }
  assert (Hst : ∀ j, (i <= j < e)%nat → place_write j (B + length (mems (take j segs_))) ∈ place_writes (take (e - i) (drop i segs_)) i start).
  { intros j Hj. apply place_writes_elem; [by apply Forall_take, Forall_drop|]. exists (j - i)%nat. rewrite length_take, length_drop. split; [lia|]. rewrite take_take, Nat.min_l by lia.
    unfold start. rewrite <- (take_drop_mems i j) by lia. f_equal; lia. }
  split; [|split].
  - apply list.Forall_app. split; [|done]. apply list.Forall_forall. intros w Hw. apply place_writes_elem in Hw as (j & Hj & ->); [|by apply Forall_take, Forall_drop]. rewrite length_take, length_drop in Hj. rewrite take_take, Nat.min_l by lia.
    destruct (lookup_lt_is_Some_2 segs_ (i + j)%nat ltac:(lia)) as [s Es]. pose proof (place_agrees (i + j) s Es) as HA. rewrite <- (take_drop_mems i (i + j)) in HA by lia. replace (i + j - i)%nat with j in HA by lia.
    unfold start. replace (Z.of_nat (B + length (mems (take i segs_))) + length (mems (take j (drop i segs_)))) with (Z.of_nat B + Z.of_nat (length (mems (take i segs_)) + length (mems (take j (drop i segs_))))) by lia. done.
  - intros j Hj. apply elem_of_app. left. by apply Hst.
  - intros k Hk. destruct (C k Hk) as (w & Hw & Hr). exists w. split; [|done]. apply elem_of_app. by right.
Qed.

Lemma task_end_spec last target segs : Forall seg_ok segs → ∀ acc, 0 <= acc → acc + length (mems segs) < 2 ^ 64 →
  ∃ m, task_end last target acc segs = (m, acc + length (mems (take m segs))) ∧ (m <= length segs)%nat ∧ (last = true → m = length segs).
Proof.
  induction 1 as [|s segs Hs H IH]; intros acc H0 Ha; cbn [task_end]; [exists O; cbn; by rewrite Z.add_0_r|]. rewrite mems_cons, length_app in Ha. destruct Hs as [_ S2 _ S4].
  rewrite (wrap_small 64 (acc + ph_memsz s)) by (unfold fits; lia). destruct (last || _) eqn:El.
  - destruct (IH (acc + ph_memsz s)) as (m & -> & Hm & Hl); [lia..|]. exists (S m). cbn [take length]. rewrite mems_cons, length_app. split; [f_equal; lia|]. split; [lia|]. intros HL. by rewrite Hl.
  - exists O. cbn. rewrite Z.add_0_r. split; [done|]. split; [lia|]. intros ->. done.
Qed.

Lemma tasks_loop_S cnt segs base target b off : tasks_loop (S cnt) segs base target b off =
  let '(m, acc) := task_end (cnt =? 0)%nat target 0 (drop b segs) in mkTask b (b + m) (base + off) :: tasks_loop cnt segs base target (b + m) (u64 (off + acc)).
Proof. done. Qed.
Lemma tasks_spec target cnt : ∀ b, (b <= length segs_)%nat →
  ∃ wss totals, tasks_writes readv (B + n) segs_ (tasks_loop (S cnt) segs_ B target b (length (mems (take b segs_)))) = Ret (wss, map Z.of_nat totals) ∧ Forall (agrees T) (concat wss) ∧
    (∀ j, (b <= j < length segs_)%nat → place_write j (B + length (mems (take j segs_))) ∈ concat wss) ∧ (∀ k, (B + length (mems (take b segs_)) <= k < B + length M)%nat → covers (concat wss) k) ∧
    (length (mems (take b segs_)) + sum_list totals = length M)%nat.
Proof.
  assert (HM : Z.of_nat (length M) < 2 ^ 63) by lia. assert (Hall : length (mems (take (length segs_) segs_)) = length M) by (unfold M; by rewrite take_ge by lia).
  induction cnt as [|cnt IH]; intros b Hb; remember (tasks_loop _ _ _ _ _ _) as ts eqn:Ets; rewrite tasks_loop_S in Ets.
  all: set (off := Z.of_nat (length (mems (take b segs_)))) in *; pose proof (take_drop_mems b (length segs_) Hb ltac:(lia)) as Hsum; rewrite Hall in Hsum; replace (take (length segs_ - b) (drop b segs_)) with (drop b segs_) in Hsum by (rewrite take_ge; [done|rewrite length_drop; lia]).
  all: match type of Ets with context [task_end ?l _ _ _] => destruct (task_end_spec l target (drop b segs_) ltac:(by apply Forall_drop) 0 ltac:(done) ltac:(lia)) as (m & Em & Hm & Hl) end; rewrite Em, ?Z.add_0_l in Ets; rewrite length_drop in Hm, Hl; subst ts.
  all: destruct (WriteMergedSeg_spec b (b + m)) as (ws & Ew & A & P & C); [lia..|]; cbn [tasks_writes t_from t_to t_dst]; replace (Z.of_nat B + off) with (Z.of_nat (B + length (mems (take b segs_)))) by (unfold off; lia);
    rewrite Ew; cbn [mbind outcome_mbind]; replace (b + m - b)%nat with m in * by lia; pose proof (take_drop_mems b (b + m) ltac:(lia) ltac:(lia)) as Hs2; replace (b + m - b)%nat with m in Hs2 by lia.
  - specialize (Hl eq_refl). exists [ws], [length (mems (take m (drop b segs_)))]. split; [done|]. cbn [concat]. rewrite app_nil_r. split; [done|]. replace (b + m)%nat with (length segs_) in * by lia. rewrite Hall in Hs2. split; [done|].
    split; [intros k Hk; apply C; lia|]. cbn. lia.
  - pose proof (mems_le (b + m)) as Hle. rewrite (wrap_small 64) by (unfold fits, off; lia). destruct (IH (b + m)%nat ltac:(lia)) as (wss & totals & Et & A2 & P2 & C2 & S2).
    replace (off + length (mems (take m (drop b segs_)))) with (Z.of_nat (length (mems (take (b + m) segs_)))) by (unfold off; lia). rewrite Et. cbn [mbind outcome_mbind].
    exists (ws :: wss), (length (mems (take m (drop b segs_))) :: totals). split; [done|]. cbn [concat]. split; [by apply list.Forall_app|]. split; [|split].
    + intros j Hj. apply elem_of_app. destruct (Nat.lt_ge_cases j (b + m)); [left; apply P; lia|right; apply P2; lia].
    + intros k Hk. destruct (Nat.lt_ge_cases k (B + length (mems (take (b + m) segs_)))) as [Hlt|Hge]; [destruct (C k ltac:(lia)) as (w & Hw & Hr)|destruct (C2 k ltac:(lia)) as (w & Hw & Hr)]; exists w; (split; [apply elem_of_app; by auto|done]).
    + cbn. lia.
Qed.

Lemma advance_totals totals buf cur : (cur + sum_list totals <= length buf)%nat →
  fold_left (λ b total, (Advance (Z.to_nat total) b).2) (map Z.of_nat totals) (mkWriter buf cur) = mkWriter buf (cur + sum_list totals).
Proof.
  revert cur. induction totals as [|t totals IH]; intros cur H; cbn in *; [by rewrite Nat.add_0_r|]. unfold Advance at 2. unfold GetCapacity. cbn [bw_buf bw_current]. rewrite Nat2Z.id. rewrite (proj2 (Nat.ltb_ge _ _)) by lia. cbn [snd]. rewrite IH by lia. f_equal. lia.
Qed.

(** Headers that differ in their offsets only. *)
Lemma phdr_set_offset_bytes o p : phdr_bytes (set_offset o p) = patch 8 (le_bytes 8 o) (phdr_bytes p).
Proof.
  unfold phdr_bytes, set_offset. cbn [ph_type ph_flags ph_offset ph_vaddr ph_paddr ph_filesz ph_memsz ph_align]. symmetry.
  rewrite (patch_app_eq 8 (le_bytes 4 (ph_type p) ++ le_bytes 4 (ph_flags p)) (le_bytes 8 (ph_offset p)) (le_bytes 8 o) (le_bytes 8 (ph_vaddr p) ++ le_bytes 8 (ph_paddr p) ++ le_bytes 8 (ph_filesz p) ++ le_bytes 8 (ph_memsz p) ++ le_bytes 8 (ph_align p)));
    [by rewrite <- !app_assoc|by rewrite <- !app_assoc|done|by rewrite !length_le_bytes].
Qed.
Lemma ptable_lookup ps qs : map (set_offset 0) ps = map (set_offset 0) qs → ∀ k, ptable ps !! k = ptable qs !! k ∨ ∃ i, (i < length ps)%nat ∧ (56 * i + 8 <= k < 56 * i + 16)%nat.
Proof.
  revert qs. induction ps as [|p ps IH]; intros [|q qs] E k; try done; [by left|]. pose proof (f_equal tail E) as Et. pose proof (f_equal head E) as Eh. cbn [map tail head] in Et, Eh. apply (inj Some) in Eh. rewrite !ptable_cons.
  destruct (Nat.lt_ge_cases k 56) as [Hk|Hk].
  - rewrite !lookup_app_l by by rewrite length_phdr_bytes. destruct (decide (8 <= k < 16)%nat) as [Hd|Hd]; [right; exists O; cbn; lia|left].
    pose proof (f_equal phdr_bytes Eh) as Eb. rewrite !phdr_set_offset_bytes in Eb. apply (f_equal (λ l, l !! k)) in Eb. cbn beta in Eb. rewrite !patch_lookup in Eb by (rewrite length_le_bytes, length_phdr_bytes; lia).
    rewrite length_le_bytes, !decide_False in Eb by lia. exact Eb.
  - rewrite !lookup_app_r by (rewrite length_phdr_bytes; lia). rewrite !length_phdr_bytes. destruct (IH qs Et (k - 56)%nat) as [->|(i & Hi & Hr)]; [by left|]. right. exists (S i). cbn [length]. lia.
Qed.

Lemma read_segs_at ps r m k : ∀ i, (S i + k <= length ps)%nat → read_segs k i (writer_at (h ++ ptable ps ++ r) m) = Ret (map (λ p, phdr_of (phdr_bytes p)) (take k (drop (S i) ps))).
Proof.
  induction k as [|k IH]; intros i Hi; cbn [read_segs]; [done|]. destruct (lookup_lt_is_Some_2 ps (S i) ltac:(lia)) as [p Hp].
  rewrite peek_in by (rewrite !length_app, Hh, length_ptable; unfold phdr_addr, sizeof_Elf64_Ehdr, sizeof_Elf64_Phdr; lia). cbn [mbind outcome_mbind]. unfold sizeof_Elf64_Phdr. rewrite (slice_phdr h ps r (S i) p) by done.
  rewrite IH by lia. cbn [mbind outcome_mbind]. by rewrite (drop_S ps p (S i) Hp).
Qed.

Lemma place_all_offsets segs z : map (set_offset 0) (place_all segs z) = map (set_offset 0) segs.
Proof. revert z. induction segs as [|s l IH]; intros z; [done|]. cbn [place_all map]. by rewrite IH. Qed.

Lemma load_at loads tc sched : segs_ = map (λ p, phdr_of (phdr_bytes p)) loads → map (set_offset 0) loads = map (set_offset 0) segs_ → 1 <= tc →
  LoadSegmentWriter_Write readv tc sched (1 + length loads) (writer_at (h ++ ptable (note :: loads) ++ notes) n) = Ret (writer_at (h ++ ptable (note :: place_all segs_ B) ++ notes ++ M) (n - length M)).
Proof.
  intros Hr Hs Htc. assert (Hll : length loads = length segs_) by (apply (f_equal length) in Hs; by rewrite !length_map in Hs).
  assert (Hlp : length (h ++ ptable (note :: loads) ++ notes) = B) by (rewrite !length_app, Hh, length_ptable; cbn [length]; unfold B; lia).
  unfold LoadSegmentWriter_Write. replace (Z.to_nat (1 + length loads - 1)) with (length loads) by lia. rewrite read_segs_at by (cbn; lia). cbn [drop]. rewrite drop_0, take_ge by done. rewrite <- Hr. cbn [mbind outcome_mbind].
  unfold RunWriteTasks, GetCapacity, GenerateWriteTasks. cbn [bw_buf bw_current writer_at]. rewrite (length_app (h ++ ptable (note :: loads) ++ notes)), length_replicate, Hlp. destruct (Z.to_nat tc) as [|cnt] eqn:Ec; [lia|].
  destruct (tasks_spec (GetTotalSize segs_ / tc) cnt 0 ltac:(lia)) as (wss & totals & E & A & P & C & HS). change (length (mems (take 0 segs_))) with O in E, C, HS. change (Z.of_nat 0) with 0 in E. rewrite E. cbn [mbind outcome_mbind].
  rewrite (run_schedule_target T).
  - cbn [mbind outcome_mbind]. rewrite advance_totals by (rewrite length_T; lia). rewrite Nat.add_0_l in HS. rewrite HS. unfold writer_at, T. do 2 f_equal; [by rewrite <- !app_assoc|]. rewrite !length_app, Hh, length_ptable. cbn [length]. rewrite length_place_all. unfold B. lia.
  - split; [rewrite length_app, length_replicate, Hlp, length_T; done|done|]. intros k Hk. rewrite length_T in Hk. unfold T. rewrite <- !app_assoc.
    destruct (Nat.lt_ge_cases k 64) as [H64|H64]; [left; by rewrite !lookup_app_l by by rewrite Hh|]. rewrite !(lookup_app_r h) by lia. rewrite Hh.
    assert (HT1 : length (ptable (note :: loads)) = (56 * S (length segs_))%nat) by (rewrite length_ptable; cbn; lia). assert (HT2 : length (ptable (note :: place_all segs_ B)) = (56 * S (length segs_))%nat) by (rewrite length_ptable; cbn [length]; by rewrite length_place_all).
    destruct (Nat.lt_ge_cases (k - 64) (56 * S (length segs_))) as [Ht|Ht].
    + rewrite !lookup_app_l by lia. rewrite !ptable_cons. destruct (Nat.lt_ge_cases (k - 64) 56) as [H56|H56]; [left; by rewrite !lookup_app_l by by rewrite length_phdr_bytes|]. rewrite !lookup_app_r by (rewrite length_phdr_bytes; lia). rewrite !length_phdr_bytes.
      destruct (ptable_lookup loads (place_all segs_ B)) with (k := (k - 64 - 56)%nat) as [Eq|(i & Hi & Hr')]; [|by left|right].
      { by rewrite Hs, place_all_offsets. }
      exists (place_write i (B + length (mems (take i segs_)))). split; [apply P; lia|]. unfold place_write. cbn [fst snd]. rewrite length_le_bytes. unfold phdr_addr, sizeof_Elf64_Ehdr, sizeof_Elf64_Phdr. lia.
    + rewrite (lookup_app_r (ptable (note :: loads))), (lookup_app_r (ptable (note :: place_all segs_ B))) by lia. rewrite HT1, HT2. destruct (Nat.lt_ge_cases k B) as [HB|HB]; [left; by rewrite !lookup_app_l by (unfold B in HB; lia)|]. rewrite !(lookup_app_r notes) by (unfold B in HB; lia).
      destruct (Nat.lt_ge_cases k (B + length M)) as [HM|HM]; [right; apply C; lia|left]. rewrite (lookup_app_r M) by (unfold B in HM; lia). rewrite !lookup_replicate_2 by (unfold B in *; lia). done.
Qed.
End Memory.

(** ** The sections *)
Lemma poke_tail off bs q m c : off = length q → (length bs <= m)%nat → buf_poke off bs (mkWriter (q ++ replicate m 0) c) = Ret (mkWriter ((q ++ bs) ++ replicate (m - length bs) 0) c).
Proof.
  intros -> H. unfold buf_poke. cbn [bw_buf bw_current]. rewrite poke_bytes_Ret by (rewrite length_app, length_replicate; lia). cbn. rewrite (zeros_split (length bs) m) at 1 by done.
  rewrite patch_app by by rewrite length_replicate. by rewrite <- app_assoc.
Qed.
Lemma peek_tail off k q m c : (off + k <= length q)%nat → peek off k (bw_buf (mkWriter (q ++ replicate m 0) c)) = Ret (slice off k q).
Proof. intros H. cbn. rewrite peek_Ret by (rewrite length_app; lia). by rewrite slice_app. Qed.

Definition reread (p : Elf64_Phdr) : Elf64_Phdr := phdr_of (phdr_bytes p).
Definition load_section (p : Elf64_Phdr) : list Z := SectionHeaderFill 0x11 SHT_PROGBITS (SetShFlag (reread p)) (reread p).
Lemma length_SectionHeaderFill a b c p : length (SectionHeaderFill a b c p) = 64%nat.
Proof. unfold SectionHeaderFill, shdr_bytes, shdr_head. by rewrite !length_app, !length_le_bytes. Qed.
Lemma load_sections_at h ps c : length h = 64%nat → ∀ k i q m, (i + k <= length ps)%nat → (∃ s, q = h ++ ptable ps ++ s) → (64 * k <= m)%nat →
  load_sections k i (length q) (mkWriter (q ++ replicate m 0) c) = Ret ((length q + 64 * k)%nat, mkWriter ((q ++ concat (map load_section (take k (drop i ps)))) ++ replicate (m - 64 * k) 0) c).
Proof.
  intros Hh. induction k as [|k IH]; intros i q m Hi [s Hq] Hm; cbn [load_sections]; [cbn [take map concat]; by rewrite app_nil_r, Nat.sub_0_r, Nat.add_0_r|].
  destruct (lookup_lt_is_Some_2 ps i ltac:(lia)) as [p Hp]. rewrite peek_tail by (rewrite Hq, !length_app, Hh, length_ptable; unfold phdr_addr, sizeof_Elf64_Ehdr, sizeof_Elf64_Phdr; lia). cbn [mbind outcome_mbind].
  replace (slice (phdr_addr i) sizeof_Elf64_Phdr q) with (phdr_bytes p) by (symmetry; rewrite Hq; by apply slice_phdr). fold (reread p). fold (load_section p). assert (Hl : length (load_section p) = 64%nat) by apply length_SectionHeaderFill.
  rewrite (poke_tail _ (load_section p) q m c) by (done || lia). cbn [mbind outcome_mbind]. rewrite Hl. replace (length q + sizeof_Elf64_Shdr)%nat with (length (q ++ load_section p)) by (rewrite length_app, Hl; done).
  rewrite IH; [|lia|exists (s ++ load_section p); rewrite Hq; by rewrite <- !app_assoc|lia]. rewrite (drop_S ps p i Hp). cbn [take map concat]. rewrite length_app, Hl. f_equal. f_equal; [lia|]. rewrite <- !app_assoc. do 5 f_equal. lia.
Qed.

Definition version_text (info : list ascii) : list Z := text_bytes ((lit "Build info:" ++ info) ++ [NUL]).
Definition strtab_at (p : list Z) (info : list ascii) : nat := (length p + length (version_text info))%nat.
Definition shpad (p : list Z) (info : list ascii) : nat := Z.to_nat ((- Z.of_nat (strtab_at p info + 49)) mod 8).
Definition shoff (p : list Z) (info : list ascii) : nat := (strtab_at p info + 49 + shpad p info)%nat.
(** The section headers of a file with these program headers, which has [p] before its strings. *)
Definition sections (p : list Z) (info : list ascii) (note : Elf64_Phdr) (loads : list Elf64_Phdr) : list Z :=
  replicate 64 0 ++ SectionHeaderFill 0x01 SHT_NOTE 0 (reread note) ++ concat (map load_section loads)
  ++ shdr_bytes 0x07 SHT_STRTAB SHF_ALLOC 0 (strtab_at p info) 49 ++ shdr_head 0x17 SHT_NOTE 0 0 (length p) (length (version_text info)) ++ replicate 24 0.
(** All of the file. *)
Definition with_sections (p : list Z) (info : list ascii) (note : Elf64_Phdr) (loads : list Elf64_Phdr) : list Z :=
  patch 40 (le_bytes 8 (shoff p info)) (p ++ version_text info ++ strTable ++ replicate (shpad p info) 0) ++ sections p info note loads.

Lemma length_load_sections l : length (concat (map load_section l)) = (64 * length l)%nat.
Proof. induction l as [|q l IH]; [done|]. cbn [map concat]. rewrite length_app, IH. unfold load_section. rewrite length_SectionHeaderFill. cbn [length]. lia. Qed.
Lemma length_sections p info note loads : length (sections p info note loads) = (64 * (length loads + 4))%nat.
Proof.
  unfold sections. rewrite !length_app, !length_replicate, length_SectionHeaderFill.
  rewrite length_load_sections.
  unfold shdr_bytes, shdr_head. rewrite !length_app, !length_le_bytes. lia.
Qed.

(** The section headers of these segments, and of the names and the version at the given places. *)
Definition section_bytes (note : Elf64_Phdr) (loads : list Elf64_Phdr) (v st len : nat) : list Z :=
  SectionHeaderFill 0x01 SHT_NOTE 0 (reread note) ++ concat (map load_section loads) ++ shdr_bytes 0x07 SHT_STRTAB SHF_ALLOC 0 st 49 ++ shdr_head 0x17 SHT_NOTE 0 0 v (len + 1)%nat ++ replicate 24 0.
Lemma section_table_at h note loads s v st len (n : nat) : let q := h ++ ptable (note :: loads) ++ s in let k := length loads in
  length h = 64%nat → slice 60 2 h = le_bytes 2 (1 + k + 3) → 4 + k < 2 ^ 16 → (56 <= length s)%nat → (64 * (k + 3) <= n)%nat →
  section_table v st len (writer_at q n) = Ret (true, writer_at (q ++ section_bytes note loads v st len) (n - 64 * (k + 3))).
Proof.
  cbn zeta. intros Hh Hsh H16 Hs Hn. set (k := length loads) in *. set (q := h ++ ptable (note :: loads) ++ s). unfold section_table, writer_at. cbn [bw_current].
  assert (Hq : length q = (64 + 56 * S k + length s)%nat) by (unfold q; rewrite !length_app, Hh, length_ptable; cbn [length]; lia). assert (Ha : ∀ i, phdr_addr i = (64 + 56 * i)%nat) by done.
  rewrite peek_tail by (rewrite Hq, Ha; unfold sizeof_Elf64_Phdr; lia). cbn [mbind outcome_mbind]. replace (slice (phdr_addr 0) sizeof_Elf64_Phdr q) with (phdr_bytes note) by (symmetry; by apply slice_phdr).
  fold (reread note). set (sn := SectionHeaderFill 1 SHT_NOTE 0 (reread note)). assert (Hsn : length sn = 64%nat) by apply length_SectionHeaderFill.
  rewrite (poke_tail (length q) sn q n) by (done || lia). cbn [mbind outcome_mbind]. rewrite Hsn. set (q1 := q ++ sn). assert (Hq1 : length q1 = (length q + 64)%nat) by (unfold q1; rewrite length_app; lia).
  rewrite peek_tail by lia. cbn [mbind outcome_mbind]. assert (slice 60 2 q1 = le_bytes 2 (1 + k + 3)) as ->. { unfold q1, q. rewrite <- !app_assoc, slice_app by lia. exact Hsh. }
  rewrite of_le_le_bytes, wrap_small by (unfold fits; change (8 * 2%nat) with 16; lia). replace (Z.to_nat (1 + Z.of_nat k + 3 - 4)) with k by lia. change sizeof_Elf64_Shdr with 64%nat. rewrite <- Hq1.
  rewrite (load_sections_at h (note :: loads) (length q) Hh k 1 q1 (n - 64)); [|cbn [length]; lia|exists (s ++ sn); unfold q1, q; by rewrite <- !app_assoc|lia]. cbn [mbind outcome_mbind drop]. rewrite drop_0, take_ge by (unfold k; lia).
  set (sl := concat (map load_section loads)). set (q2 := q1 ++ sl). assert (Hsl : length sl = (64 * k)%nat) by apply length_load_sections.
  assert (Hq2 : length q2 = (length q1 + 64 * k)%nat) by (unfold q2; rewrite length_app; lia). rewrite <- Hq2. rewrite peek_tail by (rewrite Hq2, Hq1, Hq, Ha; unfold sizeof_Elf64_Phdr; lia). cbn [mbind outcome_mbind].
  change (length strTable) with 49%nat. set (ss := shdr_bytes 7 SHT_STRTAB SHF_ALLOC 0 st 49%nat). assert (Hss : length ss = 64%nat) by done.
  rewrite (poke_tail (length q2) ss q2) by (done || lia). cbn [mbind outcome_mbind]. rewrite Hss. set (q3 := q2 ++ ss). assert (Hq3 : length q3 = (length q2 + 64)%nat) by (unfold q3; rewrite length_app; lia).
  set (sv := shdr_head 23 SHT_NOTE 0 0 v (len + 1)%nat). assert (Hsv : length sv = 40%nat) by done. rewrite (poke_tail _ sv q3) by (done || lia). cbn [mbind outcome_mbind]. rewrite Hsv. unfold SetCurrent, GetCapacity. cbn [bw_buf bw_current].
  rewrite (proj2 (Nat.ltb_ge _ _)) by (rewrite !length_app, length_replicate, Hsv, Hq3; lia). cbn [snd].
  assert (E : q ++ section_bytes note loads v st len = (q3 ++ sv) ++ replicate 24 0) by (unfold section_bytes; fold sn sl ss sv; unfold q3, q2, q1; by rewrite <- !app_assoc).
  assert (El : length ((q3 ++ sv) ++ replicate 24 0) = (length q2 + 64 + 64)%nat) by (rewrite (length_app (q3 ++ sv)), length_replicate, (length_app q3), Hsv, Hq3; lia). rewrite E, El.
  rewrite <- (app_assoc (q3 ++ sv) (replicate 24 0)), <- replicate_add. do 6 f_equal. lia.
Qed.

Lemma SectionHeaderTableWriter_at info (k : nat) note loads r (n : nat) : let h := ehdr_bytes (1 + k) in let p := h ++ ptable (note :: loads) ++ r in length loads = k → 4 + k < 2 ^ 16 → (length (version_text info) <= 4096)%nat → (76 <= length r)%nat →
  (length (version_text info) + 49 + 7 + 64 * (k + 4) <= n)%nat →
  SectionHeaderTableWriter_Write info (writer_at p n) = Ret (true, writer_at (with_sections p info note loads) (n - (length (with_sections p info note loads) - length p))).
Proof.
  cbn zeta. intros Hk H16 Hinfo Hr Hn. set (h := ehdr_bytes (1 + k)). set (p := h ++ ptable (note :: loads) ++ r). assert (Hh : length h = 64%nat) by done.
  assert (Hlp : length p = (64 + 56 * S k + length r)%nat) by (unfold p; rewrite !length_app, Hh, length_ptable; cbn [length]; lia).
  unfold SectionHeaderTableWriter_Write. cbn [bw_current writer_at]. change (mkWriter (p ++ replicate n 0) (length p)) with (writer_at p n). fold (version_text info). set (V := version_text info) in *.
  assert (HV : (12 <= length V)%nat) by (unfold V, version_text; rewrite length_text, !length_app; cbn; lia). rewrite buf_Write_at by (try apply small_le; lia). cbn [mbind outcome_mbind bw_current writer_at].
  change (mkWriter ((p ++ V) ++ replicate (n - length V) 0) (length (p ++ V))) with (writer_at (p ++ V) (n - length V)). assert (Hs : length strTable = 49%nat) by done.
  rewrite buf_Write_at by (try apply small_le; rewrite Hs; lia). rewrite Hs. cbn [mbind outcome_mbind negb]. unfold AdjustOffset, GetOffset. cbn [bw_current writer_at]. set (q := (p ++ V) ++ strTable).
  assert (Hq : length q = (strtab_at p info + 49)%nat) by (unfold q, strtab_at; fold V; rewrite !length_app, Hs; lia). change (mkWriter (q ++ replicate ?m 0) (length q)) with (writer_at q m).
  assert (Hpad : (if Z.of_nat (length q) mod SHDR_ALIGN_SIZE =? 0 then 0%nat else Z.to_nat (SHDR_ALIGN_SIZE - Z.of_nat (length q) mod SHDR_ALIGN_SIZE)) = shpad p info).
  { unfold shpad, SHDR_ALIGN_SIZE. rewrite <- Hq. destruct (Z.eqb_spec (Z.of_nat (length q) mod 8) 0) as [E|E]; [by rewrite Z_mod_zero_opp_full|by rewrite Z_mod_nz_opp_full]. }
  rewrite Hpad. assert (Hp8 : (shpad p info < 8)%nat) by (unfold shpad; pose proof (Z.mod_pos_bound (- Z.of_nat (strtab_at p info + 49)) 8); lia). rewrite pad_loop_at by lia. cbn [mbind outcome_mbind bw_current writer_at].
  set (q1 := q ++ replicate (shpad p info) 0). assert (Hq1 : length q1 = shoff p info) by (unfold q1, shoff; rewrite length_app, length_replicate; lia). change (mkWriter (q1 ++ replicate ?m 0) (length q1)) with (writer_at q1 m).
  rewrite buf_poke_in by (rewrite length_le_bytes, Hq1; unfold shoff, strtab_at; lia). cbn [mbind outcome_mbind]. rewrite Hq1. set (q2 := patch 40 (le_bytes 8 (shoff p info)) q1).
  assert (Hq2 : length q2 = shoff p info) by (unfold q2; rewrite length_patch; [done|]; rewrite length_le_bytes, Hq1; unfold shoff, strtab_at; lia). cbn [bw_current writer_at]. change (mkWriter (q2 ++ replicate ?m 0) (length q2)) with (writer_at q2 m).
  rewrite poke_end by (rewrite length_replicate; unfold sizeof_Elf64_Shdr; lia). cbn [mbind outcome_mbind]. rewrite Advance_over by (rewrite ?length_replicate; unfold sizeof_Elf64_Shdr; lia). rewrite length_replicate. cbn [snd].
  unfold sizeof_Elf64_Shdr. cbn [Nat.sub]. rewrite app_nil_r. set (h' := patch 40 (le_bytes 8 (shoff p info)) h). set (s := r ++ V ++ strTable ++ replicate (shpad p info) 0 ++ replicate 64 0).
  assert (Hq3 : q2 ++ replicate 64 0 = h' ++ ptable (note :: loads) ++ s) by (unfold q2, q1, q, p, s; rewrite <- !app_assoc; rewrite patch_app_l by (rewrite length_le_bytes, Hh; lia); by rewrite <- !app_assoc).
  rewrite Hq3, section_table_at; [|unfold h'; rewrite length_patch; [done|]; rewrite length_le_bytes, Hh; lia|rewrite Hk; unfold h'; rewrite slice_patch_ne by (rewrite length_le_bytes; try rewrite Hh; lia); done|lia|unfold s; rewrite !length_app; lia|lia]. rewrite <- Hq3.
  assert (E : with_sections p info note loads = (q2 ++ replicate 64 0) ++ section_bytes note loads (length p) (length (p ++ V)) (length (lit "Build info:" ++ info))).
  { unfold with_sections, sections, section_bytes. fold V. rewrite (length_app p V). fold (strtab_at p info). replace (length (lit "Build info:" ++ info) + 1)%nat with (length V) by (unfold V, version_text; rewrite length_text, length_app; done).
    unfold q2, q1, q. by rewrite <- !app_assoc. }
  rewrite <- E. assert (Hf : length (with_sections p info note loads) = (shoff p info + 64 * (k + 4))%nat).
  { rewrite E, !length_app, Hq2, length_replicate. unfold section_bytes. rewrite !length_app, length_SectionHeaderFill, length_load_sections, length_replicate, Hk. unfold shdr_bytes, shdr_head. rewrite !length_app, !length_le_bytes. lia. }
  do 3 f_equal. rewrite Hf, Hk, Hlp. unfold shoff, strtab_at. fold V. lia.
Qed.

(** ** What a reader finds in the file *)
Definition file_phdr (file : list Z) (i : nat) : Elf64_Phdr := phdr_of (slice (phdr_addr i) sizeof_Elf64_Phdr file).
Definition segment_bytes (file : list Z) (p : Elf64_Phdr) : list Z := slice (Z.to_nat (ph_offset p)) (Z.to_nat (ph_filesz p)) file.
Definition file_shoff (file : list Z) : nat := Z.to_nat (field 40 8 file).
Definition file_shdr (file : list Z) (i : nat) : list Z := slice (file_shoff file + 64 * i) 64 file.
Definition region_mem (memory : Z → option Z) (r : DumpMemoryRegions) : list Z := readable_bytes memory (Z.to_nat (memorySizeHex r)) (startHex r).

(** A core file with these notes, and the memory of these regions. *)
Record core_contents (memory : Z → option Z) (notes : list note) (regions : list DumpMemoryRegions) (file : list Z) : Prop := {
  cc_magic : slice 0 6 file = [0x7f; 69; 76; 70; 2; 1];
  cc_phnum : field 56 2 file = 1 + length regions;
  cc_note : ph_type (file_phdr file 0) = PT_NOTE ∧ parse_notes (length notes) (segment_bytes file (file_phdr file 0)) = Some notes;
  cc_load i r : regions !! i = Some r →
    set_offset 0 (file_phdr file (S i)) = set_offset 0 (PtLoadHeaderFill r) ∧ segment_bytes file (file_phdr file (S i)) = region_mem memory r;
  cc_shnum : field 60 2 file = 4 + length regions ∧ length file = (file_shoff file + 64 * (4 + length regions))%nat;
  cc_note_section : file_shdr file 1 = SectionHeaderFill 0x01 SHT_NOTE 0 (file_phdr file 0);
  cc_load_section i : (i < length regions)%nat → file_shdr file (2 + i) = load_section (file_phdr file (S i))
}.

Lemma phdr_of_slice h ps r i p : length h = 64%nat → ps !! i = Some p → file_phdr (h ++ ptable ps ++ r) i = reread p.
Proof. intros Hh Hp. unfold file_phdr, sizeof_Elf64_Phdr. by rewrite (slice_phdr h ps r i p). Qed.
Lemma fits_flags r : fits 32 (ph_flags (PtLoadHeaderFill r)).
Proof. unfold PtLoadHeaderFill. repeat case_match; done. Qed.
Lemma load_fits memory r : seg_ok memory (PtLoadHeaderFill r) → phdr_fits (PtLoadHeaderFill r).
Proof.
  intros [H1 H2 H3 _]. change (ph_vaddr (PtLoadHeaderFill r)) with (startHex r) in *. change (ph_memsz (PtLoadHeaderFill r)) with (memorySizeHex r) in *.
  assert (Ha : fits 64 (startHex r)) by (unfold fits; lia). assert (Hm : fits 64 (memorySizeHex r)) by (unfold fits; lia). split; [done|]. split; [apply fits_flags|]. done.
Qed.
Lemma reread_fits p : phdr_fits p → fits 64 (ph_offset p) → reread p = p.
Proof. intros H Ho. unfold reread. rewrite phdr_of_bytes, wrap_small by done. by destruct p. Qed.
Lemma set_offset_fits o p : phdr_fits p → phdr_fits (set_offset o p).
Proof. done. Qed.


Lemma header_room v m : (40 + length (le_bytes 8 v) <= length (ehdr_bytes m))%nat.
Proof. rewrite length_le_bytes, length_ehdr_bytes. lia. Qed.
Lemma length_patched v m : length (patch 40 (le_bytes 8 v) (ehdr_bytes m)) = 64%nat.
Proof. rewrite length_patch by apply header_room. apply length_ehdr_bytes. Qed.

Section Contents.
Context (memory : Z → option Z) (ns : list note) (regions : list DumpMemoryRegions) (info : list ascii).
Context (Hns : Forall note_ok ns) (Hregions : Forall (λ r, seg_ok memory (PtLoadHeaderFill r)) regions) (H16 : 4 + length regions < 2 ^ 16).
Let n : nat := length regions.
Let nb : list Z := concat (map note_bytes ns).
Let place : nat := (64 + 56 * S n)%nat.
Let note : Elf64_Phdr := set_filesz (length nb) (set_offset place PtNoteHeaderFill).
Let segs : list Elf64_Phdr := map PtLoadHeaderFill regions.
Let loads : list Elf64_Phdr := place_all segs (place + length nb)%nat.
Let body : list Z := ehdr_bytes (1 + n) ++ ptable (note :: loads) ++ nb ++ mems memory segs.
Let file : list Z := with_sections body info note loads.
Context (Hfile : Z.of_nat (length file) < 2 ^ 63).

Lemma length_loads : length loads = n.
Proof. unfold loads, segs. by rewrite length_place_all, length_map. Qed.
Lemma length_body : length body = (place + length nb + length (mems memory segs))%nat.
Proof. unfold body. rewrite !length_app, length_ptable, length_ehdr_bytes. cbn [length]. rewrite length_loads. unfold place. lia. Qed.
Lemma file_split : ∃ rest, file = (patch 40 (le_bytes 8 (shoff body info)) (ehdr_bytes (1 + n)) ++ ptable (note :: loads)) ++ nb ++ mems memory segs ++ rest ∧
  rest = version_text info ++ strTable ++ replicate (shpad body info) 0 ++ sections body info note loads.
Proof.
  eexists. split; [|done]. unfold file, with_sections. rewrite patch_app_l by (rewrite length_le_bytes, length_body; unfold place; lia). unfold body at 2. rewrite patch_app_l by (rewrite length_le_bytes, length_ehdr_bytes; lia).
  by rewrite <- !app_assoc.
Qed.
Lemma length_file : length file = (shoff body info + 64 * (4 + n))%nat.
Proof.
  unfold file, with_sections. rewrite length_app, length_patch, length_sections, length_loads by (rewrite length_le_bytes, length_app, length_body; unfold place; lia).
  rewrite !length_app, length_replicate. unfold shoff, strtab_at. assert (length strTable = 49%nat) as -> by done. lia.
Qed.
Lemma file_field off k : (off + k <= 64)%nat → slice off k file = slice off k (patch 40 (le_bytes 8 (shoff body info)) (ehdr_bytes (1 + n))).
Proof. intros H. destruct file_split as (rest & -> & _). rewrite <- !app_assoc. apply slice_app. by rewrite length_patched. Qed.
Lemma file_shoff_eq : file_shoff file = shoff body info.
Proof.
  unfold file_shoff, field. rewrite file_field by lia. set (v := le_bytes 8 (shoff body info)). change (slice 40 8) with (slice 40 (length v)). rewrite slice_patch by apply header_room. unfold v. rewrite of_le_le_bytes, wrap_small; [lia|]. pose proof length_file.
  unfold fits. change (8 * 8%nat) with 64. lia.
Qed.
Lemma file_phdr_eq i p : (note :: loads) !! i = Some p → file_phdr file i = reread p.
Proof. intros Hp. destruct file_split as (rest & -> & _). rewrite <- app_assoc. apply phdr_of_slice; [apply length_patched|done]. Qed.
Lemma loads_lookup i r : regions !! i = Some r → loads !! i = Some (set_offset ((place + length nb)%nat + length (mems memory (take i segs))) (PtLoadHeaderFill r)).
Proof. intros Hr. unfold loads. apply place_all_lookup; [by apply Forall_map|]. unfold segs. by rewrite list_lookup_fmap, Hr. Qed.
Lemma reread_load i r : regions !! i = Some r → let p := set_offset ((place + length nb)%nat + length (mems memory (take i segs))) (PtLoadHeaderFill r) in reread p = p.
Proof.
  intros Hr. cbn zeta. pose proof (Forall_lookup_1 _ _ _ _ Hregions Hr) as Hs. apply reread_fits; [by apply set_offset_fits, (load_fits memory)|]. cbn [set_offset ph_offset].
  pose proof length_file as HL. unfold shoff, strtab_at in HL. rewrite length_body in HL. rewrite <- (take_drop i segs) in HL. rewrite mems_app, length_app in HL. unfold fits. lia.
Qed.
Lemma reread_note : reread note = note.
Proof.
  pose proof length_file as HL. unfold shoff, strtab_at in HL. rewrite length_body in HL. apply reread_fits; [|unfold note, fits; cbn [set_offset set_filesz ph_offset]; lia].
  unfold note, phdr_fits, set_filesz, set_offset, PtNoteHeaderFill, ProgramSegmentHeaderFill. cbn [ph_type ph_flags ph_vaddr ph_paddr ph_filesz ph_memsz ph_align]. split_and!; try done. unfold fits. lia.
Qed.

(** The part before the section headers, and the headers after those of the segments. *)
Let with_strings : list Z := patch 40 (le_bytes 8 (shoff body info)) (body ++ version_text info ++ strTable ++ replicate (shpad body info) 0).
Let section_tail : list Z := shdr_bytes 0x07 SHT_STRTAB SHF_ALLOC 0 (strtab_at body info) 49 ++ shdr_head 0x17 SHT_NOTE 0 0 (length body) (length (version_text info)) ++ replicate 24 0.
Lemma length_with_strings : length with_strings = shoff body info.
Proof. pose proof length_file as H. unfold file, with_sections in H. fold with_strings in H. rewrite length_app, length_sections, length_loads in H. lia. Qed.
Lemma file_sections : file = with_strings ++ replicate 64 0 ++ SectionHeaderFill 0x01 SHT_NOTE 0 (reread note) ++ concat (map load_section loads) ++ section_tail.
Proof. done. Qed.

Lemma core_contents_at : core_contents memory ns regions file.
Proof.
  assert (Hfld : ∀ off, (48 <= off)%nat → (off + 2 <= 64)%nat → field off 2 file = field off 2 (ehdr_bytes (1 + n))).
  { intros off H1 H2. unfold field. rewrite file_field by lia. rewrite slice_patch_ne; [done|apply header_room|rewrite length_le_bytes; lia]. }
  assert (Hn : file_phdr file 0 = note) by (rewrite (file_phdr_eq 0 note) by done; apply reread_note).
  assert (Hl : ∀ i r, regions !! i = Some r → file_phdr file (S i) = set_offset ((place + length nb)%nat + length (mems memory (take i segs))) (PtLoadHeaderFill r)).
  { intros i r Hr. rewrite (file_phdr_eq (S i) _ (loads_lookup i r Hr)). by apply reread_load. }
  destruct file_split as (rest & Hf & Hrest). set (h' := patch 40 _ _) in Hf. assert (Hh : length (h' ++ ptable (note :: loads)) = place). { rewrite length_app, length_ptable. cbn [length]. rewrite length_loads. unfold h'. rewrite length_patched. unfold place. lia. }
  split.
  - rewrite file_field by lia. rewrite slice_patch_ne; [done|apply header_room|lia].
  - rewrite Hfld by lia. unfold field. change (slice 56 2 (ehdr_bytes (1 + n))) with (le_bytes 2 (1 + n)). rewrite of_le_le_bytes, wrap_small; [done|]. unfold fits, n. change (8 * 2%nat) with 16. lia.
  - rewrite Hn. split; [done|]. unfold segment_bytes, note. cbn [set_filesz set_offset ph_offset ph_filesz]. rewrite !Nat2Z.id. rewrite (slice_mid_eq _ _ _ nb _ _ Hf) by done. by apply parse_notes_bytes.
  - intros i r Hr. rewrite (Hl i r Hr). split; [done|]. unfold segment_bytes. cbn [set_offset ph_offset]. change (ph_filesz (set_offset _ (PtLoadHeaderFill r))) with (memorySizeHex r).
    pose proof (Forall_lookup_1 _ _ _ _ Hregions Hr) as [_ _ _ Hm]. fold (region_mem memory r). change (seg_mem memory (PtLoadHeaderFill r)) with (region_mem memory r) in Hm. change (ph_memsz (PtLoadHeaderFill r)) with (memorySizeHex r) in Hm.
    apply (slice_mid_eq _ _ ((h' ++ ptable (note :: loads)) ++ nb ++ mems memory (take i segs)) _ (mems memory (drop (S i) segs) ++ rest)); [|rewrite !length_app in *; lia|done].
    rewrite Hf. assert (Hs : segs !! i = Some (PtLoadHeaderFill r)) by (unfold segs; by rewrite list_lookup_fmap, Hr). rewrite <- (take_drop_middle segs i _ Hs) at 1. rewrite mems_app, mems_cons. by rewrite <- !app_assoc.
  - rewrite Hfld by lia. unfold field. change (slice 60 2 (ehdr_bytes (1 + n))) with (le_bytes 2 (1 + n + 3)). rewrite of_le_le_bytes, wrap_small by (unfold fits, n; change (8 * 2%nat) with 16; lia). split; [unfold n; lia|].
    rewrite file_shoff_eq. apply length_file.
  - rewrite Hn. unfold file_shdr. rewrite file_shoff_eq. replace note with (reread note) by apply reread_note.
    apply (slice_mid_eq _ _ (with_strings ++ replicate 64 0) _ (concat (map load_section loads) ++ section_tail)); [|rewrite length_app, length_with_strings, length_replicate; lia|by rewrite length_SectionHeaderFill].
    rewrite file_sections. by rewrite <- !app_assoc.
  - intros i Hi. destruct (lookup_lt_is_Some_2 regions i Hi) as [r Hr]. rewrite (Hl i r Hr). unfold file_shdr. rewrite file_shoff_eq. set (p := set_offset _ (PtLoadHeaderFill r)).
    assert (Hp : loads !! i = Some p) by by apply loads_lookup. 
    apply (slice_mid_eq _ _ (with_strings ++ replicate 64 0 ++ SectionHeaderFill 0x01 SHT_NOTE 0 (reread note) ++ concat (map load_section (take i loads))) _ (concat (map load_section (drop (S i) loads)) ++ section_tail)); [|rewrite !length_app, length_with_strings, length_replicate, length_SectionHeaderFill, length_load_sections, length_take, length_loads; fold n in Hi; lia|unfold load_section; by rewrite length_SectionHeaderFill].
    rewrite file_sections. replace (concat (map load_section loads)) with (concat (map load_section (take i loads ++ p :: drop (S i) loads))) by by rewrite take_drop_middle. rewrite map_app, concat_app. cbn [map concat]. by rewrite <- !app_assoc.
Qed.
End Contents.

(** ** The whole dump *)

(** The room that the headers, the notes, the memory, the version and the sections take at most. *)
Definition core_size (notes info : list Z) (regions : list DumpMemoryRegions) : Z :=
  64 + 56 * (1 + length regions) + length notes + foldr (λ r z, memorySizeHex r + z) 0 regions + length info + 56 + 64 * (4 + length regions).

Lemma mems_size memory regions : Forall (λ r, seg_ok memory (PtLoadHeaderFill r)) regions → Z.of_nat (length (mems memory (map PtLoadHeaderFill regions))) = foldr (λ r z, memorySizeHex r + z) 0 regions.
Proof.
  induction 1 as [|r l [_ Hr _ Hm] H IH]; [done|]. cbn [map foldr]. rewrite mems_cons, length_app, Hm, <- IH. change (ph_memsz (PtLoadHeaderFill r)) with (memorySizeHex r) in *. lia.
Qed.
Lemma mems_offsets memory l : mems memory (map (set_offset 0) l) = mems memory l.
Proof. unfold mems. by rewrite map_map. Qed.
Lemma notes_room e tid key maps_ ps pid : process_ok e pid maps_ ps → (76 <= length (notes_bytes e tid key maps_ ps))%nat.
Proof.
  intros [H _ _ _ _]. apply FillPrpsinfo_length in H. unfold notes_bytes, process_notes. cbn [map concat]. rewrite length_app, length_note_bytes by (cbn; rewrite ?H; vm_compute; lia || done). cbn [n_desc]. rewrite H. unfold sizeof_prpsinfo_t. lia.
Qed.
Lemma reread_loads memory regions loads : Forall (λ r, seg_ok memory (PtLoadHeaderFill r)) regions → map (set_offset 0) loads = map (set_offset 0) (map PtLoadHeaderFill regions) →
  map (set_offset 0) (map reread loads) = map (set_offset 0) (map PtLoadHeaderFill regions) ∧ Forall (seg_ok memory) (map reread loads).
Proof.
  intros H. revert loads. induction H as [|r l Hr H IH]; intros [|p loads] E; try done. pose proof (f_equal tail E) as Et. pose proof (f_equal head E) as Eh. cbn [map tail head] in Et, Eh. apply (inj Some) in Eh.
  destruct (IH loads Et) as [I1 I2]. assert (Hp : reread p = set_offset (u64 (ph_offset p)) (PtLoadHeaderFill r)).
  { unfold reread. rewrite phdr_of_bytes. - change (set_offset (u64 (ph_offset p)) p) with (set_offset (u64 (ph_offset p)) (set_offset 0 p)). by rewrite Eh. - pose proof (load_fits _ _ Hr) as Hf. change (phdr_fits (set_offset 0 p)). by rewrite Eh. }
  cbn [map]. rewrite Hp. split; [f_equal; done|]. apply Forall_cons_2; [|done]. destruct Hr as [R1 R2 R3 R4]. split; done.
Qed.

Section Dump.
Context (memory : Z → option Z) (readv : Z → Z → list Z) (Hreadv : readv_ok memory readv).
Context (e : proc_env) (rq : core_request) (key : CoredumpThread) (maps_ : list DumpMemoryRegions) (ps : list Z) (info : list ascii) (N : nat).
Context (Hstatus : status_ok e) (Hkey : key_ok key) (Hprocess : process_ok e (rq_pid rq) maps_ ps) (Hpid : 0 < rq_pid rq) (Htid : 0 < rq_tid rq).
Let regions := included maps_.
Context (Hne : regions ≠ []) (H16 : 4 + length regions < 2 ^ 16) (Hregions : Forall (λ r, seg_ok memory (PtLoadHeaderFill r)) regions).
Context (Hinfo : (length (version_text info) <= 4096)%nat) (HN : core_size (notes_bytes e (rq_tid rq) key maps_ ps) (version_text info) regions <= N) (H63 : Z.of_nat N < 2 ^ 63).

Lemma writes_at vmPid tc sched : vmPid ≠ 0 → 1 <= tc → ∃ b file m, trigger_writes e rq key maps_ (writer_at [] N) = Ret (1 + length regions, b) ∧
  dump_writes readv tc sched info vmPid (1 + length regions) b = Ret (writer_at file m) ∧ (length file + m = N)%nat ∧ core_contents memory (process_notes e (rq_tid rq) key maps_ ps) regions file.
Proof.
  intros Hvm Htc. set (nb := notes_bytes e (rq_tid rq) key maps_ ps) in *. set (n := length regions) in *. set (place := (64 + 56 * S n)%nat). unfold core_size in HN. rewrite <- (mems_size memory) in HN by done. fold n in HN.
  destruct (trigger_writes_at e rq key maps_ ps N) as (loads & Et & Hl); try done; [fold regions n; lia|fold nb regions n; lia|]. fold nb regions n place in Et, Hl. eexists. rewrite Et.
  destruct (reread_loads memory regions loads Hregions Hl) as [Hs1 Hs2]. assert (Hll : length loads = n) by (apply (f_equal length) in Hl; by rewrite !length_map in Hl).
  set (note := set_filesz (length nb) (set_offset place PtNoteHeaderFill)) in *. assert (Hmem : mems memory (map reread loads) = mems memory (map PtLoadHeaderFill regions)).
  { by rewrite <- (mems_offsets memory (map reread loads)), Hs1, mems_offsets. }
  set (M := mems memory (map PtLoadHeaderFill regions)) in *. set (h := ehdr_bytes (1 + n)) in *. set (n1 := (N - (place + length nb))%nat) in *. pose proof (notes_room e (rq_tid rq) key maps_ ps _ Hprocess) as Hroom. fold nb in Hroom.
  unfold dump_writes. rewrite (proj2 (Z.eqb_neq _ _) Hvm). replace (1 + Z.of_nat n) with (1 + Z.of_nat (length loads)) by lia.
  rewrite (load_at memory readv Hreadv h nb note (map reread loads) n1); try done; [|rewrite Hmem; unfold n1, place; lia|rewrite length_map, Hll; unfold n1, place; lia|by rewrite Hs1].
  rewrite length_map, Hll, Hmem. fold place. rewrite (place_all_same _ _ _ Hs1). set (loads' := place_all _ _). cbn [mbind outcome_mbind].
  assert (Hl' : length loads' = n) by (unfold loads'; by rewrite length_place_all, length_map).
  rewrite (SectionHeaderTableWriter_at info n note loads' (nb ++ M)); try done; [|rewrite length_app; lia|unfold n1, place; lia].
  cbn [mbind outcome_mbind]. do 2 eexists. split; [done|]. split; [done|]. set (body := _ ++ _ ++ nb ++ M).
  assert (Hb : length body = (place + length nb + length M)%nat) by (unfold body; rewrite !length_app, length_ptable, length_ehdr_bytes; cbn [length]; rewrite Hl'; unfold place; lia).
  assert (Hf : length (with_sections body info note loads') = (length body + length (version_text info) + 49 + shpad body info + 64 * (n + 4))%nat).
  { unfold with_sections. rewrite length_app, length_sections, length_patch; rewrite ?length_le_bytes, !length_app, ?length_replicate; [|rewrite Hb; unfold place; lia]. assert (length strTable = 49%nat) as -> by done. lia. }
  assert (Hp8 : (shpad body info < 8)%nat) by (unfold shpad; match goal with |- context [?a mod 8] => pose proof (Z.mod_pos_bound a 8) end; lia).
  split; [rewrite Hf; unfold n1, place in *; lia|]. apply core_contents_at; [by eapply process_notes_ok|done|done|]. fold (notes_bytes e (rq_tid rq) key maps_ ps). fold n nb place note M loads' body. rewrite Hf. unfold place in Hb. lia.
Qed.
End Dump.

(** A request that is allowed to dump: its generator is made, triggered, and dumps the memory of the
    process that stands in for the target. *)
Definition core_dump (mdmDisabled : bool) (ce : core_env) (e : proc_env) (parse : list ascii → option cJSON) (config : list ascii) (lines : option (list (list ascii))) (regs : option (list Z))
  (rq : core_request) (readv : Z → Z → list Z) (sched : list nat) (info : list ascii) (vmPid : Z) : outcome (option core_result) :=
  if negb (IsCoredumpAllowed mdmDisabled (ce_hwasanEnabled ce) rq) then Ret None
  else match LoadConfig_profile (GetDumpType (ce_hwasanEnabled ce) rq) with
  | None => Ret None
  | Some profile =>
      '(_, g) ← TriggerCoredump ce e parse config profile lines regs rq (CoredumpGenerator_new CoredumpConfig_new []);
      manager_DumpMemoryForPid ce readv sched info vmPid (Some g)
  end.

Lemma GetDumpThreadCount_range c : 1 <= GetDumpThreadCount c <= 8.
Proof. unfold GetDumpThreadCount, maxThreadCount. cbn zeta. destruct (Z.leb_spec (dumperThreadCount c) 0); [done|]. destruct (Z.ltb_spec 8 (dumperThreadCount c)); lia. Qed.
Lemma CreateFile_new ce rq maps_ c f : CreateFile ce rq maps_ c CoredumpFileManager_new = (true, f) →
  coreFileSize_ f = EstimateFileSize maps_ ∧ EstimateFileSize maps_ ≠ 0 ∧ isWriteNativeCoredump_ f = false ∧ 0 < rq_pid rq.
Proof.
  unfold CreateFile. destruct (Z.leb_spec (rq_pid rq) 0); [done|]. destruct (Z.eqb_spec (EstimateFileSize maps_) 0); [done|]. unfold CreateFileForCoreDump. destruct (rq_uid rq <? minUid).
  - destruct (coredumpSwitch c); intros [= _ <-]; cbn; done.
  - destruct (ce_bundleName ce); [done|]. destruct (negb _); [done|]. intros [= _ <-]; cbn; done.
Qed.
Lemma MmapForFd_ok ce f : 0 < fm_fd f → coreFileSize_ f ≠ 0 → ce_ftruncate ce (coreFileSize_ f) = true → ce_mmap ce = true → ce_oldFile ce = [] → isWriteNativeCoredump_ f = false →
  MmapForFd ce f = (Some (replicate (Z.to_nat (coreFileSize_ f)) 0), mkFileManager (fm_fd f) (coreFileSize_ f) (bundleName_ f) (isNativeProcess_ f) (isNativeProcess_ f)).
Proof.
  intros H1 H2 H3 H4 H6 H5. unfold MmapForFd, AdjustFileSize. rewrite (proj2 (Z.leb_gt _ _) H1), (proj2 (Z.eqb_neq _ _) H2), (proj2 (Z.leb_le 0 (fm_fd f))), H3, H4 by lia. cbn [negb].
  rewrite H6. destruct f as [fd sz nm wr []]; cbn in *; [done|]. subst wr. unfold fill. rewrite take_nil. cbn [length app]. by rewrite Nat.sub_0_r.
Qed.
Lemma EstimateFileSize_small maps_ : EstimateFileSize maps_ < 2 ^ 63.
Proof. unfold EstimateFileSize. cbn zeta. destruct (Z.ltb_spec (u64 (sizeof_Elf64_Ehdr + (length maps_ + 1) * sizeof_Elf64_Phdr + (length maps_ + 2) * sizeof_Elf64_Shdr + length maps_ * (sizeof_Elf64_Nhdr + 100) + fold_left (λ sum r, if ShouldIncludeRegion r then u64 (sum + memorySizeHex r) else sum) maps_ 0 + reserveSpace)) MAX_COREDUMP_SIZE) as [H|H]; [eapply Z.lt_trans; [exact H|done]|done]. Qed.
Lemma fill_take n k l : length l = n → (n <= k)%nat → fill n (take k l) = l.
Proof. intros H1 H2. unfold fill. rewrite (take_ge l k) by lia. rewrite take_ge by lia. by rewrite H1, Nat.sub_diag, app_nil_r. Qed.

(** C6. When a core dump is allowed, its file can be made anew and the estimate of its size leaves room for
    all there is to write, the dump ends and reports success, and the file it leaves is a core file of
    the process: an ELF header, a note segment in which a reader finds the notes of the process and of
    every thread, for every region of the maps file that is to be dumped a segment with its address,
    size and permissions, at the offset of which the file has the memory of the region, and a section
    header per segment; for every number of writer threads and every interleaving of their writes. *)
Theorem core_dump_complete mdmDisabled ce e parse config lines regs rq memory readv sched info vmPid profile ps f :
  let c := (LoadProfileFromFile parse config profile CoredumpConfig_new).2 in let maps_ := mapping_Parse (rq_pid rq) lines [] in
  let key := CoredumpThread_Init (pe_thread e (rq_tid rq)) regs in
  IsCoredumpAllowed mdmDisabled (ce_hwasanEnabled ce) rq = true → LoadConfig_profile (GetDumpType (ce_hwasanEnabled ce) rq) = Some profile →
  CreateFile ce rq maps_ c CoredumpFileManager_new = (true, f) → 0 < fm_fd f → ce_mmap ce = true → ce_oldFile ce = [] → (∀ size, 0 < size → ce_ftruncate ce size = true) → EstimateFileSize maps_ <= ce_written ce →
  0 < rq_tid rq → 0 < vmPid → status_ok e → (∀ r, regs = Some r → (34 <= length r)%nat) → process_ok e (rq_pid rq) maps_ ps → (length (version_text info) <= 4096)%nat →
  readv_ok memory readv → included maps_ ≠ [] → 4 + length (included maps_) < 2 ^ 16 → Forall (λ r, seg_ok memory (PtLoadHeaderFill r)) (included maps_) →
  core_size (notes_bytes e (rq_tid rq) key maps_ ps) (version_text info) (included maps_) <= EstimateFileSize maps_ →
  ∃ file, core_dump mdmDisabled ce e parse config lines regs rq readv sched info vmPid = Ret (Some (mkCoreResult (Some file) (GetCoredumpFileName f) true)) ∧
    core_contents memory (process_notes e (rq_tid rq) key maps_ ps) (included maps_) file.
Proof.
  intros c maps_ key Hallow Hprofile Hcreate Hfd Hmmap Hold Htrunc Hwritten Htid Hvm Hst Hregs Hps Hinfo Hread Hne H16 Hseg Hsize.
  destruct (CreateFile_new _ _ _ _ _ Hcreate) as (Hcs & Hnz & Hw & Hpid). pose proof (EstimateFileSize_small maps_) as H63. assert (Hpos : 0 < EstimateFileSize maps_).
  { unfold core_size in Hsize. rewrite <- (mems_size memory) in Hsize by done. lia. }
  destruct (writes_at memory readv Hread e rq key maps_ ps info (Z.to_nat (EstimateFileSize maps_)) Hst (CoredumpThread_Init_ok _ _ Hregs) Hps Hpid Htid Hne H16 Hseg Hinfo ltac:(lia) ltac:(lia) vmPid (GetDumpThreadCount c) sched ltac:(lia) ltac:(apply GetDumpThreadCount_range))
    as (b & file & m & Et & Ed & Hlen & Hc). exists file. split; [|done].
  unfold core_dump. rewrite Hallow, Hprofile. cbn [negb]. unfold TriggerCoredump, CoredumpGenerator_new. cbn [g_config g_maps fileMgr_ ePhnum_]. fold c. rewrite (proj2 (Z.leb_gt _ _) Hpid). fold maps_. rewrite Hcreate. cbn [negb].
  rewrite MmapForFd_ok by (done || (rewrite Hcs; by auto)). rewrite Hcs. change (CoredumpBufferWriter_new (replicate ?k 0)) with (writer_at [] k). fold key. rewrite Et. cbn [mbind outcome_mbind].
  unfold manager_DumpMemoryForPid. rewrite (proj2 (Z.leb_gt _ _) Hvm). unfold DumpMemoryForPid. cbn [g_bw g_config ePhnum_ fileMgr_]. rewrite Ed. cbn [mbind outcome_mbind isWriteNativeCoredump_ isNativeProcess_]. unfold AdjustFileSize, GetOffset. cbn [fm_fd].
  assert (Hbl : length (bw_buf (writer_at file m)) = Z.to_nat (EstimateFileSize maps_)) by (cbn [bw_buf writer_at]; rewrite length_app, length_replicate; lia).
  assert (Hcont : (if isNativeProcess_ f then fill (length (bw_buf (writer_at file m))) (take (ce_written ce) (bw_buf (writer_at file m))) else bw_buf (writer_at file m)) = bw_buf (writer_at file m)).
  { destruct (isNativeProcess_ f); [|done]. apply fill_take; [done|lia]. }
  rewrite Hcont. cbn [bw_buf bw_current writer_at]. assert (Hl64 : 0 < Z.of_nat (length file)) by (pose proof (cc_shnum _ _ _ _ Hc) as [_ ->]; lia).
  rewrite (proj2 (Z.leb_le 0 (fm_fd f))) by lia. cbn [negb]. rewrite (proj2 (Z.eqb_neq _ _)) by lia. rewrite Htrunc by done. by rewrite take_app_length.
Qed.

(** A process with seven mappings, two of which are dumped. *)
Definition ex_maps : option (list (list ascii)) := Some
  [lit "1000-1020 r-xp 00000000 fe:00 11 /bin/app"; lit "1020-1030 rw-p 00000000 00:00 0 [heap]"; lit "2000-3000 ---p 00000000 00:00 0 [guard]"; lit "3000-4000 ---p 00000000 00:00 0 [guard]";
   lit "4000-5000 ---p 00000000 00:00 0 [guard]"; lit "5000-6000 ---p 00000000 00:00 0 [guard]"; lit "6000-7000 rw-s 00000000 00:00 0 /dev/ashmem"].
Definition ex_thread : thread_env := mkThreadEnv None (Some (replicate 272 7)) None None None.
Definition ex_proc (tasks : list (list ascii)) : proc_env :=
  mkProcEnv (Some tasks) (λ _, ex_thread) (lit "100 (app) S 1 100 100 0 -1 4194560 0") None (lit "app") (lit "app -x") (Some (replicate 32 0)) 0 100 (λ _, 100) (replicate 16 0) (replicate 16 0) (replicate 16 0) (replicate 16 0).
Definition ex_parse (_ : list ascii) : option cJSON :=
  Some (JObject [(lit "coredumpProfiles", JObject [(lit "FULL", JObject [(lit "coredumpSwitch", JBool true); (lit "dumperThreadCount", JNumber 2)])])]).
Definition ex_core_env : core_env := mkCoreEnv false 5 (lit "com.app") 7 [] (λ _, true) true 100000.
Definition ex_core_request : core_request := mkCoreRequest SIGLEAK_STACK SIGLEAK_STACK_COREDUMP 100 100 20010.
Definition ex_memory (a : Z) : option Z := Some (a mod 251).
Definition ex_readv (a n : Z) : list Z := readable_bytes ex_memory (Z.to_nat n) a.
Definition ex_regs : option (list Z) := Some (map Z.of_nat (seq 0 34)).
Definition ex_dump (tasks : list (list ascii)) : outcome (option core_result) :=
  core_dump false ex_core_env (ex_proc tasks) ex_parse (lit "{}") ex_maps ex_regs ex_core_request ex_readv [0; 1; 1; 0; 1]%nat (lit "OHOS") 200.

Lemma core_dump_complete_witness : let e := ex_proc [lit "100"] in let maps_ := mapping_Parse 100 ex_maps [] in let ps := ret_or_nil (FillPrpsinfo e 100) in
  ∃ file, ex_dump [lit "100"] = Ret (Some (mkCoreResult (Some file) (lit "com.app.dmp") true)) ∧
    core_contents ex_memory (process_notes e 100 (CoredumpThread_Init ex_thread ex_regs) maps_ ps) (included maps_) file.
Proof.
  cbn zeta. unfold ex_dump.
  refine (core_dump_complete false ex_core_env (ex_proc [lit "100"]) ex_parse (lit "{}") ex_maps ex_regs ex_core_request ex_memory ex_readv [0; 1; 1; 0; 1]%nat (lit "OHOS") 200 (lit "FULL")
    (ret_or_nil (FillPrpsinfo (ex_proc [lit "100"]) 100)) (mkFileManager 7 2920 (lit "com.app") false false) eq_refl eq_refl _ eq_refl eq_refl eq_refl _ _ eq_refl eq_refl _ _ _ _ _ _ _ _ _).
  - vm_compute. reflexivity.
  - by intros size.
  - vm_compute. discriminate.
  - by intros tid ls.
  - by intros r [= <-].
  - split; [vm_compute; reflexivity|by intros file [= <-]| |vm_compute; reflexivity..]. vm_compute. repeat apply Forall_cons_2; [cbn; lia..|constructor].
  - vm_compute. lia.
  - by intros v k.
  - vm_compute. discriminate.
  - vm_compute. reflexivity.
  - vm_compute. repeat apply Forall_cons_2; [split; cbn; done..|constructor].
  - vm_compute. discriminate.
Defined.

(** The estimate has no room for the notes of the threads: with a second thread the memory of
    the heap is left out and the dump still reports success; with a third the writers leave the mapping. *)
Lemma core_dump_estimate_too_small :
  (∃ file, ex_dump [lit "100"; lit "101"] = Ret (Some (mkCoreResult (Some file) (lit "com.app.dmp") true)) ∧ ∃ r, included (mapping_Parse 100 ex_maps []) !! 1%nat = Some r ∧ segment_bytes file (file_phdr file 2) ≠ region_mem ex_memory r) ∧
  ex_dump [lit "100"; lit "101"; lit "102"] = Undef OutOfBounds.
Proof.
  split; [|vm_compute; reflexivity]. eexists. split; [vm_compute; reflexivity|]. eexists. split; [vm_compute; reflexivity|]. apply (bool_decide_unpack _). vm_compute. exact I.
Qed.

(** A file that is there already is written over, not emptied: what it had stays in the fields of the
    last section header that are never written. *)
Lemma core_dump_stale_bytes : let ce := mkCoreEnv false 5 (lit "com.app") 7 (replicate 2920 255) (λ _, true) true 100000 in
  ∃ file, core_dump false ce (ex_proc [lit "100"]) ex_parse (lit "{}") ex_maps ex_regs ex_core_request ex_readv [] (lit "OHOS") 200 = Ret (Some (mkCoreResult (Some file) (lit "com.app.dmp") true)) ∧
    field 40 4 (file_shdr file 5) = 2 ^ 32 - 1.
Proof. eexists. split; vm_compute; reflexivity. Qed.
