(* ===== verification/LiteDump.v ===== *)
(** * Lite dumps: the process that is dumped

    A process that may not be traced is dumped from inside (interfaces/innerkits/signal_handler:
    dfx_lite_dump_request.c, safe_reader.c, and DumpPrviProcess of dfx_dumprequest.c).  Its signal
    handler copies the stack of the thread into a mapping, signals the other threads, whose handlers
    run concurrently and copy a description of the thread and its stack into slots of the mapping,
    and a forked child writes all of it to a pipe, with the memory near the registers, the maps and
    the open files.  The reader at the other end of the pipe is in LiteReader.

    Memory of the process is a function from addresses to bytes, undefined where nothing is mapped.
    Structures are bytes in the layout of aarch64 with musl; the sizes are opaque so that proofs do
    not unfold them.  Handlers are labelled steps, each of them what happens between two accesses to
    shared data; the results of read and write calls are arguments. *)
From S2P Require Import Prelude Text CoreBuffer CoreNotes.

(** ** Layout *)
Definition NAME_BUF_LEN_ : nat := 128.
Definition LINE_BUF_SIZE : nat := 1024.
Definition PROC_STAT_BUF_SIZE : nat := 512.
Definition PROC_STATM_BUF_SIZE : nat := 512.
Definition PRIV_STACK_FORWARD_BUF_SIZE : Z := 32 * 8.
Definition PRIV_COPY_STACK_BUFFER_SIZE : nat := Z.to_nat (64 * 1024 + PRIV_STACK_FORWARD_BUF_SIZE).
Definition THREAD_STACK_BUFFER_SIZE : nat := Z.to_nat (64 * 1024).
Definition ARKWEB_JIT_SYMBOL_BUF_SIZE : nat := Z.to_nat (10 * 1024 * 1024).
Definition MAX_DUMP_THREAD_NUM : nat := 500.
Definition sizeof_ProcessDumpRequest : nat := 5168.
Definition sizeof_ucontext_t : nat := 4560.
Definition sizeof_ThreadDumpRequest : nat := 4704.
Definition slot_size : nat := (sizeof_ThreadDumpRequest + THREAD_STACK_BUFFER_SIZE)%nat.
Lemma slot_size_eq : slot_size = (sizeof_ThreadDumpRequest + THREAD_STACK_BUFFER_SIZE)%nat.
Proof. done. Qed.
Lemma lite_sizes : Z.of_nat THREAD_STACK_BUFFER_SIZE = 65536 ∧ Z.of_nat PRIV_COPY_STACK_BUFFER_SIZE = 65792 ∧ Z.of_nat MAX_DUMP_THREAD_NUM = 500 ∧ Z.of_nat sizeof_ThreadDumpRequest = 4704 ∧
  Z.of_nat sizeof_ProcessDumpRequest = 5168 ∧ Z.of_nat PROC_STAT_BUF_SIZE = 512 ∧ Z.of_nat PROC_STATM_BUF_SIZE = 512 ∧ Z.of_nat LINE_BUF_SIZE = 1024 ∧ Z.of_nat ARKWEB_JIT_SYMBOL_BUF_SIZE = 10485760 ∧ Z.of_nat sizeof_ucontext_t = 4560.
Proof. unfold THREAD_STACK_BUFFER_SIZE, PRIV_COPY_STACK_BUFFER_SIZE, PRIV_STACK_FORWARD_BUF_SIZE, ARKWEB_JIT_SYMBOL_BUF_SIZE. split_and!; lia || done. Qed.
#[global] Opaque PRIV_COPY_STACK_BUFFER_SIZE THREAD_STACK_BUFFER_SIZE ARKWEB_JIT_SYMBOL_BUF_SIZE MAX_DUMP_THREAD_NUM
  sizeof_ProcessDumpRequest sizeof_ucontext_t sizeof_ThreadDumpRequest slot_size PROC_STAT_BUF_SIZE PROC_STATM_BUF_SIZE LINE_BUF_SIZE.

(** Fields of [ProcessDumpRequest], and of its context. *)
Definition off_request_type : nat := 0.
Definition off_request_siginfo : nat := 40.
Definition off_request_context : nat := 176.
Definition off_request_threadName : nat := 4736.
Definition off_request_processName : nat := 4864.
Definition off_uc_regs : nat := 184.
Definition off_uc_sp : nat := 432.
Definition off_uc_pc : nat := 440.
Definition DUMP_TYPE_CPP_CRASH : Z := 0.
Definition DUMP_TYPE_DUMP_CATCH : Z := 1.
Definition request_type (request : list Z) : Z := field off_request_type 4 request.
Definition request_context (request : list Z) : list Z := slice off_request_context sizeof_ucontext_t request.
Definition uc_reg (i : nat) (context : list Z) : Z := field (off_uc_regs + 8 * i) 8 context.
Definition uc_sp (context : list Z) : Z := field off_uc_sp 8 context.
Definition uc_pc (context : list Z) : Z := field off_uc_pc 8 context.

(** ** Copying memory that may not be mapped

    Data goes through a pipe, one for the whole process, which can be made and holds [PIPE_CAPACITY] bytes; a write of
    at most a page to a pipe without room fails, as does one from an address that is not mapped. *)
Section SafeReader.
Context (pageSize : Z) (memory : Z → option Z).
Definition PIPE_CAPACITY : Z := 65536.

Definition page_end_addr (addr : Z) : Z := Z.land (u64 (addr + pageSize)) (u64 (Z.lnot (u64 (pageSize - 1)))).
(** The two system calls of [ReadableDataByPipe]: whether the write succeeds; the bytes that are read. *)
Definition pipe_write (srcAddr : Z) (size : nat) (pipe : list Z) : option (list Z) :=
  let bs := readable_bytes memory size srcAddr in
  match bs with
  | [] => None
  | _ => if PIPE_CAPACITY <? Z.of_nat (length pipe + length bs) then None else Some (pipe ++ bs)
  end.
Definition pipe_read (size : nat) (pipe : list Z) : list Z * list Z := (take size pipe, drop size pipe).
Definition ReadableDataByPipe (srcAddr : Z) (size : nat) (pipe : list Z) : list Z * list Z :=
  match pipe_write srcAddr size pipe with None => ([], pipe) | Some pipe => pipe_read size pipe end.

(** Whether there is anything to copy, and where it ends. *)
Definition copy_range (destLen : nat) (srcPtr srcLen : Z) : option Z :=
  if srcPtr =? 0 then None
  else let srcEndPtr := srcPtr + Z.min destLen srcLen in if 2 ^ 64 <=? srcEndPtr then None else Some srcEndPtr.
Definition next_copy (currentPtr srcEndPtr : Z) : nat := Z.to_nat (u64 (Z.min (page_end_addr currentPtr) srcEndPtr - currentPtr)).
Fixpoint safe_copy_loop (fuel : nat) (dest : list Z) (off : nat) (currentPtr srcEndPtr : Z) (total : nat) (pipe : list Z) : outcome (list Z * nat * list Z) :=
  match fuel with
  | O => OutOfFuel
  | S fuel' =>
      if currentPtr <? srcEndPtr then
        let n := next_copy currentPtr srcEndPtr in
        let '(bs, pipe) := ReadableDataByPipe currentPtr n pipe in
        dest ← poke_bytes off bs dest;
        safe_copy_loop fuel' dest (off + n) (u64 (currentPtr + n)) srcEndPtr (total + length bs) pipe
      else Ret (dest, total, pipe)
  end.
(** [CopyReadableBufSafe] into [dest]: with the number of bytes, and what is left in the pipe. *)
Definition safe_CopyReadableBufSafe (dest : list Z) (srcPtr srcLen : Z) (pipe : list Z) : outcome (list Z * nat * list Z) :=
  match copy_range (length dest) srcPtr srcLen with
  | None => Ret (dest, O, pipe)
  | Some srcEndPtr => safe_copy_loop (S (length dest)) dest 0 srcPtr srcEndPtr 0 pipe
  end.
End SafeReader.

(** ** The mapping and the counters *)
Record lite_globals := mkLite {
  g_mmapSpace : option (list Z); g_mmapPos : nat; g_totalMemorySize : nat;
  g_threadSentCount : nat; g_threadStartCount : nat; g_threadCompletedCount : nat; g_pipe : list Z
}.
Definition set_space (space : list Z) (g : lite_globals) : lite_globals :=
  mkLite (Some space) (g_mmapPos g) (g_totalMemorySize g) (g_threadSentCount g) (g_threadStartCount g) (g_threadCompletedCount g) (g_pipe g).
Definition advance_pos (n : nat) (g : lite_globals) : lite_globals :=
  mkLite (g_mmapSpace g) (g_mmapPos g + n) (g_totalMemorySize g) (g_threadSentCount g) (g_threadStartCount g) (g_threadCompletedCount g) (g_pipe g).
Definition set_thread_counts (sent start completed : nat) (g : lite_globals) : lite_globals :=
  mkLite (g_mmapSpace g) (g_mmapPos g) (g_totalMemorySize g) sent start completed (g_pipe g).
Definition set_pipe (pipe : list Z) (g : lite_globals) : lite_globals :=
  mkLite (g_mmapSpace g) (g_mmapPos g) (g_totalMemorySize g) (g_threadSentCount g) (g_threadStartCount g) (g_threadCompletedCount g) pipe.

(** [mapped]: whether [mmap] succeeds. *)
Definition MMapMemoryOnce (mapped : bool) (mmapSize : Z) (g : lite_globals) : bool * lite_globals :=
  if mmapSize <? 0 then (false, g)
  else if mapped then
    let n := Z.to_nat mmapSize in
    (true, mkLite (Some (replicate n 0)) (g_mmapPos g) n (g_threadSentCount g) (g_threadStartCount g) (g_threadCompletedCount g) (g_pipe g))
  else (false, mkLite None (g_mmapPos g) (g_totalMemorySize g) (g_threadSentCount g) (g_threadStartCount g) (g_threadCompletedCount g) (g_pipe g)).
Definition UnmapMemoryOnce (g : lite_globals) : lite_globals :=
  mkLite None (g_mmapPos g) (g_totalMemorySize g) (g_threadSentCount g) (g_threadStartCount g) (g_threadCompletedCount g) (g_pipe g).
Definition ResetLiteDump (g : lite_globals) : lite_globals :=
  mkLite (g_mmapSpace g) 0 (g_totalMemorySize g) (g_threadSentCount g) (g_threadStartCount g) (g_threadCompletedCount g) (g_pipe g).
Definition DeInitPipe (g : lite_globals) : lite_globals := set_pipe [] g.

(** A file of /proc into a buffer of the mapping; [file] is what the one read gives, nothing when the
    file cannot be opened, and no bytes when the read fails. *)
Definition collect_file (size : nat) (file : option (list Z)) (g : lite_globals) : outcome (bool * lite_globals) :=
  match g_mmapSpace g with
  | None => Ret (false, g)
  | Some space =>
      if (g_totalMemorySize g <? g_mmapPos g + size)%nat then Ret (false, g)
      else match file with
      | None => Ret (false, advance_pos size g)
      | Some content =>
          let bs := take (size - 1) content in
          space ← poke_bytes (g_mmapPos g + size - 1) [0] space;
          space ← poke_bytes (g_mmapPos g) bs space;
          space ← match bs with [] => Ret space | _ => poke_bytes (g_mmapPos g + length bs) [0] space end;
          Ret (true, advance_pos size (set_space space g))
      end
  end.
Definition CollectStat : option (list Z) → lite_globals → outcome (bool * lite_globals) := collect_file PROC_STAT_BUF_SIZE.
Definition CollectStatm : option (list Z) → lite_globals → outcome (bool * lite_globals) := collect_file PROC_STATM_BUF_SIZE.

(** ** The other threads *)

Definition digitb (c : ascii) : bool := (48 <=? code c) && (code c <=? 57).
(** What a thread finds out about itself; [lt_pad] are the bytes the structure has no field for. *)
Record lite_thread := mkLiteThread { lt_tid : Z; lt_nsTid : Z; lt_name : list Z; lt_pad : list Z; lt_context : list Z }.
Definition thread_request (t : lite_thread) : list Z := le_bytes 4 (lt_tid t) ++ le_bytes 4 (lt_nsTid t) ++ lt_name t ++ lt_pad t ++ lt_context t.

(** [GetProcId]: the number in the first line of a status file that starts with [item], -1 if there is
    none.  The file is read a byte at a time; a line that fills the buffer ends there, and the byte that
    did not fit is lost. *)
Definition status_number (line : list ascii) : Z :=
  match line with
  | c :: s => if digitb c then -1 else default (-1) (scan_int (drop_while (λ c, negb (digitb c)) s))
  | [] => -1
  end.
Fixpoint status_scan (item : list ascii) (file buf : list ascii) : Z :=
  match file with
  | [] => -1
  | b :: file' =>
      if Ascii.eqb b NUL then -1
      else if Ascii.eqb b (chr 10) || (length buf =? LINE_BUF_SIZE)%nat then
        let line := take (LINE_BUF_SIZE - 1) buf in
        if StartsWith line item then status_number line else status_scan item file' []
      else status_scan item file' (buf ++ [b])
  end.
Definition GetProcId (item : list ascii) (file : option (list ascii)) : Z := match file with None => -1 | Some file => status_scan item file [] end.

Definition DECIMAL_BASE_ : Z := 10.
Definition SafeStrtol (s : list ascii) : option Z :=
  match c_str s with
  | [] => None
  | c :: _ =>
      match scan_number DECIMAL_BASE_ (c_str s) with
      | Some (v, []) => if negb (sfitsb 64 v) then None else if (v =? 0) && negb (Ascii.eqb c "0"%char) then None else Some v
      | _ => None
      end
  end.
(** [SignalRequestThread]: the threads that are signalled, of the entries of the task directory.
    [kill] says whether a signal reaches a thread. *)
Fixpoint signal_loop (kill : Z → bool) (tid : Z) (entries : list (list ascii)) (sent : list Z) : list Z :=
  match entries with
  | [] => sent
  | name :: entries' =>
      if bool_decide (name = lit ".") || bool_decide (name = lit "..") then signal_loop kill tid entries' sent
      else match SafeStrtol name with
      | None => signal_loop kill tid entries' sent
      | Some t =>
          if s32 t =? tid then signal_loop kill tid entries' sent
          else
            let sent := if kill (s32 t) then sent ++ [s32 t] else sent in
            if (MAX_DUMP_THREAD_NUM <=? length sent)%nat then sent else signal_loop kill tid entries' sent
      end
  end.
Lemma signal_loop_bound kill tid entries : ∀ sent, (length sent <= MAX_DUMP_THREAD_NUM)%nat → (length sent < MAX_DUMP_THREAD_NUM ∨ entries = [])%nat → (length (signal_loop kill tid entries sent) <= MAX_DUMP_THREAD_NUM)%nat.
Proof.
  induction entries as [|name entries IH]; intros sent Hs Hn; [done|]. cbn [signal_loop]. assert (Hlt : (length sent < MAX_DUMP_THREAD_NUM)%nat) by by destruct Hn. clear Hn. destruct (_ || _); [apply IH; auto|]. destruct (SafeStrtol name) as [t|]; [|apply IH; auto]. destruct (_ =? tid); [apply IH; auto|].
  assert (Hle : (length (if kill (s32 t) then sent ++ [s32 t] else sent) <= MAX_DUMP_THREAD_NUM)%nat) by (destruct (kill _); rewrite ?length_app; cbn; lia). destruct (Nat.leb_spec MAX_DUMP_THREAD_NUM (length (if kill (s32 t) then sent ++ [s32 t] else sent))); [done|]. apply IH; auto.
Qed.
Definition InitSignalHandler (g : lite_globals) : lite_globals := set_thread_counts 0 0 0 g.

(** The handler of a signalled thread: not yet run, with a slot, [k] bytes of the stack behind it,
    with [n] bytes of the stack in the pipe, or over. *)
Inductive lite_phase := HWaiting | HStarted (pos : nat) | HCopy (pos k : nat) | HPiped (pos k n : nat) | HDone.
#[global] Instance lite_phase_eq_dec : EqDecision lite_phase.
Proof. solve_decision. Defined.
Definition slot_at (g : lite_globals) (pos : nat) : nat := (g_mmapPos g + 4 + pos * slot_size)%nat.
Definition poke_space (off : nat) (bs : list Z) (g : lite_globals) : outcome lite_globals :=
  match g_mmapSpace g with None => Undef OutOfBounds | Some space => space ← poke_bytes off bs space; Ret (set_space space g) end.

Section Handlers.
Context (pageSize : Z) (memory : Z → option Z).
(** A step of [DfxBacktraceLocalSignalHandler] in thread [t]. *)
Definition handler_next (t : lite_thread) (ph : lite_phase) (g : lite_globals) : outcome (lite_phase * lite_globals) :=
  match ph with
  | HWaiting =>
      let pos := g_threadStartCount g in
      let g := set_thread_counts (g_threadSentCount g) (S pos) (g_threadCompletedCount g) g in
      if (MAX_DUMP_THREAD_NUM <=? pos)%nat then Ret (HDone, g) else Ret (HStarted pos, g)
  | HStarted pos => g ← poke_space (slot_at g pos) (thread_request t) g; Ret (HCopy pos 0, g)
  | HCopy pos k =>
      let sp := uc_sp (lt_context t) in
      match copy_range THREAD_STACK_BUFFER_SIZE sp THREAD_STACK_BUFFER_SIZE with
      | Some srcEndPtr =>
          if u64 (sp + k) <? srcEndPtr then
            let n := next_copy pageSize (u64 (sp + k)) srcEndPtr in
            match pipe_write memory (u64 (sp + k)) n (g_pipe g) with
            | None => Ret (HCopy pos (k + n), g)
            | Some pipe => Ret (HPiped pos k n, set_pipe pipe g)
            end
          else Ret (HDone, set_thread_counts (g_threadSentCount g) (g_threadStartCount g) (S (g_threadCompletedCount g)) g)
      | None => Ret (HDone, set_thread_counts (g_threadSentCount g) (g_threadStartCount g) (S (g_threadCompletedCount g)) g)
      end
  | HPiped pos k n =>
      let '(bs, pipe) := pipe_read n (g_pipe g) in
      g ← poke_space (slot_at g pos + sizeof_ThreadDumpRequest + k) bs (set_pipe pipe g);
      Ret (HCopy pos (k + n), g)
  | HDone => Ret (HDone, g)
  end.
(** The handlers of [threads] under a schedule: each entry lets one of them do its next step. *)
Fixpoint run_handlers (threads : list lite_thread) (sched : list nat) (phs : list lite_phase) (g : lite_globals) : outcome (list lite_phase * lite_globals) :=
  match sched with
  | [] => Ret (phs, g)
  | i :: sched' =>
      match threads !! i, phs !! i with
      | Some t, Some ph => '(ph, g) ← handler_next t ph g; run_handlers threads sched' (<[i := ph]> phs) g
      | _, _ => run_handlers threads sched' phs g
      end
  end.

(** Whether no handler writes to the pipe of the process between the write of another and its read:
    the pipe is shared, and nothing keeps them apart. *)
Definition is_piped (ph : lite_phase) : bool := match ph with HPiped _ _ _ => true | _ => false end.
Fixpoint exclusive (threads : list lite_thread) (sched : list nat) (phs : list lite_phase) (g : lite_globals) : bool :=
  match sched with
  | [] => true
  | i :: sched' =>
      match threads !! i, phs !! i with
      | Some t, Some ph =>
          match ph with HCopy _ _ => negb (existsb is_piped phs) | _ => true end &&
          match handler_next t ph g with Ret (ph, g) => exclusive threads sched' (<[i := ph]> phs) g | _ => true end
      | _, _ => exclusive threads sched' phs g
      end
  end.

(** [CollectOtherThreadStack]: the handlers run until [WaitTimeout] returns, and what is left of them
    afterwards ([late]) until the process is forked. *)
Definition CollectOtherThreadStack (threads : list lite_thread) (sched late : list nat) (g : lite_globals) : outcome (list lite_phase * lite_globals) :=
  let g := InitSignalHandler g in
  let g := set_thread_counts (length threads) 0 0 g in
  '(phs, g) ← run_handlers threads sched (replicate (length threads) HWaiting) g;
  g ← poke_space (g_mmapPos g) (le_bytes 4 (g_threadCompletedCount g)) g;
  run_handlers threads late phs g.
(** [WaitTimeout] returns because every thread that was signalled is through. *)
Definition waited (g : lite_globals) : bool := (g_threadSentCount g <=? g_threadCompletedCount g)%nat.

Definition CollectStack (context : list Z) (threads : list lite_thread) (sched late : list nat) (g : lite_globals) : outcome (bool * lite_globals) :=
  match g_mmapSpace g with
  | None => Ret (false, g)
  | Some space =>
      if (g_totalMemorySize g <? g_mmapPos g + PRIV_COPY_STACK_BUFFER_SIZE)%nat then Ret (false, g)
      else
        old ← peek (g_mmapPos g) PRIV_COPY_STACK_BUFFER_SIZE space;
        '(stack, _, _) ← safe_CopyReadableBufSafe pageSize memory old (u64 (uc_sp context - PRIV_STACK_FORWARD_BUF_SIZE)) PRIV_COPY_STACK_BUFFER_SIZE (g_pipe g);
        space ← poke_bytes (g_mmapPos g) stack space;
        let g := advance_pos PRIV_COPY_STACK_BUFFER_SIZE (DeInitPipe (set_space space g)) in
        '(_, g) ← CollectOtherThreadStack threads sched late g;
        Ret (true, DeInitPipe g)
  end.
End Handlers.

(** ** Writing to the pipe

    The result of a system call on a pipe: bytes transferred, EAGAIN, EINTR, another error.  Results
    are taken from a list; after it every call transfers all it can. *)
Inductive io_result := Done (n : nat) | Again | Intr | Fail.
Record pipe_writer := mkPipeWriter { pw_results : list io_result; pw_out : list Z }.
Definition io_step : Z := 1024 * 1024.
Definition maxTryTimes : Z := 1000.
Definition chunk_len (length_ i : nat) : nat := if i + io_step <? length_ then Z.to_nat io_step else (length_ - i)%nat.
(** The two loops of [LoopWritePipe]; [i] is also how far [buf] has moved, [last] the size of the last
    write that wrote something. *)
Fixpoint write_loop (fuel : nat) (buf : list Z) (i last total : nat) (tryTimes : Z) (w : pipe_writer) : outcome (bool * pipe_writer) :=
  match fuel with
  | O => OutOfFuel
  | S fuel' =>
      if (i <? length buf)%nat then
        let len := chunk_len (length buf) i in
        let wrote n results :=
          let last := if (0 <? n)%nat then n else last in
          write_loop fuel' buf (i + last) last (total + n) 0 (mkPipeWriter results (pw_out w ++ slice i n buf)) in
        match pw_results w with
        | [] => wrote len []
        | Done n :: rs => wrote (Nat.min n len) rs
        | Fail :: rs => Ret (false, mkPipeWriter rs (pw_out w))
        | Again :: rs => if maxTryTimes <? tryTimes then Ret ((total =? length buf)%nat, mkPipeWriter rs (pw_out w)) else write_loop fuel' buf i last total (tryTimes + 1) (mkPipeWriter rs (pw_out w))
        | Intr :: rs => if maxTryTimes <? tryTimes then Ret ((total =? length buf)%nat, mkPipeWriter rs (pw_out w)) else write_loop fuel' buf i last total tryTimes (mkPipeWriter rs (pw_out w))
        end
      else Ret ((total =? length buf)%nat, w)
  end.
Definition LoopWritePipe (buf : list Z) (w : pipe_writer) : outcome (bool * pipe_writer) :=
  write_loop (S (length buf + length (pw_results w))) buf 0 0 0 0 w.

(** ** What is written *)
Definition WriteOtherThreadStack (g : lite_globals) (w : pipe_writer) : outcome (bool * pipe_writer) :=
  match g_mmapSpace g with
  | None => Undef OutOfBounds
  | Some space =>
      bs ← peek (g_mmapPos g) 4 space;
      let threadNum := swrap 32 (of_le bs) in
      if (threadNum <? 0) || (Z.of_nat MAX_DUMP_THREAD_NUM <? threadNum) then Ret (false, w)
      else buf ← peek (g_mmapPos g) (4 + Z.to_nat threadNum * slot_size) space; LoopWritePipe buf w
  end.
Definition WriteStack (g : lite_globals) (w : pipe_writer) : outcome (bool * pipe_writer) :=
  '(ok, w) ← match g_mmapSpace g with
             | None => if (g_mmapPos g =? 0)%nat then Ret (true, w) else Ret (false, w)
             | Some space => buf ← peek 0 (g_mmapPos g) space; LoopWritePipe buf w
             end;
  if negb ok then Ret (false, w) else WriteOtherThreadStack g w.

Definition COMMON_REG_MEM_FORWARD_SIZE_ : Z := 2.
Definition SPECIAL_REG_MEM_FORWARD_SIZE : Z := 31.
Definition COMMON_REG_MEM_SIZE_ : nat := 32.
Definition SPECIAL_REG_MEM_SIZE : nat := 64.
Definition pacMaskDefault : Z := u64 (Z.lnot 0xFFFFFF8000000000).
Definition padded (n : nat) (s : list ascii) : list Z := fill n (text_bytes s).
Definition start_tag : list Z := padded 50 (lit "start trans register").
Definition end_tag : list Z := padded 50 (lit "end trans register").
Definition mem_count (isPcLr : bool) : nat := if isPcLr then SPECIAL_REG_MEM_SIZE else COMMON_REG_MEM_SIZE_.
Definition mem_forward (isPcLr : bool) : Z := if isPcLr then SPECIAL_REG_MEM_FORWARD_SIZE else COMMON_REG_MEM_FORWARD_SIZE_.

Section Writer.
Context (pageSize : Z) (memory : Z → option Z).

(** [CreateMemoryBlock]; [mapped]: whether [mmap] succeeds. *)
Definition CreateMemoryBlock (mapped isPcLr : bool) (regAddr : Z) (w : pipe_writer) : outcome (bool * pipe_writer) :=
  let mmapSize := (mem_count isPcLr * 8)%nat in
  if negb mapped then Ret (false, w)
  else
    let targetAddr := u64 (Z.land regAddr (u64 (Z.lnot 7)) - mem_forward isPcLr * 8) in
    '(block, _, _) ← safe_CopyReadableBufSafe pageSize memory (replicate mmapSize 255) targetAddr mmapSize [];
    '(_, w) ← LoopWritePipe block w;
    Ret (true, w).
(** The registers in the order in which their blocks are written: x0 to x29, lr, sp, pc. *)
Definition near_registers (context : list Z) : list (bool * Z) :=
  map (λ i, (false, uc_reg i context)) (seq 0 30) ++ [(true, uc_reg 30 context); (false, uc_sp context); (true, uc_pc context)].
Fixpoint write_blocks (mapped : list bool) (regs : list (bool * Z)) (w : pipe_writer) : outcome pipe_writer :=
  match regs with
  | [] => Ret w
  | (isPcLr, r) :: regs' =>
      '(_, w) ← CreateMemoryBlock (default true (head mapped)) isPcLr (Z.land r pacMaskDefault) w;
      write_blocks (tail mapped) regs' w
  end.
Definition CollectMemoryNearRegisters (mapped : list bool) (context : list Z) (w : pipe_writer) : outcome (bool * pipe_writer) :=
  '(ok, w) ← LoopWritePipe start_tag w;
  if negb ok then Ret (false, w)
  else
    w ← write_blocks mapped (near_registers context) w;
    '(ok, w) ← LoopWritePipe end_tag w;
    if negb (ok : bool) then Ret (false, w) else Ret (true, w).

(** *** Maps *)
Definition REMAIN_BUF_LEN : nat := 100.
Definition CONCAT_BUF_LEN : nat := 200.
Definition jit_mark : list ascii := lit "[anon:JS_JIT_symbol]".
Definition hex_digit_of (c : ascii) : option Z := base_digit 16 c.
Fixpoint jit_addr (s : list ascii) (addr : Z) : Z :=
  match s with c :: s' => match hex_digit_of c with Some d => jit_addr s' (Z.lor (u64 (Z.shiftl addr 4)) d) | None => addr end | [] => addr end.
(** [FindArkWebJitSymbol]: the number at the start of the line the mark is in, when a line comes
    before it.  The array must have a terminator. *)
Definition FindArkWebJitSymbol (buf : list ascii) : outcome (option Z) :=
  if negb (existsb (Ascii.eqb NUL) buf) then Undef OutOfBounds
  else match find_sub jit_mark (c_str buf) with
  | None => Ret None
  | Some pos =>
      match rfind_from (chr 10) 0 (take pos buf) None with
      | None => Ret None
      | Some nl => Ret (Some (jit_addr (drop (S nl) buf) 0))
      end
  end.
(** The loop of [CollectMaps] over what the reads give; [buf] is the array on the stack. *)
Fixpoint maps_loop (reads : list (list Z)) (buf : list Z) (remain : list ascii) (addr : Z) (w : pipe_writer) : outcome (bool * Z * pipe_writer) :=
  match reads with
  | [] => Ret (true, addr, w)
  | chunk :: reads' =>
      let n := length chunk in
      buf ← poke_bytes 0 chunk buf;
      '(ok, w) ← LoopWritePipe chunk w;
      if negb ok then Ret (false, addr, w)
      else if negb (addr =? 0) then maps_loop reads' buf remain addr w
      else
        let text := map chr buf in
        let concatBuf := remain ++ take (REMAIN_BUF_LEN - 1) (c_str text) in
        r ← FindArkWebJitSymbol text;
        r ← match r with Some _ => Ret r | None => FindArkWebJitSymbol (concatBuf ++ [NUL]) end;
        match r with
        | Some a => maps_loop reads' buf remain a w
        | None =>
            let remainStart := (n - (REMAIN_BUF_LEN - 1))%nat in
            maps_loop reads' buf (c_str (if (0 <? remainStart)%nat then take (REMAIN_BUF_LEN - 1) (drop remainStart text) else take n text)) addr w
        end
  end.
Definition mapEndFlag : list ascii := lit "Parse_Maps_Finish" ++ [chr 10].
(** [reads]: what the reads of the maps file give, if it can be opened; [junk]: what the array on the
    stack has in it before. *)
Definition CollectMaps (reads : option (list (list Z))) (junk : list Z) (w : pipe_writer) : outcome (bool * Z * pipe_writer) :=
  match reads with
  | None => Ret (false, 0, w)
  | Some reads =>
      '(ok, addr, w) ← maps_loop reads junk [] 0 w;
      if negb (ok : bool) then Ret (false, addr, w)
      else '(ok, w) ← LoopWritePipe (text_bytes mapEndFlag) w; Ret (ok, addr, w)
  end.

(** *** Open files *)
Definition FD_TABLE_SIZE : nat := 128.
Definition ARG_MAX_NUM : Z := 131072.
Definition sizeof_FdEntry : nat := 16.
Definition off_FdTable_entries : Z := 8.
Definition off_FdTable_overflow : Z := 8 + 128 * 16.
Definition off_FdTableOverflow_entries : Z := 8.
(** An array of tags: [None] when it could not be mapped. *)
Record FdTableEntry := mkFdTableEntry { fe_entries : option (list Z); entryCount : nat }.
Definition read_safe (addr : Z) (size : nat) : outcome (list Z * bool) :=
  '(bs, n, _) ← safe_CopyReadableBufSafe pageSize memory (replicate size 0) addr size []; Ret (bs, (n =? size)%nat).
(** [m1], [m2]: whether the two mappings succeed. *)
Definition FillFdsaninfo (m1 m2 : bool) (fdTableAddr : Z) : outcome (FdTableEntry * FdTableEntry) :=
  let none := mkFdTableEntry (Some []) 0 in
  if negb m1 then Ret (mkFdTableEntry None FD_TABLE_SIZE, none)
  else
    '(bs, ok) ← read_safe (u64 (fdTableAddr + off_FdTable_entries)) (FD_TABLE_SIZE * sizeof_FdEntry);
    let fdEntries := mkFdTableEntry (Some bs) FD_TABLE_SIZE in
    if negb ok then Ret (fdEntries, none)
    else
      '(ov, ok) ← read_safe (u64 (fdTableAddr + off_FdTable_overflow)) 8;
      let overflow := of_le ov in
      if negb ok || (overflow =? 0) then Ret (fdEntries, none)
      else
        '(len, ok) ← read_safe overflow 8;
        let overflowLength := of_le len in
        if negb ok then Ret (fdEntries, none)
        else if ARG_MAX_NUM <? overflowLength then Ret (fdEntries, none)
        else
          let n := Z.to_nat overflowLength in
          if negb m2 then Ret (fdEntries, mkFdTableEntry None n)
          else
            '(bs, _) ← read_safe (u64 (overflow + off_FdTableOverflow_entries)) (n * sizeof_FdEntry);
            Ret (fdEntries, mkFdTableEntry (Some bs) n).
Definition close_tags (e : FdTableEntry) : option (list Z) := (λ bs, map (λ i, field (sizeof_FdEntry * i) 8 bs) (seq 0 (entryCount e))) <$> fe_entries e.
(** [FillFdsanOwner]: the owner of every descriptor, 0 for none. *)
Definition FillFdsanOwner (fdEntries overflowEntries : FdTableEntry) : list Z :=
  match close_tags fdEntries with
  | None => replicate (entryCount fdEntries + entryCount overflowEntries) 0
  | Some tags => tags ++ default (replicate (entryCount overflowEntries) 0) (close_tags overflowEntries)
  end.
Definition file_item (tag_type : Z → list ascii) (tag_value : Z → Z) (fd : Z) (target : list ascii) (tag : Z) : list ascii :=
  print_dec fd ++ lit "->" ++ target ++ lit " " ++ tag_type tag ++ lit " " ++ print_dec (tag_value tag) ++ [chr 10].
(** [WriteFileItems]: the entries of the directory with the targets of their links, if they can be read. *)
Fixpoint WriteFileItems (tag_type : Z → list ascii) (tag_value : Z → Z) (entries : list (list ascii * option (list ascii))) (owners : list Z) (w : pipe_writer) : outcome pipe_writer :=
  match entries with
  | [] => Ret w
  | (name, target) :: entries' =>
      if bool_decide (name = lit ".") || bool_decide (name = lit "..") then WriteFileItems tag_type tag_value entries' owners w
      else match target, SafeStrtol name with
      | Some target, Some fd =>
          match (if fd <? 0 then None else owners !! Z.to_nat fd) with
          | None => WriteFileItems tag_type tag_value entries' owners w
          | Some tag =>
              '(_, w) ← LoopWritePipe (text_bytes (take 511 (file_item tag_type tag_value fd (take 255 target) tag))) w;
              WriteFileItems tag_type tag_value entries' owners w
          end
      | _, _ => WriteFileItems tag_type tag_value entries' owners w
      end
  end.
Definition open_tag : list ascii := lit "OpenFiles:" ++ [chr 10].
Definition open_end_tag : list ascii := lit "end trans openfiles" ++ [chr 10].
(** [m3]: whether the mapping of the owners succeeds. *)
Definition CollectOpenFiles (tag_type : Z → list ascii) (tag_value : Z → Z) (m1 m2 m3 : bool) (dir : option (list (list ascii * option (list ascii)))) (fdTableAddr : Z) (w : pipe_writer) : outcome (bool * pipe_writer) :=
  match dir with
  | None => Ret (false, w)
  | Some entries =>
      '(ok, w) ← LoopWritePipe (text_bytes open_tag) w;
      if negb ok then Ret (false, w)
      else
        '(fdEntries, overflowEntries) ← FillFdsaninfo m1 m2 fdTableAddr;
        if negb m3 then Ret (false, w)
        else
          w ← WriteFileItems tag_type tag_value entries (FillFdsanOwner fdEntries overflowEntries) w;
          LoopWritePipe (text_bytes open_end_tag) w
  end.
(** [CollectArkWebJitSymbol]: the write of memory that is not mapped fails. *)
Definition CollectArkWebJitSymbol (addr : Z) (w : pipe_writer) : outcome (bool * pipe_writer) :=
  if addr =? 0 then Ret (false, w)
  else
    let bs := readable_bytes memory ARKWEB_JIT_SYMBOL_BUF_SIZE addr in
    '(ok, w) ← LoopWritePipe bs w;
    Ret (ok && (length bs =? ARKWEB_JIT_SYMBOL_BUF_SIZE)%nat, w).
End Writer.

(** ** The whole dump *)

(** What the system answers while a dump is written: mappings of the blocks, reads of the maps file,
    the array of [CollectMaps], the directory of descriptors, three mappings, the table of owners. *)
Record lite_env := mkLiteEnv {
  le_blocks : list bool; le_maps : option (list (list Z)); le_junk : list Z; le_dir : option (list (list ascii * option (list ascii)));
  le_m1 : bool; le_m2 : bool; le_m3 : bool; le_fdTable : Z
}.
Section Dump.
Context (pageSize : Z) (memory : Z → option Z) (tag_type : Z → list ascii) (tag_value : Z → Z).

(** [LiteCrashHandler], once it has the pipe. *)
Definition LiteCrashHandler (env : lite_env) (request : list Z) (g : lite_globals) (w : pipe_writer) : outcome (bool * pipe_writer) :=
  let catch := request_type request =? DUMP_TYPE_DUMP_CATCH in
  '(ok, w) ← LoopWritePipe request w;
  if negb ok then Ret (false, w)
  else
    '(ok, w) ← WriteStack g w;
    if negb (ok : bool) then Ret (false, w)
    else
      '(ok, w) ← (if catch then Ret (true, w) else CollectMemoryNearRegisters pageSize memory (le_blocks env) (request_context request) w);
      if negb (ok : bool) then Ret (false, w)
      else
        '(ok, addr, w) ← CollectMaps (le_maps env) (le_junk env) w;
        if negb (ok : bool) then Ret (false, w)
        else
          '(ok, w) ← (if catch then Ret (true, w) else CollectOpenFiles pageSize memory tag_type tag_value (le_m1 env) (le_m2 env) (le_m3 env) (le_dir env) (le_fdTable env) w);
          if negb (ok : bool) then Ret (false, w) else CollectArkWebJitSymbol memory addr w.

Definition lite_mmapSize (isDumpCatch : bool) : Z :=
  let common := PRIV_COPY_STACK_BUFFER_SIZE + 4 + MAX_DUMP_THREAD_NUM * slot_size in
  if isDumpCatch then common else common + PROC_STAT_BUF_SIZE + PROC_STATM_BUF_SIZE.
(** The collecting part of [DumpPrviProcess], before it forks. *)
Definition lite_collect (mapped : bool) (stat statm : option (list Z)) (request : list Z) (threads : list lite_thread) (sched late : list nat) (g : lite_globals) : outcome (bool * lite_globals) :=
  let isDumpCatch := request_type request =? DUMP_TYPE_DUMP_CATCH in
  let '(ok, g) := MMapMemoryOnce mapped (lite_mmapSize isDumpCatch) (ResetLiteDump g) in
  if negb ok then Ret (false, g)
  else
    g ← (if isDumpCatch then Ret g else '(_, g) ← CollectStat stat g; '(_, g) ← CollectStatm statm g; Ret g);
    '(_, g) ← CollectStack pageSize memory (request_context request) threads sched late g;
    Ret (true, g).
(** [DumpPrviProcess]: the child writes what was collected; the mapping is gone when it has. *)
Definition DumpPrviProcess (mapped : bool) (stat statm : option (list Z)) (env : lite_env) (request : list Z) (threads : list lite_thread) (sched late : list nat) (g : lite_globals) (w : pipe_writer) : outcome (bool * lite_globals * pipe_writer) :=
  '(ok, g) ← lite_collect mapped stat statm request threads sched late g;
  if negb ok then Ret (false, g, w)
  else
    '(_, w) ← LiteCrashHandler env request g w;
    Ret (true, UnmapMemoryOnce g, w).
End Dump.
