(* ===== verification/LiteReader.v ===== *)
(** * Lite dumps: the process that prints them

    The reader of the pipe that a lite dump is written to (tools/process_dump/lite_process_dumper.cpp),
    and what it gets of what the process in LiteDump wrote, whatever the system calls on both ends of
    the pipe transfer at a time and however the handlers of its threads interleave. *)
From stdpp Require Import gmap.
From S2P Require Import Prelude Text Maps CoreBuffer CoreNotes ThreadContext LiteDump.

(** ** Reading the pipe *)
Record pipe_reader := mkPipeReader { pr_results : list io_result; pr_in : list Z }.
(** The two loops of [LoopReadPipe]: [acc] is what the buffer has so far. *)
Fixpoint read_loop (fuel length_ : nat) (acc : list Z) (tryTimes : Z) (r : pipe_reader) : outcome (bool * list Z * pipe_reader) :=
  match fuel with
  | O => OutOfFuel
  | S fuel' =>
      if (length acc <? length_)%nat then
        let len := chunk_len length_ (length acc) in
        let got n results :=
          let n := Nat.min n (length (pr_in r)) in
          let r' := mkPipeReader results (drop n (pr_in r)) in
          if (n =? 0)%nat then Ret (false, acc, r') else read_loop fuel' length_ (acc ++ take n (pr_in r)) 0 r' in
        match pr_results r with
        | [] => got len []
        | Done n :: rs => got (Nat.min n len) rs
        | Fail :: rs => Ret (false, acc, mkPipeReader rs (pr_in r))
        | _ :: rs =>
            if maxTryTimes <? tryTimes then Ret ((length acc =? length_)%nat, acc, mkPipeReader rs (pr_in r))
            else read_loop fuel' length_ acc (tryTimes + 1) (mkPipeReader rs (pr_in r))
        end
      else Ret ((length acc =? length_)%nat, acc, r)
  end.
Definition LoopReadPipe (length_ : nat) (r : pipe_reader) : outcome (bool * list Z * pipe_reader) :=
  read_loop (S (length_ + length (pr_results r))) length_ [] 0 r.

(** ** The dumper *)
Record MemoryBlockInfo := mkBlock { nameAddr : Z; startAddr : Z; b_content : list Z }.
Record LiteProcessDumper := mkLiteDumper {
  request_ : list Z; stat_ : list ascii; statm_ : list ascii; stackBuf_ : list Z;
  otherThreads_ : list (list Z * list Z); blocksInfo_ : list MemoryBlockInfo; rawData_ : list Z; isJsonDump_ : bool
}.
Definition LiteProcessDumper_new : LiteProcessDumper := mkLiteDumper [] [] [] [] [] [] [] false.
Definition DUMP_TYPE_REMOTE_JSON : Z := -2.

Definition terminate (off : nat) (bs : list Z) : list Z := patch (off + NAME_BUF_LEN_ - 1) [0] bs.
Definition off_thread_name : nat := 8.
Definition request_read (request : list Z) : list Z := terminate off_request_threadName (terminate off_request_processName request).
Definition ReadRequest (d : LiteProcessDumper) (r : pipe_reader) : outcome (bool * LiteProcessDumper * pipe_reader) :=
  '(ok, bs, r) ← LoopReadPipe sizeof_ProcessDumpRequest r;
  if negb (ok : bool) then Ret (false, d, r)
  else
    let bs := request_read bs in
    let json := (request_type bs =? DUMP_TYPE_DUMP_CATCH) && (swrap 32 (field (off_request_siginfo + 8) 4 bs) =? DUMP_TYPE_REMOTE_JSON) in
    Ret (true, mkLiteDumper bs (stat_ d) (statm_ d) (stackBuf_ d) (otherThreads_ d) (blocksInfo_ d) (rawData_ d) json, r).
(** A text of /proc, in an array. *)
Definition read_text (size : nat) (r : pipe_reader) : outcome (option (list ascii) * pipe_reader) :=
  '(ok, bs, r) ← LoopReadPipe size r;
  Ret (if (ok : bool) then Some (c_str (map chr (patch (size - 1) [0] bs))) else None, r).
Definition ReadStat (d : LiteProcessDumper) (r : pipe_reader) : outcome (bool * LiteProcessDumper * pipe_reader) :=
  '(s, r) ← read_text PROC_STAT_BUF_SIZE r;
  match s with
  | None => Ret (false, d, r)
  | Some s => Ret (true, mkLiteDumper (request_ d) s (statm_ d) (stackBuf_ d) (otherThreads_ d) (blocksInfo_ d) (rawData_ d) (isJsonDump_ d), r)
  end.
Definition ReadStatm (d : LiteProcessDumper) (r : pipe_reader) : outcome (bool * LiteProcessDumper * pipe_reader) :=
  '(s, r) ← read_text PROC_STATM_BUF_SIZE r;
  match s with
  | None => Ret (false, d, r)
  | Some s => Ret (true, mkLiteDumper (request_ d) (stat_ d) s (stackBuf_ d) (otherThreads_ d) (blocksInfo_ d) (rawData_ d) (isJsonDump_ d), r)
  end.
Fixpoint read_threads (n : nat) (acc : list (list Z * list Z)) (r : pipe_reader) : outcome (bool * list (list Z * list Z) * pipe_reader) :=
  match n with
  | O => Ret (true, acc, r)
  | S n' =>
      '(ok, rq, r) ← LoopReadPipe sizeof_ThreadDumpRequest r;
      if negb (ok : bool) then Ret (false, acc, r)
      else
        '(ok, stack, r) ← LoopReadPipe THREAD_STACK_BUFFER_SIZE r;
        if negb (ok : bool) then Ret (false, acc, r) else read_threads n' (acc ++ [(terminate off_thread_name rq, stack)]) r
  end.
Definition ReadOtherThreadStack (r : pipe_reader) : outcome (bool * list (list Z * list Z) * pipe_reader) :=
  '(ok, bs, r) ← LoopReadPipe 4 r;
  if negb (ok : bool) then Ret (false, [], r)
  else
    let otherThreadNum := swrap 32 (of_le bs) in
    if (otherThreadNum <? 0) || (Z.of_nat MAX_DUMP_THREAD_NUM <? otherThreadNum) then Ret (false, [], r)
    else read_threads (Z.to_nat otherThreadNum) [] r.
Definition ReadStack (d : LiteProcessDumper) (r : pipe_reader) : outcome (bool * LiteProcessDumper * pipe_reader) :=
  '(ok, bs, r) ← LoopReadPipe PRIV_COPY_STACK_BUFFER_SIZE r;
  if negb (ok : bool) then Ret (false, d, r)
  else
    '(ok, threads, r) ← ReadOtherThreadStack r;
    Ret (ok, mkLiteDumper (request_ d) (stat_ d) (statm_ d) bs threads (blocksInfo_ d) (rawData_ d) (isJsonDump_ d), r).

Definition le_words (n : nat) (bs : list Z) : list Z := map (λ i, field (8 * i) 8 bs) (seq 0 n).
Definition ReadSingleRegMem (nameAddr : Z) (count : nat) (forward : Z) (r : pipe_reader) : outcome (MemoryBlockInfo * pipe_reader) :=
  '(ok, bs, r) ← LoopReadPipe (count * 8) r;
  Ret (mkBlock nameAddr (u64 (nameAddr - forward * 8)) (if (ok : bool) then le_words count bs else replicate count (2 ^ 64 - 1)), r).
Fixpoint read_blocks (regs : list (bool * Z)) (acc : list MemoryBlockInfo) (r : pipe_reader) : outcome (list MemoryBlockInfo * pipe_reader) :=
  match regs with
  | [] => Ret (acc, r)
  | (isPcLr, a) :: regs' => '(b, r) ← ReadSingleRegMem a (mem_count isPcLr) (mem_forward isPcLr) r; read_blocks regs' (acc ++ [b]) r
  end.
Definition read_tag (tag : list ascii) (r : pipe_reader) : outcome (bool * pipe_reader) :=
  '(ok, bs, r) ← LoopReadPipe 50 r;
  Ret (ok && bool_decide (c_str (map chr (patch 49 [0] bs)) = tag), r).
Definition ReadMemoryNearRegister (d : LiteProcessDumper) (r : pipe_reader) : outcome (bool * LiteProcessDumper * pipe_reader) :=
  '(ok, r) ← read_tag (lit "start trans register") r;
  if negb ok then Ret (false, d, r)
  else
    '(blocks, r) ← read_blocks (near_registers (request_context (request_ d))) (blocksInfo_ d) r;
    '(ok, r) ← read_tag (lit "end trans register") r;
    Ret (ok, mkLiteDumper (request_ d) (stat_ d) (statm_ d) (stackBuf_ d) (otherThreads_ d) blocks (rawData_ d) (isJsonDump_ d), r).

(** The loop of [ReadContent] that reads the rest. *)
Definition MAX_PIPE_SIZE : nat := Z.to_nat (1024 * 1024).
Definition maxRawDataSize : Z := 20 * 1024 * 1024.
Definition rawTryTimes : Z := 200.
Lemma MAX_PIPE_SIZE_pos : (0 < MAX_PIPE_SIZE)%nat.
Proof. unfold MAX_PIPE_SIZE. lia. Qed.
#[global] Opaque MAX_PIPE_SIZE.
Fixpoint raw_loop (fuel : nat) (raw : list Z) (tryTimes : Z) (r : pipe_reader) : outcome (list Z) :=
  match fuel with
  | O => OutOfFuel
  | S fuel' =>
      let got n results :=
        let n := Nat.min n (length (pr_in r)) in
        if (n =? 0)%nat then Ret raw
        else
          let raw := raw ++ take n (pr_in r) in
          if maxRawDataSize <=? Z.of_nat (length raw) then Ret raw else raw_loop fuel' raw tryTimes (mkPipeReader results (drop n (pr_in r))) in
      match pr_results r with
      | [] => got MAX_PIPE_SIZE []
      | Done n :: rs => got (Nat.min n MAX_PIPE_SIZE) rs
      | Fail :: rs => Ret raw
      | Again :: rs => if rawTryTimes <? tryTimes + 1 then Ret raw else raw_loop fuel' raw (tryTimes + 1) (mkPipeReader rs (pr_in r))
      | Intr :: rs => raw_loop fuel' raw tryTimes (mkPipeReader rs (pr_in r))
      end
  end.
(** [ReadContent]; the alarm that it sets is left out. *)
Definition ReadContent (d : LiteProcessDumper) (r : pipe_reader) : outcome (bool * LiteProcessDumper) :=
  '(ok, d, r) ← ReadRequest d r;
  if negb (ok : bool) then Ret (false, d)
  else
    let crash := request_type (request_ d) =? DUMP_TYPE_CPP_CRASH in
    '(ok, d, r) ← (if crash then
                     '(ok, d, r) ← ReadStat d r;
                     if negb (ok : bool) then Ret (false, d, r) else ReadStatm d r
                   else Ret (true, d, r));
    if negb (ok : bool) then Ret (false, d)
    else
      '(ok, d, r) ← ReadStack d r;
      if negb (ok : bool) then Ret (false, d)
      else
        '(ok, d, r) ← (if crash then ReadMemoryNearRegister d r else Ret (true, d, r));
        if negb (ok : bool) then Ret (false, d)
        else
          raw ← raw_loop (S (length (pr_in r) + length (pr_results r))) (rawData_ d) 0 r;
          Ret (true, mkLiteDumper (request_ d) (stat_ d) (statm_ d) (stackBuf_ d) (otherThreads_ d) (blocksInfo_ d) raw (isJsonDump_ d)).

(** ** What is made of the rest *)
Fixpoint find_char (c : ascii) (s : list ascii) : option nat :=
  match s with [] => None | d :: s' => if Ascii.eqb c d then Some O else S <$> find_char c s' end.
(** [CollectOpenFiles]: lines by descriptor, and what follows the mark; all of the text if there is none. *)
Fixpoint open_lines (fuel : nat) (text s : list ascii) (files : gmap Z (list ascii)) : outcome (gmap Z (list ascii) * list ascii) :=
  match s with
  | [] => Ret (files, text)
  | _ =>
      match fuel with
      | O => OutOfFuel
      | S fuel' =>
          let '(line, rest) := getline s in
          if bool_decide (line = lit "end trans openfiles") then Ret (files, rest)
          else
            match find_char "-"%char line with
            | None => open_lines fuel' text rest files
            | Some pos =>
                match SafeStrtol (take pos line) with
                | None => open_lines fuel' text rest files
                | Some fd => open_lines fuel' text rest (match files !! s32 fd with Some _ => files | None => <[s32 fd := line ++ [chr 10]]> files end)
                end
            end
      end
  end.
Definition lp_CollectOpenFiles (type : Z) (raw : list ascii) : outcome (gmap Z (list ascii) * list ascii) :=
  if type =? DUMP_TYPE_DUMP_CATCH then Ret (∅, raw) else open_lines (length raw) raw raw ∅.
(** [MmapJitSymbol]: the mapping with the symbols, if there is one. *)
Definition MmapJitSymbol (mapped : bool) (raw : list Z) : option (list Z) :=
  if mapped && (length raw <=? ARKWEB_JIT_SYMBOL_BUF_SIZE)%nat then Some (fill ARKWEB_JIT_SYMBOL_BUF_SIZE raw) else None.

(** ** The pipe delivers

    System calls that do not fail, move at least a byte, and are interrupted or told to try again at
    most two hundred times in all. *)
Definition moves (x : io_result) : Prop := match x with Done n => (0 < n)%nat | Again | Intr => True | Fail => False end.
Definition retries (rs : list io_result) : Z := length (List.filter (λ x, match x with Again | Intr => true | _ => false end) rs).
Definition calm (rs : list io_result) : Prop := Forall moves rs ∧ retries rs <= 200.

Lemma retries_nonneg rs : 0 <= retries rs.
Proof. unfold retries. lia. Qed.
Lemma retries_cons x rs : retries rs <= retries (x :: rs) <= 1 + retries rs.
Proof. unfold retries. cbn [List.filter]. destruct x; cbn [length]; lia. Qed.
Lemma chunk_len_range n i : (i < n)%nat → (0 < chunk_len n i <= n - i)%nat.
Proof. intros H. unfold chunk_len. destruct (Z.ltb_spec (i + io_step) n); unfold io_step in *; lia. Qed.

Lemma slice_then_drop i n (l : list Z) : slice i n l ++ drop (i + n) l = drop i l.
Proof. unfold slice. rewrite <- drop_drop. apply take_drop. Qed.

Lemma write_loop_ok fuel : ∀ buf i last tries w, (i <= length buf)%nat → Forall moves (pw_results w) → 0 <= tries → tries + retries (pw_results w) <= 1000 → (length buf - i + length (pw_results w) < fuel)%nat →
  ∃ rs, write_loop fuel buf i last i tries w = Ret (true, mkPipeWriter rs (pw_out w ++ drop i buf)) ∧ Forall moves rs ∧ retries rs <= retries (pw_results w).
Proof.
  induction fuel as [|fuel IH]; intros buf i last tries w Hi Hm H0 Ht Hf; [lia|]. cbn [write_loop]. destruct (Nat.ltb_spec i (length buf)) as [Hlt|Hge]; cycle 1.
  { replace i with (length buf) in * by lia. rewrite Nat.eqb_refl, drop_all, app_nil_r. exists (pw_results w). by destruct w. }
  pose proof (chunk_len_range _ _ Hlt) as Hc. destruct w as [rs out]. cbn [pw_results pw_out] in *.
  assert (Hw : ∀ n rs', (0 < n <= length buf - i)%nat → Forall moves rs' → retries rs' <= retries rs → (length rs' <= length rs)%nat →
    ∃ rs2, (let last := if (0 <? n)%nat then n else last in write_loop fuel buf (i + last) last (i + n) 0 (mkPipeWriter rs' (out ++ slice i n buf))) = Ret (true, mkPipeWriter rs2 (out ++ drop i buf)) ∧ Forall moves rs2 ∧ retries rs2 <= retries rs).
  { intros n rs' Hn Hm' Hr' Hl'. cbn zeta. rewrite (proj2 (Nat.ltb_lt _ _)) by lia. pose proof (retries_nonneg rs).
    destruct (IH buf (i + n)%nat n 0 (mkPipeWriter rs' (out ++ slice i n buf))) as (rs2 & -> & H1 & H2); cbn [pw_results pw_out] in *; try done; try lia. exists rs2. split; [|split; [done|lia]].
    by rewrite <- app_assoc, slice_then_drop. }
  destruct rs as [|x rs].
  - apply Hw; [lia|done|done|done].
  - apply list.Forall_cons in Hm as [Hx Hm]. pose proof (retries_cons x rs) as Hr. destruct x as [n| | |]; cbn [moves] in Hx; [..|done].
    + apply Hw; [lia|done|lia|cbn; lia].
    + assert (Hr1 : retries (Again :: rs) = 1 + retries rs) by (unfold retries; cbn [List.filter length]; lia). pose proof (retries_nonneg rs). rewrite (proj2 (Z.ltb_ge _ _)) by (unfold maxTryTimes; lia).
      destruct (IH buf i last (tries + 1) (mkPipeWriter rs out)) as (rs2 & -> & H1 & H2); cbn [pw_results pw_out length] in *; try done; try lia. exists rs2. split; [done|]. split; [done|lia].
    + assert (Hr1 : retries (Intr :: rs) = 1 + retries rs) by (unfold retries; cbn [List.filter length]; lia). pose proof (retries_nonneg rs). rewrite (proj2 (Z.ltb_ge _ _)) by (unfold maxTryTimes; lia).
      destruct (IH buf i last tries (mkPipeWriter rs out)) as (rs2 & -> & H1 & H2); cbn [pw_results pw_out length] in *; try done; try lia. exists rs2. split; [done|]. split; [done|lia].
Qed.

(** What an operation on a calm pipe writes when it succeeds. *)
Definition emits {A} (f : pipe_writer → outcome (A * pipe_writer)) (a : A) (bs : list Z) : Prop :=
  ∀ w, calm (pw_results w) → ∃ rs, f w = Ret (a, mkPipeWriter rs (pw_out w ++ bs)) ∧ calm rs.
Lemma LoopWritePipe_emits buf : emits (LoopWritePipe buf) true buf.
Proof.
  intros w [Hm Hr]. unfold LoopWritePipe. destruct (write_loop_ok (S (length buf + length (pw_results w))) buf 0 0 0 w) as (rs & E & H1 & H2); [lia|done|lia|lia|lia|].
  exists rs. rewrite E. split; [done|]. split; [done|lia].
Qed.
Lemma emits_ret {A} (a : A) : emits (λ w, Ret (a, w)) a [].
Proof. intros [rs out] H. exists rs. by rewrite app_nil_r. Qed.
Lemma emits_bind {A B} (f : pipe_writer → outcome (A * pipe_writer)) (g : pipe_writer → outcome (B * pipe_writer)) (K : A * pipe_writer → outcome (B * pipe_writer)) a b bs cs :
  emits f a bs → emits g b cs → (∀ w, K (a, w) = g w) → emits (λ w, mbind K (f w)) b (bs ++ cs).
Proof.
  intros Hf Hg HK w Hw. destruct (Hf w Hw) as (rs & -> & H1). cbn [mbind outcome_mbind]. rewrite HK. destruct (Hg (mkPipeWriter rs (pw_out w ++ bs)) H1) as (rs2 & -> & H2).
  exists rs2. cbn [pw_out]. by rewrite app_assoc.
Qed.
Lemma emits_ext {A} (f g : pipe_writer → outcome (A * pipe_writer)) a bs : (∀ w, f w = g w) → emits f a bs → emits g a bs.
Proof. intros E H w Hw. rewrite <- E. by apply H. Qed.
Lemma emits_case {A} (b : bool) (f g : pipe_writer → outcome (A * pipe_writer)) a bs : b = true → emits f a bs → emits (λ w, if negb b then g w else f w) a bs.
Proof. by intros ->. Qed.

(** ** The reader gets what is in the pipe *)
Lemma read_loop_ok fuel : ∀ n acc bs rest tries rs, (length acc + length bs = n)%nat → Forall moves rs → 0 <= tries → tries + retries rs <= 1000 → (length bs + length rs < fuel)%nat →
  ∃ rs', read_loop fuel n acc tries (mkPipeReader rs (bs ++ rest)) = Ret (true, acc ++ bs, mkPipeReader rs' rest) ∧ Forall moves rs' ∧ retries rs' <= retries rs.
Proof.
  induction fuel as [|fuel IH]; intros n acc bs rest tries rs Hn Hm H0 Ht Hf; [lia|]. cbn [read_loop]. destruct (Nat.ltb_spec (length acc) n) as [Hlt|Hge]; cycle 1.
  { destruct bs; cbn [length] in Hn; [|lia]. rewrite (proj2 (Nat.eqb_eq _ _)) by lia. exists rs. by rewrite app_nil_r. }
  pose proof (chunk_len_range _ _ Hlt) as Hc. cbn [pr_results pr_in].
  assert (Hg : ∀ k rs', (0 < k <= length bs)%nat → Forall moves rs' → retries rs' <= retries rs → (length rs' <= length rs)%nat →
    ∃ rs2, (let k := Nat.min k (length (bs ++ rest)) in let r' := mkPipeReader rs' (drop k (bs ++ rest)) in if (k =? 0)%nat then Ret (false, acc, r') else read_loop fuel n (acc ++ take k (bs ++ rest)) 0 r')
      = Ret (true, acc ++ bs, mkPipeReader rs2 rest) ∧ Forall moves rs2 ∧ retries rs2 <= retries rs).
  { intros k rs' Hk Hm' Hr' Hl'. cbn zeta. rewrite length_app, Nat.min_l by lia. rewrite (proj2 (Nat.eqb_neq _ _)) by lia. rewrite take_app_le, drop_app_le by lia. pose proof (retries_nonneg rs).
    destruct (IH n (acc ++ take k bs) (drop k bs) rest 0 rs') as (rs2 & -> & H1 & H2); try done; try lia; [rewrite length_app, length_take, length_drop; lia|rewrite length_drop; lia|].
    exists rs2. rewrite <- app_assoc, take_drop. split; [done|]. split; [done|lia]. }
  destruct rs as [|x rs].
  - apply Hg; [lia|done|done|done].
  - apply list.Forall_cons in Hm as [Hx Hm]. pose proof (retries_cons x rs) as Hr. pose proof (retries_nonneg rs). destruct x as [k| | |]; cbn [moves] in Hx; [..|done].
    + apply Hg; [lia|done|lia|cbn; lia].
    + assert (Hr1 : retries (Again :: rs) = 1 + retries rs) by (unfold retries; cbn [List.filter length]; lia). rewrite (proj2 (Z.ltb_ge _ _)) by (unfold maxTryTimes; lia).
      destruct (IH n acc bs rest (tries + 1) rs) as (rs2 & -> & H1 & H2); cbn [length] in *; try done; try lia. exists rs2. split; [done|]. split; [done|lia].
    + assert (Hr1 : retries (Intr :: rs) = 1 + retries rs) by (unfold retries; cbn [List.filter length]; lia). rewrite (proj2 (Z.ltb_ge _ _)) by (unfold maxTryTimes; lia).
      destruct (IH n acc bs rest (tries + 1) rs) as (rs2 & -> & H1 & H2); cbn [length] in *; try done; try lia. exists rs2. split; [done|]. split; [done|lia].
Qed.
Lemma LoopReadPipe_ok n bs rest rs : length bs = n → calm rs → ∃ rs', LoopReadPipe n (mkPipeReader rs (bs ++ rest)) = Ret (true, bs, mkPipeReader rs' rest) ∧ calm rs'.
Proof.
  intros Hn [Hm Hr]. unfold LoopReadPipe. cbn [pr_results]. destruct (read_loop_ok (S (n + length rs)) n [] bs rest 0 rs) as (rs' & E & H1 & H2); [done|done|lia|lia|lia|].
  exists rs'. rewrite E. split; [done|]. split; [done|lia].
Qed.

Lemma raw_loop_ok fuel : ∀ raw bs tries rs, Forall moves rs → 0 <= tries → tries + retries rs <= 200 → (length bs + length rs < fuel)%nat → Z.of_nat (length raw + length bs) < maxRawDataSize →
  raw_loop fuel raw tries (mkPipeReader rs bs) = Ret (raw ++ bs).
Proof.
  induction fuel as [|fuel IH]; intros raw bs tries rs Hm H0 Ht Hf Hraw; [lia|]. cbn [raw_loop]. cbn [pr_results pr_in].
  assert (Hg : ∀ k rs', (0 < k)%nat → Forall moves rs' → retries rs' <= retries rs → (length rs' <= length rs)%nat →
    (let k := Nat.min k (length bs) in if (k =? 0)%nat then Ret raw else let raw := raw ++ take k bs in if maxRawDataSize <=? Z.of_nat (length raw) then Ret raw else raw_loop fuel raw tries (mkPipeReader rs' (drop k bs))) = Ret (raw ++ bs)).
  { intros k rs' Hk Hm' Hr' Hl'. cbn zeta. destruct (Nat.eqb_spec (Nat.min k (length bs)) 0) as [E|E]; [destruct bs; [by rewrite app_nil_r|cbn in E; lia]|].
    rewrite length_app, length_take, (proj2 (Z.leb_gt _ _)) by lia. rewrite IH; [by rewrite <- app_assoc, take_drop|done|done|lia|rewrite length_drop; lia|rewrite length_app, length_take, length_drop; lia]. }
  destruct rs as [|x rs].
  - apply Hg; [pose proof MAX_PIPE_SIZE_pos; lia|done|done|done].
  - apply list.Forall_cons in Hm as [Hx Hm]. pose proof (retries_cons x rs) as Hr. pose proof (retries_nonneg rs). destruct x as [k| | |]; cbn [moves] in Hx; [..|done].
    + apply Hg; [pose proof MAX_PIPE_SIZE_pos; lia|done|lia|cbn; lia].
    + assert (Hr1 : retries (Again :: rs) = 1 + retries rs) by (unfold retries; cbn [List.filter length]; lia). rewrite (proj2 (Z.ltb_ge _ _)) by (unfold rawTryTimes; lia). apply IH; cbn [length] in *; try done; lia.
    + assert (Hr1 : retries (Intr :: rs) = 1 + retries rs) by (unfold retries; cbn [List.filter length]; lia). apply IH; cbn [length] in *; try done; lia.
Qed.

(** ** Copies

    What is mapped over what was there. *)
Fixpoint overlay (memory : Z → option Z) (src : Z) (dest : list Z) : list Z :=
  match dest with [] => [] | d :: dest' => default d (memory src) :: overlay memory (src + 1) dest' end.

Section Copies.
Context (memory : Z → option Z).
Lemma length_overlay src dest : length (overlay memory src dest) = length dest.
Proof. revert src. induction dest as [|d l IH]; intros src; cbn; [done|]. by rewrite IH. Qed.
Lemma overlay_app src a b : overlay memory src (a ++ b) = overlay memory src a ++ overlay memory (src + length a) b.
Proof. revert src. induction a as [|d a IH]; intros src; cbn; [by rewrite Z.add_0_r|]. rewrite IH. by replace (src + S (length a)) with (src + 1 + length a) by lia. Qed.
Lemma overlay_mapped src dest : (∀ i, 0 <= i < length dest → is_Some (memory (src + i))) → overlay memory src dest = readable_bytes memory (length dest) src.
Proof.
  revert src. induction dest as [|d l IH]; intros src H; [done|]. cbn. destruct (H 0 ltac:(cbn; lia)) as [b Hb]. rewrite Z.add_0_r in Hb. rewrite Hb. cbn. f_equal. apply IH.
  intros i Hi. replace (src + 1 + i) with (src + (1 + i)) by lia. apply H. cbn. lia.
Qed.
Lemma overlay_unmapped src dest : (∀ i, 0 <= i < length dest → memory (src + i) = None) → overlay memory src dest = dest.
Proof.
  revert src. induction dest as [|d l IH]; intros src H; [done|]. cbn. rewrite <- (Z.add_0_r src), H by (cbn; lia). cbn. f_equal. apply IH.
  intros i Hi. replace (src + 0 + 1 + i) with (src + (1 + i)) by lia. apply H. cbn. lia.
Qed.

Context (k : Z) (Hk : 0 <= k <= 16) (Hu : page_uniform k memory).
Let pageSize : Z := 2 ^ k.

(** A piece of one page. *)
Lemma page_piece cur end_ : 0 <= cur < end_ → end_ + pageSize < 2 ^ 64 → let n := next_copy pageSize cur end_ in
  0 < Z.of_nat n <= pageSize ∧ cur + n <= end_ ∧ ∀ i, 0 <= i < n → (cur + i) / pageSize = cur / pageSize.
Proof.
  intros Hc He. cbn zeta. unfold next_copy. pose proof (page_pos k ltac:(lia)) as Hp. fold pageSize in Hp. change (page_end_addr pageSize cur) with (GetCurrentPageEndAddr (2 ^ k) cur). rewrite page_end by (unfold pageSize in *; lia). fold pageSize.
  pose proof (Z.mod_pos_bound cur pageSize Hp). pose proof (Z.div_mod cur pageSize ltac:(lia)) as Hd. set (q := cur / pageSize) in *.
  rewrite wrap_small by (unfold fits; lia). split; [lia|]. split; [lia|]. intros i Hi. symmetry. apply (Z.div_unique _ _ _ (cur + i - pageSize * q)); [left|]; lia.
Qed.
Lemma piece_cases cur end_ b : 0 <= cur < end_ → end_ + pageSize < 2 ^ 64 → let n := next_copy pageSize cur end_ in length b = n →
  (∀ i, 0 <= i < n → is_Some (memory (cur + i))) ∨ memory cur = None ∧ overlay memory cur b = b.
Proof.
  intros Hc He n Hb. destruct (page_piece cur end_ Hc He) as (Hn & _ & Hsame). fold n in Hn, Hsame. destruct (memory cur) as [b0|] eqn:E.
  - left. intros i Hi. apply (Hu cur); [fold pageSize; symmetry; by apply Hsame|by rewrite E].
  - right. split; [done|]. apply overlay_unmapped. intros i Hi. rewrite Hb in Hi. destruct (memory (cur + i)) eqn:E2; [|done]. exfalso.
    destruct (Hu (cur + i) cur) as [? ?]; [fold pageSize; by apply Hsame|by rewrite E2|congruence].
Qed.
Lemma pipe_write_piece cur end_ : 0 <= cur < end_ → end_ + pageSize < 2 ^ 64 → let n := next_copy pageSize cur end_ in ∀ b, length b = n →
  pipe_write memory cur n [] = None ∧ overlay memory cur b = b ∨ ∃ bs, pipe_write memory cur n [] = Some bs ∧ length bs = n ∧ overlay memory cur b = bs.
Proof.
  intros Hc He n b Hb. destruct (page_piece cur end_ Hc He) as (Hn & _). fold n in Hn. destruct (piece_cases cur end_ b Hc He Hb) as [Hall|[E Ho]]; [fold n in Hall|].
  - right. exists (readable_bytes memory n cur). pose proof (readable_all memory n cur Hall) as Hl. split; [|split; [done|]]; [|rewrite <- Hb; apply overlay_mapped; by rewrite Hb]. unfold pipe_write.
    destruct (readable_bytes memory n cur) as [|x l] eqn:Er; [cbn in Hl; lia|]. rewrite (proj2 (Z.ltb_ge _ _)); [done|]. rewrite Hl. cbn [length]. unfold PIPE_CAPACITY. assert (pageSize <= 65536) by (unfold pageSize; change 65536 with (2 ^ 16); apply Z.pow_le_mono_r; lia). lia.
  - left. split; [|done]. unfold pipe_write. clearbody n. destruct n as [|m]; [lia|]. cbn. by rewrite E.
Qed.

Lemma safe_copy_loop_ok fuel : ∀ a b cur end_ total, 0 <= cur → cur + length b = end_ → end_ + pageSize < 2 ^ 64 → (length b < fuel)%nat →
  ∃ total', safe_copy_loop pageSize memory fuel (a ++ b) (length a) cur end_ total [] = Ret (a ++ overlay memory cur b, total', []).
Proof.
  induction fuel as [|fuel IH]; intros a b cur end_ total Hc He Hp Hf; [lia|]. cbn [safe_copy_loop]. destruct (Z.ltb_spec cur end_) as [Hlt|Hge]; cycle 1.
  { destruct b; cbn [length] in He; [|lia]. by exists total. }
  destruct (page_piece cur end_ ltac:(lia) Hp) as (Hn & Hle & _). set (n := next_copy pageSize cur end_) in *. assert (Hb1 : length (take n b) = n) by (rewrite length_take; lia).
  assert (Hw : ∃ bs, ReadableDataByPipe memory cur n [] = (bs, []) ∧ (length bs <= n)%nat ∧ patch (length a) bs (a ++ b) = a ++ overlay memory cur (take n b) ++ drop n b).
  { unfold ReadableDataByPipe. destruct (pipe_write_piece cur end_ ltac:(lia) Hp (take n b) Hb1) as [[E Ho]|(bs & E & Hl & Ho)]; fold n in E; rewrite E.
    - exists []. split; [done|]. split; [cbn; lia|]. unfold patch. cbn [length app]. rewrite Nat.add_0_r, take_drop, Ho. by rewrite take_drop.
    - exists bs. unfold pipe_read. split; [by rewrite take_ge, drop_ge by lia|]. split; [lia|]. rewrite Ho. rewrite <- (take_drop n b) at 1. apply patch_app. lia. }
  destruct Hw as (bs & -> & Hbl & Hpatch). rewrite poke_bytes_Ret by (rewrite length_app; lia). cbn [mbind outcome_mbind]. rewrite Hpatch, app_assoc. rewrite wrap_small by (unfold fits; lia).
  replace (length a + n)%nat with (length (a ++ overlay memory cur (take n b))) by (rewrite length_app, length_overlay; lia).
  destruct (IH (a ++ overlay memory cur (take n b)) (drop n b) (cur + n) end_ (total + length bs)%nat) as (total' & ->); [lia|rewrite length_drop; lia|done|rewrite length_drop; lia|].
  exists total'. do 3 f_equal. rewrite <- app_assoc. f_equal. rewrite <- (take_drop n b) at 3. by rewrite overlay_app, Hb1.
Qed.

(** What a copy of this many bytes gives. *)
Definition safe_bytes (src : Z) (dest : list Z) : list Z := match copy_range (length dest) src (length dest) with None => dest | Some _ => overlay memory src dest end.
Lemma length_safe_bytes src dest : length (safe_bytes src dest) = length dest.
Proof. unfold safe_bytes. destruct (copy_range _ _ _); [apply length_overlay|done]. Qed.
Lemma safe_copy_ok dest src : 0 <= src → src + length dest + pageSize < 2 ^ 64 ∨ 2 ^ 64 <= src + length dest →
  ∃ total, safe_CopyReadableBufSafe pageSize memory dest src (length dest) [] = Ret (safe_bytes src dest, total, []).
Proof.
  intros H0 Hs. unfold safe_CopyReadableBufSafe, safe_bytes. unfold copy_range. rewrite Z.min_id. destruct (src =? 0); [by eexists|]. pose proof (page_pos k ltac:(lia)) as Hp. fold pageSize in Hp.
  destruct (Z.leb_spec (2 ^ 64) (src + length dest)); [by eexists|]. apply (safe_copy_loop_ok (S (length dest)) [] dest src (src + length dest) 0); lia.
Qed.
End Copies.

(** ** The handlers fill the slots *)
Lemma concat_uniform_split (sz : nat) (ls : list (list Z)) p x : Forall (λ l, length l = sz) ls → ls !! p = Some x →
  concat ls = concat (take p ls) ++ x ++ concat (drop (S p) ls) ∧ length (concat (take p ls)) = (p * sz)%nat.
Proof.
  intros H Hp. split; [rewrite <- (take_drop_middle ls p x Hp) at 1; by rewrite concat_app|]. pose proof (lookup_lt_Some _ _ _ Hp) as Hl. clear Hp. revert p Hl. induction H as [|l ls Hl H IH]; intros p Hp; [cbn in Hp; lia|].
  destruct p as [|p]; [done|]. cbn [take concat length] in *. rewrite length_app, IH by lia. lia.
Qed.
Lemma concat_insert ls p (x x' : list Z) : ls !! p = Some x → concat (<[p := x']> ls) = concat (take p ls) ++ x' ++ concat (drop (S p) ls).
Proof. intros Hp. rewrite insert_take_drop by by eapply lookup_lt_Some. by rewrite concat_app. Qed.
Lemma filter_insert_length {A} (f : A → bool) l i x y : l !! i = Some y → f y = false → length (List.filter f (<[i := x]> l)) = (length (List.filter f l) + if f x then 1 else 0)%nat.
Proof.
  revert i. induction l as [|a l IH]; intros [|i] Hi Hy; cbn in Hi; try done.
  - injection Hi as ->. cbn. rewrite Hy. destruct (f x); cbn; lia.
  - change (<[S i := x]> (a :: l)) with (a :: <[i := x]> l). cbn [List.filter]. destruct (f a); cbn [length]; rewrite (IH i Hi Hy); lia.
Qed.

Lemma omap_seq {A} (l : list A) : ∀ k (f : nat → option A), (∀ i, (i < length l)%nat → f (k + i)%nat = l !! i) → omap f (seq k (length l)) = l.
Proof.
  induction l as [|x l IH]; intros k f H; [done|]. cbn [length seq]. pose proof (H O ltac:(cbn; lia)) as H0. rewrite Nat.add_0_r in H0. cbn [omap list_omap]. rewrite H0. cbn. f_equal.
  apply IH. intros i Hi. replace (S k + i)%nat with (k + S i)%nat by lia. rewrite H by (cbn; lia). done.
Qed.

Section HandlersRun.
Context (memory : Z → option Z) (k : Z) (Hk : 0 <= k <= 16) (Hu : page_uniform k memory).
Let pageSize : Z := 2 ^ k.
Context (threads : list lite_thread) (P : list Z) (total sent R : nat).
Let SZ : nat := THREAD_STACK_BUFFER_SIZE.

(** Threads whose description has the size of the structure, and whose stack is not at the end of the
    address space. *)
Record thread_ok (t : lite_thread) : Prop := {
  to_size : length (thread_request t) = sizeof_ThreadDumpRequest;
  to_sp : 0 <= uc_sp (lt_context t);
  to_end : uc_sp (lt_context t) + SZ + pageSize < 2 ^ 64
}.
Context (Hthreads : Forall thread_ok threads) (Hmax : (length threads <= MAX_DUMP_THREAD_NUM)%nat) (HR : R = (MAX_DUMP_THREAD_NUM * slot_size)%nat).

Definition full_slot (t : lite_thread) : list Z := thread_request t ++ safe_bytes memory (uc_sp (lt_context t)) (replicate SZ 0).
Definition part_slot (t : lite_thread) (j : nat) : list Z := thread_request t ++ overlay memory (uc_sp (lt_context t)) (replicate j 0) ++ replicate (SZ - j) 0.
Definition thread_slot (t : lite_thread) (ph : lite_phase) : list Z :=
  match ph with HWaiting | HStarted _ => replicate slot_size 0 | HCopy _ j | HPiped _ j _ => part_slot t j | HDone => full_slot t end.
Definition slot_of (phs : list lite_phase) (i : nat) : list Z :=
  match threads !! i, phs !! i with Some t, Some ph => thread_slot t ph | _, _ => replicate slot_size 0 end.
Definition is_done (ph : lite_phase) : bool := match ph with HDone => true | _ => false end.
Definition n_done (phs : list lite_phase) : nat := length (List.filter is_done phs).

(** The state in which the threads of [order] have started, in this order. *)
Definition slots_state (C : list Z) (order : list nat) (phs : list lite_phase) (pipe : list Z) : lite_globals :=
  mkLite (Some (P ++ C ++ concat (map (slot_of phs) order) ++ replicate (R - length order * slot_size) 0)) (length P) total sent (length order) (n_done phs) pipe.
Definition phase_ok (t : lite_thread) (p : nat) (ph : lite_phase) : Prop :=
  let sp := uc_sp (lt_context t) in
  match ph with
  | HWaiting => False
  | HStarted q => q = p
  | HCopy q j => q = p ∧ (j <= SZ)%nat ∧ (sp = 0 → j = O)
  | HPiped q j n => q = p ∧ (j < SZ)%nat ∧ sp ≠ 0 ∧ n = next_copy pageSize (sp + j) (sp + SZ)
  | HDone => True
  end.
Record slots_ok (order : list nat) (phs : list lite_phase) (pipe : list Z) : Prop := {
  sl_len : length phs = length threads;
  sl_nodup : NoDup order;
  sl_waiting i ph : phs !! i = Some ph → ph = HWaiting ↔ i ∉ order;
  sl_order i : i ∈ order → (i < length threads)%nat;
  sl_phase p i t ph : order !! p = Some i → threads !! i = Some t → phs !! i = Some ph → phase_ok t p ph;
  sl_empty : existsb is_piped phs = false → pipe = [];
  sl_piped i t q j n : threads !! i = Some t → phs !! i = Some (HPiped q j n) → pipe = overlay memory (uc_sp (lt_context t) + j) (replicate n 0);
  sl_one i i' q j n q' j' n' : phs !! i = Some (HPiped q j n) → phs !! i' = Some (HPiped q' j' n') → i = i'
}.

Lemma length_slot t ph : thread_ok t → (∀ q j, ph = HCopy q j → (j <= SZ)%nat) → (∀ q j n, ph = HPiped q j n → (j <= SZ)%nat) → length (thread_slot t ph) = slot_size.
Proof.
  intros [Ht _ _] H1 H2. rewrite slot_size_eq. destruct ph as [|q|q j|q j n|]; cbn [thread_slot]; rewrite ?length_replicate, ?slot_size_eq; try done; unfold part_slot, full_slot; rewrite !length_app, ?length_overlay, ?length_safe_bytes, ?length_replicate, Ht; fold SZ.
  - specialize (H1 q j eq_refl). lia.
  - specialize (H2 q j n eq_refl). lia.
  - lia.
Qed.
Lemma order_bound order phs pipe : slots_ok order phs pipe → (length order <= length threads)%nat.
Proof.
  intros H. transitivity (length (seq 0 (length threads))); [|by rewrite length_seq]. apply submseteq_length, NoDup_submseteq; [apply H|].
  intros i Hi. apply elem_of_seq. pose proof (sl_order _ _ _ H i Hi). lia.
Qed.
Lemma slots_uniform order phs pipe : slots_ok order phs pipe → Forall (λ l, length l = slot_size) (map (slot_of phs) order).
Proof.
  intros H. apply Forall_map, list.Forall_forall. intros i Hi. pose proof (sl_order _ _ _ H i Hi) as Hl. destruct (lookup_lt_is_Some_2 threads i Hl) as [t Ht].
  destruct (lookup_lt_is_Some_2 phs i) as [ph Hph]; [by rewrite (sl_len _ _ _ H)|]. unfold slot_of. rewrite Ht, Hph. apply list_elem_of_lookup in Hi as [p Hp]. pose proof (sl_phase _ _ _ H p i t ph Hp Ht Hph) as Ho.
  apply length_slot; [by eapply Forall_lookup_1|intros q j ->; cbn in Ho; lia|intros q j n ->; cbn in Ho; lia].
Qed.
Lemma length_slots order phs pipe : slots_ok order phs pipe → length (concat (map (slot_of phs) order)) = (length order * slot_size)%nat.
Proof. intros H. pose proof (slots_uniform _ _ _ H) as HF. rewrite <- (length_map (slot_of phs) order). induction HF as [|l ls Hl HF IH]; [done|]. cbn. rewrite length_app, IH. lia. Qed.

(** Replacing the phase of a thread replaces its slot. *)
Lemma slot_of_insert order phs pipe p i t ph : slots_ok order phs pipe → order !! p = Some i → threads !! i = Some t → map (slot_of (<[i := ph]> phs)) order = <[p := thread_slot t ph]> (map (slot_of phs) order).
Proof.
  intros H Hp Ht. apply list_eq. intros q. rewrite list_lookup_fmap. destruct (decide (q = p)) as [->|Hq].
  - rewrite Hp. cbn. rewrite list_lookup_insert_eq; [|rewrite length_map; by eapply lookup_lt_Some]. unfold slot_of. rewrite Ht, list_lookup_insert_eq; [done|]. rewrite (sl_len _ _ _ H). by eapply lookup_lt_Some.
  - rewrite list_lookup_insert_ne by done. rewrite list_lookup_fmap. destruct (order !! q) as [j|] eqn:Eq; [|done]. cbn. f_equal. unfold slot_of. rewrite list_lookup_insert_ne; [done|]. intros ->.
    apply Hq. eapply NoDup_lookup; [apply H|exact Eq|exact Hp].
Qed.

Lemma poke_slot C order phs pipe p i t ph ph' u v v' w : slots_ok order phs pipe → length C = 4%nat → order !! p = Some i → threads !! i = Some t → phs !! i = Some ph → thread_slot t ph = u ++ v ++ w → thread_slot t ph' = u ++ v' ++ w → length v = length v' →
  is_done ph = false → is_done ph' = false → ∀ pipe', poke_space (length P + 4 + p * slot_size + length u) v' (slots_state C order phs pipe') = Ret (slots_state C order (<[i := ph']> phs) pipe').
Proof.
  intros H HC Hp Ht Hph E E' Hv Hd Hd' pipe'. unfold poke_space, slots_state. cbn [g_mmapSpace]. assert (Hpl : map (slot_of phs) order !! p = Some (thread_slot t ph)) by (rewrite list_lookup_fmap, Hp; cbn; unfold slot_of; by rewrite Ht, Hph).
  destruct (concat_uniform_split slot_size _ p _ (slots_uniform _ _ _ H) Hpl) as [Hc Hl]. rewrite (slot_of_insert order phs pipe p i t ph' H Hp Ht), (concat_insert _ p _ (thread_slot t ph') Hpl). rewrite Hc, E, E'.
  set (A := concat (take p _)) in *. set (B := concat (drop (S p) _)). set (Z0 := replicate _ 0). rewrite poke_bytes_Ret by (rewrite !length_app; lia). cbn [mbind outcome_mbind]. unfold set_space. cbn [g_mmapPos g_totalMemorySize g_threadSentCount g_threadStartCount g_threadCompletedCount g_pipe].
  replace (n_done (<[i := ph']> phs)) with (n_done phs) by (unfold n_done; rewrite (filter_insert_length is_done phs i ph' ph Hph Hd), Hd'; lia). do 4 f_equal.
  rewrite (patch_app_eq _ (P ++ C ++ A ++ u) v v' (w ++ B ++ Z0)); [by rewrite <- !app_assoc|by rewrite <- !app_assoc|rewrite !length_app; lia|done].
Qed.

Lemma slots_ok_insert order phs pipe p i t ph ph' pipe' : slots_ok order phs pipe → order !! p = Some i → threads !! i = Some t → phs !! i = Some ph → phase_ok t p ph' →
  (existsb is_piped (<[i := ph']> phs) = false → pipe' = []) →
  (∀ i' t' q j n, threads !! i' = Some t' → <[i := ph']> phs !! i' = Some (HPiped q j n) → pipe' = overlay memory (uc_sp (lt_context t') + j) (replicate n 0)) →
  (∀ i1 i2 q1 j1 n1 q2 j2 n2, <[i := ph']> phs !! i1 = Some (HPiped q1 j1 n1) → <[i := ph']> phs !! i2 = Some (HPiped q2 j2 n2) → i1 = i2) →
  slots_ok order (<[i := ph']> phs) pipe'.
Proof.
  intros [A1 A2 A3 A4 A5 A6 A7 A8] Hp Ht Hph Hok H1 H2 H3. pose proof (list_elem_of_lookup_2 _ _ _ Hp) as Hin. pose proof (lookup_lt_Some _ _ _ Hph) as Hlt. split; try done.
  - by rewrite length_insert.
  - intros i' ph1. destruct (decide (i' = i)) as [->|Hne]; [|rewrite list_lookup_insert_ne by done; apply A3]. rewrite list_lookup_insert_eq by done. intros [= <-]. split; [intros ->; done|done].
  - intros p1 i1 t1 ph1 Hp1 Ht1. destruct (decide (i1 = i)) as [->|Hne]; [|rewrite list_lookup_insert_ne by done; by apply A5]. rewrite list_lookup_insert_eq by done. intros [= <-].
    rewrite Ht in Ht1. injection Ht1 as <-. by rewrite (NoDup_lookup order p1 p i A2 Hp1 Hp).
Qed.
Lemma no_piped phs i q j n : existsb is_piped phs = false → phs !! i = Some (HPiped q j n) → False.
Proof. intros H Hi. apply not_true_iff_false in H. apply H. apply existsb_exists. exists (HPiped q j n). split; [by eapply list_elem_of_In, list_elem_of_lookup_2|done]. Qed.
Lemma existsb_insert phs i ph : existsb is_piped phs = false → is_piped ph = false → existsb is_piped (<[i := ph]> phs) = false.
Proof.
  intros H Hp. apply not_true_iff_false. intros Hc. apply existsb_exists in Hc as (x & Hx & Hxp). apply list_elem_of_In, list_elem_of_lookup in Hx as [i' Hi']. apply list_lookup_insert_Some in Hi' as [(-> & -> & _)|[_ Hi']]; [congruence|].
  apply not_true_iff_false in H. apply H, existsb_exists. exists x. split; [by eapply list_elem_of_In, list_elem_of_lookup_2|done].
Qed.
(** A thread that neither had something in the pipe nor has. *)
Lemma slots_ok_quiet order phs pipe p i t ph ph' : slots_ok order phs pipe → order !! p = Some i → threads !! i = Some t → phs !! i = Some ph → phase_ok t p ph' → is_piped ph = false → is_piped ph' = false → slots_ok order (<[i := ph']> phs) pipe.
Proof.
  intros H Hp Ht Hph Hok H1 H2. pose proof (lookup_lt_Some _ _ _ Hph) as Hlt. assert (Hs : ∀ i' q j n, <[i := ph']> phs !! i' = Some (HPiped q j n) → phs !! i' = Some (HPiped q j n)).
  { intros i' q j n E. apply list_lookup_insert_Some in E as [(-> & -> & _)|[_ E]]; [done|done]. }
  apply (slots_ok_insert order phs pipe p i t ph); try done.
  - intros He. apply (sl_empty _ _ _ H). rewrite <- (list_insert_id phs i ph Hph), <- (list_insert_insert_eq phs i ph ph'). by apply existsb_insert.
  - intros i' t' q j n Ht' E. eapply (sl_piped _ _ _ H); [done|by apply Hs].
  - intros i1 i2 q1 j1 n1 q2 j2 n2 E1 E2. eapply (sl_one _ _ _ H); by apply Hs.
Qed.

Lemma slot_starts order phs pipe C i : slots_ok order phs pipe → phs !! i = Some HWaiting → length C = 4%nat →
  let phs' := <[i := HStarted (length order)]> phs in (length order < MAX_DUMP_THREAD_NUM)%nat ∧ slots_ok (order ++ [i]) phs' pipe ∧
  set_thread_counts sent (S (length order)) (n_done phs) (slots_state C order phs pipe) = slots_state C (order ++ [i]) phs' pipe.
Proof.
  intros H Hi HC. cbn zeta. pose proof (lookup_lt_Some _ _ _ Hi) as Hlt. assert (Hni : i ∉ order) by by apply (sl_waiting _ _ _ H i HWaiting Hi).
  assert (Hpipe : ∀ i' q j n, <[i := HStarted (length order)]> phs !! i' = Some (HPiped q j n) → phs !! i' = Some (HPiped q j n)) by (intros i' q j n E; apply list_lookup_insert_Some in E as [(-> & ? & _)|[_ E]]; done).
  assert (Hok : slots_ok (order ++ [i]) (<[i := HStarted (length order)]> phs) pipe).
  { destruct H as [A1 A2 A3 A4 A5 A6 A7 A8]. split.
    - by rewrite length_insert.
    - apply list.NoDup_app. split; [done|]. split; [|apply NoDup_singleton]. intros x Hx ->%list_elem_of_singleton. done.
    - intros i' ph1. rewrite not_elem_of_app. destruct (decide (i' = i)) as [->|Hne].
      + rewrite list_lookup_insert_eq by done. intros [= <-]. split; [done|]. intros [_ Hc]. exfalso. apply Hc. by apply list_elem_of_singleton.
      + rewrite list_lookup_insert_ne by done. intros E. rewrite (A3 _ _ E). split; [intros Hn; split; [done|]; by rewrite list_elem_of_singleton|by intros [? _]].
    - intros x [Hx| ->%list_elem_of_singleton]%elem_of_app; [by apply A4|lia].
    - intros p1 i1 t1 ph1 Hp1 Ht1. apply lookup_app_Some in Hp1 as [Hp1|[Hge Hp1]].
      + rewrite list_lookup_insert_ne; [by apply A5|]. intros ->. apply Hni. by eapply list_elem_of_lookup_2.
      + apply list_lookup_singleton_Some in Hp1 as [Hp0 <-]. rewrite list_lookup_insert_eq by done. intros [= <-]. cbn. lia.
    - intros He. apply A6. rewrite <- (list_insert_id phs i HWaiting Hi), <- (list_insert_insert_eq phs i HWaiting (HStarted (length order))). by apply existsb_insert.
    - intros i' t' q j n Ht' E. eapply A7; [done|by apply Hpipe].
    - intros i1 i2 q1 j1 n1 q2 j2 n2 E1 E2. eapply A8; by apply Hpipe. }
  pose proof (order_bound _ _ _ Hok) as Hb. rewrite length_app in Hb. cbn [length] in Hb. split; [lia|]. split; [done|]. unfold slots_state, set_thread_counts. cbn [g_mmapSpace g_mmapPos g_totalMemorySize g_pipe].
  replace (n_done (<[i := HStarted (length order)]> phs)) with (n_done phs) by (unfold n_done; rewrite (filter_insert_length is_done phs i _ HWaiting Hi) by done; cbn; lia).
  rewrite length_app. cbn [length]. rewrite Nat.add_1_r. do 4 f_equal. rewrite map_app, concat_app. cbn [map concat]. rewrite app_nil_r, <- app_assoc.
  assert (map (slot_of (<[i := HStarted (length order)]> phs)) order = map (slot_of phs) order) as ->.
  { apply map_ext_in. intros x Hx%list_elem_of_In. unfold slot_of. rewrite list_lookup_insert_ne; [done|]. intros ->. done. }
  f_equal. assert (Hsl : slot_of (<[i := HStarted (length order)]> phs) i = replicate slot_size 0) by (unfold slot_of; rewrite list_lookup_insert_eq by done; destruct (threads !! i); done). rewrite Hsl, <- replicate_add. f_equal.
  assert (S (length order) * slot_size <= R)%nat by (rewrite HR; apply Nat.mul_le_mono_r; lia). lia.
Qed.

Lemma part_slot_more t j n : (j + n <= SZ)%nat → part_slot t j = (thread_request t ++ overlay memory (uc_sp (lt_context t)) (replicate j 0)) ++ replicate n 0 ++ replicate (SZ - (j + n)) 0 ∧
  part_slot t (j + n) = (thread_request t ++ overlay memory (uc_sp (lt_context t)) (replicate j 0)) ++ overlay memory (uc_sp (lt_context t) + j) (replicate n 0) ++ replicate (SZ - (j + n)) 0.
Proof.
  intros H. unfold part_slot. split.
  - rewrite <- !app_assoc. do 2 f_equal. rewrite <- replicate_add. f_equal. lia.
  - rewrite replicate_add, overlay_app, length_replicate. by rewrite <- !app_assoc.
Qed.
Lemma stack_range t : thread_ok t → copy_range SZ (uc_sp (lt_context t)) SZ = if uc_sp (lt_context t) =? 0 then None else Some (uc_sp (lt_context t) + SZ).
Proof. intros [_ H1 H2]. unfold copy_range. destruct (_ =? 0); [done|]. rewrite Z.min_id. pose proof (page_pos k ltac:(lia)) as Hp. fold pageSize in Hp. by rewrite (proj2 (Z.leb_gt _ _)) by lia. Qed.
Lemma part_full t j : thread_ok t → uc_sp (lt_context t) = 0 ∧ j = O ∨ uc_sp (lt_context t) ≠ 0 ∧ j = SZ → part_slot t j = full_slot t.
Proof.
  intros Ht Hj. unfold part_slot, full_slot, safe_bytes. rewrite length_replicate, stack_range by done. destruct Hj as [[E ->]|[E ->]].
  - rewrite E. cbn [Z.eqb overlay replicate app]. by rewrite Nat.sub_0_r.
  - rewrite (proj2 (Z.eqb_neq _ _) E). by rewrite Nat.sub_diag, app_nil_r.
Qed.

(** A step leaves the slots in a state of the same form. *)
Definition step_ok (C : list Z) (order : list nat) (phs : list lite_phase) (pipe : list Z) (i : nat) (t : lite_thread) (ph : lite_phase) : Prop :=
  ∃ ph' order' pipe', handler_next pageSize memory t ph (slots_state C order phs pipe) = Ret (ph', slots_state C order' (<[i := ph']> phs) pipe') ∧ slots_ok order' (<[i := ph']> phs) pipe'.
Lemma started_ok C order phs pipe p i t q : slots_ok order phs pipe → length C = 4%nat → threads !! i = Some t → order !! p = Some i → phs !! i = Some (HStarted q) → 
  step_ok C order phs pipe i t (HStarted q).
Proof.
  intros H HC Ht Hp Hph. pose proof (Forall_lookup_1 _ _ _ _ Hthreads Ht) as Htok. pose proof (lookup_lt_Some _ _ _ Hph) as Hlt. pose proof (sl_phase _ _ _ H p i t _ Hp Ht Hph) as Hpo. unfold step_ok. set (sp := uc_sp (lt_context t)) in *. cbn [handler_next phase_ok] in *.
  subst q. cbn [slot_at slots_state g_mmapPos]. change (mkLite _ _ _ _ _ _ _) with (slots_state C order phs pipe). destruct Htok as [Hsz _ _].
  pose proof (poke_slot C order phs pipe p i t (HStarted p) (HCopy p 0) [] (replicate sizeof_ThreadDumpRequest 0) (thread_request t) (replicate SZ 0) H HC Hp Ht Hph) as E. cbn [length] in E. rewrite Nat.add_0_r in E.
  unfold slot_at. cbn [g_mmapPos slots_state]. rewrite E; [|cbn [thread_slot app]; rewrite <- replicate_add; by rewrite slot_size_eq|cbn [thread_slot]; unfold part_slot; cbn [replicate overlay app]; by rewrite Nat.sub_0_r|by rewrite length_replicate|done|done].
  cbn [mbind outcome_mbind]. exists (HCopy p 0), order, pipe. split; [done|]. apply (slots_ok_quiet order phs pipe p i t (HStarted p)); try done; cbn; lia.
Qed.
Lemma copy_ok C order phs pipe p i t q j : slots_ok order phs pipe → length C = 4%nat → threads !! i = Some t → order !! p = Some i → phs !! i = Some (HCopy q j) → existsb is_piped phs = false →
  step_ok C order phs pipe i t (HCopy q j).
Proof.
  intros H HC Ht Hp Hph. intros Hex. pose proof (Forall_lookup_1 _ _ _ _ Hthreads Ht) as Htok. pose proof (lookup_lt_Some _ _ _ Hph) as Hlt. pose proof (sl_phase _ _ _ H p i t _ Hp Ht Hph) as Hpo. unfold step_ok. set (sp := uc_sp (lt_context t)) in *. cbn [handler_next phase_ok] in *.
  destruct Hpo as (-> & Hj & Hj0). change (copy_range THREAD_STACK_BUFFER_SIZE (uc_sp (lt_context t)) THREAD_STACK_BUFFER_SIZE) with (copy_range SZ (uc_sp (lt_context t)) SZ). rewrite (stack_range t Htok). fold sp. assert (Hpipe : pipe = []) by by apply (sl_empty _ _ _ H). subst pipe.
  assert (Hfin : sp = 0 ∧ j = O ∨ sp ≠ 0 ∧ j = SZ → ∃ ph' order' pipe', Ret (HDone, set_thread_counts sent (length order) (S (n_done phs)) (slots_state C order phs [])) = Ret (ph', slots_state C order' (<[i := ph']> phs) pipe') ∧ slots_ok order' (<[i := ph']> phs) pipe').
  { intros Hc. exists HDone, order, []. split; [|apply (slots_ok_quiet order phs [] p i t (HCopy p j)); done]. unfold slots_state, set_thread_counts. cbn [g_mmapSpace g_mmapPos g_totalMemorySize g_pipe].
    replace (n_done (<[i := HDone]> phs)) with (S (n_done phs)) by (unfold n_done; rewrite (filter_insert_length is_done phs i HDone (HCopy p j) Hph) by done; cbn; lia). do 7 f_equal.
    f_equal. rewrite (slot_of_insert order phs [] p i t HDone H Hp Ht). symmetry. apply list_insert_id. rewrite list_lookup_fmap, Hp. cbn. unfold slot_of. rewrite Ht, Hph. cbn [thread_slot]. f_equal. by apply part_full. }
  change (g_threadSentCount (slots_state C order phs [])) with sent. change (g_threadStartCount (slots_state C order phs [])) with (length order). change (g_threadCompletedCount (slots_state C order phs [])) with (n_done phs). change (g_pipe (slots_state C order phs [])) with (@nil Z). destruct (Z.eqb_spec sp 0) as [E0|E0]; [apply Hfin; auto|].
  destruct Htok as [T1 T2 T3]. fold sp in T2, T3. pose proof (page_pos k ltac:(lia)) as Hpp. fold pageSize in Hpp. rewrite wrap_small by (unfold fits; lia). destruct (Z.ltb_spec (sp + j) (sp + SZ)) as [Hl|Hl]; [|apply Hfin; right; split; [done|lia]].
  destruct (page_piece k Hk (sp + j) (sp + SZ) ltac:(lia) T3) as (Hn1 & Hn2 & _). fold pageSize in Hn1, Hn2. set (n := next_copy pageSize (sp + j) (sp + SZ)) in *.
  destruct (part_slot_more t j n ltac:(lia)) as [Hs1 Hs2]. fold sp in Hs1, Hs2.
  destruct (pipe_write_piece memory k Hk Hu (sp + j) (sp + SZ) ltac:(lia) T3 (replicate n 0) ltac:(by rewrite length_replicate)) as [[E Ho]|(bs & E & Hbl & Ho)]; fold pageSize n in E; rewrite E.
  + exists (HCopy p (j + n)), order, []. rewrite <- (list_insert_id phs i (HCopy p j) Hph) at 1. split; [|apply (slots_ok_quiet order phs [] p i t (HCopy p j)); try done; cbn; fold sp; split; [done|split; [lia|done]]]. do 2 f_equal. unfold slots_state.
    unfold n_done. rewrite !(filter_insert_length is_done phs i _ (HCopy p j) Hph) by done. rewrite !(slot_of_insert order phs [] p i t _ H Hp Ht). do 5 f_equal. cbn [thread_slot]. by rewrite Hs1, Hs2, Ho.
  + exists (HPiped p j n), order, bs. split; [|].
    * rewrite <- (list_insert_id phs i (HCopy p j) Hph) at 1. do 2 f_equal. unfold slots_state, set_pipe. cbn [g_mmapSpace g_mmapPos g_totalMemorySize g_threadSentCount g_threadStartCount g_threadCompletedCount].
      unfold n_done. rewrite !(filter_insert_length is_done phs i _ (HCopy p j) Hph) by done. by rewrite !(slot_of_insert order phs [] p i t _ H Hp Ht).
    *  apply (slots_ok_insert order phs [] p i t (HCopy p j)); try done.
      -- cbn. fold sp. split; [done|]. split; [lia|]. done.
      -- intros Hc. exfalso. apply (no_piped (<[i := HPiped p j n]> phs) i p j n Hc). by apply list_lookup_insert_eq.
      -- intros i' t' q' j' n' Ht' E'. apply list_lookup_insert_Some in E' as [(-> & [= <- <- <-] & _)|[_ E']]; [|exfalso; by eapply (no_piped phs)]. rewrite Ht in Ht'. injection Ht' as <-. done.
      -- intros i1 i2 q1 j1 n1 q2 j2 n2 E1 E2. apply list_lookup_insert_Some in E1 as [(-> & _ & _)|[_ E1]]; [|exfalso; by eapply (no_piped phs)]. apply list_lookup_insert_Some in E2 as [(-> & _ & _)|[_ E2]]; [done|exfalso; by eapply (no_piped phs)].
Qed.
Lemma piped_ok C order phs pipe p i t q j n : slots_ok order phs pipe → length C = 4%nat → threads !! i = Some t → order !! p = Some i → phs !! i = Some (HPiped q j n) → 
  step_ok C order phs pipe i t (HPiped q j n).
Proof.
  intros H HC Ht Hp Hph. pose proof (Forall_lookup_1 _ _ _ _ Hthreads Ht) as Htok. pose proof (lookup_lt_Some _ _ _ Hph) as Hlt. pose proof (sl_phase _ _ _ H p i t _ Hp Ht Hph) as Hpo. unfold step_ok. set (sp := uc_sp (lt_context t)) in *. cbn [handler_next phase_ok] in *.
  destruct Hpo as (-> & Hj & E0 & Hn). fold sp in E0, Hn. pose proof (sl_piped _ _ _ H i t p j n Ht Hph) as Hpipe. fold sp in Hpipe. assert (Hpl : length pipe = n) by (rewrite Hpipe, length_overlay; apply length_replicate).
  cbn [slots_state g_pipe pipe_read]. rewrite take_ge, drop_ge by lia. destruct Htok as [T1 T2 T3]. fold sp in T2, T3. pose proof (page_pos k ltac:(lia)) as Hpp. fold pageSize in Hpp.
  destruct (page_piece k Hk (sp + j) (sp + SZ) ltac:(lia) T3) as (Hn1 & Hn2 & _). fold pageSize in Hn1, Hn2. rewrite <- Hn in Hn1, Hn2. destruct (part_slot_more t j n ltac:(lia)) as [Hs1 Hs2]. fold sp in Hs1, Hs2. rewrite <- Hpipe in Hs2.
  unfold slot_at. change (set_pipe [] _) with (slots_state C order phs []). change (g_mmapPos (slots_state C order phs pipe)) with (length P).
  pose proof (poke_slot C order phs pipe p i t (HPiped p j n) (HCopy p (j + n)) _ _ pipe _ H HC Hp Ht Hph Hs1 Hs2) as E. rewrite length_app, length_overlay, (length_replicate j), T1 in E.
  replace (length P + 4 + p * slot_size + sizeof_ThreadDumpRequest + j)%nat with (length P + 4 + p * slot_size + (sizeof_ThreadDumpRequest + j))%nat by lia. rewrite E by (done || by rewrite length_replicate). cbn [mbind outcome_mbind].
  exists (HCopy p (j + n)), order, []. split; [done|]. apply (slots_ok_insert order phs pipe p i t (HPiped p j n)); try done.
  + cbn. fold sp. split; [done|]. split; [lia|done].
  + intros i' t' q' j' n' Ht' E'. exfalso. apply list_lookup_insert_Some in E' as [(_ & ? & _)|[Hne E']]; [done|]. apply Hne. symmetry. by eapply (sl_one _ _ _ H).
  + intros i1 i2 q1 j1 n1 q2 j2 n2 E1 E2. exfalso. apply list_lookup_insert_Some in E1 as [(_ & ? & _)|[Hne E1]]; [done|]. apply Hne. symmetry. by eapply (sl_one _ _ _ H).
Qed.
(** One step; only a step that would use the pipe must find it unused. *)
Lemma handler_next_ok C order phs pipe i t ph : slots_ok order phs pipe → length C = 4%nat → threads !! i = Some t → phs !! i = Some ph → (∀ q j, ph = HCopy q j → existsb is_piped phs = false) → step_ok C order phs pipe i t ph.
Proof.
  intros H HC Ht Hph Hex. pose proof (sl_waiting _ _ _ H i ph Hph) as Hw. destruct (decide (ph = HWaiting)) as [->|Hnw].
  { destruct (slot_starts order phs pipe C i H Hph HC) as (Hb & Hok & E). unfold step_ok. cbn [handler_next g_threadStartCount slots_state g_threadSentCount g_threadCompletedCount]. change (mkLite _ _ _ _ _ _ _) with (slots_state C order phs pipe). rewrite E.
    rewrite (proj2 (Nat.leb_gt _ _)) by lia. by exists (HStarted (length order)), (order ++ [i]), pipe. }
  assert (Hin : i ∈ order) by (destruct (decide (i ∈ order)) as [|Hn]; [done|]; exfalso; by apply Hnw, Hw). apply list_elem_of_lookup in Hin as [p Hp].
  destruct ph as [|q|q j|q j n|]; [done|by eapply started_ok|by eapply copy_ok; eauto|by eapply piped_ok|]. exists HDone, order, pipe. by rewrite list_insert_id.
Qed.

Lemma run_handlers_ok C sched : length C = 4%nat → ∀ order phs pipe, slots_ok order phs pipe → exclusive pageSize memory threads sched phs (slots_state C order phs pipe) = true →
  ∃ order' phs' pipe', run_handlers pageSize memory threads sched phs (slots_state C order phs pipe) = Ret (phs', slots_state C order' phs' pipe') ∧ slots_ok order' phs' pipe'.
Proof.
  intros HC. induction sched as [|i sched IH]; intros order phs pipe H Hex; cbn [run_handlers exclusive] in *; [by exists order, phs, pipe|].
  destruct (threads !! i) as [t|] eqn:Ht; [|by apply IH]. destruct (phs !! i) as [ph|] eqn:Hph; [|by apply IH]. apply andb_true_iff in Hex as [H1 H2].
  destruct (handler_next_ok C order phs pipe i t ph H HC Ht Hph) as (ph' & order' & pipe' & E & H'); [intros q j ->; by apply negb_true_iff|]. rewrite E in H2 |- *. cbn [mbind outcome_mbind]. by apply IH.
Qed.
Lemma run_done C sched : ∀ phs g, Forall (λ ph, ph = HDone) phs → run_handlers pageSize memory threads sched phs (slots_state C g phs []) = Ret (phs, slots_state C g phs []).
Proof.
  induction sched as [|i sched IH]; intros phs g H; [done|]. cbn [run_handlers]. destruct (threads !! i) as [t|]; [|by apply IH]. destruct (phs !! i) as [ph|] eqn:E; [|by apply IH].
  pose proof (Forall_lookup_1 _ _ _ _ H E) as ->. cbn [handler_next mbind outcome_mbind]. rewrite list_insert_id by done. by apply IH.
Qed.

Lemma initial_ok : slots_ok [] (replicate (length threads) HWaiting) [].
Proof.
  assert (Hr : ∀ i ph, replicate (length threads) HWaiting !! i = Some ph → ph = HWaiting) by (intros i ph H; by apply lookup_replicate in H as [-> _]). split; try done.
  - apply length_replicate.
  - constructor.
  - intros i ph H. rewrite (Hr i ph H). split; [intros _; apply not_elem_of_nil|done].
  - intros i H. by apply not_elem_of_nil in H.
  - intros i t q j n _ H. by apply Hr in H.
  - intros i i' q j n q' j' n' H. by apply Hr in H.
Qed.
Lemma n_done_all phs : n_done phs = length phs → Forall (λ ph, ph = HDone) phs.
Proof.
  unfold n_done. induction phs as [|ph phs IH]; [constructor|]. cbn [List.filter length]. pose proof (List.filter_length_le is_done phs). destruct ph; cbn [is_done length]; intros H1; try lia. constructor; [done|]. apply IH. lia.
Qed.
(** The threads in the order of their slots. *)
Definition in_order (order : list nat) : list lite_thread := omap (λ i, threads !! i) order.
Lemma all_started order phs pipe : slots_ok order phs pipe → Forall (λ ph, ph = HDone) phs → in_order order ≡ₚ threads ∧ map (slot_of phs) order = map full_slot (in_order order).
Proof.
  intros H Hd. assert (Hall : ∀ i, i ∈ order ↔ (i < length threads)%nat).
  { intros i. split; [apply (sl_order _ _ _ H)|]. intros Hi. destruct (lookup_lt_is_Some_2 phs i) as [ph Hph]; [by rewrite (sl_len _ _ _ H)|]. destruct (decide (i ∈ order)) as [|Hn]; [done|]. apply (sl_waiting _ _ _ H i ph Hph) in Hn. pose proof (Forall_lookup_1 _ _ _ _ Hd Hph). congruence. }
  split.
  - assert (Hp : order ≡ₚ seq 0 (length threads)).
    { apply NoDup_Permutation; [apply H|apply NoDup_seq|]. intros i. rewrite Hall, elem_of_seq. lia. }
    unfold in_order. rewrite Hp. by rewrite (omap_seq threads 0 (λ i, threads !! i)) by done.
  - unfold in_order. assert (Hin : ∀ i, i ∈ order → (i < length threads)%nat) by (intros i; apply Hall). clear Hall. pose proof (sl_len _ _ _ H) as Hlen. clear H. induction order as [|i order IH]; [done|]. cbn.
    destruct (lookup_lt_is_Some_2 threads i (Hin i ltac:(left))) as [t Ht]. rewrite Ht. cbn. rewrite IH by (intros j Hj; apply Hin; by right). f_equal. unfold slot_of. rewrite Ht.
    destruct (lookup_lt_is_Some_2 phs i) as [ph Hph]; [rewrite Hlen; apply Hin; left|]. rewrite Hph. by rewrite (Forall_lookup_1 _ _ _ _ Hd Hph).
Qed.

(** Every thread that was signalled is through when the wait ends. *)
Definition completes (sched : list nat) (g : lite_globals) : bool :=
  match run_handlers pageSize memory threads sched (replicate (length threads) HWaiting) g with Ret (_, g) => waited g | _ => false end.

Lemma CollectOtherThreadStack_ok sched late a b c : sent = length threads →
  let g0 := mkLite (Some (P ++ replicate (4 + R) 0)) (length P) total sent 0 0 [] in
  exclusive pageSize memory threads sched (replicate (length threads) HWaiting) g0 = true → completes sched g0 = true →
  ∃ phs ts, CollectOtherThreadStack pageSize memory threads sched late (mkLite (Some (P ++ replicate (4 + R) 0)) (length P) total a b c []) =
      Ret (phs, mkLite (Some (P ++ le_bytes 4 (length threads) ++ concat (map full_slot ts) ++ replicate (R - length threads * slot_size) 0)) (length P) total sent (length threads) (length threads) []) ∧ ts ≡ₚ threads.
Proof.
  intros Hsent g0 Hex Hco. set (phs0 := replicate (length threads) HWaiting) in *. set (C := replicate 4 0). assert (Hn0 : n_done phs0 = O) by (unfold n_done, phs0; generalize (length threads); intros m; by induction m).
  assert (Eg : g0 = slots_state C [] phs0 []).
  { unfold g0, slots_state. cbn [map concat length app]. rewrite Hn0, Nat.mul_0_l, Nat.sub_0_r. unfold C. by rewrite <- replicate_add. }
  rewrite Eg in Hex. destruct (run_handlers_ok C sched eq_refl [] phs0 [] initial_ok Hex) as (order & phs & pipe & Er & Hok). unfold completes in Hco. fold phs0 in Hco. rewrite Eg, Er in Hco.
  unfold waited in Hco. cbn [slots_state g_threadSentCount g_threadCompletedCount] in Hco. apply Nat.leb_le in Hco. assert (Hle : (n_done phs <= length phs)%nat) by apply List.filter_length_le. pose proof (sl_len _ _ _ Hok) as Hlen.
  assert (Hdone : Forall (λ ph, ph = HDone) phs) by (apply n_done_all; lia). destruct (all_started order phs pipe Hok Hdone) as [Hperm Hslots]. assert (Hpipe : pipe = []).
  { apply (sl_empty _ _ _ Hok). apply not_true_iff_false. intros Hc. apply existsb_exists in Hc as (x & Hx & Hxp). rewrite list.Forall_forall in Hdone. rewrite (Hdone x) in Hxp by by apply list_elem_of_In. done. }
  subst pipe. assert (Hol : length order = length threads).
  { rewrite <- (length_map full_slot), <- (length_map (slot_of phs)) in *. rewrite Hslots, !length_map. by rewrite Hperm. }
  unfold CollectOtherThreadStack, InitSignalHandler, set_thread_counts. cbn [g_mmapSpace g_mmapPos g_totalMemorySize g_pipe]. replace (mkLite (Some (P ++ replicate (4 + R) 0)) (length P) total (length threads) 0 0 []) with g0 by (unfold g0; by rewrite Hsent). fold phs0. rewrite Eg, Er. cbn [mbind outcome_mbind]. unfold poke_space. cbn [slots_state g_mmapSpace g_mmapPos g_threadCompletedCount].
  assert (Hnd : n_done phs = length threads) by lia. rewrite Hnd. rewrite poke_bytes_Ret by (rewrite !length_app, length_le_bytes; cbn; lia). cbn [mbind outcome_mbind].
  rewrite (patch_app_eq (length P) P C (le_bytes 4 (length threads)) (concat (map (slot_of phs) order) ++ replicate (R - length order * slot_size) 0)); [|done|done|by rewrite length_le_bytes].
  unfold set_space. cbn [g_mmapPos g_totalMemorySize g_threadSentCount g_threadStartCount g_threadCompletedCount g_pipe].
  match goal with |- context [run_handlers _ _ _ _ _ ?g] => replace g with (slots_state (le_bytes 4 (length threads)) order phs []) by (unfold slots_state; by rewrite Hnd) end. rewrite run_done by done. exists phs, (in_order order). split; [|done]. unfold slots_state. rewrite Hslots, Hnd, Hol. done.
Qed.
End HandlersRun.

(** ** What is collected *)
Definition file_area (size : nat) (file : option (list Z)) : list Z := match file with None => replicate size 0 | Some c => fill size (take (size - 1) c) end.
Lemma length_file_area size file : length (file_area size file) = size.
Proof. destruct file; cbn; [apply length_fill|apply length_replicate]. Qed.
Lemma fill_short n bs : (length bs <= n)%nat → fill n bs = bs ++ replicate (n - length bs) 0.
Proof. intros H. unfold fill. by rewrite take_ge. Qed.
(** A zero where there is one. *)
Lemma poke_zero off (l : list Z) : l !! off = Some 0 → poke_bytes off [0] l = Ret l.
Proof.
  intros H. pose proof (lookup_lt_Some _ _ _ H). rewrite poke_bytes_Ret by (cbn; lia). f_equal. unfold patch. cbn [length]. rewrite Nat.add_1_r. by apply take_drop_middle.
Qed.
Lemma collect_file_at size file p n total a b c pipe : (0 < size <= n)%nat → (length p + size <= total)%nat →
  ∃ ok, collect_file size file (mkLite (Some (p ++ replicate n 0)) (length p) total a b c pipe) = Ret (ok, mkLite (Some ((p ++ file_area size file) ++ replicate (n - size) 0)) (length (p ++ file_area size file)) total a b c pipe).
Proof.
  intros Hs Ht. rewrite (length_app p), length_file_area. unfold collect_file. cbn [g_mmapSpace g_totalMemorySize g_mmapPos]. rewrite (proj2 (Nat.ltb_ge _ _)) by lia. destruct file as [content|]; cbn [file_area].
  - exists true. set (bs := take (size - 1) content). assert (Hb : (length bs <= size - 1)%nat) by (unfold bs; rewrite length_take; lia).
    rewrite poke_zero by (rewrite lookup_app_r by lia; apply lookup_replicate_2; lia). cbn [mbind outcome_mbind]. rewrite poke_bytes_Ret by (rewrite length_app, length_replicate; lia). cbn [mbind outcome_mbind].
    replace (replicate n 0) with (replicate (length bs) 0 ++ replicate (n - length bs) 0) by (rewrite <- replicate_add; f_equal; lia). rewrite patch_app by by rewrite length_replicate.
    assert (E : (match bs with [] => Ret (p ++ bs ++ replicate (n - length bs) 0) | _ => poke_bytes (length p + length bs) [0] (p ++ bs ++ replicate (n - length bs) 0) end) = Ret (p ++ bs ++ replicate (n - length bs) 0)).
    { destruct bs eqn:Eb; [done|]. rewrite <- Eb in *. apply poke_zero. rewrite lookup_app_r by lia. replace (length p + length bs - length p)%nat with (length bs) by lia. rewrite lookup_app_r by lia. rewrite Nat.sub_diag. apply lookup_replicate_2. lia. }
    rewrite E. cbn [mbind outcome_mbind]. unfold set_space, advance_pos. cbn [g_mmapSpace g_mmapPos g_totalMemorySize g_threadSentCount g_threadStartCount g_threadCompletedCount g_pipe]. do 4 f_equal.
    rewrite fill_short by lia. rewrite <- !app_assoc. do 2 f_equal. rewrite <- replicate_add. f_equal. lia.
  - exists false. unfold advance_pos. cbn [g_mmapSpace g_mmapPos g_totalMemorySize g_threadSentCount g_threadStartCount g_threadCompletedCount g_pipe]. do 4 f_equal. rewrite <- app_assoc. f_equal. rewrite <- replicate_add. f_equal. lia.
Qed.

Definition stack_src (context : list Z) : Z := u64 (uc_sp context - PRIV_STACK_FORWARD_BUF_SIZE).
Section CollectStacks.
Context (memory : Z → option Z) (k : Z) (Hk : 0 <= k <= 16) (Hu : page_uniform k memory).
Let pageSize : Z := 2 ^ k.
Context (context : list Z) (threads : list lite_thread) (sched late : list nat) (R : nat) (HR : R = (MAX_DUMP_THREAD_NUM * slot_size)%nat).
Lemma CollectStack_ok p tot x y z : let P := p ++ safe_bytes memory (stack_src context) (replicate PRIV_COPY_STACK_BUFFER_SIZE 0) in let g0 := mkLite (Some (P ++ replicate (4 + R) 0)) (length P) tot (length threads) 0 0 [] in
  (length p + PRIV_COPY_STACK_BUFFER_SIZE <= tot)%nat → stack_src context + PRIV_COPY_STACK_BUFFER_SIZE + pageSize < 2 ^ 64 ∨ 2 ^ 64 <= stack_src context + PRIV_COPY_STACK_BUFFER_SIZE →
  Forall (thread_ok k) threads → (length threads <= MAX_DUMP_THREAD_NUM)%nat → exclusive pageSize memory threads sched (replicate (length threads) HWaiting) g0 = true → completes memory k threads sched g0 = true →
  ∃ (phs : list lite_phase) ts a b c, ts ≡ₚ threads ∧ CollectStack pageSize memory context threads sched late (mkLite (Some (p ++ replicate (PRIV_COPY_STACK_BUFFER_SIZE + (4 + R)) 0)) (length p) tot x y z []) =
    Ret (true, mkLite (Some (P ++ le_bytes 4 (length threads) ++ concat (map (full_slot memory) ts) ++ replicate (R - length threads * slot_size) 0)) (length P) tot a b c []).
Proof.
  cbn zeta. intros Ht H2 H3 H4 H5 H6. unfold CollectStack. cbn [g_mmapSpace g_totalMemorySize g_mmapPos g_pipe]. rewrite (proj2 (Nat.ltb_ge _ _)) by lia. fold (stack_src context).
  generalize dependent PRIV_COPY_STACK_BUFFER_SIZE. intros SZ Ht H2 H5 H6. rewrite replicate_add. rewrite peek_Ret by (rewrite !length_app, !length_replicate; lia). cbn [mbind outcome_mbind].
  rewrite (slice_mid_eq (length p) SZ p (replicate SZ 0) (replicate (4 + R) 0)) by (done || by rewrite length_replicate).
  destruct (safe_copy_ok memory k Hk Hu (replicate SZ 0) (stack_src context)) as [n Ec]; [unfold stack_src; apply Z.mod_pos_bound; done|rewrite length_replicate; exact H2|]. fold pageSize in Ec. rewrite length_replicate in Ec. rewrite Ec. cbn [mbind outcome_mbind].
  rewrite poke_bytes_Ret by (rewrite !length_app, length_safe_bytes, !length_replicate; lia). cbn [mbind outcome_mbind]. rewrite patch_app by by rewrite length_safe_bytes. unfold DeInitPipe, set_space, set_pipe, advance_pos.
  cbn [g_mmapSpace g_mmapPos g_totalMemorySize g_threadSentCount g_threadStartCount g_threadCompletedCount g_pipe]. set (P' := p ++ safe_bytes memory (stack_src context) (replicate SZ 0)) in *. rewrite app_assoc. fold P'.
  replace (length p + SZ)%nat with (length P') by (unfold P'; rewrite length_app, length_safe_bytes, length_replicate; done).
  destruct (CollectOtherThreadStack_ok memory k Hk Hu threads P' tot (length threads) R H3 H4 HR sched late x y z eq_refl) as (phs & ts & Eo & Hp); [exact H5|exact H6|]. fold pageSize in Eo. rewrite Eo.
  cbn [mbind outcome_mbind]. unfold set_pipe. cbn [g_mmapSpace g_mmapPos g_totalMemorySize g_threadSentCount g_threadStartCount g_threadCompletedCount g_pipe]. by exists phs, ts, (length threads), (length threads), (length threads).
Qed.
End CollectStacks.

Section Collect.
Context (memory : Z → option Z) (k : Z) (Hk : 0 <= k <= 16) (Hu : page_uniform k memory).
Let pageSize : Z := 2 ^ k.
Context (stat statm : option (list Z)) (request : list Z) (threads : list lite_thread) (sched late : list nat).
Let context : list Z := request_context request.
(** The part before the slots. *)
Definition collected_head : list Z := file_area PROC_STAT_BUF_SIZE stat ++ file_area PROC_STATM_BUF_SIZE statm ++ safe_bytes memory (stack_src context) (replicate PRIV_COPY_STACK_BUFFER_SIZE 0).
Let P : list Z := collected_head.
Context (total R : nat) (HR : R = (MAX_DUMP_THREAD_NUM * slot_size)%nat) (Htotal : total = Z.to_nat (lite_mmapSize false)).
Definition before_handlers : lite_globals := mkLite (Some (P ++ replicate (4 + R) 0)) (length P) total (length threads) 0 0 [].

Record collect_ok : Prop := {
  co_type : request_type request = DUMP_TYPE_CPP_CRASH;
  co_sp : stack_src context + PRIV_COPY_STACK_BUFFER_SIZE + pageSize < 2 ^ 64 ∨ 2 ^ 64 <= stack_src context + PRIV_COPY_STACK_BUFFER_SIZE;
  co_threads : Forall (thread_ok k) threads;
  co_max : (length threads <= MAX_DUMP_THREAD_NUM)%nat;
  co_exclusive : exclusive pageSize memory threads sched (replicate (length threads) HWaiting) before_handlers = true;
  co_completes : completes memory k threads sched before_handlers = true
}.
Lemma length_head : length P = (PROC_STAT_BUF_SIZE + PROC_STATM_BUF_SIZE + PRIV_COPY_STACK_BUFFER_SIZE)%nat.
Proof. unfold P, collected_head. rewrite !length_app, !length_file_area, length_safe_bytes, length_replicate. lia. Qed.

Lemma lite_collect_ok g : collect_ok → g_pipe g = [] → ∃ ts a b c, ts ≡ₚ threads ∧ lite_collect pageSize memory true stat statm request threads sched late g =
  Ret (true, mkLite (Some (P ++ le_bytes 4 (length threads) ++ concat (map (full_slot memory) ts) ++ replicate (R - length threads * slot_size) 0)) (length P) total a b c []).
Proof.
  intros [H1 H2 H3 H4 H5 H6] Hg. destruct lite_sizes as (S1 & S2 & S3 & S4 & S5 & S6 & S7 & _). unfold lite_collect. rewrite H1. cbn [Z.eqb DUMP_TYPE_CPP_CRASH DUMP_TYPE_DUMP_CATCH]. unfold MMapMemoryOnce, ResetLiteDump.
  assert (Htot : lite_mmapSize false = PRIV_COPY_STACK_BUFFER_SIZE + 4 + MAX_DUMP_THREAD_NUM * slot_size + PROC_STAT_BUF_SIZE + PROC_STATM_BUF_SIZE) by done.
  change (0 =? 1) with false. rewrite (proj2 (Z.ltb_ge _ _)) by (rewrite Htot; lia). cbn [negb g_mmapPos g_threadSentCount g_threadStartCount g_threadCompletedCount g_pipe]. rewrite Hg, <- Htotal.
  assert (Hn : total = (PROC_STAT_BUF_SIZE + PROC_STATM_BUF_SIZE + PRIV_COPY_STACK_BUFFER_SIZE + (4 + R))%nat) by (rewrite Htotal, HR, Htot; lia).
  set (s1 := file_area PROC_STAT_BUF_SIZE stat). set (s2 := file_area PROC_STATM_BUF_SIZE statm). assert (L1 : length s1 = PROC_STAT_BUF_SIZE) by apply length_file_area. assert (L2 : length s2 = PROC_STATM_BUF_SIZE) by apply length_file_area.
  destruct (collect_file_at PROC_STAT_BUF_SIZE stat [] total total (g_threadSentCount g) (g_threadStartCount g) (g_threadCompletedCount g) []) as [ok1 E1]; [lia|cbn; lia|]. cbn [app length] in E1. fold s1 in E1.
  unfold CollectStat, CollectStatm. cbn [mbind outcome_mbind]. rewrite E1. cbn [mbind outcome_mbind]. rewrite L1.
  destruct (collect_file_at PROC_STATM_BUF_SIZE statm s1 (total - PROC_STAT_BUF_SIZE) total (g_threadSentCount g) (g_threadStartCount g) (g_threadCompletedCount g) []) as [ok2 E2]; [lia|rewrite L1; lia|]. fold s2 in E2. rewrite L1 in E2. rewrite E2. cbn [mbind outcome_mbind].
  assert (En : replicate (total - PROC_STAT_BUF_SIZE - PROC_STATM_BUF_SIZE) 0 = replicate (PRIV_COPY_STACK_BUFFER_SIZE + (4 + R)) 0) by (f_equal; lia). rewrite En. fold context.
  assert (EP : (s1 ++ s2) ++ safe_bytes memory (stack_src context) (replicate PRIV_COPY_STACK_BUFFER_SIZE 0) = P) by (unfold P, collected_head; fold s1 s2; by rewrite <- app_assoc).
  destruct (CollectStack_ok memory k Hk Hu context threads sched late R HR (s1 ++ s2) total (g_threadSentCount g) (g_threadStartCount g) (g_threadCompletedCount g)) as (phs & ts & a & b & c & Hp & E); [rewrite length_app; lia|exact H2|exact H3|exact H4|rewrite EP; exact H5|rewrite EP; exact H6|].
  fold pageSize in E. rewrite E. cbn [mbind outcome_mbind]. rewrite EP. exists ts, a, b, c. split; [exact Hp|reflexivity].
Qed.
End Collect.
