(* ===== verification/LiteRoundtrip.v ===== *)
(** * Lite dumps: what is written is what is read

    LiteDump writes a dump to a pipe and LiteReader reads it.  Here is what the writer puts into the
    pipe as one list of bytes, and that the reader gets every part of it back: the request, the texts
    of /proc, the stacks of all threads, the memory near the registers, the maps, the open files and
    the symbols. *)
From stdpp Require Import gmap.
From S2P Require Import Prelude Text Maps CoreBuffer CoreNotes ThreadContext LiteDump LiteReader.

(** ** The parts of the stream *)
Lemma LoopWritePipe_at buf rs out : calm rs → ∃ rs', LoopWritePipe buf (mkPipeWriter rs out) = Ret (true, mkPipeWriter rs' (out ++ buf)) ∧ calm rs'.
Proof. intros H. exact (LoopWritePipe_emits buf (mkPipeWriter rs out) H). Qed.
Lemma count_of_bytes (n : nat) : (n <= MAX_DUMP_THREAD_NUM)%nat → swrap 32 (of_le (le_bytes 4 n)) = n.
Proof.
  intros H. destruct lite_sizes as (_ & _ & S3 & _). rewrite of_le_le_bytes. change (8 * 4%nat) with 32. rewrite swrap_wrap. apply swrap_small; [lia|]. unfold sfits. lia.
Qed.
Lemma WriteStack_emits p n slots rest total a b c pipe : (n <= MAX_DUMP_THREAD_NUM)%nat → length slots = (n * slot_size)%nat →
  emits (WriteStack (mkLite (Some (p ++ le_bytes 4 n ++ slots ++ rest)) (length p) total a b c pipe)) true (p ++ le_bytes 4 n ++ slots).
Proof.
  intros Hn Hs. destruct lite_sizes as (_ & _ & S3 & _). pose proof (count_of_bytes n Hn) as Hw.
  unfold WriteStack. cbn [g_mmapSpace g_mmapPos]. rewrite peek_Ret by (rewrite length_app; lia). cbn [mbind outcome_mbind].
  rewrite (slice_mid_eq 0 (length p) [] p (le_bytes 4 n ++ slots ++ rest)) by done.
  eapply emits_bind; [apply LoopWritePipe_emits| |intros w; cbn [negb]; reflexivity]. unfold WriteOtherThreadStack. cbn [g_mmapSpace g_mmapPos].
  rewrite peek_Ret by (rewrite !length_app, length_le_bytes; lia). rewrite (slice_mid_eq (length p) 4 p (le_bytes 4 n) (slots ++ rest)) by (done || by rewrite length_le_bytes). cbn [mbind outcome_mbind]. rewrite Hw.
  rewrite (proj2 (Z.ltb_ge _ _)), (proj2 (Z.ltb_ge _ _)) by lia. cbn [orb]. rewrite Nat2Z.id.
  rewrite peek_Ret by (rewrite !length_app, length_le_bytes; lia). rewrite (slice_mid_eq (length p) _ p (le_bytes 4 n ++ slots) rest); [|by rewrite <- app_assoc|done|rewrite length_app, length_le_bytes; lia].
  apply LoopWritePipe_emits.
Qed.

Section Parts.
Context (memory : Z → option Z) (k : Z) (Hk : 0 <= k <= 16) (Hu : page_uniform k memory).
Let pageSize : Z := 2 ^ k.

(** *** The memory near a register *)
Definition near_start (isPcLr : bool) (r : Z) : Z := u64 (Z.land (Z.land r pacMaskDefault) (u64 (Z.lnot 7)) - mem_forward isPcLr * 8).
Definition near_block (reg : bool * Z) : list Z := safe_bytes memory (near_start reg.1 reg.2) (replicate (mem_count reg.1 * 8) 255).
Lemma length_near_block reg : length (near_block reg) = (mem_count reg.1 * 8)%nat.
Proof. unfold near_block. by rewrite length_safe_bytes, length_replicate. Qed.
(** A register is masked, so a block starts low or just below the end of the address space. *)
Lemma near_range isPcLr r : let a := near_start isPcLr r in 0 <= a ∧ (a + Z.of_nat (mem_count isPcLr * 8) + pageSize < 2 ^ 64 ∨ 2 ^ 64 <= a + Z.of_nat (mem_count isPcLr * 8)).
Proof.
  cbn zeta. unfold near_start. set (m := Z.land (Z.land r pacMaskDefault) _). assert (Hm : 0 <= m < 2 ^ 39).
  { unfold m. rewrite (Z.land_comm r), <- Z.land_assoc. change pacMaskDefault with (Z.ones 39). rewrite Z.land_comm, Z.land_ones by lia. apply Z.mod_pos_bound. lia. }
  clearbody m. assert (Hp : pageSize <= 65536) by (unfold pageSize; change 65536 with (2 ^ 16); apply Z.pow_le_mono_r; lia). split; [apply Z.mod_pos_bound; done|].
  assert (Hf : 0 <= mem_forward isPcLr * 8 <= Z.of_nat (mem_count isPcLr * 8) ∧ Z.of_nat (mem_count isPcLr * 8) <= 512) by (destruct isPcLr; vm_compute; by repeat split).
  destruct (Z.le_gt_cases (mem_forward isPcLr * 8) m) as [Hle|Hgt].
  - left. rewrite wrap_small by (unfold fits; lia). lia.
  - right. replace (u64 (m - mem_forward isPcLr * 8)) with (2 ^ 64 + (m - mem_forward isPcLr * 8)); [lia|]. unfold wrap. apply (Z.mod_unique _ _ (-1)); lia.
Qed.

Lemma CreateMemoryBlock_emits isPcLr r : emits (CreateMemoryBlock pageSize memory true isPcLr (Z.land r pacMaskDefault)) true (near_block (isPcLr, r)).
Proof.
  destruct (near_range isPcLr r) as [H0 H1]. unfold CreateMemoryBlock. cbn [negb]. fold (near_start isPcLr r). unfold near_block. cbn [fst snd].
  set (n := (mem_count isPcLr * 8)%nat) in *. destruct (safe_copy_ok memory k Hk Hu (replicate n 255) (near_start isPcLr r) H0) as [t E]; [by rewrite length_replicate|]. fold pageSize in E. rewrite length_replicate in E. rewrite E. cbn [mbind outcome_mbind].
  intros w Hw. destruct (LoopWritePipe_emits (safe_bytes memory (near_start isPcLr r) (replicate n 255)) w Hw) as (rs & -> & H2). by exists rs.
Qed.
Lemma write_blocks_ok regs : ∀ mapped w, Forall (λ b, b = true) mapped → calm (pw_results w) →
  ∃ rs, write_blocks pageSize memory mapped regs w = Ret (mkPipeWriter rs (pw_out w ++ concat (map near_block regs))) ∧ calm rs.
Proof.
  induction regs as [|[isPcLr r] regs IH]; intros mapped w Hm Hw; cbn [write_blocks map concat].
  - exists (pw_results w). rewrite app_nil_r. by destruct w.
  - assert (Hh : default true (head mapped) = true ∧ Forall (λ b, b = true) (tail mapped)) by (destruct Hm; split; done). destruct Hh as [-> Ht].
    destruct (CreateMemoryBlock_emits isPcLr r w Hw) as (rs & -> & H1). cbn [mbind outcome_mbind]. destruct (IH (tail mapped) (mkPipeWriter rs (pw_out w ++ near_block (isPcLr, r))) Ht H1) as (rs2 & -> & H2).
    exists rs2. cbn [pw_out]. by rewrite app_assoc.
Qed.
Lemma CollectMemoryNearRegisters_emits mapped context : Forall (λ b, b = true) mapped →
  emits (CollectMemoryNearRegisters pageSize memory mapped context) true (start_tag ++ concat (map near_block (near_registers context)) ++ end_tag).
Proof.
  intros Hm. unfold CollectMemoryNearRegisters. eapply emits_bind; [apply LoopWritePipe_emits| |intros w; cbn [negb]; reflexivity]. intros w Hw.
  destruct (write_blocks_ok (near_registers context) mapped w Hm Hw) as (rs & -> & H1). cbn [mbind outcome_mbind]. destruct (LoopWritePipe_at end_tag rs (pw_out w ++ concat (map near_block (near_registers context))) H1) as (rs2 & -> & H2).
  exists rs2. by rewrite <- app_assoc.
Qed.
End Parts.

(** *** The maps *)
Lemma FindArkWebJitSymbol_Ret s : NUL ∈ s → ∃ r, FindArkWebJitSymbol s = Ret r.
Proof.
  intros H. unfold FindArkWebJitSymbol. assert (existsb (Ascii.eqb NUL) s = true) as ->; [|destruct (find_sub _ _); [|by eexists]; destruct (rfind_from _ _ _ _); by eexists].
  apply existsb_exists. exists NUL. split; [by apply list_elem_of_In|apply Ascii.eqb_refl].
Qed.
(** The array on the stack is terminated: nothing is ever put into its last byte. *)
Definition terminated (buf : list Z) : Prop := length buf = LINE_BUF_SIZE ∧ buf !! (LINE_BUF_SIZE - 1)%nat = Some 0.
Lemma terminated_patch buf chunk : terminated buf → (length chunk <= LINE_BUF_SIZE - 1)%nat → poke_bytes 0 chunk buf = Ret (patch 0 chunk buf) ∧ terminated (patch 0 chunk buf).
Proof.
  intros [Hl Hz] Hc. destruct lite_sizes as (_ & _ & _ & _ & _ & _ & _ & S8 & _). rewrite poke_bytes_Ret by lia. split; [done|]. unfold patch. rewrite take_0, app_nil_l. split.
  - rewrite !length_app, length_drop. cbn [length]. lia.
  - change (0 + length chunk)%nat with (length chunk). rewrite lookup_app_r by lia. rewrite lookup_drop. replace (length chunk + _)%nat with (LINE_BUF_SIZE - 1)%nat by lia. done.
Qed.
Lemma terminated_NUL buf : terminated buf → NUL ∈ map chr buf.
Proof. intros [_ H]. apply list_elem_of_lookup. exists (LINE_BUF_SIZE - 1)%nat. by rewrite list_lookup_fmap, H. Qed.

Lemma maps_loop_emits reads : Forall (λ c, (length c <= LINE_BUF_SIZE - 1)%nat) reads → ∀ buf remain addr, terminated buf → ∃ addr', emits (maps_loop reads buf remain addr) (true, addr') (concat reads).
Proof.
  induction 1 as [|chunk reads Hc _ IH]; intros buf remain addr Hb.
  { exists addr. intros w Hw. destruct (emits_ret (true, addr) w Hw) as (rs & E & H). by exists rs. }
  destruct (terminated_patch buf chunk Hb Hc) as [Ep Hb']. set (buf' := patch 0 chunk buf) in *. cbn [concat].
  destruct (FindArkWebJitSymbol_Ret (map chr buf') (terminated_NUL _ Hb')) as [r1 E1].
  destruct (FindArkWebJitSymbol_Ret ((remain ++ take (REMAIN_BUF_LEN - 1) (c_str (map chr buf'))) ++ [NUL])) as [r2 E2]; [apply elem_of_app; right; by apply list_elem_of_singleton|].
  assert (Hnext : ∃ remain' addr1, ∀ w, (if negb (addr =? 0) then maps_loop reads buf' remain addr w
    else r ← FindArkWebJitSymbol (map chr buf'); r ← match r with Some _ => Ret r | None => FindArkWebJitSymbol ((remain ++ take (REMAIN_BUF_LEN - 1) (c_str (map chr buf'))) ++ [NUL]) end;
      match r with Some a => maps_loop reads buf' remain a w
      | None => maps_loop reads buf' (c_str (if (0 <? length chunk - (REMAIN_BUF_LEN - 1))%nat then take (REMAIN_BUF_LEN - 1) (drop (length chunk - (REMAIN_BUF_LEN - 1)) (map chr buf')) else take (length chunk) (map chr buf'))) addr w end)
    = maps_loop reads buf' remain' addr1 w).
  { destruct (negb (addr =? 0)); [by exists remain, addr|]. rewrite E1. cbn [mbind outcome_mbind]. destruct r1 as [a|]; cbn [mbind outcome_mbind]; [by exists remain, a|]. rewrite E2. cbn [mbind outcome_mbind]. destruct r2 as [a|]; [by exists remain, a|]. by eexists _, addr. }
  destruct Hnext as (remain' & addr1 & Hn). destruct (IH buf' remain' addr1 Hb') as [addr' He]. exists addr'.
  eapply emits_ext; [intros w; cbn [maps_loop]; rewrite Ep; cbn [mbind outcome_mbind]; reflexivity|]. eapply emits_bind; [apply LoopWritePipe_emits|exact He|]. intros w. cbn [negb]. apply Hn.
Qed.
Lemma CollectMaps_emits reads junk : Forall (λ c, (length c <= LINE_BUF_SIZE - 1)%nat) reads → terminated junk → ∃ addr, emits (CollectMaps (Some reads) junk) (true, addr) (concat reads ++ text_bytes mapEndFlag).
Proof.
  intros Hr Hj. destruct (maps_loop_emits reads Hr junk [] 0 Hj) as [addr He]. exists addr. cbn [CollectMaps]. eapply emits_bind; [exact He| |intros w; cbn [negb]; reflexivity].
  intros w Hw. destruct (LoopWritePipe_emits (text_bytes mapEndFlag) w Hw) as (rs & -> & H). by exists rs.
Qed.

(** *** The open files *)
Lemma text_bytes_app s t : text_bytes (s ++ t) = text_bytes s ++ text_bytes t.
Proof. apply map_app. Qed.
Section OpenFiles.
Context (pageSize : Z) (memory : Z → option Z) (tag_type : Z → list ascii) (tag_value : Z → Z).

(** The descriptor and the line of an entry that has them. *)
Definition open_item (owners : list Z) (entry : list ascii * option (list ascii)) : option (Z * list ascii) :=
  target ← entry.2; fd ← SafeStrtol entry.1;
  tag ← (if fd <? 0 then None else owners !! Z.to_nat fd);
  Some (fd, take 511 (file_item tag_type tag_value fd (take 255 target) tag)).
Definition open_items (owners : list Z) (entries : list (list ascii * option (list ascii))) : list (Z * list ascii) := omap (open_item owners) entries.
Lemma open_item_dots owners target : open_item owners (lit ".", target) = None ∧ open_item owners (lit "..", target) = None.
Proof. by destruct target. Qed.

Lemma WriteFileItems_ok owners entries : ∀ w, calm (pw_results w) →
  ∃ rs, WriteFileItems tag_type tag_value entries owners w = Ret (mkPipeWriter rs (pw_out w ++ text_bytes (concat (map snd (open_items owners entries))))) ∧ calm rs.
Proof.
  induction entries as [|[name target] entries IH]; intros w Hw; cbn [WriteFileItems open_items omap list_omap].
  { exists (pw_results w). cbn. rewrite app_nil_r. by destruct w. }
  fold (open_items owners entries). assert (Hdot : bool_decide (name = lit ".") || bool_decide (name = lit "..") = true → open_item owners (name, target) = None).
  { intros H. destruct (open_item_dots owners target) as [H1 H2]. apply orb_true_iff in H as [H|H]; apply bool_decide_eq_true in H; by rewrite H. }
  destruct (bool_decide (name = lit ".") || bool_decide (name = lit "..")); [rewrite Hdot by done; by apply IH|]. clear Hdot. unfold open_item at 1. cbn [fst snd].
  destruct target as [target|]; [|by apply IH]. cbn [mbind option_bind]. destruct (SafeStrtol name) as [fd|]; [|by apply IH]. cbn [mbind option_bind].
  destruct (if fd <? 0 then None else owners !! Z.to_nat fd) as [tag|]; [|by apply IH]. cbn [mbind option_bind map concat snd].
  set (item := take 511 _). destruct (LoopWritePipe_emits (text_bytes item) w Hw) as (rs & -> & H1). cbn [mbind outcome_mbind]. destruct (IH (mkPipeWriter rs (pw_out w ++ text_bytes item)) H1) as (rs2 & -> & H2).
  exists rs2. cbn [pw_out]. unfold text_bytes. by rewrite map_app, app_assoc.
Qed.
Lemma CollectOpenFiles_emits m1 m2 entries fdTableAddr fe oe : FillFdsaninfo pageSize memory m1 m2 fdTableAddr = Ret (fe, oe) →
  emits (CollectOpenFiles pageSize memory tag_type tag_value m1 m2 true (Some entries) fdTableAddr) true
    (text_bytes (open_tag ++ concat (map snd (open_items (FillFdsanOwner fe oe) entries)) ++ open_end_tag)).
Proof.
  intros HF. unfold CollectOpenFiles. rewrite !text_bytes_app. eapply emits_bind; [apply LoopWritePipe_emits| |intros w; cbn [negb]; rewrite HF; cbn [mbind outcome_mbind]; reflexivity].
  intros w Hw. cbn [negb]. destruct (WriteFileItems_ok (FillFdsanOwner fe oe) entries w Hw) as (rs & -> & H1). cbn [mbind outcome_mbind].
  match goal with |- context [mkPipeWriter rs ?out] => destruct (LoopWritePipe_at (text_bytes open_end_tag) rs out H1) as (rs2 & -> & H2) end. exists rs2. by rewrite <- app_assoc.
Qed.
End OpenFiles.

(** *** The symbols *)
Definition jit_bytes (memory : Z → option Z) (addr : Z) : list Z := if addr =? 0 then [] else readable_bytes memory ARKWEB_JIT_SYMBOL_BUF_SIZE addr.
Lemma CollectArkWebJitSymbol_emits memory addr : ∃ ok, emits (CollectArkWebJitSymbol memory addr) ok (jit_bytes memory addr).
Proof.
  unfold CollectArkWebJitSymbol, jit_bytes. destruct (addr =? 0); [exists false; apply emits_ret|]. set (bs := readable_bytes _ _ _). exists (length bs =? ARKWEB_JIT_SYMBOL_BUF_SIZE)%nat.
  intros w Hw. destruct (LoopWritePipe_emits bs w Hw) as (rs & -> & H). by exists rs.
Qed.

(** ** All of it *)
Section Stream.
Context (memory : Z → option Z) (k : Z) (Hk : 0 <= k <= 16) (Hu : page_uniform k memory) (tag_type : Z → list ascii) (tag_value : Z → Z).
Let pageSize : Z := 2 ^ k.

(** Mappings succeed, the files can be opened, reads fit the array. *)
Record lite_env_ok (env : lite_env) (reads : list (list Z)) (entries : list (list ascii * option (list ascii))) (owners : list Z) : Prop := {
  eo_blocks : Forall (λ b, b = true) (le_blocks env);
  eo_maps : le_maps env = Some reads;
  eo_reads : Forall (λ c, (length c <= LINE_BUF_SIZE - 1)%nat) reads;
  eo_junk : terminated (le_junk env);
  eo_dir : le_dir env = Some entries;
  eo_m3 : le_m3 env = true;
  eo_table : ∃ fe oe, FillFdsaninfo pageSize memory (le_m1 env) (le_m2 env) (le_fdTable env) = Ret (fe, oe) ∧ owners = FillFdsanOwner fe oe
}.
Definition raw_bytes (reads : list (list Z)) (items : list (Z * list ascii)) (addr : Z) : list Z :=
  concat reads ++ text_bytes mapEndFlag ++ text_bytes (open_tag ++ concat (map snd items) ++ open_end_tag) ++ jit_bytes memory addr.
Definition near_bytes (context : list Z) : list Z := start_tag ++ concat (map (near_block memory) (near_registers context)) ++ end_tag.
Definition lite_stream (request collected near raw : list Z) : list Z := request ++ collected ++ near ++ raw.

Lemma LiteCrashHandler_emits env reads entries owners request p (n : nat) slots rest total a b c pipe : lite_env_ok env reads entries owners → request_type request = DUMP_TYPE_CPP_CRASH →
  (n <= MAX_DUMP_THREAD_NUM)%nat → length slots = (n * slot_size)%nat →
  ∃ addr ok, emits (LiteCrashHandler pageSize memory tag_type tag_value env request (mkLite (Some (p ++ le_bytes 4 n ++ slots ++ rest)) (length p) total a b c pipe)) ok
    (lite_stream request (p ++ le_bytes 4 n ++ slots) (near_bytes (request_context request)) (raw_bytes reads (open_items tag_type tag_value owners entries) addr)).
Proof.
  intros [E1 E2 E3 E4 E5 E6 (fe & oe & E7 & ->)] Ht Hn Hs. destruct (CollectMaps_emits reads (le_junk env) E3 E4) as [addr HM]. destruct (CollectArkWebJitSymbol_emits memory addr) as [ok HJ]. exists addr, ok.
  unfold lite_stream, LiteCrashHandler. rewrite Ht, E2, E5, E6. change (DUMP_TYPE_CPP_CRASH =? DUMP_TYPE_DUMP_CATCH) with false.
  eapply emits_bind; [apply LoopWritePipe_emits| |intros w; cbn [negb]; reflexivity].
  eapply emits_bind; [by apply WriteStack_emits| |intros w; cbn [negb]; reflexivity].
  eapply emits_bind; [by apply CollectMemoryNearRegisters_emits| |intros w; cbn [negb]; reflexivity].
  unfold raw_bytes. rewrite app_assoc. eapply emits_bind; [exact HM| |intros w; cbn [negb]; reflexivity].
  eapply emits_bind; [by apply CollectOpenFiles_emits|exact HJ|intros w; cbn [negb]; reflexivity].
Qed.
End Stream.

(** ** Reading it *)
Lemma c_str_zeros s n : (0 < n)%nat → c_str (s ++ replicate n NUL) = c_str s.
Proof. intros Hn. induction s as [|c s IH]; cbn [app c_str]; [by destruct n; [lia|]|]. destruct (Ascii.eqb c NUL); [done|]. by rewrite IH. Qed.
Lemma fmap_replicate_chr n z : map chr (replicate n z) = replicate n (chr z).
Proof. apply fmap_replicate. Qed.
Lemma patch_zero off (l : list Z) : l !! off = Some 0 → patch off [0] l = l.
Proof. intros H. unfold patch. cbn [length app]. rewrite Nat.add_1_r. by apply take_drop_middle. Qed.
(** The text of a file in its buffer. *)
Definition file_text (size : nat) (file : option (list Z)) : list ascii := match file with None => [] | Some c => c_str (map chr (take (size - 1) c)) end.
Lemma file_area_text size file : (0 < size)%nat → c_str (map chr (patch (size - 1) [0] (file_area size file))) = file_text size file.
Proof.
  intros Hs. destruct file as [c|]; cbn [file_area file_text].
  - assert (Hl : (length (take (size - 1) c) <= size - 1)%nat) by (rewrite length_take; lia). set (bs := take (size - 1) c) in *. rewrite fill_short by lia.
    rewrite patch_zero by (rewrite lookup_app_r by lia; apply lookup_replicate_2; lia). rewrite map_app, fmap_replicate_chr. change (chr 0) with NUL. apply c_str_zeros. lia.
  - rewrite patch_zero by (apply lookup_replicate_2; lia). rewrite fmap_replicate_chr. change (chr 0) with NUL. apply (c_str_zeros [] size). lia.
Qed.
Lemma read_text_ok size file rest rs : (0 < size)%nat → calm rs → ∃ rs', read_text size (mkPipeReader rs (file_area size file ++ rest)) = Ret (Some (file_text size file), mkPipeReader rs' rest) ∧ calm rs'.
Proof.
  intros Hs Hc. unfold read_text. destruct (LoopReadPipe_ok size (file_area size file) rest rs (length_file_area _ _) Hc) as (rs' & -> & H). cbn [mbind outcome_mbind]. exists rs'. by rewrite file_area_text.
Qed.

Section Reading.
Context (memory : Z → option Z).
Definition thread_read (t : lite_thread) : list Z * list Z := (terminate off_thread_name (thread_request t), safe_bytes memory (uc_sp (lt_context t)) (replicate THREAD_STACK_BUFFER_SIZE 0)).
Lemma read_threads_ok ts : Forall (λ t, length (thread_request t) = sizeof_ThreadDumpRequest) ts → ∀ acc rest rs, calm rs →
  ∃ rs', read_threads (length ts) acc (mkPipeReader rs (concat (map (full_slot memory) ts) ++ rest)) = Ret (true, acc ++ map thread_read ts, mkPipeReader rs' rest) ∧ calm rs'.
Proof.
  induction 1 as [|t ts Ht _ IH]; intros acc rest rs Hc; cbn [length read_threads map concat]; [exists rs; by rewrite app_nil_r|].
  unfold full_slot at 1. rewrite <- !app_assoc. destruct (LoopReadPipe_ok sizeof_ThreadDumpRequest (thread_request t) (safe_bytes memory (uc_sp (lt_context t)) (replicate THREAD_STACK_BUFFER_SIZE 0) ++ concat (map (full_slot memory) ts) ++ rest) rs Ht Hc) as (rs1 & -> & H1). cbn [mbind outcome_mbind negb].
  destruct (LoopReadPipe_ok THREAD_STACK_BUFFER_SIZE (safe_bytes memory (uc_sp (lt_context t)) (replicate THREAD_STACK_BUFFER_SIZE 0)) (concat (map (full_slot memory) ts) ++ rest) rs1) as (rs2 & -> & H2); [by rewrite length_safe_bytes, length_replicate|done|]. cbn [mbind outcome_mbind negb].
  destruct (IH (acc ++ [thread_read t]) rest rs2 H2) as (rs3 & E & H3). exists rs3. split; [|done]. unfold thread_read at 1 in E. rewrite E. by rewrite <- app_assoc.
Qed.
Lemma ReadOtherThreadStack_ok ts rest rs : Forall (λ t, length (thread_request t) = sizeof_ThreadDumpRequest) ts → (length ts <= MAX_DUMP_THREAD_NUM)%nat → calm rs →
  ∃ rs', ReadOtherThreadStack (mkPipeReader rs (le_bytes 4 (length ts) ++ concat (map (full_slot memory) ts) ++ rest)) = Ret (true, map thread_read ts, mkPipeReader rs' rest) ∧ calm rs'.
Proof.
  intros Ht Hn Hc. unfold ReadOtherThreadStack. destruct (LoopReadPipe_ok 4 (le_bytes 4 (length ts)) (concat (map (full_slot memory) ts) ++ rest) rs (length_le_bytes _ _) Hc) as (rs1 & -> & H1). cbn [mbind outcome_mbind negb].
  rewrite count_of_bytes by done. rewrite (proj2 (Z.ltb_ge _ _)), (proj2 (Z.ltb_ge _ _)) by lia. cbn [orb]. rewrite Nat2Z.id. apply (read_threads_ok ts Ht [] rest rs1 H1).
Qed.

Definition near_info (reg : bool * Z) : MemoryBlockInfo := mkBlock reg.2 (u64 (reg.2 - mem_forward reg.1 * 8)) (le_words (mem_count reg.1) (near_block memory reg)).
Lemma read_blocks_ok regs : ∀ acc rest rs, calm rs → ∃ rs', read_blocks regs acc (mkPipeReader rs (concat (map (near_block memory) regs) ++ rest)) = Ret (acc ++ map near_info regs, mkPipeReader rs' rest) ∧ calm rs'.
Proof.
  induction regs as [|[b a] regs IH]; intros acc rest rs Hc; cbn [read_blocks map concat]; [exists rs; by rewrite app_nil_r|]. rewrite <- app_assoc. unfold ReadSingleRegMem.
  destruct (LoopReadPipe_ok (mem_count b * 8) (near_block memory (b, a)) (concat (map (near_block memory) regs) ++ rest) rs (length_near_block memory (b, a)) Hc) as (rs1 & -> & H1). cbn [mbind outcome_mbind].
  destruct (IH (acc ++ [near_info (b, a)]) rest rs1 H1) as (rs2 & E & H2). exists rs2. split; [|done]. unfold near_info at 1 in E. cbn [fst snd] in E. rewrite E. by rewrite <- app_assoc.
Qed.
Lemma read_tag_ok tag s rest rs : length s = 50%nat → c_str (map chr (patch 49 [0] s)) = tag → calm rs → ∃ rs', read_tag tag (mkPipeReader rs (s ++ rest)) = Ret (true, mkPipeReader rs' rest) ∧ calm rs'.
Proof.
  intros Hl Ht Hc. unfold read_tag. destruct (LoopReadPipe_ok 50 s rest rs Hl Hc) as (rs1 & -> & H1). cbn [mbind outcome_mbind]. exists rs1. by rewrite Ht, bool_decide_true.
Qed.
Lemma ReadMemoryNearRegister_ok d context rest rs : request_context (request_ d) = context → calm rs →
  ∃ rs', ReadMemoryNearRegister d (mkPipeReader rs (near_bytes memory context ++ rest)) =
    Ret (true, mkLiteDumper (request_ d) (stat_ d) (statm_ d) (stackBuf_ d) (otherThreads_ d) (blocksInfo_ d ++ map near_info (near_registers context)) (rawData_ d) (isJsonDump_ d), mkPipeReader rs' rest) ∧ calm rs'.
Proof.
  intros Hctx Hc. unfold ReadMemoryNearRegister, near_bytes. rewrite Hctx, <- !app_assoc. destruct (read_tag_ok (lit "start trans register") start_tag (concat (map (near_block memory) (near_registers context)) ++ end_tag ++ rest) rs) as (rs1 & -> & H1); [done..|]. cbn [mbind outcome_mbind negb].
  destruct (read_blocks_ok (near_registers context) (blocksInfo_ d) (end_tag ++ rest) rs1 H1) as (rs2 & -> & H2). cbn [mbind outcome_mbind].
  destruct (read_tag_ok (lit "end trans register") end_tag rest rs2) as (rs3 & -> & H3); [done..|]. cbn [mbind outcome_mbind]. by exists rs3.
Qed.
End Reading.

(** *** The whole of it *)
Lemma request_read_slice off n request : length request = sizeof_ProcessDumpRequest → (off + n <= off_request_threadName)%nat → slice off n (request_read request) = slice off n request.
Proof.
  intros Hl Ho. destruct lite_sizes as (_ & _ & _ & _ & S5 & _). unfold request_read, terminate. unfold off_request_threadName, off_request_processName, NAME_BUF_LEN_ in *.
  rewrite !slice_patch_ne; rewrite ?length_patch; cbn [length]; try lia; done.
Qed.
Lemma request_read_type request : length request = sizeof_ProcessDumpRequest → request_type (request_read request) = request_type request.
Proof. intros H. unfold request_type, field. rewrite request_read_slice; [done|done|]. unfold off_request_type, off_request_threadName. lia. Qed.
Lemma request_read_context request : length request = sizeof_ProcessDumpRequest → request_context (request_read request) = request_context request.
Proof.
  intros H. destruct lite_sizes as (_ & _ & _ & _ & _ & _ & _ & _ & _ & S10). unfold request_context. apply request_read_slice; [done|]. unfold off_request_context, off_request_threadName. lia.
Qed.

Section Roundtrip.
Context (memory : Z → option Z) (stat statm : option (list Z)) (request stack : list Z) (ts : list lite_thread) (raw : list Z).
(** What the reader has in the end. *)
Definition dump_read : LiteProcessDumper :=
  mkLiteDumper (request_read request) (file_text PROC_STAT_BUF_SIZE stat) (file_text PROC_STATM_BUF_SIZE statm) stack
    (map (thread_read memory) ts) (map (near_info memory) (near_registers (request_context request))) raw false.
Context (Hlen : length request = sizeof_ProcessDumpRequest) (Htype : request_type request = DUMP_TYPE_CPP_CRASH) (Hstack : length stack = PRIV_COPY_STACK_BUFFER_SIZE)
  (Hts : Forall (λ t, length (thread_request t) = sizeof_ThreadDumpRequest) ts) (Hn : (length ts <= MAX_DUMP_THREAD_NUM)%nat) (Hraw : Z.of_nat (length raw) < maxRawDataSize).

Lemma ReadRequest_ok rest rs : calm rs → ∃ rs', ReadRequest LiteProcessDumper_new (mkPipeReader rs (request ++ rest)) = Ret (true, mkLiteDumper (request_read request) [] [] [] [] [] [] false, mkPipeReader rs' rest) ∧ calm rs'.
Proof.
  intros Hc. unfold ReadRequest. destruct (LoopReadPipe_ok sizeof_ProcessDumpRequest request rest rs Hlen Hc) as (rs1 & -> & H1). cbn [mbind outcome_mbind negb]. rewrite request_read_type, Htype by done. by exists rs1.
Qed.
Lemma ReadStack_ok d rest rs : calm rs → ∃ rs', ReadStack d (mkPipeReader rs (stack ++ le_bytes 4 (length ts) ++ concat (map (full_slot memory) ts) ++ rest)) =
  Ret (true, mkLiteDumper (request_ d) (stat_ d) (statm_ d) stack (map (thread_read memory) ts) (blocksInfo_ d) (rawData_ d) (isJsonDump_ d), mkPipeReader rs' rest) ∧ calm rs'.
Proof.
  intros Hc. unfold ReadStack. destruct (LoopReadPipe_ok PRIV_COPY_STACK_BUFFER_SIZE stack (le_bytes 4 (length ts) ++ concat (map (full_slot memory) ts) ++ rest) rs Hstack Hc) as (rs1 & -> & H1). cbn [mbind outcome_mbind negb].
  destruct (ReadOtherThreadStack_ok memory ts rest rs1 Hts Hn H1) as (rs2 & -> & H2). cbn [mbind outcome_mbind]. by exists rs2.
Qed.
Ltac lite_step := cbv beta iota zeta delta [mbind outcome_mbind negb request_ stat_ statm_ stackBuf_ otherThreads_ blocksInfo_ rawData_ isJsonDump_ pr_in pr_results].
Lemma ReadContent_ok rs : calm rs → ReadContent LiteProcessDumper_new (mkPipeReader rs (lite_stream request
    ((file_area PROC_STAT_BUF_SIZE stat ++ file_area PROC_STATM_BUF_SIZE statm ++ stack) ++ le_bytes 4 (length ts) ++ concat (map (full_slot memory) ts)) (near_bytes memory (request_context request)) raw)) = Ret (true, dump_read).
Proof.
  intros Hc. destruct lite_sizes as (_ & _ & _ & _ & _ & S6 & S7 & _). unfold lite_stream, ReadContent. rewrite <- !app_assoc.
  match goal with |- context [mkPipeReader rs (request ++ ?rest)] => destruct (ReadRequest_ok rest rs Hc) as (rs1 & -> & H1) end. lite_step. rewrite request_read_type, Htype by done. change (DUMP_TYPE_CPP_CRASH =? DUMP_TYPE_CPP_CRASH) with true. lite_step.
  unfold ReadStat, ReadStatm. match goal with |- context [mkPipeReader rs1 (_ ++ ?rest)] => destruct (read_text_ok PROC_STAT_BUF_SIZE stat rest rs1 ltac:(lia) H1) as (rs2 & -> & H2) end. lite_step.
  match goal with |- context [mkPipeReader rs2 (_ ++ ?rest)] => destruct (read_text_ok PROC_STATM_BUF_SIZE statm rest rs2 ltac:(lia) H2) as (rs3 & -> & H3) end. lite_step.
  match goal with |- context [ReadStack ?d] => destruct (ReadStack_ok d (near_bytes memory (request_context request) ++ raw) rs3 H3) as (rs4 & -> & H4) end. lite_step.
  match goal with |- context [ReadMemoryNearRegister ?d] => destruct (ReadMemoryNearRegister_ok memory d (request_context request) raw rs4 (request_read_context request Hlen) H4) as (rs5 & -> & H5) end. lite_step.
  destruct H5 as [Hm Hr]. rewrite raw_loop_ok; [reflexivity|done|lia|lia|lia|cbn [length]; lia].
Qed.
End Roundtrip.

(** The mapping, and the part of it that has the slots. *)
Definition lite_total : nat := Z.to_nat (lite_mmapSize false).
Definition slots_room : nat := (MAX_DUMP_THREAD_NUM * slot_size)%nat.
Lemma raw_bytes_bound memory reads items addr : Z.of_nat (length (concat reads) + length (concat (map snd items))) <= 10 * 1024 * 1024 - 100 → Z.of_nat (length (raw_bytes memory reads items addr)) < maxRawDataSize.
Proof.
  intros H. destruct lite_sizes as (_ & _ & _ & _ & _ & _ & _ & _ & S9 & _). assert (Hj : Z.of_nat (length (jit_bytes memory addr)) <= 10485760).
  { unfold jit_bytes. destruct (addr =? 0); [done|]. pose proof (length_readable memory ARKWEB_JIT_SYMBOL_BUF_SIZE addr). lia. }
  unfold raw_bytes, text_bytes. rewrite !length_app, !length_map, !length_app. change (length mapEndFlag) with 18%nat. change (length open_tag) with 11%nat. change (length open_end_tag) with 20%nat. unfold maxRawDataSize. lia.
Qed.
Lemma thread_slots k memory ts : Forall (thread_ok k) ts → length (concat (map (full_slot memory) ts)) = (length ts * slot_size)%nat.
Proof. induction 1 as [|t ts [Ht _ _] _ IH]; [done|]. cbn [map concat length]. unfold full_slot at 1. rewrite !length_app, length_safe_bytes, length_replicate, IH, Ht, slot_size_eq. lia. Qed.

(** C7. A dump that a process makes of itself is the dump that is printed.  The handlers of the other
    threads may interleave in any way, as long as none of them writes to the pipe of the process while
    another has something in it, and are through before the wait is over; the system calls on the pipe to
    the reader may transfer what they like, be interrupted or have to be repeated, on both ends.  Then
    the reader has the request, the texts of the stat and statm files, the stack of the faulting thread,
    a record and the stack of every other thread, each of them once, the memory near every register, and
    the maps, open files and symbols, byte for byte. *)
Theorem lite_dump_roundtrip memory k tag_type tag_value stat statm env reads entries owners request threads sched late g w rs :
  0 <= k <= 16 → page_uniform k memory →
  collect_ok memory k stat statm request threads sched lite_total slots_room →
  lite_env_ok memory k env reads entries owners →
  length request = sizeof_ProcessDumpRequest → g_pipe g = [] → pw_out w = [] → calm (pw_results w) → calm rs →
  Z.of_nat (length (concat reads) + length (concat (map snd (open_items tag_type tag_value owners entries)))) <= 10 * 1024 * 1024 - 100 →
  ∃ ts addr g' w',
    ts ≡ₚ threads ∧
    DumpPrviProcess (2 ^ k) memory tag_type tag_value true stat statm env request threads sched late g w = Ret (true, g', w') ∧
    ReadContent LiteProcessDumper_new (mkPipeReader rs (pw_out w')) =
      Ret (true, dump_read memory stat statm request (safe_bytes memory (stack_src (request_context request)) (replicate PRIV_COPY_STACK_BUFFER_SIZE 0)) ts
                   (raw_bytes memory reads (open_items tag_type tag_value owners entries) addr)).
Proof.
  intros Hk Hu Hco He Hl Hg Ho Hw Hrs Hraw. destruct (lite_collect_ok memory k Hk Hu stat statm request threads sched late lite_total slots_room eq_refl eq_refl g Hco Hg) as (ts & a & b & c & Hp & E).
  destruct Hco as [H1 H2 H3 H4 _ _]. assert (H3' : Forall (thread_ok k) ts) by by rewrite Hp. assert (Hlen : length ts = length threads) by by rewrite Hp. unfold DumpPrviProcess. rewrite E. cbn [mbind outcome_mbind negb]. rewrite <- Hlen.
  destruct (LiteCrashHandler_emits memory k Hk Hu tag_type tag_value env reads entries owners request (collected_head memory stat statm request) (length ts) (concat (map (full_slot memory) ts)) (replicate (slots_room - length ts * slot_size) 0) lite_total a b c [] He H1 ltac:(lia) (thread_slots k memory ts H3')) as (addr & ok & Hem).
  destruct (Hem w Hw) as (rs' & Eh & _). exists ts, addr. do 2 eexists. split; [exact Hp|]. split; [rewrite Eh; reflexivity|]. cbn [pw_out]. rewrite Ho. cbn [app]. unfold collected_head.
  apply ReadContent_ok; [done|done|by rewrite length_safe_bytes, length_replicate| |lia|by apply raw_bytes_bound|done].
  eapply Forall_impl; [|exact H3']. by intros t [? _ _].
Qed.

(** A process with a page of memory, the stack of its faulting thread, and a second thread. *)
Definition w_memory (a : Z) : option Z := if a / 2 ^ 16 =? 1 then Some (a mod 256) else None.
Definition w_request : list Z := replicate 608 0 ++ le_bytes 8 65792 ++ replicate 4552 0.
Definition w_thread : lite_thread := mkLiteThread 7 7 (replicate 128 65) (replicate 8 0) (replicate 4560 0).
Definition w_maps : list Z := text_bytes (lit "00400000-00401000 r-xp 00000000 00:00 1 /bin/x" ++ [chr 10]).
Definition w_env : lite_env := mkLiteEnv [] (Some [w_maps]) (replicate LINE_BUF_SIZE 0) (Some [(lit ".", None); (lit "3", Some (lit "/dev/null"))]) false true true 0.
Definition w_type (_ : Z) : list ascii := lit "FILE*".
Lemma w_uniform : page_uniform 16 w_memory.
Proof. intros a b E. unfold w_memory. rewrite E. destruct (b / 2 ^ 16 =? 1); [by eexists|by intros [? ?]]. Qed.
Lemma single_exclusive pageSize memory t sched : ∀ ph g, exclusive pageSize memory [t] sched [ph] g = true.
Proof.
  induction sched as [|i sched IH]; intros ph g; [done|]. destruct i as [|i]; [|apply IH]. cbn [exclusive lookup list_lookup]. apply andb_true_iff. split; [by destruct ph|].
  destruct (handler_next _ _ _ _ _) as [[ph' g']| |]; [apply IH|done|done].
Qed.
Lemma w_completes total : completes w_memory 16 [w_thread] [0; 0; 0]%nat (before_handlers w_memory None (Some [49; 50]) w_request [w_thread] total slots_room) = true.
Proof.
  destruct lite_sizes as (S1 & _ & S3 & S4 & _). assert (Hsp : uc_sp (lt_context w_thread) = 0) by (vm_compute; reflexivity). assert (Hl : length (thread_request w_thread) = sizeof_ThreadDumpRequest) by (vm_compute; reflexivity).
  unfold completes, before_handlers. generalize (collected_head w_memory None (Some [49; 50]) w_request). intros P. assert (HR : (slot_size <= slots_room)%nat) by (unfold slots_room; nia). cbn [length replicate run_handlers lookup list_lookup].
  cbn [handler_next g_threadStartCount g_threadSentCount g_threadCompletedCount]. rewrite (proj2 (Nat.leb_gt _ _)) by lia. cbn [mbind outcome_mbind insert list_insert lookup list_lookup handler_next].
  unfold slot_at, poke_space, set_thread_counts. cbn [g_mmapSpace g_mmapPos]. rewrite poke_bytes_Ret by (rewrite Hl, length_app, length_replicate; pose proof slot_size_eq; lia). cbn [mbind outcome_mbind insert list_insert lookup list_lookup handler_next].
  rewrite Hsp. done.
Qed.
Lemma w_collect_ok : collect_ok w_memory 16 None (Some [49; 50]) w_request [w_thread] [0; 0; 0]%nat lite_total slots_room.
Proof.
  destruct lite_sizes as (S1 & S2 & S3 & _). assert (Hsrc : stack_src (request_context w_request) = 65536) by (vm_compute; reflexivity). split.
  - vm_compute. reflexivity.
  - left. rewrite Hsrc. lia.
  - assert (Hsp : uc_sp (lt_context w_thread) = 0) by (vm_compute; reflexivity). constructor; [split; [vm_compute; reflexivity|rewrite Hsp; lia|rewrite Hsp; lia]|constructor].
  - cbn. lia.
  - apply single_exclusive.
  - apply w_completes.
Qed.
Lemma w_env_ok : lite_env_ok w_memory 16 w_env [w_maps] [(lit ".", None); (lit "3", Some (lit "/dev/null"))] (replicate 128 0).
Proof.
  destruct lite_sizes as (_ & _ & _ & _ & _ & _ & _ & S8 & _). split; try done.
  - constructor; [|constructor]. assert (length w_maps = 47)%nat as -> by (vm_compute; reflexivity). lia.
  - by exists (mkFdTableEntry None 128), (mkFdTableEntry (Some []) 0).
Qed.
Lemma lite_dump_roundtrip_witness : ∃ ts addr g' w', ts ≡ₚ [w_thread] ∧
  DumpPrviProcess (2 ^ 16) w_memory w_type (λ t, t) true None (Some [49; 50]) w_env w_request [w_thread] [0; 0; 0]%nat [0]%nat (mkLite None 3 0 1 1 0 []) (mkPipeWriter [Again; Done 3; Intr] []) = Ret (true, g', w') ∧
  ReadContent LiteProcessDumper_new (mkPipeReader [Intr; Done 1] (pw_out w')) =
    Ret (true, dump_read w_memory None (Some [49; 50]) w_request (safe_bytes w_memory (stack_src (request_context w_request)) (replicate PRIV_COPY_STACK_BUFFER_SIZE 0)) ts
      (raw_bytes w_memory [w_maps] (open_items w_type (λ t, t) (replicate 128 0) [(lit ".", None); (lit "3", Some (lit "/dev/null"))]) addr)).
Proof.
  apply lite_dump_roundtrip; [lia|exact w_uniform|exact w_collect_ok|exact w_env_ok|vm_compute; reflexivity|reflexivity|reflexivity|split; [repeat constructor|]; vm_compute; discriminate..|].
  vm_compute. discriminate.
Defined.

(** ** What the reader makes of the rest *)
Definition NL : ascii := chr 10.
Lemma getline_line l rest : NL ∉ l → getline (l ++ NL :: rest) = (l, rest).
Proof.
  induction l as [|c l IH]; intros H; cbn [app getline]; [done|]. apply not_elem_of_cons in H as [Hc H]. rewrite (proj2 (Ascii.eqb_neq c (chr 10))) by (intros ->; by apply Hc). by rewrite IH.
Qed.
Lemma digits_code b ds : b <= 10 → Forall (λ d, 0 <= d < b) ds → Forall (λ c, 48 <= code c <= 57) (map digit_char ds).
Proof.
  intros Hb H. apply Forall_map. eapply Forall_impl; [|exact H]. intros d Hd. cbv beta in Hd. unfold digit_char, compose. rewrite (proj2 (Z.ltb_lt d 10)) by lia. rewrite code_chr by (unfold fits; lia). lia.
Qed.
Lemma digits_loop_print ds : ∀ acc, Forall (λ d, 0 <= d < 10) ds → digits_loop 10 acc (map digit_char ds) = (fold_left (λ a d, a * 10 + d) ds acc, []).
Proof.
  induction ds as [|d ds IH]; intros acc H; [done|]. apply list.Forall_cons in H as [Hd H]. cbn [map digits_loop fold_left]. assert (base_digit 10 (digit_char d) = Some d) as ->; [|by apply IH].
  unfold base_digit, digit_char. rewrite (proj2 (Z.ltb_lt d 10)) by lia. rewrite code_chr by (unfold fits; lia). rewrite (proj2 (Z.leb_le 48 (48 + d))), (proj2 (Z.leb_le (48 + d) 57)) by lia. cbn [andb]. replace (48 + d - 48) with d by lia. by rewrite (proj2 (Z.ltb_lt d 10)) by lia.
Qed.
Lemma print_dec_chars n : 0 <= n → Forall (λ c, 48 <= code c <= 57) (print_dec n).
Proof. intros H. apply (digits_code 10); [lia|]. apply to_digits_range; lia. Qed.
Lemma print_dec_without c n : 0 <= n → code c < 48 → c ∉ print_dec n.
Proof. intros H Hc Hin. pose proof (print_dec_chars n H) as HF. rewrite list.Forall_forall in HF. specialize (HF c Hin). cbn in HF. lia. Qed.
Lemma scan_number_print n : 0 <= n < 2 ^ 63 → scan_number 10 (print_dec n) = Some (n, []).
Proof.
  intros Hn. pose proof (print_dec_chars n ltac:(lia)) as HF. assert (Hl : digits_loop 10 0 (print_dec n) = (n, [])).
  { unfold print_dec. rewrite digits_loop_print by (apply to_digits_range; lia). f_equal. change (of_digits 10 (to_digits 20 10 n) = n). apply of_to_digits; [lia|]. change (10 ^ 20%nat) with 100000000000000000000. lia. }
  destruct (print_dec n) as [|c s] eqn:E; [exfalso; unfold print_dec in E; apply map_eq_nil in E; by apply to_digits_nonempty in E|].
  apply list.Forall_cons in HF as [Hc HF]. assert (Hs : ∀ d, code d < 48 → c ≠ d) by (intros d Hd ->; lia). assert (Hd : is_Some (base_digit 10 c)).
  { unfold base_digit. rewrite (proj2 (Z.leb_le 48 (code c))), (proj2 (Z.leb_le (code c) 57)) by lia. cbn [andb]. rewrite (proj2 (Z.ltb_lt _ _)) by lia. by eexists. }
  unfold scan_number. rewrite (drop_while_stop _ _ c s); [|done|]; cycle 1.
  { unfold isspace. rewrite (proj2 (Z.leb_gt (code c) 13)), (proj2 (Z.eqb_neq (code c) 32)) by lia. by rewrite andb_false_r. }
  rewrite (proj2 (Ascii.eqb_neq c "-"%char)), (proj2 (Ascii.eqb_neq c "+"%char)) by (apply Hs; done). change (10 =? 16) with false. cbn [andb].
  replace (match s with x :: c0 :: s' => _ | _ => _ end) with (c :: s) by (destruct s as [|? [|? ?]]; done). destruct Hd as [d Hd]. by rewrite Hd, Hl.
Qed.
Lemma SafeStrtol_print n : 0 <= n < 2 ^ 63 → SafeStrtol (print_dec n) = Some n.
Proof.
  intros Hn. unfold SafeStrtol. rewrite c_str_id by (apply print_dec_without; [lia|done]). change DECIMAL_BASE_ with 10. rewrite scan_number_print by done.
  assert (H0 : n = 0 → head (print_dec n) = Some "0"%char) by by intros ->. destruct (print_dec n) as [|c s] eqn:E; [exfalso; unfold print_dec in E; apply map_eq_nil in E; by apply to_digits_nonempty in E|].
  assert (sfitsb 64 n = true) as -> by (unfold sfitsb; rewrite (proj2 (Z.leb_le _ _)), (proj2 (Z.ltb_lt _ _)) by (change (64 - 1) with 63; lia); done). cbn [negb].
  destruct (Z.eqb_spec n 0) as [->|Hne]; [|done]. specialize (H0 eq_refl). cbn in H0. injection H0 as ->. done.
Qed.

Definition text_of (lines : list (list ascii)) : list ascii := concat (map (λ l, l ++ [NL]) lines).
Lemma length_text_of lines : (length lines <= length (text_of lines))%nat.
Proof. unfold text_of. induction lines as [|l lines IH]; [done|]. cbn [map concat length]. rewrite !length_app. cbn [length]. lia. Qed.
Lemma text_of_line l lines rest : text_of (l :: lines) ++ rest = l ++ NL :: text_of lines ++ rest.
Proof. unfold text_of. cbn [map concat]. by rewrite <- !app_assoc. Qed.

(** The maps parser leaves what follows its mark. *)
Lemma buffer_lines_rest arkWebPrefix bundleName buffer rest lines : Forall (λ l, NL ∉ l ∧ l ≠ lit "Parse_Maps_Finish") lines → ∀ fuel ark s n, (length lines < fuel)%nat →
  ∃ ark' s' n', buffer_lines arkWebPrefix bundleName fuel buffer (text_of lines ++ mapEndFlag ++ rest) ark s n = Ret (rest, ark', s', n').
Proof.
  induction 1 as [|l lines [Hl Hne] _ IH]; intros fuel ark s n Hf; (destruct fuel as [|fuel]; [lia|]).
  - change (text_of [] ++ mapEndFlag ++ rest) with (lit "Parse_Maps_Finish" ++ NL :: rest). pose proof (getline_line (lit "Parse_Maps_Finish") rest) as Hg. cbn [buffer_lines lit String.list_ascii_of_string app] in Hg |- *. rewrite Hg by (apply (bool_decide_unpack _); vm_compute; exact I). rewrite bool_decide_true by done. by exists ark, s, n.
  - cbn [length] in Hf. rewrite text_of_line. cbn [buffer_lines]. assert (Hm : ∀ A (x y : A), match l ++ NL :: text_of lines ++ mapEndFlag ++ rest with [] => x | _ :: _ => y end = y) by (intros; by destruct l). rewrite Hm, getline_line, bool_decide_false by done.
    destruct (map_Parse DfxMap_default l) as [[] m]; [|apply IH; lia]. destruct (FormatMapName_bundle _ _ _ _) as [name so]. apply IH. lia.
Qed.
Lemma ParseByBuffer_rest arkWebPrefix bundleName lines rest ark s : Forall (λ l, NL ∉ l ∧ l ≠ lit "Parse_Maps_Finish") lines →
  ∃ ok ark' s', ParseByBuffer arkWebPrefix bundleName (text_of lines ++ mapEndFlag ++ rest) ark s = Ret (ok, rest, ark', s').
Proof.
  intros H. set (buffer := text_of lines ++ mapEndFlag ++ rest). assert (Hlen : (length lines < length buffer)%nat) by (unfold buffer; rewrite !length_app; pose proof (length_text_of lines); change (length mapEndFlag) with 18%nat; lia).
  destruct (buffer_lines_rest arkWebPrefix bundleName buffer rest lines H (length buffer) ark s 0 Hlen) as (ark' & s' & n' & E). fold buffer in E. unfold ParseByBuffer. destruct buffer as [|c b]; [cbn in Hlen; lia|]. rewrite E. cbn. by do 3 eexists.
Qed.

(** A line with a descriptor. *)
Definition item_ok (item : Z * list ascii) : Prop := 0 <= item.1 < 2 ^ 31 ∧ ∃ body, item.2 = (print_dec item.1 ++ "-"%char :: body) ++ [NL] ∧ NL ∉ body.
Lemma find_char_app c l rest : c ∉ l → find_char c (l ++ c :: rest) = Some (length l).
Proof.
  induction l as [|d l IH]; intros H; cbn [app find_char length]; [by rewrite Ascii.eqb_refl|]. apply not_elem_of_cons in H as [Hc H]. rewrite (proj2 (Ascii.eqb_neq c d)) by done. by rewrite IH.
Qed.
Lemma open_lines_items text rest items : Forall item_ok items → NoDup (map fst items) → ∀ fuel files, (length items < fuel)%nat → (∀ fd, fd ∈ map fst items → files !! fd = None) →
  open_lines fuel text (concat (map snd items) ++ open_end_tag ++ rest) files = Ret (list_to_map items ∪ files, rest).
Proof.
  induction 1 as [|[fd s] items [Hfd (body & Es & Hb)] _ IH]; intros Hnd fuel files Hf Hfiles; (destruct fuel as [|fuel]; [lia|]).
  - change (concat (map snd []) ++ open_end_tag ++ rest) with (lit "end trans openfiles" ++ NL :: rest). pose proof (getline_line (lit "end trans openfiles") rest) as Hg. cbn [open_lines lit String.list_ascii_of_string app] in Hg |- *. rewrite Hg by (apply (bool_decide_unpack _); vm_compute; exact I). rewrite bool_decide_true by done. cbn. by rewrite (left_id_L ∅ _).
  - cbn [fst snd] in *. cbn [map concat snd]. rewrite Es. set (line := print_dec fd ++ "-"%char :: body) in *. rewrite <- !app_assoc. cbn [app]. cbn [length] in Hf. apply list.NoDup_cons in Hnd as [Hni Hnd].
    assert (Hnl : NL ∉ line) by (unfold line; rewrite not_elem_of_app, not_elem_of_cons; split; [by apply print_dec_without; [lia|]|done]). cbn [open_lines]. set (more := concat (map snd items) ++ open_end_tag ++ rest) in *.
    assert (Hm : ∀ A (x y : A), match line ++ NL :: more with [] => x | _ :: _ => y end = y) by (intros; unfold line; by destruct (print_dec fd)). rewrite Hm, getline_line by done. rewrite bool_decide_false.
    2:{ intros E. assert ("-"%char ∈ lit "end trans openfiles") as Hin; [rewrite <- E; unfold line; apply elem_of_app; right; left|]. revert Hin. apply (bool_decide_unpack _). vm_compute. exact I. }
    unfold line at 1. rewrite find_char_app by by apply print_dec_without; [lia|]. unfold line at 1. rewrite take_app_length, SafeStrtol_print by lia. rewrite (swrap_small 32 fd) by (unfold sfits; lia). rewrite (Hfiles fd) by (cbn; left). unfold more. rewrite IH; [|done|lia|].
    + cbn [list_to_map foldr curry fst snd]. do 2 f_equal. rewrite <- insert_union_r; [by rewrite insert_union_l|]. by apply not_elem_of_list_to_map_1.
    + intros fd' Hin. rewrite lookup_insert_ne; [apply Hfiles; cbn; by right|]. intros ->. done.
Qed.

Section Rest.
Context (tag_type : Z → list ascii) (tag_value : Z → Z).
(** Names of owners are short, and no text has a line break in it. *)
Record texts_ok (entries : list (list ascii * option (list ascii))) : Prop := {
  tx_type t : (length (tag_type t) <= 200)%nat ∧ NL ∉ tag_type t;
  tx_value t : 0 <= tag_value t;
  tx_entries : Forall (λ e, ∀ target, e.2 = Some target → NL ∉ target) entries
}.
Lemma open_items_ok owners entries : texts_ok entries → Z.of_nat (length owners) <= 2 ^ 31 → Forall item_ok (open_items tag_type tag_value owners entries).
Proof.
  intros [Ht Hv He] Hown. induction He as [|[name target] entries Hn _ IH]; [constructor|]. unfold open_items. cbn [omap list_omap]. fold (open_items tag_type tag_value owners entries). destruct (open_item _ _ _ _) as [[fd s]|] eqn:E; [|done]. constructor; [|done].
  unfold open_item in E. cbn [fst snd] in E, Hn. destruct target as [target|]; [|done]. cbn [mbind option_bind] in E. destruct (SafeStrtol name) as [v|] eqn:Ev; [|done]. cbn [mbind option_bind] in E. destruct (Z.ltb_spec v 0) as [|H0]; [done|]. destruct (owners !! Z.to_nat v) as [tag|] eqn:Eo; [|done]. apply lookup_lt_Some in Eo. cbn [mbind option_bind] in E.
  injection E as -> <-. destruct (Ht tag) as [Htl Htn]. specialize (Hn target eq_refl). assert (Hd : ∀ x, (length (print_dec x) <= 20)%nat) by (intros x; unfold print_dec; rewrite length_map; apply length_to_digits). split; [cbn; lia|].
  exists (">"%char :: take 255 target ++ lit " " ++ tag_type tag ++ lit " " ++ print_dec (tag_value tag)). cbn [fst snd]. split.
  - rewrite take_ge; [unfold file_item; cbn [app lit String.list_ascii_of_string]; repeat (rewrite <- app_assoc; cbn [app]); reflexivity|]. unfold file_item. rewrite !length_app, length_take. pose proof (Hd fd). pose proof (Hd (tag_value tag)). cbn [length lit String.list_ascii_of_string]. lia.
  - rewrite not_elem_of_cons, !not_elem_of_app. split; [done|]. split; [intros Hin; apply Hn; by eapply subseteq_take|]. split; [apply (bool_decide_unpack _); vm_compute; exact I|]. split; [done|]. split; [apply (bool_decide_unpack _); vm_compute; exact I|]. by apply print_dec_without; [apply Hv|].
Qed.
Lemma chr_text_bytes s : map chr (text_bytes s) = s.
Proof. unfold text_bytes. rewrite map_map. rewrite <- (map_id s) at 2. apply map_ext, chr_code. Qed.

(** C8. What a lite dump has after the memory blocks is taken apart where it was put together: the maps
    parser stops at the mark after the last line of the maps, and what it leaves is read as one entry for
    each open file, its line under its descriptor, followed by the symbols and nothing else. *)
Theorem lite_rest_parsed memory lines reads owners entries addr arkWebPrefix bundleName ark s :
  concat reads = text_bytes (text_of lines) → Forall (λ l, NL ∉ l ∧ l ≠ lit "Parse_Maps_Finish") lines → texts_ok entries → Z.of_nat (length owners) <= 2 ^ 31 →
  let items := open_items tag_type tag_value owners entries in
  NoDup (map fst items) →
  ∃ ok rest ark' s', ParseByBuffer arkWebPrefix bundleName (map chr (raw_bytes memory reads items addr)) ark s = Ret (ok, rest, ark', s') ∧
    lp_CollectOpenFiles DUMP_TYPE_CPP_CRASH rest = Ret (list_to_map items, map chr (jit_bytes memory addr)).
Proof.
  intros Hr Hl Ht Hown items Hnd. assert (E : map chr (raw_bytes memory reads items addr) = text_of lines ++ mapEndFlag ++ open_tag ++ concat (map snd items) ++ open_end_tag ++ map chr (jit_bytes memory addr)).
  { unfold raw_bytes. rewrite Hr, !map_app, !chr_text_bytes. by rewrite <- !app_assoc. }
  rewrite E. destruct (ParseByBuffer_rest arkWebPrefix bundleName lines (open_tag ++ concat (map snd items) ++ open_end_tag ++ map chr (jit_bytes memory addr)) ark s Hl) as (ok & ark' & s' & Ep). exists ok, (open_tag ++ concat (map snd items) ++ open_end_tag ++ map chr (jit_bytes memory addr)), ark', s'. split; [exact Ep|].
  unfold lp_CollectOpenFiles. change (DUMP_TYPE_CPP_CRASH =? DUMP_TYPE_DUMP_CATCH) with false. set (text := open_tag ++ _). pose proof (open_items_ok owners entries Ht Hown) as Hok. fold items in Hok.
  assert (Hlen : (S (length items) < length text)%nat).
  { assert (length items <= length (concat (map snd items)))%nat; [|unfold text; rewrite !length_app; change (length open_tag) with 11%nat; lia]. clear Ep E text Hnd. clearbody items. induction Hok as [|[fd x] items [_ (b & Es & _)] _ IH]; [done|]. cbn [map concat length snd fst] in *. rewrite length_app, Es, length_app. cbn [length]. lia. }
  destruct (length text) as [|fuel] eqn:El; [lia|]. assert (Et : text = lit "OpenFiles:" ++ NL :: concat (map snd items) ++ open_end_tag ++ map chr (jit_bytes memory addr)) by done.
  transitivity (open_lines fuel text (concat (map snd items) ++ open_end_tag ++ map chr (jit_bytes memory addr)) ∅).
  - rewrite Et at 2. pose proof (getline_line (lit "OpenFiles:") (concat (map snd items) ++ open_end_tag ++ map chr (jit_bytes memory addr))) as Hg. cbn [open_lines lit String.list_ascii_of_string app] in Hg |- *. rewrite Hg by (apply (bool_decide_unpack _); vm_compute; exact I). done.
  - rewrite open_lines_items; [by rewrite (right_id_L ∅ _)|done|done|lia|]. intros fd _. apply lookup_empty.
Qed.
End Rest.
Lemma lite_rest_parsed_witness : ∃ ok rest ark' s',
  ParseByBuffer (lit "libweb") (lit "com.x") (map chr (raw_bytes w_memory [w_maps] (open_items w_type (λ t, Z.abs t) (replicate 128 0) [(lit ".", None); (lit "3", Some (lit "/dev/null")); (lit "7", Some (lit "socket:[9]"))]) 65530)) false DfxMaps_new = Ret (ok, rest, ark', s') ∧
  lp_CollectOpenFiles DUMP_TYPE_CPP_CRASH rest = Ret (list_to_map (open_items w_type (λ t, Z.abs t) (replicate 128 0) [(lit ".", None); (lit "3", Some (lit "/dev/null")); (lit "7", Some (lit "socket:[9]"))]), map chr (jit_bytes w_memory 65530)).
Proof.
  apply (lite_rest_parsed w_type (λ t, Z.abs t) w_memory [lit "00400000-00401000 r-xp 00000000 00:00 1 /bin/x"] [w_maps]).
  - vm_compute. reflexivity.
  - constructor; [|constructor]. apply (bool_decide_unpack _). vm_compute. exact I.
  - split; [intros t; split; [vm_compute; lia|]; apply (bool_decide_unpack _); vm_compute; exact I|intros t; lia|]. repeat constructor; intros target [= <-]; apply (bool_decide_unpack _); vm_compute; exact I.
  - vm_compute. discriminate.
  - apply (bool_decide_unpack _). vm_compute. exact I.
Defined.

(** ** The number of a thread in its status file *)
Lemma status_scan_line item l rest : NL ∉ l → NUL ∉ l → ∀ buf, (length buf + length l < LINE_BUF_SIZE)%nat →
  status_scan item (l ++ NL :: rest) buf = if StartsWith (buf ++ l) item then status_number (buf ++ l) else status_scan item rest [].
Proof.
  induction l as [|c l IH]; intros Hn H0 buf Hl; cbn [app status_scan].
  - rewrite app_nil_r. cbn [length] in Hl. change (Ascii.eqb NL NUL) with false. change (Ascii.eqb NL (chr 10)) with true. cbn [orb]. by rewrite take_ge by lia.
  - apply not_elem_of_cons in Hn as [Hcn Hn]. apply not_elem_of_cons in H0 as [Hc0 H0]. cbn [length] in Hl. rewrite (proj2 (Ascii.eqb_neq c NUL)), (proj2 (Ascii.eqb_neq c (chr 10))) by (intros ->; done). rewrite (proj2 (Nat.eqb_neq _ _)) by lia. cbn [orb].
    rewrite IH; [by rewrite <- !app_assoc|done|done|rewrite length_app; cbn [length]; lia].
Qed.
Lemma scan_int_print n : 0 <= n < 2 ^ 31 → scan_int (print_dec n) = Some n.
Proof. intros Hn. unfold scan_int. rewrite scan_number_print by lia. cbn. f_equal. unfold clamp. lia. Qed.
(** The line is found among others that do not fill the buffer. *)
Lemma GetProcId_found lines n rest : Forall (λ l, NL ∉ l ∧ NUL ∉ l ∧ (length l < LINE_BUF_SIZE)%nat ∧ StartsWith l (lit "Pid:") = false) lines → 0 <= n < 2 ^ 31 →
  GetProcId (lit "Pid:") (Some (text_of lines ++ (lit "Pid:" ++ chr 9 :: print_dec n) ++ NL :: rest)) = n.
Proof.
  intros H Hn. destruct lite_sizes as (_ & _ & _ & _ & _ & _ & _ & S8 & _). cbn [GetProcId]. induction H as [|l lines (H1 & H2 & H3 & H4) _ IH].
  - change (text_of [] ++ ?x) with x. assert (Hl : (length (print_dec n) <= 20)%nat) by (unfold print_dec; rewrite length_map; apply length_to_digits). rewrite status_scan_line.
    + cbn [app]. rewrite StartsWith_app. cbn [app lit String.list_ascii_of_string status_number]. change (digitb "P"%char) with false. cbn iota.
      assert (E : drop_while (λ c, negb (digitb c)) ("i"%char :: "d"%char :: ":"%char :: chr 9 :: print_dec n) = print_dec n).
      { change (drop_while (λ c, negb (digitb c)) (print_dec n) = print_dec n). pose proof (print_dec_chars n ltac:(lia)) as HF. destruct HF as [|c s Hc _]; [done|]. cbn [drop_while]. unfold digitb. by rewrite (proj2 (Z.leb_le 48 (code c))), (proj2 (Z.leb_le (code c) 57)) by lia. }
      rewrite E, scan_int_print by done. done.
    + rewrite not_elem_of_app, not_elem_of_cons. split; [apply (bool_decide_unpack _); vm_compute; exact I|]. split; [done|]. by apply print_dec_without; [lia|].
    + rewrite not_elem_of_app, not_elem_of_cons. split; [apply (bool_decide_unpack _); vm_compute; exact I|]. split; [done|]. by apply print_dec_without; [lia|].
    + rewrite length_app. cbn [length lit String.list_ascii_of_string]. lia.
  - rewrite text_of_line, status_scan_line, app_nil_l, H4; [exact IH|done|done|cbn; lia].
Qed.

(** ** What goes wrong *)

(** The reader labels a block with the address in the register; the block starts at the masked and
    aligned one. *)
Lemma near_label_differs memory : startAddr (near_info memory (false, 4099)) = 4083 ∧ near_start false 4099 = 4080.
Proof. by vm_compute. Qed.
(** The array is searched as a string, and nothing terminates it. *)
Lemma maps_array_unterminated : CollectMaps (Some [replicate 1023 97]) (replicate 1024 97) (mkPipeWriter [] []) = Undef OutOfBounds.
Proof. vm_compute. reflexivity. Qed.
(** Two handlers with data in the pipe of the process: the one that reads first gets what was written
    first, whoever wrote it. *)
Lemma pipe_mixes_threads memory t t' pos k n g bs bs' space : g_mmapSpace g = Some space → g_pipe g = bs ++ bs' → length bs = n → (slot_at g pos + sizeof_ThreadDumpRequest + k + n <= length space)%nat →
  handler_next (2 ^ 12) memory t (HPiped pos k n) g = handler_next (2 ^ 12) memory t' (HPiped pos k n) g ∧
  handler_next (2 ^ 12) memory t (HPiped pos k n) g = Ret (HCopy pos (k + n), set_space (patch (slot_at g pos + sizeof_ThreadDumpRequest + k) bs space) (set_pipe bs' g)).
Proof.
  intros Hs Hp Hl Hb. split; [done|]. cbn [handler_next]. unfold pipe_read. rewrite Hp, take_app_length', drop_app_length' by done. unfold poke_space. change (g_mmapSpace (set_pipe bs' g)) with (g_mmapSpace g). rewrite Hs, poke_bytes_Ret by lia. done.
Qed.
